(* ===== verification/_CoqProject ===== *)
-Q . S2P
Prelude.v
RustStr.v
Utf8.v
StreamText.v
InlineHiddenTag.v
Citation.v
TaggedLine.v
ProposedPlan.v
AssistantText.v
Utf8Stream.v
SeekSequence.v
Replacements.v
PatchParser.v
PatchRoundtrip.v
StreamingPatch.v
ApplyHunks.v
TurnDiffTracker.v
RustPath.v
AbsolutePath.v
BashTree.v
PatchInvocation.v
CommandSafety.v
ExecPolicy.v
ExecPolicyParser.v
ExecPolicyAmend.v
Utf8Text.v
Truncation.v
ResponseItem.v
ContextNormalize.v
ContextManager.v
AgentPath.v
AgentRegistry.v
HeadTailBuffer.v
Permissions.v
PermissionRoots.v
PermissionProfile.v
SandboxTransforms.v
ExecApproval.v
PatchSafety.v
Effects.v
Approvals.v
NetworkApproval.v
Orchestrator.v
IpAddr.v
NetworkPolicy.v
KeyInput.v
TextArea.v
TextAreaSafe.v
PasteBurst.v
SlashCommand.v
Attachments.v
Composer.v
ComposerTyping.v
ComposerSubmit.v
ComposerPastes.v
EventMapping.v
CompactHistory.v
RolloutReplay.v
RolloutTruncate.v
Scheduling.v
Crontab.v
ConfigMerge.v
ConfigLayers.v
ConfigLoader.v
ConfigEdits.v
InputQueue.v
SessionTurns.v
SessionSteering.v
