(* ===== verification/Prelude.v ===== *)
(** * A verification library for Ata (codex-rs)

    Ata is a coding agent: a Rust workspace ([src/codex-rs]) around a loop that
    streams text from a model, runs the commands and applies the patches the
    model asks for, and shows the user what happened.  This library models the
    parts of that loop that are pure or have a small explicit state, and proves
    what they promise to each other.

    ** Reading the model

    - Text is a list of Unicode scalar values ([RustStr.rstring]).  In the
      parsers of streams and patches byte offsets become character offsets, which
      is exact because the code only slices at character boundaries it has just
      found.  Where offsets are stored or computed they stay bytes: in [Utf8],
      [Utf8Text], [Truncation], the text area and the composer, and a slice off a
      boundary is a panic.
    - A call that can fail returns [outcome]: [Ok], [Err], or [Panic] for a
      slice out of range, an index out of range or an [expect] on [None]; code
      that can only panic returns [option].  "Never panics" is a theorem
      ([r <> Panic], or [has_post]: the call returns a value with a property), not an
      assumption.
    - Objects with state are records, and a method maps the record to the new
      record and its result.  Files and environment are explicit arguments; what
      an operating-system call may do is a class with laws, a record of faults,
      or a parameter.  Third-party code (Starlark, shlex, serde_json, a line
      diff, SHA-1, the home directory) is a parameter, with its documented
      behaviour as a named hypothesis where a theorem needs it.
    - Machine integers saturate where the code saturates; lengths of texts and
      lists are natural numbers, since the code never does arithmetic on them
      that could exceed the address space.
    - Loops that do not consume their input structurally take fuel, computed
      from the input by the function that starts them; that the fuel suffices
      (the loop never reports exhaustion) is part of the theorems
      ([parse_patch_total], [inline_chunk_invariance] and others).

    ** Files, in dependency order

    Shared:
    - [Prelude]: [outcome] and its monad, list lemmas, [lens] and [rust] hint
      databases, saturating arithmetic, derived orders ([CmpOrder]), the rules of
      [has_post], and counts and sums over finite maps.
    - [RustStr], [Utf8], [Utf8Text], [RustPath]: the parts of the Rust standard
      library the code calls (strings, UTF-8, text addressed by bytes, Unix
      paths), with their lemmas.
    - [Effects]: asynchronous code as finite trees of requests, with their traces.

    Streamed text ([utils/stream-parser/src]):
    - [StreamText]: the trait [StreamTextParser] as a class, and its laws.
    - [InlineHiddenTag] ([inline_hidden_tag.rs]), [Citation] ([citation.rs]):
      hidden tags in a stream of chunks.  Splitting the same text into other
      chunks changes nothing, what is withheld is a proper prefix of a
      delimiter, and rendering then stripping is the identity.
    - [TaggedLine] ([tagged_line_parser.rs]), [ProposedPlan]
      ([proposed_plan.rs]): line-oriented blocks, refined to a parser of whole
      lines.
    - [AssistantText] ([assistant_text.rs]): both passes composed; streaming
      equals running the passes on the whole text one after the other.
    - [Utf8Stream] ([utf8_stream.rs]): bytes in arbitrary chunks over any
      parser that satisfies the laws of [StreamText].

    Patches ([apply-patch/src]):
    - [SeekSequence] ([seek_sequence.rs]): locating lines, in four passes.
    - [Replacements] ([lib.rs], the pure part): computing and applying the
      replacements of an update; never panics, splices, round trips.
    - [PatchParser], [PatchRoundtrip] ([parser.rs]): the parser, an abstract
      syntax with its printer, and the round trip between them.
    - [StreamingPatch] ([streaming_parser.rs]): the parser of a patch that is still
      being written; on a whole patch it agrees with the parser of [PatchParser], white
      space at the ends of contexts and of new places apart.
    - [PatchInvocation] ([invocation.rs]): which commands apply a patch, and the
      changes they would make; they are the ones the application makes if no path is
      touched twice.
    - [PatchSafety] ([core/src/safety.rs], [core/src/apply_patch.rs]): which patches
      need no question; under stated conditions those write only where the profile
      allows it.
    - [ApplyHunks] ([lib.rs], the file-system part): applying hunks over an
      abstract file system, and the delta it records; an exact one undoes the change, even
      when the application fails half-way, and replays it if no file was moved onto itself.
    - [TurnDiffTracker] ([core/src/turn_diff_tracker.rs]): what a turn changed,
      following those deltas.

    Policy ([execpolicy/src], [utils/absolute-path/src]):
    - [AbsolutePath] ([lib.rs], [absolutize.rs]): absolute paths and their
      lexical normalisation; every constructor yields the canonical spelling.
    - [ExecPolicy] ([decision.rs], [error.rs], [rule.rs], [policy.rs]): rules
      and their evaluation; the strictest match decides, overlays never weaken.
    - [ExecPolicyParser] ([parser.rs]): the built-in functions of a policy file,
      and what its examples guarantee about the policy that is built.
    - [ExecPolicyAmend] ([amend.rs]): appending a rule to the policy file, with
      faults at every system call.

    - [Permissions], [PermissionRoots] ([protocol/src/permissions.rs], the
      sandbox policies of [protocol/src/protocol.rs]): the permission profile of
      a session.  The access of a path is that of its most specific entry;
      changes of a policy keep its denials; what is projected to sandboxes
      (writable roots, the read-deny matcher, the older policy) never allows
      more than the profile; for the roots this is without symbolic links, and for metadata
      directly in a root.

    - [PermissionProfile] ([protocol/src/models.rs]), [SandboxTransforms]
      ([sandboxing/src]): profiles and what requests add to them; an intersection is
      within both sides, and no sandbox is left out where one is needed.

    Running commands ([shell-command/src], [core/src/tools], [core/src/unified_exec]):
    - [BashTree] ([bash.rs], [shell_detect.rs]), [CommandSafety] ([command_safety]): the
      commands of a script, and the lists of safe and of dangerous ones, which
      are disjoint.
    - [ExecApproval] ([core/src/exec_policy.rs], [sandboxing.rs]): whether a command
      runs, is asked about or refused; the decision respects every rule that matches.
    - [Approvals] ([tools/sandboxing.rs], [network_policy_decision.rs],
      [guardian/review.rs]): the answers of a review and the approvals remembered.
    - [NetworkApproval] ([tools/network_approval.rs]): questions about hosts, many at
      a time, as interleaved critical sections, with requests dropped while they wait;
      what is allowed was approved, and every request is decided unless it was dropped or
      waits for a question whose owner was dropped.
    - [Orchestrator] ([tools/orchestrator.rs]): one run of a tool as a program of
      [Effects]; a monitor of its events says that every attempt was authorised.
    - [HeadTailBuffer] ([head_tail_buffer.rs]): the bounded output buffer keeps
      the two ends of the stream.

    Network policy ([network-proxy/src]):
    - [IpAddr] ([policy.rs]): parsing and classifying addresses.
    - [NetworkPolicy] ([policy.rs], [config.rs], [state.rs], [runtime.rs],
      [network_policy.rs]): domain patterns, managed constraints, the decision on a host
      and the updates that interleave with it.

    Conversation ([utils/output-truncation], [core/src/context_manager]):
    - [Truncation] ([utils/string/src/truncate.rs], [output-truncation]):
      cutting the middle out of a text at a budget of bytes or tokens.
    - [ResponseItem] ([protocol/src/models.rs]): the items of a conversation.
    - [ContextNormalize] ([normalize.rs]): every call gets one output and every
      output has a call, whatever was recorded.
    - [ContextManager] ([history.rs]): recording, trimming, rollback.
    - [EventMapping] ([core/src/event_mapping.rs]): what an item is to the user.
    - [CompactHistory] ([core/src/compact.rs]): compaction as a program of
      [Effects]; it ends for every behaviour of the model and of the hooks, and
      replaces the history at most once, as a whole, after the model has answered.
    - [RolloutReplay] ([session/rollout_reconstruction.rs]): the state of a resumed
      session from its record; a checkpoint stands for what came before it.
    - [RolloutTruncate] ([thread_rollout_truncation.rs], [thread_manager.rs],
      [agent/control.rs]): the prefixes and suffixes of a record that forks take.

    Sessions and turns ([core/src/session], [core/src/tasks], [core/src/state]):
    - [InputQueue] ([input_queue.rs], [turn.rs]): the input that waits for the
      model and the state of a turn, one definition for what happens under one lock.
    - [SessionTurns] ([tasks/mod.rs], [tasks/regular.rs], [session/turn.rs],
      [handlers.rs], [goals.rs]): starts, runs, ends and aborts of turns as stacks
      of frames whose steps interleave; every accepted input is counted in every run:
      as waiting, held, recorded, blocked, dropped, or lost with a turn state that nothing
      refers to any more.  The examples at its end are runs that the code would rather not have.
    - [SessionSteering]: an invariant of the runs in which turns start one at a
      time, by which what a user steers into a turn is not lost.

    Scheduled prompts ([scheduling/src]):
    - [Scheduling] ([cron_job.rs], [registry.rs], [monitor_registry.rs], and the engine in [core]):
      jobs and monitors, their limits, and the engine that fires what is due (the limits
      of a job are looked at after a firing, not before it).
    - [Crontab] ([os_cron.rs]): the user's crontab; what is written for an
      ordinary job is read back, and the lines of the user stay as they were.

    Configuration ([config/src], [app-server/src/config_manager_service.rs]):
    - [ConfigMerge] ([merge.rs], [key_aliases.rs], [overrides.rs]): documents and
      how one overlays another.
    - [ConfigLayers] ([state.rs], [fingerprint.rs]): stacks of layers; the
      effective value of a setting is that of the highest layer that has it, and
      the recorded origins say which that is, if no other setting is spelled the same. The
      keys below the domains of network permissions, which are rewritten, are apart.
    - [ConfigLoader] ([loader/mod.rs]): which layers a session gets; a project's
      count only where the user trusts it, and never for denied keys.
    - [ConfigEdits] ([config_manager_service.rs]): writes of one user's document,
      and what they report about the layers that override them.

    Agents ([protocol/src/agent_path.rs], [core/src/agent/registry.rs]):
    - [AgentPath]: agent paths are the positions of a tree.
    - [AgentRegistry]: the registry as critical sections that interleave, with
      rule induction over the step relation: slots are accounted for, a common limit
      is kept, and operations in flight can always finish.

    The composer of the terminal interface ([tui/src/bottom_pane]):
    - [KeyInput] ([key_hint.rs]), [TextArea], [TextAreaSafe] ([textarea.rs],
      [wrapping.rs]): the editor with its elements, kill buffer and Vim modes; no
      operation panics on a range within the text, elements stay whole, kills can be yanked
      back, and the wrapped lines kept are those of the present text.
    - [PasteBurst] ([paste_burst.rs]), [SlashCommand] ([slash_command.rs],
      [slash_commands.rs], [prompt_args.rs]), [Attachments]
      ([chat_composer/attachment_state.rs], [clipboard_paste.rs]): the parts of the draft.
    - [Composer], [ComposerTyping]: the draft and its handlers, and that plain text typed
      fast, with paste detection, is neither lost nor reordered.
    - [ComposerSubmit], [ComposerPastes]: submission, refusal and restoration; a
      plain message that was pasted is what is sent, and a refused draft comes back.

    ** How the components meet

    [AssistantText] is a client of the class in [StreamText] through its two
    parsers, and [Utf8Stream] is proved once for every instance of the laws.
    [ApplyHunks] calls [PatchParser] and [Replacements]; [TurnDiffTracker]
    consumes the deltas of [ApplyHunks] and its invariant is proved over
    sequences of them.  The policy parser builds the [Policy] of [ExecPolicy]
    from paths of [AbsolutePath], and [Permissions] resolves its entries with
    the same paths.  [ContextManager] records items through [Truncation] and
    normalises them with [ContextNormalize]; [AgentRegistry] keeps its tree under
    the paths of [AgentPath].  [ExecApproval] combines [ExecPolicy], [CommandSafety]
    and [PermissionProfile]; [Orchestrator] asks [Approvals] and runs attempts in
    the sandboxes of [SandboxTransforms].  [CompactHistory] runs over the history
    of [ContextManager]; [RolloutReplay] replays a record through both, and
    [RolloutTruncate] cuts the same records.  [ConfigLoader] builds the stacks of
    [ConfigLayers], which merge their documents with [ConfigMerge], and [ConfigEdits]
    writes through the same stack.  The frames of [SessionTurns] act on the store of
    [InputQueue] only through its operations, so that the two invariants over
    their runs are proved from one lemma for each operation.  [Composer] drives [TextArea] through its
    operations only, so that the lemmas of [TextAreaSafe] carry its proofs.

    ** Choices

    The model is of a release build on Unix: arithmetic wraps where a debug
    build would panic, and the theorems that matter show that it does not wrap.
    Concurrency (the registry, the questions about hosts, the turns of a session)
    is a step relation between the critical sections of the code; what happens
    inside one lock is atomic, and any number of callers interleave.  A program of
    [Effects] is a tree whose answers come from the world.  Fuel, where there is
    any, is the length of what is left to read or a bound computed from it.
    Floating-point
    multiplication in a token estimate is rounded as binary64 does.  Hash maps
    whose iteration order can be observed are parameters of the order.

    ** Not modelled

    Of a turn, what a request to the model does between its start and its answer
    (streaming, the dispatch of tools) is an answer of the world in [SessionTurns];
    the parsers, approvals and attempts that it goes through are modelled by
    themselves, in their own files.  Compaction by the server, the
    requirements that an administrator sets on a configuration and the diagnostics of
    strict configurations, the processes of monitors and the parsing of cron expressions are
    not modelled.  Network and process I/O, the sandboxes
    themselves, drawing and event dispatch of the terminal interface, the app
    server's message types and the stores are outside the library: they are glue
    around third-party code or operating system calls.  Windows-only branches are
    not modelled. *)
From stdpp Require Export prelude list gmap strings pretty.
From Stdlib Require Export Ascii.

Declare Scope rust_scope.
Delimit Scope rust_scope with rust.
#[global] Open Scope rust_scope.
#[export] Set Warnings "-clear-no-such-hyp,-register-all".

(** ** Outcomes of fallible Rust code *)

(** [Result<A, E>] together with the third way a Rust call can end: a panic
    (slice index out of range, failed [assert!], [expect] on [None]). *)
Inductive outcome (E A : Type) : Type :=
| Ok (a : A)
| Err (e : E)
| Panic.
Arguments Ok {E A} _.
Arguments Err {E A} _.
Arguments Panic {E A}.

#[global] Instance outcome_ret {E} : MRet (outcome E) := fun _ a => Ok a.
#[global] Instance outcome_bind {E} : MBind (outcome E) := fun _ _ k m =>
  match m with Ok a => k a | Err e => Err e | Panic => Panic end.
#[global] Instance outcome_fmap {E} : FMap (outcome E) := fun _ _ f m =>
  match m with Ok a => Ok (f a) | Err e => Err e | Panic => Panic end.

#[global] Instance outcome_eq_dec {E A} `{EqDecision E, EqDecision A} :
  EqDecision (outcome E A).
Proof. solve_decision. Defined.

Definition is_ok {E A} (m : outcome E A) : bool :=
  match m with Ok _ => true | _ => false end.

(** [no_panic m]: the call returned, with a value or with an error. *)
Definition no_panic {E A} (m : outcome E A) : Prop := m ≠ Panic.

(** [Option::ok_or] and slice indexing. *)
Definition ok_or {E A} (e : E) (o : option A) : outcome E A :=
  match o with Some a => Ok a | None => Err e end.
Definition index {E A} (l : list A) (i : nat) : outcome E A :=
  match l !! i with Some a => Ok a | None => Panic end.

Notation "'let?' x ':=' m 'in' k" := (mbind (fun x => k) m)
  (at level 10, x binder, m at level 100, k at level 200) : rust_scope.

Lemma Ok_inj {E A} (a b : A) : @Ok E A a = Ok b → a = b.
Proof. by intros [=]. Qed.

Section outcome_lemmas.
Context {E : Type}.

Lemma bind_Ok {A B} (k : A → outcome E B) (m : outcome E A) b :
  mbind k m = Ok b ↔ ∃ a, m = Ok a ∧ k a = Ok b.
Proof. destruct m; cbn; naive_solver. Qed.

Lemma bind_Err {A B} (k : A → outcome E B) (m : outcome E A) e :
  mbind k m = Err e ↔ m = Err e ∨ ∃ a, m = Ok a ∧ k a = Err e.
Proof. destruct m; cbn; naive_solver. Qed.

Lemma no_panic_bind {A B} (k : A → outcome E B) (m : outcome E A) :
  no_panic m → (∀ a, m = Ok a → no_panic (k a)) → no_panic (mbind k m).
Proof. destruct m; cbn; unfold no_panic; naive_solver. Qed.

Lemma no_panic_Ok {A} (a : A) : no_panic (E:=E) (Ok a).
Proof. done. Qed.
Lemma no_panic_Err {A} (e : E) : no_panic (A:=A) (Err e).
Proof. done. Qed.
End outcome_lemmas.

Create HintDb rust.
#[export] Hint Resolve no_panic_Ok no_panic_Err no_panic_bind : rust.

(** [inv_ok H]: peel the binds off [H : mbind .. = Ok ..]. *)
Ltac inv_ok H :=
  repeat match type of H with
  | mbind _ _ = Ok _ => apply bind_Ok in H as (? & ? & H)
  | Ok _ = Ok _ => injection H as H
  end.

(** Destruct the innermost [match] scrutinee of the goal or of a hypothesis. *)
Ltac case_scrutinee :=
  match goal with
  | |- context [match ?x with _ => _ end] =>
      lazymatch x with context [match _ with _ => _ end] => fail | _ => destruct x eqn:? end
  end.
Ltac case_scrutinee_in H :=
  match type of H with
  | context [match ?x with _ => _ end] =>
      lazymatch x with context [match _ with _ => _ end] => fail | _ => destruct x eqn:? end
  end.

(** Every branch of the definition in the goal, closed by [tac]. *)
Tactic Notation "by_cases" tactic3(tac) := repeat (case_scrutinee; try tac); try tac.

(** ** Programs that may panic, in the option monad: total correctness *)
Definition has_post {A} (m : option A) (Q : A → Prop) : Prop := ∃ a, m = Some a ∧ Q a.
Section has_post.
Context {A B : Type}.
Implicit Types (m : option A) (k : A → option B).
Lemma has_post_ret (a : A) (Q : A → Prop) : Q a → has_post (Some a) Q.
Proof. intros. by exists a. Qed.
Lemma has_post_bind m k (P : A → Prop) (Q : B → Prop) :
  has_post m P → (∀ a, P a → has_post (k a) Q) → has_post (m ≫= k) Q.
Proof. intros (a & -> & Ha) Hk. by apply Hk. Qed.
Lemma has_post_weaken m (P Q : A → Prop) : has_post m P → (∀ a, P a → Q a) → has_post m Q.
Proof. intros (a & -> & Ha) Hpq. exists a. auto. Qed.
End has_post.

(** ** Lists *)
Section list_lemmas.
Context {A : Type}.
Implicit Types l k : list A.

Lemma take_app_le l k n : n ≤ length l → take n (l ++ k) = take n l.
Proof. intros. rewrite take_app. replace (n - length l) with 0 by lia. by rewrite take_0, app_nil_r. Qed.

Lemma drop_app_le l k n : n ≤ length l → drop n (l ++ k) = drop n l ++ k.
Proof. intros. rewrite drop_app. by replace (n - length l) with 0 by lia. Qed.

Lemma drop_app_ge l k n : length l ≤ n → drop n (l ++ k) = drop (n - length l) k.
Proof. intros. rewrite drop_app, drop_ge by lia. done. Qed.

(** The last [n] elements (Rust: [&v[v.len() - n..]] when [n ≤ v.len()]). *)
Definition lastn (n : nat) l : list A := drop (length l - n) l.

Lemma length_lastn n l : length (lastn n l) = n `min` length l.
Proof. unfold lastn. rewrite length_drop. lia. Qed.

Lemma lastn_app_le n l k : n ≤ length k → lastn n (l ++ k) = lastn n k.
Proof.
  intros. unfold lastn. rewrite length_app, drop_app_ge by lia. f_equal. lia.
Qed.

Lemma lastn_all n l : length l ≤ n → lastn n l = l.
Proof. intros. unfold lastn. by replace (length l - n) with 0 by lia. Qed.

Lemma lastn_lastn_app n l k : lastn n (lastn n l ++ k) = lastn n (l ++ k).
Proof.
  destruct (decide (n ≤ length l)) as [Hn|Hn].
  - unfold lastn. rewrite !length_app, !length_drop, !drop_app, !drop_drop, !length_drop.
    f_equal; f_equal; lia.
  - by rewrite (lastn_all n l) by lia.
Qed.

Lemma Forall_take_drop (P : A → Prop) n l :
  Forall P l → Forall P (take n l) ∧ Forall P (drop n l).
Proof. intros H. split; [by apply Forall_take|by apply Forall_drop]. Qed.
End list_lemmas.

Create Rewrite HintDb lens.
#[export] Hint Rewrite @length_lastn @length_drop @length_take @length_app @length_rev
  @length_replicate @length_fmap : lens.

(** Arithmetic goals about list lengths. *)
Ltac len := autorewrite with lens in *; cbn [length] in *; lia.

(** [Iterator::position]. *)
Fixpoint position {A} (p : A → bool) (l : list A) : option nat :=
  match l with
  | [] => None
  | x :: t => if p x then Some 0 else S <$> position p t
  end.

Lemma position_Some {A} (p : A → bool) l i :
  position p l = Some i ↔
  ∃ x, l !! i = Some x ∧ p x = true ∧ ∀ j y, j < i → l !! j = Some y → p y = false.
Proof.
  revert i. induction l as [|x l IH]; intros i; cbn.
  { split; [done|]. intros (?&?&_). done. }
  destruct (p x) eqn:Hp.
  - split.
    + intros [= <-]. exists x. split_and!; [done|done|lia].
    + intros (y & Hy & Hpy & Hlt). destruct i; [done|].
      pose proof (Hlt 0 x (Nat.lt_0_succ _) eq_refl). congruence.
  - rewrite fmap_Some. split.
    + intros (k & Hk & ->). apply IH in Hk as (y & ? & ? & Hlt).
      exists y. split_and!; [done|done|]. intros [|j] z ? Hz; [cbn in Hz; congruence|].
      eapply (Hlt j); [lia|done].
    + intros (y & Hy & Hpy & Hlt). destruct i as [|i]; [cbn in Hy; congruence|].
      exists i. split; [|done]. apply IH. exists y. split_and!; [done|done|].
      intros j z ? Hz. apply (Hlt (S j) z); [lia|done].
Qed.

Lemma position_None {A} (p : A → bool) l :
  position p l = None ↔ ∀ x, x ∈ l → p x = false.
Proof.
  induction l as [|x l IH]; cbn.
  { split; [|done]. intros _ x Hx. by apply elem_of_nil in Hx. }
  destruct (p x) eqn:Hp.
  - split; [done|]. intros H. specialize (H x ltac:(left)). congruence.
  - rewrite fmap_None, IH. split.
    + intros H y Hy. apply elem_of_cons in Hy as [->|Hy]; auto.
    + intros H y Hy. apply H. by right.
Qed.

(** ** Machine integers: [usize]/[u64] counters saturate at [2^64 - 1]. *)
Definition usize_max : N := 2^64 - 1.
Definition sat_add (a b : N) : N := N.min usize_max (a + b).
Definition sat_sub (a b : N) : N := a - b.

(** Atomic [fetch_add] and [fetch_sub] wrap around. *)
Definition usize_wrap (n : N) : N := n `mod` 2^64.
Definition wrap_add (a b : N) : N := usize_wrap (a + b).
Definition wrap_sub (a b : N) : N := usize_wrap (a + 2^64 - b).

Lemma sat_add_assoc a b c : sat_add (sat_add a b) c = sat_add a (b + c).
Proof. unfold sat_add. lia. Qed.
Lemma usize_wrap_small n : (n ≤ usize_max)%N → usize_wrap n = n.
Proof. intros. apply N.mod_small. unfold usize_max in *. lia. Qed.
Lemma wrap_add_wrap n k : wrap_add (usize_wrap n) k = usize_wrap (n + k).
Proof. unfold wrap_add, usize_wrap. by rewrite N.Div0.add_mod_idemp_l. Qed.
Lemma wrap_sub_wrap n k : (k ≤ n)%N → (k ≤ 2^64)%N → wrap_sub (usize_wrap n) k = usize_wrap (n - k).
Proof.
  intros Hk Hw. unfold wrap_sub, usize_wrap. rewrite <- N.add_sub_assoc by done.
  rewrite N.Div0.add_mod_idemp_l. replace (n + (2^64 - k))%N with (n - k + 1 * 2^64)%N by lia.
  apply N.Div0.mod_add.
Qed.
Lemma sat_add_small a b : (a + b ≤ usize_max)%N → sat_add a b = (a + b)%N.
Proof. unfold sat_add. lia. Qed.

(** ** Derived orders: [Ord::cmp] of strings and vectors *)
Class CmpOrder {A} (cmp : A → A → comparison) : Prop := {
  cmp_eq a b : cmp a b = Eq → a = b;
  cmp_opp a b : cmp b a = CompOpp (cmp a b);
  cmp_lt_trans a b c : cmp a b = Lt → cmp b c = Lt → cmp a c = Lt;
}.

Fixpoint lex_cmp {A} (cmp : A → A → comparison) (l k : list A) : comparison :=
  match l, k with
  | [], [] => Eq
  | [], _ :: _ => Lt
  | _ :: _, [] => Gt
  | a :: l, b :: k => match cmp a b with Eq => lex_cmp cmp l k | c => c end
  end.

#[global] Instance N_cmp_order : CmpOrder N.compare.
Proof.
  split.
  - apply N.compare_eq.
  - intros. apply N.compare_antisym.
  - intros a b c. rewrite !N.compare_lt_iff. lia.
Qed.

Section cmp.
Context {A : Type} (cmp : A → A → comparison) `{!CmpOrder cmp}.

Lemma cmp_refl a : cmp a a = Eq.
Proof using All. pose proof (cmp_opp a a) as H. by destruct (cmp a a). Qed.

Lemma cmp_le_trans a b c : cmp a b ≠ Gt → cmp b c ≠ Gt → cmp a c ≠ Gt.
Proof using All.
  destruct (cmp a b) eqn:E1; [apply cmp_eq in E1 as ->; done| |done]. intros _.
  destruct (cmp b c) eqn:E2; [apply cmp_eq in E2 as <-; by rewrite E1| |done].
  by rewrite (cmp_lt_trans (cmp:=cmp) a b c E1 E2).
Qed.

Lemma cmp_le_total a b : cmp a b ≠ Gt ∨ cmp b a ≠ Gt.
Proof using All. rewrite (cmp_opp (cmp:=cmp) a b). destruct (cmp a b); auto. Qed.

#[global] Instance lex_cmp_order : CmpOrder (lex_cmp cmp).
Proof using All.
  split.
  - induction a as [|x a IH]; intros [|y b]; cbn; try done.
    destruct (cmp x y) eqn:E; [|done|done]. intros ->%IH. by apply cmp_eq in E as ->.
  - induction a as [|x a IH]; intros [|y b]; cbn; try done. rewrite (cmp_opp (cmp:=cmp) x y).
    by destruct (cmp x y); cbn.
  - induction a as [|x a IH]; intros [|y b] [|z c]; cbn; try done.
    destruct (cmp x y) eqn:E1; [apply cmp_eq in E1 as ->| |done].
    + destruct (cmp y z); try done. apply IH.
    + intros _. destruct (cmp y z) eqn:E2; [apply cmp_eq in E2 as <-; by rewrite E1| |done].
      by rewrite (cmp_lt_trans (cmp:=cmp) x y z E1 E2).
Qed.
End cmp.

(** ** Counting the entries of a map *)
Section count_map.
Context `{Countable K} {A : Type} (P : A → bool).

Definition count_map (m : gmap K A) : nat := size (filter (λ kv, P kv.2 = true) m).

Lemma count_map_empty : count_map ∅ = 0.
Proof. unfold count_map. by rewrite map_filter_empty, map_size_empty. Qed.

Lemma count_map_fresh m k x : m !! k = None → count_map (<[k:=x]> m) = Nat.b2n (P x) + count_map m.
Proof.
  intros Hk. unfold count_map. destruct (P x) eqn:Hx.
  - rewrite map_filter_insert_True by done. rewrite map_size_insert_None; [done|].
    apply map_lookup_filter_None. by left.
  - rewrite map_filter_insert_False by (cbn; congruence).
    by rewrite delete_id by done.
Qed.

Lemma count_map_delete m k x : m !! k = Some x → count_map m = Nat.b2n (P x) + count_map (delete k m).
Proof.
  intros Hk. rewrite <- (insert_delete_id m k x) at 1 by done.
  apply count_map_fresh, lookup_delete_eq.
Qed.

Lemma count_map_replace m k x y :
  m !! k = Some x → Nat.b2n (P x) + count_map (<[k:=y]> m) = Nat.b2n (P y) + count_map m.
Proof.
  intros Hk. rewrite <- (insert_delete_eq m k y), (count_map_fresh _ _ y) by apply lookup_delete_eq.
  rewrite (count_map_delete m k x) by done. lia.
Qed.

Lemma count_map_0 m : count_map m = 0 → ∀ k x, m !! k = Some x → P x = false.
Proof. intros Hc k x Hk. apply (count_map_delete _ _ _) in Hk. destruct (P x); cbn in *; [lia|done]. Qed.
End count_map.

(** ** Sums over the entries of a map *)
Section total.
Context `{Countable K} {A : Type} (f : A → nat).
Definition total (m : gmap K A) : nat := map_fold (λ _ x n, f x + n) 0 m.
Lemma total_empty : total ∅ = 0.
Proof. apply map_fold_empty. Qed.
Lemma total_fresh m k x : m !! k = None → total (<[k:=x]> m) = f x + total m.
Proof. intros Hk. unfold total. rewrite map_fold_insert_L; [done|intros; lia|done]. Qed.
Lemma total_delete m k x : m !! k = Some x → total m = f x + total (delete k m).
Proof. intros Hk. rewrite <- (insert_delete_id m k x) at 1 by done. apply total_fresh, lookup_delete_eq. Qed.
Lemma total_update m k x : total (<[k:=x]> m) + match m !! k with Some y => f y | None => 0 end = f x + total m.
Proof.
  destruct (m !! k) as [y|] eqn:Hk; [|by rewrite total_fresh, Nat.add_0_r].
  rewrite <- (insert_delete_eq m k x), total_fresh, (total_delete m k y) by (done || apply lookup_delete_eq). lia.
Qed.
Lemma total_zero m : (∀ k x, m !! k = Some x → f x = 0) → total m = 0.
Proof.
  induction m as [|k x m Hk IH] using map_ind; intros Hz; [apply total_empty|]. rewrite total_fresh, (Hz k x) by (done || apply lookup_insert_eq).
  apply IH. intros j y Hj. apply (Hz j). rewrite lookup_insert_ne; [done|]. congruence.
Qed.
Lemma total_filter (P : K * A → Prop) `{!∀ x, Decision (P x)} m : total m = total (filter P m) + total (filter (λ x, ¬ P x) m).
Proof.
  induction m as [|k x m Hk IH] using map_ind; [by rewrite !map_filter_empty, !total_empty|]. rewrite total_fresh by done. destruct (decide (P (k, x))).
  - rewrite map_filter_insert_True, map_filter_insert_False, delete_id by (done || tauto). rewrite total_fresh by (by apply map_lookup_filter_None_2; left). lia.
  - rewrite map_filter_insert_False, map_filter_insert_True, delete_id by done. rewrite total_fresh by (by apply map_lookup_filter_None_2; left). lia.
Qed.
Lemma total_subseteq m m' : m ⊆ m' → total m ≤ total m'.
Proof.
  revert m'. induction m as [|k x m Hk IH] using map_ind; intros m' Hs; [rewrite total_empty; lia|].
  assert (m' !! k = Some x) as Hk' by (eapply lookup_weaken; [apply lookup_insert_eq|done]). rewrite total_fresh, (total_delete m' k x) by done.
  enough (total m ≤ total (delete k m')) by lia. apply IH. rewrite <- (delete_id m k Hk), <- (delete_insert_eq m k x). by apply delete_mono.
Qed.
End total.
