(* ===== verification/RustStr.v ===== *)
(** * Rust's [char], [str] and [String]

    Characters are Unicode scalar values ([N]) and strings are lists of
    characters; a byte offset into a [str] is represented by the index of the
    character it points at (every offset the modelled code computes lies on a
    character boundary).  The file defines the parts of the standard library
    the modelled code calls, with the lemmas the components share, and the
    UTF-8 encoder and the validating decoder [std::str::from_utf8]. *)
From S2P Require Import Prelude.
#[local] Open Scope N_scope.

Abbreviation char := N.
Abbreviation rstring := (list N).

(** Rust literals: ASCII text, and a single ASCII character. *)
Definition lit (s : string) : rstring := N_of_ascii <$> String.list_ascii_of_string s.
Definition chr (a : ascii) : char := N_of_ascii a.

Definition newline : char := 10.
Definition cr : char := 13.

(** [char::is_whitespace]: the Unicode [White_Space] property. *)
Definition is_whitespace (c : char) : bool :=
  ((9 <=? c) && (c <=? 13)) || (c =? 32) || (c =? 0x85) || (c =? 0xA0) || (c =? 0x1680)
  || ((0x2000 <=? c) && (c <=? 0x200A)) || (c =? 0x2028) || (c =? 0x2029) || (c =? 0x202F)
  || (c =? 0x205F) || (c =? 0x3000).

Definition is_ascii_digit (c : char) : bool := (48 <=? c) && (c <=? 57).
Definition to_ascii_lowercase_char (c : char) : char :=
  if (65 <=? c) && (c <=? 90) then c + 32 else c.
Definition to_ascii_lowercase (s : rstring) : rstring := to_ascii_lowercase_char <$> s.

(** [trim_start_matches], [trim_end_matches] with a character predicate. *)
Fixpoint trim_start_matches (p : char → bool) (s : rstring) : rstring :=
  match s with
  | [] => []
  | c :: t => if p c then trim_start_matches p t else s
  end.
Definition trim_end_matches (p : char → bool) (s : rstring) : rstring :=
  rev (trim_start_matches p (rev s)).
Definition trim_start := trim_start_matches is_whitespace.
Definition trim_end := trim_end_matches is_whitespace.
Definition trim (s : rstring) : rstring := trim_end (trim_start s).

(** Decimal rendering of an unsigned integer by [format!("{n}")]. *)
Definition show (n : N) : rstring := lit (pretty n).

Section seqs.
Context {A : Type} `{EqDecision A}.
Implicit Types p s : list A.

Fixpoint strip_prefix (p s : list A) : option (list A) :=
  match p, s with
  | [], _ => Some s
  | _ :: _, [] => None
  | a :: p, b :: s => if decide (a = b) then strip_prefix p s else None
  end.
Definition starts_with (s p : list A) : bool := bool_decide (p `prefix_of` s).
Definition ends_with (s p : list A) : bool := bool_decide (p `suffix_of` s).
Definition strip_suffix (p s : list A) : option (list A) :=
  (@rev A) <$> strip_prefix (rev p) (rev s).

(** [str::find] with a string needle: the least offset where it occurs. *)
Fixpoint find (needle s : list A) : option nat :=
  if bool_decide (needle `prefix_of` s) then Some 0%nat
  else match s with [] => None | _ :: t => S <$> find needle t end.

(** [str::split] on one separator: at least one piece. *)
Fixpoint split (sep : A) (s : list A) : list (list A) :=
  match s with
  | [] => [[]]
  | c :: t =>
      if decide (c = sep) then [] :: split sep t
      else match split sep t with
           | piece :: rest => (c :: piece) :: rest
           | [] => [[c]]
           end
  end.

(** [[String]::join] with a separator. *)
Fixpoint join_with (sep : list A) (l : list (list A)) : list A :=
  match l with
  | [] => []
  | [x] => x
  | x :: rest => x ++ sep ++ join_with sep rest
  end.

Lemma strip_prefix_Some p s r : strip_prefix p s = Some r ↔ s = p ++ r.
Proof using Type.
  revert s. induction p as [|a p IH]; intros [|b s]; cbn; try naive_solver.
  case_decide as Hab; subst; [rewrite IH|]; naive_solver.
Qed.

Lemma strip_prefix_None p s : strip_prefix p s = None ↔ ¬ p `prefix_of` s.
Proof using Type.
  split.
  - intros H [r Hr]. apply strip_prefix_Some in Hr. congruence.
  - intros H. destruct (strip_prefix p s) as [r|] eqn:E; [|done].
    apply strip_prefix_Some in E. destruct H. by exists r.
Qed.

Lemma strip_suffix_Some p s r : strip_suffix p s = Some r ↔ s = r ++ p.
Proof using Type.
  unfold strip_suffix. rewrite fmap_Some. setoid_rewrite strip_prefix_Some. split.
  - intros (t & Ht & ->). by rewrite <- (rev_involutive s), Ht, rev_app_distr, rev_involutive.
  - intros ->. exists (rev r). by rewrite rev_app_distr, rev_involutive.
Qed.

Lemma starts_with_spec s p : starts_with s p = true ↔ p `prefix_of` s.
Proof using Type. apply bool_decide_eq_true. Qed.
Lemma ends_with_spec s p : ends_with s p = true ↔ p `suffix_of` s.
Proof using Type. apply bool_decide_eq_true. Qed.

(** [occurs_at n s i]: the needle is read in [s] at offset [i]. *)
Definition occurs_at (needle s : list A) (i : nat) : Prop := needle `prefix_of` drop i s.

Lemma occurs_at_split needle s i :
  occurs_at needle s i → (i ≤ length s)%nat →
  ∃ r, s = take i s ++ needle ++ r.
Proof using Type. intros [r Hr] _. exists r. by rewrite <- Hr, take_drop. Qed.

Lemma occurs_at_length needle s i :
  occurs_at needle s i → needle ≠ [] → (i + length needle ≤ length s)%nat.
Proof using Type.
  intros [r Hr] Hne. apply (f_equal length) in Hr.
  rewrite length_drop, length_app in Hr. destruct needle; [done|]. cbn in *. lia.
Qed.

Lemma find_Some needle s i :
  find needle s = Some i ↔ occurs_at needle s i ∧ (i ≤ length s)%nat ∧
                           ∀ j, (j < i)%nat → ¬ occurs_at needle s j.
Proof using Type.
  revert i. induction s as [|c s IH]; intros i; cbn [find]; case_bool_decide as Hp.
  - split.
    + intros [= <-]. split_and!; [done|lia|lia].
    + intros (_ & Hl & _). f_equal. cbn in Hl. lia.
  - split; [done|]. intros (Ho & Hl & _). cbn in Hl. replace i with 0%nat in Ho by lia. done.
  - split.
    + intros [= <-]. split_and!; [done|lia|lia].
    + intros (_ & _ & Hn). destruct i as [|i]; [done|].
      exfalso. apply (Hn 0%nat); [lia|done].
  - rewrite fmap_Some. setoid_rewrite IH. split.
    + intros (k & (Ho & Hl & Hn) & ->). split_and!; [done|cbn; lia|].
      intros [|j] ?; [done|]. apply Hn. lia.
    + intros (Ho & Hl & Hn). destruct i as [|i]; [done|]. exists i.
      split; [|done]. split_and!; [done|cbn in Hl; lia|].
      intros j ?. apply (Hn (S j)). lia.
Qed.

Lemma find_None needle s :
  find needle s = None ↔ ∀ i, (i ≤ length s)%nat → ¬ occurs_at needle s i.
Proof using Type.
  split.
  - intros H i. revert i. induction s as [|c s IH]; cbn [find] in H; case_bool_decide as Hp;
      try done; intros i Hi Ho.
    + cbn in Hi. replace i with 0%nat in Ho by lia. done.
    + apply fmap_None in H. destruct i as [|i]; [done|].
      apply (IH H i); [cbn in Hi; lia|done].
  - intros H. destruct (find needle s) as [i|] eqn:E; [|done].
    apply find_Some in E as (Ho & Hl & _). by destruct (H i).
Qed.

Lemma find_bound needle s i :
  find needle s = Some i → (i + length needle ≤ length s)%nat.
Proof using Type.
  intros H. apply find_Some in H as ([r Hr] & Hl & _).
  apply (f_equal length) in Hr. rewrite length_drop, length_app in Hr. lia.
Qed.

Lemma occurs_at_shift needle d s i :
  occurs_at needle s i → occurs_at needle (d ++ s) (length d + i).
Proof using Type.
  unfold occurs_at. rewrite drop_app_ge by lia. by replace (length d + i - length d)%nat with i by lia.
Qed.

Lemma occurs_at_unshift needle d s i :
  occurs_at needle (d ++ s) (length d + i) → occurs_at needle s i.
Proof using Type.
  unfold occurs_at. rewrite drop_app_ge by lia. by replace (length d + i - length d)%nat with i by lia.
Qed.

Lemma occurs_at_app needle s t i : occurs_at needle s i → occurs_at needle (s ++ t) i.
Proof using Type.
  intros [r Hr]. destruct (decide (i ≤ length s)%nat) as [Hi|Hi].
  - exists (r ++ t). rewrite drop_app_le by done. by rewrite Hr, <- app_assoc.
  - rewrite drop_ge in Hr by lia. symmetry in Hr. apply app_eq_nil in Hr as [-> _].
    apply prefix_nil.
Qed.

Lemma occurs_at_app_inv needle s t i :
  occurs_at needle (s ++ t) i → (i + length needle ≤ length s)%nat → occurs_at needle s i.
Proof using Type.
  intros [r Hr] Hl. exists (drop (length needle) (drop i s)).
  rewrite drop_app_le in Hr by lia.
  assert (needle = take (length needle) (drop i s)) as Hn.
  { apply (f_equal (take (length needle))) in Hr. rewrite take_app_length in Hr.
    rewrite take_app_le in Hr by (rewrite length_drop; lia). done. }
  rewrite Hn at 1. by rewrite take_drop.
Qed.

Lemma split_not_nil sep s : split sep s ≠ [].
Proof using Type. destruct s; cbn; [done|]. case_decide; [done|]. by destruct (split sep s). Qed.

Lemma join_split sep s : join_with [sep] (split sep s) = s.
Proof using Type.
  induction s as [|c s IH]; [done|]. cbn [split]. case_decide as Hc.
  - subst. pose proof (split_not_nil sep s).
    destruct (split sep s) as [|x l] eqn:E; [done|].
    change (sep :: join_with [sep] (x :: l) = sep :: s). by rewrite IH.
  - destruct (split sep s) as [|x l] eqn:E; [by destruct (split_not_nil sep s)|].
    cbn [join_with] in *. destruct l; cbn in *; by rewrite <- IH.
Qed.

Lemma split_pieces sep s : Forall (λ x, sep ∉ x) (split sep s).
Proof using Type.
  induction s as [|c s IH]; cbn [split].
  { constructor; [|constructor]. apply not_elem_of_nil. }
  case_decide as Hc; [by constructor; [apply not_elem_of_nil|]|].
  destruct (split sep s) as [|x l]; [|inversion IH; subst]; constructor; try done.
  - set_solver.
  - set_solver.
Qed.
End seqs.

#[global] Instance occurs_at_dec `{EqDecision A} (n s : list A) i : Decision (occurs_at n s i).
Proof. unfold occurs_at. apply _. Defined.

(** [str::lines]: [split_inclusive('\n')] with the terminator, and a carriage
    return directly before it, removed from each piece. *)
Fixpoint split_inclusive (sep : char) (s : rstring) : list rstring :=
  match s with
  | [] => []
  | c :: t =>
      if c =? sep then [c] :: split_inclusive sep t
      else match split_inclusive sep t with
           | piece :: rest => (c :: piece) :: rest
           | [] => [[c]]
           end
  end.
Definition lines_map (line : rstring) : rstring :=
  match strip_suffix [newline] line with
  | None => line
  | Some line' => default line' (strip_suffix [cr] line')
  end.
Definition lines (s : rstring) : list rstring := lines_map <$> split_inclusive newline s.

(** ** Trimming and concatenation *)
Section trim.
Context (p : char → bool).
Local Open Scope nat_scope.

Lemma trim_start_matches_app s t :
  trim_start_matches p (s ++ t) =
    if bool_decide (trim_start_matches p s = []) then trim_start_matches p t
    else trim_start_matches p s ++ t.
Proof using Type.
  induction s as [|c s IH]; [done|]. cbn. destruct (p c); [apply IH|].
  by rewrite bool_decide_eq_false_2.
Qed.

Lemma trim_start_matches_suffix s : trim_start_matches p s `suffix_of` s.
Proof using Type.
  induction s as [|c s IH]; cbn; [done|]. destruct (p c); [|done].
  destruct IH as [k Hk]. exists (c :: k). cbn. by f_equal.
Qed.

Lemma trim_end_matches_app s t :
  trim_end_matches p (s ++ t) =
    if bool_decide (trim_end_matches p t = []) then trim_end_matches p s
    else s ++ trim_end_matches p t.
Proof using Type.
  unfold trim_end_matches. rewrite rev_app_distr, trim_start_matches_app.
  assert (∀ l : rstring, rev l = [] ↔ l = []) as Hr.
  { intros l. split; [|by intros ->]. intros E. by rewrite <- (rev_involutive l), E. }
  rewrite (bool_decide_ext _ _ (Hr (trim_start_matches p (rev t)))).
  case_bool_decide; [done|]. by rewrite rev_app_distr, rev_involutive.
Qed.

Lemma trim_end_matches_prefix s : trim_end_matches p s `prefix_of` s.
Proof using Type.
  unfold trim_end_matches. destruct (trim_start_matches_suffix (rev s)) as [k Hk].
  exists (rev k). by rewrite <- rev_app_distr, <- Hk, rev_involutive.
Qed.
End trim.

Lemma trim_start_matches_all p (w : rstring) :
  Forall (λ c, p c = true) w → trim_start_matches p w = [].
Proof. induction 1 as [|c w Hc _ IH]; [done|]. cbn. by rewrite Hc. Qed.

Lemma trim_end_matches_all p (w : rstring) : Forall (λ c, p c = true) w → trim_end_matches p w = [].
Proof.
  intros H. unfold trim_end_matches. rewrite trim_start_matches_all; [done|].
  by apply Forall_rev.
Qed.

Lemma trim_start_matches_split p (s : rstring) :
  ∃ w, s = w ++ trim_start_matches p s ∧ Forall (λ c, p c = true) w.
Proof.
  induction s as [|c s (w & Hw & Hf)]; [by exists []|]. cbn. destruct (p c) eqn:Hc.
  - exists (c :: w). cbn. split; [by f_equal|by constructor].
  - by exists [].
Qed.

Lemma trim_end_matches_split p (s : rstring) :
  ∃ w, s = trim_end_matches p s ++ w ∧ Forall (λ c, p c = true) w.
Proof.
  destruct (trim_start_matches_split p (rev s)) as (w & Hw & Hf). exists (rev w). split.
  - unfold trim_end_matches. by rewrite <- rev_app_distr, <- Hw, rev_involutive.
  - by apply Forall_rev.
Qed.

(** Whitespace at the end does not survive trimming. *)
Lemma trim_app_ws t w : Forall (λ c, is_whitespace c = true) w → trim (t ++ w) = trim t.
Proof.
  intros Hw. unfold trim, trim_end, trim_start. rewrite trim_start_matches_app.
  case_bool_decide as Ht; [by rewrite Ht, trim_start_matches_all|].
  by rewrite trim_end_matches_app, trim_end_matches_all, bool_decide_eq_true_2.
Qed.

Lemma trim_trim_end s : trim (trim_end s) = trim s.
Proof.
  destruct (trim_end_matches_split is_whitespace s) as (w & Hs & Hw).
  rewrite Hs at 2. by rewrite trim_app_ws.
Qed.

Lemma trim_end_idemp s : trim_end (trim_end s) = trim_end s.
Proof.
  destruct (trim_end_matches_split is_whitespace s) as (w & Hs & Hw).
  unfold trim_end. rewrite Hs at 2. by rewrite trim_end_matches_app, (trim_end_matches_all _ w Hw), bool_decide_eq_true_2.
Qed.
Lemma trimmed_end s : trim s = s → trim_end s = s.
Proof. intros H. rewrite <- H at 1. unfold trim. by rewrite trim_end_idemp. Qed.

Lemma trim_strip_newline s : trim (default s (strip_suffix [newline] s)) = trim s.
Proof.
  destruct (strip_suffix [newline] s) as [t|] eqn:E; cbn [from_option id]; [|done].
  apply strip_suffix_Some in E as ->. unfold trim, trim_end, trim_start.
  rewrite trim_start_matches_app. case_bool_decide as Ht; [by rewrite Ht|].
  by rewrite trim_end_matches_app.
Qed.

(** Reading any prefix of a line keeps the trimmed line's prefixes in view. *)
Lemma trim_prefix q x :
  trim_start q = [] ∨ trim_end (trim_start q) `prefix_of` trim (q ++ x).
Proof.
  destruct (decide (trim_start q = [])) as [?|Hq]; [by left|right].
  unfold trim, trim_start, trim_end in *. rewrite trim_start_matches_app.
  rewrite bool_decide_eq_false_2 by done. rewrite trim_end_matches_app.
  case_bool_decide; [done|].
  etrans; [apply trim_end_matches_prefix|]. by eexists.
Qed.

(** Lines are nonempty, hold a newline only at their end, and concatenate to the text. *)
Lemma split_inclusive_concat sep s : concat (split_inclusive sep s) = s.
Proof.
  induction s as [|c s IH]; [done|]. cbn. destruct (c =? sep); cbn; [by rewrite IH|].
  destruct (split_inclusive sep s) as [|x l]; cbn in *; by rewrite <- IH.
Qed.

Lemma split_inclusive_line sep l s :
  sep ∉ l → split_inclusive sep (l ++ sep :: s) = (l ++ [sep]) :: split_inclusive sep s.
Proof.
  induction l as [|c l IH]; intros Hl; cbn.
  - by rewrite N.eqb_refl.
  - apply not_elem_of_cons in Hl as [Hc Hl]. destruct (N.eqb_spec c sep); [congruence|].
    by rewrite IH.
Qed.

Lemma split_inclusive_last sep l : sep ∉ l → l ≠ [] → split_inclusive sep l = [l].
Proof.
  induction l as [|c l IH]; intros Hl Hne; [done|]. cbn.
  apply not_elem_of_cons in Hl as [Hc Hl]. destruct (N.eqb_spec c sep); [congruence|].
  destruct l as [|d l]; [done|]. by rewrite IH.
Qed.

(** Induction over a text line by line. *)
Lemma line_ind (sep : char) (P : rstring → Prop) :
  (∀ l, sep ∉ l → P l) → (∀ l s, sep ∉ l → P s → P (l ++ sep :: s)) → ∀ s, P s.
Proof.
  intros Hlast Hline s. induction s as [s IH] using (induction_ltof1 _ (@length char)).
  destruct (decide (sep ∈ s)) as [Hin|]; [|by apply Hlast].
  apply list_elem_of_split_l in Hin as (l & r & -> & Hl).
  apply Hline; [done|]. apply IH. unfold ltof. len.
Qed.

(** A newline-terminated line. *)
Definition full_line (l : rstring) : Prop := ∃ k, l = k ++ [newline] ∧ newline ∉ k.

Lemma split_inclusive_full_app ls s :
  Forall full_line ls → split_inclusive newline (concat ls ++ s) = ls ++ split_inclusive newline s.
Proof.
  induction 1 as [|l ls (k & -> & Hk) _ IH]; [done|].
  cbn [concat app]. rewrite <- !app_assoc. cbn [app]. by rewrite split_inclusive_line, IH.
Qed.

Lemma split_inclusive_full ls : Forall full_line ls → split_inclusive newline (concat ls) = ls.
Proof.
  intros H. pose proof (split_inclusive_full_app ls [] H) as E. by rewrite !app_nil_r in E.
Qed.

(** A text made of newline-terminated lines, and its pieces. *)
Definition text_of (ls : list rstring) : rstring := concat ((λ l, l ++ [newline]) <$> ls).

Lemma text_of_cons l ls : text_of (l :: ls) = l ++ newline :: text_of ls.
Proof. unfold text_of. cbn. by rewrite <- app_assoc. Qed.

Lemma text_of_app l k : text_of (l ++ k) = text_of l ++ text_of k.
Proof. unfold text_of. by rewrite fmap_app, concat_app. Qed.

Lemma split_line (sep : char) l s : sep ∉ l → split sep (l ++ sep :: s) = l :: split sep s.
Proof.
  induction l as [|c l IH]; intros Hl; cbn [app split].
  - by rewrite decide_True.
  - apply not_elem_of_cons in Hl as [Hc Hl]. rewrite decide_False by congruence. by rewrite IH.
Qed.

Lemma split_none (sep : char) s : sep ∉ s → split sep s = [s].
Proof.
  induction s as [|c s IH]; intros Hs; [done|]. cbn [split].
  by rewrite IH, decide_False by set_solver.
Qed.

Lemma split_app_sep (sep : char) s t : split sep (s ++ sep :: t) = split sep s ++ split sep t.
Proof.
  induction s as [|c s IH].
  - cbn [app split]. by rewrite decide_True.
  - cbn [app split]. rewrite IH. destruct (decide (c = sep)); [done|].
    by destruct (split sep s) eqn:E; [destruct (split_not_nil sep s)|].
Qed.

Lemma split_text_of ls : Forall (λ l, newline ∉ l) ls → split newline (text_of ls) = ls ++ [[]].
Proof.
  induction 1 as [|l ls Hl _ IH]; [done|]. rewrite text_of_cons, split_line by done. cbn. by rewrite IH.
Qed.

Lemma join_text_of ls : join_with [newline] (ls ++ [[]]) = text_of ls.
Proof.
  induction ls as [|l ls IH]; [done|]. rewrite text_of_cons, <- IH. cbn [app join_with].
  by destruct (ls ++ [[]]) eqn:E; [apply app_eq_nil in E as [_ ?]|].
Qed.

(** A line that [str::lines] returns as it is. *)
Definition line_ok (l : rstring) : Prop := (newline ∉ l) ∧ last l ≠ Some cr.
#[global] Instance line_ok_dec l : Decision (line_ok l).
Proof. unfold line_ok. apply _. Defined.

Lemma line_ok_app k l : line_ok k → line_ok l → line_ok (k ++ l).
Proof.
  intros [Hk1 Hk2] [Hl1 Hl2]. split; [by rewrite not_elem_of_app|].
  rewrite last_app. by destruct (last l).
Qed.

Lemma lines_map_full l : last l ≠ Some cr → lines_map (l ++ [newline]) = l.
Proof.
  intros Hl. unfold lines_map. rewrite (proj2 (strip_suffix_Some [newline] _ l)) by done.
  destruct (strip_suffix [cr] l) as [k|] eqn:E; [|done].
  apply strip_suffix_Some in E as ->. by rewrite last_snoc in Hl.
Qed.

Lemma lines_map_last l : newline ∉ l → lines_map l = l.
Proof.
  intros Hl. unfold lines_map. destruct (strip_suffix [newline] l) as [k|] eqn:E; [|done].
  apply strip_suffix_Some in E as ->. exfalso. apply Hl, elem_of_app. right. by left.
Qed.

Lemma full_lines ls : Forall line_ok ls → Forall full_line ((λ l, l ++ [newline]) <$> ls).
Proof. intros H. apply Forall_fmap. eapply Forall_impl; [exact H|]. intros l [Hl _]. by exists l. Qed.

Lemma lines_map_lines ls : Forall line_ok ls → lines_map <$> ((λ l, l ++ [newline]) <$> ls) = ls.
Proof. induction 1 as [|l ls [_ Hl] _ IH]; [done|]. cbn. rewrite lines_map_full by done. by f_equal. Qed.

Lemma lines_text_of ls : Forall line_ok ls → lines (text_of ls) = ls.
Proof.
  intros H. unfold lines, text_of. rewrite split_inclusive_full by (by apply full_lines).
  by apply lines_map_lines.
Qed.

Lemma lines_text_of_app ls l :
  Forall line_ok ls → newline ∉ l → l ≠ [] → lines (text_of ls ++ l) = ls ++ [l].
Proof.
  intros H Hl Hne. unfold lines, text_of. rewrite split_inclusive_full_app by (by apply full_lines).
  rewrite fmap_app, lines_map_lines by done. rewrite split_inclusive_last by done. cbn.
  by rewrite lines_map_last.
Qed.

Lemma trim_start_id c s : is_whitespace c = false → trim_start (c :: s) = c :: s.
Proof. intros Hc. unfold trim_start. cbn. by rewrite Hc. Qed.

Lemma trim_end_app_id p s : s ≠ [] → trim_end s = s → trim_end (p ++ s) = p ++ s.
Proof.
  intros Hne Hs. unfold trim_end in *. by rewrite trim_end_matches_app, Hs, bool_decide_eq_false_2.
Qed.

Lemma trim_end_last s c : trim_end s = s → last s = Some c → is_whitespace c = false.
Proof.
  intros Hs Hl. destruct s as [|d s _] using rev_ind; [done|]. rewrite last_snoc in Hl. injection Hl as ->.
  destruct (is_whitespace c) eqn:Hc; [|done]. exfalso.
  unfold trim_end in Hs. rewrite trim_end_matches_app in Hs. unfold trim_end_matches at 1 in Hs. cbn in Hs.
  rewrite Hc in Hs. cbn in Hs. destruct (trim_end_matches_prefix is_whitespace s) as [w Hw].
  rewrite Hs in Hw. apply (f_equal length) in Hw. len.
Qed.

Lemma trim_end_snoc s c : is_whitespace c = false → trim_end (s ++ [c]) = s ++ [c].
Proof. intros Hc. apply trim_end_app_id; [done|]. unfold trim_end, trim_end_matches. cbn. by rewrite Hc. Qed.

Lemma last_app_cons (l x : rstring) c : x ≠ [] → last (l ++ c :: x) = last x.
Proof.
  intros Hx. destruct x as [|y x _] using rev_ind; [done|].
  by rewrite app_comm_cons, app_assoc, !last_snoc.
Qed.

Lemma lines_app_newline x s :
  x ≠ [] → last x ≠ Some newline → last x ≠ Some cr → lines (x ++ newline :: s) = lines x ++ lines s.
Proof.
  intros Hne Hn Hc. induction x as [l Hl|l x Hl IH] using (line_ind newline).
  - unfold lines. rewrite split_inclusive_line, (split_inclusive_last newline l) by done. cbn.
    by rewrite lines_map_full, lines_map_last.
  - assert (x ≠ []) as Hx by (intros ->; by rewrite last_app in Hn).
    rewrite last_app_cons in Hn, Hc by done. rewrite <- app_assoc. unfold lines in *. cbn [app].
    rewrite (split_inclusive_line _ l x), (split_inclusive_line _ l (x ++ _)) by done. cbn [fmap list_fmap app]. f_equal. by apply IH.
Qed.
