(* ===== verification/Utf8.v ===== *)
(** * UTF-8: [String::as_bytes] and [std::str::from_utf8]

    The standard library's encoder and validating decoder, with the
    round-trip and locality lemmas the byte-stream parser relies on.  The
    decoder follows the table of well-formed sequences that
    [core::str::validations::run_utf8_validation] walks: an error carries the
    length of the valid prefix and, unless the input merely ended inside a
    sequence, the length of the offending sequence. *)
From S2P Require Import Prelude RustStr.
#[local] Open Scope N_scope.

Abbreviation byte := N.

Definition is_scalar (c : char) : Prop := c < 0xD800 ∨ (0xE000 ≤ c ∧ c ≤ 0x10FFFF).

Definition utf8_char (c : char) : list byte :=
  if c <? 0x80 then [c]
  else if c <? 0x800 then [0xC0 + c / 64; 0x80 + c mod 64]
  else if c <? 0x10000 then [0xE0 + c / 4096; 0x80 + (c / 64) mod 64; 0x80 + c mod 64]
  else [0xF0 + c / 262144; 0x80 + (c / 4096) mod 64; 0x80 + (c / 64) mod 64; 0x80 + c mod 64].
Definition utf8 (s : rstring) : list byte := s ≫= utf8_char.

Definition is_cont (b : byte) : bool := (0x80 <=? b) && (b <=? 0xBF).
Definition in_range (lo hi b : byte) : bool := (lo <=? b) && (b <=? hi).

(** The second byte allowed after the first byte of a 3- or 4-byte sequence. *)
Definition second_ok3 (b0 b1 : byte) : bool :=
  (if b0 =? 0xE0 then in_range 0xA0 0xBF b1
   else if b0 =? 0xED then in_range 0x80 0x9F b1 else is_cont b1).
Definition second_ok4 (b0 b1 : byte) : bool :=
  (if b0 =? 0xF0 then in_range 0x90 0xBF b1
   else if b0 =? 0xF4 then in_range 0x80 0x8F b1 else is_cont b1).

(** One iteration of the validation loop. *)
Inductive utf8_step_result :=
| SEnd
| SChar (c : char) (rest : list byte)
| SBad (error_len : nat)
| SMore.

Definition utf8_step (bs : list byte) : utf8_step_result :=
  match bs with
  | [] => SEnd
  | b0 :: t =>
      if b0 <? 0x80 then SChar b0 t
      else if in_range 0xC2 0xDF b0 then
        match t with
        | [] => SMore
        | b1 :: t => if is_cont b1 then SChar ((b0 - 0xC0) * 64 + (b1 - 0x80)) t else SBad 1
        end
      else if in_range 0xE0 0xEF b0 then
        match t with
        | [] => SMore
        | b1 :: t =>
            if second_ok3 b0 b1 then
              match t with
              | [] => SMore
              | b2 :: t =>
                  if is_cont b2
                  then SChar ((b0 - 0xE0) * 4096 + (b1 - 0x80) * 64 + (b2 - 0x80)) t
                  else SBad 2
              end
            else SBad 1
        end
      else if in_range 0xF0 0xF4 b0 then
        match t with
        | [] => SMore
        | b1 :: t =>
            if second_ok4 b0 b1 then
              match t with
              | [] => SMore
              | b2 :: t =>
                  if is_cont b2 then
                    match t with
                    | [] => SMore
                    | b3 :: t =>
                        if is_cont b3
                        then SChar ((b0 - 0xF0) * 262144 + (b1 - 0x80) * 4096
                                    + (b2 - 0x80) * 64 + (b3 - 0x80)) t
                        else SBad 3
                    end
                  else SBad 2
              end
            else SBad 1
        end
      else SBad 1
  end.

(** The loop: decoded characters, bytes they took, and the error if any. *)
Definition valid_prefix : Type := rstring * nat * option (option nat).
Definition cons_char (c : char) (n : nat) (r : valid_prefix) : valid_prefix :=
  let '(cs, k, e) := r in (c :: cs, (n + k)%nat, e).

Fixpoint validate_go (fuel : nat) (bs : list byte) : valid_prefix :=
  match utf8_step bs with
  | SEnd => ([], 0%nat, None)
  | SBad n => ([], 0%nat, Some (Some n))
  | SMore => ([], 0%nat, Some None)
  | SChar c rest =>
      match fuel with
      | O => ([], 0%nat, None)
      | S fuel => cons_char c (length bs - length rest) (validate_go fuel rest)
      end
  end.
Definition validate (bs : list byte) : valid_prefix := validate_go (length bs) bs.

Record Utf8Error := { valid_up_to : nat; error_len : option nat }.

Definition from_utf8 (bs : list byte) : rstring + Utf8Error :=
  match validate bs with
  | (cs, _, None) => inl cs
  | (_, n, Some el) => inr {| valid_up_to := n; error_len := el |}
  end.

(** ** One sequence *)
Ltac range_facts :=
  unfold is_cont, in_range, second_ok3, second_ok4 in *;
  repeat match goal with
  | H : _ && _ = true |- _ => apply andb_prop in H as [? ?]
  | H : _ && _ = false |- _ => apply andb_false_iff in H
  end;
  rewrite ?N.leb_le, ?N.leb_gt, ?N.ltb_lt, ?N.ltb_ge, ?N.eqb_eq, ?N.eqb_neq in *.

Ltac step_cases :=
  unfold utf8_step, second_ok3, second_ok4, is_cont, in_range; intros;
  repeat match goal with
  | H : context [if ?b then _ else _] |- _ =>
      lazymatch b with context [if _ then _ else _] => fail | _ => destruct b eqn:? end
  | H : context [match ?l with [] => _ | _ :: _ => _ end] |- _ => destruct l; simplify_eq/=
  end; simplify_eq/=.

Lemma div_mod_digits (q r d : N) : r < d → (q * d + r) / d = q ∧ (q * d + r) mod d = r.
Proof.
  intros. split.
  - symmetry. apply (N.div_unique _ _ _ r); lia.
  - symmetry. apply (N.mod_unique _ _ q); lia.
Qed.

Lemma utf8_char_2 x y :
  2 ≤ x < 32 → y < 64 → utf8_char (x * 64 + y) = [0xC0 + x; 0x80 + y].
Proof.
  intros ? ?. unfold utf8_char.
  destruct (div_mod_digits x y 64) as [-> ->]; [lia|].
  by rewrite (proj2 (N.ltb_ge _ _)), (proj2 (N.ltb_lt _ _)) by lia.
Qed.

Lemma utf8_char_3 x y z :
  x < 16 → y < 64 → z < 64 → 0x800 ≤ x * 4096 + y * 64 + z →
  utf8_char (x * 4096 + y * 64 + z) = [0xE0 + x; 0x80 + y; 0x80 + z].
Proof.
  intros ? ? ? ?. unfold utf8_char.
  rewrite (proj2 (N.ltb_ge _ 0x80)), (proj2 (N.ltb_ge _ 0x800)), (proj2 (N.ltb_lt _ 0x10000)) by lia.
  replace (x * 4096 + y * 64 + z) with ((x * 64 + y) * 64 + z) by lia.
  destruct (div_mod_digits (x * 64 + y) z 64) as [-> ->]; [lia|].
  replace 4096 with (64 * 64) by lia. rewrite <- N.Div0.div_div.
  destruct (div_mod_digits (x * 64 + y) z 64) as [-> _]; [lia|].
  by destruct (div_mod_digits x y 64) as [-> ->]; [lia|].
Qed.

Lemma utf8_char_4 w x y z :
  w < 8 → x < 64 → y < 64 → z < 64 → 0x10000 ≤ w * 262144 + x * 4096 + y * 64 + z →
  utf8_char (w * 262144 + x * 4096 + y * 64 + z) = [0xF0 + w; 0x80 + x; 0x80 + y; 0x80 + z].
Proof.
  intros ? ? ? ? ?. unfold utf8_char.
  rewrite (proj2 (N.ltb_ge _ 0x80)), (proj2 (N.ltb_ge _ 0x800)), (proj2 (N.ltb_ge _ 0x10000)) by lia.
  replace (w * 262144 + x * 4096 + y * 64 + z) with (((w * 64 + x) * 64 + y) * 64 + z) by lia.
  replace 262144 with (64 * (64 * 64)) by lia. replace 4096 with (64 * 64) by lia.
  rewrite <- !N.Div0.div_div.
  destruct (div_mod_digits ((w * 64 + x) * 64 + y) z 64) as [-> ->]; [lia|].
  destruct (div_mod_digits (w * 64 + x) y 64) as [-> ->]; [lia|].
  by destruct (div_mod_digits w x 64) as [-> ->]; [lia|].
Qed.

(** Boolean range tests as arithmetic facts. *)
Ltac n_bools :=
  repeat match goal with
  | H : _ && _ = true |- _ => apply andb_prop in H as [? ?]
  | H : (_ && _) = false |- _ => apply andb_false_iff in H as [?|?]
  | H : (_ =? _) = true |- _ => apply N.eqb_eq in H
  | H : (_ =? _) = false |- _ => apply N.eqb_neq in H
  | H : (_ <? _) = true |- _ => apply N.ltb_lt in H
  | H : (_ <? _) = false |- _ => apply N.ltb_ge in H
  | H : (_ <=? _) = true |- _ => apply N.leb_le in H
  | H : (_ <=? _) = false |- _ => apply N.leb_gt in H
  end.

Lemma second_ok3_range b0 b1 :
  second_ok3 b0 b1 = true →
  0x80 ≤ b1 < 0xC0 ∧ (b0 = 0xE0 → 0xA0 ≤ b1) ∧ (b0 = 0xED → b1 < 0xA0).
Proof. unfold second_ok3, is_cont, in_range. by_cases idtac; intros; n_bools; lia. Qed.

Lemma second_ok4_range b0 b1 :
  second_ok4 b0 b1 = true →
  0x80 ≤ b1 < 0xC0 ∧ (b0 = 0xF0 → 0x90 ≤ b1) ∧ (b0 = 0xF4 → b1 < 0x90).
Proof. unfold second_ok4, is_cont, in_range. by_cases idtac; intros; n_bools; lia. Qed.

Ltac step_inv H :=
  unfold utf8_step in H;
  repeat (case_scrutinee_in H; simplify_eq);
  repeat match goal with
  | H : second_ok3 _ _ = true |- _ => apply second_ok3_range in H as (? & ? & ?)
  | H : second_ok4 _ _ = true |- _ => apply second_ok4_range in H as (? & ? & ?)
  end; unfold is_cont, in_range in *; n_bools.

Lemma utf8_step_SChar bs c rest :
  utf8_step bs = SChar c rest → bs = utf8_char c ++ rest ∧ is_scalar c.
Proof.
  intros H. unfold is_scalar. destruct bs as [|b0 bs]; [done|].
  step_inv H; (split; [|lia]);
    first
      [ unfold utf8_char; by rewrite (proj2 (N.ltb_lt _ _)) by lia
      | rewrite utf8_char_2 by lia; cbn; do 2 f_equal; lia
      | rewrite utf8_char_3 by lia; cbn; do 3 f_equal; lia
      | rewrite utf8_char_4 by lia; cbn; do 4 f_equal; lia ].
Qed.

Lemma utf8_step_SMore bs : utf8_step bs = SMore → (1 ≤ length bs ≤ 3)%nat.
Proof.
  intros H. unfold utf8_step in H. repeat (case_scrutinee_in H; simplify_eq); cbn; lia.
Qed.

Lemma utf8_step_SEnd bs : utf8_step bs = SEnd → bs = [].
Proof. intros H. unfold utf8_step in H. by repeat (case_scrutinee_in H; simplify_eq). Qed.

Lemma utf8_step_SBad_app bs n t : utf8_step bs = SBad n → utf8_step (bs ++ t) = SBad n.
Proof.
  unfold utf8_step. intros H.
  repeat (case_scrutinee_in H; simplify_eq); cbn;
    repeat match goal with E : _ = _ |- _ => rewrite E end; done.
Qed.

Lemma utf8_step_SChar_app bs c rest t :
  utf8_step bs = SChar c rest → utf8_step (bs ++ t) = SChar c (rest ++ t).
Proof.
  unfold utf8_step. intros H.
  repeat (case_scrutinee_in H; simplify_eq); cbn;
    repeat match goal with E : _ = _ |- _ => rewrite E end; done.
Qed.

(** The decoder reads back one encoded scalar value. *)
Lemma utf8_step_encode c t : is_scalar c → utf8_step (utf8_char c ++ t) = SChar c t.
Proof.
  intros Hc. unfold is_scalar in Hc. unfold utf8_char.
  replace (c / 262144) with (c / 4096 / 64) by (by rewrite N.Div0.div_div).
  replace (c / 4096) with (c / 64 / 64) by (by rewrite N.Div0.div_div).
  pose proof (N.mod_upper_bound c 64 ltac:(lia)). pose proof (N.div_mod c 64 ltac:(lia)).
  generalize dependent (c / 64). generalize dependent (c mod 64). intros r0 ? q0 ?.
  pose proof (N.mod_upper_bound q0 64 ltac:(lia)). pose proof (N.div_mod q0 64 ltac:(lia)).
  generalize dependent (q0 / 64). generalize dependent (q0 mod 64). intros r1 ? q1 ?.
  pose proof (N.mod_upper_bound q1 64 ltac:(lia)). pose proof (N.div_mod q1 64 ltac:(lia)).
  generalize dependent (q1 / 64). generalize dependent (q1 mod 64). intros r2 ? q2 ?.
  case_scrutinee; n_bools; [cbn; by rewrite (proj2 (N.ltb_lt _ _)) by lia|].
  case_scrutinee; n_bools; [|case_scrutinee; n_bools];
    cbn [app]; unfold utf8_step, second_ok3, second_ok4, is_cont, in_range.
  all: repeat (case_scrutinee; n_bools; try (exfalso; lia)); f_equal; lia.
Qed.

(** ** The whole input *)
Lemma utf8_step_SChar_length bs c rest :
  utf8_step bs = SChar c rest → (length rest < length bs)%nat.
Proof.
  intros [-> _]%utf8_step_SChar. rewrite length_app. unfold utf8_char.
  repeat case_scrutinee; cbn; lia.
Qed.

Lemma validate_go_fuel f g bs :
  (length bs ≤ f)%nat → (length bs ≤ g)%nat → validate_go f bs = validate_go g bs.
Proof.
  revert g bs. induction f as [|f IH]; intros g bs Hf Hg;
    destruct g as [|g]; cbn; destruct (utf8_step bs) as [|c rest| |] eqn:E; try done;
    pose proof (utf8_step_SChar_length _ _ _ E); try lia.
  f_equal. apply IH; lia.
Qed.

Lemma validate_unfold bs :
  validate bs = match utf8_step bs with
                | SEnd => ([], 0%nat, None)
                | SBad n => ([], 0%nat, Some (Some n))
                | SMore => ([], 0%nat, Some None)
                | SChar c rest => cons_char c (length bs - length rest) (validate rest)
                end.
Proof.
  unfold validate. destruct bs as [|b bs]; [done|].
  cbn [length validate_go]. destruct (utf8_step (b :: bs)) as [|c rest| |] eqn:E; try done.
  f_equal. pose proof (utf8_step_SChar_length _ _ _ E). cbn in *. apply validate_go_fuel; lia.
Qed.

(** Induction along the decoding loop. *)
Lemma utf8_ind (P : list byte → Prop) :
  (∀ bs, (∀ c rest, utf8_step bs = SChar c rest → P rest) → P bs) → ∀ bs, P bs.
Proof.
  intros Hstep bs. remember (length bs) as n eqn:Hn.
  revert bs Hn. induction (lt_wf n) as [n _ IH]. intros bs ->.
  apply Hstep. intros c rest E. eapply IH; [|done]. by eapply utf8_step_SChar_length.
Qed.

Lemma utf8_cons c s : utf8 (c :: s) = utf8_char c ++ utf8 s.
Proof. done. Qed.
Lemma utf8_app s t : utf8 (s ++ t) = utf8 s ++ utf8 t.
Proof. apply bind_app. Qed.

(** The decoded prefix re-encodes to the bytes it took. *)
Lemma validate_sound bs cs k e :
  validate bs = (cs, k, e) →
  bs = utf8 cs ++ drop k bs ∧ k = length (utf8 cs) ∧ Forall is_scalar cs ∧
  validate (drop k bs) = ([], 0%nat, e).
Proof.
  revert cs k e. induction bs as [bs IH] using utf8_ind. intros cs k e H.
  rewrite validate_unfold in H. destruct (utf8_step bs) as [|c rest|n|] eqn:E.
  - apply utf8_step_SEnd in E as ->. by simplify_eq.
  - destruct (validate rest) as [[cs' k'] e'] eqn:Er. injection H as <- <- <-.
    destruct (IH _ _ eq_refl _ _ _ Er) as (H1 & H2 & H3 & H4).
    apply utf8_step_SChar in E as [-> Hc].
    replace (length (utf8_char c ++ rest) - length rest + k')%nat
      with (length (utf8_char c) + k')%nat by (rewrite length_app; lia).
    rewrite drop_app_ge by lia.
    replace (length (utf8_char c) + k' - length (utf8_char c))%nat with k' by lia.
    rewrite utf8_cons, <- app_assoc, <- H1, length_app. split_and!; auto.
  - injection H as <- <- <-. rewrite drop_0, validate_unfold, E. done.
  - injection H as <- <- <-. rewrite drop_0, validate_unfold, E. done.
Qed.

(** Locality: a decoded prefix stays decoded when bytes follow. *)
Lemma validate_encode_app cs t :
  Forall is_scalar cs →
  validate (utf8 cs ++ t) =
    let '(cs', k', e') := validate t in (cs ++ cs', (length (utf8 cs) + k')%nat, e').
Proof.
  induction 1 as [|c cs Hc _ IH]; cbn [app].
  { change (utf8 [] ++ t) with t. by destruct (validate t) as [[??]?]. }
  rewrite utf8_cons, <- app_assoc, validate_unfold, utf8_step_encode, IH by done.
  destruct (validate t) as [[cs' k'] e']. cbn. f_equal. f_equal.
  rewrite !length_app. lia.
Qed.

Lemma validate_encode cs :
  Forall is_scalar cs → validate (utf8 cs) = (cs, length (utf8 cs), None).
Proof.
  intros H. rewrite <- (app_nil_r (utf8 cs)), validate_encode_app by done.
  cbn. by rewrite !app_nil_r, Nat.add_0_r.
Qed.

Lemma from_utf8_encode cs : Forall is_scalar cs → from_utf8 (utf8 cs) = inl cs.
Proof. intros. unfold from_utf8. by rewrite validate_encode. Qed.

Lemma validate_None bs cs k : validate bs = (cs, k, None) → bs = utf8 cs.
Proof.
  intros (H1 & -> & _ & H2)%validate_sound. rewrite validate_unfold in H2.
  destruct (utf8_step (drop _ bs)) as [|c rest| |] eqn:E; try done.
  - apply utf8_step_SEnd in E. by rewrite E, app_nil_r in H1.
  - by destruct (validate rest) as [[??]?].
Qed.

Lemma from_utf8_inl bs cs : from_utf8 bs = inl cs → bs = utf8 cs ∧ Forall is_scalar cs.
Proof.
  unfold from_utf8. destruct (validate bs) as [[cs' k] [el|]] eqn:E; [done|].
  intros [= <-]. split; [by eapply validate_None|]. by apply validate_sound in E as (_ & _ & ? & _).
Qed.

(** Nothing is decoded exactly when the first sequence is bad or cut short. *)
Lemma validate_stuck bs e :
  validate bs = ([], 0%nat, Some e) →
  match e with
  | Some n => utf8_step bs = SBad n
  | None => utf8_step bs = SMore
  end.
Proof.
  rewrite validate_unfold. destruct (utf8_step bs) as [|c rest|n|] eqn:E; intros H; simplify_eq; try done.
  by destruct (validate rest) as [[??]?].
Qed.

Lemma validate_SMore bs : utf8_step bs = SMore → validate bs = ([], 0%nat, Some None).
Proof. intros E. by rewrite validate_unfold, E. Qed.
Lemma validate_SBad bs n : utf8_step bs = SBad n → validate bs = ([], 0%nat, Some (Some n)).
Proof. intros E. by rewrite validate_unfold, E. Qed.
