(* ===== verification/StreamText.v ===== *)
(** * The [StreamTextParser] interface ([utils/stream-parser/src/stream_text.rs])

    A parser consumes text chunk by chunk and yields visible text and extracted
    payloads.  The trait is the class [StreamTextParser]; what one parser
    promises to the code that wraps it is the class [StreamLaws]: a
    well-formed parser always returns, and where the stream is cut into chunks
    does not matter. *)
From S2P Require Import Prelude RustStr.

Record StreamTextChunk (T : Type) := mk_chunk {
  visible_text : rstring;
  extracted : list T
}.
Arguments mk_chunk {T} _ _.
Arguments visible_text {T} _.
Arguments extracted {T} _.

Definition chunk_default {T} : StreamTextChunk T := mk_chunk [] [].

Definition chunk_is_empty {T} (c : StreamTextChunk T) : bool :=
  bool_decide (visible_text c = []) && bool_decide (length (extracted c) = 0).

(** What every caller does with successive chunks: concatenate both fields. *)
Definition chunk_app {T} (a b : StreamTextChunk T) : StreamTextChunk T :=
  mk_chunk (visible_text a ++ visible_text b) (extracted a ++ extracted b).
Infix "+++" := chunk_app (at level 60, right associativity) : rust_scope.

(** [push_str] is [None] when the call does not return. *)
Class StreamTextParser (P T : Type) := {
  push_str : P → rstring → option (P * StreamTextChunk T);
  finish : P → P * StreamTextChunk T
}.

Section chunk_monoid.
Context {T : Type}.
Implicit Types a b c : StreamTextChunk T.

Lemma chunk_app_assoc a b c : (a +++ b) +++ c = a +++ b +++ c.
Proof. unfold chunk_app. cbn. by rewrite !app_assoc. Qed.
Lemma chunk_app_default_l a : chunk_default +++ a = a.
Proof. by destruct a. Qed.
Lemma chunk_app_default_r a : a +++ chunk_default = a.
Proof. destruct a. unfold chunk_app, chunk_default. cbn. by rewrite !app_nil_r. Qed.
Lemma chunk_is_empty_spec a : chunk_is_empty a = true ↔ a = chunk_default.
Proof.
  unfold chunk_is_empty. rewrite andb_true_iff, !bool_decide_eq_true.
  destruct a as [v [|x e]]; unfold chunk_default; cbn; naive_solver.
Qed.
End chunk_monoid.
Create Rewrite HintDb chunks.
#[export] Hint Rewrite @chunk_app_default_l @chunk_app_default_r @chunk_app_assoc : chunks.

(** ** What a parser promises *)
Class StreamLaws (P T : Type) `{StreamTextParser P T} := {
  parser_wf : P → Prop;
  out_equiv : relation (StreamTextChunk T);
  out_equivalence :: Equivalence out_equiv;
  out_app_proper :: Proper (out_equiv ==> out_equiv ==> out_equiv) chunk_app;
  push_ok p s : parser_wf p → ∃ p' o, push_str p s = Some (p', o) ∧ parser_wf p';
  push_nil p : parser_wf p → push_str p [] = Some (p, chunk_default);
  push_app p s1 s2 p1 o1 p2 o2 :
    parser_wf p → push_str p s1 = Some (p1, o1) → push_str p1 s2 = Some (p2, o2) →
    ∃ o, push_str p (s1 ++ s2) = Some (p2, o) ∧ out_equiv o (o1 +++ o2)
}.

(** Feeding a list of chunks, collecting what comes out. *)
Fixpoint push_all {P T} `{StreamTextParser P T} (p : P) (chunks : list rstring)
    : option (P * StreamTextChunk T) :=
  match chunks with
  | [] => Some (p, chunk_default)
  | s :: rest =>
      '(p1, o1) ← push_str p s;
      '(p2, o2) ← push_all p1 rest;
      Some (p2, o1 +++ o2)
  end.

(** A whole run: all chunks, then the final flush. *)
Definition collect {P T} `{StreamTextParser P T} (p : P) (chunks : list rstring)
    : option (StreamTextChunk T) :=
  '(p1, o1) ← push_all p chunks;
  Some (o1 +++ (finish p1).2).

Lemma push_all_snoc {P T} `{StreamTextParser P T} (p : P) chunks s :
  push_all p (chunks ++ [s]) =
    ('(p1, o1) ← push_all p chunks; '(p2, o2) ← push_str p1 s; Some (p2, o1 +++ o2)).
Proof.
  revert p. induction chunks as [|v chunks IH]; intros p; cbn.
  - destruct (push_str p s) as [[p2 o2]|]; cbn; [|done].
    by rewrite chunk_app_default_l, chunk_app_default_r.
  - destruct (push_str p v) as [[q o]|]; cbn; [|done]. rewrite IH.
    destruct (push_all q chunks) as [[p1 o1]|]; cbn; [|done].
    destruct (push_str p1 s) as [[p2 o2]|]; cbn; [|done]. by rewrite chunk_app_assoc.
Qed.

Section laws.
Context {P T : Type} `{StreamLaws P T}.

Lemma push_wf p s p' o : parser_wf p → push_str p s = Some (p', o) → parser_wf p'.
Proof. intros Hp E. destruct (push_ok p s Hp) as (p2 & o2 & E2 & ?). by simplify_eq. Qed.

(** A run over any chunks ends in the state the undivided text ends in and
    yields the same output. *)
Lemma push_all_concat p chunks :
  parser_wf p →
  ∃ p' o o', push_all p chunks = Some (p', o) ∧ push_str p (concat chunks) = Some (p', o') ∧
             out_equiv o o' ∧ parser_wf p'.
Proof.
  revert p. induction chunks as [|s rest IH]; intros p Hp; cbn.
  { exists p, chunk_default, chunk_default. rewrite push_nil by done. done. }
  destruct (push_ok p s Hp) as (p1 & o1 & E1 & H1).
  destruct (IH p1 H1) as (p2 & o2 & o2' & E2 & E2' & Heq & H2).
  destruct (push_app p s (concat rest) p1 o1 p2 o2' Hp E1 E2') as (o & E & Ho).
  exists p2, (o1 +++ o2), o. rewrite E1. cbn. rewrite E2. cbn.
  split_and!; [done|done| |done]. by rewrite Ho, Heq.
Qed.

Lemma collect_concat p chunks1 chunks2 :
  parser_wf p → concat chunks1 = concat chunks2 →
  ∃ o1 o2, collect p chunks1 = Some o1 ∧ collect p chunks2 = Some o2 ∧ out_equiv o1 o2.
Proof.
  intros Hp Hc. unfold collect.
  destruct (push_all_concat p chunks1 Hp) as (p1 & a1 & b1 & E1 & F1 & G1 & _).
  destruct (push_all_concat p chunks2 Hp) as (p2 & a2 & b2 & E2 & F2 & G2 & _).
  rewrite Hc, F2 in F1. injection F1 as <- <-. rewrite E1, E2. cbn.
  do 2 eexists. split_and!; [done|done|]. by rewrite G1, G2.
Qed.
End laws.
