(* ===== verification/InlineHiddenTag.v ===== *)
(** * Inline hidden tags ([utils/stream-parser/src/inline_hidden_tag.rs])

    The streaming parser that hides configured inline tags and extracts their
    contents, as a state machine over the buffered text, the laws it promises
    to the parsers built on it, and the theorems about hidden tags. *)
From S2P Require Import Prelude RustStr Utf8 StreamText.

(** [Iterator::min_by]: the first of the least elements. *)
Definition min_by {A} (cmp : A → A → comparison) (l : list A) : option A :=
  match l with
  | [] => None
  | x :: t => Some (foldl (λ a b, match cmp a b with Gt => b | _ => a end) x t)
  end.

(** [str::len]: length in bytes. *)
Definition str_len (s : rstring) : nat := length (utf8 s).

(** The suffix match: the largest proper prefix of [needle] that ends [s]. *)
Fixpoint longest_go (k : nat) (s needle : rstring) : nat :=
  match k with
  | 0 => 0
  | S k' => if ends_with s (take k needle) then k else longest_go k' s needle
  end.
Definition longest_suffix_prefix_len (s needle : rstring) : nat :=
  longest_go (length s `min` (length needle - 1)) s needle.

Section InlineHiddenTag.
Context {T : Type}.

Record ExtractedInlineTag := { tag : T; content : rstring }.
Record InlineTagSpec := { spec_tag : T; spec_open : rstring; spec_close : rstring }.
Record ActiveTag := { active_tag : T; active_close : rstring; active_content : rstring }.

Record InlineHiddenTagParser := {
  specs : list InlineTagSpec;
  pending : rstring;
  active : option ActiveTag
}.

Abbreviation Chunk := (StreamTextChunk ExtractedInlineTag).

(** The constructor's assertions. *)
Definition new (ss : list InlineTagSpec) : outcome Empty_set InlineHiddenTagParser :=
  if bool_decide (length ss = 0) then Panic
  else if forallb (λ s, negb (bool_decide (spec_open s = []))
                        && negb (bool_decide (spec_close s = []))) ss
       then Ok {| specs := ss; pending := []; active := None |}
       else Panic.

(** The order on candidate openers: earliest, then longest, then first. *)
Definition open_cmp (a b : nat * nat * nat) : comparison :=
  let '(pos_a, len_a, idx_a) := a in
  let '(pos_b, len_b, idx_b) := b in
  match Nat.compare pos_a pos_b with
  | Eq => match Nat.compare len_b len_a with Eq => Nat.compare idx_a idx_b | c => c end
  | c => c
  end.

Definition candidates_in (text : rstring) (l : list (nat * InlineTagSpec))
    : list (nat * nat * nat) :=
  omap (λ '(idx, s), (λ pos, (pos, str_len (spec_open s), idx)) <$> find (spec_open s) text) l.
Definition open_candidates (ss : list InlineTagSpec) (text : rstring) : list (nat * nat * nat) :=
  candidates_in text (imap pair ss).

Definition find_next_open (p : InlineHiddenTagParser) : option (nat * nat) :=
  (λ '(pos, _, idx), (pos, idx)) <$> min_by open_cmp (open_candidates (specs p) (pending p)).

Definition max_open_prefix_suffix_len (p : InlineHiddenTagParser) : nat :=
  foldr max 0 ((λ s, longest_suffix_prefix_len (pending p) (spec_open s)) <$> specs p).

Definition push_visible_prefix (out : Chunk) (text : rstring) : Chunk :=
  if bool_decide (text = []) then out
  else mk_chunk (visible_text out ++ text) (extracted out).

Definition drain_visible_to_suffix_match (p : InlineHiddenTagParser) (out : Chunk)
    (keep_suffix_len : nat) : InlineHiddenTagParser * Chunk :=
  let n := length (pending p) - keep_suffix_len in
  if bool_decide (n = 0) then (p, out)
  else ({| specs := specs p; pending := drop n (pending p); active := active p |},
        push_visible_prefix out (take n (pending p))).

(** The [loop] of [push_str]; [None] is running out of fuel (or indexing
    [specs] out of range), which a well-formed parser never does. *)
Fixpoint push_loop (fuel : nat) (p : InlineHiddenTagParser) (out : Chunk)
    : option (InlineHiddenTagParser * Chunk) :=
  match fuel with
  | 0 => None
  | S fuel =>
      match active p with
      | Some a =>
          match find (active_close a) (pending p) with
          | Some close_idx =>
              let tag := {| tag := active_tag a;
                            content := active_content a ++ take close_idx (pending p) |} in
              push_loop fuel
                {| specs := specs p;
                   pending := drop (close_idx + length (active_close a)) (pending p);
                   active := None |}
                (mk_chunk (visible_text out) (extracted out ++ [tag]))
          | None =>
              let keep := longest_suffix_prefix_len (pending p) (active_close a) in
              let n := length (pending p) - keep in
              Some (if bool_decide (0 < n)
                    then {| specs := specs p;
                            pending := drop n (pending p);
                            active := Some {| active_tag := active_tag a;
                                              active_close := active_close a;
                                              active_content := active_content a
                                                ++ take n (pending p) |} |}
                    else p, out)
          end
      | None =>
          match find_next_open p with
          | Some (open_idx, spec_idx) =>
              match specs p !! spec_idx with
              | Some s =>
                  push_loop fuel
                    {| specs := specs p;
                       pending := drop (open_idx + length (spec_open s)) (pending p);
                       active := Some {| active_tag := spec_tag s;
                                         active_close := spec_close s;
                                         active_content := [] |} |}
                    (push_visible_prefix out (take open_idx (pending p)))
              | None => None
              end
          | None =>
              Some (drain_visible_to_suffix_match p out (max_open_prefix_suffix_len p))
          end
      end
  end.

(** Every iteration that loops consumes a delimiter, so the length of the
    buffered text bounds their number. *)
Definition tag_push_str (p : InlineHiddenTagParser) (chunk : rstring)
    : option (InlineHiddenTagParser * Chunk) :=
  let p := {| specs := specs p; pending := pending p ++ chunk; active := active p |} in
  push_loop (S (length (pending p))) p chunk_default.

Definition tag_finish (p : InlineHiddenTagParser) : InlineHiddenTagParser * Chunk :=
  match active p with
  | Some a =>
      let body := if bool_decide (pending p = []) then active_content a
                  else active_content a ++ pending p in
      ({| specs := specs p; pending := []; active := None |},
       mk_chunk [] [{| tag := active_tag a; content := body |}])
  | None =>
      if bool_decide (pending p = []) then (p, chunk_default)
      else ({| specs := specs p; pending := []; active := None |}, mk_chunk (pending p) [])
  end.

#[export] Instance InlineHiddenTag_stream :
  StreamTextParser InlineHiddenTagParser ExtractedInlineTag :=
  {| push_str := tag_push_str; finish := tag_finish |}.
End InlineHiddenTag.
Arguments ExtractedInlineTag : clear implicits.
Arguments InlineTagSpec : clear implicits.
Arguments ActiveTag : clear implicits.
Arguments InlineHiddenTagParser : clear implicits.

#[global] Arguments longest_suffix_prefix_len : simpl never.
#[global] Arguments max_open_prefix_suffix_len : simpl never.
#[global] Arguments find_next_open : simpl never.
#[global] Arguments tag_push_str : simpl never.

(** ** The suffix match *)

Lemma longest_go_spec k s needle :
  let r := longest_go k s needle in
  r ≤ k ∧ take r needle `suffix_of` s ∧
  ∀ j, r < j ≤ k → ¬ take j needle `suffix_of` s.
Proof.
  induction k as [|k IH]; cbn [longest_go].
  { rewrite take_0. split_and!; [lia|apply suffix_nil|lia]. }
  destruct (ends_with s (take (S k) needle)) eqn:E.
  - apply ends_with_spec in E. split_and!; [lia|done|lia].
  - destruct IH as (? & ? & Hn). split_and!; [lia|done|].
    intros j ?. destruct (decide (j = S k)) as [->|].
    + intros Hs. apply ends_with_spec in Hs. congruence.
    + apply Hn. lia.
Qed.

Section longest.
Context (needle : rstring) (Hneedle : needle ≠ []).
Implicit Types s t d k : rstring.

Lemma longest_suffix s : take (longest_suffix_prefix_len s needle) needle `suffix_of` s.
Proof using Type. apply longest_go_spec. Qed.

Lemma longest_lt s :
  longest_suffix_prefix_len s needle < length needle ∧
  longest_suffix_prefix_len s needle ≤ length s.
Proof using Hneedle.
  unfold longest_suffix_prefix_len.
  pose proof (longest_go_spec (length s `min` (length needle - 1)) s needle) as (H & _ & _).
  destruct needle; [done|]. cbn in *. lia.
Qed.

Lemma longest_max s j :
  j < length needle → take j needle `suffix_of` s → j ≤ longest_suffix_prefix_len s needle.
Proof using Type.
  intros Hj Hs.
  destruct (longest_go_spec (length s `min` (length needle - 1)) s needle) as (_ & _ & H).
  pose proof (suffix_length _ _ Hs) as Hl. rewrite length_take in Hl.
  destruct (decide (j ≤ longest_suffix_prefix_len s needle)) as [|Hn]; [done|].
  destruct (H j); [|done]. unfold longest_suffix_prefix_len in Hn. lia.
Qed.

(** [s = d ++ k] where no proper prefix of the needle ending [s] is longer
    than [k]: what was drained from the buffer cannot start a delimiter. *)
Definition settled_at d k : Prop :=
  find needle (d ++ k) = None ∧
  ∀ j, j < length needle → take j needle `suffix_of` (d ++ k) → j ≤ length k.

Lemma settled_drained d k t i :
  settled_at d k → occurs_at needle (d ++ k ++ t) i → length d ≤ i.
Proof using Hneedle.
  intros [Hf Hs] Ho. destruct (decide (length d ≤ i)) as [|Hi]; [done|exfalso].
  destruct (decide (i + length needle ≤ length (d ++ k))) as [Hin|Hout].
  - rewrite app_assoc in Ho. apply occurs_at_app_inv in Ho; [|done].
    rewrite find_None in Hf. apply (Hf i); [len|done].
  - rewrite app_assoc in Ho. destruct Ho as [r Hr].
    rewrite drop_app_le in Hr by len.
    assert (drop i (d ++ k) = take (length (d ++ k) - i) needle) as Hd.
    { apply (f_equal (take (length (d ++ k) - i))) in Hr.
      rewrite take_app_le, take_app_le, take_ge in Hr by len. done. }
    specialize (Hs (length (d ++ k) - i)). rewrite <- Hd in Hs.
    rewrite length_app in *. cut (length d + length k - i ≤ length k); [lia|].
    apply Hs; [lia|]. exists (take i (d ++ k)). by rewrite take_drop.
Qed.

Lemma settled_find d k t :
  settled_at d k → find needle (d ++ k ++ t) = (Nat.add (length d)) <$> find needle (k ++ t).
Proof using Hneedle.
  intros Hd. destruct (find needle (k ++ t)) as [i|] eqn:E; cbn.
  - apply find_Some in E as (Ho & Hl & Hn). apply find_Some. split_and!.
    + by apply occurs_at_shift.
    + len.
    + intros j Hj Ho'. pose proof (settled_drained _ _ _ _ Hd Ho').
      apply (Hn (j - length d)); [lia|]. apply (occurs_at_unshift _ d).
      by replace (length d + (j - length d)) with j by lia.
  - rewrite find_None in *. intros j Hj Ho'. pose proof (settled_drained _ _ _ _ Hd Ho').
    apply (E (j - length d)); [len|]. apply (occurs_at_unshift _ d).
    by replace (length d + (j - length d)) with j by lia.
Qed.

Lemma settled_longest d k t :
  settled_at d k →
  longest_suffix_prefix_len (d ++ k ++ t) needle = longest_suffix_prefix_len (k ++ t) needle.
Proof using Hneedle.
  intros [_ Hs]. apply Nat.le_antisymm.
  - pose proof (longest_lt (d ++ k ++ t)) as [Hlt _].
    destruct (longest_suffix (d ++ k ++ t)) as [r Hr].
    set (n := longest_suffix_prefix_len (d ++ k ++ t) needle) in *.
    destruct (decide (n ≤ length (k ++ t))) as [Hn|Hn].
    + apply longest_max; [done|]. exists (drop (length d) r).
      pose proof (f_equal length Hr) as Hl.
      apply (f_equal (drop (length d))) in Hr. rewrite drop_app_length in Hr.
      rewrite Hr, drop_app_le; [done|]. len.
    + exfalso. assert (take (n - length t) needle `suffix_of` (d ++ k)) as Hdk.
      { exists r. pose proof (f_equal length Hr) as Hl.
        apply (f_equal (take (length (d ++ k)))) in Hr.
        rewrite app_assoc, take_app_length in Hr. rewrite Hr at 1.
        rewrite take_app, (take_ge r), take_take by len. do 2 f_equal. len. }
      apply Hs in Hdk; len.
  - apply longest_max; [apply longest_lt|].
    destruct (longest_suffix (k ++ t)) as [r Hr]. exists (d ++ r).
    by rewrite Hr at 1; rewrite app_assoc.
Qed.

(** Draining down to the suffix match settles the buffer. *)
Lemma drain_settles s n :
  find needle s = None → longest_suffix_prefix_len s needle ≤ n →
  settled_at (take (length s - n) s) (drop (length s - n) s).
Proof using Type.
  intros Hf Hn. unfold settled_at. rewrite take_drop. split; [done|].
  intros j Hj Hs. pose proof (longest_max s j Hj Hs). pose proof (suffix_length _ _ Hs). len.
Qed.

Lemma find_drop_None s n : find needle s = None → find needle (drop n s) = None.
Proof using Hneedle.
  rewrite !find_None. intros H i Hi Ho.
  destruct (decide (n ≤ length s)) as [Hn|Hn].
  - apply (H (n + i)); [len|]. unfold occurs_at in *. by rewrite drop_drop in Ho.
  - apply occurs_at_length in Ho; [|done]. rewrite (drop_ge s) in Ho by lia.
    destruct needle; [done|]. cbn in Ho. lia.
Qed.
End longest.

(** ** The next opener *)

Section min_by.
Context {A : Type} (cmp : A → A → comparison).
Definition cmp_le a b : Prop := cmp a b ≠ Gt.
Context (Htrans : ∀ a b c, cmp_le a b → cmp_le b c → cmp_le a c).
Context (Hrefl : ∀ a, cmp_le a a).
Context (Htotal : ∀ a b, cmp a b = Gt → cmp_le b a).

Let step a b := match cmp a b with Gt => b | _ => a end.

Lemma min_fold_spec l x :
  let r := foldl step x l in (r = x ∨ r ∈ l) ∧ cmp_le r x ∧ ∀ y, y ∈ l → cmp_le r y.
Proof using Type*.
  revert x. induction l as [|a l IH]; intros x; cbn.
  { split_and!; [by left|apply Hrefl|]. by intros y Hy%not_elem_of_nil. }
  destruct (IH (step x a)) as (Hin & Hx & Hl).
  assert (cmp_le (step x a) x ∧ cmp_le (step x a) a ∧ (step x a = x ∨ step x a = a)) as (? & ? & Hs).
  { unfold step. destruct (cmp x a) eqn:E; split_and!; auto; unfold cmp_le; by rewrite E. }
  split_and!.
  - destruct Hin as [Hin|Hin]; [|by right; right].
    rewrite Hin, elem_of_cons. destruct Hs as [->| ->]; auto.
  - by eapply Htrans.
  - intros y [->|Hy]%elem_of_cons; [by eapply Htrans|by apply Hl].
Qed.

Lemma min_by_Some l x : min_by cmp l = Some x → x ∈ l ∧ ∀ y, y ∈ l → cmp_le x y.
Proof using Type*.
  destruct l as [|a l]; [done|]. intros [= <-].
  destruct (min_fold_spec l a) as (Hin & Ha & Hl). split.
  - rewrite elem_of_cons. by destruct Hin; [left|right].
  - intros y [->|Hy]%elem_of_cons; [done|by apply Hl].
Qed.

Lemma min_by_None l : min_by cmp l = None ↔ l = [].
Proof using Type. by destruct l. Qed.

Lemma min_by_map (f : A → A) l :
  (∀ a b, cmp (f a) (f b) = cmp a b) → min_by cmp (f <$> l) = f <$> min_by cmp l.
Proof using Type.
  intros Hf. destruct l as [|a l]; [done|]. cbn. f_equal.
  revert a. induction l as [|b l IH]; intros a; cbn; [done|].
  rewrite Hf. rewrite <- IH. by destruct (cmp a b).
Qed.
End min_by.

Lemma open_cmp_le a b :
  cmp_le open_cmp a b ↔
    a.1.1 < b.1.1 ∨ a.1.1 = b.1.1 ∧ (b.1.2 < a.1.2 ∨ a.1.2 = b.1.2 ∧ a.2 ≤ b.2).
Proof.
  destruct a as [[pa la] ia], b as [[pb lb] ib]. unfold cmp_le, open_cmp. cbn.
  destruct (Nat.compare_spec pa pb); [destruct (Nat.compare_spec lb la)|..];
    [destruct (Nat.compare_spec ia ib)|..];
    (split; [intros Hc|intros Hc ?; simplify_eq; lia]);
    (contradiction Hc; reflexivity) || (clear Hc; lia).
Qed.

Lemma open_min l x :
  min_by open_cmp l = Some x → x ∈ l ∧ ∀ y, y ∈ l → cmp_le open_cmp x y.
Proof.
  apply min_by_Some.
  - intros a b c. rewrite !open_cmp_le. lia.
  - intros a. rewrite open_cmp_le. lia.
  - intros a b E. destruct (decide (cmp_le open_cmp b a)) as [|Hn]; [done|].
    assert (¬ cmp_le open_cmp a b) by (intros H; apply H, E). rewrite !open_cmp_le in *. lia.
Qed.

Section next_open.
Context {T : Type}.
Implicit Types ss : list (InlineTagSpec T).

(** The delimiters are not empty (the assertions of [new]). *)
Definition specs_wf ss : Prop :=
  ss ≠ [] ∧ Forall (λ s, spec_open s ≠ [] ∧ spec_close s ≠ []) ss.

(** No opener is completed while a longer opener is still being read: an
    opener that occurs in another one reaches its end. *)
Definition openers_independent ss : Prop :=
  ∀ s1 s2 i, s1 ∈ ss → s2 ∈ ss → occurs_at (spec_open s1) (spec_open s2) i →
             length (spec_open s2) ≤ i + length (spec_open s1).

Lemma elem_of_candidates ss text pos len idx :
  (pos, len, idx) ∈ open_candidates ss text ↔
  ∃ s, ss !! idx = Some s ∧ find (spec_open s) text = Some pos ∧ len = str_len (spec_open s).
Proof.
  unfold open_candidates, candidates_in. rewrite list_elem_of_omap. split.
  - intros ([i s] & Hin & Hf). apply list_elem_of_lookup in Hin as [j Hj].
    rewrite list_lookup_imap in Hj. destruct (ss !! j) eqn:E; [|done]. cbn in Hj.
    simplify_eq. apply fmap_Some in Hf as (? & ? & ?). simplify_eq. eauto.
  - intros (s & Hs & Hf & ->). exists (idx, s). split; [|by rewrite Hf].
    apply list_elem_of_lookup. exists idx. by rewrite list_lookup_imap, Hs.
Qed.

Lemma candidates_settled ss d k t :
  specs_wf ss → (∀ s, s ∈ ss → settled_at (spec_open s) d k) →
  open_candidates ss (d ++ k ++ t) =
    (λ '(pos, len, idx), (length d + pos, len, idx)) <$> open_candidates ss (k ++ t).
Proof.
  intros [_ Hwf] Hs. unfold open_candidates.
  assert (∀ l : list (nat * InlineTagSpec T), (∀ x, x ∈ l → x.2 ∈ ss) →
    candidates_in (d ++ k ++ t) l =
      (λ '(pos, len, idx), (length d + pos, len, idx)) <$> candidates_in (k ++ t) l) as H.
  { induction l as [|[i s] l IH]; intros Hl; [done|]. unfold candidates_in in *. cbn.
    assert (s ∈ ss) as Hin by (apply (Hl (i, s)); set_solver).
    rewrite Forall_forall in Hwf. destruct (Hwf s Hin) as [Hne _].
    rewrite (settled_find _ Hne d k t) by auto.
    destruct (find (spec_open s) (k ++ t)); cbn; [f_equal|]; apply IH; set_solver. }
  apply H. intros [i s] Hin. apply list_elem_of_lookup in Hin as [j Hj].
  rewrite list_lookup_imap in Hj. destruct (ss !! j) eqn:E; [|done]. cbn in Hj. simplify_eq.
  by eapply list_elem_of_lookup_2.
Qed.

Lemma find_next_open_settled ss d k t a :
  specs_wf ss → (∀ s, s ∈ ss → settled_at (spec_open s) d k) →
  find_next_open {| specs := ss; pending := d ++ k ++ t; active := a |} =
    (λ '(pos, idx), (length d + pos, idx)) <$>
    find_next_open {| specs := ss; pending := k ++ t; active := a |}.
Proof.
  intros Hwf Hs. unfold find_next_open. cbn [specs pending]. rewrite candidates_settled by done. rewrite min_by_map.
  - by destruct (min_by _ _) as [[[? ?] ?]|].
  - intros [[p1 l1] i1] [[p2 l2] i2]. unfold open_cmp.
    replace (Nat.compare (length d + p1) (length d + p2)) with (Nat.compare p1 p2); [done|].
    destruct (Nat.compare_spec p1 p2), (Nat.compare_spec (length d + p1) (length d + p2)); done || lia.
Qed.

Lemma find_next_open_Some ss text a pos idx :
  find_next_open {| specs := ss; pending := text; active := a |} = Some (pos, idx) →
  ∃ s, ss !! idx = Some s ∧ find (spec_open s) text = Some pos ∧
    ∀ idx' s' pos', ss !! idx' = Some s' → find (spec_open s') text = Some pos' →
      cmp_le open_cmp (pos, str_len (spec_open s), idx) (pos', str_len (spec_open s'), idx').
Proof.
  unfold find_next_open. cbn [specs pending]. rewrite fmap_Some. intros ([[p l] i] & Hm & [= <- <-]).
  apply open_min in Hm as [Hin Hle]. apply elem_of_candidates in Hin as (s & Hs & Hf & ->).
  exists s. split_and!; [done|done|]. intros. apply Hle. apply elem_of_candidates. eauto.
Qed.

Lemma find_next_open_None ss text a :
  find_next_open {| specs := ss; pending := text; active := a |} = None ↔
  ∀ s, s ∈ ss → find (spec_open s) text = None.
Proof.
  unfold find_next_open. cbn [specs pending]. rewrite fmap_None, min_by_None. split.
  - intros H s Hs. destruct (find (spec_open s) text) as [pos|] eqn:E; [|done].
    apply list_elem_of_lookup in Hs as [i Hi].
    assert ((pos, str_len (spec_open s), i) ∈ open_candidates ss text)
      by (apply elem_of_candidates; eauto). rewrite H in *. by apply elem_of_nil in H0.
  - intros H. destruct (open_candidates ss text) as [|[[pos len] idx] l] eqn:E; [done|].
    assert ((pos, len, idx) ∈ open_candidates ss text) as Hin by (rewrite E; set_solver).
    apply elem_of_candidates in Hin as (s & Hs & Hf & _).
    rewrite H in Hf; [done|]. by eapply list_elem_of_lookup_2.
Qed.
End next_open.

(** ** The loop *)

Section loop.
Context {T : Type}.
Implicit Types p : InlineHiddenTagParser T.
Implicit Types out : StreamTextChunk (ExtractedInlineTag T).

Definition extend p (t : rstring) : InlineHiddenTagParser T :=
  {| specs := specs p; pending := pending p ++ t; active := active p |}.

Definition loop_wf p : Prop :=
  specs_wf (specs p) ∧ openers_independent (specs p) ∧
  ∀ a, active p = Some a → active_close a ≠ [].

(** Nothing more can be decided about the buffered text. *)
Definition settled p : Prop :=
  match active p with
  | Some a => find (active_close a) (pending p) = None ∧
              longest_suffix_prefix_len (pending p) (active_close a) = length (pending p)
  | None => find_next_open p = None ∧ max_open_prefix_suffix_len p = length (pending p)
  end.

Lemma push_visible_prefix_app out text :
  push_visible_prefix out text = mk_chunk (visible_text out ++ text) (extracted out).
Proof.
  unfold push_visible_prefix. case_bool_decide; [|done]. subst. rewrite app_nil_r. by destruct out.
Qed.

Lemma loop_active_none f p a out :
  active p = Some a → find (active_close a) (pending p) = None →
  let n := length (pending p) - longest_suffix_prefix_len (pending p) (active_close a) in
  push_loop (S f) p out =
    Some ({| specs := specs p; pending := drop n (pending p);
             active := Some {| active_tag := active_tag a; active_close := active_close a;
                               active_content := active_content a ++ take n (pending p) |} |}, out).
Proof.
  intros Ha Hf n. cbn [push_loop]. rewrite Ha, Hf. fold n.
  case_bool_decide as Hn; [done|]. do 2 f_equal. replace n with 0 by lia.
  rewrite take_0, app_nil_r, drop_0. destruct p as [ss q [[]|]]; cbn in *; by simplify_eq.
Qed.

Lemma loop_visible_none f p out :
  active p = None → find_next_open p = None →
  let n := length (pending p) - max_open_prefix_suffix_len p in
  push_loop (S f) p out =
    Some ({| specs := specs p; pending := drop n (pending p); active := None |},
          mk_chunk (visible_text out ++ take n (pending p)) (extracted out)).
Proof.
  intros Ha Hf n. cbn [push_loop]. rewrite Ha, Hf. unfold drain_visible_to_suffix_match. fold n.
  case_bool_decide as Hn.
  - do 2 f_equal; rewrite Hn, ?take_0, ?app_nil_r, ?drop_0.
    + destruct p; cbn in *; by subst.
    + by destruct out.
  - by rewrite push_visible_prefix_app, Ha.
Qed.

Lemma max_open_spec p s :
  s ∈ specs p → longest_suffix_prefix_len (pending p) (spec_open s) ≤ max_open_prefix_suffix_len p.
Proof.
  unfold max_open_prefix_suffix_len. induction (specs p) as [|s' l IH]; intros Hs.
  - by apply elem_of_nil in Hs.
  - cbn. apply elem_of_cons in Hs as [->|Hs]; [lia|]. specialize (IH Hs). lia.
Qed.

Lemma max_open_attained p :
  max_open_prefix_suffix_len p = 0 ∨
  ∃ s, s ∈ specs p ∧ max_open_prefix_suffix_len p = longest_suffix_prefix_len (pending p) (spec_open s).
Proof.
  unfold max_open_prefix_suffix_len. induction (specs p) as [|s l IH]; cbn; [by left|].
  destruct (Nat.max_dec (longest_suffix_prefix_len (pending p) (spec_open s))
    (foldr max 0 ((λ s, longest_suffix_prefix_len (pending p) (spec_open s)) <$> l))) as [E|E]; rewrite E.
  - right. exists s. set_solver.
  - destruct IH as [IH|(s' & Hs & IH)]; [by left|]. right. exists s'. set_solver.
Qed.

(** The longest suffix match does not change when its own prefix is drained. *)
Lemma longest_drop needle s n :
  needle ≠ [] → n ≤ length s → longest_suffix_prefix_len s needle ≤ length s - n →
  longest_suffix_prefix_len (drop n s) needle = longest_suffix_prefix_len s needle.
Proof.
  intros Hne Hns Hn. apply Nat.le_antisymm.
  - apply longest_max; [by apply longest_lt|].
    etrans; [apply longest_suffix|]. exists (take n s). by rewrite take_drop.
  - apply longest_max; [by apply longest_lt|]. pose proof (longest_lt needle Hne s).
    destruct (longest_suffix needle s) as [r Hr]. set (m := longest_suffix_prefix_len s needle) in *.
    pose proof (f_equal length Hr) as Hl. exists (drop n r). rewrite Hr at 1.
    apply drop_app_le. rewrite length_app, length_take in Hl. lia.
Qed.

Lemma max_open_le_length p :
  specs_wf (specs p) → max_open_prefix_suffix_len p ≤ length (pending p).
Proof.
  intros [_ Hwf]. destruct (max_open_attained p) as [->|(s & Hs & ->)]; [lia|].
  rewrite Forall_forall in Hwf. apply longest_lt, Hwf, Hs.
Qed.

Lemma settled_after_visible p n :
  specs_wf (specs p) → active p = None → find_next_open p = None →
  n = length (pending p) - max_open_prefix_suffix_len p →
  settled {| specs := specs p; pending := drop n (pending p); active := None |}.
Proof.
  intros Hwf Ha Hf Hn. pose proof (max_open_le_length p Hwf) as Hle.
  destruct Hwf as [_ Hwf]. rewrite Forall_forall in Hwf. split; cbn.
  - destruct p as [ss q a]. cbn in *. rewrite find_next_open_None in *.
    intros s Hs. apply find_drop_None; [by apply Hwf|auto].
  - rewrite length_drop. replace (length (pending p) - n) with (max_open_prefix_suffix_len p) by lia.
    unfold max_open_prefix_suffix_len at 1. cbn [specs pending].
    unfold max_open_prefix_suffix_len. f_equal. apply list_fmap_ext. intros i s Hs.
    apply list_elem_of_lookup_2 in Hs. pose proof (max_open_spec p s Hs).
    apply longest_drop; [by apply Hwf|lia|lia].
Qed.

Lemma settled_after_active p a n c :
  active_close a ≠ [] → active p = Some a → find (active_close a) (pending p) = None →
  n = length (pending p) - longest_suffix_prefix_len (pending p) (active_close a) →
  settled {| specs := specs p; pending := drop n (pending p);
             active := Some {| active_tag := active_tag a; active_close := active_close a;
                               active_content := c |} |}.
Proof.
  intros Hne Ha Hf Hn. pose proof (longest_lt _ Hne (pending p)). split; cbn.
  - by apply find_drop_None.
  - rewrite longest_drop by (done || lia). rewrite length_drop. lia.
Qed.
End loop.

Lemma find_app_l `{EqDecision A} (n s t : list A) i :
  find n s = Some i → find n (s ++ t) = Some i.
Proof.
  intros H. pose proof (find_bound _ _ _ H). apply find_Some in H as (Ho & Hl & Hn).
  apply find_Some. split_and!; [by apply occurs_at_app|len|].
  intros j Hj Ho'. apply (Hn j Hj). apply occurs_at_app_inv in Ho'; [done|lia].
Qed.

Section loop_laws.
Context {T : Type}.
Implicit Types p : InlineHiddenTagParser T.

Lemma loop_fuel f g p out r :
  f ≤ g → push_loop f p out = Some r → push_loop g p out = Some r.
Proof.
  revert g p out. induction f as [|f IH]; intros [|g] p out Hg H; try done; [lia|].
  cbn [push_loop] in *. repeat case_match; simplify_eq; try done; apply IH; done || lia.
Qed.

(** The loop body keeps the parser well-formed and shortens the buffer. *)
Lemma loop_wf_open p pos idx s :
  loop_wf p → find_next_open p = Some (pos, idx) → specs p !! idx = Some s →
  let p' := {| specs := specs p; pending := drop (pos + length (spec_open s)) (pending p);
               active := Some {| active_tag := spec_tag s; active_close := spec_close s;
                                 active_content := [] |} |} in
  loop_wf p' ∧ length (pending p') < length (pending p).
Proof.
  intros (Hwf & Hi & _) Hf Hs. pose proof Hwf as [_ Hwf']. rewrite Forall_forall in Hwf'.
  destruct (Hwf' s) as [Ho Hc]; [by eapply list_elem_of_lookup_2|]. split.
  - split_and!; [done|done|]. by intros a [= <-].
  - destruct p as [ss q a]. apply find_next_open_Some in Hf as (s' & Hs' & Hf & _).
    cbn in *. assert (s' = s) as -> by congruence. apply find_bound in Hf.
    destruct (spec_open s); [done|]. len.
Qed.

Lemma loop_wf_close p a i :
  loop_wf p → active p = Some a → find (active_close a) (pending p) = Some i →
  let p' := {| specs := specs p; pending := drop (i + length (active_close a)) (pending p);
               active := None |} in
  loop_wf p' ∧ length (pending p') < length (pending p).
Proof.
  intros (Hwf & Hi & Hc) Ha Hf. split; [by split_and!|].
  apply find_bound in Hf. specialize (Hc a Ha). cbn. destruct (active_close a); [done|]. len.
Qed.

Lemma find_next_open_spec p pos idx :
  find_next_open p = Some (pos, idx) → ∃ s, specs p !! idx = Some s.
Proof. destruct p. intros H. apply find_next_open_Some in H as (s & Hs & _). by exists s. Qed.

(** Enough fuel: the loop returns, in a settled state. *)
Lemma loop_total f p out :
  loop_wf p → length (pending p) < f →
  ∃ p' o, push_loop f p out = Some (p', o) ∧ loop_wf p' ∧ settled p'.
Proof.
  revert p out. induction f as [|f IH]; intros p out Hp Hf; [lia|].
  destruct (active p) as [a|] eqn:Ha.
  - destruct (find (active_close a) (pending p)) as [i|] eqn:E.
    + cbn [push_loop]. rewrite Ha, E. destruct (loop_wf_close p a i Hp Ha E). apply IH; [done|]. lia.
    + rewrite (loop_active_none f p a) by done. do 2 eexists. split; [done|].
      destruct Hp as (Hwf & Hi & Hc). split; [|by eapply settled_after_active; eauto].
      split_and!; [done|done|]. intros a' [= <-]. exact (Hc a Ha).
  - destruct (find_next_open p) as [[pos idx]|] eqn:E.
    + cbn [push_loop]. rewrite Ha, E. destruct (find_next_open_spec _ _ _ E) as [s Hs].
      rewrite Hs. destruct (loop_wf_open p pos idx s Hp E Hs). apply IH; [done|]. lia.
    + rewrite loop_visible_none by done. do 2 eexists. split; [done|].
      destruct Hp as (Hwf & Hi & Hc). split; [by split_and!|]. by eapply settled_after_visible.
Qed.

(** An opener that has been completed is chosen whatever follows. *)
Lemma find_next_open_extend p t pos idx :
  loop_wf p → find_next_open p = Some (pos, idx) →
  find_next_open (extend p t) = Some (pos, idx).
Proof.
  intros (Hwf & Hi & _) H. destruct p as [ss q a]. unfold extend. cbn in *.
  apply find_next_open_Some in H as (s & Hs & Hf & Hmin).
  destruct (find_next_open _) as [[pos' idx']|] eqn:E; swap 1 2.
  { rewrite find_next_open_None in E. apply list_elem_of_lookup_2 in Hs as Hin.
    specialize (E s Hin). by rewrite (find_app_l _ _ t _ Hf) in E. }
  apply find_next_open_Some in E as (s' & Hs' & Hf' & Hmin').
  specialize (Hmin' idx s pos Hs (find_app_l _ _ t _ Hf)).
  rewrite open_cmp_le in Hmin'. cbn in Hmin'.
  destruct (find (spec_open s') q) as [pos0|] eqn:E0.
  - pose proof (find_app_l _ _ t _ E0). simplify_eq.
    specialize (Hmin idx' s' pos' Hs' E0). rewrite open_cmp_le in Hmin. cbn in Hmin.
    do 2 f_equal; lia.
  - exfalso. pose proof (find_bound _ _ _ Hf) as Hb.
    apply find_Some in Hf as (Ho & _ & _), Hf' as (Ho' & Hl' & _).
    assert (length q < pos' + length (spec_open s')) as Hlong.
    { apply Nat.nle_gt. intros Hle. rewrite find_None in E0. apply (E0 pos'); [lia|].
      by eapply occurs_at_app_inv. }
    assert (occurs_at (spec_open s) (spec_open s') (pos - pos')) as Hocc.
    { apply occurs_at_app with (t := t) in Ho. destruct Ho' as [r Hr].
      unfold occurs_at in Ho. replace pos with (pos' + (pos - pos')) in Ho by lia.
      rewrite <- drop_drop, Hr in Ho. apply (occurs_at_app_inv _ _ r); [done|lia]. }
    apply list_elem_of_lookup_2 in Hs, Hs'. specialize (Hi s s' _ Hs Hs' Hocc). lia.
Qed.

Lemma loop_det f g p out r1 r2 :
  push_loop f p out = Some r1 → push_loop g p out = Some r2 → r1 = r2.
Proof.
  intros H1 H2. apply (loop_fuel _ (f `max` g)) in H1, H2; [congruence|lia..].
Qed.

Lemma find_next_open_drained p d t q :
  specs_wf (specs p) → active p = None → find_next_open p = None → pending p = d ++ q →
  length q = max_open_prefix_suffix_len p →
  find_next_open (extend p t) =
    (λ '(pos, idx), (length d + pos, idx)) <$>
    find_next_open {| specs := specs p; pending := q ++ t; active := None |} ∧
  (∀ s, s ∈ specs p → settled_at (spec_open s) d q).
Proof.
  intros Hwf Ha Hf Hd Hq. assert (∀ s, s ∈ specs p → settled_at (spec_open s) d q) as Hs.
  { intros s Hs. split; rewrite <- Hd.
    - destruct p. rewrite find_next_open_None in Hf. by apply Hf.
    - intros j Hj Hsuf. rewrite Hq. etrans; [by eapply longest_max|]. by apply max_open_spec. }
  split; [|done]. destruct p as [ss pend a]. cbn in *. subst.
  unfold extend. cbn [specs pending active]. rewrite <- app_assoc. by apply find_next_open_settled.
Qed.

(** The two ways the loop stops, when the drained part is named. *)
Lemma active_drained f p a d q t out :
  active_close a ≠ [] → active p = Some a → pending p = d ++ q →
  settled_at (active_close a) d q →
  push_loop f (extend p t) out =
  push_loop f {| specs := specs p; pending := q ++ t;
                 active := Some {| active_tag := active_tag a; active_close := active_close a;
                                   active_content := active_content a ++ d |} |} out.
Proof.
  intros Hne Ha Hd Hs. destruct f as [|f]; [done|].
  destruct p as [ss pend ap]. cbn in Ha, Hd. subst. unfold extend. cbn [specs pending active].
  rewrite <- app_assoc. pose proof (settled_find _ Hne d q t Hs) as Hfind.
  destruct (find (active_close a) (q ++ t)) as [i|] eqn:E; cbn in Hfind.
  - cbn [push_loop active pending specs active_close]. rewrite E, Hfind. cbn [active_content active_tag].
    by rewrite <- Nat.add_assoc, drop_app_add, take_app_add, app_assoc.
  - rewrite (loop_active_none _ _ a) by done.
    rewrite (loop_active_none _ _ {| active_tag := active_tag a; active_close := active_close a;
      active_content := active_content a ++ d |}) by done.
    cbn [active_close active_content active_tag pending specs].
    rewrite settled_longest by done. pose proof (longest_lt _ Hne (q ++ t)).
    replace (length (d ++ q ++ t) - longest_suffix_prefix_len (q ++ t) (active_close a))
      with (length d + (length (q ++ t) - longest_suffix_prefix_len (q ++ t) (active_close a))) by len.
    by rewrite drop_app_add, take_app_add, app_assoc.
Qed.

Lemma max_open_settled ss d q t a :
  specs_wf ss → (∀ s, s ∈ ss → settled_at (spec_open s) d q) →
  max_open_prefix_suffix_len (T:=T) {| specs := ss; pending := d ++ q ++ t; active := a |} =
  max_open_prefix_suffix_len {| specs := ss; pending := q ++ t; active := a |}.
Proof.
  intros [_ Hwf] Hs. rewrite Forall_forall in Hwf. unfold max_open_prefix_suffix_len.
  cbn [specs pending]. f_equal. apply list_fmap_ext. intros i s Hin%list_elem_of_lookup_2.
  apply settled_longest; [by apply Hwf|auto].
Qed.

Lemma visible_drained f p d q t out :
  specs_wf (specs p) → active p = None → pending p = d ++ q →
  (∀ s, s ∈ specs p → settled_at (spec_open s) d q) →
  push_loop f (extend p t) out =
  push_loop f {| specs := specs p; pending := q ++ t; active := None |}
    (mk_chunk (visible_text out ++ d) (extracted out)).
Proof.
  intros Hwf Ha Hd Hs. destruct f as [|f]; [done|].
  destruct p as [ss pend ap]. cbn in Hwf, Ha, Hd, Hs. subst. unfold extend. cbn [specs pending active].
  rewrite <- app_assoc. pose proof (find_next_open_settled ss d q t None Hwf Hs) as Hf.
  destruct (find_next_open {| specs := ss; pending := q ++ t; active := None |})
    as [[pos idx]|] eqn:E; cbn in Hf.
  - cbn [push_loop active pending specs]. rewrite E, Hf. destruct (ss !! idx); [|done].
    rewrite !push_visible_prefix_app. cbn [visible_text extracted].
    by rewrite <- Nat.add_assoc, drop_app_add, take_app_add, app_assoc.
  - rewrite !loop_visible_none by done. cbn [pending specs visible_text extracted].
    rewrite max_open_settled by done.
    pose proof (max_open_le_length {| specs := ss; pending := q ++ t; active := None |} Hwf) as Hle.
    cbn in Hle. set (m := max_open_prefix_suffix_len _) in *.
    replace (length (d ++ q ++ t) - m) with (length d + (length (q ++ t) - m)) by len.
    by rewrite drop_app_add, take_app_add, app_assoc.
Qed.

Lemma visible_settled_at p n :
  active p = None → find_next_open p = None → max_open_prefix_suffix_len p ≤ n →
  ∀ s, s ∈ specs p →
    settled_at (spec_open s) (take (length (pending p) - n) (pending p))
                             (drop (length (pending p) - n) (pending p)).
Proof.
  intros Ha Hf Hn s Hs. apply drain_settles.
  - destruct p. rewrite find_next_open_None in Hf. by apply Hf.
  - etrans; [by apply max_open_spec|done].
Qed.

(** Letting the loop run before more text arrives changes nothing. *)
Lemma loop_extend f g p t out p1 o1 r :
  loop_wf p → push_loop f p out = Some (p1, o1) → push_loop g (extend p1 t) o1 = Some r →
  ∃ h, push_loop h (extend p t) out = Some r.
Proof.
  revert p out. induction f as [|f IH]; intros p out Hp H1 H2; [done|].
  pose proof Hp as (Hwf & _ & Hc). destruct (active p) as [a|] eqn:Ha.
  - specialize (Hc a eq_refl). destruct (find (active_close a) (pending p)) as [i|] eqn:E.
    + cbn [push_loop] in H1. rewrite Ha, E in H1.
      destruct (loop_wf_close p a i Hp Ha E) as [Hp' _].
      destruct (IH _ _ Hp' H1 H2) as [h Hh]. exists (S h). cbn [push_loop extend active specs pending].
      rewrite Ha, (find_app_l _ _ t _ E). unfold extend in Hh. cbn in Hh.
      pose proof (find_bound _ _ _ E). rewrite drop_app_le, take_app_le by lia. done.
    + rewrite (loop_active_none _ p a) in H1 by done. injection H1 as <- <-.
      exists g. rewrite <- H2.
      refine (active_drained g p a _ _ t _ Hc Ha (eq_sym (take_drop _ _)) _).
      by apply drain_settles.
  - destruct (find_next_open p) as [[pos idx]|] eqn:E.
    + cbn [push_loop] in H1. rewrite Ha, E in H1.
      destruct (find_next_open_spec _ _ _ E) as [s Hs]. rewrite Hs in H1.
      destruct (loop_wf_open p pos idx s Hp E Hs) as [Hp' _].
      destruct (IH _ _ Hp' H1 H2) as [h Hh]. exists (S h).
      cbn [push_loop]. rewrite (find_next_open_extend p t _ _ Hp E). cbn [extend active specs pending].
      rewrite Ha, Hs. unfold extend in Hh. cbn in Hh.
      destruct p as [ss pend ap]. apply find_next_open_Some in E as (s' & Hs' & Hf & _).
      cbn in *. assert (s' = s) as -> by congruence. apply find_bound in Hf.
      rewrite drop_app_le, take_app_le by lia. done.
    + rewrite loop_visible_none in H1 by done. injection H1 as <- <-.
      exists g. rewrite <- H2.
      refine (visible_drained g p _ _ t _ Hwf Ha (eq_sym (take_drop _ _)) _).
      by apply visible_settled_at.
Qed.

(** Outputs accumulate. *)
Lemma loop_out f p out :
  push_loop f p out = (λ '(p', o), (p', out +++ o)) <$> push_loop f p chunk_default.
Proof.
  revert p out. induction f as [|f IH]; intros p out; [done|]. cbn [push_loop].
  destruct (active p) as [a|].
  - destruct (find _ _).
    + rewrite IH. symmetry. rewrite IH. destruct (push_loop f _ _) as [[p' o]|]; [|done].
      cbn. unfold chunk_app. cbn. do 2 f_equal. by rewrite ?app_nil_r, <- ?app_assoc.
    + cbn. by rewrite chunk_app_default_r.
  - destruct (find_next_open p) as [[pos idx]|].
    + destruct (specs p !! idx); [|done]. rewrite IH. symmetry. rewrite IH.
      destruct (push_loop f _ _) as [[p' o]|]; [|done].
      cbn. rewrite !push_visible_prefix_app. unfold chunk_app. cbn. by rewrite ?app_nil_r, <- ?app_assoc.
    + unfold drain_visible_to_suffix_match. case_bool_decide; cbn.
      * by rewrite chunk_app_default_r.
      * rewrite !push_visible_prefix_app. unfold chunk_app. cbn. by rewrite app_nil_r.
Qed.
End loop_laws.

(** ** The stream laws *)

Section laws.
Context {T : Type}.
Implicit Types p : InlineHiddenTagParser T.

Definition tag_parser_wf p : Prop := loop_wf p ∧ settled p.

Lemma loop_wf_extend p s : loop_wf p → loop_wf (extend p s).
Proof. done. Qed.

Lemma tag_push_ok p s :
  tag_parser_wf p → ∃ p' o, tag_push_str p s = Some (p', o) ∧ tag_parser_wf p'.
Proof.
  intros [Hp _]. destruct (loop_total (S (length (pending (extend p s)))) (extend p s) chunk_default)
    as (p' & o & E & ? & ?); [done|lia|]. by exists p', o.
Qed.

Lemma tag_push_nil p : tag_parser_wf p → tag_push_str p [] = Some (p, chunk_default).
Proof.
  intros [(Hwf & _ & _) Hs]. unfold tag_push_str. rewrite app_nil_r.
  destruct p as [ss q a]. cbn [specs pending active]. unfold settled in Hs. cbn in Hs.
  destruct a as [[tg cl ct]|]; destruct Hs as [Hf Hl]; cbn in Hf, Hl.
  - rewrite (loop_active_none _ _ {| active_tag := tg; active_close := cl; active_content := ct |})
      by done. cbn [specs pending active_close active_content active_tag].
    by rewrite Hl, Nat.sub_diag, take_0, app_nil_r, drop_0.
  - rewrite loop_visible_none by done. cbn [specs pending visible_text extracted].
    by rewrite Hl, Nat.sub_diag, take_0, app_nil_r, drop_0.
Qed.

Lemma tag_push_app p s1 s2 p1 o1 p2 o2 :
  tag_parser_wf p → tag_push_str p s1 = Some (p1, o1) → tag_push_str p1 s2 = Some (p2, o2) →
  tag_push_str p (s1 ++ s2) = Some (p2, o1 +++ o2).
Proof.
  intros [Hp Hs] E1 E2. unfold tag_push_str in E1, E2.
  assert (push_loop (S (length (pending p1 ++ s2))) (extend p1 s2) o1 = Some (p2, o1 +++ o2)) as E2'.
  { rewrite loop_out. unfold extend. cbn [pending] in E2. by rewrite E2. }
  destruct (loop_extend _ _ (extend p s1) s2 _ _ _ _ (loop_wf_extend p s1 Hp) E1 E2') as [h Eh].
  destruct (tag_push_ok p (s1 ++ s2) (conj Hp Hs)) as (p' & o' & E & _).
  rewrite E. f_equal. refine (loop_det _ _ _ _ _ _ E _).
  rewrite <- Eh. unfold extend. cbn. by rewrite app_assoc.
Qed.

#[export] Program Instance InlineHiddenTag_laws :
  StreamLaws (InlineHiddenTagParser T) (ExtractedInlineTag T) :=
  {| parser_wf := tag_parser_wf; out_equiv := eq |}.
Next Obligation. apply tag_push_ok. Qed.
Next Obligation. apply tag_push_nil. Qed.
Next Obligation.
  intros p s1 s2 p1 o1 p2 o2 Hp E1 E2. exists (o1 +++ o2).
  by split; [eapply tag_push_app|].
Qed.

(** What [new] returns is well-formed. *)
Lemma new_wf ss p :
  new ss = Ok p → openers_independent ss → parser_wf p ∧ specs p = ss.
Proof.
  change (parser_wf p) with (tag_parser_wf p).
  unfold new. intros H Hi. case_bool_decide as Hne; [done|]. destruct (forallb _ ss) eqn:Hf; [|done].
  injection H as <-. split; [|done]. rewrite forallb_forall in Hf.
  assert (Forall (λ s, spec_open s ≠ [] ∧ spec_close s ≠ []) ss) as Hall.
  { apply Forall_forall. intros s Hs. apply list_elem_of_In in Hs. specialize (Hf s Hs).
    apply andb_prop in Hf as [H1 H2]. by rewrite negb_true_iff, bool_decide_eq_false in H1, H2. }
  assert (specs_wf ss) as Hwf by (split; [by intros E; subst|done]).
  split; [by split_and!|]. split; cbn.
  - apply find_next_open_None. intros s Hs. rewrite Forall_forall in Hall.
    destruct (Hall s Hs) as [Ho _]. apply find_None. intros i _ Hocc.
    apply occurs_at_length in Hocc; [|done]. destruct (spec_open s); [done|]. cbn in Hocc. lia.
  - apply Nat.le_antisymm; [|lia]. by apply (max_open_le_length {| specs := ss; pending := []; active := None |}).
Qed.

(** A single opener is always independent. *)
Lemma single_independent s : openers_independent (T:=T) [s].
Proof.
  intros s1 s2 i ->%list_elem_of_singleton ->%list_elem_of_singleton Ho.
  lia.
Qed.
End laws.

(** Decidable form of the independence condition. *)
Definition openers_independent_b {T} (ss : list (InlineTagSpec T)) : bool :=
  forallb (λ s1, forallb (λ s2, forallb (λ i,
    negb (bool_decide (occurs_at (spec_open s1) (spec_open s2) i))
    || (length (spec_open s2) <=? i + length (spec_open s1)))
    (seq 0 (length (spec_open s2)))) ss) ss.

Lemma openers_independent_b_ok {T} (ss : list (InlineTagSpec T)) :
  openers_independent_b ss = true → openers_independent ss.
Proof.
  unfold openers_independent_b. intros H s1 s2 i H1 H2 Ho.
  rewrite forallb_forall in H. specialize (H s1 (proj1 (list_elem_of_In _ _) H1)).
  rewrite forallb_forall in H. specialize (H s2 (proj1 (list_elem_of_In _ _) H2)).
  destruct (decide (i < length (spec_open s2))) as [Hi|]; [|lia].
  rewrite forallb_forall in H. specialize (H i). rewrite in_seq in H.
  rewrite (bool_decide_eq_true_2 _ Ho) in H. apply Nat.leb_le. apply H. lia.
Qed.

(** ** Theorems *)

(** C37: Where a stream is cut into chunks does not matter to the hidden-tag
    parser: for specs accepted by [new] none of whose openers is completed
    inside another one, any two chunkings of the same text return, with the
    same visible text and the same extracted tags. *)
Theorem inline_chunk_invariance {T} (ss : list (InlineTagSpec T)) p (chunks1 chunks2 : list rstring) :
  new ss = Ok p → openers_independent ss → concat chunks1 = concat chunks2 →
  ∃ o, collect p chunks1 = Some o ∧ collect p chunks2 = Some o.
Proof.
  intros Hn Hi Hc. destruct (new_wf ss p Hn Hi) as [Hp _].
  destruct (collect_concat p chunks1 chunks2 Hp Hc) as (o1 & o2 & ? & ? & Heq). cbn in Heq. subst. eauto.
Qed.

Definition ab_specs : list (InlineTagSpec nat) :=
  [{| spec_tag := 0; spec_open := lit "<a>"; spec_close := lit "</a>" |};
   {| spec_tag := 1; spec_open := lit "<b>"; spec_close := lit "</b>" |}].

Lemma inline_chunk_invariance_witness :
  ∃ o, collect {| specs := ab_specs; pending := []; active := None |}
         [lit "1<"; lit "a>x</"; lit "a>2<b>y</b>3"] = Some o ∧
       collect {| specs := ab_specs; pending := []; active := None |}
         [lit "1<a>x</a>2<b>y</b>3"] = Some o.
Proof.
  apply (inline_chunk_invariance ab_specs);
    [reflexivity|apply openers_independent_b_ok; vm_compute; reflexivity|vm_compute; reflexivity].
Defined.

(** The independence condition is needed: with openers [<a] and [<ab], of
    which the parser prefers the longer at the same offset, the tag that is
    extracted from one text depends on where the stream was cut. *)
Theorem inline_overlapping_openers_depend_on_chunks :
  let ss := [{| spec_tag := 0; spec_open := lit "<a"; spec_close := lit ">" |};
             {| spec_tag := 1; spec_open := lit "<ab"; spec_close := lit ">" |}] in
  let p := {| specs := ss; pending := []; active := None |} in
  new ss = Ok p ∧
  collect p [lit "x<aby>z"] = Some (mk_chunk (lit "xz") [{| tag := 1; content := lit "y" |}]) ∧
  collect p [lit "x<a"; lit "by>z"] = Some (mk_chunk (lit "xz") [{| tag := 0; content := lit "by" |}]).
Proof. vm_compute. split_and!; reflexivity. Qed.

(** Bounded buffering: after any chunk the text a parser made by [new]
    still holds back is a proper prefix of a delimiter it is waiting for. *)
Theorem inline_buffer_is_delimiter_prefix {T} (ss : list (InlineTagSpec T)) p chunks p' o :
  new ss = Ok p → openers_independent ss → push_all p chunks = Some (p', o) →
  match active p' with
  | Some a => pending p' `prefix_of` active_close a ∧ length (pending p') < length (active_close a)
  | None => pending p' = [] ∨
            ∃ s, s ∈ specs p' ∧ pending p' `prefix_of` spec_open s ∧
                 length (pending p') < length (spec_open s)
  end.
Proof.
  intros Hn Hi Hall. destruct (new_wf ss p Hn Hi) as [Hp _].
  destruct (push_all_concat p chunks Hp) as (p2 & o2 & _ & E & _ & _ & [(Hwf & _ & Hc) Hs]).
  rewrite Hall in E. injection E as <- <-.
  assert (∀ needle, needle ≠ [] → longest_suffix_prefix_len (pending p') needle = length (pending p') →
    pending p' `prefix_of` needle ∧ length (pending p') < length needle) as Hpre.
  { intros needle Hne Hl. pose proof (longest_lt needle Hne (pending p')) as [Hlt _].
    destruct (longest_suffix needle (pending p')) as [r Hr]. rewrite Hl in *. split; [|done].
    pose proof (f_equal length Hr) as Hlen. destruct r; [|exfalso; len].
    exists (drop (length (pending p')) needle). cbn in Hr. rewrite Hr at 1. by rewrite take_drop. }
  unfold settled in Hs. destruct (active p') as [a|].
  - apply Hpre; [by apply Hc|apply Hs].
  - destruct Hs as [_ Hs]. destruct (max_open_attained p') as [E|(s & Hin & E)]; rewrite E in Hs.
    + left. by destruct (pending p').
    + right. exists s. split; [done|]. destruct Hwf as [_ Hwf]. rewrite Forall_forall in Hwf.
      apply Hpre; [by apply Hwf|done].
Qed.

Lemma inline_buffer_is_delimiter_prefix_witness :
  let p := {| specs := ab_specs; pending := []; active := None |} in
  match push_all p [lit "abc <"] with
  | Some (p', _) => pending p' = lit "<" ∧
      (pending p' = [] ∨ ∃ s, s ∈ specs p' ∧ pending p' `prefix_of` spec_open s ∧
                              length (pending p') < length (spec_open s))
  | None => False
  end.
Proof.
  intros p.
  pose proof (inline_buffer_is_delimiter_prefix ab_specs p [lit "abc <"] _ _ eq_refl
    (openers_independent_b_ok ab_specs eq_refl) eq_refl) as H.
  split; [vm_compute; reflexivity|exact H].
Defined.
