(* ===== verification/Citation.v ===== *)
(** * Citations ([utils/stream-parser/src/citation.rs])

    The parser for [<oai-mem-citation>] tags, a thin wrapper around
    [InlineHiddenTagParser] with one tag, and [strip_citations] on complete
    strings. *)
From S2P Require Import Prelude RustStr Utf8 StreamText InlineHiddenTag.

Inductive CitationTag := Citation.
#[global] Instance CitationTag_eq_dec : EqDecision CitationTag.
Proof. solve_decision. Defined.

Definition CITATION_OPEN : rstring := lit "<oai-mem-citation>".
Definition CITATION_CLOSE : rstring := lit "</oai-mem-citation>".

Record CitationStreamParser := { inner : InlineHiddenTagParser CitationTag }.

Definition citation_specs : list (InlineTagSpec CitationTag) :=
  [{| spec_tag := Citation; spec_open := CITATION_OPEN; spec_close := CITATION_CLOSE |}].

(** [CitationStreamParser::new]; the assertions of the inner constructor hold,
    see [citation_new_ok]. *)
Definition citation_new : outcome Empty_set CitationStreamParser :=
  let? p := new citation_specs in Ok {| inner := p |}.

Definition citation_chunk (c : StreamTextChunk (ExtractedInlineTag CitationTag)) : StreamTextChunk rstring :=
  mk_chunk (visible_text c) (content <$> extracted c).

Definition citation_push_str (p : CitationStreamParser) (chunk : rstring)
    : option (CitationStreamParser * StreamTextChunk rstring) :=
  '(inner', out) ← push_str (inner p) chunk;
  Some ({| inner := inner' |}, citation_chunk out).

Definition citation_finish (p : CitationStreamParser) : CitationStreamParser * StreamTextChunk rstring :=
  let '(inner', out) := finish (inner p) in ({| inner := inner' |}, citation_chunk out).

#[global] Instance Citation_stream : StreamTextParser CitationStreamParser rstring :=
  {| push_str := citation_push_str; finish := citation_finish |}.

(** [strip_citations] on a complete string. *)
Definition strip_citations (text : rstring) : option (rstring * list rstring) :=
  match citation_new with
  | Ok p =>
      '(p1, out) ← citation_push_str p text;
      let '(_, tail) := citation_finish p1 in
      Some (visible_text out ++ visible_text tail, extracted out ++ extracted tail)
  | _ => None
  end.

Definition citation_parser0 : CitationStreamParser :=
  {| inner := {| specs := citation_specs; pending := []; active := None |} |}.

Lemma citation_new_ok : citation_new = Ok citation_parser0.
Proof. reflexivity. Qed.

(** ** The stream laws *)

Lemma citation_chunk_app a b : citation_chunk (a +++ b) = citation_chunk a +++ citation_chunk b.
Proof. unfold citation_chunk, chunk_app. cbn. by rewrite fmap_app. Qed.

#[global] Program Instance Citation_laws : StreamLaws CitationStreamParser rstring :=
  {| parser_wf p := parser_wf (inner p); out_equiv := eq |}.
Next Obligation.
  intros p s Hp. destruct (push_ok (inner p) s Hp) as (p' & o & E & H').
  exists {| inner := p' |}, (citation_chunk o). split; [|done].
  cbn in *. unfold citation_push_str. cbn. by rewrite E.
Qed.
Next Obligation.
  intros p Hp. pose proof (push_nil (inner p) Hp) as E. cbn in *. unfold citation_push_str. cbn.
  rewrite E. by destruct p.
Qed.
Next Obligation.
  intros p s1 s2 p1 o1 p2 o2 Hp E1 E2. cbn in *. unfold citation_push_str in *.
  apply bind_Some in E1 as ([i1 c1] & F1 & G1), E2 as ([i2 c2] & F2 & G2). simplify_eq/=.
  rewrite (tag_push_app _ s1 s2 _ _ _ _ Hp F1 F2). cbn.
  eexists. split; [done|apply citation_chunk_app].
Qed.

Lemma citation_parser0_wf : parser_wf citation_parser0.
Proof. apply (new_wf citation_specs); [reflexivity|apply single_independent]. Qed.

(** ** Reading back a rendered text *)

Section single_spec.
Context (s : InlineTagSpec CitationTag) (Ho : spec_open s ≠ []) (Hc : spec_close s ≠ []).

(** [v] is followed by the opener and [body] by the closer, with no earlier
    occurrence. *)
Definition visible_piece (v : rstring) : Prop :=
  find (spec_open s) (v ++ spec_open s) = Some (length v).
Definition body_piece (b : rstring) : Prop :=
  find (spec_close s) (b ++ spec_close s) = Some (length b).

Lemma find_piece (n v r : rstring) : find n (v ++ n) = Some (length v) → find n (v ++ n ++ r) = Some (length v).
Proof using Type. intros H. rewrite app_assoc. by apply find_app_l. Qed.

Lemma find_next_open_single text a :
  find_next_open {| specs := [s]; pending := text; active := a |} = (λ pos, (pos, 0)) <$> find (spec_open s) text.
Proof using Type. unfold find_next_open. cbn. by destruct (find _ _). Qed.

Lemma loop_open f v r out :
  visible_piece v →
  push_loop (S f) {| specs := [s]; pending := v ++ spec_open s ++ r; active := None |} out =
  push_loop f {| specs := [s]; pending := r;
                 active := Some {| active_tag := spec_tag s; active_close := spec_close s;
                                   active_content := [] |} |}
    (mk_chunk (visible_text out ++ v) (extracted out)).
Proof using Type.
  intros Hv. cbn [push_loop active]. rewrite find_next_open_single, find_piece by done.
  cbn [fmap option_fmap option_map specs lookup list_lookup pending].
  by rewrite drop_app_add, drop_app_length, take_app_length, push_visible_prefix_app.
Qed.

(** One cited piece takes two iterations of the loop. *)
Lemma loop_piece f v b r out :
  visible_piece v → body_piece b →
  push_loop (S (S f)) {| specs := [s]; pending := v ++ spec_open s ++ b ++ spec_close s ++ r; active := None |} out =
  push_loop f {| specs := [s]; pending := r; active := None |}
    (mk_chunk (visible_text out ++ v) (extracted out ++ [{| tag := spec_tag s; content := b |}])).
Proof using Type.
  intros Hv Hb. rewrite loop_open by done. cbn [push_loop active active_close pending].
  rewrite find_piece by done. cbn [active_content active_tag specs].
  by rewrite drop_app_add, drop_app_length, app_nil_l, take_app_length.
Qed.

Definition render (segs : list (rstring * rstring)) : rstring :=
  segs ≫= λ '(v, b), v ++ spec_open s ++ b ++ spec_close s.

Lemma loop_render f segs r out :
  Forall (λ '(v, b), visible_piece v ∧ body_piece b) segs →
  push_loop (2 * length segs + f) {| specs := [s]; pending := render segs ++ r; active := None |} out =
  push_loop f {| specs := [s]; pending := r; active := None |}
    (mk_chunk (visible_text out ++ concat segs.*1)
              (extracted out ++ ((λ b, {| tag := spec_tag s; content := b |}) <$> segs.*2))).
Proof using Type.
  intros H. revert out. induction H as [|[v b] segs [Hv Hb] _ IH]; intros out.
  - cbn. rewrite !app_nil_r. by destruct out.
  - replace (2 * length ((v, b) :: segs) + f) with (S (S (2 * length segs + f))) by (cbn; lia).
    unfold render. cbn [mbind list_bind]. rewrite <- !app_assoc.
    rewrite loop_piece by done. fold (render segs). unfold render in IH. rewrite IH.
    cbn. by rewrite <- !app_assoc.
Qed.
End single_spec.

(** A piece without the delimiter's first character is read back whole. *)
Lemma find_fresh_head (c : char) (n v : rstring) :
  c ∉ v → find (c :: n) (v ++ c :: n) = Some (length v).
Proof.
  intros Hc. apply find_Some. split_and!.
  - unfold occurs_at. by rewrite drop_app_length.
  - len.
  - intros j Hj [r Hr]. apply Hc. rewrite drop_app_le in Hr by lia.
    destruct (drop j v) as [|x l] eqn:E; [apply (f_equal length) in E; rewrite length_drop in E; cbn in E; lia|].
    injection Hr as -> _. apply list_elem_of_lookup. exists j.
    rewrite <- (Nat.add_0_r j), <- lookup_drop, E. done.
Qed.

Section single_ends.
Context (s : InlineTagSpec CitationTag) (Ho : spec_open s ≠ []) (Hc : spec_close s ≠ []).

(** The stream stops inside visible text: everything left is flushed. *)
Lemma end_visible r out :
  find (spec_open s) r = None →
  ∃ p o, push_loop 1 {| specs := [s]; pending := r; active := None |} out = Some (p, o) ∧
         o +++ (finish p).2 = mk_chunk (visible_text out ++ r) (extracted out).
Proof using Type.
  intros Hr. rewrite loop_visible_none; [|done|].
  2:{ rewrite find_next_open_single. by rewrite Hr. }
  do 2 eexists. split; [done|]. cbn [pending specs visible_text extracted].
  match goal with |- context [drop ?m r] => generalize m; intros n end. cbn.
  unfold tag_finish. cbn. case_bool_decide as Hn; cbn; unfold chunk_app; cbn;
    rewrite <- app_assoc, ?app_nil_r.
  - pose proof (take_drop n r) as Htd. rewrite Hn, app_nil_r in Htd. by rewrite Htd.
  - by rewrite take_drop.
Qed.

(** The stream stops inside a tag: the tag is closed with what was read. *)
Lemma end_open v b out :
  visible_piece s v → find (spec_close s) b = None →
  ∃ p o, push_loop 2 {| specs := [s]; pending := v ++ spec_open s ++ b; active := None |} out = Some (p, o) ∧
         o +++ (finish p).2 =
           mk_chunk (visible_text out ++ v) (extracted out ++ [{| tag := spec_tag s; content := b |}]).
Proof using Type.
  intros Hv Hb. do 2 eexists. split.
  - rewrite loop_open by done.
    by apply (loop_active_none 0 _ {| active_tag := spec_tag s; active_close := spec_close s; active_content := [] |}).
  - cbn [pending specs active_close active_content active_tag].
    match goal with |- context [drop ?m b] => generalize m; intros n end. cbn. unfold tag_finish. cbn.
    unfold chunk_app. cbn. rewrite app_nil_r. case_bool_decide as Hn.
    + pose proof (take_drop n b) as Htd. rewrite Hn, app_nil_r in Htd. by rewrite Htd.
    + by rewrite take_drop.
Qed.
End single_ends.

Abbreviation citation_spec := {| spec_tag := Citation; spec_open := CITATION_OPEN; spec_close := CITATION_CLOSE |}.

(** A run of [strip_citations] from the loop's result at any sufficient fuel. *)
Lemma strip_citations_loop text f p o :
  push_loop f {| specs := citation_specs; pending := text; active := None |} chunk_default = Some (p, o) →
  strip_citations text =
    Some (visible_text (o +++ (finish p).2), content <$> extracted (o +++ (finish p).2)).
Proof.
  intros Hf. unfold strip_citations. rewrite citation_new_ok.
  unfold citation_push_str, citation_parser0. cbn [inner].
  destruct (push_ok (inner citation_parser0) text citation_parser0_wf) as (p' & o' & E & _).
  pose proof E as E'. cbn in E'. unfold tag_push_str in E'. cbn [pending specs active app] in E'.
  pose proof (loop_det _ _ _ _ _ _ E' Hf) as [= -> ->]. cbn [inner citation_parser0] in E. rewrite E.
  cbn. unfold citation_finish. cbn. destruct (tag_finish p) as [p2 [v2 e2]]. cbn.
  by rewrite fmap_app.
Qed.

Lemma strip_citations_segs segs r f p o :
  Forall (λ '(v, b), visible_piece citation_spec v ∧ body_piece citation_spec b) segs →
  push_loop f {| specs := citation_specs; pending := r; active := None |}
    (mk_chunk (concat segs.*1) ((λ b, {| tag := Citation; content := b |}) <$> segs.*2)) = Some (p, o) →
  strip_citations (render citation_spec segs ++ r) =
    Some (visible_text (o +++ (finish p).2), content <$> extracted (o +++ (finish p).2)).
Proof.
  intros Hs Hf. apply (strip_citations_loop _ (2 * length segs + f)). rewrite <- Hf.
  exact (loop_render citation_spec f segs r chunk_default Hs).
Qed.

Lemma content_tags (bs : list rstring) :
  content <$> ((λ b, {| tag := Citation; content := b |}) <$> bs) = bs.
Proof. induction bs as [|b bs IH]; [done|]. cbn. by f_equal. Qed.

(** ** Theorems *)

(** Reading back: for a text rendered from visible pieces and citation
    bodies in which no delimiter occurs early, [strip_citations] returns
    exactly the visible pieces and exactly the bodies, in order. *)
Theorem strip_citations_rendered segs tail :
  Forall (λ '(v, b), visible_piece citation_spec v ∧ body_piece citation_spec b) segs →
  find CITATION_OPEN tail = None →
  strip_citations (render citation_spec segs ++ tail) = Some (concat segs.*1 ++ tail, segs.*2).
Proof.
  intros Hs Ht. destruct (end_visible citation_spec tail
    (mk_chunk (concat segs.*1) ((λ b, {| tag := Citation; content := b |}) <$> segs.*2)) Ht)
    as (p & o & E & Heq).
  rewrite (strip_citations_segs segs tail 1 p o Hs E), Heq. cbn. by rewrite content_tags.
Qed.

Lemma strip_citations_rendered_witness :
  strip_citations (lit "a<oai-mem-citation>one</oai-mem-citation>b") = Some (lit "ab", [lit "one"]).
Proof.
  apply (strip_citations_rendered [(lit "a", lit "one")] (lit "b"));
    [repeat constructor; vm_compute; reflexivity|vm_compute; reflexivity].
Defined.

(** A citation still open at the end of the text is closed there: its
    body is everything after the opener, and nothing of it is visible. *)
Theorem strip_citations_unterminated segs v body :
  Forall (λ '(v, b), visible_piece citation_spec v ∧ body_piece citation_spec b) segs →
  visible_piece citation_spec v → find CITATION_CLOSE body = None →
  strip_citations (render citation_spec segs ++ v ++ CITATION_OPEN ++ body) =
    Some (concat segs.*1 ++ v, segs.*2 ++ [body]).
Proof.
  intros Hs Hv Hb. destruct (end_open citation_spec v body
    (mk_chunk (concat segs.*1) ((λ b, {| tag := Citation; content := b |}) <$> segs.*2)) Hv Hb)
    as (p & o & E & Heq).
  etrans; [exact (strip_citations_segs segs _ 2 p o Hs E)|].
  rewrite Heq. cbn. by rewrite fmap_app, content_tags.
Qed.

Lemma strip_citations_unterminated_witness :
  strip_citations (lit "x<oai-mem-citation>source") = Some (lit "x", [lit "source"]).
Proof.
  apply (strip_citations_unterminated [] (lit "x") (lit "source"));
    [constructor|vm_compute; reflexivity..].
Defined.
