(* ===== verification/TaggedLine.v ===== *)
(** * Line-based tag blocks ([utils/stream-parser/src/tagged_line_parser.rs])

    The parser that buffers each line until it can disprove that the line is a
    tag.  [parse] and [finish] follow the code character by character; the
    reference they refine, [line_spec], looks at whole lines. *)
From S2P Require Import Prelude RustStr.

Section TaggedLine.
Context {T : Type} `{EqDecision T}.

Record TagSpec := { tag_open : rstring; tag_close : rstring; tag_of : T }.

Inductive TaggedLineSegment :=
| Normal (text : rstring)
| TagStart (tag : T)
| TagDelta (tag : T) (text : rstring)
| TagEnd (tag : T).

Record TaggedLineParser := {
  tl_specs : list TagSpec;
  active_tag : option T;
  detect_tag : bool;
  line_buffer : rstring
}.

Definition tl_new (ss : list TagSpec) : TaggedLineParser :=
  {| tl_specs := ss; active_tag := None; detect_tag := true; line_buffer := [] |}.

Definition push_segment (segments : list TaggedLineSegment) (segment : TaggedLineSegment)
    : list TaggedLineSegment :=
  match segment with
  | Normal delta =>
      if bool_decide (delta = []) then segments
      else match last segments with
           | Some (Normal existing) => removelast segments ++ [Normal (existing ++ delta)]
           | _ => segments ++ [Normal delta]
           end
  | TagDelta tag delta =>
      if bool_decide (delta = []) then segments
      else match last segments with
           | Some (TagDelta existing_tag existing) =>
               if decide (existing_tag = tag)
               then removelast segments ++ [TagDelta existing_tag (existing ++ delta)]
               else segments ++ [TagDelta tag delta]
           | _ => segments ++ [TagDelta tag delta]
           end
  | TagStart tag => segments ++ [TagStart tag]
  | TagEnd tag => segments ++ [TagEnd tag]
  end.

Definition push_text (p : TaggedLineParser) (text : rstring) (segments : list TaggedLineSegment)
    : list TaggedLineSegment :=
  match active_tag p with
  | Some tag => push_segment segments (TagDelta tag text)
  | None => push_segment segments (Normal text)
  end.

Definition is_tag_prefix (p : TaggedLineParser) (slug : rstring) : bool :=
  let slug := trim_end slug in
  existsb (λ spec, starts_with (tag_open spec) slug || starts_with (tag_close spec) slug) (tl_specs p).

Definition match_open (p : TaggedLineParser) (slug : rstring) : option T :=
  tag_of <$> head (filter (λ spec, tag_open spec = slug) (tl_specs p)).
Definition match_close (p : TaggedLineParser) (slug : rstring) : option T :=
  tag_of <$> head (filter (λ spec, tag_close spec = slug) (tl_specs p)).

(** The slug of a buffered line, and what the line turns out to be. *)
Definition line_slug (line : rstring) : rstring :=
  trim_end (trim_start (default line (strip_suffix [newline] line))).

Definition finish_line (p : TaggedLineParser) (segments : list TaggedLineSegment)
    : TaggedLineParser * list TaggedLineSegment :=
  let line := line_buffer p in
  let slug := line_slug line in
  let to_text :=
    match match_close p slug with
    | Some tag =>
        if decide (active_tag p = Some tag)
        then ({| tl_specs := tl_specs p; active_tag := None; detect_tag := true; line_buffer := [] |},
              push_segment segments (TagEnd tag))
        else ({| tl_specs := tl_specs p; active_tag := active_tag p; detect_tag := true; line_buffer := [] |},
              push_text p line segments)
    | None => ({| tl_specs := tl_specs p; active_tag := active_tag p; detect_tag := true; line_buffer := [] |},
               push_text p line segments)
    end in
  match match_open p slug with
  | Some tag =>
      match active_tag p with
      | None => ({| tl_specs := tl_specs p; active_tag := Some tag; detect_tag := true; line_buffer := [] |},
                 push_segment segments (TagStart tag))
      | Some _ => to_text
      end
  | None => to_text
  end.

(** One character of [parse]; [run] is text not yet pushed. *)
Definition parse_char (st : TaggedLineParser * list TaggedLineSegment * rstring) (ch : char)
    : TaggedLineParser * list TaggedLineSegment * rstring :=
  let '(p, segments, run) := st in
  if detect_tag p then
    let '(segments, run) :=
      if bool_decide (run = []) then (segments, run) else (push_text p run segments, []) in
    let p := {| tl_specs := tl_specs p; active_tag := active_tag p; detect_tag := true;
                line_buffer := line_buffer p ++ [ch] |} in
    if (ch =? newline)%N then (finish_line p segments, run)
    else
      let slug := trim_start (line_buffer p) in
      if bool_decide (slug = []) || is_tag_prefix p slug then (p, segments, run)
      else ({| tl_specs := tl_specs p; active_tag := active_tag p; detect_tag := false; line_buffer := [] |},
            push_text p (line_buffer p) segments, run)
  else
    let run := run ++ [ch] in
    if (ch =? newline)%N
    then ({| tl_specs := tl_specs p; active_tag := active_tag p; detect_tag := true;
             line_buffer := line_buffer p |},
          push_text p run segments, [])
    else (p, segments, run).

Definition parse (p : TaggedLineParser) (delta : rstring)
    : TaggedLineParser * list TaggedLineSegment :=
  let '(p, segments, run) := foldl parse_char (p, [], []) delta in
  (p, if bool_decide (run = []) then segments else push_text p run segments).

Definition tl_finish (p : TaggedLineParser) : TaggedLineParser * list TaggedLineSegment :=
  let '(p, segments) :=
    if bool_decide (line_buffer p = []) then (p, []) else finish_line p [] in
  match active_tag p with
  | Some tag => ({| tl_specs := tl_specs p; active_tag := None; detect_tag := true;
                    line_buffer := line_buffer p |}, push_segment segments (TagEnd tag))
  | None => ({| tl_specs := tl_specs p; active_tag := None; detect_tag := true;
                line_buffer := line_buffer p |}, segments)
  end.
End TaggedLine.
Arguments TagSpec : clear implicits.
Arguments TaggedLineSegment : clear implicits.
Arguments TaggedLineParser : clear implicits.

(** ** Segments as a stream of events

    Two segment lists that differ only in where text is split are the same
    stream: [flatten] forgets the splits. *)
Section flatten.
Context {T : Type} `{EqDecision T}.
Implicit Types p : TaggedLineParser T.

Inductive event :=
| EText (c : char)
| EStart (tag : T)
| EInner (tag : T) (c : char)
| EEnd (tag : T).

Definition text_events (a : option T) (s : rstring) : list event :=
  match a with Some tag => EInner tag <$> s | None => EText <$> s end.
Definition seg_events (s : TaggedLineSegment T) : list event :=
  match s with
  | Normal d => text_events None d
  | TagStart tag => [EStart tag]
  | TagDelta tag d => text_events (Some tag) d
  | TagEnd tag => [EEnd tag]
  end.
Definition flatten (l : list (TaggedLineSegment T)) : list event := l ≫= seg_events.

Lemma flatten_app l k : flatten (l ++ k) = flatten l ++ flatten k.
Proof using Type. apply bind_app. Qed.

Lemma text_events_app a s t : text_events a (s ++ t) = text_events a s ++ text_events a t.
Proof using Type. destruct a; apply fmap_app. Qed.
Lemma text_events_nil a : text_events a [] = [].
Proof using Type. by destruct a. Qed.

Lemma last_split {A} (l : list A) x : last l = Some x → l = removelast l ++ [x].
Proof using Type.
  intros H. destruct (nil_or_length_pos l) as [->|]; [done|].
  destruct l as [|a l] using rev_ind; [done|]. rewrite last_snoc in H. injection H as ->.
  by rewrite removelast_app, app_nil_r by done.
Qed.

Lemma flatten_push_segment l s : flatten (push_segment l s) = flatten l ++ seg_events s.
Proof using Type.
  assert (∀ k y, flatten (k ++ [y]) = flatten k ++ seg_events y) as Hsnoc.
  { intros k y. rewrite flatten_app. cbn. by rewrite app_nil_r. }
  destruct s as [d|tag|tag d|tag]; cbn [push_segment]; try apply Hsnoc.
  - case_bool_decide as Hd; [by subst; cbn; rewrite app_nil_r|].
    destruct (last l) as [[e| | |]|] eqn:El; try apply Hsnoc.
    rewrite (last_split _ _ El) at 2. rewrite !Hsnoc. cbn. by rewrite fmap_app, app_assoc.
  - case_bool_decide as Hd; [by subst; cbn; rewrite app_nil_r|].
    destruct (last l) as [[| |tag' e|]|] eqn:El; try apply Hsnoc.
    case_decide; [subst|apply Hsnoc].
    rewrite (last_split _ _ El) at 2. rewrite !Hsnoc. cbn. by rewrite fmap_app, app_assoc.
Qed.

Lemma flatten_push_text p s l : flatten (push_text p s l) = flatten l ++ text_events (active_tag p) s.
Proof using Type. unfold push_text. by destruct (active_tag p); rewrite flatten_push_segment. Qed.

(** [finish_line] on events. *)
Definition line_step (p : TaggedLineParser T) (a : option T) (line : rstring)
    : option T * list event :=
  let slug := line_slug line in
  match match_open p slug, a with
  | Some tag, None => (Some tag, [EStart tag])
  | _, _ =>
      match match_close p slug with
      | Some tag => if decide (a = Some tag) then (None, [EEnd tag]) else (a, text_events a line)
      | None => (a, text_events a line)
      end
  end.

Lemma finish_line_events p l :
  let '(p', l') := finish_line p l in
  let '(a', evs) := line_step p (active_tag p) (line_buffer p) in
  flatten l' = flatten l ++ evs ∧
  p' = {| tl_specs := tl_specs p; active_tag := a'; detect_tag := true; line_buffer := [] |}.
Proof using Type.
  unfold finish_line, line_step. set (slug := line_slug _).
  destruct (match_open p slug) as [tag|], (match_close p slug) as [tag'|], (active_tag p) as [a|] eqn:Ha;
    repeat (case_decide; simplify_eq); split; try done;
    first [apply flatten_push_segment | rewrite flatten_push_text, Ha; done].
Qed.

(** One character on events. *)
Definition step_events (p : TaggedLineParser T) (ch : char) : TaggedLineParser T * list event :=
  if detect_tag p then
    let p := {| tl_specs := tl_specs p; active_tag := active_tag p; detect_tag := true;
                line_buffer := line_buffer p ++ [ch] |} in
    if (ch =? newline)%N then
      let '(a, evs) := line_step p (active_tag p) (line_buffer p) in
      ({| tl_specs := tl_specs p; active_tag := a; detect_tag := true; line_buffer := [] |}, evs)
    else
      let slug := trim_start (line_buffer p) in
      if bool_decide (slug = []) || is_tag_prefix p slug then (p, [])
      else ({| tl_specs := tl_specs p; active_tag := active_tag p; detect_tag := false; line_buffer := [] |},
            text_events (active_tag p) (line_buffer p))
  else ({| tl_specs := tl_specs p; active_tag := active_tag p; detect_tag := (ch =? newline)%N;
           line_buffer := line_buffer p |}, text_events (active_tag p) [ch]).

Fixpoint run_events (p : TaggedLineParser T) (s : rstring) : TaggedLineParser T * list event :=
  match s with
  | [] => (p, [])
  | ch :: s => let '(p1, e1) := step_events p ch in
               let '(p2, e2) := run_events p1 s in (p2, e1 ++ e2)
  end.

Lemma parse_char_events p l run ch :
  (detect_tag p = true → run = []) →
  let '(p', l', run') := parse_char (p, l, run) ch in
  let '(p2, evs) := step_events p ch in
  p' = p2 ∧ (detect_tag p' = true → run' = []) ∧
  flatten l' ++ text_events (active_tag p') run' =
    flatten l ++ text_events (active_tag p) run ++ evs.
Proof using Type.
  intros Hinv. destruct p as [ss a d lb]. unfold parse_char, step_events. cbn [detect_tag active_tag line_buffer tl_specs].
  destruct d; [cbn in Hinv; rewrite Hinv by done; rewrite bool_decide_eq_true_2 by done|].
  - destruct (ch =? newline)%N eqn:Hnl.
    + match goal with |- context [finish_line ?q l] =>
        pose proof (finish_line_events q l) as Hf; destruct (finish_line q l) as [p' l'] end.
      cbn [active_tag line_buffer tl_specs] in Hf. destruct (line_step _ _ _) as [a' evs].
      destruct Hf as [Hf ->]. split_and!; [done|done|]. by rewrite Hf, !text_events_nil, app_nil_r.
    + destruct (_ || _).
      * split_and!; [done|done|]. by rewrite !text_events_nil, !app_nil_r.
      * split_and!; [done|done|]. rewrite flatten_push_text. cbn. by rewrite !text_events_nil, !app_nil_r.
  - destruct (ch =? newline)%N eqn:Hnl.
    + split_and!; [done|done|]. rewrite flatten_push_text. cbn [active_tag].
      by rewrite text_events_nil, app_nil_r, text_events_app.
    + split_and!; [done|done|]. cbn [active_tag]. by rewrite text_events_app.
Qed.

(** [parse] refines the event semantics. *)
Lemma parse_events p s :
  let '(p', l) := parse p s in
  let '(p2, evs) := run_events p s in p' = p2 ∧ flatten l = evs.
Proof using Type.
  unfold parse.
  assert (∀ l run, (detect_tag p = true → run = []) →
    let '(p', l', run') := foldl parse_char (p, l, run) s in
    let '(p2, evs) := run_events p s in
    p' = p2 ∧ flatten l' ++ text_events (active_tag p') run' =
      flatten l ++ text_events (active_tag p) run ++ evs) as H.
  { revert p. induction s as [|ch s IH]; intros p l run Hinv; cbn [foldl run_events].
    - by rewrite app_nil_r.
    - pose proof (parse_char_events p l run ch Hinv) as Hc.
      destruct (parse_char (p, l, run) ch) as [[p1 l1] run1].
      destruct (step_events p ch) as [p1' e1]. destruct Hc as (-> & Hinv1 & Hc).
      specialize (IH p1' l1 run1 Hinv1). destruct (foldl parse_char (p1', l1, run1) s) as [[p2 l2] run2].
      destruct (run_events p1' s) as [p2' e2]. destruct IH as [-> IH]. split; [done|].
      rewrite IH, app_assoc, Hc. by rewrite <- !app_assoc. }
  specialize (H [] [] (λ _, eq_refl)).
  destruct (foldl parse_char (p, [], []) s) as [[p' l] run].
  destruct (run_events p s) as [p2 evs]. destruct H as [-> H].
  rewrite text_events_nil in H. cbn in H. split; [done|]. rewrite <- H.
  case_bool_decide as Hr; [by rewrite Hr, text_events_nil, app_nil_r|]. apply flatten_push_text.
Qed.

Lemma run_events_app p s t :
  run_events p (s ++ t) =
    let '(p1, e1) := run_events p s in let '(p2, e2) := run_events p1 t in (p2, e1 ++ e2).
Proof using Type.
  revert p. induction s as [|ch s IH]; intros p; cbn [app run_events].
  - by destruct (run_events p t).
  - destruct (step_events p ch) as [p1 e1]. rewrite IH. destruct (run_events p1 s) as [p2 e2].
    destruct (run_events p2 t) as [p3 e3]. by rewrite app_assoc.
Qed.

Lemma tl_finish_events p :
  let '(_, l) := tl_finish p in
  let '(a, evs) := if bool_decide (line_buffer p = []) then (active_tag p, [])
                   else line_step p (active_tag p) (line_buffer p) in
  flatten l = evs ++ match a with Some tag => [EEnd tag] | None => [] end.
Proof using Type.
  unfold tl_finish. case_bool_decide as Hb.
  - destruct (active_tag p); [by rewrite flatten_push_segment|done].
  - pose proof (finish_line_events p []) as Hf. destruct (finish_line p []) as [p' l'].
    destruct (line_step p _ _) as [a' evs]. destruct Hf as [Hf ->]. cbn [active_tag].
    destruct a'; rewrite ?flatten_push_segment, Hf; [done|]. by rewrite app_nil_r.
Qed.

(** ** The reference: whole lines

    Each line, terminator included, is either a tag line or text. *)
Fixpoint lines_events (p : TaggedLineParser T) (a : option T) (ls : list rstring)
    : option T * list event :=
  match ls with
  | [] => (a, [])
  | l :: ls => let '(a1, e1) := line_step p a l in
               let '(a2, e2) := lines_events p a1 ls in (a2, e1 ++ e2)
  end.
Definition line_spec (p : TaggedLineParser T) (a : option T) (s : rstring) : list event :=
  let '(a, evs) := lines_events p a (split_inclusive newline s) in
  evs ++ match a with Some tag => [EEnd tag] | None => [] end.

(** The parser [ss] at the start of a line, or inside one. *)
Definition at_state (ss : list (TagSpec T)) a d lb : TaggedLineParser T :=
  {| tl_specs := ss; active_tag := a; detect_tag := d; line_buffer := lb |}.

Lemma line_slug_trim l : line_slug l = trim l.
Proof using Type. apply trim_strip_newline. Qed.

Lemma match_prefix p q x :
  trim_start q = [] ∨ is_tag_prefix p (trim_start q) = true ∨
  (match_open p (line_slug (q ++ x)) = None ∧ match_close p (line_slug (q ++ x)) = None).
Proof using Type.
  destruct (trim_prefix q x) as [?|Hp]; [by left|right]. rewrite line_slug_trim.
  unfold match_open, match_close, is_tag_prefix.
  destruct (filter (λ spec, tag_open spec = _) _) as [|sp l] eqn:Eo.
  - destruct (filter (λ spec, tag_close spec = _) _) as [|sp l] eqn:Ec; [by right|left].
    assert (sp ∈ filter (λ spec, tag_close spec = trim (q ++ x)) (tl_specs p)) as Hin
      by (rewrite Ec; left).
    apply list_elem_of_filter in Hin as [Hsp Hin]. apply existsb_exists.
    exists sp. rewrite <- list_elem_of_In. split; [done|]. apply orb_true_iff. right.
    apply starts_with_spec. by rewrite Hsp.
  - left. assert (sp ∈ filter (λ spec, tag_open spec = trim (q ++ x)) (tl_specs p)) as Hin
      by (rewrite Eo; left).
    apply list_elem_of_filter in Hin as [Hsp Hin]. apply existsb_exists.
    exists sp. rewrite <- list_elem_of_In. split; [done|]. apply orb_true_iff. left.
    apply starts_with_spec. by rewrite Hsp.
Qed.

(** A line that is no tag line is text. *)
Lemma line_step_text p a l :
  match_open p (line_slug l) = None → match_close p (line_slug l) = None →
  line_step p a l = (a, text_events a l).
Proof using Type. unfold line_step. by intros -> ->. Qed.

(** [line_step] reads only the specs of the parser. *)
Lemma line_step_specs p p' a l : tl_specs p = tl_specs p' → line_step p a l = line_step p' a l.
Proof using Type. unfold line_step, match_open, match_close. by intros ->. Qed.
Lemma lines_events_specs p p' a ls :
  tl_specs p = tl_specs p' → lines_events p a ls = lines_events p' a ls.
Proof using Type.
  intros E. revert a. induction ls as [|l ls IH]; intros a; [done|]. cbn.
  rewrite (line_step_specs p p') by done. destruct (line_step p' a l). by rewrite IH.
Qed.

(** Inside a line either everything is still buffered, or the line has been
    given up as text, and then no continuation of it is a tag line. *)
Lemma run_events_partial ss a l :
  newline ∉ l →
  run_events (at_state ss a true []) l = (at_state ss a true l, []) ∨
  (run_events (at_state ss a true []) l = (at_state ss a false [], text_events a l) ∧
   ∀ x, line_step (at_state ss a true []) a (l ++ x) = (a, text_events a (l ++ x))).
Proof using Type.
  induction l as [|c l IH] using rev_ind; intros Hl; [by left|].
  apply not_elem_of_app in Hl as [Hl Hc]. rewrite list_elem_of_singleton in Hc.
  rewrite run_events_app. specialize (IH Hl).
  assert ((c =? newline)%N = false) as Hnl by (apply N.eqb_neq; congruence).
  destruct IH as [->|[-> Hx]]; cbn [run_events]; unfold step_events, at_state; cbn [detect_tag active_tag line_buffer tl_specs]; rewrite Hnl.
  - destruct (bool_decide _ || _) eqn:Hd; [by left|right]. apply orb_false_iff in Hd as [Hd1 Hd2].
    apply bool_decide_eq_false in Hd1. split; [by rewrite app_nil_r|].
    intros x. destruct (match_prefix (at_state ss a true []) (l ++ [c]) x) as [?|[Hp|[Ho Hm]]];
      [done| |by apply line_step_text].
    unfold is_tag_prefix in Hd2, Hp. cbn [tl_specs at_state] in Hd2, Hp. congruence.
  - right. split; [by rewrite app_nil_r, text_events_app|].
    intros x. rewrite <- app_assoc. apply Hx.
Qed.

Lemma run_events_line ss a l :
  newline ∉ l →
  run_events (at_state ss a true []) (l ++ [newline]) =
    let '(a', evs) := line_step (at_state ss a true []) a (l ++ [newline]) in
    (at_state ss a' true [], evs).
Proof using Type.
  intros Hl. rewrite run_events_app. destruct (run_events_partial ss a l Hl) as [->|[-> Hx]].
  - cbn [run_events]. unfold step_events, at_state. cbn [detect_tag active_tag line_buffer tl_specs].
    rewrite N.eqb_refl.
    rewrite (line_step_specs _ {| tl_specs := ss; active_tag := a; detect_tag := true; line_buffer := [] |}) by done.
    destruct (line_step _ a _) as [a' evs]. by rewrite app_nil_r.
  - rewrite Hx. cbn [run_events]. unfold step_events, at_state. cbn [detect_tag active_tag line_buffer].
    rewrite N.eqb_refl. by rewrite app_nil_r, text_events_app.
Qed.

(** Reading a text in one go and flushing. *)
Lemma run_finish_line_spec ss a s :
  let '(p', evs) := run_events (at_state ss a true []) s in
  evs ++ flatten (tl_finish p').2 = line_spec (at_state ss a true []) a s.
Proof using Type.
  revert a. induction s as [l Hl|l s Hl IH] using (line_ind newline); intros a.
  - destruct (run_events_partial ss a l Hl) as [->|[-> Hx]].
    + pose proof (tl_finish_events (at_state ss a true l)) as Hf.
      destruct (tl_finish (at_state ss a true l)) as [p' segs]. cbn [active_tag line_buffer at_state snd app] in *.
      unfold line_spec. case_bool_decide as Hle; [subst l; by rewrite Hf|].
      rewrite split_inclusive_last by done. cbn [lines_events].
      rewrite (line_step_specs _ (at_state ss a true [])) in Hf by done.
      destruct (line_step _ a l) as [a' evs]. cbn. by rewrite app_nil_r.
    + pose proof (tl_finish_events (at_state ss a false [])) as Hf.
      destruct (tl_finish (at_state ss a false [])) as [p' segs]. cbn [active_tag line_buffer at_state snd] in *.
      rewrite bool_decide_eq_true_2 in Hf by done. rewrite Hf. unfold line_spec.
      destruct (decide (l = [])) as [->|Hle]; [by rewrite text_events_nil|].
      rewrite split_inclusive_last by done. cbn [lines_events].
      specialize (Hx []). rewrite app_nil_r in Hx. rewrite Hx. by rewrite app_nil_r.
  - unfold line_spec. rewrite split_inclusive_line by done.
    change (newline :: s) with ([newline] ++ s). rewrite app_assoc, run_events_app, run_events_line by done.
    cbn [lines_events]. destruct (line_step _ a _) as [a' e1]. specialize (IH a').
    destruct (run_events (at_state ss a' true []) s) as [p' e2]. rewrite <- app_assoc, IH. unfold line_spec.
    rewrite (lines_events_specs _ (at_state ss a true [])) by done.
    destruct (lines_events _ a' _) as [a2 e3]. by rewrite app_assoc.
Qed.
End flatten.
Arguments event : clear implicits.
