(* ===== verification/ProposedPlan.v ===== *)
(** * Proposed-plan blocks ([utils/stream-parser/src/proposed_plan.rs])

    The tagged-line parser instantiated with one tag, the mapping of its
    segments to the public segment type, and the two whole-text helpers. *)
From S2P Require Import Prelude RustStr StreamText TaggedLine.

Inductive PlanTag := PlanTag_ProposedPlan.
#[global] Instance PlanTag_eq_dec : EqDecision PlanTag.
Proof. solve_decision. Defined.

Inductive ProposedPlanSegment :=
| PNormal (text : rstring)
| ProposedPlanStart
| ProposedPlanDelta (text : rstring)
| ProposedPlanEnd.

Definition OPEN_TAG : rstring := lit "<proposed_plan>".
Definition CLOSE_TAG : rstring := lit "</proposed_plan>".
Definition plan_specs : list (TagSpec PlanTag) :=
  [{| tag_open := OPEN_TAG; tag_close := CLOSE_TAG; tag_of := PlanTag_ProposedPlan |}].

Record ProposedPlanParser := { plan_inner : TaggedLineParser PlanTag }.
Definition plan_new : ProposedPlanParser := {| plan_inner := tl_new plan_specs |}.

Definition map_segment (s : TaggedLineSegment PlanTag) : ProposedPlanSegment :=
  match s with
  | Normal t => PNormal t
  | TagStart PlanTag_ProposedPlan => ProposedPlanStart
  | TagDelta PlanTag_ProposedPlan t => ProposedPlanDelta t
  | TagEnd PlanTag_ProposedPlan => ProposedPlanEnd
  end.
Definition map_segments (segments : list (TaggedLineSegment PlanTag))
    : StreamTextChunk ProposedPlanSegment :=
  foldl (λ out segment,
    let mapped := map_segment segment in
    mk_chunk (match mapped with PNormal t => visible_text out ++ t | _ => visible_text out end)
             (extracted out ++ [mapped]))
    chunk_default segments.

Definition plan_push_str (p : ProposedPlanParser) (chunk : rstring)
    : ProposedPlanParser * StreamTextChunk ProposedPlanSegment :=
  let '(q, segs) := parse (plan_inner p) chunk in ({| plan_inner := q |}, map_segments segs).
Definition plan_finish (p : ProposedPlanParser)
    : ProposedPlanParser * StreamTextChunk ProposedPlanSegment :=
  let '(q, segs) := tl_finish (plan_inner p) in ({| plan_inner := q |}, map_segments segs).

#[global] Instance Plan_parser : StreamTextParser ProposedPlanParser ProposedPlanSegment := {
  push_str p s := Some (plan_push_str p s);
  finish := plan_finish
}.

Definition strip_proposed_plan_blocks (text : rstring) : rstring :=
  let '(p, out) := plan_push_str plan_new text in
  visible_text out ++ visible_text (plan_finish p).2.

(** One segment of [extract_proposed_plan_text]: the flag and the text so far. *)
Definition extract_step (acc : bool * rstring) (s : ProposedPlanSegment) : bool * rstring :=
  match s with
  | ProposedPlanStart => (true, [])
  | ProposedPlanDelta d => (acc.1, acc.2 ++ d)
  | ProposedPlanEnd | PNormal _ => acc
  end.
Definition extract_proposed_plan_text (text : rstring) : option rstring :=
  let '(p, out) := plan_push_str plan_new text in
  let '(saw_plan_block, plan_text) :=
    foldl extract_step (false, []) (extracted out ++ extracted (plan_finish p).2) in
  if saw_plan_block then Some plan_text else None.

(** ** Segments up to where text is split *)
Definition unmap_segment (s : ProposedPlanSegment) : TaggedLineSegment PlanTag :=
  match s with
  | PNormal t => Normal t
  | ProposedPlanStart => TagStart PlanTag_ProposedPlan
  | ProposedPlanDelta t => TagDelta PlanTag_ProposedPlan t
  | ProposedPlanEnd => TagEnd PlanTag_ProposedPlan
  end.
Definition plan_events (l : list ProposedPlanSegment) : list (event PlanTag) :=
  flatten (unmap_segment <$> l).

(** The visible characters of a stream of events. *)
Definition visible_event (e : event PlanTag) : rstring := match e with EText c => [c] | _ => [] end.
Definition visible_events (l : list (event PlanTag)) : rstring := l ≫= visible_event.

Definition extract_event (acc : bool * rstring) (e : event PlanTag) : bool * rstring :=
  match e with
  | EStart _ => (true, [])
  | EInner _ c => (acc.1, acc.2 ++ [c])
  | EText _ | EEnd _ => acc
  end.

Definition plan_equiv (a b : StreamTextChunk ProposedPlanSegment) : Prop :=
  visible_text a = visible_text b ∧ plan_events (extracted a) = plan_events (extracted b).

#[global] Instance plan_equiv_equivalence : Equivalence plan_equiv.
Proof. split; unfold plan_equiv; [done|intros ?? [? ?]; done|intros ??? [-> ->] [-> ->]; done]. Qed.

Lemma plan_events_app l k : plan_events (l ++ k) = plan_events l ++ plan_events k.
Proof. unfold plan_events. by rewrite fmap_app, flatten_app. Qed.

#[global] Instance plan_equiv_app : Proper (plan_equiv ==> plan_equiv ==> plan_equiv) chunk_app.
Proof.
  intros a a' [Ha1 Ha2] b b' [Hb1 Hb2]. split; cbn [extracted visible_text chunk_app]; [by rewrite Ha1, Hb1|].
  by rewrite !plan_events_app, Ha2, Hb2.
Qed.

Lemma map_segments_spec segs :
  map_segments segs = mk_chunk (visible_events (flatten segs)) (map_segment <$> segs).
Proof.
  unfold map_segments. rewrite <- (chunk_app_default_l (mk_chunk _ _)).
  generalize (chunk_default (T:=ProposedPlanSegment)) as out. induction segs as [|s segs IH]; intros out; cbn [foldl].
  { cbn. destruct out. unfold chunk_app. cbn. by rewrite !app_nil_r. }
  rewrite IH. unfold chunk_app. cbn [visible_text extracted fmap list_fmap]. rewrite <- (app_assoc (extracted out)).
  f_equal. unfold visible_events. unfold flatten at 2. cbn [mbind list_bind]. fold (flatten segs). rewrite bind_app.
  assert (∀ t : rstring, ((EText (T:=PlanTag) <$> t) ≫= visible_event) = t) as Htext
    by (induction t as [|c t IHt]; [done|cbn; f_equal; apply IHt]).
  assert (∀ g (t : rstring), ((EInner (T:=PlanTag) g <$> t) ≫= visible_event) = []) as Hin
    by (intros g t; induction t; [done|cbn; done]).
  destruct s as [t|[]|[] t|[]]; cbn; rewrite ?Htext, ?Hin, <- ?app_assoc; done.
Qed.

Lemma unmap_map (segs : list (TaggedLineSegment PlanTag)) : unmap_segment <$> (map_segment <$> segs) = segs.
Proof.
  rewrite <- list_fmap_compose. rewrite <- (list_fmap_id segs) at 2.
  apply list_fmap_ext. intros i [t|[]|[] t|[]] _; done.
Qed.

Lemma map_segments_events segs : plan_events (extracted (map_segments segs)) = flatten segs.
Proof. rewrite map_segments_spec. unfold plan_events. cbn [extracted]. by rewrite unmap_map. Qed.
Lemma map_segments_visible segs : visible_text (map_segments segs) = visible_events (flatten segs).
Proof. by rewrite map_segments_spec. Qed.

(** What a chunk shows is the visible part of its events. *)
Lemma plan_push_events p s :
  let '(p', out) := plan_push_str p s in
  let '(q, evs) := run_events (plan_inner p) s in
  plan_inner p' = q ∧ visible_text out = visible_events evs ∧ plan_events (extracted out) = evs.
Proof.
  unfold plan_push_str. pose proof (parse_events (plan_inner p) s) as Hp.
  destruct (parse (plan_inner p) s) as [q segs], (run_events (plan_inner p) s) as [q' evs].
  destruct Hp as [-> <-]. cbn [plan_inner]. by rewrite map_segments_visible, map_segments_events.
Qed.

Lemma plan_finish_events p :
  let '(_, out) := plan_finish p in
  visible_text out = visible_events (flatten (tl_finish (plan_inner p)).2) ∧
  plan_events (extracted out) = flatten (tl_finish (plan_inner p)).2.
Proof.
  unfold plan_finish. destruct (tl_finish (plan_inner p)) as [q segs]. cbn [snd].
  by rewrite map_segments_visible, map_segments_events.
Qed.

Lemma extract_step_events s acc : foldl extract_event acc (plan_events [s]) = extract_step acc s.
Proof.
  unfold plan_events, flatten. cbn. rewrite app_nil_r.
  destruct s as [t| |t|]; cbn; try done.
  - induction t as [|c t IHt]; [done|exact IHt].
  - destruct acc as [b x]. cbn [fst snd]. revert x. induction t as [|c t IHt]; intros x; cbn.
    + by rewrite app_nil_r.
    + rewrite IHt, <- app_assoc. done.
Qed.

Lemma extract_events l acc : foldl extract_step acc l = foldl extract_event acc (plan_events l).
Proof.
  revert acc. induction l as [|s l IH]; intros acc; [done|]. cbn [foldl].
  rewrite (plan_events_app [s] l : plan_events (s :: l) = _), foldl_app, extract_step_events. apply IH.
Qed.

Program Definition Plan_laws : StreamLaws ProposedPlanParser ProposedPlanSegment := {|
  parser_wf := λ _, True;
  out_equiv := plan_equiv
|}.
Next Obligation. intros p s _. cbn. destruct (plan_push_str p s) as [p' o]. eauto. Qed.
Next Obligation. intros [p] _. cbn. unfold plan_push_str. by destruct p. Qed.
Next Obligation.
  intros p s1 s2 p1 o1 p2 o2 _ [= E1] [= E2]. cbn.
  pose proof (plan_push_events p s1) as H1. rewrite E1 in H1.
  pose proof (plan_push_events p1 s2) as H2. rewrite E2 in H2.
  pose proof (plan_push_events p (s1 ++ s2)) as H12. rewrite run_events_app in H12.
  destruct (plan_push_str p (s1 ++ s2)) as [p12 o12].
  destruct (run_events (plan_inner p) s1) as [q1 e1]. destruct H1 as (<- & V1 & X1).
  destruct (run_events (plan_inner p1) s2) as [q2 e2]. destruct H2 as (<- & V2 & X2).
  destruct H12 as (Hq & V & X). exists o12. split.
  - do 2 f_equal. destruct p12, p2. cbn in Hq. by subst.
  - split; cbn [extracted visible_text chunk_app].
    + rewrite V, V1, V2. unfold visible_events. by rewrite bind_app.
    + by rewrite plan_events_app, X, X1, X2.
Qed.
#[global] Existing Instance Plan_laws.

(** ** Whole texts, line by line *)
Abbreviation plan_start := (at_state plan_specs).

(** The event stream of a whole text. *)
Definition plan_spec (s : rstring) : list (event PlanTag) :=
  line_spec (plan_start None true []) None s.

Lemma plan_run_spec s :
  let '(p, out) := plan_push_str plan_new s in
  visible_text out ++ visible_text (plan_finish p).2 = visible_events (plan_spec s) ∧
  plan_events (extracted out ++ extracted (plan_finish p).2) = plan_spec s.
Proof.
  pose proof (plan_push_events plan_new s) as Hp.
  pose proof (run_finish_line_spec plan_specs None s) as Hs.
  destruct (plan_push_str plan_new s) as [p out].
  change (plan_inner plan_new) with (plan_start None true []) in Hp.
  destruct (run_events _ s) as [q evs]. destruct Hp as (<- & Hv & Hx).
  pose proof (plan_finish_events p) as Hf. destruct (plan_finish p) as [p' o']. cbn [snd].
  destruct Hf as [Hv' Hx']. unfold plan_spec. rewrite <- Hs. split.
  - rewrite Hv, Hv'. unfold visible_events. by rewrite bind_app.
  - by rewrite plan_events_app, Hx, Hx'.
Qed.

Lemma strip_spec s : strip_proposed_plan_blocks s = visible_events (plan_spec s).
Proof.
  unfold strip_proposed_plan_blocks. pose proof (plan_run_spec s) as Hr.
  destruct (plan_push_str plan_new s). apply Hr.
Qed.

Lemma extract_spec s :
  extract_proposed_plan_text s =
    let '(saw, text) := foldl extract_event (false, []) (plan_spec s) in
    if saw then Some text else None.
Proof.
  unfold extract_proposed_plan_text. pose proof (plan_run_spec s) as Hr.
  destruct (plan_push_str plan_new s) as [p out]. destruct Hr as [_ Hr].
  by rewrite extract_events, Hr.
Qed.

Lemma visible_events_app e f : visible_events (e ++ f) = visible_events e ++ visible_events f.
Proof. unfold visible_events. by rewrite bind_app. Qed.

(** The lines outside plan blocks. *)
Fixpoint outside_lines (a : option PlanTag) (ls : list rstring) : list rstring :=
  match ls with
  | [] => []
  | l :: ls =>
      let a1 := (line_step (plan_start None true []) a l).1 in
      match a, a1 with
      | None, None => l :: outside_lines a1 ls
      | _, _ => outside_lines a1 ls
      end
  end.

Lemma line_step_plan a l :
  line_step (plan_start None true []) a l =
    match a with
    | None => if decide (trim l = OPEN_TAG) then (Some PlanTag_ProposedPlan, [EStart PlanTag_ProposedPlan])
              else (None, EText <$> l)
    | Some t => if decide (trim l = CLOSE_TAG) then (None, [EEnd PlanTag_ProposedPlan])
                else (Some t, EInner t <$> l)
    end.
Proof.
  unfold line_step. rewrite line_slug_trim. unfold match_open, match_close, at_state, plan_specs.
  cbn [tl_specs]. rewrite !filter_cons, !filter_nil. cbn [tag_open tag_close tag_of].
  assert (OPEN_TAG ≠ CLOSE_TAG) by done.
  destruct a as [[]|]; repeat case_decide; try done; congruence.
Qed.

Lemma visible_text_events t : visible_events (EText <$> t) = t.
Proof. induction t as [|c t IH]; [done|]. cbn. f_equal. apply IH. Qed.
Lemma visible_inner_events g t : visible_events (EInner g <$> t) = [].
Proof. by induction t. Qed.

Lemma visible_lines_events a ls :
  visible_events (lines_events (plan_start None true []) a ls).2 = concat (outside_lines a ls).
Proof.
  revert a. induction ls as [|l ls IH]; intros a; [done|]. cbn [lines_events outside_lines].
  rewrite line_step_plan. destruct a as [g|]; case_decide; cbn [fst].
  all: match goal with H : context [outside_lines _ ?k] |- context [lines_events ?p ?a ?k] =>
    specialize (H a); destruct (lines_events p a k) as [a2 e2] end.
  all: cbn [snd fst] in *; rewrite visible_events_app, IH; cbn [concat].
  - done.
  - by rewrite visible_inner_events.
  - done.
  - by rewrite visible_text_events.
Qed.

Lemma plan_spec_visible s :
  visible_events (plan_spec s) = concat (outside_lines None (split_inclusive newline s)).
Proof.
  unfold plan_spec, line_spec. rewrite <- visible_lines_events.
  destruct (lines_events _ None _) as [[g|] evs]; cbn [snd]; rewrite visible_events_app; apply app_nil_r.
Qed.

Lemma outside_lines_split a s :
  split_inclusive newline (concat (outside_lines a (split_inclusive newline s))) =
  outside_lines a (split_inclusive newline s).
Proof.
  revert a. induction s as [l Hl|l s Hl IH] using (line_ind newline); intros a.
  - destruct (decide (l = [])) as [->|Hne]; [done|]. rewrite (split_inclusive_last newline l) by done.
    cbn [outside_lines]. rewrite line_step_plan. destruct a as [g|]; try case_decide; cbn [fst concat]; try done.
    by rewrite app_nil_r, split_inclusive_last.
  - rewrite split_inclusive_line by done. cbn [outside_lines].
    rewrite line_step_plan. destruct a as [g|]; case_decide; cbn [fst]; try apply IH. cbn [concat]. rewrite <- app_assoc. cbn [app].
    by rewrite split_inclusive_line, IH.
Qed.

Lemma outside_lines_idemp a ls : outside_lines None (outside_lines a ls) = outside_lines a ls.
Proof.
  revert a. induction ls as [|l ls IH]; intros a; [done|]. cbn [outside_lines].
  rewrite !line_step_plan. destruct a as [g|]; case_decide as Hd; cbn [fst]; try apply IH.
  cbn [outside_lines]. rewrite line_step_plan, decide_False by done. cbn [fst]. by rewrite IH.
Qed.

(** A document of plain lines and plan blocks. *)
Inductive plan_item := ILine (l : rstring) | IBlock (body : list rstring).
Definition item_lines (i : plan_item) : list rstring :=
  match i with
  | ILine l => [l]
  | IBlock body => (OPEN_TAG ++ [newline]) :: body ++ [CLOSE_TAG ++ [newline]]
  end.
Definition item_visible (i : plan_item) : rstring := match i with ILine l => l | IBlock _ => [] end.
Definition item_body (i : plan_item) : option rstring :=
  match i with ILine _ => None | IBlock body => Some (concat body) end.
Definition render_items (l : list plan_item) : rstring := concat (l ≫= item_lines).
Definition item_ok (i : plan_item) : Prop :=
  match i with
  | ILine l => full_line l ∧ trim l ≠ OPEN_TAG
  | IBlock body => Forall (λ l, full_line l ∧ trim l ≠ CLOSE_TAG) body
  end.

Lemma item_lines_full i : item_ok i → Forall full_line (item_lines i).
Proof.
  destruct i as [l|body]; cbn [item_lines item_ok].
  - intros [? _]. by repeat constructor.
  - intros H. constructor; [exists OPEN_TAG; split; [done|]; by apply (bool_decide_unpack _)|].
    apply Forall_app. split; [eapply Forall_impl; [exact H|by intros ? [? _]]|].
    repeat constructor. exists CLOSE_TAG. split; [done|]. by apply (bool_decide_unpack _).
Qed.

Lemma lines_events_app p a l k :
  lines_events (T:=PlanTag) p a (l ++ k) =
    let '(a1, e1) := lines_events p a l in
    let '(a2, e2) := lines_events p a1 k in (a2, e1 ++ e2).
Proof.
  revert a. induction l as [|x l IH]; intros a; cbn [lines_events app].
  - by destruct (lines_events p a k).
  - destruct (line_step p a x) as [a1 e1]. rewrite IH. destruct (lines_events p a1 l) as [a2 e2].
    destruct (lines_events p a2 k) as [a3 e3]. by rewrite app_assoc.
Qed.

Definition item_events (i : plan_item) : list (event PlanTag) :=
  match i with
  | ILine l => EText <$> l
  | IBlock body => EStart PlanTag_ProposedPlan ::
                   (EInner PlanTag_ProposedPlan <$> concat body) ++ [EEnd PlanTag_ProposedPlan]
  end.

Lemma body_events body :
  Forall (λ l, full_line l ∧ trim l ≠ CLOSE_TAG) body →
  lines_events (plan_start None true []) (Some PlanTag_ProposedPlan) body =
    (Some PlanTag_ProposedPlan, EInner PlanTag_ProposedPlan <$> concat body).
Proof.
  induction 1 as [|l body [_ Hl] _ IH]; [done|]. cbn [lines_events concat].
  rewrite line_step_plan, decide_False by done. rewrite IH. by rewrite fmap_app.
Qed.

Lemma items_events items :
  Forall item_ok items →
  lines_events (plan_start None true []) None (items ≫= item_lines) = (None, items ≫= item_events).
Proof.
  induction 1 as [|i items Hi _ IH]; [done|].
  change ((i :: items) ≫= item_lines) with (item_lines i ++ (items ≫= item_lines)).
  change ((i :: items) ≫= item_events) with (item_events i ++ (items ≫= item_events)).
  rewrite lines_events_app.
  assert (lines_events (plan_start None true []) None (item_lines i) = (None, item_events i)) as ->; [|by rewrite IH].
  destruct i as [l|body]; cbn [item_lines item_events lines_events]; rewrite line_step_plan.
  - destruct Hi as [_ Hi]. rewrite decide_False by done. by rewrite app_nil_r.
  - rewrite decide_True by done. rewrite lines_events_app, body_events by done.
    cbn [lines_events]. by rewrite line_step_plan, decide_True.
Qed.

Lemma plan_spec_items items : Forall item_ok items → plan_spec (render_items items) = items ≫= item_events.
Proof.
  intros H. unfold plan_spec, line_spec, render_items. rewrite split_inclusive_full.
  - by rewrite items_events, app_nil_r.
  - induction H as [|i items Hi _ IH]; [done|]. apply Forall_app. split; [by apply item_lines_full|done].
Qed.

Lemma extract_inner t b x :
  foldl extract_event (b, x) (EInner PlanTag_ProposedPlan <$> t) = (b, x ++ t).
Proof.
  revert x. induction t as [|c t IH]; intros x; cbn; [by rewrite app_nil_r|]. by rewrite IH, <- app_assoc.
Qed.
Lemma extract_text t acc : foldl extract_event acc (EText <$> t) = acc.
Proof. by induction t. Qed.

Lemma plan_collect chunks :
  ∃ out, collect plan_new chunks = Some out ∧
    visible_text out = visible_events (plan_spec (concat chunks)) ∧
    plan_events (extracted out) = plan_spec (concat chunks).
Proof.
  pose proof (I : parser_wf plan_new) as Hwf.
  destruct (collect_concat plan_new chunks [concat chunks] Hwf) as (o1 & o2 & E1 & E2 & Hv & Hx).
  { cbn. by rewrite app_nil_r. }
  exists o1. split; [done|]. rewrite Hv, Hx. unfold collect in E2. cbn in E2.
  pose proof (plan_run_spec (concat chunks)) as Hr.
  destruct (plan_push_str plan_new (concat chunks)) as [p o]. cbn in E2. injection E2 as <-.
  rewrite chunk_app_default_r. cbn [visible_text extracted chunk_app]. apply Hr.
Qed.

(** ** Properties *)

(** Streaming in any chunks is equivalent to looking at whole lines: the
    visible text and the events the plan parser yields are those of the
    line-by-line reference on the concatenated text. *)
Theorem plan_stream_refines_lines (chunks : list rstring) :
  ∃ out, collect plan_new chunks = Some out ∧
    visible_text out = visible_events (plan_spec (concat chunks)) ∧
    plan_events (extracted out) = plan_spec (concat chunks).
Proof. apply plan_collect. Qed.

(** Stripping plan blocks leaves no block behind: a second pass changes nothing. *)
Theorem strip_plan_idempotent (text : rstring) :
  strip_proposed_plan_blocks (strip_proposed_plan_blocks text) = strip_proposed_plan_blocks text.
Proof.
  rewrite !strip_spec, !plan_spec_visible, outside_lines_split. by rewrite outside_lines_idemp.
Qed.

(** On a document of plain lines and plan blocks, stripping keeps exactly
    the plain lines and extraction returns the body of the last block. *)
Theorem plan_blocks_roundtrip (items : list plan_item) :
  Forall item_ok items →
  strip_proposed_plan_blocks (render_items items) = items ≫= item_visible ∧
  extract_proposed_plan_text (render_items items) = last (omap item_body items).
Proof.
  intros H. rewrite strip_spec, extract_spec, plan_spec_items by done. clear H. split.
  - induction items as [|i items IH]; [done|].
    change (visible_events (item_events i ++ (items ≫= item_events)) = item_visible i ++ (items ≫= item_visible)).
    rewrite visible_events_app, IH. f_equal. destruct i as [l|body]; cbn [item_events item_visible].
    + apply visible_text_events.
    + change (visible_events ((EInner PlanTag_ProposedPlan <$> concat body) ++ [EEnd PlanTag_ProposedPlan]) = []).
      by rewrite visible_events_app, visible_inner_events.
  - induction items as [|i items IH] using rev_ind; [done|].
    rewrite bind_app, foldl_app, omap_app. destruct i as [l|body].
    + change ([ILine l] ≫= item_events) with ((EText (T:=PlanTag) <$> l) ++ []).
      change (omap item_body [ILine l]) with (@nil rstring).
      by rewrite !app_nil_r, extract_text.
    + change (omap item_body [IBlock body]) with [concat body]. rewrite last_snoc.
      change ([IBlock body] ≫= item_events)
        with (EStart PlanTag_ProposedPlan :: ((EInner PlanTag_ProposedPlan <$> concat body) ++ [EEnd PlanTag_ProposedPlan]) ++ []).
      rewrite app_nil_r. cbn [foldl]. rewrite foldl_app. cbn [extract_event]. by rewrite extract_inner.
Qed.

Lemma plan_blocks_roundtrip_witness :
  let items := [ILine (lit "intro" ++ [newline]); IBlock [lit "- step" ++ [newline]];
                ILine (lit "</proposed_plan>" ++ [newline])] in
  strip_proposed_plan_blocks (render_items items) =
    lit "intro" ++ [newline] ++ lit "</proposed_plan>" ++ [newline] ∧
  extract_proposed_plan_text (render_items items) = Some (lit "- step" ++ [newline]).
Proof.
  intros items. apply (plan_blocks_roundtrip items).
  assert (∀ k, bool_decide (newline ∉ k) = true → full_line (k ++ [newline])) as Hf.
  { intros k Hk. exists k. split; [done|]. by apply bool_decide_eq_true in Hk. }
  repeat constructor; cbn [item_ok].
  - by apply Hf.
  - by vm_compute.
  - by apply Hf.
  - by vm_compute.
  - by apply Hf.
  - by vm_compute.
Defined.
