(* ===== verification/AssistantText.v ===== *)
(** * Assistant text ([utils/stream-parser/src/assistant_text.rs])

    The composition of the citation parser and, in plan mode, the plan parser
    on what the first leaves visible. *)
From S2P Require Import Prelude RustStr StreamText InlineHiddenTag Citation TaggedLine ProposedPlan.

Record AssistantTextChunk := mk_achunk {
  a_visible_text : rstring;
  a_citations : list rstring;
  a_plan_segments : list ProposedPlanSegment
}.
Definition achunk_default : AssistantTextChunk := mk_achunk [] [] [].
Definition achunk_is_empty (c : AssistantTextChunk) : bool :=
  bool_decide (a_visible_text c = []) && bool_decide (a_citations c = [])
  && bool_decide (length (a_plan_segments c) = 0).

Record AssistantTextStreamParser := mk_assistant {
  plan_mode : bool;
  citations : CitationStreamParser;
  plan : ProposedPlanParser
}.
Definition assistant_new (mode : bool) : AssistantTextStreamParser :=
  mk_assistant mode citation_parser0 plan_new.

(** [parse_visible_text] returns the plan parser it leaves behind. *)
Definition parse_visible_text (p : AssistantTextStreamParser) (text : rstring)
    : ProposedPlanParser * AssistantTextChunk :=
  if plan_mode p then
    let '(plan', c) := plan_push_str (plan p) text in
    (plan', mk_achunk (visible_text c) [] (extracted c))
  else (plan p, mk_achunk text [] []).

Definition assistant_push_str (p : AssistantTextStreamParser) (chunk : rstring)
    : option (AssistantTextStreamParser * AssistantTextChunk) :=
  '(cit, c) ← citation_push_str (citations p) chunk;
  let '(plan', out) := parse_visible_text p (visible_text c) in
  Some (mk_assistant (plan_mode p) cit plan',
        mk_achunk (a_visible_text out) (extracted c) (a_plan_segments out)).

Definition assistant_finish (p : AssistantTextStreamParser) : AssistantTextStreamParser * AssistantTextChunk :=
  let '(cit, c) := citation_finish (citations p) in
  let '(plan', out) := parse_visible_text p (visible_text c) in
  let '(plan', out) :=
    if plan_mode p then
      let '(plan2, tail) := plan_finish plan' in
      (plan2, if chunk_is_empty tail then out
              else mk_achunk (a_visible_text out ++ visible_text tail) (a_citations out)
                             (a_plan_segments out ++ extracted tail))
    else (plan', out) in
  (mk_assistant (plan_mode p) cit plan',
   mk_achunk (a_visible_text out) (extracted c) (a_plan_segments out)).

(** A whole response: deltas, then the final flush. *)
Definition achunk_app (a b : AssistantTextChunk) : AssistantTextChunk :=
  mk_achunk (a_visible_text a ++ a_visible_text b) (a_citations a ++ a_citations b)
            (a_plan_segments a ++ a_plan_segments b).
Fixpoint assistant_push_all (p : AssistantTextStreamParser) (chunks : list rstring)
    : option (AssistantTextStreamParser * AssistantTextChunk) :=
  match chunks with
  | [] => Some (p, achunk_default)
  | s :: rest =>
      '(p1, o1) ← assistant_push_str p s;
      '(p2, o2) ← assistant_push_all p1 rest;
      Some (p2, achunk_app o1 o2)
  end.
Definition assistant_collect (p : AssistantTextStreamParser) (chunks : list rstring)
    : option AssistantTextChunk :=
  '(p1, o1) ← assistant_push_all p chunks;
  Some (achunk_app o1 (assistant_finish p1).2).

(** Without an empty-tail shortcut [finish] appends the plan parser's flush. *)
Lemma append_tail out tail :
  (if chunk_is_empty tail then out
   else mk_achunk (a_visible_text out ++ visible_text tail) (a_citations out)
                  (a_plan_segments out ++ extracted tail)) =
  mk_achunk (a_visible_text out ++ visible_text tail) (a_citations out)
            (a_plan_segments out ++ extracted tail).
Proof.
  destruct (chunk_is_empty tail) eqn:E; [|done]. apply chunk_is_empty_spec in E as ->.
  destruct out. cbn. by rewrite !app_nil_r.
Qed.

(** The two stages of a run, separated: the texts the citation stage leaves
    visible, chunk by chunk, are the chunks of the plan stage. *)
Lemma stages_push_all p chunks :
  parser_wf (citations p) →
  ∃ cit vs cs, push_all (citations p) chunks = Some (cit, mk_chunk (concat vs) cs) ∧
    parser_wf cit ∧
    assistant_push_all p chunks =
      if plan_mode p then
        '(plan', out) ← push_all (plan p) vs;
        Some (mk_assistant true cit plan', mk_achunk (visible_text out) cs (extracted out))
      else Some (mk_assistant false cit (plan p), mk_achunk (concat vs) cs []).
Proof.
  revert p. induction chunks as [|s rest IH]; intros [mode ci pl] Hwf; cbn [plan_mode citations plan] in *.
  { exists ci, [], []. split_and!; [done|done|]. by destruct mode. }
  destruct (push_ok ci s Hwf) as (ci1 & c & E & Hwf1).
  pose (pl1 := if mode then (plan_push_str pl (visible_text c)).1 else pl).
  destruct (IH (mk_assistant mode ci1 pl1) Hwf1) as (cit & vs & cs & E1 & Hcit & E2). cbn [citations plan plan_mode] in *.
  exists cit, (visible_text c :: vs), (extracted c ++ cs). split_and!; [|done|].
  - cbn [push_all]. rewrite E. cbn. by rewrite E1.
  - cbn [assistant_push_all]. unfold assistant_push_str. cbn [citations].
    change (citation_push_str ci s) with (push_str ci s). rewrite E. cbn [mbind option_bind].
    unfold parse_visible_text. cbn [plan_mode plan]. unfold pl1 in E2. destruct mode.
    + cbn [push_all push_str Plan_parser]. cbn [mbind option_bind]. destruct (plan_push_str pl (visible_text c)) as [pl' o].
      cbn [fst mbind option_bind] in *. rewrite E2. destruct (push_all pl' vs) as [[plan' o']|]; cbn; done.
    + cbn [mbind option_bind]. rewrite E2. done.
Qed.

(** A response fed in any chunks is processed as two whole-text passes: the
    citations are those [strip_citations] extracts from the concatenation,
    and the visible text is what that leaves, less (in plan mode) the lines
    of plan blocks, whose events come out in order. *)
Theorem assistant_text_two_passes (mode : bool) (chunks : list rstring) :
  ∃ v cs out, strip_citations (concat chunks) = Some (v, cs) ∧
    assistant_collect (assistant_new mode) chunks = Some out ∧
    a_citations out = cs ∧
    a_visible_text out = (if mode then strip_proposed_plan_blocks v else v) ∧
    plan_events (a_plan_segments out) = if mode then plan_spec v else [].
Proof.
  destruct (stages_push_all (assistant_new mode) chunks citation_parser0_wf) as (cit & vs & cs & E1 & Hcit & E2).
  cbn [citations assistant_new plan_mode plan] in *.
  destruct (push_all_concat citation_parser0 chunks citation_parser0_wf) as (cit' & o & o' & F1 & F2 & Heq & _).
  rewrite E1 in F1. injection F1 as <- <-. change (mk_chunk (concat vs) cs = o') in Heq. subst o'.
  unfold strip_citations. rewrite citation_new_ok.
  change (citation_push_str citation_parser0 (concat chunks)) with (push_str citation_parser0 (concat chunks)).
  rewrite F2. cbn [mbind option_bind]. unfold assistant_collect. rewrite E2.
  destruct (citation_finish cit) as [cit2 tl] eqn:Ef. cbn [visible_text extracted].
  eexists _, _. destruct mode.
  - destruct (plan_collect (vs ++ [visible_text tl])) as (out & Eo & Hv & Hx).
    rewrite concat_app in Hv, Hx. cbn [concat] in Hv, Hx. rewrite app_nil_r in Hv, Hx.
    unfold collect in Eo. rewrite push_all_snoc in Eo.
    destruct (push_all plan_new vs) as [[pl1 po]|]; [|done]. cbn [mbind option_bind push_str Plan_parser] in *.
    unfold assistant_finish. cbn [citations]. rewrite Ef. unfold parse_visible_text. cbn [plan_mode plan].
    destruct (plan_push_str pl1 (visible_text tl)) as [pl2 po2]. injection Eo as <-.
    destruct (plan_finish pl2) as [pl3 ptl]. rewrite append_tail. eexists. split_and!; [done|done|done| |].
    + rewrite strip_spec, <- Hv. cbn. by rewrite !app_assoc.
    + rewrite <- Hx. cbn. by rewrite !app_assoc.
  - cbn [mbind option_bind]. unfold assistant_finish. cbn [citations]. rewrite Ef.
    eexists. split_and!; done.
Qed.
