(* ===== verification/Utf8Stream.v ===== *)
(** * Byte streams ([utils/stream-parser/src/utf8_stream.rs])

    The adapter that feeds any [StreamTextParser] from raw bytes, holding back
    a code point that is cut by a chunk boundary.  Its theorems are proved
    against the laws of the wrapped parser ([StreamLaws]), not against one
    parser. *)
From S2P Require Import Prelude RustStr Utf8 StreamText InlineHiddenTag Citation.

Inductive Utf8StreamParserError :=
| InvalidUtf8 (err_valid_up_to : nat) (err_error_len : nat)
| IncompleteUtf8AtEof.

Record Utf8StreamParser (P : Type) := mk_utf8 { u_inner : P; pending_utf8 : list byte }.
Arguments mk_utf8 {P} _ _.
Arguments u_inner {P} _.
Arguments pending_utf8 {P} _.

Section utf8_stream.
Context {P T : Type} `{StreamTextParser P T}.

Definition utf8_new (inner : P) : Utf8StreamParser P := mk_utf8 inner [].

(** [push_bytes] returns the parser it leaves behind, also with an error. *)
Definition push_bytes (p : Utf8StreamParser P) (chunk : list byte)
    : option (Utf8StreamParser P * (StreamTextChunk T + Utf8StreamParserError)) :=
  let old_len := length (pending_utf8 p) in
  let pending := pending_utf8 p ++ chunk in
  match from_utf8 pending with
  | inl text =>
      '(inner, out) ← push_str (u_inner p) text;
      Some (mk_utf8 inner [], inl out)
  | inr err =>
      match error_len err with
      | Some len => Some (mk_utf8 (u_inner p) (take old_len pending), inr (InvalidUtf8 (valid_up_to err) len))
      | None =>
          let upto := valid_up_to err in
          if (upto =? 0)%nat then Some (mk_utf8 (u_inner p) pending, inl chunk_default)
          else
            match from_utf8 (take upto pending) with
            | inl text =>
                '(inner, out) ← push_str (u_inner p) text;
                Some (mk_utf8 inner (drop upto pending), inl out)
            | inr prefix_err =>
                Some (mk_utf8 (u_inner p) (take old_len pending),
                      inr (InvalidUtf8 (valid_up_to prefix_err) (default 0 (error_len prefix_err))))
            end
      end
  end.

Definition utf8_finish (p : Utf8StreamParser P)
    : option (Utf8StreamParser P * (StreamTextChunk T + Utf8StreamParserError)) :=
  let flush (inner : P) (out : StreamTextChunk T) :=
    let '(inner, tail) := finish inner in
    Some (mk_utf8 inner [], inl (out +++ tail)) in
  if bool_decide (pending_utf8 p = []) then flush (u_inner p) chunk_default
  else
    match from_utf8 (pending_utf8 p) with
    | inr err =>
        Some (p, inr (match error_len err with
                      | Some len => InvalidUtf8 (valid_up_to err) len
                      | None => IncompleteUtf8AtEof
                      end))
    | inl text => '(inner, out) ← push_str (u_inner p) text; flush inner out
    end.

Definition into_inner (p : Utf8StreamParser P) : P + Utf8StreamParserError :=
  if bool_decide (pending_utf8 p = []) then inl (u_inner p)
  else match from_utf8 (pending_utf8 p) with
       | inl _ => inl (u_inner p)
       | inr err => inr (match error_len err with
                         | Some len => InvalidUtf8 (valid_up_to err) len
                         | None => IncompleteUtf8AtEof
                         end)
       end.
Definition into_inner_lossy (p : Utf8StreamParser P) : P := u_inner p.

(** A run: what each chunk yields; a rejected chunk is skipped, as a caller
    that goes on after an error does. *)
Fixpoint push_bytes_all (p : Utf8StreamParser P) (chunks : list (list byte))
    : option (Utf8StreamParser P * StreamTextChunk T * list (list byte)) :=
  match chunks with
  | [] => Some (p, chunk_default, [])
  | c :: rest =>
      '(p1, r) ← push_bytes p c;
      '(p2, out, accepted) ← push_bytes_all p1 rest;
      Some (p2, match r with inl o => o +++ out | inr _ => out end,
            match r with inl _ => c :: accepted | inr _ => accepted end)
  end.
End utf8_stream.

(** Bytes that wait for more: nothing, or the start of one sequence. *)
Definition incomplete (bs : list byte) : Prop := bs = [] ∨ utf8_step bs = SMore.

Lemma incomplete_length bs : incomplete bs → length bs ≤ 3.
Proof. intros [->|E]; [cbn; lia|]. apply utf8_step_SMore in E. lia. Qed.

Lemma validate_app_incomplete pending cs k :
  validate pending = (cs, k, Some None) → incomplete (drop k pending).
Proof. intros (_ & _ & _ & E)%validate_sound. right. by apply validate_stuck in E. Qed.

(** A prefix of valid UTF-8 is never rejected. *)
Lemma validate_prefix_good s bs t cs k n :
  utf8 s = bs ++ t → Forall is_scalar s → validate bs = (cs, k, Some (Some n)) → False.
Proof.
  intros E Hs Hv. pose proof (validate_sound _ _ _ _ Hv) as (H1 & _ & Hcs & H2).
  apply validate_stuck in H2. apply (utf8_step_SBad_app _ _ t) in H2. apply validate_SBad in H2.
  pose proof (validate_encode s Hs) as Hg. rewrite E, H1, <- app_assoc, validate_encode_app, H2 in Hg by done.
  done.
Qed.

Section utf8_laws.
Context {P T : Type} `{StreamLaws P T}.
Implicit Types p : Utf8StreamParser P.

(** [push_bytes] is [push_str] of the longest valid prefix, unless the rest is bad. *)
Lemma push_bytes_spec p chunk cs k e :
  parser_wf (u_inner p) → validate (pending_utf8 p ++ chunk) = (cs, k, e) →
  push_bytes p chunk =
    match e with
    | Some (Some n) => Some (p, inr (InvalidUtf8 k n))
    | _ => '(inner, out) ← push_str (u_inner p) cs;
           Some (mk_utf8 inner (drop k (pending_utf8 p ++ chunk)), inl out)
    end.
Proof.
  intros Hwf Hv. unfold push_bytes, from_utf8. rewrite Hv.
  pose proof (validate_sound _ _ _ _ Hv) as (H1 & H2 & H3 & H4).
  destruct e as [[n|]|]; cbn [error_len valid_up_to].
  - rewrite take_app_length. by destruct p.
  - destruct (Nat.eqb_spec k 0) as [Hk|Hk].
    + assert (cs = []) as ->.
      { destruct cs as [|c cs]; [done|]. exfalso. rewrite Hk in H2. revert H2.
        rewrite utf8_cons, length_app. unfold utf8_char. repeat case_scrutinee; cbn; lia. }
      rewrite push_nil by done. cbn. by rewrite Hk, drop_0.
    + assert (take k (pending_utf8 p ++ chunk) = utf8 cs) as ->
        by (rewrite H1, H2; apply take_app_length).
      by rewrite validate_encode by done.
  - rewrite drop_ge; [done|]. by rewrite (validate_None _ _ _ Hv), H2.
Qed.

(** The bookkeeping of a run: accepted bytes are what the inner parser has
    been fed, encoded, and what is pending. *)
Lemma push_bytes_all_spec p chunks :
  parser_wf (u_inner p) → incomplete (pending_utf8 p) →
  ∃ p' out accepted texts,
    push_bytes_all p chunks = Some (p', out, accepted) ∧
    push_all (u_inner p) texts = Some (u_inner p', out) ∧
    pending_utf8 p ++ concat accepted = utf8 (concat texts) ++ pending_utf8 p' ∧
    Forall is_scalar (concat texts) ∧ incomplete (pending_utf8 p') ∧ parser_wf (u_inner p').
Proof.
  revert p. induction chunks as [|c rest IH]; intros p Hwf Hinc.
  { exists p, chunk_default, [], []. cbn. rewrite app_nil_r. split_and!; try done. }
  destruct (validate (pending_utf8 p ++ c)) as [[cs k] e] eqn:Hv.
  pose proof (push_bytes_spec _ _ _ _ _ Hwf Hv) as E. cbn [push_bytes_all].
  pose proof (validate_sound _ _ _ _ Hv) as (H1 & H2 & H3 & _).
  destruct (push_ok (u_inner p) cs Hwf) as (inner & o & Eo & Hwf').
  assert (e = Some None ∨ e = None → push_bytes p c = Some (mk_utf8 inner (drop k (pending_utf8 p ++ c)), inl o)) as E'.
  { intros He. rewrite E, Eo. destruct He as [->| ->]; done. }
  assert (e = Some None ∨ e = None → incomplete (drop k (pending_utf8 p ++ c))) as Hinc'.
  { intros [->| ->]; [by eapply validate_app_incomplete|].
    left. apply drop_ge. rewrite (validate_None _ _ _ Hv), H2. lia. }
  destruct (decide (e = Some None ∨ e = None)) as [He|He].
  - rewrite (E' He). cbn [mbind option_bind].
    destruct (IH (mk_utf8 inner (drop k (pending_utf8 p ++ c))) Hwf' (Hinc' He))
      as (p' & out & acc & texts & -> & F1 & F2 & F3 & F4 & F5). cbn [u_inner pending_utf8] in *.
    exists p', (o +++ out), (c :: acc), (cs :: texts). cbn [push_all concat mbind option_bind].
    rewrite Eo. cbn. rewrite F1. split_and!; try done.
    + rewrite app_assoc, H1, <- app_assoc, F2, utf8_app. by rewrite app_assoc.
    + by apply Forall_app.
  - assert (∃ n, e = Some (Some n)) as [n ->] by (destruct e as [[n|]|]; naive_solver).
    rewrite E. cbn [mbind option_bind].
    destruct (IH p Hwf Hinc) as (p' & out & acc & texts & -> & F).
    by exists p', out, acc, texts.
Qed.

(** No chunk of a valid stream is rejected. *)
Lemma push_bytes_all_valid p chunks s rest :
  parser_wf (u_inner p) → incomplete (pending_utf8 p) → Forall is_scalar s →
  pending_utf8 p ++ concat chunks ++ rest = utf8 s →
  ∃ p' out, push_bytes_all p chunks = Some (p', out, chunks).
Proof.
  revert p s. induction chunks as [|c cks IH]; intros p s Hwf Hinc Hs E; cbn [push_bytes_all].
  { by exists p, chunk_default. }
  destruct (validate (pending_utf8 p ++ c)) as [[cs k] e] eqn:Hv.
  assert (utf8 s = (pending_utf8 p ++ c) ++ concat cks ++ rest) as E'
    by (rewrite <- E; cbn [concat]; by rewrite !app_assoc).
  rewrite (push_bytes_spec _ _ _ _ _ Hwf Hv).
  pose proof (validate_sound _ _ _ _ Hv) as (H1 & H2 & H3 & _).
  destruct (push_ok (u_inner p) cs Hwf) as (inner & o & -> & Hwf').
  assert (∀ n, e ≠ Some (Some n)) as Hn.
  { intros n ->. by eapply validate_prefix_good. }
  assert (incomplete (drop k (pending_utf8 p ++ c))) as Hinc'.
  { destruct e as [[n|]|]; [by destruct (Hn n)|by eapply validate_app_incomplete|].
    left. apply drop_ge. rewrite (validate_None _ _ _ Hv), H2. lia. }
  assert (∃ s', s = cs ++ s' ∧ Forall is_scalar s' ∧ utf8 s' = drop k (pending_utf8 p ++ c) ++ concat cks ++ rest)
    as (s' & -> & Hs' & Es').
  { rewrite H1, <- app_assoc in E'.
    pose proof (validate_encode s Hs) as Hg. rewrite E', validate_encode_app in Hg by done.
    destruct (validate (drop k (pending_utf8 p ++ c) ++ concat cks ++ rest)) as [[cs' k'] e'] eqn:Hr.
    injection Hg as <- _ ->.
    exists cs'. split_and!; [done|by apply validate_sound in Hr as (_ & _ & ? & _)|].
    by apply validate_None in Hr. }
  destruct (IH (mk_utf8 inner (drop k (pending_utf8 p ++ c))) s' Hwf' Hinc' Hs') as (p' & out & E2).
  { cbn [pending_utf8]. by rewrite Es'. }
  destruct e as [[n|]|]; [by destruct (Hn n)| |]; cbn [mbind option_bind]; rewrite E2; eauto.
Qed.

Lemma incomplete_not_valid bs s : incomplete bs → utf8 s = bs → Forall is_scalar s → s = [].
Proof using Type.
  intros [->|E] Hs Hf.
  - destruct s as [|c s]; [done|]. rewrite utf8_cons in Hs. apply (f_equal length) in Hs.
    revert Hs. rewrite length_app. unfold utf8_char. repeat case_scrutinee; cbn; lia.
  - apply validate_SMore in E. rewrite <- Hs, validate_encode in E by done. done.
Qed.
End utf8_laws.

(** ** Properties *)
Section utf8_properties.
Context {P T : Type} `{StreamLaws P T}.

(** C38: the bytes of a valid text, cut anywhere (inside code points too), are
    never rejected, and the run yields what the wrapped parser yields on the
    text itself. *)
Theorem utf8_stream_refines_text (p0 : P) (chunks : list (list byte)) (s : rstring) :
  parser_wf p0 → Forall is_scalar s → concat chunks = utf8 s →
  ∃ p out p' tail expected,
    push_bytes_all (utf8_new p0) chunks = Some (p, out, chunks) ∧
    utf8_finish p = Some (p', inl tail) ∧
    collect p0 [s] = Some expected ∧ out_equiv (out +++ tail) expected.
Proof.
  intros Hwf Hs Hc.
  assert (incomplete []) as Hi by by left.
  destruct (push_bytes_all_valid (utf8_new p0) chunks s [] Hwf Hi Hs) as (p & out & E).
  { cbn. by rewrite app_nil_r. }
  destruct (push_bytes_all_spec (utf8_new p0) chunks Hwf Hi) as (p2 & out2 & acc & texts & E' & F1 & F2 & F3 & F4 & F5).
  rewrite E in E'. injection E' as <- <- <-. cbn [pending_utf8 utf8_new app u_inner] in *.
  rewrite Hc in F2.
  assert (validate (utf8 (concat texts) ++ pending_utf8 p) = (s, length (utf8 s), None)) as Hv
    by (rewrite <- F2; by apply validate_encode).
  rewrite validate_encode_app in Hv by done.
  assert (pending_utf8 p = []) as Hp.
  { destruct F4 as [?|E2]; [done|]. by rewrite (validate_SMore _ E2) in Hv. }
  rewrite Hp in Hv. injection Hv as Hv _. rewrite app_nil_r in Hv.
  destruct (finish (u_inner p)) as [inner tail] eqn:Ef.
  assert (utf8_finish p = Some (mk_utf8 inner [], inl tail)) as Hfin.
  { unfold utf8_finish. by rewrite bool_decide_eq_true_2, Ef, chunk_app_default_l. }
  destruct (collect_concat p0 texts [s] Hwf) as (o1 & o2 & C1 & C2 & Heq); [cbn; by rewrite app_nil_r|].
  unfold collect in C1. rewrite F1 in C1. cbn in C1. rewrite Ef in C1. injection C1 as <-.
  by exists p, out, (mk_utf8 inner []), tail, o2.
Qed.

(** Whatever bytes arrive, every accepted byte is accounted for: it was
    fed to the wrapped parser as text or it is pending, at most three bytes
    of one unfinished code point.  [finish] fails exactly when such bytes
    are left, and leaves the parser as it was then; so does [into_inner]. *)
Theorem utf8_stream_accounts_for_bytes (p0 : P) (chunks : list (list byte)) :
  parser_wf p0 →
  ∃ p out accepted texts,
    push_bytes_all (utf8_new p0) chunks = Some (p, out, accepted) ∧
    push_all p0 texts = Some (u_inner p, out) ∧
    concat accepted = utf8 (concat texts) ++ pending_utf8 p ∧
    length (pending_utf8 p) ≤ 3 ∧
    (if decide (pending_utf8 p = [])
     then into_inner p = inl (u_inner p) ∧
          utf8_finish p = Some (mk_utf8 (finish (u_inner p)).1 [], inl (finish (u_inner p)).2)
     else into_inner p = inr IncompleteUtf8AtEof ∧
          utf8_finish p = Some (p, inr IncompleteUtf8AtEof)).
Proof.
  intros Hwf. assert (incomplete []) as Hi by by left.
  destruct (push_bytes_all_spec (utf8_new p0) chunks Hwf Hi) as (p & out & acc & texts & E & F1 & F2 & F3 & F4 & F5).
  exists p, out, acc, texts. split_and!; [done|done|done|by apply incomplete_length|].
  unfold into_inner, utf8_finish. case_decide as Hp.
  - rewrite bool_decide_eq_true_2 by done. destruct (finish _) as [inner tail].
    by rewrite chunk_app_default_l.
  - rewrite bool_decide_eq_false_2 by done. destruct F4 as [?|E2]; [done|].
    unfold from_utf8. by rewrite (validate_SMore _ E2).
Qed.

(** A chunk that makes the buffered bytes invalid is reported with the
    offset of the bad sequence and rolled back entirely: the parser is
    the one before the call. *)
Theorem utf8_invalid_chunk_rolls_back (p : Utf8StreamParser P) (chunk : list byte) :
  parser_wf (u_inner p) →
  (∃ k n, push_bytes p chunk = Some (p, inr (InvalidUtf8 k n)) ∧
          (∃ s, take k (pending_utf8 p ++ chunk) = utf8 s) ∧
          utf8_step (drop k (pending_utf8 p ++ chunk)) = SBad n) ∨
  (∃ p' out, push_bytes p chunk = Some (p', inl out) ∧
             ∀ k n s, take k (pending_utf8 p ++ chunk) = utf8 s → Forall is_scalar s →
                      utf8_step (drop k (pending_utf8 p ++ chunk)) ≠ SBad n).
Proof.
  intros Hwf. destruct (validate (pending_utf8 p ++ chunk)) as [[cs k] e] eqn:Hv.
  pose proof (push_bytes_spec _ _ _ _ _ Hwf Hv) as E.
  pose proof (validate_sound _ _ _ _ Hv) as (H1 & H2 & H3 & H4).
  destruct (push_ok (u_inner p) cs Hwf) as (inner & o & Eo & Hwf').
  assert ((∃ n, e = Some (Some n)) ∨ ∀ n, e ≠ Some (Some n)) as [[n ->]|Hn]
    by (destruct e as [[]|]; naive_solver).
  - left. exists k, n. split_and!; [done| |by apply validate_stuck in H4].
    exists cs. rewrite H1, H2. apply take_app_length.
  - right. exists (mk_utf8 inner (drop k (pending_utf8 p ++ chunk))), o. split.
    + rewrite E, Eo. destruct e as [[n|]|]; [by destruct (Hn n)|done|done].
    + intros k' n s Hk Hs Hbad. apply validate_SBad in Hbad.
      rewrite <- (take_drop k' (pending_utf8 p ++ chunk)), Hk, validate_encode_app, Hbad in Hv by done.
      injection Hv as _ _ <-. by destruct (Hn n).
Qed.
End utf8_properties.

(** [é] cut in the middle, before a citation. *)
Lemma utf8_stream_refines_text_witness :
  ∃ p out p' tail expected,
    push_bytes_all (utf8_new citation_parser0) [[0xC3%N]; 0xA9%N :: utf8 CITATION_OPEN; [97%N]] =
      Some (p, out, [[0xC3%N]; 0xA9%N :: utf8 CITATION_OPEN; [97%N]]) ∧
    utf8_finish p = Some (p', inl tail) ∧
    collect citation_parser0 [0xE9%N :: CITATION_OPEN ++ lit "a"] = Some expected ∧
    out_equiv (out +++ tail) expected.
Proof.
  apply (utf8_stream_refines_text citation_parser0
    [[0xC3%N]; 0xA9%N :: utf8 CITATION_OPEN; [97%N]] (0xE9%N :: CITATION_OPEN ++ lit "a")).
  - exact citation_parser0_wf.
  - apply Forall_forall. intros c Hc. left.
    assert (forallb (λ c, c <? 0xD800)%N (0xE9%N :: CITATION_OPEN ++ lit "a") = true) as Hb by reflexivity.
    rewrite forallb_forall in Hb. apply N.ltb_lt, Hb. by apply list_elem_of_In.
  - reflexivity.
Defined.

Lemma utf8_stream_accounts_for_bytes_witness :
  ∃ p out accepted texts,
    push_bytes_all (utf8_new citation_parser0) [[97%N]; [0xFF%N]; [0xE2%N; 0x82%N]] = Some (p, out, accepted) ∧
    push_all citation_parser0 texts = Some (u_inner p, out) ∧
    concat accepted = utf8 (concat texts) ++ pending_utf8 p ∧
    length (pending_utf8 p) ≤ 3 ∧
    (if decide (pending_utf8 p = [])
     then into_inner p = inl (u_inner p) ∧
          utf8_finish p = Some (mk_utf8 (finish (u_inner p)).1 [], inl (finish (u_inner p)).2)
     else into_inner p = inr IncompleteUtf8AtEof ∧
          utf8_finish p = Some (p, inr IncompleteUtf8AtEof)).
Proof.
  apply (utf8_stream_accounts_for_bytes citation_parser0 [[97%N]; [0xFF%N]; [0xE2%N; 0x82%N]]).
  exact citation_parser0_wf.
Defined.

Lemma utf8_invalid_chunk_rolls_back_witness :
  let p := mk_utf8 citation_parser0 [0xE2%N] in
  (∃ k n, push_bytes p [0x28%N] = Some (p, inr (InvalidUtf8 k n)) ∧
          (∃ s, take k (pending_utf8 p ++ [0x28%N]) = utf8 s) ∧
          utf8_step (drop k (pending_utf8 p ++ [0x28%N])) = SBad n) ∨
  (∃ p' out, push_bytes p [0x28%N] = Some (p', inl out) ∧
             ∀ k n s, take k (pending_utf8 p ++ [0x28%N]) = utf8 s → Forall is_scalar s →
                      utf8_step (drop k (pending_utf8 p ++ [0x28%N])) ≠ SBad n).
Proof. intros p. apply (utf8_invalid_chunk_rolls_back p [0x28%N]). exact citation_parser0_wf. Defined.
