(* ===== verification/SeekSequence.v ===== *)
(** * Locating context lines ([apply-patch/src/seek_sequence.rs])

    [seek_sequence] runs four passes of decreasing strictness over the lines of
    a file.  Slicing and indexing can panic in Rust, so they return an
    [outcome] here; the theorems show that they never do and say which
    position is found. *)
From S2P Require Import Prelude RustStr.

(** Slicing [&v[i..j]]. *)
Definition slice {E A} (l : list A) (i j : nat) : outcome E (list A) :=
  if (i <=? j) && (j <=? length l) then Ok (take (j - i) (drop i l)) else Panic.

(** [for i in i..i + n]: the first index whose test succeeds. *)
Fixpoint first_index {E} (test : nat → outcome E bool) (n i : nat) : outcome E (option nat) :=
  match n with
  | 0 => Ok None
  | S n => let? ok : bool := test i in if ok then Ok (Some i) else first_index test n (S i)
  end.

(** The loop [for (p_idx, pat) in pattern.iter().enumerate()], with its break. *)
Fixpoint lines_match {E} (same : rstring → rstring → bool) (lines : list rstring) (i : nat)
    (pattern : list rstring) : outcome E bool :=
  match pattern with
  | [] => Ok true
  | pat :: rest =>
      let? line := index lines i in
      if same line pat then lines_match same lines (S i) rest else Ok false
  end.

Definition normalise_char (c : char) : char :=
  (if existsb (N.eqb c) [0x2010; 0x2011; 0x2012; 0x2013; 0x2014; 0x2015; 0x2212]%N then chr "-"
   else if existsb (N.eqb c) [0x2018; 0x2019; 0x201A; 0x201B]%N then chr "'"
   else if existsb (N.eqb c) [0x201C; 0x201D; 0x201E; 0x201F]%N then 34%N
   else if existsb (N.eqb c) [0x00A0; 0x2002; 0x2003; 0x2004; 0x2005; 0x2006; 0x2007; 0x2008;
                              0x2009; 0x200A; 0x202F; 0x205F; 0x3000]%N then chr " "
   else c).
Definition normalise (s : rstring) : rstring := normalise_char <$> trim s.

Definition same_exact (a b : rstring) : bool := bool_decide (a = b).
Definition same_rstrip (a b : rstring) : bool := bool_decide (trim_end a = trim_end b).
Definition same_trim (a b : rstring) : bool := bool_decide (trim a = trim b).
Definition same_normalise (a b : rstring) : bool := bool_decide (normalise a = normalise b).

Definition search_start (lines pattern : list rstring) (start : nat) (eof : bool) : nat :=
  if eof && (length pattern <=? length lines) then length lines - length pattern else start.

Definition seek_sequence {E} (lines pattern : list rstring) (start : nat) (eof : bool)
    : outcome E (option nat) :=
  if bool_decide (pattern = []) then Ok (Some start)
  else if length lines <? length pattern then Ok None
  else
    let from := search_start lines pattern start eof in
    let count := S (length lines - length pattern) - from in
    let fuzzy same := first_index (λ i, lines_match same lines i pattern) count from in
    let? exact := first_index (λ i,
      let? window := slice lines i (i + length pattern) in
      Ok (bool_decide (window = pattern))) count from in
    match exact with
    | Some i => Ok (Some i)
    | None =>
        let? rstrip := fuzzy same_rstrip in
        match rstrip with
        | Some i => Ok (Some i)
        | None =>
            let? trimmed := fuzzy same_trim in
            match trimmed with
            | Some i => Ok (Some i)
            | None => fuzzy same_normalise
            end
        end
    end.

(** ** What the passes compute *)

(** The lines from [i] on begin with the pattern, up to [same]. *)
Definition matches_at (same : rstring → rstring → bool) (lines pattern : list rstring) (i : nat) : Prop :=
  Forall2 (λ l p, same l p = true) (take (length pattern) (drop i lines)) pattern.

#[global] Instance matches_at_dec same lines pattern i : Decision (matches_at same lines pattern i).
Proof. unfold matches_at. apply Forall2_dec. intros l p. apply _. Defined.

Lemma matches_at_bound same lines pattern i :
  matches_at same lines pattern i → pattern ≠ [] → i + length pattern ≤ length lines.
Proof.
  intros H Hne. apply Forall2_length in H. rewrite length_take, length_drop in H.
  destruct pattern; [done|]. cbn [length] in *. lia.
Qed.

Lemma first_index_spec {E} (test : nat → outcome E bool) (P : nat → Prop) n i :
  (∀ j, i ≤ j < i + n → ∃ b, test j = Ok b ∧ (b = true ↔ P j)) →
  ∃ r, first_index test n i = Ok r ∧
    match r with
    | Some k => i ≤ k < i + n ∧ P k ∧ ∀ j, i ≤ j < k → ¬ P j
    | None => ∀ j, i ≤ j < i + n → ¬ P j
    end.
Proof.
  revert i. induction n as [|n IH]; intros i Ht; cbn [first_index].
  { exists None. split; [done|]. lia. }
  destruct (Ht i) as ([] & -> & Hb); [lia| |]; cbn [mbind outcome_bind].
  - exists (Some i). split; [done|]. split_and!; [lia|lia|by apply Hb|lia].
  - destruct (IH (S i)) as (r & -> & Hr); [intros j ?; apply Ht; lia|].
    exists r. split; [done|]. assert (¬ P i) as Hi by (rewrite <- Hb; done).
    assert (∀ m, (∀ j, S i ≤ j < m → ¬ P j) → ∀ j, i ≤ j < m → ¬ P j) as Hext.
    { intros m Hm j Hj. destruct (decide (j = i)) as [->|]; [done|]. apply Hm. lia. }
    destruct r as [k|].
    + destruct Hr as (? & ? & Hn). split_and!; [lia|lia|done|by apply Hext].
    + replace (i + S n) with (S i + n) by lia. by apply Hext.
Qed.

Lemma lines_match_spec {E} same lines pattern i :
  i + length pattern ≤ length lines →
  ∃ b, lines_match (E:=E) same lines i pattern = Ok b ∧ (b = true ↔ matches_at same lines pattern i).
Proof.
  revert i. induction pattern as [|pat rest IH]; intros i Hi; cbn [lines_match].
  { exists true. split; [done|]. split; [|done]. intros _. by unfold matches_at. }
  cbn [length] in Hi. destruct (lookup_lt_is_Some_2 lines i) as [line Hl]; [lia|].
  unfold index. rewrite Hl. cbn [mbind outcome_bind].
  assert (matches_at same lines (pat :: rest) i ↔ same line pat = true ∧ matches_at same lines rest (S i)) as Hm.
  { unfold matches_at. cbn [length]. rewrite (drop_S _ _ _ Hl). cbn [take].
    split; [by inversion 1|intros [? ?]; by constructor]. }
  destruct (IH (S i)) as (b & Eb & Hb); [lia|]. destruct (same line pat) eqn:Es.
  - exists b. rewrite Eb, Hm, Hb. naive_solver.
  - exists false. rewrite Hm. naive_solver.
Qed.

Lemma slice_exact {E} lines pattern i :
  i + length pattern ≤ length lines →
  ∃ b, (let? window := slice (E:=E) lines i (i + length pattern) in
        Ok (bool_decide (window = pattern))) = Ok b ∧
       (b = true ↔ matches_at same_exact lines pattern i).
Proof.
  intros Hi. unfold slice. rewrite (proj2 (Nat.leb_le _ _)), (proj2 (Nat.leb_le _ _)) by lia. cbn.
  eexists. split; [done|]. rewrite bool_decide_eq_true.
  replace (i + length pattern - i) with (length pattern) by lia. unfold matches_at, same_exact.
  generalize (take (length pattern) (drop i lines)) as w. clear. split.
  - intros ->. apply Forall2_same_length_lookup_2; [done|]. intros k a b Ha Hb.
    simplify_eq. by apply bool_decide_eq_true.
  - induction 1 as [|a b w p Hab _ IH]; [done|]. apply bool_decide_eq_true in Hab. by f_equal.
Qed.

(** The passes in order, strictest first. *)
Definition passes : list (rstring → rstring → bool) :=
  [same_exact; same_rstrip; same_trim; same_normalise].

(** Each pass accepts what the stricter ones accept. *)
Lemma passes_weaken a b :
  (same_exact a b = true → same_rstrip a b = true) ∧
  (same_rstrip a b = true → same_trim a b = true) ∧
  (same_trim a b = true → same_normalise a b = true).
Proof.
  unfold same_exact, same_rstrip, same_trim, same_normalise. rewrite !bool_decide_eq_true.
  split_and!; [by intros ->| |by unfold normalise; intros ->].
  intros H. by rewrite <- (trim_trim_end a), <- (trim_trim_end b), H.
Qed.

Lemma matches_weaken lines pattern i (k : nat) same same' :
  passes !! k = Some same → passes !! S k = Some same' →
  matches_at same lines pattern i → matches_at same' lines pattern i.
Proof.
  intros Hk Hk' H. unfold matches_at. eapply Forall2_impl; [exact H|]. intros a b Hab. cbn in *.
  destruct (passes_weaken a b) as (W1 & W2 & W3).
  destruct k as [|[|[|[|k]]]]; cbn in Hk, Hk'; simplify_eq; auto.
Qed.

(** Whatever pass finds a match, the last one would accept it too. *)
Lemma matches_normalise lines pattern i same :
  same ∈ passes → matches_at same lines pattern i → matches_at same_normalise lines pattern i.
Proof.
  intros Hs H. unfold passes in Hs. rewrite !elem_of_cons, elem_of_nil in Hs.
  pose proof (λ k s s', matches_weaken lines pattern i k s s') as W.
  destruct Hs as [->|[->|[->|[->|[]]]]]; [| | |done].
  - eapply (W 2), (W 1), (W 0), H; reflexivity.
  - eapply (W 2), (W 1), H; reflexivity.
  - eapply (W 2), H; reflexivity.
Qed.

(** The position [seek_sequence] promises: the least one, from [from] on, of
    the strictest pass that has any. *)
Definition found_at (lines pattern : list rstring) (from : nat) (r : option nat) : Prop :=
  match r with
  | Some i => from ≤ i ∧ ∃ k same, passes !! k = Some same ∧ matches_at same lines pattern i ∧
      (∀ j, from ≤ j < i → ¬ matches_at same lines pattern j) ∧
      (∀ k' same' j, k' < k → passes !! k' = Some same' → from ≤ j → ¬ matches_at same' lines pattern j)
  | None => ∀ same j, same ∈ passes → from ≤ j → ¬ matches_at same lines pattern j
  end.

Lemma first_pass {E} lines pattern from (test : nat → outcome E bool) same :
  pattern ≠ [] → length pattern ≤ length lines →
  (∀ i, i + length pattern ≤ length lines →
     ∃ b, test i = Ok b ∧ (b = true ↔ matches_at same lines pattern i)) →
  ∃ r, first_index test (S (length lines - length pattern) - from) from = Ok r ∧
    match r with
    | Some i => from ≤ i ∧ matches_at same lines pattern i ∧
                ∀ j, from ≤ j < i → ¬ matches_at same lines pattern j
    | None => ∀ j, from ≤ j → ¬ matches_at same lines pattern j
    end.
Proof.
  intros Hne Hle Htest.
  destruct (first_index_spec test (matches_at same lines pattern)
    (S (length lines - length pattern) - from) from) as (r & E1 & Hr).
  { intros j Hj. apply Htest. lia. }
  exists r. split; [done|]. destruct r as [i|].
  - destruct Hr as (? & ? & ?). split_and!; [lia|done|done].
  - intros j Hj Hm. pose proof (matches_at_bound _ _ _ _ Hm Hne). apply (Hr j); [lia|done].
Qed.

Lemma seek_sequence_found {E} lines pattern start eof :
  pattern ≠ [] →
  ∃ r, seek_sequence (E:=E) lines pattern start eof = Ok r ∧
       found_at lines pattern (search_start lines pattern start eof) r.
Proof.
  intros Hne. unfold seek_sequence. rewrite bool_decide_eq_false_2 by done.
  destruct (Nat.ltb_spec (length lines) (length pattern)) as [Hlt|Hle].
  { exists None. split; [done|]. intros same j _ _ Hm.
    pose proof (matches_at_bound _ _ _ _ Hm Hne). lia. }
  set (from := search_start _ _ _ _).
  destruct (first_pass lines pattern from _ same_exact Hne Hle
              (slice_exact (E:=E) lines pattern)) as (r1 & -> & R1).
  destruct r1 as [i|]; cbn [mbind outcome_bind].
  { destruct R1 as (Hi & Hm & Hl). exists (Some i). split; [done|]. split; [done|].
    exists 0, same_exact. split_and!; [done|done|done|lia]. }
  destruct (first_pass lines pattern from _ same_rstrip Hne Hle
              (lines_match_spec (E:=E) same_rstrip lines pattern)) as (r2 & -> & R2).
  destruct r2 as [i|]; cbn [mbind outcome_bind].
  { destruct R2 as (Hi & Hm & Hl). exists (Some i). split; [done|]. split; [done|].
    exists 1, same_rstrip. split_and!; [done|done|done|].
    intros [|k'] same' j Hk Hs; [|lia]. injection Hs as <-. apply R1. }
  destruct (first_pass lines pattern from _ same_trim Hne Hle
              (lines_match_spec (E:=E) same_trim lines pattern)) as (r3 & -> & R3).
  destruct r3 as [i|]; cbn [mbind outcome_bind].
  { destruct R3 as (Hi & Hm & Hl). exists (Some i). split; [done|]. split; [done|].
    exists 2, same_trim. split_and!; [done|done|done|].
    intros [|[|k']] same' j Hk Hs; [| |lia]; injection Hs as <-; [apply R1|apply R2]. }
  destruct (first_pass lines pattern from _ same_normalise Hne Hle
              (lines_match_spec (E:=E) same_normalise lines pattern)) as (r4 & -> & R4).
  exists r4. split; [done|]. destruct r4 as [i|].
  - destruct R4 as (Hi & Hm & Hl). split; [done|].
    exists 3, same_normalise. split_and!; [done|done|done|].
    intros [|[|[|k']]] same' j Hk Hs; [| | |lia]; injection Hs as <-; [apply R1|apply R2|apply R3].
  - intros same j Hs Hj Hm. apply (R4 j Hj). by eapply matches_normalise.
Qed.

Lemma seek_sequence_total {E} lines pattern start eof :
  ∃ r, seek_sequence (E:=E) lines pattern start eof = Ok r.
Proof.
  destruct (decide (pattern = [])) as [->|Hne]; [by exists (Some start)|].
  destruct (seek_sequence_found (E:=E) lines pattern start eof Hne) as (r & ? & _). eauto.
Qed.

(** A found region lies inside the file and is what the pattern says, up to
    the most lenient comparison. *)
Lemma seek_sequence_Some {E} lines pattern start eof i :
  seek_sequence (E:=E) lines pattern start eof = Ok (Some i) →
  pattern = [] ∧ i = start ∨
  pattern ≠ [] ∧ i + length pattern ≤ length lines ∧ search_start lines pattern start eof ≤ i ∧
  matches_at same_normalise lines pattern i.
Proof.
  intros H. destruct (decide (pattern = [])) as [->|Hne]; [left|right].
  - cbn in H. by injection H as ->.
  - destruct (seek_sequence_found (E:=E) lines pattern start eof Hne) as (r & Hr & Hf).
    rewrite H in Hr. injection Hr as <-. destruct Hf as (Hi & k & same & Hk & Hm & _).
    split_and!; [done|by eapply matches_at_bound|done|].
    eapply matches_normalise; [|exact Hm]. by eapply list_elem_of_lookup_2.
Qed.

(** ** Properties *)

(** [seek_sequence] never panics, and for a nonempty pattern it returns the
    least position of the strictest pass that matches anywhere from the
    start position on; it returns nothing exactly when no pass does. *)
Theorem seek_sequence_first_of_strictest {E} (lines pattern : list rstring) (start : nat) (eof : bool) :
  ∃ r, seek_sequence (E:=E) lines pattern start eof = Ok r ∧
    if decide (pattern = []) then r = Some start
    else found_at lines pattern (search_start lines pattern start eof) r.
Proof.
  case_decide as Hp; [subst; by exists (Some start)|]. by apply seek_sequence_found.
Qed.

(** With [eof] set the only position tried is the one where the pattern
    ends the file: there is no fall back to searching from the start. *)
Theorem seek_sequence_eof_only_at_end {E} (lines pattern : list rstring) (start i : nat) :
  pattern ≠ [] → seek_sequence (E:=E) lines pattern start true = Ok (Some i) →
  i + length pattern = length lines.
Proof.
  intros Hne H. apply seek_sequence_Some in H as [[? _]|(_ & Hi & Hs & _)]; [done|].
  unfold search_start in Hs. cbn in Hs.
  destruct (Nat.leb_spec (length pattern) (length lines)); lia.
Qed.

(** The pattern is in the file, but not at its end: it is not found. *)
Lemma seek_sequence_eof_only_at_end_witness :
  let lines := [lit "a"; lit "b"; lit "a "] in
  seek_sequence (E:=Empty_set) lines [lit "b"] 0 true = Ok None ∧
  seek_sequence (E:=Empty_set) lines [lit "b"] 0 false = Ok (Some 1) ∧
  2 + length [lit "a"] = length lines.
Proof.
  intros lines. split_and!; [reflexivity|reflexivity|].
  apply (seek_sequence_eof_only_at_end (E:=Empty_set) lines [lit "a"] 0 2); [done|reflexivity].
Defined.
