(* ===== verification/Replacements.v ===== *)
(** * Applying the chunks of an update ([apply-patch/src/lib.rs])

    [compute_replacements], [apply_replacements] and
    [derive_new_contents_from_chunks] on the contents of one file.  A
    [Vec::insert] past the end or a slice out of range would panic, so these
    return an [outcome]. *)
From Stdlib Require Import Sorted.
From S2P Require Import Prelude RustStr SeekSequence.

Record UpdateFileChunk := mk_update_chunk {
  change_context : option rstring;
  old_lines : list rstring;
  new_lines : list rstring;
  is_end_of_file : bool
}.
#[global] Instance UpdateFileChunk_eq_dec : EqDecision UpdateFileChunk.
Proof. solve_decision. Defined.

(** [(start_index, old_len, new_lines)] *)
Definition replacement : Type := nat * nat * list rstring.
Definition r_start (r : replacement) : nat := r.1.1.
Definition r_len (r : replacement) : nat := r.1.2.
Definition r_new (r : replacement) : list rstring := r.2.

Definition last_is_empty (l : list rstring) : bool := bool_decide (last l = Some []).

Definition failed_context (path ctx_line : rstring) : rstring :=
  lit "Failed to find context '" ++ ctx_line ++ lit "' in " ++ path.
Definition failed_lines (path : rstring) (old : list rstring) : rstring :=
  lit "Failed to find expected lines in " ++ path ++ lit ":" ++ [newline] ++ join_with [newline] old.

(** The line index the search for a chunk starts from. *)
Definition seek_context (original : list rstring) (path : rstring) (chunk : UpdateFileChunk) (line_index : nat)
    : outcome rstring nat :=
  match change_context chunk with
  | Some ctx_line =>
      let? found := seek_sequence original [ctx_line] line_index false in
      match found with
      | Some idx => Ok (idx + 1)
      | None => Err (failed_context path ctx_line)
      end
  | None => Ok line_index
  end.

(** The region a chunk with old lines replaces, and with what. *)
Definition locate_chunk (original : list rstring) (path : rstring) (chunk : UpdateFileChunk) (line_index : nat)
    : outcome rstring replacement :=
  let pattern := old_lines chunk in
  let new_slice := new_lines chunk in
  let? found := seek_sequence original pattern line_index (is_end_of_file chunk) in
  let? retried :=
    if bool_decide (found = None) && last_is_empty pattern then
      let pattern := removelast pattern in
      let new_slice := if last_is_empty new_slice then removelast new_slice else new_slice in
      let? found := seek_sequence original pattern line_index (is_end_of_file chunk) in
      Ok (found, pattern, new_slice)
    else Ok (found, pattern, new_slice) in
  match retried with
  | (Some start_idx, pattern, new_slice) => Ok (start_idx, length pattern, new_slice)
  | (None, _, _) => Err (failed_lines path (old_lines chunk))
  end.

(** One iteration of the loop over the chunks. *)
Definition chunk_step (original : list rstring) (path : rstring) (chunk : UpdateFileChunk) (line_index : nat)
    : outcome rstring (replacement * nat) :=
  let? line_index := seek_context original path chunk line_index in
  if bool_decide (old_lines chunk = []) then
    let insertion_idx := if last_is_empty original then length original - 1 else length original in
    Ok (insertion_idx, 0, new_lines chunk, line_index)
  else
    let? r := locate_chunk original path chunk line_index in
    Ok (r, r_start r + r_len r).

Fixpoint chunk_loop (original : list rstring) (path : rstring) (chunks : list UpdateFileChunk)
    (line_index : nat) (replacements : list replacement) : outcome rstring (list replacement) :=
  match chunks with
  | [] => Ok replacements
  | chunk :: rest =>
      let? step := chunk_step original path chunk line_index in
      chunk_loop original path rest step.2 (replacements ++ [step.1])
  end.

(** [sort_by] on the start index; Rust's sort is stable. *)
Fixpoint insert_sorted (r : replacement) (l : list replacement) : list replacement :=
  match l with
  | [] => [r]
  | x :: t => if r_start r <=? r_start x then r :: l else x :: insert_sorted r t
  end.
Definition sort_replacements (l : list replacement) : list replacement := foldr insert_sorted [] l.

Definition compute_replacements (original : list rstring) (path : rstring) (chunks : list UpdateFileChunk)
    : outcome rstring (list replacement) :=
  let? replacements := chunk_loop original path chunks 0 [] in
  Ok (sort_replacements replacements).

(** [Vec::insert] and [Vec::remove]. *)
Definition vec_insert {E A} (l : list A) (i : nat) (x : A) : outcome E (list A) :=
  if i <=? length l then Ok (take i l ++ x :: drop i l) else Panic.
Definition vec_remove {E A} (l : list A) (i : nat) : outcome E (list A) :=
  if i <? length l then Ok (take i l ++ drop (S i) l) else Panic.

Fixpoint remove_old {E} (n : nat) (lines : list rstring) (start_idx : nat) : outcome E (list rstring) :=
  match n with
  | 0 => Ok lines
  | S n =>
      let? lines := (if start_idx <? length lines then vec_remove lines start_idx else Ok lines) in
      remove_old n lines start_idx
  end.
Fixpoint insert_new {E} (lines : list rstring) (i : nat) (seg : list rstring) : outcome E (list rstring) :=
  match seg with
  | [] => Ok lines
  | new_line :: seg => let? lines := vec_insert lines i new_line in insert_new lines (S i) seg
  end.
Definition apply_replacement {E} (lines : list rstring) (r : replacement) : outcome E (list rstring) :=
  let? lines := remove_old (r_len r) lines (r_start r) in
  insert_new lines (r_start r) (r_new r).

(** [replacements.iter().rev()] *)
Definition apply_replacements {E} (lines : list rstring) (replacements : list replacement)
    : outcome E (list rstring) :=
  foldr (λ r acc, let? lines := acc in apply_replacement lines r) (Ok lines) replacements.

(** The pure part of [derive_new_contents_from_chunks]. *)
Definition derive_new_contents (path original_contents : rstring) (chunks : list UpdateFileChunk)
    : outcome rstring rstring :=
  let original := split newline original_contents in
  let original := if last_is_empty original then removelast original else original in
  let? replacements := compute_replacements original path chunks in
  let? new := apply_replacements original replacements in
  let new := if last_is_empty new then new else new ++ [[]] in
  Ok (join_with [newline] new).

(** ** Removing and inserting *)

Lemma remove_old_spec {E} n lines i :
  remove_old (E:=E) n lines i = Ok (take i lines ++ drop (i + n) lines).
Proof.
  revert lines. induction n as [|n IH]; intros lines; cbn [remove_old].
  { by rewrite Nat.add_0_r, take_drop. }
  destruct (Nat.ltb_spec i (length lines)) as [Hi|Hi]; cbn [mbind outcome_bind].
  - unfold vec_remove. rewrite (proj2 (Nat.ltb_lt _ _)) by done. cbn [mbind outcome_bind].
    rewrite IH. f_equal. rewrite take_app_le by len. rewrite take_take, Nat.min_id. f_equal.
    rewrite drop_app_ge by len. rewrite drop_drop. f_equal. len.
  - rewrite IH. f_equal. rewrite !drop_ge by lia. done.
Qed.

Lemma insert_new_spec {E} seg lines i :
  i ≤ length lines → insert_new (E:=E) lines i seg = Ok (take i lines ++ seg ++ drop i lines).
Proof.
  revert lines i. induction seg as [|x seg IH]; intros lines i Hi; cbn [insert_new].
  { cbn [app]. by rewrite take_drop. }
  unfold vec_insert. rewrite (proj2 (Nat.leb_le _ _)) by done. cbn [mbind outcome_bind].
  rewrite IH by (rewrite length_app, length_take; cbn; rewrite length_drop; lia). f_equal.
  rewrite take_app, drop_app, length_take, Nat.min_l by done.
  replace (S i - i) with 1 by lia. cbn [take drop]. rewrite take_take, Nat.min_r by lia.
  rewrite (drop_ge (take i lines)) by len. rewrite take_0, drop_0. cbn [app]. by rewrite <- app_assoc.
Qed.

Lemma apply_replacement_spec {E} lines s n new :
  s ≤ length lines →
  apply_replacement (E:=E) lines (s, n, new) = Ok (take s lines ++ new ++ drop (s + n) lines).
Proof.
  intros Hs. unfold apply_replacement. cbn [r_len r_start r_new fst snd].
  rewrite remove_old_spec. cbn [mbind outcome_bind]. rewrite insert_new_spec by len. f_equal.
  rewrite take_app_le by len. rewrite take_take, Nat.min_id. f_equal. f_equal.
  rewrite drop_app_ge by len. rewrite drop_drop. f_equal. len.
Qed.

(** ** Sorting *)
Definition starts_sorted (l : list replacement) : Prop := StronglySorted (λ a b, r_start a ≤ r_start b) l.

Lemma insert_sorted_perm r l : insert_sorted r l ≡ₚ r :: l.
Proof.
  induction l as [|x l IH]; [done|]. cbn. destruct (_ <=? _); [done|].
  rewrite IH. apply Permutation_swap.
Qed.
Lemma sort_perm l : sort_replacements l ≡ₚ l.
Proof. induction l as [|x l IH]; [done|].
  change (insert_sorted x (sort_replacements l) ≡ₚ x :: l). by rewrite insert_sorted_perm, IH.
Qed.

Lemma insert_sorted_sorted r l : starts_sorted l → starts_sorted (insert_sorted r l).
Proof.
  intros H. induction H as [|x l Hl IH Hx]; cbn; [by repeat constructor|].
  destruct (Nat.leb_spec (r_start r) (r_start x)) as [Hle|Hlt].
  - constructor; [by constructor|]. constructor; [done|].
    eapply Forall_impl; [exact Hx|]. cbn. lia.
  - constructor; [done|]. rewrite insert_sorted_perm. constructor; [lia|done].
Qed.
Lemma sort_sorted l : starts_sorted (sort_replacements l).
Proof. induction l; [constructor|]. by apply insert_sorted_sorted. Qed.

Lemma insert_sorted_id r l : Forall (λ x, r_start r ≤ r_start x) l → insert_sorted r l = r :: l.
Proof. intros H. destruct l as [|x l]; [done|]. cbn. inversion H; subst. by rewrite (proj2 (Nat.leb_le _ _)). Qed.
Lemma sort_id l : starts_sorted l → sort_replacements l = l.
Proof. induction 1 as [|x l Hl IH Hx]; [done|].
  change (insert_sorted x (sort_replacements l) = x :: l). by rewrite IH, insert_sorted_id.
Qed.

(** ** Applying sorted replacements never panics *)
Lemma apply_sorted_ok {E} lines rs :
  starts_sorted rs → Forall (λ r, r_start r ≤ length lines) rs →
  ∃ out, apply_replacements (E:=E) lines rs = Ok out ∧
         (∀ s, Forall (λ r, s ≤ r_start r) rs → s ≤ length lines → take s out = take s lines).
Proof.
  intros Hs. induction Hs as [|[[s n] new] rs Hs IH Hr]; intros Hb; cbn [apply_replacements foldr].
  { exists lines. done. }
  inversion Hb as [|? ? Hb1 Hb2]; subst. destruct (IH Hb2) as (out & E1 & Hpre).
  fold (apply_replacements (E:=E) lines rs). rewrite E1. cbn [mbind outcome_bind].
  cbn [r_start fst] in *. pose proof (Hpre s Hr Hb1) as Ht.
  assert (s ≤ length out) as Hlen.
  { pose proof (f_equal length Ht) as Hl. rewrite !length_take in Hl. lia. }
  rewrite apply_replacement_spec by done. eexists. split; [done|].
  intros s' Hs' Hl'. inversion Hs'; subst. cbn [r_start fst] in *.
  rewrite take_app_le by len. rewrite take_take, Nat.min_l by done.
  apply Hpre; [|done]. eapply Forall_impl; [exact Hr|]. cbn. lia.
Qed.

(** ** Locating chunks *)
Section locate.
Context (original : list rstring) (path : rstring).

Lemma seek_context_spec chunk li :
  li ≤ length original →
  match seek_context original path chunk li with
  | Ok li' => li ≤ li' ≤ length original
  | Err e => ∃ c, change_context chunk = Some c ∧ e = failed_context path c
  | Panic => False
  end.
Proof using Type.
  intros Hli. unfold seek_context. destruct (change_context chunk) as [c|]; [|lia].
  destruct (seek_sequence_total (E:=rstring) original [c] li false) as (r & Er). rewrite Er.
  cbn [mbind outcome_bind]. destruct r as [i|]; [|by exists c].
  apply seek_sequence_Some in Er as [[? _]|(_ & Hi & Hs & _)]; [done|].
  unfold search_start in Hs. cbn in Hs, Hi. lia.
Qed.

(** What a located region is: the pattern, or the pattern without its final
    empty line, matched from the line index on. *)
Definition located (chunk : UpdateFileChunk) (li : nat) (r : replacement) : Prop :=
  ∃ pattern, (pattern = old_lines chunk ∧ r_new r = new_lines chunk ∨
              old_lines chunk = pattern ++ [[]] ∧
              r_new r = if last_is_empty (new_lines chunk) then removelast (new_lines chunk) else new_lines chunk) ∧
    r_len r = length pattern ∧
    seek_sequence (E:=rstring) original pattern li (is_end_of_file chunk) = Ok (Some (r_start r)).

Lemma last_is_empty_spec l : last_is_empty l = true → l = removelast l ++ [[]].
Proof using Type.
  intros H. apply bool_decide_eq_true in H.
  destruct l as [|x l _] using rev_ind; [done|]. rewrite last_snoc in H. injection H as ->.
  by rewrite removelast_app, app_nil_r by done.
Qed.

Lemma locate_chunk_spec chunk li :
  match locate_chunk original path chunk li with
  | Ok r => located chunk li r
  | Err e => e = failed_lines path (old_lines chunk)
  | Panic => False
  end.
Proof using Type.
  unfold locate_chunk.
  destruct (seek_sequence_total (E:=rstring) original (old_lines chunk) li (is_end_of_file chunk)) as (r & Er).
  rewrite Er. cbn [mbind outcome_bind]. destruct r as [i|]; cbn [bool_decide andb].
  { exists (old_lines chunk). split_and!; [by left|done|done]. }
  destruct (last_is_empty (old_lines chunk)) eqn:El; cbn [mbind outcome_bind]; [|done].
  destruct (seek_sequence_total (E:=rstring) original (removelast (old_lines chunk)) li (is_end_of_file chunk))
    as (r2 & Er2). rewrite Er2. cbn [mbind outcome_bind]. destruct r2 as [i|]; [|done].
  exists (removelast (old_lines chunk)). split_and!; [|done|done]. right. split; [by apply last_is_empty_spec|done].
Qed.

Lemma located_bound chunk li r :
  li ≤ length original → located chunk li r → r_start r + r_len r ≤ length original.
Proof using Type.
  intros Hli (p & _ & Hl & Hs). apply seek_sequence_Some in Hs as [[-> ->]|(_ & Hb & _)];
    rewrite Hl; cbn; lia.
Qed.

Lemma chunk_step_spec chunk li :
  li ≤ length original →
  match chunk_step original path chunk li with
  | Ok (r, li') => r_start r ≤ length original ∧ li' ≤ length original
  | Err _ => True
  | Panic => False
  end.
Proof using Type.
  intros Hli. unfold chunk_step. pose proof (seek_context_spec chunk li Hli) as Hc.
  destruct (seek_context original path chunk li) as [li1|e|]; cbn [mbind outcome_bind]; [|done|done].
  case_bool_decide as Ho.
  - cbn. destruct (last_is_empty original); lia.
  - pose proof (locate_chunk_spec chunk li1) as Hl.
    destruct (locate_chunk original path chunk li1) as [r|e|]; cbn [mbind outcome_bind]; [|done|done].
    pose proof (located_bound chunk li1 r ltac:(lia) Hl). lia.
Qed.

Lemma chunk_loop_spec chunks li acc :
  li ≤ length original → Forall (λ r, r_start r ≤ length original) acc →
  match chunk_loop original path chunks li acc with
  | Ok rs => Forall (λ r, r_start r ≤ length original) rs
  | Err _ => True
  | Panic => False
  end.
Proof using Type.
  revert li acc. induction chunks as [|c cs IH]; intros li acc Hli Hacc; cbn [chunk_loop]; [done|].
  pose proof (chunk_step_spec c li Hli) as Hs.
  destruct (chunk_step original path c li) as [[r li']|e|]; cbn [mbind outcome_bind]; [|done|done].
  apply IH; [apply Hs|]. apply Forall_app. split; [done|]. constructor; [apply Hs|constructor].
Qed.

Lemma compute_replacements_spec chunks :
  match compute_replacements original path chunks with
  | Ok rs => starts_sorted rs ∧ Forall (λ r, r_start r ≤ length original) rs
  | Err _ => True
  | Panic => False
  end.
Proof using Type.
  unfold compute_replacements.
  pose proof (chunk_loop_spec chunks 0 [] (Nat.le_0_l _) (Forall_nil_2 _)) as H.
  destruct (chunk_loop _ _ _ _ _) as [rs|e|]; cbn [mbind outcome_bind]; [|done|done].
  split; [apply sort_sorted|]. by rewrite sort_perm.
Qed.
End locate.

Lemma derive_no_panic path contents chunks : no_panic (derive_new_contents path contents chunks).
Proof.
  unfold derive_new_contents. set (original := if last_is_empty _ then _ else _).
  pose proof (compute_replacements_spec original path chunks) as H.
  destruct (compute_replacements original path chunks) as [rs|e|]; cbn [mbind outcome_bind]; [|done|done].
  destruct H as [Hs Hb]. destruct (apply_sorted_ok (E:=rstring) original rs Hs Hb) as (out & -> & _). done.
Qed.

(** ** The reference: splicing from left to right *)

(** Regions in order, each starting where the previous one ends or later. *)
Fixpoint regions_from (pos : nat) (rs : list replacement) : Prop :=
  match rs with
  | [] => True
  | (s, n, _) :: rs => pos ≤ s ∧ regions_from (s + n) rs
  end.
(** The file from line [pos] on, with each region exchanged for its new lines. *)
Fixpoint splice (pos : nat) (lines : list rstring) (rs : list replacement) : list rstring :=
  match rs with
  | [] => drop pos lines
  | (s, n, new) :: rs => take (s - pos) (drop pos lines) ++ new ++ splice (s + n) lines rs
  end.

Lemma regions_bound pos rs : regions_from pos rs → Forall (λ r, pos ≤ r_start r) rs.
Proof.
  revert pos. induction rs as [|[[s n] new] rs IH]; intros pos; cbn; [constructor|].
  intros [Hp Hr]. constructor; [done|]. eapply Forall_impl; [by apply IH|]. cbn. lia.
Qed.
Lemma regions_sorted pos rs : regions_from pos rs → starts_sorted rs.
Proof.
  revert pos. induction rs as [|[[s n] new] rs IH]; intros pos; cbn; [constructor|].
  intros [Hp Hr]. constructor; [by eapply IH|]. eapply Forall_impl; [by apply regions_bound|]. cbn. lia.
Qed.

Lemma apply_regions {E} lines rs :
  regions_from 0 rs → Forall (λ r, r_start r + r_len r ≤ length lines) rs →
  apply_replacements (E:=E) lines rs = Ok (splice 0 lines rs).
Proof.
  assert (∀ pos, regions_from pos rs → Forall (λ r, r_start r + r_len r ≤ length lines) rs → pos ≤ length lines →
    apply_replacements (E:=E) lines rs = Ok (take pos lines ++ splice pos lines rs)) as H.
  { induction rs as [|[[s n] new] rs IH]; intros pos Hr Hb Hpos; cbn [splice].
    { by rewrite take_drop. }
    destruct Hr as [Hp Hr]. inversion Hb as [|? ? Hb1 Hb2]; subst. cbn [r_start r_len fst snd] in Hb1.
    cbn [apply_replacements foldr]. fold (apply_replacements (E:=E) lines rs).
    rewrite (IH (s + n) Hr Hb2 Hb1). cbn [mbind outcome_bind].
    rewrite apply_replacement_spec by len. f_equal.
    rewrite take_app_le by len. rewrite take_take, Nat.min_l by lia.
    rewrite drop_app_ge by len. rewrite length_take, Nat.min_l, Nat.sub_diag, drop_0 by lia.
    rewrite <- (take_drop pos (take s lines)) at 1. rewrite take_take, Nat.min_l by lia.
    rewrite <- app_assoc. f_equal. rewrite take_drop_commute. by replace (pos + (s - pos)) with s by lia. }
  intros Hr Hb. by rewrite (H 0 Hr Hb (Nat.le_0_l _)).
Qed.

(** ** Patches whose chunks all have old lines *)
Definition plain_chunk (c : UpdateFileChunk) : Prop := old_lines c ≠ [] ∧ is_end_of_file c = false.

Section plain.
Context (original : list rstring) (path : rstring).

Lemma located_from chunk li r :
  is_end_of_file chunk = false → located original chunk li r → li ≤ r_start r.
Proof using Type.
  intros He (p & _ & _ & Hs). rewrite He in Hs.
  apply seek_sequence_Some in Hs as [[_ ->]|(_ & _ & Hs & _)]; [lia|exact Hs].
Qed.

Lemma chunk_loop_plain chunks li acc rs :
  Forall plain_chunk chunks → li ≤ length original →
  chunk_loop original path chunks li acc = Ok rs →
  ∃ found, rs = acc ++ found ∧ regions_from li found ∧
    Forall (λ r, r_start r + r_len r ≤ length original) found ∧
    Forall2 (λ c r, ∃ from, located original c from r) chunks found.
Proof using Type.
  intros Hc. revert li acc. induction Hc as [|c cs [Ho He] _ IH]; intros li acc Hli H; cbn [chunk_loop] in H.
  { injection H as <-. exists []. rewrite app_nil_r. split_and!; [done|done|constructor|constructor]. }
  apply bind_Ok in H as ([r li'] & Hs & H). unfold chunk_step in Hs.
  apply bind_Ok in Hs as (li1 & Hctx & Hs). rewrite bool_decide_eq_false_2 in Hs by done.
  apply bind_Ok in Hs as (r' & Hloc & Hs). injection Hs as -> <-. cbn [fst snd] in H.
  pose proof (seek_context_spec original path c li Hli) as Hcs. rewrite Hctx in Hcs.
  pose proof (locate_chunk_spec original path c li1) as Hls. rewrite Hloc in Hls.
  pose proof (located_bound original c li1 r ltac:(lia) Hls) as Hb.
  destruct (IH _ _ Hb H) as (found & -> & Hr & Hf & H2).
  exists (r :: found). rewrite <- app_assoc. split_and!; [done| |by constructor|constructor; eauto].
  destruct r as [[s n] new]. cbn in *. split; [|done].
  pose proof (located_from c li1 _ He Hls). cbn in *. lia.
Qed.
End plain.

(** ** Edits and the chunks that describe them *)

(** An unchanged stretch, then old lines exchanged for new ones. *)
Record edit := mk_edit { e_keep : list rstring; e_old : list rstring; e_new : list rstring }.
Definition edit_chunk (e : edit) : UpdateFileChunk := mk_update_chunk None (e_old e) (e_new e) false.
Definition edits_source (es : list edit) (tail : list rstring) : list rstring :=
  (es ≫= λ e, e_keep e ++ e_old e) ++ tail.
Definition edits_target (es : list edit) (tail : list rstring) : list rstring :=
  (es ≫= λ e, e_keep e ++ e_new e) ++ tail.

(** The first place, from the end of the previous edit on, where the old lines
    of an edit stand verbatim is the place of the edit. *)
Fixpoint unambiguous (es : list edit) (tail : list rstring) : Prop :=
  match es with
  | [] => True
  | e :: rest =>
      e_old e ≠ [] ∧
      (∀ i, i < length (e_keep e) → ¬ occurs_at (e_old e) (e_keep e ++ e_old e ++ edits_source rest tail) i) ∧
      unambiguous rest tail
  end.

(** The regions the edits replace in a file that begins with [pos] lines. *)
Fixpoint edit_regions (pos : nat) (es : list edit) : list replacement :=
  match es with
  | [] => []
  | e :: es => (pos + length (e_keep e), length (e_old e), e_new e) ::
               edit_regions (pos + length (e_keep e) + length (e_old e)) es
  end.

Lemma matches_exact_occurs lines pattern i :
  matches_at same_exact lines pattern i ↔ occurs_at pattern lines i.
Proof.
  unfold matches_at, occurs_at. generalize (drop i lines) as l. intros l. split.
  - intros H. exists (drop (length pattern) l). rewrite <- (take_drop (length pattern) l) at 1. f_equal.
    induction H as [|a b x y Hab _ IH]; [done|]. apply bool_decide_eq_true in Hab. by f_equal.
  - intros [r ->]. rewrite take_app_length. apply Forall2_same_length_lookup_2; [done|].
    intros k a b ??. simplify_eq. by apply bool_decide_eq_true.
Qed.

Lemma seek_unambiguous {E} pre keep old rest :
  old ≠ [] → (∀ i, i < length keep → ¬ occurs_at old (keep ++ old ++ rest) i) →
  seek_sequence (E:=E) (pre ++ keep ++ old ++ rest) old (length pre) false =
    Ok (Some (length pre + length keep)).
Proof.
  intros Hne Hamb.
  destruct (seek_sequence_found (E:=E) (pre ++ keep ++ old ++ rest) old (length pre) false Hne) as (r & -> & Hf).
  change (search_start _ _ (length pre) false) with (length pre) in Hf. f_equal.
  assert (occurs_at old (pre ++ keep ++ old ++ rest) (length pre + length keep)) as Hat.
  { apply occurs_at_shift. rewrite <- (Nat.add_0_r (length keep)). apply occurs_at_shift. by exists rest. }
  apply matches_exact_occurs in Hat. destruct r as [i|].
  - destruct Hf as (Hi & k & same & Hk & Hm & Hleast & Hlvl). f_equal.
    destruct k as [|k]; [|exfalso; eapply (Hlvl 0 same_exact); [lia|done| |exact Hat]; lia].
    injection Hk as <-. destruct (lt_eq_lt_dec i (length pre + length keep)) as [[Hlt|Heq]|Hgt]; [|done|].
    + exfalso. apply (Hamb (i - length pre)); [lia|]. apply matches_exact_occurs in Hm.
      eapply (occurs_at_unshift old pre). by replace (length pre + (i - length pre)) with i by lia.
    + exfalso. eapply Hleast; [|exact Hat]. lia.
  - exfalso. eapply (Hf same_exact); [by left| |exact Hat]. lia.
Qed.

Lemma chunk_loop_edits path pre es tail acc :
  unambiguous es tail →
  chunk_loop (pre ++ edits_source es tail) path (edit_chunk <$> es) (length pre) acc =
    Ok (acc ++ edit_regions (length pre) es).
Proof.
  revert pre acc. induction es as [|e es IH]; intros pre acc Hu; cbn [fmap list_fmap chunk_loop edit_regions].
  { by rewrite app_nil_r. }
  destruct Hu as (Hne & Hamb & Hu).
  assert (edits_source (e :: es) tail = e_keep e ++ e_old e ++ edits_source es tail) as ->.
  { unfold edits_source. cbn. by rewrite <- !app_assoc. }
  unfold chunk_step, seek_context. cbn [change_context edit_chunk mbind outcome_bind old_lines new_lines].
  rewrite bool_decide_eq_false_2 by done. unfold locate_chunk.
  cbn [old_lines new_lines is_end_of_file edit_chunk]. rewrite seek_unambiguous by done.
  cbn [mbind outcome_bind bool_decide andb]. rewrite bool_decide_eq_false_2 by done.
  cbn [andb mbind outcome_bind r_start r_len fst snd].
  specialize (IH (pre ++ e_keep e ++ e_old e)
    (acc ++ [(length pre + length (e_keep e), length (e_old e), e_new e)]) Hu).
  rewrite <- !app_assoc in IH. rewrite !length_app, Nat.add_assoc in IH. exact IH.
Qed.

Lemma edit_regions_from pos pos' es : pos' ≤ pos → regions_from pos' (edit_regions pos es).
Proof.
  revert pos pos'. induction es as [|e es IH]; intros pos pos' Hp; cbn; [done|]. split; [lia|].
  apply IH. lia.
Qed.

Lemma edit_regions_bound pos es tail :
  Forall (λ r, r_start r + r_len r ≤ pos + length (edits_source es tail)) (edit_regions pos es).
Proof.
  revert pos. induction es as [|e es IH]; intros pos; cbn [edit_regions]; [constructor|].
  assert (edits_source (e :: es) tail = e_keep e ++ e_old e ++ edits_source es tail) as ->.
  { unfold edits_source. cbn. by rewrite <- !app_assoc. }
  constructor; [cbn; rewrite !length_app; lia|].
  eapply Forall_impl; [apply IH|]. cbn. intros r Hr. rewrite !length_app. lia.
Qed.

Lemma splice_edits pre es tail :
  splice (length pre) (pre ++ edits_source es tail) (edit_regions (length pre) es) = edits_target es tail.
Proof.
  revert pre. induction es as [|e es IH]; intros pre; cbn [edit_regions splice].
  { unfold edits_source, edits_target. cbn. apply drop_app_length. }
  assert (edits_source (e :: es) tail = e_keep e ++ e_old e ++ edits_source es tail) as ->.
  { unfold edits_source. cbn. by rewrite <- !app_assoc. }
  assert (edits_target (e :: es) tail = e_keep e ++ e_new e ++ edits_target es tail) as ->.
  { unfold edits_target. cbn. by rewrite <- !app_assoc. }
  rewrite drop_app_length. replace (length pre + length (e_keep e) - length pre) with (length (e_keep e)) by lia.
  rewrite take_app_length. do 2 f_equal.
  specialize (IH (pre ++ e_keep e ++ e_old e)). rewrite <- !app_assoc in IH.
  by rewrite !length_app, Nat.add_assoc in IH.
Qed.

Lemma compute_edits path es tail :
  unambiguous es tail →
  compute_replacements (edits_source es tail) path (edit_chunk <$> es) = Ok (edit_regions 0 es).
Proof.
  intros Hu. unfold compute_replacements. pose proof (chunk_loop_edits path [] es tail [] Hu) as Hl.
  cbn [app length] in Hl. rewrite Hl.
  cbn [mbind outcome_bind app length]. f_equal. apply sort_id, (regions_sorted 0), edit_regions_from. lia.
Qed.

Lemma apply_edits {E} es tail :
  apply_replacements (E:=E) (edits_source es tail) (edit_regions 0 es) = Ok (edits_target es tail).
Proof.
  rewrite apply_regions; [f_equal; exact (splice_edits [] es tail)|by apply edit_regions_from|].
  apply (edit_regions_bound 0).
Qed.

(** ** Properties *)

(** Whatever the file and the chunks, deriving the new contents returns:
    no slice, insertion or removal of the update is ever out of range. *)
Theorem update_never_panics (path contents : rstring) (chunks : list UpdateFileChunk) :
  no_panic (derive_new_contents path contents chunks).
Proof. apply derive_no_panic. Qed.

(** For chunks that have old lines and are not tied to the end of the file,
    the regions found are in the order of the chunks and disjoint, each is
    where [seek_sequence] finds the chunk's old lines, and applying them from
    last to first yields the file with exactly these regions exchanged. *)
Theorem plain_chunks_splice (original : list rstring) (path : rstring) chunks rs :
  Forall plain_chunk chunks → compute_replacements original path chunks = Ok rs →
  regions_from 0 rs ∧
  Forall2 (λ c r, ∃ from, located original c from r) chunks rs ∧
  apply_replacements (E:=rstring) original rs = Ok (splice 0 original rs).
Proof.
  intros Hc H. unfold compute_replacements in H. apply bind_Ok in H as (rs0 & Hl & [= <-]).
  destruct (chunk_loop_plain original path chunks 0 [] rs0 Hc (Nat.le_0_l _) Hl) as (found & -> & Hr & Hb & H2).
  cbn [app]. rewrite sort_id by (by eapply regions_sorted). split_and!; [done|done|by apply apply_regions].
Qed.

Lemma plain_chunks_splice_witness :
  let original := [lit "a"; lit "b"; lit "c"; lit "d"] in
  let chunks := [mk_update_chunk None [lit "a"] [lit "x"; lit "y"] false;
                 mk_update_chunk (Some (lit "b")) [lit "c"] [] false] in
  let rs := [(0, 1, [lit "x"; lit "y"]); (2, 1, [])] in
  regions_from 0 rs ∧
  Forall2 (λ c r, ∃ from, located original c from r) chunks rs ∧
  apply_replacements (E:=rstring) original rs = Ok (splice 0 original rs) ∧
  splice 0 original rs = [lit "x"; lit "y"; lit "b"; lit "d"].
Proof.
  intros original chunks rs.
  destruct (plain_chunks_splice original (lit "f") chunks rs) as (H1 & H2 & H3).
  - repeat constructor; done.
  - reflexivity.
  - split_and!; [exact H1|exact H2|exact H3|reflexivity].
Defined.

(** Patching reproduces the edits it describes: if each edit's old lines
    stand verbatim first at the edit's place, the chunks made of the edits
    turn the source text into the target text - except that a target whose
    last line is blank loses that line. *)
Theorem edits_roundtrip (path : rstring) (es : list edit) (tail : list rstring) :
  unambiguous es tail → Forall (λ l, newline ∉ l) (edits_source es tail) →
  let target := edits_target es tail in
  derive_new_contents path (text_of (edits_source es tail)) (edit_chunk <$> es) =
    Ok (text_of (if last_is_empty target then removelast target else target)).
Proof.
  intros Hu Hn. cbn zeta. unfold derive_new_contents. rewrite split_text_of by done.
  assert (∀ l : list rstring, last_is_empty (l ++ [[]]) = true) as He.
  { intros l. unfold last_is_empty. by rewrite last_snoc. }
  rewrite He, removelast_app, app_nil_r by done. rewrite compute_edits by done.
  cbn [mbind outcome_bind]. rewrite apply_edits. cbn [mbind outcome_bind]. f_equal.
  destruct (last_is_empty (edits_target es tail)) eqn:El; [|apply join_text_of].
  rewrite (last_is_empty_spec _ El) at 1. apply join_text_of.
Qed.

(** The second file ends in a blank line, which the update of its first line drops. *)
Lemma edits_roundtrip_witness :
  let es := [mk_edit [lit "keep"] [lit "old"] [lit "new1"; lit "new2"]] in
  derive_new_contents (lit "f") (text_of [lit "keep"; lit "old"; lit "tail"]) (edit_chunk <$> es) =
    Ok (text_of [lit "keep"; lit "new1"; lit "new2"; lit "tail"]) ∧
  derive_new_contents (lit "f") (text_of [lit "keep"; lit "old"; []]) (edit_chunk <$> es) =
    Ok (text_of [lit "keep"; lit "new1"; lit "new2"]).
Proof.
  intros es. assert (∀ tail, unambiguous es tail) as Hu.
  { intros tail. split_and!; [done| |done]. intros [|i] Hi; [|cbn in Hi; lia]. intros [r Hr]. done. }
  assert (∀ ls : list rstring, forallb (λ l, bool_decide (newline ∉ l)) ls = true → Forall (λ l, newline ∉ l) ls) as Hf.
  { intros ls H. apply Forall_forall. intros l Hl. rewrite forallb_forall in H.
    apply (bool_decide_eq_true_1 _), H. by apply list_elem_of_In. }
  split.
  - apply (edits_roundtrip (lit "f") es [lit "tail"]); [apply Hu|by apply Hf].
  - apply (edits_roundtrip (lit "f") es [[]]); [apply Hu|by apply Hf].
Defined.

(** A chunk without old lines inserts before the file's final blank line
    even when an earlier chunk replaces that line: the update succeeds and
    the lines to add are lost. *)
Theorem pure_addition_can_be_lost :
  let chunks := [mk_update_chunk None [lit "a"; []] [lit "b"; []] false;
                 mk_update_chunk None [] [lit "added"] false] in
  compute_replacements [lit "a"; []] (lit "f") chunks = Ok [(0, 2, [lit "b"; []]); (1, 0, [lit "added"])] ∧
  ∃ out, derive_new_contents (lit "f") (text_of [lit "a"; []]) chunks = Ok out ∧
         find (lit "added") out = None.
Proof. split; [reflexivity|]. eexists. split; [vm_compute; reflexivity|reflexivity]. Qed.
