(* ===== verification/PatchParser.v ===== *)
(** * The patch parser ([apply-patch/src/parser.rs])

    Lines of the trimmed patch text, boundary markers, the environment
    preamble, hunks and chunks, with every error the parser reports.  Indexing
    and slicing can panic, and the two [while] loops consume lines by the
    counts their callees report; they are fuelled by the number of lines, and
    running out of fuel is reported as [Panic] too, so that [no_panic] also
    says that the loops end. *)
From S2P Require Import Prelude RustStr SeekSequence Replacements.

Definition BEGIN_PATCH_MARKER : rstring := lit "*** Begin Patch".
Definition ENVIRONMENT_ID_MARKER : rstring := lit "*** Environment ID: ".
Definition END_PATCH_MARKER : rstring := lit "*** End Patch".
Definition ADD_FILE_MARKER : rstring := lit "*** Add File: ".
Definition DELETE_FILE_MARKER : rstring := lit "*** Delete File: ".
Definition UPDATE_FILE_MARKER : rstring := lit "*** Update File: ".
Definition MOVE_TO_MARKER : rstring := lit "*** Move to: ".
Definition EOF_MARKER : rstring := lit "*** End of File".
Definition CHANGE_CONTEXT_MARKER : rstring := lit "@@ ".
Definition EMPTY_CHANGE_CONTEXT_MARKER : rstring := lit "@@".
Definition PARSE_IN_STRICT_MODE : bool := false.

Inductive ParseError :=
| InvalidPatchError (message : rstring)
| InvalidHunkError (message : rstring) (line_number : nat).

Inductive Hunk :=
| AddFile (path contents : rstring)
| DeleteFile (path : rstring)
| UpdateFile (path : rstring) (move_path : option rstring) (chunks : list UpdateFileChunk).

(** [Hunk::path]: the destination for a rename, and the path [resolve_path] starts from. *)
Definition hunk_path (h : Hunk) : rstring :=
  match h with
  | AddFile path _ => path
  | DeleteFile path => path
  | UpdateFile _ (Some path) _ => path
  | UpdateFile path None _ => path
  end.
Definition hunk_source_path (h : Hunk) : rstring :=
  match h with UpdateFile path _ _ => path | AddFile _ _ | DeleteFile _ => hunk_path h end.

Record ApplyPatchArgs := mk_patch_args {
  args_patch : rstring;
  args_hunks : list Hunk;
  args_workdir : option rstring;
  args_environment_id : option rstring
}.

Inductive ParseMode := Strict | Lenient.

(** [&v[i..]] *)
Definition slice_from {E A} (l : list A) (i : nat) : outcome E (list A) :=
  if i <=? length l then Ok (drop i l) else Panic.

(** ** Boundaries *)
Definition check_start_and_end_lines_strict (first_line last_line : option rstring) : outcome ParseError unit :=
  match trim <$> first_line, trim <$> last_line with
  | Some first, Some last =>
      if bool_decide (first = BEGIN_PATCH_MARKER) && bool_decide (last = END_PATCH_MARKER) then Ok ()
      else if bool_decide (first = BEGIN_PATCH_MARKER)
      then Err (InvalidPatchError (lit "The last line of the patch must be '*** End Patch'"))
      else Err (InvalidPatchError (lit "The first line of the patch must be '*** Begin Patch'"))
  | Some first, None =>
      if bool_decide (first = BEGIN_PATCH_MARKER)
      then Err (InvalidPatchError (lit "The last line of the patch must be '*** End Patch'"))
      else Err (InvalidPatchError (lit "The first line of the patch must be '*** Begin Patch'"))
  | None, _ => Err (InvalidPatchError (lit "The last line of the patch must be '*** End Patch'"))
  end.

(** Both results: the patch lines and the lines between the markers. *)
Definition check_patch_boundaries_strict (lines : list rstring)
    : outcome ParseError (list rstring * list rstring) :=
  let? _ := check_start_and_end_lines_strict (head lines) (last lines) in
  let? inner := slice lines 1 (length lines - 1) in
  Ok (lines, inner).

Definition heredoc_opener (first : rstring) : bool :=
  bool_decide (first = lit "<<EOF") || bool_decide (first = lit "<<'EOF'")
  || bool_decide (first = lit "<<" ++ [34%N] ++ lit "EOF" ++ [34%N]).

Definition check_patch_boundaries_lenient (original_lines : list rstring)
    : outcome ParseError (list rstring * list rstring) :=
  match check_patch_boundaries_strict original_lines with
  | Ok r => Ok r
  | Panic => Panic
  | Err original_parse_error =>
      match original_lines, last original_lines with
      | first :: _ :: _, Some last =>
          if heredoc_opener first && ends_with last (lit "EOF") && (4 <=? length original_lines) then
            let? inner_lines := slice original_lines 1 (length original_lines - 1) in
            check_patch_boundaries_strict inner_lines
          else Err original_parse_error
      | _, _ => Err original_parse_error
      end
  end.

Definition parse_environment_id_preamble (hunk_lines : list rstring)
    : outcome ParseError (option rstring * list rstring * nat) :=
  match hunk_lines with
  | [] => Ok (None, hunk_lines, 2)
  | first_line :: rest =>
      match strip_prefix ENVIRONMENT_ID_MARKER (trim_start first_line) with
      | None => Ok (None, hunk_lines, 2)
      | Some environment_id =>
          let environment_id := trim environment_id in
          if bool_decide (environment_id = [])
          then Err (InvalidPatchError (lit "apply_patch environment_id cannot be empty"))
          else Ok (Some environment_id, rest, 3)
      end
  end.

(** ** Chunks *)
Definition no_lines_message : rstring := lit "Update hunk does not contain any lines".
Definition expected_context_message (line : rstring) : rstring :=
  lit "Expected update hunk to start with a @@ context marker, got: '" ++ line ++ lit "'".
Definition unexpected_line_message (line : rstring) : rstring :=
  lit "Unexpected line found in update hunk: '" ++ line ++
  lit "'. Every line should start with ' ' (context line), '+' (added line), or '-' (removed line)".

Definition push_old_new (c : UpdateFileChunk) (old new : list rstring) : UpdateFileChunk :=
  mk_update_chunk (change_context c) (old_lines c ++ old) (new_lines c ++ new) (is_end_of_file c).

(** The loop over the lines of a chunk; [n] is [parsed_lines]. *)
Fixpoint chunk_lines_loop (line_number : nat) (lines : list rstring) (chunk : UpdateFileChunk) (n : nat)
    : outcome ParseError (UpdateFileChunk * nat) :=
  match lines with
  | [] => Ok (chunk, n)
  | line :: rest =>
      if bool_decide (line = EOF_MARKER) then
        if (n =? 0)%nat then Err (InvalidHunkError no_lines_message (line_number + 1))
        else Ok (mk_update_chunk (change_context chunk) (old_lines chunk) (new_lines chunk) true, S n)
      else
        match line with
        | [] => chunk_lines_loop line_number rest (push_old_new chunk [[]] [[]]) (S n)
        | c :: text =>
            if (c =? chr " ")%N then chunk_lines_loop line_number rest (push_old_new chunk [text] [text]) (S n)
            else if (c =? chr "+")%N then chunk_lines_loop line_number rest (push_old_new chunk [] [text]) (S n)
            else if (c =? chr "-")%N then chunk_lines_loop line_number rest (push_old_new chunk [text] []) (S n)
            else if (n =? 0)%nat then Err (InvalidHunkError (unexpected_line_message line) (line_number + 1))
            else Ok (chunk, n)
        end
  end.

Definition parse_update_file_chunk (lines : list rstring) (line_number : nat) (allow_missing_context : bool)
    : outcome ParseError (UpdateFileChunk * nat) :=
  match lines with
  | [] => Err (InvalidHunkError no_lines_message line_number)
  | first :: _ =>
      let? header :=
        if bool_decide (first = EMPTY_CHANGE_CONTEXT_MARKER) then Ok (None, 1)
        else match strip_prefix CHANGE_CONTEXT_MARKER first with
             | Some context => Ok (Some context, 1)
             | None =>
                 if allow_missing_context then Ok (None, 0)
                 else Err (InvalidHunkError (expected_context_message first) line_number)
             end in
      let '(change_context, start_index) := header in
      if length lines <=? start_index
      then Err (InvalidHunkError no_lines_message (line_number + 1))
      else
        let? body := slice_from lines start_index in
        let? parsed := chunk_lines_loop line_number body (mk_update_chunk change_context [] [] false) 0 in
        Ok (parsed.1, parsed.2 + start_index)
  end.

(** ** Hunks *)

(** The added lines of a new file: contents and number of lines. *)
Fixpoint add_file_lines (lines : list rstring) : rstring * nat :=
  match lines with
  | [] => ([], 0)
  | add_line :: rest =>
      match strip_prefix [chr "+"] add_line with
      | Some line_to_add =>
          let '(contents, n) := add_file_lines rest in
          (line_to_add ++ newline :: contents, S n)
      | None => ([], 0)
      end
  end.

(** The [while] loop of an update hunk. *)
Fixpoint update_loop (fuel : nat) (line_number : nat) (remaining_lines : list rstring) (parsed_lines : nat)
    (chunks : list UpdateFileChunk) : outcome ParseError (list UpdateFileChunk * nat) :=
  match remaining_lines with
  | [] => Ok (chunks, parsed_lines)
  | line :: rest =>
      match fuel with
      | 0 => Panic
      | S fuel =>
          if bool_decide (trim line = []) then update_loop fuel line_number rest (S parsed_lines) chunks
          else if starts_with line [chr "*"] then Ok (chunks, parsed_lines)
          else
            let? r := parse_update_file_chunk remaining_lines (line_number + parsed_lines)
                        (bool_decide (chunks = [])) in
            let? remaining_lines := slice_from remaining_lines r.2 in
            update_loop fuel line_number remaining_lines (parsed_lines + r.2) (chunks ++ [r.1])
      end
  end.

Definition empty_update_message (path : rstring) : rstring :=
  lit "Update file hunk for path '" ++ path ++ lit "' is empty".
Definition bad_header_message (first_line : rstring) : rstring :=
  lit "'" ++ first_line ++
  lit "' is not a valid hunk header. Valid hunk headers: '*** Add File: {path}', '*** Delete File: {path}', '*** Update File: {path}'".

Definition parse_one_hunk (lines : list rstring) (line_number : nat) : outcome ParseError (Hunk * nat) :=
  let? line0 := index lines 0 in
  let first_line := trim line0 in
  match strip_prefix ADD_FILE_MARKER first_line with
  | Some path =>
      let? rest := slice_from lines 1 in
      let '(contents, n) := add_file_lines rest in
      Ok (AddFile path contents, S n)
  | None =>
  match strip_prefix DELETE_FILE_MARKER first_line with
  | Some path => Ok (DeleteFile path, 1)
  | None =>
  match strip_prefix UPDATE_FILE_MARKER first_line with
  | Some path =>
      let? remaining_lines := slice_from lines 1 in
      let move_path := head remaining_lines ≫= strip_prefix MOVE_TO_MARKER in
      let? remaining_lines := (if move_path is Some _ then slice_from remaining_lines 1 else Ok remaining_lines) in
      let parsed_lines := (if move_path is Some _ then 2 else 1) in
      let? r := update_loop (length remaining_lines) line_number remaining_lines parsed_lines [] in
      if bool_decide (r.1 = []) then Err (InvalidHunkError (empty_update_message path) line_number)
      else Ok (UpdateFile path move_path r.1, r.2)
  | None => Err (InvalidHunkError (bad_header_message first_line) line_number)
  end end end.

(** The [while] loop over the hunks. *)
Fixpoint hunks_loop (fuel : nat) (remaining_lines : list rstring) (line_number : nat) (hunks : list Hunk)
    : outcome ParseError (list Hunk) :=
  match remaining_lines with
  | [] => Ok hunks
  | _ :: _ =>
      match fuel with
      | 0 => Panic
      | S fuel =>
          let? r := parse_one_hunk remaining_lines line_number in
          let? remaining_lines := slice_from remaining_lines r.2 in
          hunks_loop fuel remaining_lines (line_number + r.2) (hunks ++ [r.1])
      end
  end.

Definition parse_patch_text (patch : rstring) (mode : ParseMode) : outcome ParseError ApplyPatchArgs :=
  let lines := lines (trim patch) in
  let? bounds := match mode with
                 | Strict => check_patch_boundaries_strict lines
                 | Lenient => check_patch_boundaries_lenient lines
                 end in
  let '(patch_lines, hunk_lines) := bounds in
  let? preamble := parse_environment_id_preamble hunk_lines in
  let '(environment_id, remaining_lines, line_number) := preamble in
  let? hunks := hunks_loop (length remaining_lines) remaining_lines line_number [] in
  Ok (mk_patch_args (join_with [newline] patch_lines) hunks None environment_id).

Definition parse_patch (patch : rstring) : outcome ParseError ApplyPatchArgs :=
  parse_patch_text patch (if PARSE_IN_STRICT_MODE then Strict else Lenient).

(** ** Progress, bounds and error positions *)

(** A result that is no panic, whose value satisfies [ok] and whose hunk errors
    point at a line between [lo] and [hi]. *)
Definition parses {A} (ok : A → Prop) (lo hi : nat) (m : outcome ParseError A) : Prop :=
  match m with
  | Ok a => ok a
  | Err (InvalidHunkError _ n) => lo ≤ n ≤ hi
  | Err (InvalidPatchError _) => False
  | Panic => False
  end.

Lemma parses_bind {A B} (ok : A → Prop) (ok' : B → Prop) lo hi m (k : A → outcome ParseError B) :
  parses ok lo hi m → (∀ a, m = Ok a → ok a → parses ok' lo hi (k a)) → parses ok' lo hi (mbind k m).
Proof. destruct m as [a|[]|]; cbn; auto. Qed.

Lemma parses_mono {A} (ok ok' : A → Prop) lo hi lo' hi' m :
  parses ok lo hi m → (∀ a, ok a → ok' a) → lo' ≤ lo → hi ≤ hi' → parses ok' lo' hi' m.
Proof. destruct m as [a|[]|]; cbn; auto. lia. Qed.

Lemma slice_from_ok {E A} (l : list A) i : i ≤ length l → slice_from (E:=E) l i = Ok (drop i l).
Proof. intros H. unfold slice_from. by rewrite (proj2 (Nat.leb_le _ _)). Qed.

Lemma chunk_lines_loop_bounds ln lines chunk n :
  parses (λ r, n ≤ r.2 ≤ n + length lines ∧ (lines ≠ [] → 1 ≤ r.2)) (ln + 1) (ln + 1)
    (chunk_lines_loop ln lines chunk n).
Proof.
  revert chunk n. induction lines as [|line rest IH]; intros chunk n; cbn [chunk_lines_loop length].
  { cbn. split; [lia|done]. }
  case_bool_decide; [destruct (Nat.eqb_spec n 0); cbn; [|split]; lia|].
  assert (∀ c, parses (λ r, n ≤ r.2 ≤ n + S (length rest) ∧ (line :: rest ≠ [] → 1 ≤ r.2)) (ln + 1) (ln + 1)
    (chunk_lines_loop ln rest c (S n))) as H1.
  { intros c. eapply parses_mono; [apply IH| |done|done]. cbn. lia. }
  destruct line as [|c text]; [apply H1|].
  repeat (case_scrutinee; [apply H1|]). destruct (Nat.eqb_spec n 0); cbn; [|split]; lia.
Qed.

Lemma chunk_bounds lines ln allow :
  lines ≠ [] →
  parses (λ r, 1 ≤ r.2 ≤ length lines) ln (ln + 1) (parse_update_file_chunk lines ln allow).
Proof.
  intros Hne. destruct lines as [|first rest]; [done|]. unfold parse_update_file_chunk.
  apply parses_bind with (ok := λ h, h.2 ≤ 1).
  { repeat case_scrutinee; cbn; lia. }
  intros [ctx start] _ Hs. cbn [snd] in Hs.
  destruct (Nat.leb_spec (length (first :: rest)) start); [cbn; lia|].
  rewrite slice_from_ok by (cbn in *; lia). cbn [mbind outcome_bind].
  eapply parses_bind; [eapply parses_mono; [apply chunk_lines_loop_bounds|intros ? HH; exact HH|lia|lia]|].
  intros [c n] _ [Hb Hp]. rewrite length_drop in Hb. cbn [snd parses] in *.
  assert (drop start (first :: rest) ≠ []) as Hd.
  { intros E. apply (f_equal length) in E. rewrite length_drop in E. cbn in *. lia. }
  specialize (Hp Hd). lia.
Qed.

Lemma update_loop_bounds fuel ln lines parsed chunks :
  length lines ≤ fuel →
  parses (λ r, parsed ≤ r.2 ≤ parsed + length lines) (ln + parsed) (ln + parsed + length lines)
    (update_loop fuel ln lines parsed chunks).
Proof.
  revert lines parsed chunks. induction fuel as [|fuel IH]; intros lines parsed chunks Hf;
    (destruct lines as [|line rest]; cbn [update_loop length] in *; [cbn; lia|]); [lia|].
  case_scrutinee.
  { eapply parses_mono; [apply IH; lia| |lia|lia]. cbn. lia. }
  case_scrutinee; [cbn; lia|].
  eapply parses_bind; [eapply parses_mono; [by apply chunk_bounds|intros ? HH; exact HH|lia|lia]|].
  intros [c k] _ Hk. cbn [snd fst length] in *. rewrite slice_from_ok by (cbn; lia). cbn [mbind outcome_bind].
  eapply parses_mono; [apply IH; rewrite length_drop; cbn; lia| | |];
    rewrite ?length_drop; cbn [length]; [|lia|lia]. intros a. cbn. lia.
Qed.

Lemma add_file_lines_bound lines : (add_file_lines lines).2 ≤ length lines.
Proof.
  induction lines as [|l rest IH]; cbn; [lia|].
  destruct l as [|c l]; [cbn; lia|]. case_decide; [|cbn; lia].
  destruct (add_file_lines rest). cbn in *. lia.
Qed.

Lemma hunk_bounds lines ln :
  lines ≠ [] → parses (λ r, 1 ≤ r.2 ≤ length lines) ln (ln + length lines) (parse_one_hunk lines ln).
Proof.
  intros Hne. destruct lines as [|line0 rest]; [done|]. unfold parse_one_hunk. cbn [index lookup list_lookup mbind outcome_bind].
  destruct (strip_prefix ADD_FILE_MARKER (trim line0)) as [path|].
  { rewrite slice_from_ok by (cbn; lia). cbn [mbind outcome_bind drop]. rewrite drop_0.
    pose proof (add_file_lines_bound rest). destruct (add_file_lines rest). cbn in *. lia. }
  destruct (strip_prefix DELETE_FILE_MARKER (trim line0)) as [path|]; [cbn; lia|].
  destruct (strip_prefix UPDATE_FILE_MARKER (trim line0)) as [path|]; [|cbn; lia].
  rewrite slice_from_ok by (cbn; lia). cbn [mbind outcome_bind drop]. rewrite drop_0.
  assert (∀ mv lines p, 1 ≤ p → p + length lines = S (length rest) →
    parses (λ r, 1 ≤ r.2 ≤ length (line0 :: rest)) ln (ln + length (line0 :: rest))
      (let? r := update_loop (length lines) ln lines p [] in
       if bool_decide (r.1 = []) then Err (InvalidHunkError (empty_update_message path) ln)
       else Ok (UpdateFile path mv r.1, r.2))) as H1.
  { intros mv lines p Hp Hl. cbn [length].
    eapply parses_bind; [eapply parses_mono; [by apply update_loop_bounds|intros ? HH; exact HH|lia|lia]|].
    intros [cs n] _ Hn. cbn [fst snd] in *. case_bool_decide; cbn; lia. }
  destruct rest as [|l rest]; [apply H1; cbn; lia|]. cbn [head mbind option_bind].
  destruct (strip_prefix MOVE_TO_MARKER l) as [dest|].
  - rewrite slice_from_ok by (cbn; lia). cbn [mbind outcome_bind drop]. rewrite drop_0. apply H1; cbn; lia.
  - cbn [mbind outcome_bind]. apply H1; cbn; lia.
Qed.

Lemma hunks_loop_bounds fuel lines ln hunks :
  length lines ≤ fuel → parses (λ _, True) ln (ln + length lines) (hunks_loop fuel lines ln hunks).
Proof.
  revert lines ln hunks. induction fuel as [|fuel IH]; intros lines ln hunks Hf;
    (destruct lines as [|line rest]; cbn [hunks_loop length] in *; [cbn; lia|]); [lia|].
  eapply parses_bind; [by apply hunk_bounds|].
  intros [h k] _ Hk. cbn [snd fst length] in *. rewrite slice_from_ok by (cbn; lia). cbn [mbind outcome_bind].
  eapply parses_mono; [apply IH; rewrite length_drop; cbn; lia|done|lia|rewrite length_drop; cbn; lia].
Qed.

Lemma boundaries_strict_spec ls :
  match check_patch_boundaries_strict ls with
  | Ok (patch_lines, inner) => patch_lines = ls ∧ length ls = length inner + 2
  | Err (InvalidPatchError _) => True
  | _ => False
  end.
Proof.
  unfold check_patch_boundaries_strict, check_start_and_end_lines_strict.
  destruct ls as [|x ls]; [done|].
  destruct (last (x :: ls)) as [l|] eqn:El; cbn [head fmap option_fmap option_map]; [|by apply last_None in El].
  case_bool_decide as Hb; [|case_bool_decide; done].
  case_bool_decide as He; [|by rewrite ?bool_decide_eq_true_2].
  cbn [andb mbind outcome_bind]. destruct ls as [|y ls].
  { injection El as <-. rewrite Hb in He. done. }
  unfold slice. rewrite (proj2 (Nat.leb_le 1 _)), (proj2 (Nat.leb_le _ (length (x :: y :: ls)))) by (cbn; lia).
  cbn [andb mbind outcome_bind]. split; [done|]. len.
Qed.

Lemma boundaries_lenient_spec ls :
  match check_patch_boundaries_lenient ls with
  | Ok (patch_lines, inner) => length inner + 2 ≤ length ls
  | Err (InvalidPatchError _) => True
  | _ => False
  end.
Proof.
  unfold check_patch_boundaries_lenient. pose proof (boundaries_strict_spec ls) as Hs.
  destruct (check_patch_boundaries_strict ls) as [[pl inner]|[m|]|]; try done; [lia|].
  destruct ls as [|x [|y ls]]; try done. destruct (last (x :: y :: ls)); [|done].
  destruct (_ && (4 <=? length (x :: y :: ls))) eqn:E; [|done]. apply andb_true_iff in E as [_ E].
  apply Nat.leb_le in E. unfold slice.
  rewrite (proj2 (Nat.leb_le 1 _)), (proj2 (Nat.leb_le _ (length (x :: y :: ls)))) by (cbn in *; lia).
  cbn [andb mbind outcome_bind].
  match goal with |- context [check_patch_boundaries_strict ?l] => pose proof (boundaries_strict_spec l) as Hs2;
    destruct (check_patch_boundaries_strict l) as [[pl2 inner2]|[m2|]|] end; try done.
  destruct Hs2 as [-> Hs2]. autorewrite with lens in Hs2. cbn [length] in *. lia.
Qed.

(** ** Properties *)

(** Parsing always returns, within fuel and without a slice out of range,
    and an error about a hunk names a line of the patch after its first one. *)
Theorem parse_patch_total (patch : rstring) :
  match parse_patch patch with
  | Ok _ => True
  | Err (InvalidPatchError _) => True
  | Err (InvalidHunkError _ line_number) => 2 ≤ line_number ≤ length (lines (trim patch))
  | Panic => False
  end.
Proof.
  unfold parse_patch, parse_patch_text. cbn [PARSE_IN_STRICT_MODE].
  pose proof (boundaries_lenient_spec (lines (trim patch))) as Hb.
  destruct (check_patch_boundaries_lenient _) as [[pl inner]|[m|]|]; try done. cbn [mbind outcome_bind].
  assert (∃ env rest ln, parse_environment_id_preamble inner = Ok (env, rest, ln) ∧ 2 ≤ ln ∧ ln + length rest = length inner + 2
    ∨ ∃ m, parse_environment_id_preamble inner = Err (InvalidPatchError m)) as (env & rest & ln & [(-> & Hln & Hl)|[m ->]]).
  { unfold parse_environment_id_preamble. destruct inner as [|l inner]; [exists None, [], 2; left; split_and!; [done|lia|cbn; lia]|].
    destruct (strip_prefix _ _) as [e|]; [|exists None, (l :: inner), 2; left; split_and!; [done|lia|cbn; lia]].
    case_bool_decide; [exists None, [], 2; right; eauto|].
    exists (Some (trim e)), inner, 3. left. split_and!; [done|lia|cbn; lia]. }
  - cbn [mbind outcome_bind]. pose proof (hunks_loop_bounds (length rest) rest ln [] (le_n _)) as Hh.
    destruct (hunks_loop _ _ _ _) as [hs|[m|m n]|]; cbn in *; try done. lia.
  - done.
Qed.
