(* ===== verification/PatchRoundtrip.v ===== *)
(** * Patches as text ([apply-patch/src/parser.rs], the grammar of its header)

    The abstract syntax of the patch grammar, its rendering, and the proof that
    the parser reads a rendered patch back.  The second half is the heredoc
    wrapper of the lenient mode. *)
From S2P Require Import Prelude RustStr SeekSequence Replacements PatchParser.

Inductive change_line := Ctx (l : rstring) | Ins (l : rstring) | Del (l : rstring).
Inductive chunk_header := NoHeader | EmptyHeader | ContextHeader (context : rstring).
Record chunk_ast := mk_chunk_ast { ch_header : chunk_header; ch_lines : list change_line; ch_eof : bool }.
Inductive hunk_ast :=
| AAdd (path : rstring) (ls : list rstring)
| ADelete (path : rstring)
| AUpdate (path : rstring) (move : option rstring) (chunks : list chunk_ast).
Record patch_ast := mk_patch_ast { pa_env : option rstring; pa_hunks : list hunk_ast }.

(** Rendering, line by line. *)
Definition render_change (c : change_line) : rstring :=
  match c with Ctx l => chr " " :: l | Ins l => chr "+" :: l | Del l => chr "-" :: l end.
Definition render_header (h : chunk_header) : list rstring :=
  match h with
  | NoHeader => []
  | EmptyHeader => [EMPTY_CHANGE_CONTEXT_MARKER]
  | ContextHeader c => [CHANGE_CONTEXT_MARKER ++ c]
  end.
Definition render_chunk (c : chunk_ast) : list rstring :=
  render_header (ch_header c) ++ (render_change <$> ch_lines c) ++ (if ch_eof c then [EOF_MARKER] else []).
Definition render_hunk (h : hunk_ast) : list rstring :=
  match h with
  | AAdd path ls => (ADD_FILE_MARKER ++ path) :: (cons (chr "+") <$> ls)
  | ADelete path => [DELETE_FILE_MARKER ++ path]
  | AUpdate path move chunks =>
      (UPDATE_FILE_MARKER ++ path) ::
      (if move is Some dest then [MOVE_TO_MARKER ++ dest] else []) ++ (chunks ≫= render_chunk)
  end.
Definition render_body (p : patch_ast) : list rstring :=
  (if pa_env p is Some id then [ENVIRONMENT_ID_MARKER ++ id] else []) ++ (pa_hunks p ≫= render_hunk).
Definition render_lines (p : patch_ast) : list rstring :=
  BEGIN_PATCH_MARKER :: render_body p ++ [END_PATCH_MARKER].
Definition render_patch (p : patch_ast) : rstring := text_of (render_lines p).

(** What the parser should make of it. *)
Definition chunk_value (c : chunk_ast) : UpdateFileChunk :=
  mk_update_chunk
    (match ch_header c with ContextHeader ctx => Some ctx | _ => None end)
    (ch_lines c ≫= λ l, match l with Ctx l | Del l => [l] | Ins _ => [] end)
    (ch_lines c ≫= λ l, match l with Ctx l | Ins l => [l] | Del _ => [] end)
    (ch_eof c).
Definition hunk_value (h : hunk_ast) : Hunk :=
  match h with
  | AAdd path ls => AddFile path (text_of ls)
  | ADelete path => DeleteFile path
  | AUpdate path move chunks => UpdateFile path move (chunk_value <$> chunks)
  end.

(** Texts the grammar can carry. *)
Definition path_ok (p : rstring) : Prop := p ≠ [] ∧ trim_end p = p ∧ newline ∉ p.
Definition change_text (c : change_line) : rstring := match c with Ctx l | Ins l | Del l => l end.
Definition header_ok (first : bool) (c : chunk_ast) : Prop :=
  match ch_header c with
  | NoHeader => first = true ∧ from_option (λ l, trim (render_change l) ≠ []) True (head (ch_lines c))
  | EmptyHeader => True
  | ContextHeader ctx => line_ok ctx
  end.
Definition chunk_ok (first : bool) (c : chunk_ast) : Prop :=
  ch_lines c ≠ [] ∧ Forall (λ l, line_ok (change_text l)) (ch_lines c) ∧ header_ok first c.
Definition chunks_ok (cs : list chunk_ast) : Prop :=
  match cs with [] => False | c :: cs => chunk_ok true c ∧ Forall (chunk_ok false) cs end.
Definition hunk_ok (h : hunk_ast) : Prop :=
  match h with
  | AAdd path ls => path_ok path ∧ Forall line_ok ls
  | ADelete path => path_ok path
  | AUpdate path move chunks => path_ok path ∧ from_option line_ok True move ∧ chunks_ok chunks
  end.
Definition env_ok (e : rstring) : Prop := e ≠ [] ∧ trim e = e ∧ newline ∉ e.
Definition patch_ok (p : patch_ast) : Prop := from_option env_ok True (pa_env p) ∧ Forall hunk_ok (pa_hunks p).

(** ** Chunks *)
Definition push_change (c : UpdateFileChunk) (l : change_line) : UpdateFileChunk :=
  match l with
  | Ctx l => push_old_new c [l] [l]
  | Ins l => push_old_new c [] [l]
  | Del l => push_old_new c [l] []
  end.

Lemma loop_changes ln cls tail chunk n :
  chunk_lines_loop ln ((render_change <$> cls) ++ tail) chunk n =
  chunk_lines_loop ln tail (foldl push_change chunk cls) (n + length cls).
Proof.
  revert chunk n. induction cls as [|c cls IH]; intros chunk n; cbn [fmap list_fmap app foldl length].
  { by rewrite Nat.add_0_r. }
  rewrite Nat.add_succ_r, <- Nat.add_succ_l. specialize (IH (push_change chunk c) (S n)).
  cbn [fmap] in IH. destruct c; exact IH.
Qed.

Lemma push_changes_value h e cls :
  foldl push_change (mk_update_chunk (match h with ContextHeader ctx => Some ctx | _ => None end) [] [] e) cls =
  chunk_value (mk_chunk_ast h cls e).
Proof.
  unfold chunk_value. cbn [ch_header ch_lines ch_eof].
  assert (∀ c, foldl push_change c cls =
    mk_update_chunk (change_context c)
      (old_lines c ++ (cls ≫= λ l, match l with Ctx l | Del l => [l] | Ins _ => [] end))
      (new_lines c ++ (cls ≫= λ l, match l with Ctx l | Ins l => [l] | Del _ => [] end))
      (is_end_of_file c)) as H; [|apply H].
  induction cls as [|l cls IH]; intros c; [cbn; destruct c; by rewrite !app_nil_r|].
  cbn [foldl]. rewrite IH. destruct l; cbn; by rewrite <- ?app_assoc, ?app_nil_r.
Qed.

(** The lines after a chunk that is not closed by the end-of-file marker. *)
Definition stops (rest : list rstring) : Prop :=
  match rest with
  | [] => True
  | line :: _ => line ≠ EOF_MARKER ∧
      match line with
      | [] => False
      | c :: _ => c ≠ chr " " ∧ c ≠ chr "+" ∧ c ≠ chr "-"
      end
  end.

Lemma loop_stops ln rest chunk n :
  stops rest → n ≠ 0 → chunk_lines_loop ln rest chunk n = Ok (chunk, n).
Proof.
  intros Hs Hn. destruct rest as [|[|c line] rest]; [done|by destruct Hs|].
  destruct Hs as (He & H1 & H2 & H3). cbn [chunk_lines_loop].
  rewrite bool_decide_eq_false_2 by done.
  rewrite !(proj2 (N.eqb_neq _ _)), (proj2 (Nat.eqb_neq _ _)) by done. done.
Qed.

Lemma chunk_body ln h cls (eof : bool) rest :
  cls ≠ [] → (eof = false → stops rest) →
  chunk_lines_loop ln ((render_change <$> cls) ++ (if eof then [EOF_MARKER] else []) ++ rest)
    (mk_update_chunk (match h with ContextHeader ctx => Some ctx | _ => None end) [] [] false) 0 =
  Ok (chunk_value (mk_chunk_ast h cls eof), length cls + if eof then 1 else 0).
Proof.
  intros Hne Hs. rewrite loop_changes, push_changes_value. cbn [Nat.add].
  assert (length cls ≠ 0) as Hl by (destruct cls; done). destruct eof.
  - cbn [app chunk_lines_loop]. rewrite bool_decide_eq_true_2 by done.
    rewrite (proj2 (Nat.eqb_neq _ _)) by done. unfold chunk_value. cbn. do 2 f_equal. lia.
  - cbn [app]. rewrite loop_stops by auto. by rewrite Nat.add_0_r.
Qed.

Lemma parse_chunk c rest ln first :
  chunk_ok first c → (ch_eof c = false → stops rest) →
  parse_update_file_chunk (render_chunk c ++ rest) ln first =
    Ok (chunk_value c, length (render_chunk c)).
Proof.
  intros (Hne & _ & Hh) Hs. destruct c as [h cls eof]. unfold render_chunk, header_ok in *.
  cbn [ch_header ch_lines ch_eof] in *. pose proof (chunk_body ln h cls eof rest Hne Hs) as Hb.
  assert (∀ n : nat, (n + (length cls + (if eof then 1 else 0)))%nat =
    (n + length ((render_change <$> cls) ++ (if eof then [EOF_MARKER] else [])))%nat) as Hlen.
  { intros n. rewrite length_app, length_fmap. by destruct eof. }
  destruct h as [| |ctx]; cbn [render_header app].
  - destruct Hh as [-> _]. destruct cls as [|l cls]; [done|].
    rewrite <- (app_assoc (render_change <$> l :: cls)).
    change (render_change <$> l :: cls) with (render_change l :: (render_change <$> cls)) in *.
    unfold parse_update_file_chunk. cbn [app] in *.
    rewrite bool_decide_eq_false_2 by (by destruct l).
    assert (strip_prefix CHANGE_CONTEXT_MARKER (render_change l) = None) as -> by (by destruct l).
    cbn [mbind outcome_bind length Nat.leb]. rewrite slice_from_ok by (cbn; lia). cbn [mbind outcome_bind].
    rewrite drop_0, Hb. cbn [mbind outcome_bind fst snd]. rewrite Nat.add_0_r.
    do 2 f_equal. specialize (Hlen 0). cbn in *. exact Hlen.
  - unfold parse_update_file_chunk. rewrite bool_decide_eq_true_2 by done. cbn [mbind outcome_bind].
    rewrite <- app_assoc. destruct cls as [|l cls]; [done|]. cbn [fmap list_fmap app length Nat.leb] in *.
    rewrite slice_from_ok by (cbn; lia). cbn [mbind outcome_bind drop]. rewrite ?drop_0.
    cbn [fmap] in Hb. rewrite Hb. cbn [mbind outcome_bind fst snd]. do 2 f_equal. specialize (Hlen 1). cbn in *. lia.
  - unfold parse_update_file_chunk. rewrite bool_decide_eq_false_2 by done.
    rewrite (proj2 (strip_prefix_Some CHANGE_CONTEXT_MARKER _ ctx)) by done. cbn [mbind outcome_bind].
    rewrite <- app_assoc. destruct cls as [|l cls]; [done|]. cbn [fmap list_fmap app length Nat.leb] in *.
    rewrite slice_from_ok by (cbn; lia). cbn [mbind outcome_bind drop]. rewrite ?drop_0.
    cbn [fmap] in Hb. rewrite Hb. cbn [mbind outcome_bind fst snd]. do 2 f_equal. specialize (Hlen 1). cbn in *. lia.
Qed.

(** ** Hunks *)

Lemma chunks_stop cs rest : Forall (chunk_ok false) cs → stops rest → stops ((cs ≫= render_chunk) ++ rest).
Proof.
  intros H Hr. destruct H as [|c cs (_ & _ & Hh) _]; [done|].
  destruct c as [h cls eof]. unfold header_ok in Hh. cbn [ch_header] in Hh.
  destruct h as [| |ctx]; [by destruct Hh| |]; done.
Qed.

(** A hunk header, or the end of the hunks: what may follow an update hunk. *)
Definition ends_hunk (rest : list rstring) : Prop :=
  match rest with [] => True | line :: _ => ∃ t, line = lit "*** " ++ t ∧ line ≠ EOF_MARKER end.

Lemma ends_hunk_stops rest : ends_hunk rest → stops rest.
Proof. destruct rest as [|line rest]; [done|]. intros (t & -> & Hne). done. Qed.

(** The first line of a chunk is neither blank nor a marker. *)
Lemma chunk_first_line first c :
  chunk_ok first c →
  ∃ line rest, render_chunk c = line :: rest ∧ trim line ≠ [] ∧ starts_with line [chr "*"] = false ∧
               strip_prefix MOVE_TO_MARKER line = None.
Proof.
  intros (Hne & _ & Hh). destruct c as [h cls eof]. unfold render_chunk, header_ok in *. cbn [ch_header ch_lines ch_eof] in *.
  destruct h as [| |ctx].
  - destruct cls as [|l cls]; [done|]. destruct Hh as [_ Hh]. cbn [head from_option] in Hh.
    exists (render_change l), ((render_change <$> cls) ++ if eof then [EOF_MARKER] else []).
    split_and!; [done|done| |by destruct l].
    destruct l; apply bool_decide_eq_false_2; intros [k Hk]; done.
  - eexists _, _. split_and!; [done|done|done|done].
  - eexists _, _. split_and!; [done| | |done].
    + unfold trim. change (CHANGE_CONTEXT_MARKER ++ ctx) with (chr "@" :: chr "@" :: chr " " :: ctx).
      rewrite trim_start_id by done. unfold trim_end.
      change (chr "@" :: chr "@" :: chr " " :: ctx) with ([chr "@"; chr "@"] ++ chr " " :: ctx).
      rewrite trim_end_matches_app. by case_bool_decide.
    + apply bool_decide_eq_false_2. intros [k Hk]. done.
Qed.

Lemma update_loop_chunks ln cs rest p acc fuel :
  (acc = [] → chunks_ok cs ∨ cs = []) → (acc ≠ [] → Forall (chunk_ok false) cs) →
  ends_hunk rest → length ((cs ≫= render_chunk) ++ rest) ≤ fuel →
  update_loop fuel ln ((cs ≫= render_chunk) ++ rest) p acc =
    Ok (acc ++ (chunk_value <$> cs), p + length (cs ≫= render_chunk)).
Proof.
  revert acc p fuel. induction cs as [|c cs IH]; intros acc p fuel H1 H2 Hrest Hfuel.
  - cbn. rewrite app_nil_r, Nat.add_0_r. destruct rest as [|line rest]; [by destruct fuel|].
    destruct fuel as [|fuel]; [cbn in Hfuel; lia|]. destruct Hrest as (t & -> & Hne). cbn [update_loop].
    rewrite bool_decide_eq_false_2.
    + assert (starts_with (lit "*** " ++ t) [chr "*"] = true) as ->; [|done].
      apply starts_with_spec. by eexists.
    + unfold trim. change (lit "*** " ++ t) with (chr "*" :: (lit "** " ++ t)).
      rewrite trim_start_id by done. change (chr "*" :: (lit "** " ++ t)) with ([chr "*"] ++ (lit "** " ++ t)).
      unfold trim_end. rewrite trim_end_matches_app. by case_bool_decide.
  - assert (chunk_ok (bool_decide (acc = [])) c ∧ Forall (chunk_ok false) cs) as [Hc Hcs].
    { case_bool_decide as Ha; [by destruct (H1 Ha) as [?|?]|]. specialize (H2 Ha). by inversion H2. }
    change ((c :: cs) ≫= render_chunk) with (render_chunk c ++ (cs ≫= render_chunk)) in *.
    rewrite <- app_assoc in *. pose proof Hc as Hparse.
    apply (parse_chunk c ((cs ≫= render_chunk) ++ rest) (ln + p)) in Hparse.
    2: { intros _. apply chunks_stop; [done|by apply ends_hunk_stops]. }
    destruct (chunk_first_line _ c Hc) as (line & more & Hline & Ht & Hs & _).
    destruct fuel as [|fuel]; [rewrite Hline in Hfuel; cbn in Hfuel; lia|].
    rewrite Hline in *. cbn [app update_loop]. rewrite bool_decide_eq_false_2 by done. rewrite Hs.
    cbn [app] in Hparse. rewrite Hparse. cbn [mbind outcome_bind fst snd].
    change (line :: more ++ (cs ≫= render_chunk) ++ rest) with ((line :: more) ++ (cs ≫= render_chunk) ++ rest).
    rewrite slice_from_ok by (rewrite length_app; lia). cbn [mbind outcome_bind].
    rewrite drop_app_length. rewrite IH; [|by destruct acc|done|done|].
    + rewrite <- app_assoc. cbn [length]. rewrite length_app. do 2 f_equal. lia.
    + cbn [app length] in Hfuel. rewrite length_app in Hfuel. lia.
Qed.

Lemma add_lines_render ls rest :
  match rest with [] => True | line :: _ => strip_prefix [chr "+"] line = None end →
  add_file_lines ((cons (chr "+") <$> ls) ++ rest) = (text_of ls, length ls).
Proof.
  intros Hrest. induction ls as [|l ls IH].
  - destruct rest as [|line rest]; [done|]. cbn [fmap list_fmap app add_file_lines]. by rewrite Hrest.
  - cbn [fmap list_fmap app add_file_lines length] in *.
    rewrite (proj2 (strip_prefix_Some [chr "+"] (chr "+" :: l) l)) by done. cbn [fmap] in IH.
    rewrite IH. by rewrite text_of_cons.
Qed.

Lemma trim_marker (m path : rstring) :
  path_ok path → head m = Some (chr "*") → trim (m ++ path) = m ++ path.
Proof.
  intros (Hne & Ht & _) Hm. destruct m as [|c m]; [done|]. assert (c = chr "*") as -> by (by injection Hm).
  unfold trim. cbn [app]. rewrite trim_start_id by done. exact (trim_end_app_id (chr "*" :: m) path Hne Ht).
Qed.

Lemma hunk_roundtrip h rest ln :
  hunk_ok h → ends_hunk rest →
  parse_one_hunk (render_hunk h ++ rest) ln = Ok (hunk_value h, length (render_hunk h)).
Proof.
  intros Hok Hrest. unfold parse_one_hunk.
  destruct h as [path ls|path|path move chunks]; cbn [render_hunk app index lookup list_lookup mbind outcome_bind].
  - destruct Hok as [Hp Hls]. rewrite trim_marker by done.
    rewrite (proj2 (strip_prefix_Some _ _ path)) by done.
    rewrite slice_from_ok by (cbn; lia). cbn [mbind outcome_bind drop]. rewrite ?drop_0.
    rewrite add_lines_render; [cbn [length hunk_value]; by rewrite length_fmap|].
    destruct rest as [|line rest]; [done|]. by destruct Hrest as (t & -> & _).
  - rewrite trim_marker by done. assert (strip_prefix ADD_FILE_MARKER (DELETE_FILE_MARKER ++ path) = None) as -> by done.
    by rewrite (proj2 (strip_prefix_Some _ _ path)).
  - destruct Hok as (Hp & Hmv & Hcs). rewrite trim_marker by done.
    assert (strip_prefix ADD_FILE_MARKER (UPDATE_FILE_MARKER ++ path) = None) as -> by done.
    assert (strip_prefix DELETE_FILE_MARKER (UPDATE_FILE_MARKER ++ path) = None) as -> by done.
    rewrite (proj2 (strip_prefix_Some _ _ path)) by done.
    rewrite slice_from_ok by (cbn; lia). cbn [mbind outcome_bind drop]. rewrite ?drop_0.
    assert (∀ p, update_loop (length ((chunks ≫= render_chunk) ++ rest)) ln ((chunks ≫= render_chunk) ++ rest) p [] =
      Ok (chunk_value <$> chunks, p + length (chunks ≫= render_chunk))) as Hloop.
    { intros p. apply (update_loop_chunks ln chunks rest p []); [by left|done|done|done]. }
    assert ((chunk_value <$> chunks) ≠ []) as Hne by (by destruct chunks).
    destruct move as [dest|]; cbn [app head mbind option_bind].
    + rewrite (proj2 (strip_prefix_Some _ _ dest)) by done.
      rewrite slice_from_ok by (cbn; lia). cbn [mbind outcome_bind drop]. rewrite ?drop_0, Hloop.
      cbn [mbind outcome_bind fst snd]. by rewrite bool_decide_eq_false_2.
    + destruct chunks as [|c cs]; [done|]. destruct Hcs as [Hc _].
      assert (head (((c :: cs) ≫= render_chunk) ++ rest) ≫= strip_prefix MOVE_TO_MARKER = None) as Hm.
      { destruct (chunk_first_line _ c Hc) as (line & more & Hline & _ & _ & Hnm).
        change ((c :: cs) ≫= render_chunk) with (render_chunk c ++ (cs ≫= render_chunk)). by rewrite Hline. }
      change (@mbind option option_bind (list N) (list N) (@strip_prefix N _ MOVE_TO_MARKER))
        with (λ o : option rstring, o ≫= strip_prefix MOVE_TO_MARKER). cbn beta. rewrite Hm.
      cbn [mbind outcome_bind]. rewrite Hloop. cbn [mbind outcome_bind fst snd].
      by rewrite bool_decide_eq_false_2.
Qed.

Lemma hunk_first_line h :
  hunk_ok h → ∃ line rest, render_hunk h = line :: rest ∧ (∃ t, line = lit "*** " ++ t ∧ line ≠ EOF_MARKER) ∧
    strip_prefix ENVIRONMENT_ID_MARKER (trim_start line) = None.
Proof.
  intros H. destruct h; eexists _, _; (split_and!; [done| |done]); eexists; (split; [reflexivity|done]).
Qed.

Lemma hunks_end hs : Forall hunk_ok hs → ends_hunk (hs ≫= render_hunk).
Proof.
  intros H. destruct H as [|h hs Hh _]; [done|].
  destruct (hunk_first_line h Hh) as (line & rest & Hl & Ht & _).
  change ((h :: hs) ≫= render_hunk) with (render_hunk h ++ (hs ≫= render_hunk)). by rewrite Hl.
Qed.

Lemma hunks_roundtrip hs ln acc fuel :
  Forall hunk_ok hs → length (hs ≫= render_hunk) ≤ fuel →
  hunks_loop fuel (hs ≫= render_hunk) ln acc = Ok (acc ++ (hunk_value <$> hs)).
Proof.
  intros H. revert ln acc fuel. induction H as [|h hs Hh Hhs IH]; intros ln acc fuel Hf.
  { cbn. rewrite app_nil_r. by destruct fuel. }
  pose proof (hunk_roundtrip h (hs ≫= render_hunk) ln Hh (hunks_end hs Hhs)) as Hp.
  destruct (hunk_first_line h Hh) as (line & rest & Hl & _).
  change ((h :: hs) ≫= render_hunk) with (render_hunk h ++ (hs ≫= render_hunk)) in *.
  rewrite Hl in *. cbn [app length] in *. destruct fuel as [|fuel]; [lia|]. cbn [hunks_loop].
  rewrite Hp. cbn [mbind outcome_bind fst snd].
  change (line :: rest ++ (hs ≫= render_hunk)) with ((line :: rest) ++ (hs ≫= render_hunk)).
  rewrite slice_from_ok by (rewrite length_app; cbn; lia). cbn [mbind outcome_bind].
  change (S (length rest)) with (length (line :: rest)). rewrite drop_app_length.
  rewrite IH by (rewrite length_app in Hf; lia). by rewrite <- app_assoc.
Qed.

(** ** Whole patches *)

Lemma path_line_ok p : path_ok p → line_ok p.
Proof.
  intros (Hne & Ht & Hn). split; [done|]. intros Hl. by pose proof (trim_end_last _ _ Ht Hl).
Qed.

(** [line_ok] of a literal, by computation, and of a literal before a good line. *)
Ltac line_ok_lit := apply (bool_decide_unpack _); vm_compute; exact I.
Ltac line_ok_app := apply (line_ok_app _ _); [line_ok_lit|].

Lemma render_change_line l : line_ok (change_text l) → line_ok (render_change l).
Proof. intros Hl. destruct l; (apply (line_ok_app [_]); [line_ok_lit|done]). Qed.

Lemma render_chunk_lines first c : chunk_ok first c → Forall line_ok (render_chunk c).
Proof.
  intros (_ & Hls & Hh). unfold render_chunk. rewrite !Forall_app. split_and!.
  - unfold header_ok in Hh. destruct (ch_header c); cbn [render_header].
    + done.
    + apply Forall_singleton. line_ok_lit.
    + apply Forall_singleton. by line_ok_app.
  - apply Forall_fmap. eapply Forall_impl; [exact Hls|]. apply render_change_line.
  - destruct (ch_eof c); [|done]. apply Forall_singleton. line_ok_lit.
Qed.

Lemma render_hunk_lines h : hunk_ok h → Forall line_ok (render_hunk h).
Proof.
  destruct h as [path ls|path|path mv cs]; cbn [render_hunk hunk_ok].
  - intros [Hp Hls]. constructor; [line_ok_app; by apply path_line_ok|].
    apply Forall_fmap. eapply Forall_impl; [exact Hls|]. intros l Hl. by apply (render_change_line (Ins l)).
  - intros Hp. apply Forall_singleton. line_ok_app. by apply path_line_ok.
  - intros (Hp & Hmv & Hcs). constructor; [line_ok_app; by apply path_line_ok|].
    apply Forall_app. split.
    + destruct mv as [dest|]; [|done]. apply Forall_singleton. by line_ok_app.
    + apply Forall_bind. destruct cs as [|c cs]; [done|]. destruct Hcs as [Hc Hcs].
      constructor; [by eapply render_chunk_lines|].
      eapply Forall_impl; [exact Hcs|]. intros c'. apply render_chunk_lines.
Qed.

Lemma env_line_ok e : env_ok e → line_ok e.
Proof.
  intros (Hne & Ht & Hn). split; [done|]. intros Hl.
  apply trimmed_end in Ht as He.
  by pose proof (trim_end_last _ _ He Hl).
Qed.

Lemma render_body_lines p : patch_ok p → Forall line_ok (render_body p).
Proof.
  intros [He Hh]. unfold render_body. apply Forall_app. split.
  - destruct (pa_env p) as [e|]; [|done]. apply Forall_singleton. line_ok_app. by apply env_line_ok.
  - apply Forall_bind. eapply Forall_impl; [exact Hh|]. apply render_hunk_lines.
Qed.

Lemma render_patch_lines p : patch_ok p → lines (trim (render_patch p)) = render_lines p.
Proof.
  intros Hp. unfold render_patch, render_lines.
  rewrite (app_comm_cons (render_body p)), text_of_app.
  change (text_of [END_PATCH_MARKER]) with (END_PATCH_MARKER ++ [newline]). rewrite app_assoc, trim_app_ws by (by repeat constructor).
  assert (trim (text_of (BEGIN_PATCH_MARKER :: render_body p) ++ END_PATCH_MARKER) =
          text_of (BEGIN_PATCH_MARKER :: render_body p) ++ END_PATCH_MARKER) as ->.
  { unfold trim. rewrite text_of_cons.
    change ((BEGIN_PATCH_MARKER ++ ?x) ++ ?y) with (chr "*" :: (tail BEGIN_PATCH_MARKER ++ x) ++ y).
    rewrite trim_start_id by done. rewrite app_comm_cons. by apply trim_end_app_id. }
  apply lines_text_of_app; [|by apply (bool_decide_unpack _)|done].
  constructor; [line_ok_lit|by apply render_body_lines].
Qed.

Lemma boundaries_strict_intro f mid l :
  trim f = BEGIN_PATCH_MARKER → trim l = END_PATCH_MARKER →
  check_patch_boundaries_strict (f :: mid ++ [l]) = Ok (f :: mid ++ [l], mid).
Proof.
  intros Hf Hl. unfold check_patch_boundaries_strict, check_start_and_end_lines_strict.
  rewrite app_comm_cons, last_snoc. cbn [head fmap option_fmap option_map app]. rewrite Hf, Hl.
  rewrite !bool_decide_eq_true_2 by done. cbn [andb mbind outcome_bind].
  unfold slice. rewrite (proj2 (Nat.leb_le 1 _)) by (cbn; len).
  rewrite (proj2 (Nat.leb_le _ (length _))) by (cbn; len). cbn [andb mbind outcome_bind].
  do 2 f_equal. change (drop 1 (f :: mid ++ [l])) with (mid ++ [l]).
  replace (length (f :: mid ++ [l]) - 1 - 1) with (length mid) by (cbn; len). apply take_app_length.
Qed.
Lemma boundaries_strict_ok body :
  check_patch_boundaries_strict (BEGIN_PATCH_MARKER :: body ++ [END_PATCH_MARKER]) =
    Ok (BEGIN_PATCH_MARKER :: body ++ [END_PATCH_MARKER], body).
Proof. by apply boundaries_strict_intro. Qed.

Lemma preamble_ok p :
  patch_ok p →
  ∃ n, parse_environment_id_preamble (render_body p) = Ok (pa_env p, pa_hunks p ≫= render_hunk, n).
Proof.
  intros [He Hh]. unfold render_body. destruct (pa_env p) as [e|]; cbn [app].
  - exists 3. unfold parse_environment_id_preamble. destruct He as (Hne & Ht & _).
    change (trim_start (ENVIRONMENT_ID_MARKER ++ e)) with (ENVIRONMENT_ID_MARKER ++ e).
    rewrite (proj2 (strip_prefix_Some _ _ e)) by done. rewrite Ht. by rewrite bool_decide_eq_false_2.
  - exists 2. destruct Hh as [|h hs Hh _]; [done|].
    destruct (hunk_first_line h Hh) as (line & rest & Hl & _ & Hn).
    change ((h :: hs) ≫= render_hunk) with (render_hunk h ++ (hs ≫= render_hunk)). rewrite Hl. cbn [app].
    unfold parse_environment_id_preamble. by rewrite Hn.
Qed.

Lemma parse_render (p : patch_ast) :
  patch_ok p →
  parse_patch (render_patch p) =
    Ok (mk_patch_args (join_with [newline] (render_lines p)) (hunk_value <$> pa_hunks p) None (pa_env p)).
Proof.
  intros Hp. unfold parse_patch, parse_patch_text. cbn [PARSE_IN_STRICT_MODE]. rewrite render_patch_lines by done.
  unfold check_patch_boundaries_lenient. unfold render_lines at 1 2. rewrite boundaries_strict_ok.
  cbn [mbind outcome_bind]. destruct (preamble_ok p Hp) as (n & ->). cbn [mbind outcome_bind].
  rewrite hunks_roundtrip by (try apply Hp; done). done.
Qed.

(** ** Properties *)

(** C24: parsing reads a rendered patch back: for every patch of the grammar
    the parser returns the hunks, chunks and environment it was rendered from. *)
Theorem patch_roundtrip (p : patch_ast) :
  patch_ok p →
  parse_patch (render_patch p) =
    Ok (mk_patch_args (join_with [newline] (render_lines p)) (hunk_value <$> pa_hunks p) None (pa_env p)).
Proof. apply parse_render. Qed.

(** A patch with all three kinds of hunks, a rename, a chunk without a header
    and one at the end of the file. *)
Definition sample_patch : patch_ast :=
  mk_patch_ast (Some (lit "env-1"))
    [AAdd (lit "a.txt") [lit "one"; []];
     ADelete (lit "b.txt");
     AUpdate (lit "c.txt") (Some (lit "d.txt"))
       [mk_chunk_ast NoHeader [Ctx (lit "fn f"); Del (lit "x"); Ins (lit "y")] false;
        mk_chunk_ast (ContextHeader (lit "fn g")) [Ins (lit "@@ z")] false;
        mk_chunk_ast EmptyHeader [Del (lit "*** End of File")] true]].

Lemma sample_patch_ok : patch_ok sample_patch.
Proof. repeat (split || constructor); try done; try line_ok_lit; try by apply (bool_decide_unpack _). Qed.

Lemma patch_roundtrip_witness :
  parse_patch (render_patch sample_patch) =
    Ok (mk_patch_args (join_with [newline] (render_lines sample_patch))
          [AddFile (lit "a.txt") (text_of [lit "one"; []]);
           DeleteFile (lit "b.txt");
           UpdateFile (lit "c.txt") (Some (lit "d.txt"))
             [mk_update_chunk None [lit "fn f"; lit "x"] [lit "fn f"; lit "y"] false;
              mk_update_chunk (Some (lit "fn g")) [] [lit "@@ z"] false;
              mk_update_chunk None [lit "*** End of File"] [] true]]
          None (Some (lit "env-1"))).
Proof. apply (patch_roundtrip sample_patch). exact sample_patch_ok. Defined.

(** A patch wrapped as a heredoc body that was not unwrapped by a shell. *)
Definition heredoc_wrap (opener text : rstring) : rstring :=
  opener ++ newline :: trim text ++ newline :: lit "EOF".

Lemma heredoc_opener_cases opener :
  heredoc_opener opener = true →
  ∃ o, opener = chr "<" :: o ∧ line_ok opener ∧ bool_decide (trim opener = BEGIN_PATCH_MARKER) = false.
Proof.
  unfold heredoc_opener. rewrite !orb_true_iff, !bool_decide_eq_true.
  intros [[->| ->]| ->]; eexists; (split_and!; [reflexivity|line_ok_lit|done]).
Qed.

Lemma heredoc_lines opener text :
  heredoc_opener opener = true → trim text ≠ [] →
  lines (trim (heredoc_wrap opener text)) = opener :: lines (trim text) ++ [lit "EOF"].
Proof.
  intros (o & Ho & [Hol1 Hol2] & _)%heredoc_opener_cases Hne.
  assert (trim (heredoc_wrap opener text) = heredoc_wrap opener text) as ->.
  { assert (heredoc_wrap opener text = (chr "<" :: (o ++ newline :: trim text ++ [newline])) ++ lit "EOF") as ->.
    { unfold heredoc_wrap. rewrite Ho. cbn [app]. rewrite <- !app_assoc. cbn [app]. by rewrite <- app_assoc. }
    unfold trim. rewrite <- app_comm_cons, trim_start_id by done. rewrite app_comm_cons. by apply trim_end_app_id. }
  assert (∀ c, last (trim text) = Some c → is_whitespace c = false) as Hlast.
  { intros c. apply trim_end_last, trim_end_idemp. }
  assert (lines opener = [opener]) as Hlines.
  { unfold lines. rewrite split_inclusive_last; [|done|by rewrite Ho]. cbn. by rewrite lines_map_last. }
  unfold heredoc_wrap. rewrite lines_app_newline; [|by rewrite Ho| |done].
  - rewrite Hlines. cbn [app]. rewrite lines_app_newline; [done|done| |]; intros E; by apply Hlast in E.
  - intros E. apply Hol1. rewrite last_Some in E. destruct E as [l ->]. apply elem_of_app. right. by left.
Qed.

Lemma boundaries_lenient_heredoc opener ls r :
  heredoc_opener opener = true → check_patch_boundaries_strict ls = Ok r →
  check_patch_boundaries_lenient (opener :: ls ++ [lit "EOF"]) = Ok r.
Proof.
  intros Ho Hb. destruct (heredoc_opener_cases _ Ho) as (_ & _ & _ & Hob).
  pose proof (boundaries_strict_spec ls) as Hs. rewrite Hb in Hs. destruct r as [pl inner], Hs as [-> Hlen].
  unfold check_patch_boundaries_lenient.
  assert (∃ m, check_patch_boundaries_strict (opener :: ls ++ [lit "EOF"]) = Err (InvalidPatchError m)) as [m ->].
  { unfold check_patch_boundaries_strict, check_start_and_end_lines_strict.
    rewrite last_cons, last_snoc. cbn [head fmap option_fmap option_map]. rewrite Hob. cbn. eauto. }
  destruct ls as [|l1 ls]; [cbn in Hlen; lia|]. cbn [app].
  assert (last (opener :: l1 :: ls ++ [lit "EOF"]) = Some (lit "EOF")) as ->.
  { by rewrite !app_comm_cons, last_snoc. }
  rewrite Ho. assert (ends_with (lit "EOF") (lit "EOF") = true) as -> by done.
  rewrite (proj2 (Nat.leb_le 4 _)) by (cbn in *; len). cbn [andb].
  unfold slice. rewrite (proj2 (Nat.leb_le 1 _)), (proj2 (Nat.leb_le _ (length _))) by (cbn; len).
  cbn [andb mbind outcome_bind]. rewrite <- Hb. f_equal.
  change (drop 1 (opener :: l1 :: ls ++ [lit "EOF"])) with ((l1 :: ls) ++ [lit "EOF"]).
  replace (length (opener :: l1 :: ls ++ [lit "EOF"]) - 1 - 1) with (length (l1 :: ls)) by (cbn; len).
  apply take_app_length.
Qed.

(** Lenient parsing undoes the heredoc wrapper: whatever patch the strict
    parser accepts is read the same when it arrives wrapped. *)
Theorem heredoc_wrapper_is_transparent (opener text : rstring) (args : ApplyPatchArgs) :
  heredoc_opener opener = true → parse_patch_text text Strict = Ok args →
  parse_patch (heredoc_wrap opener text) = Ok args.
Proof.
  intros Ho H. unfold parse_patch, parse_patch_text in *. cbn [PARSE_IN_STRICT_MODE].
  apply bind_Ok in H as ([pl inner] & Hb & H).
  assert (trim text ≠ []) as Hne by (intros E; by rewrite E in Hb).
  rewrite heredoc_lines, (boundaries_lenient_heredoc _ _ _ Ho Hb) by done. exact H.
Qed.

Lemma heredoc_wrapper_is_transparent_witness :
  ∃ args, parse_patch (heredoc_wrap (lit "<<'EOF'") (render_patch sample_patch)) = Ok args ∧
          length (args_hunks args) = 3.
Proof.
  destruct (parse_patch_text (render_patch sample_patch) Strict) as [args|e|] eqn:E;
    [|exfalso; revert E; vm_compute; discriminate..].
  exists args. split.
  - apply (heredoc_wrapper_is_transparent (lit "<<'EOF'") (render_patch sample_patch)); [reflexivity|exact E].
  - revert E. vm_compute. intros [= <-]. reflexivity.
Defined.

(** ** Parsing the recorded patch again *)
(** An action records the patch without a here-document wrapper, and its hunks
    are read from it a second time when it is applied. *)
Lemma split_inclusive_pieces sep s x :
  x ∈ split_inclusive sep s → ∃ l, (sep ∉ l) ∧ (x = l ∨ x = l ++ [sep]).
Proof.
  revert x. induction s as [|c s IH]; intros x; cbn [split_inclusive]; [by intros ?%elem_of_nil|].
  destruct (N.eqb_spec c sep) as [->|Hc].
  - intros [->|Hin]%elem_of_cons; [|by apply IH]. exists []. split; [apply not_elem_of_nil|by right].
  - destruct (split_inclusive sep s) as [|piece rest] eqn:E.
    + intros ->%list_elem_of_singleton. exists [c]. split; [|by left]. by intros ->%list_elem_of_singleton.
    + intros [->|Hin]%elem_of_cons; [|apply IH; by right].
      destruct (IH piece) as (l & Hl & Hx); [by left|]. exists (c :: l).
      split; [by apply not_elem_of_cons|]. destruct Hx as [->| ->]; auto.
Qed.
Lemma lines_no_newline s l : l ∈ lines s → newline ∉ l.
Proof.
  unfold lines. intros (x & -> & (k & Hk & Hx)%split_inclusive_pieces)%list_elem_of_fmap.
  destruct Hx as [->| ->]; [by rewrite lines_map_last|]. unfold lines_map.
  rewrite (proj2 (strip_suffix_Some [newline] _ k)) by done.
  destruct (strip_suffix [cr] k) as [j|] eqn:E; cbn; [|done].
  apply strip_suffix_Some in E as ->. rewrite elem_of_app in Hk. tauto.
Qed.

Lemma boundaries_strict_inv ls pl hl :
  check_patch_boundaries_strict ls = Ok (pl, hl) →
  pl = ls ∧ ∃ f l, ls = f :: hl ++ [l] ∧ trim f = BEGIN_PATCH_MARKER ∧ trim l = END_PATCH_MARKER.
Proof.
  unfold check_patch_boundaries_strict. intros ([] & Hc & (inner & Hs & [= <- <-])%bind_Ok)%bind_Ok. split; [done|].
  unfold check_start_and_end_lines_strict in Hc. destruct ls as [|f ls]; [done|]. cbn [head fmap option_fmap option_map] in Hc.
  destruct ls as [|l ls _] using rev_ind.
  { cbn in Hc. case_bool_decide as H1; [|done]. case_bool_decide as H2; [|done]. by rewrite H1 in H2. }
  rewrite app_comm_cons, last_snoc in Hc. cbn in Hc.
  case_bool_decide as H1; [|done]. case_bool_decide as H2; [|done]. clear Hc. exists f, l. split_and!; [|done|done].
  unfold slice in Hs. case_match; [|done]. apply Ok_inj in Hs. cbn [drop] in Hs. rewrite drop_0 in Hs.
  replace (length (f :: ls ++ [l]) - 1 - 1) with (length ls) in Hs by (cbn; len). by rewrite take_app_length in Hs; subst.
Qed.
Lemma boundaries_lenient_inv ls pl hl :
  check_patch_boundaries_lenient ls = Ok (pl, hl) →
  (∀ x, x ∈ pl → x ∈ ls) ∧ check_patch_boundaries_strict pl = Ok (pl, hl).
Proof.
  unfold check_patch_boundaries_lenient. destruct (check_patch_boundaries_strict ls) as [r|e|] eqn:E; [| |done].
  - intros [= ->]. destruct (boundaries_strict_inv _ _ _ E) as [-> _]. done.
  - destruct ls as [|f [|g ls]]; [done|done|]. destruct (last (f :: g :: ls)); [|done]. case_match; [|done].
    intros (inner & Hs & Hi)%bind_Ok. destruct (boundaries_strict_inv _ _ _ Hi) as [-> _]. split; [|done].
    unfold slice in Hs. case_match; [|done]. injection Hs as <-. intros x Hx.
    apply elem_of_take in Hx as (i & Hx & _). right. by eapply list_elem_of_lookup_2.
Qed.

Lemma join_snoc mid (l : rstring) : join_with [newline] (mid ++ [l]) = text_of mid ++ l.
Proof.
  induction mid as [|x mid IH]; [done|]. rewrite text_of_cons, <- app_assoc, <- app_comm_cons. cbn [app]. rewrite <- IH.
  cbn [join_with]. by destruct (mid ++ [l]) eqn:E; [apply app_eq_nil in E as [_ ?]|].
Qed.
Lemma trim_ends f mid l :
  trim f ≠ [] → trim l ≠ [] →
  trim (text_of (f :: mid) ++ l) = text_of (trim_start f :: mid) ++ trim_end l.
Proof.
  intros Hf Hl. assert (trim_start f ≠ []) as Hf' by (intros E; apply Hf; unfold trim; by rewrite E).
  assert (trim_end l ≠ []) as Hl' by (intros E; apply Hl; by rewrite <- trim_trim_end, E).
  rewrite !text_of_cons, <- !app_assoc. cbn [app]. unfold trim. unfold trim_start in *. rewrite trim_start_matches_app.
  rewrite bool_decide_eq_false_2 by done. rewrite app_comm_cons, app_assoc. unfold trim_end in *. rewrite trim_end_matches_app.
  rewrite bool_decide_eq_false_2 by done. by rewrite <- app_assoc.
Qed.
Lemma trim_trim_start f : trim (trim_start f) = trim f.
Proof.
  unfold trim. f_equal. unfold trim_start. induction f as [|c f IH]; [done|]. cbn. destruct (is_whitespace c) eqn:Hc; [done|].
  cbn. by rewrite Hc.
Qed.

(** A carriage return that ends a line can be lost in the second reading. *)
Lemma reparse_lines ls f mid l :
  ls = f :: mid ++ [l] → Forall (λ x, newline ∉ x) ls → (cr ∉ join_with [newline] ls) →
  trim f = BEGIN_PATCH_MARKER → trim l = END_PATCH_MARKER →
  lines (trim (join_with [newline] ls)) = trim_start f :: mid ++ [trim_end l].
Proof.
  intros -> Hn Hcr Hf Hl. rewrite app_comm_cons in *. rewrite join_snoc in *.
  apply Forall_app in Hn as [Hn1 Hn2]. apply Forall_cons in Hn1 as [Hnf Hnm]. apply Forall_cons in Hn2 as [Hn2 _].
  rewrite trim_ends by (rewrite ?Hf, ?Hl; done).
  assert (∀ x y, x `suffix_of` y → newline ∉ y → newline ∉ x) as Hsuf.
  { intros x y [k ->]. rewrite not_elem_of_app. tauto. }
  assert (∀ x y, x `prefix_of` y → newline ∉ y → newline ∉ x) as Hpre.
  { intros x y [k ->]. rewrite not_elem_of_app. tauto. }
  rewrite not_elem_of_app in Hcr. destruct Hcr as [Hcr _]. rewrite text_of_cons in Hcr.
  apply not_elem_of_app in Hcr as [Hcf Hcr]. apply not_elem_of_cons in Hcr as [_ Hcm].
  apply lines_text_of_app.
  - constructor.
    + split; [eapply Hsuf; [apply trim_start_matches_suffix|done]|].
      intros Hx%last_Some_elem_of. apply Hcf. destruct (trim_start_matches_suffix is_whitespace f) as [k ->].
      apply elem_of_app. by right.
    + clear -Hnm Hcm. induction mid as [|x mid IH]; [constructor|]. rewrite text_of_cons in Hcm.
      apply Forall_cons in Hnm as [Hx Hnm]. apply not_elem_of_app in Hcm as [Hcx Hcm]. apply not_elem_of_cons in Hcm as [_ Hcm].
      constructor; [|by apply IH]. split; [done|]. by intros ?%last_Some_elem_of.
  - apply (Hpre _ l); [apply trim_end_matches_prefix|exact Hn2].
  - intros E. assert (trim l = []) as Hx by (by rewrite <- trim_trim_end, E). by rewrite Hx in Hl.
Qed.
Lemma boundaries_lenient_strict ls r : check_patch_boundaries_strict ls = Ok r → check_patch_boundaries_lenient ls = Ok r.
Proof. unfold check_patch_boundaries_lenient. by intros ->. Qed.
Lemma reparse text args :
  parse_patch text = Ok args → (cr ∉ args_patch args) →
  ∃ args', parse_patch (args_patch args) = Ok args' ∧
    args_hunks args' = args_hunks args ∧ args_environment_id args' = args_environment_id args.
Proof.
  unfold parse_patch. cbn [PARSE_IN_STRICT_MODE]. unfold parse_patch_text.
  intros ([pl hl] & Hb & ([[env rem] ln] & Hp & (hunks & Hh & [= <-])%bind_Ok)%bind_Ok)%bind_Ok. cbn [args_patch args_hunks args_environment_id]. intros Hcr.
  apply boundaries_lenient_inv in Hb as [Hin Hb]. destruct (boundaries_strict_inv _ _ _ Hb) as (_ & f & l & E & Hf & Hl).
  assert (Forall (λ x, newline ∉ x) pl) as Hn.
  { apply Forall_forall. intros x Hx%Hin. by eapply lines_no_newline. }
  rewrite (reparse_lines pl f hl l) by done.
  rewrite (boundaries_lenient_strict _ _ (boundaries_strict_intro (trim_start f) hl (trim_end l) ltac:(by rewrite trim_trim_start) ltac:(by rewrite trim_trim_end))).
  cbn [mbind outcome_bind]. unfold mbind, outcome_bind. rewrite Hp. rewrite Hh. by eexists.
Qed.
