(* ===== verification/StreamingPatch.v ===== *)
(** * The streaming patch parser ([apply-patch/src/streaming_parser.rs])

    A patch that the model is still writing, parsed line by line for a live
    preview.  A call that fails leaves the parser in the state the failing line
    found, with the line counted and taken out of the buffer. *)
From S2P Require Import Prelude RustStr SeekSequence Replacements PatchParser PatchRoundtrip.

(** ** State *)
Inductive StreamingParserMode :=
| NotStarted | StartedPatch | InAddFile | InDeleteFile | InUpdateFile (hunk_line_number : nat) | EndedPatch.
#[global] Instance StreamingParserMode_eq_dec : EqDecision StreamingParserMode.
Proof. solve_decision. Defined.
Record StreamingPatchParser := mk_stream { line_buffer : rstring; mode : StreamingParserMode; hunks : list Hunk; line_number : nat }.
Definition stream_default : StreamingPatchParser := mk_stream [] NotStarted [] 0.
Definition set_mode (st : StreamingPatchParser) (m : StreamingParserMode) : StreamingPatchParser :=
  mk_stream (line_buffer st) m (hunks st) (line_number st).
Definition set_hunks (st : StreamingPatchParser) (hs : list Hunk) : StreamingPatchParser :=
  mk_stream (line_buffer st) (mode st) hs (line_number st).

(** [last_mut]. *)
Fixpoint update_last {A} (f : A → A) (l : list A) : list A :=
  match l with
  | [] => []
  | [x] => [f x]
  | x :: t => x :: update_last f t
  end.

(** ** Hunk headers *)
Definition is_environment_id_preamble_line (line : rstring) : bool := starts_with line ENVIRONMENT_ID_MARKER.
Definition chunk_blank (c : UpdateFileChunk) : bool := bool_decide (old_lines c = []) && bool_decide (new_lines c = []).
Definition last_blank (chunks : list UpdateFileChunk) : bool :=
  match last chunks with Some c => chunk_blank c | None => false end.

Definition ensure_update_hunk_is_not_empty (st : StreamingPatchParser) (line : rstring) : outcome ParseError unit :=
  match last (hunks st) with
  | Some (UpdateFile path _ chunks) =>
      match chunks, mode st with
      | [], InUpdateFile hunk_line_number => Err (InvalidHunkError (empty_update_message path) hunk_line_number)
      | _, _ =>
          if last_blank chunks then
            if bool_decide (line = END_PATCH_MARKER) then Err (InvalidHunkError no_lines_message (line_number st))
            else Err (InvalidHunkError (unexpected_line_message line) (line_number st))
          else Ok ()
      end
  | _ => Ok ()
  end.

(** [Ok None]: the line is no header. *)
Definition handle_hunk_headers_and_end_patch (st : StreamingPatchParser) (trimmed : rstring)
    : outcome ParseError (option StreamingPatchParser) :=
  let start (h : Hunk) (m : StreamingParserMode) :=
    let? _ := ensure_update_hunk_is_not_empty st trimmed in
    Ok (Some (set_mode (set_hunks st (hunks st ++ [h])) m)) in
  if bool_decide (trimmed = END_PATCH_MARKER) then
    let? _ := ensure_update_hunk_is_not_empty st trimmed in Ok (Some (set_mode st EndedPatch))
  else match strip_prefix ADD_FILE_MARKER trimmed with
  | Some path => start (AddFile path []) InAddFile
  | None =>
  match strip_prefix DELETE_FILE_MARKER trimmed with
  | Some path => start (DeleteFile path) InDeleteFile
  | None =>
  match strip_prefix UPDATE_FILE_MARKER trimmed with
  | Some path => start (UpdateFile path None []) (InUpdateFile (line_number st))
  | None => Ok None
  end end end.

(** ** Lines of an update hunk *)
Definition blank_chunk (ctx : option rstring) : UpdateFileChunk := mk_update_chunk ctx [] [] false.
Definition set_eof (c : UpdateFileChunk) : UpdateFileChunk :=
  mk_update_chunk (change_context c) (old_lines c) (new_lines c) true.
Definition push_change_lines (chunks : list UpdateFileChunk) (old new : list rstring) : list UpdateFileChunk :=
  let chunks := match chunks with [] => [blank_chunk None] | _ => chunks end in
  update_last (λ c, push_old_new c old new) chunks.

Definition move_to (chunks : list UpdateFileChunk) (move_path : option rstring) (update_line : rstring) : option rstring :=
  if bool_decide (chunks = []) && bool_decide (move_path = None) then strip_prefix MOVE_TO_MARKER update_line else None.
Definition update_file_line (ln : nat) (path : rstring) (move_path : option rstring) (chunks : list UpdateFileChunk)
    (line update_line : rstring) : outcome ParseError Hunk :=
  let with_chunks cs := Ok (UpdateFile path move_path cs) in
  let is_header := bool_decide (update_line = EMPTY_CHANGE_CONTEXT_MARKER) in
  match move_to chunks move_path update_line with
  | Some move_to_path => Ok (UpdateFile path (Some move_to_path) chunks)
  | None =>
  if (is_header || starts_with update_line CHANGE_CONTEXT_MARKER) && last_blank chunks
  then Err (InvalidHunkError (unexpected_line_message line) ln)
  else if is_header then with_chunks (chunks ++ [blank_chunk None])
  else match strip_prefix CHANGE_CONTEXT_MARKER update_line with
  | Some change_context => with_chunks (chunks ++ [blank_chunk (Some change_context)])
  | None =>
  if bool_decide (update_line = EOF_MARKER) then
    if last_blank chunks then Err (InvalidHunkError no_lines_message ln)
    else with_chunks (update_last set_eof chunks)
  else match line with
  | [] => with_chunks (push_change_lines chunks [[]] [[]])
  | c :: text =>
      if (c =? chr " ")%N then with_chunks (push_change_lines chunks [text] [text])
      else if (c =? chr "+")%N then with_chunks (push_change_lines chunks [] [text])
      else if (c =? chr "-")%N then with_chunks (push_change_lines chunks [text] [])
      else if match last chunks with Some c => negb (chunk_blank c) | None => false end
      then Err (InvalidHunkError (expected_context_message line) ln)
      else Err (InvalidHunkError (unexpected_line_message line) ln)
  end end end.

(** ** Lines *)
Definition bad_header (st : StreamingPatchParser) (trimmed : rstring) : outcome ParseError StreamingPatchParser :=
  Err (InvalidHunkError (bad_header_message trimmed) (line_number st)).
Definition or_header (st : StreamingPatchParser) (trimmed : rstring) (k : outcome ParseError StreamingPatchParser)
    : outcome ParseError StreamingPatchParser :=
  let? handled := handle_hunk_headers_and_end_patch st trimmed in
  match handled with Some st' => Ok st' | None => k end.
Definition process_line (st : StreamingPatchParser) (line : rstring) : outcome ParseError StreamingPatchParser :=
  let trimmed := trim line in
  match mode st with
  | NotStarted =>
      if bool_decide (trimmed = BEGIN_PATCH_MARKER) then Ok (set_mode st StartedPatch)
      else Err (InvalidPatchError (lit "The first line of the patch must be '*** Begin Patch'"))
  | StartedPatch =>
      if is_environment_id_preamble_line line then Ok st else or_header st trimmed (bad_header st trimmed)
  | InAddFile =>
      or_header st trimmed
        match strip_prefix [chr "+"] line, last (hunks st) with
        | Some line_to_add, Some (AddFile path contents) =>
            Ok (set_hunks st (update_last (λ _, AddFile path (contents ++ line_to_add ++ [newline])) (hunks st)))
        | _, _ => bad_header st trimmed
        end
  | InDeleteFile => or_header st trimmed (bad_header st trimmed)
  | InUpdateFile _ =>
      or_header st (trim_end line)
        match last (hunks st) with
        | Some (UpdateFile path move_path chunks) =>
            let? h := update_file_line (line_number st) path move_path chunks line (trim_end line) in
            Ok (set_hunks st (update_last (λ _, h) (hunks st)))
        | _ => Err (InvalidHunkError (unexpected_line_message line) (line_number st))
        end
  | EndedPatch => Ok st
  end.

(** The line that ends here: taken out of the buffer, counted and processed. *)
Definition take_line (st : StreamingPatchParser) : StreamingPatchParser :=
  mk_stream [] (mode st) (hunks st) (S (line_number st)).
Definition finish_line (st : StreamingPatchParser) (line : rstring) : StreamingPatchParser * outcome ParseError unit :=
  match process_line (take_line st) line with
  | Ok st' => (st', Ok ())
  | Err e => (take_line st, Err e)
  | Panic => (take_line st, Panic)
  end.
Definition without_cr (line : rstring) : rstring := default line (strip_suffix [cr] line).

Fixpoint push_chars (st : StreamingPatchParser) (delta : rstring) : StreamingPatchParser * outcome ParseError unit :=
  match delta with
  | [] => (st, Ok ())
  | ch :: rest =>
      if decide (ch = newline) then
        match finish_line st (without_cr (line_buffer st)) with
        | (st', Ok _) => push_chars st' rest
        | r => r
        end
      else push_chars (mk_stream (line_buffer st ++ [ch]) (mode st) (hunks st) (line_number st)) rest
  end.
(** The hunks so far, unless the call failed. *)
Definition with_hunks (r : StreamingPatchParser * outcome ParseError unit) : StreamingPatchParser * outcome ParseError (list Hunk) :=
  (r.1, let? _ := r.2 in Ok (hunks r.1)).
Definition push_delta (st : StreamingPatchParser) (delta : rstring) : StreamingPatchParser * outcome ParseError (list Hunk) :=
  with_hunks (push_chars st delta).
Definition finish_buffer (st : StreamingPatchParser) : StreamingPatchParser * outcome ParseError unit :=
  if bool_decide (line_buffer st = []) then (st, Ok ())
  else if bool_decide (trim (line_buffer st) = END_PATCH_MARKER) then
    match ensure_update_hunk_is_not_empty (take_line st) (trim (line_buffer st)) with
    | Ok _ => (set_mode (take_line st) EndedPatch, Ok ())
    | Err e => (take_line st, Err e)
    | Panic => (take_line st, Panic)
    end
  else finish_line st (line_buffer st).
Definition finish (st : StreamingPatchParser) : StreamingPatchParser * outcome ParseError (list Hunk) :=
  let '(st', r) := finish_buffer st in
  (st', let? _ := r in
        if decide (mode st' = EndedPatch) then Ok (hunks st')
        else Err (InvalidPatchError (lit "The last line of the patch must be '*** End Patch'"))).

(** A stream of deltas; the first failure ends it. *)
Fixpoint push_all (st : StreamingPatchParser) (deltas : list rstring) : StreamingPatchParser * outcome ParseError unit :=
  match deltas with
  | [] => (st, Ok ())
  | d :: rest =>
      match push_delta st d with
      | (st', Ok _) => push_all st' rest
      | (st', Err e) => (st', Err e)
      | (st', Panic) => (st', Panic)
      end
  end.

(** ** Lemmas: lists *)
Lemma update_last_snoc {A} (f : A → A) l x : update_last f (l ++ [x]) = l ++ [f x].
Proof. induction l as [|y l IH]; [done|]. cbn. rewrite IH. by destruct l. Qed.

(** [last_grows R l l']: the elements before the last stay, the last is replaced by a
    related one, and new elements follow. *)
Definition last_grows {A} (R : A → A → Prop) (l l' : list A) : Prop :=
  l = [] ∨ ∃ pre x x' rest, l = pre ++ [x] ∧ l' = pre ++ x' :: rest ∧ R x x'.

Section last_grows.
Context {A : Type} (R : A → A → Prop) `{!PreOrder R}.
#[export] Instance last_grows_preorder : PreOrder (last_grows R).
Proof using PreOrder0.
  split.
  - intros l. destruct l as [|x l _] using rev_ind; [by left|right]. by exists l, x, x, [].
  - intros a b c [->|(pre & x & x' & rest & -> & -> & Hx)] H2; [by left|right].
    destruct H2 as [H2|(pre2 & y & y' & rest2 & Heq & -> & Hy)]; [by destruct pre|].
    destruct rest as [|z rest _] using rev_ind.
    + apply app_inj_tail in Heq as [<- <-]. exists pre, x, y', rest2. split_and!; [done|done|by etrans].
    + exists pre, x, x', (rest ++ y' :: rest2). split_and!; [done| |done].
      rewrite app_comm_cons, app_assoc in Heq. apply app_inj_tail in Heq as [<- <-].
      by rewrite <- app_assoc.
Qed.
Lemma last_grows_push l x : last_grows R l (l ++ [x]).
Proof using PreOrder0.
  destruct l as [|y l _] using rev_ind; [by left|right]. exists l, y, y, [x]. by rewrite <- app_assoc.
Qed.
Lemma last_grows_update f l : (∀ x, last l = Some x → R x (f x)) → last_grows R l (update_last f l).
Proof using Type.
  clear PreOrder0. intros Hf. destruct l as [|x l _] using rev_ind; [by left|right]. exists l, x, (f x), [].
  rewrite update_last_snoc. split_and!; [done|done|]. apply Hf. by rewrite last_snoc.
Qed.
End last_grows.

(** ** Lemmas: the preview grows *)
Definition chunk_grows (c c' : UpdateFileChunk) : Prop :=
  change_context c = change_context c' ∧ old_lines c `prefix_of` old_lines c' ∧ new_lines c `prefix_of` new_lines c' ∧
  (is_end_of_file c = true → is_end_of_file c' = true).
#[local] Instance chunk_grows_preorder : PreOrder chunk_grows.
Proof.
  split; [by intros c; split_and!|]. intros a b c (H1 & H2 & H3 & H4) (K1 & K2 & K3 & K4).
  split_and!; [congruence|by etrans|by etrans|auto].
Qed.
Definition hunk_grows (h h' : Hunk) : Prop :=
  match h, h' with
  | AddFile p c, AddFile p' c' => p = p' ∧ c `prefix_of` c'
  | DeleteFile p, DeleteFile p' => p = p'
  | UpdateFile p m cs, UpdateFile p' m' cs' => p = p' ∧ (m = None ∨ m = m') ∧ last_grows chunk_grows cs cs'
  | _, _ => False
  end.
#[local] Instance hunk_grows_preorder : PreOrder hunk_grows.
Proof.
  split; [intros []; cbn; split_and?; auto; reflexivity|].
  intros [] [] []; cbn; try done; [intros [-> ?] [-> ?]; split; [done|by etrans]|by intros -> ->|].
  intros (-> & H1 & H2) (-> & K1 & K2). split_and!; [done| |by etrans].
  destruct H1 as [?| ->]; [by left|]. done.
Qed.

Lemma push_old_new_grows c old new : chunk_grows c (push_old_new c old new).
Proof. split_and!; [done|by apply prefix_app_r|by apply prefix_app_r|done]. Qed.
Lemma push_change_grows cs old new : last_grows chunk_grows cs (push_change_lines cs old new).
Proof.
  unfold push_change_lines. destruct cs as [|c cs]; [by left|].
  apply last_grows_update. intros x _. apply push_old_new_grows.
Qed.

Lemma update_file_line_grows ln path mv cs line update_line h :
  update_file_line ln path mv cs line update_line = Ok h → hunk_grows (UpdateFile path mv cs) h.
Proof.
  unfold update_file_line. destruct (move_to cs mv update_line) as [mv'|] eqn:Hmv.
  { intros [= <-]. unfold move_to in Hmv. destruct mv; [by rewrite andb_false_r in Hmv|]. by split_and!; [|left|]. }
  clear Hmv. assert (∀ cs', last_grows chunk_grows cs cs' → hunk_grows (UpdateFile path mv cs) (UpdateFile path mv cs')) as Hgrow.
  { intros cs' H. by split_and!; [|right|]. }
  destruct (_ && last_blank cs); [done|]. destruct (bool_decide _).
  { intros [= <-]. apply Hgrow, last_grows_push; apply _. }
  destruct (strip_prefix _ update_line). { intros [= <-]. apply Hgrow, last_grows_push; apply _. }
  destruct (bool_decide _).
  { destruct (last_blank cs); [done|]. intros [= <-]. apply Hgrow, last_grows_update. by intros c _; split_and!. }
  destruct line as [|c text]; [intros [= <-]; apply Hgrow, push_change_grows|].
  repeat (destruct (_ =? _)%N; [intros [= <-]; apply Hgrow, push_change_grows|]).
  destruct (match last cs with Some _ => _ | None => _ end); done.
Qed.

Lemma handle_grows st trimmed st' :
  handle_hunk_headers_and_end_patch st trimmed = Ok (Some st') → last_grows hunk_grows (hunks st) (hunks st').
Proof.
  unfold handle_hunk_headers_and_end_patch.
  destruct (ensure_update_hunk_is_not_empty st trimmed) as [[]| |]; cbn [mbind outcome_bind];
    repeat case_match; try done; intros [= <-]; cbn [set_mode set_hunks hunks]; try reflexivity; apply last_grows_push; apply _.
Qed.
Lemma or_header_grows st trimmed k st' :
  or_header st trimmed k = Ok st' → (k = Ok st' → last_grows hunk_grows (hunks st) (hunks st')) →
  last_grows hunk_grows (hunks st) (hunks st').
Proof.
  intros ([h|] & Hh & H)%bind_Ok Hk; [|auto]. injection H as ->. by apply handle_grows in Hh.
Qed.
Lemma process_line_grows st line st' : process_line st line = Ok st' → last_grows hunk_grows (hunks st) (hunks st').
Proof.
  unfold process_line. destruct (mode st).
  - case_match; [|done]. intros [= <-]. reflexivity.
  - destruct (is_environment_id_preamble_line line); [intros [= <-]; reflexivity|].
    intros H. by eapply or_header_grows.
  - intros H. eapply or_header_grows; [exact H|]. case_match; [|done]. destruct (last (hunks st)) as [[| |]|] eqn:Hl; try done.
    intros [= <-]. apply last_grows_update. rewrite Hl. intros x [= <-]. split; [done|by apply prefix_app_r].
  - intros H. by eapply or_header_grows.
  - intros H. eapply or_header_grows; [exact H|]. destruct (last (hunks st)) as [[| |]|] eqn:Hl; try done.
    intros (h & Hh & [= <-])%bind_Ok. apply last_grows_update. rewrite Hl. intros x [= <-]. by eapply update_file_line_grows.
  - intros [= <-]. reflexivity.
Qed.
Lemma finish_line_grows st line : last_grows hunk_grows (hunks st) (hunks (finish_line st line).1).
Proof.
  unfold finish_line. destruct (process_line (take_line st) line) as [st'| |] eqn:Hp; [|reflexivity..].
  by apply process_line_grows in Hp.
Qed.
Lemma push_chars_grows delta st : last_grows hunk_grows (hunks st) (hunks (push_chars st delta).1).
Proof.
  revert st. induction delta as [|ch delta IH]; intros st; cbn [push_chars]; [reflexivity|].
  case_decide; [|apply (IH (mk_stream _ _ _ _))].
  pose proof (finish_line_grows st (without_cr (line_buffer st))) as Hl. destruct (finish_line _ _) as [st' [| |]]; [|done..].
  etrans; [exact Hl|apply IH].
Qed.

(** The preview only grows.  Whatever text arrives, in whatever state, the
    hunks shown before stay: all but the last keep their contents, the last one
    is only extended (contents appended, lines and chunks added, a destination
    set), and new hunks follow. *)
Theorem preview_only_grows (st : StreamingPatchParser) (delta : rstring) :
  last_grows hunk_grows (hunks st) (hunks (push_delta st delta).1) ∧
  last_grows hunk_grows (hunks st) (hunks (finish st).1).
Proof.
  split; [apply push_chars_grows|]. unfold finish.
  assert (last_grows hunk_grows (hunks st) (hunks (finish_buffer st).1)) as H; [|by destruct (finish_buffer st)].
  unfold finish_buffer. destruct (bool_decide _); [reflexivity|]. destruct (bool_decide _); [|apply finish_line_grows].
  by destruct (ensure_update_hunk_is_not_empty _ _).
Qed.

(** ** Lemmas: what the state holds *)

(** An update hunk that is closed has chunks, and each of its chunks has lines. *)
Definition hunk_complete (h : Hunk) : Prop :=
  match h with
  | UpdateFile _ _ chunks => chunks ≠ [] ∧ Forall (λ c, chunk_blank c = false) chunks
  | AddFile _ _ | DeleteFile _ => True
  end.
Definition chunks_open (chunks : list UpdateFileChunk) : Prop :=
  chunks = [] ∨ ∃ pre c, chunks = pre ++ [c] ∧ Forall (λ c, chunk_blank c = false) pre.
Definition last_hunk (st : StreamingPatchParser) (P : Hunk → Prop) : Prop :=
  ∃ pre h, hunks st = pre ++ [h] ∧ Forall hunk_complete pre ∧ P h.
Definition is_add (h : Hunk) : Prop := ∃ p c, h = AddFile p c.
Definition is_delete (h : Hunk) : Prop := ∃ p, h = DeleteFile p.
Definition is_update (h : Hunk) : Prop := ∃ p m cs, h = UpdateFile p m cs ∧ chunks_open cs.
Definition stream_ok (st : StreamingPatchParser) : Prop :=
  match mode st with
  | NotStarted | StartedPatch => hunks st = []
  | InAddFile => last_hunk st is_add
  | InDeleteFile => last_hunk st is_delete
  | InUpdateFile n => last_hunk st is_update ∧ 1 ≤ n ≤ line_number st
  | EndedPatch => Forall hunk_complete (hunks st)
  end.

(** A step at the current line: it keeps the state well-formed and the line, or it
    fails and names a line read so far; it does not panic. *)
Definition error_within (n : nat) (e : ParseError) : Prop :=
  match e with InvalidHunkError _ line => 1 ≤ line ≤ n | InvalidPatchError _ => True end.
Definition steps (st : StreamingPatchParser) (m : outcome ParseError StreamingPatchParser) : Prop :=
  match m with
  | Ok st' => stream_ok st' ∧ line_number st' = line_number st
  | Err e => error_within (line_number st) e
  | Panic => False
  end.

Lemma chunks_open_nonblank cs : chunks_open cs → last_blank cs = false → Forall (λ c, chunk_blank c = false) cs.
Proof.
  unfold last_blank. intros [->|(pre & c & -> & Hpre)]; [done|]. rewrite last_snoc. intros Hc.
  apply Forall_app. by repeat constructor.
Qed.

Lemma ensure_not_empty_spec st line :
  stream_ok st → 1 ≤ line_number st →
  match ensure_update_hunk_is_not_empty st line with
  | Ok _ => Forall hunk_complete (hunks st)
  | Err e => error_within (line_number st) e
  | Panic => False
  end.
Proof.
  intros Hok Hln. unfold ensure_update_hunk_is_not_empty. unfold stream_ok in Hok.
  destruct (mode st) as [| | | |n|].
  1-2: rewrite Hok; cbn; by constructor.
  1-2: destruct Hok as (pre & h & -> & Hpre & Hh); rewrite last_snoc.
  - destruct Hh as (p & c & ->). apply Forall_app. by repeat constructor.
  - destruct Hh as (p & ->). apply Forall_app. by repeat constructor.
  - destruct Hok as [(pre & h & -> & Hpre & (p & m & cs & -> & Hcs)) Hn]. rewrite last_snoc.
    destruct cs as [|c cs]; [exact Hn|]. destruct (last_blank (c :: cs)) eqn:Hb; [destruct (bool_decide _); cbn; lia|].
    apply Forall_app. split; [done|]. apply Forall_singleton. split; [done|by apply chunks_open_nonblank].
  - destruct (last (hunks st)) as [[| |p m cs]|] eqn:Hl; try done. apply last_Some in Hl as [pre Hpre].
    rewrite Hpre in *. apply Forall_app in Hok as Hok'. destruct Hok' as [_ [Hne Hcs]%Forall_singleton].
    destruct cs as [|c cs]; [done|]. assert (last_blank (c :: cs) = false) as ->; [|exact Hok].
    unfold last_blank. destruct (last (c :: cs)) as [x|] eqn:Hx; [|done]. rewrite Forall_forall in Hcs.
    apply Hcs. by apply last_Some_elem_of.
Qed.

Lemma handle_steps st trimmed k :
  stream_ok st → 1 ≤ line_number st → steps st k → steps st (or_header st trimmed k).
Proof.
  intros Hok Hln Hk. unfold or_header, handle_hunk_headers_and_end_patch.
  pose proof (ensure_not_empty_spec st trimmed Hok Hln) as He.
  assert (∀ h m, (Forall hunk_complete (hunks st) → stream_ok (set_mode (set_hunks st (hunks st ++ [h])) m)) →
    steps st (let? handled := (let? _ := ensure_update_hunk_is_not_empty st trimmed in
      Ok (Some (set_mode (set_hunks st (hunks st ++ [h])) m))) in
      match handled with Some st' => Ok st' | None => k end)) as Hstart.
  { intros h m Hst. destruct (ensure_update_hunk_is_not_empty st trimmed) as [[]|e|]; [|done..]. by split; [apply Hst|]. }
  destruct (bool_decide _).
  { destruct (ensure_update_hunk_is_not_empty st trimmed) as [[]|e|]; [by split|done..]. }
  destruct (strip_prefix ADD_FILE_MARKER trimmed) as [path|].
  { apply Hstart. intros H. exists (hunks st), (AddFile path []). split_and!; [done|done|by eexists _, _]. }
  destruct (strip_prefix DELETE_FILE_MARKER trimmed) as [path|].
  { apply Hstart. intros H. exists (hunks st), (DeleteFile path). split_and!; [done|done|by eexists]. }
  destruct (strip_prefix UPDATE_FILE_MARKER trimmed) as [path|]; [|exact Hk].
  apply Hstart. intros H. split; [|cbn; lia].
  exists (hunks st), (UpdateFile path None []). split_and!; [done|done|]. eexists _, _, _. split; [done|by left].
Qed.

Lemma chunks_open_snoc cs c : Forall (λ c, chunk_blank c = false) cs → chunks_open (cs ++ [c]).
Proof. right. by eexists _, _. Qed.
Lemma chunks_open_update cs f : chunks_open cs → chunks_open (update_last f cs).
Proof. intros [->|(pre & c & -> & Hpre)]; [by left|]. rewrite update_last_snoc. by apply chunks_open_snoc. Qed.
Lemma push_change_open cs old new : chunks_open cs → chunks_open (push_change_lines cs old new).
Proof.
  intros Hcs. unfold push_change_lines. apply chunks_open_update. destruct cs; [|done]. by apply (chunks_open_snoc []).
Qed.

Lemma update_file_line_spec ln path mv cs line update_line :
  chunks_open cs → 1 ≤ ln →
  match update_file_line ln path mv cs line update_line with
  | Ok h => is_update h
  | Err e => error_within ln e
  | Panic => False
  end.
Proof.
  intros Hcs Hln. unfold update_file_line.
  assert (∀ m cs', chunks_open cs' → is_update (UpdateFile path m cs')) as Hup by by eexists _, _, _.
  destruct (move_to cs mv update_line); [by apply Hup|].
  destruct (_ || _) eqn:Hhd; cbn [andb].
  - destruct (last_blank cs) eqn:Hb; [by cbn|]. pose proof (chunks_open_nonblank cs Hcs Hb) as Hall.
    destruct (bool_decide _) eqn:Hm; [by apply Hup, chunks_open_snoc|].
    destruct (strip_prefix _ update_line) eqn:Hs; [by apply Hup, chunks_open_snoc|].
    exfalso. cbn [orb] in Hhd. apply starts_with_spec in Hhd as [k ->].
    by rewrite (proj2 (strip_prefix_Some _ _ k)) in Hs.
  - apply orb_false_iff in Hhd as [-> Hs]. destruct (strip_prefix CHANGE_CONTEXT_MARKER update_line) eqn:Hp.
    { apply strip_prefix_Some in Hp as ->. apply not_true_iff_false in Hs. destruct Hs. apply starts_with_spec. by eexists. }
    destruct (bool_decide _).
    { destruct (last_blank cs); [by cbn|]. by apply Hup, chunks_open_update. }
    destruct line as [|c text]; [by apply Hup, push_change_open|].
    repeat (destruct (_ =? _)%N; [by apply Hup, push_change_open|]).
    by destruct (match last cs with Some _ => _ | None => _ end).
Qed.

Lemma process_line_steps st line : stream_ok st → 1 ≤ line_number st → steps st (process_line st line).
Proof.
  intros Hok Hln. pose proof Hok as Hok'. unfold process_line. unfold stream_ok in Hok'.
  destruct (mode st) as [| | | |n|] eqn:Hmode.
  - destruct (bool_decide _); [by split|done].
  - destruct (is_environment_id_preamble_line line); [done|]. by apply handle_steps.
  - apply handle_steps; [done..|]. destruct Hok' as (pre & h & Hh & Hpre & (p & c & ->)). rewrite Hh, last_snoc.
    destruct (strip_prefix _ line); [|by cbn]. split; [|done]. unfold stream_ok. cbn [set_hunks mode]. rewrite Hmode.
    exists pre. eexists. cbn [hunks]. rewrite update_last_snoc. split_and!; [done|done|by eexists _, _].
  - by apply handle_steps.
  - apply handle_steps; [done..|]. destruct Hok' as [(pre & h & Hh & Hpre & (p & m & cs & -> & Hcs)) Hn]. rewrite Hh, last_snoc.
    pose proof (update_file_line_spec (line_number st) p m cs line (trim_end line) Hcs Hln) as Hu.
    destruct (update_file_line _ _ _ _ _ _) as [h| |]; [|done..]. cbn [mbind outcome_bind]. split; [|done].
    unfold stream_ok. cbn [set_hunks mode]. rewrite Hmode. split; [|done].
    exists pre, h. cbn [hunks]. by rewrite update_last_snoc.
  - done.
Qed.

Definition lines_read (text : rstring) : nat := length (List.filter (λ c, bool_decide (c = newline)) text).
(** What a call leaves: a well-formed state [n] lines on at most, and no panic. *)
Definition call_ok (st : StreamingPatchParser) (n : nat) {A} (r : StreamingPatchParser * outcome ParseError A) : Prop :=
  stream_ok r.1 ∧ line_number r.1 ≤ line_number st + n ∧
  match r.2 with Ok _ => True | Err e => error_within (line_number r.1) e | Panic => False end.

Lemma take_line_ok st : stream_ok st → stream_ok (take_line st).
Proof. unfold stream_ok. cbn [take_line mode hunks line_number]. destruct (mode st); try done. intros [H Hn]. split; [exact H|lia]. Qed.
Lemma finish_line_ok st line : stream_ok st → call_ok st 1 (finish_line st line).
Proof.
  intros Hok%take_line_ok. unfold finish_line. pose proof (process_line_steps (take_line st) line Hok) as Hp.
  cbn [take_line line_number] in Hp. specialize (Hp ltac:(lia)).
  destruct (process_line (take_line st) line) as [st'|e|]; [|split_and!; [done|cbn; lia|done]..|done].
  destruct Hp as [H1 H2]. cbn [take_line line_number] in H2. split_and!; [done|cbn; lia|done].
Qed.
Lemma push_chars_ok delta st : stream_ok st → call_ok st (lines_read delta) (push_chars st delta).
Proof.
  unfold lines_read. revert st. induction delta as [|ch delta IH]; intros st Hok; cbn [push_chars List.filter].
  { split_and!; [done|cbn; lia|done]. }
  case_decide as Hch; [rewrite bool_decide_true by done|rewrite bool_decide_false by done; by apply (IH (mk_stream _ _ _ _))].
  destruct (finish_line_ok st (without_cr (line_buffer st)) Hok) as (H1 & H2 & H3).
  destruct (finish_line st _) as [st' [[]|e|]]; cbn [fst snd length] in *; [|by split_and!; cbn; [|lia|]|done].
  destruct (IH st' H1) as (K1 & K2 & K3). split_and!; [done|lia|done].
Qed.
Lemma push_all_ok deltas st : stream_ok st → call_ok st (lines_read (concat deltas)) (push_all st deltas).
Proof.
  revert st. induction deltas as [|d ds IH]; intros st Hok; cbn [push_all concat].
  { split_and!; [done|cbn; lia|done]. }
  destruct (push_chars_ok d st Hok) as (H1 & H2 & H3). unfold lines_read in *. rewrite List.filter_app, length_app.
  unfold push_delta, with_hunks. destruct (push_chars st d) as [st' [[]|e|]]; cbn [fst snd mbind outcome_bind] in *;
    [|split_and!; cbn; [done|lia|done]|done].
  destruct (IH st' H1) as (K1 & K2 & K3). split_and!; [done|lia|done].
Qed.
Lemma finish_buffer_ok st : stream_ok st → call_ok st 1 (finish_buffer st).
Proof.
  intros Hok. unfold finish_buffer. destruct (bool_decide _); [split_and!; [done|cbn; lia|done]|].
  destruct (bool_decide _); [|by apply finish_line_ok].
  pose proof (ensure_not_empty_spec (take_line st) (trim (line_buffer st)) (take_line_ok st Hok)) as He.
  cbn [take_line line_number] in He. specialize (He ltac:(lia)). cbn [take_line line_number] in *.
  destruct (ensure_update_hunk_is_not_empty _ _) as [[]|e|]; [|split_and!; [by apply take_line_ok|cbn; lia|done]|done].
  split_and!; [exact He|cbn; lia|done].
Qed.

(** A stream that ends well has given whole hunks.  However a text is cut
    into deltas, no call panics and an error names a line read so far; and if
    [finish] succeeds, every update hunk has chunks, all with lines, and the
    preview was that result. *)
Theorem finished_hunks_are_complete (deltas : list rstring) :
  let '(st, r) := push_all stream_default deltas in
  match r with
  | Ok _ =>
      match (finish st).2 with
      | Ok hs => Forall hunk_complete hs ∧ hs = hunks (finish st).1
      | Err e => error_within (S (lines_read (concat deltas))) e
      | Panic => False
      end
  | Err e => error_within (lines_read (concat deltas)) e
  | Panic => False
  end.
Proof.
  destruct (push_all_ok deltas stream_default) as (H1 & H2 & H3); [done|].
  assert (∀ e n m, error_within n e → n ≤ m → error_within m e) as Hmono by (intros [] n m; cbn; lia).
  destruct (push_all stream_default deltas) as [st [[]|e|]]; cbn [fst snd line_number stream_default] in *; [|eauto|done].
  destruct (finish_buffer_ok st H1) as (K1 & K2 & K3). unfold finish.
  destruct (finish_buffer st) as [st' [[]|e|]]; cbn [fst snd mbind outcome_bind] in *; [|eapply Hmono; [exact K3|lia]|done].
  case_decide as Hm; [|done]. split; [|done]. unfold stream_ok in K1. by rewrite Hm in K1.
Qed.

(** ** Lemmas: deltas and lines *)
Lemma push_chars_app st a b :
  push_chars st (a ++ b) = match push_chars st a with (st', Ok _) => push_chars st' b | r => r end.
Proof.
  revert st. induction a as [|ch a IH]; intros st; [done|]. cbn [app push_chars]. case_decide; [|apply IH].
  by destruct (finish_line _ _) as [st' [[]|e|]].
Qed.
Lemma push_all_deltas_concat st deltas : push_all st deltas = push_chars st (concat deltas).
Proof.
  revert st. induction deltas as [|d ds IH]; intros st; [done|]. cbn [push_all concat]. rewrite push_chars_app.
  unfold push_delta, with_hunks. destruct (push_chars st d) as [st' [[]|e|]]; [apply IH|done..].
Qed.

Lemma push_line_chars buf m hs n l rest :
  newline ∉ l → push_chars (mk_stream buf m hs n) (l ++ rest) = push_chars (mk_stream (buf ++ l) m hs n) rest.
Proof.
  revert buf. induction l as [|c l IH]; intros buf; [by rewrite app_nil_r|]. intros [Hc Hl]%not_elem_of_cons.
  cbn [app push_chars]. rewrite decide_False by done. cbn [line_buffer mode hunks line_number].
  rewrite IH by done. by rewrite <- app_assoc.
Qed.
Lemma without_cr_id l : last l ≠ Some cr → without_cr l = l.
Proof.
  intros Hl. unfold without_cr. destruct (strip_suffix [cr] l) as [k|] eqn:E; [|done].
  apply strip_suffix_Some in E as ->. by rewrite last_snoc in Hl.
Qed.
(** One whole line from an empty buffer. *)
Lemma push_whole_line m hs n l ls st :
  line_ok l → process_line (mk_stream [] m hs (S n)) l = Ok st →
  push_chars (mk_stream [] m hs n) (text_of (l :: ls)) = push_chars st (text_of ls).
Proof.
  intros [Hcr Hnl] Hp. rewrite text_of_cons. rewrite push_line_chars by done. cbn [app push_chars].
  rewrite decide_True by done. cbn [line_buffer]. rewrite without_cr_id by done. unfold finish_line.
  change (take_line (mk_stream l m hs n)) with (mk_stream [] m hs (S n)). by rewrite Hp.
Qed.

(** ** Lemmas: a rendered patch, line by line *)

(** Texts that the update mode, which drops white space at the end of a line, reads back too. *)
Definition chunk_streams (c : chunk_ast) : Prop :=
  match ch_header c with ContextHeader ctx => path_ok ctx | EmptyHeader | NoHeader => True end.
Definition hunk_streams (h : hunk_ast) : Prop :=
  match h with
  | AUpdate _ move chunks => from_option path_ok True move ∧ Forall chunk_streams chunks
  | AAdd _ _ | ADelete _ => True
  end.

Lemma handle_none st t : head t ≠ Some (chr "*") → handle_hunk_headers_and_end_patch st t = Ok None.
Proof.
  intros Ht. unfold handle_hunk_headers_and_end_patch.
  rewrite bool_decide_false by (intros ->; by apply Ht).
  assert (∀ m, head m = Some (chr "*") → strip_prefix m t = None) as Hs.
  { intros m Hm. destruct (strip_prefix m t) eqn:E; [|done]. apply strip_prefix_Some in E as ->.
    destruct m; [done|]. injection Hm as ->. by destruct Ht. }
  by rewrite !Hs.
Qed.
Lemma head_trim_end c l : head (trim_end (c :: l)) = Some c ∨ trim_end (c :: l) = [].
Proof.
  destruct (trim_end_matches_prefix is_whitespace (c :: l)) as [k Hk]. unfold trim_end.
  destruct (trim_end_matches is_whitespace (c :: l)) as [|d t]; [by right|left]. by injection Hk as ->.
Qed.
Lemma handle_content st c l :
  c ≠ chr "*" → handle_hunk_headers_and_end_patch st (trim_end (c :: l)) = Ok None.
Proof. intros Hc. apply handle_none. destruct (head_trim_end c l) as [->| ->]; [|done]. intros Hh. apply Hc. by injection Hh. Qed.

Lemma push_change_snoc cs c l :
  push_change_lines (cs ++ [c]) (match l with Ctx t | Del t => [t] | Ins _ => [] end) (match l with Ctx t | Ins t => [t] | Del _ => [] end)
  = cs ++ [push_change c l].
Proof.
  unfold push_change_lines. transitivity (update_last (λ c, push_change c l) (cs ++ [c])); [|by rewrite update_last_snoc].
  destruct l; by destruct cs.
Qed.

Lemma update_change_line ln path mv cs l :
  update_file_line ln path mv cs (render_change l) (trim_end (render_change l)) =
  Ok (UpdateFile path mv (push_change_lines cs (match l with Ctx t | Del t => [t] | Ins _ => [] end)
                            (match l with Ctx t | Ins t => [t] | Del _ => [] end))).
Proof.
  assert (∃ c t, render_change l = c :: t ∧ c ≠ chr "*" ∧ c ≠ chr "@") as (c & t & Hr & Hc1 & Hc2) by (by destruct l; eexists _, _).
  assert (∀ m, head m = Some (chr "*") ∨ head m = Some (chr "@") → strip_prefix m (trim_end (render_change l)) = None) as Hs.
  { intros m Hm. destruct (strip_prefix m _) eqn:E; [|done]. apply strip_prefix_Some in E. rewrite Hr in E.
    destruct m as [|d m]; [by destruct Hm|]. destruct (head_trim_end c t) as [Ht|Ht]; rewrite E in Ht; [|done].
    injection Ht as ->. destruct Hm as [Hm|Hm]; injection Hm as Hm; [by destruct Hc1|by destruct Hc2]. }
  assert (∀ m, m ≠ [] → head m ≠ Some c → trim_end (render_change l) ≠ m) as Hd.
  { intros m Hm Hh <-. rewrite Hr in *. by destruct (head_trim_end c t). }
  unfold update_file_line, move_to. rewrite !Hs by auto. rewrite !(bool_decide_false (trim_end _ = _)) by (apply Hd; [done|]; intros Hh; injection Hh as Hh; first [by destruct Hc1|by destruct Hc2]).
  assert (starts_with (trim_end (render_change l)) CHANGE_CONTEXT_MARKER = false) as ->.
  { apply not_true_is_false. intros [k Hk]%starts_with_spec. pose proof (Hs CHANGE_CONTEXT_MARKER (or_intror eq_refl)) as H0.
    rewrite Hk in H0. by rewrite (proj2 (strip_prefix_Some _ _ k)) in H0. }
  cbn [orb andb]. destruct (_ && bool_decide (mv = None)); by destruct l.
Qed.

Lemma process_update pre path mv cs n k line h :
  (∀ st, handle_hunk_headers_and_end_patch st (trim_end line) = Ok None) →
  update_file_line n path mv cs line (trim_end line) = Ok h →
  process_line (mk_stream [] (InUpdateFile k) (pre ++ [UpdateFile path mv cs]) n) line =
    Ok (mk_stream [] (InUpdateFile k) (pre ++ [h]) n).
Proof.
  intros Hh Hu. unfold process_line, or_header. cbn [mode hunks line_number]. rewrite Hh, last_snoc. cbn [mbind outcome_bind].
  rewrite Hu. cbn [mbind outcome_bind]. unfold set_hunks. cbn [line_buffer mode line_number hunks]. by rewrite update_last_snoc.
Qed.

Lemma push_changes_stream pre path mv cs c n k cls ls :
  Forall (λ l, line_ok (change_text l)) cls →
  push_chars (mk_stream [] (InUpdateFile k) (pre ++ [UpdateFile path mv (cs ++ [c])]) n) (text_of ((render_change <$> cls) ++ ls)) =
  push_chars (mk_stream [] (InUpdateFile k) (pre ++ [UpdateFile path mv (cs ++ [foldl push_change c cls])]) (n + length cls)) (text_of ls).
Proof.
  intros H. revert c n. induction H as [|l cls Hl _ IH]; intros c n; cbn [fmap list_fmap app foldl length]; [by rewrite Nat.add_0_r|].
  erewrite push_whole_line; [|by apply render_change_line|].
  2: { apply process_update; [intros st; destruct l; by apply handle_content|].
       rewrite update_change_line, push_change_snoc. reflexivity. }
  rewrite Nat.add_succ_r, <- Nat.add_succ_l. apply IH.
Qed.

Lemma chunk_value_nonblank c : ch_lines c ≠ [] → chunk_blank (chunk_value c) = false.
Proof.
  intros H. destruct c as [h [|l cls] e]; [done|]. unfold chunk_blank, chunk_value. cbn.
  apply andb_false_iff. destruct l; [left|right|left]; by apply bool_decide_eq_false.
Qed.

(** The lines of a chunk after its header, and its end-of-file marker. *)
Lemma push_chunk_body pre path mv cs n k h cls (eof : bool) ls :
  cls ≠ [] → Forall (λ l, line_ok (change_text l)) cls →
  push_chars (mk_stream [] (InUpdateFile k) (pre ++ [UpdateFile path mv (cs ++ [blank_chunk (match h with ContextHeader ctx => Some ctx | _ => None end)])]) n)
    (text_of ((render_change <$> cls) ++ (if eof then [EOF_MARKER] else []) ++ ls)) =
  push_chars (mk_stream [] (InUpdateFile k) (pre ++ [UpdateFile path mv (cs ++ [chunk_value (mk_chunk_ast h cls eof)])])
    (n + length cls + if eof then 1 else 0)) (text_of ls).
Proof.
  intros Hne Hf. rewrite push_changes_stream by done. unfold blank_chunk. rewrite push_changes_value.
  destruct eof; cbn [app]; [|by rewrite Nat.add_0_r].
  erewrite push_whole_line; [by rewrite Nat.add_1_r|line_ok_lit|].
  apply process_update; [done|]. unfold update_file_line, move_to.
  change (trim_end EOF_MARKER) with EOF_MARKER. rewrite (bool_decide_false (cs ++ _ = [])) by (by destruct cs).
  cbn [andb]. rewrite (bool_decide_false (EOF_MARKER = EMPTY_CHANGE_CONTEXT_MARKER)) by done.
  change (starts_with EOF_MARKER CHANGE_CONTEXT_MARKER) with false.
  change (strip_prefix CHANGE_CONTEXT_MARKER EOF_MARKER) with (@None rstring). cbn [orb andb].
  rewrite (bool_decide_true (EOF_MARKER = EOF_MARKER)) by done. unfold last_blank. rewrite last_snoc, chunk_value_nonblank by done.
  by rewrite update_last_snoc.
Qed.

Lemma update_empty_header ln path mv cs :
  last_blank cs = false →
  update_file_line ln path mv cs EMPTY_CHANGE_CONTEXT_MARKER (trim_end EMPTY_CHANGE_CONTEXT_MARKER) =
    Ok (UpdateFile path mv (cs ++ [blank_chunk None])).
Proof. intros Hb. unfold update_file_line, move_to. rewrite Hb, andb_false_r. by destruct (bool_decide (cs = []) && _). Qed.
Lemma update_context_header ln path mv cs ctx :
  last_blank cs = false → path_ok ctx →
  update_file_line ln path mv cs (CHANGE_CONTEXT_MARKER ++ ctx) (trim_end (CHANGE_CONTEXT_MARKER ++ ctx)) =
    Ok (UpdateFile path mv (cs ++ [blank_chunk (Some ctx)])).
Proof.
  intros Hb (Hne & Ht & _). rewrite trim_end_app_id by done. unfold update_file_line, move_to. rewrite Hb, andb_false_r.
  rewrite (bool_decide_false (CHANGE_CONTEXT_MARKER ++ ctx = _)) by done.
  change (strip_prefix MOVE_TO_MARKER (CHANGE_CONTEXT_MARKER ++ ctx)) with (@None rstring).
  rewrite (proj2 (strip_prefix_Some CHANGE_CONTEXT_MARKER _ ctx)) by done. by destruct (_ && _).
Qed.

Lemma push_chunk pre path mv cs n k first c ls :
  chunk_ok first c → chunk_streams c → (first = true → cs = []) → last_blank cs = false →
  push_chars (mk_stream [] (InUpdateFile k) (pre ++ [UpdateFile path mv cs]) n) (text_of (render_chunk c ++ ls)) =
  push_chars (mk_stream [] (InUpdateFile k) (pre ++ [UpdateFile path mv (cs ++ [chunk_value c])]) (n + length (render_chunk c))) (text_of ls).
Proof.
  intros (Hne & Hf & Hh) Hst Hfirst Hblank. destruct c as [h cls eof]. unfold render_chunk, header_ok, chunk_streams in *.
  cbn [ch_header ch_lines ch_eof] in *. rewrite <- !app_assoc.
  assert (length (render_header h ++ (render_change <$> cls) ++ (if eof then [EOF_MARKER] else [])) =
    length (render_header h) + length cls + (if eof then 1 else 0)) as Hlen.
  { rewrite !length_app, length_fmap. destruct eof; cbn; lia. }
  rewrite Hlen. clear Hlen.
  destruct h as [| |ctx]; cbn [render_header app length].
  - destruct Hh as [-> _]. rewrite (Hfirst eq_refl). destruct cls as [|l cls]; [done|].
    apply Forall_cons in Hf as Hf'. destruct Hf' as [Hl _].
    pose proof (push_chunk_body pre path mv [] n k NoHeader (l :: cls) eof ls Hne Hf) as Hb.
    cbn [fmap list_fmap app] in *. rewrite <- Nat.add_assoc in Hb. cbn [Nat.add] in *.
    rewrite <- Hb. symmetry.
    erewrite push_whole_line; [|by apply render_change_line|]; cycle 1.
    { apply process_update; [intros st; destruct l; by apply handle_content|by rewrite update_change_line]. }
    erewrite push_whole_line; [done|by apply render_change_line|].
    apply process_update; [intros st; destruct l; by apply handle_content|by rewrite update_change_line].
  - erewrite push_whole_line; [|line_ok_lit|by apply process_update; [done|apply update_empty_header]].
    rewrite (push_chunk_body pre path mv cs (S n) k EmptyHeader cls eof ls Hne Hf). do 2 f_equal. lia.
  - erewrite push_whole_line; [| |apply process_update; [|by apply update_context_header]].
    + rewrite (push_chunk_body pre path mv cs (S n) k (ContextHeader ctx) cls eof ls Hne Hf). do 2 f_equal. lia.
    + line_ok_app. by apply path_line_ok.
    + intros st. by apply (handle_content st (chr "@")).
Qed.

Lemma push_chunks pre path mv cs n k first chunks ls :
  (first = true → cs = []) → last_blank cs = false → Forall chunk_streams chunks →
  (if first then chunks_ok chunks else Forall (chunk_ok false) chunks) →
  push_chars (mk_stream [] (InUpdateFile k) (pre ++ [UpdateFile path mv cs]) n) (text_of ((chunks ≫= render_chunk) ++ ls)) =
  push_chars (mk_stream [] (InUpdateFile k) (pre ++ [UpdateFile path mv (cs ++ (chunk_value <$> chunks))])
    (n + length (chunks ≫= render_chunk))) (text_of ls).
Proof.
  intros Hfirst Hblank Hst Hok. revert first cs n Hfirst Hblank Hok.
  induction Hst as [|c chunks Hc _ IH]; intros first cs n Hfirst Hblank Hok.
  { cbn. by rewrite Nat.add_0_r, app_nil_r. }
  assert (chunk_ok first c ∧ Forall (chunk_ok false) chunks) as [Hc1 Hcs] by (destruct first; [done|by inversion Hok]).
  change ((c :: chunks) ≫= render_chunk) with (render_chunk c ++ (chunks ≫= render_chunk)).
  rewrite <- app_assoc. erewrite push_chunk by done. rewrite (IH false); [|done| |done].
  - cbn [fmap list_fmap]. rewrite <- app_assoc. cbn [app]. do 2 f_equal. rewrite length_app. lia.
  - unfold last_blank. rewrite last_snoc. apply chunk_value_nonblank, Hc1.
Qed.

(** A state in which a new hunk may start, at any line. *)
Definition may_start (m : StreamingParserMode) (hs : list Hunk) : Prop :=
  m ≠ NotStarted ∧ m ≠ EndedPatch ∧
  ∀ n line, ensure_update_hunk_is_not_empty (mk_stream [] m hs n) line = Ok ().

Lemma process_header m hs n line :
  may_start m hs → trim line = line → trim_end line = line → starts_with line ENVIRONMENT_ID_MARKER = false →
  ∃ k, process_line (mk_stream [] m hs n) line = or_header (mk_stream [] m hs n) line k.
Proof.
  intros (H1 & H2 & _) Ht Hte He. unfold process_line, is_environment_id_preamble_line. rewrite Ht, Hte, He.
  destruct m; cbn [mode]; try done; by eexists.
Qed.

Lemma start_hunk m hs n marker path :
  may_start m hs → path_ok path → marker = ADD_FILE_MARKER ∨ marker = DELETE_FILE_MARKER ∨ marker = UPDATE_FILE_MARKER →
  process_line (mk_stream [] m hs n) (marker ++ path) =
  Ok (if bool_decide (marker = ADD_FILE_MARKER) then mk_stream [] InAddFile (hs ++ [AddFile path []]) n
      else if bool_decide (marker = DELETE_FILE_MARKER) then mk_stream [] InDeleteFile (hs ++ [DeleteFile path]) n
      else mk_stream [] (InUpdateFile n) (hs ++ [UpdateFile path None []]) n).
Proof.
  intros Hm Hp Hmk.
  assert (trim_end (marker ++ path) = marker ++ path) as Hte by (destruct Hp as (? & ? & _); by apply trim_end_app_id).
  destruct (process_header m hs n (marker ++ path) Hm) as [k ->]; [|done|by destruct Hmk as [->|[->| ->]]|].
  { destruct Hmk as [->|[->| ->]]; by apply trim_marker. }
  unfold or_header, handle_hunk_headers_and_end_patch. destruct Hm as (_ & _ & He). rewrite !He.
  destruct Hmk as [->|[->| ->]]; (rewrite bool_decide_false by done).
  - by rewrite (proj2 (strip_prefix_Some _ _ path)).
  - change (strip_prefix ADD_FILE_MARKER (DELETE_FILE_MARKER ++ path)) with (@None rstring).
    by rewrite (proj2 (strip_prefix_Some _ _ path)).
  - change (strip_prefix ADD_FILE_MARKER (UPDATE_FILE_MARKER ++ path)) with (@None rstring).
    change (strip_prefix DELETE_FILE_MARKER (UPDATE_FILE_MARKER ++ path)) with (@None rstring).
    by rewrite (proj2 (strip_prefix_Some _ _ path)).
Qed.

Lemma push_adds pre path contents n added ls :
  Forall line_ok added →
  push_chars (mk_stream [] InAddFile (pre ++ [AddFile path contents]) n) (text_of ((cons (chr "+") <$> added) ++ ls)) =
  push_chars (mk_stream [] InAddFile (pre ++ [AddFile path (contents ++ text_of added)]) (n + length added)) (text_of ls).
Proof.
  intros H. revert contents n. induction H as [|l added Hl _ IH]; intros contents n; cbn [fmap list_fmap app length].
  { by rewrite Nat.add_0_r, app_nil_r. }
  erewrite push_whole_line; [|by apply (render_change_line (Ins l))|]; cycle 1.
  { unfold process_line, or_header. cbn [mode hunks]. unfold trim. rewrite trim_start_id by done.
    rewrite handle_content by done. cbn [mbind outcome_bind]. rewrite last_snoc.
    rewrite (proj2 (strip_prefix_Some [chr "+"] _ l)) by done. unfold set_hunks. cbn [hunks line_buffer mode line_number].
    by rewrite update_last_snoc. }
  rewrite Nat.add_succ_r, <- Nat.add_succ_l. cbn [fmap list_fmap] in IH. rewrite IH, text_of_cons.
  by rewrite <- !app_assoc.
Qed.

Lemma may_start_add hs path contents : may_start InAddFile (hs ++ [AddFile path contents]).
Proof. split_and!; [done|done|]. intros n line. unfold ensure_update_hunk_is_not_empty. cbn [hunks]. by rewrite last_snoc. Qed.
Lemma may_start_delete hs path : may_start InDeleteFile (hs ++ [DeleteFile path]).
Proof. split_and!; [done|done|]. intros n line. unfold ensure_update_hunk_is_not_empty. cbn [hunks]. by rewrite last_snoc. Qed.
Lemma chunks_nonblank chunks : chunks_ok chunks → last_blank (chunk_value <$> chunks) = false.
Proof.
  intros Hok. unfold last_blank. rewrite fmap_last. destruct (last chunks) as [c|] eqn:Hl; [|done]. cbn [fmap option_fmap option_map].
  apply chunk_value_nonblank. apply last_Some_elem_of in Hl. destruct chunks as [|c0 cs]; [done|]. destruct Hok as [Hc0 Hcs].
  apply elem_of_cons in Hl as [->|Hl]; [by destruct Hc0|]. rewrite Forall_forall in Hcs. by destruct (Hcs c Hl).
Qed.
Lemma may_start_update hs k path mv chunks :
  chunks_ok chunks → may_start (InUpdateFile k) (hs ++ [UpdateFile path mv (chunk_value <$> chunks)]).
Proof.
  intros Hok. split_and!; [done|done|]. intros n line. unfold ensure_update_hunk_is_not_empty. cbn [hunks mode]. rewrite last_snoc.
  rewrite chunks_nonblank by done. by destruct chunks.
Qed.

Lemma push_hunk m hs n h :
  may_start m hs → hunk_ok h → hunk_streams h →
  ∃ m' n', may_start m' (hs ++ [hunk_value h]) ∧
    ∀ ls, push_chars (mk_stream [] m hs n) (text_of (render_hunk h ++ ls)) =
          push_chars (mk_stream [] m' (hs ++ [hunk_value h]) n') (text_of ls).
Proof.
  intros Hm Hok Hst. destruct h as [path added|path|path mv chunks]; cbn [hunk_ok hunk_streams render_hunk hunk_value] in *.
  - destruct Hok as [Hp Hf]. eexists InAddFile, _. split; [apply may_start_add|]. intros ls. cbn [app].
    erewrite push_whole_line; [|line_ok_app; by apply path_line_ok|by rewrite start_hunk by auto].
    rewrite bool_decide_true by done. rewrite push_adds by done. done.
  - eexists InDeleteFile, _. split; [apply may_start_delete|]. intros ls. cbn [app].
    erewrite push_whole_line; [|line_ok_app; by apply path_line_ok|by rewrite start_hunk by auto]. done.
  - destruct Hok as (Hp & Hmv & Hcs), Hst as [Hmvs Hsts].
    exists (InUpdateFile (S n)), ((if mv is Some _ then S (S n) else S n) + length (chunks ≫= render_chunk)).
    split; [by apply may_start_update|]. intros ls. cbn [app].
    erewrite push_whole_line; [|line_ok_app; by apply path_line_ok|by rewrite start_hunk by auto].
    rewrite !bool_decide_false by done. destruct mv as [dest|]; cbn [app from_option] in *.
    + destruct Hmvs as (Hne & Ht & Hnl). erewrite push_whole_line; [|by line_ok_app|]; cycle 1.
      { apply process_update; [intros st|]; rewrite (trim_end_app_id MOVE_TO_MARKER dest Hne Ht); [done|].
        unfold update_file_line, move_to. rewrite (proj2 (strip_prefix_Some MOVE_TO_MARKER _ dest)) by done. done. }
      by rewrite (push_chunks hs path (Some dest) [] _ _ true).
    + by rewrite (push_chunks hs path None [] _ _ true).
Qed.

Lemma push_hunks m hs n new :
  may_start m hs → Forall hunk_ok new → Forall hunk_streams new →
  ∃ m' n', may_start m' (hs ++ (hunk_value <$> new)) ∧
    ∀ ls, push_chars (mk_stream [] m hs n) (text_of ((new ≫= render_hunk) ++ ls)) =
          push_chars (mk_stream [] m' (hs ++ (hunk_value <$> new)) n') (text_of ls).
Proof.
  intros Hm Hok Hst. revert m hs n Hm Hst. induction Hok as [|h new Hh _ IH]; intros m hs n Hm Hst.
  { exists m, n. by rewrite app_nil_r. }
  apply Forall_cons in Hst as [Hs Hst]. destruct (push_hunk m hs n h Hm Hh Hs) as (m1 & n1 & Hm1 & Hp1).
  destruct (IH m1 _ n1 Hm1 Hst) as (m2 & n2 & Hm2 & Hp2). exists m2, n2.
  rewrite <- app_assoc in Hm2. split; [exact Hm2|]. intros ls.
  change ((h :: new) ≫= render_hunk) with (render_hunk h ++ (new ≫= render_hunk)).
  rewrite <- app_assoc, Hp1, Hp2. by rewrite <- app_assoc.
Qed.

Lemma push_rendered p :
  patch_ok p → Forall hunk_streams (pa_hunks p) →
  ∃ n, push_chars stream_default (render_patch p) = (mk_stream [] EndedPatch (hunk_value <$> pa_hunks p) n, Ok ()).
Proof.
  intros [Henv Hok] Hst. unfold render_patch, render_lines, render_body, stream_default.
  erewrite push_whole_line; [|line_ok_lit|reflexivity]. cbn [set_mode line_buffer hunks line_number].
  rewrite <- app_assoc.
  assert (∃ n, ∀ ls, push_chars (mk_stream [] StartedPatch [] 1)
      (text_of ((if pa_env p is Some id then [ENVIRONMENT_ID_MARKER ++ id] else []) ++ ls)) =
    push_chars (mk_stream [] StartedPatch [] n) (text_of ls)) as (n & ->).
  { destruct (pa_env p) as [e|]; [|by exists 1]. exists 2. intros ls. cbn [app].
    erewrite push_whole_line; [done|line_ok_app; by apply env_line_ok|].
    unfold process_line, is_environment_id_preamble_line. cbn [mode].
    by rewrite (proj2 (starts_with_spec _ _)) by by eexists. }
  destruct (push_hunks StartedPatch [] n (pa_hunks p)) as (m & n' & Hm & Hp); [by split_and!|done|done|].
  rewrite Hp. cbn [app] in *. exists (S n').
  destruct (process_header m _ (S n') END_PATCH_MARKER Hm) as [k Hk]; [done..|].
  erewrite push_whole_line; [reflexivity|line_ok_lit|]. rewrite Hk. unfold or_header, handle_hunk_headers_and_end_patch.
  destruct Hm as (_ & _ & He). by rewrite bool_decide_true, He.
Qed.

(** C36: the live preview ends where the parser ends.  For a patch of the grammar whose
    contexts and new places of moved files are not empty and have no white space at their end: however its
    text is cut into deltas, streaming it fails nowhere, and [finish] returns the hunks that the parser of the finished
    text returns.  (With white space there the two differ: the preview trims it, the parser keeps it.) *)
Theorem streaming_agrees_with_parser (p : patch_ast) (deltas : list rstring)
    (Hok : patch_ok p) (Hst : Forall hunk_streams (pa_hunks p)) (Hd : concat deltas = render_patch p) :
  ∃ st args, push_all stream_default deltas = (st, Ok ()) ∧
    parse_patch (render_patch p) = Ok args ∧ (finish st).2 = Ok (args_hunks args).
Proof.
  rewrite push_all_deltas_concat, Hd. destruct (push_rendered p Hok Hst) as (n & ->).
  eexists _, _. split_and!; [done|by apply parse_render|done].
Qed.

(** ** Runs *)
Lemma sample_patch_streams : Forall hunk_streams (pa_hunks sample_patch).
Proof. repeat constructor; try done; by apply (bool_decide_unpack _). Qed.

(** One character at a time. *)
Lemma streaming_agrees_with_parser_witness :
  ∃ st args, push_all stream_default ((λ c, [c]) <$> render_patch sample_patch) = (st, Ok ()) ∧
    parse_patch (render_patch sample_patch) = Ok args ∧ (finish st).2 = Ok (args_hunks args).
Proof.
  apply (streaming_agrees_with_parser sample_patch _ sample_patch_ok sample_patch_streams). by vm_compute.
Defined.

(** A blank line after the end-of-file marker: the parser skips it, the preview
    adds an empty context line to the chunk that was closed. *)
Definition blank_after_eof : rstring :=
  text_of [BEGIN_PATCH_MARKER; UPDATE_FILE_MARKER ++ lit "f"; EMPTY_CHANGE_CONTEXT_MARKER; lit "-a"; lit "+b"; EOF_MARKER; []; END_PATCH_MARKER].
Lemma preview_differs_after_end_of_file :
  (∃ args, parse_patch blank_after_eof = Ok args ∧
     args_hunks args = [UpdateFile (lit "f") None [mk_update_chunk None [lit "a"] [lit "b"] true]]) ∧
  (finish (push_delta stream_default blank_after_eof).1).2 =
    Ok [UpdateFile (lit "f") None [mk_update_chunk None [lit "a"; []] [lit "b"; []] true]].
Proof. split; [eexists; split; [by vm_compute|done]|by vm_compute]. Qed.
