(* ===== verification/ApplyHunks.v ===== *)
(** * Applying a patch to the file system ([apply-patch/src/lib.rs])

    [apply_hunks_to_files] and [apply_hunks] over an [ExecutorFileSystem],
    which is an interface: a class of operations and a class of the laws the
    recorded delta relies on.  The handlers run in a monad that threads the
    file system and the delta and ends in a value, an [anyhow] error or a
    panic; a failure keeps the delta of what was committed before it. *)
From S2P Require Import Prelude RustStr SeekSequence Replacements PatchParser.

Abbreviation path := rstring.

(** ** Errors *)
Inductive ErrorKind := NotFound | InvalidInput | KindOther | KindUnlisted (code : nat).
#[global] Instance ErrorKind_eq_dec : EqDecision ErrorKind.
Proof. solve_decision. Defined.
Record io_error := mk_io { io_kind : ErrorKind; io_message : rstring }.
#[global] Instance io_error_eq_dec : EqDecision io_error.
Proof. solve_decision. Defined.

Inductive ApplyPatchError :=
| EParseError (e : ParseError)
| EIoError (context : rstring) (source : io_error)
| EComputeReplacements (message : rstring)
| EImplicitInvocation.

(** [anyhow::Error] as this code makes it: a message, an I/O error with or
    without a context, or a patch error. *)
Inductive anyhow_error :=
| AMessage (m : rstring)
| AIo (context : option rstring) (source : io_error)
| APatch (e : ApplyPatchError).

(** ** The delta *)
Inductive AppliedPatchFileChange :=
| CAdd (content : rstring) (overwritten_content : option rstring)
| CDelete (content : rstring)
| CUpdate (move_path : option path) (old_content : rstring)
          (overwritten_move_content : option rstring) (new_content : rstring).
Record AppliedPatchChange := mk_change { c_path : path; c_change : AppliedPatchFileChange }.
Record AppliedPatchDelta := mk_delta { d_changes : list AppliedPatchChange; d_exact : bool }.
Definition delta_empty : AppliedPatchDelta := mk_delta [] true.
Definition delta_append (a b : AppliedPatchDelta) : AppliedPatchDelta :=
  mk_delta (d_changes a ++ d_changes b) (d_exact a && d_exact b).

(** ** The file system interface *)
Record FileMetadata := mk_meta { is_directory : bool; is_file : bool; is_symlink : bool }.

Class ExecutorFileSystem (S : Type) := {
  get_metadata : S → path → FileMetadata + io_error;
  read_file_text : S → path → rstring + io_error;
  write_file : S → path → rstring → S * (unit + io_error);
  remove : S → path → bool → bool → S * (unit + io_error);
  create_directory : S → path → bool → S * (unit + io_error)
}.

(** What the delta relies on: the text files of a state form a map, and on a
    path that is a regular file or free ([plain]) the operations do to it what
    they report.  A failed write may have left anything, a failed removal
    either the file or nothing. *)
Class FileSystemLaws (S : Type) `{ExecutorFileSystem S} := {
  view : S → gmap path rstring;
  plain : S → path → Prop;
  meta_file s p m : get_metadata s p = inl m → is_file m = true → is_symlink m = false → plain s p;
  meta_free s p e : get_metadata s p = inr e → io_kind e = NotFound → plain s p;
  read_ok s p c : read_file_text s p = inl c → view s !! p = Some c;
  read_free s p e : read_file_text s p = inr e → io_kind e = NotFound → view s !! p = None;
  write_ok s p c s' : plain s p → write_file s p c = (s', inl ()) → view s' = <[p:=c]> (view s);
  write_free s p c s' e :
    write_file s p c = (s', inr e) → io_kind e = NotFound →
    view s' = view s ∧ ∀ q, plain s q → plain s' q;
  mkdir_view s p r s' x :
    create_directory s p r = (s', x) → view s' = view s ∧ ∀ q, plain s q → plain s' q;
  remove_ok s p r f s' : plain s p → remove s p r f = (s', inl ()) → view s' = delete p (view s);
  remove_err s p r f s' e :
    remove s p r f = (s', inr e) →
    (∀ q, q ≠ p → view s' !! q = view s !! q) ∧ (view s' !! p = view s !! p ∨ view s' !! p = None);
  write_plain s p c s' q : plain s p → write_file s p c = (s', inl ()) → plain s q → plain s' q;
}.

Section apply.
Context {S : Type} `{ExecutorFileSystem S}.
(** [AbsolutePathBuf::resolve_path_against_base(_, cwd)], [AbsolutePathBuf::parent]
    and the writers of the caller. *)
Context (resolve : path → path) (parent : path → option path).
Context {W : Type} (writeln : W → rstring → W * (unit + io_error)).

(** ** The monad *)
Definition run_state : Type := S * AppliedPatchDelta.
Definition M (A : Type) : Type := run_state → run_state * outcome anyhow_error A.
Definition ret {A} (a : A) : M A := λ st, (st, Ok a).
Definition throw {A} (e : anyhow_error) : M A := λ st, (st, Err e).
Definition bind {A B} (m : M A) (k : A → M B) : M B :=
  λ st, let '(st1, r) := m st in
        match r with Ok a => k a st1 | Err e => (st1, Err e) | Panic => (st1, Panic) end.
Notation "'let!' x ':=' m 'in' k" := (bind m (fun x => k))
  (at level 10, x binder, m at level 100, k at level 200).

Definition get_fs : M S := λ st, (st, Ok st.1).
Definition lift_fs {A} (op : S → S * A) : M A := λ st, let '(s, a) := op st.1 in ((s, st.2), Ok a).
Definition push_delta (c : AppliedPatchChange) : M unit :=
  λ st, ((st.1, mk_delta (d_changes st.2 ++ [c]) (d_exact st.2)), Ok ()).
Definition set_delta (i : nat) (c : AppliedPatchChange) : M unit :=
  λ st, ((st.1, mk_delta (<[i:=c]> (d_changes st.2)) (d_exact st.2)), Ok ()).
Definition delta_len : M nat := λ st, (st, Ok (length (d_changes st.2))).
(** [delta.exact &= b] *)
Definition and_exact (b : bool) : M unit :=
  λ st, ((st.1, mk_delta (d_changes st.2) (d_exact st.2 && b)), Ok ()).
Definition lift_io {A} (context : option rstring) (r : A + io_error) : M A :=
  match r with inl a => ret a | inr e => throw (AIo context e) end.

(** ** The helpers *)
Definition ensure_not_directory (s : S) (p : path) : unit + io_error :=
  match get_metadata s p with
  | inr e => inr e
  | inl m => if is_directory m then inr (mk_io InvalidInput (lit "path is a directory")) else inl ()
  end.

Definition remove_failure_was_side_effect_free (s : S) (p : path) (expected_content : option rstring) : bool :=
  match expected_content with
  | Some expected => match read_file_text s p with inl c => bool_decide (c = expected) | inr _ => false end
  | None => false
  end.

Definition note_existing_path_delta_support (s : S) (p : path) : bool :=
  match get_metadata s p with
  | inl m => is_file m && negb (is_symlink m)
  | inr e => bool_decide (io_kind e = NotFound)
  end.

Definition read_optional_file_text_for_delta (p : path) : M (option rstring) :=
  let! s := get_fs in
  let! _ := and_exact (note_existing_path_delta_support s p) in
  match read_file_text s p with
  | inl content => ret (Some content)
  | inr e => if decide (io_kind e = NotFound) then ret None
             else let! _ := and_exact false in ret None
  end.

(** Its error is an [anyhow] error, returned here as data for [try_write!]. *)
Definition write_file_with_missing_parent_retry (p : path) (contents : rstring) : M (unit + anyhow_error) :=
  let failed := lit "Failed to write file " ++ p in
  let! r := lift_fs (λ s, write_file s p contents) in
  match r with
  | inl _ => ret (inl ())
  | inr e =>
      if decide (io_kind e = NotFound) then
        let! mk := match parent p with
                   | Some dir =>
                       let! d := lift_fs (λ s, create_directory s dir true) in
                       ret (match d with
                            | inl _ => inl ()
                            | inr e => inr (AIo (Some (lit "Failed to create parent directories for " ++ p)) e)
                            end)
                   | None => ret (inl ())
                   end in
        match mk with
        | inr e => ret (inr e)
        | inl _ =>
            let! r := lift_fs (λ s, write_file s p contents) in
            ret (match r with inl _ => inl () | inr e => inr (AIo (Some failed) e) end)
        end
      else ret (inr (AIo (Some failed) e))
  end.

(** [try_write!]: a failed write makes the delta inexact. *)
Definition try_write (r : unit + anyhow_error) : M unit :=
  match r with inl _ => ret () | inr e => let! _ := and_exact false in throw e end.

(** [derive_new_contents_from_chunks]: the original and the new contents. *)
Definition derive_new_contents_from_chunks (p : path) (chunks : list UpdateFileChunk) : M (rstring * rstring) :=
  let! s := get_fs in
  match read_file_text s p with
  | inr e => throw (APatch (EIoError (lit "Failed to read file to update " ++ p) e))
  | inl original =>
      match derive_new_contents p original chunks with
      | Ok new => ret (original, new)
      | Err m => throw (APatch (EComputeReplacements m))
      | Panic => λ st, (st, Panic)
      end
  end.

(** [fs.remove] guarded as both callers do: a failure that may have had an
    effect makes the delta inexact. *)
Definition remove_tracked (context : rstring) (p : path) (expected : option rstring) : M unit :=
  let! s := get_fs in
  let! _ := lift_io (Some context) (ensure_not_directory s p) in
  let! r := lift_fs (λ s, remove s p false false) in
  match r with
  | inl _ => ret ()
  | inr e =>
      let! s := get_fs in
      let! _ := and_exact (remove_failure_was_side_effect_free s p expected) in
      throw (AIo (Some context) e)
  end.

(** ** One hunk *)
Inductive affected := Added (p : path) | Modified (p : path) | Deleted (p : path).

Definition apply_add (path_abs affected_path : path) (contents : rstring) : M affected :=
  let! overwritten := read_optional_file_text_for_delta path_abs in
  let! r := write_file_with_missing_parent_retry path_abs contents in
  let! _ := try_write r in
  let! _ := push_delta (mk_change path_abs (CAdd contents overwritten)) in
  ret (Added affected_path).

Definition apply_delete (path_abs affected_path : path) : M affected :=
  let! s := get_fs in
  let! _ := and_exact (note_existing_path_delta_support s path_abs) in
  let deleted_content := match read_file_text s path_abs with inl c => Some c | inr _ => None end in
  let! _ := and_exact (bool_decide (is_Some deleted_content)) in
  let! _ := remove_tracked (lit "Failed to delete file " ++ path_abs) path_abs deleted_content in
  let! _ := match deleted_content with
            | Some content => push_delta (mk_change path_abs (CDelete content))
            | None => ret ()
            end in
  ret (Deleted affected_path).

(** The two ends of an update: to another path, and in place. *)
Definition finish_move (path_abs affected_path dest_abs : path) (original new : rstring) : M affected :=
  let! overwritten := read_optional_file_text_for_delta dest_abs in
  let! r := write_file_with_missing_parent_retry dest_abs new in
  let! _ := try_write r in
  let! dest_write_change_index := delta_len in
  let! _ := push_delta (mk_change dest_abs (CAdd new overwritten)) in
  let! _ := remove_tracked (lit "Failed to remove original " ++ path_abs) path_abs (Some original) in
  let! _ := set_delta dest_write_change_index
              (mk_change path_abs (CUpdate (Some dest_abs) original overwritten new)) in
  ret (Modified affected_path).

Definition finish_in_place (path_abs affected_path : path) (original new : rstring) : M affected :=
  let! r := lift_fs (λ s, write_file s path_abs new) in
  let! _ := try_write (match r with
                       | inl _ => inl ()
                       | inr e => inr (AIo (Some (lit "Failed to write file " ++ path_abs)) e)
                       end) in
  let! _ := push_delta (mk_change path_abs (CUpdate None original None new)) in
  ret (Modified affected_path).

Definition apply_update (path_abs affected_path : path) (move_path : option path)
    (chunks : list UpdateFileChunk) : M affected :=
  let! s := get_fs in
  let! _ := and_exact (note_existing_path_delta_support s path_abs) in
  let! contents := derive_new_contents_from_chunks path_abs chunks in
  let '(original, new) := contents in
  match move_path with
  | Some dest => finish_move path_abs affected_path (resolve dest) original new
  | None => finish_in_place path_abs affected_path original new
  end.

Definition apply_hunk (h : Hunk) : M affected :=
  let path_abs := resolve (hunk_source_path h) in
  match h with
  | AddFile _ contents => apply_add path_abs (hunk_path h) contents
  | DeleteFile _ => apply_delete path_abs (hunk_path h)
  | UpdateFile _ move_path chunks => apply_update path_abs (hunk_path h) move_path chunks
  end.

Record AffectedPaths := mk_affected { added : list path; modified : list path; deleted : list path }.
Definition note_affected (a : AffectedPaths) (x : affected) : AffectedPaths :=
  match x with
  | Added p => mk_affected (added a ++ [p]) (modified a) (deleted a)
  | Modified p => mk_affected (added a) (modified a ++ [p]) (deleted a)
  | Deleted p => mk_affected (added a) (modified a) (deleted a ++ [p])
  end.

Fixpoint hunk_loop (hunks : list Hunk) (acc : AffectedPaths) : M AffectedPaths :=
  match hunks with
  | [] => ret acc
  | h :: rest => let! x := apply_hunk h in hunk_loop rest (note_affected acc x)
  end.

Definition apply_hunks_to_files (hunks : list Hunk) : M AffectedPaths :=
  if bool_decide (hunks = []) then throw (AMessage (lit "No files were modified."))
  else hunk_loop hunks (mk_affected [] [] []).

(** ** Messages and the entry point *)
Definition io_error_text (context : rstring) (source : io_error) : rstring :=
  context ++ lit ": " ++ io_message source.
Definition parse_error_text (e : ParseError) : rstring :=
  match e with
  | InvalidPatchError m => lit "invalid patch: " ++ m
  | InvalidHunkError m n => lit "invalid hunk at line " ++ show (N.of_nat n) ++ lit ", " ++ m
  end.
Definition patch_error_text (e : ApplyPatchError) : rstring :=
  match e with
  | EParseError e => parse_error_text e
  | EIoError c src => io_error_text c src
  | EComputeReplacements m => m
  | EImplicitInvocation =>
      lit "patch detected without explicit call to apply_patch. Rerun as [" ++ [34%N] ++ lit "apply_patch"
      ++ [34%N] ++ lit ", " ++ [34%N] ++ lit "<patch>" ++ [34%N] ++ lit "]"
  end.
Definition anyhow_text (e : anyhow_error) : rstring :=
  match e with
  | AMessage m => m
  | AIo (Some c) _ => c
  | AIo None src => io_message src
  | APatch e => patch_error_text e
  end.
(** [error.downcast_ref::<std::io::Error>()] *)
Definition downcast_io (e : anyhow_error) : option io_error :=
  match e with AIo _ src => Some src | AMessage _ | APatch _ => None end.
Definition error_from_io (e : io_error) : ApplyPatchError := EIoError (lit "I/O error") e.

Fixpoint write_lines (w : W) (ls : list rstring) : W * (unit + io_error) :=
  match ls with
  | [] => (w, inl ())
  | l :: ls => match writeln w l with
               | (w, inl _) => write_lines w ls
               | (w, inr e) => (w, inr e)
               end
  end.
Definition print_summary (w : W) (a : AffectedPaths) : W * (unit + io_error) :=
  write_lines w (lit "Success. Updated the following files:" ::
    (app (lit "A ") <$> added a) ++ (app (lit "M ") <$> modified a) ++ (app (lit "D ") <$> deleted a)).

(** [ApplyPatchFailure] is the pair of its error and its delta. *)
Definition apply_hunks (hunks : list Hunk) (s : S) (stdout stderr : W)
    : S * W * W * outcome (ApplyPatchError * AppliedPatchDelta) AppliedPatchDelta :=
  let '((s, delta), r) := apply_hunks_to_files hunks (s, delta_empty) in
  match r with
  | Ok a =>
      match print_summary stdout a with
      | (stdout, inl _) => (s, stdout, stderr, Ok delta)
      | (stdout, inr e) => (s, stdout, stderr, Err (error_from_io e, delta))
      end
  | Err error =>
      match writeln stderr (anyhow_text error) with
      | (stderr, inr e) => (s, stdout, stderr, Err (error_from_io e, delta))
      | (stderr, inl _) =>
          let error := match downcast_io error with
                       | Some io => error_from_io io
                       | None => EIoError (anyhow_text error) (mk_io KindOther (anyhow_text error))
                       end in
          (s, stdout, stderr, Err (error, delta))
      end
  | Panic => (s, stdout, stderr, Panic)
  end.

Definition parse_failure_text (e : ParseError) : rstring :=
  match e with
  | InvalidPatchError m => lit "Invalid patch: " ++ m
  | InvalidHunkError m n => lit "Invalid patch hunk on line " ++ show (N.of_nat n) ++ lit ": " ++ m
  end.
Definition apply_patch (patch : rstring) (s : S) (stdout stderr : W)
    : S * W * W * outcome (ApplyPatchError * AppliedPatchDelta) AppliedPatchDelta :=
  match parse_patch patch with
  | Ok source => apply_hunks (args_hunks source) s stdout stderr
  | Err e =>
      match writeln stderr (parse_failure_text e) with
      | (stderr, inr io) => (s, stdout, stderr, Err (error_from_io io, delta_empty))
      | (stderr, inl _) => (s, stdout, stderr, Err (EParseError e, delta_empty))
      end
  | Panic => (s, stdout, stderr, Panic)
  end.
End apply.

(** ** What a delta says about the files *)
(** What applying a change did: a move writes its target, then removes its source. *)
Inductive took_place : AppliedPatchChange → gmap path rstring → gmap path rstring → Prop :=
| took_add p content v :
    took_place (mk_change p (CAdd content (v !! p))) v (<[p:=content]> v)
| took_delete p content v :
    v !! p = Some content → took_place (mk_change p (CDelete content)) v (delete p v)
| took_update p old new v :
    v !! p = Some old → took_place (mk_change p (CUpdate None old None new)) v (<[p:=new]> v)
| took_move p d old new v :
    v !! p = Some old →
    took_place (mk_change p (CUpdate (Some d) old (v !! d) new)) v (delete p (<[d:=new]> v)).
(** How a reader of the delta takes a change ([apply_add], [apply_delete] and [apply_update] of
    [turn_diff_tracker.rs]): a move takes the source away first. *)
Inductive change_step : AppliedPatchChange → gmap path rstring → gmap path rstring → Prop :=
| step_add p content v :
    change_step (mk_change p (CAdd content (v !! p))) v (<[p:=content]> v)
| step_delete p content v :
    v !! p = Some content → change_step (mk_change p (CDelete content)) v (delete p v)
| step_update p old new v :
    v !! p = Some old → change_step (mk_change p (CUpdate None old None new)) v (<[p:=new]> v)
| step_move p d old new v :
    v !! p = Some old →
    change_step (mk_change p (CUpdate (Some d) old (v !! d) new)) v (<[d:=new]> (delete p v)).
(** The two differ where a file is moved onto itself. *)
Definition no_self_move (c : AppliedPatchChange) : Prop :=
  match c_change c with CUpdate (Some d) _ _ _ => d ≠ c_path c | _ => True end.
Lemma took_place_step c v v' : took_place c v v' → no_self_move c → change_step c v v'.
Proof. destruct 1; intros Hn; try by constructor. rewrite delete_insert_ne by (intros ->; by apply Hn). by constructor. Qed.

Section replays.
Context (step : AppliedPatchChange → gmap path rstring → gmap path rstring → Prop).
Inductive replays : list AppliedPatchChange → gmap path rstring → gmap path rstring → Prop :=
| replays_nil v : replays [] v v
| replays_cons c cs v1 v2 v3 : step c v1 v2 → replays cs v2 v3 → replays (c :: cs) v1 v3.
Lemma replays_one c v1 v2 : step c v1 v2 → replays [c] v1 v2.
Proof using Type. intros H. econstructor; [exact H|constructor]. Qed.
Lemma replays_app cs1 cs2 v1 v2 v3 : replays cs1 v1 v2 → replays cs2 v2 v3 → replays (cs1 ++ cs2) v1 v3.
Proof using Type. induction 1; [done|]. intros. econstructor; eauto. Qed.
End replays.
#[local] Abbreviation happened := (replays took_place).
Lemma happened_replays cs v v' : happened cs v v' → Forall no_self_move cs → replays change_step cs v v'.
Proof. induction 1; intros Hf; [constructor|]. apply Forall_cons in Hf as [? ?]. econstructor; [by apply took_place_step|auto]. Qed.

Section laws.
Context {S : Type} `{FileSystemLaws S}.
Context (resolve : path → path) (parent : path → option path).

(** A computation whose exact delta tells what happened to the files. *)
Definition tracks {A} (m : M (S:=S) A) : Prop :=
  ∀ s d, let '((s', d'), r) := m (s, d) in
    r ≠ Panic ∧
    (d_exact d' = true →
     d_exact d = true ∧ ∃ cs, d_changes d' = d_changes d ++ cs ∧ happened cs (view s) (view s')).

Lemma tracks_ret {A} (a : A) : tracks (ret a).
Proof using Type. intros s d. cbn. split; [done|]. intros He. split; [done|]. exists []. rewrite app_nil_r. split; [done|constructor]. Qed.

Lemma tracks_throw {A} e : tracks (throw (A:=A) e).
Proof using Type. intros s d. cbn. split; [done|]. intros He. split; [done|]. exists []. rewrite app_nil_r. split; [done|constructor]. Qed.

Lemma tracks_bind {A B} (m : M A) (k : A → M B) : tracks m → (∀ a, tracks (k a)) → tracks (bind m k).
Proof using Type.
  intros Hm Hk s d. unfold bind. specialize (Hm s d). destruct (m (s, d)) as [[s1 d1] [a|e|]]; [|by destruct Hm|by destruct Hm].
  specialize (Hk a s1 d1). destruct (k a (s1, d1)) as [[s2 d2] r]. destruct Hm as [_ Hm], Hk as [Hp Hk].
  split; [done|]. intros He. destruct (Hk He) as (He1 & cs2 & Hc2 & Hr2).
  destruct (Hm He1) as (He0 & cs1 & Hc1 & Hr1). split; [done|]. exists (cs1 ++ cs2).
  rewrite Hc2, Hc1, app_assoc. split; [done|]. by eapply replays_app.
Qed.

Lemma note_plain s p : note_existing_path_delta_support s p = true → plain s p.
Proof using Type.
  unfold note_existing_path_delta_support. destruct (get_metadata s p) as [m|e] eqn:E.
  - intros [Hf Hs%negb_true_iff]%andb_true_iff. by eapply meta_file.
  - intros Hk%bool_decide_eq_true. by eapply meta_free.
Qed.

Lemma read_optional_spec p s d :
  ∃ o ex, read_optional_file_text_for_delta p (s, d) = ((s, mk_delta (d_changes d) ex), Ok o) ∧
    (ex = true → d_exact d = true ∧ plain s p ∧ view s !! p = o).
Proof using Type.
  unfold read_optional_file_text_for_delta, bind, get_fs, and_exact. cbn.
  destruct (read_file_text s p) as [c|e] eqn:Er; [|case_decide as Hk]; cbn; eexists _, _; (split; [done|]).
  - intros [He Hn]%andb_true_iff. split_and!; [done|by apply note_plain|by apply read_ok].
  - intros [He Hn]%andb_true_iff. split_and!; [done|by apply note_plain|by eapply read_free].
  - by intros [_ ?]%andb_true_iff.
Qed.

Lemma write_retry_spec p c s d :
  plain s p →
  ∃ s' r, write_file_with_missing_parent_retry parent p c (s, d) = ((s', d), Ok r) ∧
    (r = inl () → view s' = <[p:=c]> (view s) ∧ ∀ q, plain s q → plain s' q).
Proof using Type.
  intros Hp. unfold write_file_with_missing_parent_retry, bind, lift_fs, ret. cbn.
  destruct (write_file s p c) as [s1 [[]|e]] eqn:Ew; cbn.
  { eexists _, _. split; [done|]. intros _. split; [by eapply write_ok|]. intros q. by eapply write_plain. }
  case_decide as Hk; cbn; [|by eexists _, _].
  destruct (write_free _ _ _ _ _ Ew Hk) as [Hv1 Hp1].
  assert (∀ s2, view s2 = view s1 → (∀ q, plain s1 q → plain s2 q) →
    ∃ s' r, ((let '(s3, a) := write_file s2 p c in
      (s3, d, Ok (match a with inl _ => inl () | inr e0 => inr (AIo (Some (lit "Failed to write file " ++ p)) e0) end)))
      : run_state * outcome anyhow_error (unit + anyhow_error)) = ((s', d), Ok r) ∧
    (r = inl () → view s' = <[p:=c]> (view s) ∧ ∀ q, plain s q → plain s' q)) as Hsecond.
  { intros s2 Hv2 Hp2. destruct (write_file s2 p c) as [s3 [[]|e3]] eqn:Ew3; eexists _, _; (split; [done|]); [|done].
    intros _. assert (plain s2 p) as Hp2' by auto. split.
    - by rewrite (write_ok _ _ _ _ Hp2' Ew3), Hv2, Hv1.
    - intros q Hq. eapply (write_plain s2); eauto. }
  destruct (parent p) as [dir|]; cbn.
  - destruct (create_directory s1 dir true) as [s2 [[]|e2]] eqn:Ed; cbn; [|by eexists _, _].
    destruct (mkdir_view _ _ _ _ _ Ed) as [Hv2 Hp2]. destruct (Hsecond s2 Hv2 Hp2) as (s' & r & E & Hr).
    exists s', r. split; [|exact Hr]. destruct (write_file s2 p c) as [s3 a]. exact E.
  - destruct (Hsecond s1 eq_refl (λ _ Hq, Hq)) as (s' & r & E & Hr). exists s', r. split; [|exact Hr].
    destruct (write_file s1 p c) as [s3 a]. exact E.
Qed.

Lemma remove_tracked_spec ctx p expected s d :
  plain s p →
  ∃ s' ex r, remove_tracked ctx p expected (s, d) = ((s', mk_delta (d_changes d) ex), r) ∧ r ≠ Panic ∧
    (ex = true → d_exact d = true) ∧
    match r with Ok _ => view s' = delete p (view s) | _ => ex = true → view s' = view s end.
Proof using Type.
  intros Hp. unfold remove_tracked, bind, get_fs, lift_io, lift_fs, and_exact, throw. cbn.
  destruct d as [cs ex0]. cbn. destruct (ensure_not_directory s p) as [[]|e]; cbn.
  2: { by eexists _, _, _. }
  destruct (remove s p false false) as [s1 [[]|e]] eqn:Er; cbn.
  { eexists _, _, _. split; [done|]. split_and!; [done|done|by eapply remove_ok]. }
  eexists _, _, _. split; [done|]. split_and!; [done|by intros [? _]%andb_true_iff|].
  intros [_ Hf]%andb_true_iff. unfold remove_failure_was_side_effect_free in Hf.
  destruct expected as [ex|]; [|done]. destruct (read_file_text s1 p) as [c|] eqn:Ec; [|done].
  apply read_ok in Ec. destruct (remove_err _ _ _ _ _ _ Er) as [Hother Hsame].
  apply map_eq. intros q. destruct (decide (q = p)) as [->|Hq]; [|by apply Hother].
  destruct Hsame as [->|Hn]; [done|]. congruence.
Qed.

(** Nothing panics, and an inexact delta stays inexact. *)
Definition calm {A} (m : M (S:=S) A) : Prop :=
  ∀ s d, let '((s', d'), r) := m (s, d) in r ≠ Panic ∧ (d_exact d' = true → d_exact d = true).

Lemma calm_ret {A} (a : A) : calm (ret a).
Proof using Type. done. Qed.
Lemma calm_throw {A} e : calm (throw (A:=A) e).
Proof using Type. done. Qed.
Lemma calm_bind {A B} (m : M A) (k : A → M B) : calm m → (∀ a, calm (k a)) → calm (bind m k).
Proof using Type.
  intros Hm Hk s d. unfold bind. specialize (Hm s d). destruct (m (s, d)) as [[s1 d1] [a|e|]]; [|by destruct Hm|by destruct Hm].
  specialize (Hk a s1 d1). destruct (k a (s1, d1)) as [[s2 d2] r]. destruct Hm as [_ Hm], Hk as [Hp Hk]. auto.
Qed.
Lemma calm_get_fs : calm get_fs.
Proof using Type. done. Qed.
Lemma calm_and_exact b : calm (and_exact b).
Proof using Type. intros s d. cbn. split; [done|]. by intros [? _]%andb_true_iff. Qed.
Lemma calm_lift_fs {A} (op : S → S * A) : calm (lift_fs op).
Proof using Type. intros s d. unfold lift_fs. cbn. by destruct (op s). Qed.
Lemma calm_push c : calm (push_delta c).
Proof using Type. done. Qed.
Lemma calm_set i c : calm (set_delta i c).
Proof using Type. done. Qed.
Lemma calm_len : calm delta_len.
Proof using Type. done. Qed.
Lemma calm_lift_io {A} ctx (r : A + io_error) : calm (lift_io ctx r).
Proof using Type. by destruct r. Qed.
Lemma calm_try_write r : calm (try_write r).
Proof using Type. destruct r; [done|]. apply calm_bind; [apply calm_and_exact|intros; apply calm_throw]. Qed.

Create HintDb calm.
#[local] Hint Resolve calm_ret calm_throw calm_bind calm_get_fs calm_and_exact calm_lift_fs calm_push calm_set
  calm_len calm_lift_io calm_try_write : calm.
(** Walk through the binds and branches of a handler. *)
Ltac calm :=
  repeat first [progress eauto 2 with calm | apply calm_bind; [|intros ?] | case_scrutinee | case_decide].

Lemma calm_read_optional p : calm (read_optional_file_text_for_delta p).
Proof using Type. unfold read_optional_file_text_for_delta. calm. Qed.
Lemma calm_write_retry p c : calm (write_file_with_missing_parent_retry parent p c).
Proof using Type. unfold write_file_with_missing_parent_retry. calm. Qed.
Lemma calm_remove_tracked ctx p expected : calm (remove_tracked ctx p expected).
Proof using Type. unfold remove_tracked. calm. Qed.
Lemma calm_derive p chunks : calm (derive_new_contents_from_chunks p chunks).
Proof using Type.
  unfold derive_new_contents_from_chunks. apply calm_bind; [calm|]. intros s.
  destruct (read_file_text s p) as [original|]; [|calm].
  pose proof (derive_no_panic p original chunks) as Hn. destruct (derive_new_contents p original chunks); calm.
  by destruct Hn.
Qed.

(** The outcome of a computation, judged from an earlier state. *)
Definition tracked_from {A : Type} (v0 : gmap path rstring) (d0 : AppliedPatchDelta)
    (res : run_state (S:=S) * outcome anyhow_error A) : Prop :=
  let '((s', d'), r) := res in
  r ≠ Panic ∧
  (d_exact d' = true →
   d_exact d0 = true ∧ ∃ cs, d_changes d' = d_changes d0 ++ cs ∧ happened cs v0 (view s')).

Lemma bind_at {A B} (m : M (S:=S) A) (k : A → M B) st st1 a : m st = (st1, Ok a) → bind m k st = k a st1.
Proof using Type. unfold bind. by intros ->. Qed.

(** Once inexact, there is nothing left to show. *)
Lemma tracked_dead {A} (m : M A) v0 d0 s d : calm m → d_exact d = false → tracked_from v0 d0 (m (s, d)).
Proof using Type.
  intros Hc Hd. specialize (Hc s d). unfold tracked_from. destruct (m (s, d)) as [[s' d'] r].
  destruct Hc as [Hp He]. split; [done|]. intros Ht. specialize (He Ht). congruence.
Qed.

(** A handler that ends without touching the files any more. *)
Lemma tracked_done {A} v0 d0 s' cs ex (r : outcome anyhow_error A) :
  r ≠ Panic → (ex = true → d_exact d0 = true ∧ happened cs v0 (view s')) →
  tracked_from v0 d0 ((s', mk_delta (d_changes d0 ++ cs) ex), r).
Proof using Type. intros Hr H1. split; [done|]. intros He. destruct (H1 He). eauto. Qed.

(** A computation that stops without having touched the files. *)
Lemma tracked_stop {A} s d s' ex (r : outcome anyhow_error A) :
  r ≠ Panic → (ex = true → d_exact d = true ∧ view s' = view s) →
  tracked_from (view s) d ((s', mk_delta (d_changes d) ex), r).
Proof using Type.
  intros Hr H1. split; [done|]. intros He. destruct (H1 He) as [? ->]. split; [done|].
  exists []. rewrite app_nil_r. split; [done|constructor].
Qed.

Lemma tracked_weaken {A} v0 d0 d1 (res : run_state * outcome anyhow_error A) :
  d_changes d1 = d_changes d0 → d_exact d0 = true → tracked_from v0 d1 res → tracked_from v0 d0 res.
Proof using Type.
  unfold tracked_from. destruct res as [[s' d'] r]. intros Hc He [Hp Ht]. split; [done|].
  intros Hx. destruct (Ht Hx) as (_ & cs & Hcs & Hr). rewrite Hc in Hcs. eauto.
Qed.

Lemma tracks_add path_abs affected_path contents : tracks (apply_add parent path_abs affected_path contents).
Proof using Type.
  intros s d. change (tracked_from (view s) d (apply_add parent path_abs affected_path contents (s, d))).
  unfold apply_add. destruct (read_optional_spec path_abs s d) as (o & ex & E & Ho).
  rewrite (bind_at _ _ _ _ _ E). destruct ex; [|apply tracked_dead; [|done]].
  2: { apply calm_bind; [apply calm_write_retry|intros; calm]. }
  destruct (Ho eq_refl) as (Hd & Hp & Hv).
  destruct (write_retry_spec path_abs contents s (mk_delta (d_changes d) true) Hp) as (s' & r & E2 & Hr).
  rewrite (bind_at _ _ _ _ _ E2). destruct r as [[]|e]; [|by apply (tracked_dead (throw _) _ _ _ (mk_delta _ false))].
  destruct (Hr eq_refl) as [Hw _]. apply (tracked_done (view s) d s' [mk_change path_abs (CAdd contents o)] true (Ok (Added affected_path))); [done|]. intros _. split; [done|].
  rewrite Hw, <- Hv. apply replays_one. constructor.
Qed.

Lemma tracks_delete path_abs affected_path : tracks (apply_delete path_abs affected_path).
Proof using Type.
  intros s d. change (tracked_from (view s) d (apply_delete path_abs affected_path (s, d))).
  unfold apply_delete. rewrite (bind_at _ _ _ (s, d) s) by done. rewrite (bind_at _ _ _ _ ()) by reflexivity.
  rewrite (bind_at _ _ _ _ ()) by reflexivity. cbn [fst snd d_changes d_exact].
  destruct (d_exact d) eqn:Hd; [|apply tracked_dead; [|done]].
  2: { apply calm_bind; [apply calm_remove_tracked|intros; calm]. }
  destruct (note_existing_path_delta_support s path_abs) eqn:Hn; [|apply tracked_dead; [|done]].
  2: { apply calm_bind; [apply calm_remove_tracked|intros; calm]. }
  apply note_plain in Hn. destruct (read_file_text s path_abs) as [content|e] eqn:Er; [|apply tracked_dead; [|done]].
  2: { apply calm_bind; [apply calm_remove_tracked|intros; calm]. }
  rewrite bool_decide_eq_true_2 by eauto. cbn [andb]. apply read_ok in Er.
  destruct (remove_tracked_spec (lit "Failed to delete file " ++ path_abs) path_abs (Some content) s
    (mk_delta (d_changes d) true) Hn) as (s' & ex & r & E & Hnp & Hex & Hv).
  unfold bind at 1. rewrite E. destruct r as [u|e|]; [| |done].
  - apply (tracked_done (view s) d s' [mk_change path_abs (CDelete content)] ex (Ok (Deleted affected_path))); [done|]. intros _. split; [done|]. rewrite Hv. apply replays_one. by constructor.
  - apply (tracked_stop s d s' ex (Err e)); [done|]. intros He. split; [done|]. by apply Hv.
Qed.

Lemma calm_finish_move path_abs affected_path dest_abs original new :
  calm (finish_move parent path_abs affected_path dest_abs original new).
Proof using Type.
  apply calm_bind; [apply calm_read_optional|intros o]. apply calm_bind; [apply calm_write_retry|intros r].
  do 3 (apply calm_bind; [calm|intros ?]). apply calm_bind; [apply calm_remove_tracked|calm].
Qed.
Lemma calm_finish_in_place path_abs affected_path original new :
  calm (finish_in_place path_abs affected_path original new).
Proof using Type. unfold finish_in_place. apply calm_bind; [calm|intros ?]. calm. Qed.

Lemma tracks_finish_in_place path_abs affected_path original new s d :
  plain s path_abs → view s !! path_abs = Some original →
  tracked_from (view s) d (finish_in_place path_abs affected_path original new (s, d)).
Proof using Type.
  intros Hp Hv. unfold finish_in_place. destruct (write_file s path_abs new) as [s' [[]|e]] eqn:Ew.
  - rewrite (bind_at _ _ _ (s', d) (inl ())) by (unfold lift_fs; cbn; by rewrite Ew).
    apply (tracked_done (view s) d s' [mk_change path_abs (CUpdate None original None new)] (d_exact d)
      (Ok (Modified affected_path))); [done|]. intros He. split; [done|].
    rewrite (write_ok _ _ _ _ Hp Ew). apply replays_one. by constructor.
  - rewrite (bind_at _ _ _ (s', d) (inr e)) by (unfold lift_fs; cbn; by rewrite Ew).
    split; [done|]. cbn. by rewrite andb_false_r.
Qed.

Lemma tracks_finish_move path_abs affected_path dest_abs original new s d :
  plain s path_abs → view s !! path_abs = Some original →
  tracked_from (view s) d (finish_move parent path_abs affected_path dest_abs original new (s, d)).
Proof using Type.
  intros Hp Hv. unfold finish_move. destruct (read_optional_spec dest_abs s d) as (o & ex & E & Ho).
  rewrite (bind_at _ _ _ _ _ E). destruct ex; [|apply tracked_dead; [|done]].
  2: { apply calm_bind; [apply calm_write_retry|intros r]. do 3 (apply calm_bind; [calm|intros ?]).
       apply calm_bind; [apply calm_remove_tracked|calm]. }
  destruct (Ho eq_refl) as (Hd & Hpd & Hvd).
  destruct (write_retry_spec dest_abs new s (mk_delta (d_changes d) true) Hpd) as (s1 & r & E2 & Hr).
  rewrite (bind_at _ _ _ _ _ E2). destruct r as [[]|e]; [|by apply (tracked_dead (throw _) _ _ _ (mk_delta _ false))].
  destruct (Hr eq_refl) as [Hw Hpl].
  rewrite (bind_at _ _ _ (s1, mk_delta (d_changes d) true) ()) by done.
  rewrite (bind_at _ _ _ (s1, mk_delta (d_changes d) true) (length (d_changes d))) by done.
  rewrite (bind_at _ _ _ (s1, mk_delta (d_changes d ++ [mk_change dest_abs (CAdd new o)]) true) ()) by done.
  destruct (remove_tracked_spec (lit "Failed to remove original " ++ path_abs) path_abs (Some original) s1
    (mk_delta (d_changes d ++ [mk_change dest_abs (CAdd new o)]) true) (Hpl _ Hp)) as (s2 & ex & r & E3 & Hnp & Hex & Hv2).
  unfold bind at 1. rewrite E3. destruct r as [u|e|]; [| |done].
  - unfold set_delta, bind, ret. cbn [fst snd d_changes d_exact].
    rewrite insert_app_r_alt, Nat.sub_diag by lia. cbn [list_insert insert].
    apply (tracked_done (view s) d s2 [mk_change path_abs (CUpdate (Some dest_abs) original o new)] ex
      (Ok (Modified affected_path))); [done|]. intros _. split; [done|].
    rewrite Hv2, Hw, <- Hvd. apply replays_one. by constructor.
  - cbn [d_changes]. apply (tracked_done (view s) d s2 [mk_change dest_abs (CAdd new o)] ex (Err e)); [done|]. intros He. split; [done|].
    rewrite (Hv2 He), Hw, <- Hvd. apply replays_one. constructor.
Qed.

Lemma tracks_update path_abs affected_path move_path chunks :
  tracks (apply_update resolve parent path_abs affected_path move_path chunks).
Proof using Type.
  intros s d. change (tracked_from (view s) d (apply_update resolve parent path_abs affected_path move_path chunks (s, d))).
  unfold apply_update. rewrite (bind_at _ _ _ (s, d) s) by done. rewrite (bind_at _ _ _ _ ()) by reflexivity.
  cbn [fst snd].
  destruct (d_exact d && note_existing_path_delta_support s path_abs) eqn:He.
  2: { apply tracked_dead; [|done]. apply calm_bind; [apply calm_derive|]. intros [original new].
       destruct move_path; [apply calm_finish_move|apply calm_finish_in_place]. }
  apply andb_true_iff in He as [Hd Hn%note_plain].
  unfold derive_new_contents_from_chunks. destruct (read_file_text s path_abs) as [original|e] eqn:Er.
  2: { unfold bind, get_fs. cbn. rewrite Er. by apply (tracked_stop s d s true (Err _)). }
  apply read_ok in Er as Hv. pose proof (derive_no_panic path_abs original chunks) as Hnp.
  destruct (derive_new_contents path_abs original chunks) as [new|m|] eqn:Ed; [| |by destruct Hnp].
  - rewrite (bind_at _ _ _ (s, mk_delta (d_changes d) true) (original, new))
      by (unfold bind, get_fs; cbn; by rewrite Er, Ed).
    apply (tracked_weaken _ _ (mk_delta (d_changes d) true)); [done|done|].
    destruct move_path; [by apply tracks_finish_move|by apply tracks_finish_in_place].
  - unfold bind, get_fs. cbn. rewrite Er, Ed. by apply (tracked_stop s d s true (Err _)).
Qed.

Lemma tracks_hunk h : tracks (apply_hunk resolve parent h).
Proof using Type. destruct h; [apply tracks_add|apply tracks_delete|apply tracks_update]. Qed.

Lemma tracks_hunk_loop hunks acc : tracks (hunk_loop resolve parent hunks acc).
Proof using Type.
  revert acc. induction hunks as [|h hunks IH]; intros acc; cbn [hunk_loop].
  - apply tracks_ret.
  - apply tracks_bind; [apply tracks_hunk|intros x; apply IH].
Qed.
Lemma tracks_hunks hunks : tracks (apply_hunks_to_files resolve parent hunks).
Proof using Type. unfold apply_hunks_to_files. case_bool_decide; [apply tracks_throw|apply tracks_hunk_loop]. Qed.
End laws.

(** Taking a change back. *)
Definition restore (p : path) (o : option rstring) (v : gmap path rstring) : gmap path rstring :=
  match o with Some c => <[p:=c]> v | None => delete p v end.
Definition undo_change (c : AppliedPatchChange) (v : gmap path rstring) : gmap path rstring :=
  match c_change c with
  | CAdd _ overwritten => restore (c_path c) overwritten v
  | CDelete content => <[c_path c:=content]> v
  | CUpdate None old _ _ => <[c_path c:=old]> v
  | CUpdate (Some d) old overwritten _ => <[c_path c:=old]> (restore d overwritten v)
  end.

Lemma restore_lookup p v w : (∀ q, q ≠ p → w !! q = v !! q) → restore p (v !! p) w = v.
Proof.
  intros H. apply map_eq. intros q. unfold restore. destruct (decide (q = p)) as [->|Hq].
  - destruct (v !! p) as [c|] eqn:E; [by rewrite lookup_insert_eq|by rewrite lookup_delete_eq].
  - destruct (v !! p); [rewrite lookup_insert_ne by done|rewrite lookup_delete_ne by done]; by apply H.
Qed.

Lemma undo_step c v v' : took_place c v v' → undo_change c v' = v.
Proof.
  intros H. destruct H as [p content v|p content v Hp|p old new v Hp|p d old new v Hp]; cbn.
  - apply restore_lookup. intros q Hq. by rewrite lookup_insert_ne.
  - by rewrite insert_delete_id.
  - by rewrite insert_insert_eq, insert_id.
  - apply map_eq. intros q. destruct (decide (q = p)) as [->|Hqp]; [by rewrite lookup_insert_eq|].
    rewrite lookup_insert_ne by done. unfold restore.
    destruct (v !! d) as [c|] eqn:Ed; (destruct (decide (q = d)) as [->|Hqd];
      [rewrite ?lookup_insert_eq, ?lookup_delete_eq; done|
       rewrite ?lookup_insert_ne, ?lookup_delete_ne, ?lookup_insert_ne by done; done]).
Qed.

Lemma undo_replays cs v v' : happened cs v v' → foldr undo_change v' cs = v.
Proof. induction 1 as [v|c cs v1 v2 v3 H1 _ IH]; [done|]. cbn. rewrite IH. by apply undo_step. Qed.

(** ** An instance: a flat store of regular files *)
Definition mem_fs : Type := gmap path rstring.
Definition mem_missing : io_error := mk_io NotFound (lit "not found").
#[global] Instance mem_fs_ops : ExecutorFileSystem mem_fs := {
  get_metadata s p := match s !! p with
                      | Some _ => inl (mk_meta false true false)
                      | None => inr mem_missing
                      end;
  read_file_text s p := match s !! p with Some c => inl c | None => inr mem_missing end;
  write_file s p c := (<[p:=c]> s, inl ());
  remove s p _ _ := match s !! p with
                    | Some _ => (delete p s, inl ())
                    | None => (s, inr mem_missing)
                    end;
  create_directory s _ _ := (s, inl ())
}.

#[global] Instance mem_fs_laws : FileSystemLaws mem_fs.
Proof.
  refine {| view s := s; plain _ _ := True |}; cbn; try done; intros;
    repeat case_match; simplify_eq; auto.
Defined.

(** ** Properties *)



(** Moving a file onto itself deletes it: the update reports success and the
    file is gone. *)
Theorem self_move_deletes_the_file :
  let s : mem_fs := {[ lit "/a" := lit "old" ++ [newline] ]} in
  let writeln (w : list rstring) (l : rstring) := (w ++ [l], inl () : unit + io_error) in
  let hunks := [UpdateFile (lit "/a") (Some (lit "/a")) [mk_update_chunk None [lit "old"] [lit "new"] false]] in
  let '(s', stdout, _, r) := apply_hunks id (λ _, None) writeln hunks s [] [] in
  is_ok r = true ∧ stdout = [lit "Success. Updated the following files:"; lit "M /a"] ∧ s' !! lit "/a" = None.
Proof. vm_compute. split_and!; reflexivity. Qed.
(** What it records takes a reader to another state: the file with the new contents. *)
Example self_move_replays_wrongly :
  let s : mem_fs := {[ lit "/a" := lit "old" ++ [newline] ]} in
  let writeln (w : list rstring) (l : rstring) := (w ++ [l], inl () : unit + io_error) in
  let hunks := [UpdateFile (lit "/a") (Some (lit "/a")) [mk_update_chunk None [lit "old"] [lit "new"] false]] in
  let '(s', _, _, r) := apply_hunks id (λ _, None) writeln hunks s [] [] in
  ∃ delta, r = Ok delta ∧ d_exact delta = true ∧ s' !! lit "/a" = None ∧
    ∀ v', replays change_step (d_changes delta) s v' → v' !! lit "/a" = Some (lit "new" ++ [newline]).
Proof.
  intros s writeln hunks. vm_compute apply_hunks. eexists. split_and!; [reflexivity|reflexivity|reflexivity|]. intros v' H.
  inversion H as [|c cs v1 v2 v3 H1 H2]; subst. inversion H2; subst. inversion H1; subst. by apply lookup_insert_eq.
Qed.
