(* ===== verification/TurnDiffTracker.v ===== *)
(** * The net diff of a turn ([core/src/turn_diff_tracker.rs])

    [TurnDiffTracker] folds the deltas of successive patches into a baseline
    and a current map, without reading the files again.  Its client contract
    is the delta contract of [ApplyHunks]: the theorems connect the two.  The
    SHA-1 object id and the line diff are library code and parameters here,
    as is the iteration order of a [HashMap]. *)
From S2P Require Import Prelude RustStr SeekSequence Replacements PatchParser ApplyHunks.

Definition ZERO_OID : rstring := lit "0000000000000000000000000000000000000000".
Definition DEV_NULL : rstring := lit "/dev/null".
Definition REGULAR_FILE_MODE : rstring := lit "100644".

Record TurnDiffTracker := mk_tracker {
  valid : bool;
  display_root : option path;
  baseline_by_path : gmap path rstring;
  current_by_path : gmap path rstring;
  origin_by_current_path : gmap path path
}.
Definition tracker_new (root : option path) : TurnDiffTracker := mk_tracker true root ∅ ∅ ∅.
Definition invalidate (t : TurnDiffTracker) : TurnDiffTracker :=
  mk_tracker false (display_root t) (baseline_by_path t) (current_by_path t) (origin_by_current_path t).

Definition contains_key {A} (m : gmap path A) (p : path) : bool := bool_decide (is_Some (m !! p)).
Definition tracked (t : TurnDiffTracker) (p : path) : bool :=
  contains_key (current_by_path t) p || contains_key (baseline_by_path t) p.

(** Record [content] as what [p] held before the turn, unless [p] is known. *)
Definition note_baseline (t : TurnDiffTracker) (p : path) (content : option rstring) : TurnDiffTracker :=
  match content with
  | Some c =>
      if tracked t p then t
      else mk_tracker (valid t) (display_root t) (<[p:=c]> (baseline_by_path t)) (current_by_path t)
             (origin_by_current_path t)
  | None => t
  end.

Arguments note_baseline : simpl never.

Definition tracker_add (t : TurnDiffTracker) (p : path) (content : rstring) (overwritten : option rstring)
    : TurnDiffTracker :=
  let t := mk_tracker (valid t) (display_root t) (baseline_by_path t) (current_by_path t)
             (delete p (origin_by_current_path t)) in
  let t := note_baseline t p overwritten in
  mk_tracker (valid t) (display_root t) (baseline_by_path t) (<[p:=content]> (current_by_path t))
    (origin_by_current_path t).

Definition tracker_delete (t : TurnDiffTracker) (p : path) (content : rstring) : TurnDiffTracker :=
  let baseline := if negb (contains_key (current_by_path t) p) && negb (contains_key (baseline_by_path t) p)
                  then <[p:=content]> (baseline_by_path t) else baseline_by_path t in
  mk_tracker (valid t) (display_root t) baseline (delete p (current_by_path t))
    (delete p (origin_by_current_path t)).

Definition tracker_update (t : TurnDiffTracker) (source_path : path) (move_path : option path)
    (old : rstring) (overwritten_move : option rstring) (new : rstring) : TurnDiffTracker :=
  let t := note_baseline t source_path (Some old) in
  match move_path with
  | Some dest =>
      let t := note_baseline t dest overwritten_move in
      let origin := default source_path (origin_by_current_path t !! source_path) in
      let origins := delete dest (delete source_path (origin_by_current_path t)) in
      mk_tracker (valid t) (display_root t) (baseline_by_path t)
        (<[dest:=new]> (delete source_path (current_by_path t)))
        (if bool_decide (dest = origin) then origins else <[dest:=origin]> origins)
  | None =>
      mk_tracker (valid t) (display_root t) (baseline_by_path t) (<[source_path:=new]> (current_by_path t))
        (origin_by_current_path t)
  end.

Definition apply_change (t : TurnDiffTracker) (c : AppliedPatchChange) : TurnDiffTracker :=
  match c_change c with
  | CAdd content overwritten => tracker_add t (c_path c) content overwritten
  | CDelete content => tracker_delete t (c_path c) content
  | CUpdate move old overwritten new => tracker_update t (c_path c) move old overwritten new
  end.

Definition track_delta (t : TurnDiffTracker) (d : AppliedPatchDelta) : TurnDiffTracker :=
  if d_exact d then foldl apply_change t (d_changes d) else invalidate t.

(** ** Rendering *)

(** [Path::strip_prefix] and [Path::display] on the normalised absolute paths
    the tracker is given. *)
Definition path_strip_prefix (root p : path) : option path :=
  if bool_decide (p = root) then Some [] else strip_prefix (root ++ [chr "/"]) p.
Definition display_path (t : TurnDiffTracker) (p : path) : rstring :=
  (λ c, if (c =? 92)%N then chr "/" else c) <$> default p (display_root t ≫= λ root, path_strip_prefix root p).

(** Lexicographic order of strings. *)
Fixpoint str_le (a b : rstring) : bool :=
  match a, b with
  | [], _ => true
  | _ :: _, [] => false
  | x :: a, y :: b => (x <? y)%N || ((x =? y)%N && str_le a b)
  end.
(** [sort_by_key], which is stable, and [Vec::dedup]. *)
Fixpoint insert_by_key (key : path → rstring) (p : path) (l : list path) : list path :=
  match l with
  | [] => [p]
  | x :: t => if str_le (key p) (key x) then p :: l else x :: insert_by_key key p t
  end.
Definition sort_by_key (key : path → rstring) (l : list path) : list path := foldr (insert_by_key key) [] l.
Fixpoint vec_dedup (l : list path) : list path :=
  match l with
  | x :: (y :: _) as t => if bool_decide (x = y) then vec_dedup t else x :: vec_dedup t
  | _ => l
  end.

Section render.
Context (oid : rstring → rstring) (unified : rstring → rstring → rstring → rstring → rstring).
(** The order in which a [HashMap] yields its entries and its keys. *)
Context (entries : gmap path path → list (path * path)) (keys : gmap path rstring → list path).

Definition rename_pairs (t : TurnDiffTracker) : gmap path path :=
  foldl (λ acc e, let '(dest, origin) := e in
    if bool_decide (dest = origin) || contains_key (current_by_path t) origin
       || negb (contains_key (current_by_path t) dest) || negb (contains_key (baseline_by_path t) origin)
       || contains_key (baseline_by_path t) dest
    then acc else <[origin:=dest]> acc) ∅ (entries (origin_by_current_path t)).

Definition render_diff (t : TurnDiffTracker) (left_path : path) (left_content : option rstring)
    (right_path : path) (right_content : option rstring) : option rstring :=
  if bool_decide (left_content = right_content) then None
  else
    let left_display := display_path t left_path in
    let right_display := display_path t right_path in
    let left_oid := from_option oid ZERO_OID left_content in
    let right_oid := from_option oid ZERO_OID right_content in
    let mode := match left_content, right_content with
                | None, Some _ => Some (lit "new file mode " ++ REGULAR_FILE_MODE ++ [newline])
                | Some _, None => Some (lit "deleted file mode " ++ REGULAR_FILE_MODE ++ [newline])
                | Some _, Some _ => Some []
                | None, None => None
                end in
    let old_header := if left_content is Some _ then lit "a/" ++ left_display else DEV_NULL in
    let new_header := if right_content is Some _ then lit "b/" ++ right_display else DEV_NULL in
    mode ← mode;
    Some (lit "diff --git a/" ++ left_display ++ lit " b/" ++ right_display ++ [newline] ++ mode
          ++ lit "index " ++ left_oid ++ lit ".." ++ right_oid ++ [newline]
          ++ unified (default [] left_content) (default [] right_content) old_header new_header).

(** The loop of [get_unified_diff]: the pairs of paths it compares. *)
Fixpoint pairs_loop (renames : gmap path path) (dests : list path) (paths : list path) (handled : gset path)
    : list (path * path) :=
  match paths with
  | [] => []
  | p :: rest =>
      if bool_decide (p ∈ handled) then pairs_loop renames dests rest handled
      else
        let handled := {[p]} ∪ handled in
        if bool_decide (p ∈ dests) then pairs_loop renames dests rest handled
        else match renames !! p with
             | Some dest => (p, dest) :: pairs_loop renames dests rest ({[dest]} ∪ handled)
             | None => (p, p) :: pairs_loop renames dests rest handled
             end
  end.

Definition diff_paths (t : TurnDiffTracker) : list path :=
  vec_dedup (sort_by_key (display_path t) (keys (baseline_by_path t) ++ keys (current_by_path t))).
Definition diff_pairs (t : TurnDiffTracker) : list (path * path) :=
  let renames := rename_pairs t in
  pairs_loop renames ((map_to_list renames).*2) (diff_paths t) ∅.

Definition render_pair (t : TurnDiffTracker) (e : path * path) : option rstring :=
  render_diff t e.1 (baseline_by_path t !! e.1) e.2 (current_by_path t !! e.2).
Definition append_diff (aggregated diff : rstring) : rstring :=
  let aggregated := aggregated ++ diff in
  if ends_with aggregated [newline] then aggregated else aggregated ++ [newline].
Definition get_unified_diff (t : TurnDiffTracker) : option rstring :=
  if valid t then
    let aggregated := foldl append_diff [] (omap (render_pair t) (diff_pairs t)) in
    if bool_decide (aggregated = []) then None else Some aggregated
  else None.
End render.

(** ** Soundness of the two maps *)

(** [v0]: the files at the start of the turn; [v]: now. *)
Definition knows (v0 v : gmap path rstring) (t : TurnDiffTracker) : Prop :=
  ∀ p, if tracked t p then baseline_by_path t !! p = v0 !! p ∧ current_by_path t !! p = v !! p
       else v0 !! p = v !! p.
Definition sound (v0 v : gmap path rstring) (t : TurnDiffTracker) : Prop := valid t = true → knows v0 v t.

Lemma tracked_spec t p :
  tracked t p = true ↔ is_Some (current_by_path t !! p) ∨ is_Some (baseline_by_path t !! p).
Proof. unfold tracked, contains_key. by rewrite orb_true_iff, !bool_decide_eq_true. Qed.
Lemma untracked_spec t p :
  tracked t p = false ↔ current_by_path t !! p = None ∧ baseline_by_path t !! p = None.
Proof.
  unfold tracked, contains_key. rewrite orb_false_iff, !bool_decide_eq_false, <- !eq_None_not_Some. done.
Qed.

(** [knows] at one path, as equations on the two maps. *)
Definition entry_ok (v0 v b c : option rstring) : Prop :=
  (b = v0 ∧ c = v) ∨ (b = None ∧ c = None ∧ v0 = v).
Lemma knows_entries v0 v t :
  knows v0 v t ↔ ∀ p, entry_ok (v0 !! p) (v !! p) (baseline_by_path t !! p) (current_by_path t !! p).
Proof.
  unfold knows, entry_ok. split; intros H p; specialize (H p); destruct (tracked t p) eqn:Et.
  - by left.
  - right. apply untracked_spec in Et as [? ?]. done.
  - destruct H as [?|(Hb & Hc & _)]; [done|]. apply tracked_spec in Et. rewrite Hb, Hc in Et.
    by destruct Et as [[? ?]|[? ?]].
  - apply untracked_spec in Et as [Hc Hb]. rewrite Hc, Hb in H. by destruct H as [[<- <-]|(_ & _ & ?)].
Qed.

Lemma note_baseline_entry t p content q :
  baseline_by_path (note_baseline t p content) !! q =
    (if decide (q = p) then
       match baseline_by_path t !! p, current_by_path t !! p with
       | None, None => content
       | b, _ => b
       end
     else baseline_by_path t !! q) ∧
  current_by_path (note_baseline t p content) = current_by_path t.
Proof.
  unfold note_baseline. destruct content as [c|]; [destruct (tracked t p) eqn:Et|];
    (split; [|done]); case_decide as Hq; subst; try done.
  - apply tracked_spec in Et. destruct (baseline_by_path t !! p) eqn:Eb, (current_by_path t !! p) eqn:Ec; try done.
    by destruct Et as [[? ?]|[? ?]].
  - apply untracked_spec in Et as [-> ->]. cbn. by rewrite lookup_insert_eq.
  - cbn. by rewrite lookup_insert_ne.
  - by destruct (baseline_by_path t !! p), (current_by_path t !! p).
Qed.

Lemma note_baseline_valid t p content : valid (note_baseline t p content) = valid t.
Proof. unfold note_baseline. destruct content, (tracked t p); done. Qed.

Lemma apply_change_valid t c : valid (apply_change t c) = valid t.
Proof.
  destruct c as [p [content ow|content|[d|] old ow new]]; cbn; by rewrite ?note_baseline_valid.
Qed.

(** Tracking a change keeps the maps right. *)
Ltac entry_cases H b c :=
  destruct b, c; destruct H as [[? ?]|(? & ? & ?)]; simplify_eq/=; first
    [ done | split; congruence | left; split; congruence | right; split_and!; congruence ].

Lemma apply_change_knows v0 v v' t c :
  took_place c v v' → no_self_move c → knows v0 v t → knows v0 v' (apply_change t c).
Proof.
  intros Hstep Hns. rewrite !knows_entries. intros H q. unfold entry_ok in *.
  destruct Hstep as [p content v|p content v Hp|p old new v Hp|p d old new v Hp]; cbn [apply_change c_path c_change].
  - unfold tracker_add. match goal with |- context [note_baseline ?t ?p ?o] =>
      destruct (note_baseline_entry t p o q) as (Hb & Hc) end. cbn in *. rewrite Hb, Hc.
    case_decide as Hq; subst.
    + rewrite !lookup_insert_eq. specialize (H p). left.
      by entry_cases H (baseline_by_path t !! p) (current_by_path t !! p).
    + rewrite !lookup_insert_ne by done. apply H.
  - cbn. unfold contains_key. destruct (decide (q = p)) as [->|Hq].
    + rewrite !lookup_delete_eq. specialize (H p). rewrite Hp in H.
      destruct (current_by_path t !! p) eqn:Ec, (baseline_by_path t !! p) eqn:Eb; cbn;
        rewrite ?bool_decide_eq_true_2, ?bool_decide_eq_false_2 by (eauto || by intros [? ?]); cbn;
        rewrite ?lookup_insert_eq, ?Eb; by entry_cases H 0 0.
    + rewrite !lookup_delete_ne by done. destruct (_ && _); rewrite ?lookup_insert_ne by done; apply H.
  - unfold tracker_update. destruct (note_baseline_entry t p (Some old) q) as (Hb & Hc). cbn. rewrite Hb, Hc.
    case_decide as Hq; subst.
    + rewrite !lookup_insert_eq. specialize (H p). rewrite Hp in H. left.
      by entry_cases H (baseline_by_path t !! p) (current_by_path t !! p).
    + rewrite !lookup_insert_ne by done. apply H.
  - cbn in Hns. unfold tracker_update.
    destruct (note_baseline_entry (note_baseline t p (Some old)) d (v !! d) q) as (Hb & Hc).
    destruct (note_baseline_entry t p (Some old) q) as (Hb' & Hc').
    destruct (note_baseline_entry t p (Some old) d) as (Hbd & _). rewrite decide_False in Hbd by done.
    cbn. rewrite Hb, Hc, Hc', Hbd. destruct (decide (q = d)) as [->|Hqd].
    + rewrite lookup_insert_eq, lookup_delete_ne, lookup_insert_eq by done. specialize (H d). left.
      by entry_cases H (baseline_by_path t !! d) (current_by_path t !! d).
    + rewrite Hb', lookup_insert_ne by done. case_decide as Hq; subst.
      * rewrite !lookup_delete_eq. specialize (H p). rewrite Hp in H.
        by entry_cases H (baseline_by_path t !! p) (current_by_path t !! p).
      * rewrite !lookup_delete_ne, lookup_insert_ne by done. apply H.
Qed.

Lemma track_changes_knows cs v0 v v' t :
  replays took_place cs v v' → Forall no_self_move cs → knows v0 v t →
  knows v0 v' (foldl apply_change t cs).
Proof.
  intros Hr. revert t. induction Hr as [v|c cs v1 v2 v3 Hc _ IH]; intros t Hns Hk; [done|].
  inversion Hns; subst. cbn. apply IH; [done|]. by eapply apply_change_knows.
Qed.

Lemma track_changes_valid cs t : valid (foldl apply_change t cs) = valid t.
Proof. revert t. induction cs as [|c cs IH]; intros t; [done|]. cbn. by rewrite IH, apply_change_valid. Qed.

Lemma knows_start root v : knows v v (tracker_new root).
Proof. apply knows_entries. intros p. right. unfold tracker_new. cbn [baseline_by_path current_by_path].
  by rewrite !lookup_empty.
Qed.

(** ** Coverage of the rendered pairs *)
Section coverage.
Context (entries : gmap path path → list (path * path)) (keys : gmap path rstring → list path).

Lemma rename_pairs_spec t o d :
  rename_pairs entries t !! o = Some d →
  is_Some (baseline_by_path t !! o) ∧ baseline_by_path t !! d = None ∧ d ≠ o.
Proof.
  unfold rename_pairs. generalize (entries (origin_by_current_path t)) as l. intros l.
  assert (∀ acc : gmap path path, (∀ o d, acc !! o = Some d → is_Some (baseline_by_path t !! o) ∧ baseline_by_path t !! d = None ∧ d ≠ o) →
    ∀ o d, foldl (λ acc e, let '(dest, origin) := e in
      if bool_decide (dest = origin) || contains_key (current_by_path t) origin
         || negb (contains_key (current_by_path t) dest) || negb (contains_key (baseline_by_path t) origin)
         || contains_key (baseline_by_path t) dest
      then acc else <[origin:=dest]> acc) acc l !! o = Some d →
    is_Some (baseline_by_path t !! o) ∧ baseline_by_path t !! d = None ∧ d ≠ o) as H.
  { induction l as [|[dest origin] l IH]; intros acc Hacc; [exact Hacc|]. cbn [foldl]. apply IH.
    destruct (_ || _) eqn:E; [exact Hacc|]. rewrite !orb_false_iff in E. destruct E as ((((E1 & _) & _) & E4) & E5).
    unfold contains_key in *. rewrite negb_false_iff in E4. apply bool_decide_eq_false in E1, E5.
    apply bool_decide_eq_true in E4. intros o' d'. destruct (decide (o' = origin)) as [->|Ho].
    - rewrite lookup_insert_eq. intros [= <-]. by rewrite eq_None_not_Some.
    - rewrite lookup_insert_ne by done. apply Hacc. }
  apply H. intros ?? Hn. by rewrite lookup_empty in Hn.
Qed.

(** The loop reaches every path that is no rename destination. *)
Lemma pairs_loop_covers renames dests paths handled p :
  p ∈ paths → p ∉ handled → p ∉ dests → (∀ o d, renames !! o = Some d → d ∈ dests) →
  (p, default p (renames !! p)) ∈ pairs_loop renames dests paths handled.
Proof.
  intros Hp Hh Hd Hr. revert handled Hh. induction paths as [|q rest IH]; intros handled Hh; cbn [pairs_loop].
  { by apply elem_of_nil in Hp. }
  apply elem_of_cons in Hp. destruct (decide (p = q)) as [<-|Hne].
  - rewrite !bool_decide_eq_false_2 by done. destruct (renames !! p); by left.
  - destruct Hp as [?|Hp]; [done|]. specialize (IH Hp).
    case_bool_decide; [by apply IH|].
    assert (p ∉ ({[q]} ∪ handled : gset path)) as Hh2 by (rewrite elem_of_union, elem_of_singleton; tauto).
    case_bool_decide; [by apply IH|].
    destruct (renames !! q) as [dest|] eqn:Eq; right; apply IH; [|done].
    apply Hr in Eq. rewrite elem_of_union, elem_of_singleton. intros [->|?]; done.
Qed.

Lemma insert_by_key_elem key p l x : x ∈ insert_by_key key p l ↔ x = p ∨ x ∈ l.
Proof.
  induction l as [|y l IH]; cbn; [by rewrite list_elem_of_singleton, elem_of_nil; tauto|].
  destruct (str_le _ _); rewrite !elem_of_cons, ?IH; tauto.
Qed.
Lemma sort_by_key_elem key l x : x ∈ sort_by_key key l ↔ x ∈ l.
Proof.
  induction l as [|y l IH]; [done|]. change (x ∈ insert_by_key key y (sort_by_key key l) ↔ x ∈ y :: l).
  by rewrite insert_by_key_elem, elem_of_cons, IH.
Qed.
Lemma vec_dedup_elem l x : x ∈ vec_dedup l ↔ x ∈ l.
Proof.
  induction l as [|y [|z l] IH]; [done|done|]. cbn [vec_dedup] in *.
  case_bool_decide; [subst|]; rewrite ?elem_of_cons, IH, ?elem_of_cons; naive_solver.
Qed.

Hypothesis keys_elem : ∀ m p, p ∈ keys m ↔ is_Some (m !! p).

Lemma diff_paths_elem t p : p ∈ diff_paths keys t ↔ tracked t p = true.
Proof.
  unfold diff_paths. rewrite vec_dedup_elem, sort_by_key_elem, elem_of_app, !keys_elem, tracked_spec. tauto.
Qed.

Lemma diff_pairs_cover t p :
  tracked t p = true → ∃ l r, (l, r) ∈ diff_pairs entries keys t ∧ (p = l ∨ p = r).
Proof.
  intros Ht. unfold diff_pairs. set (renames := rename_pairs entries t). set (dests := (map_to_list renames).*2).
  assert (∀ d, d ∈ dests ↔ ∃ o, renames !! o = Some d) as Hdests.
  { intros d. unfold dests. rewrite list_elem_of_fmap. split.
    - intros ([o d'] & -> & Ho). apply elem_of_map_to_list in Ho. eauto.
    - intros [o Ho]. exists (o, d). split; [done|]. by apply elem_of_map_to_list. }
  assert (∀ o d, renames !! o = Some d → d ∈ dests) as Hin by (intros; apply Hdests; eauto).
  assert (∀ q, tracked t q = true → q ∉ dests →
    (q, default q (renames !! q)) ∈ pairs_loop renames dests (diff_paths keys t) ∅) as Hcov.
  { intros q Hq Hd. apply pairs_loop_covers; [by apply diff_paths_elem|apply not_elem_of_empty|done|done]. }
  destruct (decide (p ∈ dests)) as [Hp|Hp].
  - apply Hdests in Hp as [o Ho]. destruct (rename_pairs_spec t o p Ho) as (Hbo & _ & _).
    exists o, p. split; [|by right]. specialize (Hcov o). rewrite Ho in Hcov. apply Hcov.
    + apply tracked_spec. by right.
    + intros [o' Ho']%Hdests. destruct (rename_pairs_spec t o' o Ho') as (_ & Hn & _).
      rewrite Hn in Hbo. by destruct Hbo.
  - exists p, (default p (renames !! p)). split; [by apply Hcov|by left].
Qed.
End coverage.

(** ** Properties *)

(** The tracker reports the net change of the files without reading them.
    If it is right about the files before a patch, then after the patch has
    been applied (or has failed half way) and its delta tracked, it is
    invalid or right about the files after: a known path has its old contents
    as baseline and its new contents as current, an unknown one has not changed.
    The one exception is a move of a file onto itself. *)
Theorem tracker_follows_the_files {S W} `{FileSystemLaws S} resolve parent
    (writeln : W → rstring → W * (unit + io_error)) hunks (s : S) (out err : W) v0 t :
  sound v0 (view s) t →
  let '(s', _, _, r) := apply_hunks resolve parent writeln hunks s out err in
  ∃ delta, (r = Ok delta ∨ ∃ e, r = Err (e, delta)) ∧
    (Forall no_self_move (d_changes delta) → sound v0 (view s') (track_delta t delta)).
Proof.
  intros Hs. unfold apply_hunks. pose proof (tracks_hunks resolve parent hunks s delta_empty) as Ht.
  destruct (apply_hunks_to_files resolve parent hunks (s, delta_empty)) as [[s' delta] r].
  destruct Ht as [Hp Ht].
  assert (Forall no_self_move (d_changes delta) → sound v0 (view s') (track_delta t delta)) as Hgoal.
  { intros Hns. unfold track_delta. destruct (d_exact delta) eqn:He; [|by intros Hv].
    destruct (Ht eq_refl) as (_ & cs & Hc & Hr). cbn in Hc. subst cs.
    intros Hv. rewrite track_changes_valid in Hv. eapply track_changes_knows; eauto. }
  destruct r as [a|e|]; [| |done].
  - destruct (print_summary writeln out a) as [o2 [[]|e2]]; exists delta; eauto.
  - destruct (writeln err (anyhow_text e)) as [e2 [[]|e3]]; exists delta; eauto.
Qed.

Lemma tracker_follows_the_files_witness :
  let s : mem_fs := {[ lit "/a" := lit "old" ++ [newline] ]} in
  let writeln (w : list rstring) (l : rstring) := (w ++ [l], inl () : unit + io_error) in
  let hunks := [UpdateFile (lit "/a") (Some (lit "/b")) [mk_update_chunk None [lit "old"] [lit "new"] false]] in
  sound (view s) (view s) (tracker_new None) ∧
  let '(s', _, _, r) := apply_hunks id (λ _, None) writeln hunks s [] [] in
  ∃ delta, (r = Ok delta ∨ ∃ e, r = Err (e, delta)) ∧
    (Forall no_self_move (d_changes delta) → sound (view s) (view s') (track_delta (tracker_new None) delta)).
Proof.
  intros s writeln hunks. assert (sound (view s) (view s) (tracker_new None)) as Hs by (intros _; apply knows_start).
  split; [exact Hs|].
  exact (tracker_follows_the_files id (λ _, None) writeln hunks s [] [] (view s) (tracker_new None) Hs).
Defined.

(** Nothing is left out of the unified diff: for a valid tracker that is
    right about the files, every path whose contents changed is an end of a
    pair the diff compares, and the pair is rendered unless it is a rename
    that kept the contents. *)
Theorem unified_diff_covers_changes oid unified entries keys v0 v t p :
  (∀ m p, p ∈ keys m ↔ is_Some (m !! p)) →
  valid t = true → sound v0 v t → v0 !! p ≠ v !! p →
  ∃ l r, (l, r) ∈ diff_pairs entries keys t ∧ (p = l ∨ p = r) ∧
    (is_Some (render_pair oid unified t (l, r)) ∨
     l ≠ r ∧ baseline_by_path t !! l = current_by_path t !! r).
Proof.
  intros Hkeys Hv Hs Hp. specialize (Hs Hv p). destruct (tracked t p) eqn:Et; [|by destruct Hp].
  destruct (diff_pairs_cover entries keys Hkeys t p Et) as (l & r & Hin & Hlr).
  exists l, r. split_and!; [done|done|]. unfold render_pair, render_diff. cbn [fst snd].
  case_bool_decide as Heq.
  - destruct (decide (l = r)) as [->|?]; [|by right]. exfalso. apply Hp.
    destruct Hs as [<- <-]. by destruct Hlr; subst.
  - left. destruct (baseline_by_path t !! l), (current_by_path t !! r); cbn; eauto. by destruct Heq.
Qed.

Lemma unified_diff_covers_changes_witness :
  let t := mk_tracker true None {[ lit "/a" := lit "x" ]} {[ lit "/b" := lit "y" ]} {[ lit "/b" := lit "/a" ]} in
  let keys (m : gmap path rstring) := (map_to_list m).*1 in
  ∃ l r, (l, r) ∈ diff_pairs map_to_list keys t ∧ (lit "/b" = l ∨ lit "/b" = r) ∧
    (is_Some (render_pair id (λ a b _ _, a ++ b) t (l, r)) ∨
     l ≠ r ∧ baseline_by_path t !! l = current_by_path t !! r).
Proof.
  intros t keys.
  apply (unified_diff_covers_changes id (λ a b _ _, a ++ b) map_to_list keys
    {[ lit "/a" := lit "x" ]} {[ lit "/b" := lit "y" ]} t (lit "/b")).
  - intros m p. unfold keys. rewrite list_elem_of_fmap. split.
    + intros ([q c] & -> & Hq). apply elem_of_map_to_list in Hq. by exists c.
    + intros [c Hc]. exists (p, c). split; [done|]. by apply elem_of_map_to_list.
  - reflexivity.
  - intros _. apply knows_entries. intros q. by left.
  - vm_compute. discriminate.
Defined.
