(* ===== verification/RustPath.v ===== *)
(** * [std::path::Path] on Unix

    The part of the standard library's path type the modelled code calls.  A
    path is its text; [components] is the iterator of that name, and two paths
    are equal, in the sense of [Path]'s [Eq], when their components are.  A
    path that the library returns as a slice of another one ([parent]) is given
    here in canonical spelling, which is the same path. *)
From S2P Require Import Prelude RustStr.

Definition slash : char := chr "/".
Definition DOT : rstring := lit ".".
Definition DOTDOT : rstring := lit "..".

Inductive Component := RootDir | CurDir | ParentDir | Normal (s : rstring).
#[global] Instance Component_eq_dec : EqDecision Component.
Proof. solve_decision. Defined.

Definition as_os_str (c : Component) : rstring :=
  match c with RootDir => [slash] | CurDir => DOT | ParentDir => DOTDOT | Normal s => s end.

Definition is_absolute (p : rstring) : bool := bool_decide (head p = Some slash).

(** The component a piece between separators stands for: none for an empty piece or a dot. *)
Definition piece_component (piece : rstring) : option Component :=
  if decide (piece = [] ∨ piece = DOT) then None
  else if decide (piece = DOTDOT) then Some ParentDir else Some (Normal piece).

(** A dot is a component only at the start of a relative path. *)
Definition components (p : rstring) : list Component :=
  if is_absolute p then RootDir :: omap piece_component (split slash p)
  else match split slash p with
       | first :: rest => ((if decide (first = DOT) then [CurDir] else option_list (piece_component first))
                           ++ omap piece_component rest)
       | [] => []
       end.

Definition path_eq (p q : rstring) : Prop := components p = components q.
#[global] Instance path_eq_dec : RelDecision path_eq.
Proof. intros p q. unfold path_eq. apply _. Defined.

Definition render (cs : list Component) : rstring :=
  match cs with
  | RootDir :: rest => slash :: join_with [slash] (as_os_str <$> rest)
  | _ => join_with [slash] (as_os_str <$> cs)
  end.

(** [PathBuf::push] and [Path::join]: an absolute path replaces. *)
Definition push (p q : rstring) : rstring :=
  if is_absolute q then q
  else if decide (p = [] ∨ last p = Some slash) then p ++ q else p ++ slash :: q.

Definition parent (p : rstring) : option rstring :=
  match rev (components p) with
  | [] | RootDir :: _ => None
  | _ :: rest => Some (render (rev rest))
  end.
(** [PathBuf::pop] *)
Definition pop (p : rstring) : rstring := default p (parent p).
Definition file_name (p : rstring) : option rstring :=
  match rev (components p) with Normal s :: _ => Some s | _ => None end.

(** [Path::ancestors]: the path, its parent, and so on; every parent has fewer components. *)
Fixpoint ancestors_fuel (fuel : nat) (p : rstring) : list rstring :=
  match fuel with
  | 0 => []
  | S fuel => p :: match parent p with Some q => ancestors_fuel fuel q | None => [] end
  end.
Definition ancestors (p : rstring) : list rstring := ancestors_fuel (S (length (components p))) p.

(** ** Pieces *)
Lemma split_join sep (l : list rstring) :
  l ≠ [] → Forall (λ x, sep ∉ x) l → split sep (join_with [sep] l) = l.
Proof.
  assert (∀ x : rstring, sep ∉ x → split sep x = [x]) as H1.
  { induction x as [|c x IH]; [done|]. intros [Hc Hx]%not_elem_of_cons. cbn.
    rewrite decide_False by done. by rewrite IH. }
  intros Hl H. induction H as [|x l Hx Hf IH]; [done|]. destruct l as [|y l]; [by apply H1|].
  change (join_with [sep] (x :: y :: l)) with (x ++ (sep :: join_with [sep] (y :: l))).
  revert IH. generalize (join_with [sep] (y :: l)) as t. intros t IH. specialize (IH ltac:(done)).
  clear H1. induction x as [|c x IHx]; cbn; [by rewrite decide_True, IH|].
  apply not_elem_of_cons in Hx as [Hc Hx]. rewrite decide_False by done. by rewrite IHx.
Qed.

Lemma split_app sep (a b : rstring) : split sep (a ++ sep :: b) = split sep a ++ split sep b.
Proof.
  induction a as [|c a IH]; cbn; [by rewrite decide_True|]. rewrite IH. case_decide; [done|].
  pose proof (split_not_nil sep a). by destruct (split sep a).
Qed.

(** A segment of a canonical path. *)
Definition segment (s : rstring) : Prop := s ≠ [] ∧ (slash ∉ s) ∧ (s ≠ DOT) ∧ (s ≠ DOTDOT).

Lemma segment_component s : segment s → piece_component s = Some (Normal s).
Proof.
  intros (H1 & _ & H2 & H3). unfold piece_component. rewrite decide_False by (by intros [?|?]).
  by rewrite decide_False.
Qed.

Lemma piece_component_Normal piece s : slash ∉ piece → piece_component piece = Some (Normal s) → segment s ∧ s = piece.
Proof.
  intros Hs. unfold piece_component. destruct (decide _) as [|H1]; [done|]. destruct (decide _); [done|].
  intros [= <-]. unfold segment. split_and!; try done; intros ->; apply H1; auto.
Qed.

(** The canonical absolute path made of segments. *)
Definition abs_path (segs : list rstring) : rstring := slash :: join_with [slash] segs.

Lemma abs_path_absolute segs : is_absolute (abs_path segs) = true.
Proof. done. Qed.

Lemma omap_segments segs : Forall segment segs → omap piece_component segs = Normal <$> segs.
Proof. induction 1 as [|s segs Hs _ IH]; [done|]. cbn. by rewrite segment_component, IH. Qed.

Lemma components_abs_path segs :
  Forall segment segs → components (abs_path segs) = RootDir :: (Normal <$> segs).
Proof.
  intros H. unfold components. rewrite abs_path_absolute. f_equal. unfold abs_path. cbn [split].
  rewrite decide_True by done. destruct segs as [|s segs]; [done|].
  rewrite split_join; [|done|eapply Forall_impl; [exact H|]; by intros x (_ & ? & _)].
  by rewrite <- omap_segments.
Qed.

Lemma render_abs segs : render (RootDir :: (Normal <$> segs)) = abs_path segs.
Proof. unfold render, abs_path. do 2 f_equal. rewrite <- list_fmap_compose. by apply list_fmap_id. Qed.

Lemma parent_abs_path segs s :
  Forall segment (segs ++ [s]) → parent (abs_path (segs ++ [s])) = Some (abs_path segs).
Proof.
  intros H. unfold parent. rewrite components_abs_path by done. rewrite fmap_app. cbn [rev].
  rewrite rev_app_distr. cbn. by rewrite rev_app_distr, rev_involutive, <- render_abs.
Qed.
Lemma parent_root : parent (abs_path []) = None.
Proof. done. Qed.

Lemma file_name_abs_path segs s : Forall segment (segs ++ [s]) → file_name (abs_path (segs ++ [s])) = Some s.
Proof.
  intros H. unfold file_name. rewrite components_abs_path by done. rewrite fmap_app. cbn [rev].
  by rewrite rev_app_distr.
Qed.

Lemma join_cons2 (x y : rstring) l : join_with [slash] (x :: y :: l) = x ++ slash :: join_with [slash] (y :: l).
Proof. done. Qed.

Lemma last_join segs : Forall segment segs → segs ≠ [] → ∃ c, last (join_with [slash] segs) = Some c ∧ c ≠ slash.
Proof.
  induction 1 as [|s segs (Hne & Hs & _) Hf IH]; [done|]. intros _. destruct segs as [|t segs].
  - cbn. destruct (last s) as [c|] eqn:E; [|by apply last_None in E]. exists c. split; [done|].
    intros ->. apply Hs. exact (last_Some_elem_of _ _ E).
  - rewrite join_cons2, last_app, last_cons. destruct (IH ltac:(done)) as (c & -> & Hc). eauto.
Qed.

Lemma push_abs_path segs s :
  Forall segment segs → segment s → push (abs_path segs) s = abs_path (segs ++ [s]).
Proof.
  intros Hf (Hne & Hs & _). unfold push. destruct (is_absolute s) eqn:E.
  { apply (bool_decide_eq_true_1 _) in E. destruct Hs. destruct s; [done|]. injection E as ->. left. }
  destruct segs as [|t segs]; [by rewrite decide_True by auto|].
  rewrite decide_False.
  2: { intros [?|Hl]; [done|]. unfold abs_path in Hl. rewrite last_cons in Hl.
       destruct (last_join (t :: segs) Hf ltac:(done)) as (c & Hc & Hn). rewrite Hc in Hl. congruence. }
  unfold abs_path. cbn [app]. f_equal. clear -t. revert t.
  induction segs as [|u segs IH]; intros t; [done|].
  transitivity (t ++ slash :: (join_with [slash] ((u :: segs) ++ [s]))); [|done].
  change ((u :: segs) ++ [s]) with (u :: (segs ++ [s])). by rewrite <- IH, join_cons2, <- app_assoc.
Qed.
