(* ===== verification/AbsolutePath.v ===== *)
(** * Absolute paths ([utils/absolute-path/src])

    [AbsolutePathBuf] and the lexical normalisation behind it, on Unix.  The
    home directory, the current directory, [dunce::canonicalize] and the test
    for a symbolic link are parameters. *)
From S2P Require Import Prelude RustStr RustPath.

(** ** [absolutize.rs] *)
Definition normalize_step (normalized : rstring) (c : Component) : rstring :=
  match c with
  | CurDir => normalized
  | ParentDir => pop normalized
  | RootDir | Normal _ => push normalized (as_os_str c)
  end.
Definition normalize_path (path : rstring) : rstring :=
  let normalized := foldl normalize_step [] (components path) in
  if decide (normalized = []) then DOT else normalized.
Definition path_with_base (path base_path : rstring) : rstring :=
  if is_absolute path then path else push base_path path.
Definition absolutize_from (path base_path : rstring) : rstring :=
  normalize_path (path_with_base path base_path).

(** ** [lib.rs] *)
Inductive PathError := IoError (text : rstring) | NotAbsolute (path : rstring) | WithoutBase.

Definition path_error_text (e : PathError) : rstring :=
  match e with
  | IoError text => text
  | NotAbsolute path => lit "path is not absolute: " ++ path
  | WithoutBase => lit "AbsolutePathBuf deserialized without a base path"
  end.

Section absolute_path_buf.
Context (home_dir : option rstring) (current_dir : outcome PathError rstring).

Definition absolutize (path : rstring) : outcome PathError rstring :=
  if is_absolute path then Ok (normalize_path path)
  else let? cwd := current_dir in Ok (absolutize_from path cwd).

Definition maybe_expand_home_directory (path : rstring) : rstring :=
  match home_dir, strip_prefix (lit "~") path with
  | Some home, Some rest =>
      if decide (rest = []) then home
      else match strip_prefix [slash] rest with
           | Some rest => push home (trim_start_matches (λ c, bool_decide (c = slash)) rest)
           | None => path
           end
  | _, _ => path
  end.

(** [normalize_path_for_platform] is the identity on Unix. *)
Definition resolve_path_against_base (path base_path : rstring) : rstring :=
  absolutize_from (maybe_expand_home_directory path) base_path.
Definition from_absolute_path (path : rstring) : outcome PathError rstring :=
  absolutize (maybe_expand_home_directory path).
Definition from_absolute_path_checked (path : rstring) : outcome PathError rstring :=
  let expanded := maybe_expand_home_directory path in
  if is_absolute expanded then Ok (absolutize_from expanded [slash]) else Err (NotAbsolute path).
Definition relative_to_current_dir (path : rstring) : outcome PathError rstring :=
  let? cwd := current_dir in Ok (resolve_path_against_base path cwd).
Definition join (self path : rstring) : rstring := resolve_path_against_base path self.

(** The thread-local base path: [AbsolutePathBufGuard::new], its [Drop], and deserialisation. *)
Definition guard_new (base_path : rstring) (cell : option rstring) : option rstring := Some base_path.
Definition guard_drop (cell : option rstring) : option rstring := None.
Definition deserialize (cell : option rstring) (path : rstring) : outcome PathError rstring :=
  match cell with
  | Some base => Ok (resolve_path_against_base path base)
  | None => if is_absolute path then from_absolute_path path else Err WithoutBase
  end.

Context (canonicalize : rstring → outcome PathError rstring) (is_symlink : rstring → bool).
Definition should_preserve_logical_path (logical : rstring) : bool :=
  existsb (λ ancestor, is_symlink ancestor && bool_decide (is_Some (parent ancestor ≫= parent)))
    (ancestors logical).
Definition canonicalize_preserving_symlinks (path : rstring) : outcome PathError rstring :=
  let? logical := from_absolute_path path in
  match canonicalize path with
  | Ok canonical =>
      if should_preserve_logical_path logical && negb (bool_decide (path_eq canonical logical))
      then Ok logical else Ok canonical
  | Err _ => Ok logical
  | Panic => Panic
  end.
Definition canonicalize_existing_preserving_symlinks (path : rstring) : outcome PathError rstring :=
  let? logical := from_absolute_path path in
  let? canonical := canonicalize path in
  if should_preserve_logical_path logical && negb (bool_decide (path_eq canonical logical))
  then Ok logical else Ok canonical.
End absolute_path_buf.

(** ** Lexical resolution as a stack of segments *)
Definition resolve_step (segs : list rstring) (c : Component) : list rstring :=
  match c with
  | RootDir => []
  | CurDir => segs
  | ParentDir => removelast segs
  | Normal s => segs ++ [s]
  end.
Definition resolve : list rstring → list Component → list rstring := foldl resolve_step.

Definition component_ok (c : Component) : Prop := match c with Normal s => segment s | _ => True end.

Lemma omap_pieces_ok p : Forall component_ok (omap piece_component (split slash p)).
Proof.
  pose proof (split_pieces slash p) as H. induction H as [|x l Hx _ IH]; [constructor|].
  cbn. destruct (piece_component x) as [c|] eqn:E; cbn; [|done]. constructor; [|done].
  destruct c; try done. by apply piece_component_Normal in E as [? ->].
Qed.

Lemma components_ok p : Forall component_ok (components p).
Proof.
  unfold components. pose proof (omap_pieces_ok p) as H. destruct (is_absolute p); [by constructor|].
  destruct (split slash p) as [|x l]; [constructor|]. cbn in H. case_decide as Hd; cbn.
  - constructor; [done|]. subst. by destruct (piece_component DOT); [inversion H|].
  - destruct (piece_component x); cbn in *; done.
Qed.

(** ** Normalising *)
Lemma normalize_step_abs segs c :
  Forall segment segs → component_ok c →
  Forall segment (resolve_step segs c) ∧
  normalize_step (abs_path segs) c = abs_path (resolve_step segs c).
Proof.
  intros Hs Hc. destruct c as [| | |s]; cbn [resolve_step normalize_step as_os_str].
  - done.
  - done.
  - destruct segs as [|s segs _] using rev_ind; [done|]. rewrite removelast_last.
    split; [by apply Forall_app in Hs as [? _]|]. unfold pop. by rewrite parent_abs_path.
  - split; [apply Forall_app; split; [done|by constructor; [|constructor]]|by apply push_abs_path].
Qed.

Lemma normalize_fold cs segs :
  Forall segment segs → Forall component_ok cs →
  Forall segment (resolve segs cs) ∧ foldl normalize_step (abs_path segs) cs = abs_path (resolve segs cs).
Proof.
  intros Hs Hc. revert segs Hs. induction Hc as [|c cs Hc _ IH]; intros segs Hs; [done|].
  destruct (normalize_step_abs segs c Hs Hc) as [Hs' E]. cbn [foldl]. rewrite E. by apply IH.
Qed.

Lemma normalize_absolute p :
  is_absolute p = true →
  Forall segment (resolve [] (components p)) ∧ normalize_path p = abs_path (resolve [] (components p)).
Proof.
  intros H. pose proof (components_ok p) as Hc. unfold normalize_path, components in *. rewrite H in *.
  apply Forall_cons_1 in Hc as [_ Hc]. destruct (normalize_fold _ [] (Forall_nil_2 _) Hc) as [Hf E].
  cbn [foldl normalize_step as_os_str resolve resolve_step]. change (push [] [slash]) with (abs_path []).
  rewrite E. split; [done|]. by rewrite decide_False.
Qed.

Lemma resolve_segments segs : resolve [] (RootDir :: (Normal <$> segs)) = segs.
Proof.
  unfold resolve. cbn [foldl resolve_step]. change segs with ([] ++ segs) at 2. generalize (@nil rstring) as l.
  induction segs as [|s segs IH]; intros l; cbn; [by rewrite app_nil_r|]. by rewrite IH, <- app_assoc.
Qed.

Lemma normalize_abs_path segs : Forall segment segs → normalize_path (abs_path segs) = abs_path segs.
Proof.
  intros H. destruct (normalize_absolute (abs_path segs) eq_refl) as [_ ->].
  by rewrite components_abs_path, resolve_segments.
Qed.

(** ** Joining *)
Lemma components_push base rel :
  is_absolute base = true → is_absolute rel = false →
  is_absolute (push base rel) = true ∧
  components (push base rel) = components base ++ omap piece_component (split slash rel).
Proof.
  intros Hb Hr. unfold push. rewrite Hr.
  assert (∀ t, is_absolute (base ++ t) = true) as Happ.
  { intros t. apply (bool_decide_eq_true_1 _) in Hb. apply (bool_decide_eq_true_2 _). by destruct base. }
  destruct (decide (base = [] ∨ last base = Some slash)) as [[->|Hl]|_]; [done| |].
  - split; [apply Happ|]. unfold components. rewrite Hb, Happ. cbn [app]. f_equal.
    apply last_Some in Hl as [b ->]. rewrite <- app_assoc. cbn [app]. rewrite !split_app, !omap_app.
    cbn. by rewrite app_nil_r.
  - split; [apply Happ|]. unfold components. rewrite Hb, Happ, split_app, omap_app. done.
Qed.

Lemma resolve_relative segs p :
  is_absolute p = false → resolve segs (omap piece_component (split slash p)) = resolve segs (components p).
Proof.
  intros H. unfold components. rewrite H. destruct (split slash p) as [|x l]; [done|]. cbn.
  case_decide as Hd; [by subst|]. by destruct (piece_component x).
Qed.

Lemma absolutize_from_spec path base :
  is_absolute path = true ∨ is_absolute base = true →
  let segs := resolve (resolve [] (components base)) (components path) in
  Forall segment segs ∧ absolutize_from path base = abs_path segs.
Proof.
  intros Hab. unfold absolutize_from, path_with_base. destruct (is_absolute path) eqn:Hp.
  - destruct (normalize_absolute path Hp) as [Hf ->]. unfold components. rewrite Hp. cbn [foldl resolve resolve_step] in *.
    unfold components in Hf. by rewrite Hp in Hf.
  - destruct Hab as [?|Hb]; [done|]. destruct (components_push base path Hb Hp) as [Ha Hc].
    destruct (normalize_absolute (push base path) Ha) as [Hf E]. rewrite Hc in Hf, E.
    unfold resolve in *. rewrite foldl_app in Hf, E.
    pose proof (resolve_relative (foldl resolve_step [] (components base)) path Hp) as Hr. unfold resolve in Hr.
    rewrite Hr in Hf, E. by rewrite E.
Qed.

Lemma resolve_below segs cs :
  ParentDir ∉ cs → RootDir ∉ cs → segs `prefix_of` resolve segs cs.
Proof.
  revert segs. induction cs as [|c cs IH]; intros segs; [done|].
  intros [Hp Hps]%not_elem_of_cons [Hr Hrs]%not_elem_of_cons. unfold resolve. cbn [foldl].
  specialize (IH (resolve_step segs c) Hps Hrs). unfold resolve in IH.
  etrans; [|exact IH]. destruct c; cbn; try done. by apply prefix_app_r.
Qed.

Lemma relative_components p : is_absolute p = false → RootDir ∉ components p.
Proof.
  assert (∀ l : list rstring, RootDir ∉ omap piece_component l) as H.
  { intros l (x & _ & Hx)%list_elem_of_omap. unfold piece_component in Hx. by repeat case_decide. }
  intros Hp. unfold components. rewrite Hp. destruct (split slash p) as [|x l]; [apply not_elem_of_nil|].
  intros [Hin|Hin]%elem_of_app; [|by apply (H l)]. case_decide.
  - by apply list_elem_of_singleton in Hin.
  - destruct (piece_component x) eqn:E; cbn in Hin; [|by apply elem_of_nil in Hin].
    apply list_elem_of_singleton in Hin as <-. unfold piece_component in E. by repeat case_decide.
Qed.

(** A path as every operation leaves it: separators between segments, no dots, nothing doubled. *)
Definition canonical (p : rstring) : Prop := ∃ segs, Forall segment segs ∧ p = abs_path segs.

Lemma canonical_absolute p : canonical p → is_absolute p = true.
Proof. by intros (segs & _ & ->). Qed.

Lemma absolutize_from_canonical path base :
  is_absolute path = true ∨ is_absolute base = true → canonical (absolutize_from path base).
Proof. intros H. destruct (absolutize_from_spec path base H) as [Hf ->]. by eexists. Qed.

Lemma from_absolute_canonical home current_dir path q :
  (∀ cwd, current_dir = Ok cwd → is_absolute cwd = true) →
  from_absolute_path home current_dir path = Ok q → canonical q.
Proof.
  intros Hcwd. unfold from_absolute_path, absolutize. destruct (is_absolute _) eqn:Ha.
  - intros [= <-]. destruct (normalize_absolute _ Ha) as [Hf ->]. by eexists.
  - intros (cwd & Hc & [= <-])%bind_Ok. apply absolutize_from_canonical. auto.
Qed.

Lemma from_absolute_fixpoint home current_dir p :
  canonical p → from_absolute_path home current_dir p = Ok p.
Proof.
  intros (segs & Hf & ->). unfold from_absolute_path, maybe_expand_home_directory.
  replace (strip_prefix (lit "~") (abs_path segs)) with (@None rstring) by done.
  destruct home; unfold absolutize; by rewrite abs_path_absolute, normalize_abs_path.
Qed.

Lemma resolve_against_canonical home path base :
  is_absolute base = true → canonical (resolve_path_against_base home path base).
Proof. intros Hb. apply absolutize_from_canonical. auto. Qed.

(** Without a home prefix only the components of the path matter. *)
Lemma resolve_against_components home path base :
  strip_prefix (lit "~") path = None → is_absolute base = true →
  resolve_path_against_base home path base = abs_path (resolve (resolve [] (components base)) (components path)).
Proof.
  intros Ht Hb. unfold resolve_path_against_base, maybe_expand_home_directory. rewrite Ht.
  destruct home; by destruct (absolutize_from_spec path base (or_intror Hb)) as [_ ->].
Qed.

Lemma parent_canonical p q : canonical p → parent p = Some q → canonical q.
Proof.
  intros (segs & Hf & ->). destruct segs as [|s segs _] using rev_ind; [done|].
  rewrite parent_abs_path by done. intros [= <-]. apply Forall_app in Hf as [Hf _]. by exists segs.
Qed.

Lemma canonical_eq p q : canonical p → canonical q → path_eq p q → p = q.
Proof.
  intros (sp & Hp & ->) (sq & Hq & ->). unfold path_eq. rewrite !components_abs_path by done.
  intros [= H]. f_equal. revert sq Hq H. induction sp as [|s sp IH]; intros [|t sq] Hq H; try done.
  injection H as -> H. f_equal. apply Forall_cons_1 in Hp as [_ Hp], Hq as [_ Hq]. by apply IH.
Qed.

(** ** Properties *)
Section properties.
Context (home : option rstring) (current_dir : outcome PathError rstring).

(** C40: whatever the spelling of its input, every way to make an absolute
    path yields a canonical one, provided the current directory and the
    bases are absolute; canonical paths are equal as paths only if they are
    the same text, and making a path of a canonical one gives it back. *)
Theorem absolute_paths_are_canonical (Hcwd : ∀ cwd, current_dir = Ok cwd → is_absolute cwd = true) :
  (∀ path base, is_absolute base = true → canonical (resolve_path_against_base home path base)) ∧
  (∀ path q, from_absolute_path home current_dir path = Ok q → canonical q) ∧
  (∀ path q, from_absolute_path_checked home path = Ok q → canonical q) ∧
  (∀ path q, relative_to_current_dir home current_dir path = Ok q → canonical q) ∧
  (∀ cell path q, (∀ base, cell = Some base → is_absolute base = true) →
     deserialize home current_dir cell path = Ok q → canonical q) ∧
  (∀ p path, canonical p → canonical (join home p path)) ∧
  (∀ p q, canonical p → parent p = Some q → canonical q) ∧
  (∀ p q, canonical p → canonical q → path_eq p q → p = q) ∧
  (∀ p, canonical p → from_absolute_path home current_dir p = Ok p).
Proof.
  assert (∀ path base, is_absolute base = true → canonical (resolve_path_against_base home path base)) as Hr.
  { intros path base. apply resolve_against_canonical. }
  split_and!; [exact Hr|..].
  - intros path q. by apply from_absolute_canonical.
  - intros path q. unfold from_absolute_path_checked. destruct (is_absolute _) eqn:Ha; [|done].
    intros [= <-]. apply absolutize_from_canonical. auto.
  - intros path q (cwd & Hc & [= <-])%bind_Ok. apply Hr. auto.
  - intros [base|] path q Hb; cbn.
    + intros [= <-]. apply Hr. auto.
    + destruct (is_absolute path); [|done]. by apply from_absolute_canonical.
  - intros p path Hp. apply Hr. by apply canonical_absolute.
  - apply parent_canonical.
  - apply canonical_eq.
  - apply from_absolute_fixpoint.
Qed.

(** Joining resolves the components of a relative path from left to right
    against the segments of the base, never above the root; without a
    [..] the result is below the base; a path under [~] is resolved
    against the home directory, whatever the number of slashes. *)
Theorem join_resolves (segs : list rstring) (rel : rstring) :
  Forall segment segs → is_absolute rel = false →
  (strip_prefix (lit "~") rel = None →
     join home (abs_path segs) rel = abs_path (resolve segs (components rel))) ∧
  (ParentDir ∉ components rel → segs `prefix_of` resolve segs (components rel)) ∧
  (∀ slashes, Forall (eq slash) slashes →
     from_absolute_path (Some (abs_path segs)) current_dir (lit "~/" ++ slashes ++ rel) =
       Ok (abs_path (resolve segs (components rel)))).
Proof.
  intros Hf Hrel.
  assert (absolutize_from rel (abs_path segs) = abs_path (resolve segs (components rel))) as Hj.
  { destruct (absolutize_from_spec rel (abs_path segs)) as [_ ->]; [by right|].
    by rewrite components_abs_path, resolve_segments. }
  split_and!.
  - intros Ht. unfold join, resolve_path_against_base, maybe_expand_home_directory. rewrite Ht. by destruct home.
  - intros Hp. apply resolve_below; [done|]. by apply relative_components.
  - intros slashes Hs. unfold from_absolute_path, maybe_expand_home_directory.
    replace (strip_prefix (lit "~") (lit "~/" ++ slashes ++ rel)) with (Some (slash :: (slashes ++ rel))) by done.
    rewrite decide_False by done. cbn [strip_prefix]. rewrite decide_True by done.
    assert (trim_start_matches (λ c, bool_decide (c = slash)) (slashes ++ rel) = rel) as ->.
    { clear -Hs Hrel. induction Hs as [|c l <- _ IH]; [|exact IH]. cbn.
      destruct rel as [|c rel]; [done|]. cbn. rewrite bool_decide_eq_false_2; [done|]. by intros ->. }
    destruct (components_push (abs_path segs) rel eq_refl Hrel) as [Ha _]. unfold absolutize. rewrite Ha.
    f_equal. rewrite <- Hj. unfold absolutize_from, path_with_base. by rewrite Hrel.
Qed.
End properties.

Lemma absolute_paths_are_canonical_witness :
  from_absolute_path None (Ok (lit "/w")) (lit "a/../../b//./c/") = Ok (lit "/b/c") ∧ canonical (lit "/b/c").
Proof.
  split; [vm_compute; reflexivity|].
  apply (proj1 (proj2 (absolute_paths_are_canonical None (Ok (lit "/w")) ltac:(by intros cwd [= <-])))
           (lit "a/../../b//./c/")).
  vm_compute. reflexivity.
Defined.

Lemma join_resolves_witness :
  join None (lit "/w/x") (lit "../y/.//z") = lit "/w/y/z" ∧
  from_absolute_path (Some (lit "/home/me")) (Err WithoutBase) (lit "~///notes/../x") = Ok (lit "/home/me/x").
Proof.
  split.
  - etrans; [apply (proj1 (join_resolves None (Err WithoutBase) [lit "w"; lit "x"] (lit "../y/.//z")
                             ltac:(by apply (bool_decide_unpack _)) eq_refl)); done|].
    vm_compute. reflexivity.
  - vm_compute. reflexivity.
Defined.
