(* ===== verification/BashTree.v ===== *)
(** * Shell scripts as trees ([shell-command/src]: [bash.rs], [shell_detect.rs])

    What the code reads off the syntax tree of a script that is the argument of
    [bash -lc].  The tree is tree-sitter's: a node is what its interface gives
    (kind, whether it is named, where it starts, its text, its children), and
    the parser is a parameter.  The code walks trees with a stack; the walks
    are fuelled by the size of the tree, and [Panic] stands for fuel that ran
    out, which it never does. *)
From Stdlib Require Import Sorted.
From S2P Require Import Prelude RustStr RustPath.

(** ** tree-sitter's interface *)
Inductive Node := mk_node (kind : rstring) (is_named : bool) (start_byte : N) (utf8_text : option rstring) (children : list Node).
Definition kind (n : Node) : rstring := let '(mk_node k _ _ _ _) := n in k.
Definition is_named (n : Node) : bool := let '(mk_node _ b _ _ _) := n in b.
Definition start_byte (n : Node) : N := let '(mk_node _ _ s _ _) := n in s.
Definition utf8_text (n : Node) : option rstring := let '(mk_node _ _ _ t _) := n in t.
Definition children (n : Node) : list Node := let '(mk_node _ _ _ _ c) := n in c.
Definition named_children (n : Node) : list Node := List.filter is_named (children n).
Record Tree := mk_tree { root_node : Node; has_error : bool }.
Definition has_kind (k : String.string) (n : Node) : bool := bool_decide (kind n = lit k).
Definition kind_in (ks : list rstring) (n : Node) : bool := existsb (λ k, bool_decide (kind n = k)) ks.

(** Every node below [n], through all children or through the named ones. *)
Definition follows (all : bool) (n : Node) : bool := all || is_named n.
Fixpoint reach (all : bool) (n : Node) : list Node :=
  n :: flat_map (λ c, if follows all c then reach all c else []) (let '(mk_node _ _ _ _ c) := n in c).
Definition kids (all : bool) (n : Node) : list Node := List.filter (follows all) (children n).
Definition tree_size (n : Node) : nat := S (length (reach true n)).

(** ** The stack walk

    The top of the stack is the head; children are pushed in order, so the last
    one is visited first.  [step] may end the walk early ([Err]). *)
Fixpoint walk {A} (fuel : nat) (all : bool) (step : Node → A → option A) (stack : list Node) (acc : A) : outcome unit A :=
  match stack with
  | [] => Ok acc
  | node :: rest =>
      match fuel with
      | 0 => Panic
      | S fuel =>
          match step node acc with
          | None => Err ()
          | Some acc => walk fuel all step (rev (kids all node) ++ rest) acc
          end
      end
  end.
Definition walk_from {A} (all : bool) (step : Node → A → option A) (root : Node) (acc : A) : outcome unit A :=
  walk (tree_size root) all step [root] acc.

(** ** Shells *)
Inductive ShellType := Zsh | Bash | PowerShell | Sh | Cmd.
#[global] Instance ShellType_eq_dec : EqDecision ShellType.
Proof. solve_decision. Defined.
Definition dot : char := chr ".".
(** [Path::file_stem]. *)
Definition file_stem (p : rstring) : option rstring :=
  (λ file, match rev (split dot file) with
           | _ :: ((_ :: _) as before) =>
               let stem := join_with [dot] (rev before) in if bool_decide (stem = []) then file else stem
           | _ => file
           end) <$> file_name p.
Definition shell_name (name : rstring) : option ShellType :=
  if bool_decide (name = lit "zsh") then Some Zsh
  else if bool_decide (name = lit "sh") then Some Sh
  else if bool_decide (name = lit "cmd") then Some Cmd
  else if bool_decide (name = lit "bash") then Some Bash
  else if bool_decide (name = lit "pwsh") then Some PowerShell
  else if bool_decide (name = lit "powershell") then Some PowerShell
  else None.
Fixpoint detect_shell_type_fuel (fuel : nat) (shell_path : rstring) : outcome unit (option ShellType) :=
  match shell_name shell_path with
  | Some t => Ok (Some t)
  | None =>
      match file_stem shell_path with
      | None => Ok None
      | Some name =>
          if bool_decide (path_eq name shell_path) then Ok None
          else match fuel with 0 => Panic | S fuel => detect_shell_type_fuel fuel name end
      end
  end.
Definition detect_shell_type (shell_path : rstring) : outcome unit (option ShellType) :=
  detect_shell_type_fuel (length shell_path) shell_path.

(** ** Words of a command *)
Definition strip_quotes (q : char) (raw : rstring) : option rstring := strip_prefix [q] raw ≫= strip_suffix [q].
Definition double_quote : char := 34.
Definition single_quote : char := 39.
Definition parse_double_quoted_string (n : Node) : option rstring :=
  if negb (has_kind "string" n) then None
  else if forallb (has_kind "string_content") (named_children n) then utf8_text n ≫= strip_quotes double_quote
  else None.
Definition parse_raw_string (n : Node) : option rstring :=
  if negb (has_kind "raw_string" n) then None else utf8_text n ≫= strip_quotes single_quote.
Definition concatenation_part (part : Node) : option rstring :=
  if has_kind "word" part || has_kind "number" part then utf8_text part
  else if has_kind "string" part then parse_double_quoted_string part
  else if has_kind "raw_string" part then parse_raw_string part
  else None.
Definition plain_word (child : Node) : option rstring :=
  if has_kind "command_name" child then
    word_node ← head (named_children child);
    if has_kind "word" word_node then utf8_text word_node else None
  else if has_kind "word" child || has_kind "number" child then utf8_text child
  else if has_kind "string" child then parse_double_quoted_string child
  else if has_kind "raw_string" child then parse_raw_string child
  else if has_kind "concatenation" child then
    parts ← mapM concatenation_part (named_children child);
    if bool_decide (concat parts = []) then None else Some (concat parts)
  else None.
Definition parse_plain_command_from_node (cmd : Node) : option (list rstring) :=
  if has_kind "command" cmd then mapM plain_word (named_children cmd) else None.

(** ** Sequences of plain commands *)
Definition ALLOWED_KINDS : list rstring :=
  [lit "program"; lit "list"; lit "pipeline"; lit "command"; lit "command_name"; lit "word"; lit "string";
   lit "string_content"; lit "raw_string"; lit "number"; lit "concatenation"].
Definition ALLOWED_PUNCT_TOKENS : list rstring :=
  [lit "&&"; lit "||"; lit ";"; lit "|"; [double_quote]; [single_quote]].
Definition allowed_node (n : Node) : bool :=
  if is_named n then kind_in ALLOWED_KINDS n
  else if existsb (λ c, bool_decide (c ∈ lit "&;|")) (kind n) && negb (kind_in ALLOWED_PUNCT_TOKENS n) then false
  else kind_in ALLOWED_PUNCT_TOKENS n || bool_decide (trim (kind n) = []).
Definition sequence_step (n : Node) (command_nodes : list Node) : option (list Node) :=
  if allowed_node n then Some (if is_named n && has_kind "command" n then command_nodes ++ [n] else command_nodes) else None.

(** [sort_by_key], which is stable. *)
Fixpoint insert_by_start (n : Node) (l : list Node) : list Node :=
  match l with
  | [] => [n]
  | m :: t => if (start_byte n <=? start_byte m)%N then n :: l else m :: insert_by_start n t
  end.
Definition sort_by_start (l : list Node) : list Node := foldr insert_by_start [] l.

Definition try_parse_word_only_commands_sequence (tree : Tree) : option (list (list rstring)) :=
  if has_error tree then None
  else match walk_from true sequence_step (root_node tree) [] with
  | Ok command_nodes => mapM parse_plain_command_from_node (sort_by_start command_nodes)
  | _ => None
  end.

(** ** A single command with a here-document *)
Definition is_literal_word_or_number (n : Node) : bool :=
  (has_kind "word" n || has_kind "number" n) && bool_decide (named_children n = []).
Definition is_allowed_heredoc_attachment_kind (n : Node) : bool :=
  kind_in [lit "heredoc_body"; lit "simple_heredoc_body"; lit "heredoc_redirect"; lit "herestring_redirect"; lit "redirected_statement"] n.
(** [Some None]: an attachment that is no word. *)
Definition heredoc_word (child : Node) : option (option rstring) :=
  if has_kind "command_name" child then
    word_node ← head (named_children child);
    if is_literal_word_or_number word_node then Some <$> utf8_text word_node else None
  else if has_kind "word" child || has_kind "number" child then
    if is_literal_word_or_number child then Some <$> utf8_text child else None
  else if has_kind "comment" child || is_allowed_heredoc_attachment_kind child then Some None
  else None.
Definition parse_heredoc_command_words (cmd : Node) : option (list rstring) :=
  if has_kind "command" cmd then
    words ← mapM heredoc_word (named_children cmd);
    if bool_decide (omap id words = []) then None else Some (omap id words)
  else None.

Definition single_step (n : Node) (found : option Node) : option (option Node) :=
  if has_kind "command" n then match found with Some _ => None | None => Some (Some n) end else Some found.
Definition find_single_command_node (root : Node) : option Node :=
  match walk_from false single_step root None with Ok found => found | _ => None end.
Definition has_named_descendant_kind (n : Node) (k : String.string) : bool :=
  match walk_from false (λ m found, if has_kind k m then None else Some found) n () with Err _ => true | _ => false end.

Definition name_step (n : Node) (names : list rstring) : option (list rstring) :=
  Some (names ++ option_list
    (if has_kind "command_name" n
     then word_node ← head (named_children n);
          if has_kind "word" word_node || has_kind "number" word_node then utf8_text word_node else None
     else None)).
Definition collect_command_names (tree : Tree) : option (list rstring) :=
  if has_error tree then None
  else match walk_from false name_step (root_node tree) [] with Ok names => Some names | _ => None end.

(** ** Commands that run a script *)
Definition extract_bash_command (command : list rstring) : option (rstring * rstring) :=
  match command with
  | [shell; flag; script] =>
      if (bool_decide (flag = lit "-lc") || bool_decide (flag = lit "-c"))
         && match detect_shell_type shell with
            | Ok (Some Zsh) | Ok (Some Bash) | Ok (Some Sh) => true
            | _ => false
            end
      then Some (shell, script) else None
  | _ => None
  end.

Section parser.
Context (try_parse_shell : rstring → option Tree).

Definition parse_shell_lc_plain_commands (command : list rstring) : option (list (list rstring)) :=
  '(_, script) ← extract_bash_command command;
  tree ← try_parse_shell script;
  try_parse_word_only_commands_sequence tree.
Definition parse_shell_lc_command_names (command : list rstring) : option (list rstring) :=
  '(_, script) ← extract_bash_command command;
  tree ← try_parse_shell script;
  collect_command_names tree.
Definition parse_shell_lc_single_command_prefix (command : list rstring) : option (list rstring) :=
  '(_, script) ← extract_bash_command command;
  tree ← try_parse_shell script;
  if has_error tree then None
  else if negb (has_named_descendant_kind (root_node tree) "heredoc_redirect") then None
  else if has_named_descendant_kind (root_node tree) "file_redirect" then None
  else command_node ← find_single_command_node (root_node tree);
       parse_heredoc_command_words command_node.
End parser.

(** ** Lemmas: walks *)
Lemma reach_kids all n : reach all n = n :: flat_map (reach all) (kids all n).
Proof.
  destruct n as [k b s t c]. cbn [reach kids children]. f_equal. unfold kids. cbn [children].
  induction c as [|x c IH]; [done|]. cbn [flat_map List.filter]. rewrite IH. by destruct (follows all x).
Qed.
Lemma flat_map_rev_perm {A B} (f : A → list B) l : flat_map f (rev l) ≡ₚ flat_map f l.
Proof.
  induction l as [|x l IH]; [done|]. cbn [rev flat_map]. rewrite flat_map_app. cbn [flat_map].
  rewrite IH, app_nil_r. by rewrite Permutation_app_comm.
Qed.

(** Steps one after the other; the first failure ends them. *)
Fixpoint steps {A} (step : Node → A → option A) (l : list Node) (acc : A) : option A :=
  match l with [] => Some acc | n :: l => acc ← step n acc; steps step l acc end.

(** The nodes a walk visits, each reached node once. *)
Lemma walk_visits {A} all (step : Node → A → option A) fuel stack acc :
  length (flat_map (reach all) stack) ≤ fuel →
  ∃ visited, visited ≡ₚ flat_map (reach all) stack ∧
    walk fuel all step stack acc = match steps step visited acc with Some a => Ok a | None => Err () end.
Proof.
  enough (∃ visited, (length (flat_map (reach all) stack) ≤ fuel → visited ≡ₚ flat_map (reach all) stack ∧
    ∀ acc, walk fuel all step stack acc = match steps step visited acc with Some a => Ok a | None => Err () end)) as [v Hv].
  { intros H. exists v. destruct (Hv H). auto. }
  revert stack. induction fuel as [|fuel IH]; intros stack.
  { exists []. destruct stack as [|n stack]; [done|]. intros Hl. cbn [flat_map] in Hl. rewrite reach_kids in Hl. cbn in Hl. lia. }
  destruct stack as [|n stack]; [by exists []|].
  destruct (IH (rev (kids all n) ++ stack)) as [v Hv]. exists (n :: v). cbn [flat_map]. rewrite reach_kids. intros Hl.
  assert (flat_map (reach all) (rev (kids all n) ++ stack) ≡ₚ flat_map (reach all) (kids all n) ++ flat_map (reach all) stack) as Hp.
  { by rewrite flat_map_app, flat_map_rev_perm. }
  rewrite Hp in Hv. cbn [app length] in Hl. destruct Hv as [H1 H2]; [lia|]. split; [cbn [app]; by rewrite H1|].
  intros a. cbn [walk steps]. destruct (step n a); [apply H2|done].
Qed.

Lemma reach_named_sub n : length (reach false n) ≤ length (reach true n).
Proof.
  revert n. fix IH 1. intros [k b s t c]. cbn [reach length]. apply le_n_S.
  induction c as [|x c IHc]; [done|]. cbn [flat_map]. rewrite !length_app. specialize (IH x).
  change (follows true x) with true. change (follows false x) with (is_named x).
  apply Nat.add_le_mono; [|exact IHc]. destruct (is_named x); [exact IH|cbn; lia].
Qed.
Lemma walk_from_visits {A} all (step : Node → A → option A) root acc :
  ∃ visited, visited ≡ₚ reach all root ∧
    walk_from all step root acc = match steps step visited acc with Some a => Ok a | None => Err () end.
Proof.
  destruct (walk_visits all step (tree_size root) [root] acc) as (v & Hv & Hw).
  { cbn [flat_map]. rewrite app_nil_r. unfold tree_size. destruct all; [lia|]. pose proof (reach_named_sub root). lia. }
  exists v. cbn [flat_map] in Hv. by rewrite app_nil_r in Hv.
Qed.

(** ** Lemmas: sorting *)
Definition start_le (a b : Node) : Prop := (start_byte a ≤ start_byte b)%N.
Definition start_lt (a b : Node) : Prop := (start_byte a < start_byte b)%N.
Lemma insert_perm n l : insert_by_start n l ≡ₚ n :: l.
Proof. induction l as [|m l IH]; [done|]. cbn. destruct (_ <=? _)%N; [done|]. rewrite IH. constructor. Qed.
Lemma sort_by_start_perm l : sort_by_start l ≡ₚ l.
Proof. induction l as [|n l IH]; [done|]. cbn. by rewrite insert_perm, IH. Qed.
Lemma insert_sorted n l : StronglySorted start_le l → StronglySorted start_le (insert_by_start n l).
Proof.
  induction 1 as [|m l Hl IH Hm]; cbn; [by repeat constructor|]. destruct (N.leb_spec (start_byte n) (start_byte m)).
  - constructor; [by constructor|]. constructor; [done|]. eapply Forall_impl; [exact Hm|]. unfold start_le. intros; lia.
  - constructor; [done|]. rewrite insert_perm. constructor; [unfold start_le; lia|done].
Qed.
Lemma sort_by_start_sorted l : StronglySorted start_le (sort_by_start l).
Proof. induction l as [|n l IH]; [constructor|]. by apply insert_sorted. Qed.
(** A list sorted by distinct starts is what sorting any arrangement of it gives. *)
Lemma sorted_unique a b : StronglySorted start_le a → StronglySorted start_lt b → a ≡ₚ b → a = b.
Proof.
  intros Ha Hb. revert a Ha. induction Hb as [|y b Hb IH Hy]; intros a Ha Hp.
  { by apply Permutation_nil_r in Hp. }
  destruct Ha as [|x a Ha Hx]; [by apply Permutation_nil_l in Hp|].
  assert (x = y) as ->; [|by rewrite (IH a) by (done || by apply Permutation_cons_inv in Hp)].
  assert (x ∈ y :: b) as [?|Hxb]%elem_of_cons by (rewrite <- Hp; left); [done|].
  assert (y ∈ x :: a) as [?|Hya]%elem_of_cons by (rewrite Hp; left); [done|].
  rewrite Forall_forall in Hx, Hy. specialize (Hx y Hya). specialize (Hy x Hxb). unfold start_le, start_lt in *. lia.
Qed.

(** ** Lemmas: what the walks compute *)
Definition is_command (n : Node) : bool := is_named n && has_kind "command" n.
Lemma steps_sequence v acc :
  steps sequence_step v acc = if forallb allowed_node v then Some (acc ++ List.filter is_command v) else None.
Proof.
  revert acc. induction v as [|n v IH]; intros acc; cbn [steps forallb List.filter]; [by rewrite app_nil_r|].
  unfold sequence_step at 2. destruct (allowed_node n); cbn [mbind option_bind andb]; [|done]. rewrite IH.
  change (is_command n) with (is_named n && has_kind "command" n).
  destruct (is_named n && has_kind "command" n); [|done]. destruct (forallb _ v); [|done]. by rewrite <- app_assoc.
Qed.
Lemma filter_perm {A} (f : A → bool) l k : l ≡ₚ k → List.filter f l ≡ₚ List.filter f k.
Proof.
  induction 1 as [|x l k _ IH|x y l|l k m _ IH1 _ IH2]; cbn; [done|destruct (f x); by rewrite IH| |by etrans].
  destruct (f x), (f y); done || constructor.
Qed.
Lemma forallb_perm {A} (f : A → bool) l k : l ≡ₚ k → forallb f l = forallb f k.
Proof.
  induction 1 as [|x l k _ IH|x y l|l k m _ IH1 _ IH2]; cbn; [done|by rewrite IH| |by etrans].
  by destruct (f x), (f y).
Qed.
Lemma existsb_perm {A} (f : A → bool) l k : l ≡ₚ k → existsb f l = existsb f k.
Proof.
  induction 1 as [|x l k _ IH|x y l|l k m _ IH1 _ IH2]; cbn; [done|by rewrite IH| |by etrans].
  by destruct (f x), (f y).
Qed.

Lemma steps_single v found :
  steps single_step v found =
    match found, List.filter (has_kind "command") v with
    | None, [] => Some None
    | None, [n] => Some (Some n)
    | Some n, [] => Some (Some n)
    | _, _ => None
    end.
Proof.
  revert found. induction v as [|n v IH]; intros found; cbn [steps List.filter]; [by destruct found|].
  unfold single_step at 2. destruct (has_kind "command" n); destruct found; cbn [mbind option_bind]; rewrite ?IH; try done.
Qed.
Lemma find_single_spec root :
  find_single_command_node root =
    match List.filter (has_kind "command") (reach false root) with [n] => Some n | _ => None end.
Proof.
  unfold find_single_command_node. destruct (walk_from_visits false single_step root None) as (v & Hv & ->).
  rewrite steps_single. apply (filter_perm (has_kind "command")) in Hv. revert Hv. generalize (List.filter (has_kind "command") v) as l.
  intros l Hl. destruct (List.filter _ (reach false root)) as [|n [|m r]].
  - by apply Permutation_nil_r in Hl as ->.
  - by apply Permutation_singleton_r in Hl as ->.
  - apply Permutation_length in Hl. destruct l as [|a [|b l]]; done.
Qed.
Lemma steps_found (f : Node → bool) v : steps (λ m (found : unit), if f m then None else Some found) v () = if existsb f v then None else Some ().
Proof. induction v as [|n v IH]; cbn; [done|]. destruct (f n); [done|apply IH]. Qed.
Lemma has_named_spec n k : has_named_descendant_kind n k = existsb (has_kind k) (reach false n).
Proof.
  unfold has_named_descendant_kind. destruct (walk_from_visits false (λ m found, if has_kind k m then None else Some found) n ()) as (v & Hv & ->).
  rewrite steps_found, (existsb_perm _ _ _ Hv). by destruct (existsb _ _).
Qed.

(** ** Lemmas: shells *)
Lemma split_piece sep (s x : rstring) : x ∈ split sep s → length x ≤ length s ∧ (length x = length s → x = s).
Proof.
  induction s as [|c s IH] in x |- *; cbn [split].
  { intros ->%list_elem_of_singleton. done. }
  case_decide as Hc.
  - intros [->|Hx]%elem_of_cons; [cbn; split; [lia|done]|]. destruct (IH x Hx). cbn. split; lia.
  - pose proof (split_not_nil sep s) as Hne. destruct (split sep s) as [|y l]; [done|].
    intros [->|Hx]%elem_of_cons.
    + destruct (IH y ltac:(left)) as [H1 H2]. cbn. split; [lia|]. intros [= Hl]. by rewrite H2.
    + destruct (IH x ltac:(by right)). cbn. split; lia.
Qed.
Lemma piece_component_piece piece s : piece_component piece = Some (Normal s) → s = piece.
Proof. unfold piece_component. repeat case_decide; congruence. Qed.
Lemma pieces_without_separator sep (s x : rstring) : x ∈ split sep s → sep ∉ x.
Proof. pose proof (split_pieces sep s) as H. rewrite Forall_forall in H. apply H. Qed.
Lemma normal_component p s : Normal s ∈ components p → s ∈ split slash p ∧ piece_component s = Some (Normal s).
Proof.
  assert (∀ l : list rstring, Normal s ∈ omap piece_component l → s ∈ l ∧ piece_component s = Some (Normal s)) as Ho.
  { intros l (piece & Hp & Hs)%list_elem_of_omap. by pose proof (piece_component_piece _ _ Hs) as ->. }
  unfold components. destruct (is_absolute p); [intros [?|H]%elem_of_cons; [done|auto]|].
  destruct (split slash p) as [|first rest]; [by intros ?%elem_of_nil|].
  intros [H|H]%elem_of_app; [|apply Ho in H as [??]; split; [by right|done]]. case_decide; [by apply list_elem_of_singleton in H|].
  destruct (piece_component first) as [c|] eqn:Hc; [|by apply elem_of_nil in H].
  apply list_elem_of_singleton in H as <-. pose proof (piece_component_piece _ _ Hc) as ->. split; [left|done].
Qed.
Lemma file_name_segment p s : file_name p = Some s → s ∈ split slash p ∧ segment s.
Proof.
  unfold file_name. intros H. assert (Normal s ∈ components p) as [Hs Hc]%normal_component.
  { destruct (rev (components p)) as [|[| | |t] l] eqn:E; try done.
    injection H as ->. apply list_elem_of_In, in_rev. rewrite E. by left. }
  split; [done|]. apply pieces_without_separator in Hs. by apply (piece_component_Normal s s).
Qed.
Lemma file_name_piece p s : file_name p = Some s → s ∈ split slash p.
Proof. apply file_name_segment. Qed.
Lemma segment_file_name s : segment s → file_name s = Some s.
Proof.
  intros Hsg. pose proof Hsg as (Hne & Hs & Hd & _). unfold file_name, components.
  replace (is_absolute s) with false.
  - rewrite split_none, segment_component by done. cbn [omap list_omap]. by rewrite app_nil_r, decide_False.
  - symmetry. apply bool_decide_eq_false. destruct s as [|c s]; [done|]. intros [= ->]. apply Hs. left.
Qed.
(** The file name is its own. *)
Lemma file_name_idem p s : file_name p = Some s → file_name s = Some s.
Proof. intros [_ Hs]%file_name_segment. by apply segment_file_name. Qed.

Lemma join_with_snoc sep (l : list rstring) (x : rstring) : l ≠ [] → join_with [sep] (l ++ [x]) = join_with [sep] l ++ sep :: x.
Proof.
  intros Hl. induction l as [|y l IH]; [done|]. destruct l as [|z l]; [done|]. specialize (IH ltac:(done)).
  cbn [app join_with] in *. rewrite IH. by rewrite <- app_assoc.
Qed.
Lemma file_stem_length p s : file_stem p = Some s → length s ≤ length p ∧ (length s = length p → s = p).
Proof.
  unfold file_stem. intros (file & Hf & ->)%fmap_Some. apply file_name_piece, split_piece in Hf as [H1 H2].
  destruct (rev (split dot file)) as [|after [|y before]] eqn:E; [done|done|]. cbv zeta. case_bool_decide; [done|].
  assert (file = join_with [dot] (rev (y :: before)) ++ dot :: after) as Hj.
  { rewrite <- (join_split dot file) at 1. apply (f_equal (@rev _)) in E. rewrite rev_involutive in E. rewrite E. cbn [rev].
    apply join_with_snoc. by destruct (rev before). }
  apply (f_equal length) in Hj. rewrite length_app in Hj. cbn [length] in Hj. split; lia.
Qed.
Lemma detect_fuel fuel p : length p ≤ fuel → detect_shell_type_fuel fuel p ≠ Panic.
Proof.
  revert p. induction fuel as [|fuel IH]; intros p Hl; cbn [detect_shell_type_fuel];
    (destruct (shell_name p); [done|]); destruct (file_stem p) as [s|] eqn:Hs; try done.
  - destruct p; [done|cbn in Hl; lia].
  - case_bool_decide as Hpe; [done|]. apply IH. apply file_stem_length in Hs as [H1 H2].
    destruct (decide (length s = length p)) as [Heq|]; [|lia]. rewrite (H2 Heq) in Hpe. by destruct Hpe.
Qed.
Lemma shell_name_own p t : shell_name p = Some t → file_name p = Some p.
Proof. unfold shell_name. repeat (case_bool_decide as Hp; [intros _; rewrite Hp; by vm_compute|clear Hp]). done. Qed.
(** A name without a dot that is no shell: no path to it is one either. *)
Lemma detect_plain_name p f :
  file_name p = Some f → dot ∉ f → shell_name f = None →
  detect_shell_type p = Ok None.
Proof.
  intros Hp Hdot Hf. assert (shell_name p = None) as Hsp.
  { destruct (shell_name p) as [t|] eqn:E; [|done]. pose proof (shell_name_own p t E). congruence. }
  pose proof (file_name_idem p f Hp) as Hff.
  assert (∀ q, file_name q = Some f → file_stem q = Some f) as Hstem.
  { intros q Hq. unfold file_stem. rewrite Hq. cbn [fmap option_fmap option_map]. by rewrite split_none. }
  unfold detect_shell_type. pose proof (file_name_piece p f Hp) as [Hlen _]%split_piece.
  destruct (length p) as [|n] eqn:Hl; cbn [detect_shell_type_fuel]; rewrite Hsp, (Hstem p Hp).
  - destruct p; [done|]. done.
  - case_bool_decide; [done|]. destruct n; cbn [detect_shell_type_fuel]; rewrite Hf, (Hstem f Hff), bool_decide_true by done; done.
Qed.

(** ** Properties *)

(** What the code takes for a sequence of plain commands.  When commands
    start one after the other in the text, as they do in tree-sitter's trees, the
    result is the words of the commands in source order, provided the tree has
    no error and no node outside the allow list; the walk always ends. *)
Theorem word_only_commands_spec (tree : Tree)
    (Hsorted : StronglySorted start_lt (List.filter is_command (reach true (root_node tree)))) :
  walk_from true sequence_step (root_node tree) [] ≠ Panic ∧
  try_parse_word_only_commands_sequence tree =
    if negb (has_error tree) && forallb allowed_node (reach true (root_node tree))
    then mapM parse_plain_command_from_node (List.filter is_command (reach true (root_node tree))) else None.
Proof.
  unfold try_parse_word_only_commands_sequence.
  destruct (walk_from_visits true sequence_step (root_node tree) []) as (v & Hv & ->).
  rewrite steps_sequence, (forallb_perm _ _ _ Hv). destruct (forallb _ _); [|by split; [|destruct (has_error tree)]].
  split; [done|]. destruct (has_error tree); [done|]. cbn [negb andb app]. f_equal.
  apply sorted_unique; [apply sort_by_start_sorted|done|]. rewrite sort_by_start_perm. by apply filter_perm.
Qed.

(** The prefix of a here-document script.  It is the words of the only
    command below the root, of a script without errors that attaches a
    here-document and redirects no file; any other script has none. *)
Theorem single_command_prefix_spec (try_parse_shell : rstring → option Tree) (command words : list rstring) :
  parse_shell_lc_single_command_prefix try_parse_shell command = Some words ↔
  ∃ shell script tree n, extract_bash_command command = Some (shell, script) ∧ try_parse_shell script = Some tree ∧
    has_error tree = false ∧
    List.filter (has_kind "command") (reach false (root_node tree)) = [n] ∧
    (∃ h, h ∈ reach false (root_node tree) ∧ kind h = lit "heredoc_redirect") ∧
    (∀ h, h ∈ reach false (root_node tree) → kind h ≠ lit "file_redirect") ∧
    parse_heredoc_command_words n = Some words.
Proof.
  unfold parse_shell_lc_single_command_prefix. split.
  - intros ([shell script] & Hc & (tree & Ht & H)%bind_Some)%bind_Some.
    rewrite !has_named_spec, find_single_spec in H. destruct (has_error tree) eqn:He; [done|].
    destruct (existsb (has_kind "heredoc_redirect") _) eqn:Hh; cbn [negb] in H; [|done].
    destruct (existsb (has_kind "file_redirect") _) eqn:Hr; [done|].
    apply bind_Some in H as (n & Hn & Hw). exists shell, script, tree, n.
    destruct (List.filter (has_kind "command") _) as [|m [|]]; try done. injection Hn as ->. split_and!; try done.
    + apply existsb_exists in Hh as (h & Hin & Hk). exists h. by rewrite list_elem_of_In, <- (bool_decide_eq_true (kind h = _)).
    + intros h Hin Hk. apply not_true_iff_false in Hr. apply Hr, existsb_exists. exists h. rewrite <- list_elem_of_In.
      split; [done|]. by apply bool_decide_eq_true.
  - intros (shell & script & tree & n & -> & Ht & He & Hn & (h & Hin & Hk) & Hr & Hw). cbn [mbind option_bind]. rewrite Ht.
    cbn [mbind option_bind]. rewrite He, !has_named_spec, find_single_spec, Hn.
    rewrite (proj2 (existsb_exists (has_kind "heredoc_redirect") _)); [cbn [negb]|exists h; rewrite <- list_elem_of_In; split; [done|by apply bool_decide_eq_true]].
    destruct (existsb (has_kind "file_redirect") _) eqn:Hf; [|exact Hw].
    apply existsb_exists in Hf as (x & Hx%list_elem_of_In & Hkx%bool_decide_eq_true). by destruct (Hr x Hx).
Qed.

(** ** Runs *)
Definition leaf (k : String.string) (at_ : N) (text : String.string) : Node := mk_node (lit k) true at_ (Some (lit text)) [].
Definition op (text : String.string) (at_ : N) : Node := mk_node (lit text) false at_ (Some (lit text)) [].
Definition simple_command (at_ : N) (name : String.string) (args : list Node) : Node :=
  mk_node (lit "command") true at_ None (mk_node (lit "command_name") true at_ None [leaf "word" at_ name] :: args).
(** [ls -a && echo 'x y' | wc] *)
Definition sample_tree : Tree :=
  mk_tree (mk_node (lit "program") true 0 None
    [mk_node (lit "list") true 0 None
       [simple_command 0 "ls" [leaf "word" 3 "-a"]; op "&&" 6;
        mk_node (lit "pipeline") true 9 None
          [simple_command 9 "echo" [leaf "raw_string" 14 "'x y'"]; op "|" 20; simple_command 22 "wc" []]]]) false.

Lemma word_only_commands_spec_witness :
  try_parse_word_only_commands_sequence sample_tree = Some [[lit "ls"; lit "-a"]; [lit "echo"; lit "x y"]; [lit "wc"]].
Proof.
  etrans; [apply (proj2 (word_only_commands_spec sample_tree ltac:(repeat constructor)))|by vm_compute].
Defined.
