(* ===== verification/PatchInvocation.v ===== *)
(** * Recognising and verifying a patch command ([apply-patch/src/invocation.rs])

    Which command lines apply a patch, and what the patch would change: the
    hunks are resolved against the working directory of the script and
    checked against the files as they are, one entry per source path.  Running
    the tree-sitter query over a script and printing a unified diff are
    third-party code, parameters here; the file system is the interface of
    [ApplyHunks]. *)
From S2P Require Import Prelude RustStr BashTree RustPath AbsolutePath Replacements PatchParser PatchRoundtrip ApplyHunks.

Definition APPLY_PATCH_COMMANDS : list rstring := [lit "apply_patch"; lit "applypatch"].
Inductive ApplyPatchShell := Unix | PowerShell | Cmd.
#[global] Instance ApplyPatchShell_eq_dec : EqDecision ApplyPatchShell.
Proof. solve_decision. Defined.
Inductive ExtractHeredocError :=
| CommandDidNotStartWithApplyPatch
| FailedToLoadBashGrammar (language_error : rstring)
| HeredocNotUtf8 (utf8_error : rstring)
| FailedToParsePatchIntoAst
| FailedToFindHeredocBody.
Inductive MaybeApplyPatch :=
| PatchBody (args : ApplyPatchArgs)
| ShellParseError (e : ExtractHeredocError)
| PatchParseError (e : ParseError)
| NotApplyPatch.

(** The changes of an action, of [lib.rs]: a map from the resolved source paths. *)
Inductive ApplyPatchFileChange :=
| AddChange (content : rstring)
| DeleteChange (content : rstring)
| UpdateChange (unified_diff : rstring) (move_path : option path) (new_content : rstring).
Record ApplyPatchAction := mk_action { changes : gmap path ApplyPatchFileChange; patch : rstring; action_cwd : path }.
Definition action_is_empty (a : ApplyPatchAction) : bool := bool_decide (changes a = ∅).
Inductive MaybeApplyPatchVerified :=
| VerifiedBody (action : ApplyPatchAction)
| VerifiedShellParseError (e : ExtractHeredocError)
| CorrectnessError (e : ApplyPatchError)
| VerifiedNotApplyPatch.

(** ** The command line *)
Definition classify_shell_name (shell : rstring) : option rstring := to_ascii_lowercase <$> file_stem shell.
Definition eq_ignore_ascii_case (a b : rstring) : bool := bool_decide (to_ascii_lowercase a = to_ascii_lowercase b).
Definition classify_shell (shell flag : rstring) : option ApplyPatchShell :=
  match classify_shell_name shell with
  | Some name =>
      if (bool_decide (name ∈ [lit "bash"; lit "zsh"; lit "sh"]) && bool_decide (flag ∈ [lit "-lc"; lit "-c"])) then Some Unix
      else if bool_decide (name ∈ [lit "pwsh"; lit "powershell"]) && eq_ignore_ascii_case flag (lit "-command") then Some PowerShell
      else if bool_decide (name = lit "cmd") && eq_ignore_ascii_case flag (lit "/c") then Some Cmd
      else None
  | None => None
  end.
Definition can_skip_flag (shell flag : rstring) : bool :=
  match classify_shell_name shell with
  | Some name => bool_decide (name ∈ [lit "pwsh"; lit "powershell"]) && eq_ignore_ascii_case flag (lit "-noprofile")
  | None => false
  end.
Definition parse_shell_script (argv : list rstring) : option (ApplyPatchShell * rstring) :=
  match argv with
  | [shell; flag; script] => (λ t, (t, script)) <$> classify_shell shell flag
  | [shell; skip_flag; flag; script] =>
      if can_skip_flag shell skip_flag then (λ t, (t, script)) <$> classify_shell shell flag else None
  | _ => None
  end.

(** ** The here-document *)
(** A capture of the query: its name and the text of its node, or the error
    of a text that is not UTF-8. *)
Definition capture : Type := rstring * (rstring + rstring).
Definition raw_string_text (raw : rstring) : rstring := default raw (strip_quotes single_quote raw).
Definition capture_step (acc : outcome ExtractHeredocError (option rstring * option rstring)) (c : capture) :
    outcome ExtractHeredocError (option rstring * option rstring) :=
  let? st := acc in
  let '(heredoc_text, cd_path) := st in
  let text := match c.2 with inl t => Ok t | inr e => Err (HeredocNotUtf8 e) end in
  if bool_decide (c.1 = lit "heredoc") then
    let? t := text in Ok (Some (trim_end_matches (λ x, bool_decide (x = newline)) t), cd_path)
  else if bool_decide (c.1 = lit "cd_path") then let? t := text in Ok (heredoc_text, Some t)
  else if bool_decide (c.1 = lit "cd_raw_string") then let? t := text in Ok (heredoc_text, Some (raw_string_text t))
  else Ok st.
Fixpoint first_heredoc (matches : list (list capture)) : outcome ExtractHeredocError (rstring * option rstring) :=
  match matches with
  | [] => Err CommandDidNotStartWithApplyPatch
  | captures :: rest =>
      let? st := foldl capture_step (Ok (None, None)) captures in
      match st with
      | (Some heredoc, cd_path) => Ok (heredoc, cd_path)
      | (None, _) => first_heredoc rest
      end
  end.

(** ** Verification *)
Section verify.
Context {S : Type} `{ExecutorFileSystem S}.
Context (home_dir : option rstring).
(** The matches of the query of [extract_apply_patch_from_bash] in a script, in
    order, or why the script cannot be parsed. *)
Context (query_matches : rstring → outcome ExtractHeredocError (list (list capture))).
(** [TextDiff::from_lines] of the two texts, printed with one line of context. *)
Context (print_unified_diff : rstring → rstring → rstring).

Definition extract_apply_patch_from_bash (src : rstring) : outcome ExtractHeredocError (rstring * option rstring) :=
  let? matches := query_matches src in first_heredoc matches.
Definition extract_apply_patch_from_shell (shell : ApplyPatchShell) (script : rstring) :
    outcome ExtractHeredocError (rstring * option rstring) :=
  match shell with Unix | PowerShell | Cmd => extract_apply_patch_from_bash script end.
Definition with_workdir (source : ApplyPatchArgs) (workdir : option rstring) : ApplyPatchArgs :=
  mk_patch_args (args_patch source) (args_hunks source) workdir (args_environment_id source).

Definition maybe_parse_shell (argv : list rstring) : outcome unit MaybeApplyPatch :=
  match parse_shell_script argv with
  | Some (shell, script) =>
      match extract_apply_patch_from_shell shell script with
      | Ok (body, workdir) =>
          match parse_patch body with
          | Ok source => Ok (PatchBody (with_workdir source workdir))
          | Err e => Ok (PatchParseError e)
          | Panic => Panic
          end
      | Err CommandDidNotStartWithApplyPatch => Ok NotApplyPatch
      | Err e => Ok (ShellParseError e)
      | Panic => Panic
      end
  | None => Ok NotApplyPatch
  end.
Definition maybe_parse_apply_patch (argv : list rstring) : outcome unit MaybeApplyPatch :=
  match argv with
  | [cmd; body] =>
      if bool_decide (cmd ∈ APPLY_PATCH_COMMANDS) then
        match parse_patch body with
        | Ok source => Ok (PatchBody source)
        | Err e => Ok (PatchParseError e)
        | Panic => Panic
        end
      else maybe_parse_shell argv
  | _ => maybe_parse_shell argv
  end.

(** [unified_diff_from_chunks] with its context of one line: the diff, the
    original and the new contents. *)
Definition unified_diff_from_chunks (fs : S) (p : path) (chunks : list UpdateFileChunk) :
    outcome ApplyPatchError (rstring * rstring * rstring) :=
  match read_file_text fs p with
  | inr e => Err (EIoError (lit "Failed to read file to update " ++ p) e)
  | inl original =>
      match derive_new_contents p original chunks with
      | Ok new => Ok (print_unified_diff original new, original, new)
      | Err m => Err (EComputeReplacements m)
      | Panic => Panic
      end
  end.
Definition effective_cwd (cwd : path) (workdir : option rstring) : path :=
  match workdir with Some dir => join home_dir cwd dir | None => cwd end.
Definition resolve_in (cwd : path) (p : path) : path := resolve_path_against_base home_dir p cwd.
(** The entry of one hunk. *)
Definition verify_hunk (fs : S) (cwd : path) (h : Hunk) : outcome ApplyPatchError ApplyPatchFileChange :=
  let p := resolve_in cwd (hunk_source_path h) in
  match h with
  | AddFile _ contents => Ok (AddChange contents)
  | DeleteFile _ =>
      match read_file_text fs p with
      | inl content => Ok (DeleteChange content)
      | inr e => Err (EIoError (lit "Failed to read " ++ p) e)
      end
  | UpdateFile _ move_path chunks =>
      let? update := unified_diff_from_chunks fs p chunks in
      let '(diff, _, contents) := update in
      Ok (UpdateChange diff (join home_dir cwd <$> move_path) contents)
  end.
Fixpoint verify_hunks (fs : S) (cwd : path) (hunks : list Hunk) (acc : gmap path ApplyPatchFileChange) :
    outcome ApplyPatchError (gmap path ApplyPatchFileChange) :=
  match hunks with
  | [] => Ok acc
  | h :: hunks =>
      let? change := verify_hunk fs cwd h in
      verify_hunks fs cwd hunks (<[resolve_in cwd (hunk_source_path h) := change]> acc)
  end.
Definition verify_apply_patch_args (args : ApplyPatchArgs) (cwd : path) (fs : S) : outcome unit MaybeApplyPatchVerified :=
  let cwd := effective_cwd cwd (args_workdir args) in
  match verify_hunks fs cwd (args_hunks args) ∅ with
  | Ok changes => Ok (VerifiedBody (mk_action changes (args_patch args) cwd))
  | Err e => Ok (CorrectnessError e)
  | Panic => Panic
  end.

Definition parses_as_patch (body : rstring) : bool := match parse_patch body with Ok _ => true | _ => false end.
Definition implicit_invocation (argv : list rstring) : bool :=
  match argv with [body] => parses_as_patch body | _ => false end ||
  match parse_shell_script argv with Some (_, script) => parses_as_patch script | None => false end.
Definition maybe_parse_apply_patch_verified (argv : list rstring) (cwd : path) (fs : S) : outcome unit MaybeApplyPatchVerified :=
  if implicit_invocation argv then Ok (CorrectnessError EImplicitInvocation)
  else
    let? parsed := maybe_parse_apply_patch argv in
    match parsed with
    | PatchBody args => verify_apply_patch_args args cwd fs
    | ShellParseError e => Ok (VerifiedShellParseError e)
    | PatchParseError e => Ok (CorrectnessError (EParseError e))
    | NotApplyPatch => Ok VerifiedNotApplyPatch
    end.
End verify.

(** ** What an applied hunk did *)
Section effect.
Context {S : Type} `{FileSystemLaws S}.
Context (resolve : path → path) (parent : path → option path).

Lemma bind_ok {A B} (m : M (S:=S) A) (k : A → M B) st st2 (b : B) :
  bind m k st = (st2, Ok b) → ∃ st1 a, m st = (st1, Ok a) ∧ k a st1 = (st2, Ok b).
Proof using Type. unfold bind. destruct (m st) as [st1 [a|e|]]; try done. eauto. Qed.
Lemma try_write_ok r (st st' : run_state (S:=S)) u : try_write r st = (st', Ok u) → r = inl () ∧ st' = st.
Proof using Type. destruct r as [[]|e]; cbn; [by intros [= <- _]|]. unfold bind, and_exact, throw. by destruct st. Qed.

(** The delta entries that an applied hunk leaves. *)
Definition hunk_entry (s : S) (h : Hunk) (c : AppliedPatchChange) : Prop :=
  let p := resolve (hunk_source_path h) in
  c_path c = p ∧
  match h with
  | AddFile _ contents => ∃ o, c_change c = CAdd contents o
  | DeleteFile _ => ∃ old, c_change c = CDelete old
  | UpdateFile _ move_path chunks =>
      ∃ old new o, read_file_text s p = inl old ∧ derive_new_contents p old chunks = Ok new ∧
        c_change c = CUpdate (resolve <$> move_path) old o new
  end.

Lemma read_optional_changes p st st' o :
  read_optional_file_text_for_delta (S:=S) p st = (st', Ok o) → d_changes st'.2 = d_changes st.2.
Proof using Type.
  destruct st as [s d]. unfold read_optional_file_text_for_delta, bind, get_fs, and_exact, ret. cbn.
  repeat case_match; intros [= <- _]; done.
Qed.
Lemma write_retry_changes p c st st' r :
  write_file_with_missing_parent_retry (S:=S) parent p c st = (st', Ok r) → d_changes st'.2 = d_changes st.2.
Proof using Type.
  destruct st as [s d]. unfold write_file_with_missing_parent_retry, bind, lift_fs, ret. cbn.
  repeat case_match; intros; simplify_eq/=; done.
Qed.
Lemma remove_tracked_changes ctx p expected st st' u :
  remove_tracked (S:=S) ctx p expected st = (st', Ok u) → d_changes st'.2 = d_changes st.2.
Proof using Type.
  destruct st as [s d]. unfold remove_tracked, bind, get_fs, lift_io, lift_fs, and_exact, throw, ret. cbn.
  repeat case_match; intros; simplify_eq/=; done.
Qed.

Ltac run E := unfold bind, get_fs, lift_fs, push_delta, set_delta, delta_len, and_exact, ret in E; cbn in E.

Lemma add_entry s d st' p c a :
  apply_hunk resolve parent (AddFile p c) (s, d) = (st', Ok a) →
  ∃ e, hunk_entry s (AddFile p c) e ∧ d_changes st'.2 = d_changes d ++ [e].
Proof using Type.
  cbn [apply_hunk]. unfold apply_add. intros (st1 & o & E1 & (st2 & r & E2 & (st3 & [] & E3 & E4)%bind_ok)%bind_ok)%bind_ok.
  apply try_write_ok in E3 as [-> ->]. run E4. injection E4 as <- _.
  exists (mk_change (resolve p) (CAdd c o)). split; [split; [done|by exists o]|]. cbn.
  by rewrite (write_retry_changes _ _ _ _ _ E2), (read_optional_changes _ _ _ _ E1).
Qed.
Lemma delete_entry s d st' p a :
  apply_hunk resolve parent (DeleteFile p) (s, d) = (st', Ok a) → d_exact st'.2 = true →
  ∃ e, hunk_entry s (DeleteFile p) e ∧ d_changes st'.2 = d_changes d ++ [e].
Proof using Type.
  cbn [apply_hunk hunk_source_path hunk_path]. unfold apply_delete. intros E. do 3 (apply bind_ok in E as (? & ? & E1 & E); run E1; injection E1 as <- <-).
  cbn [fst snd d_changes d_exact] in E. apply bind_ok in E as ([s4 d4] & [] & Er & E).
  pose proof (remove_tracked_changes _ _ _ _ _ _ Er) as Hc. cbn in Hc.
  destruct (read_file_text s (resolve p)) as [content|e].
  - run E. injection E as <- _. intros _. exists (mk_change (resolve p) (CDelete content)).
    split; [split; [done|by exists content]|]. cbn. by rewrite Hc.
  - run E. injection E as <- _. intros He. exfalso.
    match type of Er with ?m _ = _ => assert (calm m) as Hcalm by apply calm_remove_tracked end.
    match type of Er with _ (?s, ?d) = _ => specialize (Hcalm s d) end. rewrite Er in Hcalm. cbn in Hcalm, He.
    rewrite andb_false_r in Hcalm. by destruct Hcalm as [_ Hx%(λ f, f He)].
Qed.
Lemma finish_move_entry p ap dest old new s d st' a :
  finish_move (S:=S) parent p ap dest old new (s, d) = (st', Ok a) →
  ∃ o, d_changes st'.2 = d_changes d ++ [mk_change p (CUpdate (Some dest) old o new)].
Proof using Type.
  unfold finish_move. intros (st1 & o & E1 & (st2 & r & E2 & (st3 & [] & E3 & E)%bind_ok)%bind_ok)%bind_ok.
  apply try_write_ok in E3 as [-> ->]. do 2 (apply bind_ok in E as (? & ? & Ex & E); run Ex; injection Ex as <- <-).
  apply bind_ok in E as (st4 & [] & Er & E). apply remove_tracked_changes in Er. cbn in Er.
  run E. injection E as <- _. exists o. cbn. rewrite Er, (write_retry_changes _ _ _ _ _ E2), (read_optional_changes _ _ _ _ E1). cbn.
  by rewrite insert_app_r_alt, Nat.sub_diag by lia.
Qed.
Lemma update_entry s d st' p mp chunks a :
  apply_hunk resolve parent (UpdateFile p mp chunks) (s, d) = (st', Ok a) →
  ∃ e, hunk_entry s (UpdateFile p mp chunks) e ∧ d_changes st'.2 = d_changes d ++ [e].
Proof using Type.
  cbn [apply_hunk hunk_source_path]. unfold apply_update. intros E. do 2 (apply bind_ok in E as (? & ? & E1 & E); run E1; injection E1 as <- <-).
  cbn [fst snd] in E. apply bind_ok in E as (st2 & [old new] & E2 & E).
  unfold derive_new_contents_from_chunks in E2. run E2. cbn [hunk_source_path] in *.
  destruct (read_file_text s (resolve p)) as [original|] eqn:Er; [|done].
  destruct (derive_new_contents (resolve p) original chunks) as [new'| |] eqn:Ed; try done.
  injection E2 as <- <- <-. destruct mp as [dest|].
  - apply finish_move_entry in E as [o Ho]. cbn in Ho. eexists. split; [|exact Ho]. split; [done|]. by exists original, new', o.
  - unfold finish_in_place in E. apply bind_ok in E as (st3 & r & E3 & (st4 & [] & E4 & E)%bind_ok). run E.
    apply try_write_ok in E4 as [_ ->]. injection E as <- _.
    assert (d_changes st3.2 = d_changes d) as Hc.
    { run E3. destruct (write_file s (resolve p) new'). injection E3 as <- _. done. }
    eexists. split; [|cbn; by rewrite Hc]. split; [done|]. by exists original, new', None.
Qed.
Lemma applied_entry h s d st' a :
  apply_hunk resolve parent h (s, d) = (st', Ok a) → d_exact st'.2 = true →
  ∃ e, hunk_entry s h e ∧ d_changes st'.2 = d_changes d ++ [e].
Proof using Type. destruct h; intros E He; [by eapply add_entry|by eapply delete_entry|by eapply update_entry]. Qed.

(** What the hunk says about the files before and after. *)
Definition hunk_effect (h : Hunk) (v v' : gmap path rstring) : Prop :=
  let p := resolve (hunk_source_path h) in
  match h with
  | AddFile _ contents => v' = <[p := contents]> v
  | DeleteFile _ => v' = delete p v
  | UpdateFile _ move_path chunks =>
      ∃ old new, v !! p = Some old ∧ derive_new_contents p old chunks = Ok new ∧
        v' = match move_path with Some dest => delete p (<[resolve dest := new]> v) | None => <[p := new]> v end
  end.
Lemma applied_effect h s d s' d' a :
  apply_hunk resolve parent h (s, d) = ((s', d'), Ok a) → d_exact d' = true →
  d_exact d = true ∧ hunk_effect h (view s) (view s').
Proof using Type*.
  intros E He. pose proof (tracks_hunk resolve parent h s d) as Ht. rewrite E in Ht.
  destruct Ht as [_ Ht]. destruct (Ht He) as (Hd & cs & Hcs & Hr). split; [done|].
  destruct (applied_entry _ _ _ _ _ E He) as ([p c] & [Hp He'] & Hc). cbn in Hc, Hp. subst p. rewrite Hcs in Hc.
  apply app_inv_head in Hc as ->. inversion Hr as [|? ? ? v2 ? Hs Hn]; subst. inversion Hn; subst.
  cbn in He'. unfold hunk_effect. destruct h as [p contents|p|p mp chunks]; cbn [c_change hunk_source_path hunk_path] in *.
  - destruct He' as [o ->]. by inversion Hs.
  - destruct He' as [old ->]. by inversion Hs.
  - destruct He' as (old & new & o & Hread & Hd' & ->). exists old, new. apply read_ok in Hread.
    split_and!; [done|done|]. destruct mp; by inversion Hs.
Qed.
End effect.

(** ** The verified changes and the applied patch *)
Section agreement.
Context {S : Type} `{FileSystemLaws S}.
Context (home_dir : option rstring) (print_unified_diff : rstring → rstring → rstring) (parent : path → option path).

(** The paths that a hunk may change. *)
Definition touched (cwd : path) (h : Hunk) : list path :=
  resolve_in home_dir cwd (hunk_source_path h) ::
  match h with UpdateFile _ (Some dest) _ => [join home_dir cwd dest] | _ => [] end.
(** What an entry of the changes says of the files before and after. *)
Definition shows (p : path) (c : ApplyPatchFileChange) (v v' : gmap path rstring) : Prop :=
  match c with
  | AddChange content => v' !! p = Some content
  | DeleteChange content => v !! p = Some content ∧ v' !! p = None
  | UpdateChange diff move_path new =>
      (∃ old, v !! p = Some old ∧ diff = print_unified_diff old new) ∧
      match move_path with
      | Some dest => v' !! p = None ∧ v' !! dest = Some new
      | None => v' !! p = Some new
      end
  end.

Lemma verify_hunks_lookup fs cwd hunks acc m p c :
  verify_hunks home_dir print_unified_diff fs cwd hunks acc = Ok m → m !! p = Some c →
  (∃ h, h ∈ hunks ∧ resolve_in home_dir cwd (hunk_source_path h) = p ∧ verify_hunk home_dir print_unified_diff fs cwd h = Ok c) ∨ acc !! p = Some c.
Proof using Type.
  revert acc. induction hunks as [|h hunks IH]; intros acc; cbn [verify_hunks]; [intros [= <-]; by right|].
  intros (ch & Hch & Hv)%bind_Ok Hp. destruct (IH _ Hv Hp) as [(h' & Hin & Hr)|Hacc].
  - left. exists h'. split; [by right|done].
  - destruct (decide (resolve_in home_dir cwd (hunk_source_path h) = p)) as [<-|Hne].
    + rewrite lookup_insert_eq in Hacc. injection Hacc as ->. left. exists h. split_and!; [by left|done|done].
    + rewrite lookup_insert_ne in Hacc by done. by right.
Qed.

Lemma effect_untouched cwd h v v' q :
  hunk_effect (resolve_in home_dir cwd) h v v' → q ∉ touched cwd h → v' !! q = v !! q.
Proof using Type.
  unfold hunk_effect, touched. intros He Hq. destruct h as [p contents|p|p [dest|] chunks]; cbn [hunk_source_path hunk_path] in *.
  - subst v'. rewrite lookup_insert_ne; [done|]. intros <-. apply Hq. by left.
  - subst v'. rewrite lookup_delete_ne; [done|]. intros <-. apply Hq. by left.
  - destruct He as (old & new & _ & _ & ->). rewrite lookup_delete_ne, lookup_insert_ne; [done| |].
    + intros <-. apply Hq. right. by left.
    + intros <-. apply Hq. by left.
  - destruct He as (old & new & _ & _ & ->). rewrite lookup_insert_ne; [done|]. intros <-. apply Hq. by left.
Qed.
Lemma effect_shows fs cwd h c v v' :
  verify_hunk home_dir print_unified_diff fs cwd h = Ok c → NoDup (touched cwd h) →
  v !! resolve_in home_dir cwd (hunk_source_path h) = view fs !! resolve_in home_dir cwd (hunk_source_path h) →
  hunk_effect (resolve_in home_dir cwd) h v v' → shows (resolve_in home_dir cwd (hunk_source_path h)) c (view fs) v'.
Proof using Type*.
  unfold touched, verify_hunk, hunk_effect. intros Hc Hnd Hv He.
  destruct h as [p contents|p|p mp chunks]; cbn [hunk_source_path hunk_path] in *.
  - injection Hc as <-. subst v'. apply lookup_insert_eq.
  - destruct (read_file_text fs _) as [content|e] eqn:Er; [|done]. injection Hc as <-. subst v'. apply read_ok in Er.
    split; [done|apply lookup_delete_eq].
  - apply bind_Ok in Hc as ([[diff original] contents] & Hu & [= <-]). unfold unified_diff_from_chunks in Hu.
    destruct (read_file_text fs _) as [content|e] eqn:Er; [|done]. apply read_ok in Er.
    destruct He as (old & new & Hold & Hd & ->). assert (old = content) as -> by congruence.
    rewrite Hd in Hu. injection Hu as <- <- <-. split; [by exists content|].
    destruct mp as [dest|]; cbn [fmap option_fmap option_map].
    + apply NoDup_cons in Hnd as [Hnd _]. split; [apply lookup_delete_eq|].
      rewrite lookup_delete_ne; [apply lookup_insert_eq|]. intros Heq. apply Hnd. rewrite Heq. by left.
    + apply lookup_insert_eq.
Qed.
(** What an entry shows depends on the touched paths only. *)
Lemma shows_later fs cwd h c v v1 v2 :
  verify_hunk home_dir print_unified_diff fs cwd h = Ok c → (∀ q, q ∈ touched cwd h → v2 !! q = v1 !! q) →
  shows (resolve_in home_dir cwd (hunk_source_path h)) c v v1 → shows (resolve_in home_dir cwd (hunk_source_path h)) c v v2.
Proof using Type.
  unfold touched, verify_hunk. intros Hc Hq. pose proof (Hq _ (list_elem_of_here _ _)) as Hs.
  destruct h as [p contents|p|p mp chunks]; cbn [hunk_source_path hunk_path] in *.
  - injection Hc as <-. unfold shows. by rewrite Hs.
  - destruct (read_file_text fs _); [|done]. injection Hc as <-. unfold shows. by rewrite Hs.
  - apply bind_Ok in Hc as ([[diff original] contents] & Hu & [= <-]). unfold shows. intros [? Hm]. split; [done|].
    destruct mp as [dest|]; cbn [fmap option_fmap option_map] in *; [|by rewrite Hs].
    rewrite Hs, Hq; [done|]. right. by left.
Qed.

Lemma hunk_loop_shows fs cwd hunks acc s d s' d' a :
  NoDup (hunks ≫= touched cwd) → (∀ q, q ∈ hunks ≫= touched cwd → view s !! q = view fs !! q) →
  hunk_loop (resolve_in home_dir cwd) parent hunks acc (s, d) = ((s', d'), Ok a) → d_exact d' = true →
  d_exact d = true ∧
  (∀ h c, h ∈ hunks → verify_hunk home_dir print_unified_diff fs cwd h = Ok c →
     shows (resolve_in home_dir cwd (hunk_source_path h)) c (view fs) (view s')) ∧
  (∀ q, q ∉ hunks ≫= touched cwd → view s' !! q = view s !! q).
Proof using Type*.
  revert acc s d. induction hunks as [|h hunks IH]; intros acc s d Hnd Hag; cbn [hunk_loop].
  { intros [= <- <- _] He. split_and!; [done|by intros h c ?%elem_of_nil|done]. }
  intros ([s1 d1] & aff & E1 & E2)%bind_ok He. rewrite bind_cons in Hnd, Hag. apply NoDup_app in Hnd as (Hn1 & Hdis & Hn2).
  assert (d_exact d1 = true → d_exact d = true ∧ hunk_effect (resolve_in home_dir cwd) h (view s) (view s1)) as Heff
    by (intros; by eapply applied_effect).
  assert (∀ q, q ∈ hunks ≫= touched cwd → d_exact d1 = true → view s1 !! q = view fs !! q) as Hag1.
  { intros q Hq [_ Hx]%Heff. rewrite (effect_untouched cwd h _ _ q Hx); [apply Hag, elem_of_app; by right|].
    intros Hq'. by apply (Hdis q). }
  assert (d_exact d1 = true) as He1.
  { pose proof (tracks_hunk_loop (resolve_in home_dir cwd) parent hunks (note_affected acc aff) s1 d1) as Ht.
    rewrite E2 in Ht. by apply Ht. }
  destruct (Heff He1) as [Hd Hx].
  destruct (IH _ _ _ Hn2 (λ q Hq, Hag1 q Hq He1) E2 He) as (_ & Hshow & Hout). split_and!; [done| |].
  - intros h' c [->|Hin]%elem_of_cons Hc; [|by eapply Hshow]. eapply shows_later; [done| |].
    + intros q Hq. apply Hout. intros Hq2. by apply (Hdis q).
    + eapply effect_shows; [done|done| |done]. apply Hag, elem_of_app. left. by left.
  - intros q Hq. rewrite bind_cons, elem_of_app in Hq. rewrite Hout by tauto. eapply effect_untouched; [done|]. tauto.
Qed.
End agreement.

(** ** From the command line to the action *)
Section recognised.
Context {S : Type} `{ExecutorFileSystem S}.
Context (home_dir : option rstring) (query_matches : rstring → outcome ExtractHeredocError (list (list capture)))
        (print_unified_diff : rstring → rstring → rstring).

Lemma maybe_parse_body argv args :
  maybe_parse_apply_patch query_matches argv = Ok (PatchBody args) →
  ∃ text source, parse_patch text = Ok source ∧ args_hunks args = args_hunks source ∧ args_patch args = args_patch source.
Proof using Type.
  assert (maybe_parse_shell query_matches argv = Ok (PatchBody args) →
    ∃ text source, parse_patch text = Ok source ∧ args_hunks args = args_hunks source ∧ args_patch args = args_patch source) as Hs.
  { unfold maybe_parse_shell. destruct (parse_shell_script argv) as [[shell script]|]; [|done].
    destruct (extract_apply_patch_from_shell _ shell script) as [[body workdir]|[] |]; try done.
    destruct (parse_patch body) as [source| |] eqn:E; intros [= <-]. by exists body, source. }
  unfold maybe_parse_apply_patch. destruct argv as [|cmd [|body [|]]]; auto. case_bool_decide; [|done].
  destruct (parse_patch body) as [source| |] eqn:E; intros [= <-]. by exists body, source.
Qed.
Lemma verified_body argv cwd fs action :
  maybe_parse_apply_patch_verified home_dir query_matches print_unified_diff argv cwd fs = Ok (VerifiedBody action) →
  ∃ text args, parse_patch text = Ok args ∧ patch action = args_patch args ∧
    verify_hunks home_dir print_unified_diff fs (action_cwd action) (args_hunks args) ∅ = Ok (changes action).
Proof using Type.
  unfold maybe_parse_apply_patch_verified. destruct (implicit_invocation argv); [done|].
  intros ([args|e|e|] & Hp & Hv)%bind_Ok; try done. apply maybe_parse_body in Hp as (text & source & Ht & Hh & Hpt).
  unfold verify_apply_patch_args in Hv. destruct (verify_hunks _ _ _ _ _ _) as [m| |] eqn:Em; try done. injection Hv as <-.
  exists text, source. cbn [patch changes action_cwd]. by rewrite <- Hh, <- Hpt.
Qed.
End recognised.

(** The paths that the recorded patch of an action may change. *)
Definition touched_by_patch (home_dir : option rstring) (action : ApplyPatchAction) : list path :=
  match parse_patch (patch action) with
  | Ok args => args_hunks args ≫= touched home_dir (action_cwd action)
  | _ => []
  end.

(** ** Properties *)

(** C27: what was verified is what is done.  When a command line was recognised as a
    patch and verified against the files, and the patch text that was recorded, which
    is parsed a second time when it is applied, has no carriage return
    ([second_reading_drops_a_carriage_return]) and touches no path twice
    ([later_hunk_hides_a_move]), then applying it to the same files, if it
    succeeds with an exact delta, leaves every file as the verified changes
    showed it, both files of a move included, and changes no other file. *)
Theorem approved_changes_are_applied {S W} `{FileSystemLaws S} (home_dir : option rstring)
    (query_matches : rstring → outcome ExtractHeredocError (list (list capture)))
    (print_unified_diff : rstring → rstring → rstring) (parent : path → option path) (writeln : W → rstring → W * (unit + io_error))
    (argv : list rstring) (cwd : path) (s s' : S) (out err out' err' : W) (action : ApplyPatchAction) (delta : AppliedPatchDelta) :
  maybe_parse_apply_patch_verified home_dir query_matches print_unified_diff argv cwd s = Ok (VerifiedBody action) →
  (cr ∉ patch action) →
  NoDup (touched_by_patch home_dir action) →
  apply_patch (resolve_in home_dir (action_cwd action)) parent writeln (patch action) s out err = (s', out', err', Ok delta) →
  d_exact delta = true →
  (∀ p c, changes action !! p = Some c → shows print_unified_diff p c (view s) (view s')) ∧
  (∀ q, q ∉ touched_by_patch home_dir action → view s' !! q = view s !! q).
Proof.
  intros (text & args & Ht & Hp & Hv)%verified_body Hcr Hnd Hap He. rewrite Hp in *.
  destruct (reparse _ _ Ht Hcr) as (args' & Hr & Hh & _). unfold apply_patch in Hap. unfold touched_by_patch in *.
  rewrite Hp, Hr in *. rewrite Hh in *. unfold apply_hunks in Hap.
  destruct (apply_hunks_to_files _ _ _ _) as [[s1 d1] [a|e|]] eqn:Ea; [| |done].
  2: { by destruct (writeln err (anyhow_text e)) as [? []]. }
  destruct (print_summary writeln out a) as [out1 [[]|e]]; [|done]. injection Hap as <- <- <- <-.
  unfold apply_hunks_to_files in Ea. case_bool_decide; [done|].
  edestruct hunk_loop_shows as (_ & Hshow & Hout); [exact Hnd|intros q _; exact eq_refl|exact Ea|exact He|].
  split; [|exact Hout]. intros p c Hc.
  edestruct verify_hunks_lookup as [(h & Hin & <- & Hhc)|Hacc]; [exact Hv|exact Hc|by eapply Hshow|done].
Qed.

(** A script that goes to a directory and applies a patch there: an addition,
    a deletion and an update that moves the file. *)
Definition sample_patch : list rstring :=
  [lit "*** Begin Patch"; lit "*** Add File: a"; lit "+one"; lit "*** Delete File: b";
   lit "*** Update File: c"; lit "*** Move to: d"; lit "@@"; lit "-old"; lit "+new"; lit "*** End Patch"].
Definition sample_query (script : rstring) : outcome ExtractHeredocError (list (list capture)) :=
  Ok [[(lit "cd_name", inl (lit "cd")); (lit "cd_raw_string", inl (lit "'sub'")); (lit "apply_name", inl (lit "apply_patch"));
       (lit "heredoc", inl (join_with [newline] sample_patch ++ [newline]))]].
Definition sample_argv : list rstring := [lit "/bin/bash"; lit "-lc"; lit "cd 'sub' && apply_patch <<'EOF' ..."].
Definition sample_files : mem_fs :=
  <[lit "/w/sub/b" := lit "gone"]> (<[lit "/w/sub/c" := lit "old" ++ [newline]]> (<[lit "/w/a" := lit "kept"]> ∅)).
Definition sample_diff (a b : rstring) : rstring := a ++ lit " -> " ++ b.
Definition sample_action : ApplyPatchAction :=
  match maybe_parse_apply_patch_verified None sample_query sample_diff sample_argv (lit "/w") sample_files with
  | Ok (VerifiedBody action) => action
  | _ => mk_action ∅ [] []
  end.
Definition no_output (w : unit) (line : rstring) : unit * (unit + io_error) := (w, inl ()).

Lemma approved_changes_are_applied_witness :
  changes sample_action !! lit "/w/sub/c" =
    Some (UpdateChange (lit "old" ++ [newline] ++ lit " -> new" ++ [newline]) (Some (lit "/w/sub/d")) (lit "new" ++ [newline])) ∧
  ∃ s' delta, apply_patch (resolve_in None (action_cwd sample_action)) parent no_output (patch sample_action) sample_files () () = (s', (), (), Ok delta) ∧
    (∀ p c, changes sample_action !! p = Some c → shows sample_diff p c (view sample_files) (view s')) ∧
    (∀ q, q ∉ touched_by_patch None sample_action → view s' !! q = view sample_files !! q).
Proof.
  split; [vm_compute; reflexivity|].
  pose (run := apply_patch (resolve_in None (action_cwd sample_action)) parent no_output (patch sample_action) sample_files () ()).
  assert (match run.2 with Ok delta => d_exact delta | _ => false end = true) as Hex by (vm_compute; reflexivity).
  change (∃ s' delta, run = (s', (), (), Ok delta) ∧
    (∀ p c, changes sample_action !! p = Some c → shows sample_diff p c (view sample_files) (view s')) ∧
    (∀ q, q ∉ touched_by_patch None sample_action → view s' !! q = view sample_files !! q)).
  destruct run as [[[s' []] []] [delta| |]] eqn:E; [|discriminate Hex|discriminate Hex]. exists s', delta. split; [reflexivity|].
  apply (approved_changes_are_applied None sample_query sample_diff parent no_output sample_argv (lit "/w") sample_files s' () () () ()
           sample_action delta); [vm_compute; reflexivity| | |exact E|exact Hex].
  - apply (bool_decide_unpack (cr ∉ patch sample_action)). vm_compute. exact I.
  - apply (bool_decide_unpack (NoDup (touched_by_patch None sample_action))). vm_compute. exact I.
Defined.

(** The recorded patch is its lines joined, so a carriage return that the first
    reading kept, before another one, is dropped by the second: the file is
    written without it. *)
Example second_reading_drops_a_carriage_return :
  let text := join_with [newline] [lit "*** Begin Patch"; lit "*** Add File: a"; lit "+x" ++ [cr; cr]; lit "*** End Patch"] in
  maybe_parse_apply_patch_verified None sample_query sample_diff [lit "apply_patch"; text] (lit "/w") (∅ : mem_fs) =
    Ok (VerifiedBody (mk_action {[ lit "/w/a" := AddChange (lit "x" ++ [cr; newline]) ]}
          (join_with [newline] [lit "*** Begin Patch"; lit "*** Add File: a"; lit "+x" ++ [cr]; lit "*** End Patch"]) (lit "/w"))) ∧
  args_hunks <$> parse_patch (join_with [newline] [lit "*** Begin Patch"; lit "*** Add File: a"; lit "+x" ++ [cr]; lit "*** End Patch"]) =
    Ok [AddFile (lit "a") (lit "x" ++ [newline])].
Proof. split; vm_compute; reflexivity. Qed.

(** One entry per source path: of an update that moves the file away and an
    addition in its place only the addition is kept. *)
Example later_hunk_hides_a_move :
  let text := join_with [newline] [lit "*** Begin Patch"; lit "*** Update File: c"; lit "*** Move to: /etc/d"; lit "@@"; lit "-old"; lit "+new";
                                   lit "*** Add File: c"; lit "+x"; lit "*** End Patch"] in
  maybe_parse_apply_patch_verified None sample_query sample_diff [lit "apply_patch"; text] (lit "/w")
      (<[lit "/w/c" := lit "old" ++ [newline]]> ∅ : mem_fs) =
    Ok (VerifiedBody (mk_action {[ lit "/w/c" := AddChange (lit "x" ++ [newline]) ]} text (lit "/w"))).
Proof. vm_compute. reflexivity. Qed.
