(* ===== verification/CommandSafety.v ===== *)
(** * Which commands are safe or dangerous ([shell-command/src/command_safety]:
    [is_safe_command.rs], [is_dangerous_command.rs], [windows_safe_commands.rs])

    The list of commands that run without asking, and the list of those that
    never should.  The parsers of shell scripts and of PowerShell scripts are
    parameters, and so is whether the target is Linux. *)
From S2P Require Import Prelude RustStr RustPath BashTree.

Definition one_of (ws : list String.string) (w : rstring) : bool := existsb (λ x, bool_decide (w = lit x)) ws.
Definition prefixed (p : String.string) (w : rstring) : bool := starts_with w (lit p).

(** On Unix, the name of the file. *)
Definition executable_name_lookup_key (raw : rstring) : option rstring := file_name raw.

(** ** Git *)
Definition is_git_global_option_with_value (arg : rstring) : bool :=
  one_of ["-C"; "-c"; "--config-env"; "--exec-path"; "--git-dir"; "--namespace"; "--super-prefix"; "--work-tree"]%string arg.
Definition is_git_global_option_with_inline_value (arg : rstring) : bool :=
  existsb (λ p, prefixed p arg)
    ["--config-env="; "--exec-path="; "--git-dir="; "--namespace="; "--super-prefix="; "--work-tree="]%string
  || ((prefixed "-C" arg || prefixed "-c" arg) && (2 <? length arg)).

(** The loop over the arguments; [idx] is the position of the next one. *)
Fixpoint find_subcommand (subcommands : list String.string) (idx : nat) (skip_next : bool) (args : list rstring) : option (nat * rstring) :=
  match args with
  | [] => None
  | arg :: rest =>
      if skip_next then find_subcommand subcommands (S idx) false rest
      else if is_git_global_option_with_inline_value arg then find_subcommand subcommands (S idx) false rest
      else if is_git_global_option_with_value arg then find_subcommand subcommands (S idx) true rest
      else if bool_decide (arg = lit "--") || prefixed "-" arg then find_subcommand subcommands (S idx) false rest
      else if one_of subcommands arg then Some (idx, arg)
      else None
  end.
Definition find_git_subcommand (command : list rstring) (subcommands : list String.string) : option (nat * rstring) :=
  cmd0 ← head command;
  if bool_decide (executable_name_lookup_key cmd0 = Some (lit "git")) then find_subcommand subcommands 1 false (tail command) else None.

Inductive GitOptionPattern := Exact (o : String.string) | ShortWithInlineValue (o : String.string) | Prefix (o : String.string).
Definition pattern_matches (p : GitOptionPattern) (arg : rstring) : bool :=
  match p with
  | Exact o => bool_decide (arg = lit o)
  | ShortWithInlineValue o => prefixed o arg && (length (lit o) <? length arg)
  | Prefix o => prefixed o arg
  end.
Definition UNSAFE_GIT_GLOBAL_OPTIONS : list GitOptionPattern :=
  [Exact "-C"; ShortWithInlineValue "-C"; Exact "-c"; ShortWithInlineValue "-c"; Exact "-p";
   Exact "--config-env"; Prefix "--config-env="; Exact "--exec-path"; Prefix "--exec-path=";
   Exact "--git-dir"; Prefix "--git-dir="; Exact "--namespace"; Prefix "--namespace="; Exact "--paginate";
   Exact "--super-prefix"; Prefix "--super-prefix="; Exact "--work-tree"; Prefix "--work-tree="].
Definition UNSAFE_GIT_SUBCOMMAND_OPTIONS : list GitOptionPattern :=
  [Exact "--output"; Prefix "--output="; Exact "--ext-diff"; Exact "--textconv"; Exact "--exec"; Prefix "--exec="].
Definition git_matches_option_pattern (arg : rstring) (patterns : list GitOptionPattern) : bool :=
  existsb (λ p, pattern_matches p arg) patterns.
Definition git_has_unsafe_global_option (global_args : list rstring) : bool :=
  existsb (λ arg, git_matches_option_pattern arg UNSAFE_GIT_GLOBAL_OPTIONS) global_args.
Definition git_subcommand_args_are_read_only (args : list rstring) : bool :=
  negb (existsb (λ arg, git_matches_option_pattern arg UNSAFE_GIT_SUBCOMMAND_OPTIONS) args).

Definition branch_query_flag (arg : rstring) : bool :=
  one_of ["--list"; "-l"; "--show-current"; "-a"; "--all"; "-r"; "--remotes"; "-v"; "-vv"; "--verbose"]%string arg
  || prefixed "--format=" arg.
Fixpoint branch_flags (saw_read_only_flag : bool) (args : list rstring) : bool :=
  match args with
  | [] => saw_read_only_flag
  | arg :: rest => if branch_query_flag arg then branch_flags true rest else false
  end.
Definition git_branch_is_read_only (branch_args : list rstring) : bool :=
  match branch_args with [] => true | _ => branch_flags false branch_args end.

Definition is_safe_git_command (command : list rstring) : bool :=
  match find_git_subcommand command ["status"; "log"; "diff"; "show"; "branch"]%string with
  | None => false
  | Some (subcommand_idx, subcommand) =>
      let global_args := take (subcommand_idx - 1) (drop 1 command) in
      if git_has_unsafe_global_option global_args then false
      else
        let subcommand_args := drop (S subcommand_idx) command in
        if one_of ["status"; "log"; "diff"; "show"]%string subcommand then git_subcommand_args_are_read_only subcommand_args
        else if bool_decide (subcommand = lit "branch")
        then git_subcommand_args_are_read_only subcommand_args && git_branch_is_read_only subcommand_args
        else false
  end.

(** ** The other commands *)
Definition number (s : rstring) : bool := negb (bool_decide (s = [])) && forallb is_ascii_digit s.
Definition is_valid_sed_n_arg (arg : option rstring) : bool :=
  match arg ≫= strip_suffix (lit "p") with
  | None => false
  | Some core =>
      match split (chr ",") core with
      | [num] => number num
      | [a; b] => number a && number b
      | _ => false
      end
  end.
Definition UNSAFE_FIND_OPTIONS : list String.string :=
  ["-exec"; "-execdir"; "-ok"; "-okdir"; "-delete"; "-fls"; "-fprint"; "-fprint0"; "-fprintf"]%string.
Definition UNSAFE_RIPGREP_OPTIONS_WITH_ARGS : list String.string := ["--pre"; "--hostname-bin"]%string.
Definition UNSAFE_RIPGREP_OPTIONS_WITHOUT_ARGS : list String.string := ["--search-zip"; "-z"]%string.
Definition unsafe_ripgrep_option (arg : rstring) : bool :=
  one_of UNSAFE_RIPGREP_OPTIONS_WITHOUT_ARGS arg
  || existsb (λ opt, bool_decide (arg = lit opt) || starts_with arg (lit opt ++ lit "=")) UNSAFE_RIPGREP_OPTIONS_WITH_ARGS.
Definition unsafe_base64_option (arg : rstring) : bool :=
  one_of ["-o"; "--output"]%string arg || prefixed "--output=" arg || (prefixed "-o" arg && negb (bool_decide (arg = lit "-o"))).
Definition SAFE_COMMANDS : list String.string :=
  ["cat"; "cd"; "cut"; "echo"; "expr"; "false"; "grep"; "head"; "id"; "ls"; "nl"; "paste"; "pwd"; "rev"; "seq"; "stat";
   "tail"; "tr"; "true"; "uname"; "uniq"; "wc"; "which"; "whoami"]%string.

Section safety.
Context (linux : bool).

Definition is_safe_to_call_with_exec (command : list rstring) : bool :=
  match head command ≫= executable_name_lookup_key with
  | None => false
  | Some cmd =>
      if linux && one_of ["numfmt"; "tac"]%string cmd then true
      else if one_of SAFE_COMMANDS cmd then true
      else if bool_decide (cmd = lit "base64") then negb (existsb unsafe_base64_option (drop 1 command))
      else if bool_decide (cmd = lit "find") then negb (existsb (one_of UNSAFE_FIND_OPTIONS) command)
      else if bool_decide (cmd = lit "rg") then negb (existsb unsafe_ripgrep_option command)
      else if bool_decide (cmd = lit "git") then is_safe_git_command command
      else if bool_decide (cmd = lit "sed") then
        (length command <=? 4) && bool_decide (command !! 1 = Some (lit "-n")) && is_valid_sed_n_arg (command !! 2)
      else false
  end.

(** ** PowerShell *)
Inductive PowershellParseOutcome := Commands (commands : list (list rstring)) | Unsupported | Failed.
Context (parse_with_powershell_ast : rstring → rstring → PowershellParseOutcome).

Definition is_powershell_executable (exe : rstring) : bool :=
  one_of ["powershell"; "powershell.exe"; "pwsh"; "pwsh.exe"]%string (to_ascii_lowercase (default exe (file_name exe))).
(** [str::replace] of a single character. *)
Definition replace_char (c : char) (t : rstring) (s : rstring) : rstring := s ≫= λ x, if decide (x = c) then t else [x].
Definition quote_argument (arg : rstring) : rstring :=
  if bool_decide (arg = []) then lit "''"
  else if forallb (λ c, negb (is_whitespace c)) arg then arg
  else lit "'" ++ replace_char single_quote (lit "''") arg ++ lit "'".
Definition join_arguments_as_script (args : list rstring) : rstring :=
  match args with
  | [] => []
  | first :: rest => join_with (lit " ") (first :: (quote_argument <$> rest))
  end.
Definition parse_powershell_script (executable script : rstring) : option (list (list rstring)) :=
  match parse_with_powershell_ast executable script with Commands commands => Some commands | _ => None end.
(** The part after the first colon. *)
Fixpoint after_colon (s : rstring) : option rstring :=
  match s with [] => None | c :: t => if (c =? chr ":")%N then Some t else after_colon t end.
Fixpoint parse_powershell_invocation (executable : rstring) (args : list rstring) : option (list (list rstring)) :=
  match args with
  | [] => None
  | arg :: rest =>
      let lower := to_ascii_lowercase arg in
      if one_of ["-command"; "/command"; "-c"]%string lower then
        match rest with [script] => parse_powershell_script executable script | _ => None end
      else if prefixed "-command:" lower || prefixed "/command:" lower then
        match rest with
        | [] => script ← after_colon arg; parse_powershell_script executable script
        | _ => None
        end
      else if one_of ["-nologo"; "-noprofile"; "-noninteractive"; "-mta"; "-sta"]%string lower
      then parse_powershell_invocation executable rest
      else if one_of ["-encodedcommand"; "-ec"; "-file"; "/file"; "-windowstyle"; "-executionpolicy"; "-workingdirectory"]%string lower
      then None
      else if prefixed "-" lower then None
      else parse_powershell_script executable (join_arguments_as_script args)
  end.
Definition try_parse_powershell_command_sequence (command : list rstring) : option (list (list rstring)) :=
  match command with
  | [] => None
  | exe :: rest => if is_powershell_executable exe then parse_powershell_invocation exe rest else None
  end.

Definition is_paren (c : char) : bool := bool_decide (c = chr "(") || bool_decide (c = chr ")").
Definition cmdlet_name (w : rstring) : rstring :=
  to_ascii_lowercase (trim_start_matches (λ c, bool_decide (c = chr "-")) (trim_end_matches is_paren (trim_start_matches is_paren w))).
Definition SIDE_EFFECTS : list String.string :=
  ["set-content"; "add-content"; "out-file"; "new-item"; "remove-item"; "move-item"; "copy-item"; "rename-item";
   "start-process"; "stop-process"]%string.
Definition READ_ONLY_CMDLETS : list String.string :=
  ["echo"; "write-output"; "write-host"; "dir"; "ls"; "get-childitem"; "gci"; "cat"; "type"; "gc"; "get-content";
   "select-string"; "sls"; "findstr"; "measure-object"; "measure"; "get-location"; "gl"; "pwd"; "test-path"; "tp";
   "resolve-path"; "rvpa"; "select-object"; "select"; "get-item"]%string.
Definition is_safe_ripgrep (words : list rstring) : bool :=
  negb (existsb (λ arg, unsafe_ripgrep_option (to_ascii_lowercase arg)) (drop 1 words)).
Definition is_safe_powershell_words (words : list rstring) : bool :=
  match words with
  | [] => false
  | w0 :: _ =>
      if existsb (λ w, one_of SIDE_EFFECTS (cmdlet_name w)) words then false
      else if one_of READ_ONLY_CMDLETS (cmdlet_name w0) then true
      else if bool_decide (cmdlet_name w0 = lit "git") then is_safe_git_command words
      else if bool_decide (cmdlet_name w0 = lit "rg") then is_safe_ripgrep words
      else false
  end.
Definition is_safe_command_windows (command : list rstring) : bool :=
  match try_parse_powershell_command_sequence command with
  | Some commands => forallb is_safe_powershell_words commands
  | None => false
  end.

(** ** Both classifiers *)
Context (try_parse_shell : rstring → option Tree).

Definition zsh_as_bash (s : rstring) : rstring := if bool_decide (s = lit "zsh") then lit "bash" else s.
Definition is_known_safe_command (command : list rstring) : bool :=
  let command := zsh_as_bash <$> command in
  if is_safe_command_windows command then true
  else if is_safe_to_call_with_exec command then true
  else match parse_shell_lc_plain_commands try_parse_shell command with
  | Some all_commands => negb (bool_decide (all_commands = [])) && forallb is_safe_to_call_with_exec all_commands
  | None => false
  end.

Fixpoint is_dangerous_to_call_with_exec (command : list rstring) : bool :=
  match command with
  | [] => false
  | cmd0 :: rest =>
      if bool_decide (cmd0 = lit "rm") then bool_decide (head rest = Some (lit "-f")) || bool_decide (head rest = Some (lit "-rf"))
      else if bool_decide (cmd0 = lit "sudo") then is_dangerous_to_call_with_exec rest
      else false
  end.
Definition command_might_be_dangerous (command : list rstring) : bool :=
  if is_dangerous_to_call_with_exec command then true
  else match parse_shell_lc_plain_commands try_parse_shell command with
  | Some all_commands => existsb is_dangerous_to_call_with_exec all_commands
  | None => false
  end.
End safety.

(** ** Lemmas: words and names *)
Lemma one_of_spec ws w : one_of ws w = true ↔ ∃ x, x ∈ ws ∧ w = lit x.
Proof.
  unfold one_of. rewrite existsb_exists. setoid_rewrite <- list_elem_of_In. split.
  - intros (x & Hx & Hw%bool_decide_eq_true). eauto.
  - intros (x & Hx & ->). exists x. split; [done|]. by apply bool_decide_eq_true.
Qed.
Lemma prefixed_spec p w : prefixed p w = true ↔ ∃ t, w = lit p ++ t.
Proof. unfold prefixed. rewrite starts_with_spec. reflexivity. Qed.
Lemma existsb_negb_Forall {A} (f : A → bool) l : negb (existsb f l) = true ↔ Forall (λ x, f x = false) l.
Proof.
  induction l as [|x l IH]; cbn; [split; [constructor|done]|]. rewrite Forall_cons, <- IH.
  destruct (f x), (existsb f l); cbn; naive_solver.
Qed.

(** ** Lemmas: git *)
Definition unsafe_global (g : rstring) : bool := git_matches_option_pattern g UNSAFE_GIT_GLOBAL_OPTIONS.
Definition dashed (g : rstring) : Prop := prefixed "-" g = true.
(** What holds of every word of a list, by evaluation, holds of a word that is one of them. *)
Lemma one_of_all (f : rstring → bool) ws w : forallb (λ x, f (lit x)) ws = true → one_of ws w = true → f w = true.
Proof.
  rewrite forallb_forall. intros Hf (x & Hx & ->)%one_of_spec. by apply Hf, list_elem_of_In.
Qed.
Lemma one_of_none (f : rstring → bool) ws w : forallb (λ x, negb (f (lit x))) ws = true → one_of ws w = true → f w = false.
Proof. intros H Hw. apply negb_true_iff. by apply (one_of_all (λ w, negb (f w)) ws). Qed.
Lemma pattern_unsafe (g : rstring) p ps : existsb (λ q, match q, p with
    | Exact a, Exact b | ShortWithInlineValue a, ShortWithInlineValue b | Prefix a, Prefix b => String.eqb a b
    | _, _ => false end) ps = true → pattern_matches p g = true → git_matches_option_pattern g ps = true.
Proof.
  intros (q & Hq & He)%existsb_exists Hm. apply existsb_exists. exists q. split; [done|].
  destruct q, p; try done; by apply String.eqb_eq in He as ->.
Qed.
Lemma with_value_unsafe g : is_git_global_option_with_value g = true → unsafe_global g = true.
Proof. by apply one_of_all. Qed.
Lemma inline_value_unsafe g : is_git_global_option_with_inline_value g = true → unsafe_global g = true ∧ dashed g.
Proof.
  unfold is_git_global_option_with_inline_value, unsafe_global, dashed. intros H.
  cbn [existsb] in H. rewrite !orb_true_iff, andb_true_iff, orb_true_iff, Nat.ltb_lt in H.
  assert (∀ p, prefixed (String "-" p) g = true → prefixed "-" g = true) as Hd.
  { intros p (t & ->)%prefixed_spec. apply prefixed_spec. by exists (lit p ++ t). }
  assert (∀ p q, prefixed (String "-" p) g = true → q = Prefix (String "-" p) →
    existsb (λ r, match r, q with Prefix a, Prefix b => String.eqb a b | _, _ => false end) UNSAFE_GIT_GLOBAL_OPTIONS = true →
    git_matches_option_pattern g UNSAFE_GIT_GLOBAL_OPTIONS = true ∧ prefixed "-" g = true) as Hp.
  { intros p q Hg -> Hq. split; [|by eapply Hd]. eapply (pattern_unsafe _ (Prefix _)); [|exact Hg].
    apply existsb_exists in Hq as (r & ? & ?). apply existsb_exists. exists r. by destruct r. }
  destruct H as [H|[[H|H] Hl]].
  - repeat (destruct H as [H|H]; [by eapply Hp|]). done.
  - split; [|by eapply Hd]. apply (pattern_unsafe _ (ShortWithInlineValue "-C")); [done|]. cbn [pattern_matches]. rewrite H. by apply Nat.ltb_lt.
  - split; [|by eapply Hd]. apply (pattern_unsafe _ (ShortWithInlineValue "-c")); [done|]. cbn [pattern_matches]. rewrite H. by apply Nat.ltb_lt.
Qed.

(** The options before the subcommand are flags that take no value of their own. *)
Definition global_flag (g : rstring) : Prop := dashed g ∧ unsafe_global g = false.
Lemma find_subcommand_sound subs idx args i sub :
  find_subcommand subs idx false args = Some (i, sub) →
  ∃ globals rest, args = globals ++ sub :: rest ∧ i = idx + length globals ∧ one_of subs sub = true ∧
    (Forall (λ g, unsafe_global g = false) globals → Forall global_flag globals).
Proof.
  enough (∀ skip, find_subcommand subs idx skip args = Some (i, sub) →
    ∃ globals rest, args = globals ++ sub :: rest ∧ i = idx + length globals ∧ one_of subs sub = true ∧
      (skip = false → Forall (λ g, unsafe_global g = false) globals → Forall global_flag globals)) as H.
  { intros (globals & rest & ? & ? & ? & ?)%H. exists globals, rest. auto. }
  revert idx. induction args as [|arg args IH]; intros idx skip; cbn [find_subcommand]; [done|].
  assert (∀ skip', find_subcommand subs (S idx) skip' args = Some (i, sub) →
    (skip = false → unsafe_global arg = false → skip' = false ∧ dashed arg) →
    ∃ globals rest, arg :: args = globals ++ sub :: rest ∧ i = idx + length globals ∧ one_of subs sub = true ∧
      (skip = false → Forall (λ g, unsafe_global g = false) globals → Forall global_flag globals)) as Hstep.
  { intros skip' (globals & rest & -> & -> & Hs & Hf)%IH Hd. exists (arg :: globals), rest. cbn [length].
    split_and!; [done|lia|done|]. intros Hskip [Hu Hg]%Forall_cons. destruct (Hd Hskip Hu). constructor; [done|auto]. }
  destruct skip; [intros H; by eapply Hstep|].
  destruct (is_git_global_option_with_inline_value arg) eqn:Hi.
  { intros H. eapply Hstep; [exact H|]. apply inline_value_unsafe in Hi as [? ?]. congruence. }
  destruct (is_git_global_option_with_value arg) eqn:Hv.
  { intros H. eapply Hstep; [exact H|]. apply with_value_unsafe in Hv. congruence. }
  destruct (bool_decide _ || _) eqn:Hd.
  { intros H. eapply Hstep; [exact H|]. intros _ _. split; [done|]. apply orb_true_iff in Hd as [->%bool_decide_eq_true|]; done. }
  destruct (one_of subs arg) eqn:Ho; [|done]. intros [= <- <-]. exists [], args. cbn. split_and!; [done|lia|done|constructor].
Qed.
Lemma find_subcommand_complete subs idx globals sub rest :
  Forall global_flag globals → one_of subs sub = true → prefixed "-" sub = false →
  find_subcommand subs idx false (globals ++ sub :: rest) = Some (idx + length globals, sub).
Proof.
  intros Hg Hs Hd. revert idx. induction Hg as [|g globals [Hg Hu] _ IH]; intros idx; cbn [app find_subcommand length].
  - destruct (is_git_global_option_with_inline_value sub) eqn:Hi; [apply inline_value_unsafe in Hi as [_ Hi]; unfold dashed in Hi; congruence|].
    destruct (is_git_global_option_with_value sub) eqn:Hv.
    { apply (one_of_all (prefixed "-")) in Hv; [congruence|done]. }
    rewrite bool_decide_eq_false_2; [|intros ->; by vm_compute in Hd]. rewrite Hd, Hs. do 2 f_equal. lia.
  - destruct (is_git_global_option_with_inline_value g) eqn:Hi; [apply inline_value_unsafe in Hi; destruct Hi; congruence|].
    destruct (is_git_global_option_with_value g) eqn:Hv; [apply with_value_unsafe in Hv; congruence|].
    rewrite Hg, orb_true_r, IH. do 2 f_equal. lia.
Qed.

(** A git command that can only read: flags without a value, a subcommand of
    the list, no option that writes a file or runs a program; [branch] only
    with flags that query. *)
Definition GIT_SUBCOMMANDS : list String.string := ["status"; "log"; "diff"; "show"; "branch"]%string.
Definition read_only_git (command : list rstring) : Prop :=
  ∃ git0 globals sub args, command = git0 :: globals ++ sub :: args ∧ file_name git0 = Some (lit "git") ∧
    Forall global_flag globals ∧ one_of GIT_SUBCOMMANDS sub = true ∧
    Forall (λ a, git_matches_option_pattern a UNSAFE_GIT_SUBCOMMAND_OPTIONS = false) args ∧
    (sub = lit "branch" → Forall (λ a, branch_query_flag a = true) args).
Lemma branch_flags_spec saw args : branch_flags saw args = true ↔ Forall (λ a, branch_query_flag a = true) args ∧ (args = [] → saw = true).
Proof.
  revert saw. induction args as [|a args IH]; intros saw; cbn [branch_flags].
  - split; [intros ->; by split|]. intros [_ H]. auto.
  - rewrite Forall_cons. destruct (branch_query_flag a); [|naive_solver]. rewrite IH. naive_solver.
Qed.
Lemma branch_read_only_spec args : git_branch_is_read_only args = true ↔ Forall (λ a, branch_query_flag a = true) args.
Proof.
  destruct args as [|a args]; [by split; [constructor|]|]. unfold git_branch_is_read_only. rewrite branch_flags_spec. naive_solver.
Qed.
Lemma git_positions {A} (g0 : A) globals sub rest :
  take (1 + length globals - 1) (drop 1 (g0 :: globals ++ sub :: rest)) = globals ∧
  drop (S (1 + length globals)) (g0 :: globals ++ sub :: rest) = rest.
Proof.
  split.
  - replace (1 + length globals - 1) with (length globals) by lia. cbn [drop]. rewrite drop_0. apply take_app_length.
  - change (S (1 + length globals)) with (S (S (length globals))). cbn [drop]. rewrite drop_app_ge by lia.
    by replace (S (length globals) - length globals) with 1 by lia.
Qed.
Lemma git_spec command : is_safe_git_command command = true ↔ read_only_git command.
Proof.
  unfold is_safe_git_command, find_git_subcommand, executable_name_lookup_key, git_subcommand_args_are_read_only, git_has_unsafe_global_option. split.
  - destruct command as [|git0 tl]; cbn [head mbind option_bind tail]; [done|]. case_bool_decide as Hg; [|done].
    destruct (find_subcommand _ 1 false tl) as [[i sub]|] eqn:Hf; [|done].
    apply find_subcommand_sound in Hf as (globals & rest & -> & -> & Hs & Hfl).
    destruct (git_positions git0 globals sub rest) as [-> ->].
    destruct (existsb _ globals) eqn:Hu; [done|]. apply negb_true_iff, existsb_negb_Forall in Hu. intros H.
    exists git0, globals, sub, rest. split_and!; [done|done|by apply Hfl|done|..].
    + destruct (one_of [_; _; _; _] sub); [by apply existsb_negb_Forall|]. case_bool_decide; [|done].
      apply andb_true_iff in H as [H _]. by apply existsb_negb_Forall.
    + intros ->. change (one_of _ (lit "branch")) with false in H. rewrite bool_decide_eq_true_2 in H by done.
      apply andb_true_iff in H as [_ H]. by apply branch_read_only_spec.
  - intros (git0 & globals & sub & args & -> & Hg & Hf & Hs & Hu & Hb). cbn [head mbind option_bind tail].
    rewrite bool_decide_eq_true_2 by done. rewrite find_subcommand_complete; [|done|done|by eapply one_of_none; [|exact Hs]].
    destruct (git_positions git0 globals sub args) as [-> ->]. replace (existsb _ globals) with false.
    2: { symmetry. apply negb_true_iff, existsb_negb_Forall. eapply Forall_impl; [exact Hf|]. by intros x [_ ?]. }
    apply existsb_negb_Forall in Hu. rewrite Hu. destruct (one_of [_; _; _; _] sub) eqn:Ho; [done|].
    assert (sub = lit "branch") as ->.
    { unfold GIT_SUBCOMMANDS, one_of in Hs, Ho. cbn [existsb] in Hs, Ho. repeat case_bool_decide; done. }
    rewrite bool_decide_eq_true_2 by done. by apply branch_read_only_spec, Hb.
Qed.

(** ** Lemmas: the other commands *)
(** [N p] or [N,M p]. *)
Definition sed_print (script : rstring) : Prop :=
  ∃ a, number a = true ∧ (script = a ++ lit "p" ∨ ∃ b, number b = true ∧ script = a ++ chr "," :: b ++ lit "p").
Lemma number_no_comma a : number a = true → chr "," ∉ a.
Proof.
  unfold number. rewrite andb_true_iff, forallb_forall. intros [_ H] Hin%list_elem_of_In. by apply H in Hin.
Qed.
Lemma valid_sed_spec script : is_valid_sed_n_arg (Some script) = true ↔ sed_print script.
Proof.
  unfold is_valid_sed_n_arg, sed_print. cbn [mbind option_bind]. split.
  - destruct (strip_suffix (lit "p") script) as [core|] eqn:Hp; [|done]. apply strip_suffix_Some in Hp as ->.
    pose proof (join_split (chr ",") core) as Hj. destruct (split (chr ",") core) as [|a [|b [|c l]]]; try done; cbn [join_with] in Hj; subst core.
    + intros H. exists a. auto.
    + intros [Ha Hb]%andb_true_iff. exists a. split; [done|]. right. exists b. split; [done|]. by rewrite <- app_assoc.
  - intros (a & Ha & [->|(b & Hb & ->)]).
    + rewrite (proj2 (strip_suffix_Some (lit "p") _ a)) by done. by rewrite split_none by by apply number_no_comma.
    + rewrite (proj2 (strip_suffix_Some (lit "p") _ (a ++ chr "," :: b))) by (by rewrite <- app_assoc).
      rewrite split_app, !split_none by by apply number_no_comma. cbn [app]. by rewrite Ha, Hb.
Qed.

(** What makes a command with the program [name] safe. *)
Definition safe_with (linux : bool) (name : rstring) (command : list rstring) : Prop :=
  (linux = true ∧ one_of ["numfmt"; "tac"]%string name = true) ∨
  one_of SAFE_COMMANDS name = true ∨
  (name = lit "base64" ∧ Forall (λ a, unsafe_base64_option a = false) (drop 1 command)) ∨
  (name = lit "find" ∧ Forall (λ a, one_of UNSAFE_FIND_OPTIONS a = false) command) ∨
  (name = lit "rg" ∧ Forall (λ a, unsafe_ripgrep_option a = false) command) ∨
  (name = lit "git" ∧ read_only_git command) ∨
  (name = lit "sed" ∧ ∃ script files, drop 1 command = lit "-n" :: script :: files ∧ length files ≤ 1 ∧ sed_print script).

Lemma sed_args_spec (command : list rstring) :
  (length command <=? 4) && bool_decide (command !! 1 = Some (lit "-n")) && is_valid_sed_n_arg (command !! 2) = true ↔
  ∃ script files, drop 1 command = lit "-n" :: script :: files ∧ length files ≤ 1 ∧ sed_print script.
Proof.
  rewrite !andb_true_iff, Nat.leb_le, bool_decide_eq_true. split.
  - destruct command as [|c [|n [|script files]]]; cbn; [naive_solver..|]. intros [[Hl [= ->]] Hs].
    exists script, files. split_and!; [by rewrite ?drop_0|lia|by apply valid_sed_spec].
  - intros (script & files & Hd & Hl & Hs). destruct command as [|c command]; [done|]. cbn in Hd. rewrite ?drop_0 in Hd. subst command.
    cbn. split_and!; [lia|done|by apply valid_sed_spec].
Qed.

Ltac pick_program :=
  match goal with |- context [one_of SAFE_COMMANDS (lit ?x)] =>
    change (one_of SAFE_COMMANDS (lit x)) with false; change (one_of ["numfmt"; "tac"]%string (lit x)) with false end;
  rewrite andb_false_r; repeat rewrite bool_decide_eq_false_2 by done; rewrite bool_decide_eq_true_2 by done.
Lemma exec_spec linux command :
  is_safe_to_call_with_exec linux command = true ↔
  ∃ name, head command ≫= file_name = Some name ∧ safe_with linux name command.
Proof.
  unfold is_safe_to_call_with_exec, executable_name_lookup_key. unfold safe_with.
  destruct (head command ≫= file_name) as [name|]; [|split; [done|by intros (? & ? & _)]]. split.
  - intros H. exists name. split; [done|]. destruct (linux && _) eqn:Hn; [left; by apply andb_true_iff|].
    destruct (one_of SAFE_COMMANDS name); [auto|].
    case_bool_decide; [apply existsb_negb_Forall in H; auto 20|]. case_bool_decide; [apply existsb_negb_Forall in H; auto 20|].
    case_bool_decide; [apply existsb_negb_Forall in H; auto 20|]. case_bool_decide; [apply git_spec in H; auto 20|].
    case_bool_decide; [apply sed_args_spec in H; auto 20|done].
  - intros (? & [= <-] & H). destruct H as [[-> ->]|[Hs|[[-> H]|[[-> H]|[[-> H]|[[-> H]|[-> H]]]]]]].
    + done.
    + rewrite Hs. by destruct (linux && _).
    + pick_program. by apply existsb_negb_Forall.
    + pick_program. by apply existsb_negb_Forall.
    + pick_program. by apply existsb_negb_Forall.
    + pick_program. by apply git_spec.
    + pick_program. by apply sed_args_spec.
Qed.

(** ** Lemmas: safe commands run no shell *)
Definition harmless_name (name : rstring) : bool :=
  negb (bool_decide (dot ∈ name)) && bool_decide (shell_name name = None) && negb (one_of ["rm"; "sudo"]%string name).
Lemma safe_with_harmless linux name command : safe_with linux name command → harmless_name name = true.
Proof.
  intros [[_ H]|[H|H]]; [by eapply one_of_all; [|exact H]..|].
  by repeat (destruct H as [[-> _]|H]; [done|]); destruct H as [-> _].
Qed.
Lemma exec_safe_detect linux command shell :
  is_safe_to_call_with_exec linux command = true → head command = Some shell → detect_shell_type shell = Ok None.
Proof.
  intros (name & Hn & Hs)%exec_spec Hh. rewrite Hh in Hn. cbn in Hn. apply safe_with_harmless in Hs.
  unfold harmless_name in Hs. rewrite !andb_true_iff, negb_true_iff, bool_decide_eq_false, bool_decide_eq_true in Hs.
  destruct Hs as [[Hd Hname] _]. by apply (detect_plain_name shell name).
Qed.
Lemma not_rm_or_sudo cmd0 rest : one_of ["rm"; "sudo"]%string cmd0 = false → is_dangerous_to_call_with_exec (cmd0 :: rest) = false.
Proof. unfold one_of. cbn [existsb is_dangerous_to_call_with_exec]. repeat case_bool_decide; done. Qed.
Lemma exec_safe_head linux cmd0 args :
  is_safe_to_call_with_exec linux (cmd0 :: args) = true → one_of ["rm"; "sudo"]%string cmd0 = false.
Proof.
  intros (name & Hn & Hs)%exec_spec. apply safe_with_harmless in Hs. cbn in Hn. apply not_true_iff_false. intros Hc.
  assert (file_name cmd0 = Some cmd0) as Hf.
  { pose proof Hc as (x & Hx & ->)%one_of_spec. rewrite !elem_of_cons, elem_of_nil in Hx. by destruct Hx as [->|[->|[]]]. }
  assert (name = cmd0) as -> by congruence. unfold harmless_name in Hs. by rewrite Hc, andb_false_r in Hs.
Qed.
Lemma exec_safe_not_dangerous linux command :
  is_safe_to_call_with_exec linux command = true → is_dangerous_to_call_with_exec command = false.
Proof. destruct command as [|cmd0 args]; [done|]. intros H%exec_safe_head. by apply not_rm_or_sudo. Qed.

Definition POWERSHELL_NAMES : list String.string := ["powershell"; "powershell.exe"; "pwsh"; "pwsh.exe"]%string.
Lemma lowercase_dot (s : rstring) : dot ∈ to_ascii_lowercase s → dot ∈ s.
Proof.
  intros (c & Hc & Hin)%list_elem_of_fmap. revert Hc. unfold to_ascii_lowercase_char, dot, chr. cbn.
  destruct ((65 <=? c) && (c <=? 90))%N eqn:E; [|by intros ->]. apply andb_true_iff in E as [?%N.leb_le ?%N.leb_le]. lia.
Qed.
(** The stem of a PowerShell name is one, and so is its own name. *)
Lemma powershell_stem p f s :
  file_name p = Some f → one_of POWERSHELL_NAMES (to_ascii_lowercase f) = true → file_stem p = Some s →
  file_name s = Some s ∧ one_of POWERSHELL_NAMES (to_ascii_lowercase s) = true.
Proof.
  intros Hf Hl Hs. pose proof (file_name_segment p f Hf) as [_ Hseg]. unfold file_stem in Hs. rewrite Hf in Hs. cbn [fmap option_fmap option_map] in Hs.
  destruct (decide (dot ∈ f)) as [Hd|Hd].
  2: { rewrite split_none in Hs by done. cbn in Hs. injection Hs as <-. split; [by apply segment_file_name|done]. }
  assert (∃ n, to_ascii_lowercase f = lit n ++ lit ".exe" ∧ one_of POWERSHELL_NAMES (lit n) = true ∧ (dot ∉ lit n) ∧ lit n ≠ []) as (n & Hn & Ho & Hdn & Hne).
  { apply one_of_spec in Hl as (x & Hx & Hw).
    assert (dot ∈ lit x) as Hdx.
    { rewrite <- Hw. apply list_elem_of_fmap. by exists dot. }
    unfold POWERSHELL_NAMES in Hx. rewrite !elem_of_cons, elem_of_nil in Hx.
    destruct Hx as [->|[->|[->|[->|[]]]]]; try (by apply (bool_decide_pack _) in Hdx);
      [exists "powershell"%string|exists "pwsh"%string]; (split_and!; [done|done|by apply (bool_decide_unpack _)|done]). }
  apply fmap_app_inv in Hn as (a & b & Ha & Hb & ->).
  assert (∃ c, b = dot :: c ∧ dot ∉ c) as (c & -> & Hc).
  { destruct b as [|d c]; [done|]. cbn in Hb. injection Hb as Hd1 Hc. exists c. split.
    - f_equal. assert (dot ∈ [d]) as ->%list_elem_of_singleton; [|done]. apply lowercase_dot. cbn. rewrite <- Hd1. left.
    - intros Hin. assert (dot ∈ lit "exe") as Hbad; [|by apply (bool_decide_pack _) in Hbad].
      change (lit "exe") with (N_of_ascii <$> String.list_ascii_of_string "exe"). cbn. rewrite Hc. apply list_elem_of_fmap. by exists dot. }
  assert (dot ∉ a) as Hda. { intros Hin. apply Hdn. rewrite Ha. apply list_elem_of_fmap. by exists dot. }
  rewrite split_app, !split_none in Hs by done. cbn in Hs. rewrite bool_decide_eq_false_2 in Hs by (intros ->; cbn in Ha; congruence).
  injection Hs as <-. unfold to_ascii_lowercase. rewrite <- Ha. split; [|done].
  apply segment_file_name. destruct Hseg as (_ & Hsl & _). split_and!.
  - intros ->. cbn in Ha. congruence.
  - intros Hin. apply Hsl, elem_of_app. by left.
  - intros ->. apply Hda. left.
  - intros ->. apply Hda. left.
Qed.
Lemma powershell_own p f t :
  file_name p = Some f → one_of POWERSHELL_NAMES (to_ascii_lowercase f) = true → shell_name p = Some t → t = PowerShell.
Proof.
  intros Hf Hl Hsn. pose proof (shell_name_own p t Hsn). assert (f = p) as -> by congruence. unfold shell_name in Hsn.
  repeat (match type of Hsn with (if bool_decide ?P then _ else _) = _ => destruct (bool_decide_reflect P) as [Hc|_] end;
          [rewrite Hc in Hl; first [by vm_compute in Hl|by injection Hsn as <-]|]). done.
Qed.
Lemma detect_powershell fuel p f :
  file_name p = Some f → one_of POWERSHELL_NAMES (to_ascii_lowercase f) = true →
  ∀ t, detect_shell_type_fuel fuel p = Ok (Some t) → t = PowerShell.
Proof.
  revert p f. induction fuel as [|fuel IH]; intros p f Hf Hl t; cbn [detect_shell_type_fuel];
    (destruct (shell_name p) as [t'|] eqn:Hsn; [intros [= <-]; by apply (powershell_own p f)|]);
    (destruct (file_stem p) as [s|] eqn:Hs; [|done]); (case_bool_decide; [done|]); [done|].
  destruct (powershell_stem p f s Hf Hl Hs) as [Hss Hsl]. by apply (IH s s).
Qed.

Lemma powershell_file_name exe :
  is_powershell_executable exe = true → ∃ f, file_name exe = Some f ∧ one_of POWERSHELL_NAMES (to_ascii_lowercase f) = true.
Proof.
  unfold is_powershell_executable. destruct (file_name exe) as [f|] eqn:Hf; cbn [default from_option id]; [eauto|]. intros H.
  assert (segment exe) as Hs; [|apply segment_file_name in Hs; congruence].
  assert (∀ x : rstring, one_of POWERSHELL_NAMES (to_ascii_lowercase x) = true →
    bool_decide (slash ∈ to_ascii_lowercase x) = false ∧ to_ascii_lowercase x ≠ [] ∧ to_ascii_lowercase x ≠ DOT ∧ to_ascii_lowercase x ≠ DOTDOT) as Hx.
  { intros x Ho. apply one_of_spec in Ho as (n & Hn & ->). unfold POWERSHELL_NAMES in Hn. rewrite !elem_of_cons, elem_of_nil in Hn.
    destruct Hn as [->|[->|[->|[->|[]]]]]; done. }
  apply Hx in H as (Hsl & Hne & Hd & Hdd). apply bool_decide_eq_false in Hsl. split_and!; [by intros ->| |by intros ->..].
  intros Hin. apply Hsl, list_elem_of_fmap. by exists slash.
Qed.
Lemma powershell_not_dangerous exe : is_powershell_executable exe = true → one_of ["rm"; "sudo"]%string exe = false.
Proof.
  intros H. apply not_true_iff_false. intros Hc.
  pose proof (one_of_none is_powershell_executable ["rm"; "sudo"]%string exe eq_refl Hc). congruence.
Qed.
Lemma zsh_as_bash_other s : zsh_as_bash s = lit "bash" ∨ zsh_as_bash s = s.
Proof. unfold zsh_as_bash. case_bool_decide; auto. Qed.
Lemma not_a_shell shell rest : (∀ t, detect_shell_type shell = Ok (Some t) → t = PowerShell) → extract_bash_command (shell :: rest) = None.
Proof.
  intros H. destruct rest as [|flag [|script [|]]]; cbn [extract_bash_command]; try done.
  destruct (detect_shell_type shell) as [[t|]| |]; rewrite ?andb_false_r; try done. by rewrite (H t eq_refl), andb_false_r.
Qed.

Section classifiers.
Context (linux : bool) (parse_with_powershell_ast : rstring → rstring → PowershellParseOutcome)
  (try_parse_shell : rstring → option Tree).
Abbreviation known_safe := (is_known_safe_command linux parse_with_powershell_ast try_parse_shell).
Abbreviation dangerous := (command_might_be_dangerous try_parse_shell).

(** The commands of a script. *)
Definition script_commands (script : rstring) : option (list (list rstring)) :=
  tree ← try_parse_shell script; try_parse_word_only_commands_sequence tree.
Lemma plain_commands_of command :
  parse_shell_lc_plain_commands try_parse_shell command = '(_, script) ← extract_bash_command command; script_commands script.
Proof using Type. done. Qed.

Lemma no_shell_not_dangerous shell rest :
  one_of ["rm"; "sudo"]%string shell = false → (∀ t, detect_shell_type shell = Ok (Some t) → t = PowerShell) →
  dangerous (shell :: rest) = false.
Proof using Type.
  intros Hrm Hsh. unfold command_might_be_dangerous, parse_shell_lc_plain_commands.
  by rewrite not_rm_or_sudo, not_a_shell.
Qed.
Lemma windows_safe_not_dangerous command :
  is_safe_command_windows parse_with_powershell_ast (zsh_as_bash <$> command) = true → dangerous command = false.
Proof using Type.
  unfold is_safe_command_windows. destruct command as [|exe rest]; [done|]. cbn [fmap list_fmap try_parse_powershell_command_sequence].
  destruct (is_powershell_executable (zsh_as_bash exe)) eqn:Hp; [|done]. intros _.
  destruct (zsh_as_bash_other exe) as [Hz|Hz]; rewrite Hz in Hp; [done|].
  apply no_shell_not_dangerous; [by apply powershell_not_dangerous|].
  apply powershell_file_name in Hp as (f & Hf & Hl). by apply (detect_powershell _ exe f).
Qed.
Lemma exec_safe_command_not_dangerous command :
  is_safe_to_call_with_exec linux (zsh_as_bash <$> command) = true → dangerous command = false.
Proof using Type.
  destruct command as [|cmd0 args]; [done|]. cbn [fmap list_fmap]. intros H.
  pose proof (exec_safe_detect _ _ _ H eq_refl) as Hd. apply exec_safe_head in H.
  destruct (zsh_as_bash_other cmd0) as [Hz|Hz]; rewrite Hz in H, Hd; [by vm_compute in Hd|].
  apply no_shell_not_dangerous; [done|]. rewrite Hd. congruence.
Qed.
Lemma extract_zsh command shell' script' :
  extract_bash_command (zsh_as_bash <$> command) = Some (shell', script') →
  ∃ shell flag script, command = [shell; flag; script] ∧ script' = zsh_as_bash script ∧ one_of ["rm"; "sudo"]%string shell = false.
Proof using Type.
  destruct command as [|shell [|flag [|script [|]]]]; cbn [fmap list_fmap extract_bash_command]; try done.
  destruct ((_ || _) && _) eqn:Hb; [|done]. intros [= <- <-]. exists shell, flag, script. split_and!; [done|done|].
  apply andb_true_iff in Hb as [_ Hb]. apply not_true_iff_false. intros (x & Hx & ->)%one_of_spec.
  rewrite !elem_of_cons, elem_of_nil in Hx. destruct Hx as [->|[->|[]]]; by vm_compute in Hb.
Qed.

Lemma safe_not_dangerous (command : list rstring) :
  script_commands (lit "bash") = Some [[lit "bash"]] →
  known_safe command = true → dangerous command = false.
Proof using Type.
  intros Hbash. unfold is_known_safe_command. cbv zeta.
  destruct (is_safe_command_windows _ _) eqn:Hw; [intros _; by apply windows_safe_not_dangerous|].
  destruct (is_safe_to_call_with_exec linux _) eqn:He; [intros _; by apply exec_safe_command_not_dangerous|].
  rewrite plain_commands_of. destruct (extract_bash_command _) as [[shell' script']|] eqn:Hx; [|done].
  apply extract_zsh in Hx as (shell & flag & script & -> & -> & Hrm). cbn [mbind option_bind]. intros Hall.
  assert (script ≠ lit "zsh") as Hz.
  { intros ->. change (zsh_as_bash (lit "zsh")) with (lit "bash") in Hall. rewrite Hbash in Hall. clear -Hall; destruct linux; by vm_compute in Hall. }
  unfold zsh_as_bash in Hall. rewrite bool_decide_eq_false_2 in Hall by done.
  unfold command_might_be_dangerous. rewrite plain_commands_of, not_rm_or_sudo by done.
  destruct (extract_bash_command _) as [[shell2 script2]|] eqn:Hx; [|done]. cbn [extract_bash_command] in Hx.
  destruct ((_ || _) && _); [|done]. injection Hx as <- <-. cbn [mbind option_bind].
  destruct (script_commands script) as [all|]; [|done]. apply andb_true_iff in Hall as [_ Hall].
  apply negb_true_iff, existsb_negb_Forall. apply Forall_forall. intros c Hc. rewrite forallb_forall in Hall.
  eapply exec_safe_not_dangerous, Hall. by apply list_elem_of_In.
Qed.
(** C25: the two lists do not overlap: a command that runs without asking is
    never one that the code takes for dangerous, however it is wrapped.  The
    hypothesis is needed because the safe list is looked up after every word
    [zsh] has become [bash], also when that word is the whole script. *)
Theorem safe_commands_are_not_dangerous (command : list rstring) :
  script_commands (lit "bash") = Some [[lit "bash"]] →
  known_safe command = true → dangerous command = false.
Proof using Type. apply safe_not_dangerous. Qed.
End classifiers.

(** What a command needs to run without asking.  Its program is named on
    the list, and its arguments keep it from writing files or running other
    programs: no [-o] for base64, no action for find, no preprocessor for rg,
    only print ranges for sed, and for git only flags before a subcommand that
    reads, no option of the subcommand that writes or runs, and no operand for
    [branch]. *)
Theorem safe_to_exec_spec (linux : bool) (command : list rstring) :
  is_safe_to_call_with_exec linux command = true ↔
  ∃ name, head command ≫= file_name = Some name ∧ safe_with linux name command.
Proof. apply exec_spec. Qed.

(** [bash -lc 'ls -a && echo ... | wc'], with a parser that reads this script and bare words. *)
Definition sample_parser (script : rstring) : option Tree :=
  if bool_decide (script = lit "bash") then Some (mk_tree (mk_node (lit "program") true 0 None [simple_command 0 "bash" []]) false)
  else Some sample_tree.
Lemma safe_commands_are_not_dangerous_witness :
  let command := [lit "zsh"; lit "-lc"; lit "ls -a && echo 'x y' | wc"] in
  is_known_safe_command true (λ _ _, Failed) sample_parser command = true ∧
  command_might_be_dangerous sample_parser command = false.
Proof.
  intros command. assert (is_known_safe_command true (λ _ _, Failed) sample_parser command = true) as H by by vm_compute.
  split; [exact H|]. apply (safe_commands_are_not_dangerous true (λ _ _, Failed) sample_parser); [by vm_compute|exact H].
Defined.

(** The words of [git -p log] and of [git branch x] ask; those of [git --no-pager log --oneline] do not.
    A fourth word of [sed] may be an option. *)
Example git_examples :
  is_safe_git_command (lit <$> ["git"; "--no-pager"; "log"; "--oneline"]%string) = true ∧
  is_safe_git_command (lit <$> ["git"; "-p"; "log"]%string) = false ∧
  is_safe_git_command (lit <$> ["git"; "branch"; "x"]%string) = false.
Proof. by vm_compute. Qed.
Example sed_takes_another_script :
  is_safe_to_call_with_exec true (lit <$> ["sed"; "-n"; "1p"; "-e1w out"]%string) = true.
Proof. by vm_compute. Qed.
