(* ===== verification/ExecPolicy.v ===== *)
(** * Execution policies ([execpolicy/src]: [decision.rs], [error.rs],
    [executable_name.rs], [rule.rs], [policy.rs])

    Decisions, prefix rules, the policy and its evaluation, network rules and
    the example checks of a policy file.  The multimap of rules is a map to
    lists, and [PrefixRule] is the only implementor of the [Rule] trait.
    [shlex::try_join], the home and current directories, and the text that the
    derived [Debug] prints for a rule or a match are parameters. *)
From stdpp Require Import sorting.
From S2P Require Import Prelude RustStr RustPath AbsolutePath.

Inductive Decision := Allow | Prompt | Forbidden.
#[global] Instance Decision_eq_dec : EqDecision Decision.
Proof. solve_decision. Defined.

Record TextPosition := mk_position { pos_line : nat; pos_column : nat }.
Record TextRange := mk_range { range_start : TextPosition; range_end : TextPosition }.
Record ErrorLocation := mk_location { loc_path : rstring; loc_range : TextRange }.
#[global] Instance TextPosition_eq_dec : EqDecision TextPosition.
Proof. solve_decision. Defined.
#[global] Instance TextRange_eq_dec : EqDecision TextRange.
Proof. solve_decision. Defined.
#[global] Instance ErrorLocation_eq_dec : EqDecision ErrorLocation.
Proof. solve_decision. Defined.

(** A resolved Starlark [FileSpan] (positions from 0), and a [starlark::Error] as far as it is read here. *)
Record FileSpan := mk_span { span_file : rstring; span_begin : nat * nat; span_end : nat * nat }.
Record StarlarkError := mk_starlark { starlark_text : rstring; starlark_span : option FileSpan }.
Definition error_location_from_file_span (s : FileSpan) : ErrorLocation :=
  mk_location (span_file s)
    (mk_range (mk_position ((span_begin s).1 + 1) ((span_begin s).2 + 1))
              (mk_position ((span_end s).1 + 1) ((span_end s).2 + 1))).

Inductive Error :=
| InvalidDecision (raw : rstring)
| InvalidPattern (message : rstring)
| InvalidExample (message : rstring)
| InvalidRule (message : rstring)
| ExampleDidNotMatch (rules : list rstring) (examples : list rstring) (location : option ErrorLocation)
| ExampleDidMatch (rule : rstring) (example : rstring) (location : option ErrorLocation)
| Starlark (e : StarlarkError).

Definition with_location (e : Error) (l : ErrorLocation) : Error :=
  match e with
  | ExampleDidNotMatch rules examples None => ExampleDidNotMatch rules examples (Some l)
  | ExampleDidMatch rule example None => ExampleDidMatch rule example (Some l)
  | other => other
  end.
Definition error_location (e : Error) : option ErrorLocation :=
  match e with
  | ExampleDidNotMatch _ _ l | ExampleDidMatch _ _ l => l
  | Starlark err => error_location_from_file_span <$> starlark_span err
  | _ => None
  end.

Definition decision_parse (raw : rstring) : outcome Error Decision :=
  if bool_decide (raw = lit "allow") then Ok Allow
  else if bool_decide (raw = lit "prompt") then Ok Prompt
  else if bool_decide (raw = lit "forbidden") then Ok Forbidden
  else Err (InvalidDecision raw).

(** The derived [Ord]: the order of the constructors. *)
Definition decision_rank (d : Decision) : nat :=
  match d with Allow => 0 | Prompt => 1 | Forbidden => 2 end.
Definition decision_max (a b : Decision) : Decision :=
  if decision_rank a <=? decision_rank b then b else a.
(** [Iterator::max] *)
Definition max_decision (l : list Decision) : option Decision :=
  match l with [] => None | d :: l => Some (foldl decision_max d l) end.

(** ** Rules *)
Inductive PatternToken := Single (expected : rstring) | Alts (alternatives : list rstring).
#[global] Instance PatternToken_eq_dec : EqDecision PatternToken.
Proof. solve_decision. Defined.
Definition token_matches (t : PatternToken) (token : rstring) : bool :=
  match t with
  | Single expected => bool_decide (expected = token)
  | Alts alternatives => existsb (λ alt, bool_decide (alt = token)) alternatives
  end.
Definition alternatives (t : PatternToken) : list rstring :=
  match t with Single expected => [expected] | Alts alternatives => alternatives end.

Record PrefixPattern := mk_pattern { pat_first : rstring; pat_rest : list PatternToken }.
#[global] Instance PrefixPattern_eq_dec : EqDecision PrefixPattern.
Proof. solve_decision. Defined.

Definition matches_prefix (p : PrefixPattern) (cmd : list rstring) : option (list rstring) :=
  let pattern_length := length (pat_rest p) + 1 in
  if (length cmd <? pattern_length) || negb (bool_decide (head cmd = Some (pat_first p))) then None
  else if forallb (λ e, token_matches e.1 e.2) (zip (pat_rest p) (drop 1 (take pattern_length cmd)))
  then Some (take pattern_length cmd) else None.

Inductive RuleMatch :=
| PrefixRuleMatch (matched_prefix : list rstring) (decision : Decision) (resolved_program : option rstring)
                  (justification : option rstring)
| HeuristicsRuleMatch (command : list rstring) (decision : Decision).
#[global] Instance RuleMatch_eq_dec : EqDecision RuleMatch.
Proof. solve_decision. Defined.
Definition match_decision (m : RuleMatch) : Decision :=
  match m with PrefixRuleMatch _ d _ _ => d | HeuristicsRuleMatch _ d => d end.
Definition with_resolved_program (m : RuleMatch) (p : rstring) : RuleMatch :=
  match m with
  | PrefixRuleMatch matched d _ j => PrefixRuleMatch matched d (Some p) j
  | other => other
  end.

Record PrefixRule := mk_rule { pattern : PrefixPattern; rule_decision : Decision; rule_justification : option rstring }.
#[global] Instance PrefixRule_eq_dec : EqDecision PrefixRule.
Proof. solve_decision. Defined.
Definition program (r : PrefixRule) : rstring := pat_first (pattern r).
Definition rule_matches (r : PrefixRule) (cmd : list rstring) : option RuleMatch :=
  (λ matched, PrefixRuleMatch matched (rule_decision r) None (rule_justification r))
    <$> matches_prefix (pattern r) cmd.

(** ** Network rules *)
Inductive NetworkRuleProtocol := Http | Https | Socks5Tcp | Socks5Udp.
Definition protocol_parse (raw : rstring) : outcome Error NetworkRuleProtocol :=
  if bool_decide (raw = lit "http") then Ok Http
  else if bool_decide (raw ∈ [lit "https"; lit "https_connect"; lit "http-connect"]) then Ok Https
  else if bool_decide (raw = lit "socks5_tcp") then Ok Socks5Tcp
  else if bool_decide (raw = lit "socks5_udp") then Ok Socks5Udp
  else Err (InvalidRule (lit "network_rule protocol must be one of http, https, socks5_tcp, socks5_udp (got "
                         ++ raw ++ lit ")")).
Definition as_policy_string (p : NetworkRuleProtocol) : rstring :=
  match p with
  | Http => lit "http" | Https => lit "https" | Socks5Tcp => lit "socks5_tcp" | Socks5Udp => lit "socks5_udp"
  end.
Record NetworkRule := mk_net {
  net_host : rstring; net_protocol : NetworkRuleProtocol; net_decision : Decision; net_justification : option rstring
}.

Definition contains (needle s : rstring) : bool := bool_decide (is_Some (find needle s)).
(** [split_once] and [rsplit_once] on a character. *)
Fixpoint split_once (c : char) (s : rstring) : option (rstring * rstring) :=
  match s with
  | [] => None
  | x :: t => if (x =? c)%N then Some ([], t)
              else match split_once c t with Some (a, b) => Some (x :: a, b) | None => None end
  end.
Definition rsplit_once (c : char) (s : rstring) : option (rstring * rstring) :=
  (λ e, (rev e.2, rev e.1)) <$> split_once c (rev s).
Definition count_char (c : char) (s : rstring) : nat := length (filter (eq c) s).
Definition all_digits (s : rstring) : bool := forallb is_ascii_digit s.
Definition is_empty (s : rstring) : bool := bool_decide (s = []).

Definition empty_host : Error := InvalidRule (lit "network_rule host cannot be empty").
(** The host part of a trimmed, non-empty rule host. *)
Definition host_part (raw host : rstring) : outcome Error rstring :=
  match strip_prefix [chr "["] host with
  | Some stripped =>
      match split_once (chr "]") stripped with
      | None => Err (InvalidRule (lit "network_rule host has an invalid bracketed IPv6 literal"))
      | Some (inside, rest) =>
          let port_ok := match strip_prefix [chr ":"] rest with
                         | Some port => negb (is_empty port) && all_digits port
                         | None => false
                         end in
          if negb (is_empty rest) && negb port_ok
          then Err (InvalidRule (lit "network_rule host contains an unsupported suffix: " ++ raw))
          else Ok inside
      end
  | None =>
      if count_char (chr ":") host =? 1 then
        match rsplit_once (chr ":") host with
        | Some (candidate, port) =>
            if negb (is_empty candidate) && negb (is_empty port) && all_digits port then Ok candidate else Ok host
        | None => Ok host
        end
      else Ok host
  end.

Definition normalize_network_rule_host (raw : rstring) : outcome Error rstring :=
  let host := trim raw in
  if is_empty host then Err empty_host
  else if contains (lit "://") host || contains (lit "/") host || contains (lit "?") host || contains (lit "#") host
  then Err (InvalidRule (lit "network_rule host must be a hostname or IP literal (without scheme or path)"))
  else
    let? host := host_part raw host in
    let normalized := to_ascii_lowercase (trim (trim_end_matches (λ c, c =? chr ".")%N host)) in
    if is_empty normalized then Err empty_host
    else if contains (lit "*") normalized
    then Err (InvalidRule (lit "network_rule host must be a specific host; wildcards are not allowed"))
    else if existsb is_whitespace normalized
    then Err (InvalidRule (lit "network_rule host cannot contain whitespace"))
    else Ok normalized.

(** ** The policy *)
Record Policy := mk_policy {
  rules_by_program : gmap rstring (list PrefixRule);
  network_rules : list NetworkRule;
  host_executables_by_name : gmap rstring (list rstring)
}.
Definition policy_empty : Policy := mk_policy ∅ [] ∅.

(** [MultiMap::insert] *)
Definition multi_insert (m : gmap rstring (list PrefixRule)) (k : rstring) (r : PrefixRule) :=
  <[k := default [] (m !! k) ++ [r]]> m.

Definition add_prefix_rule (p : Policy) (prefix : list rstring) (d : Decision) : outcome Error Policy :=
  match prefix with
  | [] => Err (InvalidPattern (lit "prefix cannot be empty"))
  | first_token :: rest =>
      let rule := mk_rule (mk_pattern first_token (Single <$> rest)) d None in
      Ok (mk_policy (multi_insert (rules_by_program p) first_token rule) (network_rules p)
            (host_executables_by_name p))
  end.

Definition add_network_rule (p : Policy) (host : rstring) (protocol : NetworkRuleProtocol) (d : Decision)
    (justification : option rstring) : outcome Error Policy :=
  let? host := normalize_network_rule_host host in
  if match justification with Some raw => is_empty (trim raw) | None => false end
  then Err (InvalidRule (lit "justification cannot be empty"))
  else Ok (mk_policy (rules_by_program p) (network_rules p ++ [mk_net host protocol d justification])
             (host_executables_by_name p)).

Definition set_host_executable_paths (p : Policy) (name : rstring) (paths : list rstring) : Policy :=
  mk_policy (rules_by_program p) (network_rules p) (<[name:=paths]> (host_executables_by_name p)).

(** Every rule of the overlay is inserted after those of the base; later
    executables replace earlier ones. *)
Definition merge_overlay (p overlay : Policy) : Policy :=
  mk_policy (map_fold (λ program rules acc, foldl (λ m r, multi_insert m program r) acc rules)
               (rules_by_program p) (rules_by_program overlay))
    (network_rules p ++ network_rules overlay)
    (host_executables_by_name overlay ∪ host_executables_by_name p).

Definition upsert_domain (entries : list rstring) (host : rstring) : list rstring :=
  filter (λ e, e ≠ host) entries ++ [host].
Definition domain_step (acc : list rstring * list rstring) (r : NetworkRule) : list rstring * list rstring :=
  let '(allowed, denied) := acc in
  match net_decision r with
  | Allow => (upsert_domain allowed (net_host r), filter (λ e, e ≠ net_host r) denied)
  | Forbidden => (filter (λ e, e ≠ net_host r) allowed, upsert_domain denied (net_host r))
  | Prompt => (allowed, denied)
  end.
Definition compiled_network_domains (p : Policy) : list rstring * list rstring :=
  foldl domain_step ([], []) (network_rules p).

(** ** Executable names (Unix: the name itself) *)
Definition executable_lookup_key (raw : rstring) : rstring := raw.
Definition executable_path_lookup_key (path : rstring) : option rstring := executable_lookup_key <$> file_name path.

(** ** Matching and evaluation *)
Section matching.
Context (home_dir : option rstring) (current_dir : outcome PathError rstring).

Definition match_exact_rules (p : Policy) (cmd : list rstring) : option (list RuleMatch) :=
  match cmd with
  | [] => None
  | first :: _ => Some (match rules_by_program p !! first with
                        | Some rules => omap (λ r, rule_matches r cmd) rules
                        | None => []
                        end)
  end.

Definition match_host_executable_rules (p : Policy) (cmd : list rstring) : list RuleMatch :=
  match cmd with
  | [] => []
  | first :: rest =>
      match from_absolute_path home_dir current_dir first with
      | Err _ | Panic => []
      | Ok program =>
          match executable_path_lookup_key program with
          | None => []
          | Some basename =>
              match rules_by_program p !! basename with
              | None => []
              | Some rules =>
                  if match host_executables_by_name p !! basename with
                     | Some paths => negb (existsb (λ q, bool_decide (path_eq q program)) paths)
                     | None => false
                     end
                  then []
                  else (λ m, with_resolved_program m program)
                         <$> omap (λ r, rule_matches r (basename :: rest)) rules
              end
          end
      end
  end.

Definition matches_for_command_with_options (p : Policy) (cmd : list rstring)
    (heuristics_fallback : option (list rstring → Decision)) (resolve_host_executables : bool) : list RuleMatch :=
  let exact := default [] (match_exact_rules p cmd) in
  let matched_rules :=
    if bool_decide (exact = []) then
      if resolve_host_executables then match_host_executable_rules p cmd else []
    else exact in
  match matched_rules, heuristics_fallback with
  | [], Some fallback => [HeuristicsRuleMatch cmd (fallback cmd)]
  | _, _ => matched_rules
  end.

Record Evaluation := mk_eval { decision : Decision; matched_rules : list RuleMatch }.
Definition is_match (e : Evaluation) : bool :=
  existsb (λ m, match m with HeuristicsRuleMatch _ _ => false | PrefixRuleMatch _ _ _ _ => true end)
    (matched_rules e).

(** [expect] on an empty list panics. *)
Definition from_matches (matched : list RuleMatch) : outcome Error Evaluation :=
  match max_decision (match_decision <$> matched) with
  | Some d => Ok (mk_eval d matched)
  | None => Panic
  end.
Definition check_with_options (p : Policy) (cmd : list rstring) (fallback : list rstring → Decision)
    (resolve_host_executables : bool) : outcome Error Evaluation :=
  from_matches (matches_for_command_with_options p cmd (Some fallback) resolve_host_executables).
Definition check (p : Policy) (cmd : list rstring) (fallback : list rstring → Decision) : outcome Error Evaluation :=
  check_with_options p cmd fallback false.
Definition matches_for_command (p : Policy) (cmd : list rstring)
    (heuristics_fallback : option (list rstring → Decision)) : list RuleMatch :=
  matches_for_command_with_options p cmd heuristics_fallback false.
Definition check_multiple_with_options (p : Policy) (commands : list (list rstring))
    (fallback : list rstring → Decision) (resolve_host_executables : bool) : outcome Error Evaluation :=
  from_matches (commands ≫= λ cmd,
    matches_for_command_with_options p cmd (Some fallback) resolve_host_executables).

Definition check_multiple (p : Policy) (commands : list (list rstring)) (fallback : list rstring → Decision)
    : outcome Error Evaluation :=
  check_multiple_with_options p commands fallback false.

Context (try_join : list rstring → option rstring) (debug_rule : PrefixRule → rstring)
  (debug_match : RuleMatch → rstring).
Definition render_example (e : list rstring) : rstring := default (lit "unable to render example") (try_join e).

Definition validate_match_examples (p : Policy) (rules : list PrefixRule) (examples : list (list rstring))
    : outcome Error unit :=
  let unmatched := filter (λ e, matches_for_command_with_options p e None true = []) examples in
  if bool_decide (render_example <$> unmatched = []) then Ok ()
  else Err (ExampleDidNotMatch (debug_rule <$> rules) (render_example <$> unmatched) None).
Fixpoint validate_not_match_examples (p : Policy) (rules : list PrefixRule) (examples : list (list rstring))
    : outcome Error unit :=
  match examples with
  | [] => Ok ()
  | e :: rest =>
      match matches_for_command_with_options p e None true with
      | [] => validate_not_match_examples p rules rest
      | m :: _ => Err (ExampleDidMatch (debug_match m) (render_example e) None)
      end
  end.
End matching.

(** ** The allow list shown to the model *)
Definition render_pattern_token (t : PatternToken) : rstring :=
  match t with
  | Single value => value
  | Alts alts => lit "[" ++ join_with [chr "|"] alts ++ lit "]"
  end.
Definition allowed_prefix (r : PrefixRule) : option (list rstring) :=
  if decide (rule_decision r = Allow)
  then Some (pat_first (pattern r) :: (render_pattern_token <$> pat_rest (pattern r))) else None.

(** [Vec::sort] with the derived order of [Vec<String>], and [Vec::dedup]. *)
Definition prefix_cmp : list rstring → list rstring → comparison := lex_cmp (lex_cmp N.compare).
Definition prefix_le (a b : list rstring) : Prop := prefix_cmp a b ≠ Gt.
#[global] Instance prefix_le_dec : RelDecision prefix_le.
Proof. intros a b. unfold prefix_le. apply _. Defined.
Fixpoint dedup (l : list (list rstring)) : list (list rstring) :=
  match l with
  | x :: ((y :: _) as t) => if decide (x = y) then dedup t else x :: dedup t
  | _ => l
  end.
Definition get_allowed_prefixes (p : Policy) : list (list rstring) :=
  dedup (merge_sort prefix_le (omap allowed_prefix (concat (map_to_list (rules_by_program p)).*2))).

(** ** Lemmas: decisions *)
Lemma decision_max_rank a b : decision_rank (decision_max a b) = decision_rank a `max` decision_rank b.
Proof. by destruct a, b. Qed.
Lemma decision_max_assoc a b c : decision_max a (decision_max b c) = decision_max (decision_max a b) c.
Proof. by destruct a, b, c. Qed.

Lemma foldl_max d l :
  decision_rank d ≤ decision_rank (foldl decision_max d l) ∧
  (∀ x, x ∈ l → decision_rank x ≤ decision_rank (foldl decision_max d l)) ∧
  foldl decision_max d l ∈ d :: l.
Proof.
  revert d. induction l as [|y l IH]; intros d; cbn.
  { split_and!; [done| |by left]. intros x Hx. by apply elem_of_nil in Hx. }
  destruct (IH (decision_max d y)) as (H1 & H2 & H3). rewrite decision_max_rank in H1. split_and!.
  - lia.
  - intros x [->|Hx]%elem_of_cons; [lia|by apply H2].
  - apply elem_of_cons in H3 as [->|H3]; [|by do 2 right].
    unfold decision_max. destruct (_ <=? _); [by right; left|by left].
Qed.

(** The most restrictive of a list of decisions. *)
Definition strictest (d : Decision) (l : list Decision) : Prop :=
  d ∈ l ∧ ∀ x, x ∈ l → decision_rank x ≤ decision_rank d.

Lemma max_decision_spec l : match max_decision l with Some d => strictest d l | None => l = [] end.
Proof.
  destruct l as [|d l]; [done|]. cbn. destruct (foldl_max d l) as (H1 & H2 & H3). split; [done|].
  intros x [->|Hx]%elem_of_cons; auto.
Qed.

Lemma foldl_max_app d l k :
  foldl decision_max d (l ++ k) = match max_decision k with Some m => decision_max (foldl decision_max d l) m
                                  | None => foldl decision_max d l end.
Proof.
  rewrite foldl_app. destruct k as [|y k]; [done|]. cbn. generalize (foldl decision_max d l) as a. intros a.
  revert y. induction k as [|z k IH]; intros y; [done|]. cbn. by rewrite <- IH, decision_max_assoc.
Qed.

Lemma max_decision_app l k :
  max_decision (l ++ k) =
    match max_decision l, max_decision k with
    | Some a, Some b => Some (decision_max a b)
    | Some a, None => Some a
    | None, b => b
    end.
Proof.
  destruct l as [|d l]; [cbn; by destruct (max_decision k)|]. cbn. rewrite foldl_max_app. by destruct (max_decision k).
Qed.

(** ** Lemmas: prefixes *)
Lemma matches_prefix_spec p cmd m :
  matches_prefix p cmd = Some m ↔
  ∃ toks rest, cmd = pat_first p :: toks ++ rest ∧ m = pat_first p :: toks ∧
               Forall2 (λ t tok, token_matches t tok = true) (pat_rest p) toks.
Proof.
  assert (∀ ts toks, length ts = length toks →
    forallb (λ e : PatternToken * rstring, token_matches e.1 e.2) (zip ts toks) = true ↔
    Forall2 (λ t tok, token_matches t tok = true) ts toks) as Hzip.
  { induction ts as [|t ts IH]; intros [|x toks] Hl; cbn in *; try done. injection Hl as Hl.
    rewrite andb_true_iff, IH by done. split; [intros [? ?]; by constructor|by inversion 1]. }
  unfold matches_prefix. destruct cmd as [|c cmd]; cbn [length head].
  { rewrite (proj2 (Nat.ltb_lt _ _)) by lia. split; [done|]. intros (toks & rest & ? & _). done. }
  destruct (Nat.ltb_spec (S (length cmd)) (length (pat_rest p) + 1)) as [Hlt|Hle]; cbn [orb].
  { split; [done|]. intros (toks & rest & [= -> ->] & _ & H2%Forall2_length). rewrite length_app in Hlt. lia. }
  rewrite Nat.add_1_r. cbn [take drop]. rewrite drop_0. case_bool_decide as Hc; cbn [negb].
  2: { split; [done|]. intros (toks & rest & [= -> _] & _). by destruct Hc. }
  injection Hc as ->. destruct (forallb _ _) eqn:Hf.
  - apply Hzip in Hf; [|len]. split.
    + intros [= <-]. exists (take (length (pat_rest p)) cmd), (drop (length (pat_rest p)) cmd).
      by rewrite take_drop.
    + intros (toks & rest & [= ->] & -> & H2). apply Forall2_length in H2. by rewrite H2, take_app_length.
  - split; [done|]. intros (toks & rest & [= ->] & -> & H2).
    pose proof (Forall2_length _ _ _ H2) as Hl. rewrite Hl, take_app_length in Hf.
    apply Hzip in H2; [|done]. congruence.
Qed.

(** A rule made from a literal prefix matches exactly the commands that start with it. *)
Lemma literal_matches first rest cmd m :
  matches_prefix (mk_pattern first (Single <$> rest)) cmd = Some m ↔
  first :: rest `prefix_of` cmd ∧ m = first :: rest.
Proof.
  rewrite matches_prefix_spec. cbn [pat_first pat_rest].
  assert (∀ toks, Forall2 (λ t tok, token_matches t tok = true) (Single <$> rest) toks ↔ toks = rest) as Hs.
  { induction rest as [|x rest IH]; intros toks; cbn.
    - split; [by inversion 1|by intros ->].
    - split.
      + inversion 1; subst. cbn in *. f_equal; [symmetry; by apply (bool_decide_eq_true_1 _)|by apply IH].
      + intros ->. constructor; [by apply (bool_decide_eq_true_2 _)|by apply IH]. }
  split.
  - intros (toks & r & -> & -> & ->%Hs). split; [by exists r|done].
  - intros [[r ->] ->]. exists rest, r. split_and!; [done|done|by apply Hs].
Qed.

(** ** Lemmas: the rules of a program *)
Definition rules_of (p : Policy) (prog : rstring) : list PrefixRule := default [] (rules_by_program p !! prog).
Definition exact_matches (p : Policy) (cmd : list rstring) : list RuleMatch := default [] (match_exact_rules p cmd).

Lemma exact_matches_rules p cmd :
  exact_matches p cmd =
    match cmd with [] => [] | first :: _ => omap (λ r, rule_matches r cmd) (rules_of p first) end.
Proof.
  unfold exact_matches, match_exact_rules, rules_of. destruct cmd as [|first cmd]; [done|].
  cbn. by destruct (rules_by_program p !! first).
Qed.

Lemma multi_insert_lookup m k r prog :
  default [] (multi_insert m k r !! prog) = default [] (m !! prog) ++ (if decide (k = prog) then [r] else []).
Proof.
  unfold multi_insert. case_decide as Hk; [subst; by rewrite lookup_insert_eq|].
  by rewrite lookup_insert_ne, app_nil_r.
Qed.

Lemma multi_insert_all m k rules prog :
  default [] (foldl (λ m r, multi_insert m k r) m rules !! prog) =
  default [] (m !! prog) ++ (if decide (k = prog) then rules else []).
Proof.
  revert m. induction rules as [|r rules IH]; intros m; cbn; [by case_decide; rewrite app_nil_r|].
  rewrite IH, multi_insert_lookup. case_decide; by rewrite <- app_assoc.
Qed.

Lemma merge_rules_of p overlay prog :
  rules_of (merge_overlay p overlay) prog = rules_of p prog ++ rules_of overlay prog.
Proof.
  unfold rules_of, merge_overlay. cbn [rules_by_program].
  apply (map_fold_weak_ind (λ acc m, default [] (acc !! prog) =
    default [] (rules_by_program p !! prog) ++ default [] (m !! prog))).
  - by rewrite lookup_empty, app_nil_r.
  - intros k rules m acc Hk IH. rewrite multi_insert_all, IH. case_decide; [subst|].
    + by rewrite lookup_insert_eq, Hk, app_nil_r.
    + by rewrite lookup_insert_ne, app_nil_r.
Qed.

Lemma merge_exact_matches p overlay cmd :
  exact_matches (merge_overlay p overlay) cmd = exact_matches p cmd ++ exact_matches overlay cmd.
Proof. rewrite !exact_matches_rules. destruct cmd; [done|]. by rewrite merge_rules_of, omap_app. Qed.

(** ** Lemmas: compiled domains *)
Definition decisive (h : rstring) (r : NetworkRule) : option Decision :=
  if decide (net_host r = h) then match net_decision r with Prompt => None | d => Some d end else None.
(** The last rule about a host that is not a prompt. *)
Definition last_decisive (rules : list NetworkRule) (h : rstring) : option Decision := last (omap (decisive h) rules).

Lemma upsert_NoDup l h : NoDup l → NoDup (upsert_domain l h).
Proof.
  intros Hl. unfold upsert_domain. apply NoDup_app. split_and!; [by apply NoDup_filter| |apply NoDup_singleton].
  intros x [Hx _]%list_elem_of_filter Hx2. apply list_elem_of_singleton in Hx2. done.
Qed.
Lemma upsert_elem l h x : x ∈ upsert_domain l h ↔ x ∈ l ∨ x = h.
Proof.
  unfold upsert_domain. rewrite elem_of_app, list_elem_of_filter, list_elem_of_singleton.
  destruct (decide (x = h)); naive_solver.
Qed.

Lemma domains_spec rules :
  let '(allowed, denied) := foldl domain_step ([], []) rules in
  NoDup allowed ∧ NoDup denied ∧
  ∀ h, (h ∈ allowed ↔ last_decisive rules h = Some Allow) ∧ (h ∈ denied ↔ last_decisive rules h = Some Forbidden).
Proof.
  induction rules as [|r rules IH] using rev_ind.
  { cbn. split_and!; [constructor|constructor|]. intros h. rewrite !elem_of_nil. done. }
  rewrite foldl_app. destruct (foldl domain_step ([], []) rules) as [allowed denied].
  destruct IH as (Ha & Hd & IH). cbn [foldl]. unfold domain_step.
  assert (∀ h, last_decisive (rules ++ [r]) h =
    match decisive h r with Some d => Some d | None => last_decisive rules h end) as Hl.
  { intros h. unfold last_decisive. rewrite omap_app. cbn. destruct (decisive h r); cbn; [by rewrite last_snoc|].
    by rewrite app_nil_r. }
  unfold decisive in Hl.
  destruct (net_decision r);
    (split_and!; [try apply upsert_NoDup; try apply NoDup_filter; done
                 |try apply upsert_NoDup; try apply NoDup_filter; done|]);
    intros h; destruct (IH h) as [Ia Id];
    rewrite Hl, ?upsert_elem, ?list_elem_of_filter, ?Ia, ?Id; destruct (decide (net_host r = h)); subst;
    intuition congruence.
Qed.

(** ** Lemmas: sorting and deduplication *)
#[global] Instance prefix_cmp_order : CmpOrder prefix_cmp.
Proof. unfold prefix_cmp. apply _. Qed.
#[global] Instance prefix_le_trans : Transitive prefix_le.
Proof. exact (cmp_le_trans prefix_cmp). Qed.
#[global] Instance prefix_le_total : Total prefix_le.
Proof. exact (cmp_le_total prefix_cmp). Qed.

Lemma dedup_cons x y t : dedup (x :: y :: t) = if decide (x = y) then dedup (y :: t) else x :: dedup (y :: t).
Proof. done. Qed.
Lemma dedup_elem l x : x ∈ dedup l ↔ x ∈ l.
Proof.
  induction l as [|y [|z l] IH]; [done|done|]. rewrite dedup_cons.
  case_decide; [subst|]; rewrite !elem_of_cons, IH, !elem_of_cons; tauto.
Qed.

Lemma dedup_sorted l : StronglySorted prefix_le l → StronglySorted (λ a b, prefix_cmp a b = Lt) (dedup l).
Proof.
  induction 1 as [|y l Hl IH Hf]; [constructor|]. destruct l as [|z l]; [by repeat constructor|].
  rewrite dedup_cons. case_decide as Hd; [done|]. constructor; [done|].
  apply Forall_forall. intros x Hx%(proj1 (dedup_elem _ _)). rewrite Forall_forall in Hf.
  pose proof (Hf x Hx) as Hyx. pose proof (Hf z ltac:(left)) as Hyz. unfold prefix_le in Hyx, Hyz.
  destruct (prefix_cmp y x) eqn:E; [|done|done]. apply cmp_eq in E as <-.
  apply elem_of_cons in Hx as [->|Hx]; [done|]. apply StronglySorted_inv in Hl as [_ Hz].
  rewrite Forall_forall in Hz. specialize (Hz y Hx). unfold prefix_le in Hz.
  rewrite (cmp_opp (cmp := prefix_cmp) y z) in Hz. destruct (prefix_cmp y z) eqn:E2; [|done|done].
  by apply cmp_eq in E2.
Qed.

(** ** Lemmas: hosts *)
Lemma contains_false needle s : needle ≠ [] → (∃ c, c ∈ needle ∧ c ∉ s) → contains needle s = false.
Proof.
  intros Hne (c & Hc & Hs). unfold contains. apply bool_decide_eq_false. intros [i Hi].
  apply find_Some in Hi as ([r Hr] & _). apply Hs.
  rewrite <- (take_drop i s), Hr, !elem_of_app. auto.
Qed.

Lemma split_once_None c s : c ∉ s → split_once c s = None.
Proof.
  induction s as [|x s IH]; [done|]. intros [Hx Hs]%not_elem_of_cons. cbn.
  destruct (N.eqb_spec x c); [congruence|]. by rewrite IH.
Qed.
Lemma split_once_app c a b : c ∉ a → split_once c (a ++ c :: b) = Some (a, b).
Proof.
  induction a as [|x a IH]; intros Ha; cbn; [by rewrite N.eqb_refl|].
  apply not_elem_of_cons in Ha as [Hx Ha]. destruct (N.eqb_spec x c); [congruence|]. by rewrite IH.
Qed.
Lemma count_char_0 c s : c ∉ s → count_char c s = 0.
Proof.
  intros H. unfold count_char. induction s as [|x s IH]; [done|].
  apply not_elem_of_cons in H as [Hx Hs]. rewrite filter_cons, decide_False by done. by apply IH.
Qed.

(** A host that is written plainly. *)
Definition plain_host (h : rstring) : Prop :=
  h ≠ [] ∧ last h ≠ Some (chr ".") ∧
  Forall (λ c, is_whitespace c = false ∧ to_ascii_lowercase_char c = c ∧
               c ∉ [chr "/"; chr "?"; chr "#"; chr "*"; chr "["; chr "]"]) h.

Lemma trim_end_matches_id p (s : rstring) : Forall (λ c, p c = false) s → trim_end_matches p s = s.
Proof.
  intros H. destruct s as [|x s _] using rev_ind; [done|].
  apply Forall_app in H as [_ H]. apply Forall_cons_1 in H as [H _].
  unfold trim_end_matches. rewrite rev_app_distr. cbn [rev app trim_start_matches]. rewrite H.
  cbn [rev]. by rewrite rev_involutive.
Qed.
Lemma trim_id s : Forall (λ c, is_whitespace c = false) s → trim s = s.
Proof.
  intros H. unfold trim. destruct s as [|c s]; [done|]. apply Forall_cons_1 in H as [Hc H].
  unfold trim_start. cbn [trim_start_matches]. rewrite Hc. apply trim_end_matches_id. by constructor.
Qed.
Lemma trim_end_dot s : last s ≠ Some (chr ".") → trim_end_matches (λ c, c =? chr ".")%N s = s.
Proof.
  intros H. destruct s as [|x s _] using rev_ind; [done|]. rewrite last_snoc in H.
  unfold trim_end_matches. rewrite rev_app_distr. cbn [rev app trim_start_matches].
  destruct (N.eqb_spec x (chr ".")); [congruence|]. cbn [rev]. by rewrite rev_involutive.
Qed.

Lemma plain_not_in h c :
  plain_host h → c ∈ [chr "/"; chr "?"; chr "#"; chr "*"; chr "["; chr "]"] → c ∉ h.
Proof. intros (_ & _ & H) Hc Hin. rewrite Forall_forall in H. by apply (H c Hin). Qed.

(** What the surroundings of a host are made of. *)
Definition nice_char (c : char) : bool :=
  negb (is_whitespace c) && negb (bool_decide (c ∈ [chr "/"; chr "?"; chr "#"])).

Lemma digit_nice c : is_ascii_digit c = true → nice_char c = true ∧ c ≠ chr ":".
Proof.
  unfold is_ascii_digit. rewrite andb_true_iff, !N.leb_le. intros H.
  assert (c = 48 ∨ c = 49 ∨ c = 50 ∨ c = 51 ∨ c = 52 ∨ c = 53 ∨ c = 54 ∨ c = 55 ∨ c = 56 ∨ c = 57)%N as Hc by lia.
  by repeat destruct Hc as [->|Hc]; [..|subst c].
Qed.
Lemma digits_nice s : all_digits s = true → Forall (λ c, nice_char c = true) s ∧ chr ":" ∉ s.
Proof.
  induction s as [|c s IH]; cbn; [by split; [|apply not_elem_of_nil]|].
  intros [[Hc Hn]%digit_nice [Hs Hns]%IH]%andb_true_iff. split; [by constructor|].
  by apply not_elem_of_cons.
Qed.
Lemma plain_nice h : plain_host h → Forall (λ c, nice_char c = true) h.
Proof.
  intros (_ & _ & H). eapply Forall_impl; [exact H|]. intros c (Hw & _ & Hc). unfold nice_char.
  rewrite Hw, bool_decide_eq_false_2; [done|]. intros Hin. apply Hc.
  repeat (apply elem_of_cons in Hin as [->|Hin]; [by apply (bool_decide_unpack _)|]). by apply elem_of_nil in Hin.
Qed.
Lemma plain_head h c t : plain_host h → h = c :: t → c ≠ chr "[".
Proof. intros Hp -> ->. eapply (plain_not_in _ (chr "[") Hp); [by apply (bool_decide_unpack _)|left]. Qed.

(** The end of the normalisation, once the host part of [raw] is known to be plain. *)
Lemma normalize_plain raw h :
  plain_host h → raw ≠ [] → Forall (λ c, nice_char c = true) raw →
  host_part raw raw = Ok h → normalize_network_rule_host raw = Ok h.
Proof.
  intros Hp Hne Hc Hpart. unfold normalize_network_rule_host. rewrite trim_id.
  2: { eapply Forall_impl; [exact Hc|]. by intros c [?%negb_true_iff _]%andb_true_iff. }
  unfold is_empty at 1. rewrite bool_decide_eq_false_2 by done.
  assert (∀ needle c, bool_decide (c ∈ needle) = true → bool_decide (c ∈ [chr "/"; chr "?"; chr "#"]) = true →
                      contains needle raw = false) as Hcf.
  { intros needle c Hn%(bool_decide_eq_true_1 _) Hm%(bool_decide_eq_true_1 _).
    apply contains_false; [by intros ->; apply elem_of_nil in Hn|]. exists c. split; [done|]. intros Hin.
    rewrite Forall_forall in Hc. specialize (Hc c Hin). unfold nice_char in Hc.
    by rewrite (bool_decide_eq_true_2 _ Hm), andb_false_r in Hc. }
  rewrite (Hcf (lit "://") (chr "/")), (Hcf (lit "/") (chr "/")), (Hcf (lit "?") (chr "?")),
    (Hcf (lit "#") (chr "#")) by done.
  cbn [orb]. rewrite Hpart. cbn [mbind outcome_bind].
  destruct Hp as (Hn & Hl & Hf). rewrite trim_end_dot by done.
  rewrite trim_id by (eapply Forall_impl; [exact Hf|by intros c (? & _)]).
  assert (to_ascii_lowercase h = h) as ->.
  { unfold to_ascii_lowercase. clear -Hf. induction Hf as [|c h (_ & Hc & _) _ IH]; [done|]. cbn. by f_equal. }
  unfold is_empty. rewrite bool_decide_eq_false_2 by done.
  assert (contains (lit "*") h = false) as ->.
  { apply contains_false; [done|]. exists (chr "*"). split; [by apply (bool_decide_unpack _)|].
    intros Hin. rewrite Forall_forall in Hf. apply (Hf _ Hin). by apply (bool_decide_unpack _). }
  assert (existsb is_whitespace h = false) as ->; [|done].
  clear -Hf. induction Hf as [|c h [Hc _] _ IH]; [done|]. cbn. by rewrite Hc, IH.
Qed.

(** ** Lemmas: the host part *)
Lemma count_char_app c s t : count_char c (s ++ t) = count_char c s + count_char c t.
Proof. unfold count_char. by rewrite filter_app, length_app. Qed.

Lemma not_bracket s : (∀ c t, s = c :: t → c ≠ chr "[") → strip_prefix [chr "["] s = None.
Proof. destruct s as [|c s]; [done|]. intros H. cbn [strip_prefix]. rewrite decide_False; [done|]. intros Hc. by apply (H c s eq_refl). Qed.

Lemma host_part_plain raw h : plain_host h → chr ":" ∉ h → host_part raw h = Ok h.
Proof.
  intros Hp Hc. unfold host_part. rewrite not_bracket by (intros c t; by apply plain_head).
  by rewrite (count_char_0 (chr ":") h Hc).
Qed.

Lemma host_part_port raw h port :
  plain_host h → chr ":" ∉ h → port ≠ [] → all_digits port = true →
  host_part raw (h ++ chr ":" :: port) = Ok h.
Proof.
  intros Hp Hc Hne Hd. destruct (digits_nice port Hd) as [_ Hcp]. unfold host_part. rewrite not_bracket.
  2: { intros c t. destruct h as [|c' h']; [by destruct Hp|]. intros [= <- _]. by eapply plain_head. }
  change (chr ":" :: port) with ([chr ":"] ++ port). rewrite !count_char_app, !count_char_0 by done.
  cbn [Nat.add Nat.eqb]. unfold rsplit_once. rewrite !rev_app_distr. cbn [rev app].
  rewrite <- app_assoc. cbn [app]. rewrite split_once_app by (rewrite list_elem_of_In, <- in_rev, <- list_elem_of_In; done).
  cbn [fmap option_fmap option_map fst snd]. rewrite !rev_involutive, Hd. unfold is_empty. destruct Hp as [Hh _]. rewrite (bool_decide_eq_false_2 (h = [])), (bool_decide_eq_false_2 (port = [])) by done.
  rewrite (count_char_0 _ port Hcp). done.
Qed.

Lemma host_part_bracket raw h rest :
  plain_host h →
  rest = [] ∨ (∃ port, rest = chr ":" :: port ∧ port ≠ [] ∧ all_digits port = true) →
  host_part raw (chr "[" :: h ++ chr "]" :: rest) = Ok h.
Proof.
  intros Hp Hr. unfold host_part. cbn [strip_prefix]. rewrite decide_True by done.
  rewrite split_once_app; [|apply (plain_not_in _ _ Hp); by apply (bool_decide_unpack _)].
  destruct Hr as [->|(port & -> & Hne & Hd)]; [done|]. cbn [strip_prefix]. rewrite decide_True, Hd by done. unfold is_empty.
  by rewrite (bool_decide_eq_false_2 (port = [])).
Qed.

Lemma lowercase_idemp c : to_ascii_lowercase_char (to_ascii_lowercase_char c) = to_ascii_lowercase_char c.
Proof.
  unfold to_ascii_lowercase_char. destruct (65 <=? c)%N eqn:E1, (c <=? 90)%N eqn:E2; cbn [andb]; rewrite ?E1, ?E2; try done.
  apply N.leb_le in E1. by rewrite (proj2 (N.leb_gt (c + 32) 90)), andb_false_r by lia.
Qed.

Lemma normalize_sound raw n :
  normalize_network_rule_host raw = Ok n →
  n ≠ [] ∧ to_ascii_lowercase n = n ∧ contains (lit "*") n = false ∧ existsb is_whitespace n = false.
Proof.
  unfold normalize_network_rule_host. destruct (is_empty (trim raw)); [done|].
  destruct (_ || _ || _ || _); [done|]. destruct (host_part _ _) as [h| |]; cbn [mbind outcome_bind]; [|done..].
  set (m := to_ascii_lowercase _). unfold is_empty. case_bool_decide; [done|].
  destruct (contains _ m) eqn:Hs; [done|]. destruct (existsb _ m) eqn:Hw; [done|]. intros [= <-].
  split_and!; try done. unfold m, to_ascii_lowercase. rewrite <- list_fmap_compose. apply list_fmap_ext.
  intros i c _. apply lowercase_idemp.
Qed.

(** ** Properties *)
Section properties.
Context (home_dir : option rstring) (current_dir : outcome PathError rstring).

(** The matches of a command: those of rules, or the heuristic one when no rule matches. *)
Lemma matches_cases p cmd fallback resolve :
  let found := matches_for_command_with_options home_dir current_dir p cmd None resolve in
  matches_for_command_with_options home_dir current_dir p cmd (Some fallback) resolve =
    if bool_decide (found = []) then [HeuristicsRuleMatch cmd (fallback cmd)] else found.
Proof using Type. unfold matches_for_command_with_options. by destruct (if bool_decide _ then _ else _). Qed.
Lemma from_matches_strictest l : l ≠ [] → ∃ d, from_matches l = Ok (mk_eval d l) ∧ strictest d (match_decision <$> l).
Proof using Type.
  intros Hl. unfold from_matches. pose proof (max_decision_spec (match_decision <$> l)) as Hm.
  destruct (max_decision _) as [d|]; [eauto|]. by destruct l.
Qed.
Lemma matches_not_nil p cmd fallback resolve : matches_for_command_with_options home_dir current_dir p cmd (Some fallback) resolve ≠ [].
Proof using Type. rewrite matches_cases. by case_bool_decide. Qed.
Lemma check_strictest p cmd fallback resolve :
  let matches := matches_for_command_with_options home_dir current_dir p cmd (Some fallback) resolve in
  ∃ d, check_with_options home_dir current_dir p cmd fallback resolve = Ok (mk_eval d matches) ∧ strictest d (match_decision <$> matches).
Proof using Type. apply from_matches_strictest, matches_not_nil. Qed.
Lemma check_multiple_strictest p commands fallback resolve :
  let matches := λ cmd, matches_for_command_with_options home_dir current_dir p cmd (Some fallback) resolve in
  commands ≠ [] →
  ∃ d, check_multiple_with_options home_dir current_dir p commands fallback resolve = Ok (mk_eval d (commands ≫= matches)) ∧
    strictest d (match_decision <$> (commands ≫= matches)).
Proof using Type.
  intros matches Hc. apply from_matches_strictest. destruct commands as [|cmd commands]; [done|].
  change ((cmd :: commands) ≫= matches) with (matches cmd ++ (commands ≫= matches)).
  pose proof (matches_not_nil p cmd fallback resolve) as Hne. fold (matches cmd) in Hne. by destruct (matches cmd).
Qed.

(** Checking a command always yields an evaluation, of at least one match,
    and its decision is the most restrictive of the matches; checking several
    commands panics exactly when there are none, and its decision is the most
    restrictive of all their matches. *)
Theorem check_is_strictest (p : Policy) (commands : list (list rstring)) fallback resolve :
  let matches := λ cmd, matches_for_command_with_options home_dir current_dir p cmd (Some fallback) resolve in
  (∀ cmd, ∃ d, check_with_options home_dir current_dir p cmd fallback resolve = Ok (mk_eval d (matches cmd)) ∧
               strictest d (match_decision <$> matches cmd)) ∧
  (commands = [] → check_multiple_with_options home_dir current_dir p commands fallback resolve = Panic) ∧
  (commands ≠ [] →
   ∃ d, check_multiple_with_options home_dir current_dir p commands fallback resolve =
          Ok (mk_eval d (commands ≫= matches)) ∧
        strictest d (match_decision <$> (commands ≫= matches))).
Proof.
  intros matches. split_and!; [intros cmd; apply check_strictest|by intros ->|apply check_multiple_strictest].
Qed.

(** Overlays only add: the exact matches of a merged policy are those of
    the base followed by those of the overlay, so an overlay never weakens a
    decision that a rule of the base has taken on a command. *)
Theorem merge_overlay_never_weakens (p overlay : Policy) (cmd : list rstring) fallback resolve :
  exact_matches (merge_overlay p overlay) cmd = exact_matches p cmd ++ exact_matches overlay cmd ∧
  (exact_matches p cmd ≠ [] →
   ∃ e e', check_with_options home_dir current_dir p cmd fallback resolve = Ok e ∧
           check_with_options home_dir current_dir (merge_overlay p overlay) cmd fallback resolve = Ok e' ∧
           decision_rank (decision e) ≤ decision_rank (decision e')).
Proof.
  split; [apply merge_exact_matches|]. intros Hne.
  assert (∀ q, exact_matches q cmd ≠ [] →
    check_with_options home_dir current_dir q cmd fallback resolve = from_matches (exact_matches q cmd)) as Hcheck.
  { intros q Hq. unfold check_with_options, matches_for_command_with_options. fold (exact_matches q cmd).
    rewrite bool_decide_eq_false_2 by done. by destruct (exact_matches q cmd). }
  rewrite !Hcheck; [|rewrite merge_exact_matches; by destruct (exact_matches p cmd)|done].
  rewrite merge_exact_matches. unfold from_matches. rewrite fmap_app, max_decision_app.
  pose proof (max_decision_spec (match_decision <$> exact_matches p cmd)) as Hm.
  destruct (max_decision (match_decision <$> exact_matches p cmd)) as [a|]; [|by destruct (exact_matches p cmd)].
  destruct (max_decision (match_decision <$> exact_matches overlay cmd)) as [b|];
    eexists _, _; (split_and!; [done|done|]); cbn; [rewrite decision_max_rank; lia|lia].
Qed.

(** Adding a prefix rule. *)
Lemma add_prefix_rule_exact p first rest d p' cmd :
  add_prefix_rule p (first :: rest) d = Ok p' →
  exact_matches p' cmd =
    exact_matches p cmd ++ (if decide ((first :: rest) `prefix_of` cmd) then [PrefixRuleMatch (first :: rest) d None None] else []).
Proof using Type.
  intros [= <-]. rewrite !exact_matches_rules. destruct cmd as [|c cmd].
  { rewrite decide_False by (intros [k Hk]; done). done. }
  unfold rules_of. cbn [rules_by_program]. rewrite multi_insert_lookup. case_decide as Hc.
  - subst c. rewrite omap_app. f_equal. cbn. unfold rule_matches. cbn [pattern rule_decision rule_justification].
    destruct (matches_prefix _ _) as [m|] eqn:Em.
    + apply literal_matches in Em as [Hp ->]. by rewrite decide_True.
    + rewrite decide_False; [done|]. intros Hp.
      rewrite (proj2 (literal_matches first rest (first :: cmd) (first :: rest)) (conj Hp eq_refl)) in Em. done.
  - rewrite app_nil_r, decide_False; [by rewrite app_nil_r|]. intros [k [= Hk _]]. congruence.
Qed.

(** A prefix rule decides exactly the commands it is a prefix of: for these
    it adds one match with its decision after the others, and for every
    other command the exact matches are as before. *)
Theorem add_prefix_rule_spec (p : Policy) (prefix : list rstring) (d : Decision) :
  match add_prefix_rule p prefix d with
  | Ok p' => prefix ≠ [] ∧ ∀ cmd,
      exact_matches p' cmd =
        exact_matches p cmd ++ (if decide (prefix `prefix_of` cmd) then [PrefixRuleMatch prefix d None None] else [])
  | Err e => prefix = [] ∧ e = InvalidPattern (lit "prefix cannot be empty")
  | Panic => False
  end.
Proof.
  destruct prefix as [|first rest]; [done|]. split; [done|]. intros cmd. by apply add_prefix_rule_exact.
Qed.

(** ** Lemmas: examples *)
Lemma validate_match_spec try_join debug_rule p rules examples :
  validate_match_examples home_dir current_dir try_join debug_rule p rules examples = Ok () ↔
  ∀ e, e ∈ examples → matches_for_command_with_options home_dir current_dir p e None true ≠ [].
Proof.
  set (matches := λ e, matches_for_command_with_options home_dir current_dir p e None true). unfold validate_match_examples. case_bool_decide as Hf.
  - split; [|done]. intros _ e He Hm. apply fmap_nil_inv in Hf.
    assert (e ∈ filter (λ e, matches e = []) examples) as Hin by (by apply list_elem_of_filter).
    unfold matches in Hin. rewrite Hf in Hin. by apply elem_of_nil in Hin.
  - split; [done|]. intros H. destruct Hf. destruct (filter _ examples) as [|e l] eqn:E; [done|].
    assert (e ∈ filter (λ e, matches e = []) examples) as Hin by (unfold matches; rewrite E; left).
    apply list_elem_of_filter in Hin as [Hm He]. by destruct (H e He).
Qed.

Lemma validate_not_match_spec try_join debug_match p rules examples :
  validate_not_match_examples home_dir current_dir try_join debug_match p rules examples = Ok () ↔
  ∀ e, e ∈ examples → matches_for_command_with_options home_dir current_dir p e None true = [].
Proof.
  set (matches := λ e, matches_for_command_with_options home_dir current_dir p e None true). induction examples as [|e examples IH]; cbn.
  - split; [|done]. intros _ e He. by apply elem_of_nil in He.
  - fold (matches e). destruct (matches e) as [|m l] eqn:Em.
    + rewrite IH. split; [|intros H x Hx; apply H; by right].
      intros H x [->|Hx]%elem_of_cons; auto.
    + split; [done|]. intros H. specialize (H e ltac:(left)). fold (matches e) in H. congruence.
Qed.
End properties.

(** The allow list is strictly increasing, hence free of duplicates, and
    holds the rendered prefix of every allow rule and nothing else. *)
Theorem allowed_prefixes_spec (p : Policy) :
  StronglySorted (λ a b, prefix_cmp a b = Lt) (get_allowed_prefixes p) ∧
  ∀ x, x ∈ get_allowed_prefixes p ↔
    ∃ prog r, r ∈ rules_of p prog ∧ rule_decision r = Allow ∧
              x = pat_first (pattern r) :: (render_pattern_token <$> pat_rest (pattern r)).
Proof.
  unfold get_allowed_prefixes. split; [apply dedup_sorted, (StronglySorted_merge_sort prefix_le)|].
  intros x. rewrite dedup_elem, (merge_sort_Permutation prefix_le), list_elem_of_omap.
  assert (∀ r, r ∈ concat (map_to_list (rules_by_program p)).*2 ↔ ∃ prog, r ∈ rules_of p prog) as Hr.
  { intros r. rewrite list_elem_of_In, in_concat. unfold rules_of. split.
    - intros (l & Hl & Hin). apply list_elem_of_In, list_elem_of_fmap in Hl as ([k l'] & -> & Hk).
      apply elem_of_map_to_list in Hk. exists k. rewrite Hk. by apply list_elem_of_In.
    - intros [k Hk]. destruct (rules_by_program p !! k) as [l|] eqn:E; [|by apply elem_of_nil in Hk].
      exists l. split; [|by apply list_elem_of_In]. apply list_elem_of_In, list_elem_of_fmap.
      exists (k, l). split; [done|]. by apply elem_of_map_to_list. }
  setoid_rewrite Hr. unfold allowed_prefix. split.
  - intros (r & [prog Hp] & Hx). case_decide; [|done]. injection Hx as <-. eauto.
  - intros (prog & r & Hp & Hd & ->). exists r. rewrite decide_True by done. eauto.
Qed.

(** The compiled domain lists hold every host at most once and never both:
    a host is denied, or allowed, if and only if the last rule about it
    that is not a prompt says so. *)
Theorem compiled_domains_last_rule_wins (p : Policy) :
  let '(allowed, denied) := compiled_network_domains p in
  NoDup allowed ∧ NoDup denied ∧
  ∀ h, (h ∈ allowed ↔ last_decisive (network_rules p) h = Some Allow) ∧
       (h ∈ denied ↔ last_decisive (network_rules p) h = Some Forbidden).
Proof. apply domains_spec. Qed.

(** A host that normalises is a host in normal form (not empty, lower case,
    without whitespace or wildcard), and hosts in plain form are what they
    normalise to, alone, with a port, in brackets, or both. *)
Theorem normalize_host_spec :
  (∀ raw n, normalize_network_rule_host raw = Ok n →
     n ≠ [] ∧ to_ascii_lowercase n = n ∧ contains (lit "*") n = false ∧ existsb is_whitespace n = false) ∧
  (∀ h port, plain_host h → port ≠ [] → all_digits port = true →
     (chr ":" ∉ h → normalize_network_rule_host h = Ok h ∧
                    normalize_network_rule_host (h ++ chr ":" :: port) = Ok h) ∧
     normalize_network_rule_host (chr "[" :: h ++ [chr "]"]) = Ok h ∧
     normalize_network_rule_host (chr "[" :: h ++ chr "]" :: chr ":" :: port) = Ok h).
Proof.
  split; [exact normalize_sound|]. intros h port Hp Hne Hd.
  destruct (digits_nice port Hd) as [Hdn _]. pose proof (plain_nice h Hp) as Hn.
  assert (h ≠ []) as Hh by by destruct Hp.
  split_and!; [intros Hc; split|..]; apply normalize_plain; try done;
    repeat first [done|apply Forall_app_2|apply Forall_cons_2].
  - by apply host_part_plain.
  - by destruct h.
  - by apply host_part_port.
  - apply host_part_bracket; auto.
  - apply host_part_bracket; eauto.
Qed.
Lemma normalize_host_spec_witness :
  normalize_network_rule_host (lit " Example.COM.:443 ") = Ok (lit "example.com") ∧
  normalize_network_rule_host (lit "[::1]:80") = Ok (lit "::1").
Proof.
  split; [vm_compute; reflexivity|].
  apply (proj2 normalize_host_spec (lit "::1") (lit "80")); [|done|done].
  split_and!; [done|done|]. repeat constructor; by apply (bool_decide_unpack _).
Defined.
