(* ===== verification/ExecPolicyParser.v ===== *)
(** * The policy file parser ([execpolicy/src/parser.rs])

    The builder, the three built-in functions of a policy file and the parser
    around them.  Starlark itself is a parameter: [ast_parse] reads a file,
    [eval_module] gives the calls of built-in functions the evaluation makes
    (they return nothing, so the calls do not depend on the builder) and the
    error of Starlark's own it ends with, and [builtin_error] wraps the error
    of a built-in function.  [shlex::split] is a parameter too. *)
From S2P Require Import Prelude RustStr RustPath AbsolutePath ExecPolicy.

(** ** Starlark values *)
Inductive Value := VStr (s : rstring) | VList (l : list Value) | VOther (type_name : rstring).
Definition unpack_str (v : Value) : option rstring := match v with VStr s => Some s | _ => None end.
Definition get_type (v : Value) : rstring :=
  match v with VStr _ => lit "string" | VList _ => lit "list" | VOther t => t end.
(** [unpack_str().ok_or_else(..)] *)
Definition string_or (e : rstring → Error) (v : Value) : outcome Error rstring :=
  ok_or (e (get_type v)) (unpack_str v).

Definition parse_pattern_token (v : Value) : outcome Error PatternToken :=
  match v with
  | VStr s => Ok (Single s)
  | VList l =>
      let? tokens := mapM (string_or (λ t, InvalidPattern (lit "pattern alternative must be a string (got "
                                                           ++ t ++ lit ")"))) l in
      match tokens with
      | [] => Err (InvalidPattern (lit "pattern alternatives cannot be empty"))
      | [single] => Ok (Single single)
      | _ => Ok (Alts tokens)
      end
  | VOther t => Err (InvalidPattern (lit "pattern element must be a string or list of strings (got " ++ t ++ lit ")"))
  end.
Definition empty_pattern : Error := InvalidPattern (lit "pattern cannot be empty").
Definition parse_pattern (pattern : list Value) : outcome Error (list PatternToken) :=
  let? tokens := mapM parse_pattern_token pattern in
  if bool_decide (tokens = []) then Err empty_pattern else Ok tokens.

Definition parse_network_rule_decision (raw : rstring) : outcome Error Decision :=
  if bool_decide (raw = lit "deny") then Ok Forbidden else decision_parse raw.

Definition attach_validation_location (e : Error) (location : option ErrorLocation) : Error :=
  match location with Some l => with_location e l | None => e end.
(** [Result::map_err] *)
Definition map_err {A} (f : Error → Error) (m : outcome Error A) : outcome Error A :=
  match m with Err e => Err (f e) | other => other end.

Definition parse_justification (justification : option rstring) : outcome Error (option rstring) :=
  match justification with
  | Some raw => if is_empty (trim raw) then Err (InvalidRule (lit "justification cannot be empty")) else Ok (Some raw)
  | None => Ok None
  end.

(** ** The builder *)
Record PendingExampleValidation := mk_pending {
  pending_rules : list PrefixRule; pending_matches : list (list rstring);
  pending_not_matches : list (list rstring); pending_location : option ErrorLocation
}.
Record PolicyBuilder := mk_builder {
  b_rules : gmap rstring (list PrefixRule);
  b_network_rules : list NetworkRule;
  b_host_executables : gmap rstring (list rstring);
  b_pending : list PendingExampleValidation
}.
Definition builder_new : PolicyBuilder := mk_builder ∅ [] ∅ [].
Definition add_rule (b : PolicyBuilder) (r : PrefixRule) : PolicyBuilder :=
  mk_builder (multi_insert (b_rules b) (program r) r) (b_network_rules b) (b_host_executables b) (b_pending b).
Definition builder_add_network_rule (b : PolicyBuilder) (r : NetworkRule) : PolicyBuilder :=
  mk_builder (b_rules b) (b_network_rules b ++ [r]) (b_host_executables b) (b_pending b).
Definition add_host_executable (b : PolicyBuilder) (name : rstring) (paths : list rstring) : PolicyBuilder :=
  mk_builder (b_rules b) (b_network_rules b) (<[name:=paths]> (b_host_executables b)) (b_pending b).
Definition add_pending_example_validation (b : PolicyBuilder) (v : PendingExampleValidation) : PolicyBuilder :=
  mk_builder (b_rules b) (b_network_rules b) (b_host_executables b) (b_pending b ++ [v]).
Definition build (b : PolicyBuilder) : Policy := mk_policy (b_rules b) (b_network_rules b) (b_host_executables b).

(** The policy an example is checked against: the rules of its own call, and all host executables. *)
Definition validation_policy (b : PolicyBuilder) (v : PendingExampleValidation) : Policy :=
  mk_policy (foldl (λ m r, multi_insert m (program r) r) ∅ (pending_rules v)) [] (b_host_executables b).

Section parser.
Context (home_dir : option rstring) (current_dir : outcome PathError rstring)
  (try_join : list rstring → option rstring) (debug_rule : PrefixRule → rstring) (debug_match : RuleMatch → rstring)
  (shlex_split : rstring → option (list rstring)).

Fixpoint validate_pending (b : PolicyBuilder) (vs : list PendingExampleValidation) : outcome Error unit :=
  match vs with
  | [] => Ok ()
  | v :: rest =>
      let policy := validation_policy b v in
      let at_call e := attach_validation_location e (pending_location v) in
      let? _ := map_err at_call (validate_not_match_examples home_dir current_dir try_join debug_match policy
                                   (pending_rules v) (pending_not_matches v)) in
      let? _ := map_err at_call (validate_match_examples home_dir current_dir try_join debug_rule policy
                                   (pending_rules v) (pending_matches v)) in
      validate_pending b rest
  end.
(** Slicing past the end panics. *)
Definition validate_pending_examples_from (b : PolicyBuilder) (start : nat) : outcome Error unit :=
  if length (b_pending b) <? start then Panic else validate_pending b (drop start (b_pending b)).

(** ** Examples *)
Definition parse_string_example (raw : rstring) : outcome Error (list rstring) :=
  match shlex_split raw with
  | None => Err (InvalidExample (lit "example string has invalid shell syntax"))
  | Some [] => Err (InvalidExample (lit "example cannot be an empty string"))
  | Some tokens => Ok tokens
  end.
Definition parse_list_example (l : list Value) : outcome Error (list rstring) :=
  let? tokens := mapM (string_or (λ t, InvalidExample (lit "example tokens must be strings (got " ++ t ++ lit ")"))) l in
  if bool_decide (tokens = []) then Err (InvalidExample (lit "example cannot be an empty list")) else Ok tokens.
Definition parse_example (v : Value) : outcome Error (list rstring) :=
  match v with
  | VStr raw => parse_string_example raw
  | VList l => parse_list_example l
  | VOther t => Err (InvalidExample (lit "example must be a string or list of strings (got " ++ t ++ lit ")"))
  end.
Definition parse_examples (examples : option (list Value)) : outcome Error (list (list rstring)) :=
  match examples with None => Ok [] | Some l => mapM parse_example l end.

(** ** Host executables *)
Definition parse_literal_absolute_path (raw : rstring) : outcome Error rstring :=
  if negb (is_absolute raw) then Err (InvalidRule (lit "host_executable paths must be absolute (got " ++ raw ++ lit ")"))
  else match from_absolute_path home_dir current_dir raw with
       | Ok p => Ok p
       | Err e => Err (InvalidRule (lit "invalid absolute path `" ++ raw ++ lit "`: " ++ path_error_text e))
       | Panic => Panic
       end.
Definition validate_host_executable_name (name : rstring) : outcome Error unit :=
  if is_empty name then Err (InvalidRule (lit "host_executable name cannot be empty"))
  else if negb (length (components name) =? 1) || negb (bool_decide (file_name name = Some name))
  then Err (InvalidRule (lit "host_executable name must be a bare executable name (got " ++ name ++ lit ")"))
  else Ok ().
Definition wrong_basename (raw name : rstring) : Error :=
  InvalidRule (lit "host_executable path `" ++ raw ++ lit "` must have basename `" ++ name ++ lit "`").
Definition push_path (name : rstring) (parsed : list rstring) (v : Value) : outcome Error (list rstring) :=
  let? raw := string_or (λ t, InvalidRule (lit "host_executable paths must be strings (got " ++ t ++ lit ")")) v in
  let? path := parse_literal_absolute_path raw in
  match executable_path_lookup_key path with
  | None => Err (wrong_basename raw name)
  | Some path_name =>
      if negb (bool_decide (path_name = executable_lookup_key name)) then Err (wrong_basename raw name)
      else if existsb (λ q, bool_decide (path_eq q path)) parsed then Ok parsed else Ok (parsed ++ [path])
  end.
Fixpoint parse_paths (name : rstring) (parsed : list rstring) (vs : list Value) : outcome Error (list rstring) :=
  match vs with
  | [] => Ok parsed
  | v :: rest => let? parsed := push_path name parsed v in parse_paths name parsed rest
  end.

(** ** The built-in functions *)
Definition expand_rules (first_token : PatternToken) (rest : list PatternToken) (d : Decision)
    (justification : option rstring) : list PrefixRule :=
  (λ head, mk_rule (mk_pattern head rest) d justification) <$> alternatives first_token.

Definition prefix_rule (b : PolicyBuilder) (pattern : list Value) (decision : option rstring)
    (matches not_matches : option (list Value)) (justification : option rstring) (location : option FileSpan)
    : outcome Error PolicyBuilder :=
  let? d := match decision with Some raw => decision_parse raw | None => Ok Allow end in
  let? justification := parse_justification justification in
  let? pattern_tokens := parse_pattern pattern in
  let? matches := parse_examples matches in
  let? not_matches := parse_examples not_matches in
  match pattern_tokens with
  | [] => Err empty_pattern
  | first_token :: rest =>
      let rules := expand_rules first_token rest d justification in
      let b := add_pending_example_validation b
                 (mk_pending rules matches not_matches (error_location_from_file_span <$> location)) in
      Ok (foldl add_rule b rules)
  end.

Definition network_rule (b : PolicyBuilder) (host protocol decision : rstring) (justification : option rstring)
    : outcome Error PolicyBuilder :=
  let? protocol := protocol_parse protocol in
  let? d := parse_network_rule_decision decision in
  let? justification := parse_justification justification in
  let? host := normalize_network_rule_host host in
  Ok (builder_add_network_rule b (mk_net host protocol d justification)).

Definition host_executable (b : PolicyBuilder) (name : rstring) (paths : list Value) : outcome Error PolicyBuilder :=
  let? _ := validate_host_executable_name name in
  let? parsed := parse_paths name [] paths in
  Ok (add_host_executable b (executable_lookup_key name) parsed).

Inductive Call :=
| PrefixRuleCall (pattern : list Value) (decision : option rstring) (matches not_matches : option (list Value))
    (justification : option rstring) (location : option FileSpan)
| NetworkRuleCall (host protocol decision : rstring) (justification : option rstring)
| HostExecutableCall (name : rstring) (paths : list Value).

Definition call_builtin (b : PolicyBuilder) (c : Call) : outcome Error PolicyBuilder :=
  match c with
  | PrefixRuleCall pattern d m nm j l => prefix_rule b pattern d m nm j l
  | NetworkRuleCall h p d j => network_rule b h p d j
  | HostExecutableCall name paths => host_executable b name paths
  end.

(** ** The parser *)
Context {Ast : Type} (ast_parse : rstring → rstring → outcome StarlarkError Ast)
  (eval_module : Ast → list Call * option StarlarkError) (builtin_error : Error → StarlarkError).

(** The calls of an evaluation, up to the first that fails: the builder is changed in place. *)
Fixpoint run_calls (b : PolicyBuilder) (calls : list Call) (ends : option StarlarkError)
    : PolicyBuilder * outcome Error unit :=
  match calls with
  | [] => (b, match ends with Some e => Err (Starlark e) | None => Ok () end)
  | c :: rest =>
      match call_builtin b c with
      | Ok b => run_calls b rest ends
      | Err e => (b, Err (Starlark (builtin_error e)))
      | Panic => (b, Panic)
      end
  end.

Definition parse (b : PolicyBuilder) (policy_identifier contents : rstring) : PolicyBuilder * outcome Error unit :=
  let pending_validation_count := length (b_pending b) in
  match ast_parse policy_identifier contents with
  | Err e => (b, Err (Starlark e))
  | Panic => (b, Panic)
  | Ok ast =>
      let '(calls, ends) := eval_module ast in
      match run_calls b calls ends with
      | (b, Ok _) => (b, validate_pending_examples_from b pending_validation_count)
      | failed => failed
      end
  end.
End parser.

(** ** Lemmas: rules *)
Lemma multi_insert_rules m rules prog :
  default [] (foldl (λ m r, multi_insert m (program r) r) m rules !! prog) =
  default [] (m !! prog) ++ filter (λ r, program r = prog) rules.
Proof.
  revert m. induction rules as [|r rules IH]; intros m; cbn [foldl]; [by rewrite app_nil_r|].
  rewrite IH, multi_insert_lookup, filter_cons, <- app_assoc. by case_decide.
Qed.

Lemma add_rules_b_rules b rules :
  b_rules (foldl add_rule b rules) = foldl (λ m r, multi_insert m (program r) r) (b_rules b) rules ∧
  b_network_rules (foldl add_rule b rules) = b_network_rules b ∧
  b_host_executables (foldl add_rule b rules) = b_host_executables b ∧
  b_pending (foldl add_rule b rules) = b_pending b.
Proof. revert b. induction rules as [|r rules IH]; intros b; [done|]. cbn. by destruct (IH (add_rule b r)) as (-> & -> & -> & ->). Qed.

Lemma add_rules_rules_of b rules prog :
  rules_of (build (foldl add_rule b rules)) prog = rules_of (build b) prog ++ filter (λ r, program r = prog) rules.
Proof. unfold rules_of. cbn [build rules_by_program]. destruct (add_rules_b_rules b rules) as (-> & _). apply multi_insert_rules. Qed.

Lemma validation_rules_of b v prog :
  rules_of (validation_policy b v) prog = filter (λ r, program r = prog) (pending_rules v).
Proof. unfold rules_of. cbn [validation_policy rules_by_program]. by rewrite multi_insert_rules, lookup_empty. Qed.

(** The rules of a call that concern the program [c]: one for each time it is listed. *)
Definition occurrences (c : rstring) (t : PatternToken) : nat := length (filter (eq c) (alternatives t)).
Lemma expand_rules_of first rest d j c :
  filter (λ r, program r = c) (expand_rules first rest d j) =
  replicate (occurrences c first) (mk_rule (mk_pattern c rest) d j).
Proof.
  unfold expand_rules, occurrences. induction (alternatives first) as [|a l IH]; [done|].
  rewrite fmap_cons, !filter_cons, IH. unfold program at 1. cbn [pattern pat_first].
  destruct (decide (a = c)) as [->|Hn]; [by rewrite decide_True|]. by rewrite decide_False.
Qed.

Lemma occurrences_pos c t : 0 < occurrences c t ↔ token_matches t c = true.
Proof.
  unfold occurrences. assert (token_matches t c = true ↔ c ∈ alternatives t) as ->.
  { destruct t as [e|alts]; cbn.
    - rewrite (list_elem_of_singleton c e). case_bool_decide; split; congruence.
    - rewrite existsb_exists. split.
      + intros (a & Ha & E). apply (bool_decide_eq_true_1 _) in E as ->. by apply list_elem_of_In.
      + intros H. exists c. split; [by apply list_elem_of_In|]. by apply (bool_decide_eq_true_2 _). }
  split.
  - intros H. destruct (filter (eq c) (alternatives t)) as [|x l] eqn:E; [cbn in H; lia|].
    assert (x ∈ filter (eq c) (alternatives t)) as [<- ?]%list_elem_of_filter by (rewrite E; left). done.
  - intros H. destruct (filter (eq c) (alternatives t)) as [|x l] eqn:E; [|cbn; lia].
    assert (c ∈ filter (eq c) (alternatives t)) as Hin by (by apply list_elem_of_filter).
    rewrite E in Hin. by apply elem_of_nil in Hin.
Qed.

(** The reference: a pattern, its first token included, matches a command
    token by token, and what it matches is the start of the command. *)
Definition pattern_prefix (tokens : list PatternToken) (cmd : list rstring) : option (list rstring) :=
  let toks := take (length tokens) cmd in
  if decide (Forall2 (λ t tok, token_matches t tok = true) tokens toks) then Some toks else None.

Lemma matches_prefix_fun c rest cmd :
  matches_prefix (mk_pattern c rest) (c :: cmd) =
  if decide (Forall2 (λ t tok, token_matches t tok = true) rest (take (length rest) cmd))
  then Some (c :: take (length rest) cmd) else None.
Proof.
  case_decide as H.
  - apply matches_prefix_spec. exists (take (length rest) cmd), (drop (length rest) cmd). by rewrite take_drop.
  - destruct (matches_prefix _ _) as [m|] eqn:E; [|done].
    apply matches_prefix_spec in E as (toks & r & [= ->] & -> & Hf). destruct H.
    pose proof (Forall2_length _ _ _ Hf) as Hl. cbn [pat_rest] in *. by rewrite Hl, take_app_length.
Qed.

Lemma omap_replicate {A B} (f : A → option B) n x :
  omap f (replicate n x) = match f x with Some y => replicate n y | None => [] end.
Proof. induction n as [|n IH]; cbn; [by destruct (f x)|]. rewrite IH. by destruct (f x). Qed.

Lemma expanded_matches first rest d j c cmd :
  omap (λ r, rule_matches r (c :: cmd)) (replicate (occurrences c first) (mk_rule (mk_pattern c rest) d j)) =
  match pattern_prefix (first :: rest) (c :: cmd) with
  | Some toks => replicate (occurrences c first) (PrefixRuleMatch toks d None j)
  | None => []
  end.
Proof.
  rewrite omap_replicate. unfold rule_matches. cbn [pattern rule_decision rule_justification].
  rewrite matches_prefix_fun. unfold pattern_prefix. cbn [length take].
  destruct (decide (Forall2 _ rest _)) as [Hr|Hr]; cbn.
  - destruct (decide (Forall2 _ (first :: rest) _)) as [Hf|Hf]; [done|].
    destruct (occurrences c first) as [|n] eqn:E; [done|]. destruct Hf. constructor; [|done].
    apply occurrences_pos. lia.
  - rewrite decide_False; [done|]. by inversion 1.
Qed.

Lemma expand_matches b first rest d j cmd :
  exact_matches (build (foldl add_rule b (expand_rules first rest d j))) cmd =
  exact_matches (build b) cmd ++
    match pattern_prefix (first :: rest) cmd with
    | Some toks => replicate (occurrences (default [] (head cmd)) first) (PrefixRuleMatch toks d None j)
    | None => []
    end.
Proof.
  rewrite !exact_matches_rules. destruct cmd as [|c cmd].
  { unfold pattern_prefix. rewrite decide_False; [done|]. by inversion 1. }
  rewrite add_rules_rules_of, omap_app, expand_rules_of, expanded_matches. done.
Qed.

(** ** Lemmas: validation *)
Section lemmas.
Context (home_dir : option rstring) (current_dir : outcome PathError rstring)
  (try_join : list rstring → option rstring) (debug_rule : PrefixRule → rstring) (debug_match : RuleMatch → rstring)
  (shlex_split : rstring → option (list rstring)).
Abbreviation matches_of p e := (matches_for_command_with_options home_dir current_dir p e None true).

Lemma omap_subset (p q : Policy) prog cmd :
  (∀ r, r ∈ rules_of p prog → r ∈ rules_of q prog) →
  omap (λ r, rule_matches r cmd) (rules_of q prog) = [] → omap (λ r, rule_matches r cmd) (rules_of p prog) = [].
Proof using Type.
  intros Hs Hq. destruct (omap _ (rules_of p prog)) as [|m l] eqn:E; [done|].
  assert (m ∈ omap (λ r, rule_matches r cmd) (rules_of p prog)) as Hm by (rewrite E; left).
  apply list_elem_of_omap in Hm as (r & Hr & Hm).
  assert (m ∈ omap (λ r, rule_matches r cmd) (rules_of q prog)) as Hin.
  { apply list_elem_of_omap. exists r. auto. }
  rewrite Hq in Hin. by apply elem_of_nil in Hin.
Qed.

Lemma host_rules_of p cmd :
  match_host_executable_rules home_dir current_dir p cmd =
  match cmd with
  | [] => []
  | first :: rest =>
      match from_absolute_path home_dir current_dir first with
      | Ok prog =>
          match executable_path_lookup_key prog with
          | Some basename =>
              if match host_executables_by_name p !! basename with
                 | Some paths => negb (existsb (λ q, bool_decide (path_eq q prog)) paths)
                 | None => false
                 end then []
              else (λ m, with_resolved_program m prog) <$>
                     omap (λ r, rule_matches r (basename :: rest)) (rules_of p basename)
          | None => []
          end
      | _ => []
      end
  end.
Proof using Type.
  unfold match_host_executable_rules, rules_of. destruct cmd as [|first rest]; [done|].
  destruct (from_absolute_path _ _ first) as [prog| |]; [|done..].
  destruct (executable_path_lookup_key prog) as [base|]; [|done].
  destruct (rules_by_program p !! base) as [rules|]; [done|]. cbn. by case_match; [case_match|].
Qed.

(** More rules, with the same host executables, match whatever fewer do. *)
Lemma matches_mono p q cmd :
  host_executables_by_name p = host_executables_by_name q →
  (∀ prog r, r ∈ rules_of p prog → r ∈ rules_of q prog) →
  matches_of q cmd = [] → matches_of p cmd = [].
Proof using Type.
  intros Hh Hr. unfold matches_for_command_with_options. fold (exact_matches q cmd) (exact_matches p cmd).
  rewrite !exact_matches_rules, !host_rules_of. destruct cmd as [|first rest]; [done|].
  set (mq := omap _ (rules_of q first)). set (mp := omap _ (rules_of p first)).
  destruct (decide (mq = [])) as [Hq|Hq].
  - assert (mp = []) as Hp by (eapply omap_subset; [apply Hr|exact Hq]).
    rewrite !bool_decide_eq_true_2 by done. destruct (from_absolute_path _ _ first) as [prog| |]; [|done..].
    destruct (executable_path_lookup_key prog) as [base|]; [|done]. rewrite Hh.
    match goal with |- context [if ?c then [] else _ <$> _] => destruct c; [done|] end.
    intros He. assert (omap (λ r, rule_matches r (base :: rest)) (rules_of q base) = []) as Hb.
    { destruct (omap _ (rules_of q base)); done. }
    by rewrite (omap_subset p q base (base :: rest) (Hr base) Hb).
  - rewrite (bool_decide_eq_false_2 (mq = [])) by done. by destruct mq.
Qed.

Definition examples_hold (p : Policy) (v : PendingExampleValidation) : Prop :=
  (∀ e, e ∈ pending_matches v → matches_of p e ≠ []) ∧ (∀ e, e ∈ pending_not_matches v → matches_of p e = []).

Lemma map_err_Ok {A} f (m : outcome Error A) a : map_err f m = Ok a ↔ m = Ok a.
Proof using Type. destruct m; cbn; split; congruence. Qed.

Lemma validate_pending_spec b vs :
  validate_pending home_dir current_dir try_join debug_rule debug_match b vs = Ok () ↔
  ∀ v, v ∈ vs → examples_hold (validation_policy b v) v.
Proof using Type.
  induction vs as [|v vs IH]; cbn.
  { split; [|done]. intros _ v Hv. by apply elem_of_nil in Hv. }
  split.
  - intros ([] & H1 & ([] & H2 & H3)%bind_Ok)%bind_Ok. apply map_err_Ok in H1, H2.
    pose proof (proj1 (validate_not_match_spec _ _ _ _ _ _ _) H1).
    pose proof (proj1 (validate_match_spec _ _ _ _ _ _ _) H2). intros w [->|Hw]%elem_of_cons; [done|]. by apply IH.
  - intros H. pose proof (H v ltac:(left)) as [H1 H2].
    apply bind_Ok. exists (). split; [by apply map_err_Ok, validate_not_match_spec|].
    apply bind_Ok. exists (). split; [by apply map_err_Ok, validate_match_spec|].
    apply IH. intros w Hw. apply H. by right.
Qed.

(** ** Lemmas: the calls of a file *)
(** What a successful call of [prefix_rule] did. *)
Lemma prefix_rule_inv b pattern decision m nm j l b' :
  prefix_rule shlex_split b pattern decision m nm j l = Ok b' →
  ∃ first rest d es nes,
    parse_pattern pattern = Ok (first :: rest) ∧
    match decision with Some raw => decision_parse raw | None => Ok Allow end = Ok d ∧
    parse_justification j = Ok j ∧
    parse_examples shlex_split m = Ok es ∧ parse_examples shlex_split nm = Ok nes ∧
    let rules := expand_rules first rest d j in
    b' = foldl add_rule (add_pending_example_validation b
           (mk_pending rules es nes (error_location_from_file_span <$> l))) rules.
Proof using Type.
  intros H. unfold prefix_rule in H. inv_ok H. destruct x1 as [|first rest]; [done|]. injection H as <-.
  assert (x0 = j) as ->.
  { destruct j as [raw|]; cbn in *; [destruct (is_empty _)|]; congruence. }
  exists first, rest, x, x2, x3. done.
Qed.

Definition grows (b b' : PolicyBuilder) : Prop :=
  (∀ prog r, r ∈ rules_of (build b) prog → r ∈ rules_of (build b') prog) ∧ b_pending b `prefix_of` b_pending b'.

#[local] Instance grows_preorder : PreOrder grows.
Proof.
  split; [by intros b; split|]. intros a b c [H1 H2] [H3 H4]. split; [auto|by etrans].
Qed.

Lemma grows_add_rules b rules : grows b (foldl add_rule b rules).
Proof using Type.
  split.
  - intros prog r Hr. rewrite add_rules_rules_of. apply elem_of_app. by left.
  - by destruct (add_rules_b_rules b rules) as (_ & _ & _ & ->).
Qed.

Lemma call_grows b c b' : call_builtin home_dir current_dir shlex_split b c = Ok b' → grows b b'.
Proof using Type.
  destruct c as [pattern d m nm j l|h p d j|name paths]; cbn.
  - intros (first & rest & d' & es & nes & _ & _ & _ & _ & _ & ->)%prefix_rule_inv.
    etrans; [|apply grows_add_rules]. split; [done|]. cbn. by apply prefix_app_r.
  - intros H. unfold network_rule in H. inv_ok H. by subst.
  - intros H. unfold host_executable in H. inv_ok H. by subst.
Qed.

Context {Ast : Type} (ast_parse : rstring → rstring → outcome StarlarkError Ast)
  (eval_module : Ast → list Call * option StarlarkError) (builtin_error : Error → StarlarkError).

(** A successful run registered the examples of every call with its own rules, which are in the policy. *)
Lemma run_calls_registers calls : ∀ ends b b',
  run_calls home_dir current_dir shlex_split builtin_error b calls ends = (b', Ok ()) →
  ends = None ∧ grows b b' ∧
  ∀ pattern d m nm j l, PrefixRuleCall pattern d m nm j l ∈ calls →
    ∃ v, v ∈ drop (length (b_pending b)) (b_pending b') ∧
         parse_examples shlex_split m = Ok (pending_matches v) ∧
         parse_examples shlex_split nm = Ok (pending_not_matches v) ∧
         (∃ first rest d', parse_pattern pattern = Ok (first :: rest) ∧
                           pending_rules v = expand_rules first rest d' j) ∧
         ∀ prog r, r ∈ rules_of (validation_policy b' v) prog → r ∈ rules_of (build b') prog.
Proof using Type.
  induction calls as [|c calls IH]; intros ends b b'; cbn [run_calls].
  { intros [= <- He]. destruct ends; [done|]. split_and!; [done|done|]. intros * Hin. by apply elem_of_nil in Hin. }
  destruct (call_builtin _ _ _ b c) as [b1| |] eqn:Hc; [|done..]. intros Hrun.
  pose proof (call_grows _ _ _ Hc) as Hg. destruct (IH _ _ _ Hrun) as (He & Hg' & Hreg).
  split_and!; [done|by etrans|]. intros pattern d m nm j l [Heq|Hin]%elem_of_cons.
  - subst c. cbn in Hc. apply prefix_rule_inv in Hc as (first & rest & d' & es & nes & Hp & _ & _ & Hes & Hnes & Hb).
    cbn zeta in Hb. set (v := mk_pending _ _ _ _) in Hb. exists v. split; [|split; [exact Hes|split; [exact Hnes|split; [by exists first, rest, d'|]]]].
    + destruct Hg' as [_ [k Hk]]. rewrite Hk, Hb.
      destruct (add_rules_b_rules (add_pending_example_validation b v) (expand_rules first rest d' j)) as (_ & _ & _ & ->).
      cbn [add_pending_example_validation b_pending]. rewrite <- app_assoc, drop_app_length. left.
    + intros prog r Hr. apply Hg'. rewrite validation_rules_of in Hr. rewrite Hb, add_rules_rules_of.
      apply elem_of_app. by right.
  - destruct (Hreg _ _ _ _ _ _ Hin) as (v & Hv & Hrest). exists v. split; [|exact Hrest].
    destruct Hg as [_ [k Hk]]. rewrite Hk, length_app in Hv.
    rewrite <- drop_drop in Hv. apply list_elem_of_In. apply list_elem_of_In in Hv.
    rewrite <- (take_drop (length k) (drop _ _)). apply in_or_app. by right.
Qed.

Lemma push_path_inv name parsed v parsed' :
  push_path home_dir current_dir name parsed v = Ok parsed' →
  ∃ path, canonical path ∧ file_name path = Some name ∧
          ((path ∈ parsed ∧ parsed' = parsed) ∨ (¬ (∃ q, q ∈ parsed ∧ path_eq q path) ∧ parsed' = parsed ++ [path])
           ∨ (∃ q, q ∈ parsed ∧ path_eq q path ∧ parsed' = parsed)).
Proof using Type.
  unfold push_path. intros (raw & _ & (path & Hp & H)%bind_Ok)%bind_Ok. exists path.
  assert (canonical path) as Hc.
  { unfold parse_literal_absolute_path in Hp. destruct (is_absolute raw) eqn:Ha; [cbn [negb] in Hp|done].
    destruct (from_absolute_path _ _ raw) as [p| |] eqn:Hf; [|done..]. injection Hp as <-.
    unfold from_absolute_path in Hf.
    assert (maybe_expand_home_directory home_dir raw = raw) as E.
    { unfold maybe_expand_home_directory. apply (bool_decide_eq_true_1 _) in Ha. destruct raw as [|c raw]; [done|].
      injection Ha as ->. by destruct home_dir. }
    rewrite E in Hf. unfold absolutize in Hf. rewrite Ha in Hf. injection Hf as <-.
    destruct (normalize_absolute raw Ha) as [Hs ->]. by eexists. }
  unfold executable_path_lookup_key, executable_lookup_key in H. destruct (file_name path) as [f|]; [|done].
  cbn [fmap option_fmap option_map] in H. case_bool_decide as Hn; [subst f|done]. cbn [negb] in H.
  split_and!; [done|done|]. destruct (existsb _ parsed) eqn:He; injection H as <-.
  - right; right. apply existsb_exists in He as (q & Hq & E). apply (bool_decide_eq_true_1 _) in E.
    exists q. split; [by apply list_elem_of_In|done].
  - right; left. split; [|done]. intros (q & Hq & E).
    assert (existsb (λ q, bool_decide (path_eq q path)) parsed = true) as Ht; [|congruence].
    apply existsb_exists. exists q. split; [by apply list_elem_of_In|by apply (bool_decide_eq_true_2 _)].
Qed.

Definition paths_ok (name : rstring) (l : list rstring) : Prop :=
  NoDup l ∧ Forall (λ p, canonical p ∧ file_name p = Some name) l.

Lemma parse_paths_ok name vs : ∀ parsed ps,
  paths_ok name parsed → parse_paths home_dir current_dir name parsed vs = Ok ps → paths_ok name ps.
Proof using Type.
  induction vs as [|v vs IH]; intros parsed ps Hok; cbn; [by intros [= <-]|].
  intros (parsed' & Hv & Hr)%bind_Ok. apply (IH parsed'); [|done].
  apply push_path_inv in Hv as (path & Hc & Hf & [[_ ->]|[[Hn ->]|(q & _ & _ & ->)]]); [done| |done].
  destruct Hok as [Hnd Hall]. split.
  - apply NoDup_app. split_and!; [done| |apply NoDup_singleton].
    intros x Hx ->%list_elem_of_singleton. apply Hn. by exists path.
  - apply Forall_app. split; [done|by constructor].
Qed.

(** ** Properties *)

(** A [prefix_rule] call stands for the pattern it is given: afterwards a
    command gets, after the matches it had, one match with the decision and
    justification of the call for every time its program is listed in the
    first element, if the pattern matches the command token by token, and no
    other; network rules and host executables stay as they were. *)
Theorem prefix_rule_expands b pattern decision m nm j l b' :
  prefix_rule shlex_split b pattern decision m nm j l = Ok b' →
  ∃ first rest d,
    parse_pattern pattern = Ok (first :: rest) ∧
    match decision with Some raw => decision_parse raw | None => Ok Allow end = Ok d ∧
    (∀ cmd, exact_matches (build b') cmd =
       exact_matches (build b) cmd ++
       match pattern_prefix (first :: rest) cmd with
       | Some toks => replicate (occurrences (default [] (head cmd)) first) (PrefixRuleMatch toks d None j)
       | None => []
       end) ∧
    network_rules (build b') = network_rules (build b) ∧
    host_executables_by_name (build b') = host_executables_by_name (build b).
Proof using Type.
  intros (first & rest & d & es & nes & Hp & Hd & _ & _ & _ & ->)%prefix_rule_inv. exists first, rest, d.
  set (b1 := add_pending_example_validation _ _).
  destruct (add_rules_b_rules b1 (expand_rules first rest d j)) as (_ & Hnet & Hhost & _).
  split_and!; [done|done| |exact Hnet|exact Hhost]. intros cmd. exact (expand_matches b1 first rest d j cmd).
Qed.

(** What an accepted file says of its examples is true: all of its calls
    succeeded, every positive example of every [prefix_rule] call is matched
    by the policy that is built, and no negative example is matched by the
    rules of its own call. *)
Theorem accepted_examples_hold b id contents b' :
  parse home_dir current_dir try_join debug_rule debug_match shlex_split ast_parse eval_module builtin_error
    b id contents = (b', Ok ()) →
  ∃ ast calls, ast_parse id contents = Ok ast ∧ eval_module ast = (calls, None) ∧
  ∀ pattern d m nm j l, PrefixRuleCall pattern d m nm j l ∈ calls →
    ∃ es nes own, parse_examples shlex_split m = Ok es ∧ parse_examples shlex_split nm = Ok nes ∧
      (∀ e, e ∈ es → matches_of (build b') e ≠ []) ∧
      (∀ e, e ∈ nes → matches_of own e = []) ∧
      ∃ first rest d', parse_pattern pattern = Ok (first :: rest) ∧
        (∀ prog, rules_of own prog = replicate (occurrences prog first) (mk_rule (mk_pattern prog rest) d' j)) ∧
        host_executables_by_name own = host_executables_by_name (build b').
Proof using Type.
  unfold parse. destruct (ast_parse id contents) as [ast| |]; [|done..].
  destruct (eval_module ast) as [calls ends] eqn:Hev.
  destruct (run_calls _ _ _ _ b calls ends) as [b1 [[]| |]] eqn:Hrun; [|done..]. intros [= <- Hval].
  destruct (run_calls_registers _ _ _ _ Hrun) as (-> & _ & Hreg). exists ast, calls. split_and!; [done|done|].
  intros pattern d m nm j l Hin. destruct (Hreg _ _ _ _ _ _ Hin) as (v & Hv & Hes & Hnes & (first & rest & d' & Hp & Hrules) & Hsub).
  unfold validate_pending_examples_from in Hval. destruct (_ <? _); [done|].
  destruct (proj1 (validate_pending_spec _ _) Hval v Hv) as [Hpos Hneg].
  exists (pending_matches v), (pending_not_matches v), (validation_policy b1 v). split_and!; [done|done| |exact Hneg|].
  - intros e He Hm. apply (Hpos e He). by apply (matches_mono (validation_policy b1 v) (build b1)).
  - exists first, rest, d'. split_and!; [done| |done]. intros prog.
    by rewrite validation_rules_of, Hrules, expand_rules_of.
Qed.

(** A [host_executable] call binds its name to a list of distinct
    canonical absolute paths whose file name is that name. *)
Theorem host_executable_paths_valid b name paths b' :
  host_executable home_dir current_dir b name paths = Ok b' →
  ∃ ps, b' = add_host_executable b name ps ∧ NoDup ps ∧
        ∀ p, p ∈ ps → canonical p ∧ file_name p = Some name.
Proof using Type.
  unfold host_executable. intros ([] & _ & (ps & Hps & [= <-])%bind_Ok)%bind_Ok. exists ps. split; [done|].
  destruct (parse_paths_ok name paths [] ps) as [Hnd Hall]; [split; [apply NoDup_nil_2|done]|done|].
  split; [done|]. by apply Forall_forall.
Qed.
End lemmas.

Lemma prefix_rule_expands_witness :
  let b' := prefix_rule (λ _, None) builder_new [VList [VStr (lit "git"); VStr (lit "hg")]; VStr (lit "status")]
              (Some (lit "forbidden")) None None None None in
  exact_matches (build (match b' with Ok b' => b' | _ => builder_new end)) [lit "hg"; lit "status"; lit "-s"] =
    [PrefixRuleMatch [lit "hg"; lit "status"] Forbidden None None].
Proof.
  intros b'. destruct b' as [b1| |] eqn:E; [|vm_compute in E; discriminate..]. unfold b' in E.
  destruct (prefix_rule_expands _ _ _ _ _ _ _ _ _ E) as (first & rest & d & Hp & Hd & H & _).
  vm_compute in Hp. injection Hp as <- <-. cbn in Hd. injection Hd as <-. rewrite H. vm_compute. reflexivity.
Defined.

(** A file with one rule that carries a positive and a negative example. *)
Definition sample_calls : list Call :=
  [PrefixRuleCall [VStr (lit "ls")] None (Some [VList [VStr (lit "ls"); VStr (lit "-l")]])
     (Some [VList [VStr (lit "rm")]]) None None].
Lemma accepted_examples_hold_witness :
  ∃ b', parse None (Err WithoutBase) (λ _, None) (λ _, []) (λ _, []) (λ _, None) (λ _ _, Ok tt) (λ _, (sample_calls, None))
          (λ _, mk_starlark [] None) builder_new [] [] = (b', Ok ()) ∧
        ∃ ast calls, (λ _ _ : rstring, Ok tt : outcome StarlarkError ()) [] [] = Ok ast ∧ (λ _ : (), (sample_calls, @None StarlarkError)) ast = (calls, None).
Proof.
  eexists. split; [vm_compute; reflexivity|].
  edestruct (accepted_examples_hold None (Err WithoutBase) (λ _, None) (λ _, []) (λ _, []) (λ _, None)
    (λ _ _, Ok tt) (λ _, (sample_calls, None)) (λ _, mk_starlark [] None) builder_new [] []) as (ast & calls & H1 & H2 & _);
    [vm_compute; reflexivity|].
  by exists ast, calls.
Defined.

Lemma host_executable_paths_valid_witness :
  ∃ ps b', host_executable None (Err WithoutBase) builder_new (lit "git")
             [VStr (lit "/usr/bin/git"); VStr (lit "/usr//bin/./git"); VStr (lit "/opt/git")] = Ok b' ∧
           b' = add_host_executable builder_new (lit "git") ps ∧ length ps = 2.
Proof.
  edestruct (host_executable_paths_valid None (Err WithoutBase) builder_new (lit "git")
             [VStr (lit "/usr/bin/git"); VStr (lit "/usr//bin/./git"); VStr (lit "/opt/git")]) as (ps & Hb & _);
    [vm_compute; reflexivity|].
  exists [lit "/usr/bin/git"; lit "/opt/git"]. eexists. split; [vm_compute; reflexivity|]. split; [vm_compute; reflexivity|done].
Defined.
