(* ===== verification/ExecPolicyAmend.v ===== *)
(** * Amending a policy file ([execpolicy/src/amend.rs])

    A rule is appended to the file as a line of its own, under an advisory
    lock, unless the file holds that line already.  The policy file is its
    contents, or nothing when it does not exist; what every system call of
    one append does is a record of faults, where a failing write may have
    written the start of its bytes.  [serde_json::to_string] on a string is a
    parameter. *)
From S2P Require Import Prelude RustStr RustPath ExecPolicy.

Inductive AmendError :=
| EmptyPrefix
| InvalidNetworkRule (message : rstring)
| MissingParent (path : rstring)
| CreatePolicyDir (dir source : rstring)
| SerializePrefix (source : rstring)
| SerializeNetworkRule (source : rstring)
| OpenPolicyFile (path source : rstring)
| WritePolicyFile (path source : rstring)
| LockPolicyFile (path source : rstring)
| SeekPolicyFile (path source : rstring)
| ReadPolicyFile (path source : rstring).

(** The result of [create_dir], and the failures of the other calls; a failing
    write says how much of its text reached the file. *)
Inductive DirResult := DirCreated | DirExists | DirError (source : rstring).
Record Faults := mk_faults {
  on_create_dir : DirResult; on_open : option rstring; on_lock : option rstring; on_seek : option rstring;
  on_read : option rstring; on_newline : option (nat * rstring); on_line : option (nat * rstring)
}.
Definition no_faults : Faults := mk_faults DirExists None None None None None None.

Section amend.
Context (to_json : rstring → rstring + rstring) (debug_strings : list rstring → rstring).

(** [Display] of the policy errors. *)
Definition error_text (e : Error) : rstring :=
  match e with
  | InvalidDecision raw => lit "invalid decision: " ++ raw
  | InvalidPattern m => lit "invalid pattern element: " ++ m
  | InvalidExample m => lit "invalid example: " ++ m
  | InvalidRule m => lit "invalid rule: " ++ m
  | ExampleDidNotMatch rules examples _ =>
      lit "expected every example to match at least one rule. rules: " ++ debug_strings rules
        ++ lit "; unmatched examples: " ++ debug_strings examples
  | ExampleDidMatch rule example _ => lit "expected example to not match rule `" ++ rule ++ lit "`: " ++ example
  | Starlark e => lit "starlark error: " ++ starlark_text e
  end.

(** [write_all] in append mode. *)
Definition write_all (contents bytes : rstring) (fault : option (nat * rstring)) : rstring * outcome rstring unit :=
  match fault with
  | None => (contents ++ bytes, Ok ())
  | Some (written, source) => (contents ++ take written bytes, Err source)
  end.

Definition append_locked_line (faults : Faults) (path : rstring) (file : option rstring) (line : rstring)
    : option rstring * outcome AmendError unit :=
  match on_open faults with
  | Some source => (file, Err (OpenPolicyFile path source))
  | None =>
      let contents := default [] file in
      match on_lock faults, on_seek faults, on_read faults with
      | Some source, _, _ => (Some contents, Err (LockPolicyFile path source))
      | None, Some source, _ => (Some contents, Err (SeekPolicyFile path source))
      | None, None, Some source => (Some contents, Err (ReadPolicyFile path source))
      | None, None, None =>
          if existsb (λ existing, bool_decide (existing = line)) (lines contents) then (Some contents, Ok ())
          else
            let needs_newline := negb (is_empty contents) && negb (ends_with contents [newline]) in
            match (if needs_newline then write_all contents [newline] (on_newline faults) else (contents, Ok ())) with
            | (contents, Err source) => (Some contents, Err (WritePolicyFile path source))
            | (contents, Panic) => (Some contents, Panic)
            | (contents, Ok _) =>
                match write_all contents (line ++ [newline]) (on_line faults) with
                | (contents, Err source) => (Some contents, Err (WritePolicyFile path source))
                | (contents, Panic) => (Some contents, Panic)
                | (contents, Ok _) => (Some contents, Ok ())
                end
            end
      end
  end.

Definition append_rule_line (faults : Faults) (path : rstring) (file : option rstring) (rule : rstring)
    : option rstring * outcome AmendError unit :=
  match parent path with
  | None => (file, Err (MissingParent path))
  | Some dir =>
      match on_create_dir faults with
      | DirError source => (file, Err (CreatePolicyDir dir source))
      | DirCreated | DirExists => append_locked_line faults path file rule
      end
  end.

Definition to_json_or (e : rstring → AmendError) (s : rstring) : outcome AmendError rstring :=
  match to_json s with inl t => Ok t | inr source => Err (e source) end.

Definition allow_prefix_rule (prefix : list rstring) : outcome AmendError rstring :=
  match prefix with
  | [] => Err EmptyPrefix
  | _ =>
      let? tokens := mapM (to_json_or SerializePrefix) prefix in
      let pattern := lit "[" ++ join_with (lit ", ") tokens ++ lit "]" in
      Ok (lit "prefix_rule(pattern=" ++ pattern ++ lit ", decision=" ++ [34%N] ++ lit "allow" ++ [34%N] ++ lit ")")
  end.

Definition decision_word (d : Decision) : rstring :=
  match d with Allow => lit "allow" | Prompt => lit "prompt" | Forbidden => lit "deny" end.
Definition network_rule_text (host : rstring) (protocol : NetworkRuleProtocol) (d : Decision)
    (justification : option rstring) : outcome AmendError rstring :=
  let? host := match normalize_network_rule_host host with
               | Ok h => Ok h | Err e => Err (InvalidNetworkRule (error_text e)) | Panic => Panic end in
  if match justification with Some raw => is_empty (trim raw) | None => false end
  then Err (InvalidNetworkRule (lit "justification cannot be empty"))
  else
    let? host := to_json_or SerializeNetworkRule host in
    let? protocol := to_json_or SerializeNetworkRule (as_policy_string protocol) in
    let? decision := to_json_or SerializeNetworkRule (decision_word d) in
    let args := [lit "host=" ++ host; lit "protocol=" ++ protocol; lit "decision=" ++ decision] in
    let? args := match justification with
                 | Some j => let? j := to_json_or SerializeNetworkRule j in Ok (args ++ [lit "justification=" ++ j])
                 | None => Ok args
                 end in
    Ok (lit "network_rule(" ++ join_with (lit ", ") args ++ lit ")").

(** The rule is formatted before the file is touched. *)
Definition append_formatted (faults : Faults) (path : rstring) (file : option rstring) (rule : outcome AmendError rstring)
    : option rstring * outcome AmendError unit :=
  match rule with
  | Ok rule => append_rule_line faults path file rule
  | Err e => (file, Err e)
  | Panic => (file, Panic)
  end.
Definition blocking_append_allow_prefix_rule (faults : Faults) (path : rstring) (file : option rstring)
    (prefix : list rstring) : option rstring * outcome AmendError unit :=
  append_formatted faults path file (allow_prefix_rule prefix).
Definition blocking_append_network_rule (faults : Faults) (path : rstring) (file : option rstring) (host : rstring)
    (protocol : NetworkRuleProtocol) (d : Decision) (justification : option rstring)
    : option rstring * outcome AmendError unit :=
  append_formatted faults path file (network_rule_text host protocol d justification).
End amend.

(** ** Lemmas *)
Lemma lines_after_newline x s : last x = Some newline → lines (x ++ s) = lines x ++ lines s.
Proof.
  induction x as [l Hl|l x Hl IH] using (line_ind newline).
  { intros H. by destruct (Hl (last_Some_elem_of _ _ H)). }
  destruct (decide (x = [])) as [->|Hx].
  - intros _. unfold lines. rewrite <- app_assoc. cbn [app]. by rewrite !split_inclusive_line.
  - rewrite last_app_cons by done. intros H. rewrite <- app_assoc. cbn [app]. unfold lines in *.
    rewrite (split_inclusive_line _ l x), (split_inclusive_line _ l (x ++ _)) by done.
    cbn [fmap list_fmap app]. f_equal. by apply IH.
Qed.

(** Abstractly the file is a list of lines, and a line is added at the end unless it is there. *)
Definition add_line (l : list rstring) (line : rstring) : list rstring := if decide (line ∈ l) then l else l ++ [line].

(** Contents whose last line, when it is unterminated, does not end in a carriage return. *)
Definition well_terminated (contents : rstring) : Prop := last contents ≠ Some cr.

Lemma lines_append contents line :
  well_terminated contents → line_ok line →
  let needs_newline := negb (is_empty contents) && negb (ends_with contents [newline]) in
  lines ((if needs_newline then contents ++ [newline] else contents) ++ line ++ [newline]) = lines contents ++ [line].
Proof.
  intros Hw Hl needs_newline.
  assert (lines (line ++ [newline]) = [line]) as Hline.
  { pose proof (lines_text_of [line] ltac:(by constructor)) as H. unfold text_of in H. cbn in H. by rewrite app_nil_r in H. }
  unfold needs_newline, is_empty, ends_with. case_bool_decide as He; cbn [negb andb].
  { subst. cbn [app]. by rewrite Hline. }
  case_bool_decide as Hs; cbn [negb].
  - destruct Hs as [k ->]. rewrite lines_after_newline by (by rewrite last_snoc). by rewrite Hline.
  - rewrite <- app_assoc. cbn [app]. rewrite lines_app_newline; [by rewrite Hline|done| |done].
    intros [k ->]%last_Some. apply Hs. by exists k.
Qed.

Lemma existsb_line (line : rstring) (l : list rstring) : existsb (λ existing, bool_decide (existing = line)) l = bool_decide (line ∈ l).
Proof.
  induction l as [|x l IH]; [done|]. cbn [existsb]. rewrite IH. destruct (decide (x = line)) as [->|Hx].
  - rewrite (bool_decide_eq_true_2 (line = line)), (bool_decide_eq_true_2 (line ∈ line :: l)) by (done || left). done.
  - rewrite (bool_decide_eq_false_2 (x = line)) by done. cbn [orb]. apply bool_decide_ext.
    rewrite elem_of_cons. intuition congruence.
Qed.

(** One append, whatever fails. *)
Lemma append_locked_line_spec faults path file line :
  let '(file', result) := append_locked_line faults path file line in
  (file' = file ∧ (∃ source, result = Err (OpenPolicyFile path source))) ∨
  ∃ added, file' = Some (default [] file ++ added) ∧ result ≠ Panic ∧
    (well_terminated (default [] file) → line_ok line → result = Ok () →
     lines (default [] file ++ added) = add_line (lines (default [] file)) line ∧
     well_terminated (default [] file ++ added)).
Proof.
  unfold append_locked_line. destruct (on_open faults) as [source|]; [left; eauto|].
  set (contents := default [] file). assert (contents = contents ++ []) as E by by rewrite app_nil_r.
  destruct (on_lock faults); [right; exists []; by rewrite <- E|].
  destruct (on_seek faults); [right; exists []; by rewrite <- E|].
  destruct (on_read faults); [right; exists []; by rewrite <- E|].
  rewrite existsb_line. case_bool_decide as Hin.
  { right. exists []. rewrite <- E. split_and!; [done|done|]. intros. unfold add_line. by rewrite decide_True. }
  assert (∀ added, well_terminated (contents ++ added ++ [newline])) as Hterm.
  { intros added. unfold well_terminated. by rewrite app_assoc, last_snoc. }
  pose proof (lines_append contents line) as Hlines. cbn zeta in Hlines.
  destruct (negb _ && negb _); unfold write_all.
  - destruct (on_newline faults) as [[n source]|]; [right; eexists; split_and!; [done|done|done]|].
    destruct (on_line faults) as [[n source]|]; [right; eexists; split_and!; [by rewrite <- app_assoc|done|done]|].
    right. eexists. split_and!; [by rewrite <- app_assoc|done|]. intros Hw Hl _.
    rewrite app_assoc, Hlines by done. unfold add_line. rewrite decide_False by done. split; [done|].
    rewrite <- app_assoc. apply (Hterm (newline :: line)).
  - destruct (on_line faults) as [[n source]|]; [right; eexists; split_and!; [done|done|done]|].
    right. eexists. split_and!; [done|done|]. intros Hw Hl _.
    rewrite Hlines by done. unfold add_line. rewrite decide_False by done. split; [done|]. apply Hterm.
Qed.

(** The appends of several processes: the lock makes each of them one step. *)
Definition append_step (path : rstring) (file : option rstring) (step : Faults * rstring) : option rstring :=
  (append_locked_line step.1 path file step.2).1.

Lemma append_no_faults path file line :
  well_terminated (default [] file) → line_ok line →
  ∃ contents, append_locked_line no_faults path file line = (Some contents, Ok ()) ∧
              lines contents = add_line (lines (default [] file)) line ∧ well_terminated contents.
Proof.
  intros Hw Hl. pose proof (append_locked_line_spec no_faults path file line) as H.
  assert ((append_locked_line no_faults path file line).2 = Ok ()) as Hok.
  { unfold append_locked_line. cbn [no_faults on_open on_lock on_seek on_read on_newline on_line].
    destruct (existsb _ _); [done|]. by destruct (negb _ && negb _). }
  destruct (append_locked_line no_faults path file line) as [file' result]. cbn in Hok. subst result.
  destruct H as [[_ [? ?]]|(added & -> & _ & H)]; [done|]. destruct (H Hw Hl eq_refl). eauto.
Qed.

Lemma add_line_elem l line : line ∈ add_line l line ∧ ∀ x, x ∈ l → x ∈ add_line l line.
Proof.
  unfold add_line. case_decide; [done|]. split; [|intros x Hx]; apply elem_of_app; [right; by left|by left].
Qed.

(** Appending to a policy file is adding to an ordered set of lines:
    whatever processes append, in any order, the lines of the file are those
    it had followed by the new ones, each once, in the order of the appends;
    and whatever calls fail, even in the middle of a write, nothing that the
    file held is lost or changed. *)
Theorem appends_refine_ordered_set (path : rstring) (file : option rstring) :
  (∀ rules, well_terminated (default [] file) → Forall line_ok rules →
     lines (default [] (foldl (append_step path) file ((λ r, (no_faults, r)) <$> rules))) =
       foldl add_line (lines (default [] file)) rules) ∧
  (∀ steps, default [] file `prefix_of` default [] (foldl (append_step path) file steps)).
Proof.
  split.
  - intros rules Hw Hr. revert file Hw. induction Hr as [|r rules Hr _ IH]; intros file Hw; [done|].
    cbn [fmap list_fmap foldl]. destruct (append_no_faults path file r Hw Hr) as (c & E & Hlines & Hw').
    unfold append_step at 2. cbn [fst snd]. rewrite E. cbn [fst]. rewrite IH by done. cbn [default from_option].
    by rewrite <- Hlines.
  - intros steps. revert file. induction steps as [|[faults line] steps IH]; intros file; [done|]. cbn [foldl].
    etrans; [|apply IH]. unfold append_step. cbn [fst snd].
    pose proof (append_locked_line_spec faults path file line) as H.
    destruct (append_locked_line faults path file line) as [file' result].
    destruct H as [[-> _]|(added & -> & _)]; [done|]. by apply prefix_app_r.
Qed.

Section amend_properties.
Context (to_json : rstring → rstring + rstring) (debug_strings : list rstring → rstring).
(** JSON escapes control characters. *)
Context (to_json_one_line : ∀ s t, to_json s = inl t → newline ∉ t).

Lemma join_one_line sep l : newline ∉ sep → Forall (λ s, newline ∉ s) l → newline ∉ join_with sep l.
Proof using Type.
  intros Hs. induction 1 as [|x l Hx Hl IH]; [apply not_elem_of_nil|]. destruct l as [|y l]; [done|].
  change (join_with sep (x :: y :: l)) with (x ++ sep ++ join_with sep (y :: l)).
  by rewrite !not_elem_of_app.
Qed.

Lemma to_json_or_line e s t : to_json_or to_json e s = Ok t → newline ∉ t.
Proof using to_json_one_line.
  unfold to_json_or. destruct (to_json s) eqn:E; [|done]. intros [= <-]. by eapply to_json_one_line.
Qed.

Lemma call_line_ok (body : rstring) : newline ∉ body → line_ok (body ++ lit ")").
Proof using Type.
  intros H. split; [apply not_elem_of_app; split; [done|by apply (bool_decide_unpack _)]|].
  change (lit ")") with [chr ")"]. by rewrite last_snoc.
Qed.

Lemma allow_prefix_rule_line prefix rule : allow_prefix_rule to_json prefix = Ok rule → line_ok rule.
Proof using to_json_one_line.
  unfold allow_prefix_rule. destruct prefix as [|p prefix]; [done|].
  intros (tokens & Ht & [= <-])%bind_Ok.
  match goal with |- line_ok ?t =>
    replace t with ((lit "prefix_rule(pattern=" ++ (lit "[" ++ join_with (lit ", ") tokens ++ lit "]")
      ++ lit ", decision=" ++ [34%N] ++ lit "allow" ++ [34%N]) ++ lit ")") by (by rewrite <- !app_assoc) end.
  apply call_line_ok.
  rewrite !not_elem_of_app. split_and!; try (by apply (bool_decide_unpack _)).
  apply join_one_line; [by apply (bool_decide_unpack _)|].
  apply Forall_forall. intros t Hin. clear -Ht Hin to_json_one_line.
  remember (p :: prefix) as l eqn:El. clear El. revert tokens Ht Hin.
  induction l as [|x l IH]; intros tokens; cbn.
  - intros [= <-] Hin. by apply elem_of_nil in Hin.
  - intros (y & Hy & (ys & Hys & [= <-])%bind_Ok)%bind_Ok [->|Hin]%elem_of_cons.
    + by eapply to_json_or_line.
    + by eapply IH.
Qed.

Lemma network_rule_line host protocol d j rule :
  network_rule_text to_json debug_strings host protocol d j = Ok rule → line_ok rule.
Proof using to_json_one_line.
  unfold network_rule_text. intros (h & _ & H)%bind_Ok. destruct (match j with Some _ => _ | None => _ end); [done|].
  apply bind_Ok in H as (hj & Hh & (pj & Hp & (dj & Hd & (args & Ha & Hr)%bind_Ok)%bind_Ok)%bind_Ok).
  apply Ok_inj in Hr as <-. rewrite app_assoc. apply call_line_ok, not_elem_of_app. split; [by apply (bool_decide_unpack _)|].
  apply join_one_line; [by apply (bool_decide_unpack _)|].
  apply to_json_or_line in Hh, Hp, Hd.
  assert (∀ name v, newline ∉ lit name → newline ∉ v → newline ∉ lit name ++ v) as Happ.
  { intros name v ? ?. by apply not_elem_of_app. }
  assert (Forall (λ s, newline ∉ s) [lit "host=" ++ hj; lit "protocol=" ++ pj; lit "decision=" ++ dj]) as Hbase.
  { repeat constructor; apply Happ; try done; by apply (bool_decide_unpack _). }
  destruct j as [j|]; [|by injection Ha as <-]. apply bind_Ok in Ha as (jj & Hj & Hr).
  apply Ok_inj in Hr as <-. apply Forall_app. split; [done|]. constructor; [|constructor]. apply Happ; [by apply (bool_decide_unpack _)|].
  by eapply to_json_or_line.
Qed.

Lemma bind_no_panic {A B} (k : A → outcome AmendError B) m : m ≠ Panic → (∀ a, k a ≠ Panic) → mbind k m ≠ Panic.
Proof using Type. destruct m; cbn; auto. Qed.
Lemma to_json_or_no_panic e s : to_json_or to_json e s ≠ Panic.
Proof using Type. unfold to_json_or. by destruct (to_json s). Qed.
Lemma allow_prefix_rule_no_panic prefix : allow_prefix_rule to_json prefix ≠ Panic.
Proof using Type.
  unfold allow_prefix_rule. destruct prefix as [|p prefix]; [done|]. apply bind_no_panic; [|done].
  generalize (p :: prefix) as l. induction l as [|x l IH]; [done|]. cbn.
  apply bind_no_panic; [apply to_json_or_no_panic|]. intros y. by apply bind_no_panic.
Qed.
Lemma network_rule_no_panic h p d j : network_rule_text to_json debug_strings h p d j ≠ Panic.
Proof using Type.
  unfold network_rule_text. apply bind_no_panic.
  { unfold normalize_network_rule_host. destruct (is_empty (trim h)); [done|].
    destruct (_ || _ || _ || _); [done|].
    assert (host_part h (trim h) ≠ Panic) as Hp.
    { unfold host_part. by repeat (case_match; try done). }
    destruct (host_part h (trim h)) as [host| |]; [|done..]. cbn [mbind outcome_bind].
    by repeat (case_match; try done). }
  intros host. destruct (match j with Some _ => _ | None => _ end); [done|].
  repeat (apply bind_no_panic; [apply to_json_or_no_panic|intros ?]).
  destruct j as [j|]; [|done]. apply bind_no_panic; [|done]. apply bind_no_panic; [apply to_json_or_no_panic|done].
Qed.

(** An amendment that succeeds leaves the file with its rule as a line,
    next to all the lines it had; an empty prefix, a host or justification
    the policy would reject, and a rule that does not serialise are
    reported without the file being touched. *)
Theorem amendment_adds_its_rule (path : rstring) (file : option rstring) (rule : outcome AmendError rstring) :
  well_terminated (default [] file) →
  (∃ prefix, rule = allow_prefix_rule to_json prefix) ∨
  (∃ host protocol d j, rule = network_rule_text to_json debug_strings host protocol d j) →
  match rule with
  | Ok text =>
      ∀ faults, let '(file', result) := append_formatted faults path file rule in
      result = Ok () → text ∈ lines (default [] file') ∧
                       ∀ line, line ∈ lines (default [] file) → line ∈ lines (default [] file')
  | Err e => ∀ faults, append_formatted faults path file rule = (file, Err e)
  | Panic => False
  end.
Proof using to_json_one_line.
  intros Hw Hrule. destruct rule as [text|e|] eqn:Er.
  - intros faults. assert (line_ok text) as Hok.
    { destruct Hrule as [[prefix H]|(h & p & d & j & H)]; symmetry in H;
        [by eapply allow_prefix_rule_line|by eapply network_rule_line]. }
    unfold append_formatted, append_rule_line. destruct (parent path) as [dir|]; [|done].
    pose proof (append_locked_line_spec faults path file text) as H.
    assert (∀ s, (file, Err (CreatePolicyDir dir s)).2 = (Ok () : outcome AmendError ()) → False) as Hno by done.
    destruct (append_locked_line faults path file text) as [file' result].
    destruct (on_create_dir faults); [| |done];
      (intros ->; destruct H as [[_ [? ?]]|(added & -> & _ & H)]; [done|]; destruct (H Hw Hok eq_refl) as [Hl _];
       match goal with |- context [default [] (Some ?x)] => change (default [] (Some x)) with x end; rewrite Hl; apply add_line_elem).
  - done.
  - destruct Hrule as [[prefix H]|(h & p & d & j & H)]; symmetry in H; revert H;
      [apply allow_prefix_rule_no_panic|apply network_rule_no_panic].
Qed.
End amend_properties.

(** A JSON printer for plain text. *)
Definition sample_json (s : rstring) : rstring + rstring :=
  if decide (newline ∈ s) then inr (lit "control character") else inl ([34%N] ++ s ++ [34%N]).
Lemma sample_json_one_line s t : sample_json s = inl t → newline ∉ t.
Proof.
  unfold sample_json. case_decide as H; [done|]. intros [= <-]. apply not_elem_of_cons. split; [done|].
  apply not_elem_of_app. split; [done|]. by apply (bool_decide_unpack _).
Qed.

Lemma amendment_adds_its_rule_witness :
  let rule := allow_prefix_rule sample_json [lit "git"; lit "log"] in
  let file := Some (lit "# rules") in
  ∃ text, rule = Ok text ∧
  text ∈ lines (default [] (append_formatted no_faults (lit "/p/rules") file rule).1).
Proof.
  intros rule file.
  pose proof (amendment_adds_its_rule sample_json (λ _, []) sample_json_one_line (lit "/p/rules") file rule
    ltac:(done) (or_introl (ex_intro _ [lit "git"; lit "log"] eq_refl))) as H.
  destruct rule as [text| |] eqn:E; [|vm_compute in E; discriminate..]. exists text. split; [done|].
  specialize (H no_faults). destruct (append_formatted no_faults (lit "/p/rules") file (Ok text)) as [f r] eqn:Ef.
  refine (proj1 (H _)). unfold rule in E. vm_compute in E. injection E as <-. vm_compute in Ef. by injection Ef as _ <-.
Defined.
