(* ===== verification/Utf8Text.v ===== *)
(** * Text addressed by bytes

    The length of a text in UTF-8 bytes, the splits, slices and edits at a byte offset, which panic
    unless the offset is a character boundary, and the searches that answer with an
    offset.  An offset that a split takes is one of a prefix: [split_at_byte_Some]. *)
From S2P Require Import Prelude RustStr Utf8.
#[local] Open Scope N_scope.

(** [char::len_utf8] and [str::len] *)
Definition clen (c : char) : N := N.of_nat (length (utf8_char c)).
Fixpoint blen (s : rstring) : N := match s with [] => 0 | c :: s => clen c + blen s end.

(** [&s[..n]] and [&s[n..]] *)
Fixpoint split_at_byte (n : N) (s : rstring) : option (rstring * rstring) :=
  if n =? 0 then Some ([], s)
  else match s with
       | [] => None
       | c :: t => if clen c <=? n then '(a, b) ← split_at_byte (n - clen c) t; Some (c :: a, b) else None
       end.
Definition slice_to {E} (s : rstring) (n : N) : outcome E rstring :=
  match split_at_byte n s with Some (a, _) => Ok a | None => Panic end.
Definition slice_from {E} (s : rstring) (n : N) : outcome E rstring :=
  match split_at_byte n s with Some (_, b) => Ok b | None => Panic end.
(** [str::is_char_boundary]; [&s[start..end]], where the start may not be past the end;
    [String::insert_str] and [String::replace_range]. *)
Definition is_char_boundary (s : rstring) (n : N) : bool := match split_at_byte n s with Some _ => true | None => false end.
Definition slice (s : rstring) (start stop : N) : option rstring :=
  '(a, _) ← split_at_byte stop s; '(_, b) ← split_at_byte start a; Some b.
Definition insert_at (s : rstring) (at_ : N) (t : rstring) : option rstring :=
  '(a, b) ← split_at_byte at_ s; Some (a ++ t ++ b).
Definition replace_bytes (s : rstring) (start stop : N) (t : rstring) : option rstring :=
  '(a, b) ← split_at_byte stop s; '(a, _) ← split_at_byte start a; Some (a ++ t ++ b).

(** [str::find] and [str::rfind] of a character that satisfies a predicate. *)
Fixpoint find_char (p : char → bool) (s : rstring) : option N :=
  match s with
  | [] => None
  | c :: s => if p c then Some 0 else i ← find_char p s; Some (clen c + i)
  end.
Fixpoint rfind_char (p : char → bool) (s : rstring) : option N :=
  match s with
  | [] => None
  | c :: s => match rfind_char p s with Some i => Some (clen c + i) | None => if p c then Some 0 else None end
  end.

(** ** Lemmas: lengths and splits *)
Lemma clen_bounds c : 1 ≤ clen c ∧ clen c ≤ 4.
Proof. unfold clen, utf8_char. repeat case_match; cbn; lia. Qed.
Lemma blen_app a b : blen (a ++ b) = blen a + blen b.
Proof. induction a as [|c a IH]; [done|]. cbn [blen app]. rewrite IH. lia. Qed.
Lemma blen_length s : N.of_nat (length s) ≤ blen s.
Proof. induction s as [|c s IH]; [done|]. cbn [blen length]. pose proof (clen_bounds c). lia. Qed.
Lemma blen_0 s : blen s = 0 → s = [].
Proof. destruct s as [|c s]; [done|]. cbn. pose proof (clen_bounds c). lia. Qed.

Lemma split_at_byte_app a b : split_at_byte (blen a) (a ++ b) = Some (a, b).
Proof.
  induction a as [|c a IH]; [by destruct b|]. cbn [blen split_at_byte app]. pose proof (clen_bounds c).
  destruct (N.eqb_spec (clen c + blen a) 0) as [|_]; [lia|].
  destruct (N.leb_spec (clen c) (clen c + blen a)) as [_|]; [|lia].
  replace (clen c + blen a - clen c) with (blen a) by lia. by rewrite IH.
Qed.
Lemma slice_to_app {E} a b : slice_to (E:=E) (a ++ b) (blen a) = Ok a.
Proof. unfold slice_to. by rewrite split_at_byte_app. Qed.
Lemma slice_from_app {E} a b : slice_from (E:=E) (a ++ b) (blen a) = Ok b.
Proof. unfold slice_from. by rewrite split_at_byte_app. Qed.
Lemma split_at_byte_Some n s a b : split_at_byte n s = Some (a, b) ↔ s = a ++ b ∧ blen a = n.
Proof.
  split; [|intros [-> <-]; apply split_at_byte_app]. revert n a. induction s as [|c s IH]; intros n a; cbn [split_at_byte].
  - destruct (N.eqb_spec n 0) as [->|]; [|done]. by intros [= <- <-].
  - destruct (N.eqb_spec n 0) as [->|]; [by intros [= <- <-]|]. destruct (N.leb_spec (clen c) n) as [?|]; [|done].
    destruct (split_at_byte (n - clen c) s) as [[a' b']|] eqn:E; [|done]. cbn. intros [= <- <-].
    destruct (IH _ _ E) as [-> El]. split; [done|]. cbn [blen]. lia.
Qed.
(** One text has one split at an offset. *)
Lemma app_split_inj (a b a' b' : rstring) : a ++ b = a' ++ b' → blen a = blen a' → a = a' ∧ b = b'.
Proof.
  intros E El. pose proof (split_at_byte_app a b) as H. rewrite E, El, split_at_byte_app in H. by simplify_eq.
Qed.
(** Of two splits the later one goes through the rest of the earlier one. *)
Lemma app_split_le (a b a' b' : rstring) : a ++ b = a' ++ b' → blen a ≤ blen a' → ∃ m, a' = a ++ m ∧ b = m ++ b'.
Proof.
  intros E Hle. apply app_eq_inv in E as [(m & -> & ->)|(m & -> & ->)].
  - rewrite blen_app in Hle. assert (m = []) as -> by (apply blen_0; lia). exists []. by rewrite !app_nil_r.
  - by exists m.
Qed.

(** ** Lemmas: boundaries *)
Definition boundary (s : rstring) (n : N) : Prop := ∃ a b, s = a ++ b ∧ blen a = n.
Lemma is_char_boundary_spec s n : is_char_boundary s n = true ↔ boundary s n.
Proof.
  unfold is_char_boundary, boundary. setoid_rewrite <- split_at_byte_Some. destruct (split_at_byte n s) as [[a b]|]; naive_solver.
Qed.
Lemma boundary_0 s : boundary s 0. Proof. by exists [], s. Qed.
Lemma boundary_end s : boundary s (blen s). Proof. exists s, []. by rewrite app_nil_r. Qed.
Lemma boundary_le s n : boundary s n → n ≤ blen s.
Proof. intros (a & b & -> & <-). rewrite blen_app. lia. Qed.
Lemma boundary_split a b : boundary (a ++ b) (blen a). Proof. by exists a, b. Qed.
Lemma boundary_app_l a b n : boundary a n → boundary (a ++ b) n.
Proof. intros (x & y & -> & <-). exists x, (y ++ b). by rewrite app_assoc. Qed.
Lemma boundary_app_r a b n : boundary b n → boundary (a ++ b) (blen a + n).
Proof. intros (x & y & -> & <-). exists (a ++ x), y. by rewrite app_assoc, blen_app. Qed.
Lemma boundary_in_l a b n : boundary (a ++ b) n → n ≤ blen a → boundary a n.
Proof. intros (x & y & E & <-) Hle. destruct (app_split_le x y a b) as (m & -> & _); [by rewrite E|done|]. apply boundary_split. Qed.
Lemma boundary_in_r a b n : boundary (a ++ b) n → blen a ≤ n → boundary b (n - blen a).
Proof.
  intros (x & y & E & <-) Hle. destruct (app_split_le a b x y E Hle) as (m & -> & ->).
  exists m, y. split; [done|]. rewrite blen_app. lia.
Qed.
Lemma slice_Some s start stop t : slice s start stop = Some t ↔ ∃ a b, s = a ++ t ++ b ∧ blen a = start ∧ blen a + blen t = stop.
Proof.
  unfold slice. split.
  - destruct (split_at_byte stop s) as [[x b]|] eqn:E1; [|done]. cbn [mbind option_bind].
    destruct (split_at_byte start x) as [[a t']|] eqn:E2; [|done]. cbn. intros [= ->].
    destruct (proj1 (split_at_byte_Some _ _ _ _) E1) as [-> <-]. destruct (proj1 (split_at_byte_Some _ _ _ _) E2) as [-> <-].
    exists a, b. rewrite app_assoc, blen_app. done.
  - intros (a & b & -> & <- & <-). rewrite app_assoc, <- blen_app, split_at_byte_app. cbn. by rewrite split_at_byte_app.
Qed.
(** Two ordered boundaries cut a text in three. *)
Lemma boundaries_split s n m : boundary s n → boundary s m → n ≤ m → ∃ a t b, s = a ++ t ++ b ∧ blen a = n ∧ blen a + blen t = m.
Proof.
  intros (a & b & -> & <-) (a' & b' & E & <-) Hle. destruct (app_split_le a b a' b' E Hle) as (t & -> & ->).
  exists a, t, b'. by rewrite blen_app.
Qed.
Lemma slice_total s n m : boundary s n → boundary s m → n ≤ m → ∃ t, slice s n m = Some t ∧ n + blen t = m.
Proof.
  intros Hn Hm Hle. destruct (boundaries_split s n m Hn Hm Hle) as (a & t & b & -> & <- & <-). exists t.
  split; [|done]. apply slice_Some. by exists a, b.
Qed.
Lemma replace_bytes_spec a t b t' : replace_bytes (a ++ t ++ b) (blen a) (blen a + blen t) t' = Some (a ++ t' ++ b).
Proof. unfold replace_bytes. rewrite app_assoc, <- blen_app, split_at_byte_app. cbn. by rewrite split_at_byte_app. Qed.
Lemma insert_at_spec a b t : insert_at (a ++ b) (blen a) t = Some (a ++ t ++ b).
Proof. unfold insert_at. by rewrite split_at_byte_app. Qed.

(** ** Lemmas: searches *)
Lemma find_char_Some p s i : find_char p s = Some i → ∃ a c b, s = a ++ c :: b ∧ p c = true ∧ Forall (λ c, p c = false) a ∧ blen a = i.
Proof.
  revert i. induction s as [|c s IH]; intros i; cbn; [done|]. destruct (p c) eqn:Ep.
  - intros [= <-]. by exists [], c, s.
  - destruct (find_char p s) as [j|]; [|done]. cbn. intros [= <-]. destruct (IH j eq_refl) as (a & d & b & -> & ? & ? & <-).
    exists (c :: a), d, b. split_and!; [done|done|by constructor|done].
Qed.
Lemma find_char_None p s : find_char p s = None → Forall (λ c, p c = false) s.
Proof.
  induction s as [|c s IH]; cbn; [done|]. destruct (p c) eqn:Ep; [done|]. destruct (find_char p s); [done|]. constructor; auto.
Qed.
Lemma rfind_char_None p s : rfind_char p s = None → Forall (λ c, p c = false) s.
Proof.
  induction s as [|c s IH]; cbn; [done|]. destruct (rfind_char p s); [done|]. destruct (p c) eqn:Ep; [done|]. constructor; auto.
Qed.
Lemma rfind_char_Some p s i : rfind_char p s = Some i → ∃ a c b, s = a ++ c :: b ∧ p c = true ∧ Forall (λ c, p c = false) b ∧ blen a = i.
Proof.
  revert i. induction s as [|c s IH]; intros i; cbn; [done|]. destruct (rfind_char p s) as [j|] eqn:Er.
  - intros [= <-]. destruct (IH j eq_refl) as (a & d & b & -> & ? & ? & <-). exists (c :: a), d, b. done.
  - destruct (p c) eqn:Ep; [|done]. intros [= <-]. exists [], c, s. split_and!; [done|done| |done]. by apply rfind_char_None.
Qed.
