(* ===== verification/Truncation.v ===== *)
(** * Truncating output ([utils/string/src/truncate.rs], [utils/output-truncation/src/lib.rs],
    and the [TruncationPolicy] of [protocol/src/protocol.rs])

    Byte lengths are numbers of UTF-8 bytes; a slice at a byte offset panics
    unless the offset is a character boundary.  [usize] is 64 bits wide and
    its arithmetic saturates where the code says so. *)
From Stdlib Require Import SpecFloat.
From S2P Require Import Prelude RustStr Utf8 Utf8Text.
#[local] Open Scope N_scope.

(** ** [truncate.rs] *)
Definition APPROX_BYTES_PER_TOKEN : N := 4.
Definition approx_token_count (text : rstring) : N :=
  sat_add (blen text) (APPROX_BYTES_PER_TOKEN - 1) / APPROX_BYTES_PER_TOKEN.
Definition sat_mul (a b : N) : N := N.min usize_max (a * b).
Definition approx_bytes_for_tokens (tokens : N) : N := sat_mul tokens APPROX_BYTES_PER_TOKEN.
Definition approx_tokens_from_byte_count (bytes : N) : N :=
  sat_add bytes (APPROX_BYTES_PER_TOKEN - 1) / APPROX_BYTES_PER_TOKEN.

(** The loop of [split_string]. *)
Record scan := mk_scan { sc_idx : N; prefix_end : N; suffix_start : N; removed_chars : N; suffix_started : bool }.
Definition scan_step (beginning_bytes tail_start_target : N) (st : scan) (ch : char) : scan :=
  let char_end := sc_idx st + clen ch in
  if char_end <=? beginning_bytes
  then mk_scan char_end char_end (suffix_start st) (removed_chars st) (suffix_started st)
  else if tail_start_target <=? sc_idx st
  then mk_scan char_end (prefix_end st) (if suffix_started st then suffix_start st else sc_idx st)
         (removed_chars st) true
  else mk_scan char_end (prefix_end st) (suffix_start st) (sat_add (removed_chars st) 1) (suffix_started st).

Definition split_string {E} (s : rstring) (beginning_bytes end_bytes : N) : outcome E (N * rstring * rstring) :=
  if bool_decide (s = []) then Ok (0, [], [])
  else
    let len := blen s in
    let tail_start_target := sat_sub len end_bytes in
    let st := foldl (scan_step beginning_bytes tail_start_target) (mk_scan 0 0 len 0 false) s in
    let start := if suffix_start st <? prefix_end st then prefix_end st else suffix_start st in
    let? before := slice_to s (prefix_end st) in
    let? after := slice_from s start in
    Ok (removed_chars st, before, after).

Definition split_budget (budget : N) : N * N := let left := budget / 2 in (left, budget - left).
Definition ellipsis : char := 0x2026.
Definition format_truncation_marker (use_tokens : bool) (removed_count : N) : rstring :=
  if use_tokens then [ellipsis] ++ show removed_count ++ lit " tokens truncated" ++ [ellipsis]
  else [ellipsis] ++ show removed_count ++ lit " chars truncated" ++ [ellipsis].
Definition removed_units (use_tokens : bool) (removed_bytes removed_chars : N) : N :=
  if use_tokens then approx_tokens_from_byte_count removed_bytes else removed_chars.
Definition assemble_truncated_output (prefix suffix marker : rstring) : rstring := prefix ++ marker ++ suffix.

Definition truncate_with_byte_estimate {E} (s : rstring) (max_bytes : N) (use_tokens : bool) : outcome E rstring :=
  if bool_decide (s = []) then Ok []
  else
    let total_chars := N.of_nat (length s) in
    if max_bytes =? 0
    then Ok (format_truncation_marker use_tokens (removed_units use_tokens (blen s) total_chars))
    else if blen s <=? max_bytes then Ok s
    else
      let total_bytes := blen s in
      let '(left_budget, right_budget) := split_budget max_bytes in
      let? '(removed, before, after) := split_string s left_budget right_budget in
      let marker := format_truncation_marker use_tokens
                      (removed_units use_tokens (sat_sub total_bytes max_bytes) removed) in
      Ok (assemble_truncated_output before after marker).

Definition truncate_middle_chars {E} (s : rstring) (max_bytes : N) : outcome E rstring :=
  truncate_with_byte_estimate s max_bytes false.

Definition truncate_middle_with_token_budget {E} (s : rstring) (max_tokens : N) : outcome E (rstring * option N) :=
  if bool_decide (s = []) then Ok ([], None)
  else if (0 <? max_tokens) && (blen s <=? approx_bytes_for_tokens max_tokens) then Ok (s, None)
  else
    let? truncated := truncate_with_byte_estimate s (approx_bytes_for_tokens max_tokens) true in
    let total_tokens := approx_token_count s in
    Ok (truncated, if bool_decide (truncated = s) then None else Some total_tokens).

(** ** [TruncationPolicy] *)
Inductive TruncationPolicy := Bytes (n : N) | Tokens (n : N).
Definition token_budget (p : TruncationPolicy) : N :=
  match p with Bytes bytes => approx_tokens_from_byte_count bytes | Tokens tokens => tokens end.
Definition byte_budget (p : TruncationPolicy) : N :=
  match p with Bytes bytes => bytes | Tokens tokens => approx_bytes_for_tokens tokens end.

(** [(n as f64 * m).ceil() as usize] in IEEE double precision. *)
Definition f64_of_usize (n : N) : spec_float := binary_normalize 53 1024 (Z.of_N n) 0 false.
Definition f64_ceil_as_usize (f : spec_float) : N :=
  match f with
  | S754_finite false m e =>
      let z := (if (0 <=? e)%Z then Z.pos m * 2 ^ e else - ((- Z.pos m) / 2 ^ (- e)))%Z in
      N.min usize_max (Z.to_N z)
  | S754_infinity false => usize_max
  | _ => 0
  end.
Definition mul_ceil (n : N) (multiplier : spec_float) : N :=
  f64_ceil_as_usize (SFmul 53 1024 (f64_of_usize n) multiplier).
Definition policy_mul (p : TruncationPolicy) (multiplier : spec_float) : TruncationPolicy :=
  match p with Bytes bytes => Bytes (mul_ceil bytes multiplier) | Tokens tokens => Tokens (mul_ceil tokens multiplier) end.

(** ** [output-truncation] *)
Inductive ImageDetail := High | Original.
#[global] Instance ImageDetail_eq_dec : EqDecision ImageDetail.
Proof. solve_decision. Defined.
Inductive OutputContentItem :=
| OutputText (text : rstring)
| OutputImage (image_url : rstring) (detail : option ImageDetail)
| OutputEncrypted (encrypted_content : rstring).
#[global] Instance OutputContentItem_eq_dec : EqDecision OutputContentItem.
Proof. solve_decision. Defined.

Definition truncate_text {E} (content : rstring) (p : TruncationPolicy) : outcome E rstring :=
  match p with
  | Bytes bytes => truncate_middle_chars content bytes
  | Tokens tokens => let? r := truncate_middle_with_token_budget content tokens in Ok r.1
  end.
Definition formatted_truncate_text {E} (content : rstring) (p : TruncationPolicy) : outcome E rstring :=
  if blen content <=? byte_budget p then Ok content
  else
    let total_lines := N.of_nat (length (lines content)) in
    let? result := truncate_text content p in
    Ok (lit "Total output lines: " ++ show total_lines ++ [newline; newline] ++ result).

Definition text_of_item (i : OutputContentItem) : option rstring :=
  match i with OutputText text => Some text | _ => None end.
Definition is_text (i : OutputContentItem) : bool := match i with OutputText _ => true | _ => false end.
Definition combine_segment (combined text : rstring) : rstring :=
  (if bool_decide (combined = []) then [] else combined ++ [newline]) ++ text.
Definition formatted_truncate_text_content_items_with_policy {E} (items : list OutputContentItem) (p : TruncationPolicy)
    : outcome E (list OutputContentItem * option N) :=
  let text_segments := omap text_of_item items in
  if bool_decide (text_segments = []) then Ok (items, None)
  else
    let combined := foldl combine_segment [] text_segments in
    if blen combined <=? byte_budget p then Ok (items, None)
    else
      let? text := formatted_truncate_text combined p in
      Ok (OutputText text :: List.filter (λ i, negb (is_text i)) items, Some (approx_token_count combined)).

Definition cost_of (p : TruncationPolicy) (text : rstring) : N :=
  match p with Bytes _ => blen text | Tokens _ => approx_token_count text end.
Definition snippet_policy (p : TruncationPolicy) (remaining : N) : TruncationPolicy :=
  match p with Bytes _ => Bytes remaining | Tokens _ => Tokens remaining end.
Fixpoint items_loop {E} (p : TruncationPolicy) (items : list OutputContentItem) (out : list OutputContentItem)
    (remaining_budget omitted : N) : outcome E (list OutputContentItem * N) :=
  match items with
  | [] => Ok (out, omitted)
  | OutputText text :: rest =>
      if remaining_budget =? 0 then items_loop p rest out remaining_budget (omitted + 1)
      else
        let cost := cost_of p text in
        if cost <=? remaining_budget
        then items_loop p rest (out ++ [OutputText text]) (sat_sub remaining_budget cost) omitted
        else
          let? snippet := truncate_text text (snippet_policy p remaining_budget) in
          if bool_decide (snippet = []) then items_loop p rest out 0 (omitted + 1)
          else items_loop p rest (out ++ [OutputText snippet]) 0 omitted
  | i :: rest => items_loop p rest (out ++ [i]) remaining_budget omitted
  end.
Definition omitted_notice (omitted : N) : list OutputContentItem :=
  if 0 <? omitted then [OutputText (lit "[omitted " ++ show omitted ++ lit " text items ...]")] else [].
Definition truncate_function_output_items_with_policy {E} (items : list OutputContentItem) (p : TruncationPolicy)
    : outcome E (list OutputContentItem) :=
  let budget := match p with Bytes _ => byte_budget p | Tokens _ => token_budget p end in
  let? '(out, omitted) := items_loop p items [] budget 0 in
  Ok (out ++ omitted_notice omitted).

(** [i64] values: [approx_tokens_from_byte_count_i64]. *)
Definition i64_max : Z := 2^63 - 1.
Definition approx_tokens_from_byte_count_i64 (bytes : Z) : Z :=
  if (bytes <=? 0)%Z then 0%Z else Z.min i64_max (Z.of_N (approx_tokens_from_byte_count (Z.to_N bytes))).

Example policy_mul_example : policy_mul (Bytes 10000) (S754_finite false 5404319552844595 (-52)) = Bytes 12000.
Proof. vm_compute. reflexivity. Qed.

(** ** Lemmas: the scan, in its three phases *)
(** The longest prefix of at most [b] bytes, and the rest. *)
Fixpoint take_fit (b : N) (s : rstring) : rstring * rstring :=
  match s with
  | [] => ([], [])
  | c :: t => if clen c <=? b then let '(x, y) := take_fit (b - clen c) t in (c :: x, y) else ([], s)
  end.
(** What starts before [tail], when [s] starts at [idx], and the rest. *)
Fixpoint take_early (idx tail : N) (s : rstring) : rstring * rstring :=
  match s with
  | [] => ([], [])
  | c :: t => if tail <=? idx then ([], s) else let '(x, y) := take_early (idx + clen c) tail t in (c :: x, y)
  end.

Lemma take_fit_spec b s :
  let '(x, y) := take_fit b s in
  s = x ++ y ∧ blen x ≤ b ∧ match y with [] => True | c :: _ => b < blen x + clen c end.
Proof.
  revert b. induction s as [|c s IH]; intros b; cbn; [split_and!; [done|lia|done]|].
  destruct (N.leb_spec (clen c) b) as [Hc|Hc]; [|split_and!; [done|cbn; lia|cbn; lia]].
  specialize (IH (b - clen c)). destruct (take_fit _ s) as [x y]. destruct IH as (-> & Hx & Hy).
  split_and!; [done|cbn [blen]; lia|]. destruct y as [|d y]; [done|]. cbn [blen]. lia.
Qed.

Lemma take_early_spec idx tail s :
  let '(x, y) := take_early idx tail s in
  s = x ++ y ∧ (y ≠ [] → tail ≤ idx + blen x) ∧ ∀ x' c, x = x' ++ [c] → idx + blen x' < tail.
Proof.
  revert idx. induction s as [|c s IH]; intros idx; cbn.
  { split_and!; [done|done|]. intros [|? ?] d H; done. }
  destruct (N.leb_spec tail idx) as [Ht|Ht].
  { split_and!; [done|cbn; lia|]. intros [|? ?] d H; done. }
  specialize (IH (idx + clen c)). destruct (take_early _ tail s) as [x y]. destruct IH as (-> & Hy & Hx).
  split_and!; [done|cbn [blen]; intros ?; specialize (Hy ltac:(done)); lia|].
  intros [|e x'] d H; cbn [app] in H; [cbn; lia|]. injection H as <- H. specialize (Hx x' d H). cbn [blen]. lia.
Qed.

Section scan_phases.
Context (b tail : N).

Definition past (idx : N) (s : rstring) : Prop := match s with [] => True | c :: _ => b < idx + clen c end.
Lemma past_next idx c s : past idx (c :: s) → past (idx + clen c) s.
Proof using Type. cbn. destruct s as [|d s]; [done|]. cbn. pose proof (clen_bounds d). lia. Qed.

Lemma scan_started s : ∀ idx pe ss rem,
  past idx s → tail ≤ idx →
  foldl (scan_step b tail) (mk_scan idx pe ss rem true) s = mk_scan (idx + blen s) pe ss rem true.
Proof using Type.
  induction s as [|c s IH]; intros idx pe ss rem Hp Ht; [cbn; by rewrite N.add_0_r|].
  cbn [foldl blen]. unfold scan_step at 2. cbn [sc_idx prefix_end suffix_start removed_chars suffix_started].
  pose proof Hp as Hp'. cbn in Hp. rewrite (proj2 (N.leb_gt _ _) Hp), (proj2 (N.leb_le _ _) Ht).
  rewrite IH; [f_equal; lia|by apply past_next|lia].
Qed.

Lemma scan_middle s : ∀ idx pe ss rem,
  past idx s → rem + N.of_nat (length s) ≤ usize_max →
  foldl (scan_step b tail) (mk_scan idx pe ss rem false) s =
    let '(mid, after) := take_early idx tail s in
    mk_scan (idx + blen s) pe (if bool_decide (after = []) then ss else idx + blen mid)
      (rem + N.of_nat (length mid)) (negb (bool_decide (after = []))).
Proof using Type.
  induction s as [|c s IH]; intros idx pe ss rem Hp Hr; [cbn; by rewrite !N.add_0_r|].
  cbn [foldl blen take_early]. unfold scan_step at 2. cbn [sc_idx prefix_end suffix_start removed_chars suffix_started].
  pose proof Hp as Hp'. cbn in Hp. rewrite (proj2 (N.leb_gt _ _) Hp). cbn [length] in Hr.
  destruct (N.leb_spec tail idx) as [Ht|Ht].
  - rewrite scan_started; [|by apply past_next|lia]. rewrite bool_decide_eq_false_2 by done. cbn. f_equal; lia.
  - rewrite sat_add_small by lia. rewrite IH; [|by apply past_next|lia].
    destruct (take_early _ tail s) as [mid after]. cbn [blen length]. f_equal; [lia| |lia].
    case_bool_decide; [done|lia].
Qed.

Lemma scan_all s : ∀ idx len,
  N.of_nat (length s) ≤ usize_max → idx ≤ b →
  foldl (scan_step b tail) (mk_scan idx idx len 0 false) s =
    let '(before, rest) := take_fit (b - idx) s in
    let '(mid, after) := take_early (idx + blen before) tail rest in
    mk_scan (idx + blen s) (idx + blen before)
      (if bool_decide (after = []) then len else idx + blen before + blen mid)
      (N.of_nat (length mid)) (negb (bool_decide (after = []))).
Proof using Type.
  induction s as [|c s IH]; intros idx len Hl Hb; [cbn; by rewrite !N.add_0_r|]. cbn [take_fit].
  destruct (N.leb_spec (clen c) (b - idx)) as [Hc|Hc].
  - cbn [foldl blen]. unfold scan_step at 2. cbn [sc_idx prefix_end suffix_start removed_chars suffix_started].
    rewrite (proj2 (N.leb_le (idx + clen c) b)) by lia. cbn [length] in Hl. rewrite IH by lia.
    replace (b - (idx + clen c)) with (b - idx - clen c) by lia. destruct (take_fit _ s) as [before rest].
    cbn [blen]. rewrite N.add_assoc. destruct (take_early _ tail rest) as [mid after]. f_equal. lia.
  - rewrite scan_middle by (unfold past; lia). cbn [blen]. rewrite N.add_0_r.
    destruct (take_early idx tail (c :: s)) as [mid after]. done.
Qed.
End scan_phases.

Lemma split_string_ok {E} s b e :
  blen s ≤ usize_max →
  ∃ before mid after,
    s = before ++ mid ++ after ∧ split_string (E:=E) s b e = Ok (N.of_nat (length mid), before, after) ∧
    blen before ≤ b ∧ blen after ≤ e ∧
    (∀ c r, mid ++ after = c :: r → b < blen before + clen c) ∧
    (∀ m c, mid = m ++ [c] → e < clen c + blen after).
Proof.
  intros Hlen. unfold split_string. case_bool_decide as Hs.
  { subst. exists [], [], []. split_and!; try done; try (cbn; lia). intros [|? ?]; done. }
  pose proof (blen_length s). rewrite scan_all by lia. rewrite N.sub_0_r.
  pose proof (take_fit_spec b s) as Hfit. destruct (take_fit b s) as [before rest]. destruct Hfit as (-> & Hb & Hrest).
  rewrite N.add_0_l. set (tail := sat_sub _ _).
  pose proof (take_early_spec (blen before) tail rest) as Hearly.
  destruct (take_early (blen before) tail rest) as [mid after]. destruct Hearly as (-> & Ha & Hm).
  exists before, mid, after. split; [done|]. cbn [suffix_start prefix_end removed_chars].
  unfold tail, sat_sub in *. clear tail. rewrite !blen_app in *.
  assert (blen after ≤ e) as Hafter.
  { destruct (decide (after = [])) as [->|Hne]; [cbn; lia|]. specialize (Ha Hne). lia. }
  split.
  - rewrite slice_to_app. cbn [mbind outcome_bind].
    match goal with |- context [slice_from _ (if ?x <? ?y then _ else _)] =>
      replace (if x <? y then y else x) with (blen (before ++ mid)) end.
    { by rewrite app_assoc, slice_from_app. }
    rewrite blen_app. case_bool_decide as Hn; [subst; cbn [blen]|];
      match goal with |- context [?x <? ?y] => destruct (N.ltb_spec x y) end; lia.
  - split_and!; [done|done| |].
    + intros c r Hr. rewrite Hr in Hrest. done.
    + intros m c ->. specialize (Hm m c eq_refl). rewrite !blen_app in *. cbn [blen] in *. lia.
Qed.

(** ** Lemmas: truncating a text *)
(** The shape of a truncated text: both ends survive, as far as the budget
    reaches (up to the bytes of one character on each side), around a marker. *)
Definition truncated_to (budget : N) (content result marker : rstring) (mid : rstring) : Prop :=
  ∃ before after,
    content = before ++ mid ++ after ∧ mid ≠ [] ∧ result = before ++ marker ++ after ∧
    blen before + blen after ≤ budget ∧ budget ≤ blen before + blen after + 6.

Lemma truncate_estimate_ok {E} s max_bytes use_tokens :
  blen s ≤ usize_max →
  ∃ result, truncate_with_byte_estimate (E:=E) s max_bytes use_tokens = Ok result ∧
    (if blen s <=? max_bytes then result = s
     else ∃ mid, truncated_to max_bytes s result
                   (format_truncation_marker use_tokens
                      (removed_units use_tokens (blen s - max_bytes) (N.of_nat (length mid)))) mid).
Proof.
  intros Hlen. unfold truncate_with_byte_estimate. case_bool_decide as Hs.
  { subst. eexists. split; [done|]. cbn [blen]. by destruct (N.leb_spec 0 max_bytes); [|lia]. }
  destruct (N.eqb_spec max_bytes 0) as [->|Hm].
  { eexists. split; [done|]. destruct (N.leb_spec (blen s) 0) as [H|H].
    { apply N.le_0_r, blen_0 in H. done. }
    exists s, [], []. rewrite app_nil_r, N.sub_0_r. split_and!; try done; cbn; rewrite ?app_nil_r; try done; lia. }
  destruct (N.leb_spec (blen s) max_bytes) as [Hle|Hgt]; [by eexists|].
  unfold split_budget. destruct (split_string_ok (E:=E) s (max_bytes / 2) (max_bytes - max_bytes / 2) Hlen)
    as (before & mid & after & Es & -> & Hb & Ha & Hc1 & Hc2).
  cbn [mbind outcome_bind]. eexists. split; [done|]. exists mid, before, after.
  pose proof (N.Div0.div_le_upper_bound max_bytes 2 max_bytes ltac:(lia)) as Hhalf.
  assert (mid ≠ []) as Hmid.
  { intros ->. rewrite Es, !blen_app in Hgt. cbn in Hgt. lia. }
  split_and!; [done|done|done|lia|].
  destruct mid as [|c mid]; [done|]. pose proof (Hc1 c (mid ++ after) eq_refl). pose proof (clen_bounds c).
  destruct (exists_last Hmid) as (m & d & Em). pose proof (Hc2 m d Em). pose proof (clen_bounds d). lia.
Qed.

Definition marker_of (p : TruncationPolicy) (content mid : rstring) : rstring :=
  match p with
  | Bytes _ => [ellipsis] ++ show (N.of_nat (length mid)) ++ lit " chars truncated" ++ [ellipsis]
  | Tokens _ => [ellipsis] ++ show (approx_tokens_from_byte_count (blen content - byte_budget p))
                  ++ lit " tokens truncated" ++ [ellipsis]
  end.

Lemma truncate_text_ok {E} content p :
  blen content ≤ usize_max →
  ∃ result, truncate_text (E:=E) content p = Ok result ∧
    (if blen content <=? byte_budget p then result = content
     else ∃ mid, truncated_to (byte_budget p) content result (marker_of p content mid) mid).
Proof.
  intros Hlen. destruct p as [n|n]; cbn [truncate_text byte_budget].
  - exact (truncate_estimate_ok content n false Hlen).
  - unfold truncate_middle_with_token_budget. case_bool_decide as Hs.
    { subst. eexists. split; [done|]. cbn [blen]. by destruct (N.leb_spec 0 (approx_bytes_for_tokens n)); [|lia]. }
    destruct ((0 <? n) && (blen content <=? approx_bytes_for_tokens n)) eqn:Hf.
    { apply andb_true_iff in Hf as [_ Hf]. eexists. split; [done|]. by rewrite Hf. }
    destruct (truncate_estimate_ok (E:=E) content (approx_bytes_for_tokens n) true Hlen) as (r & -> & Hr).
    exists r. split; [done|]. exact Hr.
Qed.

(** ** Lemmas: truncating items *)
Definition total_cost (p : TruncationPolicy) (items : list OutputContentItem) : N :=
  foldr N.add 0 (cost_of p <$> omap text_of_item items).
Definition non_text (items : list OutputContentItem) : list OutputContentItem := List.filter (λ i, negb (is_text i)) items.

Lemma items_loop_exhausted {E} p items out omitted :
  items_loop (E:=E) p items out 0 omitted =
  Ok (out ++ non_text items, omitted + N.of_nat (length (omap text_of_item items))).
Proof.
  revert out omitted. induction items as [|i items IH]; intros out omitted; cbn; [by rewrite app_nil_r, N.add_0_r|].
  destruct i; cbn; rewrite IH; [do 2 f_equal; lia|by rewrite <- app_assoc|by rewrite <- app_assoc].
Qed.

Lemma items_loop_ok {E} p items out remaining omitted :
  Forall (λ t, blen t ≤ usize_max) (omap text_of_item items) →
  ∃ kept rest,
    items = kept ++ rest ∧ total_cost p kept ≤ remaining ∧
    match rest with
    | [] => items_loop (E:=E) p items out remaining omitted = Ok (out ++ kept, omitted)
    | OutputText text :: rest' =>
        (remaining = total_cost p kept ∨ remaining < total_cost p kept + cost_of p text) ∧
        ∃ snippet,
          (remaining = total_cost p kept ∧ snippet = []
           ∨ truncate_text (E:=E) text (snippet_policy p (remaining - total_cost p kept)) = Ok snippet) ∧
          items_loop (E:=E) p items out remaining omitted =
            Ok (out ++ kept ++ (if bool_decide (snippet = []) then [] else [OutputText snippet]) ++ non_text rest',
                omitted + N.of_nat (length (omap text_of_item rest')) + (if bool_decide (snippet = []) then 1 else 0))
    | _ => False
    end.
Proof.
  revert out remaining. induction items as [|i items IH]; intros out remaining Hf; cbn [items_loop].
  { exists [], []. split_and!; [done|cbn; lia|by rewrite app_nil_r]. }
  assert (∀ i', is_text i' = false → i = i' →
    Forall (λ t, blen t ≤ usize_max) (omap text_of_item items) →
    items_loop (E:=E) p (i :: items) out remaining omitted = items_loop p items (out ++ [i]) remaining omitted) as Hskip.
  { by intros [| |] ? ->. }
  assert (is_text i = false →
    Forall (λ t, blen t ≤ usize_max) (omap text_of_item items) ∧
    ∀ k, total_cost p (i :: k) = total_cost p k) as Hcost.
  { destruct i; [done|..]; done. }
  destruct (is_text i) eqn:Ei.
  - clear Hskip Hcost. destruct i as [text| |]; [|done..]. cbn in Hf. apply Forall_cons_1 in Hf as [Htext Hf].
    destruct (N.eqb_spec remaining 0) as [->|Hr].
    { exists [], (OutputText text :: items). split; [done|]. split; [cbn; lia|]. split; [by left|]. exists [].
      split; [by left|]. rewrite items_loop_exhausted. do 2 f_equal. rewrite bool_decide_eq_true_2 by done. lia. }
    destruct (N.leb_spec (cost_of p text) remaining) as [Hc|Hc].
    + destruct (IH (out ++ [OutputText text]) (sat_sub remaining (cost_of p text)) Hf) as (kept & rest & -> & Hk & Hrest).
      unfold sat_sub in *. exists (OutputText text :: kept), rest. split; [done|].
      assert (total_cost p (OutputText text :: kept) = cost_of p text + total_cost p kept) as E0 by done.
      rewrite E0. split; [lia|]. destruct rest as [|[text'| |] rest']; [| |done|done].
      { rewrite Hrest. by rewrite <- app_assoc. }
      destruct Hrest as (Hor & snippet & Hs & ->). split; [destruct Hor; [left|right]; lia|]. exists snippet.
      split; [|by rewrite <- !app_assoc]. destruct Hs as [[? ?]|Hs]; [left; split; [lia|done]|right].
      by replace (remaining - (cost_of p text + total_cost p kept)) with (remaining - cost_of p text - total_cost p kept) by lia.
    + exists [], (OutputText text :: items). split; [done|]. split; [cbn; lia|].
      destruct (truncate_text_ok (E:=E) text (snippet_policy p remaining) Htext) as (snippet & Hs & _).
      split; [right; cbn; lia|]. exists snippet. rewrite N.sub_0_r. split; [by right|].
      rewrite Hs. cbn [mbind outcome_bind]. case_bool_decide; rewrite items_loop_exhausted; do 2 f_equal; [lia| |lia].
      by rewrite <- app_assoc.
  - destruct (Hcost eq_refl) as [Hf' Hc]. clear Hcost.
    replace (items_loop (E:=E) p (i :: items) out remaining omitted)
      with (items_loop (E:=E) p items (out ++ [i]) remaining omitted) by (symmetry; by apply (Hskip i)).
    destruct (IH (out ++ [i]) remaining Hf') as (kept & rest & -> & Hk & Hrest).
    exists (i :: kept), rest. split; [done|]. rewrite Hc. split; [done|].
    destruct i; [done|..]; cbn [app] in *;
      (destruct rest as [|[text'| |] rest']; [by rewrite Hrest, <- app_assoc| |done|done];
       destruct Hrest as (Hor & snippet & Hs & ->); split; [done|]; exists snippet; split; [done|];
       by rewrite <- app_assoc).
Qed.

(** ** Properties *)

(** Truncating a text never fails to slice it; a text within the budget is
    unchanged, and of any other the start and the end are kept around a marker
    with the right count, using at most the budget and all of it but for the
    bytes of one character on each side. *)
Theorem truncate_text_keeps_both_ends {E} (content : rstring) (p : TruncationPolicy) :
  blen content ≤ usize_max →
  ∃ result, truncate_text (E:=E) content p = Ok result ∧
    (blen content ≤ byte_budget p → result = content) ∧
    (byte_budget p < blen content →
     ∃ before mid after,
       content = before ++ mid ++ after ∧ mid ≠ [] ∧ result = before ++ marker_of p content mid ++ after ∧
       blen before + blen after ≤ byte_budget p ∧ byte_budget p ≤ blen before + blen after + 6).
Proof.
  intros Hlen. destruct (truncate_text_ok (E:=E) content p Hlen) as (result & Hr & H). exists result. split; [done|].
  destruct (N.leb_spec (blen content) (byte_budget p)) as [Hle|Hgt]; [split; [done|lia]|]. split; [lia|].
  intros _. destruct H as (mid & before & after & ?). by exists before, mid, after.
Qed.
Lemma truncate_text_keeps_both_ends_witness :
  truncate_text (E:=()) (lit "hello wonderful world") (Bytes 10) =
    Ok (lit "hello" ++ [ellipsis] ++ lit "11 chars truncated" ++ [ellipsis] ++ lit "world").
Proof.
  destruct (truncate_text_keeps_both_ends (E:=()) (lit "hello wonderful world") (Bytes 10) ltac:(done)) as (r & Hr & _).
  etrans; [exact Hr|]. vm_compute in Hr. injection Hr as <-. vm_compute. reflexivity.
Defined.

(** Truncating the items of a tool output keeps every image and encrypted
    item, keeps the leading items word for word as long as their texts cost no
    more than the budget, then at most a truncated piece of one text that does
    not fit, and says how many texts it left out. *)
Theorem truncate_items_spec {E} (items : list OutputContentItem) (p : TruncationPolicy) :
  Forall (λ t, blen t ≤ usize_max) (omap text_of_item items) →
  let budget := match p with Bytes n | Tokens n => n end in
  ∃ kept rest,
    items = kept ++ rest ∧ total_cost p kept ≤ budget ∧
    match rest with
    | [] => truncate_function_output_items_with_policy (E:=E) items p = Ok kept
    | OutputText text :: rest' =>
        (budget = total_cost p kept ∨ budget < total_cost p kept + cost_of p text) ∧
        ∃ snippet,
          (budget = total_cost p kept ∧ snippet = []
           ∨ truncate_text (E:=E) text (snippet_policy p (budget - total_cost p kept)) = Ok snippet) ∧
          truncate_function_output_items_with_policy (E:=E) items p =
            Ok (kept ++ (if bool_decide (snippet = []) then [] else [OutputText snippet]) ++ non_text rest' ++
                omitted_notice (N.of_nat (length (omap text_of_item rest'))
                                + (if bool_decide (snippet = []) then 1 else 0)))
    | _ => False
    end.
Proof.
  intros Hf budget. destruct (items_loop_ok (E:=E) p items [] budget 0 Hf) as (kept & rest & Hi & Hk & H).
  exists kept, rest. split; [done|]. split; [done|]. unfold truncate_function_output_items_with_policy.
  replace (match p with Bytes _ => byte_budget p | Tokens _ => token_budget p end) with budget by (by destruct p).
  destruct rest as [|[text| |] rest']; [| |done|done].
  - rewrite H. cbn. by rewrite app_nil_r.
  - destruct H as (Hor & snippet & Hs & ->). split; [done|]. exists snippet. split; [done|].
    cbn [mbind outcome_bind app]. rewrite N.add_0_l. by rewrite <- !app_assoc.
Qed.
Lemma truncate_items_spec_witness :
  ∃ kept rest, [OutputText (lit "abc"); OutputImage (lit "u") None; OutputText (lit "defghij"); OutputText (lit "k")]
                 = kept ++ rest ∧ total_cost (Bytes 5) kept ≤ 5 ∧
  truncate_function_output_items_with_policy (E:=())
    [OutputText (lit "abc"); OutputImage (lit "u") None; OutputText (lit "defghij"); OutputText (lit "k")] (Bytes 5) =
  Ok [OutputText (lit "abc"); OutputImage (lit "u") None;
      OutputText (lit "d" ++ [ellipsis] ++ lit "5 chars truncated" ++ [ellipsis] ++ lit "j");
      OutputText (lit "[omitted 1 text items ...]")].
Proof.
  destruct (truncate_items_spec (E:=())
    [OutputText (lit "abc"); OutputImage (lit "u") None; OutputText (lit "defghij"); OutputText (lit "k")] (Bytes 5)
    ltac:(repeat constructor; done)) as (kept & rest & H1 & H2 & _).
  exists kept, rest. split; [exact H1|]. split; [exact H2|]. vm_compute. reflexivity.
Defined.
