(* ===== verification/ResponseItem.v ===== *)
(** * Items of a conversation ([protocol/src/models.rs], [core/src/context],
    [core/src/event_mapping.rs])

    The items exchanged with the model, and the tests that recognise the
    context the agent itself injects.  A [serde_json::Value] is kept as its
    text and never inspected.  The XML and JSON readers behind two of the tests
    are parameters. *)
From S2P Require Import Prelude RustStr Utf8 Utf8Text Truncation.

(** ** Data *)
Abbreviation JsonValue := rstring.
Inductive MessagePhase := Commentary | FinalAnswer.
Inductive ContentItem :=
| InputText (text : rstring)
| InputImage (image_url : rstring) (detail : option ImageDetail)
| InputFile (file_data file_id mime_type filename : option rstring)
| OutText (text : rstring)
| UrlFile (url : rstring) (mime_type filename : option rstring).

Inductive FunctionCallOutputBody := BodyText (content : rstring) | BodyItems (items : list OutputContentItem).
Record FunctionCallOutputPayload := mk_payload { body : FunctionCallOutputBody; success : option bool }.
Definition payload_from_text (content : rstring) : FunctionCallOutputPayload := mk_payload (BodyText content) None.

Inductive LocalShellStatus := Completed | InProgress | Incomplete.
Record LocalShellExecAction := mk_exec_action {
  command : list rstring; timeout_ms : option N; working_directory : option rstring;
  env : option (gmap rstring rstring); user : option rstring
}.
Inductive LocalShellAction := Exec (a : LocalShellExecAction).
Inductive WebSearchAction :=
| WSearch (query : option rstring) (queries : option (list rstring))
| WOpenPage (url : option rstring)
| WFindInPage (url pattern : option rstring)
| WOther.
Inductive ReasoningItemReasoningSummary := SummaryText (text : rstring).
Inductive ReasoningItemContent := ReasoningText (text : rstring) | RText (text : rstring).

Inductive ResponseItem :=
| Message (id : option rstring) (role : rstring) (content : list ContentItem) (phase : option MessagePhase)
| Reasoning (id : rstring) (summary : list ReasoningItemReasoningSummary)
    (content : option (list ReasoningItemContent)) (encrypted_content : option rstring)
| LocalShellCall (id call_id : option rstring) (status : LocalShellStatus) (action : LocalShellAction)
| FunctionCall (id : option rstring) (name : rstring) (namespace : option rstring) (arguments call_id : rstring)
| ToolSearchCall (id call_id status : option rstring) (execution : rstring) (arguments : JsonValue)
| FunctionCallOutput (call_id : rstring) (output : FunctionCallOutputPayload)
| CustomToolCall (id status : option rstring) (call_id name input : rstring)
| CustomToolCallOutput (call_id : rstring) (name : option rstring) (output : FunctionCallOutputPayload)
| ToolSearchOutput (call_id : option rstring) (status execution : rstring) (tools : list JsonValue)
| WebSearchCall (id status : option rstring) (action : option WebSearchAction)
| ImageGenerationCall (id status : rstring) (revised_prompt : option rstring) (result : rstring)
| Compaction (encrypted_content : rstring)
| CompactionTrigger
| ContextCompaction (encrypted_content : option rstring)
| Other.

(** ** Recognising injected context *)
Definition eq_ignore_ascii_case (a b : rstring) : bool := bool_decide (to_ascii_lowercase a = to_ascii_lowercase b).
(** [s.get(..n).is_some_and(|c| c.eq_ignore_ascii_case(marker))], and the same from an offset. *)
Definition get_to_is (s : rstring) (n : N) (marker : rstring) : bool :=
  match split_at_byte n s with Some (candidate, _) => eq_ignore_ascii_case candidate marker | None => false end.
Definition get_from_is (s : rstring) (n : N) (marker : rstring) : bool :=
  match split_at_byte n s with Some (_, candidate) => eq_ignore_ascii_case candidate marker | None => false end.

(** [core/src/context/fragment.rs] *)
Definition matches_marked_text (start_marker end_marker text : rstring) : bool :=
  if bool_decide (start_marker = []) || bool_decide (end_marker = []) then false
  else
    let trimmed := trim_start text in
    let starts_with_marker := get_to_is trimmed (blen start_marker) start_marker in
    let trimmed := trim_end trimmed in
    let ends_with_marker := get_from_is trimmed (sat_sub (blen trimmed) (blen end_marker)) end_marker in
    starts_with_marker && ends_with_marker.

(** The registered fragments, in order: seven with markers, three legacy warnings. *)
Definition marked_fragments : list (rstring * rstring) :=
  [(lit "# AGENTS.md instructions for ", lit "</INSTRUCTIONS>");
   (lit "<environment_context>", lit "</environment_context>");
   (lit "<skill>", lit "</skill>");
   (lit "<user_shell_command>", lit "</user_shell_command>");
   (lit "<turn_aborted>", lit "</turn_aborted>");
   (lit "<subagent_notification>", lit "</subagent_notification>");
   (lit "<goal_context>", lit "</goal_context>")].
Definition legacy_process_limit_warning (text : rstring) : bool :=
  starts_with (trim text) (lit "Warning: The maximum number of unified exec processes you can keep open is").
Definition legacy_apply_patch_warning (text : rstring) : bool :=
  starts_with (trim text) (lit "Warning: apply_patch was requested via ")
  && ends_with (trim text) (lit "Use the apply_patch tool instead of exec_command.").
Definition legacy_model_mismatch_warning (text : rstring) : bool :=
  starts_with (trim text) (lit "Warning: Your account was flagged for potentially high-risk cyber activity").
Definition is_standard_contextual_user_text (text : rstring) : bool :=
  existsb (λ m, matches_marked_text m.1 m.2 text) marked_fragments
  || legacy_process_limit_warning text || legacy_apply_patch_warning text || legacy_model_mismatch_warning text.

(** [core/src/event_mapping.rs] *)
Definition CONTEXTUAL_DEVELOPER_PREFIXES : list rstring :=
  [lit "<permissions instructions>"; lit "<model_switch>"; lit "<collaboration_mode>";
   lit "<realtime_conversation>"; lit "<personality_spec>"].
Definition is_contextual_dev_fragment (c : ContentItem) : bool :=
  match c with
  | InputText text =>
      let trimmed := trim_start text in
      existsb (λ prefix, get_to_is trimmed (blen prefix) prefix) CONTEXTUAL_DEVELOPER_PREFIXES
  | _ => false
  end.
Definition is_contextual_dev_message_content (message : list ContentItem) : bool :=
  existsb is_contextual_dev_fragment message.
Definition has_non_contextual_dev_message_content (message : list ContentItem) : bool :=
  existsb (λ c, negb (is_contextual_dev_fragment c)) message.

Section recognisers.
Context (from_xml : rstring → option (rstring * rstring)) (is_inter_agent_json : rstring → bool).

(** [parse_hook_prompt_fragment(text).is_some()]: the reader gives the text and the hook run id. *)
Definition is_hook_prompt_fragment (text : rstring) : bool :=
  match from_xml (trim text) with
  | Some (_, hook_run_id) => negb (bool_decide (trim hook_run_id = []))
  | None => false
  end.
Definition is_contextual_user_fragment (c : ContentItem) : bool :=
  match c with
  | InputText text => is_hook_prompt_fragment text || is_standard_contextual_user_text text
  | _ => false
  end.
Definition is_contextual_user_message_content (message : list ContentItem) : bool :=
  existsb is_contextual_user_fragment message.

(** [InterAgentCommunication::is_message_content] *)
Definition is_inter_agent_instruction_content (content : list ContentItem) : bool :=
  match content with
  | [InputText text] | [OutText text] => is_inter_agent_json text
  | _ => false
  end.

Definition is_user_turn_boundary (item : ResponseItem) : bool :=
  match item with
  | Message _ role content _ =>
      (bool_decide (role = lit "user") && negb (is_contextual_user_message_content content))
      || (bool_decide (role = lit "assistant") && is_inter_agent_instruction_content content)
  | _ => false
  end.
End recognisers.
