(* ===== verification/ContextNormalize.v ===== *)
(** * Normalising a conversation ([core/src/context_manager/normalize.rs])

    Every call must have an output, every output a call, and images go when the
    model takes none.  [error_or_panic] panics in a debug build and logs in a
    release build: [debug] says which one it is. *)
From S2P Require Import Prelude RustStr Utf8 Utf8Text Truncation ResponseItem.

Inductive InputModality := ModText | ModImage.
#[global] Instance InputModality_eq_dec : EqDecision InputModality.
Proof. solve_decision. Defined.

Definition IMAGE_CONTENT_OMITTED_PLACEHOLDER : rstring :=
  lit "image content omitted because you do not support image input".

Section normalize.
Context (debug : bool).

Definition error_or_panic {E} : outcome E unit := if debug then Panic else Ok ().

(** [Vec::insert] and [Vec::remove]: out of range they panic. *)
Definition vec_insert {A E} (l : list A) (i : nat) (x : A) : outcome E (list A) :=
  if i <=? length l then Ok (take i l ++ x :: drop i l) else Panic.
Definition vec_remove {A E} (l : list A) (i : nat) : outcome E (A * list A) :=
  match l !! i with Some x => Ok (x, take i l ++ drop (S i) l) | None => Panic end.

(** ** [ensure_call_outputs_present] *)
Definition is_function_output (call_id : rstring) (i : ResponseItem) : bool :=
  match i with FunctionCallOutput existing _ => bool_decide (existing = call_id) | _ => false end.
Definition is_tool_search_output (call_id : rstring) (i : ResponseItem) : bool :=
  match i with ToolSearchOutput (Some existing) _ _ _ => bool_decide (existing = call_id) | _ => false end.
Definition is_custom_output (call_id : rstring) (i : ResponseItem) : bool :=
  match i with CustomToolCallOutput existing _ _ => bool_decide (existing = call_id) | _ => false end.

(** The synthetic output one item needs, if any. *)
Definition missing_output {E} (items : list ResponseItem) (item : ResponseItem) : outcome E (option ResponseItem) :=
  match item with
  | FunctionCall _ _ _ _ call_id =>
      if existsb (is_function_output call_id) items then Ok None
      else Ok (Some (FunctionCallOutput call_id (payload_from_text (lit "aborted"))))
  | ToolSearchCall _ (Some call_id) _ _ _ =>
      if existsb (is_tool_search_output call_id) items then Ok None
      else Ok (Some (ToolSearchOutput (Some call_id) (lit "completed") (lit "client") []))
  | CustomToolCall _ _ call_id _ _ =>
      if existsb (is_custom_output call_id) items then Ok None
      else let? _ := error_or_panic in
           Ok (Some (CustomToolCallOutput call_id None (payload_from_text (lit "aborted"))))
  | LocalShellCall _ (Some call_id) _ _ =>
      if existsb (is_function_output call_id) items then Ok None
      else let? _ := error_or_panic in
           Ok (Some (FunctionCallOutput call_id (payload_from_text (lit "aborted"))))
  | _ => Ok None
  end.
Fixpoint missing_outputs {E} (items : list ResponseItem) (idx : nat) (rest : list ResponseItem)
    : outcome E (list (nat * ResponseItem)) :=
  match rest with
  | [] => Ok []
  | item :: rest =>
      let? m := missing_output items item in
      let? missing := missing_outputs items (S idx) rest in
      Ok (match m with Some out => (idx, out) :: missing | None => missing end)
  end.
Definition insert_missing {E} (m : nat * ResponseItem) (acc : outcome E (list ResponseItem))
    : outcome E (list ResponseItem) :=
  let? items := acc in vec_insert items (m.1 + 1) m.2.
Definition ensure_call_outputs_present {E} (items : list ResponseItem) : outcome E (list ResponseItem) :=
  let? missing := missing_outputs items 0 items in
  foldr insert_missing (Ok items) missing.

(** ** [remove_orphan_outputs] *)
Definition function_call_id (i : ResponseItem) : option rstring :=
  match i with FunctionCall _ _ _ _ call_id => Some call_id | _ => None end.
Definition tool_search_call_id (i : ResponseItem) : option rstring :=
  match i with ToolSearchCall _ (Some call_id) _ _ _ => Some call_id | _ => None end.
Definition local_shell_call_id (i : ResponseItem) : option rstring :=
  match i with LocalShellCall _ (Some call_id) _ _ => Some call_id | _ => None end.
Definition custom_tool_call_id (i : ResponseItem) : option rstring :=
  match i with CustomToolCall _ _ call_id _ _ => Some call_id | _ => None end.
Definition keep_output {E} (items : list ResponseItem) (item : ResponseItem) : outcome E bool :=
  let ids f := list_to_set (C := gset rstring) (omap f items) in
  let checked (has_match : bool) := if has_match then Ok true else let? _ := error_or_panic in Ok false in
  match item with
  | FunctionCallOutput call_id _ =>
      checked (bool_decide (call_id ∈ ids function_call_id) || bool_decide (call_id ∈ ids local_shell_call_id))
  | CustomToolCallOutput call_id _ _ => checked (bool_decide (call_id ∈ ids custom_tool_call_id))
  | ToolSearchOutput call_id _ execution _ =>
      if bool_decide (execution = lit "server") then Ok true
      else match call_id with
           | Some call_id => checked (bool_decide (call_id ∈ ids tool_search_call_id))
           | None => Ok true
           end
  | _ => Ok true
  end.
Fixpoint retain {E} (keep : ResponseItem → outcome E bool) (l : list ResponseItem) : outcome E (list ResponseItem) :=
  match l with
  | [] => Ok []
  | x :: l => let? k : bool := keep x in let? l := retain keep l in Ok (if k then x :: l else l)
  end.
Definition remove_orphan_outputs {E} (items : list ResponseItem) : outcome E (list ResponseItem) :=
  retain (keep_output items) items.

(** ** [remove_corresponding_for] *)
Definition remove_first_matching (items : list ResponseItem) (predicate : ResponseItem → bool) : list ResponseItem :=
  match position predicate items with Some pos => take pos items ++ drop (S pos) items | None => items end.
Definition is_some_eq (o : option rstring) (call_id : rstring) : bool := bool_decide (o = Some call_id).
Definition remove_corresponding_for (items : list ResponseItem) (item : ResponseItem) : list ResponseItem :=
  match item with
  | FunctionCall _ _ _ _ call_id => remove_first_matching items (is_function_output call_id)
  | FunctionCallOutput call_id _ =>
      match position (λ i, is_some_eq (function_call_id i) call_id) items with
      | Some pos => take pos items ++ drop (S pos) items
      | None => remove_first_matching items (λ i, is_some_eq (local_shell_call_id i) call_id)
      end
  | ToolSearchCall _ (Some call_id) _ _ _ => remove_first_matching items (is_tool_search_output call_id)
  | ToolSearchOutput (Some call_id) _ _ _ =>
      remove_first_matching items (λ i, is_some_eq (tool_search_call_id i) call_id)
  | CustomToolCall _ _ call_id _ _ => remove_first_matching items (is_custom_output call_id)
  | CustomToolCallOutput call_id _ _ => remove_first_matching items (λ i, is_some_eq (custom_tool_call_id i) call_id)
  | LocalShellCall _ (Some call_id) _ _ => remove_first_matching items (is_function_output call_id)
  | _ => items
  end.

(** ** [strip_images_when_unsupported] *)
Definition strip_content (c : ContentItem) : ContentItem :=
  match c with InputImage _ _ => InputText IMAGE_CONTENT_OMITTED_PLACEHOLDER | c => c end.
Definition strip_output_content (c : OutputContentItem) : OutputContentItem :=
  match c with OutputImage _ _ => OutputText IMAGE_CONTENT_OMITTED_PLACEHOLDER | c => c end.
Definition strip_payload (p : FunctionCallOutputPayload) : FunctionCallOutputPayload :=
  match body p with
  | BodyItems items => mk_payload (BodyItems (strip_output_content <$> items)) (success p)
  | BodyText _ => p
  end.
Definition strip_item (i : ResponseItem) : ResponseItem :=
  match i with
  | Message id role content phase => Message id role (strip_content <$> content) phase
  | FunctionCallOutput call_id output => FunctionCallOutput call_id (strip_payload output)
  | CustomToolCallOutput call_id name output => CustomToolCallOutput call_id name (strip_payload output)
  | ImageGenerationCall id status revised_prompt _ => ImageGenerationCall id status revised_prompt []
  | i => i
  end.
Definition strip_images_when_unsupported (input_modalities : list InputModality) (items : list ResponseItem)
    : list ResponseItem :=
  if bool_decide (ModImage ∈ input_modalities) then items else strip_item <$> items.

(** [ContextManager::normalize_history] *)
Definition normalize_history {E} (input_modalities : list InputModality) (items : list ResponseItem)
    : outcome E (list ResponseItem) :=
  let? items := ensure_call_outputs_present items in
  let? items := remove_orphan_outputs items in
  Ok (strip_images_when_unsupported input_modalities items).
End normalize.

(** ** Calls and outputs *)
Inductive CallKind := KFunction | KSearch | KCustom.
#[global] Instance CallKind_eq_dec : EqDecision CallKind.
Proof. solve_decision. Defined.
Definition call_key (i : ResponseItem) : option (CallKind * rstring) :=
  match i with
  | FunctionCall _ _ _ _ c | LocalShellCall _ (Some c) _ _ => Some (KFunction, c)
  | ToolSearchCall _ (Some c) _ _ _ => Some (KSearch, c)
  | CustomToolCall _ _ c _ _ => Some (KCustom, c)
  | _ => None
  end.
Definition output_key (i : ResponseItem) : option (CallKind * rstring) :=
  match i with
  | FunctionCallOutput c _ => Some (KFunction, c)
  | ToolSearchOutput (Some c) _ _ _ => Some (KSearch, c)
  | CustomToolCallOutput c _ _ => Some (KCustom, c)
  | _ => None
  end.
(** Outputs of searches the server ran need no call. *)
Definition server_side (i : ResponseItem) : bool :=
  match i with ToolSearchOutput _ _ execution _ => bool_decide (execution = lit "server") | _ => false end.

(** What the model is sent: calls have outputs, and outputs calls. *)
Definition calls_answered (items : list ResponseItem) : Prop :=
  ∀ k, k ∈ omap call_key items → k ∈ omap output_key items.
Definition outputs_called (items : list ResponseItem) : Prop :=
  ∀ i k, i ∈ items → output_key i = Some k → server_side i = false → k ∈ omap call_key items.
Definition paired (items : list ResponseItem) : Prop := calls_answered items ∧ outputs_called items.

(** The reference: after each unanswered call an output of its kind. *)
Definition synthetic (k : CallKind * rstring) : ResponseItem :=
  match k with
  | (KFunction, c) => FunctionCallOutput c (payload_from_text (lit "aborted"))
  | (KSearch, c) => ToolSearchOutput (Some c) (lit "completed") (lit "client") []
  | (KCustom, c) => CustomToolCallOutput c None (payload_from_text (lit "aborted"))
  end.
Definition unanswered (items : list ResponseItem) (i : ResponseItem) : option (CallKind * rstring) :=
  match call_key i with
  | Some k => if decide (k ∈ omap output_key items) then None else Some k
  | None => None
  end.
Definition answer (items : list ResponseItem) (i : ResponseItem) : list ResponseItem :=
  i :: option_list (synthetic <$> unanswered items i).
Definition kept (items : list ResponseItem) (i : ResponseItem) : bool :=
  match output_key i with
  | Some k => server_side i || bool_decide (k ∈ omap call_key items)
  | None => true
  end.
(** What only an upstream error leaves behind, an unanswered custom or shell
    call or an orphan output, which a debug build reports by a panic. *)
Definition loud_call (items : list ResponseItem) (i : ResponseItem) : bool :=
  match i with
  | CustomToolCall _ _ _ _ _ | LocalShellCall _ _ _ _ => bool_decide (is_Some (unanswered items i))
  | _ => false
  end.
Definition unexpected (items : list ResponseItem) (i : ResponseItem) : bool :=
  loud_call items i || negb (kept items i).
(** What normalisation makes of a conversation. *)
Definition answers (items rest : list ResponseItem) : list ResponseItem := rest ≫= answer items.
Definition normalized (input_modalities : list InputModality) (items : list ResponseItem) : list ResponseItem :=
  strip_images_when_unsupported input_modalities (List.filter (kept items) (answers items items)).

(** ** Lemmas: answering *)
Lemma existsb_output_key (p : ResponseItem → bool) k items :
  (∀ i, p i = true ↔ output_key i = Some k) → existsb p items = bool_decide (k ∈ omap output_key items).
Proof.
  intros H. apply eq_true_iff_eq. rewrite bool_decide_eq_true, existsb_exists, list_elem_of_omap.
  setoid_rewrite H. setoid_rewrite <- list_elem_of_In. done.
Qed.
Lemma function_output_key c i : is_function_output c i = true ↔ output_key i = Some (KFunction, c).
Proof. destruct i as [| | | | | | | | [?|]| | | | | |]; cbn; try done. rewrite bool_decide_eq_true. split; congruence. Qed.
Lemma search_output_key c i : is_tool_search_output c i = true ↔ output_key i = Some (KSearch, c).
Proof. destruct i as [| | | | | | | | [?|]| | | | | |]; cbn; try done. rewrite bool_decide_eq_true. split; congruence. Qed.
Lemma custom_output_key c i : is_custom_output c i = true ↔ output_key i = Some (KCustom, c).
Proof. destruct i as [| | | | | | | | [?|]| | | | | |]; cbn; try done. rewrite bool_decide_eq_true. split; congruence. Qed.

Lemma missing_output_spec {E} debug items i :
  missing_output (E:=E) debug items i =
  if debug && loud_call items i then Panic else Ok (synthetic <$> unanswered items i).
Proof.
  unfold loud_call, unanswered.
  destruct i as [| |? [c|]| | ? [c|]| |? ? c| | | | | | | |]; cbn; rewrite ?andb_false_r; try done.
  - rewrite (existsb_output_key _ _ _ (function_output_key c)). case_decide as Hd.
    + rewrite bool_decide_eq_true_2, andb_false_r by done. done.
    + rewrite bool_decide_eq_false_2 by done. by destruct debug.
  - rewrite (existsb_output_key _ _ _ (function_output_key call_id)). case_decide as Hd.
    + by rewrite bool_decide_eq_true_2.
    + by rewrite bool_decide_eq_false_2.
  - rewrite (existsb_output_key _ _ _ (search_output_key c)). case_decide as Hd.
    + by rewrite bool_decide_eq_true_2.
    + by rewrite bool_decide_eq_false_2.
  - rewrite (existsb_output_key _ _ _ (custom_output_key c)). case_decide as Hd.
    + rewrite bool_decide_eq_true_2, andb_false_r by done. done.
    + rewrite bool_decide_eq_false_2 by done. by destruct debug.
Qed.

Lemma answers_cons items i rest : answers items (i :: rest) = answer items i ++ answers items rest.
Proof. done. Qed.

Lemma ensure_loop {E} debug items rest : ∀ pre idx,
  idx = length pre →
  (let? missing := missing_outputs (E:=E) debug items idx rest in foldr insert_missing (Ok (pre ++ rest)) missing) =
  if debug && existsb (loud_call items) rest then Panic else Ok (pre ++ (answers items rest)).
Proof.
  induction rest as [|i rest IH]; intros pre idx ->; [cbn; by rewrite andb_false_r|].
  cbn [missing_outputs existsb]. rewrite missing_output_spec.
  destruct (debug && loud_call items i) eqn:Hl.
  { apply andb_true_iff in Hl as [-> ->]. done. }
  cbn [mbind outcome_bind]. specialize (IH (pre ++ [i]) (S (length pre)) ltac:(rewrite length_app; cbn; lia)).
  rewrite <- app_assoc in IH. cbn [app] in IH.
  destruct (missing_outputs debug items (S (length pre)) rest) as [missing| |] eqn:Em; cbn [mbind outcome_bind] in *.
  - replace (debug && (loud_call items i || existsb (loud_call items) rest))
      with (debug && existsb (loud_call items) rest) by (destruct debug; [cbn in *; by rewrite Hl|done]).
    assert (foldr insert_missing (Ok (pre ++ i :: rest)) missing =
            if debug && existsb (loud_call items) rest then Panic
            else Ok (pre ++ i :: (answers items rest)) : outcome E (list ResponseItem)) as IH'.
    { rewrite IH. destruct (debug && _); [done|]. by rewrite <- app_assoc. }
    rewrite answers_cons. unfold answer.
    destruct (unanswered items i) as [k|]; cbn [fmap option_fmap option_map option_list app]; [|exact IH'].
    cbn [foldr]. rewrite IH'. destruct (debug && _); [done|]. unfold insert_missing, vec_insert. cbn [mbind outcome_bind fst snd].
    rewrite (proj2 (Nat.leb_le _ _)) by (rewrite length_app; cbn; lia). f_equal.
    change (pre ++ i :: (answers items rest)) with (pre ++ [i] ++ (answers items rest)).
    rewrite (app_assoc pre). replace (length pre + 1) with (length (pre ++ [i])) by (rewrite length_app; cbn; lia).
    rewrite take_app_length, drop_app_length. by rewrite <- app_assoc.
  - destruct (debug && existsb _ rest) eqn:Hd; [done|done].
  - destruct debug; cbn [andb] in *; [|done]. rewrite Hl. cbn [orb]. by destruct (existsb _ rest).
Qed.

Lemma ensure_spec {E} debug items :
  ensure_call_outputs_present (E:=E) debug items =
  if debug && existsb (loud_call items) items then Panic else Ok (answers items items).
Proof. exact (ensure_loop debug items items [] 0 eq_refl). Qed.

(** ** Lemmas: keeping outputs *)
Lemma key_in_ids (f : ResponseItem → option rstring) k (c : rstring) items :
  (∀ i, f i = Some c → call_key i = Some (k, c)) → c ∈ list_to_set (C := gset rstring) (omap f items) →
  (k, c) ∈ omap call_key items.
Proof.
  intros H (i & Hi & Hf)%elem_of_list_to_set%list_elem_of_omap. apply list_elem_of_omap. eauto.
Qed.

Lemma keep_output_spec {E} debug items i :
  keep_output (E:=E) debug items i = if debug && negb (kept items i) then Panic else Ok (kept items i).
Proof.
  assert (∀ b : bool, (if b then Ok true else let? _ := error_or_panic debug in Ok false) =
    (if debug && negb b then Panic else Ok b : outcome E bool)) as Hb.
  { intros b. unfold error_or_panic. by destruct b, debug. }
  unfold keep_output, kept. destruct i as [| | | | |c ?| |c ?|[c|] ? ex ?| | | | | |]; cbn [output_key server_side];
    rewrite ?andb_false_r; try done.
  - rewrite Hb. cbn [orb]. assert (bool_decide (c ∈ list_to_set (C := gset rstring) (omap function_call_id items))
      || bool_decide (c ∈ list_to_set (C := gset rstring) (omap local_shell_call_id items)) =
      bool_decide ((KFunction, c) ∈ omap call_key items)) as ->; [|done].
    apply eq_true_iff_eq. rewrite orb_true_iff, !bool_decide_eq_true. split.
    + intros [H|H]; (eapply key_in_ids; [|exact H]); by intros [| |? [?|]| | ? [?|]| | | |[?|]| | | | | |]; cbn; intros; simplify_eq.
    + intros (i & Hi & Hk)%list_elem_of_omap. rewrite !elem_of_list_to_set, !list_elem_of_omap.
      destruct i as [| |? [?|]| | ? [?|]| | | |[?|]| | | | | |]; cbn in Hk; simplify_eq; [right|left]; eauto.
  - rewrite Hb. cbn [orb]. assert (bool_decide (c ∈ list_to_set (C := gset rstring) (omap custom_tool_call_id items)) =
      bool_decide ((KCustom, c) ∈ omap call_key items)) as ->; [|done].
    apply bool_decide_ext. split.
    + intros H; (eapply key_in_ids; [|exact H]); by intros [| |? [?|]| | ? [?|]| | | |[?|]| | | | | |]; cbn; intros; simplify_eq.
    + intros (i & Hi & Hk)%list_elem_of_omap. rewrite elem_of_list_to_set, list_elem_of_omap.
      destruct i as [| |? [?|]| | ? [?|]| | | |[?|]| | | | | |]; cbn in Hk; simplify_eq; eauto.
  - destruct (bool_decide (ex = lit "server")); [cbn; by rewrite andb_false_r|]. rewrite Hb. cbn [orb].
    assert (bool_decide (c ∈ list_to_set (C := gset rstring) (omap tool_search_call_id items)) =
      bool_decide ((KSearch, c) ∈ omap call_key items)) as ->; [|done].
    apply bool_decide_ext. split.
    + intros H; (eapply key_in_ids; [|exact H]); by intros [| |? [?|]| | ? [?|]| | | |[?|]| | | | | |]; cbn; intros; simplify_eq.
    + intros (i & Hi & Hk)%list_elem_of_omap. rewrite elem_of_list_to_set, list_elem_of_omap.
      destruct i as [| |? [?|]| | ? [?|]| | | |[?|]| | | | | |]; cbn in Hk; simplify_eq; eauto.
  - by destruct (bool_decide _).
Qed.

Lemma retain_spec {E} debug (k : ResponseItem → bool) (keep : ResponseItem → outcome E bool) l :
  (∀ i, keep i = if debug && negb (k i) then Panic else Ok (k i)) →
  retain keep l = if debug && existsb (λ i, negb (k i)) l then Panic else Ok (List.filter k l).
Proof.
  intros H. induction l as [|i l IH]; cbn; [by rewrite andb_false_r|]. rewrite H, IH.
  destruct debug; cbn; [|by destruct (k i)]. destruct (k i); cbn; [|done]. by destruct (existsb _ l).
Qed.

Lemma synthetic_keys k : call_key (synthetic k) = None ∧ output_key (synthetic k) = Some k.
Proof. by destruct k as [[] c]. Qed.
Lemma call_not_output i k : call_key i = Some k → output_key i = None.
Proof. by destruct i. Qed.
Lemma unanswered_call items i k : unanswered items i = Some k → call_key i = Some k ∧ k ∉ omap output_key items.
Proof. unfold unanswered. destruct (call_key i); [|done]. case_decide; [done|]. by intros [= <-]. Qed.

Lemma answers_calls items rest : omap call_key (answers items rest) = omap call_key rest.
Proof.
  induction rest as [|i rest IH]; [done|]. rewrite answers_cons, omap_app, IH. unfold answer.
  destruct (unanswered items i) as [k|]; cbn; [rewrite (proj1 (synthetic_keys k))|]; by destruct (call_key i).
Qed.

Lemma answers_elem items rest j :
  j ∈ answers items rest ↔ j ∈ rest ∨ ∃ i k, i ∈ rest ∧ unanswered items i = Some k ∧ j = synthetic k.
Proof.
  induction rest as [|i rest IH].
  { split; [intros H; by apply elem_of_nil in H|]. intros [H|(i & k & H & _)]; by apply elem_of_nil in H. }
  rewrite answers_cons, elem_of_app, IH. unfold answer. rewrite !elem_of_cons. split.
  - intros [[->|Hj]|[Hj|(i' & k & Hi & Hk & ->)]]; [auto| |auto|right; exists i', k; by rewrite elem_of_cons; auto].
    destruct (unanswered items i) as [k|] eqn:E; cbn in Hj; [|by apply elem_of_nil in Hj].
    apply list_elem_of_singleton in Hj as ->. right. exists i, k. rewrite elem_of_cons. auto.
  - intros [[->|Hj]|(i' & k & [->|Hi]%elem_of_cons & Hk & ->)]; [auto|auto| |right; right; eauto].
    rewrite Hk. left. right. by left.
Qed.

Lemma kept_ext l l' i : omap call_key l = omap call_key l' → kept l i = kept l' i.
Proof. intros H. unfold kept. by rewrite H. Qed.

Lemma kept_synthetic items i k : i ∈ items → unanswered items i = Some k → kept items (synthetic k) = true.
Proof.
  intros Hi Hk. unfold kept. destruct (synthetic_keys k) as [_ ->]. apply orb_true_iff. right.
  apply (bool_decide_eq_true_2 _), list_elem_of_omap. exists i. split; [done|]. by apply unanswered_call in Hk as [? _].
Qed.

Lemma orphans_answers items :
  existsb (λ i, negb (kept items i)) (answers items items) = existsb (λ i, negb (kept items i)) items.
Proof.
  apply eq_true_iff_eq. rewrite !existsb_exists. setoid_rewrite <- list_elem_of_In. split.
  - intros (j & Hj & Hk). apply answers_elem in Hj as [Hj|(i & k & Hi & Hu & ->)]; [eauto|].
    by rewrite (kept_synthetic items i k Hi Hu) in Hk.
  - intros (j & Hj & Hk). exists j. split; [|done]. apply answers_elem. by left.
Qed.

Lemma existsb_orb {A} (f g : A → bool) l : existsb (λ i, f i || g i) l = existsb f l || existsb g l.
Proof.
  induction l as [|i l IH]; [done|]. cbn. rewrite IH. by destruct (f i), (g i), (existsb f l).
Qed.

Lemma normalize_history_eq {E} debug mods items :
  normalize_history (E:=E) debug mods items =
  if debug && existsb (unexpected items) items then Panic else Ok (normalized mods items).
Proof.
  assert (existsb (unexpected items) items =
    existsb (loud_call items) items || existsb (λ i, negb (kept items i)) items) as ->.
  { apply existsb_orb. }
  unfold normalize_history. rewrite ensure_spec. destruct (debug && existsb (loud_call items) items) eqn:Hl.
  { apply andb_true_iff in Hl as [-> ->]. done. }
  cbn [mbind outcome_bind]. unfold remove_orphan_outputs.
  rewrite (retain_spec debug (kept items)).
  2: { intros i. rewrite keep_output_spec. by rewrite (kept_ext (answers items items) items) by apply answers_calls. }
  rewrite orphans_answers. destruct debug; cbn [andb] in *; [|done]. rewrite Hl. cbn [orb].
  destruct (existsb (λ i, negb (kept items i)) items); cbn [mbind outcome_bind]; reflexivity.
Qed.

(** ** Lemmas: pairing *)
Lemma strip_item_keys i :
  call_key (strip_item i) = call_key i ∧ output_key (strip_item i) = output_key i ∧ server_side (strip_item i) = server_side i.
Proof. by destruct i as [| |? [?|]| | ? [?|]| | | |[?|]| | | | | |]. Qed.
Lemma strip_keys (key : ResponseItem → option (CallKind * rstring)) mods items :
  (∀ i, key (strip_item i) = key i) → omap key (strip_images_when_unsupported mods items) = omap key items.
Proof.
  intros H. unfold strip_images_when_unsupported. case_bool_decide; [done|].
  induction items as [|i items IH]; [done|]. cbn. rewrite H. by destruct (key i); cbn; rewrite IH.
Qed.
Lemma strip_elem mods items j :
  j ∈ strip_images_when_unsupported mods items →
  ∃ i, i ∈ items ∧ output_key j = output_key i ∧ server_side j = server_side i.
Proof.
  unfold strip_images_when_unsupported. case_bool_decide; [by exists j|].
  intros (i & -> & Hi)%list_elem_of_fmap. exists i. destruct (strip_item_keys i) as (_ & -> & ->). done.
Qed.
Lemma strip_paired mods items : paired items → paired (strip_images_when_unsupported mods items).
Proof.
  intros [H1 H2]. unfold paired, calls_answered, outputs_called.
  rewrite !strip_keys by (intros i; apply strip_item_keys). split; [exact H1|].
  intros j k Hj Hk Hs. destruct (strip_elem _ _ _ Hj) as (i & Hi & Eo & Es). rewrite Eo in Hk. rewrite Es in Hs.
  by apply (H2 i).
Qed.

Lemma filter_elem {A} (p : A → bool) l x : x ∈ List.filter p l ↔ x ∈ l ∧ p x = true.
Proof. rewrite !list_elem_of_In. apply filter_In. Qed.

Lemma kept_calls items l : omap call_key (List.filter (kept items) l) = omap call_key l.
Proof.
  induction l as [|i l IH]; [done|]. cbn. destruct (call_key i) as [k|] eqn:E.
  - assert (kept items i = true) as -> by (unfold kept; by rewrite (call_not_output i k E)). cbn. by rewrite E, IH.
  - destruct (kept items i); cbn; [by rewrite E|done].
Qed.

Lemma answered_paired items : paired (List.filter (kept items) (answers items items)).
Proof.
  unfold paired, calls_answered, outputs_called. rewrite kept_calls, answers_calls. split.
  - intros k Hk. apply list_elem_of_omap. destruct (decide (k ∈ omap output_key items)) as [Ho|Ho].
    + apply list_elem_of_omap in Ho as (j & Hj & Ej). exists j. split; [|done]. apply filter_elem.
      split; [apply answers_elem; by left|]. unfold kept. rewrite Ej. apply orb_true_iff. right. by apply (bool_decide_eq_true_2 _).
    + apply list_elem_of_omap in Hk as (i & Hi & Ei).
      assert (unanswered items i = Some k) as Hu by (unfold unanswered; by rewrite Ei, decide_False).
      exists (synthetic k). split; [|by destruct (synthetic_keys k)]. apply filter_elem.
      split; [apply answers_elem; right; eauto|by eapply kept_synthetic].
  - intros i k [_ Hi]%filter_elem Ek Hs. unfold kept in Hi. rewrite Ek, Hs in Hi. by apply (bool_decide_eq_true_1 _) in Hi.
Qed.

Lemma normalized_paired mods items : paired (normalized mods items).
Proof. apply strip_paired, answered_paired. Qed.

Lemma paired_unanswered items i : calls_answered items → i ∈ items → unanswered items i = None.
Proof.
  intros H Hi. unfold unanswered. destruct (call_key i) as [k|] eqn:E; [|done]. rewrite decide_True; [done|].
  apply H, list_elem_of_omap. eauto.
Qed.
Lemma paired_kept items i : outputs_called items → i ∈ items → kept items i = true.
Proof.
  intros H Hi. unfold kept. destruct (output_key i) as [k|] eqn:E; [|done]. destruct (server_side i) eqn:Es; [done|].
  apply (bool_decide_eq_true_2 _). by apply (H i).
Qed.

Lemma paired_normalized items : paired items →
  List.filter (kept items) (answers items items) = items ∧ existsb (unexpected items) items = false.
Proof.
  intros [H1 H2].
  assert (∀ l, (∀ i, i ∈ l → i ∈ items) → List.filter (kept items) (answers items l) = l ∧ existsb (unexpected items) l = false) as H.
  { induction l as [|i l IH]; intros Hl; [done|]. destruct IH as [IH1 IH2]; [intros j Hj; apply Hl; by right|].
    pose proof (paired_unanswered items i H1 (Hl i ltac:(left))) as Hu.
    pose proof (paired_kept items i H2 (Hl i ltac:(left))) as Hk.
    rewrite answers_cons. unfold answer. rewrite Hu. cbn. rewrite Hk, IH1, IH2. split; [done|].
    unfold unexpected, loud_call. rewrite Hk, Hu. by destruct i. }
  by apply H.
Qed.

Lemma strip_idemp mods items :
  strip_images_when_unsupported mods (strip_images_when_unsupported mods items) = strip_images_when_unsupported mods items.
Proof.
  unfold strip_images_when_unsupported. case_bool_decide; [done|]. rewrite <- list_fmap_compose. apply list_fmap_ext.
  intros _ i _. cbn. assert (∀ c, strip_output_content (strip_output_content c) = strip_output_content c) as Ho by by intros [].
  assert (∀ p, strip_payload (strip_payload p) = strip_payload p) as Hp.
  { intros [[t|l] s]; [done|]. unfold strip_payload. cbn. do 2 f_equal. rewrite <- list_fmap_compose.
    apply list_fmap_ext. intros _ c _. apply Ho. }
  destruct i; cbn; try done; [|by rewrite Hp|by rewrite Hp]. f_equal. rewrite <- list_fmap_compose.
  apply list_fmap_ext. by intros _ [] _.
Qed.

Lemma normalized_fixpoint {E} debug mods items :
  normalize_history (E:=E) debug mods (normalized mods items) = Ok (normalized mods items).
Proof.
  rewrite normalize_history_eq. destruct (paired_normalized _ (normalized_paired mods items)) as [Hf Hu].
  rewrite Hu, andb_false_r. f_equal. unfold normalized at 1. rewrite Hf. unfold normalized. apply strip_idemp.
Qed.

Lemma answers_sublist items l :
  List.filter (kept items) l `sublist_of` List.filter (kept items) (answers items l).
Proof.
  induction l as [|i l IH]; [done|]. rewrite answers_cons. unfold answer. cbn [app List.filter].
  destruct (kept items i); [apply sublist_skip|];
    (rewrite List.filter_app; apply sublist_inserts_l; exact IH).
Qed.

(** Image content. *)
Definition payload_has_image (p : FunctionCallOutputPayload) : bool :=
  match body p with BodyItems l => existsb (λ c, match c with OutputImage _ _ => true | _ => false end) l | _ => false end.
Definition has_image (i : ResponseItem) : bool :=
  match i with
  | Message _ _ content _ => existsb (λ c, match c with InputImage _ _ => true | _ => false end) content
  | FunctionCallOutput _ p | CustomToolCallOutput _ _ p => payload_has_image p
  | ImageGenerationCall _ _ _ result => negb (bool_decide (result = []))
  | _ => false
  end.
Lemma strip_no_image i : has_image (strip_item i) = false.
Proof.
  assert (∀ p, payload_has_image (strip_payload p) = false) as Hp.
  { intros [[t|l] s]; [done|]. cbn. induction l as [|[] l IH]; done. }
  destruct i as [? ? l ?| | | | | | | | | | | | | |]; cbn; try done. induction l as [|[] l IH]; done.
Qed.

(** ** Lemmas: removing a pair *)
Definition unique_ids (items : list ResponseItem) : Prop :=
  NoDup (omap call_key items) ∧ NoDup (omap output_key items).

Lemma remove_first_matching_spec p l :
  (∃ l1 j l2, l = l1 ++ j :: l2 ∧ p j = true ∧ remove_first_matching l p = l1 ++ l2) ∨
  ((∀ j, j ∈ l → p j = false) ∧ remove_first_matching l p = l).
Proof.
  unfold remove_first_matching. destruct (position p l) as [pos|] eqn:E.
  - left. apply position_Some in E as (j & Hj & Hp & _). exists (take pos l), j, (drop (S pos) l).
    split_and!; [|done|done]. by rewrite take_drop_middle.
  - right. split; [|done]. by apply position_None.
Qed.

(** Removing the counterpart removes one item of the opposite key, if there is one. *)
Definition counterpart_removed (key : ResponseItem → option (CallKind * rstring)) (k : CallKind * rstring)
    (l l' : list ResponseItem) : Prop :=
  (∃ j, (l ≡ₚ j :: l') ∧ key j = Some k) ∨ ((k ∉ omap key l) ∧ l' = l).

Lemma remove_first_counterpart key k p l :
  (∀ j, p j = true ↔ key j = Some k) → counterpart_removed key k l (remove_first_matching l p).
Proof.
  intros H. destruct (remove_first_matching_spec p l) as [(l1 & j & l2 & -> & Hp & ->)|[Hn ->]].
  - left. exists j. split; [by rewrite Permutation_middle|by apply H].
  - right. split; [|done]. intros (j & Hj & Hk)%list_elem_of_omap. apply H in Hk. rewrite (Hn j Hj) in Hk. done.
Qed.

Lemma remove_corresponding_spec l i :
  match call_key i, output_key i with
  | Some k, _ => counterpart_removed output_key k l (remove_corresponding_for l i)
  | None, Some k => counterpart_removed call_key k l (remove_corresponding_for l i)
  | None, None => remove_corresponding_for l i = l
  end.
Proof.
  destruct i as [| |? [c|]| | ? [c|]|c ?| |c ?|[c|]| | | | | |]; cbn [call_key output_key remove_corresponding_for]; try done.
  - apply remove_first_counterpart, function_output_key.
  - apply remove_first_counterpart, function_output_key.
  - apply remove_first_counterpart, search_output_key.
  - pose proof (remove_first_matching_spec (λ i, is_some_eq (function_call_id i) c) l) as H. unfold remove_first_matching in H at 1 2.
    destruct (position _ l) as [pos|] eqn:Epos.
    + left. destruct H as [(l1 & j & l2 & -> & Hp & ->)|[Hn _]].
      * exists j. split; [by rewrite Permutation_middle|]. unfold is_some_eq in Hp. apply (bool_decide_eq_true_1 _) in Hp.
        by destruct j; simplify_eq/=.
      * apply position_Some in Epos as (j & Hj & Hp & _). rewrite (Hn j) in Hp; [done|]. by eapply list_elem_of_lookup_2.
    + clear H. pose proof (proj1 (position_None _ _) Epos) as Hfn. clear Epos. rename Hfn into Epos.
      destruct (remove_first_matching_spec (λ i, is_some_eq (local_shell_call_id i) c) l) as [(l1 & j & l2 & -> & Hp & ->)|[Hn ->]].
      * left. exists j. split; [by rewrite Permutation_middle|]. unfold is_some_eq in Hp. apply (bool_decide_eq_true_1 _) in Hp.
        by destruct j as [| |? [?|]| | ? [?|]| | | |[?|]| | | | | |]; simplify_eq/=.
      * right. split; [|done]. intros (j & Hj & Hk)%list_elem_of_omap. specialize (Epos j Hj). specialize (Hn j Hj).
        unfold is_some_eq in *. apply (bool_decide_eq_false_1 _) in Epos, Hn.
        by destruct j as [| |? [?|]| | ? [?|]| | | |[?|]| | | | | |]; simplify_eq/=.
  - apply remove_first_counterpart, custom_output_key.
  - apply remove_first_counterpart. intros j. unfold is_some_eq. rewrite bool_decide_eq_true.
    destruct j as [| |? [?|]| | ? [?|]| | | |[?|]| | | | | |]; cbn; split; congruence.
  - apply remove_first_counterpart. intros j. unfold is_some_eq. rewrite bool_decide_eq_true.
    destruct j as [| |? [?|]| | ? [?|]| | | |[?|]| | | | | |]; cbn; split; congruence.
Qed.

Lemma omap_perm_cons (key : ResponseItem → option (CallKind * rstring)) l j l' :
  l ≡ₚ j :: l' → omap key l ≡ₚ option_list (key j) ++ omap key l'.
Proof. intros ->. cbn. by destruct (key j). Qed.

Lemma paired_perm l l' : l ≡ₚ l' → paired l → paired l'.
Proof.
  intros H [H1 H2]. unfold paired, calls_answered, outputs_called in *.
  split; [intros k; rewrite <- !H; apply H1|]. intros i k. rewrite <- H. apply H2.
Qed.
Lemma unique_perm l l' : l ≡ₚ l' → unique_ids l → unique_ids l'.
Proof. intros H. unfold unique_ids. by rewrite H. Qed.

(** Without both ends of one pair, a paired conversation stays paired. *)
Lemma drop_pair (call out : ResponseItem) k rest :
  call_key call = Some k → output_key out = Some k → paired (call :: out :: rest) → unique_ids (call :: out :: rest) →
  paired rest ∧ unique_ids rest.
Proof.
  intros Hc Ho [H1 H2] [U1 U2]. pose proof (call_not_output _ _ Hc) as Hco.
  assert (call_key out = None) as Hoc by by destruct out.
  unfold calls_answered, outputs_called in H1, H2. cbn [omap list_omap] in *. rewrite Hc, Hoc in H1, H2, U1.
  rewrite Hco, Ho in H1, U2. cbn in H1, H2, U1, U2. apply NoDup_cons in U1 as [Uc U1], U2 as [Uo U2].
  split; [split|by split].
  - intros k' Hk'. destruct (proj1 (elem_of_cons _ _ _) (H1 k' ltac:(by right))) as [->|?]; [done|done].
  - intros i k' Hi Ek Es. destruct (proj1 (elem_of_cons _ _ _) (H2 i k' ltac:(by do 2 right) Ek Es)) as [->|?]; [|done].
    destruct Uo. apply list_elem_of_omap. eauto.
Qed.

Lemma remove_corresponding_paired items i l :
  items ≡ₚ i :: l → paired items → unique_ids items →
  paired (remove_corresponding_for l i) ∧ unique_ids (remove_corresponding_for l i).
Proof.
  intros Hp H U. apply (paired_perm _ _ Hp) in H. apply (unique_perm _ _ Hp) in U. clear Hp items.
  pose proof (remove_corresponding_spec l i) as Hr. destruct (call_key i) as [k|] eqn:Ec.
  - destruct Hr as [(j & Hj & Ej)|[Hn _]].
    + assert (i :: l ≡ₚ i :: j :: remove_corresponding_for l i) as Hp by (by constructor).
      apply (drop_pair i j k); [done|done|by eapply paired_perm|by eapply unique_perm].
    + destruct H as [H1 _]. destruct Hn. specialize (H1 k). cbn in H1. rewrite Ec, (call_not_output i k Ec) in H1.
      apply H1. left.
  - destruct (output_key i) as [k|] eqn:Eo; [|rewrite Hr].
    + destruct Hr as [(j & Hj & Ej)|[Hn ->]].
      * assert (i :: l ≡ₚ j :: i :: remove_corresponding_for l i) as Hp.
        { transitivity (i :: j :: remove_corresponding_for l i); [by constructor|apply perm_swap]. }
        apply (drop_pair j i k); [done|done|by eapply paired_perm|by eapply unique_perm].
      * destruct H as [H1 H2], U as [U1 U2]. unfold calls_answered, outputs_called in *. cbn in H1, H2, U1, U2.
        rewrite Ec, Eo in *. apply NoDup_cons in U2 as [Uo U2]. split; [split|by split].
        -- intros k' Hk'. destruct (proj1 (elem_of_cons _ _ _) (H1 k' Hk')) as [->|?]; [done|done].
        -- intros j k' Hj. apply H2. by right.
    + destruct H as [H1 H2], U as [U1 U2]. unfold calls_answered, outputs_called in *. cbn in H1, H2, U1, U2.
      rewrite Ec, Eo in *. split; [split; [done|]|by split]. intros j k' Hj. apply H2. by right.
Qed.

Lemma remove_corresponding_length l i : length (remove_corresponding_for l i) ≤ length l.
Proof.
  pose proof (remove_corresponding_spec l i) as H.
  assert (∀ key k, counterpart_removed key k l (remove_corresponding_for l i) → length (remove_corresponding_for l i) ≤ length l) as Hr.
  { intros key k [(j & Hj & _)|[_ ->]]; [apply Permutation_length in Hj; rewrite Hj; cbn; lia|done]. }
  destruct (call_key i); [by eapply Hr|]. destruct (output_key i); [by eapply Hr|by rewrite H].
Qed.

(** ** Properties *)

(** C8: a release build always normalises a conversation, a debug build unless
    a custom or shell call is unanswered or an output is an orphan.  In the
    result every call has an output and every output (of a search the server
    ran apart) a call; the calls are those there were, the outputs that had a
    call are still there in order, and there is no image when the model takes
    none.  Normalising again, in either build, changes nothing. *)
Theorem normalize_pairs_calls_and_outputs (debug : bool) (mods : list InputModality) (items : list ResponseItem) :
  let result := normalize_history (E:=()) debug mods items in
  result = (if debug && existsb (unexpected items) items then Panic else Ok (normalized mods items)) ∧
  paired (normalized mods items) ∧
  omap call_key (normalized mods items) = omap call_key items ∧
  (ModImage ∈ mods → List.filter (kept items) items `sublist_of` normalized mods items) ∧
  (ModImage ∉ mods → Forall (λ i, has_image i = false) (normalized mods items)) ∧
  ∀ debug', normalize_history (E:=()) debug' mods (normalized mods items) = Ok (normalized mods items).
Proof.
  split_and!.
  - apply normalize_history_eq.
  - apply normalized_paired.
  - unfold normalized. rewrite strip_keys by (intros i; apply strip_item_keys). by rewrite kept_calls, answers_calls.
  - intros Hm. unfold normalized, strip_images_when_unsupported. rewrite bool_decide_eq_true_2 by done.
    apply answers_sublist.
  - intros Hm. unfold normalized, strip_images_when_unsupported. rewrite bool_decide_eq_false_2 by done.
    apply Forall_fmap, Forall_forall. intros i _. apply strip_no_image.
  - intros debug'. apply normalized_fixpoint.
Qed.
