(* ===== verification/ContextManager.v ===== *)
(** * The conversation history ([core/src/context_manager/history.rs])

    The transcript of a thread with its version, its token accounting ([TokenUsage]
    of [protocol/src/protocol.rs]) and the baseline for settings updates.
    [i64] sums that the code does not saturate panic on overflow in a debug
    build and wrap in a release build.  The serialised length of an item, the
    size of a decoded image, and the two readers of [ResponseItem] are
    parameters; the cache of image estimates is transparent. *)
From Stdlib Require Import SpecFloat.
From S2P Require Import Prelude RustStr Utf8 Utf8Text Truncation ResponseItem ContextNormalize.

(** ** Machine integers *)
Definition i64_min : Z := - 2^63.
Definition i64_clamp (z : Z) : Z := Z.max i64_min (Z.min i64_max z).
Definition i64_sat_add (a b : Z) : Z := i64_clamp (a + b).
Definition i64_sat_sub (a b : Z) : Z := i64_clamp (a - b).
(** [i64::try_from(n).unwrap_or(i64::MAX)] *)
Definition i64_of_usize (n : N) : Z := Z.min i64_max (Z.of_N n).
Definition i64_wrap (z : Z) : Z := (z + 2^63) mod 2^64 - 2^63.
Definition in_i64 (z : Z) : bool := (i64_min <=? z)%Z && (z <=? i64_max)%Z.
Definition i64_checked {E} (debug : bool) (z : Z) : outcome E Z :=
  if in_i64 z then Ok z else if debug then Panic else Ok (i64_wrap z).

(** ** Token usage *)
Record TokenUsage := mk_usage {
  input_tokens : Z; cached_input_tokens : Z; output_tokens : Z; reasoning_output_tokens : Z; total_tokens : Z
}.
Definition usage_default : TokenUsage := mk_usage 0 0 0 0 0.
Record TokenUsageInfo := mk_info {
  total_token_usage : TokenUsage; last_token_usage : TokenUsage; model_context_window : option Z
}.
Definition add_assign {E} (debug : bool) (a b : TokenUsage) : outcome E TokenUsage :=
  let? i := i64_checked debug (input_tokens a + input_tokens b) in
  let? c := i64_checked debug (cached_input_tokens a + cached_input_tokens b) in
  let? o := i64_checked debug (output_tokens a + output_tokens b) in
  let? r := i64_checked debug (reasoning_output_tokens a + reasoning_output_tokens b) in
  let? t := i64_checked debug (total_tokens a + total_tokens b) in
  Ok (mk_usage i c o r t).
Definition append_last_usage {E} (debug : bool) (info : TokenUsageInfo) (last : TokenUsage) : outcome E TokenUsageInfo :=
  let? total := add_assign debug (total_token_usage info) last in
  Ok (mk_info total last (model_context_window info)).
Definition new_or_append {E} (debug : bool) (info : option TokenUsageInfo) (last : option TokenUsage)
    (window : option Z) : outcome E (option TokenUsageInfo) :=
  match info, last with
  | None, None => Ok None
  | _, _ =>
      let info := match info with Some i => i | None => mk_info usage_default usage_default window end in
      let? info := match last with Some l => append_last_usage debug info l | None => Ok info end in
      Ok (Some (match window with
                | Some w => mk_info (total_token_usage info) (last_token_usage info) (Some w)
                | None => info
                end))
  end.
Definition fill_to_context_window {E} (debug : bool) (info : TokenUsageInfo) (context_window : Z)
    : outcome E TokenUsageInfo :=
  let? d := i64_checked debug (context_window - total_tokens (total_token_usage info)) in
  Ok (mk_info (mk_usage 0 0 0 0 context_window) (mk_usage 0 0 0 0 (Z.max d 0)) (Some context_window)).
Definition full_context_window {E} (debug : bool) (context_window : Z) : outcome E TokenUsageInfo :=
  fill_to_context_window debug (mk_info usage_default usage_default (Some context_window)) context_window.

(** ** The manager *)
Record DroppedUrlFileInfo := mk_dropped { d_url : option rstring; d_filename : option rstring }.

(** [Iterator::rposition] *)
Definition rposition {A} (p : A → bool) (l : list A) : option nat :=
  (λ k, length l - 1 - k) <$> position p (rev l).

Definition u64_max : N := 2^64 - 1.
Definition version_bump (v : N) : N := N.min u64_max (v + 1).

Section context_manager.
Context {TurnContextItem : Type}.
Record ContextManager := mk_manager {
  items : list ResponseItem; history_version : N; token_info : option TokenUsageInfo;
  reference_context_item : option TurnContextItem
}.
Definition manager_new : ContextManager := mk_manager [] 0 None None.
Definition set_items (m : ContextManager) (l : list ResponseItem) : ContextManager :=
  mk_manager l (history_version m) (token_info m) (reference_context_item m).
Definition set_token_info (m : ContextManager) (info : option TokenUsageInfo) : ContextManager :=
  mk_manager (items m) (history_version m) info (reference_context_item m).
Definition set_reference_context_item (m : ContextManager) (item : option TurnContextItem) : ContextManager :=
  mk_manager (items m) (history_version m) (token_info m) item.
Definition bump (m : ContextManager) : ContextManager :=
  mk_manager (items m) (version_bump (history_version m)) (token_info m) (reference_context_item m).
Definition replace (m : ContextManager) (l : list ResponseItem) : ContextManager := bump (set_items m l).

Context (debug : bool).
Definition set_token_usage_full {E} (m : ContextManager) (context_window : Z) : outcome E ContextManager :=
  let? info := match token_info m with
               | Some info => fill_to_context_window debug info context_window
               | None => full_context_window debug context_window
               end in
  Ok (set_token_info m (Some info)).
Definition update_token_info {E} (m : ContextManager) (usage : TokenUsage) (window : option Z) : outcome E ContextManager :=
  let? info := new_or_append debug (token_info m) (Some usage) window in
  Ok (set_token_info m info).

(** *** Recording *)
Definition is_api_message (i : ResponseItem) : bool :=
  match i with
  | Message _ role _ _ => negb (bool_decide (role = lit "system"))
  | CompactionTrigger | Other => false
  | _ => true
  end.
Definition truncate_function_output_payload {E} (output : FunctionCallOutputPayload) (policy : TruncationPolicy)
    : outcome E FunctionCallOutputPayload :=
  let? b := match body output with
            | BodyText content => let? t := truncate_text content policy in Ok (BodyText t)
            | BodyItems l => let? l := truncate_function_output_items_with_policy l policy in Ok (BodyItems l)
            end in
  Ok (mk_payload b (success output)).
Definition ONE_POINT_TWO : spec_float := S754_finite false 5404319552844595 (-52).
Definition process_item {E} (item : ResponseItem) (policy : TruncationPolicy) : outcome E ResponseItem :=
  let policy_with_serialization_budget := policy_mul policy ONE_POINT_TWO in
  match item with
  | FunctionCallOutput call_id output =>
      let? output := truncate_function_output_payload output policy_with_serialization_budget in
      Ok (FunctionCallOutput call_id output)
  | item => Ok item
  end.
Fixpoint record_items {E} (m : ContextManager) (new : list ResponseItem) (policy : TruncationPolicy)
    : outcome E ContextManager :=
  match new with
  | [] => Ok m
  | item :: rest =>
      if negb (is_api_message item) then record_items m rest policy
      else
        let? processed := process_item item policy in
        record_items (set_items m (items m ++ [processed])) rest policy
  end.
Definition for_prompt {E} (m : ContextManager) (input_modalities : list InputModality) : outcome E (list ResponseItem) :=
  normalize_history debug input_modalities (items m).

(** *** Removing *)
Definition remove_first_item (m : ContextManager) : ContextManager :=
  match items m with
  | [] => m
  | removed :: rest => set_items m (remove_corresponding_for rest removed)
  end.
Definition remove_last_item (m : ContextManager) : ContextManager * bool :=
  match last (items m) with
  | Some removed =>
      let rest := removelast (items m) in (bump (set_items m (remove_corresponding_for rest removed)), true)
  | None => (m, false)
  end.

Context (from_xml : rstring → option (rstring * rstring)) (is_inter_agent_json : rstring → bool).
Definition user_turn_boundary : ResponseItem → bool := is_user_turn_boundary from_xml is_inter_agent_json.

(** *** Attachments of the last turn *)
Definition attachment (c : ContentItem) : option DroppedUrlFileInfo :=
  match c with
  | UrlFile url _ filename => Some (mk_dropped (Some url) filename)
  | InputFile _ _ _ filename => Some (mk_dropped None filename)
  | _ => None
  end.
Fixpoint drop_content (max_count : nat) (dropped : list DroppedUrlFileInfo) (content : list ContentItem)
    : list DroppedUrlFileInfo * list ContentItem :=
  match content with
  | [] => (dropped, [])
  | c :: rest =>
      if max_count <=? length dropped
      then let '(dropped, rest) := drop_content max_count dropped rest in (dropped, c :: rest)
      else match attachment c with
           | Some d => drop_content max_count (dropped ++ [d]) rest
           | None => let '(dropped, rest) := drop_content max_count dropped rest in (dropped, c :: rest)
           end
  end.
Definition is_user_message (i : ResponseItem) : bool :=
  match i with Message _ role _ _ => bool_decide (role = lit "user") | _ => false end.
Fixpoint drop_items (max_count : nat) (dropped : list DroppedUrlFileInfo) (l : list ResponseItem)
    : list DroppedUrlFileInfo * list ResponseItem :=
  match l with
  | [] => (dropped, [])
  | i :: rest =>
      let '(dropped, i) :=
        match i with
        | Message id role content phase =>
            if bool_decide (role = lit "user")
            then let '(dropped, content) := drop_content max_count dropped content in
                 (dropped, Message id role content phase)
            else (dropped, i)
        | _ => (dropped, i)
        end in
      let '(dropped, rest) := drop_items max_count dropped rest in (dropped, i :: rest)
  end.
Definition empty_user_message (i : ResponseItem) : bool :=
  match i with
  | Message _ role content _ => bool_decide (role = lit "user") && bool_decide (content = [])
  | _ => false
  end.
Definition drop_last_turn_url_files (m : ContextManager) (max_count : nat) : ContextManager * list DroppedUrlFileInfo :=
  if max_count =? 0 then (m, [])
  else
    let last_turn_start := default (length (items m)) (rposition user_turn_boundary (items m)) in
    let '(dropped, turn) := drop_items max_count [] (drop last_turn_start (items m)) in
    let stripped := take last_turn_start (items m) ++ turn in
    let retained := List.filter (λ i, negb (empty_user_message i)) stripped in
    let m := set_items m retained in
    (if negb (bool_decide (dropped = [])) || negb (length retained =? length stripped) then bump m else m, dropped).

(** *** Images of the last turn *)
Definition is_function_call_output (i : ResponseItem) : bool := match i with FunctionCallOutput _ _ => true | _ => false end.
Definition is_output_image (c : OutputContentItem) : bool := match c with OutputImage _ _ => true | _ => false end.
Definition replace_image (placeholder : rstring) (c : OutputContentItem) : OutputContentItem :=
  if is_output_image c then OutputText placeholder else c.
Definition replace_last_turn_images (m : ContextManager) (placeholder : rstring) : ContextManager * bool :=
  match rposition (λ i, is_function_call_output i || user_turn_boundary i) (items m) with
  | None => (m, false)
  | Some index =>
      match items m !! index with
      | Some (FunctionCallOutput call_id output) =>
          match body output with
          | BodyText _ => (m, false)
          | BodyItems l =>
              let replaced := existsb is_output_image l in
              let output := mk_payload (BodyItems (replace_image placeholder <$> l)) (success output) in
              let m := set_items m (<[index := FunctionCallOutput call_id output]> (items m)) in
              (if replaced then bump m else m, replaced)
          end
      | _ => (m, false)
      end
  end.

(** *** Rolling back turns *)
Fixpoint positions_from (idx : nat) (l : list ResponseItem) : list nat :=
  match l with
  | [] => []
  | i :: rest => if user_turn_boundary i then idx :: positions_from (S idx) rest else positions_from (S idx) rest
  end.
Definition user_message_positions (l : list ResponseItem) : list nat := positions_from 0 l.

(** A developer or user message that only carries context, and one that mixes it with other text. *)
Definition trimmable (i : ResponseItem) : bool :=
  match i with
  | Message _ role content _ =>
      (bool_decide (role = lit "developer") && is_contextual_dev_message_content content)
      || (bool_decide (role = lit "user") && is_contextual_user_message_content from_xml content)
  | _ => false
  end.
Definition mixed_bundle (i : ResponseItem) : bool :=
  match i with
  | Message _ role content _ =>
      bool_decide (role = lit "developer") && is_contextual_dev_message_content content
      && has_non_contextual_dev_message_content content
  | _ => false
  end.
(** The loop of [trim_pre_turn_context_updates]: it moves the cut down, and says whether the baseline is cleared. *)
Fixpoint trim_loop {E} (snapshot : list ResponseItem) (first_idx cut_idx : nat) (clear : bool) : outcome E (nat * bool) :=
  if cut_idx <=? first_idx then Ok (cut_idx, clear)
  else
    match cut_idx with
    | 0 => Ok (cut_idx, clear)
    | S cut' =>
        let? item : ResponseItem := index (E:=E) snapshot cut' in
        if trimmable item then trim_loop snapshot first_idx cut' (clear || mixed_bundle item)
        else Ok (cut_idx, clear)
    end.
Definition drop_last_n_user_turns {E} (m : ContextManager) (num_turns : nat) : outcome E ContextManager :=
  if num_turns =? 0 then Ok m
  else
    let snapshot := items m in
    let user_positions := user_message_positions snapshot in
    match user_positions with
    | [] => Ok (replace m snapshot)
    | first_instruction_turn_idx :: _ =>
        let? cut_idx : nat := if length user_positions <=? num_turns then Ok first_instruction_turn_idx
                        else index user_positions (length user_positions - num_turns) in
        let? trimmed : nat * bool := trim_loop snapshot first_instruction_turn_idx cut_idx false in
        let '(cut_idx, clear) := trimmed in
        if length snapshot <? cut_idx then Panic
        else
          let m := if clear then set_reference_context_item m None else m in
          Ok (replace m (take cut_idx snapshot))
    end.
End context_manager.
Arguments ContextManager : clear implicits.

(** ** Lemmas: rolling back *)
Section rollback.
Context (from_xml : rstring → option (rstring * rstring)) (is_inter_agent_json : rstring → bool).
Abbreviation boundary := (user_turn_boundary from_xml is_inter_agent_json).
(** The instruction turns of a conversation. *)
Definition turns (l : list ResponseItem) : nat := length (List.filter boundary l).

Lemma turns_app l k : turns (l ++ k) = turns l + turns k.
Proof using Type. unfold turns. by rewrite List.filter_app, length_app. Qed.

Lemma trimmable_not_boundary i : trimmable from_xml i = true → boundary i = false.
Proof using Type.
  destruct i as [? role content ?| | | | | | | | | | | | | |]; cbn; try done. unfold user_turn_boundary. cbn.
  intros H. apply orb_true_iff in H as [[Hr _]%andb_true_iff|[Hr Hc]%andb_true_iff];
    apply (bool_decide_eq_true_1 _) in Hr as ->; [done|]. by rewrite Hc.
Qed.

Lemma positions_length idx l : length (positions_from from_xml is_inter_agent_json idx l) = turns l.
Proof using Type.
  unfold turns. revert idx. induction l as [|i l IH]; intros idx; [done|]. cbn.
  destruct (boundary i); cbn; by rewrite IH.
Qed.

Lemma positions_lookup l : ∀ idx j p,
  positions_from from_xml is_inter_agent_json idx l !! j = Some p →
  idx ≤ p ∧ turns (take (p - idx) l) = j ∧ ∃ b rest, drop (p - idx) l = b :: rest ∧ boundary b = true.
Proof using Type.
  induction l as [|i l IH]; intros idx j p; [done|]. cbn [positions_from].
  destruct (boundary i) eqn:Hb.
  - destruct j as [|j]; cbn.
    + intros [= <-]. rewrite Nat.sub_diag. split_and!; [done|done|]. by exists i, l.
    + intros H. destruct (IH _ _ _ H) as (Hle & Ht & Hd). replace (p - idx) with (S (p - S idx)) by lia.
      split_and!; [lia| |done]. cbn [take]. unfold turns in *. cbn. rewrite Hb. cbn. by rewrite Ht.
  - intros H. destruct (IH _ _ _ H) as (Hle & Ht & Hd). replace (p - idx) with (S (p - S idx)) by lia.
    split_and!; [lia| |done]. cbn [take]. unfold turns in *. cbn. by rewrite Hb.
Qed.

Lemma trim_loop_spec {E} snapshot first : ∀ cut clear,
  cut ≤ length snapshot →
  ∃ cut' clear', trim_loop (E:=E) from_xml snapshot first cut clear = Ok (cut', clear') ∧
    cut' ≤ cut ∧ (first ≤ cut → first ≤ cut') ∧
    Forall (λ i, trimmable from_xml i = true) (drop cut' (take cut snapshot)) ∧
    clear' = clear || existsb mixed_bundle (drop cut' (take cut snapshot)) ∧
    (first < cut' → ∃ i, snapshot !! (cut' - 1) = Some i ∧ trimmable from_xml i = false).
Proof using Type.
  induction cut as [|cut IH]; intros clear Hlen.
  { exists 0, clear. cbn. split_and!; [by destruct first|lia|done|constructor|by rewrite orb_false_r|lia]. }
  cbn [trim_loop]. destruct (Nat.leb_spec (S cut) first) as [Hle|Hgt].
  { exists (S cut), clear. rewrite drop_ge by (rewrite length_take; lia). cbn.
    split_and!; [done|lia|lia|constructor|by rewrite orb_false_r|lia]. }
  unfold index. destruct (snapshot !! cut) as [i|] eqn:Hi.
  2: { apply lookup_ge_None in Hi. lia. }
  cbn [mbind outcome_bind]. destruct (trimmable from_xml i) eqn:Ht.
  - destruct (IH (clear || mixed_bundle i) ltac:(lia)) as (cut' & clear' & -> & Hc & Hf & Hall & Hcl & Hlast).
    exists cut', clear'. rewrite (take_S_r _ _ _ Hi), drop_app_le by (rewrite length_take; lia).
    split_and!; [done|lia|intros; apply Hf; lia| | |done].
    + apply Forall_app. split; [done|]. by constructor.
    + rewrite Hcl, existsb_app. cbn. rewrite orb_false_r. by destruct clear, (mixed_bundle i), (existsb _ _).
  - exists (S cut), clear. rewrite drop_ge by (rewrite length_take; lia). cbn.
    split_and!; [done|lia|lia|constructor|by rewrite orb_false_r|]. intros _. exists i. by rewrite Nat.sub_0_r.
Qed.

Lemma turns_trimmed l : Forall (λ i, trimmable from_xml i = true) l → turns l = 0.
Proof using Type.
  unfold turns. induction 1 as [|i l Hi _ IH]; [done|]. cbn. by rewrite (trimmable_not_boundary i Hi).
Qed.

(** Rolling back [n > 0] turns of a history with instruction turns keeps a
    prefix of it: what goes is the last [n] turns, or all of them if there are
    fewer, and the context messages directly before; what comes before the
    first turn stays; the version counts the rewrite; and the settings baseline
    is cleared exactly when a trimmed message mixed context with other text.
    Rolling back nothing changes nothing, and without turns only the version. *)
Theorem rollback_spec {T E} (m : ContextManager T) (n : nat) :
  ∃ m', drop_last_n_user_turns (E:=E) from_xml is_inter_agent_json m n = Ok m' ∧
  (n = 0 → m' = m) ∧
  (n ≠ 0 → turns (items m) = 0 → m' = bump m) ∧
  (n ≠ 0 → turns (items m) ≠ 0 →
   ∃ trimmed dropped,
     items m = items m' ++ trimmed ++ dropped ∧
     turns (items m') = turns (items m) - n ∧
     Forall (λ i, trimmable from_xml i = true) trimmed ∧
     (∃ b rest, dropped = b :: rest ∧ boundary b = true) ∧
     (∃ pre b post, items m = pre ++ b :: post ∧ turns pre = 0 ∧ boundary b = true ∧ pre `prefix_of` items m') ∧
     history_version m' = version_bump (history_version m) ∧
     token_info m' = token_info m ∧
     reference_context_item m' = if existsb mixed_bundle trimmed then None else reference_context_item m).
Proof using Type.
  unfold drop_last_n_user_turns. destruct (Nat.eqb_spec n 0) as [->|Hn]; [by exists m|].
  unfold user_message_positions. pose proof (positions_length 0 (items m)) as Hlen.
  destruct (positions_from _ _ 0 (items m)) as [|first ps] eqn:Eps.
  { exists (replace m (items m)). split_and!; [done|done| |cbn in Hlen; lia]. by destruct m. }
  set (all := first :: ps) in *.
  assert (∃ cut, (if length all <=? n then Ok first else index all (length all - n)) = (Ok cut : outcome E nat) ∧
    first ≤ cut ∧ cut ≤ length (items m) ∧ turns (take cut (items m)) = turns (items m) - n ∧
    ∃ b rest, drop cut (items m) = b :: rest ∧ boundary b = true) as (cut & -> & Hfc & Hcl & Hturns & Hdrop).
  { destruct (positions_lookup (items m) 0 0 first) as (_ & Hf0 & b0 & rest0 & Hd0 & Hb0); [by rewrite Eps|].
    rewrite Nat.sub_0_r in Hf0, Hd0.
    assert (∀ k b rest, drop k (items m) = b :: rest → k ≤ length (items m)) as Hk.
    { intros k b rest H. apply (f_equal length) in H. rewrite length_drop in H. cbn in H. lia. }
    destruct (Nat.leb_spec (length all) n) as [Hle|Hgt].
    - exists first. split_and!; [done|done|by eapply Hk|lia|eauto].
    - unfold index. destruct (all !! (length all - n)) as [cut|] eqn:Ecut; [|apply lookup_ge_None in Ecut; lia].
      exists cut. destruct (positions_lookup (items m) 0 (length all - n) cut) as (_ & Ht & b & rest & Hd & Hb); [by rewrite Eps|].
      rewrite Nat.sub_0_r in Ht, Hd. split_and!; [done| |by eapply Hk|lia|eauto].
      destruct (decide (first ≤ cut)) as [|Hlt]; [done|]. exfalso.
      assert (turns (take first (items m)) = turns (take cut (items m)) + turns (drop cut (take first (items m)))) as Hs.
      { rewrite <- turns_app. f_equal. by rewrite <- (take_drop cut (take first (items m))) at 1; rewrite take_take, Nat.min_l by lia. }
      lia. }
  cbn [mbind outcome_bind].
  destruct (trim_loop_spec (E:=E) (items m) first cut false Hcl) as (cut' & clear' & -> & Hc' & Hf' & Htrim & -> & _).
  cbn [mbind outcome_bind orb]. rewrite (proj2 (Nat.ltb_ge _ _)) by lia. set (trimmed := drop cut' (take cut (items m))) in *.
  assert (items m = take cut' (items m) ++ trimmed ++ drop cut (items m)) as Hsplit.
  { unfold trimmed. rewrite app_assoc. rewrite <- (take_drop cut (items m)) at 1. f_equal.
    rewrite <- (take_drop cut' (take cut (items m))) at 1. by rewrite take_take, Nat.min_l by lia. }
  eexists. split_and!; [done|done|intros _ H; cbn in Hlen; lia|]. intros _ _.
  exists trimmed, (drop cut (items m)).
  assert (∀ c : bool, items (replace (if c then set_reference_context_item m None else m) (take cut' (items m))) = take cut' (items m)) as Hit.
  { by intros []. }
  rewrite Hit. split_and!; [done| |done|done| |by destruct (existsb _ _)|by destruct (existsb _ _)|by destruct (existsb _ _)].
  - rewrite <- Hturns. unfold trimmed in Htrim. apply turns_trimmed in Htrim.
    rewrite <- (take_drop cut' (take cut (items m))), turns_app, take_take, Nat.min_l by lia. lia.
  - destruct (positions_lookup (items m) 0 0 first) as (_ & Hf0 & b0 & rest0 & Hd0 & Hb0); [by rewrite Eps|].
    rewrite Nat.sub_0_r in Hf0, Hd0. exists (take first (items m)), b0, rest0.
    split_and!; [by rewrite <- Hd0, take_drop|done|done|]. exists (drop first (take cut' (items m))).
    rewrite <- (take_drop first (take cut' (items m))) at 1. by rewrite take_take, Nat.min_l by (apply Hf'; lia).
Qed.
End rollback.

(** ** Lemmas: attachments *)
Definition is_attachment (c : ContentItem) : bool := bool_decide (is_Some (attachment c)).
(** The attachments of the user messages, and the conversation without them. *)
Definition user_attachments (l : list ResponseItem) : list DroppedUrlFileInfo :=
  l ≫= λ i, match i with
            | Message _ role content _ => if bool_decide (role = lit "user") then omap attachment content else []
            | _ => []
            end.
Definition without_attachments (i : ResponseItem) : ResponseItem :=
  match i with
  | Message id role content phase =>
      if bool_decide (role = lit "user")
      then Message id role (List.filter (λ c, negb (is_attachment c)) content) phase else i
  | _ => i
  end.

Lemma drop_content_spec max_count content : ∀ dropped,
  let '(dropped', content') := drop_content max_count dropped content in
  let n := max_count - length dropped in
  dropped' = dropped ++ take n (omap attachment content) ∧
  omap attachment content' = drop n (omap attachment content) ∧
  List.filter (λ c, negb (is_attachment c)) content' = List.filter (λ c, negb (is_attachment c)) content ∧
  (omap attachment content = [] → content' = content).
Proof.
  induction content as [|c content IH]; intros dropped.
  { cbn. rewrite take_nil, drop_nil, app_nil_r. done. }
  cbn [drop_content]. assert (is_attachment c = match attachment c with Some _ => true | None => false end) as Hia.
  { unfold is_attachment. by destruct (attachment c). }
  destruct (Nat.leb_spec max_count (length dropped)) as [Hle|Hgt].
  - specialize (IH dropped). destruct (drop_content max_count dropped content) as [d' c'].
    cbn zeta in *. replace (max_count - length dropped) with 0 in * by lia. rewrite take_0, drop_0, app_nil_r in *.
    destruct IH as (-> & Ho & Hf & Hid). split_and!; [done| | |].
    + cbn. by destruct (attachment c); rewrite Ho.
    + cbn. by rewrite Hf.
    + cbn. destruct (attachment c); [done|]. intros H. by rewrite (Hid H).
  - destruct (attachment c) as [d|] eqn:Ea.
    + specialize (IH (dropped ++ [d])). destruct (drop_content max_count (dropped ++ [d]) content) as [d' c'].
      cbn zeta in *. rewrite length_app in IH. cbn [length] in IH.
      replace (max_count - length dropped) with (S (max_count - (length dropped + 1))) by lia.
      cbn [omap list_omap List.filter]. rewrite Ea, Hia. cbn [negb take drop].
      destruct IH as (-> & Ho & Hf & _). split_and!; [by rewrite <- app_assoc|done|done|done].
    + specialize (IH dropped). destruct (drop_content max_count dropped content) as [d' c'].
      cbn [omap list_omap List.filter]. rewrite Ea, Hia. cbn [negb]. destruct IH as (-> & Ho & Hf & Hid).
      split_and!; [done|done|by rewrite Hf|]. intros H. by rewrite (Hid H).
Qed.

Lemma user_attachments_message id role content phase :
  user_attachments [Message id role content phase] = if bool_decide (role = lit "user") then omap attachment content else [].
Proof. apply app_nil_r. Qed.

Lemma drop_items_spec max_count l : ∀ dropped,
  let '(dropped', l') := drop_items max_count dropped l in
  let n := max_count - length dropped in
  dropped' = dropped ++ take n (user_attachments l) ∧
  user_attachments l' = drop n (user_attachments l) ∧
  without_attachments <$> l' = without_attachments <$> l ∧
  (user_attachments l = [] → l' = l).
Proof.
  induction l as [|i l IH]; intros dropped.
  { cbn. rewrite take_nil, drop_nil, app_nil_r. done. }
  cbn [drop_items].
  assert (∀ i l, user_attachments (i :: l) = user_attachments [i] ++ user_attachments l) as Hcons.
  { intros j k. unfold user_attachments. cbn. by rewrite app_nil_r. }
  assert (let '(d1, i1) := match i with
        | Message id role content phase =>
            if bool_decide (role = lit "user")
            then let '(dropped, content) := drop_content max_count dropped content in
                 (dropped, Message id role content phase)
            else (dropped, i)
        | _ => (dropped, i)
        end in
      d1 = dropped ++ take (max_count - length dropped) (user_attachments [i]) ∧
      user_attachments [i1] = drop (max_count - length dropped) (user_attachments [i]) ∧
      without_attachments i1 = without_attachments i ∧ (user_attachments [i] = [] → i1 = i)) as Hi.
  { assert (∀ j, user_attachments [j] = [] →
      dropped = dropped ++ take (max_count - length dropped) (user_attachments [j]) ∧
      user_attachments [j] = drop (max_count - length dropped) (user_attachments [j])) as Hno.
    { intros j ->. by rewrite take_nil, drop_nil, app_nil_r. }
    destruct i as [id role content phase| | | | | | | | | | | | | |];
      try (split; [by apply Hno|split; [by apply Hno|done]]).
    destruct (bool_decide (role = lit "user")) eqn:Hr.
    - pose proof (drop_content_spec max_count content dropped) as H.
      destruct (drop_content max_count dropped content) as [d1 c1]. destruct H as (-> & Ho & Hf & Hid).
      rewrite !user_attachments_message. unfold without_attachments. rewrite Hr, Hf.
      split_and!; [done|done|done|]. intros H. by rewrite Hid.
    - rewrite user_attachments_message, Hr, take_nil, drop_nil, app_nil_r. done. }
  destruct (match i with Message _ _ _ _ => _ | _ => _ end) as [d1 i1]. destruct Hi as (Hd1 & Hi1 & Hw1 & Hid1).
  specialize (IH d1). destruct (drop_items max_count d1 l) as [d2 l2]. cbn zeta in *. destruct IH as (-> & Hl2 & Hw2 & Hid2).
  rewrite (Hcons i l), (Hcons i1 l2). set (n := max_count - length dropped) in *.
  assert (max_count - length d1 = n - length (user_attachments [i])) as E.
  { rewrite Hd1, length_app, length_take. unfold n. lia. }
  rewrite E in *. rewrite take_app, drop_app. split_and!.
  - by rewrite Hd1, app_assoc.
  - by rewrite Hi1, Hl2.
  - cbn. by rewrite Hw1, Hw2.
  - intros [H1 H2]%app_nil. by rewrite (Hid1 H1), (Hid2 H2).
Qed.

(** Dropping the attachments of the last turn takes exactly the first
    [max_count] of them, in order, and reports each; the messages before the
    turn, everything else in it and the attachments beyond the limit stay,
    except that user messages without content go; and the version counts the
    change exactly when there is one. *)
Theorem drop_attachments_spec {T} (m : ContextManager T) (max_count : nat) from_xml is_inter_agent_json :
  let '(m', dropped) := drop_last_turn_url_files from_xml is_inter_agent_json m max_count in
  let start := default (length (items m)) (rposition (user_turn_boundary from_xml is_inter_agent_json) (items m)) in
  let turn := drop start (items m) in
  dropped = take max_count (user_attachments turn) ∧
  (max_count = 0 → m' = m) ∧
  (max_count ≠ 0 → ∃ turn',
     items m' = List.filter (λ i, negb (empty_user_message i)) (take start (items m) ++ turn') ∧
     user_attachments turn' = drop max_count (user_attachments turn) ∧
     without_attachments <$> turn' = without_attachments <$> turn ∧
     (items m' = items m ∧ history_version m' = history_version m
      ∨ items m' ≠ items m ∧ history_version m' = version_bump (history_version m))).
Proof.
  unfold drop_last_turn_url_files. destruct (Nat.eqb_spec max_count 0) as [->|Hmax].
  { split_and!; [by rewrite take_0|done|done]. }
  set (start := default _ _). set (turn := drop start (items m)).
  pose proof (drop_items_spec max_count turn []) as H. destruct (drop_items max_count [] turn) as [dropped turn'].
  cbn zeta in H. rewrite Nat.sub_0_r in H. destruct H as (Hd & Ha & Hw & Hid). cbn [app] in Hd.
  set (stripped := take start (items m) ++ turn'). set (retained := List.filter _ stripped).
  assert (∀ (c : bool) (m1 : ContextManager T), items (if c then bump m1 else m1) = items m1) as Hbi by by intros [].
  split_and!; [done|done|]. intros _. exists turn'. rewrite Hbi. split_and!; [done|done|done|].
  assert (∀ l, length (List.filter (λ i, negb (empty_user_message i)) l) ≤ length l ∧
    (length (List.filter (λ i, negb (empty_user_message i)) l) = length l →
     List.filter (λ i, negb (empty_user_message i)) l = l)) as Hfl.
  { induction l as [|i l [IH1 IH2]]; [done|]. cbn. destruct (empty_user_message i); cbn; split; try lia.
    intros [= Hl]. by rewrite (IH2 Hl). }
  assert (items m = take start (items m) ++ turn) as Hm by (unfold turn; by rewrite take_drop).
  assert (length stripped = length (items m)) as Hlen.
  { unfold stripped. rewrite Hm at 2. rewrite !length_app. f_equal. apply (f_equal length) in Hw. by rewrite !length_fmap in Hw. }
  destruct (decide (dropped = [])) as [Hdn|Hdn].
  - assert (user_attachments turn = []) as Hat.
    { rewrite Hdn in Hd. destruct (user_attachments turn); [done|]. destruct max_count; [done|]. done. }
    assert (stripped = items m) as Hst by (unfold stripped; by rewrite (Hid Hat), <- Hm).
    rewrite (bool_decide_eq_true_2 _ Hdn). cbn [negb orb]. destruct (Nat.eqb_spec (length retained) (length stripped)) as [El|El]; cbn [negb].
    + left. split; [|done]. cbn. unfold retained. rewrite (proj2 (Hfl stripped) El). done.
    + right. split; [|done]. cbn. intros Heq. rewrite Heq in El. by rewrite Hst in El.
  - rewrite (bool_decide_eq_false_2 _ Hdn). cbn [negb orb]. right. split; [|done]. cbn. intros Heq.
    destruct (decide (length retained = length stripped)) as [El|El].
    + assert (retained = stripped) as Hrs by (by apply Hfl). rewrite Hrs in Heq. unfold stripped in Heq. rewrite Hm in Heq at 2.
      apply app_inv_head in Heq. apply (f_equal (length ∘ user_attachments)) in Heq. cbn in Heq.
      rewrite Ha, length_drop in Heq. destruct (user_attachments turn) as [|d l]; [by rewrite take_nil in Hd|]. cbn in Heq. lia.
    + apply El. by rewrite Heq.
Qed.

(** Dropping the oldest or the newest item of a history that is paired and
    in which no two calls and no two outputs share an id leaves it so, and with
    at least one item fewer. *)
Theorem trimming_keeps_pairs {T} (m : ContextManager T) :
  paired (items m) → unique_ids (items m) →
  (paired (items (remove_first_item m)) ∧ unique_ids (items (remove_first_item m)) ∧
   length (items (remove_first_item m)) ≤ length (items m) - 1) ∧
  (let '(m', removed) := remove_last_item m in
   paired (items m') ∧ unique_ids (items m') ∧ length (items m') ≤ length (items m) - 1 ∧
   removed = negb (bool_decide (items m = []))).
Proof.
  intros Hp Hu. split.
  - unfold remove_first_item. destruct (items m) as [|i l] eqn:E; [rewrite E in *; done|]. cbn [set_items items].
    destruct (remove_corresponding_paired (i :: l) i l) as [H1 H2]; [done..|].
    split_and!; [done|done|]. cbn [length]. pose proof (remove_corresponding_length l i). lia.
  - unfold remove_last_item. destruct (items m) as [|x l _] eqn:E using rev_ind; [cbn; rewrite E in *; done|].
    rewrite last_snoc. cbn [bump set_items items]. rewrite removelast_last.
    destruct (remove_corresponding_paired (l ++ [x]) x l) as [H1 H2]; [by rewrite Permutation_app_comm|done..|].
    split_and!; [done|done| |].
    + rewrite length_app. cbn [length]. pose proof (remove_corresponding_length l x). lia.
    + rewrite bool_decide_eq_false_2; [done|]. by destruct l.
Qed.
Lemma trimming_keeps_pairs_witness :
  let call := FunctionCall None (lit "shell") None (lit "{}") (lit "c1") in
  let out := FunctionCallOutput (lit "c1") (payload_from_text (lit "ok")) in
  let msg := Message None (lit "user") [InputText (lit "hi")] None in
  let m := set_items (manager_new (TurnContextItem := ())) [call; msg; out] in
  items (remove_first_item m) = [msg] ∧ paired (items (remove_first_item m)).
Proof.
  intros call out msg m. split; [vm_compute; reflexivity|].
  apply (trimming_keeps_pairs m).
  - split.
    + intros k Hk. apply list_elem_of_singleton in Hk as ->. by apply (bool_decide_unpack _).
    + intros i k Hi Hk _. apply elem_of_cons in Hi as [->|[->|[->|Hi]%elem_of_cons]%elem_of_cons];
        [done|done|injection Hk as <-; by apply (bool_decide_unpack _)|by apply elem_of_nil in Hi].
  - split; cbn; apply NoDup_singleton.
Defined.
