(* ===== verification/AgentPath.v ===== *)
(** * Agent paths ([protocol/src/agent_path.rs])

    The names of the agents of a session: [/morpheus], [/root], and the tree
    of agents spawned below the root.  [AgentPath] is the newtype around the
    text; [path_text] is the abstract tree position it stands for. *)
From S2P Require Import Prelude RustStr.

Definition slash : char := 47.

Record AgentPath := mk_agent_path { as_str : rstring }.
#[global] Instance AgentPath_eq_dec : EqDecision AgentPath.
Proof. solve_decision. Defined.

Definition ROOT : rstring := lit "/root".
Definition MORPHEUS : rstring := lit "/morpheus".
Definition ROOT_SEGMENT : rstring := lit "root".

Definition root : AgentPath := mk_agent_path ROOT.
Definition morpheus : AgentPath := mk_agent_path MORPHEUS.
Definition is_root (self : AgentPath) : bool := bool_decide (as_str self = ROOT).

(** [str::rsplit('/').next()]: the last piece of the split. *)
Definition name (self : AgentPath) : rstring :=
  if is_root self then ROOT_SEGMENT
  else match last (split slash (as_str self)) with
       | Some segment => if bool_decide (segment = []) then ROOT_SEGMENT else segment
       | None => ROOT_SEGMENT
       end.

Definition name_char (ch : char) : bool :=
  ((97 <=? ch) && (ch <=? 122) || is_ascii_digit ch || (ch =? 95))%N.

Definition validate_agent_name (agent_name : rstring) : outcome rstring () :=
  if bool_decide (agent_name = []) then Err (lit "agent_name must not be empty")
  else if bool_decide (agent_name = ROOT_SEGMENT) then Err (lit "agent_name `root` is reserved")
  else if bool_decide (agent_name = lit ".") || bool_decide (agent_name = lit "..") then
    Err (lit "agent_name `" ++ agent_name ++ lit "` is reserved")
  else if bool_decide (slash ∈ agent_name) then Err (lit "agent_name must not contain `/`")
  else if forallb name_char agent_name then Ok ()
  else Err (lit "agent_name must use only lowercase letters, digits, and underscores").

Fixpoint validate_segments (segments : list rstring) : outcome rstring () :=
  match segments with
  | [] => Ok ()
  | segment :: rest => let? _ := validate_agent_name segment in validate_segments rest
  end.

Definition validate_absolute_path (path : rstring) : outcome rstring () :=
  if bool_decide (path = MORPHEUS) then Ok ()
  else match strip_prefix [slash] path with
  | None => Err (lit "absolute agent paths must start with `/root` or be `/morpheus`")
  | Some stripped =>
      match split slash stripped with
      | [] => Err (lit "absolute agent path must not be empty")
      | first :: segments =>
          if bool_decide (first = ROOT_SEGMENT) then
            if ends_with stripped [slash] then Err (lit "absolute agent path must not end with `/`")
            else validate_segments segments
          else Err (lit "absolute agent paths must start with `/root` or be `/morpheus`")
      end
  end.

Definition validate_relative_reference (reference : rstring) : outcome rstring () :=
  if ends_with reference [slash] then Err (lit "relative agent path must not end with `/`")
  else validate_segments (split slash reference).

Definition from_string (path : rstring) : outcome rstring AgentPath :=
  let? _ := validate_absolute_path path in Ok (mk_agent_path path).

Definition join (self : AgentPath) (agent_name : rstring) : outcome rstring AgentPath :=
  let? _ := validate_agent_name agent_name in
  from_string (as_str self ++ slash :: agent_name).

Definition resolve (self : AgentPath) (reference : rstring) : outcome rstring AgentPath :=
  if bool_decide (reference = []) then Err (lit "agent path must not be empty")
  else if bool_decide (reference = ROOT) then Ok root
  else if starts_with reference [slash] then from_string reference
  else let? _ := validate_relative_reference reference in
       from_string (as_str self ++ slash :: reference).

(** ** The tree position a path stands for *)
Definition valid_name (s : rstring) : Prop :=
  s ≠ [] ∧ s ≠ ROOT_SEGMENT ∧ Forall (λ c, name_char c = true) s.

(** Segments joined the way [format!("{self}/{name}")] does. *)
Definition suffix_text (segments : list rstring) : rstring := segments ≫= (λ s, slash :: s).
Definition path_text (segments : list rstring) : rstring := ROOT ++ suffix_text segments.

(** What [AgentPath::from_string] accepts: [/morpheus], or a tree position. *)
Definition denotes (p : AgentPath) (segments : list rstring) : Prop :=
  as_str p = path_text segments ∧ Forall valid_name segments.
Definition valid_path (p : AgentPath) : Prop := p = morpheus ∨ ∃ segments, denotes p segments.

Lemma name_char_not_slash s : Forall (λ c, name_char c = true) s → slash ∉ s.
Proof. rewrite Forall_forall. intros H Hin. by apply H in Hin. Qed.

Lemma valid_name_not_slash s : valid_name s → slash ∉ s.
Proof. intros (_ & _ & H). by apply name_char_not_slash. Qed.

Lemma validate_agent_name_Ok s : validate_agent_name s = Ok () ↔ valid_name s.
Proof.
  unfold validate_agent_name, valid_name. split.
  - repeat case_bool_decide; cbn [orb]; try done.
    destruct (forallb _ _) eqn:E; [|done]. intros _. split_and!; [done..|].
    apply Forall_forall. intros c Hc. rewrite forallb_forall in E. apply E, list_elem_of_In, Hc.
  - intros (Hne & Hr & Hall). rewrite !bool_decide_eq_false_2; try done.
    + cbn [orb]. assert (forallb name_char s = true) as ->; [|done].
      apply forallb_forall. intros c Hc. rewrite Forall_forall in Hall. by apply Hall, list_elem_of_In.
    + by apply name_char_not_slash.
    + intros ->. by inversion Hall.
    + intros ->. by inversion Hall.
Qed.

Lemma validate_agent_name_no_panic s : no_panic (validate_agent_name s).
Proof. unfold validate_agent_name. by_cases done. Qed.

Lemma validate_segments_Ok l : validate_segments l = Ok () ↔ Forall valid_name l.
Proof.
  induction l as [|s l IH]; [done|]. cbn [validate_segments].
  rewrite bind_Ok, Forall_cons, <- validate_agent_name_Ok, <- IH.
  split; [intros ([] & ? & ?)|intros [??]]; eauto.
Qed.

Lemma ROOT_SEGMENT_not_slash : slash ∉ ROOT_SEGMENT.
Proof. apply (bool_decide_unpack _). by vm_compute. Qed.

Lemma split_app_suffix (s : rstring) l :
  slash ∉ s → Forall (λ x, slash ∉ x) l → split slash (s ++ suffix_text l) = s :: l.
Proof.
  intros Hs Hl. revert s Hs. induction Hl as [|x l Hx Hl IH]; intros s Hs.
  - unfold suffix_text. cbn [mbind list_bind]. by rewrite app_nil_r, split_none.
  - change (suffix_text (x :: l)) with (slash :: x ++ suffix_text l).
    by rewrite split_line, IH.
Qed.

Lemma suffix_text_split l x : join_with [slash] (x :: l) = x ++ suffix_text l.
Proof.
  revert x. induction l as [|y l IH]; intros x; [cbn; by rewrite app_nil_r|].
  change (join_with [slash] (x :: y :: l)) with (x ++ slash :: join_with [slash] (y :: l)).
  by rewrite IH.
Qed.

Lemma ends_with_slash_segments l : Forall valid_name l → ends_with (ROOT_SEGMENT ++ suffix_text l) [slash] = false.
Proof.
  intros Hl. apply not_true_is_false. rewrite ends_with_spec. intros [k Hk].
  apply (f_equal last) in Hk. rewrite (last_app k), last_cons in Hk. cbn [last] in Hk.
  destruct l as [|s l _] using rev_ind; [done|].
  apply Forall_app in Hl as [_ Hs]. apply Forall_singleton in Hs as (Hne & _ & Hall).
  unfold suffix_text in Hk. rewrite bind_app in Hk. cbn [mbind list_bind] in Hk.
  rewrite app_nil_r, app_assoc, last_app_cons in Hk by done.
  apply last_Some in Hk as [k' ->].
  apply Forall_app in Hall as [_ Hall]. by inversion Hall.
Qed.

Lemma validate_absolute_path_Ok path :
  validate_absolute_path path = Ok () ↔
  path = MORPHEUS ∨ ∃ l, path = path_text l ∧ Forall valid_name l.
Proof.
  unfold validate_absolute_path. case_bool_decide as Hm; [naive_solver|]. split.
  - destruct (strip_prefix [slash] path) as [stripped|] eqn:Hs; [|done].
    apply strip_prefix_Some in Hs as ->.
    destruct (split slash stripped) as [|first segments] eqn:Hsp; [done|].
    case_bool_decide as Hf; [subst first|done].
    destruct (ends_with stripped [slash]); [done|]. rewrite validate_segments_Ok. intros Hall.
    right. exists segments. split; [|done].
    rewrite <- (join_split slash stripped), Hsp, suffix_text_split. done.
  - intros [?|(l & -> & Hall)]; [done|].
    change (path_text l) with (slash :: ROOT_SEGMENT ++ suffix_text l).
    rewrite (proj2 (strip_prefix_Some [slash] _ (ROOT_SEGMENT ++ suffix_text l)) eq_refl).
    rewrite split_app_suffix;
      [|apply ROOT_SEGMENT_not_slash|by eapply Forall_impl; [exact Hall|apply valid_name_not_slash]].
    rewrite bool_decide_eq_true_2 by done.
    by rewrite ends_with_slash_segments, validate_segments_Ok.
Qed.

Lemma from_string_Ok path a :
  from_string path = Ok a ↔ a = mk_agent_path path ∧ valid_path a.
Proof.
  unfold from_string. rewrite bind_Ok. unfold valid_path, denotes, morpheus. split.
  - intros ([] & Hv & [= <-]). apply validate_absolute_path_Ok in Hv.
    split; [done|]. destruct Hv as [->|?]; [by left|by right].
  - intros (-> & Hv). exists (). split; [|done]. apply validate_absolute_path_Ok.
    destruct Hv as [[= ->]|?]; [by left|by right].
Qed.

Lemma denotes_inj p k l : denotes p k → denotes p l → k = l.
Proof.
  intros [H1 Hk] [H2 Hl]. rewrite H1 in H2.
  assert (∀ l, Forall valid_name l → split slash (path_text l) = [] :: ROOT_SEGMENT :: l) as Hsplit.
  { intros m Hm. change (path_text m) with (slash :: ROOT_SEGMENT ++ suffix_text m).
    change (split slash (slash :: ROOT_SEGMENT ++ suffix_text m))
      with ([] :: split slash (ROOT_SEGMENT ++ suffix_text m)). f_equal.
    apply split_app_suffix; [apply ROOT_SEGMENT_not_slash|].
    eapply Forall_impl; [exact Hm|apply valid_name_not_slash]. }
  apply (f_equal (split slash)) in H2. rewrite !Hsplit in H2 by done. by injection H2.
Qed.

Lemma suffix_text_app k l : suffix_text (k ++ l) = suffix_text k ++ suffix_text l.
Proof. apply bind_app. Qed.

Lemma denotes_app p k l :
  denotes p k → Forall valid_name l → denotes (mk_agent_path (as_str p ++ suffix_text l)) (k ++ l).
Proof.
  intros [Hp Hk] Hl. split; [|by apply Forall_app].
  cbn [as_str]. rewrite Hp. unfold path_text. by rewrite suffix_text_app, app_assoc.
Qed.

Lemma denotes_is_root p l : denotes p l → is_root p = bool_decide (l = []).
Proof.
  intros Hd. unfold is_root. apply bool_decide_ext. split.
  - intros Hp. apply (denotes_inj p); [done|]. split; [|done].
    rewrite Hp. by vm_compute.
  - intros ->. destruct Hd as [-> _]. by vm_compute.
Qed.

Lemma name_of_child (p q : AgentPath) l n :
  denotes p l → valid_name n → as_str q = as_str p ++ slash :: n →
  denotes q (l ++ [n]) ∧ name q = n ∧ is_root q = false.
Proof.
  intros Hp Hn Hq. assert (denotes q (l ++ [n])) as Hd.
  { destruct q as [q]; cbn [as_str] in Hq. subst q.
    replace (slash :: n) with (suffix_text [n]) by (cbn; by rewrite app_nil_r).
    by apply denotes_app, Forall_singleton. }
  assert (is_root q = false) as Hr.
  { rewrite (denotes_is_root _ _ Hd). apply bool_decide_eq_false_2. by destruct l. }
  split_and!; [done| |done]. unfold name. rewrite Hr.
  destruct Hd as [-> Hall].
  change (path_text (l ++ [n])) with (slash :: ROOT_SEGMENT ++ suffix_text (l ++ [n])).
  change (split slash (slash :: ROOT_SEGMENT ++ suffix_text (l ++ [n])))
    with ([] :: split slash (ROOT_SEGMENT ++ suffix_text (l ++ [n]))).
  rewrite split_app_suffix; [|apply ROOT_SEGMENT_not_slash|by eapply Forall_impl; [exact Hall|apply valid_name_not_slash]].
  rewrite !app_comm_cons, last_snoc. destruct Hn as (Hne & _). by rewrite bool_decide_eq_false_2.
Qed.

Lemma join_Ok p l n q :
  denotes p l → join p n = Ok q ↔ valid_name n ∧ as_str q = as_str p ++ slash :: n.
Proof.
  intros Hp. unfold join. rewrite bind_Ok. split.
  - intros ([] & Hn & Hq). apply validate_agent_name_Ok in Hn. by apply from_string_Ok in Hq as [-> _].
  - intros [Hn Hq]. exists (). split; [by apply validate_agent_name_Ok|].
    apply from_string_Ok. destruct (name_of_child p q l n Hp Hn Hq) as (Hd & _).
    split; [destruct q; cbn in *; by subst|]. right. eauto.
Qed.

(** [is_root] can only hold of the root: no path built by [join] is the root. *)
Lemma join_not_root p n q : join p n = Ok q → is_root q = false.
Proof.
  unfold join. rewrite bind_Ok. intros ([] & Hn & Hq). apply from_string_Ok in Hq as [-> _].
  apply validate_agent_name_Ok in Hn. unfold is_root. apply bool_decide_eq_false_2. cbn [as_str].
  intros Heq. apply (f_equal (last ∘ split slash)) in Heq. cbn [compose] in Heq.
  rewrite split_app_sep, (split_none slash n), last_snoc in Heq by by apply valid_name_not_slash.
  destruct Hn as (_ & Hn & _). apply Hn.
  apply (inj Some). rewrite Heq. by vm_compute.
Qed.

Lemma no_panic_validate_segments l : no_panic (validate_segments l).
Proof. induction l; cbn [validate_segments]; auto using validate_agent_name_no_panic with rust. Qed.

Lemma from_string_no_panic path : no_panic (from_string path).
Proof.
  apply no_panic_bind; [|auto with rust]. unfold validate_absolute_path.
  repeat case_bool_decide; by_cases (auto using no_panic_validate_segments with rust).
Qed.

Lemma validate_relative_Ok r :
  validate_relative_reference r = Ok () ↔
  ∃ n names, r = join_with [slash] (n :: names) ∧ Forall valid_name (n :: names).
Proof.
  unfold validate_relative_reference. split.
  - destruct (ends_with r [slash]); [done|]. rewrite validate_segments_Ok. intros Hall.
    destruct (split slash r) as [|n names] eqn:E; [by destruct (split_not_nil slash r)|].
    exists n, names. by rewrite <- E, join_split, E.
  - intros (n & names & -> & Hall). rewrite suffix_text_split.
    assert (Forall (λ x, slash ∉ x) (n :: names)) as Hns
      by (eapply Forall_impl; [exact Hall|apply valid_name_not_slash]).
    rewrite split_app_suffix by (by inversion Hns). rewrite (proj2 (validate_segments_Ok _)) by done.
    assert (ends_with (n ++ suffix_text names) [slash] = false) as ->; [|done].
    pose proof (ends_with_slash_segments (n :: names) Hall) as He.
    apply not_true_is_false. rewrite ends_with_spec. intros [k Hk].
    apply not_true_iff_false in He. apply He, ends_with_spec.
    exists (ROOT_SEGMENT ++ slash :: k). rewrite <- app_assoc. cbn [app]. rewrite <- Hk. done.
Qed.

Lemma relative_not_slash n names :
  valid_name n → starts_with (n ++ suffix_text names) [slash] = false ∧ n ++ suffix_text names ≠ [].
Proof.
  intros (Hne & _ & Hall). destruct n as [|c n]; [done|]. split; [|done].
  apply not_true_is_false. rewrite starts_with_spec. intros [k [= -> _]]. by inversion Hall.
Qed.

(** Agent paths are positions in the agent tree.  A text is accepted iff it
    is [/morpheus] or [/root] followed by valid names, without a panic on any
    text.  Below a position, [join] accepts exactly the valid names and yields
    the child, which reads its name back and is never the root; [resolve]
    accepts exactly the accepted absolute paths, unchanged, and the non-empty
    sequences of valid names, which it appends. *)
Theorem agent_paths_are_tree_positions (p : AgentPath) (l : list rstring) (Hp : denotes p l) :
  (∀ path q, from_string path = Ok q ↔ as_str q = path ∧ valid_path q) ∧
  (∀ path, no_panic (from_string path)) ∧
  (∀ n q, join p n = Ok q ↔ valid_name n ∧ as_str q = as_str p ++ slash :: n) ∧
  (∀ n q, join p n = Ok q → denotes q (l ++ [n]) ∧ name q = n ∧ is_root q = false) ∧
  (∀ r q, resolve p r = Ok q ↔
     from_string r = Ok q ∨
     ∃ names, names ≠ [] ∧ Forall valid_name names ∧ r = join_with [slash] names ∧
       as_str q = as_str p ++ slash :: r ∧ denotes q (l ++ names)).
Proof.
  split; [|split; [apply from_string_no_panic|split; [by intros; eapply join_Ok|split]]].
  - intros path [q]. rewrite from_string_Ok. cbn [as_str]. naive_solver.
  - intros n q Hj. apply (join_Ok p l) in Hj as [Hn Hq]; [|done]. by apply (name_of_child p).
  - intros r q. unfold resolve. case_bool_decide as He.
    { subst r. split; [done|]. intros [Hf|(names & Hne & Hall & Hr & _)].
      - by vm_compute in Hf.
      - destruct names as [|n names]; [done|]. rewrite suffix_text_split in Hr.
        apply Forall_cons in Hall as [Hn _]. by destruct (relative_not_slash n names Hn). }
    assert (∀ n names, valid_name n → r = join_with [slash] (n :: names) → starts_with r [slash] = false) as Hrel.
    { intros n names Hn ->. rewrite suffix_text_split. by apply relative_not_slash. }
    case_bool_decide as Hr; [|destruct (starts_with r [slash]) eqn:Hs].
    + subst r. split; [intros <-; by left; vm_compute|]. intros [Hf|([|n names] & Hne & Hall & Hr & _)]; [|done|].
      * rewrite <- Hf. by vm_compute.
      * apply Forall_cons in Hall as [Hn _]. by specialize (Hrel n names Hn Hr).
    + split; [by left|]. intros [?|([|n names] & Hne & Hall & Hr' & _)]; [done..|].
      apply Forall_cons in Hall as [Hn _]. by specialize (Hrel n names Hn Hr').
    + rewrite bind_Ok. split.
      * intros ([] & Hv & Hq). apply validate_relative_Ok in Hv as (n & names & -> & Hall).
        apply from_string_Ok in Hq as [-> _]. right. exists (n :: names).
        split_and!; [done|done|done|done|]. rewrite suffix_text_split.
        by apply (denotes_app p l (n :: names)).
      * intros [Hf|([|n names] & Hne & Hall & Hr' & Hq & Hd)]; [|done|].
        -- exfalso. apply from_string_Ok in Hf as [-> [[= ->]|(k & Hk & _)]]; [by vm_compute in Hs|].
           cbn [as_str] in Hk. subst r. by vm_compute in Hs.
        -- exists (). split; [apply validate_relative_Ok; eauto|].
           apply from_string_Ok. split; [destruct q; cbn in *; by subst|]. right; eauto.
Qed.

Lemma agent_paths_are_tree_positions_witness :
  ∃ q, join root (lit "researcher_2") = Ok q ∧ name q = lit "researcher_2".
Proof.
  assert (denotes root []) as Hd by (split; [by vm_compute|constructor]).
  pose proof (agent_paths_are_tree_positions root [] Hd) as (_ & _ & _ & Hn & _).
  destruct (join root (lit "researcher_2")) as [q| |] eqn:E; [|by vm_compute in E..].
  exists q. split; [done|]. by apply Hn.
Defined.

Example relative_references :
  from_string (lit "/root/a/b") = resolve (mk_agent_path (lit "/root/a")) (lit "b") ∧
  resolve root (lit "../sibling") = Err (lit "agent_name `..` is reserved") ∧
  is_ok (from_string (lit "/root/a/")) = false ∧ is_ok (join morpheus (lit "a")) = false.
Proof. by vm_compute. Qed.
