(* ===== verification/AgentRegistry.v ===== *)
(** * The agent registry ([core/src/agent/registry.rs])

    The registry shared by all agents of a session: the tree of agents, the
    nicknames in use, and the atomic count of spawn slots.  Every operation is
    a sequence of atomic pieces - one critical section of the mutex, or one
    access to the counter - and the concurrent executions of the pieces are the
    transition system [step].  [ThreadId] and its [Display] come from the uuid
    crate, the iteration order of the [HashMap] and the random choice of a
    nickname are arguments. *)
From S2P Require Import Prelude RustStr AgentPath.

Inductive SubAgentSource :=
| Review | Compact | ThreadSpawn (depth : Z) | MemoryConsolidation | Other (label : rstring).
Inductive SessionSource :=
| Cli | VSCode | Exec | Mcp | Custom (source : rstring) | Internal | SubAgent (source : SubAgentSource) | Unknown.

Definition session_depth (session_source : SessionSource) : Z :=
  match session_source with
  | SubAgent (ThreadSpawn depth) => depth
  | _ => 0
  end.
Definition i32_max : Z := 2^31 - 1.
Definition next_thread_spawn_depth (session_source : SessionSource) : Z :=
  Z.min i32_max (session_depth session_source + 1).
Definition exceeds_thread_spawn_depth_limit (depth max_depth : Z) : bool := bool_decide (max_depth < depth)%Z.

Definition ordinal_suffix (value : N) : rstring :=
  (if (11 <=? value mod 100) && (value mod 100 <=? 13) then lit "th"
   else if value mod 10 =? 1 then lit "st"
   else if value mod 10 =? 2 then lit "nd"
   else if value mod 10 =? 3 then lit "rd"
   else lit "th")%N.
Definition format_agent_nickname (name : rstring) (nickname_reset_count : N) : rstring :=
  if bool_decide (nickname_reset_count = 0%N) then name
  else let value := (nickname_reset_count + 1)%N in
       name ++ lit " the " ++ show value ++ ordinal_suffix value.

Inductive CodexErr := AgentLimitReached (max_threads : N) | UnsupportedOperation (text : rstring).

Section registry.
Context {ThreadId : Type} `{EqDecision ThreadId} (display : ThreadId → rstring).

Record AgentMetadata := mk_metadata {
  agent_id : option ThreadId; agent_path : option AgentPath; agent_nickname : option rstring;
  agent_role : option rstring; last_task_message : option rstring }.
Definition metadata_default : AgentMetadata := mk_metadata None None None None None.

Record ActiveAgents := mk_active {
  agent_tree : gmap rstring AgentMetadata;
  used_agent_nicknames : gset rstring;
  nickname_reset_count : N }.
Record AgentRegistry := mk_registry { active_agents : ActiveAgents; total_count : N }.
Definition registry_default : AgentRegistry := mk_registry (mk_active ∅ ∅ 0) 0.

Record SpawnReservation := mk_reservation {
  active : bool; reserved_agent_nickname : option rstring; reserved_agent_path : option AgentPath }.

(** Iterating over the [HashMap]: some enumeration of its entries. *)
Context (entries : gmap rstring AgentMetadata → list (rstring * AgentMetadata)).

Definition set_tree (a : ActiveAgents) (t : gmap rstring AgentMetadata) : ActiveAgents :=
  mk_active t (used_agent_nicknames a) (nickname_reset_count a).
Definition has_id (thread_id : ThreadId) (m : AgentMetadata) : bool :=
  bool_decide (agent_id m = Some thread_id).
Definition path_is_root (m : AgentMetadata) : bool :=
  match agent_path m with Some p => is_root p | None => false end.
Definition find_agent (a : ActiveAgents) (thread_id : ThreadId) : option (rstring * AgentMetadata) :=
  List.find (λ kv, has_id thread_id kv.2) (entries (agent_tree a)).

(** The critical section of [release_spawned_thread]: the tree it leaves and
    whether a counted agent was removed. *)
Definition remove_agent (a : ActiveAgents) (thread_id : ThreadId) : ActiveAgents * bool :=
  match find_agent a thread_id with
  | Some (key, _) =>
      match agent_tree a !! key with
      | Some metadata => (set_tree a (delete key (agent_tree a)), negb (path_is_root metadata))
      | None => (a, false)
      end
  | None => (a, false)
  end.
Definition release_spawned_thread (r : AgentRegistry) (thread_id : ThreadId) : AgentRegistry :=
  let '(a, removed_counted_agent) := remove_agent (active_agents r) thread_id in
  mk_registry a (if removed_counted_agent then wrap_sub (total_count r) 1 else total_count r).

Definition register_root_thread (a : ActiveAgents) (thread_id : ThreadId) : ActiveAgents :=
  match agent_tree a !! ROOT with
  | Some _ => a
  | None => set_tree a (<[ROOT := mk_metadata (Some thread_id) (Some root) None None None]> (agent_tree a))
  end.

Definition agent_id_for_path (a : ActiveAgents) (p : AgentPath) : option ThreadId :=
  agent_tree a !! as_str p ≫= agent_id.
Definition agent_metadata_for_thread (a : ActiveAgents) (thread_id : ThreadId) : option AgentMetadata :=
  snd <$> find_agent a thread_id.
Definition is_live_agent (m : AgentMetadata) : bool :=
  bool_decide (is_Some (agent_id m)) && negb (path_is_root m).
Definition live_agents (a : ActiveAgents) : list AgentMetadata :=
  List.filter is_live_agent (entries (agent_tree a)).*2.
Definition set_last_task_message (m : AgentMetadata) (text : rstring) : AgentMetadata :=
  mk_metadata (agent_id m) (agent_path m) (agent_nickname m) (agent_role m) (Some text).
Definition update_last_task_message (a : ActiveAgents) (thread_id : ThreadId) (text : rstring) : ActiveAgents :=
  match find_agent a thread_id with
  | Some (key, m) => set_tree a (<[key := set_last_task_message m text]> (agent_tree a))
  | None => a
  end.

Definition agent_key (m : AgentMetadata) (thread_id : ThreadId) : rstring :=
  match agent_path m with Some p => as_str p | None => lit "thread:" ++ display thread_id end.
Definition register_spawned_thread (a : ActiveAgents) (m : AgentMetadata) : ActiveAgents :=
  match agent_id m with
  | None => a
  | Some thread_id =>
      mk_active (<[agent_key m thread_id := m]> (agent_tree a))
        (match agent_nickname m with
         | Some n => {[n]} ∪ used_agent_nicknames a
         | None => used_agent_nicknames a
         end) (nickname_reset_count a)
  end.

(** [choose] is [IndexedRandom::choose] with the state of the generator. *)
Definition available_names (a : ActiveAgents) (names : list rstring) : list rstring :=
  List.filter (λ n, negb (bool_decide (n ∈ used_agent_nicknames a)))
    ((λ n, format_agent_nickname n (nickname_reset_count a)) <$> names).
Definition use_nickname (a : ActiveAgents) (n : rstring) : ActiveAgents :=
  mk_active (agent_tree a) ({[n]} ∪ used_agent_nicknames a) (nickname_reset_count a).
Definition reset_nicknames (a : ActiveAgents) : ActiveAgents :=
  mk_active (agent_tree a) ∅ (wrap_add (nickname_reset_count a) 1).
Definition reserve_agent_nickname (choose : list rstring → option rstring) (a : ActiveAgents)
    (names : list rstring) (preferred : option rstring) : ActiveAgents * option rstring :=
  match preferred with
  | Some p => (use_nickname a p, Some p)
  | None =>
      if bool_decide (names = []) then (a, None)
      else match choose (available_names a names) with
      | Some n => (use_nickname a n, Some n)
      | None =>
          let a' := reset_nicknames a in
          match choose names with
          | Some n => let n := format_agent_nickname n (nickname_reset_count a') in (use_nickname a' n, Some n)
          | None => (a', None)
          end
      end
  end.

Definition placeholder (p : AgentPath) : AgentMetadata := mk_metadata None (Some p) None None None.
Definition reserve_agent_path (a : ActiveAgents) (p : AgentPath) : outcome CodexErr ActiveAgents :=
  match agent_tree a !! as_str p with
  | Some _ => Err (UnsupportedOperation (lit "agent path `" ++ as_str p ++ lit "` already exists"))
  | None => Ok (set_tree a (<[as_str p := placeholder p]> (agent_tree a)))
  end.
Definition release_reserved_agent_path (a : ActiveAgents) (p : AgentPath) : ActiveAgents :=
  match agent_tree a !! as_str p with
  | Some m => if bool_decide (agent_id m = None) then set_tree a (delete (as_str p) (agent_tree a)) else a
  | None => a
  end.

(** One turn of the loop of [try_increment_spawned] that has read [current]:
    the counter it leaves, and the result or the value it read anew.
    [compare_exchange_weak] may fail spuriously. *)
Definition try_increment_turn (max_threads current : N) (spurious : bool) (total : N) : N * (bool + N) :=
  if (max_threads <=? current)%N then (total, inl false)
  else if bool_decide (total = current) && negb spurious then ((current + 1)%N, inl true)
  else (total, inr total).

(** The loop, as long as no other thread writes the counter; each turn takes
    one element of [spurious]. *)
Fixpoint try_increment_loop (max_threads current : N) (spurious : list bool) (total : N) : N * option bool :=
  match spurious with
  | [] => (total, None)
  | s :: rest =>
      match try_increment_turn max_threads current s total with
      | (total', inl result) => (total', Some result)
      | (total', inr current') => try_increment_loop max_threads current' rest total'
      end
  end.
Definition try_increment_spawned (max_threads : N) (spurious : list bool) (total : N) : N * option bool :=
  try_increment_loop max_threads total spurious total.

Definition reservation_new : SpawnReservation := mk_reservation true None None.
Definition reserve_spawn_slot (r : AgentRegistry) (max_threads : option N) (spurious : list bool) :
    option (AgentRegistry * outcome CodexErr SpawnReservation) :=
  match max_threads with
  | Some max =>
      match try_increment_spawned max spurious (total_count r) with
      | (total, Some true) => Some (mk_registry (active_agents r) total, Ok reservation_new)
      | (total, Some false) => Some (mk_registry (active_agents r) total, Err (AgentLimitReached max))
      | (_, None) => None
      end
  | None => Some (mk_registry (active_agents r) (wrap_add (total_count r) 1), Ok reservation_new)
  end.

(** The methods of [SpawnReservation]; [commit] consumes the reservation, so it
    is followed by a [drop] that does nothing. *)
Definition reserve_agent_nickname_with_preference (choose : list rstring → option rstring)
    (a : ActiveAgents) (res : SpawnReservation) (names : list rstring) (preferred : option rstring) :
    ActiveAgents * SpawnReservation * outcome CodexErr rstring :=
  match reserve_agent_nickname choose a names preferred with
  | (a', Some n) => (a', mk_reservation (active res) (Some n) (reserved_agent_path res), Ok n)
  | (a', None) => (a', res, Err (UnsupportedOperation (lit "no available agent nicknames")))
  end.
Definition reservation_reserve_agent_path (a : ActiveAgents) (res : SpawnReservation) (p : AgentPath) :
    outcome CodexErr (ActiveAgents * SpawnReservation) :=
  let? a' := reserve_agent_path a p in
  Ok (a', mk_reservation (active res) (reserved_agent_nickname res) (Some p)).
Definition commit (a : ActiveAgents) (res : SpawnReservation) (m : AgentMetadata) :
    ActiveAgents * SpawnReservation :=
  (register_spawned_thread a m, mk_reservation false None None).

(** [drop]: the critical section, then the decrement ([Some] of it when it is due). *)
Definition drop_reservation (a : ActiveAgents) (res : SpawnReservation) : ActiveAgents * bool :=
  if active res then
    (match reserved_agent_path res with Some p => release_reserved_agent_path a p | None => a end, true)
  else (a, false).
Definition drop (r : AgentRegistry) (res : SpawnReservation) : AgentRegistry :=
  let '(a, decrement) := drop_reservation (active_agents r) res in
  mk_registry a (if decrement then wrap_sub (total_count r) 1 else total_count r).

(** [AgentControl::prepare_thread_spawn] up to the values it returns. *)
Definition prepare_thread_spawn (choose : list rstring → option rstring) (a : ActiveAgents) (res : SpawnReservation)
    (parent : ThreadId) (depth : Z) (path : option AgentPath) (role : option rstring)
    (candidate_names : list rstring) (preferred : option rstring) :
    ActiveAgents * SpawnReservation * outcome CodexErr AgentMetadata :=
  let a := if bool_decide (depth = 1%Z) then register_root_thread a parent else a in
  match (match path with
         | Some p => reservation_reserve_agent_path a res p
         | None => Ok (a, res)
         end) with
  | Err e => (a, res, Err e)
  | Panic => (a, res, Panic)
  | Ok (a, res) =>
      match reserve_agent_nickname_with_preference choose a res candidate_names preferred with
      | (a, res, Ok n) => (a, res, Ok (mk_metadata None path (Some n) role None))
      | (a, res, Err e) => (a, res, Err e)
      | (a, res, Panic) => (a, res, Panic)
      end
  end.

(** ** Concurrent executions *)

(** What a thread is in the middle of: the loop of [try_increment_spawned],
    work with a reservation, or a critical section whose decrement is due. *)
Inductive proc :=
| Trying (max_threads current : N)
| Holding (res : SpawnReservation)
| Decrementing.

(** [overwritten] counts, for the theorems only, the agents that were registered again over their own entry. *)
Record system := mk_system { registry : AgentRegistry; procs : gmap nat proc; overwritten : nat }.
Definition system_init : system := mk_system registry_default ∅ 0.

Definition with_agents (s : system) (a : ActiveAgents) (ps : gmap nat proc) : system :=
  mk_system (mk_registry a (total_count (registry s))) ps (overwritten s).
Definition with_count (s : system) (total : N) (ps : gmap nat proc) : system :=
  mk_system (mk_registry (active_agents (registry s)) total) ps (overwritten s).
Definition agents (s : system) : ActiveAgents := active_agents (registry s).
Definition count (s : system) : N := total_count (registry s).

(** The largest limit the sessions are configured with; [None]: some have none. *)
Context (limit : option N).
Definition allowed (max_threads : option N) : Prop :=
  match limit with Some l => ∃ m, max_threads = Some m ∧ (m ≤ l)%N | None => True end.

Definition turn_result (max_threads : N) (result : bool + N) : option proc :=
  match result with
  | inl true => Some (Holding reservation_new)
  | inl false => None
  | inr current => Some (Trying max_threads current)
  end.
Definition registered (a : ActiveAgents) (thread_id : ThreadId) : Prop :=
  ∃ key m, agent_tree a !! key = Some m ∧ agent_id m = Some thread_id.

(** 1 if the key holds a spawned agent, else 0. *)
Definition is_live_at (a : ActiveAgents) (key : rstring) : nat :=
  Nat.b2n (match agent_tree a !! key with Some m => is_live_agent m | None => false end).
Definition with_overwritten (s : system) (n : nat) : system := mk_system (registry s) (procs s) n.

(** The guards are what [AgentControl] ensures: it reserves the path of a child
    ([join]) at most once per reservation and commits metadata with that path,
    and the root is no spawned agent.  The thread that is committed may be registered
    already (an agent that is resumed), and so may one that registers as the root (any session
    that was not spawned with a path, [register_session_root]). *)
Inductive step (s : system) : system → Prop :=
| step_load i max_threads :
    procs s !! i = None → (max_threads ≤ usize_max)%N → allowed (Some max_threads) →
    step s (with_count s (count s) (<[i := Trying max_threads (count s)]> (procs s)))
| step_exchange i max_threads current spurious total result :
    procs s !! i = Some (Trying max_threads current) →
    try_increment_turn max_threads current spurious (count s) = (total, result) →
    step s (with_count s total (partial_alter (λ _, turn_result max_threads result) i (procs s)))
| step_fetch_add i :
    procs s !! i = None → allowed None →
    step s (with_count s (wrap_add (count s) 1) (<[i := Holding reservation_new]> (procs s)))
| step_reserve_path i res p a res' :
    procs s !! i = Some (Holding res) → reserved_agent_path res = None →
    valid_path p → is_root p = false →
    reservation_reserve_agent_path (agents s) res p = Ok (a, res') →
    step s (with_agents s a (<[i := Holding res']> (procs s)))
| step_reserve_nickname i res choose names preferred a res' result :
    procs s !! i = Some (Holding res) →
    reserve_agent_nickname_with_preference choose (agents s) res names preferred = (a, res', result) →
    step s (with_agents s a (<[i := Holding res']> (procs s)))
| step_commit i res m thread_id a res' :
    procs s !! i = Some (Holding res) →
    agent_id m = Some thread_id → agent_path m = reserved_agent_path res →
    commit (agents s) res m = (a, res') →
    step s (with_overwritten (with_agents s a (delete i (procs s)))
      (is_live_at (agents s) (agent_key m thread_id) + overwritten s))
| step_drop i res a :
    procs s !! i = Some (Holding res) →
    drop_reservation (agents s) res = (a, true) →
    step s (with_agents s a (<[i := Decrementing]> (procs s)))
| step_release i thread_id a removed :
    procs s !! i = None → remove_agent (agents s) thread_id = (a, removed) →
    step s (with_agents s a (if removed then <[i := Decrementing]> (procs s) else procs s))
| step_decrement i :
    procs s !! i = Some Decrementing →
    step s (with_count s (wrap_sub (count s) 1) (delete i (procs s)))
| step_register_root thread_id :
    step s (with_agents s (register_root_thread (agents s) thread_id) (procs s))
| step_task_message thread_id text :
    step s (with_agents s (update_last_task_message (agents s) thread_id text) (procs s)).

Definition reachable (s : system) : Prop := rtc step system_init s.

(** ** The invariant *)

(** The spawn slots in use: the spawned agents, the threads that hold a
    slot or owe a decrement, and the agents that were overwritten. *)
Definition busy (p : proc) : bool :=
  match p with Trying _ _ => false | Holding _ | Decrementing => true end.
Definition slots (s : system) : nat :=
  count_map is_live_agent (agent_tree (agents s)) + count_map busy (procs s) + overwritten s.

(** [pending t k]: the key is reserved; [holds ps i p]: thread [i] reserved [p]. *)
Definition pending (t : gmap rstring AgentMetadata) (k : rstring) : Prop :=
  ∃ m, t !! k = Some m ∧ agent_id m = None.
Definition holds (ps : gmap nat proc) (i : nat) (p : AgentPath) : Prop :=
  ∃ res, ps !! i = Some (Holding res) ∧ reserved_agent_path res = Some p.

Definition key_ok (k : rstring) (m : AgentMetadata) : Prop :=
  match agent_path m with
  | Some p => valid_path p ∧ k = as_str p
  | None => ∃ thread_id, agent_id m = Some thread_id ∧ k = lit "thread:" ++ display thread_id
  end.
Definition tree_ok (t : gmap rstring AgentMetadata) : Prop := ∀ k m, t !! k = Some m → key_ok k m.
Record holds_ok (t : gmap rstring AgentMetadata) (ps : gmap nat proc) : Prop := {
  holds_reserved : ∀ i p, holds ps i p → valid_path p ∧ is_root p = false ∧ pending t (as_str p);
  holds_pending : ∀ k, pending t k → ∃ i p, holds ps i p ∧ k = as_str p;
  holds_exclusive : ∀ i j p, holds ps i p → holds ps j p → i = j }.
Definition proc_ok (p : proc) : Prop :=
  match p with
  | Trying max _ => (max ≤ usize_max)%N ∧ ∀ l, limit = Some l → (max ≤ l)%N
  | Holding res => active res = true
  | Decrementing => True
  end.
Record count_ok (s : system) : Prop := {
  count_slots : count s = usize_wrap (N.of_nat (slots s));
  count_limit : ∀ l, limit = Some l → (N.of_nat (slots s) ≤ l)%N;
  count_procs : map_Forall (λ _, proc_ok) (procs s) }.
Record inv (s : system) : Prop := {
  inv_tree : tree_ok (agent_tree (agents s));
  inv_holds : holds_ok (agent_tree (agents s)) (procs s);
  inv_count : count_ok s }.

Context (entries_perm : ∀ m, entries m ≡ₚ map_to_list m).
Context (display_inj : Inj (=) (=) display).
Context (limit_usize : ∀ l, limit = Some l → (l ≤ usize_max)%N).

Lemma find_agent_Some a thread_id k m :
  find_agent a thread_id = Some (k, m) → agent_tree a !! k = Some m ∧ agent_id m = Some thread_id.
Proof using entries_perm.
  intros Hf. apply find_some in Hf as [Hin Hid]. apply list_elem_of_In in Hin.
  rewrite entries_perm in Hin. apply elem_of_map_to_list in Hin.
  split; [done|]. by apply bool_decide_eq_true in Hid.
Qed.

Lemma find_agent_None a thread_id : find_agent a thread_id = None → ¬ registered a thread_id.
Proof using entries_perm.
  intros Hf (k & m & Hk & Hid). apply elem_of_map_to_list in Hk. rewrite <- entries_perm in Hk.
  apply list_elem_of_In, (find_none _ _ Hf) in Hk. by apply bool_decide_eq_false in Hk.
Qed.

Lemma path_key_not_thread p thread_id : valid_path p → as_str p ≠ lit "thread:" ++ display thread_id.
Proof using Type.
  intros [->|(l & -> & _)]; [done|]. unfold path_text. intros Heq. apply (f_equal (take 1)) in Heq. done.
Qed.

(** *** The tree *)
Lemma tree_ok_empty : tree_ok ∅.
Proof using Type. intros k m. by rewrite lookup_empty. Qed.

Lemma tree_ok_insert t k m : tree_ok t → key_ok k m → tree_ok (<[k:=m]> t).
Proof using Type. intros Hk Hkey k' m' [[-> ->]|[? ?]]%lookup_insert_Some; eauto. Qed.

Lemma tree_ok_delete t k : tree_ok t → tree_ok (delete k t).
Proof using Type. intros Hk k' m' [_ ?]%lookup_delete_Some; eauto. Qed.

(** The key of a thread without a path holds nothing, or an agent with that thread. *)
Lemma agent_key_own t m thread_id m' :
  tree_ok t → agent_path m = None → t !! agent_key m thread_id = Some m' → agent_id m' = Some thread_id ∧ agent_path m' = None.
Proof using display_inj.
  intros Hk Hp Hm'. unfold agent_key in Hm'. rewrite Hp in Hm'. apply Hk in Hm'.
  unfold key_ok in Hm'. destruct (agent_path m') as [p|].
  - destruct Hm' as [Hv Heq]. by destruct (path_key_not_thread p thread_id Hv).
  - destruct Hm' as (i & Hi & Heq). apply (inj (lit "thread:" ++.)) in Heq. by apply (inj display) in Heq as ->.
Qed.

(** *** Reservations *)
Lemma holds_insert ps i pr j p :
  holds (<[i:=pr]> ps) j p ↔
  (i = j ∧ ∃ res, pr = Holding res ∧ reserved_agent_path res = Some p) ∨ (i ≠ j ∧ holds ps j p).
Proof using Type.
  unfold holds. destruct (decide (i = j)) as [->|Hij].
  - rewrite lookup_insert_eq. naive_solver.
  - rewrite lookup_insert_ne by done. naive_solver.
Qed.
Lemma holds_delete ps i j p : holds (delete i ps) j p ↔ i ≠ j ∧ holds ps j p.
Proof using Type.
  unfold holds. destruct (decide (i = j)) as [->|Hij].
  - rewrite lookup_delete_eq. naive_solver.
  - rewrite lookup_delete_ne by done. naive_solver.
Qed.

(** Steps that change neither the reserved keys nor who holds them. *)
Lemma holds_ok_frame t t' ps ps' :
  holds_ok t ps → (∀ k, pending t' k ↔ pending t k) → (∀ i p, holds ps' i p ↔ holds ps i p) →
  holds_ok t' ps'.
Proof using Type.
  intros [Hr Hp Hx] Ht Hps. split.
  - intros i p Hh%Hps. rewrite Ht. eauto.
  - intros k Hk%Ht. destruct (Hp k Hk) as (i & p & ? & ?). exists i, p. by rewrite Hps.
  - intros i j p Hi%Hps Hj%Hps. eauto.
Qed.

(** Thread [i] takes the free key of [p]. *)
Lemma holds_ok_take t ps i p res :
  holds_ok t ps → t !! as_str p = None → valid_path p → is_root p = false →
  (∀ q, ¬ holds ps i q) → reserved_agent_path res = Some p →
  holds_ok (<[as_str p := placeholder p]> t) (<[i := Holding res]> ps).
Proof using Type.
  intros [Hr Hp Hx] Hfree Hv Hroot Hno Hres.
  assert (∀ k, pending (<[as_str p := placeholder p]> t) k ↔ k = as_str p ∨ pending t k) as Hpend.
  { intros k. unfold pending. destruct (decide (k = as_str p)) as [->|Hne].
    - rewrite lookup_insert_eq. naive_solver.
    - rewrite lookup_insert_ne by done. naive_solver. }
  assert (∀ j q, holds (<[i := Holding res]> ps) j q → as_str q = as_str p → i = j) as Hmine.
  { intros j q [[? _]|[_ Hj]]%holds_insert Heq; [done|].
    apply Hr in Hj as (_ & _ & (m & Hm & _)). by rewrite Heq, Hfree in Hm. }
  split.
  - intros j q Hj. rewrite Hpend. pose proof Hj as [(<- & r & [= <-] & Hq)|[_ Hq]]%holds_insert.
    + rewrite Hres in Hq. injection Hq as ->. eauto.
    + apply Hr in Hq. naive_solver.
  - intros k [->|Hk]%Hpend.
    + exists i, p. rewrite holds_insert. naive_solver.
    + destruct (Hp k Hk) as (j & q & Hj & ->). exists j, q. rewrite holds_insert.
      split; [|done]. right. split; [|done]. intros ->. by destruct (Hno q).
  - intros j1 j2 q H1 H2. destruct (decide (as_str q = as_str p)) as [Heq|Hne].
    + transitivity i; [symmetry|]; by eapply Hmine.
    + assert (∀ j, holds (<[i := Holding res]> ps) j q → holds ps j q) as Hold.
      { intros j [(_ & r & [= <-] & Hq)|[_ Hq]]%holds_insert; [|done].
        rewrite Hres in Hq. by injection Hq as ->. }
      eauto.
Qed.

(** Thread [i] gives up its reservation: its key is no longer pending. *)
Lemma holds_ok_give t t' ps ps' i :
  holds_ok t ps →
  (∀ j p, holds ps' j p ↔ i ≠ j ∧ holds ps j p) →
  (∀ k, pending t' k ↔ pending t k ∧ ∀ p, holds ps i p → k ≠ as_str p) →
  holds_ok t' ps'.
Proof using Type.
  intros [Hr Hp Hx] Hps Ht. split.
  - intros j p [Hij Hj]%Hps. destruct (Hr j p Hj) as (? & ? & ?). split_and!; [done..|].
    apply Ht. split; [done|]. intros q Hq Heq. apply Hij.
    assert (p = q) as <- by (destruct p, q; cbn in Heq; congruence). eauto.
  - intros k [Hk Hno]%Ht. destruct (Hp k Hk) as (j & p & Hj & ->). exists j, p. split; [|done].
    apply Hps. split; [|done]. intros ->. by apply (Hno p).
  - intros j1 j2 p [_ H1]%Hps [_ H2]%Hps. eauto.
Qed.

(** *** The critical sections *)
Lemma pending_insert t k m k' :
  is_Some (agent_id m) → pending (<[k:=m]> t) k' ↔ pending t k' ∧ k' ≠ k.
Proof using Type.
  intros [i Hi]. unfold pending. destruct (decide (k' = k)) as [->|Hne].
  - rewrite lookup_insert_eq. naive_solver.
  - rewrite lookup_insert_ne by done. naive_solver.
Qed.

Lemma pending_insert_same t k m k' :
  is_Some (agent_id m) → ¬ pending t k → pending (<[k:=m]> t) k' ↔ pending t k'.
Proof using Type. intros Hm Hk. rewrite pending_insert by done. naive_solver. Qed.

Lemma pending_delete t k k' : pending (delete k t) k' ↔ pending t k' ∧ k' ≠ k.
Proof using Type.
  unfold pending. destruct (decide (k' = k)) as [->|Hne].
  - rewrite lookup_delete_eq. naive_solver.
  - rewrite lookup_delete_ne by done. naive_solver.
Qed.

(** What a critical section does to the tree: the invariant of the tree, which
    keys stay reserved, and how many spawned agents it adds or removes. *)
Lemma remove_agent_spec a thread_id a' removed :
  tree_ok (agent_tree a) → remove_agent a thread_id = (a', removed) →
  tree_ok (agent_tree a') ∧ (∀ k, pending (agent_tree a') k ↔ pending (agent_tree a) k) ∧
  count_map is_live_agent (agent_tree a) = Nat.b2n removed + count_map is_live_agent (agent_tree a').
Proof using entries_perm.
  intros Hok. unfold remove_agent. destruct (find_agent a thread_id) as [[k m]|] eqn:Hf.
  - apply find_agent_Some in Hf as [Hk Hid]. rewrite Hk. intros [= <- <-]. cbn [set_tree agent_tree].
    split_and!; [by apply tree_ok_delete| |].
    + intros k'. rewrite pending_delete. unfold pending. split; [naive_solver|]. intros (m' & Hm' & Hn).
      split; [by eauto|]. intros ->. congruence.
    + rewrite (count_map_delete _ _ k m) by done. unfold is_live_agent at 1.
      by rewrite Hid, bool_decide_eq_true_2 by eauto.
  - intros [= <- <-]. done.
Qed.

Lemma register_root_thread_spec a thread_id :
  tree_ok (agent_tree a) →
  tree_ok (agent_tree (register_root_thread a thread_id)) ∧
  (∀ k, pending (agent_tree (register_root_thread a thread_id)) k ↔ pending (agent_tree a) k) ∧
  count_map is_live_agent (agent_tree (register_root_thread a thread_id)) = count_map is_live_agent (agent_tree a).
Proof using Type.
  intros Hok. unfold register_root_thread. destruct (agent_tree a !! ROOT) as [m|] eqn:Hr; [done|].
  cbn [set_tree agent_tree]. split_and!.
  - apply tree_ok_insert; [done|]. split; [|done]. right. exists []. split; [by vm_compute|done].
  - intros k. apply pending_insert_same; [by eexists|]. intros (m & Hm & _). congruence.
  - rewrite count_map_fresh by done. done.
Qed.

Lemma update_last_task_message_spec a thread_id text :
  tree_ok (agent_tree a) →
  tree_ok (agent_tree (update_last_task_message a thread_id text)) ∧
  (∀ k, pending (agent_tree (update_last_task_message a thread_id text)) k ↔ pending (agent_tree a) k) ∧
  count_map is_live_agent (agent_tree (update_last_task_message a thread_id text)) =
  count_map is_live_agent (agent_tree a).
Proof using entries_perm.
  intros Hok. unfold update_last_task_message. destruct (find_agent a thread_id) as [[k m]|] eqn:Hf; [|done].
  apply find_agent_Some in Hf as [Hk Hid]. cbn [set_tree agent_tree]. split_and!.
  - apply tree_ok_insert; [done|]. by apply Hok in Hk.
  - intros k'. apply pending_insert_same; [by eexists|]. intros (m' & Hm' & Hn). congruence.
  - pose proof (count_map_replace is_live_agent _ k m (set_last_task_message m text) Hk) as Hc.
    change (is_live_agent (set_last_task_message m text)) with (is_live_agent m) in Hc. lia.
Qed.

Lemma reserve_agent_nickname_tree choose a names preferred :
  agent_tree (reserve_agent_nickname choose a names preferred).1 = agent_tree a.
Proof using Type. unfold reserve_agent_nickname. by_cases done. Qed.

Lemma register_spawned_thread_spec a m thread_id path :
  tree_ok (agent_tree a) → agent_id m = Some thread_id → agent_path m = path →
  (∀ p, path = Some p → valid_path p ∧ is_root p = false ∧ pending (agent_tree a) (as_str p)) →
  tree_ok (agent_tree (register_spawned_thread a m)) ∧
  (∀ k, pending (agent_tree (register_spawned_thread a m)) k ↔
        pending (agent_tree a) k ∧ ∀ p, path = Some p → k ≠ as_str p) ∧
  is_live_at a (agent_key m thread_id) + count_map is_live_agent (agent_tree (register_spawned_thread a m)) =
  S (count_map is_live_agent (agent_tree a)).
Proof using display_inj.
  intros Hok Hid Hpath Hp. unfold register_spawned_thread, is_live_at. rewrite Hid. cbn [agent_tree].
  assert (is_live_agent m = true) as Hlive.
  { unfold is_live_agent, path_is_root. rewrite Hid, Hpath, bool_decide_eq_true_2 by eauto.
    destruct path as [p|]; [|done]. by destruct (Hp p) as (_ & -> & _). }
  destruct path as [p|].
  - assert (agent_key m thread_id = as_str p) as Hkey by (unfold agent_key; by rewrite Hpath).
    destruct (Hp p eq_refl) as (Hv & Hr & m0 & Hm0 & Hid0). rewrite Hkey in *. split_and!.
    + apply tree_ok_insert; [done|]. unfold key_ok. by rewrite Hpath.
    + intros k. rewrite pending_insert by (by rewrite Hid). naive_solver.
    + pose proof (count_map_replace is_live_agent _ _ m0 m Hm0) as Hc. rewrite Hlive in Hc. rewrite Hm0. cbn in *. lia.
  - split_and!.
    + apply tree_ok_insert; [done|]. unfold key_ok, agent_key. rewrite Hpath. eauto.
    + intros k. rewrite pending_insert_same; [naive_solver|by rewrite Hid|]. intros (m' & Hm' & Hn).
      apply agent_key_own in Hm' as [? _]; [congruence|done..].
    + destruct (agent_tree a !! agent_key m thread_id) as [m'|] eqn:Hm'; [|by rewrite count_map_fresh, Hlive by done].
      pose proof (count_map_replace is_live_agent _ _ m' m Hm') as Hc. rewrite Hlive in Hc. cbn in *. lia.
Qed.

Lemma reserve_agent_path_spec a p a' :
  reserve_agent_path a p = Ok a' →
  agent_tree a !! as_str p = None ∧ agent_tree a' = <[as_str p := placeholder p]> (agent_tree a).
Proof using Type.
  unfold reserve_agent_path. destruct (agent_tree a !! as_str p); [done|].
  intros Heq%Ok_inj. by subst.
Qed.

Lemma release_reserved_agent_path_spec a p :
  tree_ok (agent_tree a) → pending (agent_tree a) (as_str p) →
  tree_ok (agent_tree (release_reserved_agent_path a p)) ∧
  (∀ k, pending (agent_tree (release_reserved_agent_path a p)) k ↔ pending (agent_tree a) k ∧ k ≠ as_str p) ∧
  count_map is_live_agent (agent_tree (release_reserved_agent_path a p)) =
  count_map is_live_agent (agent_tree a).
Proof using Type.
  intros Hok (m & Hm & Hid). unfold release_reserved_agent_path. rewrite Hm, bool_decide_eq_true_2 by done.
  cbn [set_tree agent_tree]. split_and!; [by apply tree_ok_delete|intros; apply pending_delete|].
  rewrite (count_map_delete _ _ _ _ Hm). unfold is_live_agent at 2. by rewrite Hid.
Qed.

(** *** The counter *)

(** A step that keeps the slots in use, acquires one, or gives one back. *)
Lemma count_ok_keep s a ps :
  count_ok s →
  count_map is_live_agent (agent_tree a) + count_map busy ps + overwritten s = slots s →
  map_Forall (λ _, proc_ok) ps → count_ok (with_agents s a ps).
Proof using Type.
  intros [Hc Hl Hp] Hs Hps. unfold slots in Hs. split; [|intros l Heq|done];
    unfold slots, count, agents in *; cbn [with_agents registry total_count active_agents procs overwritten] in *;
    rewrite Hs; auto.
Qed.

Lemma count_ok_count s total ps (d : nat) :
  count_ok s →
  count_map is_live_agent (agent_tree (agents s)) + count_map busy ps + overwritten s = d + slots s →
  total = usize_wrap (N.of_nat (slots s) + N.of_nat d) →
  (∀ l, limit = Some l → (N.of_nat (slots s) + N.of_nat d ≤ l)%N) →
  map_Forall (λ _, proc_ok) ps → count_ok (with_count s total ps).
Proof using Type.
  intros [Hc Hl Hp] Hs -> Hlim Hps. unfold slots in Hs. split; [|intros l Heq|done];
    unfold slots, count, agents in *; cbn [with_count registry total_count active_agents procs overwritten] in *.
  - rewrite Hs. f_equal. lia.
  - rewrite Hs. specialize (Hlim l Heq). lia.
Qed.

Lemma count_ok_decrement s i :
  count_ok s → procs s !! i = Some Decrementing →
  count_ok (with_count s (wrap_sub (count s) 1) (delete i (procs s))).
Proof using Type.
  intros [Hc Hl Hp] Hi. pose proof (count_map_delete busy _ _ _ Hi) as Hd. cbn in Hd.
  split; [|intros l Heq|by apply map_Forall_delete];
    unfold slots, count, agents in *; cbn [with_count registry total_count active_agents procs overwritten] in *.
  - rewrite Hc, wrap_sub_wrap by lia. f_equal. lia.
  - specialize (Hl l Heq). lia.
Qed.

(** The exchange only succeeds on a counter below the limit, which has then
    not wrapped. *)
Lemma turn_ok s max current spurious total result :
  count_ok s → proc_ok (Trying max current) →
  try_increment_turn max current spurious (count s) = (total, result) →
  (result = inl true ∧ total = usize_wrap (N.of_nat (slots s) + 1) ∧
   ∀ l, limit = Some l → (N.of_nat (slots s) + 1 ≤ l)%N) ∨
  (result ≠ inl true ∧ total = count s).
Proof using limit_usize.
  intros [Hc Hl Hp] [Hmax Hlim]. unfold try_increment_turn.
  destruct (N.leb_spec max current) as [Hle|Hlt]; [intros [= <- <-]; by right|].
  destruct (bool_decide (count s = current) && negb spurious) eqn:E; [|intros [= <- <-]; by right].
  apply andb_prop in E as [<-%bool_decide_eq_true _]. intros [= <- <-]. left.
  split_and!; [done| |].
  - rewrite Hc in *. rewrite <- wrap_add_wrap. symmetry. apply usize_wrap_small. lia.
  - intros l El. specialize (Hl l El). specialize (limit_usize l El). specialize (Hlim l El).
    rewrite usize_wrap_small in Hc by lia. lia.
Qed.

(** *** Preservation *)
Lemma holds_ok_procs t ps i (pr : option proc) :
  holds_ok t ps → (∀ p, ¬ holds ps i p) →
  (∀ res, pr = Some (Holding res) → reserved_agent_path res = None) →
  holds_ok t (partial_alter (λ _, pr) i ps).
Proof using Type.
  intros Hok Hno Hpr. apply (holds_ok_frame t t ps); [done|done|]. intros j p.
  destruct pr as [pr|].
  - change (partial_alter (λ _, Some pr) i ps) with (<[i:=pr]> ps). rewrite holds_insert. split.
    + intros [(_ & res & -> & Hres)|[_ ?]]; [by rewrite (Hpr res eq_refl) in Hres|done].
    + intros Hj. right. split; [|done]. intros ->. by destruct (Hno p).
  - change (partial_alter (λ _, None) i ps) with (delete i ps). rewrite holds_delete. split; [naive_solver|].
    intros Hj. split; [|done]. intros ->. by destruct (Hno p).
Qed.

Lemma procs_ok_alter (ps : gmap nat proc) i (pr : option proc) :
  map_Forall (λ _, proc_ok) ps → (∀ x, pr = Some x → proc_ok x) →
  map_Forall (λ _, proc_ok) (partial_alter (λ _, pr) i ps).
Proof using Type.
  intros Hps Hpr j x Hj. destruct (decide (j = i)) as [->|Hne].
  - rewrite lookup_partial_alter_eq in Hj. auto.
  - rewrite lookup_partial_alter_ne in Hj by done. eauto.
Qed.

Lemma not_holding ps i : (∀ res, ps !! i ≠ Some (Holding res)) → ∀ p, ¬ holds ps i p.
Proof using Type. intros Hn p (res & Hr & _). by apply (Hn res). Qed.

Lemma holds_same ps i res res' :
  ps !! i = Some (Holding res) → reserved_agent_path res' = reserved_agent_path res →
  ∀ j p, holds (<[i := Holding res']> ps) j p ↔ holds ps j p.
Proof using Type.
  intros Hi Hr j p. rewrite holds_insert. unfold holds.
  destruct (decide (i = j)) as [->|Hne]; naive_solver congruence.
Qed.

Lemma holds_at ps i res : ps !! i = Some (Holding res) → ∀ p, holds ps i p ↔ reserved_agent_path res = Some p.
Proof using Type. intros Hi p. unfold holds. rewrite Hi. naive_solver. Qed.

Lemma holds_other ps i j p : j = i ∨ j ≠ i → holds (<[i := Decrementing]> ps) j p ↔ i ≠ j ∧ holds ps j p.
Proof using Type. rewrite holds_insert. naive_solver. Qed.

Lemma inv_init : inv system_init.
Proof using Type.
  split; [apply tree_ok_empty| |].
  - split; unfold holds, pending; cbn; setoid_rewrite lookup_empty; naive_solver.
  - split; [|intros l _|apply map_Forall_empty]; unfold slots; cbn; rewrite !count_map_empty; [done|lia].
Qed.

Lemma inv_load s i max :
  inv s → procs s !! i = None → (max ≤ usize_max)%N → allowed (Some max) →
  inv (with_count s (count s) (<[i := Trying max (count s)]> (procs s))).
Proof using Type.
  intros [Ht Hh Hc] Hi Hmax Hal. split; [done| |].
  - apply holds_ok_procs; [done| |done]. apply not_holding. by rewrite Hi.
  - apply (count_ok_count _ _ _ 0); [done| | | |].
    + by rewrite count_map_fresh by done.
    + rewrite (count_slots _ Hc). f_equal. lia.
    + intros l Hl. pose proof (count_limit _ Hc l Hl). lia.
    + apply map_Forall_insert_2; [|apply (count_procs _ Hc)]. split; [done|].
      intros l Hl. unfold allowed in Hal. rewrite Hl in Hal. by destruct Hal as (m & [= <-] & ?).
Qed.

Lemma busy_turn (ps : gmap nat proc) i max current result :
  ps !! i = Some (Trying max current) →
  count_map busy (partial_alter (λ _, turn_result max result) i ps) =
  (match result with inl true => 1 | _ => 0 end) + count_map busy ps.
Proof using Type.
  intros Hi. destruct result as [[]|cur].
  - exact (count_map_replace busy _ _ _ (Holding reservation_new) Hi).
  - symmetry. exact (count_map_delete busy _ _ _ Hi).
  - exact (count_map_replace busy _ _ _ (Trying max cur) Hi).
Qed.

Lemma inv_exchange s i max current spurious total result :
  inv s → procs s !! i = Some (Trying max current) →
  try_increment_turn max current spurious (count s) = (total, result) →
  inv (with_count s total (partial_alter (λ _, turn_result max result) i (procs s))).
Proof using limit_usize.
  intros [Ht Hh Hc] Hi Hturn. pose proof (count_procs _ Hc i _ Hi) as Hok. split; [done| |].
  { apply holds_ok_procs; [done|apply not_holding; by rewrite Hi|].
    by destruct result as [[]|]; intros res [= <-]. }
  pose proof (busy_turn _ _ _ _ result Hi) as Hb.
  destruct (turn_ok _ _ _ _ _ _ Hc Hok Hturn) as [(-> & -> & Hlim)|[Hne ->]].
  - apply (count_ok_count _ _ _ 1); [done| |done|done|by apply procs_ok_alter; [apply Hc|intros x [= <-]]].
    rewrite Hb. unfold slots. lia.
  - apply (count_ok_count _ _ _ 0); [done| | | |].
    + rewrite Hb. unfold slots. by destruct result as [[]|cur].
    + rewrite (count_slots _ Hc). f_equal. lia.
    + intros l Hl. pose proof (count_limit _ Hc l Hl). lia.
    + apply procs_ok_alter; [apply Hc|]. by destruct result as [[]|cur]; intros x [= <-].
Qed.

Lemma inv_fetch_add s i :
  inv s → procs s !! i = None → allowed None →
  inv (with_count s (wrap_add (count s) 1) (<[i := Holding reservation_new]> (procs s))).
Proof using limit_usize.
  intros [Ht Hh Hc] Hi Hal. unfold allowed in Hal.
  assert (limit = None) as Hl by (destruct limit; [by destruct Hal as (? & ? & _)|done]).
  split; [done| |].
  - apply holds_ok_procs; [done|apply not_holding; by rewrite Hi|]. by intros res [= <-].
  - apply (count_ok_count _ _ _ 1); [done| | |by rewrite Hl|by apply procs_ok_alter; [apply Hc|intros x [= <-]]].
    + rewrite count_map_fresh by done. unfold slots. cbn. lia.
    + rewrite (count_slots _ Hc). apply wrap_add_wrap.
Qed.

Lemma inv_with_agents s a ps :
  tree_ok (agent_tree a) → holds_ok (agent_tree a) ps → count_ok (with_agents s a ps) →
  inv (with_agents s a ps).
Proof using Type. by split. Qed.

Lemma inv_reserve_path s i res p a res' :
  inv s → procs s !! i = Some (Holding res) → reserved_agent_path res = None →
  valid_path p → is_root p = false →
  reservation_reserve_agent_path (agents s) res p = Ok (a, res') →
  inv (with_agents s a (<[i := Holding res']> (procs s))).
Proof using Type.
  intros [Ht Hh Hc] Hi Hres Hv Hr Hop. unfold reservation_reserve_agent_path in Hop.
  apply bind_Ok in Hop as (a' & Ha & [= <- <-]). apply reserve_agent_path_spec in Ha as [Hfree Ha].
  apply inv_with_agents.
  - rewrite Ha. apply tree_ok_insert; [done|by split].
  - rewrite Ha. apply holds_ok_take; [done..| |done].
    intros q Hq. rewrite (holds_at _ _ _ Hi) in Hq. congruence.
  - apply count_ok_keep; [done| |apply procs_ok_alter; [apply Hc|intros x [= <-]; by apply (count_procs _ Hc) in Hi]].
    rewrite Ha, count_map_fresh by done. pose proof (count_map_replace busy _ _ _
      (Holding (mk_reservation (active res) (reserved_agent_nickname res) (Some p))) Hi) as Hb.
    unfold slots. cbn in Hb |- *. lia.
Qed.

Lemma inv_reserve_nickname s i res choose names preferred a res' result :
  inv s → procs s !! i = Some (Holding res) →
  reserve_agent_nickname_with_preference choose (agents s) res names preferred = (a, res', result) →
  inv (with_agents s a (<[i := Holding res']> (procs s))).
Proof using Type.
  intros [Ht Hh Hc] Hi Hop.
  assert (agent_tree a = agent_tree (agents s) ∧ reserved_agent_path res' = reserved_agent_path res ∧
    active res' = active res) as (Ha & Hp & Hact).
  { pose proof (reserve_agent_nickname_tree choose (agents s) names preferred) as Hn.
    unfold reserve_agent_nickname_with_preference in Hop.
    destruct (reserve_agent_nickname _ _ _ _) as [a0 [n|]]; injection Hop as <- <- <-; done. }
  apply inv_with_agents; [by rewrite Ha| |].
  - rewrite Ha. eapply holds_ok_frame; [done|done|]. by eapply holds_same.
  - apply count_ok_keep; [done| |].
    + rewrite Ha. pose proof (count_map_replace busy _ _ _ (Holding res') Hi) as Hb.
      unfold slots. cbn in Hb. lia.
    + apply procs_ok_alter; [apply Hc|]. intros x [= <-]. apply (count_procs _ Hc) in Hi. cbn in *. congruence.
Qed.

Lemma inv_commit s i res m thread_id a res' :
  inv s → procs s !! i = Some (Holding res) →
  agent_id m = Some thread_id → agent_path m = reserved_agent_path res → commit (agents s) res m = (a, res') →
  inv (with_overwritten (with_agents s a (delete i (procs s))) (is_live_at (agents s) (agent_key m thread_id) + overwritten s)).
Proof using display_inj.
  intros [Ht Hh Hc] Hi Hid Hp [= <- <-].
  destruct (register_spawned_thread_spec (agents s) m thread_id (reserved_agent_path res))
    as (Ht' & Hpend & Hlive); [done..| |].
  { intros p Hrp. by apply (holds_reserved _ _ Hh i p), (holds_at _ _ _ Hi). }
  split; [done| |].
  - eapply (holds_ok_give _ _ _ _ i); [done|apply holds_delete|].
    intros k. rewrite Hpend. by setoid_rewrite (holds_at _ _ _ Hi).
  - pose proof (count_map_delete busy _ _ _ Hi) as Hb. cbn in Hb. destruct Hc as [Hc Hl Hps].
    assert (slots (with_overwritten (with_agents s (register_spawned_thread (agents s) m) (delete i (procs s)))
      (is_live_at (agents s) (agent_key m thread_id) + overwritten s)) = slots s) as Hs
      by (unfold slots, agents in *; cbn [with_overwritten with_agents registry active_agents procs overwritten] in *; lia).
    split; [by rewrite Hs|by rewrite Hs|by apply map_Forall_delete].
Qed.

Lemma inv_drop s i res a :
  inv s → procs s !! i = Some (Holding res) → drop_reservation (agents s) res = (a, true) →
  inv (with_agents s a (<[i := Decrementing]> (procs s))).
Proof using Type.
  intros [Ht Hh Hc] Hi Hd. unfold drop_reservation in Hd.
  rewrite (count_procs _ Hc i _ Hi) in Hd. injection Hd as <-.
  assert (∀ t', (∀ k, pending t' k ↔ pending (agent_tree (agents s)) k ∧
      ∀ p, reserved_agent_path res = Some p → k ≠ as_str p) →
    holds_ok t' (<[i := Decrementing]> (procs s))) as Hgive.
  { intros t' Hpend. eapply (holds_ok_give _ _ _ _ i); [done| |].
    - intros j p. rewrite holds_insert. naive_solver.
    - intros k. rewrite Hpend. by setoid_rewrite (holds_at _ _ _ Hi). }
  pose proof (count_map_replace busy _ _ _ Decrementing Hi) as Hb. cbn in Hb.
  destruct (reserved_agent_path res) as [p|] eqn:Hres.
  - destruct (holds_reserved _ _ Hh i p) as (_ & _ & Hp); [by apply (holds_at _ _ _ Hi)|].
    destruct (release_reserved_agent_path_spec (agents s) p Ht Hp) as (Ht' & Hpend & Hlive).
    split; [done|apply Hgive; intros k; rewrite Hpend; naive_solver|].
    apply count_ok_keep; [done|rewrite Hlive; unfold slots; lia|].
    by apply procs_ok_alter; [apply Hc|intros x [= <-]].
  - split; [done|apply Hgive; naive_solver|].
    apply count_ok_keep; [done|unfold slots; lia|]. by apply procs_ok_alter; [apply Hc|intros x [= <-]].
Qed.

Lemma inv_release s i thread_id a removed :
  inv s → procs s !! i = None → remove_agent (agents s) thread_id = (a, removed) →
  inv (with_agents s a (if removed then <[i := Decrementing]> (procs s) else procs s)).
Proof using entries_perm.
  intros [Ht Hh Hc] Hi Hr. destruct (remove_agent_spec _ _ _ _ Ht Hr) as (Ht' & Hpend & Hlive).
  apply inv_with_agents; [done| |].
  - apply (holds_ok_frame (agent_tree (agents s)) _ (procs s)); [done|done|]. intros j p. destruct removed; [|done].
    rewrite holds_insert. unfold holds. split; [naive_solver|]. intros (res & Hj & Hp). right.
    split; [|by exists res]. intros ->. congruence.
  - apply count_ok_keep; [done| |].
    + unfold slots. rewrite Hlive. destruct removed; [|done]. rewrite count_map_fresh by done. cbn. lia.
    + destruct removed; [|apply Hc]. by apply procs_ok_alter; [apply Hc|intros x [= <-]].
Qed.

Lemma inv_decrement s i :
  inv s → procs s !! i = Some Decrementing →
  inv (with_count s (wrap_sub (count s) 1) (delete i (procs s))).
Proof using Type.
  intros [Ht Hh Hc] Hi. split; [done| |by apply count_ok_decrement].
  apply (holds_ok_procs _ _ i None); [done|apply not_holding; by rewrite Hi|done].
Qed.

(** A critical section that keeps reserved keys and spawned agents. *)
Lemma inv_agents s a :
  inv s → tree_ok (agent_tree a) → (∀ k, pending (agent_tree a) k ↔ pending (agent_tree (agents s)) k) →
  count_map is_live_agent (agent_tree a) = count_map is_live_agent (agent_tree (agents s)) →
  inv (with_agents s a (procs s)).
Proof using Type.
  intros [Ht Hh Hc] Ht' Hpend Hlive. apply inv_with_agents; [done|by eapply holds_ok_frame|].
  apply count_ok_keep; [done|by rewrite Hlive|apply Hc].
Qed.

Lemma inv_step s s' : inv s → step s s' → inv s'.
Proof using entries_perm display_inj limit_usize.
  intros Hinv []; eauto using inv_load, inv_exchange, inv_fetch_add, inv_reserve_path,
    inv_reserve_nickname, inv_commit, inv_drop, inv_release, inv_decrement.
  - destruct (register_root_thread_spec (agents s) thread_id) as (? & ? & ?); [apply Hinv|].
    by apply inv_agents.
  - destruct (update_last_task_message_spec (agents s) thread_id text) as (? & ? & ?); [apply Hinv|].
    by apply inv_agents.
Qed.

Lemma inv_steps s s' : rtc step s s' → inv s → inv s'.
Proof using entries_perm display_inj limit_usize. induction 1; eauto using inv_step. Qed.

Lemma inv_reachable s : reachable s → inv s.
Proof using entries_perm display_inj limit_usize. intros Hs. by apply (inv_steps _ _ Hs), inv_init. Qed.

Lemma live_agents_length a : length (live_agents a) = count_map is_live_agent (agent_tree a).
Proof using entries_perm.
  unfold live_agents. generalize (agent_tree a) as t. intros t.
  assert (∀ l k : list AgentMetadata, l ≡ₚ k →
    length (List.filter is_live_agent l) = length (List.filter is_live_agent k)) as Hperm.
  { induction 1; cbn; repeat case_match; cbn in *; lia. }
  rewrite (Hperm _ (map_to_list t).*2) by by rewrite entries_perm.
  induction t as [|k m t Hk IH] using map_ind; [by rewrite map_to_list_empty, count_map_empty|].
  rewrite count_map_fresh, <- IH by done.
  rewrite (Hperm _ ((k, m) :: map_to_list t).*2) by by rewrite map_to_list_insert.
  cbn. by destruct (is_live_agent m).
Qed.

(** *** Completion *)
Definition same_threads (s s' : system) : Prop :=
  ∀ thread_id, registered (agents s') thread_id ↔ registered (agents s) thread_id.

Lemma drop_same_threads a res a' decrement :
  drop_reservation a res = (a', decrement) → ∀ thread_id, registered a' thread_id ↔ registered a thread_id.
Proof using Type.
  unfold drop_reservation. destruct (active res); [|by intros [= <- <-]].
  intros [= <- <-] thread_id. destruct (reserved_agent_path res) as [p|]; [|done].
  unfold release_reserved_agent_path. destruct (agent_tree a !! as_str p) as [m|] eqn:Hm; [|done].
  case_bool_decide as Hid; [|done]. unfold registered. cbn [set_tree agent_tree]. split.
  - intros (k & m' & [_ ?]%lookup_delete_Some & ?). eauto.
  - intros (k & m' & Hk & Hi). exists k, m'. rewrite lookup_delete_ne; [done|]. intros <-. congruence.
Qed.

Lemma decrement_completes s i :
  procs s !! i = Some Decrementing →
  ∃ s', rtc step s s' ∧ procs s' = delete i (procs s) ∧ same_threads s s'.
Proof using Type. intros Hi. eexists. split; [by apply rtc_once, (step_decrement _ i)|done]. Qed.

Lemma holding_completes s i res :
  inv s → procs s !! i = Some (Holding res) →
  ∃ s', rtc step s s' ∧ procs s' = delete i (procs s) ∧ same_threads s s'.
Proof using Type.
  intros Hinv Hi. pose proof (count_procs _ (inv_count _ Hinv) i _ Hi) as Hact. cbn in Hact.
  destruct (drop_reservation (agents s) res) as [a d] eqn:Hd.
  assert (d = true) as -> by (unfold drop_reservation in Hd; rewrite Hact in Hd; congruence).
  destruct (decrement_completes (with_agents s a (<[i:=Decrementing]> (procs s))) i) as (s' & Hrtc & Hps & Hsame).
  { apply lookup_insert_eq. }
  exists s'. split_and!.
  - eapply rtc_l; [by eapply step_drop|done].
  - rewrite Hps. apply delete_insert_eq.
  - intros t. rewrite (Hsame t). by eapply drop_same_threads.
Qed.

Lemma trying_completes_now s i max :
  inv s → procs s !! i = Some (Trying max (count s)) →
  ∃ s', rtc step s s' ∧ procs s' = delete i (procs s) ∧ same_threads s s'.
Proof using limit_usize.
  intros Hinv Hi. destruct (try_increment_turn max (count s) false (count s)) as [total result] eqn:Ht.
  pose proof (step_exchange _ _ _ _ _ _ _ Hi Ht) as Hstep. pose proof (inv_exchange _ _ _ _ _ _ _ Hinv Hi Ht) as Hinv'.
  unfold try_increment_turn in Ht. destruct (N.leb max (count s)).
  - injection Ht as <- <-. eexists. split; [by apply rtc_once|done].
  - rewrite bool_decide_eq_true_2 in Ht by done. injection Ht as <- <-. cbn [turn_result] in *.
    destruct (holding_completes _ i reservation_new Hinv') as (s' & Hrtc & Hps & Hsame);
      [apply lookup_partial_alter_eq|].
    exists s'. split_and!; [by eapply rtc_l| |done]. rewrite Hps. apply delete_insert_eq.
Qed.

Lemma proc_completes s i pr :
  inv s → procs s !! i = Some pr →
  ∃ s', rtc step s s' ∧ procs s' = delete i (procs s) ∧ same_threads s s'.
Proof using limit_usize.
  intros Hinv Hi. destruct pr as [max current|res|]; [|by eapply holding_completes|by apply decrement_completes].
  destruct (decide (current = count s)) as [->|Hne]; [by eapply trying_completes_now|].
  destruct (try_increment_turn max current false (count s)) as [total result] eqn:Ht.
  pose proof (step_exchange _ _ _ _ _ _ _ Hi Ht) as Hstep. pose proof (inv_exchange _ _ _ _ _ _ _ Hinv Hi Ht) as Hinv'.
  unfold try_increment_turn in Ht. destruct (N.leb max current).
  - injection Ht as <- <-. eexists. split; [by apply rtc_once|done].
  - rewrite bool_decide_eq_false_2 in Ht by done. injection Ht as <- <-. cbn [turn_result] in *.
    destruct (trying_completes_now _ i max Hinv') as (s' & Hrtc & Hps & Hsame);
      [apply lookup_partial_alter_eq|].
    exists s'. split_and!; [by eapply rtc_l| |done]. rewrite Hps. apply delete_insert_eq.
Qed.

Lemma all_complete s n :
  inv s → size (procs s) = n → ∃ s', rtc step s s' ∧ procs s' = ∅ ∧ same_threads s s'.
Proof using entries_perm display_inj limit_usize.
  revert s. induction n as [|n IH]; intros s Hinv Hn.
  - exists s. split_and!; [done|by apply map_size_empty_inv|done].
  - destruct (map_choose (procs s)) as (i & pr & Hi); [intros He; rewrite He, map_size_empty in Hn; lia|].
    destruct (proc_completes s i pr Hinv Hi) as (s1 & H1 & Hp1 & Hs1).
    destruct (IH s1) as (s2 & H2 & Hp2 & Hs2); [by eapply inv_steps| |].
    + rewrite Hp1, map_size_delete, Hi. cbn. lia.
    + exists s2. split_and!; [by etrans|done|]. intros t. by rewrite (Hs2 t), (Hs1 t).
Qed.

(** Only the commit of a thread without a path can meet an entry that is live, and that entry is its own. *)
Lemma commit_overwrites s i res m thread_id a res' :
  tree_ok (agent_tree (agents s)) → holds_ok (agent_tree (agents s)) (procs s) →
  procs s !! i = Some (Holding res) → agent_id m = Some thread_id → agent_path m = reserved_agent_path res →
  commit (agents s) res m = (a, res') →
  is_live_at (agents s) (agent_key m thread_id) + overwritten s ≠ overwritten s →
  is_live_at (agents s) (agent_key m thread_id) + overwritten s = S (overwritten s) ∧
  ∃ i res m thread_id m', procs s !! i = Some (Holding res) ∧ reserved_agent_path res = None ∧
    a = (commit (agents s) res m).1 ∧ agent_id m = Some thread_id ∧
    agent_tree (agents s) !! (lit "thread:" ++ display thread_id) = Some m' ∧ agent_id m' = Some thread_id.
Proof using display_inj.
  intros Ht Hh Hi Hid Hp Hcm Hne. unfold is_live_at in *.
  destruct (agent_tree (agents s) !! agent_key m thread_id) as [m'|] eqn:Em; [|done].
  destruct (reserved_agent_path res) as [p|] eqn:Er.
  - exfalso. destruct (holds_reserved _ _ Hh i p) as (_ & _ & m0 & Hm0 & Hid0); [by apply (holds_at _ _ _ Hi)|].
    unfold agent_key in Em. rewrite Hp, Hm0 in Em. injection Em as <-. unfold is_live_agent in Hne. by rewrite Hid0 in Hne.
  - destruct (agent_key_own _ _ _ _ Ht Hp Em) as [Hid' _]. split; [destruct (is_live_agent m'); cbn in *; lia|].
    exists i, res, m, thread_id, m'. unfold agent_key in Em. rewrite Hp in Em. by rewrite Hcm.
Qed.

(** C7: the spawn limit, in every interleaving.  The counter is always the
    number of spawned agents, plus the operations that hold a slot or still owe
    a decrement, plus the agents that were registered again over their own entry (only a commit
    of a thread that is registered without a path does that, and its slot is never given
    back), so with a limit these together never exceed it and the counter
    has not wrapped.  A reserved path belongs to one reservation and is refused
    to everyone else. *)
Theorem spawn_slots_are_accounted (s : system) (Hs : reachable s) :
  let used := N.of_nat (length (live_agents (agents s)) + count_map busy (procs s) + overwritten s) in
  count s = usize_wrap used ∧
  (∀ l, limit = Some l → count s = used ∧ (used ≤ l)%N) ∧
  (∀ s', step s s' → overwritten s' ≠ overwritten s →
     overwritten s' = S (overwritten s) ∧
     ∃ i res m thread_id m', procs s !! i = Some (Holding res) ∧ reserved_agent_path res = None ∧
       agents s' = (commit (agents s) res m).1 ∧ agent_id m = Some thread_id ∧
       agent_tree (agents s) !! (lit "thread:" ++ display thread_id) = Some m' ∧ agent_id m' = Some thread_id) ∧
  (∀ i j p, holds (procs s) i p → holds (procs s) j p → i = j) ∧
  (∀ i p, holds (procs s) i p →
     agent_id_for_path (agents s) p = None ∧ is_ok (reserve_agent_path (agents s) p) = false).
Proof using entries_perm display_inj limit_usize.
  cbv zeta. rewrite live_agents_length. apply inv_reachable in Hs as [Ht Hh Hc].
  change (count_map is_live_agent (agent_tree (agents s)) + count_map busy (procs s) + overwritten s) with (slots s).
  split_and!; [apply Hc| | |apply Hh|].
  - intros l Hl. pose proof (count_limit _ Hc l Hl). specialize (limit_usize l Hl).
    split; [|done]. rewrite (count_slots _ Hc). apply usize_wrap_small. lia.
  - intros s' Hstep Hne. destruct Hstep as [| | | | |i res m thread_id a res' Hi Hid Hp Hcm| | | | |]; try done.
    by apply (commit_overwrites s i res m thread_id a res').
  - intros i p Hp. apply (holds_reserved _ _ Hh) in Hp as (_ & _ & m & Hm & Hid).
    unfold agent_id_for_path, reserve_agent_path. rewrite Hm. done.
Qed.

(** Nothing blocks and nothing is lost.  From every reachable state the
    operations in flight can run to their end, each one alone and without help
    from the others; no thread is registered or removed by that, and then the
    counter is the number of spawned agents and of the overwritten ones, and no path is left reserved. *)
Theorem registry_operations_complete (s : system) (Hs : reachable s) :
  ∃ s', rtc step s s' ∧ procs s' = ∅ ∧ same_threads s s' ∧
    count s' = usize_wrap (N.of_nat (length (live_agents (agents s')) + overwritten s')) ∧
    map_Forall (λ _ m, is_Some (agent_id m)) (agent_tree (agents s')).
Proof using entries_perm display_inj limit_usize.
  apply inv_reachable in Hs as Hinv. destruct (all_complete s _ Hinv eq_refl) as (s' & Hrtc & Hps & Hsame).
  exists s'. destruct (inv_steps _ _ Hrtc Hinv) as [_ Hh Hc]. split_and!; [done..| |].
  - rewrite live_agents_length, (count_slots _ Hc). unfold slots. rewrite Hps, count_map_empty. f_equal. lia.
  - intros k m Hm. destruct (agent_id m) as [i|] eqn:Hid; [done|].
    destruct (holds_pending _ _ Hh k) as (i & p & (res & Hi & _) & _); [by exists m|].
    by rewrite Hps, lookup_empty in Hi.
Qed.

Lemma available_names_spec a names n :
  n ∈ available_names a names ↔
  (∃ name, name ∈ names ∧ n = format_agent_nickname name (nickname_reset_count a)) ∧
  n ∉ used_agent_nicknames a.
Proof using Type.
  unfold available_names. rewrite list_elem_of_In, filter_In, <- list_elem_of_In, list_elem_of_fmap, negb_true_iff,
    bool_decide_eq_false. naive_solver.
Qed.

(** A nickname is refused only when there is no preference and the pool is
    empty, and then nothing changes.  A preferred name is taken as it is.
    Otherwise the nickname is a formatted name of the pool that is not in use,
    unless all of them are: then the names in use are forgotten, the ordinal
    goes up, and the nickname carries the new ordinal.  The tree of agents is
    never touched. *)
Theorem reserve_agent_nickname_spec (choose : list rstring → option rstring) (a : ActiveAgents)
    (names : list rstring) (preferred : option rstring) (a' : ActiveAgents) (r : option rstring)
    (choose_some : ∀ l n, choose l = Some n → n ∈ l) (choose_none : ∀ l, choose l = None → l = [])
    (Hr : reserve_agent_nickname choose a names preferred = (a', r)) :
  agent_tree a' = agent_tree a ∧
  (r = None ↔ preferred = None ∧ names = []) ∧ (r = None → a' = a) ∧
  (∀ n, r = Some n →
    (preferred = Some n ∧ a' = use_nickname a n) ∨
    (preferred = None ∧
     ∃ name, name ∈ names ∧ n = format_agent_nickname name (nickname_reset_count a') ∧
      (((n ∉ used_agent_nicknames a) ∧ a' = use_nickname a n) ∨
       ((∀ x, x ∈ names → format_agent_nickname x (nickname_reset_count a) ∈ used_agent_nicknames a) ∧
        a' = use_nickname (reset_nicknames a) n)))).
Proof using Type.
  split; [by rewrite <- (reserve_agent_nickname_tree choose a names preferred), Hr|].
  unfold reserve_agent_nickname in Hr. destruct preferred as [p|]; [injection Hr as <- <-; naive_solver|].
  case_bool_decide as Hn; [injection Hr as <- <-; naive_solver|].
  destruct (choose (available_names a names)) as [n|] eqn:Hc.
  - injection Hr as <- <-. apply choose_some, available_names_spec in Hc as [(name & ? & ->) ?].
    split_and!; [naive_solver|done|]. intros n [= <-]. right. split; [done|]. exists name. naive_solver.
  - apply choose_none in Hc. destruct (choose names) as [name|] eqn:Hname; [|by apply choose_none in Hname].
    injection Hr as <- <-. apply choose_some in Hname. split_and!; [naive_solver|done|].
    intros n [= <-]. right. split; [done|]. exists name. split_and!; [done|done|]. right. split; [|done].
    intros x Hx. destruct (decide (format_agent_nickname x (nickname_reset_count a) ∈ used_agent_nicknames a)); [done|].
    exfalso. apply (not_elem_of_nil (format_agent_nickname x (nickname_reset_count a))).
    rewrite <- Hc. apply available_names_spec. naive_solver.
Qed.
End registry.

(** A session that spawned agents without a path, and is registered under its
    thread, may register itself as the root as well; it then has two entries
    and the release finds one of them, depending on the order of the map. *)
Definition alias_registry {ThreadId} (display : ThreadId → rstring) (thread_id : ThreadId) : AgentRegistry :=
  mk_registry (register_root_thread
    (register_spawned_thread display (active_agents registry_default)
      (mk_metadata (Some thread_id) None None None None)) thread_id) 1.

(** Two iteration orders: the root first, the root last. *)
Definition root_first {A} (m : gmap rstring A) : list (rstring * A) :=
  match m !! ROOT with Some x => (ROOT, x) :: map_to_list (delete ROOT m) | None => map_to_list m end.
Definition root_last {A} (m : gmap rstring A) : list (rstring * A) :=
  match m !! ROOT with Some x => map_to_list (delete ROOT m) ++ [(ROOT, x)] | None => map_to_list m end.

Lemma root_first_perm {A} (m : gmap rstring A) : root_first m ≡ₚ map_to_list m.
Proof. unfold root_first. destruct (m !! ROOT) eqn:E; [by apply map_to_list_delete|done]. Qed.
Lemma root_last_perm {A} (m : gmap rstring A) : root_last m ≡ₚ map_to_list m.
Proof.
  unfold root_last. destruct (m !! ROOT) eqn:E; [|done].
  rewrite <- Permutation_cons_append. by apply map_to_list_delete.
Qed.

Lemma alias_tree {ThreadId} (display : ThreadId → rstring) thread_id :
  agent_tree (active_agents (alias_registry display thread_id)) =
  <[ROOT := mk_metadata (Some thread_id) (Some root) None None None]>
    {[lit "thread:" ++ display thread_id := mk_metadata (Some thread_id) None None None None]}.
Proof.
  unfold alias_registry, register_root_thread. cbn [active_agents registry_default register_spawned_thread agent_id agent_tree agent_key agent_path].
  by rewrite lookup_insert_ne.
Qed.

(** A thread with two entries is released from the one the map yields
    first.  When that is the root entry, no slot is given back: the counter
    stays at one although the only spawned agent is gone, and the agent is
    still listed as live.  In the other order the release is complete. *)
Theorem root_alias_can_leak_slot {ThreadId} `{EqDecision ThreadId} (display : ThreadId → rstring) (thread_id : ThreadId) :
  (∀ A (m : gmap rstring A), root_first m ≡ₚ map_to_list m ∧ root_last m ≡ₚ map_to_list m) ∧
  (let r := release_spawned_thread root_first (alias_registry display thread_id) thread_id in
   total_count r = 1%N ∧ length (live_agents root_first (active_agents r)) = 1) ∧
  (let r := release_spawned_thread root_last (alias_registry display thread_id) thread_id in
   total_count r = 0%N ∧ length (live_agents root_last (active_agents r)) = 0).
Proof.
  split; [split; [apply root_first_perm|apply root_last_perm]|].
  pose proof (alias_tree display thread_id) as Ht.
  set (r := alias_registry display thread_id) in *. change (total_count r) with 1%N.
  set (key := lit "thread:" ++ display thread_id) in *. assert (ROOT ≠ key) as Hne by done.
  set (mr := mk_metadata _ (Some root) _ _ _) in *. set (mt := mk_metadata _ None _ _ _) in *.
  assert (has_id thread_id mr = true ∧ has_id thread_id mt = true) as [Hr Hm]
    by (split; by apply bool_decide_eq_true_2).
  assert (find_agent root_first (active_agents r) thread_id = Some (ROOT, mr)) as Hfirst.
  { unfold find_agent, root_first. rewrite Ht, lookup_insert_eq. cbn [List.find snd]. by rewrite Hr. }
  assert (find_agent root_last (active_agents r) thread_id = Some (key, mt)) as Hlast.
  { unfold find_agent, root_last. rewrite Ht, lookup_insert_eq, delete_insert_id by by rewrite lookup_singleton_ne.
    rewrite map_to_list_singleton. cbn [app List.find snd]. by rewrite Hm. }
  unfold release_spawned_thread, remove_agent. rewrite Hfirst, Hlast, Ht.
  rewrite lookup_insert_eq, lookup_insert_ne, lookup_singleton_eq by done.
  cbv zeta beta iota. cbn [total_count active_agents].
  rewrite (live_agents_length _ root_first_perm), (live_agents_length _ root_last_perm). cbn [set_tree agent_tree].
  rewrite delete_insert_id, delete_insert_ne, delete_singleton_eq by (done || by rewrite lookup_singleton_ne).
  change ({[key := mt]} : gmap rstring AgentMetadata) with (<[key := mt]> (∅ : gmap rstring (@AgentMetadata ThreadId))).
  by rewrite !count_map_fresh, count_map_empty by apply lookup_empty.
Qed.

(** ** Runs *)
Definition demo_display (n : nat) : rstring := replicate n 97%N.
#[local] Instance demo_display_inj : Inj (=) (=) demo_display.
Proof. intros m n Heq. apply (f_equal length) in Heq. unfold demo_display in Heq. by rewrite !length_replicate in Heq. Qed.
#[local] Abbreviation demo_step := (step demo_display map_to_list (Some 1%N)).

(** One thread takes the only slot; another that asks is refused. *)
Lemma spawn_slots_are_accounted_witness :
  ∃ s, rtc demo_step system_init s ∧ count s = 1%N ∧ count_map busy (procs s) = 1.
Proof.
  assert (Hex : ∃ s, rtc demo_step system_init s ∧ procs s = {[0 := Holding reservation_new]}).
  { eexists. split.
    - eapply rtc_l; [by apply (step_load _ _ _ _ 0 1%N); [|vm_compute|exists 1%N]|].
      eapply rtc_l; [by apply (step_exchange _ _ _ _ 0 1%N 0%N false 1%N (inl true))|].
      apply rtc_refl.
    - by vm_compute. }
  destruct Hex as (s & Hs & Hp). exists s. split; [done|].
  destruct (spawn_slots_are_accounted demo_display map_to_list (Some 1%N) (λ _, reflexivity _) _
    ltac:(by intros l [= <-]) s Hs) as (_ & Hl & _).
  destruct (Hl 1%N eq_refl) as [Hc Hle]. rewrite Hp in *.
  assert (count_map busy {[0 := Holding reservation_new]} = 1) as Hb by by vm_compute.
  rewrite Hb in *. split; [lia|done].
Defined.

Lemma registry_operations_complete_witness :
  ∃ s', rtc demo_step system_init s' ∧ procs s' = ∅.
Proof.
  destruct (registry_operations_complete demo_display map_to_list (Some 1%N) (λ _, reflexivity _) _
    ltac:(by intros l [= <-]) system_init (rtc_refl _ _)) as (s' & Hs & Hp & _).
  by exists s'.
Defined.

Lemma reserve_agent_nickname_spec_witness :
  ∃ a', reserve_agent_nickname (ThreadId := nat) head (mk_active ∅ {[lit "Ada"]} 0) [lit "Ada"] None =
    (a', Some (lit "Ada the 2nd")) ∧ agent_tree a' = ∅.
Proof.
  eexists. split; [by vm_compute|].
  eapply (reserve_agent_nickname_spec head (mk_active ∅ {[lit "Ada"]} 0) [lit "Ada"] None);
    [by intros [|x l] n [= <-]; constructor|by intros []|by vm_compute].
Defined.
