(* ===== verification/HeadTailBuffer.v ===== *)
(** * The capped output buffer of unified exec ([core/src/unified_exec/head_tail_buffer.rs])

    Output of a process, kept as a stable prefix and a moving suffix of chunks.
    Bytes are [Utf8.byte]; the byte counters are saturating [usize]s. *)
From S2P Require Import Prelude RustStr Utf8.
Local Open Scope N_scope.

Definition UNIFIED_EXEC_OUTPUT_MAX_BYTES : N := 1024 * 1024.

Record HeadTailBuffer := mk_buffer {
  max_bytes : N; head_budget : N; tail_budget : N;
  head : list (list byte); tail : list (list byte);
  head_bytes : N; tail_bytes : N; omitted_bytes : N }.

Definition len (c : list byte) : N := N.of_nat (length c).

Definition buffer_new (max : N) : HeadTailBuffer :=
  mk_buffer max (max / 2) (sat_sub max (max / 2)) [] [] 0 0 0.
Definition buffer_default : HeadTailBuffer := buffer_new UNIFIED_EXEC_OUTPUT_MAX_BYTES.

Definition retained_bytes (b : HeadTailBuffer) : N := sat_add (head_bytes b) (tail_bytes b).

Definition omit (b : HeadTailBuffer) (n : N) : HeadTailBuffer :=
  mk_buffer (max_bytes b) (head_budget b) (tail_budget b) (head b) (tail b)
    (head_bytes b) (tail_bytes b) (sat_add (omitted_bytes b) n).
Definition set_tail (b : HeadTailBuffer) (t : list (list byte)) (n : N) : HeadTailBuffer :=
  mk_buffer (max_bytes b) (head_budget b) (tail_budget b) (head b) t (head_bytes b) n (omitted_bytes b).
Definition push_head (b : HeadTailBuffer) (c : list byte) : HeadTailBuffer :=
  mk_buffer (max_bytes b) (head_budget b) (tail_budget b) (head b ++ [c]) (tail b)
    (sat_add (head_bytes b) (len c)) (tail_bytes b) (omitted_bytes b).

(** The [while excess > 0] loop, on the chunks of the tail: the tail, its byte
    counter and the omitted counter it leaves. *)
Fixpoint trim_loop (tail : list (list byte)) (excess bytes omitted : N) : list (list byte) * N * N :=
  if excess =? 0 then (tail, bytes, omitted)
  else match tail with
  | front :: rest =>
      if len front <=? excess then
        trim_loop rest (excess - len front) (sat_sub bytes (len front)) (sat_add omitted (len front))
      else (drop (N.to_nat excess) front :: rest, sat_sub bytes excess, sat_add omitted excess)
  | [] => ([], bytes, omitted)
  end.

Definition trim_tail_to_budget (b : HeadTailBuffer) : HeadTailBuffer :=
  let '(t, n, o) := trim_loop (tail b) (sat_sub (tail_bytes b) (tail_budget b)) (tail_bytes b) (omitted_bytes b) in
  mk_buffer (max_bytes b) (head_budget b) (tail_budget b) (head b) t (head_bytes b) n o.

Definition push_to_tail (b : HeadTailBuffer) (chunk : list byte) : HeadTailBuffer :=
  if tail_budget b =? 0 then omit b (len chunk)
  else if tail_budget b <=? len chunk then
    let kept := drop (N.to_nat (sat_sub (len chunk) (tail_budget b))) chunk in
    set_tail (omit (omit b (tail_bytes b)) (sat_sub (len chunk) (len kept))) [kept] (len kept)
  else trim_tail_to_budget (set_tail b (tail b ++ [chunk]) (sat_add (tail_bytes b) (len chunk))).

Definition push_chunk (b : HeadTailBuffer) (chunk : list byte) : HeadTailBuffer :=
  if max_bytes b =? 0 then omit b (len chunk)
  else if head_bytes b <? head_budget b then
    let remaining_head := sat_sub (head_budget b) (head_bytes b) in
    if len chunk <=? remaining_head then push_head b chunk
    else
      let head_part := take (N.to_nat remaining_head) chunk in
      let tail_part := drop (N.to_nat remaining_head) chunk in
      push_to_tail (if bool_decide (head_part = []) then b else push_head b head_part) tail_part
  else push_to_tail b chunk.

Definition snapshot_chunks (b : HeadTailBuffer) : list (list byte) := head b ++ tail b.
Definition to_bytes (b : HeadTailBuffer) : list byte := concat (head b) ++ concat (tail b).
Definition drain_chunks (b : HeadTailBuffer) : HeadTailBuffer * list (list byte) :=
  (mk_buffer (max_bytes b) (head_budget b) (tail_budget b) [] [] 0 0 0, head b ++ tail b).

(** ** The reference: all bytes pushed since the last drain *)

Lemma len_app a b : len (a ++ b) = len a + len b.
Proof. unfold len. rewrite length_app. lia. Qed.
Lemma len_take n c : len (take (N.to_nat n) c) = N.min n (len c).
Proof. unfold len. rewrite length_take. lia. Qed.
Lemma len_drop n c : len (drop (N.to_nat n) c) = len c - n.
Proof. unfold len. rewrite length_drop. lia. Qed.
Lemma len_lastn n c : len (lastn (N.to_nat n) c) = N.min n (len c).
Proof. unfold len. rewrite length_lastn. lia. Qed.
Lemma len_nil : len [] = 0.
Proof. done. Qed.
Create Rewrite HintDb bytes.
#[local] Hint Rewrite len_nil len_app len_take len_drop len_lastn : bytes.
Ltac bytes := unfold sat_add, sat_sub, usize_max in *; autorewrite with bytes in *; lia.

Lemma sat_add_0 o : o ≤ usize_max → sat_add o 0 = o.
Proof. intros. bytes. Qed.
Lemma sat_add_min a b : sat_add (N.min usize_max a) b = N.min usize_max (a + b).
Proof. unfold sat_add. lia. Qed.
Lemma sat_add_bound a b : sat_add a b ≤ usize_max.
Proof. bytes. Qed.

Lemma trim_tail_loop_spec t e n o :
  n = len (concat t) → e ≤ n → o ≤ usize_max →
  ∃ t', trim_loop t e n o = (t', n - e, sat_add o e) ∧ concat t' = drop (N.to_nat e) (concat t).
Proof.
  revert e n o. induction t as [|c t IH]; intros e n o Hn He Ho; cbn [trim_loop].
  { cbn in Hn. rewrite len_nil in Hn. exists []. replace e with 0 by lia. rewrite sat_add_0 by done. by subst. }
  destruct (N.eqb_spec e 0) as [->|Hne].
  { exists (c :: t). by rewrite sat_add_0, N.sub_0_r. }
  cbn [concat] in Hn |- *. rewrite len_app in Hn. destruct (N.leb_spec (len c) e) as [Hle|Hlt].
  - destruct (IH (e - len c) (sat_sub n (len c)) (sat_add o (len c))) as (t' & -> & Ht');
      [bytes|bytes|apply sat_add_bound|].
    exists t'. rewrite sat_add_assoc. unfold sat_sub. split; [do 2 f_equal; [lia|f_equal; lia]|].
    rewrite Ht', drop_app_ge by (unfold len in *; lia). f_equal. unfold len. lia.
  - exists (drop (N.to_nat e) c :: t). split; [done|].
    cbn [concat]. by rewrite drop_app_le by (unfold len in *; lia).
Qed.

Definition with_tail (b : HeadTailBuffer) (t : list (list byte)) (dropped : N) : HeadTailBuffer :=
  mk_buffer (max_bytes b) (head_budget b) (tail_budget b) (head b) t (head_bytes b) (len (concat t))
    (sat_add (omitted_bytes b) dropped).

Lemma push_to_tail_spec b chunk :
  tail_budget b ≠ 0 → 2 * tail_budget b ≤ usize_max + 1 → omitted_bytes b ≤ usize_max →
  tail_bytes b = len (concat (tail b)) → tail_bytes b ≤ tail_budget b →
  ∃ t, concat t = lastn (N.to_nat (tail_budget b)) (concat (tail b) ++ chunk) ∧
    push_to_tail b chunk = with_tail b t (len (concat (tail b)) + len chunk - len (concat t)).
Proof.
  intros H0 Hmax Ho Ht Hle. unfold push_to_tail. rewrite (proj2 (N.eqb_neq _ _) H0).
  destruct (N.leb_spec (tail_budget b) (len chunk)) as [Hbig|Hsmall].
  - exists [drop (N.to_nat (sat_sub (len chunk) (tail_budget b))) chunk]. cbn [concat].
    rewrite app_nil_r. split.
    + rewrite lastn_app_le by (unfold len in *; lia). unfold lastn, sat_sub, len. f_equal. lia.
    + unfold set_tail, omit, with_tail. cbn. rewrite app_nil_r, sat_add_assoc.
      f_equal. f_equal. bytes.
  - unfold trim_tail_to_budget, set_tail. cbn.
    assert (sat_add (tail_bytes b) (len chunk) = len (concat (tail b) ++ chunk)) as ->
      by bytes.
    destruct (trim_tail_loop_spec (tail b ++ [chunk]) (len (concat (tail b) ++ chunk) - tail_budget b)
      (len (concat (tail b) ++ chunk)) (omitted_bytes b)) as (t & Heq & Hc);
      [by rewrite concat_app; cbn; rewrite app_nil_r|lia|done|].
    unfold sat_sub. rewrite Heq. exists t. rewrite concat_app in Hc. cbn in Hc. rewrite app_nil_r in Hc.
    split; [rewrite Hc; unfold lastn, len; f_equal; lia|].
    unfold with_tail. rewrite Hc. f_equal; [bytes|f_equal; bytes].
Qed.

Section refinement.
Context (max : N) (Hmax : max ≤ usize_max).
Let h := max / 2.
Let t := max - max / 2.

Lemma budgets : h + t = max ∧ 2 * t ≤ usize_max + 1 ∧ (max ≠ 0 → t ≠ 0).
Proof.
  pose proof (N.div_mod max 2 ltac:(done)) as Hd. pose proof (N.mod_lt max 2 ltac:(done)) as Hr.
  subst h t. revert Hmax Hd Hr. change usize_max with 18446744073709551615.
  generalize (max / 2) (max mod 2). lia.
Qed.

(** [refines b s]: [b] is what is left of the output [s]. *)
Record refines (b : HeadTailBuffer) (s : list byte) : Prop := {
  ref_config : max_bytes b = max ∧ head_budget b = h ∧ tail_budget b = t;
  ref_head : concat (head b) = take (N.to_nat h) s;
  ref_tail : concat (tail b) = lastn (N.to_nat t) (drop (N.to_nat h) s);
  ref_head_bytes : head_bytes b = len (concat (head b));
  ref_tail_bytes : tail_bytes b = len (concat (tail b));
  ref_omitted : omitted_bytes b = N.min usize_max (len s - N.min max (len s)) }.

Lemma refines_new : refines (buffer_new max) [].
Proof. split; cbn; try done; by rewrite ?take_nil, ?drop_nil. Qed.

Lemma refines_tail b s chunk :
  refines b s → max ≠ 0 → h ≤ len s → refines (push_to_tail b chunk) (s ++ chunk).
Proof.
  intros [(Hm & Hh & Ht) Hhead Htail Hhb Htb Ho] H0 Hs. pose proof budgets as (Hb1 & Hb2 & Ht0).
  destruct (push_to_tail_spec b chunk) as (t' & Hc & ->);
    rewrite ?Ht, ?Ho, ?Htb, ?Htail; [tauto|lia|lia|done|rewrite len_lastn; lia|].
  rewrite Ht, Htail, lastn_lastn_app in Hc.
  rewrite <- drop_app_le in Hc by (unfold len in Hs; lia).
  split; cbn; [done| |done|done|by rewrite Hc|].
  - rewrite Hhead, take_app_le; [done|]. unfold len in Hs; lia.
  - rewrite Hc, Ho, sat_add_min. f_equal. revert Hb1 Hs. clear. clearbody h t. intros. bytes.
Qed.

Lemma refines_head b s chunk :
  refines b s → len s + len chunk ≤ h → refines (push_head b chunk) (s ++ chunk).
Proof.
  intros [(Hm & Hh & Ht) Hhead Htail Hhb Htb Ho] Hs. pose proof budgets as (Hb1 & Hb2 & _).
  assert (concat (head b ++ [chunk]) = take (N.to_nat h) (s ++ chunk)) as Hc.
  { rewrite concat_app, Hhead. cbn. unfold len in Hs.
    rewrite app_nil_r, !take_ge by (rewrite ?length_app; lia). done. }
  split; cbn; [done|done| | |by rewrite Htb|].
  - rewrite Htail. by rewrite !drop_ge by (rewrite ?length_app; unfold len in Hs; lia).
  - rewrite Hc, Hhb, Hhead. bytes.
  - rewrite Ho. f_equal. clear Ho Hb2. bytes.
Qed.

Lemma refines_push b s chunk : refines b s → refines (push_chunk b chunk) (s ++ chunk).
Proof.
  intros Hr. pose proof Hr as [(Hm & Hh & Ht) Hhead Htail Hhb Htb Ho]. pose proof budgets as (Hb1 & Hb2 & _).
  unfold push_chunk. rewrite Hm, Hh. destruct (N.eqb_spec max 0) as [H0|H0].
  { assert (h = 0 ∧ t = 0) as [Hh0 Ht0] by lia.
    split; cbn; [done| | |done|done|rewrite Ho; bytes].
    - rewrite Hhead, Hh0. done.
    - rewrite Htail, Ht0. unfold lastn. by rewrite !drop_ge by (rewrite ?length_drop; lia). }
  rewrite Hhb, Hhead, len_take. destruct (N.ltb_spec (N.min h (len s)) h) as [Hlt|Hge];
    [|apply refines_tail; [done..|lia]].
  destruct (N.leb_spec (len chunk) (sat_sub h (N.min h (len s)))) as [Hfit|Hsplit]; unfold sat_sub in *.
  { apply refines_head; [done|lia]. }
  replace (N.min h (len s)) with (len s) in * by lia.
  rewrite bool_decide_eq_false_2.
  - rewrite <- (take_drop (N.to_nat (h - len s)) chunk) at 3. rewrite app_assoc.
    apply refines_tail; [|done|bytes]. apply refines_head; [done|bytes].
  - intros Hnil. apply (f_equal len) in Hnil. rewrite len_take, len_nil in Hnil. lia.
Qed.

Lemma refines_pushes chunks b s :
  refines b s → refines (foldl push_chunk b chunks) (s ++ concat chunks).
Proof.
  revert b s. induction chunks as [|c chunks IH]; intros b s Hr; cbn; [by rewrite app_nil_r|].
  rewrite app_assoc. by apply IH, refines_push.
Qed.

(** Whatever the chunks, the buffer holds the first [max / 2] bytes of the
    output followed by the last [max - max / 2] bytes of the rest, so never
    more than [max] bytes and everything when the output fits; its counters are
    exact (the omitted count saturates at [usize::MAX]); and draining returns
    the chunks of the retained bytes and leaves the new buffer. *)
Theorem buffer_keeps_both_ends (chunks : list (list byte)) :
  let b := foldl push_chunk (buffer_new max) chunks in
  let s := concat chunks in
  to_bytes b = take (N.to_nat h) s ++ lastn (N.to_nat t) (drop (N.to_nat h) s) ∧
  len (to_bytes b) = N.min max (len s) ∧
  (len s ≤ max → to_bytes b = s) ∧
  retained_bytes b = len (to_bytes b) ∧
  omitted_bytes b = N.min usize_max (len s - len (to_bytes b)) ∧
  concat (snapshot_chunks b) = to_bytes b ∧
  drain_chunks b = (buffer_new max, snapshot_chunks b).
Proof.
  cbv zeta. set (s := concat chunks). pose proof budgets as (Hht & _ & _).
  destruct (refines_pushes chunks _ _ refines_new) as [(Hm & Hh & Ht) Hhead Htail Hhb Htb Ho].
  cbn [app] in *. fold s in Hhead, Htail, Ho.
  set (b := foldl _ _ _) in *.
  assert (to_bytes b = take (N.to_nat h) s ++ lastn (N.to_nat t) (drop (N.to_nat h) s)) as Hb
    by (unfold to_bytes; by rewrite Hhead, Htail).
  assert (len (to_bytes b) = N.min max (len s)) as Hlen by (rewrite Hb; bytes).
  split_and!; [done|done| | | | |].
  - intros Hs. rewrite Hb, lastn_all by (rewrite length_drop; unfold len in Hs; lia). apply take_drop.
  - unfold retained_bytes. rewrite Hhb, Htb, Hlen, Hhead, Htail. bytes.
  - by rewrite Hlen.
  - apply concat_app.
  - unfold drain_chunks, buffer_new, snapshot_chunks. by rewrite Hm, Hh, Ht.
Qed.
End refinement.

Lemma buffer_keeps_both_ends_witness :
  to_bytes (foldl push_chunk (buffer_new 5) [[1; 2; 3]; [4; 5]; [6]; [7; 8]]) = [1; 2; 6; 7; 8].
Proof.
  destruct (buffer_keeps_both_ends 5 ltac:(by vm_compute) [[1; 2; 3]; [4; 5]; [6]; [7; 8]]) as [-> _].
  by vm_compute.
Defined.
