(* ===== verification/Permissions.v ===== *)
(** * File-system permissions ([protocol/src/permissions.rs])

    The permission profile of a session: entries that grant or deny access to
    paths, special locations and glob patterns, and how they resolve to the
    access of a concrete path.  The environment ([Env]) is what the code asks
    the operating system. *)
From S2P Require Import Prelude RustStr RustPath AbsolutePath.

(** ** What the code asks of the operating system *)
Record Env := mk_env {
  home_dir : option rstring;
  current_dir : outcome PathError rstring;
  tmpdir_var : option rstring;
  is_dir : rstring → bool;
  is_file : rstring → bool;
  path_exists : rstring → bool;
  symlink_metadata_ok : rstring → bool;
  is_symlink : rstring → bool;
  canonicalize : rstring → outcome PathError rstring;
  read_to_string : rstring → option rstring }.

(** ** [Path] methods on components *)
Definition path_starts_with (p base : rstring) : bool := bool_decide (components base `prefix_of` components p).
Definition path_strip_prefix (p base : rstring) : option (list Component) :=
  if path_starts_with p base then Some (drop (length (components base)) (components p)) else None.
Definition path_eqb (p q : rstring) : bool := bool_decide (path_eq p q).
Definition opt_path_eqb (p q : option rstring) : bool :=
  match p, q with
  | Some p, Some q => path_eqb p q
  | None, None => true
  | _, _ => false
  end.
Definition ok {E A} (m : outcome E A) : option A := match m with Ok a => Some a | _ => None end.

(** ** Data *)
Inductive NetworkSandboxPolicy := NetRestricted | NetEnabled.
Definition net_is_enabled (n : NetworkSandboxPolicy) : bool := match n with NetEnabled => true | _ => false end.

Inductive FileSystemAccessMode := Read | Write | Deny.
#[global] Instance FileSystemAccessMode_eq_dec : EqDecision FileSystemAccessMode.
Proof. solve_decision. Defined.
(** The derived [Ord]. *)
Definition access_rank (a : FileSystemAccessMode) : nat := match a with Read => 0 | Write => 1 | Deny => 2 end.
Definition can_read (a : FileSystemAccessMode) : bool := match a with Deny => false | _ => true end.
Definition can_write (a : FileSystemAccessMode) : bool := match a with Write => true | _ => false end.

Inductive FileSystemSpecialPath :=
| Root | Minimal | ProjectRoots (subpath : option rstring) | Tmpdir | SlashTmp
| Unknown (path : rstring) (subpath : option rstring).
Inductive FileSystemPath :=
| PathEntry (path : rstring) | GlobPattern (pattern : rstring) | Special (value : FileSystemSpecialPath).

Record FileSystemSandboxEntry := mk_entry { e_path : FileSystemPath; e_access : FileSystemAccessMode }.
Inductive FileSystemSandboxKind := KRestricted | KUnrestricted | KExternalSandbox.
#[global] Instance FileSystemSandboxKind_eq_dec : EqDecision FileSystemSandboxKind.
Proof. solve_decision. Defined.
Record FileSystemSandboxPolicy := mk_policy {
  kind : FileSystemSandboxKind; glob_scan_max_depth : option N; entries : list FileSystemSandboxEntry }.
Record ResolvedFileSystemEntry := mk_resolved { r_path : rstring; r_access : FileSystemAccessMode }.

Definition is_restricted (p : FileSystemSandboxPolicy) : bool := bool_decide (kind p = KRestricted).
Definition is_deny (e : FileSystemSandboxEntry) : bool := bool_decide (e_access e = Deny).

(** The derived [PartialEq]s: paths are compared by components. *)
Definition special_paths_share_target (left right : FileSystemSpecialPath) : bool :=
  match left, right with
  | Root, Root | Minimal, Minimal | Tmpdir, Tmpdir | SlashTmp, SlashTmp => true
  | ProjectRoots l, ProjectRoots r => opt_path_eqb l r
  | Unknown l ls, Unknown r rs => bool_decide (l = r) && opt_path_eqb ls rs
  | _, _ => false
  end.
Definition fs_path_eqb (left right : FileSystemPath) : bool :=
  match left, right with
  | PathEntry l, PathEntry r => path_eqb l r
  | GlobPattern l, GlobPattern r => bool_decide (l = r)
  | Special l, Special r => special_paths_share_target l r
  | _, _ => false
  end.
Definition entry_eqb (a b : FileSystemSandboxEntry) : bool :=
  fs_path_eqb (e_path a) (e_path b) && bool_decide (e_access a = e_access b).

Definition unrestricted : FileSystemSandboxPolicy := mk_policy KUnrestricted None [].
Definition external_sandbox : FileSystemSandboxPolicy := mk_policy KExternalSandbox None [].
Definition restricted (es : list FileSystemSandboxEntry) : FileSystemSandboxPolicy := mk_policy KRestricted None es.
Definition policy_default : FileSystemSandboxPolicy := restricted [mk_entry (Special Root) Read].
Definition with_entries (p : FileSystemSandboxPolicy) (es : list FileSystemSandboxEntry) : FileSystemSandboxPolicy :=
  mk_policy (kind p) (glob_scan_max_depth p) es.

(** ** Protected metadata *)
Definition DOT_GIT : rstring := lit ".git".
Definition DOT_AGENTS : rstring := lit ".agents".
Definition DOT_CODEX : rstring := lit ".codex".
Definition PROTECTED_METADATA_PATH_NAMES : list rstring := [DOT_GIT; DOT_AGENTS; DOT_CODEX].
Definition metadata_path_name (name : rstring) : option rstring :=
  List.find (λ m, bool_decide (name = m)) PROTECTED_METADATA_PATH_NAMES.
Definition is_protected_metadata_name (name : rstring) : bool :=
  existsb (λ m, bool_decide (name = m)) PROTECTED_METADATA_PATH_NAMES.
Definition is_protected_metadata_directory_name (name : rstring) : bool :=
  bool_decide (name = DOT_AGENTS) || bool_decide (name = DOT_CODEX).

(** ** Which entries narrow or grant the whole disk *)
Definition special_path_matches_absolute_path (value : FileSystemSpecialPath) (path : rstring) : bool :=
  match value with
  | Root => bool_decide (parent path = None)
  | SlashTmp => path_eqb path (lit "/tmp")
  | _ => false
  end.
Definition file_system_paths_share_target (left right : FileSystemPath) : bool :=
  match left, right with
  | PathEntry l, PathEntry r => path_eqb l r
  | Special l, Special r => special_paths_share_target l r
  | PathEntry path, Special value | Special value, PathEntry path => special_path_matches_absolute_path value path
  | GlobPattern l, GlobPattern r => bool_decide (l = r)
  | GlobPattern _, _ | _, GlobPattern _ => false
  end.

Definition has_root_access (predicate : FileSystemAccessMode → bool) (p : FileSystemSandboxPolicy) : bool :=
  is_restricted p && existsb (λ e, match e_path e with Special Root => predicate (e_access e) | _ => false end) (entries p).
Definition has_denied_read_restrictions (p : FileSystemSandboxPolicy) : bool :=
  is_restricted p && existsb is_deny (entries p).
Definition has_same_target_write_override (p : FileSystemSandboxPolicy) (entry : FileSystemSandboxEntry) : bool :=
  existsb (λ c, can_write (e_access c) && (access_rank (e_access entry) <? access_rank (e_access c))
                && file_system_paths_share_target (e_path c) (e_path entry)) (entries p).
Definition narrows_write (p : FileSystemSandboxPolicy) (entry : FileSystemSandboxEntry) : bool :=
  if can_write (e_access entry) then false
  else match e_path entry with
  | PathEntry _ => negb (has_same_target_write_override p entry)
  | GlobPattern _ => true
  | Special Root => is_deny entry
  | Special Minimal | Special (Unknown _ _) => false
  | Special _ => negb (has_same_target_write_override p entry)
  end.
Definition has_write_narrowing_entries (p : FileSystemSandboxPolicy) : bool :=
  is_restricted p && existsb (narrows_write p) (entries p).
Definition has_full_disk_read_access (p : FileSystemSandboxPolicy) : bool :=
  match kind p with
  | KUnrestricted | KExternalSandbox => true
  | KRestricted => has_root_access can_read p && negb (has_denied_read_restrictions p)
  end.
Definition has_full_disk_write_access (p : FileSystemSandboxPolicy) : bool :=
  match kind p with
  | KUnrestricted | KExternalSandbox => true
  | KRestricted => has_root_access can_write p && negb (has_write_narrowing_entries p)
  end.
Definition include_platform_defaults (p : FileSystemSandboxPolicy) : bool :=
  negb (has_full_disk_read_access p) && is_restricted p &&
  existsb (λ e, match e_path e with Special Minimal => can_read (e_access e) | _ => false end) (entries p).

(** ** Resolution *)
Section permissions.
Context (E : Env).
Definition from_absolute (path : rstring) : option rstring :=
  ok (from_absolute_path (home_dir E) (current_dir E) path).
Definition resolve_against (path base : rstring) : rstring := resolve_path_against_base (home_dir E) path base.
Definition path_join (self path : rstring) : rstring := join (home_dir E) self path.

(** The two panics need a path without a root, or one whose root is not
    absolute: [absolute_root_path_ok]. *)
Definition absolute_root_path_for_cwd (cwd : rstring) : outcome PathError rstring :=
  match last (ancestors cwd) with
  | None => Panic
  | Some r =>
      match from_absolute_path (home_dir E) (current_dir E) r with
      | Ok q => Ok q
      | _ => Panic
      end
  end.

Definition resolve_file_system_special_path (value : FileSystemSpecialPath) (cwd : option rstring) : option rstring :=
  match value with
  | Root | Minimal | Unknown _ _ => None
  | ProjectRoots subpath =>
      cwd ← cwd;
      match subpath with
      | Some subpath => Some (resolve_against subpath cwd)
      | None => Some cwd
      end
  | Tmpdir =>
      tmpdir ← tmpdir_var E;
      if decide (tmpdir = []) then None else from_absolute tmpdir
  | SlashTmp =>
      slash_tmp ← from_absolute (lit "/tmp");
      if is_dir E slash_tmp then Some slash_tmp else None
  end.
Definition resolve_file_system_path (path : FileSystemPath) (cwd : option rstring) : option rstring :=
  match path with
  | PathEntry path => Some path
  | GlobPattern _ => None
  | Special value => resolve_file_system_special_path value cwd
  end.
Definition resolve_entry_path (path : FileSystemPath) (cwd : option rstring) : option rstring :=
  match path with
  | Special Root => cwd ≫= λ cwd, ok (absolute_root_path_for_cwd cwd)
  | _ => resolve_file_system_path path cwd
  end.
Definition resolve_entry (cwd : option rstring) (e : FileSystemSandboxEntry) : option ResolvedFileSystemEntry :=
  (λ path, mk_resolved path (e_access e)) <$> resolve_entry_path (e_path e) cwd.
Definition resolved_entries_with_cwd (p : FileSystemSandboxPolicy) (cwd : rstring) : list ResolvedFileSystemEntry :=
  omap (resolve_entry (from_absolute cwd)) (entries p).

Definition resolve_candidate_path (path cwd : rstring) : option rstring :=
  if is_absolute path then from_absolute path
  else cwd ← from_absolute cwd; Some (path_join cwd path).

(** The key of [max_by_key], and its order: components, then access. *)
Definition resolved_entry_precedence (e : ResolvedFileSystemEntry) : nat * nat :=
  (length (components (r_path e)), access_rank (r_access e)).
Definition precedence_le (a b : nat * nat) : bool :=
  (a.1 <? b.1) || ((a.1 =? b.1) && (a.2 <=? b.2)).
(** [Iterator::max_by_key] returns the last of the greatest elements. *)
Definition max_by_precedence (l : list ResolvedFileSystemEntry) : option ResolvedFileSystemEntry :=
  foldl (λ best e, match best with
                   | None => Some e
                   | Some b => if precedence_le (resolved_entry_precedence b) (resolved_entry_precedence e)
                               then Some e else Some b
                   end) None l.

Definition resolve_access_with_cwd (p : FileSystemSandboxPolicy) (path cwd : rstring) : FileSystemAccessMode :=
  match kind p with
  | KUnrestricted | KExternalSandbox => Write
  | KRestricted =>
      match resolve_candidate_path path cwd with
      | None => Deny
      | Some path =>
          match max_by_precedence (List.filter (λ e, path_starts_with path (r_path e)) (resolved_entries_with_cwd p cwd)) with
          | Some e => r_access e
          | None => Deny
          end
      end
  end.
Definition can_read_path_with_cwd (p : FileSystemSandboxPolicy) (path cwd : rstring) : bool :=
  can_read (resolve_access_with_cwd p path cwd).

(** Protected metadata of the first write entry that has [target] below it. *)
Definition metadata_child (target : rstring) (e : ResolvedFileSystemEntry) : option (rstring * rstring) :=
  if can_write (r_access e) then
    relative_path ← path_strip_prefix target (r_path e);
    first_component ← head relative_path;
    metadata_name ← metadata_path_name (as_os_str first_component);
    Some (path_join (r_path e) metadata_name, metadata_name)
  else None.
Definition metadata_child_of_writable_root (p : FileSystemSandboxPolicy) (target cwd : rstring) : option (rstring * rstring) :=
  head (omap (metadata_child target) (resolved_entries_with_cwd p cwd)).
Definition has_explicit_write_entry_for_metadata_path (p : FileSystemSandboxPolicy)
    (protected_metadata_path target cwd : rstring) : bool :=
  existsb (λ e, can_write (r_access e) && path_starts_with target (r_path e)
                && path_starts_with (r_path e) protected_metadata_path) (resolved_entries_with_cwd p cwd).
Definition is_metadata_write_denied (p : FileSystemSandboxPolicy) (path cwd : rstring) : bool :=
  if is_restricted p then
    match resolve_candidate_path path cwd with
    | None => true
    | Some target =>
        match metadata_child_of_writable_root p target cwd with
        | None => false
        | Some (protected_metadata_path, _) =>
            negb (has_explicit_write_entry_for_metadata_path p protected_metadata_path target cwd)
        end
    end
  else false.
Definition can_write_path_with_cwd (p : FileSystemSandboxPolicy) (path cwd : rstring) : bool :=
  if can_write (resolve_access_with_cwd p path cwd) then
    if has_full_disk_write_access p then true else negb (is_metadata_write_denied p path cwd)
  else false.

Definition forbidden_agent_metadata_write (path cwd : rstring) (p : FileSystemSandboxPolicy) : option rstring :=
  if is_restricted p then
    target ← resolve_candidate_path path cwd;
    '(protected_metadata_path, metadata_name) ← metadata_child_of_writable_root p target cwd;
    if has_explicit_write_entry_for_metadata_path p protected_metadata_path target cwd then None
    else if can_write_path_with_cwd p target cwd then None else Some metadata_name
  else None.

(** ** Building and changing policies *)
(** [push] of every deny entry that is not there yet. *)
Definition push_deny_entries (es deny : list FileSystemSandboxEntry) : list FileSystemSandboxEntry :=
  foldl (λ acc d, if existsb (λ e, entry_eqb e d) acc then acc else acc ++ [d]) es deny.
Definition preserve_deny_read_restrictions_from (p existing : FileSystemSandboxPolicy) : FileSystemSandboxPolicy :=
  let p := if bool_decide (kind p = KUnrestricted) && existsb is_deny (entries existing)
           then restricted [mk_entry (Special Root) Write] else p in
  if is_restricted p then
    mk_policy (kind p) (match glob_scan_max_depth p with Some d => Some d | None => glob_scan_max_depth existing end)
      (push_deny_entries (entries p) (List.filter is_deny (entries existing)))
  else p.

Definition append_default_read_only_entry_if_no_explicit_rule (es : list FileSystemSandboxEntry) (path : FileSystemPath) :
    list FileSystemSandboxEntry :=
  if existsb (λ e, file_system_paths_share_target (e_path e) path) es then es else es ++ [mk_entry path Read].
Definition append_default_read_only_path_if_no_explicit_rule es (path : rstring) :=
  append_default_read_only_entry_if_no_explicit_rule es (PathEntry path).
Definition append_default_read_only_project_root_subpath_if_no_explicit_rule es (subpath : rstring) :=
  append_default_read_only_entry_if_no_explicit_rule es (Special (ProjectRoots (Some subpath))).

Definition dedup_absolute_paths (normalize : rstring → rstring) (paths : list rstring) : list rstring :=
  foldl (λ deduped path, let path := normalize path in
           if existsb (path_eqb path) deduped then deduped else deduped ++ [path]) [] paths.

(** The loop over [ancestors]; the first one that exists and can be resolved decides. *)
Definition effective_via (raw_path ancestor : rstring) : option rstring :=
  if symlink_metadata_ok E ancestor then
    normalized_ancestor ← ok (canonicalize_preserving_symlinks (home_dir E) (current_dir E) (canonicalize E) (is_symlink E) ancestor);
    suffix ← path_strip_prefix raw_path ancestor;
    from_absolute (push normalized_ancestor (render suffix))
  else None.
Definition normalize_effective_absolute_path (path : rstring) : rstring :=
  default path (head (omap (effective_via path) (ancestors path))).

Definition is_git_pointer_file (path : rstring) : bool :=
  is_file E path && bool_decide (file_name path = Some DOT_GIT).
Definition colon : char := 58.
Definition resolve_gitdir_from_file (dot_git : rstring) : option rstring :=
  contents ← read_to_string E dot_git;
  let trimmed := trim contents in
  i ← find [colon] trimmed;
  if decide (trim (take i trimmed) = lit "gitdir") then
    let gitdir_raw := trim (drop (S i) trimmed) in
    if decide (gitdir_raw = []) then None
    else base ← parent dot_git;
         let gitdir_path := resolve_against gitdir_raw base in
         if path_exists E gitdir_path then Some gitdir_path else None
  else None.

Definition default_read_only_subpaths_for_writable_root (writable_root : rstring) (protect_missing_dot_codex : bool) : list rstring :=
  let top_level_git := path_join writable_root DOT_GIT in
  let git := if is_dir E top_level_git || is_file E top_level_git then
      (if is_file E top_level_git && is_git_pointer_file top_level_git
       then option_list (resolve_gitdir_from_file top_level_git) else []) ++ [top_level_git]
    else [] in
  let top_level_agents := path_join writable_root DOT_AGENTS in
  let agents := if is_dir E top_level_agents then [top_level_agents] else [] in
  let top_level_codex := path_join writable_root DOT_CODEX in
  let codex := if protect_missing_dot_codex || is_dir E top_level_codex then [top_level_codex] else [] in
  dedup_absolute_paths id (git ++ agents ++ codex).

Definition append_protected_subpaths (es : list FileSystemSandboxEntry) (root : rstring) (protect_missing_dot_codex : bool) :
    list FileSystemSandboxEntry :=
  foldl append_default_read_only_path_if_no_explicit_rule es
    (default_read_only_subpaths_for_writable_root root protect_missing_dot_codex).

(** The entries [workspace_write] and the legacy runtimes start from. *)
Definition workspace_entries (writable_roots : list rstring) (exclude_tmpdir_env_var exclude_slash_tmp : bool) :
    list FileSystemSandboxEntry :=
  [mk_entry (Special Root) Read; mk_entry (Special (ProjectRoots None)) Write]
  ++ (if exclude_slash_tmp then [] else [mk_entry (Special SlashTmp) Write])
  ++ (if exclude_tmpdir_env_var then [] else [mk_entry (Special Tmpdir) Write])
  ++ ((λ path, mk_entry (PathEntry path) Write) <$> writable_roots).
Definition workspace_write (writable_roots : list rstring) (exclude_tmpdir_env_var exclude_slash_tmp : bool) :
    FileSystemSandboxPolicy :=
  let es := workspace_entries writable_roots exclude_tmpdir_env_var exclude_slash_tmp in
  let es := foldl append_default_read_only_project_root_subpath_if_no_explicit_rule es
              [DOT_GIT; DOT_AGENTS; DOT_CODEX] in
  restricted (foldl (λ es root, append_protected_subpaths es root false) es writable_roots).

(** ** Workspace roots *)
Definition PROJECT_ROOTS_GLOB_PATTERN_PREFIX : rstring := lit "codex-project-roots://".
Definition project_roots_glob_pattern (subpath : rstring) : rstring := PROJECT_ROOTS_GLOB_PATTERN_PREFIX ++ subpath.
Definition parse_project_roots_glob_pattern (pattern : rstring) : option rstring :=
  strip_prefix PROJECT_ROOTS_GLOB_PATTERN_PREFIX pattern.
Definition resolve_project_roots_glob_pattern (subpath root : rstring) : rstring := resolve_against subpath root.

Definition materialize_entry (cwd : option rstring) (e : FileSystemSandboxEntry) : FileSystemSandboxEntry :=
  match e_path e with
  | Special (ProjectRoots _) =>
      match resolve_file_system_path (e_path e) cwd with
      | Some path => mk_entry (PathEntry path) (e_access e)
      | None => e
      end
  | GlobPattern pattern =>
      match cwd, parse_project_roots_glob_pattern pattern with
      | Some cwd, Some subpath => mk_entry (GlobPattern (resolve_project_roots_glob_pattern subpath cwd)) (e_access e)
      | _, _ => e
      end
  | Special _ | PathEntry _ => e
  end.
Definition materialize_project_roots_with_cwd (p : FileSystemSandboxPolicy) (cwd : rstring) : FileSystemSandboxPolicy :=
  with_entries p (materialize_entry (from_absolute cwd) <$> entries p).

Definition materialize_for_roots (workspace_roots : list rstring) (e : FileSystemSandboxEntry) : list FileSystemSandboxEntry :=
  match e_path e with
  | Special (ProjectRoots subpath) =>
      (λ root, mk_entry (PathEntry (match subpath with Some s => resolve_against s root | None => root end)) (e_access e))
        <$> workspace_roots
  | GlobPattern pattern =>
      match parse_project_roots_glob_pattern pattern with
      | Some subpath => (λ root, mk_entry (GlobPattern (resolve_project_roots_glob_pattern subpath root)) (e_access e)) <$> workspace_roots
      | None => [e]
      end
  | PathEntry _ | Special _ => [e]
  end.
Definition materialize_project_roots_with_workspace_roots (p : FileSystemSandboxPolicy) (workspace_roots : list rstring) :
    FileSystemSandboxPolicy :=
  with_entries p (entries p ≫= materialize_for_roots workspace_roots).
Definition with_materialized_project_roots_for_workspace_roots (p : FileSystemSandboxPolicy) (workspace_roots : list rstring) :
    FileSystemSandboxPolicy :=
  with_entries p
    (foldl (λ acc e, if existsb (entry_eqb e) acc then acc else acc ++ [e]) (entries p)
       (entries (materialize_project_roots_with_workspace_roots p workspace_roots))).

(** ** Additional roots *)
Definition add_readable_root (cwd : rstring) (p : FileSystemSandboxPolicy) (path : rstring) : FileSystemSandboxPolicy :=
  if can_read_path_with_cwd p path cwd then p else with_entries p (entries p ++ [mk_entry (PathEntry path) Read]).
Definition with_additional_readable_roots (p : FileSystemSandboxPolicy) (cwd : rstring) (roots : list rstring) : FileSystemSandboxPolicy :=
  if has_full_disk_read_access p then p else foldl (add_readable_root cwd) p roots.
Definition add_writable_root (cwd : rstring) (p : FileSystemSandboxPolicy) (path : rstring) : FileSystemSandboxPolicy :=
  if can_write_path_with_cwd p path cwd then p else with_entries p (entries p ++ [mk_entry (PathEntry path) Write]).
Definition with_additional_writable_roots (p : FileSystemSandboxPolicy) (cwd : rstring) (roots : list rstring) : FileSystemSandboxPolicy :=
  foldl (add_writable_root cwd) p roots.
Definition add_legacy_root (es : list FileSystemSandboxEntry) (path : rstring) : list FileSystemSandboxEntry :=
  let es := if existsb (λ e, can_write (e_access e) &&
                          match e_path e with PathEntry existing => path_eqb existing path | _ => false end) es
            then es else es ++ [mk_entry (PathEntry path) Write] in
  append_protected_subpaths es path false.
Definition with_additional_legacy_workspace_writable_roots (p : FileSystemSandboxPolicy) (roots : list rstring) : FileSystemSandboxPolicy :=
  if is_restricted p then with_entries p (foldl add_legacy_root (entries p) roots) else p.

(** ** Lemmas: resolution *)

(** [covers t e]: the target is the path of the entry or below it. *)
Definition covers (t : rstring) (e : ResolvedFileSystemEntry) : Prop :=
  components (r_path e) `prefix_of` components t.
(** [decides l t e]: [e] is the most specific entry of [l] for the target, the
    strictest one ([Deny], then [Write], then [Read]) if several name its path. *)
Definition decides (l : list ResolvedFileSystemEntry) (t : rstring) (e : ResolvedFileSystemEntry) : Prop :=
  e ∈ l ∧ covers t e ∧
  ∀ e', e' ∈ l → covers t e' →
    length (components (r_path e')) < length (components (r_path e)) ∨
    (path_eq (r_path e') (r_path e) ∧ access_rank (r_access e') ≤ access_rank (r_access e)).

Lemma covers_self t a : covers t (mk_resolved t a).
Proof using Type. unfold covers. cbn [r_path]. reflexivity. Qed.

Lemma path_starts_with_spec t e : path_starts_with t (r_path e) = true ↔ covers t e.
Proof using Type. apply bool_decide_eq_true. Qed.

Lemma access_rank_inj a b : access_rank a = access_rank b → a = b.
Proof using Type. by destruct a, b. Qed.

Lemma precedence_le_spec a b : precedence_le a b = true ↔ a.1 < b.1 ∨ (a.1 = b.1 ∧ a.2 ≤ b.2).
Proof using Type.
  unfold precedence_le. rewrite orb_true_iff, andb_true_iff, Nat.ltb_lt, Nat.eqb_eq, Nat.leb_le. done.
Qed.

Lemma max_by_precedence_spec l :
  match max_by_precedence l with
  | None => l = []
  | Some e => e ∈ l ∧ ∀ e', e' ∈ l → precedence_le (resolved_entry_precedence e') (resolved_entry_precedence e) = true
  end.
Proof using Type.
  unfold max_by_precedence. induction l as [|x l IH] using rev_ind; [done|].
  rewrite foldl_app. cbn [foldl]. destruct (foldl _ None l) as [b|].
  - destruct IH as [Hb Hmax]. destruct (precedence_le (resolved_entry_precedence b) (resolved_entry_precedence x)) eqn:Hle.
    + split; [set_solver|]. intros e' [He'|He']%elem_of_app.
      * specialize (Hmax e' He'). rewrite !precedence_le_spec in *. lia.
      * apply list_elem_of_singleton in He' as ->. apply precedence_le_spec. lia.
    + split; [set_solver|]. intros e' [He'|He']%elem_of_app; [auto|].
      apply list_elem_of_singleton in He' as ->. apply not_true_iff_false in Hle.
      rewrite precedence_le_spec in *. lia.
  - subst l. split; [set_solver|]. intros e' He'. apply list_elem_of_singleton in He' as ->.
    apply precedence_le_spec. lia.
Qed.

Lemma prefix_same_length {A} (l1 l2 k : list A) :
  l1 `prefix_of` k → l2 `prefix_of` k → length l1 = length l2 → l1 = l2.
Proof using Type.
  intros [k1 ->] [k2 H2] Hl. apply (f_equal (take (length l1))) in H2.
  rewrite take_app_length, Hl, take_app_length in H2. done.
Qed.

Lemma prefix_by_length {A} (l1 l2 k : list A) :
  l1 `prefix_of` k → l2 `prefix_of` k → length l1 ≤ length l2 → l1 `prefix_of` l2.
Proof using Type.
  intros H1 H2 Hl. destruct (prefix_weak_total _ _ _ H1 H2) as [|H]; [done|].
  apply prefix_length in H as Hl'. by rewrite (prefix_same_length l2 l1 k) by (done || lia).
Qed.

Lemma covering_entries p cwd t e :
  e ∈ List.filter (λ e, path_starts_with t (r_path e)) (resolved_entries_with_cwd p cwd) ↔
  e ∈ resolved_entries_with_cwd p cwd ∧ covers t e.
Proof using Type. by rewrite list_elem_of_In, filter_In, <- list_elem_of_In, path_starts_with_spec. Qed.

Lemma access_decided p path cwd t :
  kind p = KRestricted → resolve_candidate_path path cwd = Some t →
  (∃ e, decides (resolved_entries_with_cwd p cwd) t e ∧ resolve_access_with_cwd p path cwd = r_access e) ∨
  ((∀ e, e ∈ resolved_entries_with_cwd p cwd → ¬ covers t e) ∧ resolve_access_with_cwd p path cwd = Deny).
Proof using Type.
  intros Hk Ht. unfold resolve_access_with_cwd. rewrite Hk, Ht.
  pose proof (max_by_precedence_spec (List.filter (λ e, path_starts_with t (r_path e)) (resolved_entries_with_cwd p cwd))) as Hm.
  destruct (max_by_precedence _) as [e|].
  - left. exists e. split; [|done]. destruct Hm as [[He Hc]%covering_entries Hmax]. split_and!; [done..|].
    intros e' He' Hc'. specialize (Hmax e' ltac:(by apply covering_entries)).
    apply precedence_le_spec in Hmax as [?|[Hl Hr]]; [by left|right]. split; [|done].
    by eapply prefix_same_length.
  - right. split; [|done]. intros e He Hc. apply (not_elem_of_nil e). rewrite <- Hm. by apply covering_entries.
Qed.

Lemma decides_unique l t e e' :
  decides l t e → decides l t e' → path_eq (r_path e) (r_path e') ∧ r_access e = r_access e'.
Proof using Type.
  intros (He & Hc & Hm) (He' & Hc' & Hm').
  destruct (Hm e' He' Hc') as [H1|[Hp1 H1]], (Hm' e He Hc) as [H2|[Hp2 H2]]; unfold path_eq in *;
    [lia|rewrite Hp2 in H1; lia|rewrite Hp1 in H2; lia|].
  split; [done|]. apply access_rank_inj. lia.
Qed.

Lemma access_of_decides p path cwd t e :
  kind p = KRestricted → resolve_candidate_path path cwd = Some t →
  decides (resolved_entries_with_cwd p cwd) t e → resolve_access_with_cwd p path cwd = r_access e.
Proof using Type.
  intros Hk Ht He. destruct (access_decided p path cwd t Hk Ht) as [(e' & He' & ->)|[Hno _]].
  - symmetry. by eapply decides_unique.
  - destruct He as (He & Hc & _). by destruct (Hno e He).
Qed.

Lemma decides_perm l l' t e : (∀ x, x ∈ l ↔ x ∈ l') → decides l t e → decides l' t e.
Proof using Type. intros Hl (He & Hc & Hm). split_and!; [by apply Hl|done|]. intros e' ?%Hl. eauto. Qed.

(** Two policies with the same resolved entries, as sets, grant the same access. *)
Lemma access_ext p q path cwd :
  kind p = kind q →
  (∀ e, e ∈ resolved_entries_with_cwd p cwd ↔ e ∈ resolved_entries_with_cwd q cwd) →
  resolve_access_with_cwd p path cwd = resolve_access_with_cwd q path cwd.
Proof using Type.
  intros Hk Hl. destruct (kind p) eqn:Hp;
    [|unfold resolve_access_with_cwd; by rewrite <- Hk, Hp..].
  destruct (resolve_candidate_path path cwd) as [t|] eqn:Ht;
    [|unfold resolve_access_with_cwd; by rewrite <- Hk, Hp, Ht].
  destruct (access_decided p path cwd t Hp Ht) as [(e & He & ->)|[Hno ->]].
  - symmetry. eapply access_of_decides; [done|done|]. by eapply decides_perm.
  - destruct (access_decided q path cwd t) as [(e & (He & Hc & _) & _)|[_ ->]]; [done|done| |done].
    by destruct (Hno e (proj2 (Hl e) He)).
Qed.

Context (current_dir_absolute : ∀ d, current_dir E = Ok d → is_absolute d = true).

Lemma from_absolute_Some path q : from_absolute path = Some q → canonical q.
Proof using current_dir_absolute.
  unfold from_absolute. destruct (from_absolute_path _ _ _) as [x| |] eqn:Hx; cbn; [|done..].
  intros [= <-]. by eapply from_absolute_canonical.
Qed.
Lemma from_absolute_id p : canonical p → from_absolute p = Some p.
Proof using Type. intros Hp. unfold from_absolute. by rewrite from_absolute_fixpoint. Qed.

Lemma last_ancestors_fuel n segs :
  Forall segment segs → length segs < n → last (ancestors_fuel n (abs_path segs)) = Some [RustPath.slash].
Proof using Type.
  revert segs. induction n as [|n IH]; intros segs Hf Hn; [lia|]. cbn [ancestors_fuel].
  destruct segs as [|s segs _] using rev_ind; [done|]. rewrite length_app in Hn. cbn in Hn.
  rewrite parent_abs_path by done. apply Forall_app in Hf as [Hf _]. specialize (IH segs Hf ltac:(lia)).
  destruct (ancestors_fuel n (abs_path segs)) as [|x l]; [done|]. by rewrite last_cons_cons.
Qed.

Lemma absolute_root_path_ok cwd : canonical cwd → absolute_root_path_for_cwd cwd = Ok [RustPath.slash].
Proof using Type.
  intros (segs & Hf & ->). unfold absolute_root_path_for_cwd, ancestors.
  rewrite components_abs_path, last_ancestors_fuel by (done || (cbn; rewrite length_fmap; lia)).
  rewrite from_absolute_fixpoint; [done|]. by exists [].
Qed.

Lemma canonical_root_prefix t : canonical t → components [RustPath.slash] `prefix_of` components t.
Proof using Type. intros (segs & Hf & ->). rewrite components_abs_path by done. by exists (Normal <$> segs). Qed.

Lemma path_join_canonical base path : canonical base → canonical (path_join base path).
Proof using Type. intros Hb. by apply resolve_against_canonical, canonical_absolute. Qed.

Lemma candidate_canonical path cwd t : resolve_candidate_path path cwd = Some t → canonical t.
Proof using current_dir_absolute.
  unfold resolve_candidate_path. destruct (is_absolute path); [apply from_absolute_Some|].
  intros (c & Hc%from_absolute_Some & [= <-])%bind_Some. by apply path_join_canonical.
Qed.
Lemma candidate_id t cwd : canonical t → resolve_candidate_path t cwd = Some t.
Proof using Type.
  intros Ht. unfold resolve_candidate_path. rewrite (canonical_absolute _ Ht). by apply from_absolute_id.
Qed.

Lemma elem_resolved p cwd e :
  e ∈ resolved_entries_with_cwd p cwd ↔
  ∃ e0, e0 ∈ entries p ∧ e_access e0 = r_access e ∧ resolve_entry_path (e_path e0) (from_absolute cwd) = Some (r_path e).
Proof using Type.
  unfold resolved_entries_with_cwd. rewrite list_elem_of_omap. unfold resolve_entry. split.
  - intros (e0 & He0 & (q & Hq & ->)%fmap_Some). by exists e0.
  - intros (e0 & He0 & Ha & Hq). exists e0. split; [done|]. rewrite Hq, Ha. by destruct e.
Qed.

Lemma resolve_root c : canonical c → resolve_entry_path (Special Root) (Some c) = Some [RustPath.slash].
Proof using Type. intros Hc. cbn. by rewrite absolute_root_path_ok. Qed.

(** With a root entry some entry decides every path. *)
Lemma root_entry_decides p path cwd c t a :
  kind p = KRestricted → from_absolute cwd = Some c → resolve_candidate_path path cwd = Some t →
  mk_entry (Special Root) a ∈ entries p →
  ∃ e, decides (resolved_entries_with_cwd p cwd) t e ∧ resolve_access_with_cwd p path cwd = r_access e.
Proof using current_dir_absolute.
  intros Hk Hc Ht Hin. destruct (access_decided p path cwd t Hk Ht) as [?|[Hno _]]; [done|].
  exfalso. apply (Hno (mk_resolved [RustPath.slash] a)).
  - apply elem_resolved. eexists. split_and!; [exact Hin|done|]. rewrite Hc.
    apply resolve_root. by eapply from_absolute_Some.
  - apply canonical_root_prefix. by eapply candidate_canonical.
Qed.

Lemma has_root_access_spec f p :
  has_root_access f p = true ↔ kind p = KRestricted ∧ ∃ a, mk_entry (Special Root) a ∈ entries p ∧ f a = true.
Proof using Type.
  unfold has_root_access, is_restricted. rewrite andb_true_iff, bool_decide_eq_true. split.
  - intros [Hk Hex]. split; [done|]. apply existsb_exists in Hex as ([[| |[]] a] & Hin & Ha); try done.
    exists a. by apply list_elem_of_In in Hin.
  - intros [Hk (a & Hin & Ha)]. split; [done|]. apply existsb_exists.
    exists (mk_entry (Special Root) a). by rewrite <- list_elem_of_In.
Qed.

(** ** Lemmas: whole-disk access *)

(** Paths in entries are [AbsolutePathBuf]s; subpaths do not name a home directory. *)
Definition entry_ok (e : FileSystemSandboxEntry) : Prop :=
  match e_path e with
  | PathEntry path => canonical path
  | Special (ProjectRoots (Some subpath)) => strip_prefix (lit "~") subpath = None
  | _ => True
  end.
Definition policy_ok (p : FileSystemSandboxPolicy) : Prop := Forall entry_ok (entries p).

Lemma slash_tmp_canonical : canonical (lit "/tmp").
Proof using Type. exists [lit "tmp"]. split; [|done]. by apply (bool_decide_unpack _). Qed.

Lemma resolve_slash_tmp c : is_dir E (lit "/tmp") = true → resolve_entry_path (Special SlashTmp) c = Some (lit "/tmp").
Proof using Type.
  intros Ht. unfold resolve_entry_path, resolve_file_system_path, resolve_file_system_special_path. rewrite (from_absolute_id _ slash_tmp_canonical).
  cbn [mbind option_bind]. by rewrite Ht.
Qed.

Lemma opt_path_eqb_subpath l r c :
  opt_path_eqb l r = true → is_absolute c = true →
  entry_ok (mk_entry (Special (ProjectRoots l)) Read) → entry_ok (mk_entry (Special (ProjectRoots r)) Read) →
  resolve_file_system_special_path (ProjectRoots l) (Some c) = resolve_file_system_special_path (ProjectRoots r) (Some c).
Proof using Type.
  destruct l as [l|], r as [r|]; try done. intros Heq%bool_decide_eq_true Hc Hl Hr. cbn in *.
  unfold resolve_against. rewrite !resolve_against_components by done. by rewrite Heq.
Qed.

Lemma path_no_parent path : canonical path → parent path = None → path = [RustPath.slash].
Proof using Type.
  intros (segs & Hf & ->). destruct segs as [|s segs _] using rev_ind; [done|]. by rewrite parent_abs_path.
Qed.

(** Equal entry paths resolve to equal paths. *)
Lemma same_path_resolves a b c pb :
  fs_path_eqb (e_path a) (e_path b) = true → canonical c → entry_ok a → entry_ok b →
  resolve_entry_path (e_path b) (Some c) = Some pb →
  ∃ pa, resolve_entry_path (e_path a) (Some c) = Some pa ∧ path_eq pa pb.
Proof using Type.
  intros Heq Hc Ha Hb Hres. destruct a as [a aa], b as [b ab]; cbn [e_path entry_ok] in *.
  destruct a as [a| |va], b as [b| |vb]; try done; cbn [fs_path_eqb] in Heq.
  - apply bool_decide_eq_true in Heq. injection Hres as <-. by exists a.
  - exists pb. split; [|done]. rewrite <- Hres.
    destruct va as [| |l| | |], vb as [| |r| | |]; try done.
    change (resolve_file_system_special_path (ProjectRoots l) (Some c) =
            resolve_file_system_special_path (ProjectRoots r) (Some c)).
    apply opt_path_eqb_subpath; [done|by apply canonical_absolute|done..].
Qed.

(** Entries that share a target resolve to the same path. *)
Lemma share_target_resolves a b c pb :
  file_system_paths_share_target (e_path a) (e_path b) = true →
  is_dir E (lit "/tmp") = true → canonical c → entry_ok a → entry_ok b →
  resolve_entry_path (e_path b) (Some c) = Some pb →
  ∃ pa, resolve_entry_path (e_path a) (Some c) = Some pa ∧ path_eq pa pb.
Proof using Type.
  intros Hshare Htmp Hc Ha Hb Hres.
  destruct (fs_path_eqb (e_path a) (e_path b)) eqn:Heq; [by eapply same_path_resolves|].
  destruct a as [a aa], b as [b ab]; cbn [e_path entry_ok] in *.
  destruct a as [a| |va], b as [b| |vb]; try done; cbn [file_system_paths_share_target fs_path_eqb] in *;
    [congruence|..|congruence].
  - exists a. split; [done|]. destruct vb; try done; apply bool_decide_eq_true in Hshare.
    + rewrite resolve_root in Hres by done. apply (path_no_parent _ Ha) in Hshare as ->. by injection Hres as <-.
    + rewrite resolve_slash_tmp in Hres by done. by injection Hres as <-.
  - injection Hres as <-. destruct va; try done; apply bool_decide_eq_true in Hshare.
    + apply (path_no_parent _ Hb) in Hshare as ->. eexists. split; [by apply resolve_root|done].
    + eexists. split; [by apply resolve_slash_tmp|done].
Qed.

Lemma root_write_beats p cwd c t e a :
  from_absolute cwd = Some c → canonical t → mk_entry (Special Root) a ∈ entries p →
  decides (resolved_entries_with_cwd p cwd) t e → path_eq (r_path e) [RustPath.slash] →
  access_rank a ≤ access_rank (r_access e).
Proof using current_dir_absolute.
  intros Hc Ht Hin (He & Hcov & Hmax) Hpe.
  destruct (Hmax (mk_resolved [RustPath.slash] a)) as [Hlt|[_ Hr]]; [| |unfold path_eq in Hpe; rewrite Hpe in Hlt; cbn in Hlt; lia|done].
  - apply elem_resolved. eexists. split_and!; [exact Hin|done|]. rewrite Hc. apply resolve_root.
    by eapply from_absolute_Some.
  - by apply canonical_root_prefix.
Qed.

(** The entry that decides a path is a write entry when nothing narrows the root grant. *)
Lemma nothing_narrows p cwd c t e :
  policy_ok p → is_dir E (lit "/tmp") = true → from_absolute cwd = Some c → canonical t →
  mk_entry (Special Root) Write ∈ entries p → existsb (narrows_write p) (entries p) = false →
  decides (resolved_entries_with_cwd p cwd) t e → r_access e = Write.
Proof using current_dir_absolute.
  intros Hok Htmp Hc Ht Hroot Hnarrow Hdec. pose proof Hdec as (He & Hcov & Hmax).
  apply elem_resolved in He as (e0 & Hin & Ha & Hres). rewrite Hc in Hres.
  assert (canonical c) as Hcc by by eapply from_absolute_Some.
  unfold policy_ok in Hok. rewrite Forall_forall in Hok.
  destruct (can_write (e_access e0)) eqn:Hw; [rewrite <- Ha; by destruct (e_access e0)|]. exfalso.
  assert (narrows_write p e0 = false) as Hn.
  { apply not_true_is_false. intros Hn. apply not_true_iff_false in Hnarrow. apply Hnarrow.
    apply existsb_exists. exists e0. by rewrite <- list_elem_of_In. }
  assert (has_same_target_write_override p e0 = true → False) as Hover.
  { intros (x & Hx & [[Hxw Hlt]%andb_prop Hshare]%andb_prop)%existsb_exists.
    apply list_elem_of_In in Hx. apply Nat.ltb_lt in Hlt.
    destruct (share_target_resolves x e0 c (r_path e) Hshare) as (px & Hpx & Heq); auto.
    destruct (Hmax (mk_resolved px (e_access x))) as [Hl|[_ Hr]].
    - apply elem_resolved. exists x. by rewrite Hc.
    - unfold covers. cbn [r_path]. unfold path_eq in Heq. by rewrite Heq.
    - unfold path_eq in Heq. cbn [r_path] in Hl. rewrite Heq in Hl. lia.
    - cbn [r_access] in Hr. rewrite <- Ha in Hr. lia. }
  unfold narrows_write in Hn. rewrite Hw in Hn.
  destruct (e_path e0) as [path|pattern|[]] eqn:Hp; try done;
    try (apply negb_false_iff in Hn; by apply Hover).
  rewrite resolve_root in Hres by done. injection Hres as Hres.
  pose proof (root_write_beats p cwd c t e Write Hc Ht Hroot Hdec ltac:(by rewrite <- Hres)) as Hr.
  rewrite <- Ha in Hr. unfold is_deny in Hn. apply bool_decide_eq_false in Hn.
  destruct (e_access e0); cbn in *; [lia|done|done].
Qed.

(** ** Lemmas: deny entries that are pushed *)
Lemma push_deny_spec es ds :
  (∀ e, e ∈ es → e ∈ push_deny_entries es ds) ∧
  (∀ e, e ∈ push_deny_entries es ds → e ∈ es ∨ e ∈ ds) ∧
  (∀ d, d ∈ ds → ∃ e, e ∈ push_deny_entries es ds ∧ (e = d ∨ entry_eqb e d = true)).
Proof using Type.
  clear current_dir_absolute E. unfold push_deny_entries. revert es. induction ds as [|d ds IH]; intros es; cbn [foldl]; [set_solver|].
  set (es' := if existsb (λ e, entry_eqb e d) es then es else es ++ [d]).
  destruct (IH es') as (H1 & H2 & H3).
  assert (∀ e, e ∈ es → e ∈ es') as Hsub by (subst es'; destruct (existsb _ es); set_solver).
  assert (∀ e, e ∈ es' → e ∈ es ∨ e = d) as Hsup by (subst es'; destruct (existsb _ es); set_solver).
  assert (∃ e, e ∈ es' ∧ (e = d ∨ entry_eqb e d = true)) as (e & He & Hd).
  { subst es'. destruct (existsb _ es) eqn:Hex; [|exists d; set_solver].
    apply existsb_exists in Hex as (e & He%list_elem_of_In & Heq). by exists e; split; [|right]. }
  split_and!; [auto| |].
  - intros x [Hx|Hx]%H2; [|set_solver]. destruct (Hsup x Hx) as [?| ->]; set_solver.
  - intros x [->|Hx]%elem_of_cons; [|auto]. exists e. auto.
Qed.

Lemma filter_deny ds d : d ∈ List.filter is_deny ds ↔ d ∈ ds ∧ e_access d = Deny.
Proof using Type.
  rewrite list_elem_of_In, filter_In, <- list_elem_of_In. unfold is_deny. by rewrite bool_decide_eq_true.
Qed.

(** Adding entries that deny turns no access into a wider one. *)
Lemma more_denies p q path cwd :
  kind p = KRestricted → kind q = KRestricted →
  (∀ e, e ∈ resolved_entries_with_cwd p cwd → e ∈ resolved_entries_with_cwd q cwd) →
  (∀ e, e ∈ resolved_entries_with_cwd q cwd → e ∈ resolved_entries_with_cwd p cwd ∨ r_access e = Deny) →
  resolve_access_with_cwd q path cwd = resolve_access_with_cwd p path cwd ∨ resolve_access_with_cwd q path cwd = Deny.
Proof using Type.
  intros Hp Hq Hsub Hsup. destruct (resolve_candidate_path path cwd) as [t|] eqn:Ht;
    [|right; unfold resolve_access_with_cwd; by rewrite Hq, Ht].
  destruct (access_decided q path cwd t Hq Ht) as [(e & He & ->)|[_ ->]]; [|by right].
  destruct He as (Hin & Hc & Hmax). destruct (Hsup e Hin) as [Hinp|Hd]; [|by right]. left. symmetry.
  eapply access_of_decides; [done|done|]. split_and!; [done|done|]. intros e' He'. eauto.
Qed.

(** ** Properties: resolution *)

(** C5: under a restricted policy the access of a path that resolves is that of its most
    specific entry: among the entries at or above it, the one with the longest
    path, and [Deny] before [Write] before [Read] when several name that path.
    There always is one when any entry covers the path, all such entries agree,
    an uncovered path is denied, and neither the order of the entries nor
    repeating them matters.  A path that does not resolve is denied, and a policy
    that is not restricted lets everything be written. *)
Theorem access_is_the_most_specific_entry (p : FileSystemSandboxPolicy) (path cwd : rstring) :
  let es := resolved_entries_with_cwd p cwd in
  (kind p ≠ KRestricted → resolve_access_with_cwd p path cwd = Write) ∧
  (kind p = KRestricted → resolve_candidate_path path cwd = None → resolve_access_with_cwd p path cwd = Deny) ∧
  (kind p = KRestricted → ∀ t, resolve_candidate_path path cwd = Some t →
    (∀ e, decides es t e → resolve_access_with_cwd p path cwd = r_access e) ∧
    ((∃ e, e ∈ es ∧ covers t e) → ∃ e, decides es t e) ∧
    (∀ e e', decides es t e → decides es t e' → path_eq (r_path e) (r_path e') ∧ r_access e = r_access e') ∧
    ((∀ e, e ∈ es → ¬ covers t e) → resolve_access_with_cwd p path cwd = Deny)) ∧
  (∀ q, kind q = kind p → (∀ e, e ∈ entries q ↔ e ∈ entries p) →
     resolve_access_with_cwd q path cwd = resolve_access_with_cwd p path cwd).
Proof using Type.
  cbv zeta. split_and!.
  - unfold resolve_access_with_cwd. by destruct (kind p).
  - intros Hk Hn. unfold resolve_access_with_cwd. by rewrite Hk, Hn.
  - intros Hk t Ht. pose proof (access_decided p path cwd t Hk Ht) as Hd. split_and!.
    + intros e. by apply access_of_decides.
    + intros (e & He & Hc). destruct Hd as [(e' & He' & _)|[Hno _]]; [by exists e'|by destruct (Hno e)].
    + intros e e'. apply decides_unique.
    + intros Hno. destruct Hd as [(e & (He & Hc & _) & _)|[_ ?]]; [by destruct (Hno e)|done].
  - intros q Hq Hperm. apply access_ext; [done|]. intros e. rewrite !elem_resolved. by setoid_rewrite Hperm.
Qed.

Lemma full_disk_write_sound p path cwd c t :
  from_absolute cwd = Some c → resolve_candidate_path path cwd = Some t → policy_ok p → is_dir E (lit "/tmp") = true →
  has_full_disk_write_access p = true → resolve_access_with_cwd p path cwd = Write ∧ can_write_path_with_cwd p path cwd = true.
Proof using current_dir_absolute.
  intros Hc Ht Hok Htmp Hfull. assert (canonical t) as Htc by by eapply candidate_canonical.
  unfold can_write_path_with_cwd. rewrite Hfull. destruct (kind p) eqn:Hk.
  2-3: unfold resolve_access_with_cwd; by rewrite Hk.
  unfold has_full_disk_write_access in Hfull. rewrite Hk in Hfull.
  apply andb_prop in Hfull as [(_ & a & Hin & Ha)%has_root_access_spec Hnn].
  destruct a; try done. destruct (root_entry_decides p path cwd c t Write Hk Hc Ht Hin) as (e & He & ->).
  assert (r_access e = Write) as ->; [|done].
  eapply nothing_narrows; [done|done|done|exact Htc|done| |done].
  unfold has_write_narrowing_entries, is_restricted in Hnn. rewrite Hk in Hnn. by apply negb_true_iff in Hnn.
Qed.

(** The whole-disk shortcuts agree with the resolution.  When a policy
    claims full read access every path is readable, and when it claims full
    write access every path is writable, provided the working directory
    resolves and, for writes, [/tmp] is a directory. *)
Theorem full_disk_access_is_sound (p : FileSystemSandboxPolicy) (path cwd c t : rstring)
    (Hc : from_absolute cwd = Some c) (Ht : resolve_candidate_path path cwd = Some t) (Hok : policy_ok p) :
  (has_full_disk_read_access p = true → can_read_path_with_cwd p path cwd = true) ∧
  (has_full_disk_write_access p = true → is_dir E (lit "/tmp") = true →
     can_write_path_with_cwd p path cwd = true ∧ can_read_path_with_cwd p path cwd = true).
Proof using current_dir_absolute.
  unfold can_read_path_with_cwd, can_write_path_with_cwd. destruct (kind p) eqn:Hk.
  2-3: unfold resolve_access_with_cwd; rewrite Hk; cbn; split; [done|]; by intros ->.
  split.
  - unfold has_full_disk_read_access. rewrite Hk. intros [(_ & a & Hin & Ha)%has_root_access_spec Hnd]%andb_prop.
    destruct (root_entry_decides p path cwd c t a Hk Hc Ht Hin) as (e & (He & _) & ->).
    apply elem_resolved in He as (e0 & Hin0 & Hacc & _).
    destruct (r_access e) eqn:Hea; [done..|]. apply negb_true_iff, not_true_iff_false in Hnd. destruct Hnd.
    unfold has_denied_read_restrictions, is_restricted. rewrite Hk. apply existsb_exists. exists e0.
    rewrite <- list_elem_of_In. split; [done|]. by apply bool_decide_eq_true_2.
  - intros Hfull Htmp. destruct (full_disk_write_sound p path cwd c t Hc Ht Hok Htmp Hfull) as [Ha Hw].
    unfold can_write_path_with_cwd in Hw. by rewrite Hw, Ha.
Qed.

(** What [preserve_deny_read_restrictions_from] adds the deny entries to. *)
Definition preserve_base (p existing : FileSystemSandboxPolicy) : FileSystemSandboxPolicy :=
  if bool_decide (kind p = KUnrestricted) && existsb is_deny (entries existing)
  then restricted [mk_entry (Special Root) Write] else p.

Lemma preserve_restricted p existing :
  kind (preserve_base p existing) = KRestricted →
  let q := preserve_deny_read_restrictions_from p existing in
  kind q = KRestricted ∧
  entries q = push_deny_entries (entries (preserve_base p existing)) (List.filter is_deny (entries existing)).
Proof using Type.
  intros Hk. unfold preserve_deny_read_restrictions_from. fold (preserve_base p existing).
  unfold is_restricted. by rewrite Hk.
Qed.

Lemma preserve_cases p existing :
  (kind p = KRestricted ∧ preserve_base p existing = p) ∨
  (kind p = KUnrestricted ∧ preserve_base p existing = restricted [mk_entry (Special Root) Write]) ∨
  (preserve_deny_read_restrictions_from p existing = p ∧
   ∀ d, d ∈ entries existing → e_access d = Deny → kind p = KExternalSandbox).
Proof using Type.
  unfold preserve_deny_read_restrictions_from. fold (preserve_base p existing). unfold preserve_base.
  destruct (kind p) eqn:Hk; [left; split; [done|by rewrite bool_decide_eq_false_2 by done]| |].
  - destruct (existsb is_deny (entries existing)) eqn:Hex; [right; left; split; [done|by rewrite bool_decide_eq_true_2 by done]|]. right; right.
    unfold is_restricted. rewrite (bool_decide_eq_true_2 (KUnrestricted = KUnrestricted)) by done. cbn [andb]. rewrite Hk. split; [done|].
    intros d Hd Ha. apply not_true_iff_false in Hex. destruct Hex. apply existsb_exists. exists d.
    rewrite <- list_elem_of_In. split; [done|by apply bool_decide_eq_true_2].
  - right; right. rewrite (bool_decide_eq_false_2 (KExternalSandbox = KUnrestricted)) by done. cbn [andb].
    unfold is_restricted. rewrite Hk. by rewrite bool_decide_eq_false_2.
Qed.

Lemma preserve_ok p existing : policy_ok p → policy_ok existing → policy_ok (preserve_deny_read_restrictions_from p existing).
Proof using Type.
  unfold policy_ok. rewrite !Forall_forall. intros Hp Hex e.
  destruct (push_deny_spec (entries (preserve_base p existing)) (List.filter is_deny (entries existing))) as (_ & H2 & _).
  pose proof (preserve_restricted p existing) as Hr.
  destruct (preserve_cases p existing) as [[Hk Hb]|[[Hk Hb]|[-> _]]]; [| |auto]; rewrite Hb in *;
    destruct (Hr ltac:(done)) as [_ ->]; intros [He|[He _]%filter_deny]%H2; auto.
  apply list_elem_of_singleton in He as ->. done.
Qed.

Lemma preserve_keeps p existing d :
  d ∈ entries existing → e_access d = Deny → kind p ≠ KExternalSandbox →
  let q := preserve_deny_read_restrictions_from p existing in
  kind q = KRestricted ∧ ∃ e, e ∈ entries q ∧ (e = d ∨ entry_eqb e d = true).
Proof using Type.
  intros Hd Ha Hne. cbv zeta.
  destruct (push_deny_spec (entries (preserve_base p existing)) (List.filter is_deny (entries existing))) as (_ & _ & H3).
  pose proof (preserve_restricted p existing) as Hr.
  destruct (preserve_cases p existing) as [[Hk Hb]|[[Hk Hb]|[_ Hno]]]; [| |by destruct Hne; eapply Hno];
    rewrite Hb in *; destruct (Hr ltac:(done)) as [Hkq ->]; (split; [done|]); by apply H3, filter_deny.
Qed.

Lemma preserve_never_widens p existing path cwd :
  let q := preserve_deny_read_restrictions_from p existing in
  resolve_access_with_cwd q path cwd = resolve_access_with_cwd p path cwd ∨ resolve_access_with_cwd q path cwd = Deny.
Proof using Type.
  cbv zeta. pose proof (preserve_restricted p existing) as Hr.
  destruct (push_deny_spec (entries (preserve_base p existing)) (List.filter is_deny (entries existing))) as (H1 & H2 & _).
  destruct (preserve_cases p existing) as [[Hk Hb]|[[Hk Hb]|[-> _]]]; [| |by left]; rewrite Hb in *;
    destruct (Hr ltac:(done)) as [Hkq Heq]; clear Hr.
  - apply more_denies; [done|done|..]; intros e; rewrite !elem_resolved, Heq.
    + intros (e0 & He0 & ?). exists e0. auto.
    + intros (e0 & [He0|[_ Hd]%filter_deny]%H2 & Ha & Hres); [left; by exists e0|right; congruence].
  - set (q := preserve_deny_read_restrictions_from p existing) in *.
    assert (resolve_access_with_cwd p path cwd = Write) as -> by (unfold resolve_access_with_cwd; by rewrite Hk).
    destruct (resolve_candidate_path path cwd) as [t|] eqn:Ht;
      [|right; unfold resolve_access_with_cwd; by rewrite Hkq, Ht].
    destruct (access_decided q path cwd t Hkq Ht) as [(e & (He & _) & ->)|[_ ->]]; [|by right].
    apply elem_resolved in He as (e0 & He0 & <- & _). rewrite Heq in He0.
    apply H2 in He0 as [He0|[_ ?]%filter_deny]; [left|by right].
    by apply list_elem_of_singleton in He0 as ->.
Qed.

(** A resolved deny entry that no covering entry exceeds decides. *)
Lemma deepest_deny q path cwd t r :
  kind q = KRestricted → resolve_candidate_path path cwd = Some t →
  mk_resolved r Deny ∈ resolved_entries_with_cwd q cwd → covers t (mk_resolved r Deny) →
  (∀ e, e ∈ resolved_entries_with_cwd q cwd → covers t e → length (components (r_path e)) ≤ length (components r)) →
  resolve_access_with_cwd q path cwd = Deny.
Proof using Type.
  intros Hk Ht Hin Hc Hmax. eapply (access_of_decides _ _ _ _ (mk_resolved r Deny)); [done|done|].
  split_and!; [done|done|]. intros e He Hce. specialize (Hmax e He Hce). cbn [r_path r_access].
  destruct (decide (length (components (r_path e)) = length (components r))) as [Hl|]; [right|left; lia].
  split; [by eapply prefix_same_length|]. by destruct (r_access e); cbn; lia.
Qed.

(** Replacing the allow side of a policy keeps its denials.  Every deny
    entry of the old policy is in the new one unless an external sandbox is in
    charge; no path becomes more accessible than the new allow side makes it;
    and a path below a deny entry, with no more specific entry, is denied. *)
Theorem deny_restrictions_survive (p existing : FileSystemSandboxPolicy) (cwd c : rstring)
    (Hc : from_absolute cwd = Some c) (Hokp : policy_ok p) (Hok : policy_ok existing) :
  let q := preserve_deny_read_restrictions_from p existing in
  (∀ d, d ∈ entries existing → e_access d = Deny → kind p ≠ KExternalSandbox →
     kind q = KRestricted ∧ ∃ e, e ∈ entries q ∧ (e = d ∨ entry_eqb e d = true)) ∧
  (∀ path, resolve_access_with_cwd q path cwd = resolve_access_with_cwd p path cwd ∨
           resolve_access_with_cwd q path cwd = Deny) ∧
  (∀ d r path t, d ∈ entries existing → e_access d = Deny → kind p ≠ KExternalSandbox →
     resolve_entry_path (e_path d) (Some c) = Some r → resolve_candidate_path path cwd = Some t →
     covers t (mk_resolved r Deny) →
     (∀ e, e ∈ resolved_entries_with_cwd q cwd → covers t e → length (components (r_path e)) ≤ length (components r)) →
     resolve_access_with_cwd q path cwd = Deny).
Proof using current_dir_absolute.
  cbv zeta. split_and!; [intros; by apply preserve_keeps|intros; apply preserve_never_widens|].
  intros d r path t Hd Ha Hne Hres Ht Hcov Hmax.
  destruct (preserve_keeps p existing d Hd Ha Hne) as (Hkq & e & He & Heq).
  assert (canonical c) as Hcc by by eapply from_absolute_Some.
  assert (e_access e = Deny ∧ ∃ pa, resolve_entry_path (e_path e) (Some c) = Some pa ∧ path_eq pa r) as (Hea & pa & Hpa & Hpeq).
  { destruct Heq as [->|[Hp Hacc%bool_decide_eq_true]%andb_prop]; [by split; [|exists r]|].
    split; [congruence|]. pose proof (preserve_ok p existing Hokp Hok) as Hokq. unfold policy_ok in *.
    rewrite Forall_forall in *. eapply same_path_resolves; eauto. }
  unfold path_eq in Hpeq. apply (deepest_deny _ _ _ t pa); [done|done| | |].
  - apply elem_resolved. exists e. by rewrite Hc.
  - unfold covers in *. cbn [r_path] in *. by rewrite Hpeq.
  - by rewrite Hpeq.
Qed.

(** ** Lemmas: default read-only entries *)

(** [extends es es']: nothing is lost and what is new is read-only. *)
Definition extends (es es' : list FileSystemSandboxEntry) : Prop :=
  (∀ e, e ∈ es → e ∈ es') ∧ (∀ e, e ∈ es' → e ∈ es ∨ e_access e = Read).
#[local] Instance extends_preorder : PreOrder extends.
Proof using Type.
  split; [by intros es; split; [|auto]|].
  intros a b c [H1 H2] [H3 H4]. split; [auto|]. intros e [He|]%H4; auto.
Qed.

Lemma append_extends es path : extends es (append_default_read_only_entry_if_no_explicit_rule es path).
Proof using Type.
  unfold append_default_read_only_entry_if_no_explicit_rule. destruct (existsb _ es); [done|]. split.
  - intros e He. apply elem_of_app. by left.
  - intros e [He|He]%elem_of_app; [by left|]. apply list_elem_of_singleton in He as ->. by right.
Qed.
Lemma fold_extends {A} (f : list FileSystemSandboxEntry → A → list FileSystemSandboxEntry) es l :
  (∀ es a, extends es (f es a)) → extends es (foldl f es l).
Proof using Type. intros Hf. revert es. induction l as [|a l IH]; intros es; [done|]. cbn. by etrans; [apply Hf|]. Qed.
Lemma append_protected_extends es root b : extends es (append_protected_subpaths es root b).
Proof using Type. apply fold_extends. intros. apply append_extends. Qed.

Lemma append_adds es path :
  existsb (λ e, file_system_paths_share_target (e_path e) path) es = false →
  append_default_read_only_entry_if_no_explicit_rule es path = es ++ [mk_entry path Read].
Proof using Type. intros H. unfold append_default_read_only_entry_if_no_explicit_rule. by rewrite H. Qed.

Lemma workspace_entries_no_subpath roots a b s :
  existsb (λ e, file_system_paths_share_target (e_path e) (Special (ProjectRoots (Some s)))) (workspace_entries roots a b) = false.
Proof using Type.
  unfold workspace_entries. rewrite !existsb_app. cbn [existsb e_path file_system_paths_share_target special_paths_share_target opt_path_eqb orb].
  apply orb_false_iff. split; [by destruct b|]. apply orb_false_iff. split; [by destruct a|].
  induction roots as [|r roots IH]; [done|]. cbn. exact IH.
Qed.

Lemma workspace_write_entries roots a b :
  extends (workspace_entries roots a b ++ ((λ s, mk_entry (Special (ProjectRoots (Some s))) Read) <$> PROTECTED_METADATA_PATH_NAMES))
    (entries (workspace_write roots a b)).
Proof using Type.
  unfold workspace_write, restricted. cbn [entries].
  assert (foldl append_default_read_only_project_root_subpath_if_no_explicit_rule (workspace_entries roots a b)
    [DOT_GIT; DOT_AGENTS; DOT_CODEX] = workspace_entries roots a b ++
    ((λ s, mk_entry (Special (ProjectRoots (Some s))) Read) <$> PROTECTED_METADATA_PATH_NAMES)) as ->.
  { cbn [foldl]. unfold append_default_read_only_project_root_subpath_if_no_explicit_rule.
    rewrite (append_adds (workspace_entries roots a b)) by apply workspace_entries_no_subpath.
    rewrite (append_adds (workspace_entries roots a b ++ [_])) by (rewrite existsb_app, workspace_entries_no_subpath; by vm_compute).
    rewrite (append_adds ((workspace_entries roots a b ++ [_]) ++ [_])) by (rewrite !existsb_app, workspace_entries_no_subpath; by vm_compute).
    by rewrite <- !app_assoc. }
  apply fold_extends. intros. apply append_protected_extends.
Qed.

(** Where [workspace_write] grants writes. *)
Definition workspace_write_root (roots : list rstring) (cwd : option rstring) (r : rstring) : Prop :=
  r ∈ roots ∨ resolve_entry_path (Special SlashTmp) cwd = Some r ∨ resolve_entry_path (Special Tmpdir) cwd = Some r.

Lemma workspace_write_grants roots a b cwd e :
  e ∈ resolved_entries_with_cwd (workspace_write roots a b) cwd → r_access e = Write →
  from_absolute cwd = Some (r_path e) ∨ workspace_write_root roots (from_absolute cwd) (r_path e).
Proof using Type.
  intros (e0 & He0 & Ha & Hres)%elem_resolved Hw. apply (proj2 (workspace_write_entries roots a b)) in He0 as [He0|?]; [|congruence].
  rewrite Hw in Ha. unfold workspace_entries in He0. rewrite !elem_of_app in He0.
  destruct He0 as [[He0|[He0|[He0|He0]]]|He0].
  - apply elem_of_cons in He0 as [->|He0]; [done|]. apply list_elem_of_singleton in He0 as ->.
    left. cbn in Hres. by destruct (from_absolute cwd).
  - destruct b; [by apply elem_of_nil in He0|]. apply list_elem_of_singleton in He0 as ->. right; right; by left.
  - destruct a; [by apply elem_of_nil in He0|]. apply list_elem_of_singleton in He0 as ->. right; right; by right.
  - apply list_elem_of_fmap in He0 as (r & -> & Hr). injection Hres as <-. right; by left.
  - apply list_elem_of_fmap in He0 as (s & -> & _). done.
Qed.

Lemma path_join_segment segs s :
  Forall segment segs → segment s → strip_prefix (lit "~") s = None →
  path_join (abs_path segs) s = abs_path (segs ++ [s]).
Proof using Type.
  intros Hf Hs Ht. unfold path_join, join. rewrite resolve_against_components by done.
  rewrite components_abs_path, resolve_segments by done. f_equal.
  destruct (resolve_relative segs s) as [].
  { destruct Hs as (Hne & Hsl & _). destruct s as [|x s]; [done|]. apply bool_decide_eq_false_2. intros [= ->]. destruct Hsl. left. }
  rewrite split_none by apply Hs. cbn [omap list_omap]. by rewrite segment_component.
Qed.

Lemma protected_name_segment s : s ∈ PROTECTED_METADATA_PATH_NAMES → segment s ∧ strip_prefix (lit "~") s = None.
Proof using Type.
  intros Hs. assert (Forall (λ s, segment s ∧ strip_prefix (lit "~") s = None) PROTECTED_METADATA_PATH_NAMES) as Hf
    by (apply (bool_decide_unpack _); by vm_compute).
  rewrite Forall_forall in Hf. auto.
Qed.

Lemma components_child segs s :
  Forall segment segs → segment s →
  components (abs_path (segs ++ [s])) = components (abs_path segs) ++ [Normal s].
Proof using Type.
  intros Hf Hs. assert (Forall segment (segs ++ [s])) by (apply Forall_app; split; [done|by constructor]).
  rewrite !components_abs_path by done. by rewrite fmap_app.
Qed.

(** ** Properties: building and changing policies *)

(** A workspace-write policy protects the metadata of its workspace.  A
    path at or below [.git], [.agents] or [.codex] of the working directory
    can only be written when one of the other writable roots of the policy
    lies inside that directory and above the path, whether or not the
    directory exists. *)
Theorem workspace_metadata_is_protected (roots : list rstring) (no_tmpdir no_slash_tmp : bool)
    (path cwd c t name : rstring)
    (Hc : from_absolute cwd = Some c) (Ht : resolve_candidate_path path cwd = Some t)
    (Hname : name ∈ PROTECTED_METADATA_PATH_NAMES)
    (Hbelow : path_starts_with t (path_join c name) = true)
    (Hw : can_write_path_with_cwd (workspace_write roots no_tmpdir no_slash_tmp) path cwd = true) :
  ∃ r, workspace_write_root roots (Some c) r ∧
    path_starts_with r (path_join c name) = true ∧ path_starts_with t r = true.
Proof using current_dir_absolute.
  set (p := workspace_write roots no_tmpdir no_slash_tmp) in *.
  destruct (protected_name_segment name Hname) as [Hseg Htilde].
  destruct (from_absolute_Some cwd c Hc) as (segs & Hsegs & Hcs).
  assert (path_join c name = abs_path (segs ++ [name])) as Hj by (rewrite Hcs; by apply path_join_segment).
  assert (mk_resolved (path_join c name) Read ∈ resolved_entries_with_cwd p cwd) as Hmeta.
  { apply elem_resolved. exists (mk_entry (Special (ProjectRoots (Some name))) Read). split_and!; [|done|by rewrite Hc].
    apply workspace_write_entries, elem_of_app. right. apply list_elem_of_fmap. by exists name. }
  unfold can_write_path_with_cwd in Hw.
  destruct (access_decided p path cwd t eq_refl Ht) as [(e & (He & Hce & Hmax) & Hacc)|[_ Hacc]];
    rewrite Hacc in Hw; [|done]. destruct (r_access e) eqn:Hea; try done.
  unfold path_starts_with in Hbelow. apply bool_decide_eq_true in Hbelow.
  assert (components (path_join c name) `prefix_of` components (r_path e)) as Hpre.
  { destruct (Hmax _ Hmeta Hbelow) as [Hlt|[Hpe _]]; unfold path_eq in *; cbn [r_path] in *.
    - eapply prefix_by_length; [exact Hbelow|exact Hce|lia].
    - by rewrite Hpe. }
  exists (r_path e). split_and!; [|by apply bool_decide_eq_true_2..].
  rewrite <- Hc. destruct (workspace_write_grants _ _ _ _ _ He Hea) as [Hroot|?]; [|done].
  exfalso. rewrite Hc in Hroot. injection Hroot as Hroot. rewrite <- Hroot, Hj, Hcs in Hpre.
  rewrite components_child in Hpre by done. apply prefix_length in Hpre. rewrite length_app in Hpre. cbn in Hpre. lia.
Qed.

Lemma materialize_entry_resolves c c' e :
  canonical c → canonical c' → resolve_entry (Some c') (materialize_entry (Some c) e) = resolve_entry (Some c) e.
Proof using Type.
  intros Hc Hc'. destruct e as [[path|pattern|[| |s| | |]] a]; try done; unfold resolve_entry, materialize_entry; cbn [e_path e_access].
  - by destruct (parse_project_roots_glob_pattern pattern).
  - by rewrite !resolve_root.
  - by destruct s.
Qed.

Lemma materialized_entries p cwd cwd' c c' :
  from_absolute cwd = Some c → from_absolute cwd' = Some c' →
  resolved_entries_with_cwd (materialize_project_roots_with_cwd p cwd) cwd' = resolved_entries_with_cwd p cwd.
Proof using current_dir_absolute.
  intros Hc Hc'. unfold resolved_entries_with_cwd, materialize_project_roots_with_cwd. cbn [with_entries entries].
  rewrite Hc, Hc'. induction (entries p) as [|e es IH]; [done|]. cbn [fmap list_fmap omap list_omap].
  rewrite materialize_entry_resolves by by eapply from_absolute_Some. cbn in IH. by rewrite IH.
Qed.

(** Materialising the project roots of a policy freezes what it means in
    the working directory.  Its entries then resolve, in every working
    directory, to what the original entries resolve to in that one, so absolute
    paths have the same access wherever the policy is used later; and it is
    the materialisation for the single workspace root of that directory. *)
Theorem materialized_policy_is_cwd_independent (p : FileSystemSandboxPolicy) (cwd c : rstring)
    (Hc : from_absolute cwd = Some c) :
  let q := materialize_project_roots_with_cwd p cwd in
  (∀ cwd' c', from_absolute cwd' = Some c' → resolved_entries_with_cwd q cwd' = resolved_entries_with_cwd p cwd) ∧
  (∀ path, resolve_access_with_cwd q path cwd = resolve_access_with_cwd p path cwd) ∧
  (∀ path cwd' c', is_absolute path = true → from_absolute cwd' = Some c' →
     resolve_access_with_cwd q path cwd' = resolve_access_with_cwd p path cwd) ∧
  q = materialize_project_roots_with_workspace_roots p [c].
Proof using current_dir_absolute.
  cbv zeta. split_and!.
  - intros cwd' c' Hc'. by eapply materialized_entries.
  - intros path. apply access_ext; [done|]. intros e. by erewrite materialized_entries.
  - intros path cwd' c' Hp Hc'. unfold resolve_access_with_cwd. erewrite materialized_entries by done.
    unfold resolve_candidate_path. by rewrite Hp.
  - unfold materialize_project_roots_with_cwd, materialize_project_roots_with_workspace_roots, with_entries. f_equal.
    rewrite Hc. induction (entries p) as [|e es IH]; [done|]. cbn [fmap list_fmap mbind list_bind].
    rewrite <- IH. clear IH. destruct e as [[path|pattern|[| |[s|]| | |]] a]; try done.
    unfold materialize_for_roots, materialize_entry. cbn [e_path]. by destruct (parse_project_roots_glob_pattern pattern).
Qed.

(** ** Lemmas: additional roots *)
Lemma add_entry_resolved p root a cwd e :
  e ∈ resolved_entries_with_cwd (with_entries p (entries p ++ [mk_entry (PathEntry root) a])) cwd ↔
  e ∈ resolved_entries_with_cwd p cwd ∨ e = mk_resolved root a.
Proof using Type.
  rewrite !elem_resolved. cbn [with_entries entries]. split.
  - intros (e0 & [He0|He0]%elem_of_app & Ha & Hr); [left; by exists e0|right].
    apply list_elem_of_singleton in He0 as ->. injection Hr as Hr. destruct e. cbn in *. by subst.
  - intros [(e0 & He0 & ?)| ->].
    + exists e0. split; [|done]. apply elem_of_app. by left.
    + eexists. split; [apply elem_of_app; right; apply list_elem_of_singleton; reflexivity|done].
Qed.

(** A new grant changes the access of a path only below its root, and only to
    what it grants, where the root itself was decided by a less specific entry. *)
Lemma add_entry_access p root a cwd path t :
  kind p = KRestricted → canonical root → resolve_candidate_path path cwd = Some t →
  let q := with_entries p (entries p ++ [mk_entry (PathEntry root) a]) in
  resolve_access_with_cwd q path cwd = resolve_access_with_cwd p path cwd ∨
  (resolve_access_with_cwd q path cwd = a ∧ covers t (mk_resolved root a) ∧
   (resolve_access_with_cwd p path cwd = resolve_access_with_cwd p root cwd)).
Proof using Type.
  intros Hk Hroot Ht q. assert (Hkq : kind q = KRestricted) by done.
  destruct (access_decided q path cwd t Hkq Ht) as [(e & (He & Hce & Hmax) & ->)|[Hno ->]].
  - apply add_entry_resolved in He as [He| ->].
    + left. symmetry. eapply access_of_decides; [done|done|]. split_and!; [done|done|].
      intros e' He'. apply Hmax, add_entry_resolved. by left.
    + right. cbn [r_access]. split_and!; [done|done|].
      assert (∀ e, e ∈ resolved_entries_with_cwd p cwd → covers t e ↔ covers root e) as Hiff.
      { intros e He. split; unfold covers in *; cbn [r_path] in *; [|intros ?; by etrans].
        intros Hc. destruct (Hmax e ltac:(apply add_entry_resolved; by left) Hc) as [Hl|[Hpe _]].
        - eapply prefix_by_length; [exact Hc|exact Hce|cbn [r_path] in Hl; lia].
        - cbn [r_path] in Hpe. unfold path_eq in Hpe. by rewrite Hpe. }
      pose proof (candidate_id root cwd Hroot) as Hr.
      destruct (access_decided p path cwd t Hk Ht) as [(x & (Hx & Hcx & Hmx) & ->)|[Hno ->]].
      * symmetry. eapply access_of_decides; [done|exact Hr|]. split_and!; [done|by apply Hiff|].
        intros e He Hc. apply Hmx; [done|by apply Hiff].
      * destruct (access_decided p root cwd root Hk Hr) as [(x & (Hx & Hcx & _) & _)|[_ ->]]; [|done].
        destruct (Hno x Hx). by apply Hiff.
  - left. destruct (access_decided p path cwd t Hk Ht) as [(x & (Hx & Hcx & _) & _)|[_ ->]]; [|done].
    destruct (Hno x); [|done]. apply add_entry_resolved. by left.
Qed.

(** An explicit denial of exactly this path. *)
Definition denied_at (p : FileSystemSandboxPolicy) (cwd root : rstring) : Prop :=
  ∃ e, e ∈ resolved_entries_with_cwd p cwd ∧ r_access e = Deny ∧ path_eq (r_path e) root.

(** Right after its entry is added a root has at least that access, unless the
    policy denies exactly this path. *)
Lemma add_entry_granted p root a cwd :
  kind p = KRestricted → canonical root → a ≠ Deny →
  let q := with_entries p (entries p ++ [mk_entry (PathEntry root) a]) in
  access_rank a ≤ access_rank (resolve_access_with_cwd q root cwd) ∧
  (resolve_access_with_cwd q root cwd = Deny → denied_at p cwd root).
Proof using Type.
  intros Hk Hroot Ha q. assert (Hkq : kind q = KRestricted) by done.
  assert (mk_resolved root a ∈ resolved_entries_with_cwd q cwd) as Hin by (apply add_entry_resolved; by right).
  destruct (access_decided q root cwd root Hkq (candidate_id root cwd Hroot)) as [(e & (He & Hce & Hmax) & ->)|[Hno _]];
    [|destruct (Hno _ Hin); apply covers_self].
  destruct (Hmax _ Hin (covers_self _ _)) as [Hl|[Hp Hr]]; [apply prefix_length in Hce; cbn in Hl; lia|].
  split; [done|]. intros Hd. apply add_entry_resolved in He as [He| ->]; [|done]. exists e. split_and!; [done|done|]. unfold path_eq in *. by symmetry.
Qed.

Definition grants_only (p q : FileSystemSandboxPolicy) (cwd : rstring) (P : rstring → FileSystemAccessMode → FileSystemAccessMode → Prop) : Prop :=
  ∀ path, resolve_access_with_cwd q path cwd = resolve_access_with_cwd p path cwd ∨
          P path (resolve_access_with_cwd p path cwd) (resolve_access_with_cwd q path cwd).

Lemma add_readable_root_spec p root cwd :
  kind p = KRestricted → canonical root →
  kind (add_readable_root cwd p root) = KRestricted ∧
  (∀ e, e ∈ resolved_entries_with_cwd (add_readable_root cwd p root) cwd → e ∈ resolved_entries_with_cwd p cwd ∨ r_access e = Read) ∧
  grants_only p (add_readable_root cwd p root) cwd (λ _ old new, old = Deny ∧ new = Read) ∧
  (can_read_path_with_cwd (add_readable_root cwd p root) root cwd = true ∨ denied_at p cwd root).
Proof using Type.
  intros Hk Hroot. unfold add_readable_root. destruct (can_read_path_with_cwd p root cwd) eqn:Hr.
  { split_and!; [done|auto|by left|by left]. }
  split_and!; [done| | |].
  - intros e [?| ->]%add_entry_resolved; auto.
  - intros path. destruct (resolve_candidate_path path cwd) as [t|] eqn:Ht;
      [|left; unfold resolve_access_with_cwd; cbn [with_entries kind]; by rewrite Hk, Ht].
    destruct (add_entry_access p root Read cwd path t Hk Hroot Ht) as [?|(Hn & _ & Ho)]; [by left|right].
    split; [|done]. rewrite Ho. unfold can_read_path_with_cwd in Hr. by destruct (resolve_access_with_cwd p root cwd).
  - destruct (add_entry_granted p root Read cwd Hk Hroot ltac:(done)) as [_ Hd]. unfold can_read_path_with_cwd.
    destruct (resolve_access_with_cwd _ root cwd); [by left..|right; by apply Hd].
Qed.

Lemma readable_roots_spec roots p cwd :
  kind p = KRestricted → Forall canonical roots →
  let q := foldl (add_readable_root cwd) p roots in
  (∀ e, e ∈ resolved_entries_with_cwd q cwd → e ∈ resolved_entries_with_cwd p cwd ∨ r_access e = Read) ∧
  grants_only p q cwd (λ _ old new, old = Deny ∧ new = Read) ∧
  (∀ r, r ∈ roots → can_read_path_with_cwd q r cwd = true ∨ denied_at p cwd r).
Proof using Type.
  intros Hk Hc. revert p Hk. induction Hc as [|root roots Hroot Hroots IH]; intros p Hk; cbn [foldl].
  { split_and!; [auto|by left|]. intros r Hr. by apply elem_of_nil in Hr. }
  destruct (add_readable_root_spec p root cwd Hk Hroot) as (Hk1 & He1 & Hg1 & Hr1).
  destruct (IH _ Hk1) as (He2 & Hg2 & Hr2). split_and!.
  - intros e [He|]%He2; auto.
  - intros path. destruct (Hg1 path) as [<-|[? H1]], (Hg2 path) as [->|[H2 H3]]; try (rewrite H1 in H2; done); auto.
  - assert (∀ r, denied_at (add_readable_root cwd p root) cwd r → denied_at p cwd r) as Hden.
    { intros r (e & [He|He]%He1 & Hd & Hpe); [by exists e|congruence]. }
    intros r [->|Hr]%elem_of_cons; [|destruct (Hr2 r Hr); auto].
    destruct Hr1 as [Hr1|?]; [left|by right]. unfold can_read_path_with_cwd in *.
    destruct (Hg2 root) as [->|[_ ->]]; done.
Qed.

Lemma add_writable_root_spec p root cwd :
  kind p = KRestricted → canonical root →
  kind (add_writable_root cwd p root) = KRestricted ∧
  (∀ e, e ∈ resolved_entries_with_cwd (add_writable_root cwd p root) cwd → e ∈ resolved_entries_with_cwd p cwd ∨ r_access e = Write) ∧
  grants_only p (add_writable_root cwd p root) cwd (λ path _ new, new = Write ∧
    ∃ t, resolve_candidate_path path cwd = Some t ∧ path_starts_with t root = true) ∧
  (resolve_access_with_cwd (add_writable_root cwd p root) root cwd = Write ∨ denied_at p cwd root).
Proof using Type.
  intros Hk Hroot. unfold add_writable_root. destruct (can_write_path_with_cwd p root cwd) eqn:Hr.
  { split_and!; [done|auto|by left|left]. unfold can_write_path_with_cwd in Hr.
    by destruct (resolve_access_with_cwd p root cwd). }
  split_and!; [done| | |].
  - intros e [?| ->]%add_entry_resolved; auto.
  - intros path. destruct (resolve_candidate_path path cwd) as [t|] eqn:Ht;
      [|left; unfold resolve_access_with_cwd; cbn [with_entries kind]; by rewrite Hk, Ht].
    destruct (add_entry_access p root Write cwd path t Hk Hroot Ht) as [?|(Hn & Hcov & _)]; [by left|right].
    split; [done|]. exists t. split; [done|]. by apply (path_starts_with_spec t (mk_resolved root Write)).
  - destruct (add_entry_granted p root Write cwd Hk Hroot ltac:(done)) as [Hrank Hd].
    destruct (resolve_access_with_cwd _ root cwd); [cbn in Hrank; lia|by left|right; by apply Hd].
Qed.

Lemma writable_roots_spec roots p cwd :
  kind p = KRestricted → Forall canonical roots →
  let q := foldl (add_writable_root cwd) p roots in
  (∀ e, e ∈ resolved_entries_with_cwd q cwd → e ∈ resolved_entries_with_cwd p cwd ∨ r_access e = Write) ∧
  grants_only p q cwd (λ path _ new, new = Write ∧
    ∃ r t, r ∈ roots ∧ resolve_candidate_path path cwd = Some t ∧ path_starts_with t r = true) ∧
  (∀ r, r ∈ roots → resolve_access_with_cwd q r cwd = Write ∨ denied_at p cwd r).
Proof using Type.
  intros Hk Hc. revert p Hk. induction Hc as [|root roots Hroot Hroots IH]; intros p Hk; cbn [foldl].
  { split_and!; [auto|by left|]. intros r Hr. by apply elem_of_nil in Hr. }
  destruct (add_writable_root_spec p root cwd Hk Hroot) as (Hk1 & He1 & Hg1 & Hr1).
  destruct (IH _ Hk1) as (He2 & Hg2 & Hr2). split_and!.
  - intros e [He|]%He2; auto.
  - intros path. destruct (Hg2 path) as [->|(H2 & r & t & Hr & Ht & Hpre)].
    + destruct (Hg1 path) as [<-|(H1 & t & Ht & Hpre)]; [by left|right]. split; [done|].
      exists root, t. split_and!; [left|done|done].
    + right. split; [done|]. exists r, t. split_and!; [by right|done|done].
  - assert (∀ r, denied_at (add_writable_root cwd p root) cwd r → denied_at p cwd r) as Hden.
    { intros r (e & [He|He]%He1 & Hd & Hpe); [by exists e|congruence]. }
    intros r [->|Hr]%elem_of_cons; [|destruct (Hr2 r Hr); auto].
    destruct Hr1 as [Hr1|?]; [left|by right]. destruct (Hg2 root) as [->|[-> _]]; done.
Qed.

(** Adding roots to a restricted policy grants what it says and nothing
    else.  Readable roots turn denied paths readable and change nothing else;
    writable roots only add write access below themselves; and every root ends
    up with the access it was added for, unless an entry denies exactly its path. *)
Theorem additional_roots_are_granted (p : FileSystemSandboxPolicy) (cwd : rstring) (roots : list rstring)
    (Hk : kind p = KRestricted) (Hroots : Forall canonical roots) :
  let q := with_additional_readable_roots p cwd roots in
  let w := with_additional_writable_roots p cwd roots in
  (∀ path, resolve_access_with_cwd q path cwd = resolve_access_with_cwd p path cwd ∨
     (resolve_access_with_cwd p path cwd = Deny ∧ resolve_access_with_cwd q path cwd = Read)) ∧
  (has_full_disk_read_access p = false →
     ∀ r, r ∈ roots → can_read_path_with_cwd q r cwd = true ∨ denied_at p cwd r) ∧
  (∀ path, resolve_access_with_cwd w path cwd = resolve_access_with_cwd p path cwd ∨
     (resolve_access_with_cwd w path cwd = Write ∧
      ∃ r t, r ∈ roots ∧ resolve_candidate_path path cwd = Some t ∧ path_starts_with t r = true)) ∧
  (∀ r, r ∈ roots → resolve_access_with_cwd w r cwd = Write ∨ denied_at p cwd r).
Proof using Type.
  cbv zeta. destruct (readable_roots_spec roots p cwd Hk Hroots) as (_ & Hg & Hr).
  destruct (writable_roots_spec roots p cwd Hk Hroots) as (_ & Hgw & Hrw).
  unfold with_additional_readable_roots, with_additional_writable_roots.
  split_and!; [|intros ->; exact Hr|exact Hgw|exact Hrw].
  destruct (has_full_disk_read_access p); [by left|exact Hg].
Qed.
End permissions.

(** ** Runs *)

(** A machine without symbolic links, where only [/tmp] and the workspace exist. *)
Definition sample_env : Env :=
  mk_env None (Ok (lit "/w")) None
    (λ p, bool_decide (p = lit "/tmp" ∨ p = lit "/w")) (λ _, false)
    (λ p, bool_decide (p = lit "/tmp" ∨ p = lit "/w")) (λ p, bool_decide (p = lit "/tmp" ∨ p = lit "/w"))
    (λ _, false) (λ p, Ok p) (λ _, None).

Lemma sample_current_dir : ∀ d, current_dir sample_env = Ok d → is_absolute d = true.
Proof. by intros d [= <-]. Qed.

Definition write_at (path : rstring) : FileSystemSandboxEntry := mk_entry (PathEntry path) Write.
Definition nested_roots : FileSystemSandboxPolicy := restricted [write_at (lit "/a"); write_at (lit "/a/.git/x")].
Definition nested_roots_swapped : FileSystemSandboxPolicy := restricted [write_at (lit "/a/.git/x"); write_at (lit "/a")].

(** The metadata check looks at the first write entry only.  Two policies
    with the same entries in another order, which give every path the same
    resolved access, disagree on a write to metadata of a nested writable root. *)
Theorem metadata_check_depends_on_entry_order :
  (∀ path cwd, resolve_access_with_cwd sample_env nested_roots path cwd =
               resolve_access_with_cwd sample_env nested_roots_swapped path cwd) ∧
  can_write_path_with_cwd sample_env nested_roots (lit "/a/.git/x/.codex/y") (lit "/w") = true ∧
  can_write_path_with_cwd sample_env nested_roots_swapped (lit "/a/.git/x/.codex/y") (lit "/w") = false.
Proof.
  split; [|by split; vm_compute]. intros path cwd. apply access_ext; [done|].
  intros e. rewrite !elem_resolved. cbn [entries nested_roots nested_roots_swapped restricted].
  split; intros (e0 & He0 & Hr); exists e0; (split; [|exact Hr]); set_solver.
Qed.

Lemma access_is_the_most_specific_entry_witness :
  resolve_access_with_cwd sample_env (restricted [mk_entry (Special Root) Read; write_at (lit "/w"); mk_entry (PathEntry (lit "/w/secret")) Deny])
    (lit "secret/key") (lit "/w") = Deny.
Proof.
  set (p := restricted _).
  destruct (access_is_the_most_specific_entry sample_env p (lit "secret/key") (lit "/w")) as (_ & _ & H & _).
  apply (proj1 (H eq_refl (lit "/w/secret/key") ltac:(by vm_compute)) (mk_resolved (lit "/w/secret") Deny)).
  split_and!.
  - apply elem_resolved. exists (mk_entry (PathEntry (lit "/w/secret")) Deny). split_and!; [|done|done].
    subst p. cbn [restricted entries]. set_solver.
  - apply path_starts_with_spec. by vm_compute.
  - assert (resolved_entries_with_cwd sample_env p (lit "/w") =
      [mk_resolved (lit "/") Read; mk_resolved (lit "/w") Write; mk_resolved (lit "/w/secret") Deny]) as -> by by vm_compute.
    intros e [->|[->|[->|He]%elem_of_cons]%elem_of_cons]%elem_of_cons _; [left; vm_compute; lia..|right; split; done|].
    by apply elem_of_nil in He.
Defined.

Lemma full_disk_access_is_sound_witness :
  has_full_disk_write_access (restricted [mk_entry (Special Root) Write; mk_entry (Special Minimal) Read]) = true ∧
  can_write_path_with_cwd sample_env (restricted [mk_entry (Special Root) Write; mk_entry (Special Minimal) Read])
    (lit "/etc/x") (lit "/w") = true.
Proof.
  split; [by vm_compute|].
  apply (proj2 (full_disk_access_is_sound sample_env sample_current_dir
    (restricted [mk_entry (Special Root) Write; mk_entry (Special Minimal) Read])
    (lit "/etc/x") (lit "/w") (lit "/w") (lit "/etc/x") ltac:(by vm_compute) ltac:(by vm_compute)
    ltac:(by repeat constructor))); by vm_compute.
Defined.

Lemma deny_restrictions_survive_witness :
  kind (preserve_deny_read_restrictions_from unrestricted (restricted [mk_entry (PathEntry (lit "/w/secret")) Deny])) = KRestricted.
Proof.
  apply (proj1 (deny_restrictions_survive sample_env sample_current_dir unrestricted
    (restricted [mk_entry (PathEntry (lit "/w/secret")) Deny]) (lit "/w") (lit "/w") ltac:(by vm_compute)
    ltac:(by repeat constructor)
    ltac:(repeat constructor; exists [lit "w"; lit "secret"]; split; [by apply (bool_decide_unpack _)|done]))
    (mk_entry (PathEntry (lit "/w/secret")) Deny)); [|done|done].
  cbn [restricted entries]. set_solver.
Defined.

Lemma workspace_metadata_is_protected_witness :
  ∃ r, workspace_write_root sample_env [lit "/w/.git/hooks"] (Some (lit "/w")) r ∧
    path_starts_with r (path_join sample_env (lit "/w") DOT_GIT) = true.
Proof.
  destruct (workspace_metadata_is_protected sample_env sample_current_dir [lit "/w/.git/hooks"] true true
    (lit "/w/.git/hooks/pre-commit") (lit "/w") (lit "/w") (lit "/w/.git/hooks/pre-commit") DOT_GIT
    ltac:(by vm_compute) ltac:(by vm_compute) ltac:(left) ltac:(by vm_compute) ltac:(by vm_compute))
    as (r & Hr & Hp & _). by exists r.
Defined.

Lemma materialized_policy_is_cwd_independent_witness :
  resolve_access_with_cwd sample_env
    (materialize_project_roots_with_cwd sample_env (restricted [mk_entry (Special (ProjectRoots None)) Write]) (lit "/w"))
    (lit "/w/x") (lit "/elsewhere") = Write.
Proof.
  etrans; [apply (proj1 (proj2 (proj2 (materialized_policy_is_cwd_independent sample_env sample_current_dir
    (restricted [mk_entry (Special (ProjectRoots None)) Write]) (lit "/w") (lit "/w") ltac:(by vm_compute))))
    (lit "/w/x") (lit "/elsewhere") (lit "/elsewhere") eq_refl ltac:(by vm_compute))|by vm_compute].
Defined.

Lemma additional_roots_are_granted_witness :
  resolve_access_with_cwd sample_env (with_additional_writable_roots sample_env policy_default (lit "/w") [lit "/w"])
    (lit "/w") (lit "/w") = Write.
Proof.
  destruct (additional_roots_are_granted sample_env policy_default (lit "/w") [lit "/w"] eq_refl
    ltac:(repeat constructor; exists [lit "w"]; split; [by apply (bool_decide_unpack _)|done]))
    as (_ & _ & _ & Hr).
  destruct (Hr (lit "/w") ltac:(left)) as [?|(e & He & Hd & _)]; [done|].
  assert (resolved_entries_with_cwd sample_env policy_default (lit "/w") = [mk_resolved (lit "/") Read]) as Heq by by vm_compute.
  rewrite Heq in He. apply list_elem_of_singleton in He as ->. done.
Defined.
