(* ===== verification/PermissionRoots.v ===== *)
(** * What sandboxes enforce ([protocol/src/permissions.rs], [protocol/src/protocol.rs])

    The projections of a permission profile: readable, writable and unreadable
    roots, the matcher for read denials, the signature that compares profiles,
    and the conversions from and to the older [SandboxPolicy].  The glob
    compiler of the globset crate is a parameter. *)
From stdpp Require Import sorting.
From S2P Require Import Prelude RustStr RustPath AbsolutePath Permissions.

(** ** The older policy *)
Inductive NetworkAccess := NARestricted | NAEnabled.
#[global] Instance NetworkAccess_eq_dec : EqDecision NetworkAccess.
Proof. solve_decision. Defined.
Definition na_is_enabled (n : NetworkAccess) : bool := match n with NAEnabled => true | _ => false end.

Inductive SandboxPolicy :=
| DangerFullAccess
| ReadOnly (network_access : bool)
| ExternalSandbox (network_access : NetworkAccess)
| WorkspaceWrite (writable_roots : list rstring) (network_access exclude_tmpdir_env_var exclude_slash_tmp : bool).
#[global] Instance SandboxPolicy_eq_dec : EqDecision SandboxPolicy.
Proof. solve_decision. Defined.

Definition sp_has_full_network_access (sp : SandboxPolicy) : bool :=
  match sp with
  | DangerFullAccess => true
  | ExternalSandbox n => na_is_enabled n
  | ReadOnly n => n
  | WorkspaceWrite _ n _ _ => n
  end.
Definition network_policy_from (sp : SandboxPolicy) : NetworkSandboxPolicy :=
  if sp_has_full_network_access sp then NetEnabled else NetRestricted.

(** ** Writable roots *)
Record WritableRoot := mk_writable { root : rstring; read_only_subpaths : list rstring; protected_metadata_names : list rstring }.

Definition path_contains_protected_metadata_name (w : WritableRoot) (path : rstring) : bool :=
  match path_strip_prefix path (root w) with
  | Some (first_component :: _) => existsb (λ name, bool_decide (as_os_str first_component = name)) (protected_metadata_names w)
  | _ => false
  end.
Definition is_path_writable (w : WritableRoot) (path : rstring) : bool :=
  if negb (path_starts_with path (root w)) then false
  else if existsb (path_starts_with path) (read_only_subpaths w) then false
  else negb (path_contains_protected_metadata_name w path).

(** ** Orders: [Path] by components, [String] by code points *)
Definition str_cmp : rstring → rstring → comparison := lex_cmp N.compare.
Definition component_rank (c : Component) : N :=
  match c with RootDir => 0 | CurDir => 1 | ParentDir => 2 | Normal _ => 3 end.
Definition component_cmp (a b : Component) : comparison :=
  match a, b with
  | Normal s, Normal t => str_cmp s t
  | _, _ => N.compare (component_rank a) (component_rank b)
  end.
Definition path_cmp (p q : rstring) : comparison := lex_cmp component_cmp (components p) (components q).
Definition path_le (p q : rstring) : Prop := path_cmp p q ≠ Gt.
#[global] Instance path_le_dec : RelDecision path_le.
Proof. intros p q. unfold path_le. apply _. Defined.
Definition str_le (p q : rstring) : Prop := str_cmp p q ≠ Gt.
#[global] Instance str_le_dec : RelDecision str_le.
Proof. intros p q. unfold str_le. apply _. Defined.
Definition root_le (a b : WritableRoot) : Prop := path_le (root a) (root b).
#[global] Instance root_le_dec : RelDecision root_le.
Proof. intros p q. unfold root_le. apply _. Defined.
(** [Vec::dedup]. *)
Fixpoint dedup_adjacent (l : list rstring) : list rstring :=
  match l with
  | x :: ((y :: _) as t) => if decide (x = y) then dedup_adjacent t else x :: dedup_adjacent t
  | _ => l
  end.
Definition sorted_absolute_paths (l : list rstring) : list rstring := merge_sort path_le l.
Definition sorted_writable_roots (l : list WritableRoot) : list WritableRoot :=
  merge_sort root_le
    ((λ w, mk_writable (root w) (sorted_absolute_paths (read_only_subpaths w))
             (dedup_adjacent (merge_sort str_le (protected_metadata_names w)))) <$> l).

Record FileSystemSemanticSignature := mk_signature {
  sig_full_read : bool; sig_full_write : bool; sig_platform_defaults : bool;
  sig_readable : list rstring; sig_writable : list WritableRoot;
  sig_unreadable : list rstring; sig_unreadable_globs : list rstring }.

Definition paths_eqb (a b : list rstring) : bool :=
  (length a =? length b) && forallb (λ pq, path_eqb pq.1 pq.2) (zip a b).
Definition writable_root_eqb (a b : WritableRoot) : bool :=
  path_eqb (root a) (root b) && paths_eqb (read_only_subpaths a) (read_only_subpaths b)
  && bool_decide (protected_metadata_names a = protected_metadata_names b).
Definition signature_eqb (a b : FileSystemSemanticSignature) : bool :=
  bool_decide (sig_full_read a = sig_full_read b) && bool_decide (sig_full_write a = sig_full_write b)
  && bool_decide (sig_platform_defaults a = sig_platform_defaults b)
  && paths_eqb (sig_readable a) (sig_readable b)
  && ((length (sig_writable a) =? length (sig_writable b))
      && forallb (λ pq, writable_root_eqb pq.1 pq.2) (zip (sig_writable a) (sig_writable b)))
  && paths_eqb (sig_unreadable a) (sig_unreadable b)
  && bool_decide (sig_unreadable_globs a = sig_unreadable_globs b).

Section roots.
Context (E : Env).

Definition get_readable_roots_with_cwd (p : FileSystemSandboxPolicy) (cwd : rstring) : list rstring :=
  if has_full_disk_read_access p then []
  else dedup_absolute_paths (normalize_effective_absolute_path E)
    (r_path <$> List.filter (λ e, can_read_path_with_cwd E p (r_path e) cwd)
                  (List.filter (λ e, can_read (r_access e)) (resolved_entries_with_cwd E p cwd))).

Definition protected_metadata_names_for_writable_root (p : FileSystemSandboxPolicy) (root : rstring)
    (raw_writable_roots : list rstring) (cwd : rstring) : list rstring :=
  List.filter (λ metadata_name,
      forallb (λ metadata_path, negb (can_write_path_with_cwd E p metadata_path cwd))
        (path_join E root metadata_name :: ((λ raw_root, path_join E raw_root metadata_name) <$> raw_writable_roots)))
    PROTECTED_METADATA_PATH_NAMES.

(** Where a narrower entry that is not writable is carved out of a root. *)
Definition raw_carveout_path (root : rstring) (raw_writable_roots : list rstring) (path : rstring) : option rstring :=
  if bool_decide (is_Some (parent root)) then
    if path_eqb path root then None
    else if path_starts_with path root then Some path
    else head (omap (λ raw_root,
                 suffix ← path_strip_prefix path raw_root;
                 if bool_decide (suffix = []) then None else Some (path_join E root (render suffix)))
               raw_writable_roots)
  else None.
Definition carveout (root : rstring) (raw_writable_roots : list rstring) (e : ResolvedFileSystemEntry) : option rstring :=
  let effective_path := normalize_effective_absolute_path E (r_path e) in
  match raw_carveout_path root raw_writable_roots (r_path e) with
  | Some raw => Some raw
  | None =>
      if path_eqb effective_path root || negb (path_starts_with effective_path root) then None
      else Some effective_path
  end.

Definition has_explicit_resolved_path_entry (es : list ResolvedFileSystemEntry) (path : rstring) : bool :=
  existsb (λ e, path_eqb (r_path e) path) es.

Definition writable_root_for (p : FileSystemSandboxPolicy) (cwd : rstring) (writable_entries : list rstring) (root : rstring) : WritableRoot :=
  let resolved_entries := resolved_entries_with_cwd E p cwd in
  let raw_writable_roots := List.filter (λ path, path_eqb (normalize_effective_absolute_path E path) root) writable_entries in
  let protect_missing_dot_codex :=
    match from_absolute E cwd with
    | Some cwd => path_eqb (normalize_effective_absolute_path E cwd) root
    | None => false
    end in
  let defaults := List.filter (λ path, negb (has_explicit_resolved_path_entry resolved_entries path))
                    (default_read_only_subpaths_for_writable_root E root protect_missing_dot_codex) in
  let carveouts := omap (carveout root raw_writable_roots)
                     (List.filter (λ e, negb (can_write_path_with_cwd E p (r_path e) cwd))
                        (List.filter (λ e, negb (can_write (r_access e))) resolved_entries)) in
  mk_writable root (dedup_absolute_paths id (defaults ++ carveouts))
    (protected_metadata_names_for_writable_root p root raw_writable_roots cwd).
Definition writable_entries (p : FileSystemSandboxPolicy) (cwd : rstring) : list rstring :=
  r_path <$> List.filter (λ e, can_write_path_with_cwd E p (r_path e) cwd)
               (List.filter (λ e, can_write (r_access e)) (resolved_entries_with_cwd E p cwd)).
Definition get_writable_roots_with_cwd (p : FileSystemSandboxPolicy) (cwd : rstring) : list WritableRoot :=
  if has_full_disk_write_access p then []
  else writable_root_for p cwd (writable_entries p cwd) <$>
    dedup_absolute_paths (normalize_effective_absolute_path E) (writable_entries p cwd).

Definition get_unreadable_roots_with_cwd (p : FileSystemSandboxPolicy) (cwd : rstring) : list rstring :=
  if is_restricted p then
    let root := from_absolute E cwd ≫= λ cwd, ok (absolute_root_path_for_cwd E cwd) in
    dedup_absolute_paths (normalize_effective_absolute_path E)
      (r_path <$> List.filter (λ e, negb (opt_path_eqb root (Some (r_path e))))
         (List.filter (λ e, negb (can_read_path_with_cwd E p (r_path e) cwd))
           (List.filter (λ e, bool_decide (r_access e = Deny)) (resolved_entries_with_cwd E p cwd))))
  else [].
Definition deny_glob (cwd : rstring) (e : FileSystemSandboxEntry) : option rstring :=
  match e_path e with
  | GlobPattern pattern => if is_deny e then Some (resolve_against E pattern cwd) else None
  | PathEntry _ | Special _ => None
  end.
Definition get_unreadable_globs_with_cwd (p : FileSystemSandboxPolicy) (cwd : rstring) : list rstring :=
  if is_restricted p then dedup_adjacent (merge_sort str_le (omap (deny_glob cwd) (entries p))) else [].

Definition semantic_signature (p : FileSystemSandboxPolicy) (cwd : rstring) : FileSystemSemanticSignature :=
  mk_signature (has_full_disk_read_access p) (has_full_disk_write_access p) (include_platform_defaults p)
    (sorted_absolute_paths (get_readable_roots_with_cwd p cwd))
    (sorted_writable_roots (get_writable_roots_with_cwd p cwd))
    (sorted_absolute_paths (get_unreadable_roots_with_cwd p cwd))
    (get_unreadable_globs_with_cwd p cwd).
Definition is_semantically_equivalent_to (p other : FileSystemSandboxPolicy) (cwd : rstring) : bool :=
  signature_eqb (semantic_signature p cwd) (semantic_signature other cwd).

(** ** Conversions from and to the older policy *)
Definition file_system_policy_from (sp : SandboxPolicy) : FileSystemSandboxPolicy :=
  match sp with
  | DangerFullAccess => unrestricted
  | ExternalSandbox _ => external_sandbox
  | ReadOnly _ => restricted [mk_entry (Special Root) Read]
  | WorkspaceWrite writable_roots _ exclude_tmpdir_env_var exclude_slash_tmp =>
      workspace_write E writable_roots exclude_tmpdir_env_var exclude_slash_tmp
  end.
(** The read-only metadata below the workspace and below each writable root. *)
Definition protect_roots (es : list FileSystemSandboxEntry) (cwd : rstring) (writable_roots : list rstring) : list FileSystemSandboxEntry :=
  let es := match from_absolute E cwd with
            | Some cwd_root => append_protected_subpaths E es cwd_root true
            | None => es
            end in
  foldl (λ es root, append_protected_subpaths E es root false) es writable_roots.
Definition from_legacy_sandbox_policy_for_cwd (sp : SandboxPolicy) (cwd : rstring) : FileSystemSandboxPolicy :=
  let p := file_system_policy_from sp in
  match sp with
  | WorkspaceWrite writable_roots _ _ _ => with_entries p (protect_roots (entries p) cwd writable_roots)
  | _ => p
  end.
Definition from_legacy_sandbox_policy_preserving_deny_entries (sp : SandboxPolicy) (cwd : rstring) (existing : FileSystemSandboxPolicy) :
    FileSystemSandboxPolicy :=
  let rebuilt := from_legacy_sandbox_policy_for_cwd sp cwd in
  if is_restricted rebuilt then
    mk_policy (kind rebuilt) (glob_scan_max_depth existing)
      (push_deny_entries (entries rebuilt) (List.filter is_deny (entries existing)))
  else rebuilt.
Definition legacy_runtime_file_system_policy_for_cwd (sp : SandboxPolicy) (cwd : rstring) : FileSystemSandboxPolicy :=
  match sp with
  | WorkspaceWrite writable_roots _ exclude_tmpdir_env_var exclude_slash_tmp =>
      restricted (protect_roots (workspace_entries writable_roots exclude_tmpdir_env_var exclude_slash_tmp) cwd writable_roots)
  | _ => file_system_policy_from sp
  end.

(** The state of the loop over the entries. *)
Record Bridge := mk_bridge {
  workspace_root_writable : bool; bridge_roots : list rstring;
  tmpdir_writable : bool; slash_tmp_writable : bool; unbridgeable_root_write : bool }.
Definition bridge_init : Bridge := mk_bridge false [] false false false.
Definition bridge_workspace (b : Bridge) : Bridge :=
  mk_bridge true (bridge_roots b) (tmpdir_writable b) (slash_tmp_writable b) (unbridgeable_root_write b).
Definition bridge_push (b : Bridge) (path : rstring) : Bridge :=
  mk_bridge (workspace_root_writable b) (bridge_roots b ++ [path]) (tmpdir_writable b) (slash_tmp_writable b) (unbridgeable_root_write b).
Definition bridge_entry (cwd : option rstring) (b : Bridge) (e : FileSystemSandboxEntry) : Bridge :=
  match e_path e with
  | GlobPattern _ => b
  | PathEntry path =>
      if can_write (e_access e)
      then if match cwd with Some cwd => path_eqb cwd path | None => false end then bridge_workspace b else bridge_push b path
      else b
  | Special Root =>
      match e_access e with
      | Deny | Read => b
      | Write => mk_bridge (workspace_root_writable b) (bridge_roots b) (tmpdir_writable b) (slash_tmp_writable b) true
      end
  | Special Minimal | Special (Unknown _ _) => b
  | Special (ProjectRoots subpath) =>
      if bool_decide (subpath = None) && can_write (e_access e) then bridge_workspace b
      else match resolve_file_system_special_path E (ProjectRoots subpath) cwd with
           | Some path => if can_write (e_access e) then bridge_push b path else b
           | None => b
           end
  | Special Tmpdir =>
      if can_write (e_access e)
      then mk_bridge (workspace_root_writable b) (bridge_roots b) true (slash_tmp_writable b) (unbridgeable_root_write b) else b
  | Special SlashTmp =>
      if can_write (e_access e)
      then mk_bridge (workspace_root_writable b) (bridge_roots b) (tmpdir_writable b) true (unbridgeable_root_write b) else b
  end.
Definition UNBRIDGEABLE : rstring :=
  lit "permissions profile requests filesystem writes outside the workspace root, which is not supported until the runtime enforces FileSystemSandboxPolicy directly".
Definition to_legacy_sandbox_policy (p : FileSystemSandboxPolicy) (network_policy : NetworkSandboxPolicy) (cwd : rstring) :
    outcome rstring SandboxPolicy :=
  let unrestricted_policy := if net_is_enabled network_policy then DangerFullAccess else ExternalSandbox NARestricted in
  match kind p with
  | KExternalSandbox => Ok (ExternalSandbox (if net_is_enabled network_policy then NAEnabled else NARestricted))
  | KUnrestricted => Ok unrestricted_policy
  | KRestricted =>
      let b := foldl (bridge_entry (from_absolute E cwd)) bridge_init (entries p) in
      if has_full_disk_write_access p then Ok unrestricted_policy
      else if workspace_root_writable b then
        Ok (WorkspaceWrite (dedup_absolute_paths id (bridge_roots b)) (net_is_enabled network_policy)
              (negb (tmpdir_writable b)) (negb (slash_tmp_writable b)))
      else if unbridgeable_root_write b || negb (bool_decide (bridge_roots b = [])) || tmpdir_writable b || slash_tmp_writable b
      then Err UNBRIDGEABLE
      else Ok (ReadOnly (net_is_enabled network_policy))
  end.

(** [SandboxPolicy::get_writable_roots_with_cwd] on Unix. *)
Definition sp_writable_roots_with_cwd (sp : SandboxPolicy) (cwd : rstring) : list WritableRoot :=
  match sp with
  | DangerFullAccess | ExternalSandbox _ | ReadOnly _ => []
  | WorkspaceWrite writable_roots _ exclude_tmpdir_env_var exclude_slash_tmp =>
      let cwd_root := from_absolute E cwd in
      let roots := writable_roots ++ option_list cwd_root
        ++ (if exclude_slash_tmp then []
            else match from_absolute E (lit "/tmp") with
                 | Some slash_tmp => if is_dir E slash_tmp then [slash_tmp] else []
                 | None => []
                 end)
        ++ (if exclude_tmpdir_env_var then []
            else match tmpdir_var E with
                 | Some tmpdir => if decide (tmpdir = []) then [] else option_list (from_absolute E tmpdir)
                 | None => []
                 end) in
      (λ writable_root,
         let protect_missing_dot_codex := match cwd_root with Some cwd_root => path_eqb cwd_root writable_root | None => false end in
         mk_writable writable_root (default_read_only_subpaths_for_writable_root E writable_root protect_missing_dot_codex) [])
      <$> roots
  end.

(** ** When the older policy cannot stand for the profile *)
Definition metadata_names_escape (legacy_roots : list WritableRoot) (w : WritableRoot) : bool :=
  match List.find (λ candidate, path_eqb (root candidate) (root w)) legacy_roots with
  | None => negb (bool_decide (protected_metadata_names w = []))
  | Some legacy_root =>
      existsb (λ metadata_name,
          negb (existsb (λ subpath, path_eqb subpath (path_join E (root w) metadata_name)) (read_only_subpaths legacy_root)))
        (protected_metadata_names w)
  end.
Definition protected_metadata_names_need_direct_runtime_enforcement (p : FileSystemSandboxPolicy) (legacy_policy : SandboxPolicy)
    (cwd : rstring) : bool :=
  existsb (metadata_names_escape (sp_writable_roots_with_cwd legacy_policy cwd)) (get_writable_roots_with_cwd p cwd).
Definition needs_direct_runtime_enforcement (p : FileSystemSandboxPolicy) (network_policy : NetworkSandboxPolicy) (cwd : rstring) : bool :=
  if negb (is_restricted p) then false
  else match to_legacy_sandbox_policy p network_policy cwd with
  | Ok legacy_policy =>
      if protected_metadata_names_need_direct_runtime_enforcement p legacy_policy cwd then true
      else negb (signature_eqb (semantic_signature p cwd)
                   (semantic_signature (legacy_runtime_file_system_policy_for_cwd legacy_policy cwd) cwd))
  | _ => true
  end.

(** ** Read denials at run time *)
Definition push_unique (candidates : list rstring) (candidate : rstring) : list rstring :=
  if existsb (λ existing, path_eqb existing candidate) candidates then candidates else candidates ++ [candidate].
Definition normalized_and_canonical_candidates (path : rstring) : list rstring :=
  let candidates := push_unique [] (default path (from_absolute E path)) in
  match ok (canonicalize E path) ≫= from_absolute E with
  | Some canonical_absolute => push_unique candidates canonical_absolute
  | None => candidates
  end.

Record ReadDenyMatcher := mk_matcher {
  denied_candidates : list (list rstring); deny_read_matchers : list (rstring → bool); invalid_pattern : bool }.
Inductive InvalidDenyReadGlobBehavior := FailClosed | ReturnError.

Context (build_glob_matcher : rstring → (rstring → bool) + rstring).

Fixpoint compile_globs (behavior : InvalidDenyReadGlobBehavior) (ms : list (rstring → bool)) (invalid : bool) (patterns : list rstring) :
    outcome rstring (list (rstring → bool) * bool) :=
  match patterns with
  | [] => Ok (ms, invalid)
  | pattern :: rest =>
      match build_glob_matcher pattern with
      | inl matcher => compile_globs behavior (ms ++ [matcher]) invalid rest
      | inr err =>
          match behavior with
          | FailClosed => compile_globs behavior ms true rest
          | ReturnError => Err (lit "invalid deny-read glob pattern `" ++ pattern ++ lit "`: " ++ err)
          end
      end
  end.
Definition build (p : FileSystemSandboxPolicy) (cwd : rstring) (behavior : InvalidDenyReadGlobBehavior) : outcome rstring (option ReadDenyMatcher) :=
  if negb (has_denied_read_restrictions p) then Ok None
  else match compile_globs behavior [] false (get_unreadable_globs_with_cwd p cwd) with
  | Ok (ms, invalid) => Ok (Some (mk_matcher (normalized_and_canonical_candidates <$> get_unreadable_roots_with_cwd p cwd) ms invalid))
  | Err e => Err e
  | Panic => Panic
  end.
(** [unreachable!] for an error. *)
Definition new (p : FileSystemSandboxPolicy) (cwd : rstring) : outcome rstring (option ReadDenyMatcher) :=
  match build p cwd FailClosed with
  | Ok matcher => Ok matcher
  | _ => Panic
  end.
Definition try_new (p : FileSystemSandboxPolicy) (cwd : rstring) : outcome rstring (option ReadDenyMatcher) := build p cwd ReturnError.
Definition is_read_denied (m : ReadDenyMatcher) (path : rstring) : bool :=
  if invalid_pattern m then true
  else let path_candidates := normalized_and_canonical_candidates path in
       if existsb (λ denied, existsb (λ candidate,
             existsb (λ d, path_eqb candidate d || path_starts_with candidate d) denied) path_candidates) (denied_candidates m)
       then true
       else existsb (λ matcher, existsb matcher path_candidates) (deny_read_matchers m).

End roots.

(** ** Lemmas: what the bridge ignores *)

(** [appends es es']: entries that do not grant writes were added at the end. *)
Definition appends (es es' : list FileSystemSandboxEntry) : Prop :=
  ∃ rest, es' = es ++ rest ∧ Forall (λ e, can_write (e_access e) = false) rest.
#[local] Instance appends_preorder : PreOrder appends.
Proof.
  split; [intros es; exists []; by rewrite app_nil_r|].
  intros a b c (r1 & -> & H1) (r2 & -> & H2). exists (r1 ++ r2). by rewrite <- app_assoc, Forall_app.
Qed.
Lemma appends_one es e : can_write (e_access e) = false → appends es (es ++ [e]).
Proof. intros H. exists [e]. by repeat constructor. Qed.
Lemma fold_appends {A} (f : list FileSystemSandboxEntry → A → list FileSystemSandboxEntry) es l :
  (∀ es a, a ∈ l → appends es (f es a)) → appends es (foldl f es l).
Proof.
  revert es. induction l as [|a l IH]; intros es Hf; [done|]. cbn. etrans; [apply Hf; left|].
  apply IH. intros es' b Hb. apply Hf. by right.
Qed.
Lemma append_default_appends es path : appends es (append_default_read_only_entry_if_no_explicit_rule es path).
Proof. unfold append_default_read_only_entry_if_no_explicit_rule. destruct (existsb _ es); [done|by apply appends_one]. Qed.
Lemma append_protected_appends E es r b : appends es (append_protected_subpaths E es r b).
Proof. apply fold_appends. intros. apply append_default_appends. Qed.
Lemma protect_roots_appends E es cwd roots : appends es (protect_roots E es cwd roots).
Proof.
  unfold protect_roots. etrans; [|apply fold_appends; intros; apply append_protected_appends].
  destruct (from_absolute E cwd); [apply append_protected_appends|done].
Qed.
Lemma workspace_write_appends E roots a b : appends (workspace_entries roots a b) (entries (workspace_write E roots a b)).
Proof.
  unfold workspace_write. cbn [entries restricted].
  etrans; [|apply fold_appends; intros; apply append_protected_appends].
  apply fold_appends. intros. apply append_default_appends.
Qed.
Lemma push_deny_appends es existing : appends es (push_deny_entries es (List.filter is_deny existing)).
Proof.
  apply fold_appends. intros es' d Hd%filter_deny. destruct (existsb _ es'); [done|].
  apply appends_one. by destruct Hd as [_ ->].
Qed.

(** ** Lemmas: removing duplicates *)
Lemma dedup_snoc f l x :
  dedup_absolute_paths f (l ++ [x]) =
  if existsb (path_eqb (f x)) (dedup_absolute_paths f l) then dedup_absolute_paths f l else dedup_absolute_paths f l ++ [f x].
Proof. unfold dedup_absolute_paths. by rewrite foldl_app. Qed.
Lemma dedup_subset f l x : x ∈ dedup_absolute_paths f l → ∃ y, y ∈ l ∧ x = f y.
Proof.
  induction l as [|y l IH] using rev_ind; [by intros ?%elem_of_nil|]. rewrite dedup_snoc.
  destruct (existsb _ _); [|intros [Hx|Hx]%elem_of_app; [|apply list_elem_of_singleton in Hx as ->; exists y; set_solver]].
  - intros (z & Hz & ->)%IH. exists z. set_solver.
  - destruct (IH Hx) as (z & Hz & ->). exists z. set_solver.
Qed.
Lemma dedup_member f l y : y ∈ l → ∃ x, x ∈ dedup_absolute_paths f l ∧ path_eq (f y) x.
Proof.
  induction l as [|z l IH] using rev_ind; [by intros ?%elem_of_nil|]. rewrite dedup_snoc.
  intros [Hy|Hy]%elem_of_app.
  - destruct (IH Hy) as (x & Hx & Heq). exists x. split; [|done]. destruct (existsb _ _); [done|]. set_solver.
  - apply list_elem_of_singleton in Hy as ->. destruct (existsb _ _) eqn:Hex.
    + apply existsb_exists in Hex as (x & Hx%list_elem_of_In & Heq%bool_decide_eq_true). by exists x.
    + exists (f z). split; [set_solver|done].
Qed.
Lemma dedup_idemp l : dedup_absolute_paths id (dedup_absolute_paths id l) = dedup_absolute_paths id l.
Proof.
  induction l as [|x l IH] using rev_ind; [done|]. rewrite dedup_snoc.
  destruct (existsb _ _) eqn:Hex; [done|]. unfold id in *. by rewrite dedup_snoc, IH, Hex.
Qed.
Lemma filter_all {A} (f : A → bool) l : (∀ x, x ∈ l → f x = true) → List.filter f l = l.
Proof.
  induction l as [|x l IH]; intros H; [done|]. cbn. rewrite H by left. f_equal. apply IH. intros y Hy. apply H. by right.
Qed.

Section legacy.
Context (E : Env).

Lemma bridge_ignores cwd b es : Forall (λ e, can_write (e_access e) = false) es → foldl (bridge_entry E cwd) b es = b.
Proof using Type.
  induction 1 as [|e es He _ IH]; [done|]. cbn [foldl]. assert (bridge_entry E cwd b e = b) as ->; [|done].
  unfold bridge_entry. destruct (e_path e) as [path|pattern|[]]; rewrite ?He; try done.
  - by destruct (e_access e).
  - rewrite andb_false_r. by destruct (resolve_file_system_special_path _ _ _).
Qed.

Definition not_workspace (cwd : option rstring) (path : rstring) : bool :=
  negb (match cwd with Some cwd => path_eqb cwd path | None => false end).

Lemma bridge_roots_fold cwd roots l tmp stmp u :
  foldl (bridge_entry E cwd) (mk_bridge true l tmp stmp u) ((λ path, mk_entry (PathEntry path) Write) <$> roots)
  = mk_bridge true (l ++ List.filter (not_workspace cwd) roots) tmp stmp u.
Proof using Type.
  revert l. induction roots as [|r roots IH]; intros l; cbn [fmap list_fmap foldl List.filter]; [by rewrite app_nil_r|].
  unfold not_workspace at 1. cbn [bridge_entry e_path e_access can_write].
  destruct (match cwd with Some c => path_eqb c r | None => false end); cbn [negb]; [apply IH|].
  unfold bridge_push. cbn. rewrite IH, <- app_assoc. done.
Qed.

Lemma bridge_workspace_entries cwd roots no_tmpdir no_slash_tmp :
  foldl (bridge_entry E cwd) bridge_init (workspace_entries roots no_tmpdir no_slash_tmp)
  = mk_bridge true (List.filter (not_workspace cwd) roots) (negb no_tmpdir) (negb no_slash_tmp) false.
Proof using Type. unfold workspace_entries. rewrite !foldl_app. destruct no_slash_tmp, no_tmpdir; apply bridge_roots_fold. Qed.

(** The older policy a profile is projected to: the workspace and repeated roots are left out. *)
Definition legacy_normal (cwd : rstring) (sp : SandboxPolicy) : SandboxPolicy :=
  match sp with
  | WorkspaceWrite roots net no_tmpdir no_slash_tmp =>
      WorkspaceWrite (dedup_absolute_paths id (List.filter (not_workspace (from_absolute E cwd)) roots)) net no_tmpdir no_slash_tmp
  | _ => sp
  end.

Lemma no_root_write_not_full depth es :
  (∀ a, mk_entry (Special Root) a ∈ es → can_write a = false) → has_full_disk_write_access (mk_policy KRestricted depth es) = false.
Proof using Type.
  intros H. apply andb_false_iff. left. apply not_true_is_false. intros [_ (a & Hin & Ha)]%has_root_access_spec.
  rewrite (H a Hin) in Ha. done.
Qed.
Lemma workspace_not_full roots no_tmpdir no_slash_tmp es depth :
  appends (workspace_entries roots no_tmpdir no_slash_tmp) es → has_full_disk_write_access (mk_policy KRestricted depth es) = false.
Proof using Type.
  intros (rest & -> & Hrest). apply no_root_write_not_full. intros a [Hin|Hin]%elem_of_app.
  - unfold workspace_entries in Hin. rewrite !elem_of_app in Hin.
    destruct Hin as [Hin|[Hin|[Hin|Hin]]].
    + apply elem_of_cons in Hin as [[= ->]|Hin]; [done|]. by apply list_elem_of_singleton in Hin.
    + destruct no_slash_tmp; [by apply elem_of_nil in Hin|by apply list_elem_of_singleton in Hin].
    + destruct no_tmpdir; [by apply elem_of_nil in Hin|by apply list_elem_of_singleton in Hin].
    + by apply list_elem_of_fmap in Hin as (r & ? & _).
  - rewrite Forall_forall in Hrest. by apply (Hrest _ Hin).
Qed.

Lemma to_legacy_workspace roots net no_tmpdir no_slash_tmp es depth cwd :
  appends (workspace_entries roots no_tmpdir no_slash_tmp) es →
  to_legacy_sandbox_policy E (mk_policy KRestricted depth es) (network_policy_from (WorkspaceWrite roots net no_tmpdir no_slash_tmp)) cwd
  = Ok (legacy_normal cwd (WorkspaceWrite roots net no_tmpdir no_slash_tmp)).
Proof using Type.
  intros Happ. unfold to_legacy_sandbox_policy. cbn [kind entries].
  rewrite (workspace_not_full _ _ _ _ _ Happ).
  destruct Happ as (rest & -> & Hrest). rewrite foldl_app, bridge_workspace_entries, bridge_ignores by done.
  cbn [workspace_root_writable bridge_roots tmpdir_writable slash_tmp_writable]. rewrite !negb_involutive.
  by destruct net.
Qed.

Lemma to_legacy_read_only net es depth cwd :
  appends [mk_entry (Special Root) Read] es →
  to_legacy_sandbox_policy E (mk_policy KRestricted depth es) (network_policy_from (ReadOnly net)) cwd = Ok (ReadOnly net).
Proof using Type.
  intros (rest & -> & Hrest). unfold to_legacy_sandbox_policy. cbn [kind entries].
  assert (has_full_disk_write_access (mk_policy KRestricted depth ([mk_entry (Special Root) Read] ++ rest)) = false) as ->.
  { apply no_root_write_not_full. intros a [[= ->]|Hin]%elem_of_cons; [done|].
    rewrite Forall_forall in Hrest. by apply (Hrest _ Hin). }
  rewrite foldl_app, (bridge_ignores _ _ rest) by done. by destruct net.
Qed.

Lemma legacy_projections (sp : SandboxPolicy) (cwd : rstring) (existing : FileSystemSandboxPolicy) :
  let net := network_policy_from sp in
  to_legacy_sandbox_policy E (file_system_policy_from E sp) net cwd = Ok (legacy_normal cwd sp) ∧
  to_legacy_sandbox_policy E (from_legacy_sandbox_policy_for_cwd E sp cwd) net cwd = Ok (legacy_normal cwd sp) ∧
  to_legacy_sandbox_policy E (from_legacy_sandbox_policy_preserving_deny_entries E sp cwd existing) net cwd = Ok (legacy_normal cwd sp) ∧
  to_legacy_sandbox_policy E (legacy_runtime_file_system_policy_for_cwd E sp cwd) net cwd = Ok (legacy_normal cwd sp) ∧
  legacy_normal cwd (legacy_normal cwd sp) = legacy_normal cwd sp.
Proof using Type.
  cbv zeta. destruct sp as [|net|net|roots net no_tmpdir no_slash_tmp]; [done| |by destruct net|].
  - split_and!; [by apply to_legacy_read_only..| |by apply to_legacy_read_only|done].
    apply to_legacy_read_only. apply push_deny_appends.
  - split_and!.
    + apply to_legacy_workspace, workspace_write_appends.
    + apply to_legacy_workspace. etrans; [apply workspace_write_appends|apply protect_roots_appends].
    + apply to_legacy_workspace. etrans; [|apply push_deny_appends].
      etrans; [apply workspace_write_appends|apply protect_roots_appends].
    + apply to_legacy_workspace, protect_roots_appends.
    + cbn [legacy_normal]. f_equal. rewrite filter_all; [apply dedup_idemp|].
      intros x (y & Hy & ->)%dedup_subset. by apply list_elem_of_In, filter_In in Hy as [_ Hy].
Qed.

(** A policy survives the trip through the profile model.  Whatever the
    working directory, whichever conversion is used, and whatever denials the
    profile carries over, projecting the profile gives the policy back, with the
    network access it had; only the workspace among the writable roots, which
    is implied, and repeated roots are left out, once and for all. *)
Theorem legacy_policy_roundtrip (sp : SandboxPolicy) (cwd : rstring) (existing : FileSystemSandboxPolicy) :
  let net := network_policy_from sp in
  to_legacy_sandbox_policy E (file_system_policy_from E sp) net cwd = Ok (legacy_normal cwd sp) ∧
  to_legacy_sandbox_policy E (from_legacy_sandbox_policy_for_cwd E sp cwd) net cwd = Ok (legacy_normal cwd sp) ∧
  to_legacy_sandbox_policy E (from_legacy_sandbox_policy_preserving_deny_entries E sp cwd existing) net cwd = Ok (legacy_normal cwd sp) ∧
  to_legacy_sandbox_policy E (legacy_runtime_file_system_policy_for_cwd E sp cwd) net cwd = Ok (legacy_normal cwd sp) ∧
  legacy_normal cwd (legacy_normal cwd sp) = legacy_normal cwd sp.
Proof using Type. apply legacy_projections. Qed.
End legacy.

(** ** Lemmas: paths without symbolic links *)
Section enforcement.
Context (E : Env) (current_dir_absolute : ∀ d, current_dir E = Ok d → is_absolute d = true).
(** No path is reached through a link: resolving it gives it back, or fails as it does not exist. *)
Context (no_links : ∀ a, canonical a → canonicalize E a = Ok a ∨ ∃ e, canonicalize E a = Err e).

Lemma ancestors_fuel_canonical n segs a :
  Forall segment segs → a ∈ ancestors_fuel n (abs_path segs) → ∃ pre suf, segs = pre ++ suf ∧ a = abs_path pre.
Proof using Type.
  revert segs. induction n as [|n IH]; intros segs Hf Ha; [by apply elem_of_nil in Ha|]. cbn [ancestors_fuel] in Ha.
  apply elem_of_cons in Ha as [->|Ha]; [exists segs, []; by rewrite app_nil_r|].
  destruct segs as [|s segs _] using rev_ind; [by apply elem_of_nil in Ha|]. rewrite parent_abs_path in Ha by done.
  apply Forall_app in Hf as [Hf _]. destruct (IH segs Hf Ha) as (pre & suf & -> & ->).
  exists pre, (suf ++ [s]). by rewrite app_assoc.
Qed.

Lemma from_absolute_push pre suf :
  Forall segment (pre ++ suf) → from_absolute E (push (abs_path pre) (render (Normal <$> suf))) = Some (abs_path (pre ++ suf)).
Proof using Type.
  intros Hf. apply Forall_app in Hf as Hps. destruct Hps as [Hp Hs].
  assert (render (Normal <$> suf) = join_with [RustPath.slash] suf) as ->.
  { unfold render. destruct suf as [|s suf]; [done|]. cbn [fmap list_fmap as_os_str]. do 2 f_equal.
    clear. induction suf as [|t suf IH]; [done|]. cbn. by f_equal. }
  assert (is_absolute (join_with [RustPath.slash] suf) = false) as Hrel.
  { destruct suf as [|s suf]; [done|]. apply (bool_decide_eq_false_2 _).
    apply Forall_cons in Hs as [(Hne & Hns & _) _]. destruct s as [|c s]; [done|].
    intros Heq. apply Hns. destruct suf; injection Heq as ->; left. }
  destruct (components_push (abs_path pre) _ eq_refl Hrel) as [Habs Hcomp].
  unfold from_absolute, from_absolute_path. assert (maybe_expand_home_directory (home_dir E) (push (abs_path pre) (join_with [RustPath.slash] suf))
    = push (abs_path pre) (join_with [RustPath.slash] suf)) as ->.
  { unfold maybe_expand_home_directory. apply (bool_decide_eq_true_1 _) in Habs.
    destruct (push _ _) as [|c q]; [done|]. injection Habs as ->. by destruct (home_dir E). }
  unfold absolutize. rewrite Habs. cbn [ok]. f_equal.
  destruct (normalize_absolute _ Habs) as [_ ->]. rewrite Hcomp, components_abs_path by done.
  assert (omap piece_component (split RustPath.slash (join_with [RustPath.slash] suf)) = Normal <$> suf) as ->.
  { destruct suf as [|s suf]; [done|]. rewrite split_join; [by apply omap_segments|done|].
    eapply Forall_impl; [exact Hs|]. by intros x (_ & ? & _). }
  rewrite <- app_comm_cons, <- fmap_app. by rewrite resolve_segments.
Qed.

Lemma normalize_effective_id p : canonical p → normalize_effective_absolute_path E p = p.
Proof using no_links.
  intros (segs & Hf & ->). unfold normalize_effective_absolute_path.
  destruct (head _) as [q|] eqn:Hq; [|done]. cbn [default]. apply head_Some_elem_of in Hq.
  apply list_elem_of_omap in Hq as (a & Ha & Hv). unfold ancestors in Ha.
  apply ancestors_fuel_canonical in Ha as (pre & suf & -> & ->); [|done].
  apply Forall_app in Hf as Hps. destruct Hps as [Hp Hs]. assert (canonical (abs_path pre)) as Hc by by exists pre.
  unfold effective_via in Hv. destruct (symlink_metadata_ok E _); [|done].
  assert (canonicalize_preserving_symlinks (home_dir E) (current_dir E) (canonicalize E) (is_symlink E) (abs_path pre) = Ok (abs_path pre)) as Hcan.
  { unfold canonicalize_preserving_symlinks. rewrite from_absolute_fixpoint by done. cbn [mbind].
    destruct (no_links _ Hc) as [->|[e ->]]; [|done]. cbn [outcome_bind].
    by destruct (should_preserve_logical_path (is_symlink E) (abs_path pre) && negb (bool_decide (path_eq (abs_path pre) (abs_path pre)))). }
  rewrite Hcan in Hv. cbn [ok] in Hv. unfold path_strip_prefix, path_starts_with in Hv.
  rewrite !components_abs_path in Hv by done. rewrite bool_decide_true in Hv by (rewrite fmap_app; by apply prefix_cons, prefix_app_r).
  cbn [mbind option_bind] in Hv. rewrite fmap_app in Hv. cbn [length drop] in Hv.
  rewrite drop_app_length' in Hv by done. rewrite from_absolute_push in Hv by done. by injection Hv.
Qed.

Lemma resolved_canonical p cwd e : policy_ok p → e ∈ resolved_entries_with_cwd E p cwd → canonical (r_path e).
Proof using current_dir_absolute.
  intros Hok (e0 & Hin & _ & Hres)%elem_resolved. unfold policy_ok in Hok. rewrite Forall_forall in Hok.
  specialize (Hok _ Hin). unfold entry_ok in Hok. destruct (e_path e0) as [path| |value]; [by injection Hres as <-|done|].
  destruct (from_absolute E cwd) as [c|] eqn:Hc; [apply (from_absolute_Some E current_dir_absolute) in Hc|].
  - destruct value as [| |[s|]| | |]; cbn [resolve_entry_path resolve_file_system_path resolve_file_system_special_path mbind option_bind] in Hres; try done.
    + rewrite absolute_root_path_ok in Hres by done. injection Hres as <-. by exists [].
    + injection Hres as <-. by apply resolve_against_canonical, canonical_absolute.
    + by injection Hres as <-.
    + apply bind_Some in Hres as (tmp & _ & Hres). case_decide; [done|]. by eapply from_absolute_Some.
    + apply bind_Some in Hres as (tmp & Htmp & Hres). destruct (is_dir E tmp); [|done].
      injection Hres as <-. by eapply from_absolute_Some.
  - destruct value as [| |[s|]| | |]; cbn [resolve_entry_path resolve_file_system_path resolve_file_system_special_path mbind option_bind] in Hres; try done.
    + apply bind_Some in Hres as (tmp & _ & Hres). case_decide; [done|]. by eapply from_absolute_Some.
    + apply bind_Some in Hres as (tmp & Htmp & Hres). destruct (is_dir E tmp); [|done].
      injection Hres as <-. by eapply from_absolute_Some.
Qed.

(** An entry that decides a path decides its own path too. *)
Lemma decides_own_path p t cwd e :
  kind p = KRestricted → canonical (r_path e) → decides (resolved_entries_with_cwd E p cwd) t e →
  resolve_access_with_cwd E p (r_path e) cwd = r_access e.
Proof using Type.
  intros Hk Hc (Hin & Hcov & Hmax). eapply access_of_decides; [done|by apply candidate_id|]. split_and!; [done|by unfold covers|].
  intros e' He' Hcov'. apply Hmax; [done|]. unfold covers in *. by etrans.
Qed.

Lemma elem_writable_entries p cwd r :
  r ∈ writable_entries E p cwd ↔
  mk_resolved r Write ∈ resolved_entries_with_cwd E p cwd ∧ can_write_path_with_cwd E p r cwd = true.
Proof using Type.
  unfold writable_entries. rewrite list_elem_of_fmap. setoid_rewrite list_elem_of_In. setoid_rewrite filter_In.
  setoid_rewrite filter_In. split.
  - intros ([q a] & -> & [[Hin Ha] Hw]). by destruct a.
  - intros [Hin Hw]. by exists (mk_resolved r Write).
Qed.
Lemma can_write_resolves p path cwd : can_write_path_with_cwd E p path cwd = true → resolve_access_with_cwd E p path cwd = Write.
Proof using Type. unfold can_write_path_with_cwd. by destruct (resolve_access_with_cwd E p path cwd). Qed.

(** A narrower entry that does not grant writes is carved out of the root. *)
Lemma carveout_kept p cwd r e :
  canonical (r_path e) → canonical r → e ∈ resolved_entries_with_cwd E p cwd → r_access e ≠ Write →
  resolve_access_with_cwd E p (r_path e) cwd ≠ Write → path_starts_with (r_path e) r = true → ¬ path_eq (r_path e) r →
  ∃ s, s ∈ read_only_subpaths (writable_root_for E p cwd (writable_entries E p cwd) r) ∧ path_eq (r_path e) s.
Proof using no_links.
  intros Hce Hcr Hin Hnw Hacc Hbelow Hneq. unfold writable_root_for. cbn [read_only_subpaths].
  apply (dedup_member id). apply elem_of_app. right. apply list_elem_of_omap. exists e. split.
  - rewrite list_elem_of_In, !filter_In, <- list_elem_of_In. split_and!; [done|by destruct (r_access e)|].
    unfold can_write_path_with_cwd. by destruct (resolve_access_with_cwd E p (r_path e) cwd).
  - assert (path_eqb (r_path e) r = false) as Hne by by apply bool_decide_eq_false.
    unfold carveout, raw_carveout_path. rewrite Hne, Hbelow. rewrite normalize_effective_id, Hne, Hbelow by done.
    by destruct (bool_decide (is_Some (parent r))).
Qed.

Lemma elem_writable_roots p cwd W :
  policy_ok p → W ∈ get_writable_roots_with_cwd E p cwd →
  W = writable_root_for E p cwd (writable_entries E p cwd) (root W) ∧ root W ∈ writable_entries E p cwd ∧ canonical (root W).
Proof using current_dir_absolute no_links.
  intros Hok. unfold get_writable_roots_with_cwd. destruct (has_full_disk_write_access p); [by intros ?%elem_of_nil|].
  intros (r & -> & (r0 & Hr0 & ->)%dedup_subset)%list_elem_of_fmap.
  assert (canonical r0) as Hc.
  { apply elem_writable_entries in Hr0 as [Hin _]. by apply (resolved_canonical p cwd) in Hin. }
  rewrite normalize_effective_id by done. done.
Qed.

Lemma root_decided p cwd t r :
  kind p = KRestricted → policy_ok p → canonical t → r ∈ writable_entries E p cwd → path_starts_with t r = true →
  resolve_access_with_cwd E p t cwd ≠ Write →
  ∃ e, e ∈ resolved_entries_with_cwd E p cwd ∧ covers t e ∧ canonical (r_path e) ∧ r_access e ≠ Write ∧
    resolve_access_with_cwd E p (r_path e) cwd ≠ Write ∧ path_starts_with (r_path e) r = true ∧ ¬ path_eq (r_path e) r.
Proof using current_dir_absolute.
  intros Hk Hok Ht [Hr Hw%can_write_resolves]%elem_writable_entries Hbelow Hacc.
  pose proof (candidate_id E t cwd Ht) as Hcand. apply (path_starts_with_spec t (mk_resolved r Write)) in Hbelow.
  destruct (access_decided E p t cwd t Hk Hcand) as [(e & Hdec & He)|[Hno _]]; [|by destruct (Hno _ Hr)].
  rewrite He in Hacc. pose proof Hdec as (Hin & Hcov & Hmax). pose proof (resolved_canonical p cwd e Hok Hin) as Hce.
  pose proof (decides_own_path p t cwd e Hk Hce Hdec) as Hown. rewrite <- Hown in Hacc.
  assert (canonical r) as Hcr by by apply (resolved_canonical p cwd) in Hr.
  exists e. split_and!; [done..|by rewrite <- Hown|done| |].
  - apply (path_starts_with_spec (r_path e) (mk_resolved r Write)). eapply prefix_by_length; [exact Hbelow|exact Hcov|].
    destruct (Hmax _ Hr Hbelow) as [Hl|[Heq _]]; [lia|]. unfold path_eq in Heq. by rewrite Heq.
  - intros Heq%canonical_eq; [|done..]. congruence.
Qed.

Lemma protected_name_kept p cwd r name :
  canonical r → policy_ok p → name ∈ PROTECTED_METADATA_PATH_NAMES → can_write_path_with_cwd E p (path_join E r name) cwd = false →
  name ∈ protected_metadata_names (writable_root_for E p cwd (writable_entries E p cwd) r).
Proof using current_dir_absolute no_links.
  intros Hcr Hok Hname Hnw. unfold writable_root_for. cbn [protected_metadata_names].
  unfold protected_metadata_names_for_writable_root. rewrite list_elem_of_In, filter_In, <- list_elem_of_In.
  split; [done|]. cbn [forallb]. rewrite Hnw. cbn [negb andb]. apply forallb_forall.
  intros q (raw & -> & Hraw)%list_elem_of_In%list_elem_of_fmap.
  apply list_elem_of_In, filter_In in Hraw as [Hraw Heq%bool_decide_eq_true].
  apply list_elem_of_In, elem_writable_entries in Hraw as [Hraw _].
  apply (resolved_canonical p cwd) in Hraw; [|done]. cbn [r_path] in Hraw.
  rewrite normalize_effective_id in Heq by done. apply canonical_eq in Heq as ->; [|done..]. by rewrite Hnw.
Qed.

Lemma below_metadata t r name :
  canonical t → canonical r → name ∈ PROTECTED_METADATA_PATH_NAMES → path_starts_with t (path_join E r name) = true →
  ∃ rest, path_strip_prefix t r = Some (Normal name :: rest).
Proof using Type.
  intros Ht (segs & Hf & ->) Hname Hpre%bool_decide_eq_true. destruct (protected_name_segment name Hname) as [Hseg Hhome].
  unfold path_strip_prefix, path_starts_with.
  rewrite path_join_segment, components_child in Hpre by done. destruct Hpre as [rest Hrest]. rewrite Hrest, <- app_assoc.
  rewrite bool_decide_true by by eexists. exists rest. by rewrite drop_app_length.
Qed.

(** C6: the roots a sandbox is given never allow more than the entries of the profile say.  Where
    the file system has no symbolic links and the paths of the policy are absolute and
    normalised, a normalised path that a writable root of a restricted policy lets through has write
    access by the most specific entry; and of the protected metadata directories that lie
    directly in that root, it is in none that the profile does not let be
    written.  (Metadata further down, of a root inside the root, is only kept from by the
    inner root, and the outer one lets it through: [nested_metadata_escapes].) *)
Theorem writable_roots_are_sound (p : FileSystemSandboxPolicy) (cwd t : rstring) (W : WritableRoot)
    (Hk : kind p = KRestricted) (Hok : policy_ok p) (Ht : canonical t)
    (HW : W ∈ get_writable_roots_with_cwd E p cwd) (Hw : is_path_writable W t = true) :
  resolve_access_with_cwd E p t cwd = Write ∧
  (∀ name, name ∈ PROTECTED_METADATA_PATH_NAMES → path_starts_with t (path_join E (root W) name) = true →
     can_write_path_with_cwd E p (path_join E (root W) name) cwd = true).
Proof using current_dir_absolute no_links.
  destruct (elem_writable_roots p cwd W Hok HW) as (HWr & Hroot & Hcr). unfold is_path_writable in Hw.
  destruct (path_starts_with t (root W)) eqn:Hbelow; [cbn [negb] in Hw|done].
  destruct (existsb (path_starts_with t) (read_only_subpaths W)) eqn:Hro; [done|]. split.
  - destruct (decide (resolve_access_with_cwd E p t cwd = Write)) as [|Hacc]; [done|]. exfalso.
    destruct (root_decided p cwd t (root W) Hk Hok Ht Hroot Hbelow Hacc) as (e & Hin & Hcov & Hce & Hnw & Hacc' & Hb & Hne).
    destruct (carveout_kept p cwd (root W) e Hce Hcr Hin Hnw Hacc' Hb Hne) as (s & Hs & Heq). rewrite <- HWr in Hs.
    apply not_true_iff_false in Hro. apply Hro, existsb_exists. exists s. rewrite <- list_elem_of_In. split; [done|].
    apply bool_decide_eq_true. unfold path_eq in Heq. by rewrite <- Heq.
  - intros name Hname Hpre. apply not_false_is_true. intros Hnw.
    pose proof (protected_name_kept p cwd (root W) name Hcr Hok Hname Hnw) as Hin. rewrite <- HWr in Hin.
    destruct (below_metadata t (root W) name Ht Hcr Hname Hpre) as (rest & Hrest).
    unfold path_contains_protected_metadata_name in Hw. rewrite Hrest in Hw. apply negb_true_iff, not_true_iff_false in Hw.
    apply Hw, existsb_exists. exists name. rewrite <- list_elem_of_In. split; [done|]. by apply bool_decide_eq_true.
Qed.

(** ** Lemmas: the read-deny matcher *)
Lemma candidates_plain t : canonical t → normalized_and_canonical_candidates E t = [t].
Proof using no_links.
  intros Ht. unfold normalized_and_canonical_candidates. rewrite (from_absolute_id E t Ht). cbn [default].
  destruct (no_links t Ht) as [->|[e ->]]; [|done]. cbn [ok mbind option_bind]. rewrite (from_absolute_id E t Ht).
  unfold push_unique. cbn [existsb app]. unfold path_eqb. by rewrite bool_decide_true.
Qed.

Lemma elem_dedup_adjacent l x : x ∈ dedup_adjacent l ↔ x ∈ l.
Proof using Type.
  clear. induction l as [|y l IH]; [done|]. destruct l as [|z l]; [done|]. cbn [dedup_adjacent].
  destruct (decide (y = z)) as [->|]; [rewrite IH|rewrite elem_of_cons, IH]; set_solver.
Qed.

Lemma elem_unreadable_globs p cwd pattern :
  kind p = KRestricted →
  pattern ∈ get_unreadable_globs_with_cwd E p cwd ↔ ∃ e, e ∈ entries p ∧ deny_glob E cwd e = Some pattern.
Proof using Type.
  intros Hk. unfold get_unreadable_globs_with_cwd, is_restricted. rewrite bool_decide_true by done.
  rewrite elem_dedup_adjacent, merge_sort_Permutation. apply list_elem_of_omap.
Qed.

Lemma elem_unreadable_roots p cwd c q :
  kind p = KRestricted → policy_ok p → from_absolute E cwd = Some c →
  q ∈ get_unreadable_roots_with_cwd E p cwd →
  mk_resolved q Deny ∈ resolved_entries_with_cwd E p cwd ∧ can_read_path_with_cwd E p q cwd = false ∧ q ≠ [RustPath.slash].
Proof using current_dir_absolute no_links.
  intros Hk Hok Hc. unfold get_unreadable_roots_with_cwd, is_restricted. rewrite bool_decide_true, Hc by done.
  cbn [mbind option_bind]. rewrite absolute_root_path_ok by (by eapply from_absolute_Some). cbn [ok].
  intros (r & ([r' a] & -> & Hin)%list_elem_of_fmap & ->)%dedup_subset.
  rewrite list_elem_of_In, !filter_In, <- list_elem_of_In in Hin. cbn [r_path r_access] in *.
  destruct Hin as [[[Hin ->%bool_decide_eq_true] Hr%negb_true_iff] Hne%negb_true_iff].
  rewrite normalize_effective_id by (by apply (resolved_canonical p cwd) in Hin). split_and!; [done..|].
  intros ->. by apply bool_decide_eq_false in Hne.
Qed.

Lemma unreadable_root_kept p cwd c e :
  kind p = KRestricted → policy_ok p → from_absolute E cwd = Some c →
  e ∈ resolved_entries_with_cwd E p cwd → r_access e = Deny → can_read_path_with_cwd E p (r_path e) cwd = false →
  r_path e ≠ [RustPath.slash] → r_path e ∈ get_unreadable_roots_with_cwd E p cwd.
Proof using current_dir_absolute no_links.
  intros Hk Hok Hc Hin Ha Hr Hne. pose proof (resolved_canonical p cwd e Hok Hin) as Hce.
  assert (∃ x, x ∈ get_unreadable_roots_with_cwd E p cwd ∧ path_eq (r_path e) x) as (x & Hx & Heq).
  { unfold get_unreadable_roots_with_cwd, is_restricted. rewrite bool_decide_true, Hc by done.
    cbn [mbind option_bind]. rewrite absolute_root_path_ok by (by eapply from_absolute_Some). cbn [ok].
    edestruct (dedup_member (normalize_effective_absolute_path E)) as (x & Hx & Heq);
      [|exists x; split; [exact Hx|by rewrite normalize_effective_id in Heq]].
    apply list_elem_of_fmap. exists e. split; [done|]. rewrite list_elem_of_In, !filter_In, <- list_elem_of_In.
    split_and!; [done|by apply bool_decide_eq_true|by rewrite Hr|]. apply negb_true_iff, bool_decide_eq_false.
    intros Heq%canonical_eq; [by rewrite <- Heq in Hne|by exists []|done]. }
  apply (elem_unreadable_roots p cwd c x Hk Hok Hc) in Hx as Hx'. destruct Hx' as (Hin' & _).
  apply (resolved_canonical p cwd) in Hin'; [|done]. by apply canonical_eq in Heq as ->.
Qed.

Section globs.
Context (build_glob_matcher : rstring → (rstring → bool) + rstring).
Definition compiled (pattern : rstring) : option (rstring → bool) :=
  match build_glob_matcher pattern with inl f => Some f | inr _ => None end.
Definition malformed (pattern : rstring) : bool :=
  match build_glob_matcher pattern with inl _ => false | inr _ => true end.

Lemma compile_fail_closed ms invalid ps :
  compile_globs build_glob_matcher FailClosed ms invalid ps = Ok (ms ++ omap compiled ps, invalid || existsb malformed ps).
Proof using Type.
  revert ms invalid. induction ps as [|p ps IH]; intros ms invalid; cbn [compile_globs omap list_omap existsb].
  { by rewrite app_nil_r, orb_false_r. }
  unfold compiled, malformed. destruct (build_glob_matcher p); rewrite IH; [by rewrite <- app_assoc|].
  by rewrite orb_true_r.
Qed.
Lemma compile_return_error ms invalid ps :
  if existsb malformed ps
  then ∃ pattern err, pattern ∈ ps ∧ build_glob_matcher pattern = inr err ∧
    compile_globs build_glob_matcher ReturnError ms invalid ps
    = Err (lit "invalid deny-read glob pattern `" ++ pattern ++ lit "`: " ++ err)
  else compile_globs build_glob_matcher ReturnError ms invalid ps = Ok (ms ++ omap compiled ps, invalid).
Proof using Type.
  revert ms. induction ps as [|p ps IH]; intros ms; cbn [compile_globs omap list_omap existsb].
  { by rewrite app_nil_r. }
  unfold compiled, malformed. destruct (build_glob_matcher p) as [f|err] eqn:Hp; cbn [orb].
  - specialize (IH (ms ++ [f])). fold compiled malformed. destruct (existsb malformed ps).
    + destruct IH as (pattern & err & Hin & Hb & He). exists pattern, err. split_and!; [by right|done|done].
    + rewrite IH. by rewrite <- app_assoc.
  - exists p, err. split_and!; [left|done|done].
Qed.

(** The glob [pattern] of a deny entry. *)
Definition denies_glob (p : FileSystemSandboxPolicy) (cwd pattern : rstring) : Prop :=
  ∃ e, e ∈ entries p ∧ deny_glob E cwd e = Some pattern.
(** An entry other than the whole disk that denies its own path. *)
Definition denies_below (p : FileSystemSandboxPolicy) (cwd : rstring) (e : ResolvedFileSystemEntry) : Prop :=
  e ∈ resolved_entries_with_cwd E p cwd ∧ r_access e = Deny ∧
  can_read_path_with_cwd E p (r_path e) cwd = false ∧ r_path e ≠ [RustPath.slash].

Lemma exists_malformed p cwd :
  kind p = KRestricted →
  existsb malformed (get_unreadable_globs_with_cwd E p cwd) = true ↔
  ∃ pattern err, denies_glob p cwd pattern ∧ build_glob_matcher pattern = inr err.
Proof using Type.
  intros Hk. rewrite existsb_exists. setoid_rewrite <- list_elem_of_In. unfold malformed. split.
  - intros (pattern & Hin%elem_unreadable_globs & Hm); [|done]. destruct (build_glob_matcher pattern) as [|err] eqn:Hb; [done|].
    by exists pattern, err.
  - intros (pattern & err & Hin & Hb). exists pattern. rewrite elem_unreadable_globs, Hb by done. done.
Qed.

Lemma root_denies p cwd c t :
  kind p = KRestricted → policy_ok p → from_absolute E cwd = Some c → canonical t →
  existsb (λ denied, existsb (λ candidate, existsb (λ d, path_eqb candidate d || path_starts_with candidate d) denied) [t])
    (normalized_and_canonical_candidates E <$> get_unreadable_roots_with_cwd E p cwd) = true ↔
  ∃ e, denies_below p cwd e ∧ covers t e.
Proof using current_dir_absolute no_links.
  intros Hk Hok Hc Ht. rewrite existsb_exists. setoid_rewrite <- list_elem_of_In. split.
  - intros (denied & (q & -> & Hq)%list_elem_of_fmap & Hd).
    destruct (elem_unreadable_roots p cwd c q Hk Hok Hc Hq) as (Hin & Hr & Hne).
    rewrite candidates_plain in Hd by (by apply (resolved_canonical p cwd) in Hin).
    exists (mk_resolved q Deny). split; [by split_and!|]. apply path_starts_with_spec. cbn [existsb] in Hd. rewrite !orb_false_r in Hd.
    apply orb_prop in Hd as [Hd|Hd]; [|done]. apply bool_decide_eq_true in Hd. apply bool_decide_eq_true. cbn [r_path].
    unfold path_eq in Hd. by rewrite Hd.
  - intros (e & (Hin & Ha & Hr & Hne) & Hcov). exists (normalized_and_canonical_candidates E (r_path e)). split.
    + apply list_elem_of_fmap. exists (r_path e). split; [done|]. by eapply unreadable_root_kept.
    + rewrite candidates_plain by (by apply (resolved_canonical p cwd) in Hin). cbn [existsb].
      apply path_starts_with_spec in Hcov. by rewrite Hcov, orb_true_r.
Qed.

Lemma glob_denies p cwd t :
  kind p = KRestricted →
  existsb (λ matcher, existsb matcher [t]) (omap compiled (get_unreadable_globs_with_cwd E p cwd)) = true ↔
  ∃ pattern f, denies_glob p cwd pattern ∧ build_glob_matcher pattern = inl f ∧ f t = true.
Proof using Type.
  intros Hk. rewrite existsb_exists. setoid_rewrite <- list_elem_of_In. cbn [existsb]. split.
  - intros (f & Hf' & Hf). apply list_elem_of_omap in Hf' as (pattern & Hin & Hb).
    apply elem_unreadable_globs in Hin; [|done]. rewrite orb_false_r in Hf. exists pattern, f. split_and!; [done| |done]. unfold compiled in Hb. destruct (build_glob_matcher pattern); [|done]. by injection Hb as ->.
  - intros (pattern & f & Hin & Hb & Hf). exists f. rewrite orb_false_r. split; [|done]. apply list_elem_of_omap. exists pattern.
    rewrite elem_unreadable_globs by done. split; [done|]. unfold compiled. by rewrite Hb.
Qed.

(** The matcher of a profile's read denials.  With a deny entry there
    always is one, and it refuses a path exactly when the path is at or below an
    entry (other than the whole disk) that denies its own path, or when a
    denied glob matches it, or, failing closed, when some denied glob is
    malformed; so it refuses every path whose most specific entry denies it.
    The constructor for host-side work is the same matcher unless a glob is
    malformed, which it reports. *)
Theorem read_denials_are_enforced (p : FileSystemSandboxPolicy) (cwd c t : rstring)
    (Hk : kind p = KRestricted) (Hok : policy_ok p) (Hc : from_absolute E cwd = Some c) (Ht : canonical t)
    (Hdeny : has_denied_read_restrictions p = true) :
  ∃ m, new E build_glob_matcher p cwd = Ok (Some m) ∧
  (is_read_denied E m t = true ↔
     (∃ pattern err, denies_glob p cwd pattern ∧ build_glob_matcher pattern = inr err) ∨
     (∃ e, denies_below p cwd e ∧ covers t e) ∨
     (∃ pattern f, denies_glob p cwd pattern ∧ build_glob_matcher pattern = inl f ∧ f t = true)) ∧
  (∀ e, decides (resolved_entries_with_cwd E p cwd) t e → r_access e = Deny → r_path e ≠ [RustPath.slash] →
     is_read_denied E m t = true) ∧
  (try_new E build_glob_matcher p cwd = Ok (Some m) ∨
   ∃ pattern err, denies_glob p cwd pattern ∧ build_glob_matcher pattern = inr err ∧
     try_new E build_glob_matcher p cwd = Err (lit "invalid deny-read glob pattern `" ++ pattern ++ lit "`: " ++ err)).
Proof using current_dir_absolute no_links.
  set (globs := get_unreadable_globs_with_cwd E p cwd).
  set (m := mk_matcher (normalized_and_canonical_candidates E <$> get_unreadable_roots_with_cwd E p cwd)
              (omap compiled globs) (existsb malformed globs)).
  assert (is_read_denied E m t = true ↔
     (∃ pattern err, denies_glob p cwd pattern ∧ build_glob_matcher pattern = inr err) ∨
     (∃ e, denies_below p cwd e ∧ covers t e) ∨
     (∃ pattern f, denies_glob p cwd pattern ∧ build_glob_matcher pattern = inl f ∧ f t = true)) as Hiff.
  { unfold is_read_denied. cbn [m invalid_pattern denied_candidates deny_read_matchers]. rewrite candidates_plain by done.
    rewrite <- exists_malformed, <- (root_denies p cwd c t), <- glob_denies by done. fold globs.
    destruct (existsb malformed globs); [by split; [left|]|].
    destruct (existsb _ (_ <$> _)); [by split; [right; left|]|]. split; [by right; right|]. by intros [?|[?|?]]. }
  exists m. split_and!; [|exact Hiff| |].
  - unfold new, build. rewrite Hdeny. cbn [negb]. by rewrite compile_fail_closed.
  - intros e Hdec Ha Hne. apply Hiff. right; left. exists e. split; [|apply Hdec]. split_and!; [apply Hdec|done| |done].
    pose proof Hdec as (Hin & _). pose proof (resolved_canonical p cwd e Hok Hin) as Hce.
    unfold can_read_path_with_cwd. by rewrite (decides_own_path p t cwd e Hk Hce Hdec), Ha.
  - unfold try_new, build. rewrite Hdeny. cbn [negb]. fold globs.
    pose proof (compile_return_error [] false globs) as Hret. destruct (existsb _ globs) eqn:Hex.
    + destruct Hret as (pattern & err & Hin & Hb & ->). right. exists pattern, err. split_and!; [|done|done].
      by apply elem_unreadable_globs.
    + left. by rewrite Hret.
Qed.
End globs.
End enforcement.

(** ** Runs *)
Definition workspace : rstring := lit "/w".
Lemma sample_no_links : ∀ a, canonical a → canonicalize sample_env a = Ok a ∨ ∃ e, canonicalize sample_env a = Err e.
Proof. by left. Qed.

(** The order of the entries shows in the comparison that is to ignore it. *)
Lemma signature_depends_on_entry_order :
  is_semantically_equivalent_to sample_env nested_roots nested_roots_swapped workspace = false.
Proof. by vm_compute. Qed.

(** A writable root inside another one: the check of a single path refuses its
    [.git], the outer root lets it through. *)
Definition root_in_root : FileSystemSandboxPolicy :=
  restricted [mk_entry (Special Root) Read; write_at (lit "/a"); write_at (lit "/a/b")].
Lemma nested_metadata_escapes :
  can_write_path_with_cwd sample_env root_in_root (lit "/a/b/.git/x") workspace = false ∧
  (λ W, (root W, is_path_writable W (lit "/a/b/.git/x"))) <$> get_writable_roots_with_cwd sample_env root_in_root workspace
  = [(lit "/a", true); (lit "/a/b", false)].
Proof. by split; vm_compute. Qed.

Definition docs_policy : FileSystemSandboxPolicy :=
  restricted [mk_entry (Special Root) Read; mk_entry (Special (ProjectRoots None)) Write; mk_entry (PathEntry (lit "/w/docs")) Read].
(** Read-only documents below the workspace are more than the older policy can say. *)
Example docs_need_direct_enforcement :
  to_legacy_sandbox_policy sample_env docs_policy NetRestricted workspace = Ok (WorkspaceWrite [] false true true) ∧
  needs_direct_runtime_enforcement sample_env docs_policy NetRestricted workspace = true ∧
  needs_direct_runtime_enforcement sample_env policy_default NetRestricted workspace = false.
Proof. by split_and!; vm_compute. Qed.

Definition workspace_root : WritableRoot := mk_writable workspace [lit "/w/.codex"; lit "/w/docs"] [DOT_GIT; DOT_AGENTS; DOT_CODEX].
Lemma canonical_2 s t : bool_decide (Forall segment [s; t]) = true → canonical (abs_path [s; t]).
Proof. intros H. exists [s; t]. split; [by apply (bool_decide_eq_true_1 _)|done]. Qed.

Lemma writable_roots_are_sound_witness :
  is_path_writable workspace_root (lit "/w/src") = true ∧
  resolve_access_with_cwd sample_env docs_policy (lit "/w/src") workspace = Write.
Proof.
  split; [by vm_compute|].
  apply (writable_roots_are_sound sample_env sample_current_dir sample_no_links docs_policy workspace (lit "/w/src") workspace_root eq_refl);
    [| |by vm_compute; left|by vm_compute].
  - repeat constructor. by apply (canonical_2 (lit "w") (lit "docs")); vm_compute.
  - by apply (canonical_2 (lit "w") (lit "src")); vm_compute.
Defined.

(** A glob compiler that takes a text as itself and refuses the empty one. *)
Definition literal_glob (pattern : rstring) : (rstring → bool) + rstring :=
  if decide (pattern = []) then inr (lit "empty") else inl (λ path, bool_decide (path = pattern)).
Definition secret_policy : FileSystemSandboxPolicy :=
  restricted [mk_entry (Special Root) Read; mk_entry (PathEntry (lit "/w/secret")) Deny; mk_entry (GlobPattern (lit "key")) Deny].
Lemma read_denials_are_enforced_witness :
  ∃ m, new sample_env literal_glob secret_policy workspace = Ok (Some m) ∧
    is_read_denied sample_env m (lit "/w/key") = true.
Proof.
  destruct (read_denials_are_enforced sample_env sample_current_dir sample_no_links literal_glob secret_policy workspace workspace
    (lit "/w/key") eq_refl) as (m & Hm & Hiff & _).
  - repeat constructor. by apply (canonical_2 (lit "w") (lit "secret")); vm_compute.
  - by vm_compute.
  - by apply (canonical_2 (lit "w") (lit "key")); vm_compute.
  - done.
  - exists m. split; [done|]. apply Hiff. right; right. exists (lit "/w/key"). eexists. split_and!.
    + exists (mk_entry (GlobPattern (lit "key")) Deny). split; [by right; right; left|by vm_compute].
    + unfold literal_glob. rewrite decide_False by done. reflexivity.
    + by apply bool_decide_eq_true.
Defined.
