(* ===== verification/PermissionProfile.v ===== *)
(** * Permission profiles ([protocol/src/models.rs])

    The permissions a request may add, in their two serialised shapes, and the
    permission profile of a session: who builds the sandbox, what it grants,
    and the conversions between profiles, run-time policies and the older
    sandbox policies.  [unreachable!] is [Panic]; a [NonZeroUsize] is a
    [positive]. *)
From S2P Require Import Prelude RustStr RustPath AbsolutePath Permissions PermissionRoots.

(** [NonZeroUsize::new]. *)
Definition non_zero (n : N) : option positive := match n with 0%N => None | N.pos p => Some p end.

(** ** Additional permissions *)
Record FileSystemPermissions := mk_fsp { fsp_entries : list FileSystemSandboxEntry; fsp_glob_scan_max_depth : option positive }.
Definition LegacyReadWriteRoots : Type := option (list rstring) * option (list rstring).

Definition fsp_is_empty (p : FileSystemPermissions) : bool := match fsp_entries p with [] => true | _ => false end.
Definition entries_with (access : FileSystemAccessMode) (paths : option (list rstring)) : list FileSystemSandboxEntry :=
  match paths with Some l => (λ path, mk_entry (PathEntry path) access) <$> l | None => [] end.
Definition from_read_write_roots (read write : option (list rstring)) : FileSystemPermissions :=
  mk_fsp (entries_with Read read ++ entries_with Write write) None.
Definition explicit_path_entries (p : FileSystemPermissions) : list (rstring * FileSystemAccessMode) :=
  omap (λ e, match e_path e with PathEntry path => Some (path, e_access e) | GlobPattern _ | Special _ => None end) (fsp_entries p).

(** The loop over the entries; [None] when an entry has no older form. *)
Fixpoint legacy_roots (read write : list rstring) (es : list FileSystemSandboxEntry) : option (list rstring * list rstring) :=
  match es with
  | [] => Some (read, write)
  | e :: es =>
      match e_path e with
      | PathEntry path =>
          match e_access e with
          | Read => legacy_roots (read ++ [path]) write es
          | Write => legacy_roots read (write ++ [path]) es
          | Deny => None
          end
      | GlobPattern _ | Special _ => None
      end
  end.
Definition non_empty (l : list rstring) : option (list rstring) := match l with [] => None | _ => Some l end.
Definition as_legacy_permissions (p : FileSystemPermissions) : option LegacyReadWriteRoots :=
  match fsp_glob_scan_max_depth p with
  | Some _ => None
  | None => '(read, write) ← legacy_roots [] [] (fsp_entries p); Some (non_empty read, non_empty write)
  end.
Definition legacy_read_write_roots (p : FileSystemPermissions) : option LegacyReadWriteRoots := as_legacy_permissions p.

(** The serialised object: the fields it has, of the canonical and of the older shape. *)
Record PermissionsObject := mk_object {
  f_entries : option (list FileSystemSandboxEntry); f_glob_scan_max_depth : option positive;
  f_read : option (list rstring); f_write : option (list rstring) }.
Definition serialize_permissions (p : FileSystemPermissions) : PermissionsObject :=
  match as_legacy_permissions p with
  | Some (read, write) => mk_object None None read write
  | None => mk_object (match fsp_entries p with [] => None | es => Some es end) (fsp_glob_scan_max_depth p) None None
  end.
(** Untagged, unknown fields denied: the canonical shape if it fits, else the older one. *)
Definition deserialize_permissions (o : PermissionsObject) : option FileSystemPermissions :=
  match f_read o, f_write o with
  | None, None => Some (mk_fsp (default [] (f_entries o)) (f_glob_scan_max_depth o))
  | read, write =>
      match f_entries o, f_glob_scan_max_depth o with
      | None, None => Some (from_read_write_roots read write)
      | _, _ => None
      end
  end.

Record NetworkPermissions := mk_np { np_enabled : option bool }.
Definition np_is_empty (p : NetworkPermissions) : bool := match np_enabled p with None => true | _ => false end.
Record AdditionalPermissionProfile := mk_additional { ap_network : option NetworkPermissions; ap_file_system : option FileSystemPermissions }.
Definition ap_is_empty (p : AdditionalPermissionProfile) : bool :=
  match ap_network p, ap_file_system p with None, None => true | _, _ => false end.

(** ** Profiles *)
Inductive SandboxEnforcement := EnforceManaged | EnforceDisabled | EnforceExternal.
#[global] Instance SandboxEnforcement_eq_dec : EqDecision SandboxEnforcement.
Proof. solve_decision. Defined.
Definition enforcement_from_legacy (sp : SandboxPolicy) : SandboxEnforcement :=
  match sp with
  | DangerFullAccess => EnforceDisabled
  | ExternalSandbox _ => EnforceExternal
  | ReadOnly _ | WorkspaceWrite _ _ _ _ => EnforceManaged
  end.

Inductive ManagedFileSystemPermissions :=
| MRestricted (entries : list FileSystemSandboxEntry) (glob_scan_max_depth : option positive)
| MUnrestricted.
Definition from_sandbox_policy (p : FileSystemSandboxPolicy) : outcome rstring ManagedFileSystemPermissions :=
  match kind p with
  | KRestricted => Ok (MRestricted (entries p) (glob_scan_max_depth p ≫= non_zero))
  | KUnrestricted => Ok MUnrestricted
  | KExternalSandbox => Panic
  end.
Definition to_sandbox_policy (m : ManagedFileSystemPermissions) : FileSystemSandboxPolicy :=
  match m with
  | MRestricted es depth => mk_policy KRestricted (N.pos <$> depth) es
  | MUnrestricted => unrestricted
  end.

Inductive PermissionProfile :=
| Managed (file_system : ManagedFileSystemPermissions) (network : NetworkSandboxPolicy)
| Disabled
| External (network : NetworkSandboxPolicy).
Definition profile_default : PermissionProfile := Managed (MRestricted [] None) NetRestricted.
Definition read_only : PermissionProfile := Managed (MRestricted [mk_entry (Special Root) Read] None) NetRestricted.

Definition enforcement (p : PermissionProfile) : SandboxEnforcement :=
  match p with Managed _ _ => EnforceManaged | Disabled => EnforceDisabled | External _ => EnforceExternal end.
Definition file_system_sandbox_policy (p : PermissionProfile) : FileSystemSandboxPolicy :=
  match p with
  | Managed file_system _ => to_sandbox_policy file_system
  | Disabled => unrestricted
  | External _ => external_sandbox
  end.
Definition network_sandbox_policy (p : PermissionProfile) : NetworkSandboxPolicy :=
  match p with Managed _ network | External network => network | Disabled => NetEnabled end.
Definition to_runtime_permissions (p : PermissionProfile) : FileSystemSandboxPolicy * NetworkSandboxPolicy :=
  (file_system_sandbox_policy p, network_sandbox_policy p).

Definition from_runtime_permissions_with_enforcement (enforcement : SandboxEnforcement) (p : FileSystemSandboxPolicy)
    (network : NetworkSandboxPolicy) : outcome rstring PermissionProfile :=
  match kind p with
  | KExternalSandbox => Ok (External network)
  | KUnrestricted =>
      if bool_decide (enforcement = EnforceDisabled) then Ok Disabled
      else let? file_system := from_sandbox_policy p in Ok (Managed file_system network)
  | KRestricted => let? file_system := from_sandbox_policy p in Ok (Managed file_system network)
  end.
Definition from_runtime_permissions (p : FileSystemSandboxPolicy) (network : NetworkSandboxPolicy) : outcome rstring PermissionProfile :=
  let enforcement := match kind p with KRestricted | KUnrestricted => EnforceManaged | KExternalSandbox => EnforceExternal end in
  from_runtime_permissions_with_enforcement enforcement p network.

(** [From] between the permissions of a request and a policy. *)
Definition network_permissions_from (n : NetworkSandboxPolicy) : NetworkPermissions := mk_np (Some (net_is_enabled n)).
Definition permissions_from_policy (p : FileSystemSandboxPolicy) : FileSystemPermissions :=
  mk_fsp (match kind p with
          | KRestricted => entries p
          | KUnrestricted | KExternalSandbox => [mk_entry (Special Root) Write]
          end) (glob_scan_max_depth p ≫= non_zero).
Definition policy_from_permissions (p : FileSystemPermissions) : FileSystemSandboxPolicy :=
  mk_policy KRestricted (N.pos <$> fsp_glob_scan_max_depth p) (fsp_entries p).

(** The profile of a rollout file from before enforcement was explicit. *)
Record LegacyPermissionProfile := mk_legacy_profile {
  lp_network : option NetworkPermissions; lp_file_system : option FileSystemPermissions }.
Definition profile_from_legacy (v : LegacyPermissionProfile) : outcome rstring PermissionProfile :=
  let p := match lp_file_system v with Some fs => policy_from_permissions fs | None => restricted [] end in
  let network := if default false (lp_network v ≫= np_enabled) then NetEnabled else NetRestricted in
  from_runtime_permissions p network.

Section profiles.
Context (E : Env).

Definition workspace_write_with (writable_roots : list rstring) (network : NetworkSandboxPolicy)
    (exclude_tmpdir_env_var exclude_slash_tmp : bool) : outcome rstring PermissionProfile :=
  let? file_system := from_sandbox_policy (Permissions.workspace_write E writable_roots exclude_tmpdir_env_var exclude_slash_tmp) in
  Ok (Managed file_system network).
Definition workspace_write : outcome rstring PermissionProfile := workspace_write_with [] NetRestricted false false.
Definition materialize_project_roots_with_workspace_roots (p : PermissionProfile) (workspace_roots : list rstring) :
    outcome rstring PermissionProfile :=
  match p with
  | Managed file_system network =>
      let? file_system := from_sandbox_policy
        (Permissions.materialize_project_roots_with_workspace_roots E (to_sandbox_policy file_system) workspace_roots) in
      Ok (Managed file_system network)
  | Disabled => Ok Disabled
  | External network => Ok (External network)
  end.
Definition from_legacy_sandbox_policy (sp : SandboxPolicy) : outcome rstring PermissionProfile :=
  from_runtime_permissions_with_enforcement (enforcement_from_legacy sp) (file_system_policy_from E sp) (network_policy_from sp).
Definition from_legacy_sandbox_policy_for_cwd (sp : SandboxPolicy) (cwd : rstring) : outcome rstring PermissionProfile :=
  from_runtime_permissions_with_enforcement (enforcement_from_legacy sp)
    (PermissionRoots.from_legacy_sandbox_policy_for_cwd E sp cwd) (network_policy_from sp).
Definition to_legacy_sandbox_policy (p : PermissionProfile) (cwd : rstring) : outcome rstring SandboxPolicy :=
  match p with
  | Managed file_system network => PermissionRoots.to_legacy_sandbox_policy E (to_sandbox_policy file_system) network cwd
  | Disabled => Ok DangerFullAccess
  | External network => Ok (ExternalSandbox (if net_is_enabled network then NAEnabled else NARestricted))
  end.
End profiles.

(** ** Lemmas: run-time policies *)
(** What a profile keeps of a policy: a restricted policy but for a scan depth
    of zero, and only the kind of the others. *)
Definition runtime_normal (p : FileSystemSandboxPolicy) : FileSystemSandboxPolicy :=
  match kind p with
  | KRestricted => mk_policy KRestricted (N.pos <$> (glob_scan_max_depth p ≫= non_zero)) (entries p)
  | KUnrestricted => unrestricted
  | KExternalSandbox => external_sandbox
  end.
Lemma non_zero_pos (d : option positive) : (N.pos <$> d) ≫= non_zero = d.
Proof. by destruct d. Qed.
Lemma to_from_sandbox_policy p :
  kind p ≠ KExternalSandbox → ∃ m, from_sandbox_policy p = Ok m ∧ to_sandbox_policy m = runtime_normal p.
Proof. unfold from_sandbox_policy, runtime_normal. destruct (kind p); [eauto..|done]. Qed.
Lemma from_to_sandbox_policy m : from_sandbox_policy (to_sandbox_policy m) = Ok m.
Proof. destruct m as [es depth|]; [|done]. unfold from_sandbox_policy. cbn. by rewrite non_zero_pos. Qed.
Lemma from_runtime_spec enf p network :
  ∃ q, from_runtime_permissions_with_enforcement enf p network = Ok q ∧ file_system_sandbox_policy q = runtime_normal p ∧
    network_sandbox_policy q = (if decide (kind p = KUnrestricted ∧ enf = EnforceDisabled) then NetEnabled else network).
Proof.
  unfold from_runtime_permissions_with_enforcement. pose proof (to_from_sandbox_policy p) as Hm. unfold runtime_normal in *.
  destruct (kind p) eqn:Hk.
  - destruct Hm as (m & -> & Hm); [done|]. eexists. split_and!; [done|done|]. rewrite decide_False; [done|naive_solver].
  - case_bool_decide; [eexists; split_and!; [done|done|]; by rewrite decide_True|].
    destruct Hm as (m & -> & Hm); [done|]. eexists. split_and!; [done|done|]. rewrite decide_False; [done|naive_solver].
  - eexists. split_and!; [done|done|]. rewrite decide_False; [done|naive_solver].
Qed.

Section conversions.
Context (E : Env).

(** Restricted policies without a scan depth survive, and so do the others made from an older policy. *)
Lemma from_legacy_managed enf es network cwd sp :
  PermissionRoots.to_legacy_sandbox_policy E (restricted es) network cwd = Ok sp →
  ∃ p, from_runtime_permissions_with_enforcement enf (restricted es) network = Ok p ∧
    to_legacy_sandbox_policy E p cwd = Ok sp ∧ enforcement p = EnforceManaged.
Proof using Type. intros H. eexists. split_and!; [done|exact H|done]. Qed.
Lemma from_legacy_profile (from : SandboxPolicy → FileSystemSandboxPolicy) sp cwd :
  PermissionRoots.to_legacy_sandbox_policy E (from sp) (network_policy_from sp) cwd = Ok (legacy_normal E cwd sp) →
  match sp with
  | DangerFullAccess => from sp = unrestricted
  | ExternalSandbox _ => from sp = external_sandbox
  | _ => ∃ es, from sp = restricted es
  end →
  ∃ p, from_runtime_permissions_with_enforcement (enforcement_from_legacy sp) (from sp) (network_policy_from sp) = Ok p ∧
    to_legacy_sandbox_policy E p cwd = Ok (legacy_normal E cwd sp) ∧ enforcement p = enforcement_from_legacy sp.
Proof using Type.
  intros H Hf. destruct sp as [|net|net|roots net t s].
  - rewrite Hf. by eexists.
  - destruct Hf as [es Hf]. rewrite Hf in *. by apply from_legacy_managed.
  - rewrite Hf. eexists. split_and!; [done| |done]. by destruct net.
  - destruct Hf as [es Hf]. rewrite Hf in *. by apply from_legacy_managed.
Qed.
End conversions.

(** ** Lemmas: serialised permissions *)
Definition path_with (access : FileSystemAccessMode) (e : FileSystemSandboxEntry) : option rstring :=
  match e_path e with PathEntry path => if decide (e_access e = access) then Some path else None | _ => None end.
Lemma legacy_roots_spec read write es r w :
  legacy_roots read write es = Some (r, w) ↔
  Forall (λ e, is_Some (path_with Read e) ∨ is_Some (path_with Write e)) es ∧
  r = read ++ omap (path_with Read) es ∧ w = write ++ omap (path_with Write) es.
Proof.
  revert read write. induction es as [|e es IH]; intros read write; cbn [legacy_roots].
  { cbn. rewrite !app_nil_r. split; [intros [= <- <-]; by split_and!; [constructor|..]|by intros (_ & -> & ->)]. }
  rewrite Forall_cons. destruct e as [[path| |] []]; cbn [e_path e_access]; try (rewrite IH); cbn; rewrite <- ?app_assoc; cbn;
    split; try naive_solver; try (intros [[[[? [=]]|[? [=]]] _] _]).
Qed.
Lemma omap_entries_with a b (l : list rstring) :
  omap (path_with a) ((λ path, mk_entry (PathEntry path) b) <$> l) = if decide (b = a) then l else [].
Proof.
  assert (∀ x, path_with a (mk_entry (PathEntry x) b) = if decide (b = a) then Some x else None) as Hx by done.
  destruct (decide (b = a)); induction l as [|x l IH]; try done; cbn [fmap list_fmap omap list_omap]; by rewrite Hx, IH.
Qed.
Lemma default_non_empty a l : entries_with a (non_empty l) = (λ path, mk_entry (PathEntry path) a) <$> l.
Proof. by destruct l. Qed.
(** Reads first, then writes. *)
Definition serial_normal (p : FileSystemPermissions) : FileSystemPermissions :=
  match as_legacy_permissions p with
  | Some _ => mk_fsp (((λ path, mk_entry (PathEntry path) Read) <$> omap (path_with Read) (fsp_entries p))
                      ++ ((λ path, mk_entry (PathEntry path) Write) <$> omap (path_with Write) (fsp_entries p))) None
  | None => p
  end.
Lemma as_legacy_spec p read write :
  as_legacy_permissions p = Some (read, write) →
  fsp_glob_scan_max_depth p = None ∧ read = non_empty (omap (path_with Read) (fsp_entries p)) ∧
  write = non_empty (omap (path_with Write) (fsp_entries p)) ∧
  Forall (λ e, is_Some (path_with Read e) ∨ is_Some (path_with Write e)) (fsp_entries p).
Proof.
  unfold as_legacy_permissions. destruct (fsp_glob_scan_max_depth p); [done|].
  intros ([r w] & (Hf & -> & ->)%legacy_roots_spec & [= <- <-])%bind_Some. done.
Qed.
Lemma normal_permutation (es : list FileSystemSandboxEntry) :
  Forall (λ e, is_Some (path_with Read e) ∨ is_Some (path_with Write e)) es →
  ((λ path, mk_entry (PathEntry path) Read) <$> omap (path_with Read) es)
    ++ ((λ path, mk_entry (PathEntry path) Write) <$> omap (path_with Write) es) ≡ₚ es.
Proof.
  induction 1 as [|e es He _ IH]; [done|].
  assert (∀ a, omap (path_with a) (e :: es) = option_list (path_with a e) ++ omap (path_with a) es) as Ho.
  { intros a. cbn [omap list_omap]. by destruct (path_with a e). }
  rewrite !Ho. destruct e as [[path| |] []]; try (by destruct He as [[? [=]]|[? [=]]]).
  - change (option_list (path_with Read _)) with [path]. change (option_list (path_with Write _)) with (@nil rstring). cbn [app fmap list_fmap]. by rewrite IH.
  - change (option_list (path_with Write _)) with [path]. change (option_list (path_with Read _)) with (@nil rstring). cbn [app fmap list_fmap].
    by rewrite <- Permutation_middle, IH.
Qed.

(** ** Properties *)

(** Profiles, run-time policies and older policies say the same.  A profile
    is rebuilt from its enforcement and its run-time permissions; any run-time
    permissions make a profile, never a panic, which grants them but for a scan
    depth of zero and the network of a session without a sandbox; and a policy
    of the older kind comes back from its profile, with the enforcement it
    stands for, up to the workspace and repeated roots. *)
Theorem profile_roundtrips (E : Env) :
  (∀ p, from_runtime_permissions_with_enforcement (enforcement p) (to_runtime_permissions p).1 (to_runtime_permissions p).2 = Ok p) ∧
  (∀ enf p network, ∃ q, from_runtime_permissions_with_enforcement enf p network = Ok q ∧
     to_runtime_permissions q =
       (runtime_normal p, if decide (kind p = KUnrestricted ∧ enf = EnforceDisabled) then NetEnabled else network)) ∧
  (∀ sp cwd,
     (∃ p, from_legacy_sandbox_policy E sp = Ok p ∧ to_legacy_sandbox_policy E p cwd = Ok (legacy_normal E cwd sp) ∧
        enforcement p = enforcement_from_legacy sp) ∧
     (∃ p, from_legacy_sandbox_policy_for_cwd E sp cwd = Ok p ∧ to_legacy_sandbox_policy E p cwd = Ok (legacy_normal E cwd sp) ∧
        enforcement p = enforcement_from_legacy sp)).
Proof.
  split_and!.
  - intros [m network| |network]; [|done..]. cbn. unfold from_runtime_permissions_with_enforcement.
    rewrite from_to_sandbox_policy. by destruct m.
  - intros enf p network. destruct (from_runtime_spec enf p network) as (q & Hq & Hf & Hn). exists q. split; [done|].
    unfold to_runtime_permissions. by rewrite Hf, Hn.
  - intros sp cwd. destruct (legacy_projections E sp cwd unrestricted) as (H1 & H2 & _). split.
    + apply from_legacy_profile; [exact H1|]. destruct sp; try done; by eexists.
    + apply (from_legacy_profile _ (λ sp, PermissionRoots.from_legacy_sandbox_policy_for_cwd E sp cwd)); [exact H2|].
      destruct sp; try done; by eexists.
Qed.

(** Requested permissions survive serialisation: whichever of the two shapes
    is written, it is read back as the same permissions, with the same scan
    depth, except that the older shape lists reads before writes; from then on
    nothing changes. *)
Theorem permissions_survive_serialisation (p : FileSystemPermissions) :
  deserialize_permissions (serialize_permissions p) = Some (serial_normal p) ∧
  fsp_entries (serial_normal p) ≡ₚ fsp_entries p ∧
  fsp_glob_scan_max_depth (serial_normal p) = fsp_glob_scan_max_depth p ∧
  serialize_permissions (serial_normal p) = serialize_permissions p.
Proof.
  unfold serial_normal, serialize_permissions. destruct (as_legacy_permissions p) as [[read write]|] eqn:Hl.
  - apply as_legacy_spec in Hl as (Hd & -> & -> & Hf).
    set (r := omap (path_with Read) (fsp_entries p)). set (w := omap (path_with Write) (fsp_entries p)).
    split_and!.
    + unfold deserialize_permissions. cbn [f_read f_write f_entries f_glob_scan_max_depth]. unfold from_read_write_roots.
      rewrite !default_non_empty. by destruct r, w.
    + by apply normal_permutation.
    + by rewrite Hd.
    + assert (as_legacy_permissions (mk_fsp (((λ path, mk_entry (PathEntry path) Read) <$> r)
        ++ ((λ path, mk_entry (PathEntry path) Write) <$> w)) None) = Some (non_empty r, non_empty w)) as ->; [|done].
      unfold as_legacy_permissions. cbn [fsp_glob_scan_max_depth fsp_entries].
      rewrite (proj2 (legacy_roots_spec [] [] _ r w)); [done|]. rewrite !omap_app, !omap_entries_with. cbn. rewrite app_nil_r.
      split_and!; [|done|done]. apply Forall_app. split; apply Forall_fmap, Forall_true; intros x; [left|right]; unfold path_with; cbn; by eexists.
  - split_and!; try done; [|by rewrite Hl]. unfold deserialize_permissions. destruct p as [[|e es] d]; done.
Qed.
