(* ===== verification/SandboxTransforms.v ===== *)
(** * Sandboxes for commands ([sandboxing/src]: [policy_transforms.rs], [manager.rs], [landlock.rs])

    Permissions that a request adds to a profile: their normalisation, union
    and intersection, and the policies they result in; whether a command needs
    a sandbox at all; and the command line that runs it in one.  The glob
    compiler and [serde_json::to_string] on a profile are parameters.  The
    Linux build: bubblewrap is checked, Seatbelt is unavailable. *)
From S2P Require Import Prelude RustStr RustPath AbsolutePath Permissions PermissionRoots PermissionProfile.

Definition contains_entry (es : list FileSystemSandboxEntry) (e : FileSystemSandboxEntry) : bool := existsb (entry_eqb e) es.
Definition push_new (es : list FileSystemSandboxEntry) (e : FileSystemSandboxEntry) : list FileSystemSandboxEntry :=
  if contains_entry es e then es else es ++ [e].
Definition is_glob (p : FileSystemPath) : bool := match p with GlobPattern _ => true | _ => false end.
(** [Option::filter] on permissions that are not empty. *)
Definition keep_fs (p : FileSystemPermissions) : option FileSystemPermissions := if fsp_is_empty p then None else Some p.
Definition keep_additional (p : AdditionalPermissionProfile) : option AdditionalPermissionProfile :=
  if ap_is_empty p then None else Some p.
Definition enabled (n : option NetworkPermissions) : bool :=
  match n with Some p => bool_decide (np_enabled p = Some true) | None => false end.
Definition network_enabled : NetworkPermissions := mk_np (Some true).

(** ** Scan depths *)
Inductive GlobScanDepth := Bounded (depth : N) | Unbounded.
Definition effective_glob_scan_depth (es : list FileSystemSandboxEntry) (depth : option N) : option GlobScanDepth :=
  if existsb (λ e, is_deny e && is_glob (e_path e)) es
  then Some (match depth with Some depth => Bounded depth | None => Unbounded end) else None.
Definition merge_glob_scan_max_depth (left_entries : list FileSystemSandboxEntry) (left_depth : option N)
    (right_entries : list FileSystemSandboxEntry) (right_depth : option N) : option N :=
  match effective_glob_scan_depth left_entries left_depth, effective_glob_scan_depth right_entries right_depth with
  | Some Unbounded, _ | _, Some Unbounded => None
  | Some (Bounded l), Some (Bounded r) => Some (N.max l r)
  | Some (Bounded depth), None | None, Some (Bounded depth) => Some depth
  | None, None => None
  end.
Definition depth_of (p : FileSystemPermissions) : option N := N.pos <$> fsp_glob_scan_max_depth p.

(** ** Union *)
Definition merge_permission_entries (base permissions : list FileSystemSandboxEntry) : list FileSystemSandboxEntry :=
  foldl push_new [] (base ++ permissions).
Definition merge_permission_profiles (base permissions : option AdditionalPermissionProfile) : option AdditionalPermissionProfile :=
  match permissions with
  | None => base
  | Some permissions =>
      match base with
      | None => keep_additional permissions
      | Some base =>
          let network := if enabled (ap_network base) || enabled (ap_network permissions) then Some network_enabled else None in
          let file_system :=
            match ap_file_system base, ap_file_system permissions with
            | Some base, Some permissions =>
                keep_fs (mk_fsp (merge_permission_entries (fsp_entries base) (fsp_entries permissions))
                           (merge_glob_scan_max_depth (fsp_entries base) (depth_of base) (fsp_entries permissions) (depth_of permissions)
                              ≫= non_zero))
            | Some base, None => Some base
            | None, Some permissions => Some permissions
            | None, None => None
            end in
          keep_additional (mk_additional network file_system)
      end
  end.

(** ** Effective policies *)
Definition merge_file_system_policy_with_additional_permissions (p : FileSystemSandboxPolicy) (additional : FileSystemPermissions) :
    FileSystemSandboxPolicy :=
  match kind p with
  | KRestricted =>
      mk_policy KRestricted
        (merge_glob_scan_max_depth (entries p) (glob_scan_max_depth p) (fsp_entries additional) (depth_of additional))
        (foldl push_new (entries p) (fsp_entries additional))
  | KUnrestricted | KExternalSandbox => p
  end.
Definition effective_file_system_sandbox_policy (p : FileSystemSandboxPolicy) (additional : option AdditionalPermissionProfile) :
    FileSystemSandboxPolicy :=
  match additional ≫= ap_file_system with
  | Some fs => if fsp_is_empty fs then p else merge_file_system_policy_with_additional_permissions p fs
  | None => p
  end.
Definition merge_network_access (base_network_access : bool) (additional : AdditionalPermissionProfile) : bool :=
  base_network_access || default false (ap_network additional ≫= np_enabled).
Definition effective_network_sandbox_policy (n : NetworkSandboxPolicy) (additional : option AdditionalPermissionProfile) :
    NetworkSandboxPolicy :=
  match additional with
  | Some permissions => if merge_network_access (net_is_enabled n) permissions then NetEnabled else NetRestricted
  | None => n
  end.
Definition effective_permission_profile (profile : PermissionProfile) (additional : option AdditionalPermissionProfile) :
    outcome rstring PermissionProfile :=
  let '(fs, network) := to_runtime_permissions profile in
  from_runtime_permissions_with_enforcement (enforcement profile)
    (effective_file_system_sandbox_policy fs additional) (effective_network_sandbox_policy network additional).
Definition should_require_platform_sandbox (p : FileSystemSandboxPolicy) (n : NetworkSandboxPolicy)
    (has_managed_network_requirements : bool) : bool :=
  if has_managed_network_requirements then true
  else if negb (net_is_enabled n) then negb (bool_decide (kind p = KExternalSandbox))
  else match kind p with
  | KRestricted => negb (has_full_disk_write_access p)
  | KUnrestricted | KExternalSandbox => false
  end.

Definition access_covers (requested granted : FileSystemAccessMode) : bool :=
  match granted with Read => can_read requested | Write => can_write requested | Deny => false end.
Definition paths_overlap (left right : rstring) : bool := path_starts_with left right || path_starts_with right left.

Section transforms.
Context (E : Env).

(** ** Normalisation *)
Definition normalize_entry_path (p : FileSystemPath) : FileSystemPath :=
  match p with
  | PathEntry path =>
      PathEntry (default path
        (ok (canonicalize_preserving_symlinks (home_dir E) (current_dir E) (canonicalize E) (is_symlink E) path) ≫= from_absolute E))
  | GlobPattern pattern => GlobPattern pattern
  | Special value => Special value
  end.
Definition GLOB_ERROR : rstring := lit "glob file system permissions only support deny-read entries".
Fixpoint normalize_entries (acc es : list FileSystemSandboxEntry) : outcome rstring (list FileSystemSandboxEntry) :=
  match es with
  | [] => Ok acc
  | e :: es =>
      if is_glob (e_path e) && negb (is_deny e) then Err GLOB_ERROR
      else normalize_entries (push_new acc (mk_entry (normalize_entry_path (e_path e)) (e_access e))) es
  end.
Definition normalize_additional_permissions (p : AdditionalPermissionProfile) : outcome rstring AdditionalPermissionProfile :=
  let network := match ap_network p with Some n => if np_is_empty n then None else Some n | None => None end in
  match ap_file_system p with
  | Some fs =>
      let? es := normalize_entries [] (fsp_entries fs) in
      Ok (mk_additional network (keep_fs (mk_fsp es (fsp_glob_scan_max_depth fs))))
  | None => Ok (mk_additional network None)
  end.

(** ** Intersection *)
Definition resolve_permission_path (path : FileSystemPath) (cwd : rstring) : option rstring :=
  match path with
  | PathEntry path => Some path
  | GlobPattern _ => None
  | Special Root => r ← last (ancestors cwd); from_absolute E r
  | Special (ProjectRoots subpath) =>
      cwd ← from_absolute E cwd;
      Some (match subpath with Some subpath => resolve_against E subpath cwd | None => cwd end)
  | Special Tmpdir => tmpdir ← tmpdir_var E; if decide (tmpdir = []) then None else from_absolute E tmpdir
  | Special SlashTmp => slash_tmp ← from_absolute E (lit "/tmp"); if is_dir E slash_tmp then Some slash_tmp else None
  | Special Minimal | Special (Unknown _ _) => None
  end.
(** [AbsolutePathBuf::resolve_path_against_base] with a base that need not be absolute. *)
Definition resolve_pattern (pattern cwd : rstring) : rstring := resolve_against E pattern cwd.
Definition backslash : char := 92.
Definition is_glob_char (c : char) : bool := bool_decide (c ∈ lit "*?[]").
Fixpoint find_glob_char (s : rstring) : option nat :=
  match s with [] => None | c :: t => if is_glob_char c then Some 0 else S <$> find_glob_char t end.
Definition glob_static_prefix_path (pattern cwd : rstring) : option rstring :=
  let resolved_pattern := resolve_pattern pattern cwd in
  match find_glob_char resolved_pattern with
  | Some 0 => None
  | Some index =>
      let prefix := take index resolved_pattern in
      let base := if ends_with prefix [RustPath.slash] || ends_with prefix [backslash] then Some prefix else parent prefix in
      base ≫= from_absolute E
  | None => from_absolute E resolved_pattern
  end.
Definition deny_entry_constrains_accepted_grant (deny : FileSystemSandboxEntry) (accepted : list FileSystemSandboxEntry) (cwd : rstring) : bool :=
  existsb (λ e, can_read (e_access e) &&
    match resolve_permission_path (e_path e) cwd with
    | None => false
    | Some grant_path =>
        match match e_path deny with
              | GlobPattern pattern => glob_static_prefix_path pattern cwd
              | _ => resolve_permission_path (e_path deny) cwd
              end with
        | Some deny_path => paths_overlap deny_path grant_path
        | None => false
        end
    end) accepted.
Definition materialize_cwd_dependent_entry (e : FileSystemSandboxEntry) (cwd : rstring) : FileSystemSandboxEntry :=
  match e_path e with
  | Special (ProjectRoots _) =>
      match resolve_permission_path (e_path e) cwd with
      | Some path => mk_entry (PathEntry path) (e_access e)
      | None => e
      end
  | GlobPattern pattern => mk_entry (GlobPattern (resolve_pattern pattern cwd)) (e_access e)
  | PathEntry _ | Special _ => e
  end.
(** The entries that were retained, and the output with them. *)
Fixpoint retain_deny_loop (source accepted : list FileSystemSandboxEntry) (cwd : rstring) (output retained : list FileSystemSandboxEntry) :
    list FileSystemSandboxEntry * list FileSystemSandboxEntry :=
  match source with
  | [] => (output, retained)
  | e :: source =>
      if is_deny e && deny_entry_constrains_accepted_grant e accepted cwd
      then let e := materialize_cwd_dependent_entry e cwd in
           retain_deny_loop source accepted cwd (push_new output e) (retained ++ [e])
      else retain_deny_loop source accepted cwd output retained
  end.
Definition retain_constraining_deny_entries (source accepted : list FileSystemSandboxEntry) (cwd : rstring)
    (output : list FileSystemSandboxEntry) : list FileSystemSandboxEntry * list FileSystemSandboxEntry :=
  retain_deny_loop source accepted cwd output [].

Context (build_glob_matcher : rstring → (rstring → bool) + rstring).
Definition granted_file_system_entry_within_request (requested : FileSystemPermissions) (requested_policy : FileSystemSandboxPolicy)
    (matcher : option ReadDenyMatcher) (granted_entry : FileSystemSandboxEntry) (cwd : rstring) : bool :=
  if negb (can_read (e_access granted_entry)) then false
  else match resolve_permission_path (e_path granted_entry) cwd with
  | Some path =>
      if match matcher with Some m => is_read_denied E m path | None => false end then false
      else access_covers (resolve_access_with_cwd E requested_policy path cwd) (e_access granted_entry)
  | None =>
      existsb (λ r, access_covers (e_access r) (e_access granted_entry) && fs_path_eqb (e_path r) (e_path granted_entry))
        (fsp_entries requested)
  end.
Definition fsp_default : FileSystemPermissions := mk_fsp [] None.
Definition accepted_entries (requested granted : FileSystemPermissions) (matcher : option ReadDenyMatcher) (cwd : rstring) :
    list FileSystemSandboxEntry :=
  foldl (λ acc e, push_new acc (materialize_cwd_dependent_entry e cwd)) []
    (List.filter (λ e, granted_file_system_entry_within_request requested (restricted (fsp_entries requested)) matcher e cwd)
       (fsp_entries granted)).
Definition intersect_file_system (requested granted : FileSystemPermissions) (cwd : rstring) : outcome rstring FileSystemPermissions :=
  let? matcher := PermissionRoots.new E build_glob_matcher (restricted (fsp_entries requested)) cwd in
  let accepted := accepted_entries requested granted matcher cwd in
  let '(entries, requested_retained) := retain_constraining_deny_entries (fsp_entries requested) accepted cwd accepted in
  let '(entries, granted_retained) := retain_constraining_deny_entries (fsp_entries granted) accepted cwd entries in
  Ok (mk_fsp entries (merge_glob_scan_max_depth requested_retained (depth_of requested) granted_retained (depth_of granted) ≫= non_zero)).
Definition intersect_permission_profiles (requested granted : AdditionalPermissionProfile) (cwd : rstring) :
    outcome rstring AdditionalPermissionProfile :=
  let? file_system :=
    match ap_file_system requested with
    | Some requested_fs =>
        let? fs := intersect_file_system requested_fs (default fsp_default (ap_file_system granted)) cwd in Ok (keep_fs fs)
    | None => Ok None
    end in
  Ok (mk_additional (if enabled (ap_network requested) && enabled (ap_network granted) then Some network_enabled else None) file_system).
End transforms.

(** ** The manager *)
Inductive SandboxType := NoSandbox | MacosSeatbelt | LinuxSeccomp | WindowsRestrictedToken.
#[global] Instance SandboxType_eq_dec : EqDecision SandboxType.
Proof. solve_decision. Defined.
Definition as_metric_tag (s : SandboxType) : rstring :=
  match s with
  | NoSandbox => lit "none" | MacosSeatbelt => lit "seatbelt" | LinuxSeccomp => lit "seccomp"
  | WindowsRestrictedToken => lit "windows_sandbox"
  end.
Inductive SandboxablePreference := Auto | Require | Forbid.
Inductive Os := Macos | Linux | Windows | OtherOs.
(** [cfg!(target_os = ...)] as an argument. *)
Definition get_platform_sandbox (os : Os) (windows_sandbox_enabled : bool) : option SandboxType :=
  match os with
  | Macos => Some MacosSeatbelt
  | Linux => Some LinuxSeccomp
  | Windows => if windows_sandbox_enabled then Some WindowsRestrictedToken else None
  | OtherOs => None
  end.
Definition select_initial (os : Os) (p : FileSystemSandboxPolicy) (n : NetworkSandboxPolicy) (pref : SandboxablePreference)
    (windows_sandbox_enabled has_managed_network_requirements : bool) : SandboxType :=
  match pref with
  | Forbid => NoSandbox
  | Require => default NoSandbox (get_platform_sandbox os windows_sandbox_enabled)
  | Auto =>
      if should_require_platform_sandbox p n has_managed_network_requirements
      then default NoSandbox (get_platform_sandbox os windows_sandbox_enabled) else NoSandbox
  end.

Record SandboxCommand := mk_command {
  cmd_program : rstring; cmd_args : list rstring; cmd_cwd : rstring; cmd_env : gmap rstring rstring;
  cmd_additional_permissions : option AdditionalPermissionProfile; cmd_workspace_kb_root : option rstring }.
Record SandboxTransformRequest := mk_transform {
  tr_command : SandboxCommand; tr_permissions : PermissionProfile; tr_sandbox : SandboxType; tr_enforce_managed_network : bool;
  tr_sandbox_policy_cwd : rstring; tr_codex_linux_sandbox_exe : option rstring; tr_use_legacy_landlock : bool }.
Record SandboxExecRequest := mk_exec {
  ex_command : list rstring; ex_cwd : rstring; ex_env : gmap rstring rstring; ex_sandbox : SandboxType;
  ex_permission_profile : PermissionProfile; ex_file_system_sandbox_policy : FileSystemSandboxPolicy;
  ex_network_sandbox_policy : NetworkSandboxPolicy; ex_arg0 : option rstring }.
Inductive SandboxTransformError :=
| MissingLinuxSandboxExecutable | Wsl1UnsupportedForBubblewrap | SeatbeltUnavailable | ProfileUnreachable.

Definition CODEX_LINUX_SANDBOX_ARG0 : rstring := lit "codex-linux-sandbox".
Definition allow_network_for_proxy (enforce_managed_network : bool) : bool := enforce_managed_network.
Definition linux_sandbox_arg0_override (exe : rstring) : rstring :=
  if bool_decide (file_name exe = Some CODEX_LINUX_SANDBOX_ARG0) then exe else CODEX_LINUX_SANDBOX_ARG0.
Definition ensure_linux_bubblewrap_is_supported (p : FileSystemSandboxPolicy) (use_legacy_landlock allow_network is_wsl1 : bool) :
    outcome SandboxTransformError unit :=
  let requires_bubblewrap := negb use_legacy_landlock && (negb (has_full_disk_write_access p) || allow_network) in
  if is_wsl1 && requires_bubblewrap then Err Wsl1UnsupportedForBubblewrap else Ok ().
(** The knowledge base of the workspace, unless an entry names it. *)
Definition push_kb_root (p : FileSystemSandboxPolicy) (kb_root : option rstring) : FileSystemSandboxPolicy :=
  match kb_root with
  | None => p
  | Some kb_root =>
      if existsb (λ e, match e_path e with PathEntry path => path_eqb path kb_root | _ => false end) (entries p) then p
      else with_entries p (entries p ++ [mk_entry (PathEntry kb_root) Write])
  end.

Section manager.
Context (profile_to_json : PermissionProfile → rstring) (is_wsl1 : bool).

Definition linux_sandbox_flags (command_cwd sandbox_policy_cwd : rstring) (profile : option PermissionProfile)
    (use_legacy_landlock allow_network : bool) : list rstring :=
  [lit "--sandbox-policy-cwd"; sandbox_policy_cwd; lit "--command-cwd"; command_cwd]
  ++ match profile with Some profile => [lit "--permission-profile"; profile_to_json profile] | None => [] end
  ++ (if use_legacy_landlock then [lit "--use-legacy-landlock"] else [])
  ++ (if allow_network then [lit "--allow-network-for-proxy"] else []).
Definition create_linux_sandbox_command_args_for_permission_profile (command : list rstring) (command_cwd : rstring)
    (profile : PermissionProfile) (sandbox_policy_cwd : rstring) (use_legacy_landlock allow_network : bool) : list rstring :=
  linux_sandbox_flags command_cwd sandbox_policy_cwd (Some profile) use_legacy_landlock allow_network ++ [lit "--"] ++ command.
Definition create_linux_sandbox_command_args (command : list rstring) (command_cwd sandbox_policy_cwd : rstring)
    (use_legacy_landlock allow_network : bool) : list rstring :=
  linux_sandbox_flags command_cwd sandbox_policy_cwd None use_legacy_landlock allow_network ++ [lit "--"] ++ command.

Definition transform (r : SandboxTransformRequest) : outcome SandboxTransformError SandboxExecRequest :=
  let command := tr_command r in
  match effective_permission_profile (tr_permissions r) (cmd_additional_permissions command) with
  | Err _ => Err ProfileUnreachable
  | Panic => Panic
  | Ok profile =>
      let '(fs, network) := to_runtime_permissions profile in
      let fs := push_kb_root fs (cmd_workspace_kb_root command) in
      let argv := cmd_program command :: cmd_args command in
      let? argv_arg0 :=
        match tr_sandbox r with
        | NoSandbox | WindowsRestrictedToken => Ok (argv, None)
        | MacosSeatbelt => Err SeatbeltUnavailable
        | LinuxSeccomp =>
            let? exe := ok_or MissingLinuxSandboxExecutable (tr_codex_linux_sandbox_exe r) in
            let allow_proxy_network := allow_network_for_proxy (tr_enforce_managed_network r) in
            let? _ := ensure_linux_bubblewrap_is_supported fs (tr_use_legacy_landlock r) allow_proxy_network is_wsl1 in
            Ok (exe :: create_linux_sandbox_command_args_for_permission_profile argv (cmd_cwd command) profile
                  (tr_sandbox_policy_cwd r) (tr_use_legacy_landlock r) allow_proxy_network,
                Some (linux_sandbox_arg0_override exe))
        end in
      Ok (mk_exec argv_arg0.1 (cmd_cwd command) (cmd_env command) (tr_sandbox r) profile fs network argv_arg0.2)
  end.
End manager.

(** ** The older policy of a profile *)
Section compatibility.
Context (E : Env).
Definition compatibility_workspace_write_policy (p : FileSystemSandboxPolicy) (n : NetworkSandboxPolicy) (cwd : rstring) : SandboxPolicy :=
  let cwd_abs := from_absolute E cwd in
  let writable_roots :=
    List.filter (λ r, negb match cwd_abs with Some c => path_eqb c r | None => false end)
      (root <$> get_writable_roots_with_cwd E p cwd) in
  let tmpdir_writable :=
    match tmpdir_var E with
    | Some ((_ :: _) as tmpdir) =>
        match from_absolute E tmpdir with Some t => can_write_path_with_cwd E p t cwd | None => false end
    | _ => false
    end in
  let slash_tmp_writable := is_dir E (lit "/tmp") && can_write_path_with_cwd E p (lit "/tmp") cwd in
  WorkspaceWrite writable_roots (net_is_enabled n) (negb tmpdir_writable) (negb slash_tmp_writable).
Definition compatibility_sandbox_policy_for_permission_profile (profile : PermissionProfile) (p : FileSystemSandboxPolicy)
    (n : NetworkSandboxPolicy) (cwd : rstring) : SandboxPolicy :=
  match PermissionProfile.to_legacy_sandbox_policy E profile cwd with
  | Ok sp => sp
  | _ => compatibility_workspace_write_policy p n cwd
  end.
End compatibility.

(** ** Lemmas: lists of entries *)
Lemma contains_entry_spec es e : contains_entry es e = true ↔ ∃ e', e' ∈ es ∧ entry_eqb e e' = true.
Proof. unfold contains_entry. rewrite existsb_exists. by setoid_rewrite <- list_elem_of_In. Qed.
Lemma path_eqb_refl p : path_eqb p p = true.
Proof. by apply bool_decide_eq_true. Qed.
Lemma opt_path_eqb_refl p : opt_path_eqb p p = true.
Proof. destruct p; [apply path_eqb_refl|done]. Qed.
Lemma entry_eqb_refl e : entry_eqb e e = true.
Proof.
  unfold entry_eqb. rewrite bool_decide_eq_true_2, andb_true_r by done. destruct (e_path e) as [p|p|v]; cbn.
  - apply path_eqb_refl.
  - by apply bool_decide_eq_true.
  - destruct v; cbn; try done; [apply opt_path_eqb_refl|]. by rewrite bool_decide_eq_true_2, opt_path_eqb_refl.
Qed.
Lemma push_new_old es e x : x ∈ es → x ∈ push_new es e.
Proof. unfold push_new. destruct (contains_entry es e); [done|]. intros ?. apply elem_of_app. by left. Qed.
Lemma push_new_only es e x : x ∈ push_new es e → x ∈ es ∨ x = e.
Proof. unfold push_new. destruct (contains_entry es e); [by left|]. intros [?|?%list_elem_of_singleton]%elem_of_app; auto. Qed.
Lemma push_new_has es e : ∃ e', e' ∈ push_new es e ∧ entry_eqb e e' = true.
Proof.
  unfold push_new. destruct (contains_entry es e) eqn:H; [by apply contains_entry_spec|].
  exists e. split; [apply elem_of_app; right; left|apply entry_eqb_refl].
Qed.
Lemma push_all_old f es (l : list FileSystemSandboxEntry) x : x ∈ es → x ∈ foldl (λ acc e, push_new acc (f e)) es l.
Proof. revert es. induction l as [|e l IH]; intros es Hx; [done|]. apply IH. by apply push_new_old. Qed.
Lemma push_all_only f es (l : list FileSystemSandboxEntry) x :
  x ∈ foldl (λ acc e, push_new acc (f e)) es l → x ∈ es ∨ ∃ e, e ∈ l ∧ x = f e.
Proof.
  revert es. induction l as [|e l IH]; intros es Hx; [by left|]. destruct (IH _ Hx) as [[H| ->]%push_new_only|(e' & He' & ->)].
  - by left.
  - right. exists e. split; [left|done].
  - right. exists e'. split; [by right|done].
Qed.

(** ** Lemmas: permission paths *)
Section paths.
Context (E : Env) (current_dir_absolute : ∀ d, current_dir E = Ok d → is_absolute d = true).
Context (cwd : rstring) (Hcwd : canonical cwd).

Lemma cwd_resolves : from_absolute E cwd = Some cwd.
Proof using Hcwd. by apply from_absolute_id. Qed.
Lemma resolve_permission_path_spec p : resolve_permission_path E p cwd = resolve_entry_path E p (Some cwd).
Proof using Hcwd.
  destruct p as [path|pattern|[| |subpath| | |path subpath]]; cbn [resolve_permission_path resolve_entry_path resolve_file_system_path resolve_file_system_special_path]; try done.
  - cbn [mbind option_bind]. rewrite absolute_root_path_ok by done. destruct Hcwd as (segs & Hs & Hc).
    rewrite Hc. unfold ancestors.
    rewrite components_abs_path, last_ancestors_fuel by (done || (cbn; rewrite length_fmap; lia)). cbn [mbind option_bind].
    rewrite from_absolute_id by by exists []. done.
  - rewrite cwd_resolves. cbn [mbind option_bind]. by destruct subpath.
Qed.
Lemma materialize_resolves e :
  resolve_entry_path E (e_path (materialize_cwd_dependent_entry E e cwd)) (Some cwd) = resolve_entry_path E (e_path e) (Some cwd).
Proof using Hcwd.
  unfold materialize_cwd_dependent_entry. destruct (e_path e) as [path|pattern|[| |subpath| | |path subpath]] eqn:Hp; cbn [e_path]; try (by rewrite Hp); [done|].
  rewrite resolve_permission_path_spec. destruct (resolve_entry_path E (Special (ProjectRoots subpath)) (Some cwd)) eqn:Hr; cbn [e_path]; [done|by rewrite Hp].
Qed.
Lemma materialize_access e : e_access (materialize_cwd_dependent_entry E e cwd) = e_access e.
Proof using Type.
  unfold materialize_cwd_dependent_entry. destruct (e_path e) as [path|pattern|[| |subpath| | |path subpath]]; try done.
  by destruct (resolve_permission_path _ _ _).
Qed.
(** No project roots are left: the working directory resolves. *)
Definition materialized (e : FileSystemSandboxEntry) : Prop := ∀ s, e_path e ≠ Special (ProjectRoots s).
Lemma materialize_materialized e : materialized (materialize_cwd_dependent_entry E e cwd).
Proof using Hcwd.
  intros s. unfold materialize_cwd_dependent_entry. destruct (e_path e) as [path|pattern|[| |subpath| | |path subpath]] eqn:Hp; try (by rewrite ?Hp).
  cbn [resolve_permission_path]. rewrite cwd_resolves. cbn [mbind option_bind]. done.
Qed.
(** Equal entries resolve to the same path, however it is spelled. *)
Lemma entry_eqb_resolves a b p :
  materialized a → entry_eqb a b = true → resolve_entry_path E (e_path a) (Some cwd) = Some p →
  e_access a = e_access b ∧ ∃ q, resolve_entry_path E (e_path b) (Some cwd) = Some q ∧ path_eq p q.
Proof using Type.
  intros Hm [Hp Ha%bool_decide_eq_true]%andb_true_iff Hr. split; [done|].
  destruct a as [[x|x|v] aa], b as [[y|y|w] ab]; cbn [e_path fs_path_eqb] in *; try done.
  - injection Hr as ->. exists y. split; [done|]. by apply bool_decide_eq_true in Hp.
  - destruct v, w; cbn [special_paths_share_target] in Hp; try done; try (by exists p).
    by destruct (Hm subpath).
Qed.

(** The entry that decides a path, from the entries of a restricted policy. *)
Lemma resolved_restricted es e :
  e ∈ resolved_entries_with_cwd E (restricted es) cwd ↔
  ∃ e0, e0 ∈ es ∧ e_access e0 = r_access e ∧ resolve_entry_path E (e_path e0) (Some cwd) = Some (r_path e).
Proof using Hcwd. rewrite elem_resolved. cbn [entries restricted]. by rewrite cwd_resolves. Qed.
Lemma decides_cases es path t :
  resolve_candidate_path E path cwd = Some t →
  (∃ e, decides (resolved_entries_with_cwd E (restricted es) cwd) t e ∧ resolve_access_with_cwd E (restricted es) path cwd = r_access e) ∨
  ((∀ e, e ∈ resolved_entries_with_cwd E (restricted es) cwd → ¬ covers t e) ∧ resolve_access_with_cwd E (restricted es) path cwd = Deny).
Proof using Type. by apply access_decided. Qed.

(** ** Lemmas: the intersection *)
Lemma retain_deny_spec source accepted output retained :
  let '(output', retained') := retain_deny_loop E source accepted cwd output retained in
  (∀ x, x ∈ output → x ∈ output') ∧
  (∀ x, x ∈ output' → x ∈ output ∨ ∃ d, d ∈ source ∧ e_access d = Deny ∧ x = materialize_cwd_dependent_entry E d cwd) ∧
  (∀ d, d ∈ source → e_access d = Deny → deny_entry_constrains_accepted_grant E d accepted cwd = true →
     ∃ e', e' ∈ output' ∧ entry_eqb (materialize_cwd_dependent_entry E d cwd) e' = true).
Proof using Type.
  revert output retained. induction source as [|e source IH]; intros output retained; cbn [retain_deny_loop].
  { split_and!; [done|by left|]. by intros d ?%elem_of_nil. }
  destruct (is_deny e && deny_entry_constrains_accepted_grant E e accepted cwd) eqn:He.
  - specialize (IH (push_new output (materialize_cwd_dependent_entry E e cwd)) (retained ++ [materialize_cwd_dependent_entry E e cwd])).
    destruct (retain_deny_loop _ _ _ _ _ _) as [output' retained']. destruct IH as (H1 & H2 & H3).
    apply andb_true_iff in He as [Hd%bool_decide_eq_true _]. split_and!.
    + intros x Hx. by apply H1, push_new_old.
    + intros x [[?| ->]%push_new_only|(d & ? & ? & ->)]%H2; [by left| |].
      * right. exists e. split_and!; [left|done|done].
      * right. exists d. split_and!; [by right|done|done].
    + intros d [->|Hin]%elem_of_cons Ha Hcon; [|by apply H3].
      destruct (push_new_has output (materialize_cwd_dependent_entry E e cwd)) as (e' & He' & Heq). exists e'. auto.
  - specialize (IH output retained). destruct (retain_deny_loop _ _ _ _ _ _) as [output' retained'].
    destruct IH as (H1 & H2 & H3). split_and!; [done| |].
    + intros x [?|(d & ? & ? & ->)]%H2; [by left|]. right. exists d. split_and!; [by right|done|done].
    + intros d [->|Hin]%elem_of_cons Ha Hcon; [|by apply H3].
      unfold is_deny in He. rewrite bool_decide_eq_true_2, Hcon in He by done. done.
Qed.

Context (build_glob_matcher : rstring → (rstring → bool) + rstring).
(** What the intersection consists of: granted entries within the request, and
    the denials of both sides that touch one of them. *)
Lemma intersect_spec requested granted fs :
  intersect_file_system E build_glob_matcher requested granted cwd = Ok fs →
  ∃ accepted,
    (∀ a, a ∈ accepted → ∃ g matcher, g ∈ fsp_entries granted ∧ a = materialize_cwd_dependent_entry E g cwd ∧
       granted_file_system_entry_within_request E requested (restricted (fsp_entries requested)) matcher g cwd = true) ∧
    (∀ x, x ∈ fsp_entries fs → x ∈ accepted ∨
       ∃ d, d ∈ fsp_entries requested ++ fsp_entries granted ∧ e_access d = Deny ∧ x = materialize_cwd_dependent_entry E d cwd) ∧
    (∀ d, d ∈ fsp_entries requested ++ fsp_entries granted → e_access d = Deny →
       deny_entry_constrains_accepted_grant E d accepted cwd = true →
       ∃ e', e' ∈ fsp_entries fs ∧ entry_eqb (materialize_cwd_dependent_entry E d cwd) e' = true).
Proof using Type.
  unfold intersect_file_system. intros (matcher & _ & H)%bind_Ok.
  set (accepted := accepted_entries E requested granted matcher cwd) in H. exists accepted.
  unfold retain_constraining_deny_entries in H.
  pose proof (retain_deny_spec (fsp_entries requested) accepted accepted []) as H1.
  destruct (retain_deny_loop E (fsp_entries requested) accepted cwd accepted []) as [o1 r1]. destruct H1 as (A1 & A2 & A3).
  pose proof (retain_deny_spec (fsp_entries granted) accepted o1 []) as H2.
  destruct (retain_deny_loop E (fsp_entries granted) accepted cwd o1 []) as [o2 r2]. destruct H2 as (B1 & B2 & B3).
  apply Ok_inj in H as <-. cbn [fsp_entries]. split_and!.
  - intros a Ha. unfold accepted, accepted_entries in Ha. apply push_all_only in Ha as [?%elem_of_nil|(g & Hg & ->)]; [done|].
    apply list_elem_of_In, filter_In in Hg as [Hg Hw]. exists g, matcher. by rewrite list_elem_of_In.
  - intros x [[?|(d & ? & ? & ->)]%A2|(d & ? & ? & ->)]%B2; [by left|right; exists d..]; (split_and!; [apply elem_of_app; auto|done|done]).
  - intros d [Hd|Hd]%elem_of_app Ha Hc; [|by apply B3]. destruct (A3 d Hd Ha Hc) as (e' & He' & Heq). eauto.
Qed.

Lemma within_request requested matcher g p :
  granted_file_system_entry_within_request E requested (restricted (fsp_entries requested)) matcher g cwd = true →
  resolve_entry_path E (e_path g) (Some cwd) = Some p →
  can_read (e_access g) = true ∧ access_covers (resolve_access_with_cwd E (restricted (fsp_entries requested)) p cwd) (e_access g) = true.
Proof using Hcwd.
  unfold granted_file_system_entry_within_request. destruct (can_read (e_access g)); [|done]. cbn [negb].
  rewrite resolve_permission_path_spec. intros H Hr. rewrite Hr in H. split; [done|].
  destruct (match matcher with Some _ => _ | None => _ end); done.
Qed.
(** A denial above or below a grant constrains it. *)
Lemma deny_constrains d accepted a t pd pa :
  a ∈ accepted → can_read (e_access a) = true → resolve_entry_path E (e_path a) (Some cwd) = Some pa →
  resolve_entry_path E (e_path d) (Some cwd) = Some pd →
  covers t (mk_resolved pd Deny) → covers t (mk_resolved pa (e_access a)) →
  deny_entry_constrains_accepted_grant E d accepted cwd = true.
Proof using Hcwd.
  intros Hin Hr Hpa Hpd Hd Ha. apply existsb_exists. exists a. rewrite <- list_elem_of_In. split; [done|].
  rewrite Hr, !resolve_permission_path_spec, Hpa, Hpd. cbn [andb].
  assert (paths_overlap pd pa = true) as Ho.
  { unfold paths_overlap, path_starts_with. apply orb_true_iff. rewrite !bool_decide_eq_true.
    destruct (prefix_weak_total _ _ _ Ha Hd); auto. }
  destruct (e_path d); done.
Qed.

(** The entry that lets a path be read is a granted one, deeper than every denial of the path. *)
Lemma intersect_decides requested granted fs t e :
  intersect_file_system E build_glob_matcher requested granted cwd = Ok fs →
  decides (resolved_entries_with_cwd E (restricted (fsp_entries fs)) cwd) t e → can_read (r_access e) = true →
  ∃ g matcher, g ∈ fsp_entries granted ∧ e_access g = r_access e ∧ resolve_entry_path E (e_path g) (Some cwd) = Some (r_path e) ∧
    granted_file_system_entry_within_request E requested (restricted (fsp_entries requested)) matcher g cwd = true ∧
    ∀ d pd, d ∈ fsp_entries requested ++ fsp_entries granted → e_access d = Deny →
      resolve_entry_path E (e_path d) (Some cwd) = Some pd → covers t (mk_resolved pd Deny) →
      length (components pd) < length (components (r_path e)).
Proof using Hcwd.
  intros Hfs (He & Hc & Hmax) Hr. apply intersect_spec in Hfs as (accepted & H1 & H2 & H3).
  apply resolved_restricted in He as (e0 & He0 & Ha0 & Hp0).
  assert (e0 ∈ accepted) as Hacc.
  { destruct (H2 _ He0) as [|(d & _ & Hd & ->)]; [done|]. rewrite materialize_access, Hd in Ha0. by rewrite <- Ha0 in Hr. }
  destruct (H1 _ Hacc) as (g & matcher & Hg & -> & Hw). exists g, matcher.
  split_and!; [done|by rewrite <- Ha0, materialize_access|by rewrite <- Hp0, materialize_resolves|done|].
  intros d pd Hd Had Hpd Hcd.
  destruct (H3 d Hd Had) as (e' & He' & Heq).
  { eapply deny_constrains; [exact Hacc|by rewrite Ha0|exact Hp0|exact Hpd|exact Hcd|]. by rewrite Ha0. }
  assert (resolve_entry_path E (e_path (materialize_cwd_dependent_entry E d cwd)) (Some cwd) = Some pd) as Hpd' by by rewrite materialize_resolves.
  destruct (entry_eqb_resolves _ _ _ (materialize_materialized d) Heq Hpd') as (Ha' & q & Hq & Hpq).
  rewrite materialize_access, Had in Ha'.
  destruct (Hmax (mk_resolved q Deny)) as [Hl|[_ Hl]].
  - apply resolved_restricted. exists e'. by rewrite <- Ha'.
  - unfold covers in *. cbn [r_path] in *. by rewrite <- Hpq.
  - cbn [r_path] in Hl. by rewrite Hpq.
  - cbn [r_access] in Hl. by destruct (r_access e); cbn in Hl; [lia..|].
Qed.
End paths.

(** ** Properties *)
Section properties.
Context (E : Env) (current_dir_absolute : ∀ d, current_dir E = Ok d → is_absolute d = true).

Lemma request_denial_contradicts es path t g_path cwd (Hcwd : canonical cwd) :
  resolve_candidate_path E path cwd = Some t → canonical g_path →
  components g_path `prefix_of` components t → can_read (resolve_access_with_cwd E (restricted es) g_path cwd) = true →
  (∀ d pd, d ∈ es → e_access d = Deny → resolve_entry_path E (e_path d) (Some cwd) = Some pd →
     covers t (mk_resolved pd Deny) → length (components pd) < length (components g_path)) →
  can_read_path_with_cwd E (restricted es) path cwd = true.
Proof using Type.
  intros Ht Hg Hpre Hr Hden. unfold can_read_path_with_cwd.
  destruct (access_decided E (restricted es) g_path cwd g_path eq_refl (candidate_id E g_path cwd Hg)) as [([p a] & (HeR & HcR & _) & HR)|[_ HR]];
    rewrite HR in Hr; [|done]. cbn [r_access] in Hr.
  assert (covers t (mk_resolved p a)) as HcRt.
  { unfold covers in *. cbn [r_path] in *. by etrans. }
  destruct (access_decided E (restricted es) path cwd t eq_refl Ht) as [([q b] & (He & Hc & Hmax) & ->)|[Hno _]]; [|by destruct (Hno _ HeR)].
  cbn [r_access]. destruct b; [done..|]. exfalso.
  pose proof (proj1 (resolved_restricted E cwd Hcwd es (mk_resolved q Deny)) He) as (d & Hd & Had & Hpd). cbn [r_path r_access] in *.
  specialize (Hden d q Hd Had Hpd Hc).
  assert (covers g_path (mk_resolved q Deny)) as Hcg.
  { unfold covers. cbn [r_path]. apply (prefix_by_length _ _ (components t)); [exact Hc|exact Hpre|lia]. }
  destruct (access_decided E (restricted es) g_path cwd g_path eq_refl (candidate_id E g_path cwd Hg)) as [([p' a'] & (HeR' & HcR' & HmR) & HR')|[_ HR']];
    rewrite HR' in HR; cbn [r_access] in HR; subst; [|done].
  destruct (HmR _ He Hcg) as [Hl|[_ Hl]]; cbn [r_path r_access] in Hl; [|destruct a; cbn in Hl; done || lia].
  assert (covers t (mk_resolved p' a)) as HcR't by (unfold covers in *; cbn [r_path] in *; by etrans).
  destruct (Hmax _ HeR' HcR't) as [Hl'|[Hq _]]; cbn [r_path] in *; [lia|]. rewrite Hq in Hl. lia.
Qed.

Lemma entry_path_canonical c e p : canonical c → entry_ok e → resolve_entry_path E (e_path e) (Some c) = Some p → canonical p.
Proof using current_dir_absolute.
  intros Hc He. unfold entry_ok in He.
  destruct (e_path e) as [path|pattern|[| |subpath| | |path subpath]]; cbn [resolve_entry_path resolve_file_system_path resolve_file_system_special_path]; try done.
  - by intros [= <-].
  - cbn [mbind option_bind]. rewrite absolute_root_path_ok by done. intros [= <-]. by exists [].
  - cbn [mbind option_bind]. destruct subpath; intros [= <-]; [|done]. by apply (path_join_canonical E).
  - intros (tmpdir & _ & H)%bind_Some. case_decide; [done|]. by eapply from_absolute_Some.
  - intros (tmp & Ht & H)%bind_Some. destruct (is_dir E tmp); [|done]. injection H as <-. by eapply from_absolute_Some.
Qed.
Lemma granted_readable es g path t cwd p (Hcwd : canonical cwd) :
  resolve_candidate_path E path cwd = Some t → g ∈ es → can_read (e_access g) = true →
  resolve_entry_path E (e_path g) (Some cwd) = Some p → components p `prefix_of` components t →
  (∀ d pd, d ∈ es → e_access d = Deny → resolve_entry_path E (e_path d) (Some cwd) = Some pd →
     covers t (mk_resolved pd Deny) → length (components pd) < length (components p)) →
  can_read_path_with_cwd E (restricted es) path cwd = true.
Proof using Type.
  intros Ht Hg Hr Hp Hpre Hden. unfold can_read_path_with_cwd.
  assert (mk_resolved p (e_access g) ∈ resolved_entries_with_cwd E (restricted es) cwd) as Hin by (apply resolved_restricted; eauto).
  destruct (access_decided E (restricted es) path cwd t eq_refl Ht) as [([q b] & (He & Hc & Hmax) & ->)|[Hno _]]; [|by destruct (Hno _ Hin)].
  cbn [r_access]. destruct b; [done..|]. exfalso.
  pose proof (proj1 (resolved_restricted E cwd Hcwd es (mk_resolved q Deny)) He) as (d & Hd & Had & Hpd). cbn [r_path r_access] in *.
  specialize (Hden d q Hd Had Hpd Hc). destruct (Hmax _ Hin Hpre) as [Hl|[Hq _]]; cbn [r_path] in *; [lia|]. rewrite Hq in Hden. lia.
Qed.

(** C28: what a request and a grant have in common.  The intersection lets a path
    be read only if the request and the grant, each taken as a policy, both let
    it be read: the denials of both sides survive.  It lets a path be written
    only below a root that both sides let be written. *)
Theorem intersection_is_within_both (build_glob_matcher : rstring → (rstring → bool) + rstring)
    (requested granted fs : FileSystemPermissions) (cwd path t : rstring)
    (Hcwd : canonical cwd) (Hok : Forall entry_ok (fsp_entries granted)) (Ht : resolve_candidate_path E path cwd = Some t) :
  intersect_file_system E build_glob_matcher requested granted cwd = Ok fs →
  let both := restricted (fsp_entries fs) in
  (can_read_path_with_cwd E both path cwd = true →
     can_read_path_with_cwd E (restricted (fsp_entries requested)) path cwd = true ∧
     can_read_path_with_cwd E (restricted (fsp_entries granted)) path cwd = true) ∧
  (resolve_access_with_cwd E both path cwd = Write →
     ∃ g root, g ∈ fsp_entries granted ∧ e_access g = Write ∧ resolve_entry_path E (e_path g) (Some cwd) = Some root ∧
       components root `prefix_of` components t ∧
       resolve_access_with_cwd E (restricted (fsp_entries requested)) root cwd = Write).
Proof using current_dir_absolute.
  intros Hfs both.
  assert (∀ a, resolve_access_with_cwd E both path cwd = a → can_read a = true →
    ∃ g p, g ∈ fsp_entries granted ∧ e_access g = a ∧ resolve_entry_path E (e_path g) (Some cwd) = Some p ∧
      components p `prefix_of` components t ∧ access_covers (resolve_access_with_cwd E (restricted (fsp_entries requested)) p cwd) a = true ∧
      ∀ d pd, d ∈ fsp_entries requested ++ fsp_entries granted → e_access d = Deny →
        resolve_entry_path E (e_path d) (Some cwd) = Some pd → covers t (mk_resolved pd Deny) →
        length (components pd) < length (components p)) as Hgrant.
  { intros a Ha Hr. destruct (access_decided E both path cwd t eq_refl Ht) as [(e & He & Hae)|[_ Hd]]; [|rewrite Ha in Hd; by rewrite Hd in Hr].
    rewrite Ha in Hae. clear Ha. subst a. destruct (intersect_decides E cwd Hcwd _ _ _ _ _ _ Hfs He Hr) as (g & matcher & Hg & Hga & Hp & Hw & Hden).
    destruct (within_request E cwd Hcwd _ _ _ _ Hw Hp) as [_ Hcov]. destruct He as (_ & Hc & _). rewrite <- Hga in *.
    exists g, (r_path e). done. }
  split.
  - intros Hr. destruct (Hgrant _ eq_refl Hr) as (g & p & Hg & Hga & Hp & Hpre & Hcov & Hden).
    assert (canonical p) as Hpc.
    { eapply entry_path_canonical; [exact Hcwd| |exact Hp]. rewrite Forall_forall in Hok. by apply Hok. }
    split.
    + apply (request_denial_contradicts _ _ t p); try done.
      * destruct (resolve_access_with_cwd E both path cwd), (resolve_access_with_cwd E (restricted (fsp_entries requested)) p cwd); done.
      * intros d pd Hd. apply Hden, elem_of_app. by left.
    + apply (granted_readable _ g _ t _ p); try done; [by rewrite Hga|]. intros d pd Hd. apply Hden, elem_of_app. by right.
  - intros Hw. destruct (Hgrant _ Hw eq_refl) as (g & p & Hg & Hga & Hp & Hpre & Hcov & _). exists g, p. split_and!; try done.
    destruct (resolve_access_with_cwd E (restricted (fsp_entries requested)) p cwd); done.
Qed.

(** A command goes without a sandbox only if there is nothing to enforce.  If
    the platform has a sandbox and the manager chooses none by itself, then
    somebody else isolates the file system, or the network is open and the
    policy lets every path be written, and no managed network is required. *)
Theorem no_sandbox_only_when_unrestricted (os : Os) (p : FileSystemSandboxPolicy) (n : NetworkSandboxPolicy)
    (windows_sandbox managed_network : bool) :
  get_platform_sandbox os windows_sandbox ≠ None →
  select_initial os p n Auto windows_sandbox managed_network = NoSandbox →
  managed_network = false ∧
  (kind p = KExternalSandbox ∨
   (net_is_enabled n = true ∧
    ∀ path cwd c t, from_absolute E cwd = Some c → resolve_candidate_path E path cwd = Some t → policy_ok p →
      is_dir E (lit "/tmp") = true →
      resolve_access_with_cwd E p path cwd = Write ∧ can_write_path_with_cwd E p path cwd = true)).
Proof using current_dir_absolute.
  intros Hos. unfold select_initial. destruct (should_require_platform_sandbox p n managed_network) eqn:Hreq.
  { destruct os, windows_sandbox; done. }
  intros _. unfold should_require_platform_sandbox in Hreq. destruct managed_network; [done|]. split; [done|].
  destruct (net_is_enabled n); cbn [negb] in Hreq; [|left; apply negb_false_iff in Hreq; by apply bool_decide_eq_true in Hreq].
  destruct (kind p) eqn:Hk; [right|right|by left]; (split; [done|]); intros path cwd c t Hc Ht Hok Htmp;
    apply (full_disk_write_sound E current_dir_absolute p path cwd c t Hc Ht Hok Htmp).
  - by apply negb_false_iff in Hreq.
  - unfold has_full_disk_write_access. by rewrite Hk.
Qed.
End properties.

(** The sandbox runs the command it was given.  A transformed command keeps
    its directory and environment; without a sandbox it is the program with its
    arguments, and inside the Linux sandbox it follows the separator after the
    helper's own flags, which depend on the profile but not on the command, so
    no argument of it is read as a flag.  The only errors are a missing helper,
    a missing bubblewrap and a sandbox of another platform; it never panics. *)
Theorem transform_keeps_the_command (to_json : PermissionProfile → rstring) (is_wsl1 : bool) (r : SandboxTransformRequest) :
  let argv := cmd_program (tr_command r) :: cmd_args (tr_command r) in
  match transform to_json is_wsl1 r with
  | Ok x =>
      ex_cwd x = cmd_cwd (tr_command r) ∧ ex_env x = cmd_env (tr_command r) ∧ ex_sandbox x = tr_sandbox r ∧
      match tr_sandbox r with
      | NoSandbox | WindowsRestrictedToken => ex_command x = argv ∧ ex_arg0 x = None
      | MacosSeatbelt => False
      | LinuxSeccomp =>
          ∃ exe, tr_codex_linux_sandbox_exe r = Some exe ∧ ex_arg0 x = Some (linux_sandbox_arg0_override exe) ∧
            ex_command x = exe :: linux_sandbox_flags to_json (cmd_cwd (tr_command r)) (tr_sandbox_policy_cwd r)
                             (Some (ex_permission_profile x)) (tr_use_legacy_landlock r) (tr_enforce_managed_network r)
                           ++ lit "--" :: argv
      end
  | Err MissingLinuxSandboxExecutable => tr_sandbox r = LinuxSeccomp ∧ tr_codex_linux_sandbox_exe r = None
  | Err Wsl1UnsupportedForBubblewrap => tr_sandbox r = LinuxSeccomp ∧ is_wsl1 = true ∧ tr_use_legacy_landlock r = false
  | Err SeatbeltUnavailable => tr_sandbox r = MacosSeatbelt
  | Err ProfileUnreachable => False
  | Panic => False
  end.
Proof.
  cbv zeta. unfold transform, effective_permission_profile. destruct (to_runtime_permissions (tr_permissions r)) as [fs network].
  destruct (from_runtime_spec (enforcement (tr_permissions r)) (effective_file_system_sandbox_policy fs (cmd_additional_permissions (tr_command r)))
    (effective_network_sandbox_policy network (cmd_additional_permissions (tr_command r)))) as (q & -> & _).
  destruct (to_runtime_permissions q) as [fs' network']. destruct (tr_sandbox r) eqn:Hs; cbn [mbind outcome_bind]; [by cbn|done| |by cbn].
  destruct (tr_codex_linux_sandbox_exe r) as [exe|]; cbn [ok_or mbind outcome_bind]; [|done].
  unfold ensure_linux_bubblewrap_is_supported.
  destruct is_wsl1, (tr_use_legacy_landlock r), (negb _ || _); cbn [negb andb mbind outcome_bind]; cbn; split_and!; try done; by exists exe.
Qed.

(** ** Runs *)
Definition kb_request (kb : option rstring) : SandboxTransformRequest :=
  mk_transform (mk_command (lit "touch") [lit "/kb/x"] (lit "/w") ∅ None kb)
    (Managed (MRestricted [mk_entry (Special Root) Read; mk_entry (PathEntry (lit "/w")) Write] None) NetRestricted) LinuxSeccomp false
    (lit "/w") (Some (lit "/opt/helper")) false.
(** The knowledge base is added to the policy that is returned, not to the
    profile from which the Linux helper builds the sandbox. *)
Example kb_root_never_reaches_the_linux_sandbox (to_json : PermissionProfile → rstring) :
  match transform to_json false (kb_request (Some (lit "/kb"))), transform to_json false (kb_request None) with
  | Ok with_kb, Ok without =>
      ex_command with_kb = ex_command without ∧ ex_permission_profile with_kb = ex_permission_profile without ∧
      resolve_access_with_cwd sample_env (ex_file_system_sandbox_policy with_kb) (lit "/kb/x") (lit "/w") = Write ∧
      resolve_access_with_cwd sample_env (file_system_sandbox_policy (ex_permission_profile with_kb)) (lit "/kb/x") (lit "/w") = Read
  | _, _ => False
  end.
Proof. cbn. split_and!; [done|done|by vm_compute..]. Qed.

Definition no_globs (_ : rstring) : (rstring → bool) + rstring := inr [].
Definition asked : FileSystemPermissions :=
  mk_fsp [mk_entry (PathEntry (lit "/w")) Write; mk_entry (PathEntry (lit "/w/key")) Read; mk_entry (PathEntry (lit "/w/secret")) Deny] None.
Definition given : FileSystemPermissions := mk_fsp [mk_entry (PathEntry (lit "/w")) Write] None.
(** A read-only entry of the request below a granted root is forgotten. *)
Example intersection_can_write_more_than_asked :
  match intersect_file_system sample_env no_globs asked given (lit "/w") with
  | Ok fs =>
      resolve_access_with_cwd sample_env (restricted (fsp_entries asked)) (lit "/w/key") (lit "/w") = Read ∧
      resolve_access_with_cwd sample_env (restricted (fsp_entries fs)) (lit "/w/key") (lit "/w") = Write ∧
      resolve_access_with_cwd sample_env (restricted (fsp_entries fs)) (lit "/w/secret") (lit "/w") = Deny
  | _ => False
  end.
Proof. by vm_compute. Qed.

Lemma intersection_is_within_both_witness :
  can_read_path_with_cwd sample_env (restricted (fsp_entries asked)) (lit "/w/a") (lit "/w") = true.
Proof.
  assert (canonical (lit "/w")) as Hw. { exists [lit "w"]. split; [|done]. by apply (bool_decide_unpack _). }
  destruct (intersect_file_system sample_env no_globs asked given (lit "/w")) as [fs| |] eqn:Hfs; [|by vm_compute in Hfs..].
  refine (proj1 (proj1 (intersection_is_within_both sample_env sample_current_dir no_globs asked given fs (lit "/w") (lit "/w/a") (lit "/w/a")
    Hw _ _ Hfs) _)).
  - by constructor.
  - by vm_compute.
  - vm_compute in Hfs. injection Hfs as <-. by vm_compute.
Defined.

Lemma no_sandbox_only_when_unrestricted_witness :
  can_write_path_with_cwd sample_env unrestricted (lit "/etc/x") (lit "/w") = true.
Proof.
  destruct (no_sandbox_only_when_unrestricted sample_env sample_current_dir Linux unrestricted NetEnabled false false ltac:(done) ltac:(done))
    as (_ & [Hk|[_ H]]); [by vm_compute in Hk|].
  apply (H (lit "/etc/x") (lit "/w") (lit "/w") (lit "/etc/x")); [by vm_compute..|by constructor|by vm_compute].
Defined.
