(* ===== verification/ExecApproval.v ===== *)
(** * Approval of commands ([core/src/exec_policy.rs], [core/src/tools/sandboxing.rs], [core/src/safety.rs])

    What happens to a command that the model wants to run: it runs, with or
    without a sandbox, it needs the user's approval, or it is refused.  The
    decision puts together the rules of the execution policy, the lists of
    safe and dangerous commands, the approval policy and the permission
    profile; it may propose a rule that would spare the next question.  The
    parsers of shell and PowerShell scripts and [shlex::try_join] are
    parameters.  This is the Unix build. *)
From S2P Require Import Prelude RustStr RustPath AbsolutePath BashTree CommandSafety Permissions PermissionRoots PermissionProfile ExecPolicy.

(** ** Settings *)
Record GranularApprovalConfig := mk_granular {
  sandbox_approval : bool; rules : bool; skill_approval : bool; request_permissions : bool; mcp_elicitations : bool }.
#[global] Instance GranularApprovalConfig_eq_dec : EqDecision GranularApprovalConfig.
Proof. solve_decision. Defined.
Definition allows_sandbox_approval (c : GranularApprovalConfig) : bool := sandbox_approval c.
Definition allows_rules_approval (c : GranularApprovalConfig) : bool := rules c.
Definition allows_skill_approval (c : GranularApprovalConfig) : bool := skill_approval c.
Definition allows_request_permissions (c : GranularApprovalConfig) : bool := request_permissions c.
Definition allows_mcp_elicitations (c : GranularApprovalConfig) : bool := mcp_elicitations c.

Inductive AskForApproval := UnlessTrusted | OnFailure | OnRequest | Granular (config : GranularApprovalConfig) | Never.
#[global] Instance AskForApproval_eq_dec : EqDecision AskForApproval.
Proof. solve_decision. Defined.

Inductive SandboxPermissions := UseDefault | RequireEscalated | WithAdditionalPermissions.
#[global] Instance SandboxPermissions_eq_dec : EqDecision SandboxPermissions.
Proof. solve_decision. Defined.
Definition requires_escalated_permissions (s : SandboxPermissions) : bool := bool_decide (s = RequireEscalated).
Definition requests_sandbox_override (s : SandboxPermissions) : bool := negb (bool_decide (s = UseDefault)).
Definition uses_additional_permissions (s : SandboxPermissions) : bool := bool_decide (s = WithAdditionalPermissions).

Record ExecPolicyAmendment := mk_amendment { amendment_command : list rstring }.
#[global] Instance ExecPolicyAmendment_eq_dec : EqDecision ExecPolicyAmendment.
Proof. solve_decision. Defined.
Inductive ExecApprovalRequirement :=
| Skip (bypass_sandbox : bool) (proposed_amendment : option ExecPolicyAmendment)
| NeedsApproval (reason : option rstring) (proposed_amendment : option ExecPolicyAmendment)
| ForbiddenBy (reason : rstring).
Definition proposed_execpolicy_amendment (r : ExecApprovalRequirement) : option ExecPolicyAmendment :=
  match r with Skip _ a | NeedsApproval _ a => a | ForbiddenBy _ => None end.

(** ** Approval without an execution policy, and the first attempt *)
Definition default_exec_approval_requirement (policy : AskForApproval) (fs : FileSystemSandboxPolicy) : ExecApprovalRequirement :=
  let needs_approval := match policy with
                        | Never | OnFailure => false
                        | OnRequest | Granular _ => bool_decide (Permissions.kind fs = KRestricted)
                        | UnlessTrusted => true
                        end in
  if needs_approval && match policy with Granular c => negb (allows_sandbox_approval c) | _ => false end
  then ForbiddenBy (lit "approval policy disallowed sandbox approval prompt")
  else if needs_approval then NeedsApproval None None
  else Skip false None.

Inductive SandboxOverride := NoOverride | BypassSandboxFirstAttempt.
Definition sandbox_override_for_first_attempt (s : SandboxPermissions) (r : ExecApprovalRequirement) (fs : FileSystemSandboxPolicy) :
    SandboxOverride :=
  match r with
  | Skip true _ => BypassSandboxFirstAttempt
  | _ =>
      if has_denied_read_restrictions fs then NoOverride
      else if requires_escalated_permissions s then BypassSandboxFirstAttempt else NoOverride
  end.

(** ** Commands without a rule *)
Definition PROMPT_CONFLICT_REASON : rstring := lit "approval required by policy, but AskForApproval is set to Never".
Definition REJECT_SANDBOX_APPROVAL_REASON : rstring :=
  lit "approval required by policy, but AskForApproval::Granular.sandbox_approval is false".
Definition REJECT_RULES_APPROVAL_REASON : rstring :=
  lit "approval required by policy rule, but AskForApproval::Granular.rules is false".
Definition BANNED_PREFIX_SUGGESTIONS : list (list rstring) :=
  List.map (List.map lit)
  [["python3"]; ["python3"; "-"]; ["python3"; "-c"]; ["python"]; ["python"; "-"]; ["python"; "-c"]; ["py"]; ["py"; "-3"];
   ["pythonw"]; ["pyw"]; ["pypy"]; ["pypy3"]; ["git"]; ["bash"]; ["bash"; "-lc"]; ["sh"]; ["sh"; "-c"]; ["sh"; "-lc"]; ["zsh"];
   ["zsh"; "-lc"]; ["/bin/zsh"]; ["/bin/zsh"; "-lc"]; ["/bin/bash"]; ["/bin/bash"; "-lc"]; ["pwsh"]; ["pwsh"; "-Command"];
   ["pwsh"; "-c"]; ["powershell"]; ["powershell"; "-Command"]; ["powershell"; "-c"]; ["powershell.exe"];
   ["powershell.exe"; "-Command"]; ["powershell.exe"; "-c"]; ["env"]; ["sudo"]; ["node"]; ["node"; "-e"]; ["perl"]; ["perl"; "-e"];
   ["ruby"]; ["ruby"; "-e"]; ["php"]; ["php"; "-r"]; ["lua"]; ["lua"; "-e"]; ["osascript"]]%string.

Definition is_policy_match (m : RuleMatch) : bool :=
  match m with PrefixRuleMatch _ _ _ _ => true | HeuristicsRuleMatch _ _ => false end.
Definition prompt_is_rejected_by_policy (policy : AskForApproval) (prompt_is_rule : bool) : option rstring :=
  match policy with
  | Never => Some PROMPT_CONFLICT_REASON
  | OnFailure | OnRequest | UnlessTrusted => None
  | Granular c =>
      if prompt_is_rule then if negb (allows_rules_approval c) then Some REJECT_RULES_APPROVAL_REASON else None
      else if negb (allows_sandbox_approval c) then Some REJECT_SANDBOX_APPROVAL_REASON
      else None
  end.

(** [cfg!(windows)]. *)
Definition windows : bool := false.

Record UnmatchedCommandContext := mk_context {
  approval_policy : AskForApproval; permission_profile : PermissionProfile;
  context_file_system_policy : FileSystemSandboxPolicy; sandbox_cwd : rstring;
  sandbox_permissions : SandboxPermissions; used_complex_parsing : bool }.

Section approval.
Context (E : Env) (linux : bool) (parse_with_powershell_ast : rstring → rstring → PowershellParseOutcome)
  (try_parse_shell : rstring → option Tree) (try_join : list rstring → option rstring).

Definition profile_is_managed_read_only (profile : PermissionProfile) (fs : FileSystemSandboxPolicy) (cwd : rstring) : bool :=
  match profile with Managed _ _ => true | _ => false end
  && bool_decide (Permissions.kind fs = KRestricted)
  && negb (has_full_disk_write_access fs)
  && match get_writable_roots_with_cwd E fs cwd with [] => true | _ => false end.
Definition sandbox_is_explicitly_disabled (profile : PermissionProfile) : bool :=
  match profile with Disabled | External _ => true | Managed _ _ => false end.

Definition restricted_decision (ctx : UnmatchedCommandContext) : Decision :=
  match Permissions.kind (context_file_system_policy ctx) with
  | KUnrestricted | KExternalSandbox => Allow
  | KRestricted => if requests_sandbox_override (sandbox_permissions ctx) then Prompt else Allow
  end.
Definition render_decision_for_unmatched_command (ctx : UnmatchedCommandContext) (command : list rstring) : Decision :=
  let is_known_safe := is_known_safe_command linux parse_with_powershell_ast try_parse_shell command in
  let environment_lacks_sandbox_protections :=
    windows && profile_is_managed_read_only (permission_profile ctx) (context_file_system_policy ctx) (sandbox_cwd ctx) in
  if is_known_safe && negb (used_complex_parsing ctx)
     && (bool_decide (approval_policy ctx = UnlessTrusted) || environment_lacks_sandbox_protections)
  then Allow
  else if command_might_be_dangerous try_parse_shell command || environment_lacks_sandbox_protections then
    match approval_policy ctx with
    | Never => if sandbox_is_explicitly_disabled (permission_profile ctx) then Allow else Forbidden
    | OnFailure | OnRequest | UnlessTrusted | Granular _ => Prompt
    end
  else match approval_policy ctx with
  | Never | OnFailure => Allow
  | UnlessTrusted => Prompt
  | OnRequest => restricted_decision ctx
  | Granular _ => restricted_decision ctx
  end.

(** ** The commands of a call *)
Record ExecPolicyCommands := mk_commands { commands : list (list rstring); complex_parsing : bool }.
Definition commands_for_exec_policy (command : list rstring) : ExecPolicyCommands :=
  match parse_shell_lc_plain_commands try_parse_shell command with
  | Some ((_ :: _) as commands) => mk_commands commands false
  | _ =>
      match parse_shell_lc_single_command_prefix try_parse_shell command with
      | Some single_command => mk_commands [single_command] true
      | None => mk_commands [command] false
      end
  end.

(** ** Proposed rules *)
Definition prompts (m : RuleMatch) : bool := is_policy_match m && bool_decide (match_decision m = Prompt).
Fixpoint first_heuristic (d : Decision) (l : list RuleMatch) : option ExecPolicyAmendment :=
  match l with
  | [] => None
  | HeuristicsRuleMatch command d' :: l => if bool_decide (d' = d) then Some (mk_amendment command) else first_heuristic d l
  | _ :: l => first_heuristic d l
  end.
Definition try_derive_execpolicy_amendment_for_prompt_rules (matched : list RuleMatch) : option ExecPolicyAmendment :=
  if existsb prompts matched then None else first_heuristic Prompt matched.
Definition try_derive_execpolicy_amendment_for_allow_rules (matched : list RuleMatch) : option ExecPolicyAmendment :=
  if existsb is_policy_match matched then None else first_heuristic Allow matched.

Definition check_resolved (p : Policy) (cmd : list rstring) (fallback : list rstring → Decision) : outcome Error Evaluation :=
  check_with_options (home_dir E) (current_dir E) p cmd fallback true.
(** [all] stops at the first command that is not approved; evaluation never panics here. *)
Fixpoint all_allowed (p : Policy) (fallback : list rstring → Decision) (cmds : list (list rstring)) : outcome Error bool :=
  match cmds with
  | [] => Ok true
  | cmd :: cmds =>
      let? e := check_resolved p cmd fallback in
      if bool_decide (decision e = Allow) then all_allowed p fallback cmds else Ok false
  end.
Definition prefix_rule_would_approve_all_commands (p : Policy) (prefix_rule : list rstring) (cmds : list (list rstring))
    (fallback : list rstring → Decision) : outcome Error bool :=
  match add_prefix_rule p prefix_rule Allow with
  | Ok p' => all_allowed p' fallback cmds
  | Err _ => Ok false
  | Panic => Panic
  end.
Definition derive_requested_execpolicy_amendment_from_prefix_rule (prefix_rule : option (list rstring)) (matched : list RuleMatch)
    (p : Policy) (cmds : list (list rstring)) (fallback : list rstring → Decision) : outcome Error (option ExecPolicyAmendment) :=
  match prefix_rule with
  | None | Some [] => Ok None
  | Some prefix_rule =>
      if bool_decide (prefix_rule ∈ BANNED_PREFIX_SUGGESTIONS) then Ok None
      else if existsb is_policy_match matched then Ok None
      else let? approves := prefix_rule_would_approve_all_commands p prefix_rule cmds fallback in
           Ok (if approves : bool then Some (mk_amendment prefix_rule) else None)
  end.

(** ** Reasons *)
Definition render_shlex_command (args : list rstring) : rstring := default (join_with (lit " ") args) (try_join args).
(** [max_by_key] on the length of the matched prefix: the last of the longest. *)
Definition longer (acc : option (list rstring * option rstring)) (m : list rstring * option rstring) :=
  match acc with
  | Some best => if length m.1 <? length best.1 then Some best else Some m
  | None => Some m
  end.
Definition most_specific (d : Decision) (matched : list RuleMatch) : option (list rstring * option rstring) :=
  foldl longer None
    (omap (λ m, match m with
                | PrefixRuleMatch prefix d' _ justification => if bool_decide (d' = d) then Some (prefix, justification) else None
                | HeuristicsRuleMatch _ _ => None
                end) matched).
Definition backquoted (s : rstring) : rstring := lit "`" ++ s ++ lit "`".
Definition derive_prompt_reason (command_args : list rstring) (e : Evaluation) : option rstring :=
  let command := render_shlex_command command_args in
  match most_specific Prompt (matched_rules e) with
  | Some (_, Some justification) => Some (backquoted command ++ lit " requires approval: " ++ justification)
  | Some (_, None) => Some (backquoted command ++ lit " requires approval by policy")
  | None => None
  end.
Definition derive_forbidden_reason (command_args : list rstring) (e : Evaluation) : rstring :=
  let command := render_shlex_command command_args in
  match most_specific Forbidden (matched_rules e) with
  | Some (_, Some justification) => backquoted command ++ lit " rejected: " ++ justification
  | Some (prefix, None) =>
      backquoted command ++ lit " rejected: policy forbids commands starting with " ++ backquoted (render_shlex_command prefix)
  | None => backquoted command ++ lit " rejected: blocked by policy"
  end.

(** ** The requirement *)
Record ExecApprovalRequest := mk_request {
  req_command : list rstring; req_approval_policy : AskForApproval; req_permission_profile : PermissionProfile;
  req_file_system_policy : FileSystemSandboxPolicy; req_sandbox_cwd : rstring;
  req_sandbox_permissions : SandboxPermissions; req_prefix_rule : option (list rstring) }.
Definition exec_policy_fallback (req : ExecApprovalRequest) (complex : bool) : list rstring → Decision :=
  render_decision_for_unmatched_command
    (mk_context (req_approval_policy req) (req_permission_profile req) (req_file_system_policy req) (req_sandbox_cwd req)
       (req_sandbox_permissions req) complex).
Definition rule_matches_of (p : Policy) (cmd : list rstring) : list RuleMatch :=
  matches_for_command_with_options (home_dir E) (current_dir E) p cmd None true.
Definition explicitly_allowed (p : Policy) (cmd : list rstring) : bool :=
  existsb (λ m, is_policy_match m && bool_decide (match_decision m = Allow)) (rule_matches_of p cmd).

Definition create_exec_approval_requirement_for_command (exec_policy : Policy) (req : ExecApprovalRequest) :
    outcome Error ExecApprovalRequirement :=
  let c := commands_for_exec_policy (req_command req) in
  let auto_amendment_allowed := negb (complex_parsing c) in
  let fallback := exec_policy_fallback req (complex_parsing c) in
  let? evaluation := check_multiple_with_options (home_dir E) (current_dir E) exec_policy (commands c) fallback true in
  let? requested_amendment :=
    if auto_amendment_allowed
    then derive_requested_execpolicy_amendment_from_prefix_rule (req_prefix_rule req) (matched_rules evaluation) exec_policy
           (commands c) fallback
    else Ok None in
  match decision evaluation with
  | Forbidden => Ok (ForbiddenBy (derive_forbidden_reason (req_command req) evaluation))
  | Prompt =>
      let prompt_is_rule := existsb prompts (matched_rules evaluation) in
      match prompt_is_rejected_by_policy (req_approval_policy req) prompt_is_rule with
      | Some reason => Ok (ForbiddenBy reason)
      | None =>
          Ok (NeedsApproval (derive_prompt_reason (req_command req) evaluation)
                (match requested_amendment with
                 | Some a => Some a
                 | None => if auto_amendment_allowed
                           then try_derive_execpolicy_amendment_for_prompt_rules (matched_rules evaluation) else None
                 end))
      end
  | Allow =>
      Ok (Skip (forallb (explicitly_allowed exec_policy) (commands c))
            (if auto_amendment_allowed then try_derive_execpolicy_amendment_for_allow_rules (matched_rules evaluation) else None))
  end.
End approval.

(** ** Lemmas: rules of one command *)
Section rule_matches.
Context (E : Env).
Abbreviation rules_for := (rule_matches_of E).
Abbreviation matches p fallback cmd := (matches_for_command_with_options (home_dir E) (current_dir E) p cmd (Some fallback) true).

Lemma rules_for_cases p cmd :
  rules_for p cmd = if bool_decide (exact_matches p cmd = []) then match_host_executable_rules (home_dir E) (current_dir E) p cmd
                    else exact_matches p cmd.
Proof using Type. unfold rule_matches_of, matches_for_command_with_options, exact_matches. by destruct (if bool_decide _ then _ else _). Qed.
Lemma matches_rules_for p fallback cmd :
  matches p fallback cmd = if bool_decide (rules_for p cmd = []) then [HeuristicsRuleMatch cmd (fallback cmd)] else rules_for p cmd.
Proof using Type. apply matches_cases. Qed.

Lemma exact_policy_match p cmd m : m ∈ exact_matches p cmd → is_policy_match m = true.
Proof using Type.
  rewrite exact_matches_rules. destruct cmd as [|first rest]; [by intros ?%elem_of_nil|].
  intros (r & _ & Hm)%list_elem_of_omap. unfold rule_matches in Hm. by apply fmap_Some in Hm as (? & _ & ->).
Qed.
Lemma host_match_spec p cmd m :
  m ∈ match_host_executable_rules (home_dir E) (current_dir E) p cmd →
  ∃ first rest program basename r m', cmd = first :: rest ∧ from_absolute_path (home_dir E) (current_dir E) first = Ok program ∧
    file_name program = Some basename ∧ r ∈ rules_of p basename ∧ rule_matches r (basename :: rest) = Some m' ∧
    m = with_resolved_program m' program.
Proof using Type.
  unfold match_host_executable_rules. destruct cmd as [|first rest]; [by intros ?%elem_of_nil|].
  destruct (from_absolute_path _ _ first) as [prog| |] eqn:Hp; [|by intros ?%elem_of_nil..].
  destruct (executable_path_lookup_key prog) as [basename|] eqn:Hb; [|by intros ?%elem_of_nil].
  destruct (rules_by_program p !! basename) as [rs|] eqn:Hr; [|by intros ?%elem_of_nil].
  destruct (match _ with Some _ => _ | None => _ end); [by intros ?%elem_of_nil|].
  intros (m' & -> & (r & Hin & Hm)%list_elem_of_omap)%list_elem_of_fmap.
  exists first, rest, prog, basename, r, m'. unfold executable_path_lookup_key in Hb. apply fmap_Some in Hb as (? & Hb & ->).
  split_and!; try done. unfold rules_of. by rewrite Hr.
Qed.
Lemma rules_for_policy_match p cmd m : m ∈ rules_for p cmd → is_policy_match m = true.
Proof using Type.
  rewrite rules_for_cases. case_bool_decide; [|apply exact_policy_match].
  intros (? & ? & ? & ? & r & m' & _ & _ & _ & _ & Hm & ->)%host_match_spec.
  unfold rule_matches in Hm. by apply fmap_Some in Hm as (? & _ & ->).
Qed.

(** The matches of a policy with one more allow rule: old ones, or they allow. *)
Lemma allow_rule_only_allows p prefix p' cmd m :
  add_prefix_rule p prefix Allow = Ok p' → m ∈ rules_for p' cmd → match_decision m = Allow ∨ m ∈ rules_for p cmd.
Proof using Type.
  destruct prefix as [|first rest]; [done|]. intros Hadd. rewrite !rules_for_cases.
  pose proof (add_prefix_rule_exact p first rest Allow p' cmd Hadd) as Hex. rewrite Hex.
  destruct (decide ((first :: rest) `prefix_of` cmd)).
  - rewrite bool_decide_eq_false_2 by (by destruct (exact_matches p cmd)).
    intros [Hin| ->%list_elem_of_singleton]%elem_of_app; [|by left]. right.
    rewrite bool_decide_eq_false_2; [done|]. intros Hn. rewrite Hn in Hin. by apply elem_of_nil in Hin.
  - rewrite app_nil_r. case_bool_decide; [|by right]. unfold match_host_executable_rules.
    destruct cmd as [|c cmd]; [by right|]. destruct (from_absolute_path _ _ c) as [prog| |]; [|by right..].
    destruct (executable_path_lookup_key prog) as [basename|]; [|by right]. injection Hadd as <-. cbn [rules_by_program host_executables_by_name].
    unfold multi_insert. destruct (decide (basename = first)) as [->|Hne]; [|rewrite lookup_insert_ne by done; by right].
    rewrite lookup_insert, decide_True by done. destruct (match host_executables_by_name p !! first with Some _ => _ | None => _ end); [by intros ?%elem_of_nil|].
    rewrite omap_app, fmap_app. intros [Hin|Hin]%elem_of_app.
    + destruct (rules_by_program p !! first) as [rs|]; [by right|]. by apply elem_of_nil in Hin.
    + left. cbn in Hin. destruct (rule_matches _ _) as [m'|] eqn:Hm; [|by apply elem_of_nil in Hin].
      apply list_elem_of_singleton in Hin as ->. unfold rule_matches in Hm. by apply fmap_Some in Hm as (? & _ & ->).
Qed.
(** The new rule matches the command it is made of. *)
Lemma new_rule_matches p cmd p' :
  cmd ≠ [] → add_prefix_rule p cmd Allow = Ok p' → explicitly_allowed E p' cmd = true.
Proof using Type.
  intros Hne Hadd. destruct cmd as [|first rest]; [done|].
  pose proof (add_prefix_rule_exact p first rest Allow p' (first :: rest) Hadd) as Hex. rewrite decide_True in Hex by done.
  unfold explicitly_allowed. apply existsb_exists. exists (PrefixRuleMatch (first :: rest) Allow None None). split; [|done].
  apply list_elem_of_In. rewrite rules_for_cases, Hex, bool_decide_eq_false_2 by (by destruct (exact_matches p _)).
  apply elem_of_app. right. left.
Qed.

(** The matches of several commands. *)
Lemma elem_matches p fallback cmds m :
  m ∈ (cmds ≫= λ cmd, matches p fallback cmd) ↔
  ∃ cmd, cmd ∈ cmds ∧ (m ∈ rules_for p cmd ∨ rules_for p cmd = [] ∧ m = HeuristicsRuleMatch cmd (fallback cmd)).
Proof using Type.
  rewrite list_elem_of_bind. split; intros (cmd & H1 & H2); exists cmd; rewrite matches_rules_for in *.
  - split; [done|]. case_bool_decide; [apply list_elem_of_singleton in H1 as ->; auto|auto].
  - split; [|done]. case_bool_decide as Hn; [|naive_solver]. rewrite Hn in H2. destruct H2 as [?%elem_of_nil|[_ ->]]; [done|]. left.
Qed.
End rule_matches.

(** ** Lemmas: the requirement *)
Lemma strictest_allow l : l ≠ [] → strictest Allow l ↔ ∀ d, d ∈ l → d = Allow.
Proof.
  intros Hl. split.
  - intros [_ H] d Hd. specialize (H d Hd). destruct d; cbn in H; [done|lia..].
  - intros H. destruct l as [|d l]; [done|]. split; [rewrite (H d) by left; left|]. intros x Hx. by rewrite (H x Hx).
Qed.
Lemma first_heuristic_spec d l a :
  first_heuristic d l = Some a → HeuristicsRuleMatch (amendment_command a) d ∈ l.
Proof.
  induction l as [|[? ? ? ?|cmd d'] l IH]; cbn; [done|intros; right; auto|]. case_bool_decide; [|intros; right; auto].
  intros [= <-]. subst. left.
Qed.

Section requirement.
Context (E : Env) (linux : bool) (parse_with_powershell_ast : rstring → rstring → PowershellParseOutcome)
  (try_parse_shell : rstring → option Tree) (try_join : list rstring → option rstring).
Abbreviation rules_for := (rule_matches_of E).
Abbreviation requirement := (create_exec_approval_requirement_for_command E linux parse_with_powershell_ast try_parse_shell try_join).
Abbreviation segments req := (commands (commands_for_exec_policy try_parse_shell (req_command req))).
Abbreviation complex req := (complex_parsing (commands_for_exec_policy try_parse_shell (req_command req))).
Abbreviation fallback_for req := (exec_policy_fallback E linux parse_with_powershell_ast try_parse_shell req (complex req)).
Abbreviation matches p fallback := (λ cmd, matches_for_command_with_options (home_dir E) (current_dir E) p cmd (Some fallback) true).

Lemma segments_not_nil command : commands (commands_for_exec_policy try_parse_shell command) ≠ [].
Proof using Type.
  unfold commands_for_exec_policy. destruct (parse_shell_lc_plain_commands _ _) as [[|]|]; [|done|];
    by destruct (parse_shell_lc_single_command_prefix _ _).
Qed.
Lemma all_allowed_spec p fallback cmds :
  ∃ b, all_allowed E p fallback cmds = Ok b ∧
    (b = true ↔ ∀ m, m ∈ (cmds ≫= matches p fallback) → match_decision m = Allow).
Proof using Type.
  induction cmds as [|cmd cmds (b & Hb & IH)]; cbn [all_allowed].
  { exists true. split; [done|]. split; [|done]. by intros _ m ?%elem_of_nil. }
  destruct (check_strictest (home_dir E) (current_dir E) p cmd fallback true) as (d & Hd & Hs). unfold check_resolved. rewrite Hd.
  cbn [mbind outcome_bind decision].
  assert (match_decision <$> matches p fallback cmd ≠ []) as Hne.
  { intros H%fmap_nil_inv. by apply matches_not_nil in H. }
  assert (d = Allow ↔ ∀ m, m ∈ matches p fallback cmd → match_decision m = Allow) as Hda.
  { split.
    - intros -> m Hm. apply (proj1 (strictest_allow _ Hne) Hs), list_elem_of_fmap. eauto.
    - intros H. destruct Hs as [Hin _]. by apply list_elem_of_fmap in Hin as (m & -> & Hm%H). }
  change ((cmd :: cmds) ≫= matches p fallback) with (matches p fallback cmd ++ (cmds ≫= matches p fallback)).
  case_bool_decide as Hd'.
  - exists b. split; [done|]. rewrite IH. split.
    + intros H m [Hm|Hm]%elem_of_app; [by apply Hda|auto].
    + intros H m Hm. apply H, elem_of_app. by right.
  - exists false. split; [done|]. split; [done|]. intros H. destruct Hd'. apply Hda. intros m Hm. apply H, elem_of_app. by left.
Qed.

(** What was proposed for the rule that the model asked for. *)
Lemma requested_spec prefix_rule matched p cmds fallback :
  ∃ o, derive_requested_execpolicy_amendment_from_prefix_rule E prefix_rule matched p cmds fallback = Ok o ∧
    ∀ a, o = Some a → prefix_rule = Some (amendment_command a) ∧ (amendment_command a ∉ BANNED_PREFIX_SUGGESTIONS) ∧
      (∀ m, m ∈ matched → is_policy_match m = false) ∧
      ∃ p', add_prefix_rule p (amendment_command a) Allow = Ok p' ∧ ∀ m, m ∈ (cmds ≫= matches p' fallback) → match_decision m = Allow.
Proof using Type.
  unfold derive_requested_execpolicy_amendment_from_prefix_rule. destruct prefix_rule as [[|first rest]|]; [by eexists| |by eexists].
  case_bool_decide as Hb; [by eexists|]. destruct (existsb is_policy_match matched) eqn:Hp; [by eexists|].
  unfold prefix_rule_would_approve_all_commands. destruct (add_prefix_rule p (first :: rest) Allow) as [p'| |] eqn:Hadd; [|done..].
  destruct (all_allowed_spec p' fallback cmds) as (b & -> & Hall). cbn [mbind outcome_bind]. eexists. split; [done|].
  intros a Ha. destruct b; [|done]. injection Ha as <-. split_and!; [done|done| |].
  - intros m Hm. apply not_true_iff_false. intros Hpm. apply not_true_iff_false in Hp. apply Hp, existsb_exists. exists m.
    by rewrite <- list_elem_of_In.
  - exists p'. split; [done|]. by apply Hall.
Qed.

Lemma requirement_spec p req :
  ∃ d requested, strictest d (match_decision <$> (segments req ≫= matches p (fallback_for req))) ∧
    (complex req = true → requested = None) ∧
    (∀ a, requested = Some a → derive_requested_execpolicy_amendment_from_prefix_rule E (req_prefix_rule req)
       (segments req ≫= matches p (fallback_for req)) p (segments req) (fallback_for req) = Ok (Some a)) ∧
    requirement p req =
      match d with
      | Forbidden => Ok (ForbiddenBy (derive_forbidden_reason try_join (req_command req) (mk_eval d (segments req ≫= matches p (fallback_for req)))))
      | Prompt =>
          match prompt_is_rejected_by_policy (req_approval_policy req) (existsb prompts (segments req ≫= matches p (fallback_for req))) with
          | Some reason => Ok (ForbiddenBy reason)
          | None => Ok (NeedsApproval (derive_prompt_reason try_join (req_command req) (mk_eval d (segments req ≫= matches p (fallback_for req))))
                          (match requested with
                           | Some a => Some a
                           | None => if negb (complex req)
                                     then try_derive_execpolicy_amendment_for_prompt_rules (segments req ≫= matches p (fallback_for req)) else None
                           end))
          end
      | Allow => Ok (Skip (forallb (explicitly_allowed E p) (segments req))
                       (if negb (complex req) then try_derive_execpolicy_amendment_for_allow_rules (segments req ≫= matches p (fallback_for req)) else None))
      end.
Proof using Type.
  destruct (check_multiple_strictest (home_dir E) (current_dir E) p (segments req) (fallback_for req) true (segments_not_nil _)) as (d & Hd & Hs).
  destruct (requested_spec (req_prefix_rule req) (segments req ≫= matches p (fallback_for req)) p (segments req) (fallback_for req)) as (o & Ho & _).
  exists d, (if negb (complex req) then o else None). split; [exact Hs|]. split; [by intros ->|]. split.
  { intros a. destruct (complex req) eqn:Hc; [done|]. intros [= ->]. rewrite <- Hc in *. exact Ho. }
  unfold create_exec_approval_requirement_for_command. cbv zeta. rewrite Hd. cbn [mbind outcome_bind matched_rules decision].
  cbn [matched_rules] in Ho. destruct (complex req) eqn:Hc; cbn [negb].
  - cbn [mbind outcome_bind]. destruct d; [done| |done]. by destruct (prompt_is_rejected_by_policy _ _).
  - rewrite Ho. cbn [mbind outcome_bind]. destruct d; [done| |done]. by destruct (prompt_is_rejected_by_policy _ _).
Qed.

(** ** Properties *)
Lemma skip_allows p req b a cmd :
  requirement p req = Ok (Skip b a) → cmd ∈ segments req →
  (∀ m, m ∈ rules_for p cmd → match_decision m = Allow) ∧ (rules_for p cmd = [] → fallback_for req cmd = Allow).
Proof using Type.
  intros Hr Hc. destruct (requirement_spec p req) as (d & o & Hs & _ & _ & Heq). rewrite Heq in Hr.
  destruct d; [|by destruct (prompt_is_rejected_by_policy _ _)|done].
  assert (∀ m, m ∈ (segments req ≫= matches p (fallback_for req)) → match_decision m = Allow) as Hall.
  { intros m Hm. destruct Hs as [_ Hs]. specialize (Hs (match_decision m) ltac:(apply list_elem_of_fmap; eauto)).
    by destruct (match_decision m); cbn in Hs; [|lia..]. }
  split.
  - intros m Hm. apply Hall, elem_matches. eauto.
  - intros Hn. apply (Hall (HeuristicsRuleMatch cmd (fallback_for req cmd))), elem_matches. eauto.
Qed.
Lemma skip_bypass p req b a :
  requirement p req = Ok (Skip b a) → b = forallb (explicitly_allowed E p) (segments req).
Proof using Type.
  intros Hr. destruct (requirement_spec p req) as (d & o & _ & _ & _ & Heq). rewrite Heq in Hr.
  destruct d; [by injection Hr as <- _|by destruct (prompt_is_rejected_by_policy _ _)|done].
Qed.
Lemma explicitly_allowed_rules p cmd : explicitly_allowed E p cmd = true → rules_for p cmd ≠ [].
Proof using Type. unfold explicitly_allowed. intros H Hn. by rewrite Hn in H. Qed.
Lemma prompts_spec p req :
  existsb prompts (segments req ≫= matches p (fallback_for req)) = true ↔
  ∃ cmd m, cmd ∈ segments req ∧ m ∈ rules_for p cmd ∧ match_decision m = Prompt.
Proof using Type.
  rewrite existsb_exists. setoid_rewrite <- list_elem_of_In. unfold prompts. split.
  - intros (m & (cmd & Hc & [Hm|[_ ->]])%elem_matches & Hp); [|done]. apply andb_true_iff in Hp as [_ Hp%bool_decide_eq_true]. eauto.
  - intros (cmd & m & Hc & Hm & Hp). exists m. split; [apply elem_matches; eauto|].
    rewrite (rules_for_policy_match E p cmd m Hm), Hp. done.
Qed.

(** C1: the decision on a command respects everything the user configured.  There
    always is one.  A rule that forbids a segment forbids the command.  A
    command runs without a question only when every rule that matches one of its
    segments allows it (a segment may have no rule); it runs outside the sandbox only
    when, besides, every segment has such a
    rule; a segment without any rule that is known to be dangerous runs unasked only when
    questions and the sandbox were both switched off, and when only trusted
    commands may run, a segment without a rule is on the safe list.  Nobody is asked
    who said never to ask, or who declined this kind of question. *)
Theorem approval_respects_the_policy (p : Policy) (req : ExecApprovalRequest) :
  script_commands try_parse_shell (lit "bash") = Some [[lit "bash"]] →
  ∃ r, requirement p req = Ok r ∧
  (∀ cmd m, cmd ∈ segments req → m ∈ rules_for p cmd → match_decision m = Forbidden → ∃ reason, r = ForbiddenBy reason) ∧
  (∀ b a, r = Skip b a → ∀ cmd, cmd ∈ segments req →
     (∀ m, m ∈ rules_for p cmd → match_decision m = Allow) ∧
     (b = true → rules_for p cmd ≠ []) ∧
     (rules_for p cmd = [] → command_might_be_dangerous try_parse_shell cmd = true →
        req_approval_policy req = Never ∧ sandbox_is_explicitly_disabled (req_permission_profile req) = true) ∧
     (rules_for p cmd = [] → req_approval_policy req = UnlessTrusted →
        is_known_safe_command linux parse_with_powershell_ast try_parse_shell cmd = true ∧ complex req = false)) ∧
  (∀ reason a, r = NeedsApproval reason a →
     req_approval_policy req ≠ Never ∧
     ∀ c, req_approval_policy req = Granular c →
       if existsb prompts (segments req ≫= matches p (fallback_for req)) then rules c = true else sandbox_approval c = true).
Proof using Type.
  intros Hbash. destruct (requirement_spec p req) as (d & o & Hs & _ & _ & Heq).
  assert (∃ r, requirement p req = Ok r) as [r Hr].
  { rewrite Heq. destruct d; [eauto|destruct (prompt_is_rejected_by_policy _ _); eauto|eauto]. }
  exists r. split; [done|]. split_and!.
  - intros cmd m Hc Hm Hf. rewrite Hr in Heq. destruct Hs as [_ Hs].
    specialize (Hs (match_decision m) ltac:(apply list_elem_of_fmap; exists m; split; [done|apply elem_matches; eauto])).
    rewrite Hf in Hs. destruct d; cbn in Hs; [lia..|]. injection Heq as ->. eauto.
  - intros b a -> cmd Hc. destruct (skip_allows p req b a cmd Hr Hc) as [Hall Hfb]. split_and!; [done| | |].
    + intros ->. apply skip_bypass in Hr. symmetry in Hr. rewrite forallb_forall in Hr. apply explicitly_allowed_rules, Hr.
      by apply list_elem_of_In.
    + intros Hn Hd. specialize (Hfb Hn). unfold exec_policy_fallback, render_decision_for_unmatched_command in Hfb. cbn in Hfb.
      destruct (is_known_safe_command _ _ _ cmd) eqn:Hk.
      { apply (safe_not_dangerous _ _ _ _ Hbash) in Hk. congruence. }
      rewrite Hd in Hfb. cbn in Hfb. destruct (req_approval_policy req); try done. split; [done|].
      by destruct (sandbox_is_explicitly_disabled _).
    + intros Hn Hu. specialize (Hfb Hn). unfold exec_policy_fallback, render_decision_for_unmatched_command in Hfb. cbn in Hfb.
      rewrite Hu in Hfb. destruct (is_known_safe_command _ _ _ cmd), (complex req), (command_might_be_dangerous _ cmd); try done.
  - intros reason a ->. rewrite Hr in Heq. destruct d; [done| |done].
    destruct (prompt_is_rejected_by_policy _ _) eqn:Hp; [done|]. split.
    + intros Hn. by rewrite Hn in Hp.
    + intros c Hg. rewrite Hg in Hp. cbn in Hp. unfold allows_rules_approval, allows_sandbox_approval in Hp.
      destruct (existsb prompts _); [by destruct (rules c)|by destruct (sandbox_approval c)].
Qed.

Lemma no_rule_holds p req d cmd m :
  strictest d (match_decision <$> (segments req ≫= matches p (fallback_for req))) → d ≠ Forbidden →
  existsb prompts (segments req ≫= matches p (fallback_for req)) = false →
  cmd ∈ segments req → m ∈ rules_for p cmd → match_decision m = Allow.
Proof using Type.
  intros [_ Hs] Hd Hp Hc Hm. destruct (match_decision m) eqn:Hmd; [done| |].
  - apply not_true_iff_false in Hp. destruct Hp. apply prompts_spec. eauto.
  - specialize (Hs (match_decision m) ltac:(apply list_elem_of_fmap; exists m; split; [done|apply elem_matches; eauto])).
    rewrite Hmd in Hs. destruct d; cbn in Hs; [lia..|done].
Qed.
Lemma derived_rule p req d a :
  first_heuristic d (segments req ≫= matches p (fallback_for req)) = Some a →
  (∀ cmd m, cmd ∈ segments req → m ∈ rules_for p cmd → match_decision m = Allow) →
  amendment_command a ∈ segments req ∧ rules_for p (amendment_command a) = [] ∧
  (amendment_command a ≠ [] → ∃ p', add_prefix_rule p (amendment_command a) Allow = Ok p' ∧
     explicitly_allowed E p' (amendment_command a) = true ∧
     ∀ cmd m, cmd ∈ segments req → m ∈ rules_for p' cmd → match_decision m = Allow).
Proof using Type.
  intros (cmd & Hc & [Hm|[Hn [= Hcmd _]]])%first_heuristic_spec%elem_matches Hall; [by apply rules_for_policy_match in Hm|].
  rewrite Hcmd. split_and!; [done|done|]. intros Hne.
  destruct (add_prefix_rule p cmd Allow) as [p'| |] eqn:Hadd; [|by destruct cmd..].
  exists p'. split_and!; [done|by eapply new_rule_matches|]. intros cmd' m Hc' Hm.
  destruct (allow_rule_only_allows E p _ p' cmd' m Hadd Hm); eauto.
Qed.

(** A proposed rule does what it is proposed for.  It is proposed only for a
    script that was read completely and that no rule holds back.  It is either
    the rule the model asked for, which lets the whole command run without a
    question, and which is none of the prefixes that would let anything run, or
    it is one of the segments, without a rule so far: with it that segment is
    explicitly allowed and no rule holds any segment back. *)
Theorem proposed_rules_spare_the_question (p : Policy) (req : ExecApprovalRequest) (r : ExecApprovalRequirement) (a : ExecPolicyAmendment) :
  requirement p req = Ok r → proposed_execpolicy_amendment r = Some a →
  complex req = false ∧
  (∀ cmd m, cmd ∈ segments req → m ∈ rules_for p cmd → match_decision m = Allow) ∧
  ((req_prefix_rule req = Some (amendment_command a) ∧ (amendment_command a ∉ BANNED_PREFIX_SUGGESTIONS) ∧
    ∃ p' b a', add_prefix_rule p (amendment_command a) Allow = Ok p' ∧ requirement p' req = Ok (Skip b a')) ∨
   (amendment_command a ∈ segments req ∧ rules_for p (amendment_command a) = [] ∧
    (amendment_command a ≠ [] → ∃ p', add_prefix_rule p (amendment_command a) Allow = Ok p' ∧
       explicitly_allowed E p' (amendment_command a) = true ∧
       ∀ cmd m, cmd ∈ segments req → m ∈ rules_for p' cmd → match_decision m = Allow))).
Proof using Type.
  intros Hr Ha. destruct (requirement_spec p req) as (d & o & Hs & Hcx & Ho & Heq).
  assert (complex req = false) as Hnc.
  { destruct (complex req); [|done]. rewrite Heq in Hr. cbn [negb] in Hr. rewrite (Hcx eq_refl) in Hr.
    destruct d; [by injection Hr as <-| |by injection Hr as <-].
    destruct (prompt_is_rejected_by_policy _ _); by injection Hr as <-. }
  assert (negb (complex req) = true) as Hnb by by rewrite Hnc. rewrite Hnb in Heq. split; [done|].
  rewrite Heq in Hr. destruct d; [| |by injection Hr as <-].
  - injection Hr as <-. cbn in Ha. unfold try_derive_execpolicy_amendment_for_allow_rules in Ha.
    destruct (existsb is_policy_match _) eqn:Hp; [done|].
    assert (existsb prompts (segments req ≫= matches p (fallback_for req)) = false) as Hpr.
    { apply not_true_iff_false. intros (m & Hm & Hpm)%existsb_exists. apply not_true_iff_false in Hp. apply Hp, existsb_exists.
      exists m. split; [done|]. by apply andb_true_iff in Hpm as [??]. }
    assert (∀ cmd m, cmd ∈ segments req → m ∈ rules_for p cmd → match_decision m = Allow) as Hno by (intros cmd m; by apply (no_rule_holds p req Allow)). split; [done|]. right. by eapply derived_rule.
  - destruct (prompt_is_rejected_by_policy _ _) eqn:Hrej; [by injection Hr as <-|]. injection Hr as <-. cbn in Ha. destruct o as [o|].
    + injection Ha as ->. specialize (Ho a eq_refl).
      destruct (requested_spec (req_prefix_rule req) (segments req ≫= matches p (fallback_for req)) p (segments req) (fallback_for req)) as (o' & Ho' & Hspec).
      rewrite Ho in Ho'. injection Ho' as <-. destruct (Hspec a eq_refl) as (H1 & H2 & H3 & p' & Hadd & Hall). split.
      * intros cmd m Hc Hm. assert (is_policy_match m = false) as Hf by (apply H3, elem_matches; eauto).
        by rewrite (rules_for_policy_match E p cmd m Hm) in Hf.
      * left. split_and!; [done|done|]. exists p'. destruct (requirement_spec p' req) as (d & o & [Hs' _] & _ & _ & Heq').
        apply list_elem_of_fmap in Hs' as (m & -> & Hm). rewrite (Hall m Hm) in Heq'. eauto.
    + unfold try_derive_execpolicy_amendment_for_prompt_rules in Ha. destruct (existsb prompts _) eqn:Hp; [done|].
      assert (∀ cmd m, cmd ∈ segments req → m ∈ rules_for p cmd → match_decision m = Allow) as Hno by (intros cmd m; by apply (no_rule_holds p req Prompt)). split; [done|]. right. by eapply derived_rule.
Qed.
End requirement.

(** ** Runs *)
Definition no_powershell (_ _ : rstring) : PowershellParseOutcome := Failed.
Definition run (p : Policy) (req : ExecApprovalRequest) : outcome Error ExecApprovalRequirement :=
  create_exec_approval_requirement_for_command sample_env true no_powershell sample_parser (λ _, None) p req.
Definition request (command : list String.string) (prefix_rule : option (list rstring)) : ExecApprovalRequest :=
  mk_request (lit <$> command) UnlessTrusted PermissionProfile.read_only (file_system_sandbox_policy PermissionProfile.read_only)
    (lit "/w") UseDefault prefix_rule.
Definition push_forbidden : Policy :=
  default policy_empty (ok (add_prefix_rule policy_empty [lit "git"; lit "push"] Forbidden)).

Definition push_allowed : Policy := default policy_empty (ok (add_prefix_rule policy_empty [lit "git"; lit "push"] Allow)).
Definition with_settings (req : ExecApprovalRequest) (policy : AskForApproval) (profile : PermissionProfile) : ExecApprovalRequest :=
  mk_request (req_command req) policy profile (req_file_system_policy req) (req_sandbox_cwd req) (req_sandbox_permissions req) (req_prefix_rule req).

(** A rule that forbids; a rule that allows, outside the sandbox; a safe command without a rule; a dangerous one that is
    asked about, and one that runs because everything is switched off. *)
Lemma approval_respects_the_policy_witness :
  let r := request ["git"; "push"; "-f"]%string None in let ls := request ["ls"]%string None in let rm := request ["rm"; "-rf"; "x"]%string None in
  let rm_unasked := with_settings rm Never PermissionProfile.Disabled in
  (∃ reason, run push_forbidden r = Ok (ForbiddenBy reason)) ∧
  (run push_allowed r = Ok (Skip true None) ∧ rule_matches_of sample_env push_allowed (req_command r) ≠ []) ∧
  (is_ok (run policy_empty ls) = true ∧ is_known_safe_command true no_powershell sample_parser (req_command ls) = true) ∧
  (∃ reason a, run policy_empty rm = Ok (NeedsApproval reason a) ∧ req_approval_policy rm ≠ Never) ∧
  (∃ a, run policy_empty rm_unasked = Ok (Skip false a) ∧ sandbox_is_explicitly_disabled (req_permission_profile rm_unasked) = true).
Proof.
  intros r ls rm rm_unasked. pose proof (λ p req, approval_respects_the_policy sample_env true no_powershell sample_parser (λ _, None) p req ltac:(by vm_compute)) as T. split_and!.
  - destruct (T push_forbidden r) as (x & Hx & Hf & _). destruct (Hf (req_command r) (PrefixRuleMatch [lit "git"; lit "push"] Forbidden None None)) as [reason ->];
      [apply (bool_decide_unpack _); by vm_compute|apply (bool_decide_unpack _); by vm_compute|done|]. by exists reason.
  - by vm_compute.
  - destruct (T push_allowed r) as (x & Hx & _ & Hs & _). assert (x = Skip true None) as -> by (vm_compute in Hx; by injection Hx as <-).
    apply (Hs true None eq_refl (req_command r)); [apply (bool_decide_unpack _); by vm_compute|done].
  - by vm_compute.
  - destruct (T policy_empty ls) as (x & Hx & _ & Hs & _). destruct x as [b a| |]; [|by vm_compute in Hx..].
    apply (Hs b a eq_refl (req_command ls)); [apply (bool_decide_unpack _)| |]; by vm_compute.
  - destruct (T policy_empty rm) as (x & Hx & _ & _ & Hn). destruct x as [| reason a|]; [by vm_compute in Hx| |by vm_compute in Hx].
    exists reason, a. split; [exact Hx|]. by apply (Hn reason a).
  - destruct (T policy_empty rm_unasked) as (x & Hx & _ & Hs & _). destruct x as [b a| |]; [|by vm_compute in Hx..].
    assert (b = false) as -> by (vm_compute in Hx; by injection Hx as <- _).
    exists a. split; [exact Hx|]. apply (Hs false a eq_refl (req_command rm_unasked)); [apply (bool_decide_unpack _)| |]; by vm_compute.
Defined.

Lemma proposed_rules_spare_the_question_witness :
  let req := request ["cargo"; "test"]%string (Some [lit "cargo"]) in
  ∃ a, amendment_command a = [lit "cargo"] ∧
  ∃ p' b a', add_prefix_rule push_forbidden (amendment_command a) Allow = Ok p' ∧ run p' req = Ok (Skip b a').
Proof.
  intros req. exists (mk_amendment [lit "cargo"]). split; [done|].
  destruct (proposed_rules_spare_the_question sample_env true no_powershell sample_parser (λ _, None) push_forbidden req
    (NeedsApproval None (Some (mk_amendment [lit "cargo"]))) (mk_amendment [lit "cargo"]) ltac:(by vm_compute) eq_refl)
    as (_ & _ & [(_ & _ & H)|(H & _)]); [exact H|].
  apply (bool_decide_pack _) in H. by vm_compute in H.
Defined.

(** An allow rule for the path of a program hides the rules for its name: the
    rule proposed for [/usr/bin/git status] lifts the ban on [git push], and the
    push runs outside the sandbox. *)
Example path_rule_lifts_a_ban :
  let status := request ["/usr/bin/git"; "status"]%string (Some [lit "/usr/bin/git"]) in
  let push := request ["/usr/bin/git"; "push"]%string None in
  run push_forbidden push = Ok (ForbiddenBy (lit "`/usr/bin/git push` rejected: policy forbids commands starting with `git push`")) ∧
  run push_forbidden (mk_request (req_command status) OnRequest (req_permission_profile status) (req_file_system_policy status)
    (lit "/w") RequireEscalated (req_prefix_rule status)) = Ok (NeedsApproval None (Some (mk_amendment [lit "/usr/bin/git"]))) ∧
  ∀ p', add_prefix_rule push_forbidden [lit "/usr/bin/git"] Allow = Ok p' → run p' push = Ok (Skip true None).
Proof. split_and!; [by vm_compute..|]. intros p' [= <-]. by vm_compute. Qed.
