(* ===== verification/PatchSafety.v ===== *)
(** * Approval of patches ([core/src/safety.rs], [core/src/apply_patch.rs])

    Whether a patch may be applied without a question: it must not be empty,
    every path it adds, deletes, changes or moves to must be writable, and a
    sandbox must be there to enforce that.  Then what the handler of the tool
    does with the answer: the files it asks about and the permissions it
    would ask for.  The iteration over the map of changes is in the order of
    [map_to_list]; only the order of the files asked about depends on it. *)
From S2P Require Import Prelude RustStr RustPath AbsolutePath PatchParser PatchRoundtrip ApplyHunks PatchInvocation Permissions PermissionRoots PermissionProfile SandboxTransforms ExecApproval.

Inductive SafetyCheck :=
| AutoApprove (sandbox_type : SandboxType) (user_explicitly_approved : bool)
| AskUser
| Reject (reason : rstring).
Definition PATCH_REJECTED_OUTSIDE_PROJECT_REASON : rstring :=
  lit "writing outside of the project; rejected by user approval settings".
Definition PATCH_REJECTED_READ_ONLY_REASON : rstring :=
  lit "writing is blocked by read-only sandbox; rejected by user approval settings".

Inductive FunctionCallError := RespondToModel (message : rstring) | Fatal (message : rstring).
Record ApplyPatchRuntimeInvocation := mk_runtime_invocation {
  invocation_action : ApplyPatchAction; auto_approved : bool; exec_approval_requirement : ExecApprovalRequirement }.
(** [Output] is only made of an error here. *)
Inductive InternalApplyPatchInvocation :=
| OutputErr (e : FunctionCallError)
| DelegateToRuntime (invocation : ApplyPatchRuntimeInvocation).

Inductive FileChange :=
| FileAdd (content : rstring)
| FileDelete (content : rstring)
| FileUpdate (unified_diff : rstring) (move_path : option rstring).
Definition to_protocol (c : ApplyPatchFileChange) : FileChange :=
  match c with
  | AddChange content => FileAdd content
  | DeleteChange content => FileDelete content
  | UpdateChange unified_diff move_path _ => FileUpdate unified_diff move_path
  end.
Definition convert_apply_patch_to_protocol (action : ApplyPatchAction) : gmap rstring FileChange := to_protocol <$> changes action.

(** [Ord] of paths: by components, the root before the names. *)
Definition component_rank (c : Component) : nat :=
  match c with RootDir => 0 | CurDir => 1 | ParentDir => 2 | Normal _ => 3 end.
Fixpoint compare_by {A} (cmp : A → A → comparison) (a b : list A) : comparison :=
  match a, b with
  | [], [] => Eq
  | [], _ => Lt
  | _, [] => Gt
  | x :: a, y :: b => match cmp x y with Eq => compare_by cmp a b | c => c end
  end.
Definition component_compare (a b : Component) : comparison :=
  match a, b with
  | Normal s, Normal t => compare_by N.compare s t
  | _, _ => Nat.compare (component_rank a) (component_rank b)
  end.
Definition path_compare (a b : rstring) : comparison := compare_by component_compare (components a) (components b).
(** Insertion into a [BTreeSet]; [path_set] collects. *)
Fixpoint set_insert (p : rstring) (l : list rstring) : list rstring :=
  match l with
  | [] => [p]
  | q :: l => match path_compare p q with Lt => p :: q :: l | Eq => q :: l | Gt => q :: set_insert p l end
  end.
Definition path_set (l : list rstring) : list rstring := foldl (λ s p, set_insert p s) [] l.

(** [resolve_path] of [core/src/util.rs]: [Path::join] on a relative path. *)
Definition resolve_path (base path : rstring) : rstring := if is_absolute path then path else push base path.
(** The local [normalize]: dots are skipped and parents popped, on text alone. *)
Definition normalize_component (out : rstring) (c : Component) : rstring :=
  match c with
  | ParentDir => pop out
  | CurDir => out
  | other => push out (as_os_str other)
  end.
Definition normalize (path : rstring) : rstring := foldl normalize_component [] (components path).

Section safety.
Context (E : Env) (os : Os).

Definition patch_path_is_writable (fs : FileSystemSandboxPolicy) (cwd path : rstring) : bool :=
  can_write_path_with_cwd E fs (normalize (resolve_path cwd path)) cwd.
Definition change_is_writable (fs : FileSystemSandboxPolicy) (cwd : rstring) (change : rstring * ApplyPatchFileChange) : bool :=
  match change.2 with
  | AddChange _ | DeleteChange _ => patch_path_is_writable fs cwd change.1
  | UpdateChange _ move_path _ =>
      if negb (patch_path_is_writable fs cwd change.1) then false
      else match move_path with Some dest => patch_path_is_writable fs cwd dest | None => true end
  end.
Definition is_write_patch_constrained_to_writable_paths (action : ApplyPatchAction) (fs : FileSystemSandboxPolicy) (cwd : rstring) : bool :=
  forallb (change_is_writable fs cwd) (map_to_list (changes action)).

Definition patch_rejection_reason (profile : PermissionProfile) (fs : FileSystemSandboxPolicy) (cwd : rstring) : rstring :=
  match profile with
  | Managed _ _ =>
      if negb (has_full_disk_write_access fs) && match get_writable_roots_with_cwd E fs cwd with [] => true | _ => false end
      then PATCH_REJECTED_READ_ONLY_REASON else PATCH_REJECTED_OUTSIDE_PROJECT_REASON
  | Disabled | External _ => PATCH_REJECTED_OUTSIDE_PROJECT_REASON
  end.
Definition rejects_sandbox_approval (policy : AskForApproval) : bool :=
  match policy with Never => true | Granular c => negb (sandbox_approval c) | _ => false end.

Definition assess_patch_safety (action : ApplyPatchAction) (policy : AskForApproval) (profile : PermissionProfile)
    (fs : FileSystemSandboxPolicy) (cwd : rstring) (windows_sandbox_enabled : bool) : SafetyCheck :=
  if action_is_empty action then Reject (lit "empty patch")
  else if bool_decide (policy = UnlessTrusted) then AskUser
  else
    let or_ask := if rejects_sandbox_approval policy then Reject (patch_rejection_reason profile fs cwd) else AskUser in
    if is_write_patch_constrained_to_writable_paths action fs cwd || bool_decide (policy = OnFailure) then
      match profile with
      | Disabled | External _ => AutoApprove NoSandbox false
      | Managed _ _ =>
          match get_platform_sandbox os windows_sandbox_enabled with
          | Some sandbox_type => AutoApprove sandbox_type false
          | None => or_ask
          end
      end
    else or_ask.


(** ** [core/src/apply_patch.rs] *)
Definition apply_patch (policy : AskForApproval) (profile : PermissionProfile) (windows_sandbox_enabled : bool)
    (fs : FileSystemSandboxPolicy) (action : ApplyPatchAction) : InternalApplyPatchInvocation :=
  match assess_patch_safety action policy profile fs (action_cwd action) windows_sandbox_enabled with
  | AutoApprove _ user_explicitly_approved =>
      DelegateToRuntime (mk_runtime_invocation action (negb user_explicitly_approved) (Skip false None))
  | AskUser => DelegateToRuntime (mk_runtime_invocation action false (NeedsApproval None None))
  | Reject reason => OutputErr (RespondToModel (lit "patch rejected: " ++ reason))
  end.

(** ** [core/src/tools/handlers/apply_patch.rs] *)
Definition to_abs_path (cwd p : rstring) : option rstring := Some (resolve_path_against_base (home_dir E) p cwd).
Definition change_paths (cwd : rstring) (change : rstring * ApplyPatchFileChange) : list rstring :=
  option_list (to_abs_path cwd change.1) ++
  match change.2 with
  | UpdateChange _ (Some dest) _ => option_list (to_abs_path cwd dest)
  | _ => []
  end.
Definition file_paths_for_action (action : ApplyPatchAction) : list rstring :=
  map_to_list (changes action) ≫= change_paths (action_cwd action).
(** The set of paths is in the order of their components. *)
Definition write_permissions_for_paths (file_paths : list rstring) (fs : FileSystemSandboxPolicy) (cwd : rstring) :
    option AdditionalPermissionProfile :=
  let parents := (λ p, default p (parent p)) <$> file_paths in
  let write_paths := path_set (List.filter (λ p, negb (can_write_path_with_cwd E fs p cwd)) parents) in
  match mapM (from_absolute E) write_paths with
  | None | Some [] => None
  | Some write_paths =>
      ok (normalize_additional_permissions E (mk_additional None (Some (from_read_write_roots (Some []) (Some write_paths)))))
  end.
(** ** Lemmas *)
(** The local normalisation leaves a canonical path alone. *)
Lemma normalize_canonical p : canonical p → normalize p = p.
Proof using Type.
  intros (segs & Hf & ->). unfold normalize. rewrite components_abs_path by done. cbn [foldl].
  change (normalize_component [] RootDir) with (abs_path []).
  assert (∀ pre, Forall segment (pre ++ segs) → foldl normalize_component (abs_path pre) (Normal <$> segs) = abs_path (pre ++ segs)) as Hx.
  { clear Hf. induction segs as [|x segs IH]; intros pre Hf; [by rewrite app_nil_r|]. cbn.
    pose proof Hf as [Hpre [Hx Hsegs]%Forall_cons]%Forall_app.
    rewrite push_abs_path, IH by (rewrite <- ?app_assoc; done). by rewrite <- app_assoc. }
  by apply (Hx []).
Qed.
Lemma patch_path_canonical fs cwd p : canonical p → patch_path_is_writable fs cwd p = can_write_path_with_cwd E fs p cwd.
Proof using Type.
  intros Hp. unfold patch_path_is_writable, resolve_path. by rewrite canonical_absolute, normalize_canonical.
Qed.

Lemma approved_unless action policy profile fs cwd win sandbox explicitly :
  assess_patch_safety action policy profile fs cwd win = AutoApprove sandbox explicitly →
  changes action ≠ ∅ ∧ policy ≠ UnlessTrusted ∧ explicitly = false ∧
  (is_write_patch_constrained_to_writable_paths action fs cwd = true ∨ policy = OnFailure) ∧
  match profile with
  | Disabled | External _ => sandbox = NoSandbox
  | Managed _ _ => get_platform_sandbox os win = Some sandbox
  end.
Proof using Type.
  unfold assess_patch_safety, action_is_empty. case_bool_decide as He; [done|]. case_bool_decide as Hu; [done|].
  destruct (is_write_patch_constrained_to_writable_paths action fs cwd || bool_decide (policy = OnFailure)) eqn:Hw.
  2: { by destruct (rejects_sandbox_approval policy). }
  apply orb_true_iff in Hw. rewrite bool_decide_eq_true in Hw. destruct profile as [f n| |n].
  - destruct (get_platform_sandbox os win) eqn:Hs; [|by destruct (rejects_sandbox_approval policy)]. by intros [= <- <-].
  - by intros [= <- <-].
  - by intros [= <- <-].
Qed.
End safety.

(** Verification keeps the entry of every hunk whose source path is its own. *)
Definition sources home_dir cwd (hunks : list Hunk) : list rstring := (λ h, resolve_in home_dir cwd (hunk_source_path h)) <$> hunks.
Section verified.
Context {S : Type} `{ExecutorFileSystem S} (home_dir : option rstring) (print_unified_diff : rstring → rstring → rstring).

Lemma verify_hunks_keep fs cwd hunks acc m p c :
  verify_hunks home_dir print_unified_diff fs cwd hunks acc = Ok m → acc !! p = Some c → (p ∉ sources home_dir cwd hunks) → m !! p = Some c.
Proof using Type.
  revert acc. induction hunks as [|h hunks IH]; intros acc; cbn [verify_hunks]; [by intros [= <-]|].
  intros (ch & _ & Hv)%bind_Ok Hp Hn. cbn in Hn. apply not_elem_of_cons in Hn as [Hne Hn].
  eapply IH; [exact Hv| |exact Hn]. by rewrite lookup_insert_ne.
Qed.
Lemma verify_hunks_entry fs cwd hunks acc m h :
  verify_hunks home_dir print_unified_diff fs cwd hunks acc = Ok m → NoDup (sources home_dir cwd hunks) → h ∈ hunks →
  ∃ c, verify_hunk home_dir print_unified_diff fs cwd h = Ok c ∧ m !! resolve_in home_dir cwd (hunk_source_path h) = Some c.
Proof using Type.
  revert acc. induction hunks as [|h' hunks IH]; intros acc; cbn [verify_hunks]; [by intros _ _ ?%elem_of_nil|].
  intros (ch & Hc & Hv)%bind_Ok [Hni Hnd]%NoDup_cons [->|Hin]%elem_of_cons; [|by eapply IH].
  exists ch. split; [done|]. eapply verify_hunks_keep; [exact Hv| |exact Hni]. apply lookup_insert_eq.
Qed.
End verified.

(** The source paths of the hunks of the recorded patch. *)
Definition sources_of_patch (home_dir : option rstring) (action : ApplyPatchAction) : list rstring :=
  match parse_patch (patch action) with Ok args => sources home_dir (action_cwd action) (args_hunks args) | _ => [] end.

(** ** Properties *)

(** C26: what an automatic approval of a patch that was verified means.  It is never given to an
    empty patch, nor when every untrusted command is asked about; and the run
    is without a sandbox only under a profile that has none.  When failures are not to be
    retried outside the sandbox, the directory of the patch is absolute, its recorded text has no
    carriage return and no two of its hunks have the same source, then, besides, every path that
    applying the text may change is writable under the policy.  (With two hunks of one source
    this fails: [overwritten_entry_hides_a_move].) *)
Theorem auto_approved_patches_stay_writable {S} `{ExecutorFileSystem S} (E : Env) (os : Os)
    (query_matches : rstring → outcome ExtractHeredocError (list (list capture)))
    (print_unified_diff : rstring → rstring → rstring) (argv : list rstring) (cwd : rstring) (files : S)
    (action : ApplyPatchAction) (policy : AskForApproval) (profile : PermissionProfile) (fs : FileSystemSandboxPolicy)
    (windows_sandbox : bool) (sandbox : SandboxType) (explicitly : bool) :
  maybe_parse_apply_patch_verified (home_dir E) query_matches print_unified_diff argv cwd files = Ok (VerifiedBody action) →
  assess_patch_safety E os action policy profile fs (action_cwd action) windows_sandbox = AutoApprove sandbox explicitly →
  changes action ≠ ∅ ∧ policy ≠ UnlessTrusted ∧ explicitly = false ∧
  (sandbox = NoSandbox ↔ ∀ f n, profile ≠ Managed f n) ∧
  (policy ≠ OnFailure → is_absolute (action_cwd action) = true → (cr ∉ patch action) → NoDup (sources_of_patch (home_dir E) action) →
   ∀ p, p ∈ touched_by_patch (home_dir E) action → can_write_path_with_cwd E fs p (action_cwd action) = true).
Proof.
  intros (text & args & Ht & Hp & Hv)%verified_body (Hne & Hu & -> & Hw & Hs)%approved_unless.
  split_and!; [done|done|done| |].
  { destruct profile as [f n| |n]; [|by split|by split]. split; [|intros Hx; by destruct (Hx f n)].
    intros ->. by destruct os, windows_sandbox. }
  intros Hof Habs Hcr Hnd p. rewrite Hp in Hcr. destruct (reparse _ _ Ht Hcr) as (args' & Hr & Hh & _).
  unfold sources_of_patch in Hnd. unfold touched_by_patch. rewrite Hp, Hr in *. rewrite Hh in *.
  intros (h & Hpt & Hin)%list_elem_of_bind. destruct Hw as [Hw|]; [|done].
  destruct (verify_hunks_entry _ _ _ _ _ _ _ _ Hv Hnd Hin) as (c & Hc & Hm).
  unfold is_write_patch_constrained_to_writable_paths in Hw. rewrite forallb_forall in Hw.
  specialize (Hw (resolve_in (home_dir E) (action_cwd action) (hunk_source_path h), c)).
  rewrite <- list_elem_of_In in Hw. specialize (Hw ltac:(by apply elem_of_map_to_list)).
  assert (∀ q, canonical (resolve_path_against_base (home_dir E) q (action_cwd action))) as Hcan
    by (intros; by apply resolve_against_canonical).
  unfold touched in Hpt. unfold change_is_writable, resolve_in in Hw. cbn [fst snd] in Hw.
  rewrite patch_path_canonical in Hw by done. unfold verify_hunk, join in Hc.
  destruct h as [q contents|q|q mp chunks]; cbn [hunk_source_path hunk_path] in *.
  - injection Hc as <-. by apply list_elem_of_singleton in Hpt as ->.
  - destruct (read_file_text _ _); [|done]. injection Hc as <-. by apply list_elem_of_singleton in Hpt as ->.
  - apply bind_Ok in Hc as ([[diff original] contents] & _ & [= <-]).
    destruct (can_write_path_with_cwd E fs _ _) eqn:Hsrc; [|done]. cbn [negb] in Hw.
    apply elem_of_cons in Hpt as [->|Hpt]; [done|]. destruct mp as [dest|]; [|by apply elem_of_nil in Hpt].
    apply list_elem_of_singleton in Hpt as ->. cbn in Hw. by rewrite patch_path_canonical in Hw.
Qed.

(** A workspace in which only [/w] is writable. *)
Definition workspace_policy : FileSystemSandboxPolicy := restricted [mk_entry (Special Root) Read; write_at (lit "/w")].
Definition workspace_profile : PermissionProfile :=
  Managed (MRestricted (entries workspace_policy) None) NetRestricted.
Lemma auto_approved_patches_stay_writable_witness :
  touched_by_patch None sample_action = [lit "/w/sub/a"; lit "/w/sub/b"; lit "/w/sub/c"; lit "/w/sub/d"] ∧
  ∀ p, p ∈ touched_by_patch None sample_action → can_write_path_with_cwd sample_env workspace_policy p (lit "/w/sub") = true.
Proof.
  split; [vm_compute; reflexivity|].
  apply (auto_approved_patches_stay_writable sample_env Linux sample_query sample_diff sample_argv (lit "/w") sample_files sample_action OnRequest
           workspace_profile workspace_policy false LinuxSeccomp false); [vm_compute; reflexivity..|discriminate|reflexivity| |].
  - apply (bool_decide_unpack (cr ∉ patch sample_action)). vm_compute. exact I.
  - apply (bool_decide_unpack (NoDup (sources_of_patch None sample_action))). vm_compute. exact I.
Defined.

(** A patch that moves a file out of the workspace needs a question; followed
    by an addition in its place it is approved without one, and the files
    that are asked about do not name the destination either. *)
Definition moving_out (hunks : list rstring) : list rstring :=
  [lit "*** Begin Patch"; lit "*** Update File: c"; lit "*** Move to: /etc/d"; lit "@@"; lit "-old"; lit "+new"] ++ hunks ++ [lit "*** End Patch"].
Definition moving_action (hunks : list rstring) : ApplyPatchAction :=
  match maybe_parse_apply_patch_verified None sample_query sample_diff [lit "apply_patch"; join_with [newline] (moving_out hunks)] (lit "/w")
          (<[lit "/w/c" := lit "old" ++ [newline]]> ∅ : mem_fs) with
  | Ok (VerifiedBody action) => action
  | _ => mk_action ∅ [] []
  end.
Example overwritten_entry_hides_a_move :
  assess_patch_safety sample_env Linux (moving_action []) OnRequest workspace_profile workspace_policy (lit "/w") false = AskUser ∧
  let action := moving_action [lit "*** Add File: c"; lit "+x"] in
  assess_patch_safety sample_env Linux action OnRequest workspace_profile workspace_policy (lit "/w") false = AutoApprove LinuxSeccomp false ∧
  touched_by_patch None action = [lit "/w/c"; lit "/etc/d"; lit "/w/c"] ∧
  file_paths_for_action sample_env action = [lit "/w/c"] ∧
  can_write_path_with_cwd sample_env workspace_policy (lit "/etc/d") (lit "/w") = false.
Proof. cbv zeta. split_and!; vm_compute; reflexivity. Qed.
