(* ===== verification/Effects.v ===== *)
(** * Programs that ask their environment

    A call of asynchronous code is a finite tree of requests: what it asks for
    (an event) and how it goes on with each answer.  Its behaviours are the
    traces of events with answers that end in a result; running it against a
    function that answers gives one of them. *)
From S2P Require Import Prelude.

Section prog.
Context {E : Type → Type}.

Inductive prog (A : Type) : Type :=
| Done (a : A)
| Do {X} (e : E X) (k : X → prog A).
Arguments Done {A} a.
Arguments Do {A X} e k.

Fixpoint prog_bind {A B} (p : prog A) (k : A → prog B) : prog B :=
  match p with
  | Done a => k a
  | Do e c => Do e (λ x, prog_bind (c x) k)
  end.
Definition ask {X} (e : E X) : prog X := Do e Done.
(** [?] on a [Result]. *)
Definition try_bind {Er A B} (p : prog (outcome Er A)) (k : A → prog (outcome Er B)) : prog (outcome Er B) :=
  prog_bind p (λ r, match r with Ok a => k a | Err e => Done (Err e) | Panic => Done Panic end).

Inductive obs :=
| Obs {X} (e : E X) (x : X).

Fixpoint traces {A} (p : prog A) (tr : list obs) (r : A) : Prop :=
  match p with
  | Done a => tr = [] ∧ r = a
  | Do e k => ∃ x tr', tr = Obs e x :: tr' ∧ traces (k x) tr' r
  end.

(** The run against answers that may depend on what was asked before. *)
Fixpoint run_with (answer : ∀ X, list obs → E X → X) {A} (past : list obs) (p : prog A) : list obs * A :=
  match p with
  | Done a => ([], a)
  | Do e k =>
      let x := answer _ past e in
      let '(tr, r) := run_with answer (past ++ [Obs e x]) (k x) in (Obs e x :: tr, r)
  end.

Lemma run_with_traces answer {A} past (p : prog A) :
  traces p (run_with answer past p).1 (run_with answer past p).2.
Proof using Type.
  revert past. induction p as [a|X e k IH]; intros past; [done|]. cbn [run_with].
  specialize (IH (answer X past e) (past ++ [Obs e (answer X past e)])).
  destruct (run_with _ _ _) as [tr r]. by eexists _, tr.
Qed.

Lemma traces_bind {A B} (p : prog A) (k : A → prog B) tr r :
  traces (prog_bind p k) tr r ↔ ∃ tr1 tr2 a, tr = tr1 ++ tr2 ∧ traces p tr1 a ∧ traces (k a) tr2 r.
Proof using Type.
  revert tr. induction p as [a|X e c IH]; intros tr; cbn.
  - split; [by exists [], tr, a|]. by intros (tr1 & tr2 & a' & -> & [-> ->] & ?).
  - split.
    + intros (x & tr' & -> & (tr1 & tr2 & a & -> & H1 & H2)%IH). exists (Obs e x :: tr1), tr2, a. split_and!; [done| |done].
      by exists x, tr1.
    + intros (tr1 & tr2 & a & -> & (x & tr' & -> & H1) & H2). exists x, (tr' ++ tr2). split; [done|]. apply IH.
      by exists tr', tr2, a.
Qed.
Lemma traces_ask {X} (e : E X) tr x : traces (ask e) tr x ↔ tr = [Obs e x].
Proof using Type.
  cbn. split; [by intros (y & tr' & -> & -> & ->)|]. intros ->. by exists x, [].
Qed.
Lemma traces_try {Er A B} (p : prog (outcome Er A)) (k : A → prog (outcome Er B)) tr r :
  traces (try_bind p k) tr r →
  (∃ tr1 tr2 a, tr = tr1 ++ tr2 ∧ traces p tr1 (Ok a) ∧ traces (k a) tr2 r) ∨
  (∃ e, r = Err e ∧ traces p tr (Err e)) ∨ (r = Panic ∧ traces p tr Panic).
Proof using Type.
  intros (tr1 & tr2 & [a|e|] & -> & H1 & H2)%traces_bind.
  - left. by exists tr1, tr2, a.
  - destruct H2 as [-> ->]. rewrite app_nil_r. right. left. by exists e.
  - destruct H2 as [-> ->]. rewrite app_nil_r. right. by right.
Qed.

(** ** Monitors
    A safety monitor reads the trace: its state is what it has seen, and it
    says which events may come next.  A program keeps to it when every event
    that it asks for is allowed where it asks, whatever the answers. *)
Section monitor.
Context {S : Type} (observe : S → obs → S) (allowed : S → ∀ X, E X → Prop).
Fixpoint monitored {A} (p : prog A) (s : S) (Q : S → A → Prop) : Prop :=
  match p with
  | Done a => Q s a
  | Do e k => allowed s _ e ∧ ∀ x, monitored (k x) (observe s (Obs e x)) Q
  end.
Fixpoint respects (s : S) (tr : list obs) : Prop :=
  match tr with
  | [] => True
  | Obs e x :: tr => allowed s _ e ∧ respects (observe s (Obs e x)) tr
  end.
Definition seen (s : S) (tr : list obs) : S := foldl observe s tr.

Lemma monitored_bind {A B} (p : prog A) (k : A → prog B) s Q :
  monitored p s (λ s a, monitored (k a) s Q) → monitored (prog_bind p k) s Q.
Proof using Type.
  revert s. induction p as [a|X e c IH]; intros s; cbn; [done|]. intros [? Hc]. split; [done|]. intros x. by apply IH.
Qed.
Lemma monitored_try {Er A B} (p : prog (outcome Er A)) (k : A → prog (outcome Er B)) s Q :
  monitored p s (λ s r, match r with Ok a => monitored (k a) s Q | Err e => Q s (Err e) | Panic => Q s Panic end) →
  monitored (try_bind p k) s Q.
Proof using Type.
  intros H. apply monitored_bind. revert s H. induction p as [[a|e|]|X e c IH]; intros s; cbn; [done..|].
  intros [? Hc]. split; [done|]. intros x. by apply IH.
Qed.
Lemma monitored_mono {A} (p : prog A) s Q Q' : (∀ s a, Q s a → Q' s a) → monitored p s Q → monitored p s Q'.
Proof using Type.
  intros HQ. revert s. induction p as [a|X e c IH]; intros s; cbn; [by apply HQ|]. intros [? Hc]. split; [done|]. intros x. by apply IH.
Qed.
Lemma monitored_traces {A} (p : prog A) s Q tr r :
  monitored p s Q → traces p tr r → respects s tr ∧ Q (seen s tr) r.
Proof using Type.
  revert s tr. induction p as [a|X e c IH]; intros s tr; cbn.
  - by intros ? [-> ->].
  - intros [Ha Hc] (x & tr' & -> & Ht). destruct (IH x _ _ (Hc x) Ht) as [? ?]. done.
Qed.
Lemma respects_app s tr1 tr2 : respects s (tr1 ++ tr2) ↔ respects s tr1 ∧ respects (seen s tr1) tr2.
Proof using Type.
  revert s. induction tr1 as [|[X e x] tr1 IH]; intros s; cbn; [naive_solver|]. rewrite IH. tauto.
Qed.
End monitor.
End prog.
Arguments prog E A : clear implicits.
Arguments obs E : clear implicits.
Arguments Done {E A} a.
Arguments Do {E A X} e k.

Notation "'let*' x ':=' p 'in' k" := (prog_bind p (fun x => k))
  (at level 10, x binder, p at level 100, k at level 200) : rust_scope.
Notation "'let*?' x ':=' p 'in' k" := (try_bind p (fun x => k))
  (at level 10, x binder, p at level 100, k at level 200) : rust_scope.
