(* ===== verification/Approvals.v ===== *)
(** * Decisions on approvals ([core/src/tools/sandboxing.rs], [core/src/network_policy_decision.rs], [core/src/guardian/review.rs])

    The answers a reviewer can give, the store of the approvals that hold for a
    session, and what a decision of the network policy says to the user and
    to the approval flow. *)
From S2P Require Import Prelude RustStr ExecPolicy ExecApproval.

(** ** Reviews ([protocol/src/protocol.rs], [protocol/src/approvals.rs]) *)
Inductive NetworkApprovalProtocol := NapHttp | NapHttps | NapSocks5Tcp | NapSocks5Udp.
#[global] Instance NetworkApprovalProtocol_eq_dec : EqDecision NetworkApprovalProtocol.
Proof. solve_decision. Defined.
Record NetworkApprovalContext := mk_nac { nac_host : rstring; nac_protocol : NetworkApprovalProtocol }.
Inductive NetworkPolicyRuleAction := RuleAllow | RuleDeny.
#[global] Instance NetworkPolicyRuleAction_eq_dec : EqDecision NetworkPolicyRuleAction.
Proof. solve_decision. Defined.
Record NetworkPolicyAmendment := mk_npa { npa_host : rstring; npa_action : NetworkPolicyRuleAction }.
#[global] Instance NetworkPolicyAmendment_eq_dec : EqDecision NetworkPolicyAmendment.
Proof. solve_decision. Defined.

Inductive ReviewDecision :=
| Approved
| ApprovedExecpolicyAmendment (proposed : ExecPolicyAmendment)
| ApprovedForSession
| ReviewNetworkAmendment (amendment : NetworkPolicyAmendment)
| Denied
| TimedOut
| Abort.
#[global] Instance ReviewDecision_eq_dec : EqDecision ReviewDecision.
Proof. solve_decision. Defined.
Definition to_opaque_string (d : ReviewDecision) : rstring :=
  match d with
  | Approved => lit "approved"
  | ApprovedExecpolicyAmendment _ => lit "approved_with_amendment"
  | ApprovedForSession => lit "approved_for_session"
  | ReviewNetworkAmendment a =>
      match npa_action a with
      | RuleAllow => lit "approved_with_network_policy_allow"
      | RuleDeny => lit "denied_with_network_policy_deny"
      end
  | Denied => lit "denied"
  | TimedOut => lit "timed_out"
  | Abort => lit "abort"
  end.
(** The decisions on which an action may go ahead. *)
Definition approves (d : ReviewDecision) : bool :=
  match d with
  | Approved | ApprovedExecpolicyAmendment _ | ApprovedForSession => true
  | ReviewNetworkAmendment a => bool_decide (npa_action a = RuleAllow)
  | Denied | TimedOut | Abort => false
  end.

(** ** Rejections by the automatic reviewer *)
Definition GUARDIAN_REJECTION_INSTRUCTIONS : rstring :=
  lit "The agent must not attempt to achieve the same outcome via workaround, " ++
  lit "indirect execution, or policy circumvention. " ++
  lit "Proceed only with a materially safer alternative, " ++
  lit "or if the user explicitly approves the action after being informed of the risk. " ++
  lit "Otherwise, stop and request user input.".
Definition GUARDIAN_TIMEOUT_INSTRUCTIONS : rstring :=
  lit "The automatic permission approval review did not finish before its deadline. " ++
  lit "Do not assume the action is unsafe based on the timeout alone. " ++
  lit "You may retry once, or ask the user for guidance or explicit approval.".
Definition guardian_timeout_message : rstring := GUARDIAN_TIMEOUT_INSTRUCTIONS.
(** The recorded rationales by review; the message takes its own out. *)
Definition guardian_rejection_message (rejections : gmap rstring rstring) (review_id : rstring) : gmap rstring rstring * rstring :=
  let rationale :=
    match rejections !! review_id with
    | Some r => if bool_decide (trim r = []) then lit "Auto-reviewer denied the action without a specific rationale." else r
    | None => lit "Auto-reviewer denied the action without a specific rationale."
    end in
  (delete review_id rejections,
   lit "This action was rejected due to unacceptable risk." ++ [newline] ++ lit "Reason: " ++ trim rationale ++ [newline]
   ++ GUARDIAN_REJECTION_INSTRUCTIONS).

(** ** Approvals that are remembered: by serialised key *)
Abbreviation ApprovalStore := (gmap rstring ReviewDecision).
Section store.
(** [serde_json::to_string]. *)
Context {K : Type} (to_string : K → option rstring).

Definition get (store : ApprovalStore) (key : K) : option ReviewDecision := s ← to_string key; store !! s.
Definition put (store : ApprovalStore) (key : K) (value : ReviewDecision) : ApprovalStore :=
  match to_string key with Some s => <[s := value]> store | None => store end.
Definition for_session (store : ApprovalStore) (key : K) : bool := bool_decide (get store key = Some ApprovedForSession).

(** [fetch] is the answer that asking would give; the flag says whether it was asked. *)
Definition with_cached_approval (store : ApprovalStore) (keys : list K) (fetch : ReviewDecision) : ApprovalStore * ReviewDecision * bool :=
  if match keys with [] => true | _ => false end then (store, fetch, true)
  else if forallb (for_session store) keys then (store, ApprovedForSession, false)
  else if bool_decide (fetch = ApprovedForSession)
  then (foldl (λ s key, put s key ApprovedForSession) store keys, fetch, true)
  else (store, fetch, true).
(** A session: requests one after the other. *)
Definition review_requests (requests : list (list K * ReviewDecision)) (store : ApprovalStore) : ApprovalStore :=
  foldl (λ s r, (with_cached_approval s r.1 r.2).1.1) store requests.
End store.

(** ** Decisions of the network policy ([protocol/src/network_policy.rs]) *)
Inductive NetworkPolicyDecision := NpdDeny | NpdAsk.
#[global] Instance NetworkPolicyDecision_eq_dec : EqDecision NetworkPolicyDecision.
Proof. solve_decision. Defined.
Inductive NetworkDecisionSource := BaselinePolicy | ModeGuard | ProxyState | Decider.
#[global] Instance NetworkDecisionSource_eq_dec : EqDecision NetworkDecisionSource.
Proof. solve_decision. Defined.
Record NetworkPolicyDecisionPayload := mk_payload {
  pl_decision : NetworkPolicyDecision; pl_source : NetworkDecisionSource; pl_protocol : option NetworkApprovalProtocol;
  pl_host : option rstring; pl_reason : option rstring; pl_port : option N }.
Definition is_ask_from_decider (p : NetworkPolicyDecisionPayload) : bool :=
  bool_decide (pl_decision p = NpdAsk) && bool_decide (pl_source p = Decider).

Definition parse_network_policy_decision (value : rstring) : option NetworkPolicyDecision :=
  if bool_decide (value = lit "deny") then Some NpdDeny
  else if bool_decide (value = lit "ask") then Some NpdAsk
  else None.
Definition network_approval_context_from_payload (p : NetworkPolicyDecisionPayload) : option NetworkApprovalContext :=
  if negb (is_ask_from_decider p) then None
  else
    protocol ← pl_protocol p; host ← pl_host p;
    let host := trim host in
    if bool_decide (host = []) then None else Some (mk_nac host protocol).

Record BlockedRequest := mk_blocked { b_host : rstring; b_reason : rstring; b_decision : option rstring }.
Definition denial_detail (reason : rstring) : rstring :=
  if bool_decide (reason = lit "denied") then lit "domain is explicitly denied by policy and cannot be approved from this prompt"
  else if bool_decide (reason = lit "not_allowed") then lit "domain is not on the allowlist for the current sandbox mode"
  else if bool_decide (reason = lit "not_allowed_local") then lit "local/private network addresses are blocked by the sandbox policy"
  else if bool_decide (reason = lit "method_not_allowed") then lit "request method is blocked by the current network mode"
  else if bool_decide (reason = lit "proxy_disabled") then lit "network proxy is disabled"
  else lit "request is blocked by network policy".
Definition quote : rstring := [34%N].
Definition denied_network_policy_message (blocked : BlockedRequest) : option rstring :=
  if negb (bool_decide (b_decision blocked ≫= parse_network_policy_decision = Some NpdDeny)) then None
  else
    let host := trim (b_host blocked) in
    if bool_decide (host = []) then Some (lit "Network access was blocked by policy.")
    else Some (lit "Network access to " ++ quote ++ host ++ quote ++ lit " was blocked: " ++ denial_detail (b_reason blocked) ++ lit ".").

Record ExecPolicyNetworkRuleAmendment := mk_rule_amendment {
  ra_protocol : NetworkRuleProtocol; ra_decision : Decision; ra_justification : rstring }.
Definition execpolicy_network_rule_amendment (a : NetworkPolicyAmendment) (c : NetworkApprovalContext) (host : rstring) :
    ExecPolicyNetworkRuleAmendment :=
  let protocol := match nac_protocol c with
                  | NapHttp => Http | NapHttps => Https | NapSocks5Tcp => Socks5Tcp | NapSocks5Udp => Socks5Udp
                  end in
  let '(decision, action_verb) := match npa_action a with RuleAllow => (Allow, lit "Allow") | RuleDeny => (Forbidden, lit "Deny") end in
  let protocol_label := match nac_protocol c with
                        | NapHttp => lit "http" | NapHttps => lit "https_connect"
                        | NapSocks5Tcp => lit "socks5_tcp" | NapSocks5Udp => lit "socks5_udp"
                        end in
  mk_rule_amendment protocol decision (action_verb ++ lit " " ++ protocol_label ++ lit " access to " ++ host).

(** ** Lemmas: the store *)
Section store_lemmas.
Context {K : Type} (to_string : K → option rstring).

Lemma for_session_spec store key :
  for_session to_string store key = true ↔ ∃ s, to_string key = Some s ∧ store !! s = Some ApprovedForSession.
Proof using Type.
  unfold for_session, get. rewrite bool_decide_eq_true. destruct (to_string key) as [s|]; cbn; [|naive_solver].
  split; [by exists s|]. by intros (s' & [= ->] & ?).
Qed.
Lemma put_all_lookup keys store s :
  foldl (λ st key, put to_string st key ApprovedForSession) store keys !! s = Some ApprovedForSession ↔
  store !! s = Some ApprovedForSession ∨ ∃ k, k ∈ keys ∧ to_string k = Some s.
Proof using Type.
  revert store. induction keys as [|k keys IH]; intros store; cbn [foldl].
  { split; [by left|]. intros [?|(k & Hk%elem_of_nil & _)]; done. }
  rewrite IH. unfold put at 1. destruct (to_string k) as [t|] eqn:Hk.
  - destruct (decide (t = s)) as [->|Hne].
    + rewrite lookup_insert_eq. split; [|by left]. intros _. right. exists k. split; [by left|done].
    + rewrite lookup_insert_ne by done. split.
      * intros [?|(k' & Hin & ?)]; [by left|]. right. exists k'. split; [by right|done].
      * intros [?|(k' & [->|Hin]%elem_of_cons & Hs)]; [by left|congruence|]. right. by exists k'.
  - split.
    + intros [?|(k' & Hin & ?)]; [by left|]. right. exists k'. split; [by right|done].
    + intros [?|(k' & [->|Hin]%elem_of_cons & Hs)]; [by left|congruence|]. right. by exists k'.
Qed.
Lemma cached_lookup store keys fetch s :
  (with_cached_approval to_string store keys fetch).1.1 !! s = Some ApprovedForSession ↔
  store !! s = Some ApprovedForSession ∨ (fetch = ApprovedForSession ∧ ∃ k, k ∈ keys ∧ to_string k = Some s).
Proof using Type.
  unfold with_cached_approval. destruct keys as [|k keys].
  { split; [by left|]. intros [?|(_ & k & Hk%elem_of_nil & _)]; done. }
  destruct (forallb (for_session to_string store) (k :: keys)) eqn:Hall.
  - split; [by left|]. intros [?|(_ & k' & Hin & Hs)]; [done|]. rewrite forallb_forall in Hall.
    apply list_elem_of_In in Hin. apply Hall, for_session_spec in Hin as (s' & Hs' & ?). by simplify_eq.
  - case_bool_decide as Hf; cbn [fst]; [rewrite put_all_lookup; naive_solver|]. naive_solver.
Qed.
Lemma reviewed_lookup requests store s :
  review_requests to_string requests store !! s = Some ApprovedForSession ↔
  store !! s = Some ApprovedForSession ∨
  ∃ r k, r ∈ requests ∧ r.2 = ApprovedForSession ∧ k ∈ r.1 ∧ to_string k = Some s.
Proof using Type.
  unfold review_requests. revert store. induction requests as [|r requests IH]; intros store; cbn [foldl].
  { split; [by left|]. intros [?|(r & k & Hr%elem_of_nil & _)]; done. }
  rewrite IH, cached_lookup. split.
  - intros [[?|(? & k & ? & ?)]|(r' & k & ? & ? & ? & ?)]; [by left| |]; right.
    + exists r, k. split_and!; [by left|done|done|done].
    + exists r', k. split_and!; [by right|done|done|done].
  - intros [?|(r' & k & [->|Hin]%elem_of_cons & ? & ? & ?)]; [by left; left| |].
    + left. right. split; [done|]. by exists k.
    + right. by exists r', k.
Qed.
End store_lemmas.

(** ** Properties *)

(** Which approvals are remembered.  After any requests of a session a new one
    goes without asking exactly if it has keys and each of them, as it is
    serialised, was among the keys of a request approved for the session; otherwise it is
    asked and the answer is the decision. *)
Theorem remembered_approvals_are_exact {K} (to_string : K → option rstring)
    (requests : list (list K * ReviewDecision)) (keys : list K) (fetch : ReviewDecision) :
  let '(_, d, asked) := with_cached_approval to_string (review_requests to_string requests ∅) keys fetch in
  d = (if asked then fetch else ApprovedForSession) ∧
  (asked = false ↔
   keys ≠ [] ∧ ∀ k, k ∈ keys → ∃ s r k', to_string k = Some s ∧
     r ∈ requests ∧ r.2 = ApprovedForSession ∧ k' ∈ r.1 ∧ to_string k' = Some s).
Proof.
  set (store := review_requests to_string requests ∅).
  assert (∀ k, for_session to_string store k = true ↔ ∃ s r k', to_string k = Some s ∧
     r ∈ requests ∧ r.2 = ApprovedForSession ∧ k' ∈ r.1 ∧ to_string k' = Some s) as Hk.
  { intros k. rewrite for_session_spec. split.
    - intros (s & Hs & [Hl|(r & k' & ?)]%reviewed_lookup); [done|]. exists s, r, k'. tauto.
    - intros (s & r & k' & Hs & ?). exists s. split; [done|]. apply reviewed_lookup. right. exists r, k'. tauto. }
  unfold with_cached_approval. destruct keys as [|k keys]; [by split; [|split; [|intros []]]|].
  destruct (forallb (for_session to_string store) (k :: keys)) eqn:Hall.
  - split; [done|]. split; [|done]. intros _. split; [done|]. rewrite forallb_forall in Hall. intros k' Hin. apply Hk, Hall.
    by apply list_elem_of_In.
  - assert (¬ ∀ k', k' ∈ k :: keys → ∃ s r k'', to_string k' = Some s ∧
       r ∈ requests ∧ r.2 = ApprovedForSession ∧ k'' ∈ r.1 ∧ to_string k'' = Some s) as Hno.
    { intros Hx. apply not_true_iff_false in Hall. apply Hall, forallb_forall. intros k' Hin. apply Hk, Hx. by apply list_elem_of_In. }
    case_bool_decide; (split; [done|]); (split; [done|]); by intros [_ ?].
Qed.
