(* ===== verification/NetworkApproval.v ===== *)
(** * Approval of network access ([core/src/tools/network_approval.rs])

    Requests that the network proxy does not allow by itself are decided
    here, many at a time: the first one for a host, protocol and port owns the
    question, the others wait for its answer; answers for the session are
    remembered.  Every lock is a step of its own, [Notify] is a count of wake-ups
    that a waiter compares with the count it saw, and what the session, the
    hooks and the reviewer say arrives as an answer.  Blocked requests and
    the calls that register and finish run in between, and the future of a request may be dropped
    wherever it awaits something. *)
From S2P Require Import Prelude RustStr Permissions PermissionProfile ExecApproval Approvals.

(** ** Data *)
Inductive NetworkApprovalMode := Immediate | Deferred.
#[global] Instance NetworkApprovalMode_eq_dec : EqDecision NetworkApprovalMode.
Proof. solve_decision. Defined.
Inductive NetworkProtocol := NpHttp | NpHttpsConnect | NpSocks5Tcp | NpSocks5Udp.
Record NetworkPolicyRequest := mk_request { rq_protocol : NetworkProtocol; rq_host : rstring; rq_port : N }.
Inductive NetworkDecision :=
| NdAllow
| NdDeny (reason : rstring) (source : NetworkDecisionSource) (decision : NetworkPolicyDecision).
#[global] Instance NetworkDecision_eq_dec : EqDecision NetworkDecision.
Proof. solve_decision. Defined.
Definition REASON_POLICY_DENIED : rstring := lit "policy_denied".
Definition deny_with_source (reason : rstring) (source : NetworkDecisionSource) : NetworkDecision :=
  NdDeny (if bool_decide (reason = []) then REASON_POLICY_DENIED else reason) source NpdDeny.
Definition deny (reason : rstring) : NetworkDecision := deny_with_source reason Decider.
Definition ask_with_source (reason : rstring) (source : NetworkDecisionSource) : NetworkDecision :=
  NdDeny (if bool_decide (reason = []) then REASON_POLICY_DENIED else reason) source NpdAsk.
Definition ask_decision (reason : rstring) : NetworkDecision := ask_with_source reason Decider.
Definition REASON_NOT_ALLOWED : rstring := lit "not_allowed".

Record HostApprovalKey := mk_key { k_host : rstring; k_protocol : rstring; k_port : N }.
#[global] Instance HostApprovalKey_eq_dec : EqDecision HostApprovalKey.
Proof. solve_decision. Defined.
#[global] Instance HostApprovalKey_countable : Countable HostApprovalKey.
Proof.
  refine (inj_countable' (λ k, (k_host k, k_protocol k, k_port k)) (λ x, mk_key x.1.1 x.1.2 x.2) _). by intros [].
Defined.
Definition protocol_key_label (p : NetworkApprovalProtocol) : rstring :=
  match p with
  | NapHttp => lit "http" | NapHttps => lit "https" | NapSocks5Tcp => lit "socks5-tcp" | NapSocks5Udp => lit "socks5-udp"
  end.
Definition approval_protocol (p : NetworkProtocol) : NetworkApprovalProtocol :=
  match p with NpHttp => NapHttp | NpHttpsConnect => NapHttps | NpSocks5Tcp => NapSocks5Tcp | NpSocks5Udp => NapSocks5Udp end.
Definition from_request (r : NetworkPolicyRequest) : HostApprovalKey :=
  mk_key (to_ascii_lowercase (rq_host r)) (protocol_key_label (approval_protocol (rq_protocol r))) (rq_port r).

Inductive PendingApprovalDecision := AllowOnce | AllowForSession | DenyPending.
#[global] Instance PendingApprovalDecision_eq_dec : EqDecision PendingApprovalDecision.
Proof. solve_decision. Defined.
Definition to_network_decision (d : PendingApprovalDecision) : NetworkDecision :=
  match d with AllowOnce | AllowForSession => NdAllow | DenyPending => deny (lit "not_allowed") end.
Inductive NetworkApprovalOutcome := DeniedByUser | DeniedByPolicy (message : rstring).
#[global] Instance NetworkApprovalOutcome_eq_dec : EqDecision NetworkApprovalOutcome.
Proof. solve_decision. Defined.
(** The part of [ToolError] that this code makes. *)
Definition outcome_to_result (o : option NetworkApprovalOutcome) : outcome rstring unit :=
  match o with
  | Some DeniedByUser => Err (lit "rejected by user")
  | Some (DeniedByPolicy message) => Err message
  | None => Ok ()
  end.
Definition allows_network_approval_flow (policy : AskForApproval) : bool := negb (bool_decide (policy = Never)).
Definition profile_allows_network_approval_flow (p : PermissionProfile) : bool :=
  match p with Managed _ _ => true | _ => false end.

(** ** The service *)
Record ActiveCall := mk_call { call_turn_id : rstring; call_command : rstring }.
(** A pending approval: its decision, how often its waiters were woken, and,
    for the statements only, the key it was made for. *)
Record Cell := mk_cell { c_decision : option PendingApprovalDecision; c_epoch : nat; c_key : HostApprovalKey }.
Record Service := mk_service {
  active_calls : list (rstring * ActiveCall);
  call_outcomes : gmap rstring NetworkApprovalOutcome;
  cancelled : gset rstring;
  pending_host_approvals : gmap HostApprovalKey nat;
  cells : list Cell;
  session_approved_hosts : gset HostApprovalKey;
  session_denied_hosts : gset HostApprovalKey }.
Definition service_default : Service := mk_service [] ∅ ∅ ∅ [] ∅ ∅.
Definition with_calls (s : Service) calls outcomes cancelled : Service :=
  mk_service calls outcomes cancelled (pending_host_approvals s) (cells s) (session_approved_hosts s) (session_denied_hosts s).
Definition with_pending (s : Service) pending cells : Service :=
  mk_service (active_calls s) (call_outcomes s) (cancelled s) pending cells (session_approved_hosts s) (session_denied_hosts s).
Definition with_hosts (s : Service) approved denied : Service :=
  mk_service (active_calls s) (call_outcomes s) (cancelled s) (pending_host_approvals s) (cells s) approved denied.

(** [IndexMap]: a new key goes to the end, an old one keeps its place. *)
Fixpoint index_insert {V} (k : rstring) (v : V) (m : list (rstring * V)) : list (rstring * V) :=
  match m with
  | [] => [(k, v)]
  | (k', v') :: m => if bool_decide (k' = k) then (k, v) :: m else (k', v') :: index_insert k v m
  end.
Definition shift_remove {V} (k : rstring) (m : list (rstring * V)) : list (rstring * V) :=
  List.filter (λ e, negb (bool_decide (e.1 = k))) m.
Definition index_get {V} (k : rstring) (m : list (rstring * V)) : option V :=
  snd <$> List.find (λ e, bool_decide (e.1 = k)) m.

Definition register_call (s : Service) (id : rstring) (call : ActiveCall) : Service :=
  with_calls s (index_insert id call (active_calls s)) (call_outcomes s) (cancelled s).
Definition remove_call (s : Service) (id : rstring) : Service * option NetworkApprovalOutcome :=
  (with_calls s (shift_remove id (active_calls s)) (delete id (call_outcomes s)) (cancelled s), call_outcomes s !! id).
Definition unregister_call (s : Service) (id : rstring) : Service := (remove_call s id).1.
Definition finish_call (s : Service) (id : rstring) : Service * outcome rstring unit :=
  let '(s, o) := remove_call s id in (s, outcome_to_result o).
Definition resolve_single_active_call (s : Service) : option (rstring * ActiveCall) :=
  match active_calls s with [c] => Some c | _ => None end.
(** Recording cancels the token of the call. *)
Definition record_call_outcome (s : Service) (id : rstring) (o : NetworkApprovalOutcome) : Service :=
  match index_get id (active_calls s) with
  | None => s
  | Some _ =>
      if bool_decide (call_outcomes s !! id = Some DeniedByUser) then s
      else with_calls s (active_calls s) (<[id := o]> (call_outcomes s)) ({[ id ]} ∪ cancelled s)
  end.
Definition record_outcome_for_single_active_call (s : Service) (o : NetworkApprovalOutcome) : Service :=
  match resolve_single_active_call s with None => s | Some (id, _) => record_call_outcome s id o end.
Definition record_blocked_request (s : Service) (b : BlockedRequest) : Service :=
  match denied_network_policy_message b with
  | None => s
  | Some message => record_outcome_for_single_active_call s (DeniedByPolicy message)
  end.
Definition get_or_create_pending_approval (s : Service) (key : HostApprovalKey) : Service * nat * bool :=
  match pending_host_approvals s !! key with
  | Some existing => (s, existing, false)
  | None =>
      let created := length (cells s) in
      (with_pending s (<[key := created]> (pending_host_approvals s)) (cells s ++ [mk_cell None 0 key]), created, true)
  end.
Definition sync_session_approved_hosts_to (s other : Service) : Service :=
  with_hosts other (session_approved_hosts s) (session_denied_hosts other).
Definition set_decision_cell (s : Service) (p : nat) (d : PendingApprovalDecision) : Service :=
  with_pending s (pending_host_approvals s) (alter (λ c, mk_cell (Some d) (c_epoch c) (c_key c)) p (cells s)).
Definition notify_waiters (s : Service) (p : nat) : Service :=
  with_pending s (pending_host_approvals s) (alter (λ c, mk_cell (c_decision c) (S (c_epoch c)) (c_key c)) p (cells s)).

(** ** One request: [handle_inline_policy_request], a step per lock and per answer *)
(** What the session says of the active turn. *)
Record Turn := mk_turn { turn_profile : PermissionProfile; turn_policy : AskForApproval; turn_auto_review : bool }.
Definition routes_approval_to_guardian (policy : AskForApproval) (auto_review : bool) : bool :=
  match policy with OnRequest | Granular _ => auto_review | _ => false end.
Inductive PermissionRequestDecision := HookAllow | HookDeny (message : rstring).

Inductive session_act :=
| RemoveDenied | InsertApproved | RemoveApproved | InsertDenied
| RecordOutcome (id : rstring) (o : NetworkApprovalOutcome)
| RecordSingle (o : NetworkApprovalOutcome).
Inductive pc :=
| CheckDenied | CheckApproved | GetPending
| WaitRegister (p : nat) | WaitCheck (p epoch : nat) | WaitSleep (p epoch : nat)
| OwnerTurn (p : nat)
| OwnerCall (p : nat) (turn : Turn)
| OwnerHooks (p : nat) (turn : Turn) (call : option rstring)
| OwnerReview (p : nat) (turn : Turn) (call : option rstring)
| OwnerSession (p : nat) (acts : list session_act) (d : PendingApprovalDecision) (after : list session_act)
| OwnerSet (p : nat) (d : PendingApprovalDecision) (after : list session_act)
| OwnerNotify (p : nat) (d : PendingApprovalDecision) (after : list session_act)
| OwnerRemove (p : nat) (d : PendingApprovalDecision) (after : list session_act)
| OwnerAfter (acts : list session_act) (d : PendingApprovalDecision)
| Finished (d : NetworkDecision).
(** [t_dropped]: its future was dropped, where it was; nothing runs then, and nothing will. *)
Record Task := mk_any_task { t_request : NetworkPolicyRequest; t_pc : pc; t_dropped : bool }.
Abbreviation mk_task r c := (mk_any_task r c false).
Definition task_key (t : Task) : HostApprovalKey := from_request (t_request t).
Definition start (r : NetworkPolicyRequest) : Task := mk_task r CheckDenied.

Inductive answer :=
| NoAnswer
| TurnAnswer (turn : option Turn)
| HookAnswer (d : option PermissionRequestDecision)
| ReviewAnswer (d : ReviewDecision) (rejection_message : rstring).

Definition format_network_target (protocol host : rstring) (port : N) : rstring := protocol ++ lit "://" ++ host ++ lit ":" ++ show port.
Definition policy_denial_message (r : NetworkPolicyRequest) : rstring :=
  lit "Network access to " ++ quote ++ format_network_target (k_protocol (from_request r)) (rq_host r) (rq_port r) ++ quote
  ++ lit " was blocked by policy.".
(** The three early refusals do the same. *)
Definition refuse (r : NetworkPolicyRequest) (p : nat) : pc :=
  OwnerSet p DenyPending [RecordSingle (DeniedByPolicy (policy_denial_message r))].
Definition record_for (call : option rstring) (o : NetworkApprovalOutcome) : list session_act :=
  match call with Some id => [RecordOutcome id o] | None => [] end.
(** The decision that a review resolves to, and what is done for the session first.
    Persisting an amendment touches nothing of the service. *)
Definition resolve_review (guardian : bool) (call : option rstring) (d : ReviewDecision) (rejection_message : rstring) :
    list session_act * PendingApprovalDecision :=
  match d with
  | Approved | ApprovedExecpolicyAmendment _ => ([], AllowOnce)
  | ApprovedForSession => ([RemoveDenied; InsertApproved], AllowForSession)
  | ReviewNetworkAmendment a =>
      match npa_action a with
      | RuleAllow => ([RemoveDenied; InsertApproved], AllowForSession)
      | RuleDeny => (record_for call DeniedByUser ++ [RemoveApproved; InsertDenied], DenyPending)
      end
  | Denied | Abort => (record_for call (if guardian then DeniedByPolicy rejection_message else DeniedByUser), DenyPending)
  | TimedOut => (record_for call (DeniedByPolicy guardian_timeout_message), DenyPending)
  end.

Definition act_step (s : Service) (key : HostApprovalKey) (a : session_act) : Service * list session_act :=
  match a with
  | RemoveDenied => (with_hosts s (session_approved_hosts s) (session_denied_hosts s ∖ {[ key ]}), [])
  | InsertApproved => (with_hosts s ({[ key ]} ∪ session_approved_hosts s) (session_denied_hosts s), [])
  | RemoveApproved => (with_hosts s (session_approved_hosts s ∖ {[ key ]}) (session_denied_hosts s), [])
  | InsertDenied => (with_hosts s (session_approved_hosts s) ({[ key ]} ∪ session_denied_hosts s), [])
  | RecordOutcome id o => (record_call_outcome s id o, [])
  | RecordSingle o => (s, match resolve_single_active_call s with Some (id, _) => [RecordOutcome id o] | None => [] end)
  end.
(** [None]: the request cannot go on, or the answer is not the one it waits for. *)
Definition pc_step (s : Service) (r : NetworkPolicyRequest) (c : pc) (a : answer) : option (Service * pc) :=
  let key := from_request r in
  match c, a with
  | CheckDenied, NoAnswer =>
      Some (s, if bool_decide (key ∈ session_denied_hosts s) then Finished (deny REASON_NOT_ALLOWED) else CheckApproved)
  | CheckApproved, NoAnswer =>
      Some (s, if bool_decide (key ∈ session_approved_hosts s) then Finished NdAllow else GetPending)
  | GetPending, NoAnswer =>
      let '(s, p, is_owner) := get_or_create_pending_approval s key in Some (s, if is_owner then OwnerTurn p else WaitRegister p)
  | WaitRegister p, NoAnswer => cell ← cells s !! p; Some (s, WaitCheck p (c_epoch cell))
  | WaitCheck p epoch, NoAnswer =>
      cell ← cells s !! p;
      Some (s, match c_decision cell with Some d => Finished (to_network_decision d) | None => WaitSleep p epoch end)
  | WaitSleep p epoch, NoAnswer =>
      cell ← cells s !! p; if epoch <? c_epoch cell then Some (s, WaitRegister p) else None
  | OwnerTurn p, TurnAnswer None => Some (s, refuse r p)
  | OwnerTurn p, TurnAnswer (Some turn) =>
      Some (s, if negb (profile_allows_network_approval_flow (turn_profile turn)) then refuse r p
               else if negb (allows_network_approval_flow (turn_policy turn)) then refuse r p
               else OwnerCall p turn)
  | OwnerCall p turn, NoAnswer => Some (s, OwnerHooks p turn (fst <$> resolve_single_active_call s))
  | OwnerHooks p turn call, HookAnswer None => Some (s, OwnerReview p turn call)
  | OwnerHooks p turn call, HookAnswer (Some HookAllow) => Some (s, OwnerSession p [] AllowOnce [])
  | OwnerHooks p turn call, HookAnswer (Some (HookDeny message)) =>
      Some (s, OwnerSession p (record_for call (DeniedByPolicy message)) DenyPending [])
  | OwnerReview p turn call, ReviewAnswer d rejection_message =>
      let '(acts, resolved) :=
        resolve_review (routes_approval_to_guardian (turn_policy turn) (turn_auto_review turn)) call d rejection_message in
      Some (s, OwnerSession p acts resolved [])
  | OwnerSession p (act :: acts) d after, NoAnswer =>
      let '(s, more) := act_step s key act in Some (s, OwnerSession p (more ++ acts) d after)
  | OwnerSession p [] d after, NoAnswer => Some (s, OwnerSet p d after)
  | OwnerSet p d after, NoAnswer => Some (set_decision_cell s p d, OwnerNotify p d after)
  | OwnerNotify p d after, NoAnswer => Some (notify_waiters s p, OwnerRemove p d after)
  | OwnerRemove p d after, NoAnswer =>
      Some (with_pending s (delete key (pending_host_approvals s)) (cells s), OwnerAfter after d)
  | OwnerAfter (act :: acts) d, NoAnswer => let '(s, more) := act_step s key act in Some (s, OwnerAfter (more ++ acts) d)
  | OwnerAfter [] d, NoAnswer => Some (s, Finished (to_network_decision d))
  | _, _ => None
  end.

(** ** All requests at once *)
Record System := mk_system { service : Service; tasks : gmap nat Task }.
(** What a step is about: a request that goes on with an answer, hosts that
    another session has approved, a request that is dropped, or anything else. *)
Inductive label := LTask (key : HostApprovalKey) (a : answer) | LSync (hosts : gset HostApprovalKey) | LCall | LRequest | LDrop.
(** Where a future can be dropped: wherever it awaits a lock or an answer. The waiters are woken without one. *)
Definition droppable (c : pc) : bool := match c with OwnerNotify _ _ _ | Finished _ => false | _ => true end.
Inductive step : label → System → System → Prop :=
| step_request s ts t r : ts !! t = None → step LRequest (mk_system s ts) (mk_system s (<[t := start r]> ts))
| step_task s ts t task a s' c' :
    ts !! t = Some task → t_dropped task = false → pc_step s (t_request task) (t_pc task) a = Some (s', c') →
    step (LTask (task_key task) a) (mk_system s ts) (mk_system s' (<[t := mk_task (t_request task) c']> ts))
| step_drop s ts t task :
    ts !! t = Some task → t_dropped task = false → droppable (t_pc task) = true →
    step LDrop (mk_system s ts) (mk_system s (<[t := mk_any_task (t_request task) (t_pc task) true]> ts))
| step_register s ts id call : step LCall (mk_system s ts) (mk_system (register_call s id call) ts)
| step_unregister s ts id : step LCall (mk_system s ts) (mk_system (unregister_call s id) ts)
| step_record s ts id o : step LCall (mk_system s ts) (mk_system (record_call_outcome s id o) ts)
| step_sync s ts other : step (LSync (session_approved_hosts other)) (mk_system s ts) (mk_system (sync_session_approved_hosts_to other s) ts).
Definition initial : System := mk_system service_default ∅.

(** ** Lemmas: the invariant *)
Definition owns (c : pc) : option nat :=
  match c with
  | OwnerTurn p | OwnerCall p _ | OwnerHooks p _ _ | OwnerReview p _ _ | OwnerSession p _ _ _
  | OwnerSet p _ _ | OwnerNotify p _ _ | OwnerRemove p _ _ => Some p
  | _ => None
  end.
(** What the cell of an owner holds. *)
Definition expected (c : pc) : option PendingApprovalDecision * nat :=
  match c with OwnerNotify _ d _ => (Some d, 0) | OwnerRemove _ d _ => (Some d, 1) | _ => (None, 0) end.
Definition waits (c : pc) : option nat :=
  match c with WaitRegister p | WaitCheck p _ | WaitSleep p _ => Some p | _ => None end.
Definition wait_ok (c : pc) (cell : Cell) : Prop :=
  match c with WaitCheck _ e => e ≤ c_epoch cell | WaitSleep _ e => e = 0 | _ => True end.

Record Inv (y : System) : Prop := {
  inv_pending k p : pending_host_approvals (service y) !! k = Some p →
    ∃ t task, tasks y !! t = Some task ∧ owns (t_pc task) = Some p ∧ task_key task = k;
  inv_owner t task p : tasks y !! t = Some task → owns (t_pc task) = Some p →
    pending_host_approvals (service y) !! task_key task = Some p ∧
    cells (service y) !! p = Some (mk_cell (expected (t_pc task)).1 (expected (t_pc task)).2 (task_key task));
  inv_unique t1 task1 t2 task2 p :
    tasks y !! t1 = Some task1 → tasks y !! t2 = Some task2 →
    owns (t_pc task1) = Some p → owns (t_pc task2) = Some p → t1 = t2;
  inv_cell p cell : cells (service y) !! p = Some cell →
    (∃ t task, tasks y !! t = Some task ∧ owns (t_pc task) = Some p) ∨ (c_epoch cell = 1 ∧ is_Some (c_decision cell));
  inv_waiter t task p : tasks y !! t = Some task → waits (t_pc task) = Some p →
    ∃ cell, cells (service y) !! p = Some cell ∧ c_key cell = task_key task ∧ wait_ok (t_pc task) cell }.

(** A task goes on without touching the pending approvals. *)
Lemma inv_quiet s ts t r c s' c' :
  Inv (mk_system s ts) → ts !! t = Some (mk_task r c) →
  pending_host_approvals s' = pending_host_approvals s → cells s' = cells s →
  owns c' = owns c → (is_Some (owns c) → expected c' = expected c) →
  (∀ p, waits c' = Some p → ∃ cell, cells s !! p = Some cell ∧ c_key cell = from_request r ∧ wait_ok c' cell) →
  Inv (mk_system s' (<[t := mk_task r c']> ts)).
Proof.
  intros [Hp Ho Hu Hc Hw] Ht Ep Ec Eo Ee Hw'. split; cbn [service tasks] in *.
  - intros k p. rewrite Ep. intros (t' & task & Ht' & Hown & Hk)%Hp. destruct (decide (t' = t)) as [->|Hne].
    + rewrite Ht in Ht'. injection Ht' as <-. exists t, (mk_task r c'). rewrite lookup_insert_eq. cbn in *. by rewrite Eo.
    + exists t', task. by rewrite lookup_insert_ne.
  - intros t' task p. rewrite Ep, Ec. destruct (decide (t' = t)) as [->|Hne].
    + rewrite lookup_insert_eq. intros [= <-]. cbn [t_pc]. rewrite Eo. intros Hown. rewrite Ee by eauto.
      by apply (Ho _ _ _ Ht).
    + rewrite lookup_insert_ne by done. apply Ho.
  - intros t1 task1 t2 task2 p H1 H2 O1 O2.
    assert (∀ t0 task0, <[t := mk_task r c']> ts !! t0 = Some task0 → owns (t_pc task0) = Some p →
              ∃ task0', ts !! t0 = Some task0' ∧ owns (t_pc task0') = Some p) as Hback.
    { intros t0 task0. destruct (decide (t0 = t)) as [->|Hne].
      - rewrite lookup_insert_eq. intros [= <-]. cbn [t_pc]. rewrite Eo. intros Hown. by exists (mk_task r c).
      - rewrite lookup_insert_ne by done. by exists task0. }
    destruct (Hback _ _ H1 O1) as (a1 & ? & ?), (Hback _ _ H2 O2) as (a2 & ? & ?). by eapply Hu.
  - intros p cell. rewrite Ec. intros [(t' & task & Ht' & Hown)|?]%Hc; [left|by right]. destruct (decide (t' = t)) as [->|Hne].
    + rewrite Ht in Ht'. injection Ht' as <-. exists t, (mk_task r c'). rewrite lookup_insert_eq. cbn in *. by rewrite Eo.
    + exists t', task. by rewrite lookup_insert_ne.
  - intros t' task p. rewrite Ec. destruct (decide (t' = t)) as [->|Hne].
    + rewrite lookup_insert_eq. intros [= <-]. apply Hw'.
    + rewrite lookup_insert_ne by done. apply Hw.
Qed.

Lemma act_quiet s key a : pending_host_approvals (act_step s key a).1 = pending_host_approvals s ∧ cells (act_step s key a).1 = cells s.
Proof. destruct a; try done. cbn. unfold record_call_outcome. by repeat case_match. Qed.

(** The owner changes its own cell. *)
Lemma inv_cell_step s ts t r c c' p f after_pending :
  Inv (mk_system s ts) → ts !! t = Some (mk_task r c) → owns c = Some p →
  (∀ cell, c_key (f cell) = c_key cell) → (∀ cell, c_epoch cell ≤ c_epoch (f cell)) →
  f (mk_cell (expected c).1 (expected c).2 (from_request r)) =
    mk_cell (expected c').1 (expected c').2 (from_request r) →
  owns c' = Some p → waits c' = None → after_pending = pending_host_approvals s →
  Inv (mk_system (with_pending s after_pending (alter f p (cells s))) (<[t := mk_task r c']> ts)).
Proof.
  intros [Hp Ho Hu Hc Hw] Ht Hown Hkey Hep Hf Hown' Hnw ->.
  destruct (Ho _ _ _ Ht Hown) as [Hpend Hcell]. split; cbn [service tasks with_pending pending_host_approvals cells] in *.
  - intros k q (t' & task & Ht' & Ho' & Hk)%Hp. destruct (decide (t' = t)) as [->|Hne].
    + rewrite Ht in Ht'. injection Ht' as <-. exists t, (mk_task r c'). rewrite lookup_insert_eq. cbn in *. by simplify_eq.
    + exists t', task. by rewrite lookup_insert_ne.
  - intros t' task q. destruct (decide (t' = t)) as [->|Hne].
    + rewrite lookup_insert_eq. intros [= <-] Hq. cbn in Hq. simplify_eq. split; [exact Hpend|].
      rewrite list_lookup_alter_eq. cbn [t_pc] in Hcell. unfold task_key in *. cbn [t_request] in *. rewrite Hcell. cbn. by rewrite Hf.
    + rewrite lookup_insert_ne by done. intros Ht' Hq. destruct (Ho _ _ _ Ht' Hq) as [? Hqc]. split; [done|].
      rewrite list_lookup_alter_ne; [done|]. intros ->. apply Hne. by eapply Hu.
  - intros t1 task1 t2 task2 q.
    destruct (decide (t1 = t)) as [->|H1], (decide (t2 = t)) as [->|H2];
      rewrite ?lookup_insert_eq, ?lookup_insert_ne by done; try done.
    + intros [= <-] Ht2 Hq Hq2. cbn in Hq. rewrite Hown' in Hq. injection Hq as <-. by eapply Hu.
    + intros Ht1 [= <-] Hq1 Hq. cbn in Hq. rewrite Hown' in Hq. injection Hq as <-. by eapply Hu.
    + apply Hu.
  - intros q cell Hq. destruct (decide (q = p)) as [->|Hne].
    + left. exists t, (mk_task r c'). by rewrite lookup_insert_eq.
    + rewrite list_lookup_alter_ne in Hq by done. destruct (Hc _ _ Hq) as [(t' & task & Ht' & Ho')|?]; [left|by right].
      exists t', task. rewrite lookup_insert_ne; [done|]. intros <-. rewrite Ht in Ht'. injection Ht' as <-. cbn in *. congruence.
  - intros t' task q. destruct (decide (t' = t)) as [->|Hne].
    { rewrite lookup_insert_eq. intros [= <-]. cbn. by rewrite Hnw. }
    rewrite lookup_insert_ne by done. intros Ht' Hq. destruct (Hw _ _ _ Ht' Hq) as (cell & Hl & Hk & Hwo).
    destruct (decide (q = p)) as [->|Hqp].
    + rewrite list_lookup_alter_eq, Hl. exists (f cell). split_and!; [done|by rewrite Hkey|].
      unfold wait_ok in *. destruct (t_pc task); try done. specialize (Hep cell). lia.
    + exists cell. by rewrite list_lookup_alter_ne.
Qed.

Lemma inv_create s ts t r :
  Inv (mk_system s ts) → ts !! t = Some (mk_task r GetPending) → pending_host_approvals s !! from_request r = None →
  Inv (mk_system (with_pending s (<[from_request r := length (cells s)]> (pending_host_approvals s))
                    (cells s ++ [mk_cell None 0 (from_request r)]))
                 (<[t := mk_task r (OwnerTurn (length (cells s)))]> ts)).
Proof.
  intros [Hp Ho Hu Hc Hw] Ht Hnone. cbn [service tasks] in *.
  assert (∀ t' task q, ts !! t' = Some task → owns (t_pc task) = Some q → t' ≠ t ∧ task_key task ≠ from_request r ∧ q < length (cells s)) as Hother.
  { intros t' task q Ht' Hq. destruct (Ho _ _ _ Ht' Hq) as [Hl Hcell]. split_and!.
    - intros ->. rewrite Ht in Ht'. by injection Ht' as <-.
    - intros Hk. rewrite Hk in Hl. congruence.
    - by eapply lookup_lt_Some. }
  split; cbn [service tasks with_pending pending_host_approvals cells].
  - intros k p. destruct (decide (k = from_request r)) as [->|Hk].
    + rewrite lookup_insert_eq. intros [= <-]. exists t, (mk_task r (OwnerTurn (length (cells s)))). by rewrite lookup_insert_eq.
    + rewrite lookup_insert_ne by done. intros (t' & task & Ht' & Hq & Hkey)%Hp. exists t', task.
      destruct (Hother _ _ _ Ht' Hq) as (? & _). by rewrite lookup_insert_ne.
  - intros t' task q. destruct (decide (t' = t)) as [->|Hne].
    + rewrite lookup_insert_eq. intros [= <-] [= <-]. cbn. by rewrite lookup_insert_eq, list_lookup_middle.
    + rewrite lookup_insert_ne by done. intros Ht' Hq. destruct (Hother _ _ _ Ht' Hq) as (_ & Hk & Hlt).
      rewrite lookup_insert_ne, lookup_app_l by done. by apply (Ho t').
  - intros t1 task1 t2 task2 q. destruct (decide (t1 = t)) as [->|H1], (decide (t2 = t)) as [->|H2];
      rewrite ?lookup_insert_eq, ?lookup_insert_ne by done; try done.
    + intros [= <-] Ht2 [= <-] Hq. destruct (Hother _ _ _ Ht2 Hq) as (_ & _ & ?). lia.
    + intros Ht1 [= <-] Hq [= <-]. destruct (Hother _ _ _ Ht1 Hq) as (_ & _ & ?). lia.
    + apply Hu.
  - intros q cell [Hq|[Hlen Hq]]%lookup_app_Some.
    + destruct (Hc _ _ Hq) as [(t' & task & Ht' & Hown)|?]; [left|by right]. exists t', task.
      destruct (Hother _ _ _ Ht' Hown) as (? & _). by rewrite lookup_insert_ne.
    + apply list_lookup_singleton_Some in Hq as [Hq <-]. assert (q = length (cells s)) as -> by lia. left.
      exists t, (mk_task r (OwnerTurn (length (cells s)))). by rewrite lookup_insert_eq.
  - intros t' task q. destruct (decide (t' = t)) as [->|Hne].
    { rewrite lookup_insert_eq. by intros [= <-]. }
    rewrite lookup_insert_ne by done. intros Ht' (cell & Hl & ?)%(Hw _ _ _ Ht'). exists cell. split; [|done]. by apply lookup_app_l_Some.
Qed.

Lemma inv_remove s ts t r p d after :
  Inv (mk_system s ts) → ts !! t = Some (mk_task r (OwnerRemove p d after)) →
  Inv (mk_system (with_pending s (delete (from_request r) (pending_host_approvals s)) (cells s)) (<[t := mk_task r (OwnerAfter after d)]> ts)).
Proof.
  intros [Hp Ho Hu Hc Hw] Ht. cbn [service tasks] in *. destruct (Ho t _ p Ht eq_refl) as [Hpend Hcell]. cbn in Hpend, Hcell.
  split; cbn [service tasks with_pending pending_host_approvals cells].
  - intros k q. rewrite lookup_delete_Some. intros [Hk (t' & task & Ht' & Hq & Hkey)%Hp]. exists t', task.
    rewrite lookup_insert_ne; [done|]. intros <-. rewrite Ht in Ht'. injection Ht' as <-. by apply Hk.
  - intros t' task q. destruct (decide (t' = t)) as [->|Hne].
    { rewrite lookup_insert_eq. by intros [= <-]. }
    rewrite lookup_insert_ne by done. intros Ht' Hq. destruct (Ho _ _ _ Ht' Hq) as [Hl ?]. split; [|done].
    rewrite lookup_delete_ne; [done|]. intros Hk. rewrite <- Hk in Hl.
    assert (Some q = Some p) as [= ->] by (rewrite <- Hl; exact Hpend). apply Hne. by eapply Hu.
  - intros t1 task1 t2 task2 q. destruct (decide (t1 = t)) as [->|H1], (decide (t2 = t)) as [->|H2];
      rewrite ?lookup_insert_eq, ?lookup_insert_ne by done; try done.
    + by intros [= <-].
    + by intros _ [= <-].
    + apply Hu.
  - intros q cell Hq. destruct (Hc _ _ Hq) as [(t' & task & Ht' & Hown)|?]; [|by right]. destruct (decide (t' = t)) as [->|Hne].
    + rewrite Ht in Ht'. injection Ht' as <-. injection Hown as <-. right. rewrite Hcell in Hq. injection Hq as <-. cbn. split; [done|by eexists].
    + left. exists t', task. by rewrite lookup_insert_ne.
  - intros t' task q. destruct (decide (t' = t)) as [->|Hne].
    { rewrite lookup_insert_eq. by intros [= <-]. }
    rewrite lookup_insert_ne by done. apply Hw.
Qed.

(** A waiter that finds no decision has seen no wake-up. *)
Lemma inv_undecided y p cell : Inv y → cells (service y) !! p = Some cell → c_decision cell = None → c_epoch cell = 0.
Proof.
  intros I Hl Hn. destruct (inv_cell y I p cell Hl) as [(t & task & Ht & Hown)|[_ [d Hd]]]; [|congruence].
  destruct (inv_owner y I t task p Ht Hown) as [_ Hc]. rewrite Hl in Hc. injection Hc as ->. cbn in *.
  by destruct (t_pc task).
Qed.

Lemma inv_task s ts t task a s' c' :
  Inv (mk_system s ts) → ts !! t = Some task → t_dropped task = false → pc_step s (t_request task) (t_pc task) a = Some (s', c') →
  Inv (mk_system s' (<[t := mk_task (t_request task) c']> ts)).
Proof.
  destruct task as [r c dr]. cbn [t_request t_pc t_dropped]. intros I Ht -> Hs.
  pose proof (λ p, inv_waiter _ I t _ p Ht) as Hw. cbn [t_pc service] in Hw.
  destruct c as [| | |p|p e|p e|p|p turn|p turn call|p turn call|p [|act acts] d after|p d after|p d after|p d after|[|act acts] d|d], a as [|[turn'|]|[[|m]|]|rd m];
    cbn [pc_step] in Hs; try discriminate Hs.
  - injection Hs as <- <-. eapply inv_quiet; try done; by case_bool_decide.
  - injection Hs as <- <-. eapply inv_quiet; try done; by case_bool_decide.
  - unfold get_or_create_pending_approval in Hs. destruct (pending_host_approvals s !! from_request r) as [p|] eqn:Hp.
    + injection Hs as <- <-. eapply inv_quiet; try done. intros q [= <-].
      destruct (inv_pending _ I _ _ Hp) as (t' & task & Ht' & Hown & Hk). destruct (inv_owner _ I _ _ _ Ht' Hown) as [_ Hc].
      eexists. split; [exact Hc|]. by split.
    + injection Hs as <- <-. by apply inv_create.
  - destruct (Hw p eq_refl) as (cell & Hl & Hk & _). rewrite Hl in Hs. cbn in Hs. injection Hs as <- <-.
    eapply inv_quiet; try done. intros q [= <-]. exists cell. split_and!; [done|exact Hk|by cbn].
  - destruct (Hw p eq_refl) as (cell & Hl & Hk & He). rewrite Hl in Hs. cbn in Hs, He. injection Hs as <- <-.
    destruct (c_decision cell) eqn:Hd; [by eapply inv_quiet|].
    eapply inv_quiet; try done. intros q [= <-]. exists cell. split_and!; [done|exact Hk|]. cbn.
    pose proof (inv_undecided _ _ _ I Hl Hd). lia.
  - destruct (Hw p eq_refl) as (cell & Hl & Hk & He). rewrite Hl in Hs. cbn [mbind option_bind] in Hs. destruct (e <? c_epoch cell); [|done].
    injection Hs as <- <-. eapply inv_quiet; try done. intros q [= <-]. exists cell. split_and!; [done|exact Hk|done].
  - injection Hs as <- <-. eapply inv_quiet; try done; by repeat case_match.
  - injection Hs as <- <-. by eapply inv_quiet.
  - injection Hs as <- <-. by eapply inv_quiet.
  - injection Hs as <- <-. by eapply inv_quiet.
  - injection Hs as <- <-. by eapply inv_quiet.
  - injection Hs as <- <-. by eapply inv_quiet.
  - destruct (resolve_review _ _ _ _) as [acts resolved]. injection Hs as <- <-. by eapply inv_quiet.
  - injection Hs as <- <-. by eapply inv_quiet.
  - destruct (act_step s (from_request r) act) as [s1 more] eqn:Ha. injection Hs as <- <-.
    destruct (act_quiet s (from_request r) act) as [E1 E2]. rewrite Ha in E1, E2. by eapply inv_quiet.
  - injection Hs as <- <-. by eapply (inv_cell_step s ts t r _ _ p).
  - injection Hs as <- <-. eapply (inv_cell_step s ts t r _ _ p); try done. cbn. lia.
  - injection Hs as <- <-. by eapply inv_remove.
  - injection Hs as <- <-. by eapply inv_quiet.
  - destruct (act_step s (from_request r) act) as [s1 more] eqn:Ha. injection Hs as <- <-.
    destruct (act_quiet s (from_request r) act) as [E1 E2]. rewrite Ha in E1, E2. by eapply inv_quiet.
Qed.

(** Steps of the other parts of the session leave the pending approvals alone. *)
Lemma inv_service s ts s' :
  pending_host_approvals s' = pending_host_approvals s → cells s' = cells s → Inv (mk_system s ts) → Inv (mk_system s' ts).
Proof.
  intros Ep Ec [Hp Ho Hu Hc Hw]. split; cbn [service tasks] in *.
  - intros k p. rewrite Ep. apply Hp.
  - intros t task p. rewrite Ep, Ec. apply Ho.
  - apply Hu.
  - intros p cell. rewrite Ec. apply Hc.
  - intros t task p. rewrite Ec. apply Hw.
Qed.
Lemma record_quiet s id o :
  pending_host_approvals (record_call_outcome s id o) = pending_host_approvals s ∧ cells (record_call_outcome s id o) = cells s.
Proof. apply (act_quiet s (mk_key [] [] 0) (RecordOutcome id o)). Qed.

Lemma inv_start s ts t r : ts !! t = None → Inv (mk_system s ts) → Inv (mk_system s (<[t := start r]> ts)).
Proof.
  intros Hn [Hp Ho Hu Hc Hw].
  assert (∀ t' task, ts !! t' = Some task → t' ≠ t) as Hne by congruence.
  split; cbn [service tasks] in *.
  - intros k p (t' & task & Ht' & ?)%Hp. exists t', task. rewrite lookup_insert_ne; [done|]. intros <-. by eapply Hne.
  - intros t' task p [[-> <-]|[? Ht']]%lookup_insert_Some; [done|by apply (Ho _ _ _ Ht')].
  - intros t1 task1 t2 task2 p [[-> <-]|[? H1]]%lookup_insert_Some [[-> <-]|[? H2]]%lookup_insert_Some; try done. by apply (Hu _ _ _ _ _ H1 H2).
  - intros p cell [(t' & task & Ht' & ?)|?]%Hc; [left|by right]. exists t', task. rewrite lookup_insert_ne; [done|]. intros <-. by eapply Hne.
  - intros t' task p [[-> <-]|[? Ht']]%lookup_insert_Some; [done|by apply (Hw _ _ _ Ht')].
Qed.
(** Dropping a request leaves everything where it was. *)
Lemma inv_dropped s ts t task : ts !! t = Some task → Inv (mk_system s ts) → Inv (mk_system s (<[t := mk_any_task (t_request task) (t_pc task) true]> ts)).
Proof.
  intros Ht [Hp Ho Hu Hc Hw]. set (task' := mk_any_task (t_request task) (t_pc task) true).
  assert (∀ t0 u, <[t := task']> ts !! t0 = Some u → ∃ u', ts !! t0 = Some u' ∧ t_pc u' = t_pc u ∧ task_key u' = task_key u) as Hback.
  { intros t0 u [[<- <-]|[_ ?]]%lookup_insert_Some; [by exists task|by exists u]. }
  assert (∀ t0 u', ts !! t0 = Some u' → ∃ u, <[t := task']> ts !! t0 = Some u ∧ t_pc u = t_pc u' ∧ task_key u = task_key u') as Hforth.
  { intros t0 u' Hu'. destruct (decide (t0 = t)) as [->|Hne]; [|exists u'; by rewrite lookup_insert_ne].
    rewrite Ht in Hu'. injection Hu' as <-. exists task'. by rewrite lookup_insert_eq. }
  split; cbn [service tasks] in *.
  - intros k p (t0 & u & (v & ? & E1 & E2)%Hforth & ? & ?)%Hp. exists t0, v. by rewrite E1, E2.
  - intros t0 u p (v & Hv & <- & <-)%Hback. by apply (Ho t0).
  - intros t1 u1 t2 u2 p (v1 & H1 & <- & _)%Hback (v2 & H2 & <- & _)%Hback. by apply (Hu t1 v1 t2 v2).
  - intros p cell [(t0 & u & (v & ? & E1 & _)%Hforth & ?)|?]%Hc; [left|by right]. exists t0, v. by rewrite E1.
  - intros t0 u p (v & Hv & <- & <-)%Hback. by apply (Hw t0).
Qed.
Lemma network_inv_step l y y' : step l y y' → Inv y → Inv y'.
Proof.
  intros []; intros I.
  - by apply inv_start.
  - by eapply inv_task.
  - by apply inv_dropped.
  - by eapply inv_service; [| |exact I].
  - by eapply inv_service; [| |exact I].
  - by eapply inv_service; [apply record_quiet|apply record_quiet|exact I].
  - by eapply inv_service; [| |exact I].
Qed.

(** The states of a session, with the keys that were approved on the way: by a
    hook, by a review, or in a session whose approvals are taken over. *)
Definition positive_answer (a : answer) : bool :=
  match a with HookAnswer (Some HookAllow) => true | ReviewAnswer d _ => approves d | _ => false end.
Definition grants (l : label) : gset HostApprovalKey :=
  match l with LTask key a => if positive_answer a then {[ key ]} else ∅ | LSync hosts => hosts | _ => ∅ end.
Inductive session : gset HostApprovalKey → System → Prop :=
| session_initial : session ∅ initial
| session_step g l y y' : session g y → step l y y' → session (g ∪ grants l) y'.

Lemma session_inv g y : session g y → Inv y.
Proof.
  induction 1 as [|g l y y' _ IH Hs]; [|by eapply network_inv_step]. by split.
Qed.

(** ** Lemmas: every request comes to an end *)
Definition act_weight (a : session_act) : nat := match a with RecordSingle _ => 2 | _ => 1 end.
Fixpoint acts_weight (l : list session_act) : nat := match l with [] => 0 | a :: l => act_weight a + acts_weight l end.
Definition undecided (s : Service) (p : nat) : bool :=
  match cells s !! p with Some cell => bool_decide (c_decision cell = None) | None => true end.
(** An upper bound of the steps that a request still takes by itself. *)
Definition weight (s : Service) (c : pc) : nat :=
  match c with
  | CheckDenied => 15
  | CheckApproved => 14
  | GetPending => 13
  | WaitRegister p => if undecided s p then 7 else 3
  | WaitCheck p _ => if undecided s p then 6 else 2
  | WaitSleep p _ => if undecided s p then 5 else 4
  | OwnerTurn _ => 12
  | OwnerCall _ _ => 11
  | OwnerHooks _ _ _ => 10
  | OwnerReview _ _ _ => 9
  | OwnerSession _ acts _ after => 5 + acts_weight acts + acts_weight after
  | OwnerSet _ _ after => 4 + acts_weight after
  | OwnerNotify _ _ after => 3 + acts_weight after
  | OwnerRemove _ _ after => 2 + acts_weight after
  | OwnerAfter acts _ => 1 + acts_weight acts
  | Finished _ => 0
  end.
Definition total (y : System) : nat :=
  sum_list_with (λ e, weight (service y) (t_pc e.2)) (map_to_list (tasks y)).

Lemma acts_weight_app a b : acts_weight (a ++ b) = acts_weight a + acts_weight b.
Proof. induction a as [|x a IH]; [done|]. cbn. rewrite IH. lia. Qed.
Lemma resolve_review_weight g call d m : acts_weight (resolve_review g call d m).1 ≤ 3.
Proof. unfold resolve_review, record_for. repeat case_match; cbn; lia. Qed.
Lemma act_step_weight s key a : acts_weight (act_step s key a).2 < act_weight a.
Proof. destruct a; cbn; try lia. repeat case_match; cbn; lia. Qed.

Lemma total_insert s ts t task : total (mk_system s (<[t := task]> ts)) = weight s (t_pc task) + total (mk_system s (delete t ts)).
Proof.
  unfold total. cbn [service tasks]. rewrite <- insert_delete_eq. rewrite map_to_list_insert by apply lookup_delete_eq. done.
Qed.
Lemma total_lookup s ts t task : ts !! t = Some task → total (mk_system s ts) = weight s (t_pc task) + total (mk_system s (delete t ts)).
Proof. intros Ht. unfold total. cbn [service tasks]. by rewrite <- (map_to_list_delete ts t task Ht). Qed.
Lemma total_mono s s' ts : (∀ c, weight s' c ≤ weight s c) → total (mk_system s' ts) ≤ total (mk_system s ts).
Proof.
  intros Hw. unfold total. cbn [service tasks]. induction (map_to_list ts) as [|e l IH]; [done|]. cbn. specialize (Hw (t_pc e.2)). lia.
Qed.

Lemma weight_mono s s' : (∀ p, undecided s' p = true → undecided s p = true) → ∀ c, weight s' c ≤ weight s c.
Proof.
  intros Hu c. destruct c as [| | |p|p e|p e| | | | | | | | | |]; cbn; try lia;
    specialize (Hu p); destruct (undecided s' p), (undecided s p); try lia; by specialize (Hu eq_refl).
Qed.
Lemma undecided_alter f p (cs : list Cell) (q : nat) :
  (∀ cell, c_decision (f cell) = None → c_decision cell = None) →
  match alter f p cs !! q with Some cell => bool_decide (c_decision cell = None) | None => true end = true →
  match cs !! q with Some cell => bool_decide (c_decision cell = None) | None => true end = true.
Proof.
  intros Hf. destruct (decide (p = q)) as [->|Hne]; [|by rewrite list_lookup_alter_ne].
  rewrite list_lookup_alter_eq. destruct (cs !! q) as [cell|]; [|done]. cbn. rewrite !bool_decide_eq_true. apply Hf.
Qed.

(** A task step makes no request's work longer, and the task's own shorter. *)
Lemma pc_step_decreases s r c a s' c' :
  (∀ p, waits c = Some p → ∃ cell, cells s !! p = Some cell ∧
     (c_epoch cell = 0 ∨ c_decision cell ≠ None) ∧ wait_ok c cell) →
  pc_step s r c a = Some (s', c') → weight s' c' < weight s c ∧ ∀ q, undecided s' q = true → undecided s q = true.
Proof.
  intros Hw Hs.
  destruct c as [| | |p|p e|p e|p|p turn|p turn call|p turn call|p [|act acts] d after|p d after|p d after|p d after|[|act acts] d|d], a as [|[turn'|]|[[|m]|]|rd m];
    cbn [pc_step] in Hs; try discriminate Hs.
  - injection Hs as <- <-. case_bool_decide; cbn; (split; [lia|done]).
  - injection Hs as <- <-. case_bool_decide; cbn; (split; [lia|done]).
  - unfold get_or_create_pending_approval in Hs. destruct (pending_host_approvals s !! from_request r) as [p|].
    + injection Hs as <- <-. cbn. split; [destruct (undecided s p); lia|done].
    + injection Hs as <- <-. split; [cbn; lia|]. intros q. unfold undecided. cbn [with_pending cells].
      destruct (cells s !! q) as [cell|] eqn:Hq; [|done]. by rewrite (lookup_app_l_Some _ _ _ _ Hq).
  - destruct (Hw p eq_refl) as (cell & Hl & _). rewrite Hl in Hs. injection Hs as <- <-. cbn. split; [destruct (undecided s p); lia|done].
  - destruct (Hw p eq_refl) as (cell & Hl & _). rewrite Hl in Hs. injection Hs as <- <-. split; [|done].
    cbn [weight]. unfold undecided. rewrite Hl. destruct (c_decision cell) eqn:Hd; cbn; [lia|]. unfold undecided. rewrite Hl, Hd. cbn. lia.
  - destruct (Hw p eq_refl) as (cell & Hl & He & Hok). rewrite Hl in Hs. cbn [mbind option_bind] in Hs. cbn in Hok. subst e.
    destruct (Nat.ltb_spec 0 (c_epoch cell)) as [Hlt|]; [|done]. injection Hs as <- <-. split; [|done]. cbn [weight]. unfold undecided. rewrite Hl.
    rewrite bool_decide_eq_false_2; [lia|]. destruct He; [lia|done].
  - injection Hs as <- <-. split; [|done]. repeat case_match; cbn; lia.
  - injection Hs as <- <-. split; [cbn; lia|done].
  - injection Hs as <- <-. split; [cbn; lia|done].
  - injection Hs as <- <-. split; [cbn; lia|done].
  - injection Hs as <- <-. split; [|done]. destruct call; cbn; lia.
  - injection Hs as <- <-. split; [cbn; lia|done].
  - pose proof (resolve_review_weight (routes_approval_to_guardian (turn_policy turn) (turn_auto_review turn)) call rd m) as Hr.
    destruct (resolve_review _ _ _ _) as [acts resolved]. injection Hs as <- <-. cbn in *. split; [lia|done].
  - injection Hs as <- <-. split; [cbn; lia|done].
  - pose proof (act_step_weight s (from_request r) act) as Ha. destruct (act_quiet s (from_request r) act) as [_ E].
    destruct (act_step s (from_request r) act) as [s1 more]. injection Hs as <- <-. cbn [fst snd] in *. split; [|unfold undecided; by rewrite E].
    cbn [weight]. rewrite acts_weight_app. cbn [acts_weight]. lia.
  - injection Hs as <- <-. split; [cbn; lia|]. intros q. unfold undecided. cbn. by apply undecided_alter.
  - injection Hs as <- <-. split; [cbn; lia|]. intros q. unfold undecided. cbn. by apply undecided_alter.
  - injection Hs as <- <-. split; [cbn; lia|done].
  - injection Hs as <- <-. split; [cbn; lia|done].
  - pose proof (act_step_weight s (from_request r) act) as Ha. destruct (act_quiet s (from_request r) act) as [_ E].
    destruct (act_step s (from_request r) act) as [s1 more]. injection Hs as <- <-. cbn [fst snd] in *. split; [|unfold undecided; by rewrite E].
    cbn [weight]. rewrite acts_weight_app. cbn [acts_weight]. lia.
Qed.

Lemma waiter_cell y t task p : Inv y → tasks y !! t = Some task → waits (t_pc task) = Some p →
  ∃ cell, cells (service y) !! p = Some cell ∧ (c_epoch cell = 0 ∨ c_decision cell ≠ None) ∧ wait_ok (t_pc task) cell.
Proof.
  intros I Ht Hp. destruct (inv_waiter y I t task p Ht Hp) as (cell & Hl & _ & Hok). exists cell. split_and!; [done| |done].
  destruct (c_decision cell) eqn:Hd; [by right|left]. by eapply inv_undecided.
Qed.
Lemma task_decreases key a y y' : Inv y → step (LTask key a) y y' → total y' < total y.
Proof.
  intros I Hs. inversion Hs as [|s ts t task a' s' c' Ht _ Hpc| | | | |]; subst. rewrite total_insert.
  destruct (pc_step_decreases _ _ _ _ _ _ (λ p, waiter_cell _ _ _ p I Ht) Hpc) as [Hlt Hu].
  pose proof (total_mono s s' (delete t ts) (weight_mono _ _ Hu)). rewrite (total_lookup s ts t task Ht).
  cbn [t_pc service] in *. lia.
Qed.
Lemma other_same l y y' : step l y y' → (match l with LTask _ _ | LRequest => False | _ => True end) → total y' = total y.
Proof.
  assert (∀ s s' ts, cells s' = cells s → total (mk_system s' ts) = total (mk_system s ts)) as Hx.
  { intros s s' ts Ec. apply Nat.le_antisymm; apply total_mono, weight_mono; intros p; unfold undecided; by rewrite Ec. }
  intros [| |s ts t task Ht| | | |] Hl; try done; [|apply Hx; try done; apply record_quiet..].
  by rewrite total_insert, (total_lookup s ts t task Ht).
Qed.

Lemma owner_steps s r c p : owns c = Some p → ∃ a s' c', pc_step s r c a = Some (s', c').
Proof.
  destruct c as [| | |q|q e|q e|q|q turn|q turn call|q turn call|q [|act acts] d after|q d after|q d after|q d after|acts d|d]; try done; intros _.
  - by eexists (TurnAnswer None), _, _.
  - by eexists NoAnswer, _, _.
  - by eexists (HookAnswer None), _, _.
  - exists (ReviewAnswer Denied []). cbn. by eexists _, _.
  - by eexists NoAnswer, _, _.
  - exists NoAnswer. cbn. destruct (act_step s (from_request r) act) as [s1 more]. by eexists _, _.
  - by eexists NoAnswer, _, _.
  - by eexists NoAnswer, _, _.
  - by eexists NoAnswer, _, _.
Qed.
(** A request waits for a question that was asked for its host, protocol and port by one that was dropped. *)
Definition abandoned (y : System) (task : Task) : Prop :=
  ∃ p t' task', waits (t_pc task) = Some p ∧ tasks y !! t' = Some task' ∧ t_dropped task' = true ∧ owns (t_pc task') = Some p ∧ task_key task' = task_key task.
Lemma unfinished_steps y t task :
  Inv y → tasks y !! t = Some task → t_dropped task = false → (∃ d, t_pc task = Finished d) ∨ abandoned y task ∨ ∃ key a y', step (LTask key a) y y'.
Proof.
  intros I Ht Hlive. destruct y as [s ts]. cbn [tasks] in Ht.
  assert ((∃ a s' c', pc_step s (t_request task) (t_pc task) a = Some (s', c')) → ∃ key a y', step (LTask key a) (mk_system s ts) y') as Hgo.
  { intros (a & s' & c' & Hs). eexists _, a, _. by eapply step_task. }
  pose proof (λ p, waiter_cell _ t task p I Ht) as Hw. destruct (owns (t_pc task)) as [p|] eqn:Hown.
  { right; right. by eapply Hgo, owner_steps. }
  destruct task as [r c dr]. cbn [t_request t_pc t_dropped service] in *.
  destruct c as [| | |p|p e|p e| | | | | | | | |[|act acts] d|d]; try discriminate Hown; try (right; right; apply Hgo; by eexists NoAnswer, _, _).
  - right; right. apply Hgo. exists NoAnswer. cbn. destruct (get_or_create_pending_approval s (from_request r)) as [[s1 p] o]. by eexists _, _.
  - right; right. apply Hgo. destruct (Hw p eq_refl) as (cell & Hl & _). exists NoAnswer. cbn. rewrite Hl. by eexists _, _.
  - right; right. apply Hgo. destruct (Hw p eq_refl) as (cell & Hl & _). exists NoAnswer. cbn. rewrite Hl. by eexists _, _.
  - right. destruct (Hw p eq_refl) as (cell & Hl & He & Hok). cbn in Hok. subst e. destruct (decide (c_epoch cell = 0)) as [H0|H0].
    + destruct (inv_cell _ I p cell Hl) as [(t' & task' & Ht' & Ho')|[H1 _]]; [|congruence].
      destruct (t_dropped task') eqn:Hd; [left|right].
      * exists p, t', task'. split_and!; try done. destruct (inv_owner _ I _ _ _ Ht' Ho') as [_ Hc']. destruct (inv_waiter _ I _ _ p Ht eq_refl) as (cell' & Hl' & Hk & _).
        cbn [service] in Hc', Hl'. rewrite Hc' in Hl'. by injection Hl' as <-.
      * destruct (owner_steps s (t_request task') _ _ Ho') as (a & s' & c' & Hs). eexists _, a, _. by eapply step_task.
    + right. apply Hgo. exists NoAnswer. cbn [pc_step]. rewrite Hl. cbn [mbind option_bind].
      destruct (Nat.ltb_spec 0 (c_epoch cell)); [by eexists _, _|lia].
  - right; right. apply Hgo. exists NoAnswer. cbn. destruct (act_step s (from_request r) act) as [s1 more]. by eexists _, _.
  - left. by exists d.
Qed.

(** [n] steps of requests, whatever the other parts of the session do meanwhile. *)
Inductive working : nat → System → System → Prop :=
| working_refl y : working 0 y y
| working_task n y y1 y2 key a : step (LTask key a) y y1 → working n y1 y2 → working (S n) y y2
| working_other n y y1 y2 l :
    (match l with LTask _ _ | LRequest => False | _ => True end) → step l y y1 → working n y1 y2 → working n y y2.
Lemma working_bound n y y' : working n y y' → Inv y → n + total y' ≤ total y ∧ Inv y'.
Proof.
  induction 1 as [y|n y y1 y2 key a Hs _ IH|n y y1 y2 l Hl Hs _ IH]; intros I; [by split|..].
  - pose proof (task_decreases _ _ _ _ I Hs). destruct (IH (network_inv_step _ _ _ Hs I)). split; [lia|done].
  - pose proof (other_same _ _ _ Hs Hl) as E. destruct (IH (network_inv_step _ _ _ Hs I)). split; [lia|done].
Qed.

(** ** Lemmas: what an allowed request rests on *)
(** The keys that may be let through, by an answer or by another session. *)
Definition decides (c : pc) : option (PendingApprovalDecision * list session_act) :=
  match c with
  | OwnerSession _ acts d after => Some (d, acts ++ after)
  | OwnerSet _ d after | OwnerNotify _ d after | OwnerRemove _ d after | OwnerAfter after d => Some (d, after)
  | _ => None
  end.
Definition asked_under (c : pc) : option Turn :=
  match c with OwnerCall _ turn | OwnerHooks _ turn _ | OwnerReview _ turn _ => Some turn | _ => None end.
Record task_ok (g : gset HostApprovalKey) (key : HostApprovalKey) (c : pc) : Prop := {
  ok_decides d acts : decides c = Some (d, acts) → d ≠ DenyPending ∨ InsertApproved ∈ acts → key ∈ g;
  ok_allowed : c = Finished NdAllow → key ∈ g;
  ok_asked turn : asked_under c = Some turn → profile_allows_network_approval_flow (turn_profile turn) = true ∧ turn_policy turn ≠ Never }.
Record Safe (g : gset HostApprovalKey) (y : System) : Prop := {
  safe_approved : session_approved_hosts (service y) ⊆ g;
  safe_cell p cell d : cells (service y) !! p = Some cell → c_decision cell = Some d → d ≠ DenyPending → c_key cell ∈ g;
  safe_task t task : tasks y !! t = Some task → task_ok g (task_key task) (t_pc task) }.

Lemma act_safe g s key a :
  session_approved_hosts s ⊆ g → (a = InsertApproved → key ∈ g) → session_approved_hosts (act_step s key a).1 ⊆ g.
Proof.
  intros Hs Ha. destruct a; cbn; try set_solver.
  unfold record_call_outcome. repeat case_match; cbn; done.
Qed.
Lemma act_more s key a : InsertApproved ∉ (act_step s key a).2.
Proof. destruct a; cbn; try apply not_elem_of_nil. repeat case_match; set_solver. Qed.
Lemma resolve_review_ok guardian call d m :
  approves d = false → (resolve_review guardian call d m).2 = DenyPending ∧ InsertApproved ∉ (resolve_review guardian call d m).1.
Proof.
  unfold resolve_review, record_for. destruct d as [| | |am| | |]; cbn; try done; [destruct (npa_action am); cbn; [done|]| | |];
    intros _; (split; [done|]); destruct call; cbn; set_solver.
Qed.

Lemma task_ok_same g g' key c c' :
  task_ok g key c → g ⊆ g' → decides c' = decides c → asked_under c' = asked_under c → c' ≠ Finished NdAllow → task_ok g' key c'.
Proof. intros [H1 _ H3] Hg Hd Ha Hf. split; [|done|by rewrite Ha]. intros d acts. rewrite Hd. intros Hx ?. by apply Hg, (H1 d acts). Qed.
Lemma task_ok_weaken g g' key c : task_ok g key c → g ⊆ g' → task_ok g' key c.
Proof. intros [H1 H2 H3] Hg. split; [|intros ?; by apply Hg, H2|done]. intros d acts Hd Hx. by apply Hg, (H1 d acts). Qed.
(** Nothing is decided yet. *)
Lemma task_ok_open g key c : decides c = None → c ≠ Finished NdAllow → asked_under c = None → task_ok g key c.
Proof. intros Hd Hf Ha. split; [by rewrite Hd|done|by rewrite Ha]. Qed.
Lemma task_ok_decides g key c d acts :
  decides c = Some (d, acts) → (d ≠ DenyPending ∨ InsertApproved ∈ acts → key ∈ g) → task_ok g key c.
Proof.
  intros Hd Hx. split.
  - rewrite Hd. by intros d' acts' [= <- <-].
  - by intros ->.
  - by destruct c.
Qed.
Lemma deny_not_allowed reason : deny reason ≠ NdAllow. Proof. done. Qed.

Lemma safe_pc_step g s ts t r c a s' c' :
  Inv (mk_system s ts) → Safe g (mk_system s ts) → ts !! t = Some (mk_task r c) → pc_step s r c a = Some (s', c') →
  let g' := g ∪ grants (LTask (from_request r) a) in
  session_approved_hosts s' ⊆ g' ∧
  (∀ p cell d, cells s' !! p = Some cell → c_decision cell = Some d → d ≠ DenyPending → c_key cell ∈ g') ∧
  task_ok g' (from_request r) c'.
Proof.
  intros I [Ha Hc Ht] Hl Hs. cbn zeta. set (g' := g ∪ grants (LTask (from_request r) a)).
  assert (g ⊆ g') as Hg by set_solver. pose proof (Ht _ _ Hl) as Hok. unfold task_key in Hok. cbn [t_pc t_request service tasks] in *.
  assert (∀ p cell d, cells s !! p = Some cell → c_decision cell = Some d → d ≠ DenyPending → c_key cell ∈ g') as Hc' by eauto.
  assert (session_approved_hosts s ⊆ g') as Ha' by set_solver.
  pose proof (λ p, inv_waiter _ I t _ p Hl) as Hw. cbn [t_pc service] in Hw.
  assert (positive_answer a = true → from_request r ∈ g') as Hpos.
  { intros Hp. unfold g'. cbn. rewrite Hp. set_solver. }
  destruct c as [| | |p|p e|p e|p|p turn|p turn call|p turn call|p [|act acts] d after|p d after|p d after|p d after|[|act acts] d|d], a as [|[turn'|]|[[|m]|]|rd m];
    cbn [pc_step] in Hs; try discriminate Hs.
  - injection Hs as <- <-. split_and!; [done|done|]. case_bool_decide; by apply task_ok_open.
  - injection Hs as <- <-. split_and!; [done|done|]. case_bool_decide; [|by apply task_ok_open].
    split; [done|intros _; set_solver|done].
  - unfold get_or_create_pending_approval in Hs. destruct (pending_host_approvals s !! from_request r) as [p|]; injection Hs as <- <-.
    + split_and!; [done|done|by apply task_ok_open].
    + split_and!; [done| |by apply task_ok_open]. intros p cell d [Hp|[_ Hp]]%lookup_app_Some; [by apply (Hc' p)|].
      apply list_lookup_singleton_Some in Hp as [_ <-]. done.
  - destruct (Hw p eq_refl) as (cell & Hcl & _). rewrite Hcl in Hs. injection Hs as <- <-. split_and!; [done|done|by apply task_ok_open].
  - destruct (Hw p eq_refl) as (cell & Hcl & Hk & _). rewrite Hcl in Hs. injection Hs as <- <-. split_and!; [done|done|].
    destruct (c_decision cell) as [d|] eqn:Hd; [|by apply task_ok_open].
    split; [done| |done]. intros [= Hd']. change (c_key cell = from_request r) in Hk. rewrite <- Hk. apply (Hc' p cell d Hcl Hd). by intros ->.
  - destruct (Hw p eq_refl) as (cell & Hcl & _). rewrite Hcl in Hs. cbn [mbind option_bind] in Hs. destruct (e <? c_epoch cell); [|done].
    injection Hs as <- <-. split_and!; [done|done|by apply task_ok_open].
  - injection Hs as <- <-. split_and!; [done|done|].
    assert (task_ok g' (from_request r) (refuse r p)) as Hrefuse.
    { eapply task_ok_decides; [done|]. intros [?|Hx%list_elem_of_singleton]; done. }
    destruct (profile_allows_network_approval_flow (turn_profile turn')) eqn:H1; [|exact Hrefuse].
    destruct (allows_network_approval_flow (turn_policy turn')) eqn:H2; [|exact Hrefuse]. cbn.
    split; [done|done|]. intros turn [= <-]. split; [done|]. unfold allows_network_approval_flow in H2.
    apply negb_true_iff, bool_decide_eq_false in H2. done.
  - injection Hs as <- <-. split_and!; [done|done|]. eapply task_ok_decides; [done|]. intros [?|Hx%list_elem_of_singleton]; done.
  - injection Hs as <- <-. split_and!; [done|done|by eapply task_ok_same].
  - injection Hs as <- <-. split_and!; [done|done|]. eapply task_ok_decides; [done|]. intros _. by apply Hpos.
  - injection Hs as <- <-. split_and!; [done|done|]. eapply task_ok_decides; [done|]. intros [?|Hx]; [done|].
    rewrite app_nil_r in Hx. destruct call; [by apply list_elem_of_singleton in Hx|by apply elem_of_nil in Hx].
  - injection Hs as <- <-. split_and!; [done|done|by eapply task_ok_same].
  - pose proof (resolve_review_ok (routes_approval_to_guardian (turn_policy turn) (turn_auto_review turn)) call rd m) as Hr.
    destruct (resolve_review _ _ _ _) as [acts resolved]. injection Hs as <- <-. split_and!; [done|done|].
    eapply task_ok_decides; [done|]. rewrite app_nil_r. intros Hx. destruct (approves rd) eqn:Hap; [by apply Hpos|].
    destruct (Hr eq_refl) as [Hd Hn]. cbn in Hd, Hn. naive_solver.
  - injection Hs as <- <-. split_and!; [done|done|by eapply task_ok_same].
  - pose proof (act_more s (from_request r) act) as Hm.
    destruct (act_quiet s (from_request r) act) as [_ E]. destruct Hok as [Hok _ _]. specialize (Hok d _ eq_refl).
    assert (session_approved_hosts (act_step s (from_request r) act).1 ⊆ g') as Has.
    { apply act_safe; [done|]. intros ->. apply Hg, Hok. right. by left. }
    destruct (act_step s (from_request r) act) as [s1 more] eqn:Hact. injection Hs as <- <-. cbn [fst snd] in *. split_and!.
    + exact Has.
    + intros p0 cell d0. rewrite E. apply Hc'.
    + eapply task_ok_decides; [done|]. intros Hx. apply Hg, Hok. destruct Hx as [?|Hx]; [by left|]. right.
      rewrite !elem_of_app in Hx. cbn. apply elem_of_cons. right. apply elem_of_app. naive_solver.
  - injection Hs as <- <-. split_and!; [done| |by eapply task_ok_same].
    intros q cell d'. cbn. destruct (decide (q = p)) as [->|Hne]; [|rewrite list_lookup_alter_ne by done; apply Hc'].
    rewrite list_lookup_alter_eq. destruct (inv_owner _ I t _ p Hl eq_refl) as [_ Hcell]. cbn in Hcell. rewrite Hcell.
    intros [= <-] [= <-] Hd. cbn. apply Hg. destruct Hok as [Hok _ _]. apply (Hok d _ eq_refl). by left.
  - injection Hs as <- <-. split_and!; [done| |by eapply task_ok_same].
    intros q cell d'. cbn. destruct (decide (q = p)) as [->|Hne]; [|rewrite list_lookup_alter_ne by done; apply Hc'].
    rewrite list_lookup_alter_eq. destruct (cells s !! p) as [old|] eqn:Hold; [|done]. intros [= <-] Hd. by apply (Hc' p old).
  - injection Hs as <- <-. split_and!; [done|done|by eapply task_ok_same].
  - injection Hs as <- <-. split_and!; [done|done|]. destruct Hok as [Hok _ _]. specialize (Hok d _ eq_refl).
    split; [done| |done]. intros [= Hd]. apply Hg, Hok. left. by intros ->.
  - pose proof (act_more s (from_request r) act) as Hm.
    destruct (act_quiet s (from_request r) act) as [_ E]. destruct Hok as [Hok _ _]. specialize (Hok d _ eq_refl).
    assert (session_approved_hosts (act_step s (from_request r) act).1 ⊆ g') as Has.
    { apply act_safe; [done|]. intros ->. apply Hg, Hok. right. by left. }
    destruct (act_step s (from_request r) act) as [s1 more] eqn:Hact. injection Hs as <- <-. cbn [fst snd] in *. split_and!.
    + exact Has.
    + intros p0 cell d0. rewrite E. apply Hc'.
    + eapply task_ok_decides; [done|]. intros Hx. apply Hg, Hok. destruct Hx as [?|Hx]; [by left|]. right.
      rewrite elem_of_app in Hx. apply elem_of_cons. right. naive_solver.
Qed.

Lemma safe_service g g' s ts s' :
  cells s' = cells s → session_approved_hosts s' ⊆ g' → g ⊆ g' → Safe g (mk_system s ts) → Safe g' (mk_system s' ts).
Proof.
  intros Ec Ea Hg [_ Hc Ht]. split; cbn [service tasks] in *; [exact Ea| |].
  - intros p cell d. rewrite Ec. intros H1 H2 H3. by apply Hg, (Hc p cell d).
  - intros t task Hl. eapply task_ok_weaken; [by apply (Ht t)|done].
Qed.
Lemma record_approved s id o : session_approved_hosts (record_call_outcome s id o) = session_approved_hosts s.
Proof. unfold record_call_outcome. by repeat case_match. Qed.
Lemma session_safe g y : session g y → Safe g y.
Proof.
  induction 1 as [|g l y y' Hy IH Hs]; [by split|].
  assert (g ⊆ g ∪ grants l) as Hg by apply union_subseteq_l.
  pose proof (session_inv _ _ Hy) as I. destruct Hs as [s ts t r Hn|s ts t [r c dr] a s' c' Hl Hd Hpc|s ts t task Hl _ _|s ts id call|s ts id|s ts id o|s ts other].
  - destruct IH as [Ha Hc Ht]. split; cbn [service tasks] in *; [by etrans| |].
    + intros p cell d H1 H2 H3. by apply Hg, (Hc p cell d).
    + intros t' task [[-> <-]|[? Ht']]%lookup_insert_Some; [by apply task_ok_open|]. eapply task_ok_weaken; [by apply (Ht t')|done].
  - cbn in Hd. subst dr. destruct (safe_pc_step _ _ _ _ _ _ _ _ _ I IH Hl Hpc) as (H1 & H2 & H3). destruct IH as [_ _ Ht]. split; cbn [service tasks] in *.
    + exact H1.
    + exact H2.
    + intros t' task [[-> <-]|[? Ht']]%lookup_insert_Some; [exact H3|]. eapply task_ok_weaken; [by apply (Ht t')|done].
  - destruct IH as [Ha Hc Ht]. split; cbn [service tasks] in *; [by etrans| |].
    + intros p cell d H1 H2 H3. by apply Hg, (Hc p cell d).
    + intros t' u Hu. eapply task_ok_weaken; [|exact Hg]. apply lookup_insert_Some in Hu as [[-> <-]|[_ Hu]]; [exact (Ht _ _ Hl)|by apply (Ht t')].
  - apply (safe_service g _ s ts); [done| |exact Hg|exact IH]. cbn. etrans; [apply (safe_approved _ _ IH)|exact Hg].
  - apply (safe_service g _ s ts); [done| |exact Hg|exact IH]. cbn. etrans; [apply (safe_approved _ _ IH)|exact Hg].
  - apply (safe_service g _ s ts); [apply record_quiet| |exact Hg|exact IH]. rewrite record_approved.
    etrans; [apply (safe_approved _ _ IH)|exact Hg].
  - apply (safe_service g _ s ts); [done| |exact Hg|exact IH]. apply union_subseteq_r.
Qed.

(** ** Runs *)
(** What happens next in a run: a request arrives, one goes on with an answer, or one is dropped. *)
Inductive event := ERequest (t : nat) (r : NetworkPolicyRequest) | EGo (t : nat) (a : answer) | EDrop (t : nat).
Definition perform (gy : gset HostApprovalKey * System) (e : event) : option (gset HostApprovalKey * System) :=
  let '(g, y) := gy in
  match e with
  | ERequest t r =>
      match tasks y !! t with None => Some (g, mk_system (service y) (<[t := start r]> (tasks y))) | Some _ => None end
  | EGo t a =>
      task ← tasks y !! t;
      if t_dropped task then None
      else
        '(s, c) ← pc_step (service y) (t_request task) (t_pc task) a;
        Some (g ∪ grants (LTask (task_key task) a), mk_system s (<[t := mk_task (t_request task) c]> (tasks y)))
  | EDrop t =>
      task ← tasks y !! t;
      if t_dropped task || negb (droppable (t_pc task)) then None
      else Some (g, mk_system (service y) (<[t := mk_any_task (t_request task) (t_pc task) true]> (tasks y)))
  end.
Fixpoint perform_all (gy : gset HostApprovalKey * System) (l : list event) : option (gset HostApprovalKey * System) :=
  match l with [] => Some gy | e :: l => gy ← perform gy e; perform_all gy l end.
Lemma perform_session g y e g' y' : session g y → perform (g, y) e = Some (g', y') → session g' y'.
Proof.
  intros Hs. destruct y as [s ts], e as [t r|t a|t]; cbn [perform tasks service].
  - destruct (ts !! t) as [|] eqn:Ht; [done|]. intros [= <- <-].
    rewrite <- (union_empty_r_L g). apply (session_step g LRequest _ _ Hs). by constructor.
  - destruct (ts !! t) as [task|] eqn:Ht; [|done]. cbn [mbind option_bind].
    destruct (t_dropped task) eqn:Hd; [done|]. destruct (pc_step _ _ _ _) as [[s' c]|] eqn:Hp; [|done]. cbn [mbind option_bind]. intros [= <- <-].
    apply (session_step g (LTask (task_key task) a) _ _ Hs). by eapply step_task.
  - destruct (ts !! t) as [task|] eqn:Ht; [|done]. cbn [mbind option_bind]. destruct (t_dropped task || _) eqn:Hd; [done|]. intros [= <- <-].
    apply orb_false_iff in Hd as [Hd Hdr%negb_false_iff]. rewrite <- (union_empty_r_L g). apply (session_step g LDrop _ _ Hs). by constructor.
Qed.
Lemma perform_all_session l : ∀ g y g' y', session g y → perform_all (g, y) l = Some (g', y') → session g' y'.
Proof.
  induction l as [|e l IH]; intros g y g' y' Hs; cbn [perform_all].
  - by intros [= <- <-].
  - destruct (perform (g, y) e) as [[g1 y1]|] eqn:Hp; [|done]. cbn [mbind option_bind]. apply IH. by eapply perform_session.
Qed.

(** ** A request that is dropped *)
(** A question that nobody will answer: the request that owns it is not running. *)
Record orphan (key : HostApprovalKey) (p : nat) (y : System) : Prop := {
  orphan_pending : pending_host_approvals (service y) !! key = Some p;
  orphan_cell : cells (service y) !! p = Some (mk_cell None 0 key);
  orphan_owner t task q : tasks y !! t = Some task → t_dropped task = false → owns (t_pc task) = Some q → task_key task ≠ key ∧ q ≠ p }.
Lemma orphan_pc s r c a s' c' key p :
  pending_host_approvals s !! key = Some p → cells s !! p = Some (mk_cell None 0 key) →
  (∀ q, owns c = Some q → from_request r ≠ key ∧ q ≠ p) → pc_step s r c a = Some (s', c') →
  pending_host_approvals s' !! key = Some p ∧ cells s' !! p = Some (mk_cell None 0 key) ∧
  (∀ q, owns c' = Some q → from_request r ≠ key ∧ q ≠ p) ∧ (waits c = Some p → waits c' = Some p).
Proof.
  intros Hp Hc Ho Hs.
  destruct c as [| | |q|q e|q e|q|q turn|q turn call|q turn call|q [|act acts] d after|q d after|q d after|q d after|[|act acts] d|d],
    a as [|[turn'|]|[[|m]|]|rd m]; cbn [pc_step] in Hs; try discriminate Hs;
    try (injection Hs as <- <-; split_and!; [done|done|by (case_bool_decide || idtac)|done]).
  - unfold get_or_create_pending_approval in Hs. destruct (pending_host_approvals s !! from_request r) as [q|] eqn:Hq; injection Hs as <- <-; [done|].
    assert (from_request r ≠ key) as Hne by congruence. cbn [with_pending pending_host_approvals cells owns].
    rewrite lookup_insert_ne by done. split_and!; [done|by apply lookup_app_l_Some| |done]. intros q [= <-]. split; [done|].
    apply lookup_lt_Some in Hc. lia.
  - destruct (cells s !! q) as [cell|] eqn:Hq; [|done]. by injection Hs as <- <-.
  - destruct (cells s !! q) as [cell|] eqn:Hq; [|done]. injection Hs as <- <-. split_and!; [done|done|by destruct (c_decision cell)|].
    intros [= ->]. rewrite Hc in Hq. by injection Hq as <-.
  - destruct (cells s !! q) as [cell|] eqn:Hq; [|done]. cbn [mbind option_bind] in Hs. destruct (e <? c_epoch cell); [|done]. by injection Hs as <- <-.
  - injection Hs as <- <-. split_and!; [done|done| |done]. intros q'. repeat case_match; apply Ho.
  - destruct (resolve_review _ _ _ _) as [acts resolved]. by injection Hs as <- <-.
  - destruct (act_quiet s (from_request r) act) as [E1 E2]. destruct (act_step s (from_request r) act) as [s1 more].
    injection Hs as <- <-. cbn [fst] in *. by rewrite E1, E2.
  - injection Hs as <- <-. destruct (Ho q eq_refl) as [_ Hne]. cbn. by rewrite list_lookup_alter_ne.
  - injection Hs as <- <-. destruct (Ho q eq_refl) as [_ Hne]. cbn. by rewrite list_lookup_alter_ne.
  - injection Hs as <- <-. destruct (Ho q eq_refl) as [Hne _]. cbn. by rewrite lookup_delete_ne.
  - destruct (act_quiet s (from_request r) act) as [E1 E2]. destruct (act_step s (from_request r) act) as [s1 more].
    injection Hs as <- <-. cbn [fst] in *. by rewrite E1, E2.
Qed.
Definition waits_on (p : nat) (t : nat) (y : System) : Prop := ∃ task, tasks y !! t = Some task ∧ waits (t_pc task) = Some p.
Lemma orphan_step key p l y y' : step l y y' → orphan key p y → orphan key p y' ∧ ∀ t, waits_on p t y → waits_on p t y'.
Proof.
  intros Hs [Hp Hc Ho].
  assert (∀ s s' ts, y = mk_system s ts → y' = mk_system s' ts → pending_host_approvals s' = pending_host_approvals s →
    cells s' = cells s → orphan key p y' ∧ ∀ t, waits_on p t y → waits_on p t y') as Hq.
  { intros s s' ts -> -> Ep Ec. split; [|done]. split; cbn [service tasks] in *; [by rewrite Ep|by rewrite Ec|done]. }
  destruct Hs as [s ts t r Hn|s ts t [r c dr] a s' c' Hl Hd Hpc|s ts t u Hl _ _|s ts id call|s ts id|s ts id o|s ts other];
    try (by eapply Hq); [| | |by eapply Hq; try apply record_quiet]; cbn [service tasks t_request t_pc t_dropped] in *.
  - split; [split; [done|done|]|].
    + cbn [tasks]. intros t' task q [[-> <-]|[? Ht]]%lookup_insert_Some; [done|]. by apply (Ho t').
    + intros t' (task & Ht & ?). exists task. cbn [tasks] in *. rewrite lookup_insert_ne; [done|congruence].
  - destruct (orphan_pc _ _ _ _ _ _ key p Hp Hc (λ q, Ho t _ q Hl Hd) Hpc) as (H1 & H2 & H3 & H4). split; [split; [done|done|]|].
    + cbn [tasks]. intros t' task q [[-> <-]|[? Ht]]%lookup_insert_Some; [intros _; apply H3|]. by apply (Ho t').
    + intros t' (task & Ht & Hw). cbn [tasks] in Ht. destruct (decide (t' = t)) as [->|Hne].
      * rewrite Hl in Ht. injection Ht as <-. eexists. cbn [tasks]. rewrite lookup_insert_eq. split; [done|by apply H4].
      * exists task. cbn [tasks]. by rewrite lookup_insert_ne.
  - split; [split; [done|done|]|].
    + cbn [tasks]. intros t' task q [[-> <-]|[? Ht]]%lookup_insert_Some; [done|]. by apply (Ho t').
    + intros t' (task & Ht & Hw). cbn [tasks] in Ht. destruct (decide (t' = t)) as [->|Hne].
      * rewrite Hl in Ht. injection Ht as ->. eexists. cbn [tasks]. by rewrite lookup_insert_eq.
      * exists task. cbn [tasks]. by rewrite lookup_insert_ne.
Qed.
(** When the request that owns a question is dropped before it is answered, the
    question stays for the rest of the session: whatever happens after, its
    waiters wait on, and every later request for the same host, protocol
    and port joins them. *)
Lemma dropped_owner_blocks_the_host g y t task p ys :
  session g y → tasks y !! t = Some task → t_dropped task = true → owns (t_pc task) = Some p → expected (t_pc task) = (None, 0) →
  rtc (λ y1 y2, ∃ l, step l y1 y2) y ys →
  pending_host_approvals (service ys) !! task_key task = Some p ∧
  cells (service ys) !! p = Some (mk_cell None 0 (task_key task)) ∧
  ∀ t', waits_on p t' y → waits_on p t' ys.
Proof.
  intros Hs Ht Hd Hown He Hrtc. pose proof (session_inv _ _ Hs) as I.
  destruct (inv_owner _ I _ _ _ Ht Hown) as [Hp Hc]. rewrite He in Hc.
  assert (orphan (task_key task) p y) as Horph.
  { split; [exact Hp|exact Hc|]. intros t' task' q Ht' Hlive Hq.
    assert (t' ≠ t) as Hne by congruence. assert (q ≠ p) by (intros ->; apply Hne; by eapply (inv_unique _ I)). split; [|done]. intros Hk.
    destruct (inv_owner _ I _ _ _ Ht' Hq) as [Hp' _]. rewrite Hk in Hp'. congruence. }
  assert (orphan (task_key task) p ys ∧ ∀ t', waits_on p t' y → waits_on p t' ys) as [[H1 H2 _] H3]; [|by eauto].
  clear -Hrtc Horph. induction Hrtc as [|y1 y2 y3 [l Hl] _ IH]; [done|].
  destruct (orphan_step _ _ _ _ _ Hl Horph) as [Ho Hw]. destruct (IH Ho) as [? ?]. eauto.
Qed.

(** ** Properties *)

(** C29: a request that the policy does not allow is let through only on
    somebody's word: for its host, protocol and port a hook said yes, a
    review approved, or the approval was taken over from another session.
    The same holds for the hosts remembered for the session.  Nobody is asked
    while the profile has no managed sandbox or the approval policy is to never ask,
    and nobody is asked twice at a time about the same host, protocol and port. *)
Theorem allowed_requests_were_approved (g : gset HostApprovalKey) (y : System) :
  session g y →
  (∀ t task, tasks y !! t = Some task → t_pc task = Finished NdAllow → task_key task ∈ g) ∧
  session_approved_hosts (service y) ⊆ g ∧
  (∀ t task turn, tasks y !! t = Some task → asked_under (t_pc task) = Some turn →
     profile_allows_network_approval_flow (turn_profile turn) = true ∧ turn_policy turn ≠ Never) ∧
  (∀ t1 task1 turn1 t2 task2 turn2, tasks y !! t1 = Some task1 → tasks y !! t2 = Some task2 →
     asked_under (t_pc task1) = Some turn1 → asked_under (t_pc task2) = Some turn2 →
     task_key task1 = task_key task2 → t1 = t2).
Proof.
  intros Hs. destruct (session_safe _ _ Hs) as [Ha _ Ht]. pose proof (session_inv _ _ Hs) as I. split_and!.
  - intros t task Hl Hf. by eapply ok_allowed; [apply (Ht t)|].
  - exact Ha.
  - intros t task turn Hl Hturn. by eapply ok_asked; [apply (Ht t)|].
  - intros t1 task1 turn1 t2 task2 turn2 H1 H2 A1 A2 Hk.
    assert (∀ c turn, asked_under c = Some turn → is_Some (owns c)) as Hown by (intros []; try done; intros; by eexists).
    destruct (Hown _ _ A1) as [p1 O1], (Hown _ _ A2) as [p2 O2].
    destruct (inv_owner _ I _ _ _ H1 O1) as [L1 _], (inv_owner _ I _ _ _ H2 O2) as [L2 _].
    rewrite Hk, L2 in L1. injection L1 as ->. by eapply (inv_unique _ I).
Qed.

(** C30: every request is decided, unless it or the one it waits for is dropped.  From any state of a
    session the requests take no more steps than a number known in advance, whatever the order,
    whatever requests are dropped and whatever the calls of the session do in between; and when none can go on (the
    answers that are asked for do come), every request that was not dropped is decided, except for
    one that waits for a question whose owner was dropped: nobody else waits for a wake-up that
    does not come.  So if no owner of a question was dropped, all are decided.  (The exception is real, and
    such a question is never answered: [dropped_owner_blocks_the_host].) *)
Theorem every_request_is_decided (g : gset HostApprovalKey) (y : System) :
  session g y →
  ∀ n y', working n y y' →
    n ≤ total y ∧
    ((¬ ∃ key a y'', step (LTask key a) y' y'') → ∀ t task, tasks y' !! t = Some task → t_dropped task = false →
       (∃ d, t_pc task = Finished d) ∨ abandoned y' task).
Proof.
  intros Hs n y' Hw. destruct (working_bound _ _ _ Hw (session_inv _ _ Hs)) as [Hb I]. split; [lia|].
  intros Hno t task Ht Hd. destruct (unfinished_steps _ _ _ I Ht Hd) as [?|[?|?]]; [by left|by right|]. by destruct Hno.
Qed.

(** ** Witnesses *)
Definition sample_request (host : string) : NetworkPolicyRequest := mk_request NpHttpsConnect (lit host) 443.
Definition sample_turn : Turn := mk_turn profile_default OnRequest false.
Definition go (t n : nat) : list event := repeat (EGo t NoAnswer) n.
(** Two requests for a host; the second waits while the first asks the user,
    who approves the host for the session.  Then both are let through. *)
Definition sample_question : list event :=
  [ERequest 0 (sample_request "Example.com"); ERequest 1 (sample_request "example.com")] ++ go 0 3 ++ go 1 5
  ++ [EGo 0 (TurnAnswer (Some sample_turn)); EGo 0 NoAnswer; EGo 0 (HookAnswer None)].
Definition sample_answer (d : ReviewDecision) : list event :=
  sample_question ++ [EGo 0 (ReviewAnswer d [])] ++ go 0 (match d with ApprovedForSession => 2 | _ => 0 end) ++ go 0 5 ++ go 1 3.
Definition state_of (t : nat) (y : System) : option pc := t_pc <$> tasks y !! t.
Definition finished_with (d : NetworkDecision) (t : nat) (y : System) : bool :=
  match state_of t y with Some (Finished d') => bool_decide (d' = d) | _ => false end.

Example approval_for_the_session_serves_both :
  match perform_all (∅, initial) (sample_answer ApprovedForSession) with
  | Some (g, y) => finished_with NdAllow 0 y && finished_with NdAllow 1 y
      && bool_decide (elements (session_approved_hosts (service y)) = [from_request (sample_request "example.com")])
  | None => false
  end = true.
Proof. vm_compute. reflexivity. Qed.
Example denial_serves_both :
  match perform_all (∅, initial) (sample_answer Denied) with
  | Some (g, y) => finished_with (deny REASON_NOT_ALLOWED) 0 y && finished_with (deny REASON_NOT_ALLOWED) 1 y
      && bool_decide (g = ∅)
  | None => false
  end = true.
Proof. vm_compute. reflexivity. Qed.

Lemma allowed_requests_were_approved_witness :
  match perform_all (∅, initial) (sample_answer ApprovedForSession) with
  | Some (g, y) => ∃ task, tasks y !! 1 = Some task ∧ t_pc task = Finished NdAllow ∧ task_key task ∈ g
  | None => False
  end.
Proof.
  pose proof approval_for_the_session_serves_both as H.
  destruct (perform_all (∅, initial) (sample_answer ApprovedForSession)) as [[g y]|] eqn:E; [|discriminate H].
  apply perform_all_session in E; [|apply session_initial].
  apply andb_prop in H as [[_ H]%andb_prop _]. unfold finished_with, state_of in H.
  destruct (tasks y !! 1) as [task|] eqn:Ht; [|discriminate H]. cbn in H. destruct (t_pc task) as [| | | | | | | | | | | | | | |d] eqn:Hf; try discriminate H.
  apply bool_decide_eq_true in H. subst d. exists task. split; [reflexivity|]. split; [exact Hf|].
  exact (proj1 (allowed_requests_were_approved g y E) 1 task Ht Hf).
Defined.

(** No request can go on. *)
Definition stuck (s : Service) (task : Task) : bool :=
  t_dropped task || match t_pc task with
                    | Finished _ => true
                    | WaitSleep p epoch => match cells s !! p with Some cell => c_epoch cell <=? epoch | None => true end
                    | _ => false
                    end.
Lemma all_stuck y : forallb (λ e, stuck (service y) e.2) (map_to_list (tasks y)) = true → ¬ ∃ key a y'', step (LTask key a) y y''.
Proof.
  intros H (key & a & y'' & Hs). inversion Hs as [|s ts t task a' s' c' Ht Hd Hpc| | | | |]; subst. cbn [service tasks] in H.
  rewrite forallb_forall in H. specialize (H (t, task)). rewrite <- list_elem_of_In, elem_of_map_to_list in H. specialize (H Ht).
  unfold stuck in H. cbn [snd] in H. rewrite Hd in H. cbn [orb] in H. destruct (t_pc task) as [| | | | |p epoch| | | | | | | | | |d]; try discriminate H.
  - destruct a; try discriminate Hpc. cbn [pc_step] in Hpc. destruct (cells s !! p) as [cell|]; [|discriminate Hpc]. cbn [mbind option_bind] in Hpc.
    destruct (Nat.ltb_spec epoch (c_epoch cell)) as [Hlt|]; [|discriminate Hpc]. apply Nat.leb_le in H. lia.
  - destruct a; discriminate Hpc.
Qed.
(** The two requests are decided; when the first is dropped while it asks, the second waits for good. *)
Definition sample_drop : list event := sample_question ++ [EDrop 0].
Definition rests (l : list event) (second : pc → bool) : bool :=
  match perform_all (∅, initial) l with
  | Some (g, y) => forallb (λ e, stuck (service y) e.2) (map_to_list (tasks y))
      && match tasks y !! 1 with Some task => negb (t_dropped task) && second (t_pc task) | None => false end
  | None => false
  end.
Definition unfinished (c : pc) : bool := match c with Finished _ => false | _ => true end.
Lemma every_request_is_decided_witness :
  (∃ g y task, perform_all (∅, initial) (sample_answer Denied) = Some (g, y) ∧ tasks y !! 1 = Some task ∧
     ((∃ d, t_pc task = Finished d) ∨ abandoned y task)) ∧
  (∃ g y task, perform_all (∅, initial) sample_drop = Some (g, y) ∧ tasks y !! 1 = Some task ∧ abandoned y task).
Proof.
  split.
  - assert (rests (sample_answer Denied) (λ _, true) = true) as H by (vm_compute; reflexivity). unfold rests in H.
    destruct (perform_all (∅, initial) (sample_answer Denied)) as [[g y]|] eqn:E; [|discriminate H].
    apply andb_prop in H as [Hstuck H]. destruct (tasks y !! 1) as [task|] eqn:Ht; [|discriminate H]. apply andb_prop in H as [Hd%negb_true_iff _].
    exists g, y, task. split_and!; [done|done|]. apply perform_all_session in E; [|apply session_initial].
    apply (proj2 (every_request_is_decided g y E 0 y (working_refl y)) (all_stuck y Hstuck) 1 task Ht Hd).
  - assert (rests sample_drop unfinished = true) as H by (vm_compute; reflexivity). unfold rests in H.
    destruct (perform_all (∅, initial) sample_drop) as [[g y]|] eqn:E; [|discriminate H].
    apply andb_prop in H as [Hstuck H]. destruct (tasks y !! 1) as [task|] eqn:Ht; [|discriminate H]. apply andb_prop in H as [Hd%negb_true_iff Hu].
    exists g, y, task. split_and!; [done|done|]. apply perform_all_session in E; [|apply session_initial].
    destruct (proj2 (every_request_is_decided g y E 0 y (working_refl y)) (all_stuck y Hstuck) 1 task Ht Hd) as [[d Hf]|Ha]; [|exact Ha].
    unfold unfinished in Hu. rewrite Hf in Hu. discriminate Hu.
Defined.
