(* ===== verification/Orchestrator.v ===== *)
(** * The run of a tool ([core/src/tools/orchestrator.rs], rest of [core/src/tools/sandboxing.rs])

    Approval, choice of the sandbox, first attempt, and the retry without a
    sandbox.  The run is a program of [Effects]: what it asks of the session,
    of the tool and of the network approvals are events, and everything in
    between is a function.  What it may do is a monitor of its events. *)
From S2P Require Import Prelude RustStr Permissions PermissionProfile SandboxTransforms ExecApproval Effects Approvals NetworkApproval.

(** ** Data *)
Inductive WindowsSandboxLevel := WslDisabled | WslRestrictedToken | WslElevated.
#[global] Instance WindowsSandboxLevel_eq_dec : EqDecision WindowsSandboxLevel.
Proof. solve_decision. Defined.
Inductive ToolDecisionSource := FromAutomatedReviewer | FromConfig | FromUser.
(** What an approval is asked with. *)
Record ApprovalCtx := mk_approval_ctx {
  guardian_review_id : option rstring; retry_reason : option rstring; network_approval_context : option NetworkApprovalContext }.
Record DeferredNetworkApproval := mk_deferred {
  df_registration_id : rstring; finish_outcome : option (option NetworkApprovalOutcome) }.
Record ActiveNetworkApproval := mk_active { an_registration_id : option rstring; an_mode : NetworkApprovalMode }.
Definition into_deferred (a : ActiveNetworkApproval) : option DeferredNetworkApproval :=
  match an_mode a, an_registration_id a with
  | Deferred, Some id => Some (mk_deferred id None)
  | _, _ => None
  end.
(** Tokens are named by the registration that made them. *)
Record SandboxAttempt := mk_attempt {
  at_sandbox : SandboxType; at_permissions : PermissionProfile; at_enforce_managed_network : bool; at_sandbox_cwd : rstring;
  at_codex_linux_sandbox_exe : option rstring; at_use_legacy_landlock : bool; at_windows_sandbox_level : WindowsSandboxLevel;
  at_windows_sandbox_private_desktop : bool; network_denial_cancellation_token : option rstring }.
Definition with_token (a : SandboxAttempt) (token : option rstring) : SandboxAttempt :=
  mk_attempt (at_sandbox a) (at_permissions a) (at_enforce_managed_network a) (at_sandbox_cwd a) (at_codex_linux_sandbox_exe a)
    (at_use_legacy_landlock a) (at_windows_sandbox_level a) (at_windows_sandbox_private_desktop a) token.

Definition is_some {A} (o : option A) : bool := match o with Some _ => true | None => false end.

Section orchestrator.
(** What tools make and fail with, the proxy, what the guardian is told of a
    call, and the input of hooks pass through unread. *)
Context {Out Output CodexErr Network Trigger Payload : Type}.

Inductive ToolError :=
| Rejected (message : rstring)
| SandboxDenied (output : Output) (network_policy_decision : option NetworkPolicyDecisionPayload)
| Codex (e : CodexErr).
Record NetworkApprovalSpec := mk_spec {
  sp_network : option Network; sp_mode : NetworkApprovalMode; sp_trigger : Trigger; sp_command : rstring }.
(** A tool with the request it is run for. *)
Record ToolRuntime := mk_tool {
  exec_approval_requirement : option ExecApprovalRequirement;
  sandbox_permissions : SandboxPermissions;
  should_bypass_approval : AskForApproval → bool → bool;
  wants_no_sandbox_approval : AskForApproval → bool;
  permission_request_payload : option Payload;
  sandbox_preference : SandboxablePreference;
  escalate_on_failure : bool;
  network_approval_spec : option NetworkApprovalSpec;
  tool_sandbox_cwd : option rstring }.
Record TurnContext := mk_turn_context {
  sub_id : rstring; tc_permission_profile : PermissionProfile; tc_approval_policy : AskForApproval; tc_auto_review : bool;
  tc_network : option Network; tc_windows_sandbox_level : WindowsSandboxLevel; tc_windows_sandbox_private_desktop : bool;
  tc_use_legacy_landlock : bool; tc_cwd : rstring; tc_codex_linux_sandbox_exe : option rstring }.
Record OrchestratorRunResult := mk_result { output : Out; deferred_network_approval : option DeferredNetworkApproval }.

Inductive ev : Type → Type :=
| EStrictAutoReview : ev bool
| ENewReviewId : ev rstring
| EHooks (run_id : rstring) (payload : Payload) : ev (option PermissionRequestDecision)
| EStartApproval (ctx : ApprovalCtx) : ev ReviewDecision
| EToolDecision (d : ReviewDecision) (source : ToolDecisionSource) : ev unit
| ERejectionMessage (review_id : rstring) : ev rstring
| ERegisterCall (turn_id : rstring) (trigger : Trigger) (command : rstring) : ev rstring
| EFinishCall (registration_id : rstring) : ev (option NetworkApprovalOutcome)
| ERunTool (attempt : SandboxAttempt) : ev (outcome ToolError Out).

(** The defaults of the traits. *)
Definition default_should_bypass_approval (policy : AskForApproval) (already_approved : bool) : bool :=
  if already_approved then true else bool_decide (policy = Never).
Definition default_wants_no_sandbox_approval (policy : AskForApproval) : bool :=
  match policy with
  | OnFailure | UnlessTrusted => true
  | Never | OnRequest => false
  | Granular c => sandbox_approval c
  end.
Definition managed_network_for_sandbox_permissions (network : option Network) (s : SandboxPermissions) : option Network :=
  if requires_escalated_permissions s then None else network.

(** ** Network approvals around an attempt ([core/src/tools/network_approval.rs]) *)
Definition begin_network_approval (turn_id : rstring) (managed_network_active : bool) (spec : option NetworkApprovalSpec) :
    prog ev (option ActiveNetworkApproval) :=
  match spec with
  | None => Done None
  | Some spec =>
      if negb managed_network_active || match sp_network spec with None => true | _ => false end then Done None
      else
        let* id := ask (ERegisterCall turn_id (sp_trigger spec) (sp_command spec)) in
        Done (Some (mk_active (Some id) (sp_mode spec)))
  end.
Definition rejected {A} (r : outcome rstring A) : outcome ToolError A :=
  match r with Ok a => Ok a | Err m => Err (Rejected m) | Panic => Panic end.
Definition finish_immediate_network_approval (active : ActiveNetworkApproval) : prog ev (outcome ToolError unit) :=
  match an_registration_id active with
  | None => Done (Ok ())
  | Some id => let* o := ask (EFinishCall id) in Done (rejected (outcome_to_result o))
  end.
(** The outcome is asked for once and kept. *)
Definition deferred_finish (d : DeferredNetworkApproval) : prog ev (DeferredNetworkApproval * outcome ToolError unit) :=
  match finish_outcome d with
  | Some o => Done (d, rejected (outcome_to_result o))
  | None =>
      let* o := ask (EFinishCall (df_registration_id d)) in
      Done (mk_deferred (df_registration_id d) (Some o), rejected (outcome_to_result o))
  end.
Definition finish_deferred_network_approval (deferred : option DeferredNetworkApproval) : prog ev (outcome ToolError unit) :=
  match deferred with
  | None => Done (Ok ())
  | Some d => let* r := deferred_finish d in Done r.2
  end.

(** ** The orchestrator *)
Definition run_attempt (tool : ToolRuntime) (turn : TurnContext) (attempt : SandboxAttempt) (managed_network_active : bool) :
    prog ev (outcome ToolError Out * option DeferredNetworkApproval) :=
  let* network_approval := begin_network_approval (sub_id turn) managed_network_active (network_approval_spec tool) in
  let* run_result := ask (ERunTool (with_token attempt (network_approval ≫= an_registration_id))) in
  match network_approval with
  | None => Done (run_result, None)
  | Some active =>
      match an_mode active with
      | Immediate =>
          let* finalize_result := finish_immediate_network_approval active in
          match finalize_result with Err e => Done (Err e, None) | _ => Done (run_result, None) end
      | Deferred =>
          let deferred := into_deferred active in
          match run_result with
          | Err _ =>
              let* finalize_result := finish_deferred_network_approval deferred in
              match finalize_result with Err e => Done (Err e, None) | _ => Done (run_result, None) end
          | _ => Done (run_result, deferred)
          end
      end
  end.

Definition request_approval (tool : ToolRuntime) (permission_request_run_id : rstring) (ctx : ApprovalCtx)
    (evaluate_permission_request_hooks : bool) : prog ev (outcome ToolError ReviewDecision) :=
  let by_review :=
    let otel_source := if is_some (guardian_review_id ctx) then FromAutomatedReviewer else FromUser in
    let* decision := ask (EStartApproval ctx) in
    let* _ := ask (EToolDecision decision otel_source) in
    Done (Ok decision) in
  match (if evaluate_permission_request_hooks then permission_request_payload tool else None) with
  | None => by_review
  | Some payload =>
      let* hook := ask (EHooks permission_request_run_id payload) in
      match hook with
      | Some HookAllow => let* _ := ask (EToolDecision Approved FromConfig) in Done (Ok Approved)
      | Some (HookDeny message) => let* _ := ask (EToolDecision Denied FromConfig) in Done (Err (Rejected message))
      | None => by_review
      end
  end.

Definition REJECTED_BY_USER : rstring := lit "rejected by user".
Definition reject_if_not_approved (review_id : option rstring) (decision : ReviewDecision) : prog ev (outcome ToolError unit) :=
  match decision with
  | Denied | Abort =>
      match review_id with
      | Some id => let* reason := ask (ERejectionMessage id) in Done (Err (Rejected reason))
      | None => Done (Err (Rejected REJECTED_BY_USER))
      end
  | TimedOut => Done (Err (Rejected guardian_timeout_message))
  | Approved | ApprovedExecpolicyAmendment _ | ApprovedForSession => Done (Ok ())
  | ReviewNetworkAmendment a =>
      match npa_action a with RuleAllow => Done (Ok ()) | RuleDeny => Done (Err (Rejected REJECTED_BY_USER)) end
  end.

Definition build_denial_reason_from_output (output : Output) : rstring := lit "command failed; retry without sandbox?".
(** [use_guardian.then(new_guardian_review_id)]. *)
Definition review_id_if (use_guardian : bool) : prog ev (option rstring) :=
  if use_guardian then let* id := ask ENewReviewId in Done (Some id) else Done None.
(** Ask, and turn down what is not approved: the same for the three questions. *)
Definition approval (tool : ToolRuntime) (run_id : rstring) (use_guardian : bool) (reason : option rstring)
    (context : option NetworkApprovalContext) (hooks : bool) : prog ev (outcome ToolError unit) :=
  let* review_id := review_id_if use_guardian in
  let*? decision := request_approval tool run_id (mk_approval_ctx review_id reason context) hooks in
  reject_if_not_approved review_id decision.

Definition requirement_of (tool : ToolRuntime) (policy : AskForApproval) (turn : TurnContext) : ExecApprovalRequirement :=
  default (default_exec_approval_requirement policy (file_system_sandbox_policy (tc_permission_profile turn)))
    (exec_approval_requirement tool).
(** 1) Approval: the answer is [already_approved]. *)
Definition initial_approval (tool : ToolRuntime) (call_id : rstring) (requirement : ExecApprovalRequirement)
    (strict_auto_review use_guardian : bool) : prog ev (outcome ToolError bool) :=
  match requirement with
  | Skip _ _ =>
      if strict_auto_review then
        let*? _ := approval tool call_id true None None false in Done (Ok true)
      else
        let* _ := ask (EToolDecision Approved FromConfig) in Done (Ok false)
  | ForbiddenBy reason => Done (Err (Rejected reason))
  | NeedsApproval reason _ =>
      let*? _ := approval tool call_id use_guardian reason None (negb strict_auto_review) in Done (Ok true)
  end.

Context (os : Os).
(** 2) The sandbox of the first attempt. *)
Definition initial_sandbox (tool : ToolRuntime) (turn : TurnContext) (requirement : ExecApprovalRequirement) : SandboxType :=
  let file_system := file_system_sandbox_policy (tc_permission_profile turn) in
  match sandbox_override_for_first_attempt (sandbox_permissions tool) requirement file_system with
  | BypassSandboxFirstAttempt => NoSandbox
  | NoOverride =>
      select_initial os file_system (network_sandbox_policy (tc_permission_profile turn)) (sandbox_preference tool)
        (negb (bool_decide (tc_windows_sandbox_level turn = WslDisabled))) (is_some (tc_network turn))
  end.
Definition attempt_with (tool : ToolRuntime) (turn : TurnContext) (sandbox : SandboxType) (exe : option rstring) : SandboxAttempt :=
  mk_attempt sandbox (tc_permission_profile turn) (is_some (tc_network turn))
    (default (tc_cwd turn) (tool_sandbox_cwd tool)) exe (tc_use_legacy_landlock turn) (tc_windows_sandbox_level turn)
    (tc_windows_sandbox_private_desktop turn) None.
Definition to_result (r : outcome ToolError Out) (deferred : option DeferredNetworkApproval) : outcome ToolError OrchestratorRunResult :=
  match r with Ok out => Ok (mk_result out deferred) | Err e => Err e | Panic => Panic end.

(** When a denial of the sandbox may be followed by a question. *)
Definition denial_context (turn : TurnContext) (decision : option NetworkPolicyDecisionPayload) : option NetworkApprovalContext :=
  if is_some (tc_network turn) then decision ≫= network_approval_context_from_payload else None.
Definition may_escalate (tool : ToolRuntime) (turn : TurnContext) (policy : AskForApproval)
    (decision : option NetworkPolicyDecisionPayload) : bool :=
  let context := denial_context turn decision in
  if (is_some decision) && negb (is_some context) then false
  else if negb (escalate_on_failure tool) then false
  else if wants_no_sandbox_approval tool policy then true
  else bool_decide (policy = OnRequest) && (is_some context)
       && match default_exec_approval_requirement policy (file_system_sandbox_policy (tc_permission_profile turn)) with
          | NeedsApproval _ _ => true | _ => false end.
Definition retry_reason_for (context : option NetworkApprovalContext) (output : Output) : rstring :=
  match context with
  | Some c => lit "Network access to " ++ quote ++ nac_host c ++ quote ++ lit " is blocked by policy."
  | None => build_denial_reason_from_output output
  end.
Definition retry_suffix : rstring := lit ":retry".
(** 3) The retry. *)
Definition retry (tool : ToolRuntime) (turn : TurnContext) (policy : AskForApproval) (call_id : rstring)
    (strict_auto_review use_guardian already_approved : bool) (out : Output) (decision : option NetworkPolicyDecisionPayload) :
    prog ev (outcome ToolError OrchestratorRunResult) :=
  if negb (may_escalate tool turn policy decision) then Done (Err (SandboxDenied out decision))
  else
    let context := denial_context turn decision in
    let bypass_retry_approval :=
      negb strict_auto_review && should_bypass_approval tool policy already_approved && negb (is_some context) in
    let*? _ :=
      (if bypass_retry_approval then Done (Ok ())
       else approval tool (call_id ++ retry_suffix) use_guardian (Some (retry_reason_for context out)) context
              (negb strict_auto_review)) in
    let* r := run_attempt tool turn (attempt_with tool turn NoSandbox None) (is_some (tc_network turn)) in
    Done (to_result r.1 r.2).

Definition run (tool : ToolRuntime) (turn : TurnContext) (policy : AskForApproval) (call_id : rstring) :
    prog ev (outcome ToolError OrchestratorRunResult) :=
  let* strict_auto_review := ask EStrictAutoReview in
  let use_guardian := routes_approval_to_guardian (tc_approval_policy turn) (tc_auto_review turn) || strict_auto_review in
  let requirement := requirement_of tool policy turn in
  let*? already_approved := initial_approval tool call_id requirement strict_auto_review use_guardian in
  let attempt := attempt_with tool turn (initial_sandbox tool turn requirement) (tc_codex_linux_sandbox_exe turn) in
  let* first := run_attempt tool turn attempt (is_some (tc_network turn)) in
  match first.1 with
  | Err (SandboxDenied out decision) =>
      retry tool turn policy call_id strict_auto_review use_guardian already_approved out decision
  | r => Done (to_result r first.2)
  end.

(** ** What a run may do *)
Section spec.
Context (tool : ToolRuntime) (turn : TurnContext) (policy : AskForApproval).
Let file_system := file_system_sandbox_policy (tc_permission_profile turn).
Let requirement := requirement_of tool policy turn.

(** What was seen of a run: the answer on strict reviews, whether the next
    attempt was approved, and whether the first one was, the attempts, what the last one came to, the
    registration that is open, and the refusal that ends the run, its message
    perhaps still to come. *)
Record Monitor := mk_monitor {
  m_strict : option bool; m_approved : bool; m_already : bool; m_attempts : nat;
  m_outcome : option (outcome ToolError Out); m_open : option rstring; m_refused : option (option rstring) }.
Definition monitor_start : Monitor := mk_monitor None false false 0 None None None.
Definition refused_with (m : Monitor) (message : option rstring) : Monitor :=
  mk_monitor (m_strict m) (m_approved m) (m_already m) (m_attempts m) (m_outcome m) (m_open m) (Some message).
Definition approved_now (m : Monitor) : Monitor :=
  mk_monitor (m_strict m) true (m_already m) (m_attempts m) (m_outcome m) (m_open m) (m_refused m).
Definition opened (m : Monitor) (id : option rstring) : Monitor :=
  mk_monitor (m_strict m) (m_approved m) (m_already m) (m_attempts m) (m_outcome m) id (m_refused m).
Definition came_to (m : Monitor) (r : outcome ToolError Out) : Monitor :=
  mk_monitor (m_strict m) (m_approved m) (m_already m) (m_attempts m) (Some r) (m_open m) (m_refused m).
Definition refusal_message (d : ReviewDecision) (review_id : option rstring) : option rstring :=
  match d, review_id with
  | TimedOut, _ => Some guardian_timeout_message
  | (Denied | Abort), Some _ => None
  | _, _ => Some REJECTED_BY_USER
  end.
Definition observe (m : Monitor) (o : obs ev) : Monitor :=
  match o with
  | Obs e x =>
      match e in ev X return X → Monitor with
      | EStrictAutoReview => λ b, mk_monitor (Some b) (m_approved m) (m_already m) (m_attempts m) (m_outcome m) (m_open m) (m_refused m)
      | EHooks _ _ => λ hook,
          match hook with
          | Some HookAllow => approved_now m
          | Some (HookDeny message) => refused_with m (Some message)
          | None => m
          end
      | EStartApproval ctx => λ d,
          if approves d then approved_now m else refused_with m (refusal_message d (guardian_review_id ctx))
      | ERejectionMessage _ => λ message, refused_with m (Some message)
      | ERegisterCall _ _ _ => λ id, opened m (Some id)
      | EFinishCall _ => λ o,
          let m := opened m None in
          match o with
          | None => m
          | Some DeniedByUser => came_to m (Err (Rejected REJECTED_BY_USER))
          | Some (DeniedByPolicy message) => came_to m (Err (Rejected message))
          end
      | ERunTool _ => λ r,
          mk_monitor (m_strict m) false (if m_attempts m =? 0 then m_approved m else m_already m) (S (m_attempts m)) (Some r)
            (m_open m) (m_refused m)
      | ENewReviewId | EToolDecision _ _ => λ _, m
      end x
  end.

(** Whether automatic review answers, as the turn and the strict mode say. *)
Definition guarded (strict : bool) : bool :=
  routes_approval_to_guardian (tc_approval_policy turn) (tc_auto_review turn) || strict.
(** A first attempt goes without a sandbox on a rule that allows the whole
    command, or when the tool asks for it and no path is denied to be read. *)
Definition bypasses_sandbox : Prop :=
  (∃ a, requirement = Skip true a) ∨
  (sandbox_permissions tool = RequireEscalated ∧ has_denied_read_restrictions file_system = false).
Definition first_sandbox (s : SandboxType) : Prop :=
  (bypasses_sandbox ∧ s = NoSandbox) ∨
  (¬ bypasses_sandbox ∧
   s = select_initial os file_system (network_sandbox_policy (tc_permission_profile turn)) (sandbox_preference tool)
         (negb (bool_decide (tc_windows_sandbox_level turn = WslDisabled))) (is_some (tc_network turn))).
(** A denial may be followed by a retry if the tool escalates and, where the
    network policy denied, the decision can be put to the user; and if the
    policy wants such questions, or is to ask on request and the question is about the network of a
    restricted profile. *)
Definition escalation_allowed (decision : option NetworkPolicyDecisionPayload) : Prop :=
  (decision = None ∨ denial_context turn decision ≠ None) ∧
  escalate_on_failure tool = true ∧
  (wants_no_sandbox_approval tool policy = true ∨
   policy = OnRequest ∧ denial_context turn decision ≠ None ∧ kind file_system = KRestricted).
Definition must_ask (m : Monitor) : Prop := (∃ reason a, requirement = NeedsApproval reason a) ∨ m_strict m = Some true.
(** After a denial: asked again, unless the first approval counts and neither the
    review is strict nor the network in question. *)
Definition retry_approved (m : Monitor) (decision : option NetworkPolicyDecisionPayload) : Prop :=
  m_approved m = true ∨
  m_strict m = Some false ∧ should_bypass_approval tool policy (m_already m) = true ∧ denial_context turn decision = None.
Definition authorised (m : Monitor) (a : SandboxAttempt) : Prop :=
  m_refused m = None ∧ (∀ reason, requirement ≠ ForbiddenBy reason) ∧ network_denial_cancellation_token a = m_open m ∧
  match m_attempts m with
  | 0 =>
      (must_ask m → m_approved m = true) ∧ first_sandbox (at_sandbox a) ∧
      with_token a None = attempt_with tool turn (at_sandbox a) (tc_codex_linux_sandbox_exe turn)
  | 1 =>
      ∃ out decision, m_outcome m = Some (Err (SandboxDenied out decision)) ∧ escalation_allowed decision ∧
        retry_approved m decision ∧ with_token a None = attempt_with tool turn NoSandbox None
  | _ => False
  end.
(** When a question may be asked. *)
Definition may_ask (m : Monitor) : Prop :=
  m_refused m = None ∧ m_open m = None ∧ m_approved m = false ∧ (∀ reason, requirement ≠ ForbiddenBy reason) ∧
  match m_attempts m with
  | 0 => must_ask m
  | 1 => ∃ out decision, m_outcome m = Some (Err (SandboxDenied out decision)) ∧ escalation_allowed decision
  | _ => False
  end.
Definition allowed (m : Monitor) (X : Type) (e : ev X) : Prop :=
  match e with
  | EStrictAutoReview => m = monitor_start
  | ENewReviewId => m_refused m = None
  | EToolDecision _ _ => True
  | EHooks _ _ => may_ask m ∧ m_strict m = Some false
  | EStartApproval ctx =>
      may_ask m ∧ ∃ strict, m_strict m = Some strict ∧ is_some (guardian_review_id ctx) = guarded strict
  | ERejectionMessage _ => m_refused m = Some None
  | ERegisterCall turn_id _ _ => m_refused m = None ∧ m_open m = None ∧ is_some (tc_network turn) = true ∧ turn_id = sub_id turn
  | EFinishCall id => m_refused m = None ∧ m_open m = Some id
  | ERunTool a => authorised m a
  end.
(** What a run returns is what it came to, or its refusal; the registration that is
    left open is the one it hands on. *)
Definition final (m : Monitor) (r : outcome ToolError OrchestratorRunResult) : Prop :=
  match r with
  | Ok res =>
      m_refused m = None ∧ m_outcome m = Some (Ok (output res)) ∧
      m_open m = df_registration_id <$> deferred_network_approval res ∧
      (∀ d, deferred_network_approval res = Some d → finish_outcome d = None)
  | Err e =>
      m_open m = None ∧
      match m_refused m with
      | Some message => ∃ reason, message = Some reason ∧ e = Rejected reason
      | None => m_outcome m = Some (Err e) ∨ m_attempts m = 0 ∧ ∃ reason, requirement = ForbiddenBy reason ∧ e = Rejected reason
      end
  | Panic => m_refused m = None ∧ m_outcome m = Some Panic
  end.

(** ** Lemmas: the run keeps to the monitor *)
Lemma first_sandbox_spec : first_sandbox (initial_sandbox tool turn requirement).
Proof using Type.
  unfold first_sandbox, bypasses_sandbox, initial_sandbox, sandbox_override_for_first_attempt, requires_escalated_permissions.
  fold file_system. destruct requirement as [[|] a| |]; [left; split; [left; by eexists|done]|..];
    (destruct (has_denied_read_restrictions file_system) eqn:Hd; [right; split; [naive_solver|done]|]);
    (case_bool_decide; [left; split; [by right|done]|right; split; [naive_solver|done]]).
Qed.
Lemma may_escalate_spec decision : may_escalate tool turn policy decision = true ↔ escalation_allowed decision.
Proof using Type.
  unfold may_escalate, escalation_allowed. fold file_system. set (context := denial_context turn decision).
  assert (decision = None → context = None) as Hc.
  { intros ->. unfold context, denial_context. by destruct (is_some (tc_network turn)). }
  assert (policy = OnRequest →
    match default_exec_approval_requirement policy file_system with NeedsApproval _ _ => true | _ => false end = true ↔
    kind file_system = KRestricted) as Hn.
  { intros ->. unfold default_exec_approval_requirement. cbn. case_bool_decide; cbn; [done|]. by split. }
  assert (is_some decision && negb (is_some context) = true ↔ ¬ (decision = None ∨ context ≠ None)) as Hd.
  { destruct decision, context; cbn; split; intros Hor; try done; try (exfalso; apply Hor; by (left + right)). by intros [|?]. }
  assert (is_some context = true ↔ context ≠ None) as Hx by (destruct context; cbn; done).
  clearbody context. destruct (is_some decision && negb (is_some context)); [destruct Hd as [Hd _]; specialize (Hd eq_refl); naive_solver|].
  assert (decision = None ∨ context ≠ None) as Hd'.
  { destruct decision; [|by left]. right. intros ->. destruct Hd as [_ Hd]. discriminate Hd. by intros [|?]. }
  clear Hd Hc. destruct (escalate_on_failure tool); cbn [negb]; [|naive_solver].
  destruct (wants_no_sandbox_approval tool policy); [naive_solver|].
  rewrite !andb_true_iff, bool_decide_eq_true, Hx. naive_solver.
Qed.

#[local] Abbreviation keeps := (monitored observe allowed).
Lemma approval_keeps m run_id use_guardian reason context hooks strict :
  may_ask m → m_strict m = Some strict → use_guardian = guarded strict → (hooks = true → strict = false) →
  keeps (approval tool run_id use_guardian reason context hooks) m (λ m' r,
    match r with
    | Ok _ => m' = approved_now m
    | Err e => ∃ message, e = Rejected message ∧ m_refused m' = Some (Some message) ∧ m_open m' = None
    | Panic => False
    end).
Proof using Type.
  intros Hm Hs Hg Hh. pose proof Hm as (Hr & Ho & _).
  assert (∀ d id (Hid : is_some id = guarded strict), keeps (reject_if_not_approved id d)
    (if approves d then approved_now m else refused_with m (refusal_message d id))
    (λ m' r, match r with
      | Ok _ => m' = approved_now m
      | Err e => ∃ message, e = Rejected message ∧ m_refused m' = Some (Some message) ∧ m_open m' = None
      | Panic => False end)) as Hreject.
  { intros d id _. destruct d as [| | |a| | |]; cbn; try done; try (by eexists).
    - by destruct (npa_action a); cbn; [|eexists].
    - destruct id as [id|]; cbn; [|by eexists]. split; [done|]. intros message. by eexists.
    - destruct id as [id|]; cbn; [|by eexists]. split; [done|]. intros message. by eexists. }
  assert (∀ id, is_some id = guarded strict → keeps (request_approval tool run_id (mk_approval_ctx id reason context) hooks) m
    (λ m' r, match r with
      | Ok d => m' = if approves d then approved_now m else refused_with m (refusal_message d id)
      | Err e => ∃ message, e = Rejected message ∧ m' = refused_with m (Some message)
      | Panic => False end)) as Hrequest.
  { intros id Hid. unfold request_approval.
    assert (∀ source, keeps (let* decision := ask (EStartApproval (mk_approval_ctx id reason context)) in
        let* _ := ask (EToolDecision decision source) in Done (Ok decision)) m
      (λ m' r, match r with
        | Ok d => m' = if approves d then approved_now m else refused_with m (refusal_message d id)
        | Err e => ∃ message, e = Rejected message ∧ m' = refused_with m (Some message)
        | Panic => False end)) as Hreview by (intros source; cbn; naive_solver).
    destruct hooks; [|apply Hreview]. destruct (permission_request_payload tool) as [payload|]; [|apply Hreview].
    cbn [prog_bind ask monitored]. split; [split; [done|by rewrite Hs, Hh]|]. intros [[|message]|].
    - by cbn.
    - cbn. split; [done|]. intros _. by eexists.
    - apply Hreview. }
  unfold approval. apply monitored_bind.
  assert (keeps (review_id_if use_guardian) m (λ m' id, m' = m ∧ is_some id = guarded strict)) as Hid.
  { unfold review_id_if. rewrite <- Hg. by destruct use_guardian. }
  eapply monitored_mono; [|exact Hid]. intros m' id [-> Hid']. apply monitored_try.
  eapply monitored_mono; [|by apply Hrequest]. intros m' [d|e|]; [|by intros (message & -> & ->); eexists|done].
  intros ->. by apply Hreject.
Qed.
(** The attempt, with its registration opened before and closed after. *)
Lemma run_attempt_keeps m a :
  m_open m = None → m_refused m = None → network_denial_cancellation_token a = None →
  (∀ token, authorised (opened m token) (with_token a token)) →
  keeps (run_attempt tool turn a (is_some (tc_network turn))) m (λ m' r,
    m_strict m' = m_strict m ∧ m_approved m' = false ∧ m_attempts m' = S (m_attempts m) ∧
    m_already m' = (if m_attempts m =? 0 then m_approved m else m_already m) ∧
    m_refused m' = None ∧ m_outcome m' = Some r.1 ∧
    match r.1 with
    | Ok _ => m_open m' = df_registration_id <$> r.2 ∧ ∀ d, r.2 = Some d → finish_outcome d = None
    | Err _ => m_open m' = None
    | Panic => True
    end).
Proof using Type.
  intros Ho Hr Ha Hauth. unfold run_attempt. apply monitored_bind.
  assert (keeps (begin_network_approval (sub_id turn) (is_some (tc_network turn)) (network_approval_spec tool)) m
    (λ m' active, m' = opened m (active ≫= an_registration_id) ∧ ∀ x, active = Some x → is_some (an_registration_id x) = true)) as Hbegin.
  { assert (opened m None = m) as E by (destruct m; cbn in Ho; by subst). unfold begin_network_approval.
    destruct (network_approval_spec tool) as [spec|]; [|by cbn]. destruct (is_some (tc_network turn)) eqn:Hn; [|by cbn].
    destruct (sp_network spec) as [network|]; [|by cbn]. cbn. split; [done|]. intros id. split; [done|]. by intros x [= <-]. }
  eapply monitored_mono; [|exact Hbegin]. intros m' active [-> Hid]. cbn [prog_bind ask monitored].
  split; [apply Hauth|]. intros r. destruct active as [[id mode]|]; cbn in Hid |- *.
  2: { rewrite Hr. split_and!; try done. by destruct r. }
  destruct id as [id|]; [|by specialize (Hid _ eq_refl)]. clear Hid. destruct mode; cbn.
  - split; [done|]. intros [[|message]|]; cbn; (split_and!; try done); by destruct r.
  - destruct r as [out|e|]; cbn.
    + split_and!; try done. by intros d [= <-].
    + split; [done|]. by intros [[|message]|].
    + done.
Qed.

Lemma with_token_same a token : network_denial_cancellation_token a = None → with_token (with_token a token) None = a.
Proof using Type. by destruct a; cbn; intros ->. Qed.

Lemma retry_keeps m call_id strict use_guardian already out decision :
  m_strict m = Some strict → use_guardian = guarded strict → m_refused m = None → m_open m = None → m_approved m = false →
  m_attempts m = 1 → m_already m = already → m_outcome m = Some (Err (SandboxDenied out decision)) →
  (∀ reason, requirement ≠ ForbiddenBy reason) →
  keeps (retry tool turn policy call_id strict use_guardian already out decision) m final.
Proof using Type.
  intros Hs Hg Hr Ho Hna Hn Hal Hout Hf. unfold retry. destruct (may_escalate tool turn policy decision) eqn:He; cbn [negb].
  2: { cbn. rewrite Hr. by split; [|left]. }
  apply may_escalate_spec in He. apply monitored_try.
  assert (keeps (if negb strict && should_bypass_approval tool policy already && negb (is_some (denial_context turn decision)) then Done (Ok ())
       else approval tool (call_id ++ retry_suffix) use_guardian (Some (retry_reason_for (denial_context turn decision) out))
              (denial_context turn decision) (negb strict)) m
    (λ m' r, match r with
      | Ok _ => (m' = m ∨ m' = approved_now m) ∧ retry_approved m' decision
      | Err e => ∃ message, e = Rejected message ∧ m_refused m' = Some (Some message) ∧ m_open m' = None
      | Panic => False end)) as Happ.
  { destruct (negb strict && should_bypass_approval tool policy already && negb (is_some (denial_context turn decision))) eqn:Hb.
    - cbn. split; [by left|]. right. apply andb_prop in Hb as [[Hb1 Hb2]%andb_prop Hb3]. rewrite Hal. split_and!; [|done|].
      + by destruct strict.
      + by destruct (denial_context turn decision).
    - eapply monitored_mono; [|apply (approval_keeps m _ _ _ _ _ strict); try done].
      + intros m' [d|e|]; [|done|done]. intros ->. split; [by right|by left].
      + unfold may_ask. rewrite Hn. split_and!; try done. by exists out, decision.
      + by destruct strict. }
  eapply monitored_mono; [|exact Happ]. intros m' [d|e|]; [|by intros (message & -> & Hm & Hm'); cbn; rewrite Hm; eauto|done].
  intros [Hm Hra]. apply monitored_bind.
  assert (m_open m' = None ∧ m_refused m' = None ∧ m_attempts m' = 1 ∧ m_outcome m' = m_outcome m) as (Ho' & Hr' & Hn' & Hout')
    by by destruct Hm as [->| ->].
  eapply monitored_mono; [|apply run_attempt_keeps; try done].
  - cbn. intros m2 [r deferred] (_ & _ & _ & _ & Hr2 & Hout2 & Hopen). cbn in *. destruct r; cbn; [naive_solver|by rewrite Hr2; eauto|done].
  - intros token. unfold authorised. cbn [m_refused m_open m_attempts m_outcome opened]. rewrite Hn'. split_and!; try done.
    exists out, decision. by rewrite Hout', with_token_same.
Qed.

Lemma run_keeps call_id : keeps (run tool turn policy call_id) monitor_start final.
Proof using Type.
  unfold run. cbn [prog_bind ask monitored]. split; [done|]. intros strict. apply monitored_try.
  set (m := observe _ _). fold requirement. change (m_strict m = Some strict ∧ True) with (m_strict m = Some strict ∧ True).
  set (use_guardian := routes_approval_to_guardian _ _ || strict).
  assert (use_guardian = guarded strict) as Hg by done. clearbody use_guardian.
  assert (keeps (initial_approval tool call_id requirement strict use_guardian) m (λ m' r,
    match r with
    | Ok already => m' = (if already then approved_now m else m) ∧ (must_ask m' → already = true) ∧ ∀ reason, requirement ≠ ForbiddenBy reason
    | Err e => final m' (Err e)
    | Panic => False end)) as Hinit.
  { unfold initial_approval. destruct requirement as [bypass a|reason a|reason] eqn:Hreq.
    - destruct strict; cbn [negb].
      + apply monitored_try. eapply monitored_mono; [|apply (approval_keeps m _ _ _ _ _ true); try done].
        * intros m' [d|e|]; [|by intros (message & -> & Hm & Hm'); cbn; rewrite Hm; eauto|done]. by intros ->.
        * unfold may_ask. rewrite Hreq. split_and!; try done. by right.
        * unfold guarded. by rewrite orb_true_r.
      + cbn. split; [done|]. intros _. split_and!; try done. unfold must_ask. rewrite Hreq. by intros [(? & ? & ?)|?].
    - apply monitored_try. eapply monitored_mono; [|apply (approval_keeps m _ _ _ _ _ strict); try done].
      + intros m' [d|e|]; [|by intros (message & -> & Hm & Hm'); cbn; rewrite Hm; eauto|done]. by intros ->.
      + unfold may_ask. rewrite Hreq. split_and!; try done. left. by eexists _, _.
      + by destruct strict.
    - cbn. split; [done|]. right. split; [done|]. exists reason. by rewrite Hreq. }
  eapply monitored_mono; [|exact Hinit]. intros m' [already|e|]; [|done|done]. intros (-> & Hmust & Hf).
  set (m1 := if already then approved_now m else m) in *.
  assert (m_open m1 = None ∧ m_refused m1 = None ∧ m_attempts m1 = 0 ∧ m_strict m1 = Some strict ∧ m_approved m1 = already)
    as (Ho & Hr & Hn & Hs & Ha) by (unfold m1; by destruct already).
  apply monitored_bind. eapply monitored_mono; [|apply run_attempt_keeps; try done].
  - intros m2 [r deferred] (Hs2 & Ha2 & Hn2 & Hal2 & Hr2 & Hout2 & Hopen). cbn in *. rewrite Hn in Hal2, Hn2. cbn in Hal2, Hn2.
    destruct r as [out|[message|out decision|e]|]; cbn in Hopen.
    + cbn. naive_solver.
    + cbn. rewrite Hr2. eauto.
    + eapply retry_keeps; try done; congruence.
    + cbn. rewrite Hr2. eauto.
    + cbn. done.
  - intros token. unfold authorised. cbn [m_refused m_open m_attempts opened]. rewrite Hn. split_and!; try done.
    + change (must_ask m1 → m_approved m1 = true). by rewrite Ha.
    + apply first_sandbox_spec.
Qed.
End spec.

Lemma refused_events tool turn policy m X (e : ev X) x :
  m_refused m ≠ None → allowed tool turn policy m X e →
  m_refused (observe m (Obs e x)) ≠ None ∧
  match e with EToolDecision _ _ | ERejectionMessage _ => True | _ => False end.
Proof using Type.
  intros Hm. destruct e; cbn; try done.
  - by intros ->.
  - by intros [(? & _) _].
  - by intros [(? & _) _].
  - by intros [? _].
  - by intros [? _].
  - by intros [? _].
Qed.
Lemma refused_stays tool turn policy m tr :
  m_refused m ≠ None → respects observe (allowed tool turn policy) m tr →
  m_refused (seen observe m tr) ≠ None ∧
  Forall (λ o, match o with Obs (EToolDecision _ _) _ | Obs (ERejectionMessage _) _ => True | _ => False end) tr.
Proof using Type.
  revert m. induction tr as [|[X e x] tr IH]; intros m Hm; cbn; [by split; [|constructor]|]. intros [Ha Hr].
  destruct (refused_events _ _ _ _ _ _ x Hm Ha) as [Hm' He]. destruct (IH _ Hm' Hr) as [? ?]. split; [done|]. by constructor; [destruct e|].
Qed.

(** ** Properties *)

(** C2: no attempt without the authority for it.  Whatever the session, the
    hooks, the reviewers and the tool answer, every attempt of a run is
    authorised by what came before: nothing forbids the call and nobody refused;
    the first attempt is approved if the requirement or a strict review
    asks for it, and goes without a sandbox only on a rule that allows the command or
    when the tool asked for it and no read is denied; there is a second one only
    after the sandbox denied the first, if the tool escalates and the policy wants the
    question, and it is approved afresh unless the first approval counts and neither
    a strict review nor the network is in question; there is no third.  A question is asked
    only where its answer decides, and automatic review answers exactly when the turn
    or the strict mode says so. *)
Theorem every_attempt_is_authorised (tool : ToolRuntime) (turn : TurnContext) (policy : AskForApproval) (call_id : rstring) tr r :
  traces (run tool turn policy call_id) tr r →
  (∀ tr1 a x tr2, tr = tr1 ++ Obs (ERunTool a) x :: tr2 → authorised tool turn policy (seen observe monitor_start tr1) a) ∧
  (∀ tr1 ctx d tr2, tr = tr1 ++ Obs (EStartApproval ctx) d :: tr2 →
     let m := seen observe monitor_start tr1 in
     may_ask tool turn policy m ∧
     ∃ strict, m_strict m = Some strict ∧ is_some (guardian_review_id ctx) = guarded turn strict).
Proof using Type.
  intros Ht. destruct (monitored_traces _ _ _ _ _ _ _ (run_keeps tool turn policy call_id) Ht) as [Hr _].
  split; [intros tr1 a x tr2 ->|intros tr1 ctx d tr2 ->]; by apply respects_app in Hr as (_ & Ha & _).
Qed.

(** C3: what a run comes to.  A refusal by a hook, a reviewer or the user ends it
    with its message as the error, and nothing but the message is asked for after it;
    a forbidden call ends it with the reason; otherwise it returns what the last
    attempt came to, a refusal of its network access included.  The registration of
    an attempt with the network approvals is closed whenever it fails, and on success it
    is closed or handed to the caller. *)
Theorem refusals_end_the_run (tool : ToolRuntime) (turn : TurnContext) (policy : AskForApproval) (call_id : rstring) tr r :
  traces (run tool turn policy call_id) tr r →
  final tool turn policy (seen observe monitor_start tr) r ∧
  ∀ tr1 tr2, tr = tr1 ++ tr2 → m_refused (seen observe monitor_start tr1) ≠ None →
    (∃ reason, r = Err (Rejected reason)) ∧
    Forall (λ o, match o with Obs (EToolDecision _ _) _ | Obs (ERejectionMessage _) _ => True | _ => False end) tr2.
Proof using Type.
  intros Ht. destruct (monitored_traces _ _ _ _ _ _ _ (run_keeps tool turn policy call_id) Ht) as [Hr Hf]. split; [done|].
  intros tr1 tr2 -> Hm. apply respects_app in Hr as [_ Hr]. destruct (refused_stays _ _ _ _ _ Hm Hr) as [Hs ?]. split; [|done].
  unfold seen in *. rewrite foldl_app in Hf. destruct r as [res|e|]; cbn in Hf.
  - by destruct Hf as [? _].
  - destruct Hf as [_ Hf]. destruct (m_refused _) eqn:E; [|done]. destruct Hf as (reason & _ & ->). by exists reason.
  - by destruct Hf as [? _].
Qed.
End orchestrator.

(** ** Runs, and witnesses *)
Section sample.
Abbreviation asked := (@ev nat rstring unit unit unit).
(** A shell command that asks to run without a sandbox, in a profile where a
    path is denied to be read. *)
Definition sample_profile : PermissionProfile :=
  Managed (MRestricted [mk_entry (Special Root) Read; mk_entry (PathEntry (lit "/secret")) Deny] None) NetRestricted.
Definition sample_context : @TurnContext unit :=
  mk_turn_context (lit "turn") sample_profile UnlessTrusted false None WslDisabled false false (lit "/work") (Some (lit "/bin/helper")).
Definition sample_tool : @ToolRuntime unit unit unit :=
  mk_tool (Some (NeedsApproval None None)) RequireEscalated default_should_bypass_approval default_wants_no_sandbox_approval
    None Auto true None None.
(** The user says [d]; the tool is denied by a sandbox and succeeds without one. *)
Definition sample_answers (d : ReviewDecision) (X : Type) (_ : list (obs asked)) (e : asked X) : X :=
  match e with
  | EStrictAutoReview => false
  | ENewReviewId | ERejectionMessage _ | ERegisterCall _ _ _ => []
  | EHooks _ _ | EFinishCall _ => None
  | EStartApproval _ => d
  | EToolDecision _ _ => ()
  | ERunTool a => if bool_decide (at_sandbox a = NoSandbox) then Ok 7 else Err (SandboxDenied (lit "denied") None)
  end.
Definition sample_program : prog asked (outcome (@ToolError rstring unit) (@OrchestratorRunResult nat)) :=
  run Linux sample_tool sample_context UnlessTrusted (lit "call").
Definition sample_trace (d : ReviewDecision) : list (obs asked) := (run_with (sample_answers d) [] sample_program).1.
Definition sample_result (d : ReviewDecision) := (run_with (sample_answers d) [] sample_program).2.
Definition sandboxes (tr : list (obs asked)) : list SandboxType :=
  omap (λ o, match o with Obs (ERunTool a) _ => Some (at_sandbox a) | _ => None end) tr.
Definition questions (tr : list (obs asked)) : nat :=
  length (List.filter (λ o, match o with Obs (EStartApproval _) _ => true | _ => false end) tr).

(** The denied read keeps the first attempt in a sandbox, and the retry, for which
    nobody is asked again, runs without one. *)
Example denied_reads_do_not_stop_the_retry :
  sandboxes (sample_trace Approved) = [LinuxSeccomp; NoSandbox] ∧ questions (sample_trace Approved) = 1%nat ∧
  sample_result Approved = Ok (mk_result 7 None).
Proof. vm_compute. done. Qed.

Lemma every_attempt_is_authorised_witness :
  ∃ tr1 a x tr2, sample_trace Approved = tr1 ++ Obs (ERunTool a) x :: tr2 ∧
    m_attempts (seen observe monitor_start tr1) = 1 ∧
    authorised Linux sample_tool sample_context UnlessTrusted (seen observe monitor_start tr1) a.
Proof.
  exists (firstn 4 (sample_trace Approved)), (attempt_with sample_tool sample_context NoSandbox None), (Ok 7), [].
  split; [vm_compute; reflexivity|]. split; [vm_compute; reflexivity|].
  destruct (every_attempt_is_authorised Linux sample_tool sample_context UnlessTrusted (lit "call") (sample_trace Approved)
              (sample_result Approved) (run_with_traces (sample_answers Approved) [] sample_program)) as [Ha _].
  apply (Ha _ _ (Ok 7) []). vm_compute. reflexivity.
Defined.

Lemma refusals_end_the_run_witness :
  sample_result TimedOut = Err (Rejected guardian_timeout_message) ∧
  ∃ reason, sample_result TimedOut = Err (Rejected reason).
Proof.
  split; [vm_compute; reflexivity|].
  destruct (refusals_end_the_run Linux sample_tool sample_context UnlessTrusted (lit "call") (sample_trace TimedOut)
              (sample_result TimedOut) (run_with_traces (sample_answers TimedOut) [] sample_program)) as [_ Hr].
  apply (Hr (sample_trace TimedOut) []); [symmetry; apply app_nil_r|]. vm_compute. discriminate.
Defined.
End sample.
