(* ===== verification/IpAddr.v ===== *)
(** * Addresses, and which of them are public ([network-proxy/src/policy.rs])

    [str::parse::<IpAddr>] of the standard library, its classifications, and the
    ranges that the network proxy keeps local.  A version 4 address is its 32-bit number,
    a version 6 address its eight 16-bit segments. *)
From S2P Require Import Prelude RustStr.
Open Scope N_scope.

(** ** Addresses ([std::net]) *)
Inductive IpAddr := V4 (ip : N) | V6 (segments : list N).
#[global] Instance IpAddr_eq_dec : EqDecision IpAddr.
Proof. solve_decision. Defined.
Definition ipv4 (a b c d : N) : N := ((a * 256 + b) * 256 + c) * 256 + d.
Definition octets (ip : N) : N * N * N * N := (ip / 2^24, ip / 2^16 mod 256, ip / 2^8 mod 256, ip mod 256).

(** ** [IpAddr::from_str]: the parser of the standard library *)
Definition to_digit (radix : N) (c : char) : option N :=
  let d := if (48 <=? c) && (c <=? 57) then Some (c - 48)
           else if (97 <=? c) && (c <=? 122) then Some (c - 87)
           else if (65 <=? c) && (c <=? 90) then Some (c - 55) else None in
  d ← d; if d <? radix then Some d else None.
Fixpoint read_digits (radix : N) (max_digits : nat) (result : N) (count : nat) (s : rstring) : option (N * nat * rstring) :=
  match s with
  | [] => Some (result, count, s)
  | c :: s' =>
      match to_digit radix c with
      | None => Some (result, count, s)
      | Some d =>
          if (max_digits <? S count)%nat then None
          else read_digits radix max_digits (result * radix + d) (S count) s'
      end
  end.
Definition read_number (radix : N) (max_digits : nat) (limit : N) (allow_zero_prefix : bool) (s : rstring) : option (N * rstring) :=
  '(result, count, rest) ← read_digits radix max_digits 0 0 s;
  if (count =? 0)%nat then None
  else if negb allow_zero_prefix && bool_decide (head s = Some 48) && (1 <? count)%nat then None
  else if result <? limit then Some (result, rest) else None.
Definition read_given_char (c : char) (s : rstring) : option rstring :=
  match s with c' :: s => if bool_decide (c' = c) then Some s else None | [] => None end.
Definition read_separator {A} (sep : char) (index : nat) (inner : rstring → option (A * rstring)) (s : rstring) : option (A * rstring) :=
  match index with O => inner s | S _ => s ← read_given_char sep s; inner s end.
Definition dot : char := 46.
Definition colon : char := 58.
Definition read_ipv4_addr (s : rstring) : option (N * rstring) :=
  let octet := read_number 10 3 256 false in
  '(a, s) ← read_separator dot 0 octet s;
  '(b, s) ← read_separator dot 1 octet s;
  '(c, s) ← read_separator dot 2 octet s;
  '(d, s) ← read_separator dot 3 octet s;
  Some (ipv4 a b c d, s).
(** [left] groups are still wanted, [i] are read; the flag says whether a version 4
    address ended them. *)
Fixpoint read_groups (left i : nat) (s : rstring) : list N * bool * rstring :=
  match left with
  | O => ([], false, s)
  | S left' =>
      match (match left' with O => None | S _ => read_separator colon i read_ipv4_addr s end) with
      | Some (v4, s) => ([v4 / 2^16; v4 mod 2^16], true, s)
      | None =>
          match read_separator colon i (read_number 16 4 (2^16) true) s with
          | Some (g, s) => let '(gs, v4, s) := read_groups left' (S i) s in (g :: gs, v4, s)
          | None => ([], false, s)
          end
      end
  end.
Definition read_ipv6_addr (s : rstring) : option (list N * rstring) :=
  let '(head, head_ipv4, s) := read_groups 8 0 s in
  if bool_decide (length head = 8%nat) then Some (head, s)
  else if head_ipv4 then None
  else
    s ← read_given_char colon s;
    s ← read_given_char colon s;
    let '(tail, _, s) := read_groups (8 - (length head + 1)) 0 s in
    Some (head ++ repeat 0 (8 - length head - length tail) ++ tail, s).
Definition parse_ip (s : rstring) : option IpAddr :=
  match read_ipv4_addr s with
  | Some (ip, rest) => if bool_decide (rest = []) then Some (V4 ip) else None
  | None =>
      '(segments, rest) ← read_ipv6_addr s;
      if bool_decide (rest = []) then Some (V6 segments) else None
  end.

(** ** Classifications of the standard library *)
Definition v4_is_loopback (ip : N) : bool := let '(a, _, _, _) := octets ip in a =? 127.
Definition v4_is_private (ip : N) : bool :=
  let '(a, b, _, _) := octets ip in
  (a =? 10) || ((a =? 172) && (16 <=? b) && (b <=? 31)) || ((a =? 192) && (b =? 168)).
Definition v4_is_link_local (ip : N) : bool := let '(a, b, _, _) := octets ip in (a =? 169) && (b =? 254).
Definition v4_is_unspecified (ip : N) : bool := ip =? 0.
Definition v4_is_multicast (ip : N) : bool := let '(a, _, _, _) := octets ip in (224 <=? a) && (a <=? 239).
Definition v4_is_broadcast (ip : N) : bool := ip =? ipv4 255 255 255 255.
Definition segment0 (ip : list N) : N := default 0 (head ip).
Definition v6_is_loopback (ip : list N) : bool := bool_decide (ip = [0; 0; 0; 0; 0; 0; 0; 1]).
Definition v6_is_unspecified (ip : list N) : bool := bool_decide (ip = [0; 0; 0; 0; 0; 0; 0; 0]).
Definition v6_is_multicast (ip : list N) : bool := segment0 ip / 256 =? 255.
Definition v6_is_unique_local (ip : list N) : bool := N.land (segment0 ip) 0xfe00 =? 0xfc00.
Definition v6_is_unicast_link_local (ip : list N) : bool := N.land (segment0 ip) 0xffc0 =? 0xfe80.
(** IPv4-compatible and IPv4-mapped addresses. *)
Definition to_ipv4 (ip : list N) : option N :=
  match ip with
  | [0; 0; 0; 0; 0; m; ab; cd] => if (m =? 0) || (m =? 0xffff) then Some (ab * 2^16 + cd) else None
  | _ => None
  end.
Definition is_loopback (ip : IpAddr) : bool := match ip with V4 ip => v4_is_loopback ip | V6 ip => v6_is_loopback ip end.

(** ** The ranges of the proxy *)
Definition u32_max : N := 2^32 - 1.
Definition ipv4_in_cidr (ip base prefix : N) : bool :=
  let mask := if prefix =? 0 then 0 else N.shiftl u32_max (32 - prefix) mod 2^32 in
  N.land ip mask =? N.land base mask.
Definition is_non_public_ipv4 (ip : N) : bool :=
  v4_is_loopback ip || v4_is_private ip || v4_is_link_local ip || v4_is_unspecified ip || v4_is_multicast ip || v4_is_broadcast ip
  || ipv4_in_cidr ip (ipv4 0 0 0 0) 8 || ipv4_in_cidr ip (ipv4 100 64 0 0) 10 || ipv4_in_cidr ip (ipv4 192 0 0 0) 24
  || ipv4_in_cidr ip (ipv4 192 0 2 0) 24 || ipv4_in_cidr ip (ipv4 198 18 0 0) 15 || ipv4_in_cidr ip (ipv4 198 51 100 0) 24
  || ipv4_in_cidr ip (ipv4 203 0 113 0) 24 || ipv4_in_cidr ip (ipv4 240 0 0 0) 4.
Definition is_non_public_ipv6 (ip : list N) : bool :=
  match to_ipv4 ip with
  | Some v4 => is_non_public_ipv4 v4 || v6_is_loopback ip
  | None =>
      v6_is_loopback ip || v6_is_unspecified ip || v6_is_multicast ip || v6_is_unique_local ip || v6_is_unicast_link_local ip
  end.
Definition is_non_public_ip (ip : IpAddr) : bool :=
  match ip with V4 ip => is_non_public_ipv4 ip | V6 ip => is_non_public_ipv6 ip end.

(** ** Lemmas: parsing *)
Example parses :
  parse_ip (lit "127.0.0.1") = Some (V4 (ipv4 127 0 0 1)) ∧ parse_ip (lit "127.0.0.01") = None ∧
  parse_ip (lit "1.2.3.4x") = None ∧ parse_ip (lit "::1") = Some (V6 [0; 0; 0; 0; 0; 0; 0; 1]) ∧
  parse_ip (lit "::ffff:10.0.0.1") = Some (V6 [0; 0; 0; 0; 0; 0xffff; 0xa00; 1]) ∧
  parse_ip (lit "2001:db8::1:2") = Some (V6 [0x2001; 0xdb8; 0; 0; 0; 0; 1; 2]) ∧
  parse_ip (lit "1::2::3") = None ∧ parse_ip (lit "12345::") = None ∧ parse_ip (lit "1:2:3:4:5:6:7:8") = Some (V6 [1; 2; 3; 4; 5; 6; 7; 8]).
Proof. vm_compute. done. Qed.

Lemma read_number_bound radix max_digits limit zero s n rest :
  read_number radix max_digits limit zero s = Some (n, rest) → n < limit.
Proof.
  unfold read_number. destruct (read_digits _ _ _ _ _) as [[[result count] rest']|]; [|done]. cbn [mbind option_bind].
  repeat case_match; try done. intros [= <- <-]. by apply N.ltb_lt.
Qed.
Lemma separated_bound {A} sep i (inner : rstring → option (A * rstring)) (P : A → Prop) s a rest :
  (∀ s a rest, inner s = Some (a, rest) → P a) → read_separator sep i inner s = Some (a, rest) → P a.
Proof.
  intros Hi. destruct i; cbn; [apply Hi|]. destruct (read_given_char sep s); [|done]. apply Hi.
Qed.
Lemma read_ipv4_bound s ip rest : read_ipv4_addr s = Some (ip, rest) → ip < 2^32.
Proof.
  unfold read_ipv4_addr. intros H.
  repeat match type of H with
  | mbind _ (read_separator dot ?i ?r ?s) = _ =>
      let E := fresh "E" in let a := fresh "o" in let t := fresh "t" in
      destruct (read_separator dot i r s) as [[a t]|] eqn:E; [|discriminate H]; cbn [mbind option_bind] in H;
      apply (separated_bound _ _ _ (λ n, n < 256)) in E; [|intros; by eapply read_number_bound]
  end.
  injection H as <- _. unfold ipv4. lia.
Qed.
Lemma read_groups_spec left i s gs v4 rest :
  read_groups left i s = (gs, v4, rest) → (length gs ≤ left)%nat ∧ Forall (λ g, g < 2^16) gs.
Proof.
  revert i s gs v4 rest. induction left as [|left IH]; intros i s gs v4 rest; cbn [read_groups].
  { intros [= <- <- <-]. split; [done|constructor]. }
  destruct (match left with O => None | S _ => _ end) as [[ip t]|] eqn:E.
  { intros [= <- <- <-]. destruct left as [|left]; [done|]. apply (separated_bound _ _ _ (λ n, n < 2^32)) in E; [|apply read_ipv4_bound].
    split; [cbn; lia|]. repeat constructor; [|by apply N.mod_lt]. apply N.Div0.div_lt_upper_bound. lia. }
  destruct (read_separator colon i (read_number 16 4 (2^16) true) s) as [[g t]|] eqn:Eg.
  - destruct (read_groups left (S i) t) as [[gs' v4'] rest'] eqn:Er. intros [= <- <- <-]. apply IH in Er as [Hl Hg].
    split; [cbn; lia|]. constructor; [|done]. eapply (separated_bound _ _ _ (λ n, n < 2^16)); [|exact Eg]. intros. by eapply read_number_bound.
  - intros [= <- <- <-]. split; [cbn; lia|constructor].
Qed.
Definition ip_ok (ip : IpAddr) : Prop :=
  match ip with V4 ip => ip < 2^32 | V6 segments => length segments = 8%nat ∧ Forall (λ g, g < 2^16) segments end.
(** What is parsed is an address. *)
Lemma parse_ip_ok s ip : parse_ip s = Some ip → ip_ok ip.
Proof.
  unfold parse_ip. destruct (read_ipv4_addr s) as [[ip4 rest]|] eqn:E4.
  { case_bool_decide; [|done]. intros [= <-]. by eapply read_ipv4_bound. }
  unfold read_ipv6_addr. destruct (read_groups 8 0 s) as [[hd v4] t] eqn:Eh. apply read_groups_spec in Eh as [Hl Hg].
  case_bool_decide as H8; cbn [mbind option_bind].
  { case_bool_decide; [|done]. by intros [= <-]. }
  destruct v4; [done|]. destruct (read_given_char colon t) as [t1|]; [|done]. cbn [mbind option_bind].
  destruct (read_given_char colon t1) as [t2|]; [|done]. cbn [mbind option_bind].
  destruct (read_groups (8 - (length hd + 1)) 0 t2) as [[tl v4'] t3] eqn:Et. apply read_groups_spec in Et as [Hl' Hg'].
  cbn [mbind option_bind]. case_bool_decide; [|done]. intros [= <-]. split.
  - rewrite !length_app, repeat_length. lia.
  - apply Forall_app. split; [done|]. apply Forall_app. split; [|done]. clear. induction (8 - length hd - length tl)%nat; cbn; by constructor.
Qed.

(** ** Lemmas: ranges *)
Lemma land_high x w k : k <= w → x < 2^w → N.land x (N.shiftl (N.ones w) k mod 2^w) = x / 2^k * 2^k.
Proof.
  intros Hk Hx. rewrite <- N.shiftl_mul_pow2, <- N.shiftr_div_pow2.
  apply N.bits_inj. intros i. rewrite N.land_spec.
  destruct (N.ltb_spec i w) as [Hi|Hi].
  - rewrite N.mod_pow2_bits_low by done. destruct (N.ltb_spec i k).
    + by rewrite !N.shiftl_spec_low, andb_false_r by done.
    + rewrite !N.shiftl_spec_high by lia. rewrite N.ones_spec_low by lia. rewrite andb_true_r.
      rewrite N.shiftr_spec by lia. f_equal. lia.
  - rewrite N.mod_pow2_bits_high, andb_false_r by done. rewrite N.shiftl_spec_high by lia. rewrite N.shiftr_spec by lia.
    rewrite N.sub_add by lia. symmetry. destruct (decide (x = 0)) as [->|Hz]; [apply N.bits_0|].
    apply N.bits_above_log2. apply N.lt_le_trans with w; [|done]. apply N.log2_lt_pow2; [lia|done].
Qed.
Lemma land_mask ip k : k <= 32 → ip < 2^32 → N.land ip (N.shiftl u32_max k mod 2^32) = ip / 2^k * 2^k.
Proof. unfold u32_max. change (2^32 - 1) with (N.ones 32). apply land_high. Qed.
(** The blocks of the same prefix. *)
Lemma ipv4_in_cidr_spec ip base prefix :
  0 < prefix <= 32 → ip < 2^32 → base < 2^32 →
  ipv4_in_cidr ip base prefix = true ↔ ip / 2^(32 - prefix) = base / 2^(32 - prefix).
Proof.
  intros Hp Hip Hb. unfold ipv4_in_cidr. destruct (N.eqb_spec prefix 0); [lia|].
  rewrite N.eqb_eq, !land_mask by lia. split; [|by intros ->]. intros H. eapply N.mul_cancel_r; [|exact H]. apply N.pow_nonzero. lia.
Qed.
Definition within (ip : N) (r : N * N) : Prop := r.1 <= ip <= r.2.
Lemma block_range ip base k : base mod 2^k = 0 → ip / 2^k = base / 2^k ↔ within ip (base, base + (2^k - 1)).
Proof.
  intros Hb. unfold within. cbn [fst snd]. assert (0 < 2^k) by (apply N.neq_0_lt_0, N.pow_nonzero; lia).
  pose proof (N.div_mod base (2^k)) as Ed. pose proof (N.div_mod ip (2^k)) as Ei. pose proof (N.mod_lt ip (2^k)) as Hm.
  specialize (Ed ltac:(lia)). specialize (Ei ltac:(lia)). specialize (Hm ltac:(lia)).
  rewrite Hb, N.add_0_r in Ed. generalize dependent (ip mod 2^k). intros m Ei Hm. split.
  - intros E. rewrite E, <- Ed in Ei. lia.
  - intros [H1 H2]. symmetry. apply (N.div_unique _ _ _ (ip - base)); [lia|]. rewrite <- Ed. lia.
Qed.
Lemma cidr_range ip base prefix hi :
  ip < 2^32 → (0 < prefix <= 32 ∧ base < 2^32 ∧ base mod 2^(32 - prefix) = 0 ∧ base + (2^(32 - prefix) - 1) = hi) →
  ipv4_in_cidr ip base prefix = true ↔ within ip (base, hi).
Proof. intros Hip (Hp & Hb & Hm & <-). rewrite ipv4_in_cidr_spec by done. by apply block_range. Qed.

(** The blocks that are not public: this network, private, shared, loopback, link-local,
    protocol assignments, documentation, benchmarking, multicast and reserved. *)
Definition LOCAL_RANGES : list (N * N) :=
  [(ipv4 0 0 0 0, ipv4 0 255 255 255); (ipv4 10 0 0 0, ipv4 10 255 255 255); (ipv4 100 64 0 0, ipv4 100 127 255 255);
   (ipv4 127 0 0 0, ipv4 127 255 255 255); (ipv4 169 254 0 0, ipv4 169 254 255 255); (ipv4 172 16 0 0, ipv4 172 31 255 255);
   (ipv4 192 0 0 0, ipv4 192 0 0 255); (ipv4 192 0 2 0, ipv4 192 0 2 255); (ipv4 192 168 0 0, ipv4 192 168 255 255);
   (ipv4 198 18 0 0, ipv4 198 19 255 255); (ipv4 198 51 100 0, ipv4 198 51 100 255); (ipv4 203 0 113 0, ipv4 203 0 113 255);
   (ipv4 224 0 0 0, ipv4 255 255 255 255)].
Lemma octet_ranges ip : ip < 2^32 →
  (v4_is_loopback ip = true ↔ within ip (ipv4 127 0 0 0, ipv4 127 255 255 255)) ∧
  (v4_is_private ip = true ↔ within ip (ipv4 10 0 0 0, ipv4 10 255 255 255) ∨ within ip (ipv4 172 16 0 0, ipv4 172 31 255 255) ∨
     within ip (ipv4 192 168 0 0, ipv4 192 168 255 255)) ∧
  (v4_is_link_local ip = true ↔ within ip (ipv4 169 254 0 0, ipv4 169 254 255 255)) ∧
  (v4_is_multicast ip = true ↔ within ip (ipv4 224 0 0 0, ipv4 239 255 255 255)).
Proof.
  intros Hip. unfold v4_is_loopback, v4_is_private, v4_is_link_local, v4_is_multicast, octets, within. cbn [fst snd].
  assert (ip / 2^16 = ip / 2^24 * 256 + ip / 2^16 mod 256) as E.
  { replace (2^24) with (2^16 * 256) by done. rewrite <- N.Div0.div_div, N.mul_comm. apply N.div_mod. lia. }
  set (a := ip / 2^24) in *. set (b := ip / 2^16 mod 256) in *. assert (b < 256) by (by apply N.mod_lt).
  assert (2^16 * (a * 256 + b) <= ip < 2^16 * (a * 256 + b + 1)) as H2.
  { rewrite <- E. split; [by apply N.Div0.mul_div_le|]. rewrite N.add_1_r. by apply N.mul_succ_div_gt. }
  clearbody a b. clear E. change (2^16) with 65536 in H2.
  rewrite !orb_true_iff, !andb_true_iff, !N.eqb_eq, !N.leb_le. unfold ipv4. split_and!; lia.
Qed.
Lemma is_non_public_ipv4_spec ip : ip < 2^32 → is_non_public_ipv4 ip = true ↔ Exists (within ip) LOCAL_RANGES.
Proof.
  intros Hip. destruct (octet_ranges ip Hip) as (H1 & H2 & H3 & H4). unfold is_non_public_ipv4.
  assert (∀ base prefix hi, (0 < prefix <= 32 ∧ base < 2^32 ∧ base mod 2^(32 - prefix) = 0 ∧ base + (2^(32 - prefix) - 1) = hi) →
            ipv4_in_cidr ip base prefix = true ↔ within ip (base, hi)) as Hc by (intros; by apply cidr_range).
  rewrite !orb_true_iff, H1, H2, H3, H4. clear H1 H2 H3 H4.
  rewrite (Hc _ _ (ipv4 0 255 255 255)), (Hc _ _ (ipv4 100 127 255 255)), (Hc _ _ (ipv4 192 0 0 255)), (Hc _ _ (ipv4 192 0 2 255)),
    (Hc _ _ (ipv4 198 19 255 255)), (Hc _ _ (ipv4 198 51 100 255)), (Hc _ _ (ipv4 203 0 113 255)), (Hc _ _ (ipv4 255 255 255 255))
    by (split_and!; [reflexivity|discriminate|reflexivity..]). clear Hc.
  assert (v4_is_unspecified ip = true → within ip (ipv4 0 0 0 0, ipv4 0 255 255 255)) as Hu.
  { unfold v4_is_unspecified, within. rewrite N.eqb_eq. by intros ->. }
  assert ((within ip (ipv4 224 0 0 0, ipv4 239 255 255 255) ∨ v4_is_broadcast ip = true ∨ within ip (ipv4 240 0 0 0, ipv4 255 255 255 255)) ↔
    within ip (ipv4 224 0 0 0, ipv4 255 255 255 255)) as Hm.
  { unfold v4_is_broadcast, within, ipv4. rewrite N.eqb_eq. cbn [fst snd]. lia. }
  unfold LOCAL_RANGES. rewrite !Exists_cons, Exists_nil, <- Hm. tauto.
Qed.

(** The version 6 addresses that are not public: those that carry a local version 4
    address, the unspecified and the loopback address, and the unique-local,
    link-local and multicast blocks. *)
Definition local_segments (ip : list N) : Prop :=
  match to_ipv4 ip with
  | Some v4 => Exists (within v4) LOCAL_RANGES
  | None => Exists (within (segment0 ip)) [(0xfc00, 0xfdff); (0xfe80, 0xfebf); (0xff00, 0xffff)]
  end.
Definition local_address (ip : IpAddr) : Prop :=
  match ip with V4 ip => Exists (within ip) LOCAL_RANGES | V6 ip => local_segments ip end.
Lemma segment_block x base k : k <= 16 → x < 2^16 → base mod 2^k = 0 →
  (N.land x (N.shiftl (N.ones 16) k mod 2^16) =? base) = true ↔ within x (base, base + (2^k - 1)).
Proof.
  intros Hk Hx Hb. rewrite N.eqb_eq, land_high by done. rewrite <- block_range by done.
  assert (2^k ≠ 0) by (apply N.pow_nonzero; lia). pose proof (N.div_mod base (2^k)) as Ed. rewrite Hb, N.add_0_r in Ed.
  specialize (Ed ltac:(done)). split.
  - intros H0. rewrite <- H0. by rewrite N.div_mul.
  - intros ->. rewrite N.mul_comm. by rewrite <- Ed.
Qed.
Lemma is_non_public_ipv6_spec ip : length ip = 8%nat → Forall (λ g, g < 2^16) ip → (is_non_public_ipv6 ip = true) ↔ local_segments ip.
Proof.
  intros Hlen Hip. unfold is_non_public_ipv6, local_segments. destruct (to_ipv4 ip) as [v4|] eqn:E4.
  - assert (v4 < 2^32 ∧ (v6_is_loopback ip = true → v4 = 1)) as [Hv Hl].
    { unfold to_ipv4 in E4. repeat case_match; try done. injection E4 as <-. rewrite !Forall_cons in Hip. split; [lia|].
      unfold v6_is_loopback. rewrite bool_decide_eq_true. by intros [= -> -> ->]. }
    rewrite orb_true_iff, is_non_public_ipv4_spec by done. split; [|by left]. intros [?|Hlo]; [done|].
    rewrite (Hl Hlo). left. by vm_compute.
  - assert (v6_is_loopback ip = false ∧ v6_is_unspecified ip = false) as [-> ->].
    { split; apply bool_decide_eq_false; by intros ->. }
    assert (segment0 ip < 2^16) as Hs by (destruct ip; [done|by inversion Hip]).
    unfold v6_is_multicast, v6_is_unique_local, v6_is_unicast_link_local. cbn [orb].
    rewrite !orb_true_iff, !Exists_cons, Exists_nil.
    change 0xfe00 with (N.shiftl (N.ones 16) 9 mod 2^16). change 0xffc0 with (N.shiftl (N.ones 16) 6 mod 2^16).
    rewrite !segment_block by done. change (0xfc00 + (2^9 - 1)) with 0xfdff. change (0xfe80 + (2^6 - 1)) with 0xfebf.
    assert ((segment0 ip / 256 =? 255) = true ↔ within (segment0 ip) (0xff00, 0xffff)) as ->; [|tauto].
    rewrite N.eqb_eq. change 255 with (0xff00 / 2^8) at 1. change 256 with (2^8). by rewrite (block_range _ 0xff00 8).
Qed.

(** ** Properties *)

(** Which addresses are local.  An address literal is kept from the network exactly if
    it lies in one of the listed blocks; a version 6 address that carries a version 4
    address counts as that one.  The bit masks cover the blocks they stand for,
    no more and no less. *)
Theorem local_addresses_are_the_listed_blocks (s : rstring) (ip : IpAddr) :
  parse_ip s = Some ip → is_non_public_ip ip = true ↔ local_address ip.
Proof.
  intros Hip%parse_ip_ok. destruct ip as [ip|ip]; [by apply is_non_public_ipv4_spec|]. destruct Hip. by apply is_non_public_ipv6_spec.
Qed.

(** A version 6 address of the well-known translation prefix carries a loopback address, and is
    not taken to be local; nor are documentation addresses. *)
Example translated_loopback_is_public :
  (is_non_public_ip <$> parse_ip (lit "64:ff9b::127.0.0.1")) = Some false ∧
  (is_non_public_ip <$> parse_ip (lit "2001:db8::1")) = Some false.
Proof. vm_compute. done. Qed.

Lemma local_addresses_are_the_listed_blocks_witness :
  parse_ip (lit "::ffff:172.31.255.255") = Some (V6 [0; 0; 0; 0; 0; 0xffff; 0xac1f; 0xffff]) ∧
  local_address (V6 [0; 0; 0; 0; 0; 0xffff; 0xac1f; 0xffff]).
Proof.
  assert (parse_ip (lit "::ffff:172.31.255.255") = Some (V6 [0; 0; 0; 0; 0; 0xffff; 0xac1f; 0xffff])) as H by (vm_compute; reflexivity).
  split; [exact H|]. apply (local_addresses_are_the_listed_blocks _ _ H). vm_compute. reflexivity.
Defined.
