(* ===== verification/NetworkPolicy.v ===== *)
(** * The policy of the network proxy ([network-proxy/src/policy.rs], [config.rs], [state.rs], [runtime.rs], [network_policy.rs])

    Hosts and domain patterns, the settings and the constraints that a managed
    configuration puts on them, the decision on a host, and the shared state
    whose updates interleave.  Globs are compiled by a library and hosts of
    constraints are read by another: both are parameters, with the documented
    behaviour that the theorems use as laws. *)
From S2P Require Import Prelude RustStr RustPath AbsolutePath IpAddr Approvals NetworkApproval.
Open Scope N_scope.

(** ** Hosts ([policy.rs]) *)
Definition split_once (delimiter s : rstring) : option (rstring * rstring) :=
  i ← find delimiter s; Some (take i s, drop (i + length delimiter) s).
Definition parses_as_ip (s : rstring) : bool := bool_decide (is_Some (parse_ip s)).
Definition unscoped_ip_literal (host : rstring) : option rstring :=
  '(ip, _) ← split_once (lit "%") host; if parses_as_ip ip then Some ip else None.
Definition scoped_ip (delimiter host : rstring) : option rstring :=
  '(ip, scope) ← split_once delimiter host; if parses_as_ip ip then Some (ip ++ lit "%" ++ scope) else None.
Definition normalize_ip_literal (host : rstring) : option rstring :=
  if parses_as_ip host then Some host
  else match scoped_ip (lit "%25") host with Some s => Some s | None => scoped_ip (lit "%") host end.
Definition is_dot (c : char) : bool := bool_decide (c = dot).
Definition normalize_dns_host_or_ip_literal (host : rstring) : rstring :=
  let host := trim_end_matches is_dot (to_ascii_lowercase host) in default host (normalize_ip_literal host).
Definition normalize_host (host : rstring) : rstring :=
  let host := trim host in
  match (if starts_with host (lit "[") then find (lit "]") host else None) with
  | Some close => normalize_dns_host_or_ip_literal (drop 1 (take close host))
  | None =>
      if (length (List.filter (λ c, bool_decide (c = colon)) host) =? 1)%nat
      then normalize_dns_host_or_ip_literal (default [] (head (split colon host)))
      else normalize_dns_host_or_ip_literal host
  end.
Definition host_parse (input : rstring) : option rstring :=
  let normalized := normalize_host input in if bool_decide (normalized = []) then None else Some normalized.
Definition is_loopback_host (host : rstring) : bool :=
  let host := default host (unscoped_ip_literal host) in
  if bool_decide (host = lit "localhost") then true
  else match parse_ip host with Some ip => is_loopback ip | None => false end.

(** ** Domain patterns *)
Inductive DomainPattern := ApexAndSubdomains (domain : rstring) | SubdomainsOnly (domain : rstring) | Exact (domain : rstring).
Definition parse_domain (domain : rstring) (build : rstring → DomainPattern) : DomainPattern :=
  let domain := trim domain in if bool_decide (domain = []) then Exact [] else build domain.
Definition parse_pattern (input : rstring) : DomainPattern :=
  let input := trim input in
  if bool_decide (input = []) then Exact []
  else match strip_prefix (lit "**.") input with
       | Some domain => parse_domain domain ApexAndSubdomains
       | None => match strip_prefix (lit "*.") input with
                 | Some domain => parse_domain domain SubdomainsOnly
                 | None => Exact input
                 end
       end.
Definition normalize_pattern (pattern : rstring) : rstring :=
  let pattern := trim pattern in
  if bool_decide (pattern = lit "*") then lit "*"
  else match strip_prefix (lit "**.") pattern with
       | Some domain => lit "**." ++ normalize_host domain
       | None => match strip_prefix (lit "*.") pattern with
                 | Some domain => lit "*." ++ normalize_host domain
                 | None => normalize_host pattern
                 end
       end.
Definition expand_domain_pattern (pattern : rstring) : list rstring :=
  match parse_pattern pattern with
  | Exact domain => [domain]
  | SubdomainsOnly domain => [lit "?*." ++ domain]
  | ApexAndSubdomains domain => [domain; lit "?*." ++ domain]
  end.
Definition is_global_wildcard_domain_pattern (pattern : rstring) : bool :=
  existsb (λ candidate, bool_decide (candidate = lit "*")) (expand_domain_pattern (normalize_pattern pattern)).
Definition normalize_domain (domain : rstring) : rstring := to_ascii_lowercase (trim_end_matches is_dot domain).
Definition domain_eq (left right : rstring) : bool := bool_decide (normalize_domain left = normalize_domain right).
Definition is_subdomain_or_equal (child parent : rstring) : bool :=
  let child := normalize_domain child in
  let parent := normalize_domain parent in
  if bool_decide (child = parent) then true else ends_with child (dot :: parent).
Definition is_strict_subdomain (child parent : rstring) : bool :=
  let child := normalize_domain child in
  let parent := normalize_domain parent in
  negb (bool_decide (child = parent)) && ends_with child (dot :: parent).
Definition allows (self candidate : DomainPattern) : bool :=
  match self, candidate with
  | Exact domain, Exact candidate => domain_eq candidate domain
  | Exact _, _ => false
  | SubdomainsOnly domain, Exact candidate => is_strict_subdomain candidate domain
  | SubdomainsOnly domain, SubdomainsOnly candidate => is_subdomain_or_equal candidate domain
  | SubdomainsOnly domain, ApexAndSubdomains candidate => is_strict_subdomain candidate domain
  | ApexAndSubdomains domain, (Exact candidate | SubdomainsOnly candidate | ApexAndSubdomains candidate) =>
      is_subdomain_or_equal candidate domain
  end.
Section constraints_patterns.
(** [url::Host::parse] and its text. *)
Context (url_host : rstring → option rstring).
Definition contains_any (chars s : rstring) : bool := existsb (λ c, bool_decide (c ∈ chars)) s.
Definition parse_domain_for_constraints (domain : rstring) : rstring :=
  let domain := trim_end_matches is_dot (trim domain) in
  if bool_decide (domain = []) then []
  else
    let host := if starts_with domain (lit "[") && ends_with domain (lit "]")
                then drop 1 (take (length domain - 1) domain) else domain in
    if contains_any (lit "*?%") host then domain else default [] (url_host host).
Definition parse_for_constraints (input : rstring) : DomainPattern :=
  let input := trim input in
  if bool_decide (input = []) then Exact []
  else match strip_prefix (lit "**.") input with
       | Some domain => ApexAndSubdomains (parse_domain_for_constraints domain)
       | None => match strip_prefix (lit "*.") input with
                 | Some domain => SubdomainsOnly (parse_domain_for_constraints domain)
                 | None => Exact (parse_domain_for_constraints input)
                 end
       end.
End constraints_patterns.

(** ** Globs ([globset]) *)
Class Globs := {
  Glob : Type;
  GlobSet : Type;
  glob_new : rstring → option Glob;
  set_build : list Glob → option GlobSet;
  is_match : GlobSet → rstring → bool }.
Inductive GlobalWildcard := AllowGlobal | RejectGlobal.
Definition GLOBAL_WILDCARD_ERROR : rstring :=
  lit "unsupported global wildcard domain pattern " ++ quote ++ lit "*" ++ quote ++ lit "; use exact hosts or scoped wildcards like *.example.com or **.example.com".
Section globs.
Context {G : Globs}.
Fixpoint add_candidates (candidates : list rstring) (seen : list rstring) (globs : list Glob) : outcome rstring (list rstring * list Glob) :=
  match candidates with
  | [] => Ok (seen, globs)
  | c :: candidates =>
      if bool_decide (c ∈ seen) then add_candidates candidates seen globs
      else
        let? glob := ok_or (lit "invalid glob pattern: " ++ c) (glob_new c) in
        add_candidates candidates (c :: seen) (globs ++ [glob])
  end.
Fixpoint add_patterns (patterns : list rstring) (global_wildcard : GlobalWildcard) (seen : list rstring) (globs : list Glob) :
    outcome rstring (list Glob) :=
  match patterns with
  | [] => Ok globs
  | pattern :: patterns =>
      if match global_wildcard with RejectGlobal => is_global_wildcard_domain_pattern pattern | AllowGlobal => false end
      then Err GLOBAL_WILDCARD_ERROR
      else
        let? sg := add_candidates (expand_domain_pattern (normalize_pattern pattern)) seen globs in
        add_patterns patterns global_wildcard sg.1 sg.2
  end.
Definition compile_globset_with_policy (patterns : list rstring) (global_wildcard : GlobalWildcard) : outcome rstring GlobSet :=
  let? globs := add_patterns patterns global_wildcard [] [] in ok_or (lit "glob set") (set_build globs).
Definition compile_allowlist_globset (patterns : list rstring) := compile_globset_with_policy patterns AllowGlobal.
Definition compile_denylist_globset (patterns : list rstring) := compile_globset_with_policy patterns RejectGlobal.
Definition globset_matches_host_or_unscoped (set : GlobSet) (host : rstring) : bool :=
  is_match set host || match unscoped_ip_literal host with Some ip => is_match set ip | None => false end.
End globs.

(** ** Settings ([config.rs]) *)
Inductive NetworkDomainPermission := PermNone | PermAllow | PermDeny.
#[global] Instance NetworkDomainPermission_eq_dec : EqDecision NetworkDomainPermission.
Proof. solve_decision. Defined.
Definition permission_rank (p : NetworkDomainPermission) : nat := match p with PermNone => 0 | PermAllow => 1 | PermDeny => 2 end.
Record NetworkDomainPermissionEntry := mk_domain { d_pattern : rstring; d_permission : NetworkDomainPermission }.
#[global] Instance NetworkDomainPermissionEntry_eq_dec : EqDecision NetworkDomainPermissionEntry.
Proof. solve_decision. Defined.
(** The strongest permission of a pattern, at its first place. *)
Fixpoint join_entry (e : NetworkDomainPermissionEntry) (es : list NetworkDomainPermissionEntry) : list NetworkDomainPermissionEntry :=
  match es with
  | [] => [e]
  | e' :: es =>
      if bool_decide (d_pattern e' = d_pattern e)
      then (if (permission_rank (d_permission e') <? permission_rank (d_permission e))%nat then mk_domain (d_pattern e') (d_permission e) else e') :: es
      else e' :: join_entry e es
  end.
Definition effective_entries (entries : list NetworkDomainPermissionEntry) : list NetworkDomainPermissionEntry :=
  foldl (λ acc e, join_entry e acc) [] entries.
Inductive NetworkUnixSocketPermission := SocketAllow | SocketNone.
#[global] Instance NetworkUnixSocketPermission_eq_dec : EqDecision NetworkUnixSocketPermission.
Proof. solve_decision. Defined.
Inductive NetworkMode := Limited | Full.
#[global] Instance NetworkMode_eq_dec : EqDecision NetworkMode.
Proof. solve_decision. Defined.
Definition allows_method (mode : NetworkMode) (method : rstring) : bool :=
  match mode with Full => true | Limited => bool_decide (method ∈ [lit "GET"; lit "HEAD"; lit "OPTIONS"]) end.
Definition network_mode_rank (mode : NetworkMode) : nat := match mode with Limited => 0 | Full => 1 end.

(** [H] is the configuration of a hook; the permissions of sockets are in the order
    of their paths, each path once. *)
Record NetworkProxySettings {H : Type} := mk_settings {
  enabled : bool; proxy_url : rstring; enable_socks5 : bool; socks_url : rstring; enable_socks5_udp : bool;
  allow_upstream_proxy : bool; dangerously_allow_non_loopback_proxy : bool; dangerously_allow_all_unix_sockets : bool;
  mode : NetworkMode; domains : option (list NetworkDomainPermissionEntry);
  unix_sockets : option (list (rstring * NetworkUnixSocketPermission)); allow_local_binding : bool; mitm : bool; mitm_hooks : list H }.
Arguments NetworkProxySettings : clear implicits.
Section settings.
Context {H : Type}.
Definition settings_default : NetworkProxySettings H :=
  mk_settings H false (lit "http://127.0.0.1:3128") true (lit "http://127.0.0.1:8081") true true false false Full None None false false [].
Definition with_domains (s : NetworkProxySettings H) (d : option (list NetworkDomainPermissionEntry)) : NetworkProxySettings H :=
  mk_settings H (enabled s) (proxy_url s) (enable_socks5 s) (socks_url s) (enable_socks5_udp s) (allow_upstream_proxy s)
    (dangerously_allow_non_loopback_proxy s) (dangerously_allow_all_unix_sockets s) (mode s) d (unix_sockets s)
    (allow_local_binding s) (mitm s) (mitm_hooks s).
Definition with_mode (s : NetworkProxySettings H) (m : NetworkMode) : NetworkProxySettings H :=
  mk_settings H (enabled s) (proxy_url s) (enable_socks5 s) (socks_url s) (enable_socks5_udp s) (allow_upstream_proxy s)
    (dangerously_allow_non_loopback_proxy s) (dangerously_allow_all_unix_sockets s) m (domains s) (unix_sockets s)
    (allow_local_binding s) (mitm s) (mitm_hooks s).
Definition domain_entries (s : NetworkProxySettings H) (p : NetworkDomainPermission) : option (list rstring) :=
  match domains s with
  | None => None
  | Some entries =>
      match d_pattern <$> List.filter (λ e, bool_decide (d_permission e = p)) (effective_entries entries) with
      | [] => None
      | l => Some l
      end
  end.
Definition allowed_domains (s : NetworkProxySettings H) : option (list rstring) := domain_entries s PermAllow.
Definition denied_domains (s : NetworkProxySettings H) : option (list rstring) := domain_entries s PermDeny.
Definition allow_unix_sockets (s : NetworkProxySettings H) : list rstring :=
  match unix_sockets s with
  | None => []
  | Some entries => fst <$> List.filter (λ e, bool_decide (e.2 = SocketAllow)) entries
  end.
Definition non_empty_entries (es : list NetworkDomainPermissionEntry) : option (list NetworkDomainPermissionEntry) :=
  match es with [] => None | _ => Some es end.
Definition upsert_domain_permission (s : NetworkProxySettings H) (host : rstring) (p : NetworkDomainPermission)
    (normalize : rstring → rstring) : NetworkProxySettings H :=
  let es := default [] (domains s) in
  let es := List.filter (λ e, negb (bool_decide (normalize (d_pattern e) = normalize host))) es in
  with_domains s (non_empty_entries (es ++ [mk_domain host p])).
Fixpoint push_entries (p : NetworkDomainPermission) (entries : list rstring) (es : list NetworkDomainPermissionEntry) :
    list NetworkDomainPermissionEntry :=
  match entries with
  | [] => es
  | entry :: entries =>
      push_entries p entries (if bool_decide (mk_domain entry p ∈ es) then es else es ++ [mk_domain entry p])
  end.
Definition set_domain_entries (s : NetworkProxySettings H) (entries : list rstring) (p : NetworkDomainPermission) : NetworkProxySettings H :=
  let es := List.filter (λ e, negb (bool_decide (d_permission e = p))) (default [] (domains s)) in
  with_domains s (non_empty_entries (push_entries p entries es)).
Definition set_allowed_domains (s : NetworkProxySettings H) (entries : list rstring) := set_domain_entries s entries PermAllow.
Definition set_denied_domains (s : NetworkProxySettings H) (entries : list rstring) := set_domain_entries s entries PermDeny.
End settings.

(** ** Constraints ([state.rs]) *)
Record NetworkProxyConstraints := mk_constraints {
  c_enabled : option bool; c_mode : option NetworkMode; c_allow_upstream_proxy : option bool;
  c_dangerously_allow_non_loopback_proxy : option bool; c_dangerously_allow_all_unix_sockets : option bool;
  c_allowed_domains : option (list rstring); c_allowlist_expansion_enabled : option bool; c_denied_domains : option (list rstring);
  c_denylist_expansion_enabled : option bool; c_allow_unix_sockets : option (list rstring); c_allow_local_binding : option bool }.
#[global] Instance NetworkProxyConstraints_eq_dec : EqDecision NetworkProxyConstraints.
Proof. solve_decision. Defined.
Definition no_constraints : NetworkProxyConstraints := mk_constraints None None None None None None None None None None None.
Inductive NetworkProxyConstraintError := InvalidValue (field_name candidate allowed : rstring).
Definition constraint_error_text (e : NetworkProxyConstraintError) : rstring :=
  match e with
  | InvalidValue field_name candidate allowed =>
      lit "invalid value for " ++ field_name ++ lit ": " ++ candidate ++ lit " (allowed " ++ allowed ++ lit ")"
  end.
Definition lowercase_set (l : list rstring) : gset rstring := list_to_set (to_ascii_lowercase <$> l).
Definition validate_non_global_wildcard_domain_patterns (field_name : rstring) (patterns : list rstring) :
    outcome NetworkProxyConstraintError unit :=
  match List.find is_global_wildcard_domain_pattern patterns with
  | Some pattern =>
      Err (InvalidValue field_name (trim pattern) (lit "exact hosts or scoped wildcards like *.example.com or **.example.com"))
  | None => Ok ()
  end.
Definition require (ok : bool) (e : NetworkProxyConstraintError) : outcome NetworkProxyConstraintError unit := if ok then Ok () else Err e.
(** A flag that the managed configuration turned off. *)
Definition flag_allowed (field_name : rstring) (candidate managed : bool) : outcome NetworkProxyConstraintError unit :=
  require (negb (candidate && negb managed)) (InvalidValue field_name (lit "true") (lit "false (disabled by managed config)")).

Section constraints.
Context {H : Type} (url_host : rstring → option rstring).
(** What the checks of hooks say of the flag and the hooks, the [Debug] text of a
    list, and the iteration order of a [HashSet]. *)
Context (hooks_error : bool → list H → option rstring) (debug_strings : list rstring → rstring) (hash_order : gset rstring → list rstring).

Definition mode_text (m : NetworkMode) : rstring := match m with Limited => lit "Limited" | Full => lit "Full" end.
Definition validate_allowed_domains (candidate managed : list rstring) (expansion : option bool) (denied_overrides : gset rstring) :
    outcome NetworkProxyConstraintError unit :=
  match expansion with
  | Some true =>
      let missing := (lowercase_set managed ∖ lowercase_set candidate) ∖ denied_overrides in
      require (bool_decide (missing = ∅))
        (InvalidValue (lit "network.allowed_domains") (lit "missing managed allowed_domains entries") (debug_strings (hash_order missing)))
  | Some false =>
      require (bool_decide (lowercase_set candidate = lowercase_set managed ∖ denied_overrides))
        (InvalidValue (lit "network.allowed_domains") (debug_strings candidate) (lit "must match managed allowed_domains"))
  | None =>
      let managed_patterns := parse_for_constraints url_host <$> managed in
      let invalid := List.filter (λ entry, negb (existsb (λ m, allows m (parse_for_constraints url_host entry)) managed_patterns)) candidate in
      require (bool_decide (invalid = []))
        (InvalidValue (lit "network.allowed_domains") (debug_strings invalid) (lit "subset of managed allowed_domains"))
  end.
Definition validate_denied_domains (candidate managed : list rstring) (expansion : option bool) : outcome NetworkProxyConstraintError unit :=
  match expansion with
  | Some false =>
      require (bool_decide (lowercase_set candidate = lowercase_set managed))
        (InvalidValue (lit "network.denied_domains") (debug_strings candidate) (lit "must match managed denied_domains"))
  | Some true | None =>
      let missing := lowercase_set managed ∖ lowercase_set candidate in
      require (bool_decide (missing = ∅))
        (InvalidValue (lit "network.denied_domains") (lit "missing managed denied_domains entries") (debug_strings (hash_order missing)))
  end.
Definition validate_unix_sockets (candidate managed : list rstring) : outcome NetworkProxyConstraintError unit :=
  let invalid := List.filter (λ entry, negb (bool_decide (to_ascii_lowercase entry ∈ lowercase_set managed))) candidate in
  require (bool_decide (invalid = []))
    (InvalidValue (lit "network.allow_unix_sockets") (debug_strings invalid) (lit "subset of managed allow_unix_sockets")).
Definition validate_policy_against_constraints (config : NetworkProxySettings H) (c : NetworkProxyConstraints) :
    outcome NetworkProxyConstraintError unit :=
  let config_allowed_domains := default [] (allowed_domains config) in
  let config_denied_domains := default [] (denied_domains config) in
  let denied_domain_overrides := lowercase_set config_denied_domains in
  let? _ := match hooks_error (mitm config) (mitm_hooks config) with
            | Some e => Err (InvalidValue (lit "network.mitm_hooks") e (lit "valid MITM hook configuration")) | None => Ok () end in
  let? _ := validate_non_global_wildcard_domain_patterns (lit "network.denied_domains") config_denied_domains in
  let? _ := match c_enabled c with Some max => flag_allowed (lit "network.enabled") (enabled config) max | None => Ok () end in
  let? _ := match c_mode c with
            | Some max => require (negb (network_mode_rank max <? network_mode_rank (mode config))%nat)
                            (InvalidValue (lit "network.mode") (mode_text (mode config)) (mode_text max ++ lit " or more restrictive"))
            | None => Ok () end in
  let? _ := flag_allowed (lit "network.allow_upstream_proxy") (allow_upstream_proxy config) (default true (c_allow_upstream_proxy c)) in
  let? _ := flag_allowed (lit "network.dangerously_allow_non_loopback_proxy") (dangerously_allow_non_loopback_proxy config)
              (default true (c_dangerously_allow_non_loopback_proxy c)) in
  let? _ := flag_allowed (lit "network.dangerously_allow_all_unix_sockets") (dangerously_allow_all_unix_sockets config)
              (default (bool_decide (c_allow_unix_sockets c = None)) (c_dangerously_allow_all_unix_sockets c)) in
  let? _ := match c_allow_local_binding c with
            | Some max => flag_allowed (lit "network.allow_local_binding") (allow_local_binding config) max | None => Ok () end in
  let? _ := match c_allowed_domains c with
            | Some managed =>
                let? _ := validate_non_global_wildcard_domain_patterns (lit "network.allowed_domains") managed in
                validate_allowed_domains config_allowed_domains managed (c_allowlist_expansion_enabled c) denied_domain_overrides
            | None => Ok () end in
  let? _ := match c_denied_domains c with
            | Some managed =>
                let? _ := validate_non_global_wildcard_domain_patterns (lit "network.denied_domains") managed in
                validate_denied_domains config_denied_domains managed (c_denylist_expansion_enabled c)
            | None => Ok () end in
  match c_allow_unix_sockets c with Some managed => validate_unix_sockets (allow_unix_sockets config) managed | None => Ok () end.
End constraints.

(** ** The shared state ([runtime.rs]) *)
Inductive HostBlockReason := RDenied | RNotAllowed | RNotAllowedLocal.
Definition reason_str (r : HostBlockReason) : rstring :=
  match r with RDenied => lit "denied" | RNotAllowed => lit "not_allowed" | RNotAllowedLocal => lit "not_allowed_local" end.
Inductive HostBlockDecision := HostAllowed | HostBlocked (r : HostBlockReason).
#[global] Instance HostBlockReason_eq_dec : EqDecision HostBlockReason.
Proof. solve_decision. Defined.
#[global] Instance HostBlockDecision_eq_dec : EqDecision HostBlockDecision.
Proof. solve_decision. Defined.
Definition MAX_BLOCKED_EVENTS : nat := 200.
Definition u64_max : N := 2^64 - 1.

Section runtime.
Context {G : Globs} {H : Type} (url_host : rstring → option rstring)
  (hooks_error : bool → list H → option rstring) (debug_strings : list rstring → rstring) (hash_order : gset rstring → list rstring).
(** The interception of TLS that the settings ask for, and the directories that paths are read in. *)
Context {Mitm : Type} (build_mitm : NetworkProxySettings H → outcome rstring Mitm)
  (home_dir : option rstring) (current_dir : outcome PathError rstring).

Record ConfigState := mk_state {
  config : NetworkProxySettings H; allow_set : GlobSet; deny_set : GlobSet; st_mitm : Mitm; constraints : NetworkProxyConstraints;
  blocked : list BlockedRequest; blocked_total : N }.
Definition with_blocked (s : ConfigState) (b : list BlockedRequest) (total : N) : ConfigState :=
  mk_state (config s) (allow_set s) (deny_set s) (st_mitm s) (constraints s) b total.
Definition with_config (s : ConfigState) (c : NetworkProxySettings H) : ConfigState :=
  mk_state c (allow_set s) (deny_set s) (st_mitm s) (constraints s) (blocked s) (blocked_total s).
(** On Unix every path that starts with a slash is a native one. *)
Definition parse_socket_path (path : rstring) : option rstring :=
  if is_absolute path
  then match from_absolute_path home_dir current_dir path with Ok p => Some p | _ => None end
  else None.
Fixpoint validate_paths (paths : list rstring) (index : N) : outcome rstring unit :=
  match paths with
  | [] => Ok ()
  | p :: paths =>
      match parse_socket_path p with
      | Some _ => validate_paths paths (index + 1)
      | None => Err (lit "invalid network.allow_unix_sockets[" ++ show index ++ lit "]")
      end
  end.
Definition validate_unix_socket_allowlist_paths (c : NetworkProxySettings H) : outcome rstring unit :=
  validate_paths (allow_unix_sockets c) 0.
Definition into_anyhow {A} (r : outcome NetworkProxyConstraintError A) : outcome rstring A :=
  match r with Ok a => Ok a | Err e => Err (constraint_error_text e) | Panic => Panic end.
Definition build_config_state (c : NetworkProxySettings H) (cs : NetworkProxyConstraints) : outcome rstring ConfigState :=
  let? _ := validate_unix_socket_allowlist_paths c in
  let allowed := default [] (allowed_domains c) in
  let denied := default [] (denied_domains c) in
  let? _ := into_anyhow (validate_non_global_wildcard_domain_patterns (lit "network.denied_domains") denied) in
  let? deny_set := compile_denylist_globset denied in
  let? allow_set := compile_allowlist_globset allowed in
  let? m := build_mitm c in
  Ok (mk_state c allow_set deny_set m cs [] 0).

(** The addresses of a host and port, [None] when the lookup fails or takes too long. *)
Context (lookup_host : rstring → N → option (list IpAddr)).
Definition host_resolves_to_non_public_ip (host : rstring) (port : N) : bool :=
  match parse_ip host with
  | Some ip => is_non_public_ip ip
  | None => match lookup_host host port with None => true | Some addrs => existsb is_non_public_ip addrs end
  end.
Definition is_explicit_local_allowlisted (allowed : list rstring) (host : rstring) : bool :=
  existsb (λ pattern,
    let pattern := trim pattern in
    if bool_decide (pattern = lit "*") || starts_with pattern (lit "*.") || starts_with pattern (lit "**.") then false
    else if contains_any (lit "*?") pattern then false
    else
      let normalized := normalize_host pattern in
      bool_decide (normalized = host) || match unscoped_ip_literal host with Some ip => bool_decide (normalized = ip) | None => false end)
    allowed.
Definition local_literal (host : rstring) : bool :=
  if is_loopback_host host then true
  else match parse_ip (default host (unscoped_ip_literal host)) with Some ip => is_non_public_ip ip | None => false end.
Definition host_blocked (s : ConfigState) (host : rstring) (port : N) : HostBlockDecision :=
  match host_parse host with
  | None => HostBlocked RNotAllowed
  | Some host =>
      let allowed := allowed_domains (config s) in
      if globset_matches_host_or_unscoped (deny_set s) host then HostBlocked RDenied
      else
        let is_allowlisted := globset_matches_host_or_unscoped (allow_set s) host in
        if negb (allow_local_binding (config s)) &&
           (if local_literal host then negb (is_explicit_local_allowlisted (default [] allowed) host)
            else host_resolves_to_non_public_ip host port)
        then HostBlocked RNotAllowedLocal
        else if bool_decide (allowed = None) || negb is_allowlisted then HostBlocked RNotAllowed
        else HostAllowed
  end.

(** ** Decisions on requests ([network_policy.rs]) *)
Definition map_decider_decision (d : NetworkDecision) : NetworkDecision :=
  match d with NdAllow => NdAllow | NdDeny reason _ decision => NdDeny reason Decider decision end.
Definition evaluate_host_policy (s : ConfigState) (decider : option (NetworkPolicyRequest → NetworkDecision)) (r : NetworkPolicyRequest) :
    NetworkDecision :=
  match host_blocked s (rq_host r) (rq_port r) with
  | HostAllowed => NdAllow
  | HostBlocked RNotAllowed =>
      match decider with
      | Some decide => map_decider_decision (decide r)
      | None => deny_with_source (reason_str RNotAllowed) BaselinePolicy
      end
  | HostBlocked reason => deny_with_source (reason_str reason) BaselinePolicy
  end.

(** ** Operations, and their interleaving *)
Definition record_entry (s : ConfigState) (entry : BlockedRequest) : ConfigState :=
  let b := blocked s ++ [entry] in
  with_blocked s (drop (length b - MAX_BLOCKED_EVENTS) b) (N.min u64_max (blocked_total s + 1)).
Definition drain (s : ConfigState) : ConfigState * list BlockedRequest := (with_blocked s [] (blocked_total s), blocked s).
Inductive DomainListKind := KAllow | KDeny.
Definition kind_permission (k : DomainListKind) : NetworkDomainPermission := match k with KAllow => PermAllow | KDeny => PermDeny end.
Definition entries_of (k : DomainListKind) (c : NetworkProxySettings H) : list rstring :=
  default [] (match k with KAllow => allowed_domains c | KDeny => denied_domains c end).
Definition opposite_entries (k : DomainListKind) (c : NetworkProxySettings H) : list rstring :=
  default [] (match k with KAllow => denied_domains c | KDeny => allowed_domains c end).
Definition names_host (host : rstring) (entries : list rstring) : bool := existsb (λ e, bool_decide (normalize_host e = host)) entries.
(** The update that a snapshot leads to: none if the list has the host already. *)
Definition plan_update (kind : DomainListKind) (host : rstring) (snapshot : ConfigState) : outcome rstring (option ConfigState) :=
  if names_host host (entries_of kind (config snapshot)) && negb (names_host host (opposite_entries kind (config snapshot)))
  then Ok None
  else
    let candidate := upsert_domain_permission (config snapshot) host (kind_permission kind) normalize_host in
    let? _ := into_anyhow (validate_policy_against_constraints url_host hooks_error debug_strings hash_order candidate (constraints snapshot)) in
    let? s := build_config_state candidate (constraints snapshot) in
    Ok (Some (with_blocked s (blocked snapshot) (blocked_total snapshot))).
Definition plan_mode (m : NetworkMode) (snapshot : ConfigState) : outcome rstring unit :=
  into_anyhow (validate_policy_against_constraints url_host hooks_error debug_strings hash_order (with_mode (config snapshot) m) (constraints snapshot)).

Context `{EqDecision H}.
#[global] Instance settings_eq_dec : EqDecision (NetworkProxySettings H).
Proof. solve_decision. Defined.
(** What an update does with the state it finds when it has the lock to write. *)
Inductive update_result := Written (s : ConfigState) | Unchanged | Retry | Failed (e : rstring).
Definition finish_update (kind : DomainListKind) (host : rstring) (guard snapshot : ConfigState) : update_result :=
  match plan_update kind host snapshot with
  | Ok None => Unchanged
  | Ok (Some s) =>
      if bool_decide (constraints guard = constraints snapshot) && bool_decide (config guard = config snapshot) then Written s else Retry
  | Err e => Failed e
  | Panic => Failed []
  end.
Definition finish_mode (m : NetworkMode) (guard snapshot : ConfigState) : update_result :=
  match plan_mode m snapshot with
  | Ok _ => if bool_decide (constraints guard = constraints snapshot) then Written (with_config guard (with_mode (config guard) m)) else Retry
  | Err e => Failed e
  | Panic => Failed []
  end.
Definition finish_reload (new snapshot : ConfigState) : ConfigState := with_blocked new (blocked snapshot) (blocked_total snapshot).
(** The write of [force_reload], and of [replace_config_state]. *)
Definition write_forced (guard new : ConfigState) : ConfigState := with_blocked new (blocked guard) (blocked_total new).
Definition write_replaced (guard new : ConfigState) : ConfigState := with_blocked new (blocked guard) (blocked_total guard).

(** The operations that are under way, between the lock to read and the one to write. *)
Inductive Running :=
| RunReload (new snapshot : ConfigState)
| RunUpdate (kind : DomainListKind) (host : rstring) (snapshot : ConfigState)
| RunMode (m : NetworkMode) (snapshot : ConfigState).
Record Shared := mk_shared { state : ConfigState; running : list Running }.
(** A state as the loader makes it. *)
Definition loaded (s : ConfigState) : Prop :=
  validate_policy_against_constraints url_host hooks_error debug_strings hash_order (config s) (constraints s) = Ok () ∧
  build_config_state (config s) (constraints s) = Ok s.
Inductive shared_step : Shared → Shared → Prop :=
| sh_record s l entry : shared_step (mk_shared s l) (mk_shared (record_entry s entry) l)
| sh_drain s l : shared_step (mk_shared s l) (mk_shared (drain s).1 l)
| sh_reload s l new : loaded new → shared_step (mk_shared s l) (mk_shared s (RunReload new s :: l))
| sh_reload_write s l1 l2 new snapshot :
    shared_step (mk_shared s (l1 ++ RunReload new snapshot :: l2)) (mk_shared (finish_reload new snapshot) (l1 ++ l2))
| sh_forced s l new : loaded new → shared_step (mk_shared s l) (mk_shared (write_forced s new) l)
| sh_replaced s l new : loaded new → shared_step (mk_shared s l) (mk_shared (write_replaced s new) l)
| sh_update s l kind host h : host_parse host = Some h → shared_step (mk_shared s l) (mk_shared s (RunUpdate kind h s :: l))
| sh_update_write s l1 l2 kind host snapshot s' :
    finish_update kind host s snapshot = Written s' →
    shared_step (mk_shared s (l1 ++ RunUpdate kind host snapshot :: l2)) (mk_shared s' (l1 ++ l2))
| sh_update_end s l1 l2 kind host snapshot :
    match finish_update kind host s snapshot with Unchanged | Failed _ => True | _ => False end →
    shared_step (mk_shared s (l1 ++ RunUpdate kind host snapshot :: l2)) (mk_shared s (l1 ++ l2))
| sh_update_retry s l1 l2 kind host snapshot :
    finish_update kind host s snapshot = Retry →
    shared_step (mk_shared s (l1 ++ RunUpdate kind host snapshot :: l2)) (mk_shared s (l1 ++ RunUpdate kind host s :: l2))
| sh_mode s l m : shared_step (mk_shared s l) (mk_shared s (RunMode m s :: l))
| sh_mode_write s l1 l2 m snapshot s' :
    finish_mode m s snapshot = Written s' →
    shared_step (mk_shared s (l1 ++ RunMode m snapshot :: l2)) (mk_shared s' (l1 ++ l2))
| sh_mode_end s l1 l2 m snapshot e :
    finish_mode m s snapshot = Failed e → shared_step (mk_shared s (l1 ++ RunMode m snapshot :: l2)) (mk_shared s (l1 ++ l2))
| sh_mode_retry s l1 l2 m snapshot :
    finish_mode m s snapshot = Retry →
    shared_step (mk_shared s (l1 ++ RunMode m snapshot :: l2)) (mk_shared s (l1 ++ RunMode m s :: l2)).
(** The states that a proxy can be in, from one that the loader made. *)
Inductive reachable : Shared → Prop :=
| reachable_start s : loaded s → reachable (mk_shared s [])
| reachable_step y y' : reachable y → shared_step y y' → reachable y'.

End runtime.

(** ** Lemmas: the constraints *)
Lemma difference_empty (X Y : gset rstring) : X ∖ Y = ∅ ↔ X ⊆ Y.
Proof. split; [|apply subseteq_empty_difference_L]. intros Hd. by apply empty_difference_subseteq_L. Qed.
Lemma require_Ok ok e u : require ok e = Ok u ↔ ok = true.
Proof. destruct ok, u; cbn; done. Qed.
Lemma flag_allowed_Ok field candidate managed u : flag_allowed field candidate managed = Ok u ↔ (managed = false → candidate = false).
Proof. unfold flag_allowed. rewrite require_Ok. destruct candidate, managed; cbn; naive_solver. Qed.
Lemma no_global_Ok field patterns u :
  validate_non_global_wildcard_domain_patterns field patterns = Ok u ↔ Forall (λ p, is_global_wildcard_domain_pattern p = false) patterns.
Proof.
  unfold validate_non_global_wildcard_domain_patterns. destruct (List.find _ _) as [p|] eqn:E.
  - split; [done|]. intros Hf. apply List.find_some in E as [Hin Hp]. rewrite Forall_forall in Hf.
    apply list_elem_of_In in Hin. by rewrite (Hf p Hin) in Hp.
  - split; [|by destruct u]. intros _. apply Forall_forall. intros p Hp. by apply (List.find_none _ _ E), list_elem_of_In.
Qed.
Lemma filter_nil {A} (f : A → bool) l : List.filter f l = [] ↔ ∀ a, a ∈ l → f a = false.
Proof.
  induction l as [|a l IH]; cbn; [split; [intros _ a Ha%elem_of_nil; done|done]|]. destruct (f a) eqn:E.
  - split; [done|]. intros Hall. rewrite Hall in E; [done|by left].
  - rewrite IH. split; [|by intros Hall b Hb; apply Hall; right]. intros Hall b [->|Hb]%elem_of_cons; auto.
Qed.
Section constraint_lemmas.
Context {H : Type} (url_host : rstring → option rstring).
Context (hooks_error : bool → list H → option rstring) (debug_strings : list rstring → rstring) (hash_order : gset rstring → list rstring).
Definition managed_max (managed : option bool) (candidate : bool) : Prop := managed = Some false → candidate = false.
(** What a valid configuration is. *)
Record valid_policy (c : NetworkProxySettings H) (cs : NetworkProxyConstraints) : Prop := {
  v_hooks : hooks_error (mitm c) (mitm_hooks c) = None;
  v_no_global : Forall (λ p, is_global_wildcard_domain_pattern p = false) (default [] (denied_domains c));
  v_enabled : managed_max (c_enabled cs) (enabled c);
  v_mode m : c_mode cs = Some m → (network_mode_rank (mode c) ≤ network_mode_rank m)%nat;
  v_upstream : managed_max (c_allow_upstream_proxy cs) (allow_upstream_proxy c);
  v_loopback : managed_max (c_dangerously_allow_non_loopback_proxy cs) (dangerously_allow_non_loopback_proxy c);
  v_sockets : managed_max (Some (default (bool_decide (c_allow_unix_sockets cs = None)) (c_dangerously_allow_all_unix_sockets cs)))
                (dangerously_allow_all_unix_sockets c);
  v_local : managed_max (c_allow_local_binding cs) (allow_local_binding c);
  v_allowed managed : c_allowed_domains cs = Some managed →
    let candidate := default [] (allowed_domains c) in
    let overrides := lowercase_set (default [] (denied_domains c)) in
    Forall (λ p, is_global_wildcard_domain_pattern p = false) managed ∧
    match c_allowlist_expansion_enabled cs with
    | Some true => lowercase_set managed ∖ lowercase_set candidate ⊆ overrides
    | Some false => lowercase_set candidate = lowercase_set managed ∖ overrides
    | None => ∀ e, e ∈ candidate → ∃ m, m ∈ managed ∧ allows (parse_for_constraints url_host m) (parse_for_constraints url_host e) = true
    end;
  v_denied managed : c_denied_domains cs = Some managed →
    let candidate := default [] (denied_domains c) in
    Forall (λ p, is_global_wildcard_domain_pattern p = false) managed ∧
    match c_denylist_expansion_enabled cs with
    | Some false => lowercase_set candidate = lowercase_set managed
    | _ => lowercase_set managed ⊆ lowercase_set candidate
    end;
  v_unix managed e : c_allow_unix_sockets cs = Some managed → e ∈ allow_unix_sockets c → to_ascii_lowercase e ∈ lowercase_set managed }.

Lemma allowed_domains_Ok candidate managed expansion overrides u :
  validate_allowed_domains url_host debug_strings hash_order candidate managed expansion overrides = Ok u ↔
  match expansion with
  | Some true => lowercase_set managed ∖ lowercase_set candidate ⊆ overrides
  | Some false => lowercase_set candidate = lowercase_set managed ∖ overrides
  | None => ∀ e, e ∈ candidate → ∃ m, m ∈ managed ∧ allows (parse_for_constraints url_host m) (parse_for_constraints url_host e) = true
  end.
Proof using Type.
  unfold validate_allowed_domains. destruct expansion as [[|]|]; rewrite require_Ok, bool_decide_eq_true.
  - apply difference_empty.
  - done.
  - rewrite filter_nil. split; intros Hall e He; specialize (Hall e He).
    + apply negb_false_iff, existsb_exists in Hall as (p & Hp & Ha). apply list_elem_of_In, list_elem_of_fmap in Hp as (m & -> & Hm). by exists m.
    + apply negb_false_iff, existsb_exists. destruct Hall as (m & Hm & Ha). exists (parse_for_constraints url_host m).
      split; [|done]. apply list_elem_of_In, list_elem_of_fmap. by exists m.
Qed.
Lemma denied_domains_Ok candidate managed expansion u :
  validate_denied_domains debug_strings hash_order candidate managed expansion = Ok u ↔
  match expansion with
  | Some false => lowercase_set candidate = lowercase_set managed
  | _ => lowercase_set managed ⊆ lowercase_set candidate
  end.
Proof using Type.
  unfold validate_denied_domains. destruct expansion as [[|]|]; rewrite require_Ok, bool_decide_eq_true;
    [apply difference_empty|done|apply difference_empty].
Qed.
Lemma unix_sockets_Ok candidate managed u :
  validate_unix_sockets debug_strings candidate managed = Ok u ↔ ∀ e, e ∈ candidate → to_ascii_lowercase e ∈ lowercase_set managed.
Proof using Type.
  unfold validate_unix_sockets. rewrite require_Ok, bool_decide_eq_true, filter_nil.
  split; intros Hall e He; specialize (Hall e He); [by apply negb_false_iff, bool_decide_eq_true in Hall|].
  by apply negb_false_iff, bool_decide_eq_true.
Qed.
(** The checks accept what is valid, and nothing else. *)
Lemma validate_spec c cs :
  validate_policy_against_constraints url_host hooks_error debug_strings hash_order c cs = Ok () ↔ valid_policy c cs.
Proof using Type.
  unfold validate_policy_against_constraints. repeat setoid_rewrite bind_Ok. split.
  - intros ([] & Hh & [] & Hg & [] & He & [] & Hm & [] & Hu & [] & Hl & [] & Hs & [] & Hlo & [] & Ha & [] & Hd & Hx).
    split; unfold managed_max.
    + by destruct (hooks_error _ _).
    + by apply no_global_Ok in Hg.
    + intros E. rewrite E in He. pose proof (proj1 (flag_allowed_Ok _ _ _ _) He) as K. by auto.
    + intros m E. rewrite E in Hm. apply require_Ok, negb_true_iff, Nat.ltb_ge in Hm. done.
    + pose proof (proj1 (flag_allowed_Ok _ _ _ _) Hu) as K. intros E. rewrite E in K. by auto.
    + pose proof (proj1 (flag_allowed_Ok _ _ _ _) Hl) as K. intros E. rewrite E in K. by auto.
    + pose proof (proj1 (flag_allowed_Ok _ _ _ _) Hs) as K. intros [= E]. by auto.
    + intros E. rewrite E in Hlo. pose proof (proj1 (flag_allowed_Ok _ _ _ _) Hlo) as K. by auto.
    + intros managed E. rewrite E in Ha. apply bind_Ok in Ha as ([] & Hg' & Ha). apply no_global_Ok in Hg'.
      apply allowed_domains_Ok in Ha. done.
    + intros managed E. rewrite E in Hd. apply bind_Ok in Hd as ([] & Hg' & Hd). apply no_global_Ok in Hg'.
      apply denied_domains_Ok in Hd. done.
    + intros managed e E. rewrite E in Hx. by apply (proj1 (unix_sockets_Ok _ _ _) Hx).
  - intros [Hh Hg He Hm Hu Hl Hs Hlo Ha Hd Hx]. unfold managed_max in *.
    exists (). rewrite Hh. split; [done|]. exists (). split; [by apply no_global_Ok|].
    exists (). split. { destruct (c_enabled cs) as [max|] eqn:E; [|done]. apply flag_allowed_Ok. intros ->. auto. }
    exists (). split. { destruct (c_mode cs) as [max|] eqn:E; [|done]. apply require_Ok, negb_true_iff, Nat.ltb_ge. auto. }
    exists (). split. { apply flag_allowed_Ok. destruct (c_allow_upstream_proxy cs) as [[]|] eqn:E; cbn; auto; done. }
    exists (). split. { apply flag_allowed_Ok. destruct (c_dangerously_allow_non_loopback_proxy cs) as [[]|] eqn:E; cbn; auto; done. }
    exists (). split. { apply flag_allowed_Ok. intros E. apply Hs. by rewrite E. }
    exists (). split. { destruct (c_allow_local_binding cs) as [max|] eqn:E; [|done]. apply flag_allowed_Ok. intros ->. auto. }
    exists (). split. { destruct (c_allowed_domains cs) as [managed|] eqn:E; [|done]. destruct (Ha _ eq_refl) as [Hg' Ha'].
      apply bind_Ok. exists (). split; [by apply no_global_Ok|]. by apply allowed_domains_Ok. }
    exists (). split. { destruct (c_denied_domains cs) as [managed|] eqn:E; [|done]. destruct (Hd _ eq_refl) as [Hg' Hd'].
      apply bind_Ok. exists (). split; [by apply no_global_Ok|]. by apply denied_domains_Ok. }
    destruct (c_allow_unix_sockets cs) as [managed|] eqn:E; [|done]. apply unix_sockets_Ok. auto.
Qed.
Lemma valid_mode c c' cs m :
  valid_policy c cs → valid_policy (with_mode c' m) cs → valid_policy (with_mode c m) cs.
Proof using Type. intros [] []. by split. Qed.
End constraint_lemmas.

(** ** Lemmas: the shared state *)
Section shared_lemmas.
Context {G : Globs} {H : Type} (url_host : rstring → option rstring)
  (hooks_error : bool → list H → option rstring) (debug_strings : list rstring → rstring) (hash_order : gset rstring → list rstring)
  {Mitm : Type} (build_mitm : NetworkProxySettings H → outcome rstring Mitm)
  (home_dir : option rstring) (current_dir : outcome PathError rstring) `{!EqDecision H}.
#[local] Abbreviation reachable := (reachable url_host hooks_error debug_strings hash_order build_mitm home_dir current_dir).
#[local] Abbreviation shared_step := (shared_step url_host hooks_error debug_strings hash_order build_mitm home_dir current_dir).
#[local] Abbreviation loaded := (loaded url_host hooks_error debug_strings hash_order build_mitm home_dir current_dir).
#[local] Abbreviation build := (build_config_state build_mitm home_dir current_dir).
#[local] Abbreviation valid := (valid_policy url_host hooks_error).

(** The sets are those of the settings. *)
Definition compiled (s : @ConfigState G H Mitm) : Prop :=
  compile_denylist_globset (default [] (denied_domains (config s))) = Ok (deny_set s) ∧
  compile_allowlist_globset (default [] (allowed_domains (config s))) = Ok (allow_set s).
Lemma build_spec c cs s : build c cs = Ok s →
  config s = c ∧ constraints s = cs ∧ compiled s ∧ blocked s = [] ∧ blocked_total s = 0.
Proof using Type.
  unfold build_config_state. repeat setoid_rewrite bind_Ok.
  intros (_ & _ & _ & _ & deny & Hd & allow & Ha & m & _ & [= <-]). split_and!; [done|done|split; by apply bind_Ok|done|done].
Qed.
Record good (s : @ConfigState G H Mitm) : Prop := {
  good_valid : valid (config s) (constraints s);
  good_compiled : compiled s;
  good_blocked : (length (blocked s) ≤ MAX_BLOCKED_EVENTS)%nat }.
Lemma loaded_good s b total : loaded s → (length b ≤ MAX_BLOCKED_EVENTS)%nat → good (with_blocked s b total).
Proof using Type.
  intros [Hv%validate_spec Hb] Hl. destruct (build_spec _ _ _ Hb) as (_ & _ & Hc & _). by split.
Qed.
Lemma good_update kind host guard snapshot s :
  good snapshot →
  finish_update url_host hooks_error debug_strings hash_order build_mitm home_dir current_dir kind host guard snapshot = Written s →
  good s.
Proof using Type.
  intros Hs. unfold finish_update. destruct (plan_update _ _ _ _ _ _ _ kind host snapshot) as [[s'|]|e|] eqn:Hp; try done.
  case_match; [|done]. intros [= <-]. unfold plan_update in Hp. case_match; [done|].
  apply bind_Ok in Hp as ([] & Hv & Hp). apply bind_Ok in Hp as (s1 & Hb & [= <-]).
  destruct (build_spec _ _ _ Hb) as (Ec & Ecs & Hc & _). split; [|done|apply Hs].
  cbn [config constraints with_blocked]. rewrite Ec, Ecs.
  apply (validate_spec url_host hooks_error debug_strings hash_order). unfold into_anyhow in Hv. by case_match; simplify_eq.
Qed.
Lemma good_mode m guard snapshot s :
  good guard → finish_mode url_host hooks_error debug_strings hash_order m guard snapshot = Written s → good s.
Proof using Type.
  intros Hg. unfold finish_mode. destruct (plan_mode _ _ _ _ m snapshot) as [u|e|] eqn:Hp; try done.
  case_bool_decide as Hcs; [|done]. intros [= <-]. split; [|apply Hg|apply Hg]. cbn [config constraints with_config].
  eapply (valid_mode _ _ _ (config snapshot)); [apply Hg|]. rewrite Hcs.
  apply (validate_spec url_host hooks_error debug_strings hash_order). unfold plan_mode, into_anyhow in Hp. case_match; simplify_eq. by destruct u.
Qed.
Definition running_good (r : @Running G H Mitm) : Prop :=
  match r with RunReload new snapshot => loaded new ∧ good snapshot | RunUpdate _ _ snapshot | RunMode _ snapshot => good snapshot end.
Definition shared_good (y : @Shared G H Mitm) : Prop := good (state y) ∧ Forall running_good (running y).
Lemma shared_step_good y y' : shared_step y y' → shared_good y → shared_good y'.
Proof using Type.
  intros Hs [Hg Hr]. destruct Hs; cbn [state running] in *;
    try (apply Forall_app in Hr as [Hr1 Hr2]; apply Forall_cons in Hr2 as [Hx Hr2]; cbn in Hx).
  - split; [|done]. split; [apply Hg|apply Hg|]. cbn. rewrite length_drop, length_app. cbn. destruct Hg as [_ _ Hb]. lia.
  - split; [|done]. split; [apply Hg|apply Hg|]. cbn. lia.
  - split; [done|]. by constructor.
  - split; [|by apply Forall_app]. apply loaded_good; apply Hx.
  - split; [|done]. apply loaded_good; [done|apply Hg].
  - split; [|done]. apply loaded_good; [done|apply Hg].
  - split; [done|]. by constructor.
  - split; [|by apply Forall_app]. eapply good_update; [exact Hx|eassumption].
  - split; [done|by apply Forall_app].
  - split; [done|]. apply Forall_app. split; [done|by constructor].
  - split; [done|]. by constructor.
  - split; [|by apply Forall_app]. eapply good_mode; [exact Hg|eassumption].
  - split; [done|by apply Forall_app].
  - split; [done|]. apply Forall_app. split; [done|by constructor].
Qed.
Lemma reachable_good y : reachable y → shared_good y.
Proof using Type.
  induction 1 as [s Hl|y y' _ IH Hs]; [|by eapply shared_step_good]. split; [|by constructor].
  destruct Hl as [Hv%validate_spec Hb]. destruct (build_spec _ _ _ Hb) as (_ & _ & Hc & Hbl & _).
  split; [exact Hv|exact Hc|]. cbn [state]. rewrite Hbl. cbn. lia.
Qed.
End shared_lemmas.

(** ** Lemmas: names *)
Lemma lower_char_dot c : is_dot (to_ascii_lowercase_char c) = is_dot c.
Proof.
  unfold is_dot, to_ascii_lowercase_char, dot. destruct ((65 <=? c) && (c <=? 90)) eqn:E; [|done].
  apply andb_prop in E as [?%N.leb_le ?%N.leb_le]. rewrite !bool_decide_eq_false_2 by lia. done.
Qed.
Lemma lower_trim_dots s : to_ascii_lowercase (trim_end_matches is_dot s) = trim_end_matches is_dot (to_ascii_lowercase s).
Proof.
  assert (∀ s, to_ascii_lowercase (trim_start_matches is_dot s) = trim_start_matches is_dot (to_ascii_lowercase s)) as Hstart.
  { intros t. induction t as [|c t IH]; [done|]. cbn. rewrite lower_char_dot. by destruct (is_dot c). }
  unfold trim_end_matches, to_ascii_lowercase in *. rewrite !rev_alt. fold (reverse s).
  change (to_ascii_lowercase_char <$> reverse (trim_start_matches is_dot (reverse s)) =
          reverse (trim_start_matches is_dot (reverse (to_ascii_lowercase_char <$> s)))).
  rewrite fmap_reverse, Hstart. by rewrite fmap_reverse.
Qed.
Lemma lower_idemp s : to_ascii_lowercase (to_ascii_lowercase s) = to_ascii_lowercase s.
Proof.
  unfold to_ascii_lowercase. rewrite <- list_fmap_compose. apply list_fmap_ext. intros _ c _. cbn. unfold to_ascii_lowercase_char.
  destruct ((65 <=? c) && (c <=? 90)) eqn:E; [|by rewrite E]. apply andb_prop in E as [?%N.leb_le ?%N.leb_le].
  destruct (N.leb_spec 65 (c + 32)), (N.leb_spec (c + 32) 90); cbn; try done; lia.
Qed.
Lemma normalize_domain_lower s : normalize_domain s = trim_end_matches is_dot (to_ascii_lowercase s).
Proof. apply lower_trim_dots. Qed.

(** The hosts that a pattern stands for. *)
Definition covers (p : DomainPattern) (host : rstring) : Prop :=
  let h := normalize_domain host in
  match p with
  | Exact d => h = normalize_domain d
  | SubdomainsOnly d => ∃ x, h = x ++ dot :: normalize_domain d
  | ApexAndSubdomains d => h = normalize_domain d ∨ ∃ x, h = x ++ dot :: normalize_domain d
  end.
Lemma strict_subdomain_spec a b : is_strict_subdomain a b = true → ∃ x, normalize_domain a = x ++ dot :: normalize_domain b.
Proof. intros [_ [x Hx]%ends_with_spec]%andb_prop. by exists x. Qed.
Lemma subdomain_spec a b :
  is_subdomain_or_equal a b = true → normalize_domain a = normalize_domain b ∨ ∃ x, normalize_domain a = x ++ dot :: normalize_domain b.
Proof. unfold is_subdomain_or_equal. case_bool_decide; [by left|]. intros [x Hx]%ends_with_spec. right. by exists x. Qed.
(** A pattern stands for every host of a pattern that it allows. *)
Lemma allows_sound m c h : allows m c = true → covers c h → covers m h.
Proof.
  destruct m as [d|d|d], c as [e|e|e]; cbn; try done.
  - intros [-> | [x ->]]%subdomain_spec [-> | [y ->]]; [by left|right; by eexists|right; by eexists|right].
    exists (y ++ dot :: x). by rewrite <- app_assoc.
  - intros [-> | [x ->]]%subdomain_spec [y ->]; right; [by eexists|]. exists (y ++ dot :: x). by rewrite <- app_assoc.
  - intros [-> | [x ->]]%subdomain_spec ->; [by left|right; by eexists].
  - intros [x ->]%strict_subdomain_spec [-> | [y ->]]; [by eexists|]. exists (y ++ dot :: x). by rewrite <- app_assoc.
  - intros [-> | [x ->]]%subdomain_spec [y ->]; [by eexists|]. exists (y ++ dot :: x). by rewrite <- app_assoc.
  - intros [x ->]%strict_subdomain_spec ->. by eexists.
  - by intros ->%bool_decide_eq_true ->.
Qed.

(** ** Lemmas: plain patterns *)
Definition plain_char (c : char) : bool :=
  is_ascii_digit c || ((97 <=? c) && (c <=? 122)) || ((65 <=? c) && (c <=? 90)) || bool_decide (c = 45) || is_dot c.
Record plain_domain (url_host : rstring → option rstring) (d : rstring) : Prop := {
  pd_chars : Forall (λ c, plain_char c = true) d;
  pd_last : ∃ x c, d = x ++ [c] ∧ is_dot c = false;
  pd_url : url_host d = Some (to_ascii_lowercase d) }.
(** A host name of letters, digits, dots and dashes that the URL parser reads as itself, alone or
    with one of the two prefixes. *)
Definition plain_pattern (url_host : rstring → option rstring) (e : rstring) : Prop :=
  ∃ d, plain_domain url_host d ∧ (e = d ∨ e = lit "*." ++ d ∨ e = lit "**." ++ d).

Lemma plain_lower d : Forall (λ c, plain_char c = true) d → Forall (λ c, plain_char c = true) (to_ascii_lowercase d).
Proof.
  intros Hd. apply Forall_fmap. eapply Forall_impl; [exact Hd|]. intros c Hc. cbn. unfold to_ascii_lowercase_char.
  destruct ((65 <=? c) && (c <=? 90)) eqn:E; [|done]. apply andb_prop in E as [?%N.leb_le ?%N.leb_le].
  unfold plain_char. replace (97 <=? c + 32) with true by (symmetry; apply N.leb_le; lia).
  replace (c + 32 <=? 122) with true by (symmetry; apply N.leb_le; lia). by rewrite !orb_true_r.
Qed.
Lemma plain_trim d : Forall (λ c, plain_char c = true) d → trim d = d.
Proof.
  intros Hd.
  assert (∀ c, plain_char c = true → is_whitespace c = false) as Hws.
  { intros c Hc. destruct (is_whitespace c) eqn:E; [|done]. exfalso. unfold is_whitespace in E. unfold plain_char, is_ascii_digit, is_dot, dot in Hc.
    repeat (rewrite ?orb_true_iff, ?andb_true_iff, ?bool_decide_eq_true, ?N.leb_le, ?N.eqb_eq in Hc).
    repeat (rewrite ?orb_true_iff, ?andb_true_iff, ?bool_decide_eq_true, ?N.leb_le, ?N.eqb_eq in E). lia. }
  assert (∀ d, Forall (λ c, plain_char c = true) d → trim_start_matches is_whitespace d = d) as Hs.
  { intros t Ht. destruct Ht as [|c t Hc Ht]; [done|]. cbn. by rewrite Hws. }
  unfold trim, trim_end, trim_start, trim_end_matches. rewrite (Hs d Hd), (Hs (rev d)); [apply rev_involutive|].
  by apply Forall_rev.
Qed.
Lemma plain_trim_dots d : (∃ x c, d = x ++ [c] ∧ is_dot c = false) → trim_end_matches is_dot d = d.
Proof.
  intros (x & c & -> & Hc). unfold trim_end_matches. rewrite rev_app_distr. cbn. rewrite Hc. cbn. by rewrite rev_involutive.
Qed.
Lemma lower_last d : (∃ x c, d = x ++ [c] ∧ is_dot c = false) → ∃ x c, to_ascii_lowercase d = x ++ [c] ∧ is_dot c = false.
Proof.
  intros (x & c & -> & Hc). exists (to_ascii_lowercase x), (to_ascii_lowercase_char c). unfold to_ascii_lowercase.
  rewrite fmap_app. split; [done|]. by rewrite lower_char_dot.
Qed.
Lemma plain_no_find needle x d :
  Forall (λ c, plain_char c = true) d → plain_char x = false → find (x :: needle) d = None.
Proof.
  intros Hd Hx. apply find_None. intros i Hi [r Hr]%occurs_at_split; [|done]. rewrite Hr in Hd.
  apply Forall_app in Hd as [_ [Hc _]%Forall_cons]. congruence.
Qed.

Section plain.
Context (url_host : rstring → option rstring).
Lemma lower_plain_domain d : plain_domain url_host d →
  normalize_dns_host_or_ip_literal d = to_ascii_lowercase d ∧ normalize_host d = to_ascii_lowercase d.
Proof.
  intros [Hc Hl _]. assert (normalize_dns_host_or_ip_literal d = to_ascii_lowercase d) as Hn.
  { unfold normalize_dns_host_or_ip_literal. rewrite (plain_trim_dots _ (lower_last d Hl)). unfold normalize_ip_literal, scoped_ip, split_once.
    destruct (parses_as_ip _); [done|]. change (lit "%25") with (37 :: lit "25"). change (lit "%") with [37].
    by rewrite !(plain_no_find _ _ _ (plain_lower d Hc)). }
  split; [done|]. unfold normalize_host. rewrite (plain_trim d Hc).
  assert (starts_with d (lit "[") = false) as ->.
  { apply not_true_iff_false. intros [r ->]%starts_with_spec. by inversion Hc. }
  replace (List.filter (λ c, bool_decide (c = colon)) d) with (@nil char); [done|]. symmetry. apply filter_nil.
  intros c Hin. apply bool_decide_eq_false. intros ->. by rewrite Forall_forall in Hc; specialize (Hc _ Hin).
Qed.
Lemma strip_plain c p d : Forall (λ c, plain_char c = true) d → plain_char c = false → strip_prefix (c :: p) d = None.
Proof.
  intros Hd Hc. apply strip_prefix_None. intros [r ->]. apply Forall_cons in Hd as [? _]. congruence.
Qed.
Lemma plain_trim_prefixed d : Forall (λ c, plain_char c = true) d → d ≠ [] →
  trim d = d ∧ trim (lit "*." ++ d) = lit "*." ++ d ∧ trim (lit "**." ++ d) = lit "**." ++ d.
Proof using Type.
  intros Hc Hne. pose proof (plain_trim d Hc) as Ht.
  assert (∀ p, trim_end (lit p ++ d) = lit p ++ d) as Hp by (intros p; apply trim_end_app_id; [done|by apply trimmed_end]).
  split_and!; [done|..].
  - change (lit "*." ++ d) with (42 :: 46 :: d). unfold trim. rewrite trim_start_id by done. apply (Hp "*."%string).
  - change (lit "**." ++ d) with (42 :: 42 :: 46 :: d). unfold trim. rewrite trim_start_id by done. apply (Hp "**."%string).
Qed.
Lemma strip_prefixed d : Forall (λ c, plain_char c = true) d →
  strip_prefix (lit "**.") d = None ∧ strip_prefix (lit "*.") d = None ∧ strip_prefix (lit "**.") (lit "*." ++ d) = None ∧
  strip_prefix (lit "*.") (lit "*." ++ d) = Some d ∧ strip_prefix (lit "**.") (lit "**." ++ d) = Some d.
Proof using Type. intros Hc. split_and!; [by apply (strip_plain 42)..|done|by apply strip_prefix_Some|by apply strip_prefix_Some]. Qed.
Lemma parse_prefixed d : Forall (λ c, plain_char c = true) d → d ≠ [] →
  parse_pattern d = Exact d ∧ parse_pattern (lit "*." ++ d) = SubdomainsOnly d ∧ parse_pattern (lit "**." ++ d) = ApexAndSubdomains d.
Proof using Type.
  intros Hc Hne. destruct (plain_trim_prefixed d Hc Hne) as (T0 & T1 & T2). destruct (strip_prefixed d Hc) as (S0 & S1 & S2 & S3 & S4).
  unfold parse_pattern, parse_domain. rewrite T0, T1, T2, S0, S1, S2, S3, S4, T0, !bool_decide_eq_false_2 by done. done.
Qed.
Lemma constraints_domain d : plain_domain url_host d → parse_domain_for_constraints url_host d = to_ascii_lowercase d.
Proof using Type.
  intros [Hc Hl Hu]. assert (d ≠ []) as Hne by (destruct Hl as ([|] & ? & -> & _); done).
  unfold parse_domain_for_constraints. rewrite (plain_trim d Hc), (plain_trim_dots _ Hl), bool_decide_eq_false_2 by done.
  assert (starts_with d (lit "[") = false) as ->.
  { apply not_true_iff_false. intros [r ->]%starts_with_spec. by inversion Hc. }
  cbn [andb]. assert (contains_any (lit "*?%") d = false) as ->.
  { apply not_true_iff_false. intros (c & Hin & Hx)%existsb_exists. apply list_elem_of_In in Hin.
    rewrite Forall_forall in Hc. specialize (Hc _ Hin). apply bool_decide_eq_true in Hx.
    repeat (apply elem_of_cons in Hx as [->|Hx]; [done|]). by apply elem_of_nil in Hx. }
  by rewrite Hu.
Qed.
(** The two readings of a plain pattern: as globs, and for the constraints. *)
Lemma plain_readings e : plain_pattern url_host e → ∃ d, plain_domain url_host d ∧
  ((expand_domain_pattern (normalize_pattern e) = [to_ascii_lowercase d] ∧ parse_for_constraints url_host e = Exact (to_ascii_lowercase d)) ∨
   (expand_domain_pattern (normalize_pattern e) = [lit "?*." ++ to_ascii_lowercase d] ∧
    parse_for_constraints url_host e = SubdomainsOnly (to_ascii_lowercase d)) ∨
   (expand_domain_pattern (normalize_pattern e) = [to_ascii_lowercase d; lit "?*." ++ to_ascii_lowercase d] ∧
    parse_for_constraints url_host e = ApexAndSubdomains (to_ascii_lowercase d))).
Proof using Type.
  intros (d & Hd & He). exists d. split; [exact Hd|]. pose proof Hd as [Hc Hl Hu].
  assert (d ≠ []) as Hne by (destruct Hl as ([|] & ? & -> & _); done).
  destruct (plain_trim_prefixed d Hc Hne) as (T0 & T1 & T2). destruct (strip_prefixed d Hc) as (S0 & S1 & S2 & S3 & S4).
  destruct (lower_plain_domain d Hd) as [_ Hn]. pose proof (constraints_domain d Hd) as Hpd.
  assert (to_ascii_lowercase d ≠ []) as Hlne by (by destruct d).
  destruct (parse_prefixed _ (plain_lower d Hc) Hlne) as (P0 & P1 & P2).
  assert (d ≠ lit "*") as Hstar by (intros ->; by inversion Hc).
  unfold normalize_pattern, parse_for_constraints, expand_domain_pattern.
  destruct He as [->|[->| ->]]; [left|right; left|right; right].
  - rewrite T0, S0, S1, Hpd, Hn, !bool_decide_eq_false_2 by done. by rewrite P0.
  - rewrite T1, S2, S3, Hpd, Hn, !bool_decide_eq_false_2 by done. by rewrite P1.
  - rewrite T2, S4, Hpd, Hn, !bool_decide_eq_false_2 by done. by rewrite P2.
Qed.
End plain.

(** ** The documented behaviour of globs
    A set matches what one of its globs matches; without wildcards a glob matches its
    own text, ASCII letters in either case, and [?*.] before such a text matches
    what ends in a dot and the text.  The laws are for ASCII hosts and for globs of
    letters, digits, dashes and dots. *)
Class GlobLaws (G : Globs) := {
  glob_matches : Glob → rstring → bool;
  is_match_spec gs s h : set_build gs = Some s → is_match s h = existsb (λ g, glob_matches g h) gs;
  glob_literal d g h : Forall (λ c, plain_char c = true) d → Forall (λ c, c < 128) h → glob_new d = Some g →
    glob_matches g h = true → to_ascii_lowercase h = to_ascii_lowercase d;
  glob_subdomain d g h : Forall (λ c, plain_char c = true) d → Forall (λ c, c < 128) h → glob_new (lit "?*." ++ d) = Some g →
    glob_matches g h = true → ∃ x, to_ascii_lowercase h = x ++ dot :: to_ascii_lowercase d }.

Section decisions.
Context {G : Globs} {H Mitm : Type} (lookup_host : rstring → N → option (list IpAddr)).
(** When the address check lets a host pass: local addresses are allowed; or it is a local
    literal that the settings list by name; or it is, or is looked up and found to be, public
    addresses only. *)
Definition address_ok (s : @ConfigState G H Mitm) (host : rstring) (port : N) : Prop :=
  allow_local_binding (config s) = true ∨
  (local_literal host = true ∧ is_explicit_local_allowlisted (default [] (allowed_domains (config s))) host = true) ∨
  (local_literal host = false ∧
   ∃ addrs, match parse_ip host with Some ip => addrs = [ip] | None => lookup_host host port = Some addrs end ∧
     Forall (λ ip, is_non_public_ip ip = false) addrs).
Lemma address_spec s host port :
  negb (allow_local_binding (config s)) &&
    (if local_literal host then negb (is_explicit_local_allowlisted (default [] (allowed_domains (config s))) host)
     else host_resolves_to_non_public_ip lookup_host host port) = false ↔ address_ok s host port.
Proof using Type.
  unfold address_ok, host_resolves_to_non_public_ip. destruct (allow_local_binding (config s)); cbn [negb andb]; [split; [by left|done]|].
  destruct (local_literal host).
  { rewrite negb_false_iff. split; [by right; left|]. by intros [?|[[_ ?]|[? _]]]. }
  assert (∀ addrs, existsb is_non_public_ip addrs = false ↔ Forall (λ ip, is_non_public_ip ip = false) addrs) as Hx.
  { intros addrs. induction addrs as [|a addrs IH]; cbn; [done|]. rewrite orb_false_iff, Forall_cons, IH. done. }
  destruct (parse_ip host) as [ip|].
  { split; [intros Hip; right; right; split; [done|]; exists [ip]; split; [done|by constructor]|].
    intros [?|[[? _]|(_ & addrs & -> & Hf)]]; try done. by inversion Hf. }
  destruct (lookup_host host port) as [addrs|].
  - rewrite Hx. split; [intros Hf; right; right; split; [done|]; by exists addrs|].
    intros [?|[[? _]|(_ & addrs' & [= ->] & Hf)]]; done.
  - split; [done|]. intros [?|[[? _]|(_ & addrs' & ? & Hf)]]; done.
Qed.
Lemma host_blocked_spec s host port d :
  host_blocked lookup_host s host port = d ↔
  match host_parse host with
  | None => d = HostBlocked RNotAllowed
  | Some h =>
      match d with
      | HostBlocked RDenied => globset_matches_host_or_unscoped (deny_set s) h = true
      | HostBlocked RNotAllowedLocal => globset_matches_host_or_unscoped (deny_set s) h = false ∧ ¬ address_ok s h port
      | HostBlocked RNotAllowed =>
          globset_matches_host_or_unscoped (deny_set s) h = false ∧ address_ok s h port ∧
          (allowed_domains (config s) = None ∨ globset_matches_host_or_unscoped (allow_set s) h = false)
      | HostAllowed =>
          globset_matches_host_or_unscoped (deny_set s) h = false ∧ address_ok s h port ∧
          allowed_domains (config s) ≠ None ∧ globset_matches_host_or_unscoped (allow_set s) h = true
      end
  end.
Proof using Type.
  unfold host_blocked. destruct (host_parse host) as [h|]; [|done]. pose proof (address_spec s h port) as Ha.
  destruct (globset_matches_host_or_unscoped (deny_set s) h). { destruct d as [|[]]; naive_solver. }
  destruct (negb (allow_local_binding (config s)) && _).
  { assert (¬ address_ok s h port) by (by intros [=]%Ha). clear Ha. destruct d as [|[]]; naive_solver. }
  assert (address_ok s h port) as Hok by (by apply Ha). clear Ha.
  assert (bool_decide (allowed_domains (config s) = None) || negb (globset_matches_host_or_unscoped (allow_set s) h) = true ↔
    allowed_domains (config s) = None ∨ globset_matches_host_or_unscoped (allow_set s) h = false) as Hb.
  { by rewrite orb_true_iff, bool_decide_eq_true, negb_true_iff. }
  destruct (bool_decide (allowed_domains (config s) = None) || _).
  - destruct Hb as [Hb _]. specialize (Hb eq_refl). destruct d as [|[]]; intuition congruence.
  - assert (allowed_domains (config s) ≠ None ∧ globset_matches_host_or_unscoped (allow_set s) h = true) as [H1 H2].
    { destruct Hb as [_ Hb]. split; [intros E; discriminate Hb; by left|]. apply not_false_iff_true. intros E. discriminate Hb. by right. }
    destruct d as [|[]]; intuition congruence.
Qed.
End decisions.

Section properties.
Context {G : Globs} {H : Type} (url_host : rstring → option rstring)
  (hooks_error : bool → list H → option rstring) (debug_strings : list rstring → rstring) (hash_order : gset rstring → list rstring)
  {Mitm : Type} (build_mitm : NetworkProxySettings H → outcome rstring Mitm)
  (home_dir : option rstring) (current_dir : outcome PathError rstring) `{!EqDecision H}
  (lookup_host : rstring → N → option (list IpAddr)).
#[local] Abbreviation reachable := (reachable url_host hooks_error debug_strings hash_order build_mitm home_dir current_dir).

Lemma add_candidates_spec cands seen globs seen' globs' g :
  add_candidates cands seen globs = Ok (seen', globs') → g ∈ globs' → g ∈ globs ∨ ∃ c, c ∈ cands ∧ glob_new c = Some g.
Proof using Type.
  revert seen globs. induction cands as [|c cands IH]; intros seen globs; cbn [add_candidates].
  { intros [= <- <-]. by left. }
  case_bool_decide.
  - intros Ha Hg. destruct (IH _ _ Ha Hg) as [?|(c' & ? & ?)]; [by left|right]. exists c'. split; [by right|done].
  - intros (g' & Hg' & Ha)%bind_Ok Hg. destruct (IH _ _ Ha Hg) as [[?|Hx]%elem_of_app|(c' & ? & ?)].
    + by left.
    + apply list_elem_of_singleton in Hx as ->. right. exists c. split; [by left|]. destruct (glob_new c); cbn in Hg'; by simplify_eq.
    + right. exists c'. split; [by right|done].
Qed.
Lemma add_patterns_spec ps policy seen globs globs' g :
  add_patterns ps policy seen globs = Ok globs' → g ∈ globs' →
  g ∈ globs ∨ ∃ p c, p ∈ ps ∧ c ∈ expand_domain_pattern (normalize_pattern p) ∧ glob_new c = Some g.
Proof using Type.
  revert seen globs. induction ps as [|p ps IH]; intros seen globs; cbn [add_patterns].
  { intros [= <-]. by left. }
  destruct (match policy with RejectGlobal => _ | AllowGlobal => false end); [done|].
  intros ([seen1 globs1] & Ha & Hp)%bind_Ok Hg. destruct (IH _ _ Hp Hg) as [Hg1|(p' & c & ? & ? & ?)].
  - destruct (add_candidates_spec _ _ _ _ _ _ Ha Hg1) as [?|(c & ? & ?)]; [by left|right]. exists p, c. split_and!; [by left|done|done].
  - right. exists p', c. split_and!; [by right|done|done].
Qed.
Lemma compiled_match `{!GlobLaws G} ps policy set h :
  compile_globset_with_policy ps policy = Ok set → is_match set h = true →
  ∃ p c g, p ∈ ps ∧ c ∈ expand_domain_pattern (normalize_pattern p) ∧ glob_new c = Some g ∧ glob_matches g h = true.
Proof using Type.
  intros (globs & Ha & Hb)%bind_Ok Hm. destruct (set_build globs) as [set'|] eqn:Es; [|done]. cbn in Hb. simplify_eq.
  rewrite (is_match_spec _ _ h Es) in Hm. apply existsb_exists in Hm as (g & Hg & Hm). apply list_elem_of_In in Hg.
  destruct (add_patterns_spec _ _ _ _ _ _ Ha Hg) as [Hn%elem_of_nil|(p & c & ? & ? & ?)]; [done|]. by exists p, c, g.
Qed.
(** What the globs of a plain pattern match, its reading for the constraints covers. *)
Lemma plain_covers `{!GlobLaws G} e c g h :
  plain_pattern url_host e → Forall (λ c, c < 128) h → c ∈ expand_domain_pattern (normalize_pattern e) → glob_new c = Some g →
  glob_matches g h = true → covers (parse_for_constraints url_host e) h.
Proof using Type.
  intros He Hh Hc Hg Hm. destruct (plain_readings url_host e He) as (d & [Hd Hl _] & Hcase).
  pose proof (plain_lower d Hd) as Hd'.
  assert (normalize_domain (to_ascii_lowercase d) = to_ascii_lowercase d) as En.
  { rewrite normalize_domain_lower, lower_idemp. by apply plain_trim_dots, lower_last. }
  assert (c = to_ascii_lowercase d → normalize_domain h = to_ascii_lowercase d) as H1.
  { intros ->. pose proof (glob_literal _ _ _ Hd' Hh Hg Hm) as E. rewrite lower_idemp in E.
    rewrite normalize_domain_lower, E. by apply plain_trim_dots, lower_last. }
  assert (c = lit "?*." ++ to_ascii_lowercase d → ∃ x, normalize_domain h = x ++ dot :: to_ascii_lowercase d) as H2.
  { intros ->. destruct (glob_subdomain _ _ _ Hd' Hh Hg Hm) as [x E]. rewrite lower_idemp in E. exists x.
    rewrite normalize_domain_lower, E. destruct (lower_last d Hl) as (y & z & -> & Hz). apply plain_trim_dots.
    exists (x ++ dot :: y), z. by rewrite <- app_assoc. }
  destruct Hcase as [[E ->]|[[E ->]|[E ->]]]; rewrite E in Hc; cbn [covers]; rewrite En.
  - apply list_elem_of_singleton in Hc. auto.
  - apply list_elem_of_singleton in Hc. auto.
  - apply elem_of_cons in Hc as [?|Hc%list_elem_of_singleton]; auto.
Qed.


(** ** Properties *)

(** C35: a managed list of allowed domains is not widened by plain entries.  In every state that
    the operations of a proxy can lead to, in any interleaving: if the managed configuration lists
    the allowed domains and leaves open whether the user may extend them, and every entry allowed in
    that state is plain (a name of letters, digits, dots and dashes that the URL parser reads as itself,
    alone or behind one of the two prefixes of patterns), then an ASCII host that is allowed by the rules is one that
    a managed pattern stands for, itself or, for a scoped address, without its scope.  For entries
    that are not plain this does not hold: names with a port, which the URL parser does not read, count
    as the same ([unreadable_names_are_alike] allows a foreign host in this way). *)
Theorem allowed_hosts_stay_within_managed `{!GlobLaws G} (y : Shared) (managed : list rstring) (host h : rstring) (port : N) :
  reachable y →
  c_allowed_domains (constraints (state y)) = Some managed →
  c_allowlist_expansion_enabled (constraints (state y)) = None →
  Forall (plain_pattern url_host) (default [] (allowed_domains (config (state y)))) →
  host_parse host = Some h → Forall (λ c, c < 128) h →
  host_blocked lookup_host (state y) host port = HostAllowed →
  ∃ m, m ∈ managed ∧
    (covers (parse_for_constraints url_host m) h ∨
     ∃ ip, unscoped_ip_literal h = Some ip ∧ covers (parse_for_constraints url_host m) ip).
Proof using Type.
  intros Hy Hm He Hp Hh Ha Hb. destruct (reachable_good _ _ _ _ _ _ _ _ Hy) as [[Hv [_ Hc] _] _].
  apply host_blocked_spec in Hb. rewrite Hh in Hb. destruct Hb as (_ & _ & _ & Hmatch).
  destruct (v_allowed _ _ _ _ Hv _ Hm) as [_ Hall]. rewrite He in Hall.
  assert (∀ x, Forall (λ c, c < 128) x → is_match (allow_set (state y)) x = true → ∃ m, m ∈ managed ∧ covers (parse_for_constraints url_host m) x) as Hx.
  { intros x Hax Hmx. destruct (compiled_match _ _ _ _ Hc Hmx) as (e & c & g & Hein & Hcin & Hg & Hgm).
    rewrite Forall_forall in Hp. pose proof (plain_covers e c g x (Hp e Hein) Hax Hcin Hg Hgm) as Hcov.
    destruct (Hall e Hein) as (m & Hmin & Hal). exists m. split; [done|]. by eapply allows_sound. }
  unfold globset_matches_host_or_unscoped in Hmatch. apply orb_prop in Hmatch as [Hmatch|Hmatch].
  - destruct (Hx h Ha Hmatch) as (m & ? & ?). exists m. split; [done|by left].
  - destruct (unscoped_ip_literal h) as [ip|] eqn:Eip; [|done]. unfold unscoped_ip_literal, split_once in Eip.
    destruct (find (lit "%") h) as [i|]; [|done]. cbn [mbind option_bind] in Eip. case_match; [|done]. injection Eip as <-.
    destruct (Hx (take i h)) as (m & ? & ?); [by apply Forall_take|done|]. exists m. split; [done|right]. by eexists.
Qed.

(** The policy stays within the constraints.  In every state that the operations of
    a proxy can lead to, in any interleaving of reloads, updates, mode changes and recorded requests, the
    configuration is valid for the constraints it is kept under, both glob sets
    are compiled from it, and no more than two hundred blocked requests are kept. *)
Theorem policy_stays_within_constraints (y : Shared) :
  reachable y →
  valid_policy url_host hooks_error (config (state y)) (constraints (state y)) ∧
  compiled (state y) ∧ (length (blocked (state y)) ≤ 200)%nat.
Proof using Type. intros Hy. by destruct (reachable_good _ _ _ _ _ _ _ _ Hy) as [[Hv Hc Hb] _]. Qed.

End properties.

Section request_property.
Context {G : Globs} {H Mitm : Type} (lookup_host : rstring → N → option (list IpAddr)).
(** What a request is allowed on.  A request passes exactly if its host is
    not denied, passes the address check and is on a non-empty allowlist; or if the decider, that is asked
    only for hosts that are neither denied nor local but not on the list (or
    empty), says so.  A denial always wins, and a
    name that is not looked up, or is looked up to a local address, is refused without asking. *)
Theorem requests_pass_the_policy (s : @ConfigState G H Mitm) (decider : option (NetworkPolicyRequest → NetworkDecision)) (r : NetworkPolicyRequest) :
  evaluate_host_policy lookup_host s decider r = NdAllow ↔
  match host_parse (rq_host r) with
  | None => ∃ decide, decider = Some decide ∧ decide r = NdAllow
  | Some h =>
      globset_matches_host_or_unscoped (deny_set s) h = false ∧ address_ok lookup_host s h (rq_port r) ∧
      ((allowed_domains (config s) ≠ None ∧ globset_matches_host_or_unscoped (allow_set s) h = true) ∨
       ((allowed_domains (config s) = None ∨ globset_matches_host_or_unscoped (allow_set s) h = false) ∧
        ∃ decide, decider = Some decide ∧ decide r = NdAllow))
  end.
Proof using Type.
  assert (match decider with Some decide => map_decider_decision (decide r) | None => deny_with_source (reason_str RNotAllowed) BaselinePolicy end = NdAllow
    ↔ ∃ decide, decider = Some decide ∧ decide r = NdAllow) as Hd.
  { destruct decider as [decide|]; [|split; [done|by intros (? & ? & _)]]. split.
    - intros E. exists decide. split; [done|]. by destruct (decide r).
    - by intros (? & [= <-] & ->). }
  unfold evaluate_host_policy. pose proof (proj1 (host_blocked_spec lookup_host s (rq_host r) (rq_port r) _) eq_refl) as Hb.
  destruct (host_parse (rq_host r)) as [h|]; [|by rewrite Hb].
  destruct (host_blocked lookup_host s (rq_host r) (rq_port r)) as [|[]].
  - destruct Hb as (? & ? & ? & ?). split; [|done]. intros _. split_and!; [done|done|by left].
  - split; [done|]. intros (? & _). congruence.
  - destruct Hb as (? & ? & Hn). rewrite Hd. split; [intros ?; split_and!; [done|done|by right]|].
    intros (_ & _ & [[? ?]|[_ ?]]); [|done]. destruct Hn; congruence.
  - destruct Hb as [_ Hb]. split; [done|]. by intros (_ & ? & _).
Qed.
End request_property.


(** ** A proxy with a managed allowlist
    Globs without wildcards but for [?*.] at their start, host names that are read as
    they are, and a configuration that names one host below the managed domain. *)
Module Demo.
Definition demo_matches (g h : rstring) : bool :=
  match strip_prefix (lit "?*.") g with
  | Some d => ends_with (to_ascii_lowercase h) (dot :: d)
  | None => bool_decide (to_ascii_lowercase h = g)
  end.
#[export] Instance globs : Globs :=
  {| Glob := rstring; GlobSet := list rstring; glob_new p := Some (to_ascii_lowercase p); set_build gs := Some gs;
     is_match gs h := existsb (λ g, demo_matches g h) gs |}.
#[export] Instance globs_laws : GlobLaws globs.
Proof.
  refine {| glob_matches := demo_matches : @Glob globs → rstring → bool |}.
  - intros gs s h [= <-]. done.
  - intros d g h Hd _ [= <-]. cbn. unfold demo_matches. change (lit "?*.") with (63 :: lit "*.").
    rewrite strip_plain; [|by apply plain_lower|done]. by intros ?%bool_decide_eq_true.
  - intros d g h Hd _ Hg. assert (g = lit "?*." ++ to_ascii_lowercase d) as ->.
    { assert (g = to_ascii_lowercase (lit "?*." ++ d)) as -> by (by inversion Hg). unfold to_ascii_lowercase. by rewrite fmap_app. }
    assert (strip_prefix (lit "?*.") (lit "?*." ++ to_ascii_lowercase d) = Some (to_ascii_lowercase d)) as E by by apply strip_prefix_Some.
    unfold demo_matches. rewrite E. intros [x Hx]%ends_with_spec. by exists x.
Defined.
Definition url_host (d : rstring) : option rstring := Some (to_ascii_lowercase d).
Definition hooks_error (_ : bool) (_ : list unit) : option rstring := None.
Definition settings : NetworkProxySettings unit :=
  with_domains settings_default (Some [mk_domain (lit "API.example.com") PermAllow; mk_domain (lit "evil.com") PermDeny]).
Definition managed : list rstring := [lit "**.example.com"].
Definition constraints : NetworkProxyConstraints :=
  mk_constraints (Some true) (Some Full) None None None (Some managed) None None None None (Some false).
Definition start : @ConfigState globs unit unit :=
  mk_state settings [lit "api.example.com"] [lit "evil.com"] tt constraints [] 0.
Definition lookup (_ : rstring) (_ : N) : option (list IpAddr) := Some [V4 (ipv4 93 184 216 34)].
#[local] Abbreviation reachable := (reachable url_host hooks_error (λ _, []) elements (λ _, Ok tt) None (Err WithoutBase)).
Lemma start_reachable : reachable (mk_shared start []).
Proof. apply reachable_start. split; vm_compute; done. Qed.
End Demo.

Example allowed_hosts_stay_within_managed_witness :
  host_blocked Demo.lookup Demo.start (lit "api.EXAMPLE.com.") 443 = HostAllowed ∧
  ∃ m, m ∈ Demo.managed ∧
    (covers (parse_for_constraints Demo.url_host m) (lit "api.example.com") ∨
     ∃ ip, unscoped_ip_literal (lit "api.example.com") = Some ip ∧ covers (parse_for_constraints Demo.url_host m) ip).
Proof.
  split; [by vm_compute|].
  unshelve eapply (allowed_hosts_stay_within_managed Demo.url_host Demo.hooks_error (λ _, []) elements (λ _, Ok tt) None (Err WithoutBase)
    Demo.lookup (mk_shared Demo.start []) Demo.managed (lit "api.EXAMPLE.com.") (lit "api.example.com") 443).
  - apply Demo.globs_laws.
  - apply Demo.start_reachable.
  - done.
  - done.
  - apply Forall_singleton. exists (lit "API.example.com"). split; [|by left]. split; [|by exists (lit "API.example.co"), 109|done].
    by repeat constructor.
  - by vm_compute.
  - by repeat constructor.
  - by vm_compute.
Defined.
Example policy_stays_within_constraints_witness :
  valid_policy Demo.url_host Demo.hooks_error Demo.settings Demo.constraints ∧ compiled Demo.start ∧ (length (blocked Demo.start) ≤ 200)%nat.
Proof.
  apply (policy_stays_within_constraints Demo.url_host Demo.hooks_error (λ _, []) elements (λ _, Ok tt) None (Err WithoutBase)
    (mk_shared Demo.start [])), Demo.start_reachable.
Defined.

(** ** What the code does not do *)
(** Names that the URL parser does not read (here: those with a port) are the empty name
    for the constraints, so that any of them is allowed by any other; the globs are those of the
    hosts in front of the ports. *)
Example unreadable_names_are_alike :
  let url_host d := if contains_any [colon] d then None else Some (to_ascii_lowercase d) in
  let managed := mk_constraints None None None None None (Some [lit "corp.example:443"]) None None None None None in
  let settings := with_domains settings_default (Some [mk_domain (lit "evil.com:443") PermAllow]) in
  validate_policy_against_constraints url_host Demo.hooks_error (λ _, []) elements settings managed = Ok () ∧
  let state := @mk_state Demo.globs unit unit settings [lit "evil.com"] [] tt managed [] 0 in
  build_config_state (λ _, Ok tt) None (Err WithoutBase) settings managed = Ok state ∧
  host_blocked Demo.lookup state (lit "evil.com") 443 = HostAllowed.
Proof. vm_compute. done. Qed.
(** An update writes back the requests of its snapshot: what was recorded since is lost. *)
Example updates_lose_recorded_requests entry :
  ∃ s, plan_update Demo.url_host Demo.hooks_error (λ _, []) elements (λ _, Ok tt) None (Err WithoutBase) KAllow (lit "b.example.com") Demo.start = Ok (Some s) ∧
    finish_update Demo.url_host Demo.hooks_error (λ _, []) elements (λ _, Ok tt) None (Err WithoutBase) KAllow (lit "b.example.com")
      (record_entry Demo.start entry) Demo.start = Written s ∧
    blocked (record_entry Demo.start entry) = [entry] ∧ blocked s = [] ∧ blocked_total s = 0.
Proof. eexists. split; [by vm_compute|]. split; [by vm_compute|done]. Qed.
(** A forced reload keeps the recorded requests and forgets their number. *)
Example forced_reload_resets_the_total entry (new : @ConfigState Demo.globs unit unit) : blocked_total new = 0 →
  let s := write_forced (record_entry Demo.start entry) new in blocked s = [entry] ∧ blocked_total s = 0.
Proof. intros E. split; [done|]. exact E. Qed.
(** Only one star alone is refused as a pattern for all domains. *)
Example two_stars_are_not_global :
  is_global_wildcard_domain_pattern (lit "*") = true ∧ is_global_wildcard_domain_pattern (lit "**") = false ∧
  expand_domain_pattern (normalize_pattern (lit "**")) = [lit "**"].
Proof. vm_compute. done. Qed.
