(* ===== verification/KeyInput.v ===== *)
(** * Keys ([tui/src/key_hint.rs], and the records of [tui/src/keymap.rs])

    Events of the terminal library, bindings and their matching, and the
    bindings of the text area. *)
From S2P Require Import Prelude RustStr.
#[local] Open Scope N_scope.

(** ** Events ([crossterm]); modifiers are a set of bits. *)
Inductive KeyCode :=
| KBackspace | KEnter | KLeft | KRight | KUp | KDown | KHome | KEnd | KPageUp | KPageDown | KTab | KBackTab | KDelete | KInsert
| KF (n : N) | KChar (c : char) | KNull | KEsc | KCapsLock | KScrollLock | KNumLock | KPrintScreen | KPause | KMenu | KKeypadBegin
| KMedia (n : N) | KModifier (n : N).
#[global] Instance KeyCode_eq_dec : EqDecision KeyCode.
Proof. solve_decision. Defined.
Inductive KeyEventKind := KPress | KRepeat | KRelease.
#[global] Instance KeyEventKind_eq_dec : EqDecision KeyEventKind.
Proof. solve_decision. Defined.
Definition NONE : N := 0.
Definition SHIFT : N := 1.
Definition CONTROL : N := 2.
Definition ALT : N := 4.
Record KeyEvent := mk_event { ev_code : KeyCode; ev_modifiers : N; ev_kind : KeyEventKind }.
Definition pressed_or_repeated (e : KeyEvent) : bool := match ev_kind e with KPress | KRepeat => true | KRelease => false end.

(** ** Bindings *)
Record KeyBinding := mk_binding { key : KeyCode; modifiers : N }.
Definition c0_control_char_to_ctrl_char (ch : char) : option char :=
  if ch =? 0 then Some 32
  else if (1 <=? ch) && (ch <=? 0x1a) then Some (ch - 1 + 97)
  else if (0x1c <=? ch) && (ch <=? 0x1f) then Some (ch - 0x1c + 52)
  else None.
Definition is_ascii_uppercase (c : char) : bool := (65 <=? c) && (c <=? 90).
Definition normalize_key_parts (key : KeyCode) (modifiers : N) : KeyCode * N :=
  match key with
  | KChar ch =>
      match (if modifiers =? 0 then c0_control_char_to_ctrl_char ch else None) with
      | Some ctrl_char => (KChar ctrl_char, N.lor CONTROL modifiers)
      | None =>
          if is_ascii_uppercase ch then (KChar (to_ascii_lowercase_char ch), N.lor modifiers SHIFT) else (key, modifiers)
      end
  | _ => (key, modifiers)
  end.
Definition is_press (b : KeyBinding) (e : KeyEvent) : bool :=
  bool_decide (normalize_key_parts (key b) (modifiers b) = normalize_key_parts (ev_code e) (ev_modifiers e)) && pressed_or_repeated e.
Definition is_pressed (bs : list KeyBinding) (e : KeyEvent) : bool := existsb (λ b, is_press b e) bs.
(** On Unix no modifiers stand for AltGr. *)
Definition is_altgr (_ : N) : bool := false.

(** ** The bindings of the text area *)
Record EditorKeymap := mk_editor {
  insert_newline : list KeyBinding; move_left : list KeyBinding; move_right : list KeyBinding; move_up : list KeyBinding;
  move_down : list KeyBinding; move_word_left : list KeyBinding; move_word_right : list KeyBinding; move_line_start : list KeyBinding;
  move_line_end : list KeyBinding; delete_backward_keys : list KeyBinding; delete_forward_keys : list KeyBinding;
  delete_backward_word_keys : list KeyBinding; delete_forward_word_keys : list KeyBinding; kill_line_start : list KeyBinding;
  kill_whole_line : list KeyBinding; kill_line_end : list KeyBinding; yank_keys : list KeyBinding }.
Record VimNormalKeymap := mk_normal {
  enter_insert : list KeyBinding; append_after_cursor : list KeyBinding; append_line_end : list KeyBinding;
  insert_line_start : list KeyBinding; open_line_below : list KeyBinding; open_line_above : list KeyBinding;
  vn_move_left : list KeyBinding; vn_move_right : list KeyBinding; vn_move_up : list KeyBinding; vn_move_down : list KeyBinding;
  move_word_forward : list KeyBinding; move_word_backward : list KeyBinding; move_word_end : list KeyBinding;
  vn_move_line_start : list KeyBinding; vn_move_line_end : list KeyBinding; delete_char : list KeyBinding;
  delete_to_line_end : list KeyBinding; vn_yank_line : list KeyBinding; paste_after : list KeyBinding;
  start_delete_operator : list KeyBinding; start_yank_operator : list KeyBinding; cancel_operator : list KeyBinding }.
Record VimOperatorKeymap := mk_operator {
  delete_line : list KeyBinding; vo_yank_line : list KeyBinding; motion_left : list KeyBinding; motion_right : list KeyBinding;
  motion_up : list KeyBinding; motion_down : list KeyBinding; motion_word_forward : list KeyBinding;
  motion_word_backward : list KeyBinding; motion_word_end : list KeyBinding; motion_line_start : list KeyBinding;
  motion_line_end : list KeyBinding; cancel : list KeyBinding }.
Record RuntimeKeymap := mk_keymap { editor : EditorKeymap; vim_normal : VimNormalKeymap; vim_operator_keys : VimOperatorKeymap }.

(** Raw control characters match the bindings of their letters, and capitals those with shift. *)
Example matching :
  is_press (mk_binding (KChar 106) CONTROL) (mk_event (KChar 10) NONE KPress) = true ∧
  is_press (mk_binding (KChar 97) SHIFT) (mk_event (KChar 65) NONE KRepeat) = true ∧
  is_press (mk_binding (KChar 97) NONE) (mk_event (KChar 97) NONE KRelease) = false.
Proof. vm_compute. done. Qed.
