(* ===== verification/TextArea.v ===== *)
(** * The text area of the composer ([tui/src/bottom_pane/textarea.rs], [tui/src/wrapping.rs])

    An editable text with elements that edits keep whole, a cursor, a single kill
    buffer and Vim editing.  Positions are byte offsets; [None] is a panic: a slice off a character
    boundary or out of range, or a failed assertion.  Graphemes, word
    boundaries, display widths and line filling come from libraries. *)
From S2P Require Import Prelude RustStr Utf8 Utf8Text KeyInput.
#[local] Open Scope N_scope.

(** ** The libraries ([unicode_segmentation], [unicode_width], [textwrap]) *)
(** [Err]: the text at hand is not enough to tell. *)
Inductive cursor_result := CursorOk (boundary : option N) | CursorErr.
(** A filled line: a slice, with its place in the text if it lies in it, or a text of its own. *)
Inductive WrappedLine := Borrowed (place : option (N * N)) (slice : rstring) | Owned (line : rstring).
Class Unicode := {
  prev_boundary : rstring → N → cursor_result;
  next_boundary : rstring → N → cursor_result;
  grapheme_indices : rstring → list (N * rstring);
  split_word_bound_indices : rstring → list (N * rstring);
  width : rstring → N;
  textwrap_wrap : rstring → N → list WrappedLine }.

(** ** Words *)
Definition WORD_SEPARATORS : rstring :=
  lit "`~!@#$%^&*()-=+[{]}\|;:'" ++ [34] ++ lit ",.<>/?".
Definition is_word_separator (ch : char) : bool := bool_decide (ch ∈ WORD_SEPARATORS).
(** The pieces of a segment that starts at [start]; [piece] is the piece so far, [piece_start] its start. *)
Fixpoint split_pieces (chars : rstring) (piece_start : N) (piece : rstring) (in_separator : bool) : list (N * rstring) :=
  match chars with
  | [] => [(piece_start, piece)]
  | ch :: chars =>
      if Bool.eqb (is_word_separator ch) in_separator then split_pieces chars piece_start (piece ++ [ch]) in_separator
      else (piece_start, piece) :: split_pieces chars (piece_start + blen piece) [ch] (is_word_separator ch)
  end.
Definition segment_pieces (segment_start : N) (segment : rstring) : list (N * rstring) :=
  match segment with
  | [] => []
  | first_char :: chars => split_pieces chars segment_start [first_char] (is_word_separator first_char)
  end.
Definition all_separators (piece : rstring) : bool := forallb is_word_separator piece.

(** ** State *)
Record TextElement := mk_element { e_id : N; e_start : N; e_end : N; e_name : option rstring }.
Record WrapCache := mk_cache { c_width : N; c_lines : list (N * N) }.
Inductive VimMode := Normal | Insert.
Inductive KillBufferKind := Characterwise | Linewise.
Inductive VimOperator := Delete | Yank.
Inductive VimMotion := MLeft | MRight | MUp | MDown | MWordForward | MWordBackward | MWordEnd | MLineStart | MLineEnd.
Record TextArea := mk_area {
  text : rstring; cursor_pos : N; wrap_cache : option WrapCache; preferred_col : option N; elements : list TextElement;
  next_element_id : N; kill_buffer : rstring; kill_buffer_kind : KillBufferKind; vim_enabled : bool; vim_mode : VimMode;
  vim_operator : option VimOperator; editor_keymap : EditorKeymap; vim_normal_keymap : VimNormalKeymap;
  vim_operator_keymap : VimOperatorKeymap }.
Definition new (defaults : RuntimeKeymap) : TextArea :=
  mk_area [] 0 None None [] 1 [] Characterwise false Insert None (editor defaults) (vim_normal defaults) (vim_operator_keys defaults).
(** Assignments of the visible text, of the cursor and column, of the kill buffer, and of the Vim state. *)
Definition with_draft (t : TextArea) (x : rstring) (pos : N) (es : list TextElement) : TextArea :=
  mk_area x pos None None es (next_element_id t) (kill_buffer t) (kill_buffer_kind t) (vim_enabled t) (vim_mode t) (vim_operator t)
    (editor_keymap t) (vim_normal_keymap t) (vim_operator_keymap t).
Definition with_cursor (t : TextArea) (pos : N) (col : option N) : TextArea :=
  mk_area (text t) pos (wrap_cache t) col (elements t) (next_element_id t) (kill_buffer t) (kill_buffer_kind t) (vim_enabled t)
    (vim_mode t) (vim_operator t) (editor_keymap t) (vim_normal_keymap t) (vim_operator_keymap t).
Definition with_elements (t : TextArea) (es : list TextElement) (next : N) : TextArea :=
  mk_area (text t) (cursor_pos t) (wrap_cache t) (preferred_col t) es next (kill_buffer t) (kill_buffer_kind t) (vim_enabled t)
    (vim_mode t) (vim_operator t) (editor_keymap t) (vim_normal_keymap t) (vim_operator_keymap t).
Definition with_cache (t : TextArea) (c : option WrapCache) : TextArea :=
  mk_area (text t) (cursor_pos t) c (preferred_col t) (elements t) (next_element_id t) (kill_buffer t) (kill_buffer_kind t)
    (vim_enabled t) (vim_mode t) (vim_operator t) (editor_keymap t) (vim_normal_keymap t) (vim_operator_keymap t).
Definition store_kill_buffer (t : TextArea) (x : rstring) (kind : KillBufferKind) : TextArea :=
  mk_area (text t) (cursor_pos t) (wrap_cache t) (preferred_col t) (elements t) (next_element_id t) x kind (vim_enabled t)
    (vim_mode t) (vim_operator t) (editor_keymap t) (vim_normal_keymap t) (vim_operator_keymap t).
Definition with_vim (t : TextArea) (enabled : bool) (mode : VimMode) (op : option VimOperator) : TextArea :=
  mk_area (text t) (cursor_pos t) (wrap_cache t) (preferred_col t) (elements t) (next_element_id t) (kill_buffer t) (kill_buffer_kind t)
    enabled mode op (editor_keymap t) (vim_normal_keymap t) (vim_operator_keymap t).
Definition set_keymap_bindings (t : TextArea) (keymap : RuntimeKeymap) : TextArea :=
  mk_area (text t) (cursor_pos t) (wrap_cache t) (preferred_col t) (elements t) (next_element_id t) (kill_buffer t) (kill_buffer_kind t)
    (vim_enabled t) (vim_mode t) (vim_operator t) (editor keymap) (vim_normal keymap) (vim_operator_keys keymap).
Definition set_vim_enabled (t : TextArea) (enabled : bool) : TextArea := with_vim t enabled (if enabled then Normal else Insert) None.
Definition set_mode (t : TextArea) (mode : VimMode) : TextArea := with_vim t (vim_enabled t) mode (vim_operator t).
Definition set_operator (t : TextArea) (op : option VimOperator) : TextArea := with_vim t (vim_enabled t) (vim_mode t) op.
Definition enter_vim_insert_mode (t : TextArea) : TextArea := if vim_enabled t then with_vim t true Insert None else t.
Definition enter_vim_normal_mode (t : TextArea) : TextArea :=
  if vim_enabled t then with_cursor (with_vim t true Normal None) (cursor_pos t) None else t.
Definition len (t : TextArea) : N := blen (text t).

(** ** Positions *)
Definition find_element_containing (es : list TextElement) (pos : N) : option TextElement :=
  List.find (λ e, (e_start e <? pos) && (pos <? e_end e)) es.
Fixpoint boundary_below (s : rstring) (fuel : nat) (pos : N) : N :=
  match fuel with
  | O => pos
  | S fuel => if (0 <? pos) && negb (is_char_boundary s pos) then boundary_below s fuel (pos - 1) else pos
  end.
Fixpoint boundary_above (s : rstring) (fuel : nat) (pos : N) : N :=
  match fuel with
  | O => pos
  | S fuel => if (pos <? blen s) && negb (is_char_boundary s pos) then boundary_above s fuel (pos + 1) else pos
  end.
Definition clamp_pos_to_char_boundary (s : rstring) (pos : N) : N :=
  let pos := N.min pos (blen s) in
  if is_char_boundary s pos then pos
  else
    let prev := boundary_below s (N.to_nat pos) pos in
    let next := boundary_above s (N.to_nat (blen s - pos)) pos in
    if pos - prev <=? next - pos then prev else next.
Definition nearest_edge (s : rstring) (es : list TextElement) (pos : N) : N :=
  let pos := clamp_pos_to_char_boundary s pos in
  match find_element_containing es pos with
  | Some e => clamp_pos_to_char_boundary s (if pos - e_start e <=? e_end e - pos then e_start e else e_end e)
  | None => pos
  end.
Definition clamp_pos_to_nearest_boundary (t : TextArea) (pos : N) : N := nearest_edge (text t) (elements t) pos.
Definition clamp_pos_for_insertion (t : TextArea) (pos : N) : N := nearest_edge (text t) (elements t) pos.
Definition set_cursor (t : TextArea) (pos : N) : TextArea :=
  with_cursor t (clamp_pos_to_nearest_boundary t (N.min pos (len t))) None.

Definition text_to (t : TextArea) (pos : N) : option rstring := fst <$> split_at_byte pos (text t).
Definition text_from (t : TextArea) (pos : N) : option rstring := snd <$> split_at_byte pos (text t).
Definition is_newline (c : char) : bool := c =? newline.
Definition after_newline (prefix : rstring) : N := match rfind_char is_newline prefix with Some i => i + 1 | None => 0 end.
Definition beginning_of_line (t : TextArea) (pos : N) : option N := prefix ← text_to t pos; Some (after_newline prefix).
Definition beginning_of_current_line (t : TextArea) : option N := beginning_of_line t (cursor_pos t).
Definition end_of_line (t : TextArea) (pos : N) : option N :=
  suffix ← text_from t pos; Some (match find_char is_newline suffix with Some i => i + pos | None => len t end).
Definition end_of_current_line (t : TextArea) : option N := end_of_line t (cursor_pos t).
Definition not_whitespace (c : char) : bool := negb (is_whitespace c).
Definition first_non_blank_of_current_line (t : TextArea) : option N :=
  bol ← beginning_of_current_line t;
  eol ← end_of_current_line t;
  line ← slice (text t) bol eol;
  Some (match find_char not_whitespace line with Some offset => bol + offset | None => eol end).
Definition current_line_range_with_newline (t : TextArea) : option (N * N) :=
  bol ← beginning_of_current_line t;
  eol ← end_of_current_line t;
  Some (bol, if eol <? len t then eol + 1 else eol).

(** ** Elements and edits *)
Fixpoint insert_by_start (e : TextElement) (es : list TextElement) : list TextElement :=
  match es with
  | [] => [e]
  | e' :: es => if e_start e <=? e_start e' then e :: e' :: es else e' :: insert_by_start e es
  end.
Definition sort_by_start (es : list TextElement) : list TextElement := foldr insert_by_start [] es.
Definition moved (e : TextElement) (start stop : N) : TextElement := mk_element (e_id e) start stop (e_name e).
Definition shift_element (at_ removed inserted : N) (e : TextElement) : TextElement :=
  let stop := at_ + removed in
  if e_end e <=? at_ then e
  else if stop <=? e_start e then moved e (e_start e + inserted - removed) (e_end e + inserted - removed)
  else moved e (N.min at_ (e_start e)) (at_ + N.max inserted (e_end e - stop)).
Definition shift_elements (at_ removed inserted : N) (es : list TextElement) : list TextElement :=
  shift_element at_ removed inserted <$> List.filter (λ e, negb ((at_ <=? e_start e) && (e_end e <=? at_ + removed))) es.
Definition update_elements_after_replace (start stop inserted_len : N) (es : list TextElement) : list TextElement :=
  shift_elements start (stop - start) inserted_len es.
Definition insert_str_at (t : TextArea) (pos : N) (s : rstring) : option TextArea :=
  let pos := clamp_pos_for_insertion t pos in
  x ← insert_at (text t) pos s;
  let cursor := if pos <=? cursor_pos t then cursor_pos t + blen s else cursor_pos t in
  Some (with_draft t x cursor (shift_elements pos 0 (blen s) (elements t))).
Definition insert_str (t : TextArea) (s : rstring) : option TextArea := insert_str_at t (cursor_pos t) s.
Definition expand_step (range : N * N) (e : TextElement) : N * N :=
  if (e_start e <? range.2) && (range.1 <? e_end e) then (N.min range.1 (e_start e), N.max range.2 (e_end e)) else range.
(** Rounds until nothing changes; [fuel] bounds their number. *)
Fixpoint expand_loop (fuel : nat) (es : list TextElement) (range : N * N) : option (N * N) :=
  match fuel with
  | O => None
  | S fuel => let range' := foldl expand_step range es in if bool_decide (range' = range) then Some range else expand_loop fuel es range'
  end.
Definition expand_range_to_element_boundaries (t : TextArea) (range : N * N) : option (N * N) :=
  expand_loop (S (length (elements t))) (elements t) range.
(** Where a replaced range of a text takes a position. *)
Definition cursor_after (cursor start stop inserted_len : N) : N :=
  if cursor <? start then cursor
  else if cursor <=? stop then start + inserted_len
  else cursor + inserted_len - (stop - start).
Definition replace_range_raw (t : TextArea) (range : N * N) (s : rstring) : option TextArea :=
  if negb (range.1 <=? range.2) then None
  else
    let start := N.min range.1 (len t) in
    let stop := N.min range.2 (len t) in
    if (stop - start =? 0) && (blen s =? 0) then Some t
    else
      x ← replace_bytes (text t) range.1 range.2 s;
      let es := update_elements_after_replace start stop (blen s) (elements t) in
      let cursor := N.min (cursor_after (cursor_pos t) start stop (blen s)) (blen x) in
      Some (with_draft t x (nearest_edge x es cursor) es).
Definition replace_range (t : TextArea) (range : N * N) (s : rstring) : option TextArea :=
  range ← expand_range_to_element_boundaries t range; replace_range_raw t range s.
Definition next_id (t : TextArea) : N := sat_add (next_element_id t) 1.
Definition add_element_with_id (t : TextArea) (range : N * N) (name : option rstring) : TextArea * N :=
  let id := next_element_id t in
  (with_elements t (sort_by_start (elements t ++ [mk_element id range.1 range.2 name])) (next_id t), id).
Definition add_element (t : TextArea) (range : N * N) : TextArea * N := add_element_with_id t range None.

(** *** Whole texts *)
Fixpoint push_elements (s : rstring) (ranges : list (N * N)) (es : list TextElement) (next : N) : list TextElement * N :=
  match ranges with
  | [] => (es, next)
  | (start, stop) :: ranges =>
      let start := clamp_pos_to_char_boundary s (N.min start (blen s)) in
      let stop := clamp_pos_to_char_boundary s (N.min stop (blen s)) in
      if stop <=? start then push_elements s ranges es next
      else push_elements s ranges (es ++ [mk_element next start stop None]) (sat_add next 1)
  end.
Definition set_text_inner (t : TextArea) (s : rstring) (ranges : option (list (N * N))) : TextArea :=
  let cursor := N.min (cursor_pos t) (blen s) in
  let '(es, next) :=
    match ranges with
    | Some ranges => let '(es, next) := push_elements s ranges [] (next_element_id t) in (sort_by_start es, next)
    | None => ([], next_element_id t)
    end in
  with_elements (with_draft t s (nearest_edge s es cursor) es) es next.
Definition set_text_clearing_elements (t : TextArea) (s : rstring) : TextArea := set_text_inner t s None.
Definition set_text_with_elements (t : TextArea) (s : rstring) (ranges : list (N * N)) : TextArea := set_text_inner t s (Some ranges).

(** *** Elements by payload, by name and by range *)
Definition payload (s : rstring) (e : TextElement) : option rstring := slice s (e_start e) (e_end e).
Definition element_payloads (t : TextArea) : list rstring := omap (payload (text t)) (elements t).
Definition element_id_for_exact_range (t : TextArea) (range : N * N) : option N :=
  e_id <$> List.find (λ e, bool_decide ((e_start e, e_end e) = range)) (elements t).
(** [isize] differences: the new length less the old one. *)
Definition shift_around (start stop inserted_len : N) (e : TextElement) : TextElement :=
  if e_end e <=? start then e
  else if stop <=? e_start e then moved e (e_start e + inserted_len - (stop - start)) (e_end e + inserted_len - (stop - start))
  else moved e (N.min start (e_start e)) (N.max (start + inserted_len) (e_end e + inserted_len - (stop - start))).
Definition replace_element_payload (t : TextArea) (old new : rstring) : option (TextArea * bool) :=
  match list_find (λ e, payload (text t) e = Some old) (elements t) with
  | None => Some (t, false)
  | Some (idx, e) =>
      let start := e_start e in
      let stop := e_end e in
      if (stop <? start) || (len t <? stop) then Some (t, false)
      else
        x ← replace_bytes (text t) start stop new;
        let inserted_len := blen new in
        let es :=
          imap (λ j e', if bool_decide (j = idx) then moved e' start (start + inserted_len)
                        else if inserted_len =? stop - start then e' else shift_around start stop inserted_len e') (elements t) in
        let cursor := cursor_after (cursor_pos t) start stop inserted_len in
        Some (with_draft t x (nearest_edge x es cursor) (sort_by_start es), true)
  end.
Definition insert_element (t : TextArea) (s : rstring) : option (TextArea * N) :=
  let start := clamp_pos_for_insertion t (cursor_pos t) in
  t ← insert_str_at t start s;
  let stop := start + blen s in
  let '(t, id) := add_element t (start, stop) in
  Some (set_cursor t stop, id).
Definition insert_named_element (t : TextArea) (s id : rstring) : option TextArea :=
  let start := clamp_pos_for_insertion t (cursor_pos t) in
  t ← insert_str_at t start s;
  let stop := start + blen s in
  Some (set_cursor (add_element_with_id t (start, stop) (Some id)).1 stop).
Definition find_named (t : TextArea) (id : rstring) : option TextElement := List.find (λ e, bool_decide (e_name e = Some id)) (elements t).
Definition named_element_range (t : TextArea) (id : rstring) : option (N * N) := (λ e, (e_start e, e_end e)) <$> find_named t id.
Definition replace_element_by_id (t : TextArea) (id s : rstring) : option (TextArea * bool) :=
  match find_named t id with
  | Some e =>
      t ← replace_range_raw t (e_start e, e_end e) s;
      Some (with_elements t (List.filter (λ e, negb (bool_decide (e_name e = Some id))) (elements t)) (next_element_id t), true)
  | None => Some (t, false)
  end.
Definition update_named_element_by_id (t : TextArea) (id s : rstring) : option (TextArea * bool) :=
  match find_named t id with
  | Some e =>
      t ← replace_range_raw t (e_start e, e_end e) s;
      Some ((add_element_with_id t (e_start e, e_start e + blen s) (Some id)).1, true)
  | None => Some (t, false)
  end.
Definition clamped_range (t : TextArea) (range : N * N) : N * N :=
  (clamp_pos_to_char_boundary (text t) (N.min range.1 (len t)), clamp_pos_to_char_boundary (text t) (N.min range.2 (len t))).
Definition add_element_range (t : TextArea) (range : N * N) : TextArea * option N :=
  let '(start, stop) := clamped_range t range in
  if stop <=? start then (t, None)
  else if existsb (λ e, (e_start e =? start) && (e_end e =? stop)) (elements t) then (t, None)
  else if existsb (λ e, (start <? e_end e) && (e_start e <? stop)) (elements t) then (t, None)
  else let '(t, id) := add_element t (start, stop) in (t, Some id).
Definition remove_element_range (t : TextArea) (range : N * N) : TextArea * bool :=
  let '(start, stop) := clamped_range t range in
  if stop <=? start then (t, false)
  else
    let es := List.filter (λ e, negb (e_start e =? start) || negb (e_end e =? stop)) (elements t) in
    (with_elements t es (next_element_id t), negb (length es =? length (elements t))%nat).

(** ** Wrapped lines ([wrapping.rs]) *)
Definition is_space (c : char) : bool := c =? 32.
Fixpoint leading (p : char → bool) (s : rstring) : rstring :=
  match s with c :: s => if p c then c :: leading p s else [] | [] => [] end.
(** The source characters that [wrapped] follows from [stop] on. *)
Fixpoint match_source (wrapped source : rstring) (stop : N) (saw_source_char : bool) : N :=
  match wrapped with
  | [] => stop
  | ch :: wrapped =>
      let otherwise :=
        if (ch =? 45) && bool_decide (wrapped = []) then match_source wrapped source stop saw_source_char
        else if negb saw_source_char then match_source wrapped source stop saw_source_char
        else stop in
      match source with
      | src :: source' => if ch =? src then match_source wrapped source' (stop + clen src) true else otherwise
      | [] => otherwise
      end
  end.
Definition map_owned_wrapped_line_to_range (s : rstring) (cursor : N) (wrapped synthetic_prefix : rstring) : option (N * N) :=
  let wrapped := if bool_decide (synthetic_prefix = []) then wrapped else default wrapped (strip_prefix synthetic_prefix wrapped) in
  source ← (if cursor <? blen s then snd <$> split_at_byte cursor s else Some []);
  let skipped := if starts_with wrapped (lit " ") then [] else leading is_space source in
  let start := cursor + blen skipped in
  Some (start, match_source wrapped (drop (length skipped) source) start false).
Section wrap.
Context {U : Unicode}.
(** The indents of the text area's options are empty. *)
Fixpoint wrap_lines (s : rstring) (lines : list WrappedLine) (cursor : N) : option (list (N * N)) :=
  match lines with
  | [] => Some []
  | line :: lines =>
      '(start, stop) ← match line with
                       | Borrowed (Some range) _ => Some range
                       | Borrowed None l | Owned l => map_owned_wrapped_line_to_range s cursor l []
                       end;
      after ← snd <$> split_at_byte stop s;
      let stop := stop + blen (leading is_space after) in
      rest ← wrap_lines s lines stop;
      Some ((start, stop + 1) :: rest)
  end.
Definition wrap_ranges (s : rstring) (w : N) : option (list (N * N)) := wrap_lines s (textwrap_wrap s w) 0.
Definition wrapped_lines (t : TextArea) (w : N) : option (TextArea * list (N * N)) :=
  match wrap_cache t with
  | Some c => if c_width c =? w then Some (t, c_lines c) else lines ← wrap_ranges (text t) w; Some (with_cache t (Some (mk_cache w lines)), lines)
  | None => lines ← wrap_ranges (text t) w; Some (with_cache t (Some (mk_cache w lines)), lines)
  end.
(** [partition_point] of the starts. *)
Fixpoint starts_up_to (lines : list (N * N)) (pos : N) : nat :=
  match lines with r :: lines => if r.1 <=? pos then S (starts_up_to lines pos) else O | [] => O end.
Definition wrapped_line_index_by_start (lines : list (N * N)) (pos : N) : option nat :=
  match starts_up_to lines pos with O => None | S i => Some i end.

(** ** Moving the cursor *)
Fixpoint display_col_offset (graphemes : list (N * rstring)) (width_so_far target_col : N) : option N :=
  match graphemes with
  | [] => None
  | (i, g) :: graphemes =>
      let width_so_far := width_so_far + width g in
      if target_col <? width_so_far then Some i else display_col_offset graphemes width_so_far target_col
  end.
Definition move_to_display_col_on_line (t : TextArea) (line_start line_end target_col : N) : option TextArea :=
  line ← slice (text t) line_start line_end;
  let pos := match display_col_offset (grapheme_indices line) 0 target_col with Some i => line_start + i | None => line_end end in
  Some (with_cursor t (clamp_pos_to_nearest_boundary t pos) (preferred_col t)).
Definition current_display_col (t : TextArea) : option N :=
  bol ← beginning_of_current_line t; line ← slice (text t) bol (cursor_pos t); Some (width line).
Definition with_preferred (t : TextArea) (col : N) : TextArea := with_cursor t (cursor_pos t) (Some col).
(** The column to keep and the wrapped line [step] from the cursor's, if there are wrapped lines. *)
Definition visual_target (t : TextArea) (neighbour : nat → option nat) : option (option (N * option (N * N))) :=
  match wrap_cache t with
  | None => Some None
  | Some cache =>
      match wrapped_line_index_by_start (c_lines cache) (cursor_pos t) with
      | None => Some None
      | Some idx =>
          cur ← c_lines cache !! idx;
          target_col ← match preferred_col t with
                       | Some c => Some c
                       | None => width <$> slice (text t) cur.1 (cursor_pos t)
                       end;
          match neighbour idx with
          | Some j =>
              match c_lines cache !! j with
              | Some l => Some (Some (target_col, Some (l.1, l.2 - 1)))
              | None => Some (Some (target_col, None))
              end
          | None => Some (Some (target_col, None))
          end
      end
  end.
Definition visual_move (t : TextArea) (target_col : N) (line : option (N * N)) (edge : N) : option TextArea :=
  match line with
  | Some (line_start, line_end) =>
      let t := match preferred_col t with None => with_preferred t target_col | Some _ => t end in
      move_to_display_col_on_line t line_start line_end target_col
  | None => Some (with_cursor t edge None)
  end.
Definition keep_col (t : TextArea) : option (TextArea * N) :=
  match preferred_col t with
  | Some c => Some (t, c)
  | None => c ← current_display_col t; Some (with_preferred t c, c)
  end.
Definition move_cursor_up (t : TextArea) : option TextArea :=
  target ← visual_target t (λ idx, match idx with O => None | S i => Some i end);
  match target with
  | Some (target_col, line) => visual_move t target_col line 0
  | None =>
      before ← text_to t (cursor_pos t);
      match rfind_char is_newline before with
      | Some prev_nl =>
          '(t, target_col) ← keep_col t;
          prefix ← text_to t prev_nl;
          move_to_display_col_on_line t (after_newline prefix) prev_nl target_col
      | None => Some (with_cursor t 0 None)
      end
  end.
Definition move_cursor_down (t : TextArea) : option TextArea :=
  target ← visual_target t (λ idx, Some (S idx));
  match target with
  | Some (target_col, line) => visual_move t target_col line (len t)
  | None =>
      '(t, target_col) ← keep_col t;
      after ← text_from t (cursor_pos t);
      match find_char is_newline after with
      | Some i =>
          let next_line_start := i + cursor_pos t + 1 in
          next_line_end ← end_of_line t next_line_start;
          move_to_display_col_on_line t next_line_start next_line_end target_col
      | None => Some (with_cursor t (len t) None)
      end
  end.
Definition prev_atomic_boundary (t : TextArea) (pos : N) : N :=
  if pos =? 0 then 0
  else match List.find (λ e, (e_start e <? pos) && (pos <=? e_end e)) (elements t) with
       | Some e => e_start e
       | None =>
           match prev_boundary (text t) pos with
           | CursorOk (Some b) => match find_element_containing (elements t) b with Some e => e_start e | None => b end
           | CursorOk None => 0
           | CursorErr => pos - 1
           end
       end.
Definition next_atomic_boundary (t : TextArea) (pos : N) : N :=
  if len t <=? pos then len t
  else match List.find (λ e, (e_start e <=? pos) && (pos <? e_end e)) (elements t) with
       | Some e => e_end e
       | None =>
           match next_boundary (text t) pos with
           | CursorOk (Some b) => match find_element_containing (elements t) b with Some e => e_end e | None => b end
           | CursorOk None => len t
           | CursorErr => pos + 1
           end
       end.
Definition move_cursor_left (t : TextArea) : TextArea := with_cursor t (prev_atomic_boundary t (cursor_pos t)) None.
Definition move_cursor_right (t : TextArea) : TextArea := with_cursor t (next_atomic_boundary t (cursor_pos t)) None.
Definition move_cursor_to_beginning_of_line (t : TextArea) (move_up_at_bol : bool) : option TextArea :=
  bol ← beginning_of_current_line t;
  if move_up_at_bol && (cursor_pos t =? bol)
  then pos ← beginning_of_line t (cursor_pos t - 1); Some (set_cursor t pos)
  else Some (set_cursor t bol).
Definition move_cursor_to_end_of_line (t : TextArea) (move_down_at_eol : bool) : option TextArea :=
  eol ← end_of_current_line t;
  if move_down_at_eol && (cursor_pos t =? eol)
  then pos ← end_of_line t (N.min (cursor_pos t + 1) (len t)); Some (set_cursor t pos)
  else Some (set_cursor t eol).

(** *** Words *)
Definition split_word_pieces (run : rstring) : list (N * rstring) :=
  mbind (λ seg, segment_pieces seg.1 seg.2) (split_word_bound_indices run).
Definition adjust_pos_out_of_elements (t : TextArea) (pos : N) (prefer_start : bool) : N :=
  match find_element_containing (elements t) pos with Some e => if prefer_start then e_start e else e_end e | None => pos end.
Fixpoint separators_start (run_start start : N) (pieces : list (N * rstring)) : N :=
  match pieces with
  | (idx, piece) :: pieces => if all_separators piece then separators_start run_start (run_start + idx) pieces else start
  | [] => start
  end.
Definition beginning_of_previous_word (t : TextArea) : option N :=
  prefix ← text_to t (cursor_pos t);
  match rfind_char not_whitespace prefix with
  | None => Some 0
  | Some first_non_ws =>
      '(before, from) ← split_at_byte first_non_ws prefix;
      let run_start := match rfind_char is_whitespace before with
                       | Some idx => idx + match split_at_byte idx before with Some (_, c :: _) => clen c | _ => 0 end
                       | None => 0 end in
      let run_end := first_non_ws + match from with c :: _ => clen c | [] => 0 end in
      run ← slice prefix run_start run_end;
      match rev (split_word_pieces run) with
      | [] => Some run_start
      | (piece_start, piece) :: pieces =>
          let start := run_start + piece_start in
          let start := if all_separators piece then separators_start run_start start pieces else start in
          Some (adjust_pos_out_of_elements t start true)
      end
  end.
Fixpoint separators_end (base stop : N) (pieces : list (N * rstring)) : N :=
  match pieces with
  | (idx, piece) :: pieces => if all_separators piece then separators_end base (base + idx + blen piece) pieces else stop
  | [] => stop
  end.
Definition end_of_next_word (t : TextArea) : option N :=
  suffix ← text_from t (cursor_pos t);
  match find_char not_whitespace suffix with
  | None => Some (len t)
  | Some first_non_ws =>
      run ← snd <$> split_at_byte first_non_ws suffix;
      run ← fst <$> split_at_byte (default (blen run) (find_char is_whitespace run)) run;
      let base := cursor_pos t + first_non_ws in
      match split_word_pieces run with
      | [] => Some base
      | (start, piece) :: pieces =>
          let stop := base + start + blen piece in
          let stop := if all_separators piece then separators_end base stop pieces else stop in
          Some (adjust_pos_out_of_elements t stop false)
      end
  end.
Definition vim_word_end_cursor (t : TextArea) : option N :=
  stop ← end_of_next_word t; Some (if cursor_pos t <? stop then prev_atomic_boundary t stop else stop).
Definition vim_line_end_cursor (t : TextArea) : option N :=
  bol ← beginning_of_current_line t;
  eol ← end_of_current_line t;
  Some (if bol <? eol then N.max (prev_atomic_boundary t eol) bol else eol).
Definition beginning_of_next_word (t : TextArea) : option N :=
  suffix ← text_from t (cursor_pos t);
  match find_char not_whitespace suffix with
  | None => Some (len t)
  | Some first_non_ws =>
      let word_start := cursor_pos t + first_non_ws in
      if negb (word_start =? cursor_pos t) then Some (adjust_pos_out_of_elements t word_start true)
      else
        stop ← end_of_next_word t;
        if len t <=? stop then Some (len t)
        else
          suffix ← text_from t stop;
          match find_char not_whitespace suffix with
          | None => Some (len t)
          | Some next_non_ws => Some (adjust_pos_out_of_elements t (stop + next_non_ws) true)
          end
  end.

(** ** Deleting, killing and yanking *)
Definition kill_range_with_kind (t : TextArea) (range : N * N) (kind : KillBufferKind) : option TextArea :=
  range ← expand_range_to_element_boundaries t range;
  if range.2 <=? range.1 then Some t
  else
    removed ← slice (text t) range.1 range.2;
    if bool_decide (removed = []) then Some t else replace_range_raw (store_kill_buffer t removed kind) range [].
Definition kill_range (t : TextArea) (range : N * N) : option TextArea := kill_range_with_kind t range Characterwise.
Definition kill_line_range (t : TextArea) (range : N * N) : option TextArea := kill_range_with_kind t range Linewise.
Definition yank_range_with_kind (t : TextArea) (range : N * N) (kind : KillBufferKind) : option TextArea :=
  range ← expand_range_to_element_boundaries t range;
  if range.2 <=? range.1 then Some t
  else
    removed ← slice (text t) range.1 range.2;
    Some (if bool_decide (removed = []) then t else store_kill_buffer t removed kind).
Definition yank_range (t : TextArea) (range : N * N) : option TextArea := yank_range_with_kind t range Characterwise.
Definition yank_line_range (t : TextArea) (range : N * N) : option TextArea := yank_range_with_kind t range Linewise.
(** [n] steps of [step], stopped early where [stop] says so. *)
Fixpoint steps (n : nat) (step : N → N) (stop : N → bool) (target : N) : N :=
  match n with O => target | S n => let target := step target in if stop target then target else steps n step stop target end.
Definition delete_backward (t : TextArea) (n : nat) : option TextArea :=
  if (n =? 0)%nat || (cursor_pos t =? 0) then Some t
  else replace_range t (steps n (prev_atomic_boundary t) (λ p, p =? 0) (cursor_pos t), cursor_pos t) [].
Definition forward_target (t : TextArea) (n : nat) : N := steps n (next_atomic_boundary t) (λ p, len t <=? p) (cursor_pos t).
Definition delete_forward (t : TextArea) (n : nat) : option TextArea :=
  if (n =? 0)%nat || (len t <=? cursor_pos t) then Some t else replace_range t (cursor_pos t, forward_target t n) [].
Definition delete_forward_kill (t : TextArea) (n : nat) : option TextArea :=
  if (n =? 0)%nat || (len t <=? cursor_pos t) then Some t else kill_range t (cursor_pos t, forward_target t n).
Definition delete_backward_word (t : TextArea) : option TextArea :=
  start ← beginning_of_previous_word t; kill_range t (start, cursor_pos t).
Definition delete_forward_word (t : TextArea) : option TextArea :=
  stop ← end_of_next_word t; if cursor_pos t <? stop then kill_range t (cursor_pos t, stop) else Some t.
Definition kill_to_end_of_line (t : TextArea) : option TextArea :=
  eol ← end_of_current_line t;
  if cursor_pos t =? eol then if eol <? len t then kill_range t (cursor_pos t, eol + 1) else Some t
  else kill_range t (cursor_pos t, eol).
Definition kill_to_beginning_of_line (t : TextArea) : option TextArea :=
  bol ← beginning_of_current_line t;
  if cursor_pos t =? bol then if 0 <? bol then kill_range t (bol - 1, bol) else Some t
  else kill_range t (bol, cursor_pos t).
Definition yank (t : TextArea) : option TextArea :=
  if bool_decide (kill_buffer t = []) then Some t else insert_str t (kill_buffer t).
Definition paste_line_after_current_line (t : TextArea) : option TextArea :=
  eol ← end_of_current_line t;
  let insert_at := if eol <? len t then eol + 1 else eol in
  let cursor := if eol <? len t then insert_at else insert_at + 1 in
  let s := if eol <? len t
           then if ends_with (kill_buffer t) [newline] then kill_buffer t else kill_buffer t ++ [newline]
           else newline :: trim_end_matches is_newline (kill_buffer t) in
  t ← insert_str_at t insert_at s;
  Some (set_cursor t (N.min cursor (len t))).
Definition paste_after_cursor (t : TextArea) : option TextArea :=
  if bool_decide (kill_buffer t = []) then Some t
  else match kill_buffer_kind t with
       | Linewise => paste_line_after_current_line t
       | Characterwise => let t := set_cursor t (next_atomic_boundary t (cursor_pos t)) in insert_str t (kill_buffer t)
       end.
Definition yank_current_line (t : TextArea) : option TextArea := range ← current_line_range_with_newline t; yank_line_range t range.
Definition kill_current_line (t : TextArea) : option TextArea := range ← current_line_range_with_newline t; kill_line_range t range.

(** ** Vim operators *)
Definition linewise_range_for_vertical_motion (t : TextArea) (motion : VimMotion) : option (option (N * N)) :=
  current ← current_line_range_with_newline t;
  let finish (r : N * N) := Some (if r.1 <? r.2 then Some r else None) in
  match motion with
  | MUp =>
      start ← if current.1 =? 0 then Some (current.1) else beginning_of_line t (current.1 - 1);
      finish (start, current.2)
  | MDown =>
      stop ← if len t <=? current.2 then Some (current.2)
             else next_eol ← end_of_line t current.2; Some (if next_eol <? len t then next_eol + 1 else next_eol);
      finish (current.1, stop)
  | _ => Some None
  end.
(** The cursor and the column are put back after the motion. *)
Definition target_for_motion (t : TextArea) (motion : VimMotion) : option (TextArea * N) :=
  t' ← match motion with
       | MLeft => Some (move_cursor_left t)
       | MRight => Some (move_cursor_right t)
       | MUp => move_cursor_up t
       | MDown => move_cursor_down t
       | MWordForward => set_cursor t <$> beginning_of_next_word t
       | MWordBackward => set_cursor t <$> beginning_of_previous_word t
       | MWordEnd => set_cursor t <$> end_of_next_word t
       | MLineStart => set_cursor t <$> beginning_of_current_line t
       | MLineEnd => set_cursor t <$> end_of_current_line t
       end;
  Some (with_cursor t' (cursor_pos t) (preferred_col t), cursor_pos t').
Definition range_for_motion (t : TextArea) (motion : VimMotion) : option (TextArea * option (N * N)) :=
  match motion with
  | MUp | MDown => r ← linewise_range_for_vertical_motion t motion; Some (t, r)
  | _ =>
      let start := cursor_pos t in
      '(t, target) ← target_for_motion t motion;
      Some (t, if start =? target then None else if target <? start then Some (target, start) else Some (start, target))
  end.
Definition apply_vim_operator (t : TextArea) (op : VimOperator) (motion : VimMotion) : option TextArea :=
  '(t, range) ← range_for_motion t motion;
  match range with
  | None => Some t
  | Some range => match op with Delete => kill_range t range | Yank => yank_range t range end
  end.

(** ** Input *)
Definition vim_motion_for_event (t : TextArea) (event : KeyEvent) : option VimMotion :=
  let km := vim_operator_keymap t in
  if is_pressed (motion_left km) event then Some MLeft
  else if is_pressed (motion_right km) event then Some MRight
  else if is_pressed (motion_down km) event then Some MDown
  else if is_pressed (motion_up km) event then Some MUp
  else if is_pressed (motion_word_forward km) event then Some MWordForward
  else if is_pressed (motion_word_backward km) event then Some MWordBackward
  else if is_pressed (motion_word_end km) event then Some MWordEnd
  else if is_pressed (motion_line_start km) event then Some MLineStart
  else if is_pressed (motion_line_end km) event then Some MLineEnd
  else None.
Definition handle_vim_operator (t : TextArea) (op : VimOperator) (event : KeyEvent) : option TextArea :=
  let km := vim_operator_keymap t in
  if match op with Delete => is_pressed (delete_line km) event | Yank => false end then kill_current_line t
  else if match op with Yank => is_pressed (vo_yank_line km) event | Delete => false end then yank_current_line t
  else if is_pressed (cancel km) event then Some t
  else match vim_motion_for_event t event with Some motion => apply_vim_operator t op motion | None => Some t end.
Definition is_char_with (event : KeyEvent) (c : char) (modifiers : N) : bool :=
  bool_decide (ev_code event = KChar c) && (ev_modifiers event =? modifiers).
Definition input_char (t : TextArea) (event : KeyEvent) : option TextArea :=
  match ev_code event with
  | KChar c =>
      if (ev_modifiers event =? NONE) || (ev_modifiers event =? SHIFT)
      then if (c <? 32) || (c =? 127) then Some t else insert_str t [c]
      else Some t
  | _ => Some t
  end.
Definition input_with_keymap (t : TextArea) (event : KeyEvent) (km : EditorKeymap) : option TextArea :=
  if is_pressed (insert_newline km) event then insert_str t [newline]
  else if is_pressed (delete_backward_word_keys km) event then delete_backward_word t
  else match (match ev_code event with KChar c => if is_altgr (ev_modifiers event) then Some c else None | _ => None end) with
  | Some c => insert_str t [c]
  | None =>
  if is_pressed (delete_backward_keys km) event then delete_backward t 1
  else if is_pressed (delete_forward_word_keys km) event then delete_forward_word t
  else if is_pressed (delete_forward_keys km) event then delete_forward t 1
  else if is_pressed (kill_line_start km) event then kill_to_beginning_of_line t
  else if is_pressed (kill_whole_line km) event then kill_current_line t
  else if is_pressed (kill_line_end km) event then kill_to_end_of_line t
  else if is_pressed (yank_keys km) event then yank t
  else if is_pressed (move_word_left km) event then set_cursor t <$> beginning_of_previous_word t
  else if is_pressed (move_word_right km) event then set_cursor t <$> end_of_next_word t
  else if is_pressed (move_left km) event then Some (move_cursor_left t)
  else if is_pressed (move_right km) event then Some (move_cursor_right t)
  else if is_pressed (move_up km) event then move_cursor_up t
  else if is_pressed (move_down km) event then move_cursor_down t
  else if is_pressed (move_line_start km) event then move_cursor_to_beginning_of_line t (is_char_with event 97 CONTROL)
  else if is_pressed (move_line_end km) event then move_cursor_to_end_of_line t (is_char_with event 101 CONTROL)
  else input_char t event
  end.
Definition handle_vim_insert (t : TextArea) (event : KeyEvent) : option TextArea :=
  match ev_code event with
  | KEsc =>
      bol ← beginning_of_current_line t;
      let t := if bol <? cursor_pos t then with_cursor t (N.max (prev_atomic_boundary t (cursor_pos t)) bol) (preferred_col t) else t in
      Some (enter_vim_normal_mode t)
  | _ => input_with_keymap t event (editor_keymap t)
  end.
Definition insert_mode (t : TextArea) : TextArea := set_mode t Insert.
Definition vim_open_line_below (t : TextArea) : option TextArea :=
  eol ← end_of_current_line t;
  let insert_at := if eol <? len t then eol + 1 else eol in
  t ← insert_str_at t insert_at [newline];
  let cursor := if eol <? len t then insert_at else insert_at + 1 in
  Some (insert_mode (set_cursor t cursor)).
Definition vim_open_line_above (t : TextArea) : option TextArea :=
  bol ← beginning_of_current_line t;
  t ← insert_str_at t bol [newline];
  Some (insert_mode (set_cursor t bol)).
Definition handle_vim_normal (t : TextArea) (event : KeyEvent) : option TextArea :=
  let km := vim_normal_keymap t in
  match vim_operator t with
  | Some op => handle_vim_operator (set_operator t None) op event
  | None =>
  if is_pressed (enter_insert km) event then Some (insert_mode t)
  else if is_pressed (append_after_cursor km) event then Some (insert_mode (set_cursor t (next_atomic_boundary t (cursor_pos t))))
  else if is_pressed (append_line_end km) event then pos ← end_of_current_line t; Some (insert_mode (set_cursor t pos))
  else if is_pressed (insert_line_start km) event then pos ← first_non_blank_of_current_line t; Some (insert_mode (set_cursor t pos))
  else if is_pressed (open_line_below km) event then vim_open_line_below t
  else if is_pressed (open_line_above km) event then vim_open_line_above t
  else if is_pressed (vn_move_left km) event then Some (move_cursor_left t)
  else if is_pressed (vn_move_right km) event then Some (move_cursor_right t)
  else if is_pressed (vn_move_down km) event then move_cursor_down t
  else if is_pressed (vn_move_up km) event then move_cursor_up t
  else if is_pressed (move_word_forward km) event then set_cursor t <$> beginning_of_next_word t
  else if is_pressed (move_word_backward km) event then set_cursor t <$> beginning_of_previous_word t
  else if is_pressed (move_word_end km) event then set_cursor t <$> vim_word_end_cursor t
  else if is_pressed (vn_move_line_start km) event then set_cursor t <$> beginning_of_current_line t
  else if is_pressed (vn_move_line_end km) event then set_cursor t <$> vim_line_end_cursor t
  else if is_pressed (delete_char km) event then delete_forward_kill t 1
  else if is_pressed (delete_to_line_end km) event then kill_to_end_of_line t
  else if is_pressed (vn_yank_line km) event then yank_current_line t
  else if is_pressed (paste_after km) event then paste_after_cursor t
  else if is_pressed (start_delete_operator km) event then Some (set_operator t (Some Delete))
  else if is_pressed (start_yank_operator km) event then Some (set_operator t (Some Yank))
  else if is_pressed (cancel_operator km) event then Some (set_operator t None)
  else Some t
  end.
Definition input (t : TextArea) (event : KeyEvent) : option TextArea :=
  if negb (pressed_or_repeated event) then Some t
  else if vim_enabled t
  then match vim_mode t with Insert => handle_vim_insert t event | Normal => handle_vim_normal t event end
  else input_with_keymap t event (editor_keymap t).
End wrap.

(** ** Scrolling, in sixteen bits: casts wrap, and an overflow is a panic. *)
Definition as_u16 (n : N) : N := n mod 2^16.
Definition u16_add (a b : N) : option N := if a + b <? 2^16 then Some (a + b) else None.
Definition effective_scroll (t : TextArea) (area_height : N) (lines : list (N * N)) (current_scroll : N) : option N :=
  let total_lines := as_u16 (N.of_nat (length lines)) in
  if total_lines <=? area_height then Some 0
  else
    let cursor_line_idx := as_u16 (N.of_nat (default O (wrapped_line_index_by_start lines (cursor_pos t)))) in
    let max_scroll := total_lines - area_height in
    let scroll := N.min current_scroll max_scroll in
    if cursor_line_idx <? scroll then Some cursor_line_idx
    else
      bottom ← u16_add scroll area_height;
      if bottom <=? cursor_line_idx then next ← u16_add cursor_line_idx 1; if area_height <=? next then Some (next - area_height) else None
      else Some scroll.
