(* ===== verification/TextAreaSafe.v ===== *)
(** * What the text area keeps ([tui/src/bottom_pane/textarea.rs])

    Every operation runs without a panic from well-formed states to well-formed ones,
    elements are kept or removed as a whole, and a kill can be undone by a yank.  The proofs go
    through one lemma on splices ([splice_ok]) and the rules of [has_post]. *)
From S2P Require Import Prelude RustStr Utf8 Utf8Text KeyInput TextArea.
#[local] Open Scope N_scope.

Ltac compare_all :=
  repeat match goal with
  | |- context [?x <=? ?y] => destruct (N.leb_spec x y)
  | |- context [?x <? ?y] => destruct (N.ltb_spec x y)
  | |- context [?x =? ?y] => destruct (N.eqb_spec x y)
  end.

(** ** What the libraries promise *)
Definition part_at (s : rstring) (part : N * rstring) : Prop := ∃ a b, s = a ++ part.2 ++ b ∧ blen a = part.1.
Class UnicodeLaws (U : Unicode) := {
  prev_boundary_ok s n : boundary s n →
    match prev_boundary s n with CursorOk (Some b) => boundary s b ∧ b < n | CursorOk None => True | CursorErr => False end;
  next_boundary_ok s n : boundary s n →
    match next_boundary s n with CursorOk (Some b) => boundary s b ∧ n < b | CursorOk None => True | CursorErr => False end;
  grapheme_indices_ok s part : part ∈ grapheme_indices s → part_at s part;
  split_word_ok s part : part ∈ split_word_bound_indices s → part_at s part;
  textwrap_ok s w a b l : Borrowed (Some (a, b)) l ∈ textwrap_wrap s w → boundary s a ∧ boundary s b ∧ a <= b }.

(** ** Well-formed states *)
Definition placed (s : rstring) (e : TextElement) : Prop := boundary s (e_start e) ∧ boundary s (e_end e) ∧ e_start e <= e_end e.
Definition apart (e e' : TextElement) : Prop := e_end e <= e_start e' ∨ e_end e' <= e_start e.
Definition elements_ok (s : rstring) (es : list TextElement) : Prop := Forall (placed s) es ∧ ForallOrdPairs apart es.
Definition lines_ok (s : rstring) (lines : list (N * N)) : Prop :=
  Forall (λ r, boundary s r.1 ∧ boundary s (r.2 - 1) ∧ r.1 <= r.2 - 1) lines.
Section states.
Context {U : Unicode}.
(** The wrapped lines kept are what wrapping the present text at their width gives: no change
    of the text leaves the lines of an older one behind. *)
Record well_formed (t : TextArea) : Prop := {
  wf_cursor : boundary (text t) (cursor_pos t);
  wf_elements : elements_ok (text t) (elements t);
  wf_cache c : wrap_cache t = Some c → wrap_ranges (text t) (c_width c) = Some (c_lines c) ∧ lines_ok (text t) (c_lines c) }.
(** No element has the position strictly inside. *)
Definition outside (es : list TextElement) (pos : N) : Prop := Forall (λ e, ¬ (e_start e < pos ∧ pos < e_end e)) es.
Definition cursor_outside (t : TextArea) : Prop := outside (elements t) (cursor_pos t).
Definition single_line (t : TextArea) : Prop := ∀ e p, e ∈ elements t → payload (text t) e = Some p → newline ∉ p.
(** One element in two texts: the same identity and the same payload. *)
Definition same_element (s : rstring) (e : TextElement) (x : rstring) (e' : TextElement) : Prop :=
  e_id e' = e_id e ∧ e_name e' = e_name e ∧ payload x e' = payload s e.
Definition whole (t t' : TextArea) : Prop := ∀ e', e' ∈ elements t' → ∃ e, e ∈ elements t ∧ same_element (text t) e (text t') e'.
Record keeps (t t' : TextArea) : Prop := {
  k_formed : well_formed t';
  k_whole : whole t t';
  k_outside : single_line t → cursor_outside t → cursor_outside t' }.
End states.

(** ** Lemmas: pairs of a list *)
Lemma pairs_elim {A} (R : A → A → Prop) l x y : (∀ x y, R x y → R y x) → ForallOrdPairs R l → x ∈ l → y ∈ l → x = y ∨ R x y.
Proof.
  intros Hsym. induction 1 as [|a l Ha _ IH]; [by intros ?%elem_of_nil|]. rewrite Forall_forall in Ha.
  intros [->|Hx]%elem_of_cons [->|Hy]%elem_of_cons; auto.
Qed.
Lemma pairs_filter {A} (R : A → A → Prop) f l : ForallOrdPairs R l → ForallOrdPairs R (List.filter f l).
Proof.
  induction 1 as [|a l Ha _ IH]; cbn; [constructor|]. destruct (f a); [|done]. constructor; [|done].
  rewrite Forall_forall in Ha |- *. intros x [Hx _]%list_elem_of_In%List.filter_In. by apply Ha, list_elem_of_In.
Qed.
Lemma pairs_fmap {A} (R : A → A → Prop) (P : A → Prop) f l :
  (∀ x y, P x → P y → R x y → R (f x) (f y)) → Forall P l → ForallOrdPairs R l → ForallOrdPairs R (f <$> l).
Proof.
  intros Hf HP. induction 1 as [|a l Ha _ IH]; [constructor|]. apply Forall_cons in HP as [Hpa HP]. cbn. constructor; [|auto].
  apply Forall_fmap. rewrite Forall_forall in Ha, HP |- *. intros x Hx. cbn. auto.
Qed.
Lemma pairs_snoc {A} (R : A → A → Prop) l x : ForallOrdPairs R l → Forall (λ y, R y x) l → ForallOrdPairs R (l ++ [x]).
Proof.
  induction 1 as [|a l Ha _ IH]; cbn; [by repeat constructor|]. intros [Hax Hl]%Forall_cons. constructor; [|auto].
  apply Forall_app. split; [done|by constructor].
Qed.
Lemma insert_by_start_elem e es x : x ∈ insert_by_start e es ↔ x = e ∨ x ∈ es.
Proof.
  induction es as [|e' es IH]; cbn; [by rewrite elem_of_cons|]. destruct (_ <=? _); rewrite !elem_of_cons; [done|]. rewrite IH. tauto.
Qed.
Lemma sort_by_start_elem es x : x ∈ sort_by_start es ↔ x ∈ es.
Proof. induction es as [|e es IH]; cbn; [done|]. rewrite insert_by_start_elem, elem_of_cons, IH. done. Qed.
Lemma insert_pairs (R : TextElement → TextElement → Prop) e es : (∀ x y, R x y → R y x) →
  Forall (R e) es → ForallOrdPairs R es → ForallOrdPairs R (insert_by_start e es).
Proof.
  intros Hsym Hs. induction 1 as [|e' l Hl Hp IHl]; cbn; [by repeat constructor|]. destruct (_ <=? _).
  - constructor; [done|]. by constructor.
  - apply Forall_cons in Hs as [H1 H2]. constructor; [|auto]. apply Forall_forall. intros x Hx.
    rewrite insert_by_start_elem in Hx. destruct Hx as [->|Hx]; [auto|]. rewrite Forall_forall in Hl. auto.
Qed.
Lemma sort_pairs (R : TextElement → TextElement → Prop) es : (∀ x y, R x y → R y x) → ForallOrdPairs R es → ForallOrdPairs R (sort_by_start es).
Proof.
  intros Hsym. induction 1 as [|e es He _ IH]; [constructor|]. change (sort_by_start (e :: es)) with (insert_by_start e (sort_by_start es)).
  apply insert_pairs; [done| |done]. rewrite Forall_forall in He |- *. intros x Hx. rewrite sort_by_start_elem in Hx. auto.
Qed.
Lemma apart_sym e e' : apart e e' → apart e' e.
Proof. unfold apart. tauto. Qed.

(** ** Lemmas: slices of a splice *)
Lemma slice_app_l a b i j : j <= blen a → slice (a ++ b) i j = slice a i j.
Proof.
  intros Hj. apply option_eq. intros t. rewrite !slice_Some. split.
  - intros (u & v & E & <- & <-). destruct (app_split_le (u ++ t) v a b) as (m & -> & ->).
    + by rewrite <- app_assoc.
    + by rewrite blen_app.
    + exists u, m. by rewrite <- app_assoc.
  - intros (u & v & -> & <- & <-). exists u, (v ++ b). by rewrite <- !app_assoc.
Qed.
Lemma slice_app_r a b i j : blen a <= i → i <= j → slice (a ++ b) i j = slice b (i - blen a) (j - blen a).
Proof.
  intros Hi Hij. apply option_eq. intros t. rewrite !slice_Some. split.
  - intros (u & v & E & <- & <-). destruct (app_split_le a b u (t ++ v)) as (m & -> & ->); [done|done|].
    exists m, v. rewrite blen_app in *. split_and!; [done|lia|lia].
  - intros (u & v & -> & E1 & E2). exists (a ++ u), v. rewrite <- app_assoc, blen_app. split_and!; [done|lia|lia].
Qed.
(** What no edit of a range may cut: an element is before it, after it, or within. *)
Definition uncut (start stop : N) (e : TextElement) : Prop :=
  e_end e <= start ∨ stop <= e_start e ∨ (start <= e_start e ∧ e_end e <= stop).
Section splice.
Context (a r ins b : rstring).
#[local] Abbreviation start := (blen a).
#[local] Abbreviation stop := (blen a + blen r).
Definition spliced (e : TextElement) : TextElement :=
  if e_end e <=? start then e else moved e (e_start e + blen ins - blen r) (e_end e + blen ins - blen r).
(** What is left of the elements: those before the range, and those after it, moved. *)
Lemma shift_elements_spliced es : Forall (placed (a ++ r ++ b)) es → Forall (uncut start stop) es →
  shift_elements start (blen r) (blen ins) es =
  spliced <$> List.filter (λ e, negb ((start <=? e_start e) && (e_end e <=? stop))) es.
Proof using Type.
  intros Hp Hu. unfold shift_elements. induction es as [|e es IH]; [done|]. apply Forall_cons in Hp as [(_ & _ & He) Hp].
  apply Forall_cons in Hu as [Hue Hu]. cbn [List.filter]. destruct (negb _) eqn:En; [|by apply IH]. cbn. f_equal; [|by apply IH].
  unfold shift_element, spliced. destruct (N.leb_spec (e_end e) start); [done|]. destruct (N.leb_spec stop (e_start e)); [done|].
  exfalso. apply negb_true_iff, andb_false_iff in En as [En%N.leb_gt|En%N.leb_gt]; unfold uncut in Hue; lia.
Qed.
Lemma spliced_element e : placed (a ++ r ++ b) e → e_end e <= start ∨ stop <= e_start e →
  placed (a ++ ins ++ b) (spliced e) ∧ same_element (a ++ r ++ b) e (a ++ ins ++ b) (spliced e).
Proof using Type.
  intros (H1 & H2 & Hle) Hc. unfold spliced, placed, same_element, payload. destruct (N.leb_spec (e_end e) start).
  - rewrite !slice_app_l by done. split_and!; try done; apply boundary_app_l.
    + apply (boundary_in_l _ (r ++ b)); [done|lia].
    + by apply (boundary_in_l _ (r ++ b)).
  - destruct Hc as [?|Hc]; [lia|]. cbn. rewrite app_assoc in H1, H2.
    assert (∀ p, boundary ((a ++ r) ++ b) p → stop <= p → boundary (a ++ ins ++ b) (p + blen ins - blen r)) as Hb.
    { intros p Hp Hsp. rewrite <- blen_app in Hsp. pose proof (boundary_in_r _ _ _ Hp Hsp) as Hq.
      apply (boundary_app_r (a ++ ins)) in Hq. rewrite <- app_assoc in Hq. rewrite !blen_app in Hq.
      replace (p + blen ins - blen r) with (blen a + blen ins + (p - (blen a + blen r))); [done|]. rewrite blen_app in Hsp. lia. }
    split_and!; [apply Hb; [done|lia]|apply Hb; [done|lia]|lia|done|done|].
    rewrite !app_assoc. rewrite !slice_app_r; rewrite ?blen_app; try lia. f_equal; lia.
Qed.
Lemma splice_ok es : elements_ok (a ++ r ++ b) es → Forall (uncut start stop) es →
  let es' := shift_elements start (blen r) (blen ins) es in
  elements_ok (a ++ ins ++ b) es' ∧
  (∀ e', e' ∈ es' → ∃ e, e ∈ es ∧ same_element (a ++ r ++ b) e (a ++ ins ++ b) e') ∧
  (∀ p, outside es p → outside es' (cursor_after p start stop (blen ins))) ∧
  Forall (λ e, e_end e <= start ∨ start + blen ins <= e_start e) es'.
Proof using Type.
  intros [Hp Ha] Hu. cbn zeta. rewrite shift_elements_spliced by done. set (l := List.filter _ es).
  assert (Forall (λ e, e ∈ es ∧ placed (a ++ r ++ b) e ∧ (e_end e <= start ∨ stop <= e_start e)) l) as Hl.
  { apply Forall_forall. intros e [He Hn]%list_elem_of_In%List.filter_In. apply list_elem_of_In in He.
    rewrite Forall_forall in Hp, Hu. split_and!; [done|by apply Hp|]. specialize (Hu e He). unfold uncut in Hu.
    apply negb_true_iff, andb_false_iff in Hn as [Hn%N.leb_gt|Hn%N.leb_gt]; lia. }
  split_and!.
  - split.
    + apply Forall_fmap. eapply Forall_impl; [exact Hl|]. intros e (_ & Hpe & Hc). by apply spliced_element.
    + eapply pairs_fmap; [|exact Hl|by apply pairs_filter]. intros x y (_ & (_ & _ & Hx) & Hcx) (_ & (_ & _ & Hy) & Hcy).
      unfold apart, spliced. compare_all; cbn in *; lia.
  - intros e' (e & -> & He)%list_elem_of_fmap. rewrite Forall_forall in Hl. destruct (Hl e He) as (Hin & Hpe & Hc).
    exists e. split; [done|]. by apply spliced_element.
  - intros p Hout. apply Forall_fmap. rewrite Forall_forall in Hl. apply Forall_forall. intros e He.
    destruct (Hl e He) as (Hin & (_ & _ & Hle) & Hc). unfold outside in Hout. rewrite Forall_forall in Hout. specialize (Hout e Hin).
    cbn. unfold spliced, cursor_after. compare_all; cbn in *; lia.
  - apply Forall_fmap. eapply Forall_impl; [exact Hl|]. intros e (_ & (_ & _ & Hle) & Hc). cbn. unfold spliced.
    compare_all; cbn in *; lia.
Qed.
End splice.

(** ** Lemmas: clamping *)
Lemma boundary_below_spec s fuel pos : pos <= N.of_nat fuel → boundary s (boundary_below s fuel pos).
Proof.
  revert pos. induction fuel as [|fuel IH]; intros pos Hf; cbn [boundary_below].
  - replace pos with 0 by lia. apply boundary_0.
  - destruct (N.ltb_spec 0 pos) as [Hpos|]; cbn [andb]; [|replace pos with 0 by lia; apply boundary_0].
    destruct (is_char_boundary s pos) eqn:E; cbn [negb]; [by apply is_char_boundary_spec|]. apply IH. lia.
Qed.
Lemma boundary_above_spec s fuel pos : pos <= blen s → blen s <= pos + N.of_nat fuel → boundary s (boundary_above s fuel pos).
Proof.
  revert pos. induction fuel as [|fuel IH]; intros pos Hp Hf; cbn [boundary_above].
  - replace pos with (blen s) by lia. apply boundary_end.
  - destruct (N.ltb_spec pos (blen s)) as [Hpos|]; cbn [andb]; [|replace pos with (blen s) by lia; apply boundary_end].
    destruct (is_char_boundary s pos) eqn:E; cbn [negb]; [by apply is_char_boundary_spec|]. apply IH; lia.
Qed.
Lemma clamp_char_boundary s pos : boundary s (clamp_pos_to_char_boundary s pos).
Proof.
  unfold clamp_pos_to_char_boundary. destruct (is_char_boundary s _) eqn:E; [by apply is_char_boundary_spec|].
  destruct (_ <=? _); [apply boundary_below_spec; lia|apply boundary_above_spec; lia].
Qed.
Lemma clamp_char_id s pos : boundary s pos → clamp_pos_to_char_boundary s pos = pos.
Proof.
  intros Hb. pose proof (boundary_le _ _ Hb). unfold clamp_pos_to_char_boundary. rewrite N.min_l by done.
  by rewrite (proj2 (is_char_boundary_spec _ _) Hb).
Qed.
Lemma find_containing_Some es pos e : find_element_containing es pos = Some e → e ∈ es ∧ e_start e < pos ∧ pos < e_end e.
Proof.
  intros [Hin Hc]%List.find_some. apply list_elem_of_In in Hin. apply andb_prop in Hc as [?%N.ltb_lt ?%N.ltb_lt]. done.
Qed.
Lemma find_containing_None es pos : find_element_containing es pos = None ↔ outside es pos.
Proof.
  unfold outside. rewrite Forall_forall. split.
  - intros Hf e He [H1 H2]. apply list_elem_of_In in He. pose proof (List.find_none _ _ Hf e He) as Hn. cbn in Hn.
    apply andb_false_iff in Hn as [Hn%N.ltb_ge|Hn%N.ltb_ge]; lia.
  - intros Ho. destruct (find_element_containing es pos) as [e|] eqn:E; [|done]. apply find_containing_Some in E as (He & ? & ?).
    by destruct (Ho e He).
Qed.
Lemma edges_outside s es e : elements_ok s es → e ∈ es → outside es (e_start e) ∧ outside es (e_end e).
Proof.
  intros [Hp Ha] He. unfold outside. rewrite !Forall_forall. rewrite Forall_forall in Hp. pose proof (Hp e He) as (_ & _ & ?).
  split; intros e' He'; pose proof (Hp e' He') as (_ & _ & ?);
    destruct (pairs_elim _ _ e e' apart_sym Ha He He') as [->|[?|?]]; lia.
Qed.
Lemma edges_placed s es e : elements_ok s es → e ∈ es → boundary s (e_start e) ∧ boundary s (e_end e) ∧ e_start e <= e_end e.
Proof. intros [Hp _] He. rewrite Forall_forall in Hp. by apply Hp. Qed.
Lemma nearest_edge_ok s es pos : elements_ok s es → boundary s (nearest_edge s es pos) ∧ outside es (nearest_edge s es pos).
Proof.
  intros Hes. unfold nearest_edge. destruct (find_element_containing _ _) as [e|] eqn:E.
  - apply find_containing_Some in E as (He & _ & _). destruct (edges_outside _ _ _ Hes He). destruct (edges_placed _ _ _ Hes He) as (? & ? & _).
    destruct (_ <=? _); by rewrite clamp_char_id.
  - split; [apply clamp_char_boundary|by apply find_containing_None].
Qed.
Lemma nearest_edge_id s es pos : boundary s pos → outside es pos → nearest_edge s es pos = pos.
Proof. intros Hb Ho%find_containing_None. unfold nearest_edge. by rewrite clamp_char_id, Ho. Qed.
Lemma outside_0 s es : elements_ok s es → outside es 0.
Proof. intros _. apply Forall_forall. intros e _. lia. Qed.
Lemma outside_end s es : elements_ok s es → outside es (blen s).
Proof. intros Hes. apply Forall_forall. intros e He. destruct (edges_placed _ _ _ Hes He) as (_ & ?%boundary_le & _). lia. Qed.

(** ** Lemmas: growing a range over the elements it cuts *)
Definition contains (range : N * N) (e : TextElement) : bool := (range.1 <=? e_start e) && (e_end e <=? range.2).
Lemma contains_spec range e : contains range e = true ↔ range.1 <= e_start e ∧ e_end e <= range.2.
Proof. unfold contains. by rewrite andb_true_iff, !N.leb_le. Qed.
Definition within (range range' : N * N) : Prop := range'.1 <= range.1 ∧ range.2 <= range'.2.
Lemma expand_step_within range e : within range (expand_step range e).
Proof. unfold expand_step, within. destruct (_ && _); cbn; lia. Qed.
Lemma expand_within es range : within range (foldl expand_step range es).
Proof.
  revert range. induction es as [|e es IH]; intros range; cbn; [unfold within; lia|].
  pose proof (expand_step_within range e). pose proof (IH (expand_step range e)). unfold within in *. lia.
Qed.
Lemma expand_fixed es range : foldl expand_step range es = range → Forall (λ e, expand_step range e = range) es.
Proof.
  revert range. induction es as [|e es IH]; intros range; cbn; [done|]. intros Hf.
  assert (expand_step range e = range) as He.
  { pose proof (expand_step_within range e) as [H1 H2]. pose proof (expand_within es (expand_step range e)) as [H3 H4]. rewrite Hf in H3, H4.
    rewrite (surjective_pairing (expand_step range e)). destruct range; cbn in *. f_equal; lia. }
  rewrite He in Hf. constructor; auto.
Qed.
Lemma expand_fixed_uncut es range : foldl expand_step range es = range → Forall (uncut range.1 range.2) es.
Proof.
  intros Hf%expand_fixed. eapply Forall_impl; [exact Hf|]. intros e. unfold expand_step, uncut.
  destruct (N.ltb_spec (e_start e) range.2), (N.ltb_spec range.1 (e_end e)); cbn [andb]; try lia.
  intros E. rewrite (surjective_pairing range) in E. injection E as E1 E2. lia.
Qed.
(** The elements not contained yet become fewer with every round that changes the range. *)
Definition missing (es : list TextElement) (range : N * N) : nat := length (List.filter (λ e, negb (contains range e)) es).
Lemma contains_within range range' e : within range range' → contains range e = true → contains range' e = true.
Proof. unfold within. rewrite !contains_spec. lia. Qed.
Lemma missing_within es range range' : within range range' → (missing es range' ≤ missing es range)%nat.
Proof.
  intros Hw. unfold missing. induction es as [|e es IH]; cbn; [done|]. pose proof (contains_within _ _ e Hw).
  destruct (contains range e), (contains range' e); cbn; lia.
Qed.
Lemma missing_lt es range range' e : within range range' → e ∈ es → contains range e = false → contains range' e = true →
  (missing es range' < missing es range)%nat.
Proof.
  intros Hw. induction es as [|e' es IH]; [by intros ?%elem_of_nil|]. unfold missing. cbn. intros [<-|He]%elem_of_cons Hc Hc'.
  - rewrite Hc, Hc'. cbn. pose proof (missing_within es _ _ Hw). unfold missing in *. lia.
  - specialize (IH He Hc Hc'). unfold missing in IH. pose proof (contains_within _ _ e' Hw).
    destruct (contains range e'), (contains range' e'); cbn; lia.
Qed.
Lemma expand_progress es range : foldl expand_step range es ≠ range → (missing es (foldl expand_step range es) < missing es range)%nat.
Proof.
  intros Hne. assert (∃ e, e ∈ es ∧ contains range e = false ∧ contains (foldl expand_step range es) e = true) as (e & ? & ? & ?).
  { revert range Hne. induction es as [|e es IH]; intros range Hne; cbn in *; [done|].
    destruct (decide (expand_step range e = range)) as [Heq|Hneq].
    - rewrite Heq in *. destruct (IH range Hne) as (e' & ? & ? & ?). exists e'. split; [by right|done].
    - exists e. split; [by left|]. split.
      + apply not_true_iff_false. intros [H1 H2]%contains_spec. apply Hneq. unfold expand_step.
        destruct (_ && _); [|done]. rewrite (surjective_pairing range). cbn. f_equal; lia.
      + eapply contains_within; [apply expand_within|]. apply contains_spec. unfold expand_step in *.
        destruct ((e_start e <? range.2) && (range.1 <? e_end e)); [|done]. cbn. lia. }
  eapply missing_lt; [apply expand_within|done..].
Qed.
Lemma expand_loop_ok fuel s es range : elements_ok s es → (missing es range < fuel)%nat → boundary s range.1 → boundary s range.2 →
  has_post (expand_loop fuel es range) (λ range', within range range' ∧ boundary s range'.1 ∧ boundary s range'.2 ∧
    Forall (uncut range'.1 range'.2) es).
Proof.
  intros Hes. revert range. induction fuel as [|fuel IH]; intros range Hf Hb1 Hb2; [lia|]. cbn [expand_loop]. case_bool_decide as Hc.
  - apply has_post_ret. split_and!; [unfold within; lia|done|done|by apply expand_fixed_uncut].
  - assert (∀ es', (∀ e, e ∈ es' → e ∈ es) → boundary s (foldl expand_step range es').1 ∧ boundary s (foldl expand_step range es').2) as Hb.
    { clear Hc IH Hf. intros es'. revert range Hb1 Hb2. induction es' as [|e es' IH]; intros range Hb1 Hb2 Hsub; cbn; [done|].
      assert (boundary s (expand_step range e).1 ∧ boundary s (expand_step range e).2) as [? ?].
      { destruct (edges_placed _ _ _ Hes (Hsub e ltac:(by left))) as (? & ? & _). unfold expand_step. destruct (_ && _); [|done]. cbn.
        split; [destruct (N.min_spec range.1 (e_start e)) as [[_ ->]|[_ ->]]|destruct (N.max_spec range.2 (e_end e)) as [[_ ->]|[_ ->]]]; done. }
      apply IH; [done..|]. intros e' He'. apply Hsub. by right. }
    destruct (Hb es (λ _ x, x)) as [? ?]. pose proof (expand_progress es range Hc). pose proof (expand_within es range) as Hw.
    eapply has_post_weaken; [apply IH; [lia|done..]|]. intros range' (Hw' & ? & ? & ?). split_and!; try done. unfold within in *. lia.
Qed.

(** ** Lemmas: the edits *)
Section keeping.
Context {U : Unicode}.
Lemma keeps_refl t : well_formed t → keeps t t.
Proof. intros Hw. split; [done| |done]. intros e He. by exists e. Qed.
Lemma single_line_whole t t' : whole t t' → single_line t → single_line t'.
Proof.
  intros Hwh Hs e' p He' Hp. destruct (Hwh e' He') as (e & He & _ & _ & Hpe). apply (Hs e); [done|]. by rewrite <- Hpe.
Qed.
Lemma keeps_trans t1 t2 t3 : keeps t1 t2 → keeps t2 t3 → keeps t1 t3.
Proof.
  intros [_ Hw Ho] [Hf Hw' Ho']. split; [done| |].
  - intros e3 He3. destruct (Hw' e3 He3) as (e2 & He2 & Hi2 & Hn2 & Hp2). destruct (Hw e2 He2) as (e1 & He1 & Hi1 & Hn1 & Hp1).
    exists e1. split; [done|]. unfold same_element. by rewrite Hi2, Hn2, Hp2.
  - intros Hs Hc. apply Ho'; [by eapply single_line_whole|by apply Ho].
Qed.
(** Operations that leave text and elements alone. *)
Lemma keeps_same t t' : well_formed t → text t' = text t → elements t' = elements t → wrap_cache t' = wrap_cache t →
  boundary (text t) (cursor_pos t') → (single_line t → cursor_outside t → outside (elements t) (cursor_pos t')) → keeps t t'.
Proof.
  intros [Hc He Hca] Et Ee Ec Hb Ho. split.
  - split; rewrite ?Et, ?Ee, ?Ec; done.
  - intros e. rewrite Ee, Et. intros He'. by exists e.
  - unfold cursor_outside. rewrite Ee. done.
Qed.
(** The state after an edit, and the room that the new text has between the elements. *)
Record edited (t t' : TextArea) (a r ins b : rstring) : Prop := {
  ed_before : text t = a ++ r ++ b;
  ed_after : text t' = a ++ ins ++ b;
  ed_keeps : keeps t t';
  ed_room : Forall (λ e, e_end e <= blen a ∨ blen a + blen ins <= e_start e) (elements t');
  ed_kill : kill_buffer t' = kill_buffer t;
  ed_kind : kill_buffer_kind t' = kill_buffer_kind t;
  ed_cursor : blen a <= cursor_pos t → cursor_pos t <= blen a + blen r → cursor_pos t' = blen a + blen ins }.
Lemma cursor_after_boundary a r ins b p : boundary (a ++ r ++ b) p →
  boundary (a ++ ins ++ b) (cursor_after p (blen a) (blen a + blen r) (blen ins)).
Proof.
  intros Hp. unfold cursor_after. destruct (N.ltb_spec p (blen a)).
  { apply boundary_app_l, (boundary_in_l _ (r ++ b)); [done|lia]. }
  destruct (N.leb_spec p (blen a + blen r)). { rewrite app_assoc, <- blen_app. apply boundary_split. }
  rewrite app_assoc in Hp. pose proof (boundary_in_r _ _ _ Hp) as Hq. rewrite blen_app in Hq.
  apply (boundary_app_r (a ++ ins)) in Hq; [|lia]. rewrite <- app_assoc, blen_app in Hq.
  by replace (p + blen ins - (blen a + blen r - blen a)) with (blen a + blen ins + (p - (blen a + blen r))) by lia.
Qed.
Lemma edited_draft t a r ins b c : well_formed t → text t = a ++ r ++ b →
  Forall (uncut (blen a) (blen a + blen r)) (elements t) →
  let es := shift_elements (blen a) (blen r) (blen ins) (elements t) in
  let p := cursor_after (cursor_pos t) (blen a) (blen a + blen r) (blen ins) in
  boundary (a ++ ins ++ b) c → (outside es p → c = p) →
  edited t (with_draft t (a ++ ins ++ b) c es) a r ins b.
Proof.
  intros [Hc He Hca] Et Hu es p Hb Hid. rewrite Et in Hc, He. destruct (splice_ok a r ins b _ He Hu) as (Hes & Hsame & Hout & Hroom).
  split; [done|done| |done|done|done|].
  - split; [by split| |].
    + intros e' He'. cbn. rewrite Et. by apply Hsame.
    + intros _ Ho%Hout. unfold cursor_outside. cbn. fold es p in Ho. by rewrite Hid.
  - intros H1 H2. cbn. assert (p = blen a + blen ins) as Ep by (unfold p, cursor_after; compare_all; lia). rewrite Hid; [done|].
    rewrite Ep. eapply Forall_impl; [exact Hroom|]. intros e. cbn. lia.
Qed.
Lemma uncut_at s es pos : elements_ok s es → outside es pos → Forall (uncut pos pos) es.
Proof.
  intros Hes Ho. unfold outside in Ho. rewrite Forall_forall in Ho |- *. intros e He. specialize (Ho e He).
  destruct (edges_placed _ _ _ Hes He) as (_ & _ & ?). unfold uncut. lia.
Qed.
Lemma insert_str_at_ok t pos s : well_formed t →
  has_post (insert_str_at t pos s) (λ t', ∃ a b, blen a = clamp_pos_for_insertion t pos ∧ edited t t' a [] s b).
Proof.
  intros Hw. destruct (nearest_edge_ok _ _ pos (wf_elements _ Hw)) as [(a & b & Et & Ea) Ho].
  unfold insert_str_at, clamp_pos_for_insertion. rewrite <- Ea, Et, insert_at_spec. cbn [mbind option_bind].
  apply has_post_ret. exists a, b. split; [done|].
  apply (edited_draft t a [] s b); [done|done| | |].
  - cbn. rewrite N.add_0_r. eapply uncut_at; [apply Hw|]. by rewrite Ea.
  - pose proof (cursor_after_boundary a [] s b (cursor_pos t)) as Hb. cbn in Hb. rewrite <- Et in Hb. specialize (Hb (wf_cursor _ Hw)).
    unfold cursor_after in Hb. rewrite N.add_0_r in Hb. revert Hb. compare_all; try lia; intros Hb;
      match type of Hb with boundary _ ?p => match goal with |- boundary _ ?q => replace q with p by lia; exact Hb end end.
  - intros _. unfold cursor_after. cbn. compare_all; lia.
Qed.
Lemma replace_range_raw_ok t range s : well_formed t → range.1 <= range.2 → boundary (text t) range.1 → boundary (text t) range.2 →
  Forall (uncut range.1 range.2) (elements t) →
  has_post (replace_range_raw t range s) (λ t', (range.1 = range.2 ∧ s = [] ∧ t' = t) ∨
    ∃ a r b, blen a = range.1 ∧ blen a + blen r = range.2 ∧ edited t t' a r s b).
Proof.
  intros Hw Hle H1 H2 Hu. destruct (boundaries_split _ _ _ H1 H2 Hle) as (a & r & b & Et & E1 & E2).
  unfold replace_range_raw. rewrite (proj2 (N.leb_le _ _) Hle). cbn [negb].
  pose proof (boundary_le _ _ H1). pose proof (boundary_le _ _ H2). unfold len. rewrite !N.min_l by done.
  destruct (N.eqb_spec (range.2 - range.1) 0) as [Hz|Hz], (N.eqb_spec (blen s) 0) as [Hs|Hs]; cbn [andb].
  1: { apply has_post_ret. left. apply blen_0 in Hs. split; [lia|done]. }
  all: rewrite <- E2, <- E1, Et, replace_bytes_spec; cbn [mbind option_bind]; apply has_post_ret; right; exists a, r, b;
    (split; [done|]); (split; [done|]); unfold update_elements_after_replace;
    replace (blen a + blen r - blen a) with (blen r) by lia;
    pose proof (cursor_after_boundary a r s b (cursor_pos t)) as Hb; rewrite <- Et in Hb; specialize (Hb (wf_cursor _ Hw));
    rewrite (N.min_l _ _ (boundary_le _ _ Hb)); rewrite <- E2, <- E1 in Hu;
    pose proof (wf_elements _ Hw) as He; rewrite Et in He; destruct (splice_ok a r s b _ He Hu) as (Hes & _);
    (apply edited_draft; [done|done|done| |]); [by apply nearest_edge_ok|intros Ho; by apply nearest_edge_id].
Qed.

(** ** Lemmas: lines *)
Lemma has_post_fmap {A B} (f : A → B) (m : option A) (P : A → Prop) (Q : B → Prop) :
  has_post m P → (∀ a, P a → Q (f a)) → has_post (f <$> m) Q.
Proof. intros (a & -> & Ha) Hf. exists (f a). auto. Qed.
Definition line_start (s : rstring) (n : N) : Prop := ∃ u v, s = u ++ v ∧ blen u = n ∧ (u = [] ∨ ∃ u', u = u' ++ [newline]).
Lemma newline_spec c : is_newline c = true ↔ c = newline.
Proof. apply N.eqb_eq. Qed.
Lemma after_newline_spec s : line_start s (after_newline s).
Proof.
  unfold after_newline. destruct (rfind_char is_newline s) as [i|] eqn:E.
  - apply rfind_char_Some in E as (a & c & b & -> & ->%newline_spec & _ & <-). exists (a ++ [newline]), b.
    rewrite <- app_assoc, blen_app. split_and!; [done|done|right; by exists a].
  - exists [], s. auto.
Qed.
Lemma line_start_le s n : line_start s n → boundary s n.
Proof. intros (u & v & -> & <- & _). apply boundary_split. Qed.
Lemma line_start_pred s n : line_start s n → n ≠ 0 → boundary s (n - 1).
Proof.
  intros (u & v & -> & <- & [->|[u' ->]]); [done|]. intros _. rewrite blen_app, <- app_assoc. cbn [blen].
  replace (blen u' + (clen newline + 0) - 1) with (blen u') by (change (clen newline) with 1; lia). apply boundary_split.
Qed.
Lemma line_start_app s x n : line_start s n → line_start (s ++ x) n.
Proof. intros (u & v & -> & <- & H). exists u, (v ++ x). by rewrite app_assoc. Qed.
Lemma text_to_ok t p : boundary (text t) p → has_post (text_to t p) (λ a, ∃ b, text t = a ++ b ∧ blen a = p).
Proof. intros (a & b & E & <-). unfold text_to. rewrite E, split_at_byte_app. exists a. split; [done|]. by exists b. Qed.
Lemma text_from_ok t p : boundary (text t) p → has_post (text_from t p) (λ b, ∃ a, text t = a ++ b ∧ blen a = p).
Proof. intros (a & b & E & <-). unfold text_from. rewrite E, split_at_byte_app. exists b. split; [done|]. by exists a. Qed.
Lemma beginning_of_line_ok t p : boundary (text t) p → has_post (beginning_of_line t p) (λ b, line_start (text t) b ∧ b <= p).
Proof.
  intros Hp. unfold beginning_of_line. eapply has_post_bind; [by apply text_to_ok|]. intros a (b & E & <-). apply has_post_ret.
  rewrite E. pose proof (after_newline_spec a) as H. split; [by apply line_start_app|]. by apply line_start_le, boundary_le in H.
Qed.
Definition line_end (t : TextArea) (e : N) : Prop := boundary (text t) e ∧ (e < len t → boundary (text t) (e + 1)).
Lemma end_of_line_ok t p : boundary (text t) p → has_post (end_of_line t p) (λ e, line_end t e ∧ p <= e).
Proof.
  intros Hp. unfold end_of_line. eapply has_post_bind; [by apply text_from_ok|]. intros b (a & E & <-). apply has_post_ret.
  destruct (find_char is_newline b) as [i|] eqn:Ef.
  - apply find_char_Some in Ef as (u & c & v & -> & ->%newline_spec & _ & <-). split; [|lia]. unfold line_end. rewrite E. split.
    + rewrite N.add_comm, app_assoc, <- blen_app. apply boundary_split.
    + intros _. replace (blen u + blen a + 1) with (blen (a ++ u ++ [newline])) by (rewrite !blen_app; change (blen [newline]) with 1; lia).
      replace (a ++ u ++ newline :: v) with ((a ++ u ++ [newline]) ++ v) by (by rewrite <- !app_assoc). apply boundary_split.
  - unfold line_end, len. split; [split; [apply boundary_end|lia]|]. rewrite E, blen_app. lia.
Qed.
Lemma current_line_range_ok t : well_formed t → has_post (current_line_range_with_newline t) (λ r,
  line_start (text t) r.1 ∧ boundary (text t) r.2 ∧ r.1 <= cursor_pos t ∧ cursor_pos t <= r.2).
Proof.
  intros Hw. unfold current_line_range_with_newline. eapply has_post_bind; [by apply beginning_of_line_ok, Hw|]. intros bol [Hb Hble].
  eapply has_post_bind; [by apply end_of_line_ok, Hw|]. intros eol [[He He'] Hele]. apply has_post_ret. cbn.
  destruct (N.ltb_spec eol (len t)); split_and!; auto; lia.
Qed.
Lemma first_non_blank_ok t : well_formed t → has_post (first_non_blank_of_current_line t) (λ _, True).
Proof.
  intros Hw. unfold first_non_blank_of_current_line. eapply has_post_bind; [by apply beginning_of_line_ok, Hw|]. intros bol [Hb Hble].
  eapply has_post_bind; [by apply end_of_line_ok, Hw|]. intros eol [[He He'] Hele].
  destruct (slice_total (text t) bol eol) as (l & -> & _); [by apply line_start_le|done|lia|]. by apply has_post_ret.
Qed.

(** ** Lemmas: cursor moves *)
End keeping.
Section moves.
Context {U : Unicode} `{!UnicodeLaws U}.
Lemma set_cursor_keeps t p : well_formed t → keeps t (set_cursor t p).
Proof.
  intros Hw. destruct (nearest_edge_ok (text t) (elements t) (N.min p (len t)) (wf_elements _ Hw)) as [Hb Ho].
  by apply keeps_same.
Qed.
Lemma with_cursor_keeps t p col : well_formed t → boundary (text t) p →
  (single_line t → cursor_outside t → outside (elements t) p) → keeps t (with_cursor t p col).
Proof. intros Hw Hb Ho. by apply keeps_same. Qed.
Lemma find_element_Some es (f : TextElement → bool) e : List.find f es = Some e → e ∈ es ∧ f e = true.
Proof. intros [Hin Hc]%List.find_some. by apply list_elem_of_In in Hin. Qed.
Lemma containing_or_out s es b (edge : TextElement → N) : elements_ok s es → boundary s b → (∀ e, edge e = e_start e ∨ edge e = e_end e) →
  let r := match find_element_containing es b with Some e => edge e | None => b end in boundary s r ∧ outside es r.
Proof.
  intros Hes Hb Hedge. cbn zeta. destruct (find_element_containing es b) as [e|] eqn:E.
  - apply find_containing_Some in E as (He & _). destruct (edges_outside _ _ _ Hes He). destruct (edges_placed _ _ _ Hes He) as (? & ? & _).
    by destruct (Hedge e) as [->| ->].
  - split; [done|by apply find_containing_None].
Qed.
Lemma prev_atomic_ok t p : well_formed t → boundary (text t) p →
  boundary (text t) (prev_atomic_boundary t p) ∧ outside (elements t) (prev_atomic_boundary t p) ∧ prev_atomic_boundary t p <= p.
Proof.
  intros Hw Hp. pose proof (wf_elements _ Hw) as Hes. unfold prev_atomic_boundary.
  assert (boundary (text t) 0 ∧ outside (elements t) 0 ∧ 0 <= p) as H0.
  { split_and!; [apply boundary_0|by eapply outside_0|lia]. }
  destruct (N.eqb_spec p 0) as [->|Hne]; [done|]. destruct (List.find _ (elements t)) as [e|] eqn:E.
  - apply find_element_Some in E as [He [?%N.ltb_lt ?%N.leb_le]%andb_prop]. destruct (edges_outside _ _ _ Hes He).
    destruct (edges_placed _ _ _ Hes He) as (? & ? & _). split_and!; [done|done|lia].
  - pose proof (prev_boundary_ok (text t) p Hp) as Hl. destruct (prev_boundary (text t) p) as [[b|]|]; [|done|done].
    destruct Hl as [Hb Hlt]. destruct (containing_or_out (text t) (elements t) b e_start Hes Hb) as [Hr1 Hr2]; [by left|]. split_and!; [done|done|].
    destruct (find_element_containing (elements t) b) as [e|] eqn:Ec; [|lia]. apply find_containing_Some in Ec. lia.
Qed.
Lemma next_atomic_ok t p : well_formed t → boundary (text t) p →
  boundary (text t) (next_atomic_boundary t p) ∧ outside (elements t) (next_atomic_boundary t p) ∧ p <= next_atomic_boundary t p.
Proof.
  intros Hw Hp. pose proof (wf_elements _ Hw) as Hes. pose proof (boundary_le _ _ Hp). unfold next_atomic_boundary.
  assert (boundary (text t) (len t) ∧ outside (elements t) (len t) ∧ p <= len t) as H0.
  { split_and!; [apply boundary_end|by eapply outside_end|done]. }
  destruct (N.leb_spec (len t) p); [done|]. destruct (List.find _ (elements t)) as [e|] eqn:E.
  - apply find_element_Some in E as [He [?%N.leb_le ?%N.ltb_lt]%andb_prop]. destruct (edges_outside _ _ _ Hes He).
    destruct (edges_placed _ _ _ Hes He) as (? & ? & _). split_and!; [done|done|lia].
  - pose proof (next_boundary_ok (text t) p Hp) as Hl. destruct (next_boundary (text t) p) as [[b|]|]; [|done|done].
    destruct Hl as [Hb Hlt]. destruct (containing_or_out (text t) (elements t) b e_end Hes Hb) as [Hr1 Hr2]; [by right|]. split_and!; [done|done|].
    destruct (find_element_containing (elements t) b) as [e|] eqn:Ec; [|lia]. apply find_containing_Some in Ec. lia.
Qed.
Lemma move_cursor_left_keeps t : well_formed t → keeps t (move_cursor_left t).
Proof. intros Hw. destruct (prev_atomic_ok t (cursor_pos t) Hw (wf_cursor _ Hw)) as (? & ? & _). by apply with_cursor_keeps. Qed.
Lemma move_cursor_right_keeps t : well_formed t → keeps t (move_cursor_right t).
Proof. intros Hw. destruct (next_atomic_ok t (cursor_pos t) Hw (wf_cursor _ Hw)) as (? & ? & _). by apply with_cursor_keeps. Qed.

(** *** Rows *)
Lemma display_col_offset_ok (s : rstring) parts w target i :
  Forall (part_at s) parts → display_col_offset parts w target = Some i → boundary s i.
Proof.
  intros Hp. revert w. induction Hp as [|[j g] parts (a & b & -> & Ej) Hp IH]; intros w; cbn; [done|].
  cbn in Ej. destruct (target <? _); [|apply IH]. intros [= <-]. rewrite <- Ej. apply boundary_split.
Qed.
Lemma move_to_col_keeps t a b target : well_formed t → boundary (text t) a → boundary (text t) b → a <= b →
  has_post (move_to_display_col_on_line t a b target) (keeps t).
Proof.
  intros Hw Ha Hb Hab. unfold move_to_display_col_on_line. destruct (slice_total (text t) a b Ha Hb Hab) as (l & Hl & _). rewrite Hl.
  cbn [mbind option_bind]. apply has_post_ret. cbv zeta. set (pos := match display_col_offset _ _ _ with Some i => a + i | None => b end).
  destruct (nearest_edge_ok (text t) (elements t) pos (wf_elements _ Hw)). by apply with_cursor_keeps.
Qed.
Lemma with_preferred_keeps t c : well_formed t → keeps t (with_preferred t c).
Proof. intros Hw. apply with_cursor_keeps; [done|apply Hw|done]. Qed.
Lemma starts_up_to_spec lines pos i : wrapped_line_index_by_start lines pos = Some i → ∃ l, lines !! i = Some l ∧ l.1 <= pos.
Proof.
  unfold wrapped_line_index_by_start. destruct (starts_up_to lines pos) as [|j] eqn:E; [done|]. intros [= <-].
  revert j E. induction lines as [|r lines IH]; intros j; cbn; [done|]. destruct (N.leb_spec r.1 pos); [|done]. intros [= E].
  destruct j as [|j]; [by exists r|]. by apply IH.
Qed.
Lemma lines_ok_lookup s lines i l : lines_ok s lines → lines !! i = Some l → boundary s l.1 ∧ boundary s (l.2 - 1) ∧ l.1 <= l.2 - 1.
Proof. intros Hl Hi. unfold lines_ok in Hl. rewrite Forall_forall in Hl. apply Hl. by eapply list_elem_of_lookup_2. Qed.
Definition good_target (t : TextArea) (target : option (N * option (N * N))) : Prop :=
  match target with
  | Some (_, Some (a, b)) => boundary (text t) a ∧ boundary (text t) b ∧ a <= b
  | _ => True
  end.
Lemma visual_target_ok t neighbour : well_formed t → has_post (visual_target t neighbour) (good_target t).
Proof.
  intros Hw. unfold visual_target. destruct (wrap_cache t) as [c|] eqn:Ec; [|by apply has_post_ret].
  destruct (wf_cache _ Hw c Ec) as [_ Hl]. destruct (wrapped_line_index_by_start _ _) as [i|] eqn:Ei; [|by apply has_post_ret].
  destruct (starts_up_to_spec _ _ _ Ei) as (l & Hi & Hle). destruct (lines_ok_lookup _ _ _ _ Hl Hi) as (Hb & _). rewrite Hi. cbn [mbind option_bind].
  apply (has_post_bind _ _ (λ _, True)).
  { destruct (preferred_col t); [by apply has_post_ret|].
    destruct (slice_total (text t) l.1 (cursor_pos t)) as (x & -> & _); [done|apply Hw|done|]. by apply has_post_ret. }
  intros col _. destruct (neighbour i) as [j|]; [|by apply has_post_ret]. destruct (c_lines c !! j) as [l'|] eqn:Ej; apply has_post_ret; [|done].
  by apply (lines_ok_lookup _ (c_lines c) j).
Qed.
Lemma visual_move_keeps t col line edge : well_formed t → good_target t (Some (col, line)) → boundary (text t) edge →
  outside (elements t) edge → has_post (visual_move t col line edge) (keeps t).
Proof.
  intros Hw Hg Hb Ho. unfold visual_move. destruct line as [[a b]|].
  - destruct Hg as (Ha & Hb' & Hab). assert (keeps t (match preferred_col t with None => with_preferred t col | Some _ => t end)) as Hk.
    { destruct (preferred_col t); [by apply keeps_refl|by apply with_preferred_keeps]. }
    eapply has_post_weaken; [apply move_to_col_keeps; [apply Hk|..]|intros t' Hk'; by eapply keeps_trans].
    all: by destruct (preferred_col t).
  - apply has_post_ret. by apply with_cursor_keeps.
Qed.
Lemma current_display_col_ok t : well_formed t → has_post (current_display_col t) (λ _, True).
Proof.
  intros Hw. unfold current_display_col. eapply has_post_bind; [by apply beginning_of_line_ok, Hw|]. intros b [Hb Hle].
  destruct (slice_total (text t) b (cursor_pos t)) as (x & -> & _); [by apply line_start_le|apply Hw|done|]. by apply has_post_ret.
Qed.
Lemma keep_col_ok t : well_formed t →
  has_post (keep_col t) (λ r, keeps t r.1 ∧ text r.1 = text t ∧ elements r.1 = elements t ∧ cursor_pos r.1 = cursor_pos t).
Proof.
  intros Hw. unfold keep_col. destruct (preferred_col t); [apply has_post_ret; by split; [apply keeps_refl|]|].
  eapply has_post_bind; [by apply current_display_col_ok|]. intros c _. apply has_post_ret. by split; [apply with_preferred_keeps|].
Qed.
Lemma move_cursor_up_keeps t : well_formed t → has_post (move_cursor_up t) (keeps t).
Proof.
  intros Hw. unfold move_cursor_up. assert (boundary (text t) 0 ∧ outside (elements t) 0) as [H0 Ho0].
  { split; [apply boundary_0|eapply outside_0, Hw]. }
  eapply has_post_bind; [by apply visual_target_ok|]. intros [[col line]|] Hg; [by apply visual_move_keeps|].
  eapply has_post_bind; [by apply text_to_ok, Hw|]. intros before (b & E & Eb). destruct (rfind_char is_newline before) as [nl|] eqn:En.
  2: { apply has_post_ret. by apply with_cursor_keeps. }
  apply rfind_char_Some in En as (u & c & v & -> & _ & _ & <-).
  eapply has_post_bind; [by apply keep_col_ok|]. intros [t' col] (Hk & Et & _). cbn [fst] in *.
  assert (boundary (text t') (blen u)) as Hu by (rewrite Et, E, <- app_assoc; apply boundary_split).
  eapply has_post_bind; [by apply text_to_ok|]. intros prefix (b' & E' & Eu). pose proof (after_newline_spec prefix) as Ha%(line_start_app _ b').
  rewrite <- E' in Ha. pose proof (after_newline_spec prefix) as Ha'%line_start_le%boundary_le.
  eapply has_post_weaken; [apply move_to_col_keeps; [apply Hk|by apply line_start_le|done|lia]|]. intros t'' Hk'. by eapply keeps_trans.
Qed.
Lemma move_cursor_down_keeps t : well_formed t → has_post (move_cursor_down t) (keeps t).
Proof.
  intros Hw. unfold move_cursor_down. assert (∀ t, well_formed t → boundary (text t) (len t) ∧ outside (elements t) (len t)) as Hend.
  { intros t' Hw'. split; [apply boundary_end|eapply outside_end, Hw']. }
  eapply has_post_bind; [by apply visual_target_ok|]. intros [[col line]|] Hg; [destruct (Hend t Hw); by apply visual_move_keeps|].
  eapply has_post_bind; [by apply keep_col_ok|]. intros [t' col] (Hk & Et & Ee & Ec). cbn [fst] in *. pose proof (k_formed _ _ Hk) as Hw'.
  eapply has_post_bind; [by apply text_from_ok, Hw'|]. intros after (a & E & Ea). destruct (find_char is_newline after) as [nl|] eqn:En.
  2: { apply has_post_ret. eapply keeps_trans; [done|]. destruct (Hend t' Hw'). by apply with_cursor_keeps. }
  apply find_char_Some in En as (u & c & v & -> & ->%newline_spec & _ & <-).
  assert (boundary (text t') (blen u + cursor_pos t' + 1)) as Hb.
  { rewrite <- Ea. replace (blen u + blen a + 1) with (blen (a ++ u ++ [newline])) by (rewrite !blen_app; change (blen [newline]) with 1; lia).
    rewrite E. replace (a ++ u ++ newline :: v) with ((a ++ u ++ [newline]) ++ v) by (by rewrite <- !app_assoc). apply boundary_split. }
  eapply has_post_bind; [by apply end_of_line_ok|]. intros e [[He _] Hle].
  eapply has_post_weaken; [by apply move_to_col_keeps|]. intros t'' Hk'. by eapply keeps_trans.
Qed.
Lemma to_beginning_keeps t up : well_formed t → has_post (move_cursor_to_beginning_of_line t up) (keeps t).
Proof.
  intros Hw. unfold move_cursor_to_beginning_of_line. eapply has_post_bind; [by apply beginning_of_line_ok, Hw|]. intros bol [Hb Hle].
  destruct up; cbn [andb]; [|apply has_post_ret; by apply set_cursor_keeps]. destruct (N.eqb_spec (cursor_pos t) bol) as [Ec|].
  - eapply has_post_bind; [apply beginning_of_line_ok|intros pos _; apply has_post_ret; by apply set_cursor_keeps].
    rewrite Ec. destruct (decide (bol = 0)) as [->|]; [apply boundary_0|by apply line_start_pred].
  - apply has_post_ret. by apply set_cursor_keeps.
Qed.
Lemma to_end_keeps t down : well_formed t → has_post (move_cursor_to_end_of_line t down) (keeps t).
Proof.
  intros Hw. unfold move_cursor_to_end_of_line. eapply has_post_bind; [by apply end_of_line_ok, Hw|]. intros eol [[Hb Hn] Hle].
  destruct down; cbn [andb]; [|apply has_post_ret; by apply set_cursor_keeps]. destruct (N.eqb_spec (cursor_pos t) eol) as [Ec|].
  - eapply has_post_bind; [apply end_of_line_ok|intros pos _; apply has_post_ret; by apply set_cursor_keeps].
    rewrite Ec. destruct (N.min_spec (eol + 1) (len t)) as [[? ->]|[? ->]]; [apply Hn; lia|apply boundary_end].
  - apply has_post_ret. by apply set_cursor_keeps.
Qed.

(** *** Words *)
Lemma split_pieces_ok run a chars piece sep b : run = a ++ (piece ++ chars) ++ b →
  Forall (part_at run) (split_pieces chars (blen a) piece sep).
Proof.
  revert a piece sep. induction chars as [|ch chars IH]; intros a piece sep ->; cbn [split_pieces].
  - constructor; [|constructor]. exists a, b. by rewrite app_nil_r.
  - destruct (Bool.eqb _ _).
    + apply IH. by rewrite <- !app_assoc.
    + constructor; [exists a, (ch :: chars ++ b); by rewrite <- !app_assoc|]. rewrite <- blen_app. apply IH. by rewrite <- !app_assoc.
Qed.
Lemma split_word_pieces_ok run : Forall (part_at run) (split_word_pieces run).
Proof.
  apply Forall_forall. intros part (seg & Hp & Hs)%list_elem_of_bind. destruct (split_word_ok run seg Hs) as (a & b & E & Ea).
  unfold segment_pieces in Hp. rewrite <- Ea in Hp. destruct (seg.2) as [|c cs]; [by apply elem_of_nil in Hp|].
  pose proof (split_pieces_ok run a cs [c] (is_word_separator c) b E) as Hf. rewrite Forall_forall in Hf. by apply Hf.
Qed.
Lemma part_start run part : part_at run part → boundary run part.1.
Proof. intros (a & b & -> & <-). apply boundary_split. Qed.
Lemma part_stop run part : part_at run part → boundary run (part.1 + blen part.2).
Proof. intros (a & b & -> & <-). rewrite <- blen_app, app_assoc. apply boundary_split. Qed.
Lemma separators_start_ok base start pieces (P : N → Prop) : P start → Forall (λ part, P (base + part.1)) pieces → P (separators_start base start pieces).
Proof.
  intros Hs Hp. revert start Hs. induction Hp as [|[i x] pieces Hx Hp IH]; intros start Hs; cbn; [done|]. destruct (all_separators x); auto.
Qed.
Lemma separators_end_ok base stop pieces (P : N → Prop) :
  P stop → Forall (λ part, P (base + part.1 + blen part.2)) pieces → P (separators_end base stop pieces).
Proof.
  intros Hs Hp. revert stop Hs. induction Hp as [|[i x] pieces Hx Hp IH]; intros stop Hs; cbn; [done|]. destruct (all_separators x); auto.
Qed.
Lemma adjust_ok t p prefer_start : well_formed t → boundary (text t) p →
  boundary (text t) (adjust_pos_out_of_elements t p prefer_start) ∧
  (if prefer_start then adjust_pos_out_of_elements t p prefer_start <= p else p <= adjust_pos_out_of_elements t p prefer_start).
Proof.
  intros Hw Hp. unfold adjust_pos_out_of_elements. destruct (find_element_containing _ _) as [e|] eqn:E; [|destruct prefer_start; split; done || lia].
  apply find_containing_Some in E as (He & ? & ?). destruct (edges_placed _ _ _ (wf_elements _ Hw) He) as (? & ? & _). destruct prefer_start; split; done || lia.
Qed.
Lemma previous_word_ok t : well_formed t → has_post (beginning_of_previous_word t) (λ p, boundary (text t) p ∧ p <= cursor_pos t).
Proof.
  intros Hw. unfold beginning_of_previous_word. eapply has_post_bind; [by apply text_to_ok, Hw|]. intros prefix (rest & E & Ec).
  destruct (rfind_char not_whitespace prefix) as [i|] eqn:Ei; [|apply has_post_ret; split; [apply boundary_0|lia]].
  apply rfind_char_Some in Ei as (before & ch & after & Ep & _ & _ & <-). rewrite Ep, split_at_byte_app. cbn [mbind option_bind].
  set (run_start := match rfind_char is_whitespace before with Some _ => _ | None => 0 end).
  assert (boundary before run_start) as Hrs.
  { unfold run_start. destruct (rfind_char is_whitespace before) as [j|] eqn:Ej; [|apply boundary_0].
    apply rfind_char_Some in Ej as (u & c & v & -> & _ & _ & <-). rewrite split_at_byte_app.
    replace (u ++ c :: v) with ((u ++ [c]) ++ v) by (by rewrite <- app_assoc).
    replace (blen u + clen c) with (blen (u ++ [c])) by (rewrite blen_app; cbn; lia). apply boundary_split. }
  clearbody run_start. destruct Hrs as (u & v & -> & <-).
  assert (slice ((u ++ v) ++ ch :: after) (blen u) (blen (u ++ v) + clen ch) = Some (v ++ [ch])) as ->.
  { apply slice_Some. exists u, after. rewrite !blen_app. cbn. rewrite <- !app_assoc. split_and!; [done|done|lia]. }
  cbn [mbind option_bind].
  assert (∀ n, boundary (v ++ [ch]) n → boundary (text t) (blen u + n) ∧ blen u + n <= cursor_pos t) as Hin.
  { intros n Hn. assert (boundary prefix (blen u + n)) as Hb.
    { rewrite Ep. replace ((u ++ v) ++ ch :: after) with (u ++ (v ++ [ch]) ++ after) by (by rewrite <- !app_assoc).
      by apply boundary_app_r, boundary_app_l. }
    split; [rewrite E; by apply boundary_app_l|]. rewrite <- Ec. by apply boundary_le. }
  pose proof (split_word_pieces_ok (v ++ [ch])) as Hps. apply Forall_rev in Hps. destruct (rev _) as [|[i piece] pieces].
  - apply has_post_ret. rewrite <- (N.add_0_r (blen u)). apply Hin, boundary_0.
  - apply Forall_cons in Hps as [Hp Hps]. apply has_post_ret. cbv zeta.
    set (start := if all_separators piece then _ else _). assert (boundary (text t) start ∧ start <= cursor_pos t) as [Hs Hle].
    { pose proof (Hin _ (part_start _ _ Hp)) as H0. cbn in H0. unfold start. destruct (all_separators piece); [|done].
      apply (separators_start_ok _ _ _ (λ p, boundary (text t) p ∧ p <= cursor_pos t)); [done|].
      eapply Forall_impl; [exact Hps|]. intros part Hpart. by apply Hin, part_start. }
    destruct (adjust_ok t start true Hw Hs). split; [done|lia].
Qed.
Lemma next_word_ok t : well_formed t → has_post (end_of_next_word t) (λ p, boundary (text t) p ∧ cursor_pos t <= p).
Proof.
  intros Hw. unfold end_of_next_word. eapply has_post_bind; [by apply text_from_ok, Hw|]. intros suffix (a & E & Ec).
  destruct (find_char not_whitespace suffix) as [i|] eqn:Ei.
  2: { apply has_post_ret. split; [apply boundary_end|]. unfold len. rewrite E, blen_app. lia. }
  apply find_char_Some in Ei as (u & ch & v & -> & _ & _ & <-). rewrite split_at_byte_app. cbn [fmap option_fmap option_map mbind option_bind snd].
  assert (∃ run rest, ch :: v = run ++ rest ∧ blen run = default (blen (ch :: v)) (find_char is_whitespace (ch :: v))) as (run & rest & Er & El).
  { destruct (find_char is_whitespace (ch :: v)) as [j|] eqn:Ej.
    - apply find_char_Some in Ej as (x & c & y & -> & _ & _ & <-). by exists x, (c :: y).
    - exists (ch :: v), []. by rewrite app_nil_r. }
  rewrite <- El, Er, split_at_byte_app. cbn [fmap option_fmap option_map mbind option_bind fst].
  assert (∀ n, boundary run n → boundary (text t) (cursor_pos t + blen u + n)) as Hin.
  { intros n Hn. rewrite E, Er, <- Ec. replace (a ++ u ++ run ++ rest) with ((a ++ u) ++ run ++ rest) by (by rewrite <- app_assoc).
    rewrite <- blen_app. by apply boundary_app_r, boundary_app_l. }
  pose proof (split_word_pieces_ok run) as Hps. destruct (split_word_pieces run) as [|[i piece] pieces].
  - apply has_post_ret. split; [|lia]. rewrite <- (N.add_0_r (cursor_pos t + blen u)). apply Hin, boundary_0.
  - apply Forall_cons in Hps as [Hp Hps]. apply has_post_ret. cbv zeta.
    set (stop := if all_separators piece then _ else _).
    assert (boundary (text t) stop ∧ cursor_pos t <= stop) as [Hs Hle].
    { pose proof (Hin _ (part_stop _ _ Hp)) as H0. cbn in H0. rewrite N.add_assoc in H0. unfold stop. destruct (all_separators piece); [|split; [done|lia]].
      apply (separators_end_ok _ _ _ (λ p, boundary (text t) p ∧ cursor_pos t <= p)); [split; [done|lia]|].
      eapply Forall_impl; [exact Hps|]. intros part Hpart. rewrite <- N.add_assoc. split; [by apply Hin, part_stop|lia]. }
    destruct (adjust_ok t stop false Hw Hs). split; [done|lia].
Qed.
Lemma next_word_start_ok t : well_formed t → has_post (beginning_of_next_word t) (λ _, True).
Proof.
  intros Hw. unfold beginning_of_next_word. eapply has_post_bind; [by apply text_from_ok, Hw|]. intros suffix _.
  destruct (find_char _ suffix); [|by apply has_post_ret]. destruct (negb _); [by apply has_post_ret|].
  eapply has_post_bind; [by apply next_word_ok|]. intros stop [Hs _]. destruct (_ <=? _); [by apply has_post_ret|].
  eapply has_post_bind; [by apply text_from_ok|]. intros suffix' _. destruct (find_char _ suffix'); by apply has_post_ret.
Qed.

(** ** Lemmas: operations of the keys *)
Lemma same_state_keeps t t' : well_formed t → text t' = text t → elements t' = elements t → wrap_cache t' = wrap_cache t →
  cursor_pos t' = cursor_pos t → keeps t t'.
Proof. intros Hw Et Ee Ec Ep. apply keeps_same; rewrite ?Ep; [done..|apply Hw|done]. Qed.
Lemma insert_str_at_keeps t p s : well_formed t → has_post (insert_str_at t p s) (keeps t).
Proof. intros Hw. eapply has_post_weaken; [by apply insert_str_at_ok|]. intros t' (a & b & _ & Hed). apply Hed. Qed.
Lemma expand_ok t range : well_formed t → boundary (text t) range.1 → boundary (text t) range.2 →
  has_post (expand_range_to_element_boundaries t range) (λ range', within range range' ∧ boundary (text t) range'.1 ∧
    boundary (text t) range'.2 ∧ Forall (uncut range'.1 range'.2) (elements t)).
Proof.
  intros Hw H1 H2. unfold expand_range_to_element_boundaries. apply expand_loop_ok; [apply Hw| |done..].
  unfold missing. apply Nat.lt_succ_r. apply List.filter_length_le.
Qed.
Lemma replace_range_keeps t range s : well_formed t → range.1 <= range.2 → boundary (text t) range.1 → boundary (text t) range.2 →
  has_post (replace_range t range s) (keeps t).
Proof.
  intros Hw Hle H1 H2. unfold replace_range. eapply has_post_bind; [by apply expand_ok|]. intros r ([? ?] & Hb1 & Hb2 & Hu).
  eapply has_post_weaken; [apply replace_range_raw_ok; [done|lia|done..]|]. intros t' [(_ & _ & ->)|(a & x & b & _ & _ & Hed)]; [by apply keeps_refl|apply Hed].
Qed.
Lemma store_keeps t x kind : well_formed t → keeps t (store_kill_buffer t x kind).
Proof. intros Hw. by apply same_state_keeps. Qed.
(** A kill takes the range and the elements it cuts to the buffer, or does nothing. *)
Lemma kill_range_ok t range kind : well_formed t → boundary (text t) range.1 → boundary (text t) range.2 →
  has_post (kill_range_with_kind t range kind) (λ t', (t' = t ∧ range.2 <= range.1) ∨
    ∃ a r b, r ≠ [] ∧ blen a <= range.1 ∧ range.2 <= blen a + blen r ∧ kill_buffer t' = r ∧ kill_buffer_kind t' = kind ∧
      edited (store_kill_buffer t r kind) t' a r [] b).
Proof.
  intros Hw H1 H2. unfold kill_range_with_kind. eapply has_post_bind; [by apply expand_ok|]. intros r ([? ?] & Hb1 & Hb2 & Hu).
  destruct (N.leb_spec r.2 r.1); [apply has_post_ret; left; split; [done|lia]|].
  destruct (slice_total (text t) r.1 r.2 Hb1 Hb2) as (removed & Hr & Hlen); [lia|]. rewrite Hr. cbn [mbind option_bind].
  rewrite bool_decide_eq_false_2 by (intros ->; cbn in Hlen; lia).
  eapply has_post_weaken; [apply replace_range_raw_ok; [by apply store_keeps|lia|done..]|].
  intros t' [(? & _)|(a & x & b & Ea & Ex & Hed)]; [lia|]. right. pose proof (ed_before _ _ _ _ _ _ Hed) as Et. cbn in Et.
  assert (removed = x) as ->.
  { assert (slice (text t) r.1 r.2 = Some x) as Hx by (apply slice_Some; by exists a, b). congruence. }
  exists a, x, b. split_and!; [intros ->; cbn in Ex; lia|lia|lia|by rewrite (ed_kill _ _ _ _ _ _ Hed)|by rewrite (ed_kind _ _ _ _ _ _ Hed)|done].
Qed.
Lemma edited_store_keeps t t' x kind a r ins b : well_formed t → edited (store_kill_buffer t x kind) t' a r ins b → keeps t t'.
Proof. intros Hw Hed. eapply keeps_trans; [by apply store_keeps|apply Hed]. Qed.
Lemma kill_keeps t range kind : well_formed t → boundary (text t) range.1 → boundary (text t) range.2 →
  has_post (kill_range_with_kind t range kind) (keeps t).
Proof.
  intros Hw H1 H2. eapply has_post_weaken; [by apply kill_range_ok|].
  intros t' [[-> _]|(a & r & b & _ & _ & _ & _ & _ & Hed)]; [by apply keeps_refl|by eapply edited_store_keeps].
Qed.
Lemma yank_range_keeps t range kind : well_formed t → boundary (text t) range.1 → boundary (text t) range.2 →
  has_post (yank_range_with_kind t range kind) (keeps t).
Proof.
  intros Hw H1 H2. unfold yank_range_with_kind. eapply has_post_bind; [by apply expand_ok|]. intros r ([? ?] & Hb1 & Hb2 & Hu).
  destruct (N.leb_spec r.2 r.1); [apply has_post_ret; by apply keeps_refl|].
  destruct (slice_total (text t) r.1 r.2 Hb1 Hb2) as (removed & Hr & _); [lia|]. rewrite Hr. apply has_post_ret.
  case_bool_decide; [by apply keeps_refl|by apply store_keeps].
Qed.
Lemma steps_ok (P : N → Prop) n step stop target : (∀ p, P p → P (step p)) → P target → P (steps n step stop target).
Proof.
  intros Hstep. revert target. induction n as [|n IH]; intros target Hp; cbn; [done|]. destruct (stop (step target)); auto.
Qed.
Lemma delete_backward_keeps t n : well_formed t → has_post (delete_backward t n) (keeps t).
Proof.
  intros Hw. unfold delete_backward. destruct (_ || _); [by apply has_post_ret, keeps_refl|].
  assert (∀ stop, boundary (text t) (steps n (prev_atomic_boundary t) stop (cursor_pos t)) ∧ steps n (prev_atomic_boundary t) stop (cursor_pos t) <= cursor_pos t) as Hs.
  { intros stop. apply (steps_ok (λ p, boundary (text t) p ∧ p <= cursor_pos t)); [|split; [apply Hw|done]]. intros p [Hp Hle].
    destruct (prev_atomic_ok t p Hw Hp) as (? & _ & ?). split; [done|lia]. }
  destruct (Hs (λ p, p =? 0)) as [Hb Hle]. apply replace_range_keeps; [done|done|done|apply Hw].
Qed.
Lemma forward_target_ok t n : well_formed t → boundary (text t) (forward_target t n) ∧ cursor_pos t <= forward_target t n.
Proof.
  intros Hw. apply (steps_ok (λ p, boundary (text t) p ∧ cursor_pos t <= p)); [|split; [apply Hw|done]]. intros p [Hp Hle].
  destruct (next_atomic_ok t p Hw Hp) as (? & _ & ?). split; [done|lia].
Qed.
Lemma delete_forward_keeps t n : well_formed t → has_post (delete_forward t n) (keeps t).
Proof.
  intros Hw. unfold delete_forward. destruct (_ || _); [by apply has_post_ret, keeps_refl|]. destruct (forward_target_ok t n Hw).
  apply replace_range_keeps; [done|done|apply Hw|done].
Qed.
Lemma delete_forward_kill_keeps t n : well_formed t → has_post (delete_forward_kill t n) (keeps t).
Proof.
  intros Hw. unfold delete_forward_kill. destruct (_ || _); [by apply has_post_ret, keeps_refl|]. destruct (forward_target_ok t n Hw).
  apply kill_keeps; [done|apply Hw|done].
Qed.
Lemma delete_backward_word_keeps t : well_formed t → has_post (delete_backward_word t) (keeps t).
Proof.
  intros Hw. unfold delete_backward_word. eapply has_post_bind; [by apply previous_word_ok|]. intros p [Hp _]. apply kill_keeps; [done|done|apply Hw].
Qed.
Lemma delete_forward_word_keeps t : well_formed t → has_post (delete_forward_word t) (keeps t).
Proof.
  intros Hw. unfold delete_forward_word. eapply has_post_bind; [by apply next_word_ok|]. intros p [Hp _].
  destruct (_ <? _); [apply kill_keeps; [done|apply Hw|done]|by apply has_post_ret, keeps_refl].
Qed.
Lemma kill_to_end_keeps t : well_formed t → has_post (kill_to_end_of_line t) (keeps t).
Proof.
  intros Hw. unfold kill_to_end_of_line. eapply has_post_bind; [by apply end_of_line_ok, Hw|]. intros e [[He Hn] _].
  destruct (_ =? _); [destruct (N.ltb_spec e (len t)); [|by apply has_post_ret, keeps_refl]|]; apply kill_keeps; try done; try apply Hw. by apply Hn.
Qed.
Lemma kill_to_beginning_keeps t : well_formed t → has_post (kill_to_beginning_of_line t) (keeps t).
Proof.
  intros Hw. unfold kill_to_beginning_of_line. eapply has_post_bind; [by apply beginning_of_line_ok, Hw|]. intros b [Hb _].
  pose proof (line_start_le _ _ Hb). destruct (_ =? _); [destruct (N.ltb_spec 0 b); [|by apply has_post_ret, keeps_refl]|]; apply kill_keeps; try done; try apply Hw.
  apply line_start_pred; [done|]. cbn. lia.
Qed.
Lemma yank_keeps t : well_formed t → has_post (yank t) (keeps t).
Proof. intros Hw. unfold yank. case_bool_decide; [by apply has_post_ret, keeps_refl|by apply insert_str_at_keeps]. Qed.
Lemma current_line_kill_keeps t : well_formed t → has_post (kill_current_line t) (keeps t).
Proof.
  intros Hw. unfold kill_current_line. eapply has_post_bind; [by apply current_line_range_ok|]. intros r (H1%line_start_le & H2 & _). by apply kill_keeps.
Qed.
Lemma current_line_yank_keeps t : well_formed t → has_post (yank_current_line t) (keeps t).
Proof.
  intros Hw. unfold yank_current_line. eapply has_post_bind; [by apply current_line_range_ok|]. intros r (H1%line_start_le & H2 & _). by apply yank_range_keeps.
Qed.
(** An insertion, and then the cursor. *)
Lemma insert_then_keeps t p s (k : TextArea → TextArea) : well_formed t → (∀ t', well_formed t' → keeps t' (k t')) →
  has_post (t' ← insert_str_at t p s; Some (k t')) (keeps t).
Proof.
  intros Hw Hk. eapply has_post_bind; [by apply insert_str_at_keeps|]. intros t' Ht'. apply has_post_ret.
  eapply keeps_trans; [done|]. apply Hk, Ht'.
Qed.
Lemma paste_after_keeps t : well_formed t → has_post (paste_after_cursor t) (keeps t).
Proof.
  intros Hw. unfold paste_after_cursor. case_bool_decide; [by apply has_post_ret, keeps_refl|]. destruct (kill_buffer_kind t).
  - pose proof (set_cursor_keeps t (next_atomic_boundary t (cursor_pos t)) Hw) as Hs. unfold insert_str.
    eapply has_post_weaken; [by apply insert_str_at_keeps, Hs|]. intros t' Ht'. by eapply keeps_trans.
  - unfold paste_line_after_current_line. eapply has_post_bind; [by apply end_of_line_ok, Hw|]. intros e _.
    apply (insert_then_keeps t _ _ (λ t', set_cursor t' (N.min _ (len t')))); [done|]. intros t' Ht'. by apply set_cursor_keeps.
Qed.

(** *** Motions of operators *)
(** A motion changes the cursor and the column only, so that an operator puts back the state it found. *)
Definition motion (t t' : TextArea) : Prop := ∃ p c, t' = with_cursor t p c.
Lemma move_to_col_motion t a b target t' : move_to_display_col_on_line t a b target = Some t' → motion t t'.
Proof. unfold move_to_display_col_on_line. destruct (slice _ _ _); [|done]. intros [= <-]. by eexists _, _. Qed.
Lemma motion_trans t p c t' : motion (with_cursor t p c) t' → motion t t'.
Proof. intros (p' & c' & ->). by exists p', c'. Qed.
Lemma visual_move_motion t col line edge t' : visual_move t col line edge = Some t' → motion t t'.
Proof.
  unfold visual_move. destruct line as [[a b]|]; [|intros [= <-]; by eexists _, _].
  intros Hm%move_to_col_motion. destruct (preferred_col t); [done|]. by eapply motion_trans.
Qed.
Lemma keep_col_motion t t' c : keep_col t = Some (t', c) → t' = t ∨ t' = with_preferred t c.
Proof.
  unfold keep_col. destruct (preferred_col t); [intros [= <- _]; by left|]. destruct (current_display_col t); [|done].
  intros [= <- <-]. by right.
Qed.
Lemma move_cursor_up_motion t t' : move_cursor_up t = Some t' → motion t t'.
Proof.
  unfold move_cursor_up. destruct (visual_target _ _) as [[[col line]|]|]; [apply visual_move_motion| |done]. cbn [mbind option_bind].
  destruct (text_to t _) as [before|]; [|done]. cbn [mbind option_bind]. destruct (rfind_char _ before) as [nl|]; [|intros [= <-]; by eexists _, _].
  destruct (keep_col t) as [[t1 c]|] eqn:Ek; [|done]. cbn [mbind option_bind]. destruct (text_to t1 nl); [|done]. intros Hm%move_to_col_motion.
  destruct (keep_col_motion _ _ _ Ek) as [->| ->]; [done|by eapply motion_trans].
Qed.
Lemma move_cursor_down_motion t t' : move_cursor_down t = Some t' → motion t t'.
Proof.
  unfold move_cursor_down. destruct (visual_target _ _) as [[[col line]|]|]; [apply visual_move_motion| |done]. cbn [mbind option_bind].
  destruct (keep_col t) as [[t1 c]|] eqn:Ek; [|done]. cbn [mbind option_bind]. destruct (text_from t1 _) as [after|]; [|done]. cbn [mbind option_bind].
  assert (motion t1 t' → motion t t') as Hm.
  { destruct (keep_col_motion _ _ _ Ek) as [->| ->]; [done|]. apply motion_trans. }
  destruct (find_char _ after) as [i|]; [|intros [= <-]; apply Hm; by eexists _, _].
  destruct (end_of_line t1 _); [|done]. intros H%move_to_col_motion. by apply Hm.
Qed.
Lemma target_for_motion_ok t m : well_formed t → has_post (target_for_motion t m) (λ r, r.1 = t ∧ boundary (text t) r.2).
Proof.
  intros Hw. unfold target_for_motion. apply (has_post_bind _ _ (λ t', keeps t t' ∧ motion t t')).
  2: { intros t' [Hk (p & c & ->)]. apply has_post_ret. split; [by destruct t|apply (wf_cursor _ (k_formed _ _ Hk))]. }
  assert (∀ p c, motion t (with_cursor t p c)) as Hmo by (intros; by eexists _, _).
  assert (∀ (o : option N) P, has_post o P → has_post (set_cursor t <$> o) (λ t', keeps t t' ∧ motion t t')) as Hset.
  { intros o P Ho. eapply has_post_fmap; [exact Ho|]. intros p _. split; [by apply set_cursor_keeps|apply Hmo]. }
  destruct m.
  - apply has_post_ret. split; [by apply move_cursor_left_keeps|apply Hmo].
  - apply has_post_ret. split; [by apply move_cursor_right_keeps|apply Hmo].
  - destruct (move_cursor_up_keeps t Hw) as (t' & E & Hk). exists t'. split; [done|]. split; [done|by apply move_cursor_up_motion].
  - destruct (move_cursor_down_keeps t Hw) as (t' & E & Hk). exists t'. split; [done|]. split; [done|by apply move_cursor_down_motion].
  - by eapply Hset, next_word_start_ok.
  - by eapply Hset, previous_word_ok.
  - by eapply Hset, next_word_ok.
  - by eapply Hset, beginning_of_line_ok, Hw.
  - by eapply Hset, end_of_line_ok, Hw.
Qed.
Lemma vertical_range_ok t m : well_formed t →
  has_post (linewise_range_for_vertical_motion t m) (λ r, ∀ x, r = Some x → boundary (text t) x.1 ∧ boundary (text t) x.2).
Proof.
  intros Hw. unfold linewise_range_for_vertical_motion. eapply has_post_bind; [by apply current_line_range_ok|].
  intros r (H1 & H2 & _). pose proof (line_start_le _ _ H1) as H1b. destruct m; try (by apply has_post_ret).
  - apply (has_post_bind _ _ (boundary (text t))).
    { destruct (N.eqb_spec r.1 0); [by apply has_post_ret|]. eapply has_post_weaken; [apply beginning_of_line_ok; by apply line_start_pred|].
      intros b [Hb _]. by apply line_start_le. }
    intros start Hs. apply has_post_ret. intros x. destruct (_ <? _); [|done]. by intros [= <-].
  - apply (has_post_bind _ _ (boundary (text t))).
    { destruct (N.leb_spec (len t) r.2); [by apply has_post_ret|]. eapply has_post_bind; [by apply end_of_line_ok|]. intros e [[He Hn] _].
      apply has_post_ret. destruct (N.ltb_spec e (len t)); auto. }
    intros stop Hs. apply has_post_ret. intros x. destruct (_ <? _); [|done]. by intros [= <-].
Qed.
Lemma range_for_motion_ok t m : well_formed t →
  has_post (range_for_motion t m) (λ r, r.1 = t ∧ ∀ x, r.2 = Some x → boundary (text t) x.1 ∧ boundary (text t) x.2).
Proof.
  intros Hw. assert (has_post ('(t', target) ← target_for_motion t m;
     Some (t', if cursor_pos t =? target then None else if target <? cursor_pos t then Some (target, cursor_pos t) else Some (cursor_pos t, target)))
     (λ r, r.1 = t ∧ ∀ x, r.2 = Some x → boundary (text t) x.1 ∧ boundary (text t) x.2)) as Hh.
  { eapply has_post_bind; [by apply target_for_motion_ok|]. intros [t' target] [Et Ht]. cbn in Et, Ht. subst t'. apply has_post_ret. split; [done|]. cbn. intros x.
    pose proof (wf_cursor _ Hw). destruct (_ =? _); [done|]. destruct (_ <? _); by intros [= <-]. }
  destruct m; try exact Hh; unfold range_for_motion; (eapply has_post_bind; [by apply vertical_range_ok|]); intros r Hr; by apply has_post_ret.
Qed.
Lemma apply_vim_operator_keeps t op m : well_formed t → has_post (apply_vim_operator t op m) (keeps t).
Proof.
  intros Hw. unfold apply_vim_operator. eapply has_post_bind; [by apply range_for_motion_ok|]. intros [t' [r|]] [Et Hr]; cbn in Et, Hr |- *; subst t'; [|by apply has_post_ret, keeps_refl].
  destruct (Hr r eq_refl). destruct op; [by apply kill_keeps|by apply yank_range_keeps].
Qed.

(** *** Keys *)
Lemma handle_vim_operator_keeps t op event : well_formed t → has_post (handle_vim_operator t op event) (keeps t).
Proof.
  intros Hw. unfold handle_vim_operator. destruct (match op with Delete => _ | Yank => false end); [by apply current_line_kill_keeps|].
  destruct (match op with Yank => _ | Delete => false end); [by apply current_line_yank_keeps|].
  destruct (is_pressed _ _); [by apply has_post_ret, keeps_refl|]. destruct (vim_motion_for_event t event); [by apply apply_vim_operator_keeps|by apply has_post_ret, keeps_refl].
Qed.
Lemma set_cursor_post t (o : option N) P : well_formed t → has_post o P → has_post (set_cursor t <$> o) (keeps t).
Proof. intros Hw Ho. eapply has_post_fmap; [exact Ho|]. intros p _. by apply set_cursor_keeps. Qed.
Ltac by_keys :=
  repeat match goal with |- has_post (if is_pressed ?k ?e then _ else _) _ => destruct (is_pressed k e) end.
Lemma input_char_keeps t event : well_formed t → has_post (input_char t event) (keeps t).
Proof.
  intros Hw. unfold input_char. destruct (ev_code event); try (by apply has_post_ret, keeps_refl).
  destruct (_ || _); [|by apply has_post_ret, keeps_refl]. destruct (_ || _); [by apply has_post_ret, keeps_refl|by apply insert_str_at_keeps].
Qed.
Lemma input_with_keymap_keeps t event km : well_formed t → has_post (input_with_keymap t event km) (keeps t).
Proof.
  intros Hw. unfold input_with_keymap, is_altgr, insert_str. by_keys.
  3: destruct (match ev_code event with KChar c => if false then Some c else None | _ => None end); by_keys.
  all: eauto using insert_str_at_keeps, delete_backward_word_keeps, delete_backward_keeps, delete_forward_word_keeps, delete_forward_keeps,
    kill_to_beginning_keeps, current_line_kill_keeps, kill_to_end_keeps, yank_keeps, move_cursor_up_keeps, move_cursor_down_keeps,
    to_beginning_keeps, to_end_keeps, set_cursor_post, previous_word_ok, next_word_ok, has_post_ret, move_cursor_left_keeps,
    move_cursor_right_keeps, input_char_keeps.
Qed.
(** A line does not start inside an element of a single line. *)
Lemma line_start_outside t b : well_formed t → single_line t → line_start (text t) b → outside (elements t) b.
Proof.
  intros Hw Hs (u & v & E & <- & Hu). apply Forall_forall. intros e He [H1 H2].
  destruct Hu as [->|[u' ->]]; [cbn in H1; lia|]. rewrite blen_app in H1, H2. change (blen [newline]) with 1 in H1, H2.
  destruct (edges_placed _ _ _ (wf_elements _ Hw) He) as (Hb1 & Hb2 & Hle).
  destruct (slice_total _ _ _ Hb1 Hb2 Hle) as (p & Hp & _). apply (Hs e p He Hp).
  apply slice_Some in Hp as (x & y & Ep & Ex & El).
  destruct (app_split_le x (p ++ y) u' (newline :: v)) as (m & -> & Em); [by rewrite <- Ep, E, <- app_assoc|lia|].
  destruct (app_split_le (m ++ [newline]) v p y) as (m' & -> & _); [by rewrite <- app_assoc; symmetry|rewrite blen_app; change (blen [newline]) with 1; rewrite blen_app in *; lia|].
  apply elem_of_app. left. apply elem_of_app. right. by left.
Qed.
Lemma with_vim_keeps t enabled mode op : well_formed t → keeps t (with_vim t enabled mode op).
Proof. intros Hw. by apply same_state_keeps. Qed.
Lemma enter_normal_keeps t : well_formed t → keeps t (enter_vim_normal_mode t).
Proof. intros Hw. unfold enter_vim_normal_mode. destruct (vim_enabled t); [by apply same_state_keeps|by apply keeps_refl]. Qed.
Lemma handle_vim_insert_keeps t event : well_formed t → has_post (handle_vim_insert t event) (keeps t).
Proof.
  intros Hw. unfold handle_vim_insert. destruct (ev_code event); try (by apply input_with_keymap_keeps).
  eapply has_post_bind; [by apply beginning_of_line_ok, Hw|]. intros b [Hb Hle]. apply has_post_ret. cbv zeta.
  eapply (keeps_trans _ (if b <? cursor_pos t then _ else _)); [|apply enter_normal_keeps].
  2: destruct (b <? cursor_pos t); [|done].
  all: destruct (prev_atomic_ok t (cursor_pos t) Hw (wf_cursor _ Hw)) as (Hp & Ho & _).
  all: assert (keeps t (with_cursor t (N.max (prev_atomic_boundary t (cursor_pos t)) b) (preferred_col t))) as Hk.
  1, 3: apply with_cursor_keeps; [done|by destruct (N.max_spec (prev_atomic_boundary t (cursor_pos t)) b) as [[_ ->]|[_ ->]]; [apply line_start_le|]|].
  1, 2: intros Hs _; destruct (N.max_spec (prev_atomic_boundary t (cursor_pos t)) b) as [[_ ->]|[_ ->]]; [by apply line_start_outside|done].
  - destruct (b <? cursor_pos t); [done|by apply keeps_refl].
  - apply Hk.
Qed.
Lemma insert_mode_keeps t : well_formed t → keeps t (insert_mode t).
Proof. intros Hw. by apply same_state_keeps. Qed.
Lemma set_cursor_insert_keeps t p : well_formed t → keeps t (insert_mode (set_cursor t p)).
Proof. intros Hw. pose proof (set_cursor_keeps t p Hw) as Hk. eapply keeps_trans; [exact Hk|apply insert_mode_keeps, Hk]. Qed.
Lemma cursor_insert_post t (o : option N) P : well_formed t → has_post o P → has_post (p ← o; Some (insert_mode (set_cursor t p))) (keeps t).
Proof. intros Hw Ho. eapply has_post_bind; [exact Ho|]. intros p _. by apply has_post_ret, set_cursor_insert_keeps. Qed.
Lemma open_below_keeps t : well_formed t → has_post (vim_open_line_below t) (keeps t).
Proof.
  intros Hw. unfold vim_open_line_below. eapply has_post_bind; [by apply end_of_line_ok, Hw|]. intros e _.
  apply (insert_then_keeps t _ _ (λ t', insert_mode (set_cursor t' (if e <? len t' then _ else _)))); [done|]. intros t' Ht'. by apply set_cursor_insert_keeps.
Qed.
Lemma open_above_keeps t : well_formed t → has_post (vim_open_line_above t) (keeps t).
Proof.
  intros Hw. unfold vim_open_line_above. eapply has_post_bind; [by apply beginning_of_line_ok, Hw|]. intros b _.
  apply (insert_then_keeps t _ _ (λ t', insert_mode (set_cursor t' b))); [done|]. intros t' Ht'. by apply set_cursor_insert_keeps.
Qed.
Lemma vim_word_end_ok t : well_formed t → has_post (vim_word_end_cursor t) (λ _, True).
Proof. intros Hw. unfold vim_word_end_cursor. eapply has_post_bind; [by apply next_word_ok|]. intros. by apply has_post_ret. Qed.
Lemma vim_line_end_ok t : well_formed t → has_post (vim_line_end_cursor t) (λ _, True).
Proof.
  intros Hw. unfold vim_line_end_cursor. eapply has_post_bind; [by apply beginning_of_line_ok, Hw|]. intros b _.
  eapply has_post_bind; [by apply end_of_line_ok, Hw|]. intros. by apply has_post_ret.
Qed.
Lemma line_start_post t : well_formed t → has_post (beginning_of_current_line t) (λ b, line_start (text t) b ∧ b <= cursor_pos t).
Proof. intros Hw. by apply beginning_of_line_ok, Hw. Qed.
Lemma line_end_post t : well_formed t → has_post (end_of_current_line t) (λ e, line_end t e ∧ cursor_pos t <= e).
Proof. intros Hw. by apply end_of_line_ok, Hw. Qed.
Lemma handle_vim_normal_keeps t event : well_formed t → has_post (handle_vim_normal t event) (keeps t).
Proof.
  intros Hw. unfold handle_vim_normal. destruct (vim_operator t) as [op|].
  { pose proof (with_vim_keeps t (vim_enabled t) (vim_mode t) None Hw) as Hk.
    eapply has_post_weaken; [apply handle_vim_operator_keeps, Hk|]. intros t' Ht'. by eapply keeps_trans. }
  unfold set_operator. by_keys.
  all: eauto using has_post_ret, insert_mode_keeps, set_cursor_insert_keeps, cursor_insert_post, line_start_post, line_end_post, first_non_blank_ok,
    open_below_keeps, open_above_keeps, move_cursor_left_keeps, move_cursor_right_keeps, move_cursor_up_keeps, move_cursor_down_keeps,
    set_cursor_post, next_word_start_ok, previous_word_ok, vim_word_end_ok, vim_line_end_ok, delete_forward_kill_keeps, kill_to_end_keeps,
    current_line_yank_keeps, paste_after_keeps, with_vim_keeps, keeps_refl.
Qed.
Lemma input_keeps t event : well_formed t → has_post (input t event) (keeps t).
Proof.
  intros Hw. unfold input. destruct (negb _); [by apply has_post_ret, keeps_refl|].
  destruct (vim_enabled t); [|by apply input_with_keymap_keeps]. destruct (vim_mode t); [by apply handle_vim_normal_keeps|by apply handle_vim_insert_keeps].
Qed.
End moves.

(** ** Lemmas: wrapped lines *)
Lemma leading_app p s : s = leading p s ++ drop (length (leading p s)) s.
Proof. induction s as [|c s IH]; cbn; [done|]. destruct (p c); cbn; [by rewrite <- IH|done]. Qed.
Lemma match_source_bound wrapped : ∀ a source saw,
  boundary (a ++ source) (match_source wrapped source (blen a) saw) ∧ blen a <= match_source wrapped source (blen a) saw.
Proof.
  induction wrapped as [|ch wrapped IH]; intros a source saw; cbn [match_source]; [split; [apply boundary_split|done]|].
  assert (∀ source, let r := if (ch =? 45) && bool_decide (wrapped = []) then match_source wrapped source (blen a) saw
            else if negb saw then match_source wrapped source (blen a) saw else blen a in
          boundary (a ++ source) r ∧ blen a <= r) as Hother.
  { intros source'. cbv zeta. destruct (_ && _); [apply IH|]. destruct (negb saw); [apply IH|]. split; [apply boundary_split|done]. }
  destruct source as [|src source]; [apply Hother|]. destruct (ch =? src); [|apply Hother].
  assert (blen a + clen src = blen (a ++ [src])) as -> by (rewrite blen_app; cbn; lia).
  destruct (IH (a ++ [src]) source true) as [Hb Hle]. rewrite <- app_assoc in Hb. split; [exact Hb|]. pose proof (blen_app a [src]). lia.
Qed.
Lemma map_owned_ok s cursor wrapped prefix : boundary s cursor →
  has_post (map_owned_wrapped_line_to_range s cursor wrapped prefix) (λ r, boundary s r.1 ∧ boundary s r.2 ∧ r.1 <= r.2).
Proof.
  intros Hc. unfold map_owned_wrapped_line_to_range. cbv zeta. set (w := if bool_decide _ then _ else _). clearbody w.
  apply (has_post_bind _ _ (λ source, ∃ a, s = a ++ source ∧ blen a = cursor)).
  { destruct Hc as (a & b & -> & <-). destruct (N.ltb_spec (blen a) (blen (a ++ b))) as [|Hge].
    - rewrite split_at_byte_app. exists b. split; [done|]. by exists a.
    - rewrite blen_app in Hge. assert (b = []) as -> by (apply blen_0; lia). apply has_post_ret. by exists a. }
  intros source (a & -> & <-). apply has_post_ret. cbn [fst snd].
  assert (∃ x y, source = x ++ y ∧ (if starts_with w (lit " ") then [] else leading is_space source) = x ∧
    drop (length x) source = y) as (x & y & -> & -> & ->).
  { destruct (starts_with w _); [by exists [], source|]. eexists _, _. split; [apply (leading_app is_space)|done]. }
  rewrite <- blen_app, app_assoc. destruct (match_source_bound w (a ++ x) y false) as [Hb Hle].
  split_and!; [apply boundary_split|exact Hb|exact Hle].
Qed.
Lemma wrap_lines_ok s lines cursor : boundary s cursor →
  (∀ a b l, Borrowed (Some (a, b)) l ∈ lines → boundary s a ∧ boundary s b ∧ a <= b) →
  has_post (wrap_lines s lines cursor) (lines_ok s).
Proof.
  revert cursor. induction lines as [|line lines IH]; intros cursor Hc Hl; cbn [wrap_lines]; [apply has_post_ret; constructor|].
  apply (has_post_bind _ _ (λ r, boundary s r.1 ∧ boundary s r.2 ∧ r.1 <= r.2)).
  { destruct line as [[[a b]|] l|l]; [apply has_post_ret; apply (Hl a b l); by left|by apply map_owned_ok..]. }
  intros [start stop] (H1 & H2 & Hle). cbn [fst snd] in *. destruct H2 as (a & b & -> & <-). rewrite split_at_byte_app. cbn [fmap option_fmap option_map mbind option_bind snd].
  assert (boundary (a ++ b) (blen a + blen (leading is_space b))) as Hb.
  { apply boundary_app_r. rewrite (leading_app is_space b) at 1. apply boundary_split. }
  eapply has_post_bind; [apply IH; [done|]; intros x y l Hin; apply (Hl x y l); by right|]. intros rest Hrest. apply has_post_ret.
  constructor; [|exact Hrest]. cbn. rewrite N.add_sub. split_and!; [done|done|lia].
Qed.

(** ** Lemmas: operations on elements and on the whole text *)
Definition range_room (t : TextArea) (i j : N) : Prop :=
  boundary (text t) i ∧ boundary (text t) j ∧ i <= j ∧ Forall (λ e, e_end e <= i ∨ j <= e_start e) (elements t).
Section on_elements.
Context {U : Unicode}.
Lemma add_element_formed t i j name : well_formed t → range_room t i j → well_formed (add_element_with_id t (i, j) name).1.
Proof.
  intros [Hc [Hp Ha] Hca] (Hi & Hj & Hle & Hr). split; [done| |done]. cbn. split.
  - apply Forall_forall. intros e He. rewrite sort_by_start_elem in He. rewrite Forall_forall in Hp.
    apply elem_of_app in He as [He|He%list_elem_of_singleton]; [by apply Hp|by subst e].
  - apply sort_pairs; [apply apart_sym|]. by apply pairs_snoc.
Qed.
Lemma filter_formed t f : well_formed t → well_formed (with_elements t (List.filter f (elements t)) (next_element_id t)).
Proof.
  intros [Hc [Hp Ha] Hca]. split; [done| |done]. split; [|by apply pairs_filter]. cbn. rewrite Forall_forall in Hp |- *.
  intros e [He _]%list_elem_of_In%List.filter_In. by apply Hp, list_elem_of_In.
Qed.
Lemma edited_room t t' a r ins b : edited t t' a r ins b → range_room t' (blen a) (blen a + blen ins).
Proof.
  intros Hed. unfold range_room. rewrite (ed_after _ _ _ _ _ _ Hed). split_and!; [apply boundary_split| |lia|apply Hed].
  rewrite app_assoc, <- blen_app. apply boundary_split.
Qed.
Lemma element_uncut t e : well_formed t → e ∈ elements t → Forall (uncut (e_start e) (e_end e)) (elements t).
Proof.
  intros Hw He. destruct (wf_elements _ Hw) as [_ Ha]. apply Forall_forall. intros e' He'. unfold uncut.
  destruct (pairs_elim _ _ e e' apart_sym Ha He He') as [->|[?|?]]; lia.
Qed.
Lemma find_named_elem t id e : find_named t id = Some e → e ∈ elements t.
Proof. intros [He _]%List.find_some. by apply list_elem_of_In. Qed.
(** Replacing an element's text leaves room for an element of the new text. *)
Lemma replace_element_ok t e s : well_formed t → e ∈ elements t →
  has_post (replace_range_raw t (e_start e, e_end e) s) (λ t', well_formed t' ∧ range_room t' (e_start e) (e_start e + blen s)).
Proof.
  intros Hw He. pose proof (element_uncut t e Hw He) as Hu. destruct (edges_placed _ _ _ (wf_elements _ Hw) He) as (H1 & H2 & H3).
  eapply has_post_weaken; [by apply replace_range_raw_ok|]. cbn. intros t' [(E & -> & ->)|(a & r & b & <- & _ & Hed)].
  - split; [done|]. cbn. rewrite N.add_0_r. split_and!; [done|done|done|]. eapply Forall_impl; [exact Hu|]. intros e'. unfold uncut. lia.
  - split; [apply Hed|by eapply edited_room].
Qed.
Lemma insert_named_ok t s name : well_formed t →
  has_post (t' ← insert_str_at t (clamp_pos_for_insertion t (cursor_pos t)) s;
    Some (add_element_with_id t' (clamp_pos_for_insertion t (cursor_pos t), clamp_pos_for_insertion t (cursor_pos t) + blen s) name).1) well_formed.
Proof.
  intros Hw. set (start := clamp_pos_for_insertion t (cursor_pos t)).
  destruct (nearest_edge_ok (text t) (elements t) (cursor_pos t) (wf_elements _ Hw)) as [Hb Ho].
  assert (clamp_pos_for_insertion t start = start) as Hid by by apply nearest_edge_id.
  eapply has_post_bind; [by apply insert_str_at_ok|]. intros t' (a & b & Ea & Hed). rewrite Hid in Ea. apply has_post_ret.
  apply add_element_formed; [apply Hed|]. rewrite <- Ea. by eapply edited_room.
Qed.
Lemma pairs_app {A} (R : A → A → Prop) l k : ForallOrdPairs R (l ++ k) ↔
  ForallOrdPairs R l ∧ ForallOrdPairs R k ∧ ∀ x y, x ∈ l → y ∈ k → R x y.
Proof.
  induction l as [|a l IH]; cbn.
  - split; [|by intros (_ & ? & _)]. intros Hk. split_and!; [constructor|done|]. by intros x y ?%elem_of_nil.
  - split.
    + inversion 1 as [|? ? Ha Hp]; subst. apply Forall_app in Ha as [Hal Hak]. apply IH in Hp as (Hl & Hk & Hlk).
      split_and!; [by constructor|done|]. rewrite Forall_forall in Hak. intros x y [->|Hx]%elem_of_cons Hy; auto.
    + intros (Hl & Hk & Hlk). inversion Hl as [|? ? Ha Hp]; subst. constructor.
      * apply Forall_app. split; [done|]. apply Forall_forall. intros y Hy. apply Hlk; [by left|done].
      * apply IH. split_and!; [done|done|]. intros x y Hx. apply Hlk. by right.
Qed.
Lemma elements_ok_moved s es l1 e l2 f x e' :
  es = l1 ++ e :: l2 → elements_ok s es → placed x e' →
  (∀ y, y ∈ l1 ++ l2 → placed x (f y)) →
  (∀ y, y ∈ l1 ++ l2 → apart e' (f y)) →
  (∀ y z, y ∈ l1 ++ l2 → z ∈ l1 ++ l2 → apart y z → apart (f y) (f z)) →
  elements_ok x ((f <$> l1) ++ e' :: (f <$> l2)).
Proof.
  intros -> [_ Ha] He' Hp Hap Hff. apply pairs_app in Ha as (H1 & H2 & H12). inversion H2 as [|? ? He2 Hl2]; subst.
  assert (∀ y, y ∈ l1 → y ∈ l1 ++ l2) as S1 by (intros; apply elem_of_app; by left).
  assert (∀ y, y ∈ l2 → y ∈ l1 ++ l2) as S2 by (intros; apply elem_of_app; by right).
  assert (∀ l, (∀ y, y ∈ l → y ∈ l1 ++ l2) → ForallOrdPairs apart l → ForallOrdPairs apart (f <$> l)) as Hmap.
  { intros l Hl. apply (pairs_fmap _ (λ y, y ∈ l1 ++ l2)); [auto|]. by apply Forall_forall. }
  split.
  - apply Forall_app. split; [|constructor; [done|]]; apply Forall_fmap, Forall_forall; cbn; auto.
  - apply pairs_app. split_and!; [by apply Hmap| |].
    + constructor; [|by apply Hmap]. apply Forall_fmap, Forall_forall. cbn. auto.
    + intros y z (y' & -> & Hy)%list_elem_of_fmap [->|(z' & -> & Hz)%list_elem_of_fmap]%elem_of_cons.
      * apply apart_sym. auto.
      * apply Hff; auto. apply H12; [done|]. by right.
Qed.
Lemma shift_around_spliced a r ins e : e_end e <= blen a ∨ blen a + blen r <= e_start e → e_start e <= e_end e →
  (if blen ins =? blen r then e else shift_around (blen a) (blen a + blen r) (blen ins) e) = spliced a r ins e.
Proof.
  intros Hc Hle. unfold shift_around, spliced. destruct (N.eqb_spec (blen ins) (blen r)) as [E|E].
  - destruct (_ <=? _); [done|]. rewrite E, !N.add_sub. by destruct e.
  - destruct (N.leb_spec (e_end e) (blen a)); [done|]. destruct (N.leb_spec (blen a + blen r) (e_start e)); [|lia]. f_equal; lia.
Qed.
Lemma imap_around l1 e l2 (f : nat → TextElement → TextElement) g e' :
  f (length l1) e = e' → (∀ i x, i ≠ length l1 → x ∈ l1 ++ l2 → f i x = g x) →
  imap f (l1 ++ e :: l2) = (g <$> l1) ++ e' :: (g <$> l2).
Proof.
  intros He Hg. rewrite imap_app, imap_cons, Nat.add_0_r, He. f_equal; [|f_equal]; rewrite <- (imap_const g); apply imap_ext; cbn.
  - intros i x Hx. apply Hg; [by apply lookup_lt_Some in Hx; lia|]. apply elem_of_app. left. by eapply list_elem_of_lookup_2.
  - intros i x Hx. apply Hg; [lia|]. apply elem_of_app. right. by eapply list_elem_of_lookup_2.
Qed.
Lemma apart_from s l1 e l2 y : elements_ok s (l1 ++ e :: l2) → y ∈ l1 ++ l2 → apart e y ∧ placed s y.
Proof.
  intros [Hp Ha] Hy. apply pairs_app in Ha as (_ & H2 & H12). inversion H2 as [|? ? He2 _]; subst. rewrite Forall_forall in He2, Hp. split.
  - apply elem_of_app in Hy as [Hy|Hy]; [apply apart_sym, H12; [done|by left]|auto].
  - apply Hp. apply elem_of_app in Hy as [Hy|Hy]; apply elem_of_app; [by left|right; by right].
Qed.
Lemma replace_payload_formed t old new : well_formed t → has_post (replace_element_payload t old new) (λ r, well_formed r.1).
Proof.
  intros Hw. unfold replace_element_payload. destruct (list_find _ (elements t)) as [[idx e]|] eqn:Ef; [|by apply has_post_ret].
  apply list_find_Some in Ef as (Hidx & Hpay & _). cbv zeta. destruct (_ || _); [by apply has_post_ret|].
  apply slice_Some in Hpay as (a & b & Et & Ea & Eb). rewrite <- Eb, <- Ea, Et, replace_bytes_spec. cbn [mbind option_bind].
  apply has_post_ret. cbn [fst]. pose proof (wf_elements _ Hw) as Hes. rewrite Et in Hes.
  destruct (list_elem_of_split_length _ _ _ Hidx) as (l1 & l2 & El & Elen). pose proof Hes as Hes0. rewrite El in Hes0.
  assert (∀ y, y ∈ l1 ++ l2 → (e_end y <= blen a ∨ blen a + blen old <= e_start y) ∧ placed (a ++ old ++ b) y) as Hy.
  { intros y Hy. destruct (apart_from _ _ _ _ _ Hes0 Hy) as [Hap Hpl]. split; [|done]. unfold apart in Hap. rewrite Eb, Ea. tauto. }
  set (es := imap _ (elements t)).
  assert (es = (spliced a old new <$> l1) ++ moved e (blen a) (blen a + blen new) :: (spliced a old new <$> l2)) as Ees.
  { unfold es. rewrite El. apply imap_around.
    - by rewrite bool_decide_eq_true_2.
    - intros i x Hi Hx. cbv beta. rewrite bool_decide_eq_false_2 by congruence. destruct (Hy x Hx) as [Hc (_ & _ & Hle)].
      replace (blen a + blen old - blen a) with (blen old) by lia. by apply shift_around_spliced. }
  assert (elements_ok (a ++ new ++ b) es) as Hok.
  { rewrite Ees. eapply (elements_ok_moved _ (elements t)); [exact El|exact Hes| | | |].
    - unfold placed. cbn. split_and!; [apply boundary_split| |lia]. rewrite app_assoc, <- blen_app. apply boundary_split.
    - intros y Hin. destruct (Hy y Hin). by apply (spliced_element a old new b).
    - intros y Hin. destruct (Hy y Hin) as [Hc (_ & _ & Hle)]. unfold apart, spliced. cbn. compare_all; cbn; lia.
    - intros y z Hy' Hz'. destruct (Hy y Hy') as [Hc (_ & _ & Hle)], (Hy z Hz') as [Hc' (_ & _ & Hle')].
      unfold apart, spliced. compare_all; cbn; lia. }
  split; [|cbn|done].
  - cbn. by apply nearest_edge_ok.
  - destruct Hok as [Hp Ha]. split; [|by apply sort_pairs; [apply apart_sym|]]. apply Forall_forall. intros x Hx.
    rewrite sort_by_start_elem in Hx. rewrite Forall_forall in Hp. by apply Hp.
Qed.
Lemma push_elements_placed s ranges es next : Forall (placed s) es → Forall (placed s) (push_elements s ranges es next).1.
Proof.
  revert es next. induction ranges as [|[i j] ranges IH]; intros es next Hes; cbn; [done|]. cbv zeta. compare_all; [by apply IH|].
  apply IH, Forall_app. split; [done|]. constructor; [|done]. unfold placed. cbn. split_and!; [apply clamp_char_boundary..|lia].
Qed.
Lemma add_range_formed t range : well_formed t → well_formed (add_element_range t range).1.
Proof.
  intros Hw. unfold add_element_range, clamped_range. cbv beta iota.
  set (i := clamp_pos_to_char_boundary _ (N.min range.1 _)). set (j := clamp_pos_to_char_boundary _ _).
  destruct (N.leb_spec j i); [done|]. destruct (existsb _ _); [done|]. destruct (existsb _ (elements t)) eqn:Eo; [done|].
  apply (add_element_formed t i j None Hw). split_and!; [apply clamp_char_boundary..|lia|]. apply Forall_forall. intros e He.
  apply not_true_iff_false in Eo. rewrite existsb_exists in Eo.
  destruct (N.leb_spec (e_end e) i), (N.leb_spec j (e_start e)); try lia. exfalso. apply Eo. exists e. split; [by apply list_elem_of_In|].
  apply andb_true_iff. by split; apply N.ltb_lt.
Qed.
Lemma remove_range_formed t range : well_formed t → well_formed (remove_element_range t range).1.
Proof. intros Hw. unfold remove_element_range. destruct (clamped_range t range) as [i j]. destruct (_ <=? _); [done|]. by apply filter_formed. Qed.
End on_elements.

(** ** The operations of a text area *)
Inductive operation :=
| OInput (event : KeyEvent) | OInputWithKeymap (event : KeyEvent) (keymap : EditorKeymap)
| OInsertStr (s : rstring) | OInsertStrAt (pos : N) (s : rstring) | OReplaceRange (range : N * N) (s : rstring) | OSetCursor (pos : N)
| OSetText (s : rstring) | OSetTextWithElements (s : rstring) (ranges : list (N * N))
| OInsertElement (s : rstring) | OInsertNamedElement (s id : rstring) | OReplaceElementById (id s : rstring)
| OUpdateNamedElementById (id s : rstring) | OReplaceElementPayload (old new : rstring)
| OAddElementRange (range : N * N) | ORemoveElementRange (range : N * N)
| OWrappedLines (width : N)
| OSetVimEnabled (enabled : bool) | OEnterVimInsert | OEnterVimNormal | OSetKeymap (keymap : RuntimeKeymap)
| ODeleteBackward (n : nat) | ODeleteForward (n : nat) | ODeleteForwardKill (n : nat) | ODeleteBackwardWord | ODeleteForwardWord
| OKillToEnd | OKillToBeginning | OYank | OMoveLeft | OMoveRight | OMoveUp | OMoveDown
| OMoveToBeginning (move_up_at_bol : bool) | OMoveToEnd (move_down_at_eol : bool).
Section operations.
Context {U : Unicode}.
Definition run (o : operation) (t : TextArea) : option TextArea :=
  match o with
  | OInput event => input t event
  | OInputWithKeymap event keymap => input_with_keymap t event keymap
  | OInsertStr s => insert_str t s
  | OInsertStrAt pos s => insert_str_at t pos s
  | OReplaceRange range s => replace_range t range s
  | OSetCursor pos => Some (set_cursor t pos)
  | OSetText s => Some (set_text_clearing_elements t s)
  | OSetTextWithElements s ranges => Some (set_text_with_elements t s ranges)
  | OInsertElement s => fst <$> insert_element t s
  | OInsertNamedElement s id => insert_named_element t s id
  | OReplaceElementById id s => fst <$> replace_element_by_id t id s
  | OUpdateNamedElementById id s => fst <$> update_named_element_by_id t id s
  | OReplaceElementPayload old new => fst <$> replace_element_payload t old new
  | OAddElementRange range => Some (add_element_range t range).1
  | ORemoveElementRange range => Some (remove_element_range t range).1
  | OWrappedLines w => fst <$> wrapped_lines t w
  | OSetVimEnabled enabled => Some (set_vim_enabled t enabled)
  | OEnterVimInsert => Some (enter_vim_insert_mode t)
  | OEnterVimNormal => Some (enter_vim_normal_mode t)
  | OSetKeymap keymap => Some (set_keymap_bindings t keymap)
  | ODeleteBackward n => delete_backward t n
  | ODeleteForward n => delete_forward t n
  | ODeleteForwardKill n => delete_forward_kill t n
  | ODeleteBackwardWord => delete_backward_word t
  | ODeleteForwardWord => delete_forward_word t
  | OKillToEnd => kill_to_end_of_line t
  | OKillToBeginning => kill_to_beginning_of_line t
  | OYank => yank t
  | OMoveLeft => Some (move_cursor_left t)
  | OMoveRight => Some (move_cursor_right t)
  | OMoveUp => move_cursor_up t
  | OMoveDown => move_cursor_down t
  | OMoveToBeginning up => move_cursor_to_beginning_of_line t up
  | OMoveToEnd down => move_cursor_to_end_of_line t down
  end.
(** What two operations ask of their caller: a range of whole characters, and elements that
    do not overlap. *)
Definition allowed (o : operation) (t : TextArea) : Prop :=
  match o with
  | OReplaceRange range _ => range.1 <= range.2 ∧ boundary (text t) range.1 ∧ boundary (text t) range.2
  | OSetTextWithElements s ranges => ForallOrdPairs apart (push_elements s ranges [] (next_element_id t)).1
  | _ => True
  end.
Inductive reachable (defaults : RuntimeKeymap) : TextArea → Prop :=
| reachable_new : reachable defaults (new defaults)
| reachable_run o t t' : reachable defaults t → allowed o t → run o t = Some t' → reachable defaults t'.
End operations.
Section runs.
Context {U : Unicode} `{!UnicodeLaws U}.
Lemma keeps_formed m t : has_post m (keeps t) → has_post m well_formed.
Proof. intros Hm. eapply has_post_weaken; [exact Hm|]. intros t' Ht'. apply Ht'. Qed.
Lemma wrapped_lines_formed t w : well_formed t → has_post (fst <$> wrapped_lines t w) well_formed.
Proof.
  intros Hw. assert (has_post (lines ← wrap_ranges (text t) w; Some (with_cache t (Some (mk_cache w lines)), lines)) (λ r, well_formed r.1)) as Hh.
  { destruct (wrap_lines_ok (text t) (textwrap_wrap (text t) w) 0) as (lines & E & Hl); [apply boundary_0|intros a b l; apply textwrap_ok|].
    unfold wrap_ranges. rewrite E. apply has_post_ret. split; [apply Hw|apply Hw|]. cbn. by intros c [= <-]. }
  apply (has_post_fmap _ _ (λ r, well_formed r.1)); [|done]. unfold wrapped_lines. destruct (wrap_cache t) as [c|]; [|exact Hh].
  destruct (_ =? _); [by apply has_post_ret|exact Hh].
Qed.
Lemma set_text_formed t s ranges : well_formed t →
  match ranges with Some ranges => ForallOrdPairs apart (push_elements s ranges [] (next_element_id t)).1 | None => True end →
  well_formed (set_text_inner t s ranges).
Proof.
  intros Hw Ha. unfold set_text_inner.
  assert (∀ es next, elements_ok s es → well_formed (with_elements (with_draft t s (nearest_edge s es (N.min (cursor_pos t) (blen s))) es) es next)) as Hd.
  { intros es next Hes. split; [by apply nearest_edge_ok|done|done]. }
  destruct ranges as [ranges|]; [|by apply Hd; split; constructor]. pose proof (push_elements_placed s ranges [] (next_element_id t) ltac:(constructor)) as Hp.
  destruct (push_elements s ranges [] (next_element_id t)) as [es next]. cbn [fst] in *. apply Hd. split.
  - rewrite Forall_forall in Hp |- *. intros e He. rewrite sort_by_start_elem in He. by apply Hp.
  - by apply sort_pairs; [apply apart_sym|].
Qed.
Lemma set_cursor_formed t p : well_formed t → well_formed (set_cursor t p).
Proof. intros Hw. by apply set_cursor_keeps. Qed.
Lemma run_formed o t : well_formed t → allowed o t → has_post (run o t) well_formed.
Proof.
  intros Hw Ha. destruct o; cbn [run allowed] in *;
    try (eapply keeps_formed; eauto using input_keeps, input_with_keymap_keeps, insert_str_at_keeps, delete_backward_keeps, delete_forward_keeps,
      delete_forward_kill_keeps, delete_backward_word_keeps, delete_forward_word_keeps, kill_to_end_keeps, kill_to_beginning_keeps, yank_keeps,
      move_cursor_up_keeps, move_cursor_down_keeps, to_beginning_keeps, to_end_keeps, has_post_ret, set_cursor_keeps, move_cursor_left_keeps,
      move_cursor_right_keeps, with_vim_keeps, enter_normal_keeps; fail).
  - destruct Ha as (? & ? & ?). by apply (keeps_formed _ t), replace_range_keeps.
  - by apply has_post_ret, set_text_formed.
  - by apply has_post_ret, set_text_formed.
  - pose proof (insert_named_ok t s None Hw) as (t2 & E & Ht2). unfold insert_element, add_element.
    destruct (insert_str_at t _ s) as [t1|]; [|done]. cbn in E. simplify_eq. apply has_post_ret. by apply set_cursor_formed.
  - pose proof (insert_named_ok t s (Some id) Hw) as (t2 & E & Ht2). unfold insert_named_element.
    destruct (insert_str_at t _ s) as [t1|]; [|done]. cbn in E. simplify_eq. apply has_post_ret. by apply set_cursor_formed.
  - unfold replace_element_by_id. destruct (find_named t id) as [e|] eqn:E; [|by apply has_post_ret].
    apply (has_post_fmap _ _ (λ r, well_formed r.1)); [|done]. eapply has_post_bind; [by eapply replace_element_ok, find_named_elem|].
    intros t' [Hw' _]. apply has_post_ret. by apply filter_formed.
  - unfold update_named_element_by_id. destruct (find_named t id) as [e|] eqn:E; [|by apply has_post_ret].
    apply (has_post_fmap _ _ (λ r, well_formed r.1)); [|done]. eapply has_post_bind; [by eapply replace_element_ok, find_named_elem|].
    intros t' [Hw' Hr]. apply has_post_ret. by apply add_element_formed.
  - apply (has_post_fmap _ _ (λ r, well_formed r.1)); [|done]. by apply replace_payload_formed.
  - by apply has_post_ret, add_range_formed.
  - by apply has_post_ret, remove_range_formed.
  - by apply wrapped_lines_formed.
  - unfold enter_vim_insert_mode. apply has_post_ret. destruct (vim_enabled t); [by apply with_vim_keeps|done].
  - apply has_post_ret. by destruct Hw.
Qed.
Lemma reachable_formed defaults t : reachable defaults t → well_formed t.
Proof.
  induction 1 as [|o t t' _ IH Ha Hr].
  - split; [apply boundary_0|split; constructor|done].
  - destruct (run_formed o t IH Ha) as (t'' & E & Hw). congruence.
Qed.
End runs.

(** ** Lemmas: yanking back what was killed *)
Inductive kill_command := KillToEnd | KillToBeginning | KillPreviousWord | KillNextWord | KillLine | KillForward (n : nat).
Definition run_kill {U : Unicode} (c : kill_command) (t : TextArea) : option TextArea :=
  match c with
  | KillToEnd => kill_to_end_of_line t
  | KillToBeginning => kill_to_beginning_of_line t
  | KillPreviousWord => delete_backward_word t
  | KillNextWord => delete_forward_word t
  | KillLine => kill_current_line t
  | KillForward n => delete_forward_kill t n
  end.
(** Nothing was killed; or a yank brings the killed text back to its place, and,
    after the draft has been cleared, to the empty draft. *)
Definition restorable (t t' : TextArea) : Prop :=
  t' = t ∨ ∃ a killed b, killed ≠ [] ∧ text t = a ++ killed ++ b ∧ text t' = a ++ b ∧
    has_post (yank t') (λ t'', text t'' = text t ∧ cursor_pos t'' = blen (a ++ killed)) ∧
    has_post (yank (set_text_clearing_elements t' [])) (λ t'', text t'' = killed).
Section kill_yank.
Context {U : Unicode} `{!UnicodeLaws U}.
Lemma insert_exactly t a b s : well_formed t → text t = a ++ b → outside (elements t) (blen a) → cursor_pos t = blen a →
  has_post (insert_str t s) (λ t', text t' = a ++ s ++ b ∧ cursor_pos t' = blen (a ++ s)).
Proof using Type.
  intros Hw Et Ho Ec. unfold insert_str, insert_str_at, clamp_pos_for_insertion. rewrite Ec, nearest_edge_id; [|rewrite Et; apply boundary_split|done].
  rewrite Et, insert_at_spec. cbn [mbind option_bind]. apply has_post_ret. cbn. rewrite (proj2 (N.leb_le _ _)) by done.
  by rewrite blen_app.
Qed.
Lemma kill_restorable t range kind : well_formed t → boundary (text t) range.1 → boundary (text t) range.2 →
  range.1 <= cursor_pos t → cursor_pos t <= range.2 → has_post (kill_range_with_kind t range kind) (restorable t).
Proof using Type.
  intros Hw H1 H2 Hc1 Hc2. eapply has_post_weaken; [by apply kill_range_ok|].
  intros t' [[-> _]|(a & r & b & Hr & Ha & Hb & Hk & _ & Hed)]; [by left|]. right. exists a, r, b.
  pose proof (ed_before _ _ _ _ _ _ Hed) as Et. pose proof (ed_after _ _ _ _ _ _ Hed) as Et'. cbn in Et, Et'.
  pose proof (k_formed _ _ (ed_keeps _ _ _ _ _ _ Hed)) as Hw'.
  assert (cursor_pos t' = blen a) as Ec.
  { rewrite (ed_cursor _ _ _ _ _ _ Hed); cbn; lia. }
  split_and!; [done|done|done| |]; unfold yank.
  - rewrite Hk, bool_decide_eq_false_2 by done. rewrite Et. apply insert_exactly; [done|done| |done].
    eapply Forall_impl; [apply (ed_room _ _ _ _ _ _ Hed)|]. cbn. intros e. lia.
  - change (kill_buffer (set_text_clearing_elements t' [])) with (kill_buffer t'). rewrite Hk, bool_decide_eq_false_2 by done.
    eapply has_post_weaken; [apply (insert_exactly _ [] [] r)|].
    + by apply (set_text_formed t' [] None).
    + done.
    + constructor.
    + unfold set_text_clearing_elements, set_text_inner. cbn. rewrite N.min_0_r. apply clamp_char_id, boundary_0.
    + cbn. intros t'' [-> _]. by rewrite app_nil_r.
Qed.
Lemma refl_restorable t : has_post (Some t) (restorable t).
Proof using Type. apply has_post_ret. by left. Qed.
Lemma run_kill_restorable c t : well_formed t → has_post (run_kill c t) (restorable t).
Proof.
  intros Hw. pose proof (wf_cursor _ Hw) as Hc. destruct c; cbn [run_kill].
  - unfold kill_to_end_of_line. eapply has_post_bind; [by apply end_of_line_ok|]. intros e [[He Hn] Hle].
    destruct (N.eqb_spec (cursor_pos t) e) as [<-|]; [destruct (N.ltb_spec (cursor_pos t) (len t)); [|apply refl_restorable]|];
      apply kill_restorable; cbn; try done; try lia. by apply Hn.
  - unfold kill_to_beginning_of_line. eapply has_post_bind; [by apply beginning_of_line_ok|]. intros b [Hb Hle].
    destruct (N.eqb_spec (cursor_pos t) b) as [<-|]; [destruct (N.ltb_spec 0 (cursor_pos t)); [|apply refl_restorable]|];
      apply kill_restorable; cbn; try done; try lia; [apply line_start_pred; [done|lia]|by apply line_start_le].
  - unfold delete_backward_word. eapply has_post_bind; [by apply previous_word_ok|]. intros p [Hp Hle]. by apply kill_restorable.
  - unfold delete_forward_word. eapply has_post_bind; [by apply next_word_ok|]. intros p [Hp Hle].
    destruct (_ <? _); [by apply kill_restorable|apply refl_restorable].
  - unfold kill_current_line. eapply has_post_bind; [by apply current_line_range_ok|]. intros r (H1%line_start_le & H2 & H3 & H4). by apply kill_restorable.
  - unfold delete_forward_kill. destruct (_ || _); [apply refl_restorable|]. destruct (forward_target_ok t n Hw). by apply kill_restorable.
Qed.
End kill_yank.

Lemma starts_up_to_length lines pos : (starts_up_to lines pos ≤ length lines)%nat.
Proof. induction lines as [|r lines IH]; cbn; [done|]. destruct (_ <=? _); lia. Qed.
Lemma line_index_lt lines pos i : wrapped_line_index_by_start lines pos = Some i → (i < length lines)%nat.
Proof.
  unfold wrapped_line_index_by_start. pose proof (starts_up_to_length lines pos). destruct (starts_up_to lines pos); [done|]. intros [= <-]. lia.
Qed.
(** ** Properties *)
(** C39: the row of the cursor is on the screen.  With fewer than 65536 wrapped lines, whatever was scrolled
    to before, the arithmetic does not overflow, the rows shown from the answer on
    contain the row of the cursor, nothing is scrolled if all fits, and no rows are
    left empty at the end otherwise. *)
Theorem cursor_stays_on_screen (t : TextArea) (height current : N) (lines : list (N * N)) (i : nat) :
  0 < height → N.of_nat (length lines) < 2^16 → wrapped_line_index_by_start lines (cursor_pos t) = Some i →
  has_post (effective_scroll t height lines current) (λ scroll,
    scroll <= N.of_nat i ∧ N.of_nat i < scroll + height ∧
    (N.of_nat (length lines) <= height → scroll = 0) ∧ (height < N.of_nat (length lines) → scroll + height <= N.of_nat (length lines))).
Proof.
  intros Hh Hl Hi. pose proof (line_index_lt _ _ _ Hi). unfold effective_scroll, as_u16, u16_add. rewrite Hi. unfold default, id.
  rewrite !N.mod_small by lia. cbv zeta.
  do 3 (compare_all; cbn [mbind option_bind]; try lia; try (apply has_post_ret; lia)).
Qed.
Section properties.
Context {U : Unicode} `{!UnicodeLaws U}.
(** C31: the text area does not panic when it is used as it asks to be.  Every operation, run in
    any state that such operations lead to from a new text area, ends without a panic in a well-formed
    state: the cursor and both ends of every element are on character boundaries of the text,
    elements do not overlap, and the wrapped lines kept are those that wrapping the present text
    at their width gives, each from one character boundary to another.  Two operations ask
    something of their caller ([allowed]): a range to replace lies within the text with both ends on
    character boundaries ([ranges_past_the_end_panic] shows what happens otherwise), and elements
    set together with a text do not overlap.  Of the Unicode and wrapping crates it is asked
    that their positions are on character boundaries ([UnicodeLaws]). *)
Theorem text_area_never_panics (defaults : RuntimeKeymap) (t : TextArea) (o : operation) :
  reachable defaults t → allowed o t → has_post (run o t) well_formed.
Proof. intros Hr. apply run_formed. by eapply reachable_formed. Qed.

(** C32: keys treat elements as units.  A key, with any bindings and in either mode, keeps
    each element with its text or removes it, and leaves the cursor outside of
    elements of one line if it was. *)
Theorem keys_keep_elements_whole (defaults : RuntimeKeymap) (t : TextArea) (event : KeyEvent) :
  reachable defaults t →
  has_post (input t event) (λ t', whole t t' ∧ (single_line t → cursor_outside t → cursor_outside t')).
Proof.
  intros Hr. eapply has_post_weaken; [eapply input_keeps, reachable_formed, Hr|]. intros t' [_ Hw Ho]. done.
Qed.

(** What is killed can be yanked back.  After a kill a yank restores the text, with
    the cursor after what was killed; and the killed text survives the clearing of the draft. *)
Theorem kills_can_be_yanked_back (defaults : RuntimeKeymap) (t : TextArea) (c : kill_command) :
  reachable defaults t → has_post (run_kill c t) (restorable t).
Proof. intros Hr. eapply run_kill_restorable, reachable_formed, Hr. Qed.
End properties.

(** ** A simple library, and examples
    Every character is a grapheme of width one, a text is one word segment, and lines are not wrapped. *)
Module Demo.
Fixpoint chars_at (n : N) (s : rstring) : list (N * rstring) := match s with [] => [] | c :: s => (n, [c]) :: chars_at (n + clen c) s end.
#[export] Instance unicode : Unicode :=
  {| prev_boundary s n := CursorOk (if n =? 0 then None else Some (boundary_below s (N.to_nat (n - 1)) (n - 1)));
     next_boundary s n := CursorOk (if blen s <=? n then None else Some (boundary_above s (N.to_nat (blen s - (n + 1))) (n + 1)));
     grapheme_indices := chars_at 0;
     split_word_bound_indices s := [(0, s)];
     width s := N.of_nat (length s);
     textwrap_wrap s _ := [Borrowed (Some (0, blen s)) s] |}.
Lemma below_le s fuel n : boundary_below s fuel n <= n.
Proof. revert n. induction fuel as [|fuel IH]; intros n; cbn; [done|]. destruct (_ && _); [|done]. specialize (IH (n - 1)). lia. Qed.
Lemma above_ge s fuel n : n <= boundary_above s fuel n.
Proof. revert n. induction fuel as [|fuel IH]; intros n; cbn; [done|]. destruct (_ && _); [|done]. specialize (IH (n + 1)). lia. Qed.
Lemma chars_at_parts a s : Forall (part_at (a ++ s)) (chars_at (blen a) s).
Proof.
  revert a. induction s as [|c s IH]; intros a; cbn; constructor; [by exists a, s|].
  specialize (IH (a ++ [c])). rewrite <- app_assoc, blen_app in IH. cbn in IH. by rewrite N.add_0_r in IH.
Qed.
#[export] Instance unicode_laws : UnicodeLaws unicode.
Proof.
  split.
  - intros s n Hb. cbn. destruct (N.eqb_spec n 0); [done|]. split; [apply boundary_below_spec; lia|].
    pose proof (below_le s (N.to_nat (n - 1)) (n - 1)). lia.
  - intros s n Hb. cbn. destruct (N.leb_spec (blen s) n); [done|]. split; [apply boundary_above_spec; lia|].
    pose proof (above_ge s (N.to_nat (blen s - (n + 1))) (n + 1)). lia.
  - intros s part Hp. pose proof (chars_at_parts [] s) as Hf. rewrite Forall_forall in Hf. by apply Hf.
  - intros s part ->%list_elem_of_singleton. exists [], []. by rewrite app_nil_r.
  - intros s w a b l [= -> -> _]%list_elem_of_singleton. split_and!; [apply boundary_0|apply boundary_end|lia].
Defined.
Definition ctrl (c : char) : list KeyBinding := [mk_binding (KChar c) CONTROL].
Definition plain (c : char) : list KeyBinding := [mk_binding (KChar c) NONE].
Definition keys : RuntimeKeymap :=
  mk_keymap
    (mk_editor (plain newline) (ctrl 98) (ctrl 102) (ctrl 112) (ctrl 110) [] [] (ctrl 97) (ctrl 101) (ctrl 104) (ctrl 100) (ctrl 119) [] (ctrl 117) []
       (ctrl 107) (ctrl 121))
    (mk_normal (plain 105) (plain 97) [] [] (plain 111) [] (plain 104) (plain 108) (plain 107) (plain 106) (plain 119) (plain 98) (plain 101)
       (plain 48) (plain 36) (plain 120) [] [] (plain 112) (plain 100) (plain 121) [])
    (mk_operator (plain 100) (plain 121) [] [] [] [] (plain 119) [] [] [] [] []).
Definition run_all (os : list operation) (t : TextArea) : option TextArea := foldl (λ m o, t ← m; run o t) (Some t) os.
Lemma run_all_reachable os t t' : Forall (λ o, ∀ t, allowed o t) os → reachable keys t → run_all os t = Some t' → reachable keys t'.
Proof.
  unfold run_all. intros Ha. revert t. induction Ha as [|o os Ho Ha IH]; intros t Hr; cbn; [by intros [= <-]|].
  destruct (run o t) as [t1|] eqn:E; [|by intros Hn; exfalso; clear -Hn; induction os; cbn in Hn; auto]. apply IH. by eapply reachable_run.
Qed.
Definition draft : list operation := [OInsertStr (lit "see "); OInsertElement (lit "[Image #1]"); OInsertStr (lit " now"); OSetCursor 4].
Definition state : TextArea := default (new keys) (run_all draft (new keys)).
Lemma state_reachable : reachable keys state.
Proof. apply (run_all_reachable draft (new keys)); [by repeat constructor|constructor|by vm_compute]. Qed.
Definition press (c : char) (modifiers : N) : KeyEvent := mk_event (KChar c) modifiers KPress.
(** Control-K from before the image takes it whole, and Control-Y brings its text back. *)
Example kill_and_yank :
  (text <$> run_all [OInput (press 107 CONTROL)] state) = Some (lit "see ") ∧
  (elements <$> run_all [OInput (press 107 CONTROL)] state) = Some [] ∧
  (text <$> run_all [OInput (press 107 CONTROL); OInput (press 121 CONTROL)] state) = Some (text state).
Proof. vm_compute. done. Qed.
Definition vim_draft (s : rstring) : list operation := [OInsertStr s; OSetVimEnabled true].
End Demo.
#[local] Existing Instance Demo.unicode.
#[local] Existing Instance Demo.unicode_laws.

Example text_area_never_panics_witness : has_post (run (OInput (Demo.press 107 CONTROL)) Demo.state) well_formed.
Proof. apply (text_area_never_panics Demo.keys Demo.state (OInput (Demo.press 107 CONTROL)) Demo.state_reachable I). Defined.
Example keys_keep_elements_whole_witness :
  has_post (input Demo.state (Demo.press 107 CONTROL))
    (λ t', whole Demo.state t' ∧ (single_line Demo.state → cursor_outside Demo.state → cursor_outside t')).
Proof. apply (keys_keep_elements_whole Demo.keys Demo.state (Demo.press 107 CONTROL) Demo.state_reachable). Defined.
Example kills_can_be_yanked_back_witness : has_post (run_kill KillToEnd Demo.state) (restorable Demo.state).
Proof. apply (kills_can_be_yanked_back Demo.keys Demo.state KillToEnd Demo.state_reachable). Defined.

Example cursor_stays_on_screen_witness :
  has_post (effective_scroll (set_cursor Demo.state 20) 2 [(0, 5); (5, 10); (10, 15); (15, 19)] 9) (λ scroll,
    scroll <= 3 ∧ 3 < scroll + 2 ∧ (4 <= 2 → scroll = 0) ∧ (2 < 4 → scroll + 2 <= 4)).
Proof.
  apply (cursor_stays_on_screen (set_cursor Demo.state 20) 2 9 [(0, 5); (5, 10); (10, 15); (15, 19)] 3); [lia|cbn; lia|by vm_compute].
Defined.

(** ** What the code does not do *)
(** The number of lines is cut to sixteen bits: with 65536 of them nothing is scrolled, wherever
    the cursor is. *)
Example many_lines_do_not_scroll t height current lines :
  N.of_nat (length lines) = 2^16 → effective_scroll t height lines current = Some 0.
Proof. intros E. unfold effective_scroll, as_u16. rewrite E, N.Div0.mod_same. by rewrite (proj2 (N.leb_le 0 height)) by lia. Qed.
(** Opening a line below the last one leaves the cursor on that line: the length of the
    text is read again after the newline has been inserted. *)
Example line_below_the_last_is_not_entered :
  (λ t, (text t, cursor_pos t)) <$> Demo.run_all (Demo.vim_draft (lit "ab") ++ [OInput (Demo.press 111 NONE)]) (new Demo.keys) =
    Some (lit "ab" ++ [newline], 2) ∧
  text <$> Demo.run_all (Demo.vim_draft (lit "ab") ++ [OInput (Demo.press 111 NONE); OInput (Demo.press 120 NONE)]) (new Demo.keys) =
    Some (lit "abx" ++ [newline]).
Proof. vm_compute. done. Qed.
(** Leaving insert mode after an element of two lines puts the cursor inside of it. *)
Example escape_enters_an_element :
  ∃ t, Demo.run_all [OInsertElement (lit "a" ++ newline :: lit "b"); OSetVimEnabled true; OEnterVimInsert; OInput (mk_event KEsc NONE KPress)] (new Demo.keys) = Some t ∧
    cursor_pos t = 2 ∧ (λ e, (e_start e, e_end e)) <$> elements t = [(0, 3)].
Proof. eexists. split; [by vm_compute|done]. Qed.
(** A range past the end is clamped for the bookkeeping, but not for the replacement. *)
Example ranges_past_the_end_panic : (t ← run (OInsertStr (lit "ab")) (new Demo.keys); replace_range t (0, 3) []) = None.
Proof. vm_compute. done. Qed.
(** A change of the text forgets the lines that it was wrapped into, a move of the cursor keeps them. *)
Example wrapping_is_forgotten :
  (λ t, c_lines <$> wrap_cache t) <$> Demo.run_all [OInsertStr (lit "ab"); OWrappedLines 10; OMoveLeft] (new Demo.keys) = Some (Some [(0, 3)]) ∧
  (λ t, c_lines <$> wrap_cache t) <$> Demo.run_all [OInsertStr (lit "ab"); OWrappedLines 10; OInsertStr (lit "c")] (new Demo.keys) = Some None.
Proof. vm_compute. done. Qed.
