(* ===== verification/PasteBurst.v ===== *)
(** * Bursts of key presses read as pastes ([tui/src/bottom_pane/paste_burst.rs])

    A terminal without bracketed paste delivers a paste as fast key presses.  The state machine
    below holds a first character back, decides from the timing whether the next ones are a
    paste, buffers them, and hands them out when the keys stop.  An instant is a number of
    nanoseconds, [duration_since] a difference that is zero when the clock has not advanced. *)
From S2P Require Import Prelude RustStr Utf8 Utf8Text.
#[local] Open Scope N_scope.

Definition millis (n : N) : N := n * 1000000.
Definition PASTE_BURST_MIN_CHARS : N := 3.
Definition PASTE_ENTER_SUPPRESS_WINDOW : N := millis 120.
Definition PASTE_BURST_CHAR_INTERVAL : N := millis 8.
Definition PASTE_BURST_ACTIVE_IDLE_TIMEOUT : N := millis 8.
Definition u16_max : N := 2^16 - 1.

Record PasteBurst := mk_burst {
  last_plain_char_time : option N; consecutive_plain_char_burst : N; burst_window_until : option N;
  buffer : rstring; active : bool; pending_first_char : option (char * N) }.
Definition default_burst : PasteBurst := mk_burst None 0 None [] false None.
Inductive CharDecision := BeginBuffer (retro_chars : N) | BufferAppend | RetainFirstChar | BeginBufferFromPending.
Record RetroGrab := mk_grab { start_byte : N; grabbed : rstring }.
Inductive FlushResult := Paste (s : rstring) | Typed (c : char) | FlushNone.
Definition recommended_flush_delay : N := PASTE_BURST_CHAR_INTERVAL + millis 1.

Definition is_active_internal (b : PasteBurst) : bool := active b || negb (bool_decide (buffer b = [])).
Definition is_active (b : PasteBurst) : bool := is_active_internal b || bool_decide (is_Some (pending_first_char b)).
(** Assignments of the window, and of the captured text. *)
Definition extend_window (b : PasteBurst) (now : N) : PasteBurst :=
  mk_burst (last_plain_char_time b) (consecutive_plain_char_burst b) (Some (now + PASTE_ENTER_SUPPRESS_WINDOW)) (buffer b) (active b)
    (pending_first_char b).
Definition with_text (b : PasteBurst) (s : rstring) (on : bool) (pending : option (char * N)) : PasteBurst :=
  mk_burst (last_plain_char_time b) (consecutive_plain_char_burst b) (burst_window_until b) s on pending.
Definition note_plain_char (b : PasteBurst) (now : N) : PasteBurst :=
  let count := match last_plain_char_time b with
               | Some prev => if now - prev <=? PASTE_BURST_CHAR_INTERVAL then N.min u16_max (consecutive_plain_char_burst b + 1) else 1
               | None => 1
               end in
  mk_burst (Some now) count (burst_window_until b) (buffer b) (active b) (pending_first_char b).

Definition burst_decision (b : PasteBurst) : option CharDecision :=
  if PASTE_BURST_MIN_CHARS <=? consecutive_plain_char_burst b then Some (BeginBuffer (sat_sub (consecutive_plain_char_burst b) 1)) else None.
Definition on_plain_char (b : PasteBurst) (ch : char) (now : N) : PasteBurst * CharDecision :=
  let b := note_plain_char b now in
  if active b then (extend_window b now, BufferAppend)
  else
    let otherwise := match burst_decision b with
                     | Some decision => (b, decision)
                     | None => (with_text b (buffer b) (active b) (Some (ch, now)), RetainFirstChar)
                     end in
    match pending_first_char b with
    | Some (held, held_at) =>
        if now - held_at <=? PASTE_BURST_CHAR_INTERVAL
        then (extend_window (with_text b (buffer b ++ [held]) true None) now, BeginBufferFromPending)
        else otherwise
    | None => otherwise
    end.
Definition on_plain_char_no_hold (b : PasteBurst) (now : N) : PasteBurst * option CharDecision :=
  let b := note_plain_char b now in
  if active b then (extend_window b now, Some BufferAppend) else (b, burst_decision b).

Definition flush_if_due (b : PasteBurst) (now : N) : PasteBurst * FlushResult :=
  let timeout := if is_active_internal b then PASTE_BURST_ACTIVE_IDLE_TIMEOUT else PASTE_BURST_CHAR_INTERVAL in
  let timed_out := match last_plain_char_time b with Some t => timeout <? now - t | None => false end in
  if timed_out && is_active_internal b then (with_text b [] false (pending_first_char b), Paste (buffer b))
  else if timed_out then
    (with_text b (buffer b) (active b) None, match pending_first_char b with Some (ch, _) => Typed ch | None => FlushNone end)
  else (b, FlushNone).
Definition append_newline_if_active (b : PasteBurst) (now : N) : PasteBurst * bool :=
  if is_active b then (extend_window (with_text b (buffer b ++ [newline]) (active b) (pending_first_char b)) now, true) else (b, false).
Definition newline_should_insert_instead_of_submit (b : PasteBurst) (now : N) : bool :=
  is_active b || match burst_window_until b with Some until => now <=? until | None => false end.
Definition begin_with_retro_grabbed (b : PasteBurst) (grabbed : rstring) (now : N) : PasteBurst :=
  extend_window (with_text b (buffer b ++ grabbed) true (pending_first_char b)) now.
Definition append_char_to_buffer (b : PasteBurst) (ch : char) (now : N) : PasteBurst :=
  extend_window (with_text b (buffer b ++ [ch]) (active b) (pending_first_char b)) now.
Definition try_append_char_if_active (b : PasteBurst) (ch : char) (now : N) : PasteBurst * bool :=
  if is_active_internal b then (append_char_to_buffer b ch now, true) else (b, false).
Fixpoint char_indices (at_ : N) (s : rstring) : list (N * char) :=
  match s with [] => [] | c :: s => (at_, c) :: char_indices (at_ + clen c) s end.
Definition retro_start_index (before : rstring) (retro_chars : nat) : N :=
  match retro_chars with
  | O => blen before
  | S n => match rev (char_indices 0 before) !! n with Some (idx, _) => idx | None => 0 end
  end.
(** [None]: the slice of [before] is not on a character boundary, a panic. *)
Definition decide_begin_buffer (b : PasteBurst) (now : N) (before : rstring) (retro_chars : nat) : option (PasteBurst * option RetroGrab) :=
  let start := retro_start_index before retro_chars in
  '(_, grabbed) ← split_at_byte start before;
  let looks_pastey := existsb is_whitespace grabbed || (16 <=? N.of_nat (length grabbed)) in
  Some (if looks_pastey then (begin_with_retro_grabbed b grabbed now, Some (mk_grab start grabbed)) else (b, None)).
Definition flush_before_modified_input (b : PasteBurst) : PasteBurst * option rstring :=
  if negb (is_active b) then (b, None)
  else (with_text b [] false None, Some (buffer b ++ match pending_first_char b with Some (ch, _) => [ch] | None => [] end)).
Definition clear_window_after_non_char (b : PasteBurst) : PasteBurst := mk_burst None 0 None (buffer b) false None.
Definition clear_after_explicit_paste (_ : PasteBurst) : PasteBurst := default_burst.

(** ** Lemmas *)
(** What was typed and is not in the text yet, in the order it was typed. *)
Definition held_char (b : PasteBurst) : rstring := match pending_first_char b with Some (ch, _) => [ch] | None => [] end.
Definition held (b : PasteBurst) : rstring := buffer b ++ held_char b.

Lemma char_indices_app at_ s t : char_indices at_ (s ++ t) = char_indices at_ s ++ char_indices (at_ + blen s) t.
Proof.
  revert at_. induction s as [|c s IH]; intros at_; cbn; [by rewrite N.add_0_r|]. by rewrite IH, N.add_assoc.
Qed.
(** The last [n] characters, or all of them when there are fewer. *)
Lemma retro_start_spec before n : retro_start_index before n = blen (take (length before - n) before).
Proof.
  destruct n as [|n]; cbn; [by rewrite Nat.sub_0_r, firstn_all|]. revert n. induction before as [|c before IH] using rev_ind; intros n.
  { by destruct n. }
  rewrite char_indices_app, rev_app_distr. cbn. destruct n as [|n]; cbn.
  - rewrite length_app. cbn. replace (_ - 1)%nat with (length before) by lia. by rewrite take_app_length.
  - rewrite IH, length_app. cbn. rewrite take_app_le by lia. do 2 f_equal. lia.
Qed.
Lemma decide_begin_spec b now before n : decide_begin_buffer b now before n =
  let k := (length before - n)%nat in let g := drop k before in
  Some (if existsb is_whitespace g || (16 <=? N.of_nat (length g))
        then (begin_with_retro_grabbed b g now, Some (mk_grab (blen (take k before)) g)) else (b, None)).
Proof.
  unfold decide_begin_buffer. rewrite retro_start_spec. cbn zeta.
  replace (split_at_byte _ before) with (Some (take (length before - n) before, drop (length before - n) before)); [done|].
  by rewrite <- split_at_byte_app, take_drop.
Qed.
