(* ===== verification/SlashCommand.v ===== *)
(** * Slash commands ([tui/src/slash_command.rs], [tui/src/bottom_pane/slash_commands.rs],
      [tui/src/bottom_pane/prompt_args.rs])

    The built-in commands of the composer, the ones a session shows, and the resolution of a typed
    name among them and the service tiers of the model.  The build is the one for Linux, without
    the voice command. *)
From S2P Require Import Prelude RustStr Utf8 Utf8Text.
#[local] Open Scope N_scope.

(** ** The commands *)
Inductive SlashCommand :=
  | Model | Fast | Ide | Permissions | Keymap | Vim | Experimental | Scheduling | Workspace | ElevateSandbox | SandboxReadRoot
  | AutoReview | Reading | Memories | Skills | Hooks | Review | Rename | New | Resume | Research | Fork | Init | Compact | Plan
  | Goal | Agent | Side | Btw | Copy | Raw | Diff | Mention | Status | DebugConfig | Title | Statusline | Theme | Pets | Mcp
  | Apps | Plugins | Logout | SupabaseLogin | SupabaseLogout | Quit | Exit | Feedback | Rollout | Ps | Stop | Clear
  | Personality | Realtime | Settings | TestApproval | MultiAgents | MemoryDrop | MemoryUpdate.
#[global] Instance SlashCommand_eq_dec : EqDecision SlashCommand.
Proof. solve_decision. Defined.
(** [SlashCommand::iter], in the order of the declaration. *)
Definition iter : list SlashCommand :=
  [Model; Fast; Ide; Permissions; Keymap; Vim; Experimental; Scheduling; Workspace; ElevateSandbox; SandboxReadRoot;
   AutoReview; Reading; Memories; Skills; Hooks; Review; Rename; New; Resume; Research; Fork; Init; Compact; Plan; Goal; Agent;
   Side; Btw; Copy; Raw; Diff; Mention; Status; DebugConfig; Title; Statusline; Theme; Pets; Mcp; Apps; Plugins; Logout;
   SupabaseLogin; SupabaseLogout; Quit; Exit; Feedback; Rollout; Ps; Stop; Clear; Personality; Realtime; Settings;
   TestApproval; MultiAgents; MemoryDrop; MemoryUpdate].
(** The strings that [from_str] accepts, the name first ([strum], kebab case unless said otherwise). *)
Definition serializations (cmd : SlashCommand) : list string :=
  match cmd with
  | Model => ["model"] | Fast => ["fast"] | Ide => ["ide"] | Permissions => ["permissions"] | Keymap => ["keymap"]
  | Vim => ["vim"] | Experimental => ["experimental"] | Scheduling => ["scheduling"] | Workspace => ["workspace"]
  | ElevateSandbox => ["setup-default-sandbox"] | SandboxReadRoot => ["sandbox-add-read-dir"] | AutoReview => ["approve"]
  | Reading => ["reading"] | Memories => ["memories"] | Skills => ["skills"] | Hooks => ["hooks"] | Review => ["review"]
  | Rename => ["rename"] | New => ["new"] | Resume => ["resume"] | Research => ["research"] | Fork => ["fork"]
  | Init => ["init"] | Compact => ["compact"] | Plan => ["plan"] | Goal => ["goal"] | Agent => ["agent"] | Side => ["side"]
  | Btw => ["btw"] | Copy => ["copy"] | Raw => ["raw"] | Diff => ["diff"] | Mention => ["mention"] | Status => ["status"]
  | DebugConfig => ["debug-config"] | Title => ["title"] | Statusline => ["statusline"] | Theme => ["theme"]
  | Pets => ["pets"; "pet"] | Mcp => ["mcp"] | Apps => ["apps"] | Plugins => ["plugins"] | Logout => ["logout"]
  | SupabaseLogin => ["supabase-login"] | SupabaseLogout => ["supabase-logout"] | Quit => ["quit"] | Exit => ["exit"]
  | Feedback => ["feedback"] | Rollout => ["rollout"] | Ps => ["ps"] | Stop => ["stop"; "clean"] | Clear => ["clear"]
  | Personality => ["personality"] | Realtime => ["realtime"] | Settings => ["settings"] | TestApproval => ["test-approval"]
  | MultiAgents => ["subagents"] | MemoryDrop => ["debug-m-drop"] | MemoryUpdate => ["debug-m-update"]
  end.
Definition supports_inline_args (cmd : SlashCommand) : bool :=
  match cmd with
  | Review | Rename | Plan | Goal | Ide | Keymap | Mcp | Raw | Pets | Side | Btw | Resume | SandboxReadRoot | Workspace => true
  | _ => false
  end.
Definition available_in_side_conversation (cmd : SlashCommand) : bool :=
  match cmd with
  | Copy | Raw | Diff | Mention | Status | Ide => true
  | _ => false
  end.
Definition available_during_task (cmd : SlashCommand) : bool :=
  match cmd with
  | New | Resume | Fork | Init | Compact | Model | Personality | Permissions | Keymap | Vim | ElevateSandbox | SandboxReadRoot
  | Experimental | Memories | Review | Plan | Clear | Logout | SupabaseLogin | SupabaseLogout | MemoryDrop | MemoryUpdate
  | Theme | Pets => false
  | _ => true
  end.
Definition command (cmd : SlashCommand) : rstring := match serializations cmd with name :: _ => lit name | [] => [] end.
Definition from_str (name : rstring) : option SlashCommand :=
  List.find (λ cmd, existsb (λ s, bool_decide (lit s = name)) (serializations cmd)) iter.

(** ** The commands of a session *)
Record ServiceTierCommand := mk_tier { tier_id : rstring; tier_name : rstring; tier_description : rstring }.
#[global] Instance ServiceTierCommand_eq_dec : EqDecision ServiceTierCommand.
Proof. solve_decision. Defined.
Inductive SlashCommandItem := Builtin (cmd : SlashCommand) | ServiceTier (tier : ServiceTierCommand).
#[global] Instance SlashCommandItem_eq_dec : EqDecision SlashCommandItem.
Proof. solve_decision. Defined.
Definition item_command (item : SlashCommandItem) : rstring :=
  match item with Builtin cmd => command cmd | ServiceTier tier => tier_name tier end.
Definition item_supports_inline_args (item : SlashCommandItem) : bool :=
  match item with Builtin cmd => supports_inline_args cmd | ServiceTier _ => false end.
Definition item_available_in_side_conversation (item : SlashCommandItem) : bool :=
  match item with Builtin cmd => available_in_side_conversation cmd | ServiceTier _ => false end.
Definition item_available_during_task (item : SlashCommandItem) : bool :=
  match item with Builtin cmd => available_during_task cmd | ServiceTier _ => false end.
Record BuiltinCommandFlags := mk_flags {
  collaboration_modes_enabled : bool; connectors_enabled : bool; plugins_command_enabled : bool; service_tier_commands_enabled : bool;
  goal_command_enabled : bool; personality_command_enabled : bool; realtime_conversation_enabled : bool; allow_elevate_sandbox : bool;
  side_conversation_active : bool }.
Definition is_cmd (a b : SlashCommand) : bool := bool_decide (a = b).

(** [debug_assertions]: whether the build has them. *)
Section session.
Context (debug_assertions : bool).
Definition is_visible (cmd : SlashCommand) : bool :=
  match cmd with SandboxReadRoot => false | Copy => true | Rollout | TestApproval => debug_assertions | _ => true end.
Definition built_in_slash_commands : list (rstring * SlashCommand) := (λ c, (command c, c)) <$> List.filter is_visible iter.
Definition enabled (flags : BuiltinCommandFlags) (cmd : SlashCommand) : bool :=
  (allow_elevate_sandbox flags || negb (is_cmd cmd ElevateSandbox)) &&
  (collaboration_modes_enabled flags || negb (is_cmd cmd Plan)) &&
  (connectors_enabled flags || negb (is_cmd cmd Apps)) &&
  (plugins_command_enabled flags || negb (is_cmd cmd Plugins)) &&
  (goal_command_enabled flags || negb (is_cmd cmd Goal)) &&
  (personality_command_enabled flags || negb (is_cmd cmd Personality)) &&
  (realtime_conversation_enabled flags || negb (is_cmd cmd Realtime)) &&
  (negb (side_conversation_active flags) || available_in_side_conversation cmd).
Definition builtins_for_input (flags : BuiltinCommandFlags) : list (rstring * SlashCommand) :=
  List.filter (λ entry, enabled flags entry.2) built_in_slash_commands.
Definition commands_for_input (flags : BuiltinCommandFlags) (tiers : list ServiceTierCommand) : list SlashCommandItem :=
  let tiers_enabled := service_tier_commands_enabled flags in
  let active_tier_names := if tiers_enabled then tier_name <$> tiers else [] in
  let commands :=
    concat ((λ '(builtin_name, cmd),
      if bool_decide (builtin_name ∈ active_tier_names) then []
      else Builtin cmd :: (if is_cmd cmd Model && tiers_enabled then ServiceTier <$> tiers else [])) <$> builtins_for_input flags) in
  List.filter (λ item, negb (side_conversation_active flags) || item_available_in_side_conversation item) commands.
Definition without_side (flags : BuiltinCommandFlags) : BuiltinCommandFlags :=
  mk_flags (collaboration_modes_enabled flags) (connectors_enabled flags) (plugins_command_enabled flags)
    (service_tier_commands_enabled flags) (goal_command_enabled flags) (personality_command_enabled flags)
    (realtime_conversation_enabled flags) (allow_elevate_sandbox flags) false.
Definition find_builtin_command (name : rstring) (flags : BuiltinCommandFlags) : option SlashCommand :=
  cmd ← from_str name;
  if existsb (λ entry, is_cmd entry.2 cmd) (builtins_for_input (without_side flags)) then Some cmd else None.
Definition find_slash_command (name : rstring) (flags : BuiltinCommandFlags) (tiers : list ServiceTierCommand) : option SlashCommandItem :=
  match (if service_tier_commands_enabled flags then List.find (λ tier, bool_decide (tier_name tier = name)) tiers else None) with
  | Some tier => Some (ServiceTier tier)
  | None => Builtin <$> find_builtin_command name flags
  end.
End session.

(** ** A typed command: the name, the rest and the offset of the rest in the line *)
Definition parse_slash_name (line : rstring) : option (rstring * rstring * N) :=
  stripped ← strip_prefix [chr "/"] line;
  let name := take (default (length stripped) (position is_whitespace stripped)) stripped in
  if bool_decide (name = []) then None
  else
    let rest_untrimmed := drop (length name) stripped in
    let rest := trim_start rest_untrimmed in
    Some (name, rest, blen name + (blen rest_untrimmed - blen rest) + 1).

(** ** Lemmas *)
(** Names resolve to their command: no name is an alias of another command. *)
Lemma from_str_command cmd : from_str (command cmd) = Some cmd.
Proof. by destruct cmd; vm_compute. Qed.
Lemma iter_all cmd : cmd ∈ iter.
Proof. apply list_elem_of_In. destruct cmd; vm_compute; tauto. Qed.
Lemma builtins_elem debug flags name cmd :
  (name, cmd) ∈ builtins_for_input debug flags ↔ name = command cmd ∧ is_visible debug cmd = true ∧ enabled flags cmd = true.
Proof.
  unfold builtins_for_input, built_in_slash_commands. rewrite list_elem_of_In, List.filter_In, <- list_elem_of_In, list_elem_of_fmap. cbn [snd].
  split.
  - intros [(c & [= -> ->] & Hc) He]. apply list_elem_of_In, List.filter_In in Hc. tauto.
  - intros (-> & Hv & He). split; [|done]. exists cmd. split; [done|]. apply list_elem_of_In, List.filter_In. split; [|done].
    apply list_elem_of_In, iter_all.
Qed.
Lemma enabled_without_side flags cmd : enabled flags cmd = true → enabled (without_side flags) cmd = true.
Proof. unfold enabled. cbn. rewrite !andb_true_iff. tauto. Qed.
Lemma find_builtin_listed debug flags cmd : is_visible debug cmd = true → enabled flags cmd = true →
  find_builtin_command debug (command cmd) flags = Some cmd.
Proof.
  intros Hv He. unfold find_builtin_command. rewrite from_str_command. cbn [mbind option_bind].
  replace (existsb _ _) with true; [done|]. symmetry. apply existsb_exists. exists (command cmd, cmd). split.
  - apply list_elem_of_In, builtins_elem. split_and!; [done..|]. by apply enabled_without_side.
  - unfold is_cmd. cbn [snd]. by apply bool_decide_eq_true.
Qed.
Lemma find_tier tiers tier : NoDup (tier_name <$> tiers) → tier ∈ tiers →
  List.find (λ t, bool_decide (tier_name t = tier_name tier)) tiers = Some tier.
Proof.
  induction tiers as [|t tiers IH]; intros Hnd Hin; [by apply elem_of_nil in Hin|]. cbn in *. apply NoDup_cons in Hnd as [Hn Hnd].
  apply elem_of_cons in Hin as [->|Hin]; [by rewrite bool_decide_eq_true_2|]. rewrite bool_decide_eq_false_2; [by apply IH|].
  intros E. apply Hn. rewrite E. by apply list_elem_of_fmap_2.
Qed.
#[local] Opaque iter from_str builtins_for_input find_builtin_command is_visible enabled.
Lemma no_tier tiers name : name ∉ (tier_name <$> tiers) → List.find (λ t, bool_decide (tier_name t = name)) tiers = None.
Proof.
  induction tiers as [|t tiers IH]; [done|]. cbn. intros [Hn Ht]%not_elem_of_cons. rewrite bool_decide_eq_false_2; [|done]. by apply IH.
Qed.
Lemma find_slash_builtin debug name flags tiers :
  (service_tier_commands_enabled flags = true → name ∉ (tier_name <$> tiers)) →
  find_slash_command debug name flags tiers = Builtin <$> find_builtin_command debug name flags.
Proof. intros Hn. unfold find_slash_command. destruct (service_tier_commands_enabled flags); [|done]. by rewrite no_tier by auto. Qed.
Lemma find_slash_tier debug flags tiers tier : NoDup (tier_name <$> tiers) → tier ∈ tiers → service_tier_commands_enabled flags = true →
  find_slash_command debug (tier_name tier) flags tiers = Some (ServiceTier tier).
Proof. intros Hnd Ht He. unfold find_slash_command. rewrite He. by rewrite find_tier. Qed.

(** ** Properties *)
(** Every command that the list of commands of the input shows, built in or a service tier
    of the model, is the one that its name resolves to when it is typed: the list and the
    resolution filter by the same flags, and a tier hides the built-in command of its name in
    both. *)
Theorem listed_commands_resolve (debug : bool) (flags : BuiltinCommandFlags) (tiers : list ServiceTierCommand) (item : SlashCommandItem) :
  NoDup (tier_name <$> tiers) → item ∈ commands_for_input debug flags tiers →
  find_slash_command debug (item_command item) flags tiers = Some item.
Proof.
  intros Hnd Hin. unfold commands_for_input in Hin. cbn zeta in Hin.
  apply list_elem_of_In, List.filter_In in Hin as [Hin _]. apply List.in_concat in Hin as (l & Hl & Hi).
  apply list_elem_of_In in Hl, Hi. apply list_elem_of_fmap in Hl as ([name cmd] & -> & Hb). apply builtins_elem in Hb as (-> & Hv & He).
  case_bool_decide as Hname; [by apply elem_of_nil in Hi|]. apply elem_of_cons in Hi as [->|Hi].
  - rewrite find_slash_builtin; [|by destruct (service_tier_commands_enabled flags)]. cbn [item_command].
    rewrite find_builtin_listed by done. done.
  - destruct (is_cmd cmd Model && service_tier_commands_enabled flags) eqn:Et; [|by apply elem_of_nil in Hi].
    apply andb_true_iff in Et as [_ Et]. apply list_elem_of_fmap in Hi as (tier & -> & Ht). by apply find_slash_tier.
Qed.

Module Tiers.
Definition flags : BuiltinCommandFlags := mk_flags true true true true true true true false false.
Definition fast : ServiceTierCommand := mk_tier (lit "priority") (lit "fast") (lit "Faster answers").
(** The tier stands in the list after its built-in namesake is gone. *)
Example fast_is_the_tier : find_slash_command false (lit "fast") flags [fast] = Some (ServiceTier fast) ∧
  (Builtin Fast ∉ commands_for_input false flags [fast]) ∧ Builtin Quit ∈ commands_for_input false flags [fast].
Proof. split_and!; [by vm_compute| |]; apply (bool_decide_unpack _); by vm_compute. Qed.
End Tiers.
Example listed_commands_resolve_witness : find_slash_command false (lit "fast") Tiers.flags [Tiers.fast] = Some (ServiceTier Tiers.fast).
Proof.
  apply (listed_commands_resolve false Tiers.flags [Tiers.fast] (ServiceTier Tiers.fast)); apply (bool_decide_unpack _); by vm_compute.
Defined.
