(* ===== verification/Attachments.v ===== *)
(** * Attachments and pasted paths of the composer
      ([tui/src/bottom_pane/chat_composer/attachment_state.rs], [tui/src/clipboard_paste.rs],
       the text elements of [protocol/src/user_input.rs])

    Local images stand in the draft as elements that bear a numbered label, remote images as rows
    above it; the labels count the remote images first.  Paths are texts.  [None] is a panic. *)
From S2P Require Import Prelude RustStr Utf8 Utf8Text KeyInput TextArea.
#[local] Open Scope N_scope.

(** ** Text elements, as submissions carry them *)
Record UserTextElement := mk_user_element { byte_start : N; byte_end : N; stored_placeholder : option rstring }.
#[global] Instance UserTextElement_eq_dec : EqDecision UserTextElement.
Proof. solve_decision. Defined.
Definition map_range (e : UserTextElement) (start stop : N) : UserTextElement := mk_user_element start stop (stored_placeholder e).
Definition placeholder (e : UserTextElement) (s : rstring) : option rstring :=
  match stored_placeholder e with Some p => Some p | None => slice s (byte_start e) (byte_end e) end.
Definition text_elements (t : TextArea) : list UserTextElement :=
  (λ e, mk_user_element (e_start e) (e_end e) (payload (text t) e)) <$> elements t.
(** The elements with an identity and a payload. *)
Definition text_element_snapshots (t : TextArea) : list (N * rstring) :=
  omap (λ e, p ← payload (text t) e; Some (e_id e, p)) (elements t).
Definition is_vim_normal_mode (t : TextArea) : bool :=
  vim_enabled t && match vim_mode t with Normal => true | Insert => false end.
Definition allows_paste_burst (t : TextArea) : bool :=
  negb (vim_enabled t) || match vim_mode t with Insert => true | Normal => false end.

(** ** Attachments *)
Definition local_image_label_text (label_number : N) : rstring := lit "[Image #" ++ show label_number ++ lit "]".
Record AttachedImage := mk_image { image_placeholder : rstring; image_path : rstring }.
Record AttachmentState := mk_attachments {
  local_images : list AttachedImage; remote_image_urls : list rstring; selected_remote_image_index : option nat }.
Definition no_attachments : AttachmentState := mk_attachments [] [] None.
Definition attachments_empty (a : AttachmentState) : bool :=
  bool_decide (length (local_images a) = O) && bool_decide (remote_image_urls a = []).
Definition local_image_paths (a : AttachmentState) : list rstring := image_path <$> local_images a.
Definition remote_count (a : AttachmentState) : N := N.of_nat (length (remote_image_urls a)).
(** The labels from the number after [number] on; each one renames its element. *)
Fixpoint relabel (number : N) (images : list AttachedImage) (t : TextArea) : option (list AttachedImage * TextArea) :=
  match images with
  | [] => Some ([], t)
  | image :: images =>
      let expected := local_image_label_text (number + 1) in
      t ← if bool_decide (image_placeholder image = expected) then Some t
          else fst <$> replace_element_payload t (image_placeholder image) expected;
      '(images, t) ← relabel (number + 1) images t;
      Some (mk_image expected (image_path image) :: images, t)
  end.
Definition relabel_local_images (a : AttachmentState) (t : TextArea) : option (AttachmentState * TextArea) :=
  '(images, t) ← relabel (remote_count a) (local_images a) t;
  Some (mk_attachments images (remote_image_urls a) (selected_remote_image_index a), t).
Definition set_remote_image_urls (a : AttachmentState) (urls : list rstring) (t : TextArea) : option (AttachmentState * TextArea) :=
  relabel_local_images (mk_attachments (local_images a) urls None) t.
Definition take_remote_image_urls (a : AttachmentState) (t : TextArea) : option (AttachmentState * TextArea * list rstring) :=
  '(a', t) ← relabel_local_images (mk_attachments (local_images a) [] None) t; Some (a', t, remote_image_urls a).
Definition clear_remote_image_urls (a : AttachmentState) : AttachmentState := mk_attachments (local_images a) [] None.
Definition numbered_images (number : N) (paths : list rstring) : list AttachedImage :=
  imap (λ index path, mk_image (local_image_label_text (number + N.of_nat index + 1)) path) paths.
Definition reset_local_images (a : AttachmentState) (paths : list rstring) (t : TextArea) : option (AttachmentState * TextArea) :=
  relabel_local_images (mk_attachments (numbered_images (remote_count a) paths) (remote_image_urls a) None) t.
Definition attach_image (a : AttachmentState) (t : TextArea) (path : rstring) : option (AttachmentState * TextArea) :=
  let label := local_image_label_text (remote_count a + N.of_nat (length (local_images a)) + 1) in
  '(t, _) ← insert_element t label;
  Some (mk_attachments (local_images a ++ [mk_image label path]) (remote_image_urls a) (selected_remote_image_index a), t).
Definition prune_local_images_for_submission (a : AttachmentState) (s : rstring) (es : list UserTextElement) : AttachmentState :=
  let placeholders := omap (λ e, placeholder e s) es in
  mk_attachments (List.filter (λ i, bool_decide (image_placeholder i ∈ placeholders)) (local_images a)) (remote_image_urls a)
    (selected_remote_image_index a).
Definition take_recent_submission_images_with_placeholders (a : AttachmentState) : AttachmentState * list AttachedImage :=
  (mk_attachments [] (remote_image_urls a) (selected_remote_image_index a), local_images a).
Definition select_remote (a : AttachmentState) (index : option nat) : AttachmentState :=
  mk_attachments (local_images a) (remote_image_urls a) index.
Definition clear_remote_image_selection (a : AttachmentState) : AttachmentState := select_remote a None.
Definition remove_selected_remote_image (a : AttachmentState) (selected : nat) (t : TextArea) : option (AttachmentState * TextArea) :=
  if (length (remote_image_urls a) <=? selected)%nat then Some (clear_remote_image_selection a, t)
  else
    let urls := delete selected (remote_image_urls a) in
    relabel_local_images
      (mk_attachments (local_images a) urls (match urls with [] => None | _ => Some (Nat.min selected (length urls - 1)) end)) t.
(** The inner [None]: the key is not for the remote images. *)
Definition handle_remote_image_selection_key (a : AttachmentState) (event : KeyEvent) (t : TextArea) :
    option (option (AttachmentState * TextArea)) :=
  if bool_decide (remote_image_urls a = []) || negb (ev_modifiers event =? NONE) || negb (bool_decide (ev_kind event = KPress)) then Some None
  else match ev_code event, selected_remote_image_index a with
  | KUp, Some selected => Some (Some (select_remote a (Some (selected - 1)%nat), t))
  | KUp, None =>
      Some (if cursor_pos t =? 0 then Some (select_remote a (Some (length (remote_image_urls a) - 1)%nat), t) else None)
  | KDown, Some selected =>
      Some (Some (if (S selected <? length (remote_image_urls a))%nat then select_remote a (Some (S selected))
                  else clear_remote_image_selection a, t))
  | KDelete, Some selected | KBackspace, Some selected => Some <$> remove_selected_remote_image a selected t
  | _, _ => Some None
  end.
Definition remove_deleted_local_placeholders (a : AttachmentState) (removed : list rstring) (t : TextArea) :
    option (AttachmentState * TextArea * bool) :=
  let images := List.filter (λ i, negb (bool_decide (image_placeholder i ∈ removed))) (local_images a) in
  let removed_any := negb (length images =? length (local_images a))%nat in
  let a := mk_attachments images (remote_image_urls a) (selected_remote_image_index a) in
  '(a, t) ← if removed_any then relabel_local_images a t else Some (a, t);
  Some (a, t, removed_any).

(** ** Pasted paths *)
(** The libraries ([url], [shlex], [image]) and the machine.  [file_url]: the text parses as a
    [file] URL, with the path it stands for, if any. *)
Class PastedPaths := {
  file_url : rstring → option (option rstring);
  shlex : rstring → list rstring;
  has_image_dimensions : rstring → bool;
  is_probably_wsl : bool }.
Definition is_ascii_alphabetic (c : char) : bool := (65 <=? c) && (c <=? 90) || (97 <=? c) && (c <=? 122).
Definition is_backslash (c : char) : bool := c =? chr "\".
Definition convert_windows_path_to_wsl (input : rstring) : option rstring :=
  if starts_with input (lit "\\") then None
  else match input with
  | [] => None
  | c :: _ =>
      let drive_letter := to_ascii_lowercase_char c in
      if negb ((97 <=? drive_letter) && (drive_letter <=? 122)) then None
      else if negb (bool_decide (slice input 1 2 = Some (lit ":"))) then None
      else
        rest ← slice input 2 (blen input);
        let slashes := (λ c, if is_backslash c then chr "/" else c) <$> trim_start_matches (λ c, is_backslash c || (c =? chr "/")) rest in
        let components := List.filter (λ x, negb (bool_decide (x = []))) (split (chr "/") slashes) in
        Some (foldl (λ path x, path ++ chr "/" :: x) (lit "/mnt/" ++ [drive_letter]) components)
  end.
Definition normalize_windows_path `{!PastedPaths} (input : rstring) : option rstring :=
  let drive := match input with c :: _ => is_ascii_alphabetic c | [] => false end &&
               bool_decide (slice input 1 2 = Some (lit ":")) &&
               match slice input 2 3 with Some x => bool_decide (x = lit "\") || bool_decide (x = lit "/") | None => false end in
  let unc := starts_with input (lit "\\") in
  if negb drive && negb unc then None
  else match (if is_probably_wsl then convert_windows_path_to_wsl input else None) with
  | Some converted => Some converted
  | None => Some input
  end.
Definition normalize_pasted_path `{!PastedPaths} (pasted : rstring) : option rstring :=
  let pasted := trim pasted in
  let unquote (quote : rstring) := s ← strip_prefix quote pasted; strip_suffix quote s in
  let unquoted := match unquote [34] with Some s => s | None => default pasted (unquote (lit "'")) end in
  match file_url unquoted with
  | Some path => path
  | None =>
  match normalize_windows_path unquoted with
  | Some path => Some path
  | None =>
      match shlex pasted with
      | [part] => match normalize_windows_path part with Some path => Some path | None => Some part end
      | _ => None
      end
  end end.
