(* ===== verification/Composer.v ===== *)
(** * The draft of the chat composer ([tui/src/bottom_pane/chat_composer.rs], [draft_state.rs])

    The draft is the text area, the bodies of large pastes (the text shows a placeholder for each),
    the mode of a shell command (the leading [!] is not in the text), the bindings of mentions and
    the paste burst.  Every handler that changes it is a function; popups, the footer and the
    selection of history entries are left out.  [None] is a panic. *)
From S2P Require Import Prelude RustStr Utf8 Utf8Text KeyInput TextArea Attachments SlashCommand PasteBurst.
#[local] Open Scope N_scope.

Definition LARGE_PASTE_CHAR_THRESHOLD : N := 1000.
Definition MAX_USER_INPUT_TEXT_CHARS : N := 2^20.
Definition char_count (s : rstring) : N := N.of_nat (length s).
Definition str_contains (s needle : rstring) : bool := match find needle s with Some _ => true | None => false end.
Definition user_input_too_large_message (actual_chars : N) : rstring :=
  lit "Message exceeds the maximum length of " ++ show MAX_USER_INPUT_TEXT_CHARS ++ lit " characters (" ++ show actual_chars ++ lit " provided).".

(** ** State *)
Record MentionBinding := mk_mention { mention : rstring; mention_path : rstring }.
#[global] Instance MentionBinding_eq_dec : EqDecision MentionBinding.
Proof. solve_decision. Defined.
Record DraftState := mk_draft {
  textarea : TextArea; is_bash_mode : bool; pending_pastes : list (rstring * rstring); input_enabled : bool; paste_burst : PasteBurst;
  disable_paste_burst : bool; mention_bindings : gmap N MentionBinding; recent_submission_mention_bindings : list MentionBinding }.
Record HistoryEntry := mk_entry {
  h_text : rstring; h_text_elements : list UserTextElement; h_local_image_paths : list rstring; h_remote_image_urls : list rstring;
  h_mention_bindings : list MentionBinding; h_pending_pastes : list (rstring * rstring) }.
#[global] Instance HistoryEntry_eq_dec : EqDecision HistoryEntry.
Proof. solve_decision. Defined.
Record ChatComposerConfig := mk_config { popups_enabled : bool; slash_commands_enabled : bool; image_paste_enabled : bool }.
Definition default_config : ChatComposerConfig := mk_config true true true.
Definition plain_text : ChatComposerConfig := mk_config false false false.
(** [local_history]: the entries of this session; [sent]: the notices sent to the transcript. *)
Record ChatComposer := mk_composer {
  draft : DraftState; attachments : AttachmentState; config : ChatComposerConfig; command_flags : BuiltinCommandFlags;
  service_tier_commands : list ServiceTierCommand; is_task_running : bool; queue_submissions : bool; local_history : list HistoryEntry;
  pending_slash_command_history : option HistoryEntry; sent : list rstring }.
Definition new_draft (defaults : RuntimeKeymap) : DraftState := mk_draft (new defaults) false [] true default_burst false ∅ [].

(** Assignments. *)
Definition with_draft_state (c : ChatComposer) (d : DraftState) : ChatComposer :=
  mk_composer d (attachments c) (config c) (command_flags c) (service_tier_commands c) (is_task_running c) (queue_submissions c)
    (local_history c) (pending_slash_command_history c) (sent c).
Definition with_attachments (c : ChatComposer) (a : AttachmentState) : ChatComposer :=
  mk_composer (draft c) a (config c) (command_flags c) (service_tier_commands c) (is_task_running c) (queue_submissions c)
    (local_history c) (pending_slash_command_history c) (sent c).
Definition set_textarea (d : DraftState) (t : TextArea) : DraftState :=
  mk_draft t (is_bash_mode d) (pending_pastes d) (input_enabled d) (paste_burst d) (disable_paste_burst d) (mention_bindings d)
    (recent_submission_mention_bindings d).
Definition set_bash (d : DraftState) (on : bool) : DraftState :=
  mk_draft (textarea d) on (pending_pastes d) (input_enabled d) (paste_burst d) (disable_paste_burst d) (mention_bindings d)
    (recent_submission_mention_bindings d).
Definition set_pastes (d : DraftState) (pastes : list (rstring * rstring)) : DraftState :=
  mk_draft (textarea d) (is_bash_mode d) pastes (input_enabled d) (paste_burst d) (disable_paste_burst d) (mention_bindings d)
    (recent_submission_mention_bindings d).
Definition set_burst (d : DraftState) (b : PasteBurst) : DraftState :=
  mk_draft (textarea d) (is_bash_mode d) (pending_pastes d) (input_enabled d) b (disable_paste_burst d) (mention_bindings d)
    (recent_submission_mention_bindings d).
Definition set_disabled (d : DraftState) (disabled : bool) : DraftState :=
  mk_draft (textarea d) (is_bash_mode d) (pending_pastes d) (input_enabled d) (paste_burst d) disabled (mention_bindings d)
    (recent_submission_mention_bindings d).
Definition set_mentions (d : DraftState) (m : gmap N MentionBinding) (recent : list MentionBinding) : DraftState :=
  mk_draft (textarea d) (is_bash_mode d) (pending_pastes d) (input_enabled d) (paste_burst d) (disable_paste_burst d) m recent.
Definition area (c : ChatComposer) : TextArea := textarea (draft c).
Definition burst (c : ChatComposer) : PasteBurst := paste_burst (draft c).
Definition pastes (c : ChatComposer) : list (rstring * rstring) := pending_pastes (draft c).
Definition bash (c : ChatComposer) : bool := is_bash_mode (draft c).
Definition with_area (c : ChatComposer) (t : TextArea) : ChatComposer := with_draft_state c (set_textarea (draft c) t).
Definition with_burst (c : ChatComposer) (b : PasteBurst) : ChatComposer := with_draft_state c (set_burst (draft c) b).
Definition with_pastes (c : ChatComposer) (p : list (rstring * rstring)) : ChatComposer := with_draft_state c (set_pastes (draft c) p).
Definition with_bash (c : ChatComposer) (on : bool) : ChatComposer := with_draft_state c (set_bash (draft c) on).
Definition with_labels (c : ChatComposer) (r : AttachmentState * TextArea) : ChatComposer := with_area (with_attachments c r.1) r.2.

(** ** The slash command of the first line is an element *)
Definition first_line (s : rstring) : rstring := leading (λ c, negb (is_newline c)) s.
Section composer.
Context {U : Unicode} {P : PastedPaths} (debug_assertions : bool).
Definition find_command (c : ChatComposer) (name : rstring) : option SlashCommandItem :=
  find_slash_command debug_assertions name (command_flags c) (service_tier_commands c).
Definition slash_command_element_range (c : ChatComposer) (line : rstring) : option (N * N) :=
  if bash c then None
  else
    '(name, _, _) ← parse_slash_name line;
    if str_contains name (lit "/") then None
    else
      let element_end := 1 + blen name in
      let has_space_after := match split_at_byte element_end line with Some (_, c :: _) => is_whitespace c | _ => false end in
      if negb has_space_after then None
      else if bool_decide (is_Some (find_command c name)) then Some (0, element_end) else None.
Definition element_range (e : UserTextElement) : N * N := (byte_start e, byte_end e).
Definition is_slash_element (s : rstring) (e : UserTextElement) : bool :=
  match placeholder e s with Some p => starts_with p (lit "/") | None => false end.
Definition sync_slash_command_elements (c : ChatComposer) : ChatComposer :=
  if negb (slash_commands_enabled (config c)) then c
  else
    let s := text (area c) in
    let desired_range := slash_command_element_range c (first_line s) in
    let slashes := element_range <$> List.filter (is_slash_element s) (text_elements (area c)) in
    let has_desired := existsb (λ r, bool_decide (desired_range = Some r)) slashes in
    let stale_ranges := List.filter (λ r, negb (bool_decide (desired_range = Some r))) slashes in
    let t := foldl (λ t r, (remove_element_range t r).1) (area c) stale_ranges in
    with_area c (match desired_range with Some range => if has_desired then t else (add_element_range t range).1 | None => t end).
(** [sync_popups], as far as the draft goes. *)
Definition sync_popups (c : ChatComposer) : ChatComposer := sync_slash_command_elements c.

(** ** Text into the draft *)
Definition sync_bash_mode_from_text (c : ChatComposer) : option ChatComposer :=
  if negb (bash c) && starts_with (text (area c)) (lit "!")
  then t ← replace_range (area c) (0, 1) []; Some (with_bash (with_area c t) true)
  else Some c.
Definition insert_text (c : ChatComposer) (s : rstring) : option ChatComposer := t ← insert_str (area c) s; Some (with_area c t).
Definition composer_insert_str (c : ChatComposer) (s : rstring) : option ChatComposer :=
  c ← insert_text c s; c ← sync_bash_mode_from_text c; Some (sync_popups c).
(** [str::parse::<usize>] *)
Definition parse_usize (s : rstring) : option N :=
  let digits := default s (strip_prefix (lit "+") s) in
  if bool_decide (digits = []) || negb (forallb is_ascii_digit digits) then None
  else let n := foldl (λ n d, 10 * n + (d - 48)) 0 digits in if n <=? usize_max then Some n else None.
Definition usize_add (a b : N) : option N := if a + b <=? usize_max then Some (a + b) else None.
Definition paste_base (char_count : N) : rstring := lit "[Pasted Content " ++ show char_count ++ lit " chars]".
Definition suffix_step (base prefix : rstring) (max_suffix : N) (entry : rstring * rstring) : N :=
  if bool_decide (entry.1 = base) then N.max max_suffix 1
  else match strip_prefix prefix entry.1 with
       | Some suffix => match parse_usize suffix with Some value => N.max max_suffix value | None => max_suffix end
       | None => max_suffix
       end.
Definition next_large_paste_placeholder (c : ChatComposer) (char_count : N) : option rstring :=
  let base := paste_base char_count in
  let prefix := base ++ lit " #" in
  let max_suffix := foldl (suffix_step base prefix) 0 (pastes c) in
  if max_suffix =? 0 then Some base else next ← usize_add max_suffix 1; Some (prefix ++ show next).
Fixpoint replace_crlf (s : rstring) : rstring :=
  match s with
  | [] => []
  | c :: s' => match s' with
               | d :: s'' => if (c =? cr) && (d =? newline) then newline :: replace_crlf s'' else c :: replace_crlf s'
               | [] => [c]
               end
  end.
Definition replace_cr (s : rstring) : rstring := (λ c, if c =? cr then newline else c) <$> s.
Definition handle_paste_image_path (c : ChatComposer) (pasted : rstring) : option (ChatComposer * bool) :=
  match normalize_pasted_path pasted with
  | None => Some (c, false)
  | Some path =>
      if has_image_dimensions path then r ← attach_image (attachments c) (area c) path; Some (with_labels c r, true) else Some (c, false)
  end.
Definition handle_paste (c : ChatComposer) (pasted : rstring) : option ChatComposer :=
  let pasted := replace_cr (replace_crlf pasted) in
  let count := char_count pasted in
  c ← (if LARGE_PASTE_CHAR_THRESHOLD <? count then
         label ← next_large_paste_placeholder c count;
         '(t, _) ← insert_element (area c) label;
         Some (with_pastes (with_area c t) (pastes c ++ [(label, pasted)]))
       else
         '(c, attached) ← (if (1 <? count) && image_paste_enabled (config c) then handle_paste_image_path c pasted else Some (c, false));
         (if attached : bool then insert_text c (lit " ") else composer_insert_str c pasted));
  Some (sync_popups (with_burst c (clear_after_explicit_paste (burst c)))).
Definition flush_burst (c : ChatComposer) : option ChatComposer :=
  let '(b, pasted) := flush_before_modified_input (burst c) in
  match pasted with Some pasted => handle_paste (with_burst c b) pasted | None => Some (with_burst c b) end.
Definition set_disable_paste_burst (c : ChatComposer) (disabled : bool) : option ChatComposer :=
  let was_disabled := disable_paste_burst (draft c) in
  let c := with_draft_state c (set_disabled (draft c) disabled) in
  if disabled && negb was_disabled then c ← flush_burst c; Some (with_burst c (clear_after_explicit_paste (burst c))) else Some c.

(** ** Keys that change the text *)
Definition clamp_to_char_boundary (s : rstring) (pos : N) : N :=
  let p := N.min pos (blen s) in
  if (p <? blen s) && negb (is_char_boundary s p)
  then default 0 (last (fst <$> List.filter (λ i, i.1 <=? p) (char_indices 0 s))) else p.
(** Whether the burst took the character over from the text. *)
Definition begin_buffer (c : ChatComposer) (retro_chars : N) (now : N) : option (ChatComposer * bool) :=
  let safe_cur := clamp_to_char_boundary (text (area c)) (cursor_pos (area c)) in
  '(before, _) ← split_at_byte safe_cur (text (area c));
  '(b, grab) ← decide_begin_buffer (burst c) now before (N.to_nat retro_chars);
  let c := with_burst c b in
  match grab with
  | None => Some (c, false)
  | Some grab =>
      t ← if bool_decide (grabbed grab = []) then Some (area c) else replace_range (area c) (start_byte grab, safe_cur) [];
      Some (with_area c t, true)
  end.
Definition buffer_char (c : ChatComposer) (ch : char) (now : N) : ChatComposer := with_burst c (append_char_to_buffer (burst c) ch now).
Definition text_input (c : ChatComposer) (input : KeyEvent) : option ChatComposer :=
  t ← TextArea.input (area c) input; Some (with_area c t).
Definition retain_pastes (c : ChatComposer) : ChatComposer :=
  with_pastes c (List.filter (λ p, str_contains (text (area c)) p.1) (pastes c)).
Definition handle_non_ascii_char (c : ChatComposer) (input : KeyEvent) (now : N) : option ChatComposer :=
  let insert (c : ChatComposer) := c ← text_input c input; Some (retain_pastes c) in
  let flush_and_insert (c : ChatComposer) := c ← flush_burst c; insert c in
  if disable_paste_burst (draft c) then insert c
  else match ev_code input with
  | KChar ch =>
      let '(b, taken) := try_append_char_if_active (burst c) ch now in
      if taken then Some (with_burst c b)
      else
        c ← flush_burst (with_burst c b);
        let '(b, decision) := on_plain_char_no_hold (burst c) now in
        let c := with_burst c b in
        match decision with
        | Some BufferAppend => Some (buffer_char c ch now)
        | Some (BeginBuffer retro_chars) =>
            '(c, grabbed) ← begin_buffer c retro_chars now;
            (if grabbed : bool then Some (buffer_char c ch now) else flush_and_insert c)
        | Some _ => None
        | None => flush_and_insert c
        end
  | _ => flush_and_insert c
  end.
Definition handle_paste_burst_flush (c : ChatComposer) (now : N) : option (ChatComposer * bool) :=
  let '(b, result) := flush_if_due (burst c) now in
  let c := with_burst c b in
  match result with
  | Paste pasted => c ← handle_paste c pasted; Some (c, true)
  | Typed ch => c ← composer_insert_str c [ch]; Some (c, true)
  | FlushNone => Some (c, false)
  end.
Definition reconcile_deleted_elements (c : ChatComposer) (elements_before : list rstring) : option ChatComposer :=
  let elements_after := element_payloads (area c) in
  let removed := List.filter (λ p, negb (bool_decide (p ∈ elements_after))) elements_before in
  let c := with_pastes c (List.filter (λ p, negb (bool_decide (p.1 ∈ removed))) (pastes c)) in
  '(a, t, _) ← remove_deleted_local_placeholders (attachments c) removed (area c);
  Some (with_labels c (a, t)).
Definition has_ctrl_or_alt (modifiers : N) : bool :=
  (negb (N.land modifiers CONTROL =? 0) || negb (N.land modifiers ALT =? 0)) && negb (is_altgr modifiers).
Definition is_ascii (ch : char) : bool := ch <? 128.
(** What is left of the handler once no character was taken by the burst. *)
Definition apply_key (c : ChatComposer) (input : KeyEvent) : option ChatComposer :=
  c ← match ev_code input with KChar _ | KEnter => Some c | _ => flush_burst c end;
  let elements_before :=
    if bool_decide (pastes c = []) && attachments_empty (attachments c) then None else Some (element_payloads (area c)) in
  if bash c && bool_decide (ev_code input = KBackspace) && (cursor_pos (area c) =? 0) then Some (with_bash c false)
  else
    c ← text_input c input;
    c ← sync_bash_mode_from_text c;
    c ← match elements_before with Some before => reconcile_deleted_elements c before | None => Some c end;
    Some (match ev_code input with
          | KChar _ => if has_ctrl_or_alt (ev_modifiers input) then with_burst c (clear_window_after_non_char (burst c)) else c
          | KEnter => c
          | _ => with_burst c (clear_window_after_non_char (burst c))
          end).
Definition handle_input_basic_with_time (c : ChatComposer) (input : KeyEvent) (now : N) : option ChatComposer :=
  '(c, _) ← handle_paste_burst_flush c now;
  let capture := bool_decide (ev_code input = KEnter) && negb (disable_paste_burst (draft c)) && is_active (burst c) in
  let '(b, appended) := if capture then append_newline_if_active (burst c) now else (burst c, false) in
  let c := with_burst c b in
  if appended then Some c
  else match ev_code input with
  | KChar ch =>
      let flush_and_apply (c : ChatComposer) := c ← flush_burst c; apply_key c input in
      if negb (has_ctrl_or_alt (ev_modifiers input)) && negb (disable_paste_burst (draft c)) && allows_paste_burst (area c) then
        if negb (is_ascii ch) then handle_non_ascii_char c input now
        else
          let '(b, decision) := on_plain_char (burst c) ch now in
          let c := with_burst c b in
          match decision with
          | BufferAppend | BeginBufferFromPending => Some (buffer_char c ch now)
          | BeginBuffer retro_chars =>
              '(c, grabbed) ← begin_buffer c retro_chars now;
              (if grabbed : bool then Some (buffer_char c ch now) else flush_and_apply c)
          | RetainFirstChar => Some c
          end
      else flush_and_apply c
  | _ => apply_key c input
  end.
Definition handle_input_basic (c : ChatComposer) (input : KeyEvent) (now : N) : option ChatComposer :=
  if pressed_or_repeated input then handle_input_basic_with_time c input now else Some c.
End composer.
