(* ===== verification/ComposerTyping.v ===== *)
(** * What is typed reaches the draft ([tui/src/bottom_pane/chat_composer.rs], [paste_burst.rs])

    Fast characters are held back, inserted, taken out of the text again and pasted; the invariant
    below says that the text shown before the cursor followed by what the burst holds is always
    what was typed, in its order, and that a quiet moment brings the rest. *)
From S2P Require Import Prelude RustStr Utf8 Utf8Text KeyInput TextArea TextAreaSafe Attachments SlashCommand PasteBurst Composer.
#[local] Open Scope N_scope.

(** ** Lemmas: edits of the text area at the cursor *)
Section spots.
Context {U : Unicode}.
Definition same_modes (t t' : TextArea) : Prop :=
  vim_enabled t' = vim_enabled t ∧ vim_mode t' = vim_mode t ∧ editor_keymap t' = editor_keymap t.
Record at_spot (t : TextArea) (a b : rstring) : Prop := {
  sp_formed : well_formed t; sp_text : text t = a ++ b; sp_cursor : cursor_pos t = blen a; sp_outside : cursor_outside t }.
(** No element cuts the text between [lo] and the cursor. *)
Definition clear (t : TextArea) (lo : N) : Prop :=
  Forall (λ e, e_end e <= lo ∨ cursor_pos t <= e_start e ∨ e_end e <= e_start e) (elements t).
Lemma same_modes_refl t : same_modes t t. Proof. done. Qed.
Lemma same_modes_trans t1 t2 t3 : same_modes t1 t2 → same_modes t2 t3 → same_modes t1 t3.
Proof. unfold same_modes. intuition congruence. Qed.
Lemma spot_clear t a b : at_spot t a b → clear t (blen a).
Proof.
  intros [_ _ Ec Ho]. unfold cursor_outside, outside in Ho. eapply Forall_impl; [exact Ho|]. intros e. cbn. rewrite Ec. lia.
Qed.
Lemma insert_at_spot t a b s : at_spot t a b →
  has_post (insert_str t s) (λ t', at_spot t' (a ++ s) b ∧ same_modes t t' ∧ (∀ lo, lo <= blen a → clear t lo → clear t' lo) ∧
    (∀ p, p ∈ element_payloads t → p ≠ [] → p ∈ element_payloads t')).
Proof.
  intros [Hf Et Ec Ho]. destruct (insert_str_at_ok t (cursor_pos t) s Hf) as (t' & Hi & a' & b' & Ea & Hed).
  exists t'. split; [exact Hi|].
  assert (clamp_pos_for_insertion t (cursor_pos t) = blen a) as Ecl.
  { unfold clamp_pos_for_insertion. rewrite nearest_edge_id; [done|apply Hf|done]. }
  rewrite Ecl in Ea. destruct (app_split_inj a' b' a b) as [-> ->]; [by rewrite <- Et, (ed_before _ _ _ _ _ _ Hed)|done|].
  unfold insert_str_at in Hi. rewrite Ecl, Et, insert_at_spec in Hi. cbn [mbind option_bind] in Hi. injection Hi as <-.
  assert (outside (elements t) (blen a)) as Ho' by (unfold cursor_outside in Ho; by rewrite <- Ec).
  pose proof (wf_elements _ Hf) as Hel. rewrite Et in Hel. pose proof (uncut_at _ _ _ Hel Ho') as Hu.
  assert (shift_elements (blen a) 0 (blen s) (elements t) = spliced a [] s <$>
    List.filter (λ e, negb ((blen a <=? e_start e) && (e_end e <=? blen a + blen []))) (elements t)) as Es.
  { apply (shift_elements_spliced a [] s b); [apply Hel|]. cbn [blen]. by rewrite N.add_0_r. }
  cbn [blen] in Es. rewrite N.add_0_r in Es. split_and!.
  - split; [apply Hed| | |].
    + cbn. by rewrite <- app_assoc.
    + cbn. rewrite Ec, N.leb_refl. by rewrite blen_app.
    + pose proof (ed_room _ _ _ _ _ _ Hed) as Hr. unfold cursor_outside, outside. eapply Forall_impl; [exact Hr|]. intros e. cbn.
      rewrite Ec, N.leb_refl. lia.
  - done.
  - intros lo Hlo Hc. unfold clear. cbn. rewrite Es, Ec, N.leb_refl. apply Forall_fmap, Forall_forall. intros e [He _]%list_elem_of_In%List.filter_In.
    unfold clear in Hc. rewrite Forall_forall in Hc. apply list_elem_of_In in He. specialize (Hc e He). rewrite Ec in Hc. cbn. unfold spliced.
    cbn [blen]. destruct (N.leb_spec (e_end e) (blen a)); cbn; [|lia].
    unfold outside in Ho'. rewrite Forall_forall in Ho'. specialize (Ho' e He). lia.
  - intros p Hp Hne. unfold element_payloads in *. cbn. rewrite list_elem_of_omap in Hp |- *. destruct Hp as (e & He & Hp).
    destruct Hel as [Hpl _]. rewrite Forall_forall in Hpl. pose proof (Hpl e He) as Hpe. unfold outside in Ho'. rewrite Forall_forall in Ho'. specialize (Ho' e He). cbn in Ho'.
    exists (spliced a [] s e). split.
    + rewrite Es. apply list_elem_of_fmap_2, list_elem_of_In, List.filter_In. split; [by apply list_elem_of_In|].
      apply negb_true_iff, andb_false_iff. rewrite !N.leb_gt. unfold payload in Hp. apply slice_Some in Hp as (u & v & Eu & E1 & E2).
      assert (blen p ≠ 0) by (by intros ?%blen_0). lia.
    + destruct (spliced_element a [] s b e Hpe) as (_ & _ & _ & Hsame). { cbn. destruct Hpe as (_ & _ & ?). lia. }
      unfold payload in *. cbn in Hsame. rewrite Hsame. by rewrite <- Et.
Qed.
Lemma remove_at_spot t a r b : at_spot t (a ++ r) b → clear t (blen a) →
  has_post (replace_range t (blen a, blen (a ++ r)) []) (λ t', at_spot t' a b ∧ same_modes t t').
Proof.
  intros [Hf Et Ec Ho] Hc. unfold replace_range, expand_range_to_element_boundaries. cbn [expand_loop].
  assert (foldl expand_step (blen a, blen (a ++ r)) (elements t) = (blen a, blen (a ++ r))) as Efix.
  { unfold clear in Hc. rewrite Ec in Hc. clear -Hc. induction Hc as [|e es He _ IH]; [done|]. cbn [foldl].
    replace (expand_step _ e) with (blen a, blen (a ++ r)); [done|]. unfold expand_step. cbn [fst snd].
    destruct (N.ltb_spec (e_start e) (blen (a ++ r))), (N.ltb_spec (blen a) (e_end e)); cbn [andb]; try done. f_equal; lia. }
  rewrite Efix, bool_decide_eq_true_2 by done. cbn [mbind option_bind].
  assert (boundary (text t) (blen a) ∧ boundary (text t) (blen (a ++ r))) as [Hb1 Hb2].
  { rewrite Et. split; [rewrite <- app_assoc|]; apply boundary_split. }
  destruct (replace_range_raw_ok t (blen a, blen (a ++ r)) [] Hf) as (t' & Hr & Hpost); cbn [fst snd];
    [rewrite blen_app; lia|done|done|by apply (expand_fixed_uncut _ (_, _))|].
  exists t'. split; [done|]. assert (same_modes t t') as Hm.
  { revert Hr. unfold replace_range_raw. repeat (case_match; try done); try (by intros [= <-]).
    destruct (replace_bytes _ _ _ _); [|done]. by intros [= <-]. }
  destruct Hpost as [(E1 & _ & ->)|(a' & r' & b' & E1 & E2 & Hed)].
  - cbn in E1. rewrite blen_app in E1. assert (r = []) as -> by (apply blen_0; lia). rewrite app_nil_r in *. done.
  - cbn in E1, E2. pose proof (ed_before _ _ _ _ _ _ Hed) as Eb. rewrite Et, <- app_assoc in Eb.
    destruct (app_split_inj a (r ++ b) a' (r' ++ b')) as [<- Er]; [done|done|]. rewrite blen_app in E2.
    destruct (app_split_inj r b r' b') as [<- <-]; [done|lia|]. split; [|done]. split; [apply Hed|apply Hed| |].
    + pose proof (ed_cursor _ _ _ _ _ _ Hed). cbn [blen] in *. rewrite Ec, blen_app in *. lia.
    + pose proof (ed_room _ _ _ _ _ _ Hed) as Hroom. pose proof (ed_cursor _ _ _ _ _ _ Hed). cbn [blen] in *. unfold cursor_outside, outside.
      rewrite Ec, blen_app in *. eapply Forall_impl; [exact Hroom|]. intros e. cbn. lia.
Qed.
(** ** Lemmas: the element of the slash command *)
Lemma serializations_ascii cmd : forallb (λ s, forallb is_ascii (lit s)) (serializations cmd) = true.
Proof. by destruct cmd; vm_compute. Qed.
Lemma from_str_ascii name cmd : from_str name = Some cmd → Forall (λ ch, is_ascii ch = true) name.
Proof.
  unfold from_str. intros [_ Hs]%List.find_some. apply existsb_exists in Hs as (s & Hs & <-%bool_decide_eq_true).
  pose proof (serializations_ascii cmd) as Ha. rewrite forallb_forall in Ha. specialize (Ha s Hs). rewrite forallb_forall in Ha.
  apply Forall_forall. intros ch Hch. by apply Ha, list_elem_of_In.
Qed.
Definition ascii_names (tiers : list ServiceTierCommand) : Prop := Forall (λ tier, Forall (λ ch, is_ascii ch = true) (tier_name tier)) tiers.
Lemma find_command_ascii debug c name item : ascii_names (service_tier_commands c) → find_command debug c name = Some item →
  Forall (λ ch, is_ascii ch = true) name.
Proof.
  intros Ht. unfold find_command, find_slash_command. destruct (if service_tier_commands_enabled _ then _ else None) as [tier|] eqn:E.
  - intros _. destruct (service_tier_commands_enabled _); [|done]. apply List.find_some in E as [Hin <-%bool_decide_eq_true].
    unfold ascii_names in Ht. rewrite Forall_forall in Ht. by apply Ht, list_elem_of_In.
  - unfold find_builtin_command. destruct (from_str name) as [cmd|] eqn:Ef; [|done]. intros _. by eapply from_str_ascii.
Qed.
Lemma position_take {A} (p : A → bool) l : take (default (length l) (position p l)) l = l ∧ Forall (λ x, p x = false) l ∨
  ∃ x r, l = take (default (length l) (position p l)) l ++ x :: r ∧ p x = true ∧ Forall (λ x, p x = false) (take (default (length l) (position p l)) l).
Proof.
  induction l as [|x l IH]; cbn; [by left|]. destruct (p x) eqn:Ex; cbn; [right; by exists x, l|].
  destruct (position p l) as [i|] eqn:Ep; cbn in *.
  - destruct IH as [[E Hf]|(y & r & E & Hy & Hf)]; [left; split; [by rewrite E|by constructor]|].
    right. exists y, r. split_and!; [by rewrite E at 1|done|by constructor].
  - destruct IH as [[E Hf]|(y & r & E & Hy & Hf)]; [left; split; [by rewrite E|by constructor]|].
    right. exists y, r. split_and!; [by rewrite E at 1|done|by constructor].
Qed.
Lemma first_line_prefix s : ∃ r, s = first_line s ++ r.
Proof. eexists. apply leading_app. Qed.
Lemma slash_range_spec debug c s range : slash_command_element_range debug c (first_line s) = Some range →
  ∃ name w rest item, s = chr "/" :: name ++ w :: rest ∧ is_whitespace w = true ∧ Forall (λ ch, is_whitespace ch = false) name ∧
    find_command debug c name = Some item ∧ range = (0, blen (chr "/" :: name)).
Proof.
  unfold slash_command_element_range. destruct (bash c); [done|]. unfold parse_slash_name.
  destruct (strip_prefix [chr "/"] (first_line s)) as [stripped|] eqn:Es; cbn [mbind option_bind]; [|done].
  apply strip_prefix_Some in Es. set (name := take _ stripped). case_bool_decide; [done|]. cbn [mbind option_bind].
  destruct (str_contains name _); [done|]. destruct (negb _) eqn:Ew; [done|]. case_bool_decide as Hc; [|done]. intros [= <-].
  destruct Hc as [item Hc]. destruct (first_line_prefix s) as [tail Etail].
  assert (∃ r, stripped = name ++ r ∧ Forall (λ ch, is_whitespace ch = false) name) as (r & Er & Hn).
  { destruct (position_take is_whitespace stripped) as [[E Hf]|(x & r & E & _ & Hf)]; fold name in E, Hf.
    - exists []. rewrite app_nil_r. split; [done|]. by rewrite E.
    - by exists (x :: r). }
  rewrite Es, Er in Ew. change ([chr "/"] ++ name ++ r) with ((chr "/" :: name) ++ r) in Ew.
  change (1 + blen name) with (blen (chr "/" :: name)) in Ew |- *. rewrite split_at_byte_app in Ew.
  destruct r as [|w r]; [done|]. apply negb_false_iff in Ew. exists name, w, (r ++ tail), item.
  split_and!; [|done|done|done|done]. rewrite Etail, Es, Er. cbn. by rewrite <- app_assoc.
Qed.
(** The command ends where the text leaves it: at the latest before a character it cannot have. *)
Lemma range_end_le (u v x rest : rstring) w : u ++ v = x ++ w :: rest → match v with [] => True | y :: _ => y ∉ x end → blen x <= blen u.
Proof.
  intros E Hv. destruct (N.le_gt_cases (blen x) (blen u)) as [?|Hlt]; [done|]. exfalso.
  destruct (app_split_le u v x (w :: rest)) as (m & -> & ->); [done|lia|]. destruct m as [|y m]; [rewrite app_nil_r in Hlt; lia|].
  apply Hv, elem_of_app. right. by left.
Qed.

(** ** Lemmas: elements that come and go *)
Lemma add_range_elements t range e : e ∈ elements (add_element_range t range).1 → e ∈ elements t ∨
  e_start e = clamp_pos_to_char_boundary (text t) (N.min range.1 (len t)) ∧ e_end e = clamp_pos_to_char_boundary (text t) (N.min range.2 (len t)).
Proof.
  unfold add_element_range, clamped_range. cbv beta iota. repeat (case_match; [by left|]). cbn. rewrite sort_by_start_elem.
  intros [He|He%list_elem_of_singleton]%elem_of_app; [by left|right; by subst e].
Qed.
Lemma add_range_same t range : let t' := (add_element_range t range).1 in
  text t' = text t ∧ cursor_pos t' = cursor_pos t ∧ same_modes t t'.
Proof. unfold add_element_range, clamped_range. cbv beta iota. by repeat (case_match; [done|]). Qed.
Lemma remove_range_same t range : let t' := (remove_element_range t range).1 in
  text t' = text t ∧ cursor_pos t' = cursor_pos t ∧ same_modes t t' ∧ (∀ e, e ∈ elements t' → e ∈ elements t).
Proof.
  unfold remove_element_range, clamped_range. cbv beta iota. case_match; [done|]. cbn. split_and!; [done..|].
  intros e [He _]%list_elem_of_In%List.filter_In. by apply list_elem_of_In.
Qed.
Lemma remove_ranges_spot t a b ranges : at_spot t a b →
  let t' := foldl (λ t r, (remove_element_range t r).1) t ranges in
  at_spot t' a b ∧ same_modes t t' ∧ (∀ e, e ∈ elements t' → e ∈ elements t).
Proof.
  revert t. induction ranges as [|r ranges IH]; intros t Hs; cbn; [done|]. destruct (remove_range_same t r) as (Et & Ec & Hm & He).
  destruct (IH (remove_element_range t r).1) as (Hs' & Hm' & He').
  - destruct Hs as [Hf Et' Ec' Ho]. split; [by apply remove_range_formed|by rewrite Et|by rewrite Ec|].
    unfold cursor_outside, outside in *. rewrite Ec. rewrite Forall_forall in Ho |- *. auto.
  - split_and!; [done|by eapply same_modes_trans|auto].
Qed.
Lemma add_range_spot t a b r : at_spot t a b → boundary (text t) r → r <= blen a → at_spot (add_element_range t (0, r)).1 a b ∧
  same_modes t (add_element_range t (0, r)).1 ∧
  (∀ e, e ∈ elements (add_element_range t (0, r)).1 → e ∈ elements t ∨ e_end e = r).
Proof.
  intros [Hf Et Ec Ho] Hb Hr. destruct (add_range_same t (0, r)) as (Et' & Ec' & Hm).
  assert (∀ e, e ∈ elements (add_element_range t (0, r)).1 → e ∈ elements t ∨ e_end e = r) as He.
  { intros e [?|[_ He]]%add_range_elements; [by left|]. right. rewrite He. cbn [snd]. rewrite N.min_l by (by apply boundary_le).
    by apply clamp_char_id. }
  split_and!; [|done|done]. split; [by apply add_range_formed|by rewrite Et'|by rewrite Ec'|].
  unfold cursor_outside, outside in *. rewrite Ec', Ec in *. rewrite Forall_forall in Ho |- *. intros e [?|?]%He; [auto|]. lia.
Qed.

(** ** Lemmas: the composer around the text *)
(** The place before the cursor ends a word, or is no part of a command, or there are none. *)
Definition off_command (c : ChatComposer) (a b : rstring) : Prop :=
  slash_commands_enabled (config c) = false ∨ match b with [] => True | w :: _ => is_whitespace w = true end ∨
  match a with [] => False | x :: _ => x ≠ chr "/" end.
End spots.
Section sync.
Context {U : Unicode}.
Context (debug : bool).
Lemma sync_popups_spot c a b : at_spot (area c) a b → off_command c a b → ascii_names (service_tier_commands c) →
  ∃ t', sync_popups debug c = with_area c t' ∧ at_spot t' a b ∧ same_modes (area c) t' ∧
    (∀ u y v, a ++ b = u ++ y :: v → is_ascii y = false → clear (area c) (blen u) → clear t' (blen u)).
Proof using Type.
  intros Hs Hoff Hascii. unfold sync_popups, sync_slash_command_elements. destruct (slash_commands_enabled (config c)) eqn:Een; cbn [negb].
  2: { exists (area c). split_and!; [|done..]. by destruct c as [[] ? ? ? ? ? ? ? ? ?]. }
  set (slashes := element_range <$> _). set (stale := List.filter _ slashes).
  destruct (remove_ranges_spot (area c) a b stale Hs) as (Hs1 & Hm1 & He1). set (t1 := foldl _ _ _) in *.
  assert (∀ lo, clear (area c) lo → clear t1 lo) as Hclear.
  { intros lo. unfold clear. rewrite (sp_cursor _ _ _ Hs1), (sp_cursor _ _ _ Hs). rewrite !Forall_forall. auto. }
  destruct (slash_command_element_range debug c (first_line (text (area c)))) as [range|] eqn:Er; [|exists t1; split_and!; auto].
  destruct (existsb _ _); [exists t1; split_and!; auto|].
  apply slash_range_spec in Er as (name & w & rest & item & Et & Hw & Hn & Hf & ->).
  rewrite (sp_text _ _ _ Hs) in Et. pose proof (find_command_ascii _ _ _ _ Hascii Hf) as Ha.
  assert (blen (chr "/" :: name) <= blen a) as Hle.
  { destruct (N.le_gt_cases (blen (chr "/" :: name)) (blen a)) as [?|Hlt]; [done|]. exfalso.
    destruct (app_split_le a b (chr "/" :: name) (w :: rest)) as (m & Em & Eb); [done|lia|].
    destruct m as [|y m]; [rewrite app_nil_r in Em; rewrite Em in Hlt; lia|]. destruct Hoff as [?|[Hb|Ha']]; [congruence| |].
    - rewrite Eb in Hb. cbn in Hb. destruct a as [|x a]; cbn in Em; [injection Em as <- <-; done|].
      injection Em as <- ->. apply Forall_app in Hn as [_ [Hy _]%Forall_cons]. congruence.
    - destruct a as [|x a]; [done|]. cbn in Em. injection Em as <- ->. done. }
  destruct (add_range_spot t1 a b (blen (chr "/" :: name)) Hs1) as (Hs2 & Hm2 & He2); [|done|].
  { rewrite (sp_text _ _ _ Hs1), Et. change (chr "/" :: name ++ w :: rest) with ((chr "/" :: name) ++ w :: rest). apply boundary_split. }
  eexists. split_and!; [done|done|by eapply same_modes_trans|]. intros u y v Euv Hy Hc.
  apply Hclear in Hc. unfold clear in *. rewrite (sp_cursor _ _ _ Hs2). rewrite (sp_cursor _ _ _ Hs1) in Hc. rewrite Forall_forall in Hc |- *.
  intros e [He|He]%He2; [auto|]. left. rewrite He. eapply (range_end_le _ (y :: v)).
  - rewrite <- Euv. exact Et.
  - intros Hin. apply elem_of_cons in Hin as [->|Hin]; [done|]. rewrite Forall_forall in Ha. rewrite Ha in Hy; done.
Qed.
End sync.

(** ** Typing *)
(** A key that stands for its character: no binding of the editor takes it. *)
Definition bound_keys (km : EditorKeymap) : list (list KeyBinding) :=
  [insert_newline km; delete_backward_word_keys km; delete_backward_keys km; delete_forward_word_keys km; delete_forward_keys km;
   kill_line_start km; kill_whole_line km; kill_line_end km; yank_keys km; move_word_left km; move_word_right km; move_left km;
   move_right km; move_up km; move_down km; move_line_start km; move_line_end km].
Definition types_char (km : EditorKeymap) (e : KeyEvent) (ch : char) : Prop :=
  ev_code e = KChar ch ∧ (ev_modifiers e = NONE ∨ ev_modifiers e = SHIFT) ∧ ev_kind e ≠ KRelease ∧ 32 <= ch ∧ ch ≠ 127 ∧
  Forall (λ bs, is_pressed bs e = false) (bound_keys km).
Lemma types_modifiers km e ch : types_char km e ch → has_ctrl_or_alt (ev_modifiers e) = false.
Proof. intros (_ & [-> | ->] & _); done. Qed.
Lemma types_not_cr km e ch : types_char km e ch → ch ≠ cr.
Proof. intros (_ & _ & _ & ? & _). unfold cr. lia. Qed.
(** What happens: a key press, or a tick of the screen. *)
Inductive happening := Press (e : KeyEvent) | Tick.
Lemma no_cr_same s : Forall (λ ch, ch ≠ cr) s → replace_cr (replace_crlf s) = s.
Proof.
  intros Hs. assert (replace_crlf s = s) as ->.
  { induction Hs as [|c [|d s] Hc Hs IH]; [done..|]. cbn in *. apply N.eqb_neq in Hc. rewrite Hc. cbn. by f_equal. }
  unfold replace_cr. induction Hs as [|c s Hc _ IH]; [done|]. cbn. apply N.eqb_neq in Hc. rewrite Hc. by f_equal.
Qed.
Lemma filter_all_true {A} (f : A → bool) l : Forall (λ x, f x = true) l → List.filter f l = l.
Proof. induction 1 as [|x l Hx _ IH]; cbn; [done|]. by rewrite Hx, IH. Qed.
Section typing.
Context {U : Unicode} {P : PastedPaths} (debug : bool).
Lemma input_types t e ch : types_char (editor_keymap t) e ch → allows_paste_burst t = true → TextArea.input t e = insert_str t [ch].
Proof using Type.
  intros (Ek & Em & Ekind & Hlo & Hdel & Hb) Hv. unfold TextArea.input, pressed_or_repeated.
  destruct (ev_kind e); [| |done]; cbn [negb];
    (transitivity (input_with_keymap t e (editor_keymap t));
      [unfold allows_paste_burst in Hv; destruct (vim_enabled t); [|done]; destruct (vim_mode t); [done|]; unfold handle_vim_insert; by rewrite Ek|]);
    unfold input_with_keymap; repeat (apply Forall_cons in Hb as [-> Hb]); rewrite Ek; cbn; unfold input_char; rewrite Ek;
    replace ((ev_modifiers e =? NONE) || (ev_modifiers e =? SHIFT)) with true by (by destruct Em as [-> | ->]);
    (destruct (N.ltb_spec ch 32); [lia|]); (destruct (N.eqb_spec ch 127); [lia|]); done.
Qed.
(** A moment: the composer takes the event and the popups follow, as in the event loop. *)
Definition happen (c : ChatComposer) (moment : N * happening) : option ChatComposer :=
  match moment.2 with
  | Press e => c ← handle_input_basic debug c e moment.1; Some (sync_popups debug c)
  | Tick => fst <$> handle_paste_burst_flush debug c moment.1
  end.
Fixpoint happen_all (c : ChatComposer) (moments : list (N * happening)) : option ChatComposer :=
  match moments with [] => Some c | m :: moments => c ← happen c m; happen_all c moments end.
(** The characters of the presses. *)
Definition typed_of (moments : list (N * happening)) : rstring :=
  omap (λ m, match m.2 with Press e => match ev_code e with KChar ch => Some ch | _ => None end | Tick => None end) moments.
(** No text of this composer is read as the path of an image. *)
Definition no_images (c : ChatComposer) : Prop :=
  image_paste_enabled (config c) = false ∨ ∀ s path, normalize_pasted_path s = Some path → has_image_dimensions path = false.
Definition bang (s : rstring) : bool := starts_with s (lit "!").
(** A composer at rest with the cursor between [before] and [after], where [typed] is going to be typed. *)
Record ready (c : ChatComposer) (before after typed : rstring) : Prop := {
  r_spot : at_spot (area c) before after;
  r_burst : burst c = default_burst;
  r_insert : allows_paste_burst (area c) = true;
  r_labels : Forall (λ i, image_placeholder i ≠ []) (local_images (attachments c));
  r_images : no_images c;
  r_command : off_command c before after;
  r_tiers : ascii_names (service_tier_commands c);
  r_bash : bash c = true ∨ (bang (before ++ after) = false ∧ bang (before ++ typed) = false);
  r_small : char_count typed <= LARGE_PASTE_CHAR_THRESHOLD }.

(** *** The invariant *)
Context (c0 : ChatComposer) (before after typed : rstring) (Hready : ready c0 before after typed)
  (Hcr : Forall (λ ch, ch ≠ cr) typed).
Record frame (c : ChatComposer) : Prop := {
  f_attachments : attachments c = attachments c0; f_config : config c = config c0; f_flags : command_flags c = command_flags c0;
  f_tiers : service_tier_commands c = service_tier_commands c0; f_disabled : disable_paste_burst (draft c) = disable_paste_burst (draft c0);
  f_modes : same_modes (area c0) (area c); f_bash : bash c = bash c0 }.
Record spot (c : ChatComposer) (shown : rstring) : Prop := {
  s_area : at_spot (area c) (before ++ shown) after; s_frame : frame c; s_shown : shown `prefix_of` typed }.
Record burst_shape (b : PasteBurst) : Prop := {
  b_held ch t : pending_first_char b = Some (ch, t) → buffer b = [] ∧ active b = false ∧ last_plain_char_time b = Some t;
  b_active : active b = true ↔ buffer b ≠ [];
  b_time : active b = true → is_Some (last_plain_char_time b);
  b_count : consecutive_plain_char_burst b <= u16_max }.
Definition live (b : PasteBurst) (k : N) : Prop := ∃ t, last_plain_char_time b = Some t ∧ k - t <= PASTE_BURST_CHAR_INTERVAL.
(** The characters that the burst may still take back: nothing cuts them. *)
Definition retrievable (c : ChatComposer) (shown : rstring) : Prop :=
  ∃ u v, shown = u ++ v ∧ consecutive_plain_char_burst (burst c) <= char_count v ∧ clear (area c) (blen (before ++ u)) ∧
    match v with [] => True | x :: _ => is_ascii x = false end.
Record typing (k : N) (sofar : rstring) (c : ChatComposer) (shown : rstring) : Prop := {
  t_spot : spot c shown;
  t_typed : shown ++ held (burst c) = sofar;
  t_shape : burst_shape (burst c);
  t_past t : last_plain_char_time (burst c) = Some t → t <= k;
  t_room : pending_first_char (burst c) = None → active (burst c) = false → live (burst c) k → retrievable c shown }.

Lemma frame_off c shown : frame c → off_command c (before ++ shown) after.
Proof using Hready.
  intros Hf. pose proof (r_command _ _ _ _ Hready) as H. unfold off_command in *. rewrite (f_config _ Hf).
  destruct before; cbn in *; [|tauto]. tauto.
Qed.
Lemma frame_tiers c : frame c → ascii_names (service_tier_commands c).
Proof using Hready. intros Hf. rewrite (f_tiers _ Hf). apply Hready. Qed.
Lemma frame_images c : frame c → no_images c.
Proof using Hready. intros Hf. unfold no_images. rewrite (f_config _ Hf). apply Hready. Qed.
Lemma frame_insert c : frame c → allows_paste_burst (area c) = true.
Proof using Hready.
  intros Hf. destruct (f_modes _ Hf) as (E1 & E2 & _). pose proof (r_insert _ _ _ _ Hready) as H. unfold allows_paste_burst in *. by rewrite E1, E2.
Qed.
Lemma bang_app a b : bang (a ++ b) = match a with [] => bang b | x :: _ => bang [x] end.
Proof using Type.
  destruct a as [|x a]; [done|]. unfold bang, starts_with. apply bool_decide_ext. cbn. split; intros [k [= -> ?]]; by eexists.
Qed.
Lemma no_bang c shown : frame c → shown `prefix_of` typed → bash c = true ∨ bang (before ++ shown ++ after) = false.
Proof using Hready.
  intros Hf [r Er]. rewrite (f_bash _ Hf). destruct (r_bash _ _ _ _ Hready) as [?|[H1 H2]]; [by left|right].
  rewrite Er in H2. rewrite bang_app in *. destruct before; [|done]. rewrite bang_app in *. by destruct shown.
Qed.
Lemma sync_bash_id c shown : spot c shown → sync_bash_mode_from_text c = Some c.
Proof using Hready.
  intros [Ha Hf Hp]. unfold sync_bash_mode_from_text. rewrite (sp_text _ _ _ Ha), <- app_assoc.
  destruct (no_bang c shown Hf Hp) as [->|Hb]; [done|]. unfold bang in Hb. by rewrite Hb, andb_false_r.
Qed.
Lemma spot_area c shown t shown' : spot c shown → at_spot t (before ++ shown') after → same_modes (area c) t → shown' `prefix_of` typed →
  spot (with_area c t) shown'.
Proof using Type.
  intros [_ Hf _] Ht Hm Hp. split; [done| |done]. destruct Hf. split; try done. by eapply same_modes_trans.
Qed.
Lemma spot_sync c shown : spot c shown → ∃ t', sync_popups debug c = with_area c t' ∧ spot (with_area c t') shown ∧
  (∀ u v, shown = u ++ v → match v with [] => True | x :: _ => is_ascii x = false end →
    clear (area c) (blen (before ++ u)) → clear t' (blen (before ++ u))).
Proof using Hready.
  intros Hs. destruct Hs as [Ha Hf Hp] eqn:E. clear E. destruct (sync_popups_spot debug c (before ++ shown) after) as (t' & -> & Ht & Hm & Hc);
    [done|by apply frame_off|by apply frame_tiers|]. exists t'. split_and!; [done|by eapply spot_area|].
  intros u [|y v] Eu Hv Hcl; [|by apply (Hc (before ++ u) y (v ++ after)); [rewrite Eu, <- !app_assoc|..]].
  rewrite app_nil_r in Eu. subst u. by eapply spot_clear.
Qed.
Lemma burst_spot c shown b : spot c shown → spot (with_burst c b) shown.
Proof using Type. intros [Ha Hf Hp]. split; [exact Ha| |exact Hp]. destruct Hf. by split. Qed.
Lemma insert_spot c shown s : spot c shown → shown ++ s `prefix_of` typed →
  has_post (insert_text c s) (λ c', ∃ t', c' = with_area c t' ∧ spot c' (shown ++ s) ∧
    (∀ u, u `prefix_of` shown → clear (area c) (blen (before ++ u)) → clear t' (blen (before ++ u))) ∧
    (∀ p, p ∈ element_payloads (area c) → p ≠ [] → p ∈ element_payloads t')).
Proof using Type.
  intros Hs Hp. unfold insert_text. eapply has_post_bind; [apply insert_at_spot, Hs|]. intros t' (Ht & Hm & Hc & Hpay).
  rewrite <- app_assoc in Ht. apply has_post_ret. exists t'. split_and!; [done|by eapply spot_area| |done].
  intros u [r ->]. apply Hc. rewrite !blen_app. lia.
Qed.
Lemma composer_insert_spot c shown s : spot c shown → shown ++ s `prefix_of` typed →
  has_post (composer_insert_str debug c s) (λ c', spot c' (shown ++ s) ∧ burst c' = burst c).
Proof using Hready.
  intros Hs Hp. unfold composer_insert_str. eapply has_post_bind; [by eapply insert_spot|]. intros c' (t' & -> & Hs' & _).
  rewrite (sync_bash_id _ _ Hs'). cbn [mbind option_bind]. apply has_post_ret. destruct (spot_sync _ _ Hs') as (t'' & -> & ? & _). done.
Qed.
Lemma paste_spot c shown s : spot c shown → shown ++ s `prefix_of` typed →
  has_post (handle_paste debug c s) (λ c', spot c' (shown ++ s) ∧ burst c' = default_burst).
Proof using Hready Hcr.
  intros Hs Hp. assert (Forall (λ ch, ch ≠ cr) s ∧ char_count s <= LARGE_PASTE_CHAR_THRESHOLD) as [Hs1 Hs2].
  { destruct Hp as [r Er]. rewrite Er in Hcr. apply Forall_app in Hcr as [[_ ?]%Forall_app _]. split; [done|].
    pose proof (r_small _ _ _ _ Hready) as Hsm. rewrite Er in Hsm. unfold char_count in *. rewrite !length_app in Hsm. lia. }
  unfold handle_paste. rewrite no_cr_same by done. cbn zeta. rewrite (proj2 (N.ltb_ge _ _)) by done.
  eapply (has_post_bind _ _ (λ c', spot c' (shown ++ s))).
  - destruct ((1 <? char_count s) && image_paste_enabled (config c)) eqn:Ei.
    + assert (handle_paste_image_path c s = Some (c, false)) as ->.
      { unfold handle_paste_image_path. destruct (normalize_pasted_path s) as [path|] eqn:En; [|done].
        destruct (frame_images c (s_frame _ _ Hs)) as [Hno|Hno]; [|rewrite (Hno _ _ En); done]. rewrite Hno, andb_false_r in Ei. done. }
      cbn [mbind option_bind]. eapply has_post_weaken; [by apply composer_insert_spot|]. by intros c' [? _].
    + cbn [mbind option_bind]. eapply has_post_weaken; [by apply composer_insert_spot|]. by intros c' [? _].
  - intros c' Hs'. apply has_post_ret. unfold clear_after_explicit_paste.
    assert (spot (with_burst c' default_burst) (shown ++ s)) as Hb by by apply burst_spot.
    destruct (spot_sync _ _ Hb) as (t' & -> & ? & _). done.
Qed.
Lemma flush_burst_spot c shown : spot c shown → shown ++ held (burst c) `prefix_of` typed → burst_shape (burst c) →
  has_post (flush_burst debug c) (λ c', spot c' (shown ++ held (burst c)) ∧
    (burst c' = default_burst ∨ c' = c ∧ active (burst c) = false ∧ pending_first_char (burst c) = None)).
Proof using Hready Hcr.
  intros Hs Hp Hsh. unfold flush_burst, flush_before_modified_input. destruct (is_active (burst c)) eqn:Ea; cbn [negb].
  - eapply has_post_weaken; [apply paste_spot; [by apply burst_spot|exact Hp]|]. intros c' [? ?]. split; [done|by left].
  - apply has_post_ret. unfold is_active, is_active_internal in Ea. apply orb_false_iff in Ea as [[E1 E2]%orb_false_iff E3].
    apply negb_false_iff, bool_decide_eq_true in E2. apply bool_decide_eq_false in E3.
    assert (pending_first_char (burst c) = None) as E4 by (destruct (pending_first_char (burst c)); [by destruct E3|done]).
    unfold held, held_char. rewrite E2, E4. cbn. rewrite app_nil_r. replace (with_burst c (burst c)) with c; [auto|].
    by destruct c as [[] ? ? ? ? ? ? ? ? ?].
Qed.
Lemma typing_later k now sofar c shown : typing k sofar c shown → k <= now → typing now sofar c shown.
Proof using Type.
  intros [? ? ? Hpast Hroom] Hle. split; [done..|intros t Ht; specialize (Hpast t Ht); lia|]. intros ? ? (t & Et & Hl). apply Hroom; [done..|].
  exists t. split; [done|lia].
Qed.
Lemma default_shape : burst_shape default_burst.
Proof using Type. by split; cbn; [|split|intros ?|]. Qed.
(** A burst that is over. *)
Lemma typing_rest k c shown : spot c shown → burst c = default_burst → typing k shown c shown.
Proof using Type.
  intros Hs Eb. split; rewrite ?Eb; [done|by rewrite app_nil_r|apply default_shape|done|]. intros _ _ (t & [=] & _).
Qed.
Lemma prefix_l {A} (a b l : list A) : a ++ b `prefix_of` l → a `prefix_of` l.
Proof using Type. intros [r ->]. exists (b ++ r). by rewrite <- app_assoc. Qed.
Lemma shape_active_internal b : burst_shape b → is_active_internal b = active b.
Proof using Type.
  intros Hb. unfold is_active_internal. destruct (active b) eqn:Ea; [done|]. cbn. apply negb_false_iff, bool_decide_eq_true.
  destruct (decide (buffer b = [])) as [?|Hn]; [done|]. apply (b_active _ Hb) in Hn. congruence.
Qed.
Lemma shape_inactive b : burst_shape b → active b = false → buffer b = [].
Proof using Type.
  intros Hb Ea. destruct (decide (buffer b = [])) as [?|Hn]; [done|]. apply (b_active _ Hb) in Hn. congruence.
Qed.
Lemma quiet_held b : burst_shape b → pending_first_char b = None → active b = false → held b = [].
Proof using Type. intros Hsh Hp Ha. unfold held, held_char. by rewrite Hp, (shape_inactive _ Hsh Ha). Qed.
Lemma quiet_shown now sofar c shown : typing now sofar c shown → pending_first_char (burst c) = None → active (burst c) = false → shown = sofar.
Proof using Type. intros Ht Hp Ha. rewrite <- (t_typed _ _ _ _ Ht), (quiet_held _ (t_shape _ _ _ _ Ht) Hp Ha). by rewrite app_nil_r. Qed.
Lemma tick_typing k now sofar c shown : typing k sofar c shown → k <= now → sofar `prefix_of` typed →
  has_post (handle_paste_burst_flush debug c now) (λ r, ∃ shown', typing now sofar r.1 shown' ∧
    (∀ ch t, pending_first_char (burst r.1) = Some (ch, t) → now - t <= PASTE_BURST_CHAR_INTERVAL) ∧
    ((∀ t, last_plain_char_time (burst c) = Some t → t + PASTE_BURST_CHAR_INTERVAL < now) → shown' = sofar)).
Proof using Hready Hcr.
  intros Ht Hle Hp. destruct Ht as [Hs Ety Hsh Hpast Hroom] eqn:E. clear E. unfold handle_paste_burst_flush, flush_if_due.
  rewrite (shape_active_internal _ Hsh). change PASTE_BURST_ACTIVE_IDLE_TIMEOUT with PASTE_BURST_CHAR_INTERVAL.
  replace (if active (burst c) then PASTE_BURST_CHAR_INTERVAL else PASTE_BURST_CHAR_INTERVAL) with PASTE_BURST_CHAR_INTERVAL
    by by destruct (active _).
  destruct (match last_plain_char_time (burst c) with Some t => _ | None => _ end) eqn:Eto; cbn [andb].
  - destruct (last_plain_char_time (burst c)) as [t|] eqn:El; [|done]. apply N.ltb_lt in Eto.
    destruct (active (burst c)) eqn:Ea; cbn [mbind option_bind].
    + assert (held (burst c) = buffer (burst c)) as Eh.
      { unfold held, held_char. destruct (pending_first_char (burst c)) as [[ch t']|] eqn:Epe; [|by rewrite app_nil_r].
        apply (b_held _ Hsh) in Epe as (_ & ? & _). congruence. }
      eapply has_post_bind.
      { apply paste_spot; [by apply burst_spot|]. rewrite <- Eh. by rewrite Ety. }
      intros c' [Hs' Eb']. apply has_post_ret. rewrite <- Eh, Ety in Hs'. exists sofar. split_and!; [by apply typing_rest| |done].
      cbn. by rewrite Eb'.
    + pose proof (shape_inactive _ Hsh Ea) as Ebuf. unfold held, held_char in Ety. rewrite Ebuf in Ety |- *.
      destruct (pending_first_char (burst c)) as [[ch t']|] eqn:Epe; cbn [mbind option_bind app] in *.
      * eapply has_post_bind; [apply composer_insert_spot; [by apply burst_spot|by rewrite Ety]|]. intros c' [Hs' Eb'].
        apply has_post_ret. exists sofar. cbn. rewrite Ety in Hs'. split_and!; [|by rewrite Eb'|done].
        split; rewrite ?Eb'; cbn; [done|by rewrite app_nil_r| |intros t'' E''; rewrite El in E''; injection E'' as <-; lia|].
        -- split; cbn; [done|by split|done|apply Hsh].
        -- intros _ _ (t'' & E'' & Hl). cbn in E''. rewrite El in E''. injection E'' as <-. lia.
      * apply has_post_ret. exists shown. rewrite app_nil_r in Ety. cbn. split_and!; [|done|done].
        split; [by apply burst_spot|by rewrite app_nil_r| |cbn; intros t'' E''; rewrite El in E''; injection E'' as <-; specialize (Hpast _ eq_refl); lia|].
        -- split; cbn; [done|by split|done|apply Hsh].
        -- cbn. intros _ _ (t'' & E'' & Hl). cbn in E''. rewrite El in E''. injection E'' as <-. lia.
  - apply has_post_ret. exists shown. cbn. assert (with_burst c (burst c) = c) as Ec by by destruct c as [[] ? ? ? ? ? ? ? ? ?].
    rewrite Ec. split_and!; [by eapply typing_later| |].
    + intros ch t Epe. destruct (b_held _ Hsh ch t Epe) as (_ & _ & El). rewrite El in Eto. by apply N.ltb_ge in Eto.
    + intros Hlt. destruct (last_plain_char_time (burst c)) as [t|] eqn:El; [apply N.ltb_ge in Eto; specialize (Hlt t eq_refl); lia|].
      apply (quiet_shown now sofar c shown); [by eapply typing_later| |].
      * destruct (pending_first_char (burst c)) as [[ch t]|] eqn:Epe; [|done]. apply (b_held _ Hsh) in Epe as (_ & _ & ?). congruence.
      * destruct (active (burst c)) eqn:Ea; [|done]. destruct (b_time _ Hsh Ea). congruence.
Qed.
Lemma pastes_spot c shown p : spot c shown → spot (with_pastes c p) shown.
Proof using Type. intros [Ha Hf Hp]. split; [exact Ha| |exact Hp]. destruct Hf. by split. Qed.
Lemma clear_later t lo lo' : lo <= lo' → clear t lo → clear t lo'.
Proof using Type. intros Hle Hc. eapply Forall_impl; [exact Hc|]. intros e. cbn. lia. Qed.
Lemma reconcile_spot c shown removed : spot c shown → Forall (λ p, p ≠ [] → p ∈ element_payloads (area c)) removed →
  has_post (reconcile_deleted_elements c removed) (λ c', spot c' shown ∧ burst c' = burst c ∧ area c' = area c).
Proof using Hready.
  intros Hs Hr. unfold reconcile_deleted_elements, remove_deleted_local_placeholders. set (gone := List.filter _ removed).
  assert (List.filter (λ i, negb (bool_decide (image_placeholder i ∈ gone))) (local_images (attachments c)) = local_images (attachments c)) as Ei.
  { apply filter_all_true. pose proof (r_labels _ _ _ _ Hready) as Hl. rewrite (f_attachments _ (s_frame _ _ Hs)).
    eapply Forall_impl; [exact Hl|]. intros i Hi. cbn. apply negb_true_iff, bool_decide_eq_false.
    intros [Hg Hn]%list_elem_of_In%List.filter_In. apply negb_true_iff, bool_decide_eq_false in Hn. rewrite Forall_forall in Hr.
    apply Hn, Hr; [by apply list_elem_of_In|done]. }
  cbn [attachments with_pastes with_draft_state]. rewrite Ei, Nat.eqb_refl. cbn [negb mbind option_bind]. apply has_post_ret.
  split_and!; [|done|done]. destruct Hs as [Ha Hf Hp]. split; [exact Ha| |exact Hp]. destruct Hf. split; try done. cbn.
  etransitivity; [|eassumption]. by destruct (attachments c).
Qed.
Lemma flush_key_spot c shown ch e : spot c shown → shown ++ [ch] `prefix_of` typed → types_char (editor_keymap (area c0)) e ch →
  has_post (text_input c e) (λ c', ∃ t', c' = with_area c t' ∧ spot c' (shown ++ [ch]) ∧
    (∀ u, u `prefix_of` shown → clear (area c) (blen (before ++ u)) → clear t' (blen (before ++ u))) ∧
    (∀ p, p ∈ element_payloads (area c) → p ≠ [] → p ∈ element_payloads t')).
Proof using Hready.
  intros Hs Hp He. pose proof (s_frame _ _ Hs) as Hf. unfold text_input. destruct (f_modes _ Hf) as (_ & _ & Ek).
  rewrite input_types with (ch := ch); [by apply insert_spot|by rewrite Ek|by apply frame_insert].
Qed.
Lemma apply_key_spot c shown ch e : spot c shown → shown ++ [ch] `prefix_of` typed → types_char (editor_keymap (area c0)) e ch →
  has_post (apply_key debug c e) (λ c', spot c' (shown ++ [ch]) ∧ burst c' = burst c ∧
    ∀ u, u `prefix_of` shown → clear (area c) (blen (before ++ u)) → clear (area c') (blen (before ++ u))).
Proof using Hready.
  intros Hs Hp He. unfold apply_key. destruct He as (Ek & He') eqn:E. clear E. rewrite Ek. cbn [mbind option_bind].
  rewrite bool_decide_eq_false_2 by done. rewrite andb_false_r. cbn [andb].
  eapply has_post_bind; [by eapply flush_key_spot|]. intros c' (t' & -> & Hs' & Hc & Hpay). rewrite (sync_bash_id _ _ Hs'). cbn [mbind option_bind].
  eapply (has_post_bind _ _ (λ c', spot c' (shown ++ [ch]) ∧ burst c' = burst c ∧ area c' = t')).
  - destruct (_ && _); [by apply has_post_ret|]. eapply has_post_weaken; [apply reconcile_spot; [done|]|done].
    apply Forall_forall. intros p Hin Hne. by apply Hpay.
  - intros c' (Hs'' & Eb & Ea). apply has_post_ret. rewrite (types_modifiers _ _ _ He). split_and!; [done|done|]. by rewrite Ea.
Qed.
Lemma insert_key_spot c shown ch e : spot c shown → shown ++ [ch] `prefix_of` typed → types_char (editor_keymap (area c0)) e ch →
  has_post (c ← text_input c e; Some (retain_pastes c)) (λ c', spot c' (shown ++ [ch]) ∧ burst c' = burst c ∧
    ∀ u, u `prefix_of` shown → clear (area c) (blen (before ++ u)) → clear (area c') (blen (before ++ u))).
Proof using Hready.
  intros Hs Hp He. eapply has_post_bind; [by eapply flush_key_spot|]. intros c' (t' & -> & Hs' & Hc & _). apply has_post_ret.
  split_and!; [by apply pastes_spot|done|done].
Qed.
Lemma clamp_id s n : boundary s n → clamp_to_char_boundary s n = n.
Proof using Type.
  intros Hb. unfold clamp_to_char_boundary. rewrite N.min_l by by apply boundary_le. apply is_char_boundary_spec in Hb. rewrite Hb.
  by rewrite andb_false_r.
Qed.
Lemma begin_spot c shown n now u v : spot c shown → shown = u ++ v → n <= char_count v → clear (area c) (blen (before ++ u)) →
  has_post (begin_buffer c n now) (λ r, r = (c, false) ∨
    r.2 = true ∧ ∃ s1 g, shown = s1 ++ g ∧ g ≠ [] ∧ spot r.1 s1 ∧ burst r.1 = begin_with_retro_grabbed (burst c) g now).
Proof using Hready.
  intros Hs Eu Hn Hc. pose proof (s_area _ _ Hs) as Ha. pose proof Ha as [Hwf Et Ec _]. unfold begin_buffer.
  rewrite Et, Ec, clamp_id, split_at_byte_app by apply boundary_split. cbn [mbind option_bind]. rewrite decide_begin_spec. cbv zeta.
  unfold char_count in Hn. set (m := (length v - N.to_nat n)%nat).
  assert (take (length (before ++ shown) - N.to_nat n) (before ++ shown) = before ++ u ++ take m v ∧
    drop (length (before ++ shown) - N.to_nat n) (before ++ shown) = drop m v) as [-> ->].
  { rewrite Eu, app_assoc. replace (length ((before ++ u) ++ v) - N.to_nat n)%nat with (length (before ++ u) + m)%nat
      by (rewrite !length_app; lia). rewrite take_app_add, drop_app_add. by rewrite <- app_assoc. }
  destruct (existsb is_whitespace (drop m v) || _) eqn:El; cbn [mbind option_bind].
  2: { apply has_post_ret. left. f_equal. by destruct c as [[] ? ? ? ? ? ? ? ? ?]. }
  assert (drop m v ≠ []) as Hne by by intros Eg; rewrite Eg in El. cbn [grabbed start_byte]. rewrite bool_decide_eq_false_2 by done.
  assert (shown = (u ++ take m v) ++ drop m v) as Es by by rewrite <- app_assoc, take_drop.
  eapply has_post_bind.
  - rewrite Es, (app_assoc before (u ++ take m v)). apply remove_at_spot.
    + rewrite <- app_assoc, <- Es. exact Ha.
    + eapply clear_later; [|exact Hc]. rewrite !blen_app. lia.
  - intros t' [Ht Hm]. apply has_post_ret. right. split; [done|]. exists (u ++ take m v), (drop m v). split_and!; [done|done| |done].
    pose proof (s_frame _ _ Hs) as Hf. cbn [fst]. change (spot (with_area (with_burst c (begin_with_retro_grabbed (burst c) (drop m v) now)) t') (u ++ take m v)).
    eapply spot_area; [by apply burst_spot|done|done|]. destruct (s_shown _ _ Hs) as [r Er]. rewrite Es in Er. exists (drop m v ++ r).
    by rewrite app_assoc.
Qed.
Lemma note_shape b now : burst_shape b → pending_first_char b = None → burst_shape (note_plain_char b now).
Proof using Type.
  intros [Hh Ha Ht Hc] Hp. split; cbn; [by rewrite Hp|done|done|]. repeat case_match; unfold u16_max in *; lia.
Qed.
Lemma captured_typing now sofar c shown b' : spot c shown → active b' = true → pending_first_char b' = None → buffer b' ≠ [] →
  (∃ t, last_plain_char_time b' = Some t ∧ t <= now) → consecutive_plain_char_burst b' <= u16_max → shown ++ buffer b' = sofar →
  typing now sofar (with_burst c b') shown.
Proof using Type.
  intros Hs Ha Hp Hb (t & El & Ht) Hc Et. split; cbn; [by apply burst_spot| | | |].
  - unfold held, held_char. by rewrite Hp, app_nil_r.
  - split; [by rewrite Hp|done|by intros _; exists t|done].
  - rewrite El. by intros t' [= <-].
  - by rewrite Ha.
Qed.
(** A character joins the burst, noted at [now], or the text. *)
Lemma note_count b now : consecutive_plain_char_burst b <= u16_max →
  consecutive_plain_char_burst (note_plain_char b now) <= u16_max ∧
  (live b now ∧ consecutive_plain_char_burst (note_plain_char b now) <= consecutive_plain_char_burst b + 1 ∨
   consecutive_plain_char_burst (note_plain_char b now) = 1).
Proof using Type.
  intros Hc. cbn. destruct (last_plain_char_time b) as [t|] eqn:El; [|by split; [|right]].
  destruct (N.leb_spec (now - t) PASTE_BURST_CHAR_INTERVAL) as [Hl|Hl]; [|by split; [|right]]. split; [lia|]. left. split; [by exists t|lia].
Qed.
Lemma note_room now sofar c shown : typing now sofar c shown → pending_first_char (burst c) = None → active (burst c) = false →
  ∃ u v, shown = u ++ v ∧ consecutive_plain_char_burst (note_plain_char (burst c) now) <= char_count v + 1 ∧
    clear (area c) (blen (before ++ u)) ∧ match v with [] => True | x :: _ => is_ascii x = false end.
Proof using Type.
  intros [Hs _ Hsh _ Hroom] Hp Ha. destruct (note_count (burst c) now (b_count _ Hsh)) as [_ [[Hl Hle]|E1]].
  - destruct (Hroom Hp Ha Hl) as (u & v & Eu & Hv & ? & ?). exists u, v. split_and!; [done|lia|done|done].
  - exists shown, []. rewrite app_nil_r, E1. split_and!; [done|done| |done]. eapply spot_clear, Hs.
Qed.
Lemma inserted_typing now c c' shown u v ch : spot c' (shown ++ [ch]) → burst_shape (burst c') → pending_first_char (burst c') = None →
  active (burst c') = false → (∀ t, last_plain_char_time (burst c') = Some t → t <= now) → shown = u ++ v →
  consecutive_plain_char_burst (burst c') <= char_count v + 1 →
  (∀ u, u `prefix_of` shown → clear (area c) (blen (before ++ u)) → clear (area c') (blen (before ++ u))) →
  clear (area c) (blen (before ++ u)) → match v with [] => is_ascii ch = false ∨ consecutive_plain_char_burst (burst c') = 0 | x :: _ => is_ascii x = false end →
  typing now (shown ++ [ch]) c' (shown ++ [ch]).
Proof using Type.
  intros Hs Hsh Hp Ha Hl Eu Hc Hpres Hcl Hv. split; [done| |done|done|].
  - unfold held, held_char. by rewrite Hp, (shape_inactive _ Hsh Ha), app_nil_r.
  - intros _ _ _. destruct v as [|x v]; [destruct Hv as [Hv|Hv]|].
    + rewrite app_nil_r in Eu. subst u. exists shown, [ch]. split_and!; [done|done|by apply Hpres|done].
    + exists (shown ++ [ch]), []. rewrite app_nil_r, Hv. split_and!; [done|done| |done]. eapply spot_clear, Hs.
    + exists u, ((x :: v) ++ [ch]). split_and!; [by rewrite Eu, <- app_assoc| |apply Hpres; [by exists (x :: v)|done]|done].
      unfold char_count in *. rewrite length_app. cbn in *. lia.
Qed.
Lemma flush_quiet c : burst_shape (burst c) → pending_first_char (burst c) = None → active (burst c) = false → flush_burst debug c = Some c.
Proof using Type.
  intros Hsh Hp Ha. unfold flush_burst, flush_before_modified_input, is_active. rewrite (shape_active_internal _ Hsh), Ha, Hp. cbn.
  f_equal. by destruct c as [[] ? ? ? ? ? ? ? ? ?].
Qed.
(** The decision for a noted character in a quiet state: taken into the burst, or inserted as [insert] does. *)
Lemma decide_typing now c shown ch (insert : ChatComposer → option ChatComposer) n :
  typing now shown c shown → pending_first_char (burst c) = None → active (burst c) = false →
  burst_decision (note_plain_char (burst c) now) = Some (BeginBuffer n) →
  (let c1 := with_burst c (note_plain_char (burst c) now) in
   has_post (insert c1) (λ c', spot c' (shown ++ [ch]) ∧ burst c' = burst c1 ∧
    ∀ u, u `prefix_of` shown → clear (area c) (blen (before ++ u)) → clear (area c') (blen (before ++ u)))) →
  has_post ('(c, grabbed) ← begin_buffer (with_burst c (note_plain_char (burst c) now)) n now;
            if grabbed : bool then Some (buffer_char c ch now) else insert c)
    (λ c', ∃ shown', typing now (shown ++ [ch]) c' shown').
Proof using Hready.
  intros Ht Hp Ha Hd Hins. destruct (note_room _ _ _ _ Ht Hp Ha) as (u & v & Eu & Hc & Hcl & Hv). pose proof (t_shape _ _ _ _ Ht) as Hsh.
  destruct (note_count (burst c) now (b_count _ Hsh)) as [Hmax _]. unfold burst_decision in Hd.
  destruct (N.leb_spec PASTE_BURST_MIN_CHARS (consecutive_plain_char_burst (note_plain_char (burst c) now))) as [Hge|]; [|done].
  assert (n = consecutive_plain_char_burst (note_plain_char (burst c) now) - 1) as -> by (injection Hd; intros <-; done). set (c1 := with_burst c _) in *.
  eapply has_post_bind; [apply (begin_spot c1 shown _ now u v); [by apply burst_spot, Ht|done|lia|done]|].
  intros [c2 taken] [[= -> ->]|[Htk (s1 & g & Es & Hg & Hs1 & Eb)]]; cbn in *.
  - eapply has_post_weaken; [exact Hins|]. cbn. intros c' (Hs' & Eb & Hpres). exists (shown ++ [ch]).
    pose proof (note_shape _ now Hsh Hp) as Hsh'. unfold PASTE_BURST_MIN_CHARS in Hge.
    eapply (inserted_typing now c c' shown u v); rewrite ?Eb; try done. { by intros t [= <-]. }
    destruct v; [|done]. unfold char_count in Hc. cbn in Hc, Hge. lia.
  - rewrite Htk. apply has_post_ret. exists s1. apply captured_typing; cbn; rewrite ?Eb; cbn; rewrite ?Eb; try done.
    + by intros [_ [=]]%app_nil.
    + by exists now.
    + rewrite (shape_inactive _ Hsh Ha). cbn. by rewrite Es, app_assoc.
Qed.
Lemma with_burst_same c : with_burst c (burst c) = c.
Proof using Type. by destruct c as [[] ? ? ? ? ? ? ? ? ?]. Qed.
Definition settled (now : N) (c : ChatComposer) : Prop :=
  ∀ ch t, pending_first_char (burst c) = Some (ch, t) → now - t <= PASTE_BURST_CHAR_INTERVAL.
Lemma ascii_typing now sofar c shown ch e : typing now sofar c shown → settled now c → types_char (editor_keymap (area c0)) e ch →
  sofar ++ [ch] `prefix_of` typed →
  let '(b, decision) := on_plain_char (burst c) ch now in
  has_post (let c := with_burst c b in
            match decision with
            | BufferAppend | BeginBufferFromPending => Some (buffer_char c ch now)
            | BeginBuffer retro_chars =>
                '(c, grabbed) ← begin_buffer c retro_chars now;
                if grabbed : bool then Some (buffer_char c ch now) else c ← flush_burst debug c; apply_key debug c e
            | RetainFirstChar => Some c
            end) (λ c', ∃ shown', typing now (sofar ++ [ch]) c' shown').
Proof using Hready Hcr.
  intros Ht Hset He Hp. pose proof Ht as [Hs Ety Hsh Hpast _]. destruct (note_count (burst c) now (b_count _ Hsh)) as [Hmax _].
  unfold on_plain_char. cbv zeta. change (active (note_plain_char _ _)) with (active (burst c)).
  change (pending_first_char (note_plain_char _ _)) with (pending_first_char (burst c)).
  destruct (active (burst c)) eqn:Ea.
  { apply has_post_ret. exists shown. assert (pending_first_char (burst c) = None) as Epe.
    { destruct (pending_first_char (burst c)) as [[ch' t]|] eqn:Epe; [|done]. apply (b_held _ Hsh) in Epe as (_ & ? & _). congruence. }
    apply captured_typing; [by apply burst_spot|..]; cbn; try done; [by intros [_ [=]]%app_nil|by exists now|].
    rewrite <- Ety. unfold held, held_char. by rewrite Epe, app_nil_r, app_assoc. }
  pose proof (shape_inactive _ Hsh Ea) as Ebuf. destruct (pending_first_char (burst c)) as [[first t]|] eqn:Epe.
  - rewrite (proj2 (N.leb_le _ _) (Hset _ _ Epe)). apply has_post_ret. exists shown. apply captured_typing; [by apply burst_spot|..]; cbn; try done.
    + by intros [_ [=]]%app_nil.
    + by exists now.
    + rewrite <- Ety. unfold held, held_char. rewrite Ebuf, Epe. cbn. by rewrite <- app_assoc.
  - pose proof (quiet_shown _ _ _ _ Ht Epe Ea) as ->. destruct (burst_decision _) as [d|] eqn:Ed.
    + assert (∃ n, d = BeginBuffer n) as [n ->] by (unfold burst_decision in Ed; case_match; [injection Ed as <-; eauto|done]).
      eapply (decide_typing now c sofar ch (λ c, c ← flush_burst debug c; apply_key debug c e)); [done..|]. cbn.
      pose proof (note_shape _ now Hsh Epe) as Hsh'. rewrite flush_quiet by done. cbn [mbind option_bind].
      eapply has_post_weaken; [apply apply_key_spot; [by apply burst_spot|done|done]|]. done.
    + apply has_post_ret. exists sofar. split; [by apply burst_spot| | | |done].
      * cbn. unfold held, held_char. cbn. by rewrite Ebuf.
      * split; cbn; [by intros ? ? [= <- <-]|by rewrite Ebuf|done|done].
      * cbn. by intros t [= <-].
Qed.
Lemma non_ascii_typing now sofar c shown ch e : typing now sofar c shown → types_char (editor_keymap (area c0)) e ch →
  sofar ++ [ch] `prefix_of` typed → is_ascii ch = false → disable_paste_burst (draft c0) = false →
  has_post (handle_non_ascii_char debug c e now) (λ c', ∃ shown', typing now (sofar ++ [ch]) c' shown').
Proof using Hready Hcr.
  intros Ht He Hp Hna Hdis. pose proof Ht as [Hs Ety Hsh Hpast _]. unfold handle_non_ascii_char. rewrite (f_disabled _ (s_frame _ _ Hs)), Hdis.
  pose proof He as (Ek & _). rewrite Ek. unfold try_append_char_if_active. rewrite (shape_active_internal _ Hsh).
  destruct (active (burst c)) eqn:Ea.
  { apply has_post_ret. exists shown. assert (pending_first_char (burst c) = None) as Epe.
    { destruct (pending_first_char (burst c)) as [[ch' t]|] eqn:Epe; [|done]. apply (b_held _ Hsh) in Epe as (_ & ? & _). congruence. }
    destruct (b_time _ Hsh Ea) as [t El].
    apply captured_typing; cbn; try done; [by intros [_ [=]]%app_nil|exists t; auto|apply Hsh|].
    rewrite <- Ety. unfold held, held_char. by rewrite Epe, app_nil_r, app_assoc. }
  rewrite with_burst_same. eapply has_post_bind.
  { apply flush_burst_spot; [done| |done]. rewrite Ety. by eapply prefix_l. }
  intros c1 [Hs1 Hc1]. rewrite Ety in Hs1.
  assert (typing now sofar c1 sofar ∧ pending_first_char (burst c1) = None ∧ active (burst c1) = false) as (Ht1 & Epe & Ea1).
  { destruct Hc1 as [Eb|(-> & ? & Epe)]; [rewrite Eb; split; [by apply typing_rest|done]|].
    split; [|done]. by rewrite (quiet_shown _ _ _ _ Ht Epe Ea) in Ht. }
  pose proof (t_shape _ _ _ _ Ht1) as Hsh1. pose proof (note_shape _ now Hsh1 Epe) as Hsh'.
  assert (∀ c2, c2 = with_burst c1 (note_plain_char (burst c1) now) →
    has_post (c ← flush_burst debug c2; c ← text_input c e; Some (retain_pastes c)) (λ c', spot c' (sofar ++ [ch]) ∧ burst c' = burst c2 ∧
      ∀ u, u `prefix_of` sofar → clear (area c1) (blen (before ++ u)) → clear (area c') (blen (before ++ u)))) as Hins.
  { intros c2 ->. rewrite flush_quiet by done. cbn [mbind option_bind]. by apply (insert_key_spot (with_burst c1 _)); [apply burst_spot|..]. }
  unfold on_plain_char_no_hold. change (active (note_plain_char _ _)) with (active (burst c1)). cbv zeta. rewrite Ea1.
  destruct (burst_decision _) as [d|] eqn:Ed.
  - assert (∃ n, d = BeginBuffer n) as [n ->] by (unfold burst_decision in Ed; case_match; [injection Ed as <-; eauto|done]).
    eapply (decide_typing now c1 sofar ch (λ c, c ← flush_burst debug c; c ← text_input c e; Some (retain_pastes c))); [done..|].
    by apply Hins.
  - eapply has_post_weaken; [by apply Hins|]. cbn. intros c' (Hs' & Eb & Hpres). exists (sofar ++ [ch]).
    destruct (note_room _ _ _ _ Ht1 Epe Ea1) as (u & v & Eu & Hc & Hcl & Hv).
    eapply (inserted_typing now c1 c' sofar u v); rewrite ?Eb; try done; [by intros t [= <-]|]. destruct v; [by left|done].
Qed.
Lemma plain_typing now sofar c shown ch e : typing now sofar c shown → types_char (editor_keymap (area c0)) e ch →
  sofar ++ [ch] `prefix_of` typed →
  has_post (c ← flush_burst debug c; apply_key debug c e) (λ c', ∃ shown', typing now (sofar ++ [ch]) c' shown').
Proof using Hready Hcr.
  intros Ht He Hp. pose proof Ht as [Hs Ety Hsh Hpast Hroom]. eapply has_post_bind.
  { apply flush_burst_spot; [done| |done]. rewrite Ety. by eapply prefix_l. }
  intros c1 [Hs1 Hc1]. rewrite Ety in Hs1. eapply has_post_weaken; [by apply apply_key_spot|].
  intros c' (Hs' & Eb & Hpres). exists (sofar ++ [ch]). destruct Hc1 as [Eb1|(-> & Ea & Epe)]; [apply typing_rest; [done|congruence]|].
  pose proof (quiet_shown _ _ _ _ Ht Epe Ea) as ->. rewrite <- Eb in *.
  split; [done|by rewrite quiet_held, app_nil_r|done|by rewrite Eb in *|].
  intros _ _ Hl. rewrite Eb in *. destruct (Hroom Epe Ea Hl) as (u & v & Eu & Hc & Hcl & Hv). destruct v as [|x v].
  - rewrite app_nil_r in Eu. subst u. exists (sofar ++ [ch]), []. rewrite app_nil_r, Eb. split_and!; [done|done| |done]. eapply spot_clear, Hs'.
  - exists u, ((x :: v) ++ [ch]). rewrite Eb. split_and!; [by rewrite Eu, <- app_assoc| |apply Hpres; [by exists (x :: v)|done]|done].
    unfold char_count in *. rewrite length_app. cbn in *. lia.
Qed.
Lemma sync_typing now sofar c shown : typing now sofar c shown → typing now sofar (sync_popups debug c) shown.
Proof using Hready.
  intros [Hs Ety Hsh Hpast Hroom]. destruct (spot_sync _ _ Hs) as (t' & -> & Hs' & Hcl). split; [done..|].
  intros Hp Ha Hl. destruct (Hroom Hp Ha Hl) as (u & v & Eu & Hc & Hclear & Hv). exists u, v. split_and!; [done|done|by eapply Hcl|done].
Qed.
Lemma press_typing k now sofar c shown ch e : typing k sofar c shown → k <= now → types_char (editor_keymap (area c0)) e ch →
  sofar ++ [ch] `prefix_of` typed →
  has_post (happen c (now, Press e)) (λ c', ∃ shown', typing now (sofar ++ [ch]) c' shown').
Proof using Hready Hcr.
  intros Ht Hle He Hp. unfold happen. cbn [fst snd].
  eapply (has_post_bind _ _ (λ c', ∃ shown', typing now (sofar ++ [ch]) c' shown')).
  2: { intros c' [shown' Ht']. apply has_post_ret. exists shown'. by apply sync_typing. }
  pose proof He as (Ek & Em & Erel & _). unfold handle_input_basic, pressed_or_repeated.
  destruct (match ev_kind e with KPress | KRepeat => _ | KRelease => _ end) eqn:Ekind; [clear Ekind|by destruct (ev_kind e)].
  unfold handle_input_basic_with_time. eapply has_post_bind; [eapply tick_typing; [done..|by eapply prefix_l]|].
  intros [c1 flag] (shown1 & Ht1 & Hset & _). cbn [fst snd] in *.
  rewrite Ek, bool_decide_eq_false_2 by done. cbn [andb]. rewrite with_burst_same, (types_modifiers _ _ _ He).
  pose proof (t_spot _ _ _ _ Ht1) as Hs1. rewrite (f_disabled _ (s_frame _ _ Hs1)), (frame_insert _ (s_frame _ _ Hs1)). cbn [negb andb].
  rewrite andb_true_r. destruct (disable_paste_burst (draft c0)) eqn:Ed; cbn [negb]; [by eapply plain_typing|].
  destruct (is_ascii ch) eqn:Ea; cbn [negb]; [|by eapply non_ascii_typing].
  pose proof (ascii_typing now sofar c1 shown1 ch e Ht1 Hset He Hp) as Ha. by destruct (on_plain_char (burst c1) ch now).
Qed.
(** Presses of typing keys and ticks, in the order of their times from [k] on. *)
Fixpoint typing_moments (k : N) (moments : list (N * happening)) : Prop :=
  match moments with
  | [] => True
  | (now, h) :: moments =>
      k <= now ∧ match h with Press e => ∃ ch, types_char (editor_keymap (area c0)) e ch | Tick => True end ∧ typing_moments now moments
  end.
Definition last_moment (k : N) (moments : list (N * happening)) : N := match last moments with Some m => m.1 | None => k end.
Lemma happen_all_typing k sofar c shown moments : typing k sofar c shown → typing_moments k moments →
  sofar ++ typed_of moments `prefix_of` typed →
  has_post (happen_all c moments) (λ c', ∃ shown', typing (last_moment k moments) (sofar ++ typed_of moments) c' shown').
Proof using Hready Hcr.
  revert k sofar c shown. induction moments as [|[now h] moments IH]; intros k sofar c shown Ht Hm Hp; cbn [happen_all].
  { apply has_post_ret. exists shown. by rewrite app_nil_r. }
  destruct Hm as (Hle & Hh & Hm). assert (last_moment k ((now, h) :: moments) = last_moment now moments) as ->.
  { unfold last_moment. rewrite last_cons. by destruct (last moments). }
  destruct h as [e|].
  - destruct Hh as [ch He]. assert (typed_of ((now, Press e) :: moments) = [ch] ++ typed_of moments) as Etm.
    { pose proof He as (Ek & _). unfold typed_of. cbn. by rewrite Ek. }
    rewrite Etm, app_assoc in Hp |- *. eapply has_post_bind; [eapply (press_typing k now sofar c shown ch e); [done..|by eapply prefix_l]|].
    intros c' [shown' Ht']. by eapply IH.
  - change (typed_of ((now, Tick) :: moments)) with (typed_of moments) in *. unfold happen. cbn [fst snd].
    eapply (has_post_bind _ _ (λ c', ∃ shown', typing now sofar c' shown')).
    + eapply has_post_fmap; [by eapply tick_typing; [..|eapply prefix_l]|]. intros [c' flag] (shown' & Ht' & _). by exists shown'.
    + intros c' [shown' Ht']. by eapply IH.
Qed.
Lemma moments_no_cr k moments : typing_moments k moments → Forall (λ ch, ch ≠ cr) (typed_of moments).
Proof using Type.
  revert k. induction moments as [|[now h] moments IH]; intros k Hm; [constructor|]. destruct Hm as (_ & Hh & Hm).
  specialize (IH now Hm). unfold typed_of in *. cbn. destruct h as [e|]; [|done]. destruct Hh as [ch He]. pose proof He as (Ek & _).
  rewrite Ek. constructor; [by eapply types_not_cr|done].
Qed.
Lemma ready_spot : spot c0 [].
Proof using Hready.
  pose proof (r_spot _ _ _ _ Hready) as Hs. split; [by rewrite app_nil_r|by split|by eexists].
Qed.
End typing.

(** ** Properties *)
Section properties.
Context {U : Unicode} {P : PastedPaths} (debug : bool).
(** C33: plain text typed at one place of a draft is neither lost nor reordered.  The composer is
    [ready]: nothing is held back, keys are inserted (no Vim normal mode), the cursor lies between two parts of the draft
    and in no element, and not in the word of a slash command with more of the word behind it (there the
    completion catches the cursor, see the example at the end of this file); no text is read as the path of an image;
    neither the draft nor what will be typed makes a shell line of it by a [!] at its start, unless it is one;
    attached images have labels and the names of service tiers are ASCII; and at most a thousand characters are
    typed (more make a large paste).  Then press keys that stand for characters, ASCII or not and bound to
    nothing else, as fast or as slowly as one likes, and let the screen tick in between: no handler panics,
    at each moment the text shown at the cursor followed by what the paste burst holds back is
    what was typed, both parts of the draft are as they were, and a tick more than eight
    milliseconds after the last key leaves exactly the typed text at the cursor. *)
Theorem typing_loses_nothing (c : ChatComposer) (before after : rstring) (moments : list (N * happening)) (quiet : N) :
  ready c before after (typed_of moments) → typing_moments c 0 moments →
  last_moment 0 moments + PASTE_BURST_CHAR_INTERVAL < quiet →
  has_post (happen_all debug c moments) (λ c', ∃ shown,
    text (area c') = before ++ shown ++ after ∧ cursor_pos (area c') = blen (before ++ shown) ∧
    shown ++ held (burst c') = typed_of moments ∧
    has_post (happen debug c' (quiet, Tick)) (λ c'', text (area c'') = before ++ typed_of moments ++ after ∧
      cursor_pos (area c'') = blen (before ++ typed_of moments) ∧ held (burst c'') = [])).
Proof using Type.
  intros Hr Hm Hq. pose proof (moments_no_cr c 0 moments Hm) as Hcr.
  eapply has_post_weaken; [eapply (happen_all_typing debug c before after (typed_of moments) Hr Hcr 0 [] c []);
    [eapply typing_rest; [by apply ready_spot|apply Hr]|done|done]|].
  intros c' [shown Ht]. cbn [app] in Ht. pose proof (s_area _ _ _ _ _ _ (t_spot _ _ _ _ _ _ _ _ Ht)) as Ha. exists shown.
  split_and!; [by rewrite (sp_text _ _ _ Ha), <- app_assoc|apply Ha|apply Ht|].
  unfold happen. cbn [fst snd]. eapply has_post_fmap; [eapply tick_typing; [done|done|exact Ht| |done]|].
  { lia. }
  intros [c'' flag] (shown' & Ht' & _ & Hall). cbn [fst]. pose proof (s_area _ _ _ _ _ _ (t_spot _ _ _ _ _ _ _ _ Ht')) as Ha'.
  pose proof (t_typed _ _ _ _ _ _ _ _ Ht') as Ety. cbn [fst] in *.
  assert (shown' = typed_of moments) as -> by (apply Hall; intros t El; pose proof (t_past _ _ _ _ _ _ _ _ Ht t El); lia).
  split_and!; [by rewrite (sp_text _ _ _ Ha'), <- app_assoc|apply Ha'|]. apply (app_inv_head (typed_of moments)). by rewrite app_nil_r.
Qed.
End properties.

(** ** A session *)
#[local] Existing Instance Demo.unicode.
#[local] Existing Instance Demo.unicode_laws.
Module Session.
#[export] Instance no_paths : PastedPaths :=
  {| file_url _ := None; shlex _ := []; has_image_dimensions _ := false; is_probably_wsl := false |}.
Definition start : ChatComposer :=
  mk_composer (new_draft Demo.keys) no_attachments default_config Tiers.flags [] false false [] None [].
(** The cursor before the image of the draft. *)
Definition resumed : ChatComposer := with_area start Demo.state.
Definition key (ch : char) : KeyEvent := mk_event (KChar ch) NONE KPress.
Definition ms : N := 1000000.
Definition press_at (at_ : N) (ch : char) : N * happening := (at_ * ms, Press (key ch)).
(** A letter alone, then a fast run with letters that are not ASCII. *)
Definition moments : list (N * happening) :=
  [press_at 0 (chr "x"); (20 * ms, Tick); press_at 100 (chr "a"); press_at 101 (chr "b"); press_at 103 233; press_at 105 (chr " "); press_at 106 12288;
   press_at 107 (chr "c")].
Lemma plain_types ch : Forall (λ bs, is_pressed bs (key ch) = false) (bound_keys (editor_keymap Demo.state)) → 32 <= ch → ch ≠ 127 →
  types_char (editor_keymap (area resumed)) (key ch) ch.
Proof. intros Hf H1 H2. split_and!; [done|by left|done|done|done|exact Hf]. Qed.
Lemma moments_typing : typing_moments resumed 0 moments.
Proof.
  cbn [typing_moments moments press_at]. split_and!; try done; try (eexists; apply plain_types; [repeat constructor|done..]); by vm_compute.
Qed.
Lemma resumed_ready : ready resumed (lit "see ") (lit "[Image #1] now") (typed_of moments).
Proof.
  constructor; [|reflexivity|reflexivity|constructor| | |constructor| |].
  - constructor; [apply (reachable_formed _ _ Demo.state_reachable)|vm_compute; reflexivity..|]. apply (bool_decide_unpack _). vm_compute. exact I.
  - right. intros s path _. reflexivity.
  - right. right. apply (bool_decide_unpack _). vm_compute. exact I.
  - right. split; vm_compute; reflexivity.
  - vm_compute. discriminate.
Qed.
End Session.
#[local] Existing Instance Session.no_paths.
Example typing_loses_nothing_witness :
  has_post (happen_all false Session.resumed Session.moments) (λ c', ∃ shown,
    text (area c') = lit "see " ++ shown ++ lit "[Image #1] now" ∧ cursor_pos (area c') = blen (lit "see " ++ shown) ∧
    shown ++ held (burst c') = typed_of Session.moments ∧
    has_post (happen false c' (200 * Session.ms, Tick)) (λ c'', text (area c'') = lit "see " ++ typed_of Session.moments ++ lit "[Image #1] now" ∧
      cursor_pos (area c'') = blen (lit "see " ++ typed_of Session.moments) ∧ held (burst c'') = [])).
Proof.
  apply (typing_loses_nothing false Session.resumed (lit "see ") (lit "[Image #1] now") Session.moments (200 * Session.ms)
    Session.resumed_ready Session.moments_typing). by vm_compute.
Defined.

(** ** What the code does not do *)
(** Characters that are not ASCII do not extend the burst that captures them: it ends eight
    milliseconds after its start although keys keep coming. *)
Example captured_letters_do_not_extend_the_burst :
  (λ c, (text (area c), held (burst c))) <$> happen_all false Session.start
    [Session.press_at 0 12288; Session.press_at 1 233; Session.press_at 2 233; Session.press_at 6 233; Session.press_at 11 233] =
  Some ([12288; 233; 233; 233; 233], []).
Proof. vm_compute. reflexivity. Qed.
(** Completing the name of a command from its middle puts an element around the cursor: the next
    character goes to the end of the name, and the cursor stays inside. *)
Example completed_commands_catch_the_cursor :
  (λ c, (text (area c), cursor_pos (area c))) <$>
    (c ← composer_insert_str false Session.start (lit "/pn x"); c ← composer_insert_str false (with_area c (set_cursor (area c) 2)) (lit "la");
     composer_insert_str false c (lit "b")) = Some (lit "/planb x", 4).
Proof. vm_compute. reflexivity. Qed.
