(* ===== verification/ComposerSubmit.v ===== *)
(** * Submitting and restoring the draft ([tui/src/bottom_pane/chat_composer.rs])

    A submission expands the placeholders of large pastes, trims the text with its elements, and
    answers with a message, a queued message or a slash command; a draft that is refused comes
    back.  Whether the command popup is open is an argument.  [None] is a panic. *)
From S2P Require Import Prelude RustStr Utf8 Utf8Text KeyInput TextArea Attachments SlashCommand PasteBurst Composer.
#[local] Open Scope N_scope.

(** ** The text with the shell prefix *)
Definition current_text (c : ChatComposer) : rstring := if bash c then chr "!" :: text (area c) else text (area c).
Definition current_cursor (c : ChatComposer) : N := cursor_pos (area c) + (if bash c then 1 else 0).
(** The inner [None]: the element is dropped. *)
Definition shift_text_element (shift : Z) (e : UserTextElement) : option UserTextElement :=
  let start := (Z.of_N (byte_start e) + shift)%Z in
  let stop := (Z.of_N (byte_end e) + shift)%Z in
  if (start <? 0)%Z || (stop <? 0)%Z || (stop <=? start)%Z then None else Some (map_range e (Z.to_N start) (Z.to_N stop)).
Definition current_text_elements (c : ChatComposer) : list UserTextElement :=
  omap (shift_text_element (if bash c then 1 else 0)) (text_elements (area c)).
Definition imported_text_for_textarea (c : ChatComposer) (s : rstring) (es : list UserTextElement) : ChatComposer * rstring * list UserTextElement :=
  match strip_prefix (lit "!") s with
  | Some stripped => (with_bash c true, stripped, omap (shift_text_element (-1)) es)
  | None => (with_bash c false, s, es)
  end.
Definition composer_is_empty (c : ChatComposer) : bool :=
  bool_decide (text (area c) = []) && negb (bash c) && attachments_empty (attachments c).

(** ** Large pastes come back *)
Fixpoint insert_by_byte_start (e : UserTextElement) (es : list UserTextElement) : list UserTextElement :=
  match es with
  | [] => [e]
  | e' :: es' => if byte_start e <=? byte_start e' then e :: es else e' :: insert_by_byte_start e es'
  end.
Definition sort_by_byte_start (es : list UserTextElement) : list UserTextElement := foldr insert_by_byte_start [] es.
Definition index_pastes (pending : list (rstring * rstring)) : gmap rstring (list rstring) :=
  foldl (λ m p, <[p.1 := default [] (m !! p.1) ++ [p.2]]> m) ∅ pending.
Fixpoint expand_elements (s : rstring) (es : list UserTextElement) (pending : gmap rstring (list rstring)) (cursor : N) (rebuilt : rstring)
    (rebuilt_elements : list UserTextElement) : option (N * rstring * list UserTextElement) :=
  match es with
  | [] => Some (cursor, rebuilt, rebuilt_elements)
  | e :: es =>
      let start := N.min (byte_start e) (blen s) in
      let stop := N.min (byte_end e) (blen s) in
      if stop <? start then expand_elements s es pending cursor rebuilt rebuilt_elements
      else
        gap ← if cursor <? start then slice s cursor start else Some [];
        elem_text ← slice s start stop;
        let rebuilt := rebuilt ++ gap in
        let label := placeholder e s in
        match (ph ← label; queue ← pending !! ph; match queue with actual :: queue => Some (ph, actual, queue) | [] => None end) with
        | Some (ph, actual, queue) => expand_elements s es (<[ph := queue]> pending) stop (rebuilt ++ actual) rebuilt_elements
        | None =>
            let new_start := blen rebuilt in
            let new_end := blen (rebuilt ++ elem_text) in
            let label := match label with Some p => p | None => elem_text end in
            expand_elements s es pending stop (rebuilt ++ elem_text) (rebuilt_elements ++ [mk_user_element new_start new_end (Some label)])
        end
  end.
Definition expand_pending_pastes (s : rstring) (es : list UserTextElement) (pending : list (rstring * rstring)) :
    option (rstring * list UserTextElement) :=
  if bool_decide (pending = []) || bool_decide (es = []) then Some (s, es)
  else
    '(cursor, rebuilt, rebuilt_elements) ← expand_elements s (sort_by_byte_start es) (index_pastes pending) 0 [] [];
    tail ← if cursor <? blen s then slice s cursor (blen s) else Some [];
    Some (rebuilt ++ tail, rebuilt_elements).
Definition current_text_with_pending (c : ChatComposer) : option rstring :=
  if bool_decide (pastes c = []) then Some (current_text c)
  else fst <$> expand_pending_pastes (current_text c) (current_text_elements c) (pastes c).
Definition trim_element (trimmed_start trimmed_end : N) (trimmed : rstring) (e : UserTextElement) : option UserTextElement :=
  let start := byte_start e in
  let stop := byte_end e in
  if (stop <=? trimmed_start) || (trimmed_end <=? start) then None
  else
    let new_start := start - trimmed_start in
    let new_end := N.min (stop - trimmed_start) (blen trimmed) in
    if new_end <=? new_start then None else Some (mk_user_element new_start new_end (slice trimmed new_start new_end)).
Definition trim_text_elements (original trimmed : rstring) (es : list UserTextElement) : list UserTextElement :=
  if bool_decide (trimmed = []) || bool_decide (es = []) then []
  else
    let trimmed_start := blen original - blen (trim_start original) in
    omap (trim_element trimmed_start (sat_add trimmed_start (blen trimmed)) trimmed) es.

(** ** Mentions *)
Definition is_mention_name_char (b : N) : bool :=
  (97 <=? b) && (b <=? 122) || (65 <=? b) && (b <=? 90) || (48 <=? b) && (b <=? 57) || (b =? chr "_") || (b =? chr "-").
Definition mention_name_from_insert_text (insert_text : rstring) : option rstring :=
  name ← strip_prefix (lit "$") insert_text;
  if bool_decide (name = []) || negb (forallb is_mention_name_char (utf8 name)) then None else Some name.
Definition current_mention_elements (c : ChatComposer) : list (N * rstring) :=
  omap (λ snapshot, name ← mention_name_from_insert_text snapshot.2; Some (snapshot.1, name)) (text_element_snapshots (area c)).
Definition snapshot_mention_bindings (c : ChatComposer) : list MentionBinding :=
  omap (λ m, binding ← mention_bindings (draft c) !! m.1; if bool_decide (mention binding = m.2) then Some binding else None)
    (current_mention_elements c).
(** In bytes, from [index] on; [skip] bytes are passed over without a look. *)
Fixpoint find_token (bytes token : list byte) (index : N) (skip : nat) : option (N * N) :=
  match bytes with
  | [] => None
  | b :: bytes' =>
      match skip with
      | S skip => find_token bytes' token (index + 1) skip
      | O =>
          if negb (b =? chr "$") then find_token bytes' token (index + 1) O
          else if (length bytes <? length token)%nat then None
          else if negb (bool_decide (take (length token) bytes = token)) then find_token bytes' token (index + 1) O
          else match drop (length token) bytes with
               | next :: _ => if is_mention_name_char next then find_token bytes' token (index + 1) (length token - 1)
                              else Some (index, index + N.of_nat (length token))
               | [] => Some (index, index + N.of_nat (length token))
               end
      end
  end.
Definition find_next_mention_token_range (s token : rstring) (from : N) : option (N * N) :=
  if bool_decide (token = []) || (blen s <=? from) then None
  else find_token (drop (N.to_nat from) (utf8 s)) (utf8 token) from O.
Fixpoint bind_mentions (c : ChatComposer) (s : rstring) (bindings : list MentionBinding) (scan_from : N) : ChatComposer :=
  match bindings with
  | [] => c
  | binding :: bindings =>
      match find_next_mention_token_range s (chr "$" :: mention binding) scan_from with
      | None => bind_mentions c s bindings scan_from
      | Some range =>
          let '(t, added) := add_element_range (area c) range in
          let c := with_area c t in
          match (match added with Some id => Some id | None => element_id_for_exact_range t range end) with
          | Some id =>
              let d := draft c in
              bind_mentions (with_draft_state c (set_mentions d (<[id := binding]> (mention_bindings d)) (recent_submission_mention_bindings d)))
                s bindings range.2
          | None => bind_mentions c s bindings scan_from
          end
      end
  end.
Definition clear_mentions (c : ChatComposer) : ChatComposer :=
  with_draft_state c (set_mentions (draft c) ∅ (recent_submission_mention_bindings (draft c))).
Definition set_recent_mentions (c : ChatComposer) (recent : list MentionBinding) : ChatComposer :=
  with_draft_state c (set_mentions (draft c) (mention_bindings (draft c)) recent).
Definition bind_mentions_from_snapshot (c : ChatComposer) (bindings : list MentionBinding) : ChatComposer :=
  bind_mentions (clear_mentions c) (text (area c)) bindings 0.

(** ** The whole content of the draft *)
Definition with_history (c : ChatComposer) (h : list HistoryEntry) (staged : option HistoryEntry) : ChatComposer :=
  mk_composer (draft c) (attachments c) (config c) (command_flags c) (service_tier_commands c) (is_task_running c) (queue_submissions c)
    h staged (sent c).
Definition send (c : ChatComposer) (message : rstring) : ChatComposer :=
  mk_composer (draft c) (attachments c) (config c) (command_flags c) (service_tier_commands c) (is_task_running c) (queue_submissions c)
    (local_history c) (pending_slash_command_history c) (sent c ++ [message]).
(** The history of the session: empty entries and repetitions of the last one are left out. *)
Definition record_local_submission (h : list HistoryEntry) (entry : HistoryEntry) : list HistoryEntry :=
  if bool_decide (entry = mk_entry [] [] [] [] [] []) then h
  else if bool_decide (last h = Some entry) then h else h ++ [entry].
Definition record (c : ChatComposer) (entry : HistoryEntry) : ChatComposer :=
  with_history c (record_local_submission (local_history c) entry) (pending_slash_command_history c).
Definition record_pending_slash_command_history (c : ChatComposer) : ChatComposer :=
  match pending_slash_command_history c with
  | Some entry => with_history c (record_local_submission (local_history c) entry) None
  | None => c
  end.
Record ComposerDraft := mk_composer_draft {
  d_text : rstring; d_text_elements : list UserTextElement; d_local_image_paths : list rstring; d_remote_image_urls : list rstring;
  d_mention_bindings : list MentionBinding; d_pending_pastes : list (rstring * rstring); d_cursor : N }.
Definition snapshot_draft (c : ChatComposer) : ComposerDraft :=
  mk_composer_draft (current_text c) (current_text_elements c) (local_image_paths (attachments c)) (remote_image_urls (attachments c))
    (snapshot_mention_bindings c) (pastes c) (current_cursor c).
Definition set_pending_pastes (c : ChatComposer) (pending : list (rstring * rstring)) : ChatComposer :=
  with_pastes c (List.filter (λ p, str_contains (current_text c) p.1) pending).
Definition set_current_cursor (c : ChatComposer) (cursor : N) : ChatComposer :=
  let visible_cursor := if bash c then sat_sub cursor 1 else cursor in
  with_area c (set_cursor (area c) (N.min visible_cursor (blen (text (area c))))).
Definition ranges_of (es : list UserTextElement) : list (N * N) := element_range <$> es.
(** The start and the end of the word around the cursor. *)
Definition word_range (c : ChatComposer) : option (N * N) :=
  let s := text (area c) in
  let safe_cursor := clamp_to_char_boundary s (cursor_pos (area c)) in
  '(before_cursor, after_cursor) ← split_at_byte safe_cursor s;
  let start_idx := match last (List.filter (λ i, is_whitespace i.2) (char_indices 0 before_cursor)) with
                   | Some (idx, ch) => idx + clen ch
                   | None => 0
                   end in
  Some (start_idx, safe_cursor + default (blen after_cursor) (find_char is_whitespace after_cursor)).
Definition is_image_path (path : rstring) : bool :=
  let lower := to_ascii_lowercase path in
  existsb (λ extension, ends_with lower (lit extension)) [".png"; ".jpg"; ".jpeg"; ".gif"; ".webp"].
(** The byte positions of [needle] in [s], from [at_] on; [skip] characters belong to the last match. *)
Fixpoint match_indices (needle s : rstring) (at_ : N) (skip : nat) : list N :=
  match s with
  | [] => []
  | c :: s' =>
      match skip with
      | S skip => match_indices needle s' (at_ + clen c) skip
      | O => if starts_with s needle then at_ :: match_indices needle s' (at_ + clen c) (length needle - 1)
             else match_indices needle s' (at_ + clen c) O
      end
  end.
Definition count_of (labels : list rstring) (label : rstring) : nat := length (List.filter (λ l, bool_decide (l = label)) labels).
(** As many images with a label as the text has occurrences of it, the first ones. *)
Fixpoint keep_images (images : list AttachedImage) (s : rstring) (used : list rstring) : list AttachedImage :=
  match images with
  | [] => []
  | image :: images =>
      let label := image_placeholder image in
      if (count_of used label <? length (match_indices label s 0 O))%nat then image :: keep_images images s (label :: used)
      else keep_images images s used
  end.
Fixpoint insert_occurrence (o : N * rstring) (os : list (N * rstring)) : list (N * rstring) :=
  match os with [] => [o] | o' :: os' => if o.1 <=? o'.1 then o :: os else o' :: insert_occurrence o os' end.
(** The text again, with the first occurrences of each label as elements. *)
Fixpoint rebuild (t : TextArea) (s : rstring) (labels : list rstring) (occurrences : list (N * rstring)) (idx : N) (done : list rstring) :
    option (TextArea * N) :=
  match occurrences with
  | [] => Some (t, idx)
  | (pos, label) :: occurrences =>
      if (count_of labels label <=? count_of done label)%nat then rebuild t s labels occurrences idx done
      else
        t ← if idx <? pos then gap ← slice s idx pos; insert_str t gap else Some t;
        '(t, _) ← insert_element t label;
        rebuild t s labels occurrences (pos + blen label) (label :: done)
  end.
Section contents.
Context {U : Unicode} {P : PastedPaths} (debug : bool).
Definition set_text_content_with_mention_bindings (c : ChatComposer) (s : rstring) (es : list UserTextElement) (paths : list rstring)
    (bindings : list MentionBinding) : option ChatComposer :=
  let c := with_area c (set_text_clearing_elements (area c) []) in
  let c := clear_mentions (with_pastes (with_bash c false) []) in
  let '(c, s, es) := imported_text_for_textarea c s es in
  let c := with_area c (set_text_with_elements (area c) s (ranges_of es)) in
  r ← reset_local_images (attachments c) paths (area c);
  let c := bind_mentions_from_snapshot (with_labels c r) bindings in
  Some (sync_popups debug (with_area c (set_cursor (area c) 0))).
Definition set_text_content (c : ChatComposer) (s : rstring) (es : list UserTextElement) (paths : list rstring) : option ChatComposer :=
  set_text_content_with_mention_bindings c s es paths [].
Definition composer_set_remote_image_urls (c : ChatComposer) (urls : list rstring) : option ChatComposer :=
  r ← set_remote_image_urls (attachments c) urls (area c); Some (sync_popups debug (with_labels c r)).
Definition composer_take_remote_image_urls (c : ChatComposer) : option (ChatComposer * list rstring) :=
  '(a, t, urls) ← take_remote_image_urls (attachments c) (area c); Some (sync_popups debug (with_labels c (a, t)), urls).
Definition restore_draft (c : ChatComposer) (d : ComposerDraft) : option ChatComposer :=
  c ← composer_set_remote_image_urls c (d_remote_image_urls d);
  c ← set_text_content_with_mention_bindings c (d_text d) (d_text_elements d) (d_local_image_paths d) (d_mention_bindings d);
  Some (sync_popups debug (set_current_cursor (set_pending_pastes c (d_pending_pastes d)) (d_cursor d))).
Definition move_cursor_to_end (c : ChatComposer) : ChatComposer :=
  sync_popups debug (with_area c (set_cursor (area c) (blen (text (area c))))).
Definition vim_normal_end_cursor (t : TextArea) : N := if bool_decide (text t = []) then 0 else prev_atomic_boundary t (blen (text t)).
Definition move_cursor_to_history_entry_end (c : ChatComposer) : ChatComposer :=
  let cursor := if is_vim_normal_mode (area c) then vim_normal_end_cursor (area c) else blen (text (area c)) in
  sync_popups debug (with_area c (set_cursor (area c) cursor)).
Definition apply_history_entry (c : ChatComposer) (entry : HistoryEntry) : option ChatComposer :=
  c ← composer_set_remote_image_urls c (h_remote_image_urls entry);
  c ← set_text_content_with_mention_bindings c (h_text entry) (h_text_elements entry) (h_local_image_paths entry) (h_mention_bindings entry);
  Some (move_cursor_to_history_entry_end (set_pending_pastes c (h_pending_pastes entry))).
Definition clear_for_ctrl_c (c : ChatComposer) : option (ChatComposer * option rstring) :=
  if composer_is_empty c then Some (c, None)
  else
    let previous := current_text c in
    let entry := mk_entry previous (current_text_elements c) (local_image_paths (attachments c)) (remote_image_urls (attachments c))
                   (snapshot_mention_bindings c) (pastes c) in
    c ← set_text_content (with_pastes c []) [] [] [];
    let c := with_attachments c (clear_remote_image_urls (attachments c)) in
    Some (record c entry, Some previous).
Definition apply_external_edit (c : ChatComposer) (s : rstring) : option ChatComposer :=
  let '(c, s, _) := imported_text_for_textarea (with_pastes c []) s [] in
  let a := attachments c in
  let a := mk_attachments (keep_images (local_images a) s []) (remote_image_urls a) (selected_remote_image_index a) in
  let labels := image_placeholder <$> local_images a in
  let occurrences :=
    foldr insert_occurrence [] (concat ((λ label, (λ pos, (pos, label)) <$> match_indices label s 0 O) <$> remove_dups labels)) in
  '(t, idx) ← rebuild (set_text_clearing_elements (area c) []) s labels occurrences 0 [];
  t ← if idx <? blen s then tail ← slice s idx (blen s); insert_str t tail else Some t;
  r ← relabel_local_images a t;
  let c := with_labels c r in
  Some (sync_popups debug (with_area c (set_cursor (area c) (blen (text (area c)))))).
Definition composer_set_vim_enabled (c : ChatComposer) (enabled : bool) : ChatComposer :=
  let c := with_area c (set_vim_enabled (area c) enabled) in with_burst c (clear_after_explicit_paste (burst c)).

(** ** Choices of the popups *)
Definition insert_selected_path (c : ChatComposer) (path : rstring) : option ChatComposer :=
  range ← word_range c;
  let needs_quotes := existsb is_whitespace path in
  let inserted := if needs_quotes && negb (str_contains path [34]) then [34] ++ path ++ [34] else path in
  t ← replace_range (area c) range (inserted ++ lit " ");
  Some (with_area c (set_cursor t (sat_add (sat_add range.1 (blen inserted)) 1))).
Definition insert_selected_file_path (c : ChatComposer) (path : rstring) : option ChatComposer :=
  if is_image_path path && has_image_dimensions path then
    range ← word_range c;
    t ← replace_range (area c) range [];
    r ← attach_image (attachments c) (set_cursor t range.1) path;
    insert_text (with_labels c r) (lit " ")
  else insert_selected_path c path.
Definition insert_selected_mention (c : ChatComposer) (insert_text : rstring) (path : option rstring) : option ChatComposer :=
  range ← word_range c;
  t ← replace_range (area c) range [];
  '(t, id) ← insert_element (set_cursor t range.1) insert_text;
  let c := with_area c t in
  let c := match path, mention_name_from_insert_text insert_text with
           | Some path, Some name =>
               let d := draft c in
               with_draft_state c (set_mentions d (<[id := mk_mention name path]> (mention_bindings d)) (recent_submission_mention_bindings d))
           | _, _ => c
           end in
  t ← insert_str (area c) (lit " ");
  Some (with_area c (set_cursor t (sat_add (sat_add range.1 (blen insert_text)) 1))).

(** ** Submission *)
Inductive QueuedInputAction := PlainInput | ParseSlash | RunShell.
Inductive InputResult :=
  | Submitted (s : rstring) (es : list UserTextElement)
  | Queued (s : rstring) (es : list UserTextElement) (action : QueuedInputAction)
  | Command (cmd : SlashCommand) | ServiceTierChoice (tier : ServiceTierCommand)
  | CommandWithArgs (cmd : SlashCommand) (args : rstring) (es : list UserTextElement)
  | NoResult.
Inductive SlashValidation := Immediate | Deferred.
Definition unrecognized_command_message (name : rstring) : rstring :=
  lit "Unrecognized command '/" ++ name ++ lit "'. Type " ++ [34] ++ lit "/" ++ [34] ++ lit " for a list of supported commands.".
(** The draft that a refused submission gives back, with the cursor at its end. *)
Definition give_back (c : ChatComposer) (s : rstring) (es : list UserTextElement) (paths : list rstring) (bindings : list MentionBinding)
    (pending : list (rstring * rstring)) : option ChatComposer :=
  c ← set_text_content_with_mention_bindings c s es paths bindings;
  let c := with_pastes c pending in
  Some (with_area c (set_cursor (area c) (blen s))).
Definition prepare_submission_text_with_options (c : ChatComposer) (record_history : bool) (slash_validation : SlashValidation) :
    option (ChatComposer * option (rstring * list UserTextElement)) :=
  let original_input := current_text c in
  let original_text_elements := current_text_elements c in
  let original_mention_bindings := snapshot_mention_bindings c in
  let original_local_image_paths := local_image_paths (attachments c) in
  let original_pending_pastes := pastes c in
  let input_starts_with_space := starts_with original_input (lit " ") in
  let c := set_recent_mentions c [] in
  let c := with_bash (with_area c (set_text_clearing_elements (area c) [])) false in
  '(expanded_input, expanded_elements) ← expand_pending_pastes original_input original_text_elements (pastes c);
  let s := trim expanded_input in
  let es := trim_text_elements expanded_input s expanded_elements in
  let unknown_command :=
    match slash_validation with
    | Immediate =>
        if negb (slash_commands_enabled (config c)) then None
        else '(name, _, _) ← parse_slash_name s;
             if input_starts_with_space || str_contains name (lit "/") then None
             else if bool_decide (is_Some (find_command debug c name)) then None else Some name
    | Deferred => None
    end in
  let refuse message :=
    c ← give_back (send c message) original_input original_text_elements original_local_image_paths original_mention_bindings
          original_pending_pastes;
    Some (c, None) in
  match unknown_command with
  | Some name => refuse (unrecognized_command_message name)
  | None =>
      if MAX_USER_INPUT_TEXT_CHARS <? char_count s then refuse (user_input_too_large_message (char_count s))
      else
        let c := with_attachments c (prune_local_images_for_submission (attachments c) s es) in
        if bool_decide (s = []) && attachments_empty (attachments c) then Some (c, None)
        else
          let c := set_recent_mentions c original_mention_bindings in
          let c := if record_history
                   then record c (mk_entry s es (local_image_paths (attachments c)) (remote_image_urls (attachments c))
                                    original_mention_bindings [])
                   else c in
          Some (with_pastes c [], Some (s, es))
  end.
Definition prepare_submission_text (c : ChatComposer) (record_history : bool) := prepare_submission_text_with_options c record_history Immediate.

Definition reject_slash_command_if_unavailable (c : ChatComposer) (command : SlashCommandItem) : ChatComposer * bool :=
  if negb (is_task_running c) || item_available_during_task command then (c, false)
  else (send c (lit "'/" ++ item_command command ++ lit "' is disabled while a task is in progress."), true).
Definition stage_slash_command_history_text (c : ChatComposer) (s : rstring) : ChatComposer :=
  with_history c (local_history c)
    (Some (mk_entry s (text_elements (area c)) (local_image_paths (attachments c)) (remote_image_urls (attachments c))
             (snapshot_mention_bindings c) (pastes c))).
Definition is_clear (command : SlashCommandItem) : bool := match command with Builtin Clear => true | _ => false end.
Definition stage_slash_command_history (c : ChatComposer) (command : SlashCommandItem) : ChatComposer :=
  if is_clear command then c else stage_slash_command_history_text c (trim (text (area c))).
Definition stage_selected_slash_command_history (c : ChatComposer) (command : SlashCommandItem) : ChatComposer :=
  if is_clear command then c else stage_slash_command_history_text c (chr "/" :: item_command command).
Definition slash_command_args_elements (rest : rstring) (rest_offset : N) (es : list UserTextElement) : list UserTextElement :=
  if bool_decide (rest = []) || bool_decide (es = []) then []
  else
    omap (λ e,
      if byte_end e <=? rest_offset then None
      else
        let start := byte_start e - rest_offset in
        if blen rest <=? start then None
        else
          let stop := N.min (byte_end e - rest_offset) (blen rest) in
          if start <? stop then Some (map_range e start stop) else None) es.
Definition first_of_lines (s : rstring) : rstring := match lines s with l :: _ => l | [] => [] end.
(** The inner [None]: the draft is no command of this kind. *)
Definition try_dispatch_bare_slash_command (c : ChatComposer) : ChatComposer * option InputResult :=
  if negb (slash_commands_enabled (config c)) || bash c then (c, None)
  else match parse_slash_name (first_of_lines (text (area c))) with
  | Some (name, [], _) =>
      match find_command debug c name with
      | None => (c, None)
      | Some command =>
          let has_more := match parse_slash_name (text (area c)) with Some (_, _ :: _, _) => true | _ => false end in
          if item_supports_inline_args command && has_more then (c, None)
          else
            let '(c, rejected) := reject_slash_command_if_unavailable c command in
            let c := stage_slash_command_history c command in
            if rejected then (record_pending_slash_command_history c, Some NoResult)
            else
              let c := with_bash (with_area c (set_text_clearing_elements (area c) [])) false in
              (c, Some (match command with Builtin cmd => Command cmd | ServiceTier tier => ServiceTierChoice tier end))
      end
  | _ => (c, None)
  end.
Definition try_dispatch_slash_command_with_args (c : ChatComposer) : ChatComposer * option InputResult :=
  if negb (slash_commands_enabled (config c)) || bash c then (c, None)
  else if starts_with (text (area c)) (lit " ") then (c, None)
  else match parse_slash_name (text (area c)) with
  | None => (c, None)
  | Some (name, rest, rest_offset) =>
      if bool_decide (rest = []) || str_contains name (lit "/") then (c, None)
      else match find_command debug c name with
      | None => (c, None)
      | Some command =>
          if negb (item_supports_inline_args command) then (c, None)
          else
            let '(c, rejected) := reject_slash_command_if_unavailable c command in
            let c := stage_slash_command_history c command in
            if rejected then (record_pending_slash_command_history c, Some NoResult)
            else
              let args_elements := slash_command_args_elements rest rest_offset (text_elements (area c)) in
              let trimmed_rest := trim rest in
              match command with
              | Builtin cmd => (c, Some (CommandWithArgs cmd trimmed_rest (trim_text_elements rest trimmed_rest args_elements)))
              | ServiceTier _ => (c, None)
              end
      end
  end.
Definition prepare_inline_args_submission (c : ChatComposer) (record_history : bool) :
    option (ChatComposer * option (rstring * list UserTextElement)) :=
  '(c, prepared) ← prepare_submission_text c record_history;
  Some (c, '(prepared_text, prepared_elements) ← prepared;
           '(_, prepared_rest, prepared_rest_offset) ← parse_slash_name prepared_text;
           let args_elements := slash_command_args_elements prepared_rest prepared_rest_offset prepared_elements in
           let trimmed_rest := trim prepared_rest in
           Some (trimmed_rest, trim_text_elements prepared_rest trimmed_rest args_elements)).
Definition should_parse_as_slash_on_dequeue_from_raw_text (c : ChatComposer) (s : rstring) : bool :=
  slash_commands_enabled (config c) && negb (starts_with s (lit " ")) && starts_with (trim s) (lit "/").
Definition queued_input_action (prepared_text : rstring) (defer_slash_validation : bool) : QueuedInputAction :=
  if defer_slash_validation && starts_with prepared_text (lit "/") then ParseSlash
  else if starts_with prepared_text (lit "!") then RunShell else PlainInput.
Definition handle_submission_with_time (c : ChatComposer) (should_queue command_popup : bool) (now : N) : option (ChatComposer * InputResult) :=
  if should_queue then
    c ← flush_burst debug c;
    let defer := should_parse_as_slash_on_dequeue_from_raw_text c (text (area c)) in
    '(c, prepared) ← prepare_submission_text_with_options c true (if defer then Deferred else Immediate);
    Some (c, match prepared with Some (s, es) => Queued s es (queued_input_action s defer) | None => NoResult end)
  else
    let '(c, dispatched) := try_dispatch_bare_slash_command c in
    match dispatched with
    | Some result => Some (c, result)
    | None =>
        let in_slash_context :=
          slash_commands_enabled (config c) && negb (bash c) &&
          (command_popup || starts_with (first_of_lines (text (area c))) (lit "/")) in
        let capture := negb (disable_paste_burst (draft c)) && is_active (burst c) && negb in_slash_context in
        let '(b, appended) := if capture then append_newline_if_active (burst c) now else (burst c, false) in
        let c := with_burst c b in
        if appended then Some (c, NoResult)
        else if negb in_slash_context && negb (disable_paste_burst (draft c)) && newline_should_insert_instead_of_submit (burst c) now
        then c ← insert_text c [newline]; Some (with_burst c (extend_window (burst c) now), NoResult)
        else
          let original := c in
          let '(c, dispatched) := try_dispatch_slash_command_with_args c in
          match dispatched with
          | Some result => Some (c, result)
          | None =>
              '(c, prepared) ← prepare_submission_text c true;
              match prepared with
              | Some (s, es) => Some (c, Submitted s es)
              | None =>
                  c ← set_text_content_with_mention_bindings c (current_text original) (current_text_elements original)
                        (local_image_paths (attachments original)) (snapshot_mention_bindings original);
                  Some (with_pastes c (pastes original), NoResult)
              end
          end
    end.
Definition reset_vim_mode_after_successful_dispatch (c : ChatComposer) (result : InputResult) : ChatComposer :=
  match result with NoResult => c | _ => with_area c (enter_vim_normal_mode (area c)) end.
Definition handle_submission (c : ChatComposer) (should_queue command_popup : bool) (now : N) : option (ChatComposer * InputResult) :=
  '(c, result) ← handle_submission_with_time c should_queue command_popup now;
  Some (reset_vim_mode_after_successful_dispatch c result, result).
End contents.
