(* ===== verification/ComposerPastes.v ===== *)
(** * What a submission sends ([tui/src/bottom_pane/chat_composer.rs])

    The expansion of placeholders against a reference on segments, the freshness of placeholders,
    and the way of pasted text through the draft into the message. *)
From Stdlib Require Import Sorted.
From S2P Require Import Prelude RustStr Utf8 Utf8Text KeyInput TextArea TextAreaSafe Attachments SlashCommand PasteBurst Composer ComposerTyping ComposerSubmit.
#[local] Open Scope N_scope.

(** ** Drafts as segments *)
Inductive segment := Plain (s : rstring) | Elem (p : rstring).
Definition seg_text (x : segment) : rstring := match x with Plain s => s | Elem p => p end.
Definition draft_text (l : list segment) : rstring := concat (seg_text <$> l).
(** The elements of the segments, for a text that goes before them. *)
Fixpoint draft_elements (at_ : N) (l : list segment) : list UserTextElement :=
  match l with
  | [] => []
  | Plain s :: l => draft_elements (at_ + blen s) l
  | Elem p :: l => mk_user_element at_ (at_ + blen p) (Some p) :: draft_elements (at_ + blen p) l
  end.
(** The reference: each element takes the first paste of its label that is left, as plain text. *)
Fixpoint take_paste (label : rstring) (pending : list (rstring * rstring)) : option (rstring * list (rstring * rstring)) :=
  match pending with
  | [] => None
  | (l, s) :: pending =>
      if bool_decide (l = label) then Some (s, pending) else '(r, pending) ← take_paste label pending; Some (r, (l, s) :: pending)
  end.
Fixpoint fill (l : list segment) (pending : list (rstring * rstring)) : list segment :=
  match l with
  | [] => []
  | Plain s :: l => Plain s :: fill l pending
  | Elem p :: l => match take_paste p pending with Some (s, pending) => Plain s :: fill l pending | None => Elem p :: fill l pending end
  end.

(** ** Lemmas: the expansion *)
(** The queues of a map are the pastes of each label, in their order. *)
Definition queue_of (label : rstring) (pending : list (rstring * rstring)) : list rstring :=
  snd <$> List.filter (λ p, bool_decide (p.1 = label)) pending.
Definition indexes (m : gmap rstring (list rstring)) (pending : list (rstring * rstring)) : Prop :=
  ∀ label, default [] (m !! label) = queue_of label pending.
Lemma index_pastes_ok pending : indexes (index_pastes pending) pending.
Proof.
  unfold index_pastes. induction pending as [|[l s] pending IH] using rev_ind; intros label; [done|].
  rewrite foldl_app. cbn [foldl fst snd]. set (m := foldl _ _ _) in *. unfold queue_of. rewrite List.filter_app, fmap_app. cbn.
  destruct (decide (l = label)) as [->|Hne].
  - rewrite lookup_insert_eq, bool_decide_eq_true_2 by done. cbn. by rewrite IH.
  - rewrite lookup_insert_ne, bool_decide_eq_false_2 by done. cbn. rewrite app_nil_r. apply IH.
Qed.
Lemma take_paste_queue label pending : match take_paste label pending with
  | Some (s, pending') => queue_of label pending = s :: queue_of label pending' ∧ ∀ l, l ≠ label → queue_of l pending' = queue_of l pending
  | None => queue_of label pending = []
  end.
Proof.
  unfold queue_of. induction pending as [|[l s] pending IH]; cbn; [done|]. case_bool_decide as Hl; [subst l|].
  - split; [done|]. intros l Hl. by rewrite bool_decide_eq_false_2.
  - destruct (take_paste label pending) as [[r pending']|]; cbn; [|done]. destruct IH as [IH1 IH2].
    rewrite bool_decide_eq_false_2 by done. split; [done|]. intros l' Hl'. cbn. case_bool_decide; cbn; by rewrite IH2.
Qed.
Lemma indexes_take m pending label : indexes m pending →
  match take_paste label pending with
  | Some (s, pending') => ∃ queue, m !! label = Some (s :: queue) ∧ indexes (<[label := queue]> m) pending'
  | None => m !! label = None ∨ m !! label = Some []
  end.
Proof.
  intros Hi. pose proof (take_paste_queue label pending) as Ht. pose proof (Hi label) as Hl. destruct (take_paste label pending) as [[s pending']|].
  - destruct Ht as [E1 E2]. rewrite E1 in Hl. destruct (m !! label) as [queue|] eqn:Em; cbn in Hl; [|done]. subst queue.
    exists (queue_of label pending'). split; [done|]. intros l. destruct (decide (l = label)) as [->|Hne].
    + by rewrite lookup_insert_eq.
    + rewrite lookup_insert_ne, E2 by done. apply Hi.
  - rewrite Ht in Hl. destruct (m !! label); cbn in Hl; [subst; by right|by left].
Qed.
Lemma draft_text_cons x l : draft_text (x :: l) = seg_text x ++ draft_text l.
Proof. done. Qed.
Lemma draft_text_app l k : draft_text (l ++ k) = draft_text l ++ draft_text k.
Proof. unfold draft_text. by rewrite fmap_app, concat_app. Qed.
Lemma draft_elements_app at_ l k : draft_elements at_ (l ++ k) = draft_elements at_ l ++ draft_elements (at_ + blen (draft_text l)) k.
Proof.
  revert at_. induction l as [|[s|p] l IH]; intros at_; cbn [draft_elements app].
  - cbn. by rewrite N.add_0_r.
  - rewrite IH, draft_text_cons, blen_app. cbn. by rewrite N.add_assoc.
  - rewrite IH, draft_text_cons, blen_app. cbn. by rewrite N.add_assoc.
Qed.
Lemma expand_elements_spec s done gap l pending m rebuilt es : indexes m pending → s = done ++ gap ++ draft_text l →
  ∃ cursor rebuilt' tail, expand_elements s (draft_elements (blen done + blen gap) l) m (blen done) rebuilt es =
    Some (cursor, rebuilt', es ++ draft_elements (blen (rebuilt ++ gap)) (fill l pending)) ∧
    (∃ front, s = front ++ tail ∧ blen front = cursor) ∧ rebuilt' ++ tail = rebuilt ++ gap ++ draft_text (fill l pending).
Proof.
  revert done gap pending m rebuilt es. induction l as [|[x|p] l IH]; intros done gap pending m rebuilt es Hi Es; cbn [draft_elements fill].
  - exists (blen done), rebuilt, (gap ++ []). cbn. rewrite !app_nil_r. split_and!; [done| |done]. exists done. by rewrite Es, app_nil_r.
  - destruct (IH done (gap ++ x) pending m rebuilt es Hi) as (cursor & rebuilt' & tail & E & Hf & Ht).
    { rewrite Es, draft_text_cons. by rewrite <- app_assoc. }
    exists cursor, rebuilt', tail. rewrite blen_app, N.add_assoc in E. rewrite E. split_and!; [|done|].
    + do 2 f_equal. rewrite !blen_app. f_equal. f_equal. lia.
    + rewrite Ht, draft_text_cons. by rewrite <- app_assoc.
  - assert (s = (done ++ gap) ++ p ++ draft_text l) as Es' by by rewrite Es, draft_text_cons, <- app_assoc.
    cbn [expand_elements byte_start byte_end]. rewrite <- blen_app.
    assert (N.min (blen (done ++ gap)) (blen s) = blen (done ++ gap)) as -> by (rewrite Es', (blen_app (done ++ gap)); lia).
    assert (N.min (blen (done ++ gap) + blen p) (blen s) = blen ((done ++ gap) ++ p)) as -> by (rewrite Es', !blen_app; lia).
    rewrite (proj2 (N.ltb_ge _ _)) by (rewrite (blen_app _ p); lia).
    assert ((if blen done <? blen (done ++ gap) then slice s (blen done) (blen (done ++ gap)) else Some []) = Some gap) as ->.
    { rewrite blen_app. destruct (N.ltb_spec (blen done) (blen done + blen gap)) as [_|Hz].
      - apply slice_Some. exists done, (p ++ draft_text l). split_and!; [by rewrite Es', <- app_assoc|done|done].
      - assert (gap = []) as -> by (apply blen_0; lia). done. }
    assert (slice s (blen (done ++ gap)) (blen ((done ++ gap) ++ p)) = Some p) as ->.
    { apply slice_Some. exists (done ++ gap), (draft_text l). split_and!; [done|done|by rewrite (blen_app (done ++ gap) p)]. }
    unfold placeholder. cbn [mbind option_bind stored_placeholder]. pose proof (indexes_take m pending p Hi) as Htake.
    destruct (take_paste p pending) as [[actual pending']|].
    + destruct Htake as (queue & -> & Hi'). cbn [mbind option_bind].
      destruct (IH ((done ++ gap) ++ p) [] pending' _ ((rebuilt ++ gap) ++ actual) es Hi') as (cursor & rebuilt' & tail & E & Hf & Ht).
      { by rewrite Es', <- !app_assoc. }
      exists cursor, rebuilt', tail. cbn [blen] in E. rewrite N.add_0_r in E. rewrite blen_app in E at 1. rewrite E. split_and!; [|done|].
      * rewrite app_nil_r. cbn [draft_elements]. by rewrite (blen_app (rebuilt ++ gap)).
      * rewrite Ht, draft_text_cons. cbn. by rewrite <- !app_assoc.
    + assert ((queue ← m !! p; match queue with [] => None | actual :: queue0 => Some (p, actual, queue0) end) = None) as ->
        by (by destruct Htake as [-> | ->]).
      destruct (IH ((done ++ gap) ++ p) [] pending m ((rebuilt ++ gap) ++ p)
        (es ++ [mk_user_element (blen (rebuilt ++ gap)) (blen ((rebuilt ++ gap) ++ p)) (Some p)]) Hi) as (cursor & rebuilt' & tail & E & Hf & Ht).
      { by rewrite Es', <- !app_assoc. }
      exists cursor, rebuilt', tail. cbn [blen] in E. rewrite N.add_0_r in E. rewrite blen_app in E at 1. rewrite E. split_and!; [|done|].
      * rewrite app_nil_r, <- app_assoc. cbn [draft_elements app]. by rewrite (blen_app (rebuilt ++ gap)).
      * rewrite Ht, draft_text_cons. cbn. by rewrite <- !app_assoc.
Qed.
Lemma draft_elements_start at_ l e : e ∈ draft_elements at_ l → at_ <= byte_start e.
Proof.
  revert at_. induction l as [|[s|p] l IH]; intros at_; cbn; [by intros ?%elem_of_nil| |].
  - intros He%IH. lia.
  - intros [->|He%IH]%elem_of_cons; cbn; lia.
Qed.
Lemma sort_draft_elements at_ l : sort_by_byte_start (draft_elements at_ l) = draft_elements at_ l.
Proof.
  unfold sort_by_byte_start. revert at_. induction l as [|[s|p] l IH]; intros at_; cbn; [done|apply IH|]. rewrite IH.
  destruct (draft_elements (at_ + blen p) l) as [|e es] eqn:E; [done|]. cbn. pose proof (draft_elements_start (at_ + blen p) l e) as Hs.
  rewrite E in Hs. specialize (Hs ltac:(by left)). rewrite (proj2 (N.leb_le _ _)); [done|lia].
Qed.
Lemma fill_nil l : fill l [] = l.
Proof. induction l as [|[s|p] l IH]; cbn; [done|by rewrite IH..]. Qed.
Lemma fill_plain at_ l pending : draft_elements at_ l = [] → fill l pending = l.
Proof. revert at_. induction l as [|[s|p] l IH]; intros at_; cbn; [done| |done]. intros H. by erewrite IH. Qed.
Lemma expand_draft l pending :
  expand_pending_pastes (draft_text l) (draft_elements 0 l) pending = Some (draft_text (fill l pending), draft_elements 0 (fill l pending)).
Proof.
  unfold expand_pending_pastes. case_bool_decide as Hp; [subst; by rewrite fill_nil|].
  case_bool_decide as He; [by rewrite (fill_plain 0)|]. cbn [orb]. rewrite sort_draft_elements.
  destruct (expand_elements_spec (draft_text l) [] [] l pending (index_pastes pending) [] [] (index_pastes_ok _)) as
    (cursor & rebuilt & tail & E & (front & Es & Ef) & Ht); [done|]. cbn [blen] in E. change (0 + 0) with 0 in E. rewrite E. cbn [mbind option_bind].
  assert ((if cursor <? blen (draft_text l) then slice (draft_text l) cursor (blen (draft_text l)) else Some []) = Some tail) as ->.
  { rewrite Es, blen_app, Ef. destruct (N.ltb_spec cursor (cursor + blen tail)) as [_|Hz].
    - apply slice_Some. exists front, []. split_and!; [by rewrite app_nil_r|exact Ef|by rewrite Ef].
    - assert (tail = []) as -> by (apply blen_0; lia). done. }
  cbn [mbind option_bind]. by rewrite Ht.
Qed.

(** ** Lemmas: numbers in placeholders *)
Lemma go_digits x s : let val := foldl (λ n d, 10 * n + (d - 48)) in
  val 0 (lit (pretty_N_go x s)) = val x (lit s) ∧ forallb is_ascii_digit (lit (pretty_N_go x s)) = forallb is_ascii_digit (lit s) ∧
  (x ≠ 0 → lit (pretty_N_go x s) ≠ []).
Proof.
  cbn zeta. revert s. induction (N.lt_wf_0 x) as [x _ IH]. intros s. destruct (N.eq_dec x 0) as [->|Hx]; [by rewrite pretty_N_go_0|].
  rewrite pretty_N_go_step by lia. assert (x / 10 < x) as Hlt by (apply N.div_lt; lia).
  destruct (IH _ Hlt (String (pretty_N_char (x mod 10)) s)) as (E1 & E2 & E3). rewrite E1, E2.
  assert (N_of_ascii (pretty_N_char (x mod 10)) = 48 + x mod 10) as Ec.
  { assert (x mod 10 < 10) as Hm by (apply N.mod_lt; lia). generalize dependent (x mod 10). intros d _ _ _ Hd.
    destruct d as [|[[[[]|[]|]|[[]|[]|]|]|[[[]|[]|]|[[]|[]|]|]|]]; try lia; done. }
  assert (x mod 10 < 10) by (apply N.mod_lt; lia). change (lit (String _ s)) with (N_of_ascii (pretty_N_char (x mod 10)) :: lit s).
  rewrite Ec. cbn [foldl forallb]. split_and!.
  - assert (10 * (x `div` 10) + (48 + x `mod` 10 - 48) = x) as ->; [|done]. pose proof (N.div_mod x 10 ltac:(lia)) as Hd. generalize dependent (x `div` 10). generalize dependent (x `mod` 10). intros; lia.
  - unfold is_ascii_digit. generalize dependent (x `mod` 10). intros m _ _ _ _ Hm. by rewrite (proj2 (N.leb_le 48 _)), (proj2 (N.leb_le _ 57)) by lia.
  - intros _. destruct (N.eq_dec (x / 10) 0) as [E0|Hn]; [|by apply E3]. rewrite E0, pretty_N_go_0. done.
Qed.
Lemma show_digits n : forallb is_ascii_digit (show n) = true ∧ show n ≠ [].
Proof.
  unfold show, pretty, pretty_N. case_decide as Hn; [done|]. destruct (go_digits n EmptyString) as (_ & E & Hne). split; [by rewrite E|auto].
Qed.
Lemma show_value n : foldl (λ n d, 10 * n + (d - 48)) 0 (show n) = n.
Proof. unfold show, pretty, pretty_N. case_decide as Hn; [by subst|]. by destruct (go_digits n EmptyString) as (-> & _). Qed.
Lemma parse_show n : parse_usize (show n) = if n <=? usize_max then Some n else None.
Proof.
  destruct (show_digits n) as [Hd Hne]. unfold parse_usize. assert (strip_prefix (lit "+") (show n) = None) as ->.
  { destruct (show n) as [|d l]; [done|]. cbn in Hd |- *. apply andb_true_iff in Hd as [Hd _]. unfold is_ascii_digit in Hd.
    case_decide as E; [|done]. subst. done. }
  cbn [default]. unfold default, id. rewrite bool_decide_eq_false_2, Hd by done. cbn [orb negb].
  by rewrite show_value.
Qed.
Lemma digits_split (d1 d2 r1 r2 : rstring) x1 x2 : forallb is_ascii_digit d1 = true → forallb is_ascii_digit d2 = true →
  is_ascii_digit x1 = false → is_ascii_digit x2 = false → d1 ++ x1 :: r1 = d2 ++ x2 :: r2 → d1 = d2 ∧ x1 :: r1 = x2 :: r2.
Proof.
  revert d2. induction d1 as [|a d1 IH]; intros [|b d2] H1 H2 Hx1 Hx2; cbn in *.
  - done.
  - intros [= -> _]. apply andb_true_iff in H2 as [H2 _]. congruence.
  - intros [= -> _]. apply andb_true_iff in H1 as [H1 _]. congruence.
  - intros [= -> E]. apply andb_true_iff in H1 as [_ H1], H2 as [_ H2]. by destruct (IH d2 H1 H2 Hx1 Hx2 E) as [-> ->].
Qed.
Lemma paste_base_inj k k' r r' : paste_base k ++ r = paste_base k' ++ r' → k = k' ∧ r = r'.
Proof.
  unfold paste_base. rewrite <- !app_assoc. intros E%app_inv_head.
  apply (digits_split (show k) (show k')) in E as [E1 E2]; [|apply show_digits..|done|done].
  assert (lit " chars]" ++ r = lit " chars]" ++ r') as E3 by exact E2. apply app_inv_head in E3. split; [|done].
  by rewrite <- (show_value k), <- (show_value k'), E1.
Qed.
(** A label that the composer makes while it has fewer than [n] pastes. *)
Definition numbered (n : N) (label : rstring) : Prop :=
  ∃ k, label = paste_base k ∨ ∃ m, label = paste_base k ++ lit " #" ++ show m ∧ m <= n.
Lemma suffix_step_bound n k max label s : 1 <= n → max <= n → numbered n label →
  suffix_step (paste_base k) (paste_base k ++ lit " #") max (label, s) <= n.
Proof.
  intros Hn Hm (k' & Hl). unfold suffix_step. cbn [fst]. case_bool_decide; [lia|].
  destruct (strip_prefix _ label) as [suffix|] eqn:Es; [|done]. apply strip_prefix_Some in Es. rewrite <- app_assoc in Es.
  destruct Hl as [->|(m & -> & Hmn)].
  - rewrite <- (app_nil_r (paste_base k')) in Es. by apply paste_base_inj in Es as [_ ?].
  - apply paste_base_inj in Es as [_ Es]. apply app_inv_head in Es. rewrite <- Es, parse_show. destruct (m <=? usize_max); lia.
Qed.
Lemma fold_suffix_bound n k pending max : 1 <= n → max <= n → Forall (λ p, numbered n p.1) pending →
  foldl (suffix_step (paste_base k) (paste_base k ++ lit " #")) max pending <= n.
Proof.
  intros Hn Hm Hp. revert max Hm. induction Hp as [|[l s] pending Hl _ IH]; intros max Hm; cbn [foldl]; [done|].
  by apply IH, suffix_step_bound.
Qed.
Lemma suffix_step_grows base prefix max p : max <= suffix_step base prefix max p.
Proof. unfold suffix_step. repeat case_match; lia. Qed.
Lemma fold_suffix_elem base prefix pending max p : p ∈ pending →
  suffix_step base prefix 0 p <= foldl (suffix_step base prefix) max pending.
Proof.
  assert (∀ pending max, max <= foldl (suffix_step base prefix) max pending) as Hg.
  { clear. induction pending as [|p pending IH]; intros max; cbn; [lia|]. etransitivity; [apply suffix_step_grows|apply IH]. }
  revert max. induction pending as [|q pending IH]; intros max; [by intros ?%elem_of_nil|].
  intros [->|Hp]%elem_of_cons; cbn; [|by apply IH]. etransitivity; [|apply Hg]. unfold suffix_step.
  destruct (bool_decide _); [lia|]. destruct (strip_prefix _ _) as [x|]; [destruct (parse_usize x)|]; lia.
Qed.
(** A new label is no label in use, and stays within the count of pastes. *)
Lemma next_placeholder_ok c k (n := N.of_nat (length (pastes c))) : n < usize_max → Forall (λ p, numbered n p.1) (pastes c) →
  has_post (next_large_paste_placeholder c k) (λ label, (label ∉ (fst <$> pastes c)) ∧ numbered (n + 1) label ∧ ∃ r, label = lit "[" ++ r).
Proof.
  intros Hn Hp. unfold next_large_paste_placeholder. set (prefix := _ ++ lit " #"). set (m := foldl _ 0 _).
  assert (m <= n ∨ pastes c = []) as Hm.
  { destruct (pastes c) as [|p ps] eqn:Ep; [by right|]. left. apply fold_suffix_bound; [unfold n; cbn; lia|lia|done]. }
  assert (∀ label, label ∈ (fst <$> pastes c) → ∃ s, suffix_step (paste_base k) prefix 0 (label, s) <= m) as Hin.
  { intros label ([l s] & -> & Hl)%list_elem_of_fmap. exists s. by apply fold_suffix_elem. }
  destruct (N.eqb_spec m 0) as [E0|Hne].
  - apply has_post_ret. split_and!.
    + intros [s Hs]%Hin. unfold suffix_step in Hs. cbn [fst] in Hs. rewrite bool_decide_eq_true_2 in Hs by done. lia.
    + exists k. by left.
    + unfold paste_base. by eexists.
  - assert (m <= n) by (destruct Hm as [?|Ep]; [done|unfold m in Hne; by rewrite Ep in Hne]).
    unfold usize_add. rewrite (proj2 (N.leb_le _ _)) by lia. cbn [mbind option_bind]. apply has_post_ret. split_and!.
    + intros [s Hs]%Hin. unfold suffix_step in Hs. cbn [fst] in Hs. case_bool_decide as Eb.
      { unfold prefix in Eb. rewrite <- (app_nil_r (paste_base k)), <- !app_assoc in Eb. by apply paste_base_inj in Eb as [_ ?]. }
      assert (strip_prefix prefix (prefix ++ show (m + 1)) = Some (show (m + 1))) as E by by apply strip_prefix_Some.
      rewrite E, parse_show, (proj2 (N.leb_le _ _)) in Hs by lia. lia.
    + exists k. right. exists (m + 1). unfold prefix. rewrite <- app_assoc. split; [done|lia].
    + unfold prefix, paste_base. by eexists.
Qed.

(** ** Lemmas: insertions at the end of the text *)
Section at_end.
Context {U : Unicode}.
Definition filled (t : TextArea) : Prop := Forall (λ e, e_start e < e_end e) (elements t).
Lemma end_before t a : at_spot t a [] → Forall (λ e, e_end e <= blen a ∧ e_start e <= e_end e ∧ placed a e) (elements t).
Proof.
  intros [Hf Et _ _]. rewrite app_nil_r in Et. destruct (wf_elements _ Hf) as [Hp _]. rewrite Et in Hp. eapply Forall_impl; [exact Hp|].
  intros e He. pose proof He as (_ & He2 & He3). pose proof (boundary_le _ _ He2). split_and!; [lia|lia|done].
Qed.
Lemma insert_end t a s : at_spot t a [] → filled t →
  has_post (insert_str t s) (λ t', at_spot t' (a ++ s) [] ∧ same_modes t t' ∧ elements t' = elements t ∧ text_elements t' = text_elements t).
Proof.
  intros Hs Hfl. destruct (insert_at_spot t a [] s Hs) as (t' & Hi & Hs' & Hm & _). exists t'. split; [done|].
  assert (elements t' = elements t) as Ee.
  { revert Hi. unfold insert_str, insert_str_at. destruct (insert_at _ _ _); [|done]. cbn [mbind option_bind]. intros [= <-]. cbn.
    assert (clamp_pos_for_insertion t (cursor_pos t) = blen a) as ->.
    { unfold clamp_pos_for_insertion. rewrite nearest_edge_id; [apply Hs|apply Hs|apply Hs]. }
    unfold shift_elements. rewrite filter_all_true; [|].
    - clear Hs' Hm. pose proof (end_before _ _ Hs) as Hb. induction Hb as [|e es (He & _) _ IH]; [done|]. cbn. f_equal; [|done].
      unfold shift_element. by rewrite (proj2 (N.leb_le _ _)).
    - unfold filled in Hfl. pose proof (end_before _ _ Hs) as Hb. rewrite Forall_forall in Hfl, Hb |- *. intros e He.
      specialize (Hfl e He). destruct (Hb e He). apply negb_true_iff, andb_false_iff. rewrite !N.leb_gt. lia. }
  split_and!; [done|done|done|]. unfold text_elements. rewrite Ee. apply list_fmap_ext. intros i e He%list_elem_of_lookup_2. cbn. f_equal.
  pose proof (end_before _ _ Hs) as Hb. rewrite Forall_forall in Hb. destruct (Hb e He) as (He1 & _).
  unfold payload. rewrite (sp_text _ _ _ Hs), (sp_text _ _ _ Hs'), !app_nil_r. by rewrite slice_app_l.
Qed.
Definition by_start (x y : TextElement) : Prop := e_start x <= e_start y.
Lemma sort_by_byte_start_sorted es : StronglySorted by_start es → sort_by_start es = es.
Proof.
  unfold sort_by_start. induction 1 as [|x es _ IH Hx]; cbn; [done|]. rewrite IH. destruct es as [|y es]; cbn; [done|].
  apply Forall_cons in Hx as [Hx _]. unfold by_start in Hx. by rewrite (proj2 (N.leb_le _ _)).
Qed.
Lemma sorted_snoc es e : StronglySorted by_start es → Forall (λ x, by_start x e) es → StronglySorted by_start (es ++ [e]).
Proof.
  induction 1 as [|x es _ IH Hx]; cbn; [by repeat constructor|]. intros [H1 H2]%Forall_cons. constructor; [by apply IH|].
  apply Forall_app. split; [done|by constructor].
Qed.
Lemma insert_element_end t a s : at_spot t a [] → filled t → StronglySorted by_start (elements t) → s ≠ [] →
  has_post (insert_element t s) (λ r, at_spot r.1 (a ++ s) [] ∧ same_modes t r.1 ∧ filled r.1 ∧ StronglySorted by_start (elements r.1) ∧
    text_elements r.1 = text_elements t ++ [mk_user_element (blen a) (blen a + blen s) (Some s)]).
Proof.
  intros Hs Hfl Hsort Hne. unfold insert_element. pose proof Hs as [Hf Et Ec Ho].
  assert (clamp_pos_for_insertion t (cursor_pos t) = cursor_pos t) as Ecl by (unfold clamp_pos_for_insertion; rewrite nearest_edge_id; [done|apply Hf|exact Ho]).
  rewrite Ecl. destruct (insert_end t a s Hs Hfl) as (t1 & Hi & Hs1 & Hm & Ee & Ete). unfold insert_str in Hi. rewrite Hi. cbn [mbind option_bind].
  unfold add_element, add_element_with_id. cbn [fst snd]. set (e := mk_element _ _ _ _).
  assert (StronglySorted by_start (elements t1 ++ [e])) as Hsort1.
  { rewrite Ee. apply sorted_snoc; [done|]. eapply Forall_impl; [by apply end_before|]. intros x (? & ? & _). unfold by_start. cbn. rewrite Ec. lia. }
  rewrite (sort_by_byte_start_sorted _ Hsort1). set (t2 := with_elements t1 _ _).
  assert (blen s ≠ 0) as Hs0 by (by intros ?%blen_0).
  assert (range_room t1 (blen a) (blen a + blen s)) as Hroom.
  { rewrite <- blen_app. pose proof (sp_text _ _ _ Hs1) as Et1. rewrite app_nil_r in Et1. split_and!.
    - rewrite Et1. apply boundary_split.
    - rewrite Et1. apply boundary_end.
    - rewrite blen_app. lia.
    - rewrite Ee. eapply Forall_impl; [by apply end_before|]. intros x (? & _). lia. }
  assert (well_formed t2) as Hf2.
  { rewrite <- Ec in Hroom. pose proof (add_element_formed t1 _ _ None (sp_formed _ _ _ Hs1) Hroom) as H. unfold add_element_with_id in H.
    cbn [fst snd] in H. fold e in H. by rewrite (sort_by_byte_start_sorted _ Hsort1) in H. }
  assert (outside (elements t2) (blen (a ++ s))) as Ho2.
  { unfold outside. cbn. apply Forall_app. split; [|constructor; [|done]; cbn; rewrite Ec, blen_app; lia].
    rewrite Ee. eapply Forall_impl; [by apply end_before|]. intros x (? & _). cbn. rewrite blen_app. lia. }
  apply has_post_ret. cbn [fst]. rewrite Ec, <- blen_app.
  assert (set_cursor t2 (blen (a ++ s)) = with_cursor t2 (blen (a ++ s)) None) as ->.
  { assert (text t2 = a ++ s) as Et2 by (pose proof (sp_text _ _ _ Hs1) as E; by rewrite app_nil_r in E).
    unfold set_cursor, clamp_pos_to_nearest_boundary, len. rewrite Et2, N.min_id.
    by rewrite nearest_edge_id by (try done; apply boundary_end). }
  split_and!.
  - split; [|apply Hs1|done|exact Ho2]. destruct Hf2 as [_ He Hc]. split; [|exact He|exact Hc]. cbn. rewrite (sp_text _ _ _ Hs1), app_nil_r.
    apply boundary_end.
  - exact Hm.
  - unfold filled. cbn. apply Forall_app. split; [rewrite Ee; exact Hfl|]. constructor; [cbn; rewrite Ec; lia|done].
  - exact Hsort1.
  - unfold text_elements. cbn. rewrite fmap_app. f_equal; [exact Ete|]. cbn. do 2 f_equal; [exact Ec|by rewrite blen_app, Ec|].
    unfold payload. cbn. rewrite (sp_text _ _ _ Hs1), app_nil_r, Ec. apply slice_Some. exists a, []. split_and!; [by rewrite app_nil_r|done|done].
Qed.

(** ** Pastes one after the other *)
(** A paste that was taken: its label, when it is large, and its text. *)
Definition part : Type := option rstring * rstring.
Definition segs (l : list part) : list segment := (λ p, match p.1 with Some label => Elem label | None => Plain p.2 end) <$> l.
Definition pend (l : list part) : list (rstring * rstring) := omap (λ p, (λ label, (label, p.2)) <$> p.1) l.
Definition total (l : list part) : rstring := concat (snd <$> l).
Definition normal (s : rstring) : rstring := replace_cr (replace_crlf s).
(** The text starts neither a command nor a shell line. *)
Definition open_head (s : rstring) : Prop := match s with [] => True | x :: _ => x ≠ chr "/" ∧ x ≠ chr "!" end.
Lemma fill_parts l : fill (segs l) (pend l) = (λ p, Plain p.2) <$> l.
Proof.
  induction l as [|[[label|] s] l IH]; [done| |].
  - change (fill (Elem label :: segs l) ((label, s) :: pend l) = Plain s :: ((λ p, Plain p.2) <$> l)). cbn [fill take_paste].
    rewrite bool_decide_eq_true_2 by done. by rewrite IH.
  - change (Plain s :: fill (segs l) (pend l) = Plain s :: ((λ p, Plain p.2) <$> l)). by rewrite IH.
Qed.
Lemma plain_parts l : draft_text ((λ p, Plain p.2) <$> l) = total l ∧ ∀ at_, draft_elements at_ ((λ p : part, Plain p.2) <$> l) = [].
Proof.
  induction l as [|[o s] l [IH1 IH2]]; [done|]. split; [|intros at_; apply IH2]. rewrite fmap_cons, draft_text_cons, IH1. done.
Qed.
Lemma segs_snoc l p : segs (l ++ [p]) = segs l ++ [match p.1 with Some label => Elem label | None => Plain p.2 end].
Proof. unfold segs. by rewrite fmap_app. Qed.
Lemma pend_snoc l p : pend (l ++ [p]) = pend l ++ match p.1 with Some label => [(label, p.2)] | None => [] end.
Proof. unfold pend. rewrite omap_app. f_equal. by destruct p as [[label|] s]. Qed.
Lemma total_snoc l p : total (l ++ [p]) = total l ++ p.2.
Proof. unfold total. rewrite fmap_app, concat_app. cbn. by rewrite app_nil_r. Qed.
Lemma draft_text_snoc l x : draft_text (l ++ [x]) = draft_text l ++ seg_text x.
Proof. rewrite draft_text_app, draft_text_cons. cbn. by rewrite app_nil_r. Qed.
Lemma open_prefix a b : open_head (a ++ b) → open_head a.
Proof. by destruct a. Qed.
Definition bracketed (p : rstring * rstring) : Prop := ∃ r, p.1 = lit "[" ++ r.
Lemma draft_head l : Forall bracketed (pend l) → open_head (total l) → open_head (draft_text (segs l)).
Proof.
  induction l as [|[[label|] s] l IH]; [done| |]; intros Hb Ho.
  - change (Forall bracketed ((label, s) :: pend l)) in Hb. apply Forall_cons in Hb as [[r Hr] _]. cbn in Hr.
    change (open_head (label ++ draft_text (segs l))). by rewrite Hr.
  - change (open_head (s ++ draft_text (segs l))). change (open_head (s ++ total l)) in Ho. destruct s as [|x s]; [by apply IH|done].
Qed.
Lemma pend_count l : Forall (λ p, 1 <= char_count p.2) (pend l) → N.of_nat (length (pend l)) <= char_count (total l).
Proof.
  induction l as [|[[label|] s] l IH]; [done| |]; intros H; unfold char_count in *.
  - change (Forall (λ p, 1 <= N.of_nat (length p.2)) ((label, s) :: pend l)) in H. apply Forall_cons in H as [H1 H2]. specialize (IH H2).
    change (N.of_nat (S (length (pend l))) <= N.of_nat (length (s ++ total l))). cbn in H1. rewrite length_app. lia.
  - specialize (IH H). change (N.of_nat (length (pend l)) <= N.of_nat (length (s ++ total l))). rewrite length_app. lia.
Qed.
End at_end.
Section pastes.
Context {U : Unicode} {P : PastedPaths} (debug : bool).
Record drafted (c : ChatComposer) (l : list part) : Prop := {
  dr_spot : at_spot (area c) (draft_text (segs l)) [];
  dr_filled : filled (area c);
  dr_sorted : StronglySorted by_start (elements (area c));
  dr_elements : text_elements (area c) = draft_elements 0 (segs l);
  dr_pastes : pastes c = pend l;
  dr_labels : Forall (λ p, numbered (N.of_nat (length (pend l))) p.1) (pend l);
  dr_bracketed : Forall bracketed (pend l);
  dr_big : Forall (λ p, 1 <= char_count p.2) (pend l);
  dr_distinct : NoDup (fst <$> pend l);
  dr_bash : bash c = false;
  dr_burst : burst c = default_burst;
  dr_attachments : attachments c = no_attachments;
  dr_images : no_images c }.
Lemma draft_elements_label l e : Forall bracketed (pend l) → ∀ at_, e ∈ draft_elements at_ (segs l) →
  ∃ r, stored_placeholder e = Some (lit "[" ++ r).
Proof using Type.
  induction l as [|[[label|] s] l IH]; intros Hb at_; [by intros ?%elem_of_nil| |by apply IH].
  change (Forall bracketed ((label, s) :: pend l)) in Hb.
  change (e ∈ mk_user_element at_ (at_ + blen label) (Some label) :: draft_elements (at_ + blen label) (segs l) →
    ∃ r, stored_placeholder e = Some (lit "[" ++ r)).
  apply Forall_cons in Hb as [[r Hr] Hb]. intros [->|He]%elem_of_cons; [|by eapply IH]. exists r. cbn in *. by rewrite Hr.
Qed.
Lemma sync_drafted c l : drafted c l → open_head (draft_text (segs l)) → sync_popups debug c = c.
Proof using Type.
  intros Hd Ho. unfold sync_popups, sync_slash_command_elements. destruct (negb _); [done|].
  assert (List.filter (is_slash_element (text (area c))) (text_elements (area c)) = []) as ->.
  { rewrite (dr_elements _ _ Hd). destruct (List.filter _ _) as [|e es] eqn:Ef; [done|]. exfalso.
    assert (e ∈ List.filter (is_slash_element (text (area c))) (draft_elements 0 (segs l))) as [He Hs]%list_elem_of_In%List.filter_In
      by (rewrite Ef; by left).
    apply list_elem_of_In, (draft_elements_label _ _ (dr_bracketed _ _ Hd)) in He as [r Hr]. unfold is_slash_element, placeholder in Hs.
    by rewrite Hr in Hs. }
  cbn. destruct (slash_command_element_range debug c (first_line (text (area c)))) as [range|] eqn:Er.
  - apply slash_range_spec in Er as (name & w & rest & item & Et & _). rewrite (sp_text _ _ _ (dr_spot _ _ Hd)), app_nil_r in Et.
    rewrite Et in Ho. by destruct Ho.
  - by destruct c as [[] ? ? ? ? ? ? ? ? ?].
Qed.
Lemma sync_bash_drafted c l : drafted c l → open_head (draft_text (segs l)) → sync_bash_mode_from_text c = Some c.
Proof using Type.
  intros Hd Ho. unfold sync_bash_mode_from_text. rewrite (sp_text _ _ _ (dr_spot _ _ Hd)), app_nil_r.
  replace (starts_with _ (lit "!")) with false; [by rewrite andb_false_r|]. symmetry. apply bool_decide_eq_false. intros [k Hk].
  rewrite Hk in Ho. by destruct Ho.
Qed.
Lemma paste_small_drafted c l s : drafted c l → open_head (draft_text (segs (l ++ [(None, s)]))) →
  has_post (composer_insert_str debug c s) (λ c', drafted c' (l ++ [(None, s)])).
Proof using Type.
  intros Hd Ho. unfold composer_insert_str, insert_text. pose proof Hd as [? ? ? Hte ? ? ? ? ? ? ? ? ?].
  destruct (insert_end (area c) _ s (dr_spot _ _ Hd) (dr_filled _ _ Hd)) as (t' & Hi & Hs' & _ & Ee & Ete). rewrite Hi. cbn [mbind option_bind].
  assert (drafted (with_area c t') (l ++ [(None, s)])) as Hd'.
  { split; try done; rewrite ?pend_snoc, ?segs_snoc; cbn [fst snd]; rewrite ?app_nil_r; try done.
    - by rewrite draft_text_snoc.
    - unfold filled in *. cbn. by rewrite Ee.
    - cbn. by rewrite Ee.
    - cbn. rewrite Ete, Hte, draft_elements_app. cbn. by rewrite app_nil_r. }
  rewrite (sync_bash_drafted _ _ Hd' Ho). cbn [mbind option_bind]. apply has_post_ret. by rewrite (sync_drafted _ _ Hd' Ho).
Qed.
Lemma paste_large_drafted c l s : drafted c l → 1 <= char_count s → N.of_nat (length (pend l)) < usize_max →
  has_post (label ← next_large_paste_placeholder c (char_count s);
            '(t, _) ← insert_element (area c) label;
            Some (with_pastes (with_area c t) (pastes c ++ [(label, s)]))) (λ c', ∃ label, drafted c' (l ++ [(Some label, s)])).
Proof using Type.
  intros Hd Hs Hn. pose proof Hd as [? ? ? Hte Hp Hl Hb Hbig Hnd ? ? ? ?]. rewrite <- Hp in Hn, Hl.
  eapply has_post_bind; [by apply next_placeholder_ok|]. intros label (Hfresh & Hnum & r & Hr). rewrite Hp in *.
  eapply has_post_bind; [apply (insert_element_end (area c) _ label (dr_spot _ _ Hd)); [done|done|by rewrite Hr]|].
  intros [t id] (Hs' & _ & Hfl & Hsort & Ete). cbn [fst] in *. apply has_post_ret. exists label.
  split; rewrite ?pend_snoc, ?segs_snoc; cbn [fst snd]; try done.
  - by rewrite draft_text_snoc.
  - cbn. rewrite Ete, Hte, draft_elements_app. done.
  - cbn. rewrite length_app. cbn. apply Forall_app. split.
    + eapply Forall_impl; [exact Hl|]. intros p (k & Hk). exists k. destruct Hk as [?|(m & ? & ?)]; [by left|right]. exists m. split; [done|lia].
    + constructor; [|done]. cbn. destruct Hnum as (k & Hk). exists k. destruct Hk as [?|(m & ? & ?)]; [by left|right]. exists m. split; [done|lia].
  - apply Forall_app. split; [done|]. constructor; [by exists r|done].
  - apply Forall_app. split; [done|]. by constructor.
  - rewrite fmap_app. apply NoDup_app. split; [done|]. split; [|apply NoDup_singleton]. intros x Hx ->%list_elem_of_singleton. done.
Qed.
Lemma handle_paste_drafted c l s : drafted c l → open_head (total l ++ normal s) → N.of_nat (length (pend l)) < usize_max →
  has_post (handle_paste debug c s) (λ c', ∃ o, drafted c' (l ++ [(o, normal s)]) ∧ config c' = config c).
Proof using Type.
  intros Hd Ho Hn. unfold handle_paste. fold (normal s). cbv zeta.
  assert (∀ o, Forall bracketed (pend (l ++ [(o, normal s)])) → open_head (draft_text (segs (l ++ [(o, normal s)])))) as Hhead.
  { intros o Hb. apply draft_head; [done|]. by rewrite total_snoc. }
  eapply (has_post_bind _ _ (λ c', ∃ o, drafted c' (l ++ [(o, normal s)]) ∧ config c' = config c)).
  - destruct (N.ltb_spec LARGE_PASTE_CHAR_THRESHOLD (char_count (normal s))) as [Hlt|Hle].
    + unfold LARGE_PASTE_CHAR_THRESHOLD in Hlt. pose proof (paste_large_drafted c l (normal s) Hd ltac:(lia) Hn) as (c' & E & label & Hd').
      exists c'. split; [exact E|]. exists (Some label). split; [done|]. revert E.
      destruct (next_large_paste_placeholder _ _); [|done]. cbn [mbind option_bind]. destruct (insert_element _ _) as [[t id]|]; [|done].
      cbn [mbind option_bind]. by intros [= <-].
    + assert (has_post (composer_insert_str debug c (normal s)) (λ c', ∃ o, drafted c' (l ++ [(o, normal s)]) ∧ config c' = config c)) as Hins.
      { destruct (paste_small_drafted c l (normal s) Hd) as (c' & E & Hd').
        { apply Hhead. rewrite pend_snoc, app_nil_r. apply Hd. }
        exists c'. split; [exact E|]. exists None. split; [done|]. revert E. unfold composer_insert_str, insert_text.
        destruct (insert_str _ _); [|done]. cbn [mbind option_bind]. unfold sync_bash_mode_from_text. destruct (_ && _).
        - destruct (replace_range _ _ _); [|done]. cbn [mbind option_bind]. intros [= <-]. unfold sync_popups, sync_slash_command_elements. by case_match.
        - cbn [mbind option_bind]. intros [= <-]. unfold sync_popups, sync_slash_command_elements. by case_match. }
      assert ((if (1 <? char_count (normal s)) && image_paste_enabled (config c) then handle_paste_image_path c (normal s) else Some (c, false))
        = Some (c, false)) as ->; [|exact Hins].
      destruct (_ && image_paste_enabled _) eqn:Ei; [|done]. unfold handle_paste_image_path.
      destruct (normalize_pasted_path _) as [path|] eqn:En; [|done].
      destruct (dr_images _ _ Hd) as [Hno|Hno]; [rewrite Hno, andb_false_r in Ei; done|rewrite (Hno _ _ En); done].
  - intros c' (o & Hd' & Ec). apply has_post_ret. exists o. unfold clear_after_explicit_paste.
    assert (drafted (with_burst c' default_burst) (l ++ [(o, normal s)])) as Hb by (destruct Hd'; by split).
    rewrite (sync_drafted _ _ Hb); [by split|]. apply Hhead, Hd'.
Qed.
Fixpoint paste_all (c : ChatComposer) (ss : list rstring) : option ChatComposer :=
  match ss with [] => Some c | s :: ss => c ← handle_paste debug c s; paste_all c ss end.
Definition pasted (ss : list rstring) : rstring := concat (normal <$> ss).
Lemma paste_all_drafted c l ss : drafted c l → open_head (total l ++ pasted ss) → char_count (total l ++ pasted ss) < usize_max →
  has_post (paste_all c ss) (λ c', ∃ l', drafted c' l' ∧ total l' = total l ++ pasted ss ∧ config c' = config c).
Proof using Type.
  revert c l. induction ss as [|s ss IH]; intros c l Hd Ho Hn; cbn [paste_all].
  { apply has_post_ret. exists l. unfold pasted. cbn. by rewrite app_nil_r. }
  unfold pasted in *. cbn in Ho, Hn. rewrite app_assoc in Ho, Hn. eapply has_post_bind.
  - apply handle_paste_drafted; [done|by eapply open_prefix|]. pose proof (pend_count l (dr_big _ _ Hd)) as Hc.
    unfold char_count in *. rewrite !length_app in Hn. lia.
  - intros c' (o & Hd' & Ec). eapply has_post_weaken; [apply (IH c' _ Hd'); rewrite total_snoc; done|].
    intros c'' (l' & Hl' & Et & Ec'). exists l'. rewrite total_snoc in Et. cbn in Et. split_and!; [done|by rewrite Et, <- app_assoc|congruence].
Qed.
Lemma no_slash_name s : starts_with s (lit "/") = false → parse_slash_name s = None.
Proof using Type.
  intros Hs. unfold parse_slash_name. destruct (strip_prefix [chr "/"] s) as [r|] eqn:E; [|done]. apply strip_prefix_Some in E.
  apply bool_decide_eq_false in Hs. exfalso. apply Hs. by exists r.
Qed.
Lemma open_no_slash s : open_head s → starts_with s (lit "/") = false.
Proof using Type. intros Ho. apply bool_decide_eq_false. intros [k ->]. by destruct Ho. Qed.
Lemma first_of_lines_prefix s : first_of_lines s `prefix_of` s.
Proof using Type.
  unfold first_of_lines, lines. pose proof (split_inclusive_concat newline s) as E. destruct (split_inclusive newline s) as [|l ls]; cbn in *.
  { by eexists. }
  assert (lines_map l `prefix_of` l) as [k Hk].
  { unfold lines_map. destruct (strip_suffix [newline] l) as [l1|] eqn:E1; [|done]. apply strip_suffix_Some in E1.
    destruct (strip_suffix [cr] l1) as [l2|] eqn:E2; rewrite E1; [|by eexists]. apply strip_suffix_Some in E2. rewrite E2, <- app_assoc. by eexists. }
  exists (k ++ concat ls). by rewrite app_assoc, <- Hk, E.
Qed.
Lemma shift_none t : filled t → omap (shift_text_element 0) (text_elements t) = text_elements t.
Proof using Type.
  unfold filled, text_elements. induction 1 as [|e es He _ IH]; [done|]. cbn. unfold shift_text_element at 1. cbn [byte_start byte_end].
  rewrite !Z.add_0_r, !N2Z.id. rewrite (proj2 (Z.ltb_ge _ _)), (proj2 (Z.ltb_ge _ _)), (proj2 (Z.leb_gt _ _)) by lia. cbn. by rewrite IH.
Qed.
Lemma no_bare_command c : open_head (text (area c)) → try_dispatch_bare_slash_command debug c = (c, None).
Proof using Type.
  intros Ho. unfold try_dispatch_bare_slash_command. destruct (_ || _); [done|]. destruct (first_of_lines_prefix (text (area c))) as [k Hk].
  rewrite no_slash_name; [done|]. apply open_no_slash. rewrite Hk in Ho. by eapply open_prefix.
Qed.
Lemma no_command_with_args c : open_head (text (area c)) → try_dispatch_slash_command_with_args debug c = (c, None).
Proof using Type.
  intros Ho. unfold try_dispatch_slash_command_with_args. destruct (_ || _); [done|]. destruct (starts_with _ _); [done|].
  by rewrite no_slash_name by by apply open_no_slash.
Qed.
Lemma prepare_drafted c l record : drafted c l → starts_with (trim (total l)) (lit "/") = false → trim (total l) ≠ [] →
  char_count (trim (total l)) <= MAX_USER_INPUT_TEXT_CHARS →
  has_post (prepare_submission_text debug c record) (λ r, r.2 = Some (trim (total l), []) ∧ text (area r.1) = [] ∧ pastes r.1 = []).
Proof using Type.
  intros Hd Hslash Hne Hmax. unfold prepare_submission_text, prepare_submission_text_with_options.
  assert (current_text c = draft_text (segs l)) as ->.
  { unfold current_text. rewrite (dr_bash _ _ Hd). pose proof (sp_text _ _ _ (dr_spot _ _ Hd)) as E. by rewrite app_nil_r in E. }
  assert (current_text_elements c = draft_elements 0 (segs l)) as ->.
  { unfold current_text_elements. rewrite (dr_bash _ _ Hd), shift_none; [apply Hd|apply Hd]. }
  change (pastes (with_bash _ _)) with (pastes c). rewrite (dr_pastes _ _ Hd), expand_draft, fill_parts.
  destruct (plain_parts l) as [-> ->]. cbn [mbind option_bind]. cbv zeta.
  replace (trim_text_elements _ _ []) with (@nil UserTextElement) by (unfold trim_text_elements; by rewrite orb_true_r).
  rewrite (no_slash_name _ Hslash). cbn [mbind option_bind]. replace (if negb _ then None else None) with (@None rstring) by by case_match.
  rewrite (proj2 (N.ltb_ge _ _)) by done. rewrite bool_decide_eq_false_2 by done. cbn [andb]. apply has_post_ret. cbn [fst snd].
  by destruct record.
Qed.
Lemma submit_drafted c l popup now : drafted c l → open_head (total l) → starts_with (trim (total l)) (lit "/") = false → trim (total l) ≠ [] →
  char_count (trim (total l)) <= MAX_USER_INPUT_TEXT_CHARS →
  has_post (handle_submission debug c false popup now) (λ r, r.2 = Submitted (trim (total l)) [] ∧ text (area r.1) = [] ∧ pastes r.1 = []).
Proof using Type.
  intros Hd Ho Hslash Hne Hmax. pose proof (draft_head l (dr_bracketed _ _ Hd) Ho) as Hhead.
  assert (open_head (text (area c))) as Hopen.
  { pose proof (sp_text _ _ _ (dr_spot _ _ Hd)) as E. rewrite app_nil_r in E. by rewrite E. }
  unfold handle_submission, handle_submission_with_time. rewrite no_bare_command by done. cbv zeta.
  rewrite (dr_burst _ _ Hd). change (is_active default_burst) with false. rewrite andb_false_r. cbn [andb].
  change (newline_should_insert_instead_of_submit (burst (with_burst c default_burst)) now) with false. rewrite andb_false_r.
  rewrite <- (dr_burst _ _ Hd), with_burst_same, no_command_with_args by done.
  destruct (prepare_drafted c l true Hd Hslash Hne Hmax) as ([c' r] & -> & Hr & Ht & Hp). cbn [fst snd] in *. subst r.
  cbn [mbind option_bind]. apply has_post_ret. cbn [fst snd]. unfold reset_vim_mode_after_successful_dispatch, enter_vim_normal_mode.
  by destruct (vim_enabled (area c')).
Qed.
End pastes.

(** ** Lemmas: drafts that are refused *)
Section refused.
Context {U : Unicode}.
Definition user_placed (s : rstring) (e : UserTextElement) : Prop :=
  boundary s (byte_start e) ∧ boundary s (byte_end e) ∧ byte_start e <= byte_end e.
Lemma expand_elements_total s es : Forall (user_placed s) es → ∀ m cursor rebuilt acc, boundary s cursor →
  has_post (expand_elements s es m cursor rebuilt acc) (λ r, boundary s r.1.1).
Proof.
  induction 1 as [|e es (H1 & H2 & H3) _ IH]; intros m cursor rebuilt acc Hc; cbn [expand_elements]; [by apply has_post_ret|].
  rewrite !N.min_l by by apply boundary_le. rewrite (proj2 (N.ltb_ge _ _)) by done.
  eapply (has_post_bind _ _ (λ _, True)).
  { destruct (N.ltb_spec cursor (byte_start e)); [|by apply has_post_ret]. destruct (slice_total s cursor (byte_start e) Hc H1) as (x & -> & _); [lia|].
    by apply has_post_ret. }
  intros gap _. destruct (slice_total s _ _ H1 H2 H3) as (x & -> & _). cbn [mbind option_bind].
  destruct (ph ← placeholder e s; _) as [[[ph actual] queue]|]; by apply IH.
Qed.
Lemma insert_by_byte_start_perm e es : insert_by_byte_start e es ≡ₚ e :: es.
Proof. induction es as [|e' es IH]; cbn; [done|]. case_match; [done|]. rewrite IH. apply perm_swap. Qed.
Lemma sort_by_byte_start_perm es : sort_by_byte_start es ≡ₚ es.
Proof. unfold sort_by_byte_start. induction es as [|e es IH]; cbn; [done|]. by rewrite insert_by_byte_start_perm, IH. Qed.
Lemma expand_total s es pending : Forall (user_placed s) es → has_post (expand_pending_pastes s es pending) (λ _, True).
Proof.
  intros Hes. unfold expand_pending_pastes. destruct (_ || _); [by apply has_post_ret|].
  eapply has_post_bind; [apply (expand_elements_total s)|].
  - by rewrite sort_by_byte_start_perm.
  - apply boundary_0.
  - intros [[cursor rebuilt] acc] Hc. cbn in Hc. destruct (N.ltb_spec cursor (blen s)); [|by apply has_post_ret].
    destruct (slice_total s cursor (blen s) Hc (boundary_end s)) as (x & -> & _); [lia|]. by apply has_post_ret.
Qed.
Lemma current_elements_placed c : well_formed (area c) → Forall (user_placed (current_text c)) (current_text_elements c).
Proof.
  intros Hf. destruct (wf_elements _ Hf) as [Hp _]. unfold current_text_elements, current_text, text_elements.
  apply Forall_forall. intros e (u & (x & -> & Hx)%list_elem_of_fmap & He)%list_elem_of_omap. destruct (proj1 (Forall_forall _ _) Hp x Hx) as (H1 & H2 & H3).
  unfold shift_text_element in He. cbn [byte_start byte_end] in He. destruct (_ || _) eqn:Es; [done|]. injection He as <-.
  apply orb_false_iff in Es as [[Es1%Z.ltb_ge Es2%Z.ltb_ge]%orb_false_iff Es3%Z.leb_gt]. unfold user_placed. cbn [byte_start byte_end map_range].
  destruct (bash c).
  - assert (∀ n, boundary (text (area c)) n → boundary (chr "!" :: text (area c)) (Z.to_N (Z.of_N n + 1))) as Hb.
    { intros n Hn. apply (boundary_app_r [chr "!"]) in Hn. replace (Z.to_N (Z.of_N n + 1)) with (blen [chr "!"] + n); [done|].
      change (blen [chr "!"]) with 1. lia. }
    split_and!; [by apply Hb|by apply Hb|lia].
  - rewrite !Z.add_0_r, !N2Z.id. done.
Qed.
Lemma expand_current c : well_formed (area c) → has_post (expand_pending_pastes (current_text c) (current_text_elements c) (pastes c)) (λ r,
  current_text_with_pending c = Some r.1).
Proof.
  intros Hf. destruct (expand_total (current_text c) _ (pastes c) (current_elements_placed c Hf)) as ([s es] & E & _). exists (s, es). split; [done|].
  unfold current_text_with_pending. case_bool_decide as Hp; [|by rewrite E]. rewrite Hp in E. cbn in E. by injection E as -> _.
Qed.
Lemma trimmed_inside original trimmed es : Forall (λ e, byte_start e < byte_end e ∧ byte_end e <= blen trimmed) (trim_text_elements original trimmed es).
Proof.
  unfold trim_text_elements. destruct (_ || _); [done|]. apply Forall_forall. intros e (u & _ & He)%list_elem_of_omap. revert He.
  unfold trim_element. destruct (_ || _); [done|]. destruct (N.leb_spec (N.min (byte_end u - (blen original - blen (trim_start original))) (blen trimmed))
    (byte_start u - (blen original - blen (trim_start original)))); [done|]. intros [= <-]. cbn. lia.
Qed.
(** Steps that change elements and the cursor at most. *)
Record same_content (c c' : ChatComposer) : Prop := {
  sc_text : text (area c') = text (area c); sc_bash : bash c' = bash c; sc_pastes : pastes c' = pastes c;
  sc_history : local_history c' = local_history c; sc_sent : sent c' = sent c; sc_formed : well_formed (area c) → well_formed (area c') }.
Lemma same_content_refl c : same_content c c. Proof. by split. Qed.
Lemma same_content_trans c1 c2 c3 : same_content c1 c2 → same_content c2 c3 → same_content c1 c3.
Proof. intros [] []. split; [congruence..|auto]. Qed.
Lemma area_content c t : text t = text (area c) → (well_formed (area c) → well_formed t) → same_content c (with_area c t).
Proof. intros. by split. Qed.
Lemma remove_ranges_content t ranges : let t' := foldl (λ t r, (remove_element_range t r).1) t ranges in
  text t' = text t ∧ (well_formed t → well_formed t').
Proof.
  revert t. induction ranges as [|r ranges IH]; intros t; cbn; [done|]. destruct (remove_range_same t r) as (Et & _). destruct (IH (remove_element_range t r).1) as [E1 E2].
  split; [etransitivity; [exact E1|exact Et]|]. intros Hf. by apply E2, remove_range_formed.
Qed.
Lemma sync_content debug c : same_content c (sync_popups debug c).
Proof.
  unfold sync_popups, sync_slash_command_elements. destruct (negb _); [apply same_content_refl|]. set (stale := List.filter _ (element_range <$> _)).
  destruct (remove_ranges_content (area c) stale) as [E1 E2]. apply area_content.
  - destruct (slash_command_element_range _ _ _) as [range|]; [|done]. destruct (existsb _ _); [done|].
    destruct (add_range_same (foldl (λ t r, (remove_element_range t r).1) (area c) stale) range) as (Et & _). by rewrite Et.
  - intros Hf. destruct (slash_command_element_range _ _ _) as [range|]; [|auto]. destruct (existsb _ _); [auto|]. apply add_range_formed; auto.
Qed.
Lemma bind_mentions_content s bindings : ∀ c from, same_content c (bind_mentions c s bindings from).
Proof.
  induction bindings as [|b bindings IH]; intros c from; cbn [bind_mentions]; [apply same_content_refl|].
  destruct (find_next_mention_token_range _ _ _) as [range|]; [|apply IH].
  assert (same_content c (with_area c (add_element_range (area c) range).1)) as Ha.
  { apply area_content; [apply add_range_same|apply add_range_formed]. }
  destruct (add_element_range (area c) range) as [t added]. cbn [fst] in Ha. destruct added as [id|]; [|destruct (element_id_for_exact_range t range) as [id|]].
  1, 2: eapply same_content_trans; [|apply IH]; destruct Ha; by split.
  eapply same_content_trans; [exact Ha|apply IH].
Qed.
Lemma numbered_relabel number images t : (∀ i image, images !! i = Some image → image_placeholder image = local_image_label_text (number + N.of_nat i + 1)) →
  has_post (relabel number images t) (λ r, r.2 = t).
Proof.
  revert number. induction images as [|image images IH]; intros number Hi; cbn [relabel]; [by apply has_post_ret|].
  rewrite bool_decide_eq_true_2; [|rewrite (Hi 0%nat image eq_refl); f_equal; lia]. cbn [mbind option_bind].
  eapply has_post_bind; [apply IH|].
  - intros i image' Hl. rewrite (Hi (S i) image' Hl). f_equal. lia.
  - intros [images' t'] Et. cbn in Et. apply has_post_ret. exact Et.
Qed.
Lemma reset_images_total a paths t : has_post (reset_local_images a paths t) (λ r, r.2 = t).
Proof.
  unfold reset_local_images, relabel_local_images. cbn [local_images]. eapply has_post_bind; [apply numbered_relabel|].
  - intros i image. unfold numbered_images. rewrite list_lookup_imap. by intros (path & _ & ->)%fmap_Some.
  - intros [images t'] Et. cbn in Et. apply has_post_ret. exact Et.
Qed.
Lemma same_current_text c c' : same_content c c' → current_text c' = current_text c.
Proof. intros H. unfold current_text. by rewrite (sc_bash _ _ H), (sc_text _ _ H). Qed.
Lemma set_text_inner_text t s ranges : text (set_text_inner t s ranges) = s.
Proof. unfold set_text_inner. destruct ranges as [ranges|]; [|done]. by destruct (push_elements _ _ _ _). Qed.
Lemma set_content_total debug c s es paths bindings :
  has_post (set_text_content_with_mention_bindings debug c s es paths bindings) (λ c',
    current_text c' = s ∧ pastes c' = [] ∧ local_history c' = local_history c ∧ sent c' = sent c).
Proof.
  unfold set_text_content_with_mention_bindings. cbv zeta. set (c1 := clear_mentions _).
  destruct (imported_text_for_textarea c1 s es) as [[c2 s2] es2] eqn:Ei.
  assert (pastes c2 = [] ∧ local_history c2 = local_history c ∧ sent c2 = sent c ∧ (if bash c2 then chr "!" :: s2 else s2) = s) as (Ep & Eh & Es & Et).
  { unfold imported_text_for_textarea in Ei. destruct (strip_prefix (lit "!") s) as [r|] eqn:Er; injection Ei as <- <- <-; [|done].
    apply strip_prefix_Some in Er. done. }
  eapply has_post_bind; [apply reset_images_total|]. intros [a t] Ht. cbn in Ht. apply has_post_ret.
  set (c3 := with_labels _ _). set (c4 := bind_mentions_from_snapshot c3 bindings). set (c5 := with_area c4 _).
  assert (same_content (clear_mentions c3) c4) as H4 by apply bind_mentions_content.
  assert (same_content c4 c5) as H5 by (apply area_content; [done|by apply set_cursor_formed]).
  pose proof (same_content_trans _ _ _ (same_content_trans _ _ _ H4 H5) (sync_content debug c5)) as H.
  split_and!; [|by rewrite (sc_pastes _ _ H)|by rewrite (sc_history _ _ H)|by rewrite (sc_sent _ _ H)].
  rewrite (same_current_text _ _ H). unfold current_text. change (bash (clear_mentions c3)) with (bash c2). change (text (area (clear_mentions c3))) with (text t).
  by rewrite Ht; unfold set_text_with_elements; rewrite set_text_inner_text.
Qed.

(** ** Properties *)
(** Submission puts pastes back where they stand.  For a draft of plain texts and elements, the
    expansion answers with the text and the elements of the reference: from left to right each
    element whose label is left among the pending pastes becomes the first body with that label,
    every other element is kept, with the range that it has in the new text. *)
Theorem expansion_fills_the_draft (l : list segment) (pending : list (rstring * rstring)) :
  expand_pending_pastes (draft_text l) (draft_elements 0 l) pending =
    Some (draft_text (fill l pending), draft_elements 0 (fill l pending)).
Proof. apply expand_draft. Qed.
Lemma char_count_trim s : char_count (trim s) <= char_count s.
Proof.
  unfold char_count, trim, trim_end, trim_start. destruct (trim_start_matches_suffix is_whitespace s) as [k Hk].
  destruct (trim_end_matches_prefix is_whitespace (trim_start_matches is_whitespace s)) as [k' Hk'].
  rewrite Hk at 2. rewrite Hk' at 2. rewrite !length_app. lia.
Qed.
End refused.
Section properties.
Context {U : Unicode} {P : PastedPaths} (debug : bool).
Definition taken_or_given_back (c : ChatComposer) (expanded : rstring) (r : ChatComposer * option (rstring * list UserTextElement)) : Prop :=
  match r.2 with
  | Some (s, es) =>
      s = trim expanded ∧ char_count s <= MAX_USER_INPUT_TEXT_CHARS ∧ Forall (λ e, byte_start e < byte_end e ∧ byte_end e <= blen s) es ∧
      text (area r.1) = [] ∧ pastes r.1 = [] ∧ sent r.1 = sent c
  | None =>
      local_history r.1 = local_history c ∧ pastes r.1 = pastes c ∧
      (trim expanded = [] ∧ text (area r.1) = [] ∧ sent r.1 = sent c ∨
       current_text r.1 = current_text c ∧ ∃ notice, sent r.1 = sent c ++ [notice])
  end.
(** A submission is prepared as a whole or given back as a whole.  From any well-formed draft,
    preparation does not panic.  When it answers, the message is the draft with its pastes
    expanded and its ends trimmed, within the limit, its elements lie in it, and the draft is
    empty.  When it refuses an unknown command or a text over the limit, one notice is sent and
    the text and the pastes of the draft are as before; a blank draft is only emptied.  A refusal
    is never recorded in the history. *)
Theorem submissions_are_taken_or_given_back (c : ChatComposer) (record_history : bool) (validation : SlashValidation) :
  well_formed (area c) →
  has_post (prepare_submission_text_with_options debug c record_history validation) (λ r,
    ∃ expanded, current_text_with_pending c = Some expanded ∧ taken_or_given_back c expanded r).
Proof using Type.
  intros Hf. unfold prepare_submission_text_with_options. cbv zeta.
  eapply has_post_bind; [change (pastes (with_bash _ _)) with (pastes c); by apply expand_current|]. intros [expanded es] He. cbn [fst] in He.
  set (c1 := with_bash _ _).
  assert (∀ message, has_post (c ← give_back debug (send c1 message) (current_text c) (current_text_elements c) (local_image_paths (attachments c))
    (snapshot_mention_bindings c) (pastes c); Some (c, None : option (rstring * list UserTextElement)))
    (λ r, r.2 = None ∧ local_history r.1 = local_history c ∧ pastes r.1 = pastes c ∧ current_text r.1 = current_text c ∧ sent r.1 = sent c ++ [message])) as Hback.
  { intros message. eapply (has_post_bind _ _ (λ c', current_text c' = current_text c ∧ pastes c' = pastes c ∧
      local_history c' = local_history c ∧ sent c' = sent c ++ [message])).
    - unfold give_back. eapply has_post_bind; [apply set_content_total|]. intros c' (Et & _ & Eh & Es). by apply has_post_ret.
    - intros c' (? & ? & ? & ?). by apply has_post_ret. }
  assert (∀ message, has_post (c ← give_back debug (send c1 message) (current_text c) (current_text_elements c) (local_image_paths (attachments c))
    (snapshot_mention_bindings c) (pastes c); Some (c, None : option (rstring * list UserTextElement)))
    (λ r, ∃ expanded, current_text_with_pending c = Some expanded ∧ taken_or_given_back c expanded r)) as Hrefused.
  { intros message. eapply has_post_weaken; [apply Hback|]. intros [c' r] (Er & Eh & Ep & Et & Es). cbn [fst snd] in *. subst r.
    exists expanded. split; [done|]. unfold taken_or_given_back. cbn [fst snd]. split; [done|]. split; [done|]. right. split; [done|by eexists]. }
  destruct (match validation with Immediate => _ | Deferred => _ end) as [name|]; [apply Hrefused|].
  destruct (N.ltb_spec MAX_USER_INPUT_TEXT_CHARS (char_count (trim expanded))); [apply Hrefused|].
  set (c2 := with_attachments c1 _). destruct (bool_decide (trim expanded = []) && _) eqn:Eb; apply has_post_ret; exists expanded; (split; [done|]); unfold taken_or_given_back; cbn [fst snd].
  - apply andb_true_iff in Eb as [Eb%bool_decide_eq_true _]. split_and!; [done..|]. by left.
  - split_and!; [done|done|apply trimmed_inside|by destruct record_history..].
Qed.
Lemma fresh_drafted c km : draft c = new_draft km → attachments c = no_attachments → no_images c → drafted c [].
Proof using Type.
  intros Ed Ea Hi. destruct c as [d a cfg fl tiers run q h st sent]. cbn in Ed, Ea. subst d a. split; cbn; try done; try constructor; cbn; try done; [|constructor].
  split; cbn; [apply boundary_0|by split; constructor|done].
Qed.
(** C34: what is pasted is what is sent, if it is a plain message.  Paste any texts, large ones and small
    ones, one after the other into a fresh composer without attachments, where no text is read as the path
    of an image (which would be attached instead), and press Enter.  If the concatenation of the texts, with line ends
    normalised, starts with no slash (a command), not even after blanks, and with no [!] (a shell line), is not
    blank and has at most 2^20 characters, then: no handler panics, the labels of the large pastes are distinct, the
    message is that concatenation with its ends trimmed, with no elements, and the draft is empty. *)
Theorem pasted_text_is_submitted (c : ChatComposer) (km : RuntimeKeymap) (ss : list rstring) (popup : bool) (now : N) :
  draft c = new_draft km → attachments c = no_attachments → no_images c →
  open_head (pasted ss) → starts_with (trim (pasted ss)) (lit "/") = false → trim (pasted ss) ≠ [] →
  char_count (pasted ss) <= MAX_USER_INPUT_TEXT_CHARS →
  has_post (paste_all debug c ss) (λ c', NoDup (fst <$> pastes c') ∧
    has_post (handle_submission debug c' false popup now) (λ r,
      r.2 = Submitted (trim (pasted ss)) [] ∧ text (area r.1) = [] ∧ pastes r.1 = [])).
Proof using P U debug.
  intros Ed Ea Hi Ho Hslash Hne Hmax. pose proof (fresh_drafted c km Ed Ea Hi) as Hd.
  eapply has_post_weaken; [apply (paste_all_drafted debug c [] ss Hd Ho)|].
  - unfold MAX_USER_INPUT_TEXT_CHARS in Hmax. cbn. unfold usize_max. lia.
  - intros c' (l & Hl & Et & _). cbn in Et. split; [rewrite (dr_pastes _ _ Hl); apply Hl|]. rewrite <- Et in *. apply submit_drafted; try done.
    etransitivity; [apply char_count_trim|done].
Qed.
End properties.

(** ** A session *)
#[local] Existing Instance Demo.unicode.
#[local] Existing Instance Demo.unicode_laws.
#[local] Existing Instance Session.no_paths.
Module Pastes.
Definition big : rstring := repeat (chr "x") 1001.
(** A small paste between two large ones of the same size. *)
Definition texts : list rstring := [lit " see"; big; lit " and" ++ [cr; newline]; big; lit " "].
Definition drafted : ChatComposer := default Session.start (paste_all false Session.start texts).
(** The labels in the draft are numbered apart. *)
Example labels : fst <$> pastes drafted = [lit "[Pasted Content 1001 chars]"; lit "[Pasted Content 1001 chars] #2"] ∧
  length (elements (area drafted)) = 2%nat ∧ paste_all false Session.start texts = Some drafted.
Proof. vm_compute. done. Qed.
(** An unknown command comes back, with the notice. *)
Definition unknown : ChatComposer := default Session.start (composer_insert_str false Session.start (lit "/nope x")).
Lemma unknown_formed : well_formed (area unknown).
Proof.
  apply (reachable_formed Demo.keys), (Demo.run_all_reachable [OInsertStr (lit "/nope x")] (new Demo.keys));
    [by repeat constructor|constructor|by vm_compute].
Qed.
End Pastes.
Example pasted_text_is_submitted_witness :
  has_post (paste_all false Session.start Pastes.texts) (λ c', NoDup (fst <$> pastes c') ∧
    has_post (handle_submission false c' false false 0) (λ r,
      r.2 = Submitted (trim (pasted Pastes.texts)) [] ∧ text (area r.1) = [] ∧ pastes r.1 = [])).
Proof.
  apply (pasted_text_is_submitted false Session.start Demo.keys Pastes.texts false 0); [reflexivity|reflexivity| | | | |].
  - right. intros s path _. reflexivity.
  - vm_compute. split; discriminate.
  - vm_compute. reflexivity.
  - vm_compute. discriminate.
  - vm_compute. discriminate.
Defined.
Example submissions_are_taken_or_given_back_witness :
  has_post (prepare_submission_text_with_options false Pastes.unknown true Immediate) (λ r,
    ∃ expanded, current_text_with_pending Pastes.unknown = Some expanded ∧ taken_or_given_back Pastes.unknown expanded r).
Proof. apply (submissions_are_taken_or_given_back false Pastes.unknown true Immediate Pastes.unknown_formed). Defined.

(** ** What the code does not do *)
(** A first character that is still held back is lost when Enter follows it at once. *)
Example enter_loses_the_held_character :
  (λ c, (text (area c), held (burst c))) <$>
    (c ← happen_all false Session.start [Session.press_at 0 (chr "a")]; '(c, _) ← handle_submission false c false false 1000;
     happen_all false c [(90 * Session.ms, Tick)]) = Some ([newline], []).
Proof. vm_compute. reflexivity. Qed.
(** A refused command leaves the cursor at the start, although the first of the two restorations
    puts it at the end. *)
Example refused_commands_move_the_cursor :
  (λ r, (text (area r.1), cursor_pos (area r.1))) <$> handle_submission false Pastes.unknown false false 1000 = Some (lit "/nope x", 0) ∧
  (λ r, cursor_pos (area r.1)) <$> prepare_submission_text false Pastes.unknown true = Some 7.
Proof. vm_compute. done. Qed.
