(* ===== verification/EventMapping.v ===== *)
(** * What an item of the conversation is to the user ([core/src/event_mapping.rs])

    A message of the model's transcript read as a turn item: a message of the user (unless the agent
    injected it), a prompt of a hook, an answer, a reasoning, a search.  An identity that the code
    draws at random is the argument [uuid]; the reader of a hook prompt is a parameter. *)
From S2P Require Import Prelude RustStr Utf8 Utf8Text Truncation ResponseItem KeyInput TextArea Attachments.

(** ** Data ([protocol/src/items.rs], [protocol/src/user_input.rs]) *)
Inductive UserInput :=
| UText (text : rstring) (text_elements : list UserTextElement)
| UImage (image_url : rstring) (detail : option ImageDetail)
| ULocalImage (path : rstring) (detail : option ImageDetail)
| USkill (name path : rstring)
| UMention (name path : rstring)
| ULocalFile (path : rstring)
| UUploadedFile (file_id mime_type filename source_path : rstring).
Record HookPromptFragment := mk_fragment { fragment_text : rstring; hook_run_id : rstring }.
(** The citation of an agent message, which is filled in elsewhere, is left out. *)
Inductive TurnItem :=
| TUserMessage (id : rstring) (content : list UserInput)
| THookPrompt (id : rstring) (fragments : list HookPromptFragment)
| TAgentMessage (id : rstring) (content : list rstring) (phase : option MessagePhase)
| TReasoning (id : rstring) (summary_text raw_content : list rstring)
| TWebSearch (id query : rstring) (action : WebSearchAction)
| TImageGeneration (id status : rstring) (revised_prompt : option rstring) (result : rstring) (saved_path : option rstring).
(** [UserMessageItem::message] *)
Definition message (content : list UserInput) : rstring :=
  concat ((λ c, match c with UText text _ => text | _ => [] end) <$> content).

(** ** Tags around images ([protocol/src/models.rs]) *)
Definition IMAGE_OPEN_TAG : rstring := lit "<image>".
Definition IMAGE_CLOSE_TAG : rstring := lit "</image>".
Definition LOCAL_IMAGE_OPEN_TAG_PREFIX : rstring := lit "<image name=".
Definition is_local_image_open_tag_text (text : rstring) : bool :=
  match strip_prefix LOCAL_IMAGE_OPEN_TAG_PREFIX text with Some rest => ends_with rest (lit ">") | None => false end.
Definition is_image_open_tag_text (text : rstring) : bool := bool_decide (text = IMAGE_OPEN_TAG).
Definition is_image_close_tag_text (text : rstring) : bool := bool_decide (text = IMAGE_CLOSE_TAG).
Definition is_local_image_close_tag_text (text : rstring) : bool := is_image_close_tag_text text.

(** ** Details of a search ([core/src/web_search.rs]) *)
Definition search_action_detail (query : option rstring) (queries : option (list rstring)) : rstring :=
  match query with
  | Some (c :: q) => c :: q
  | _ =>
      let first := match queries with Some (q :: _) => q | _ => [] end in
      if match queries with Some (_ :: _ :: _) => negb (bool_decide (first = [])) | _ => false end then first ++ lit " ..." else first
  end.
Definition web_search_action_detail (action : WebSearchAction) : rstring :=
  match action with
  | WSearch query queries => search_action_detail query queries
  | WOpenPage url => default [] url
  | WFindInPage (Some url) (Some pattern) => lit "'" ++ pattern ++ lit "' in " ++ url
  | WFindInPage None (Some pattern) => lit "'" ++ pattern ++ lit "'"
  | WFindInPage (Some url) None => url
  | WFindInPage None None | WOther => []
  end.

(** ** Mapping *)
Section mapping.
Context (from_xml : rstring → option (rstring * rstring)).
Definition parse_hook_prompt_fragment (text : rstring) : option HookPromptFragment :=
  '(text, hook_run_id) ← from_xml (trim text);
  if bool_decide (trim hook_run_id = []) then None else Some (mk_fragment text hook_run_id).
Fixpoint visible_fragments (content : list ContentItem) : option (list HookPromptFragment) :=
  match content with
  | [] => Some []
  | InputText text :: content =>
      match parse_hook_prompt_fragment text with
      | Some fragment => cons fragment <$> visible_fragments content
      | None => if is_standard_contextual_user_text text then visible_fragments content else None
      end
  | _ => None
  end.
Definition parse_visible_hook_prompt_message (uuid : rstring) (id : option rstring) (content : list ContentItem) : option TurnItem :=
  fragments ← visible_fragments content;
  if bool_decide (length fragments = 0) then None else Some (THookPrompt (default uuid id) fragments).
Definition is_input_image (c : option ContentItem) : bool := match c with Some (InputImage _ _) => true | _ => false end.
Definition user_input (all : list ContentItem) (idx : nat) (c : ContentItem) : list UserInput :=
  match c with
  | InputText text =>
      if ((is_local_image_open_tag_text text || is_image_open_tag_text text) && is_input_image (all !! S idx))
         || ((0 <? idx) && (is_local_image_close_tag_text text || is_image_close_tag_text text) && is_input_image (all !! (idx - 1)))
      then [] else [UText text []]
  | InputImage image_url detail => [UImage image_url detail]
  | _ => []
  end.
Definition parse_user_message (uuid : rstring) (content : list ContentItem) : option TurnItem :=
  if is_contextual_user_message_content from_xml content then None
  else Some (TUserMessage uuid (concat (imap (user_input content) content))).
Definition parse_agent_message (uuid : rstring) (id : option rstring) (content : list ContentItem) (phase : option MessagePhase) : TurnItem :=
  TAgentMessage (default uuid id) (omap (λ c, match c with InputText text | OutText text => Some text | _ => None end) content) phase.
Definition parse_turn_item (uuid : rstring) (item : ResponseItem) : option TurnItem :=
  match item with
  | Message id role content phase =>
      if bool_decide (role = lit "user") then
        match parse_visible_hook_prompt_message uuid id content with Some t => Some t | None => parse_user_message uuid content end
      else if bool_decide (role = lit "assistant") then Some (parse_agent_message uuid id content phase) else None
  | Reasoning id summary content _ =>
      Some (TReasoning id ((λ s, match s with SummaryText text => text end) <$> summary)
              ((λ c, match c with ReasoningText text | RText text => text end) <$> default [] content))
  | WebSearchCall id _ (Some action) => Some (TWebSearch (default [] id) (web_search_action_detail action) action)
  | WebSearchCall id _ None => Some (TWebSearch (default [] id) [] WOther)
  | ImageGenerationCall id status revised_prompt result => Some (TImageGeneration id status revised_prompt result None)
  | _ => None
  end.
(** [parse_turn_item(item)] is a [TurnItem::UserMessage], with this text. *)
Definition user_text (item : ResponseItem) : option rstring :=
  match parse_turn_item [] item with Some (TUserMessage _ content) => Some (message content) | _ => None end.

(** ** Lemmas *)
Lemma visible_fragments_contextual content fragments : visible_fragments content = Some fragments → fragments ≠ [] →
  is_contextual_user_message_content from_xml content = true.
Proof using Type.
  revert fragments. unfold is_contextual_user_message_content.
  induction content as [|[text| | | |] content IH]; intros fragments; cbn; [by intros [= <-]| |done..].
  unfold parse_hook_prompt_fragment, is_hook_prompt_fragment. destruct (from_xml (trim text)) as [[t run]|]; cbn; [case_bool_decide|]; cbn; [| |].
  1, 3: destruct (is_standard_contextual_user_text text); [done|done].
  done.
Qed.
(** The real messages of the user are the items of its role without injected context. *)
Lemma user_text_spec item : is_Some (user_text item) ↔
  ∃ id content phase, item = Message id (lit "user") content phase ∧ is_contextual_user_message_content from_xml content = false.
Proof using Type.
  unfold user_text. destruct item as [id role content phase|??? |? ? ? ?|? ? ? ? ?|? ? ? ? ?|? ?|? ? ? ? ?|? ? ?|? ? ? ?|id st [?|]|? ? ? ?|?| |?|]; cbn;
    try (by split; [by intros [? ?]|by intros (? & ? & ? & ? & ?)]).
  destruct (decide (role = lit "user")) as [->|Hr].
  2: { rewrite bool_decide_eq_false_2 by done. split; [|by intros (? & ? & ? & [= -> -> -> ->] & ?)]. case_bool_decide; by intros [? ?]. }
  rewrite bool_decide_eq_true_2 by done. unfold parse_visible_hook_prompt_message, parse_user_message.
  destruct (is_contextual_user_message_content from_xml content) eqn:Ec.
  - split; [|intros (? & ? & ? & [= <- <- <-] & ?); congruence]. destruct (visible_fragments content) as [fragments|]; cbn; [|by intros [? ?]].
    case_bool_decide; by intros [? ?].
  - split; [intros _; by eexists _, _, _|]. intros _. destruct (visible_fragments content) as [fragments|] eqn:Ef; cbn; [|by eexists].
    case_bool_decide as Hl; [by eexists|]. exfalso. apply visible_fragments_contextual in Ef; [congruence|]. by intros ->.
Qed.
End mapping.
