(* ===== verification/CompactHistory.v ===== *)
(** * Compaction of a conversation ([core/src/compact.rs])

    A conversation that outgrows the model's window is replaced with the messages of its user, the
    newest ones in full, and a summary that the model writes.  The task is a program of [Effects]:
    what it asks of the session and of the model are events. *)
From S2P Require Import Prelude RustStr Utf8 Utf8Text StreamText Citation ProposedPlan Truncation ResponseItem ContextNormalize ContextManager Effects KeyInput TextArea Attachments EventMapping.

(** ** The last answer ([core/src/stream_events_utils.rs], [core/src/session/turn.rs]) *)
Definition strip_hidden_assistant_markup (text : rstring) (plan_mode : bool) : option rstring :=
  '(without_citations, _) ← strip_citations text;
  Some (if plan_mode then strip_proposed_plan_blocks without_citations else without_citations).
Definition raw_assistant_output_text_from_item (item : ResponseItem) : option rstring :=
  match item with
  | Message _ role content _ =>
      if bool_decide (role = lit "assistant") then Some (concat (omap (λ c, match c with OutText text => Some text | _ => None end) content))
      else None
  | _ => None
  end.
(** The outer [None] is a panic. *)
Definition last_assistant_message_from_item (item : ResponseItem) (plan_mode : bool) : option (option rstring) :=
  match raw_assistant_output_text_from_item item with
  | Some combined =>
      if bool_decide (combined = []) then Some None
      else stripped ← strip_hidden_assistant_markup combined plan_mode;
           Some (if bool_decide (trim stripped = []) then None else Some stripped)
  | None => Some None
  end.
Fixpoint last_assistant_message (newest_first : list ResponseItem) : option (option rstring) :=
  match newest_first with
  | [] => Some None
  | item :: rest =>
      message ← last_assistant_message_from_item item false;
      match message with Some message => Some (Some message) | None => last_assistant_message rest end
  end.
Definition get_last_assistant_message_from_turn (responses : list ResponseItem) : option (option rstring) :=
  last_assistant_message (rev responses).

(** ** The compacted history *)
Definition SUMMARY_PREFIX : rstring := lit "Another language model started to solve this problem and produced a summary of its thinking process. You also have access to the state of the tools that were used by that language model. Use this to build on the work that has already been done and avoid duplicating work. Here is the summary produced by the other language model, use the information in this summary to assist with your own analysis:".
Definition COMPACT_USER_MESSAGE_MAX_TOKENS : N := 20000.
Definition content_items_to_text (content : list ContentItem) : option rstring :=
  let pieces := omap (λ c, match c with
                           | InputText text | OutText text => if bool_decide (text = []) then None else Some text
                           | _ => None
                           end) content in
  match pieces with [] => None | _ => Some (join_with [newline] pieces) end.
Definition is_summary_message (text : rstring) : bool := starts_with text (SUMMARY_PREFIX ++ [newline]).
(** The walk over the messages, newest first. *)
Fixpoint select_messages {E} (newest_first : list rstring) (remaining : N) : outcome E (list rstring) :=
  match newest_first with
  | [] => Ok []
  | text :: rest =>
      if (remaining =? 0)%N then Ok []
      else
        let tokens := approx_token_count text in
        if (tokens <=? remaining)%N then let? selected := select_messages rest (sat_sub remaining tokens) in Ok (text :: selected)
        else let? truncated := truncate_text text (Tokens remaining) in Ok [truncated]
  end.
Definition user_message (text : rstring) : ResponseItem := Message None (lit "user") [InputText text] None.
Definition build_compacted_history_with_limit {E} (history : list ResponseItem) (user_messages : list rstring) (summary_text : rstring)
    (max_tokens : N) : outcome E (list ResponseItem) :=
  let? selected := if (0 <? max_tokens)%N then select_messages (rev user_messages) max_tokens else Ok [] in
  let summary_text := if bool_decide (summary_text = []) then lit "(no summary available)" else summary_text in
  Ok (history ++ (user_message <$> rev selected) ++ [user_message summary_text]).
Definition build_compacted_history {E} (initial_context : list ResponseItem) (user_messages : list rstring) (summary_text : rstring) :
    outcome E (list ResponseItem) :=
  build_compacted_history_with_limit initial_context user_messages summary_text COMPACT_USER_MESSAGE_MAX_TOKENS.
Section compaction.
Context (from_xml : rstring → option (rstring * rstring)).
Definition collect_user_messages (items : list ResponseItem) : list rstring :=
  omap (λ item, text ← user_text from_xml item; if is_summary_message text then None else Some text) items.
(** The indices of the last message of the user or summary, and of the last message alone; newest first. *)
Fixpoint insertion_scan (newest_first : list (nat * ResponseItem)) (last_user_or_summary : option nat) : option nat * option nat :=
  match newest_first with
  | [] => (last_user_or_summary, None)
  | (i, item) :: rest =>
      match user_text from_xml item with
      | None => insertion_scan rest last_user_or_summary
      | Some text =>
          let last_user_or_summary := Some (default i last_user_or_summary) in
          if is_summary_message text then insertion_scan rest last_user_or_summary else (last_user_or_summary, Some i)
      end
  end.
Definition is_compaction (item : ResponseItem) : bool := match item with Compaction _ | ContextCompaction _ => true | _ => false end.
Definition insert_initial_context_before_last_real_user_or_summary (compacted_history initial_context : list ResponseItem) : list ResponseItem :=
  let '(last_user_or_summary_index, last_real_user_index) := insertion_scan (rev (imap pair compacted_history)) None in
  let last_compaction_index := rposition is_compaction compacted_history in
  match (match last_real_user_index, last_user_or_summary_index with Some i, _ | None, Some i => Some i | None, None => last_compaction_index end) with
  | Some insertion_index => take insertion_index compacted_history ++ initial_context ++ drop insertion_index compacted_history
  | None => compacted_history ++ initial_context
  end.

(** ** The task *)
Context {T Failure : Type}.
Inductive CodexErr := EInterrupted | EContextWindowExceeded | ETurnAborted | EOther (e : Failure).
Inductive CompactionStatus := CsCompleted | CsInterrupted | CsFailed.
Inductive InitialContextInjection := BeforeLastUserMessage | DoNotInject.
Inductive PreCompactHookOutcome := PreContinue | PreStopped (reason : option rstring).
Inductive PostCompactHookOutcome := PostContinue | PostStopped.
(** [StreamTurn] is [drain_to_completed]: the items that the model completes enter the history of the session. *)
Inductive request : Type → Type :=
| BeginAttempt : request unit
| RunPreCompactHooks : request PreCompactHookOutcome
| RunPostCompactHooks : request PostCompactHookOutcome
| Track (status : CompactionStatus) (error : option (CodexErr + rstring)) : request unit
| EmitItemStarted : request unit
| EmitItemCompleted : request unit
| CloneHistory : request (ContextManager T)
| StreamTurn (input : list ResponseItem) : request (outcome CodexErr unit)
| SetTotalTokensFull : request unit
| SendError (e : CodexErr) : request unit
| NotifyStreamError (retries max_retries : N) (e : CodexErr) : request unit
| SleepBackoff (retries : N) : request unit
| BuildInitialContext : request (list ResponseItem)
| ReplaceCompactedHistory (items : list ResponseItem) (reference : option T) (summary : rstring) (replacement : list ResponseItem) : request unit
| RecomputeTokenUsage : request unit
| SendWarning : request unit.
Abbreviation run A := (prog request (outcome CodexErr A)).
Definition lift {A} (r : outcome CodexErr A) : run A := Done r.

Context (debug : bool) (modalities : list InputModality) (policy : TruncationPolicy) (max_retries : N) (turn_context_item : T).
(** The loop; [Panic] also stands for fuel that ran out. *)
Fixpoint attempts (fuel : nat) (history : ContextManager T) (retries : N) : run unit :=
  match fuel with
  | O => Done Panic
  | S fuel =>
      let*? turn_input := lift (for_prompt debug history modalities) in
      let* attempt_result := ask (StreamTurn turn_input) in
      match attempt_result with
      | Ok tt => Done (Ok tt)
      | Err EInterrupted => Done (Err EInterrupted)
      | Err EContextWindowExceeded =>
          if 1 <? length turn_input then attempts fuel (remove_first_item history) 0%N
          else
            let* _ := ask SetTotalTokensFull in
            let* _ := ask (SendError EContextWindowExceeded) in
            Done (Err EContextWindowExceeded)
      | Err e =>
          if (retries <? max_retries)%N then
            let retries := (retries + 1)%N in
            let* _ := ask (NotifyStreamError retries max_retries e) in
            let* _ := ask (SleepBackoff retries) in
            attempts fuel history retries
          else let* _ := ask (SendError e) in Done (Err e)
      | Panic => Done Panic
      end
  end.
(** Each retry and each item that is dropped takes one attempt. *)
Definition attempts_fuel (history : ContextManager T) : nat := S (length (items history)) * S (N.to_nat max_retries).
(** [input]: the prompt, as the content of a message of the user. *)
Definition run_compact_task_inner_impl (input : list ContentItem) (injection : InitialContextInjection) : run rstring :=
  let* _ := ask EmitItemStarted in
  let* history := ask CloneHistory in
  let*? history := lift (record_items history [Message None (lit "user") input None] policy) in
  let*? _ := attempts (attempts_fuel history) history 0%N in
  let* history_snapshot := ask CloneHistory in
  let history_items := items history_snapshot in
  let*? summary_suffix := lift (match get_last_assistant_message_from_turn history_items with Some m => Ok (default [] m) | None => Panic end) in
  let summary_text := SUMMARY_PREFIX ++ [newline] ++ summary_suffix in
  let user_messages := collect_user_messages history_items in
  let*? new_history := lift (build_compacted_history [] user_messages summary_text) in
  let* new_history :=
    match injection with
    | BeforeLastUserMessage =>
        let* initial_context := ask BuildInitialContext in
        Done (insert_initial_context_before_last_real_user_or_summary new_history initial_context)
    | DoNotInject => Done new_history
    end in
  let reference := match injection with DoNotInject => None | BeforeLastUserMessage => Some turn_context_item end in
  let* _ := ask (ReplaceCompactedHistory new_history reference summary_text new_history) in
  let* _ := ask RecomputeTokenUsage in
  let* _ := ask EmitItemCompleted in
  let* _ := ask SendWarning in
  Done (Ok summary_suffix).
Definition compaction_status_from_result {A} (r : outcome CodexErr A) : CompactionStatus :=
  match r with
  | Ok _ => CsCompleted
  | Err EInterrupted | Err ETurnAborted => CsInterrupted
  | Err _ | Panic => CsFailed
  end.
Definition run_compact_task_inner (input : list ContentItem) (injection : InitialContextInjection) : run unit :=
  let* _ := ask BeginAttempt in
  let* pre := ask RunPreCompactHooks in
  match pre with
  | PreStopped reason =>
      let* _ := ask (Track CsInterrupted (Some (inr (default (lit "PreCompact hook stopped execution") reason)))) in
      Done (Err ETurnAborted)
  | PreContinue =>
      let* result := run_compact_task_inner_impl input injection in
      let track := ask (Track (compaction_status_from_result result) (match result with Err e => Some (inl e) | _ => None end)) in
      match result with
      | Panic => Done Panic
      | Ok _ =>
          let* post := ask RunPostCompactHooks in
          let* _ := track in
          Done (match post with PostStopped => Err ETurnAborted | PostContinue => Ok tt end)
      | Err e => let* _ := track in Done (Err e)
      end
  end.

(** ** What the task may do *)
(** What the trace has shown: what the hooks before and after said, the attempts, whether the last one succeeded, the
    replacement, the bound that the first snapshot gives, and whether an answer was out of range (a panic below, or a
    text longer than the address space). *)
Record progress := mk_progress {
  let_go : bool; stopped_after : bool; streams : nat; completed : bool; replaced : bool; bound : option nat; unfit : bool }.
Definition start : progress := mk_progress false false 0 false false None false.
Definition fits (text : rstring) : Prop := (blen text ≤ usize_max)%N.
#[local] Instance fits_dec text : Decision (fits text). Proof. unfold fits. apply _. Defined.
Definition observe (p : progress) (o : obs request) : progress :=
  match o with
  | Obs e x =>
      match e in request X return X → progress with
      | CloneHistory => λ h,
          mk_progress (let_go p) (stopped_after p) (streams p) (completed p) (replaced p)
            (match bound p with Some b => Some b | None => Some ((2 + length (items h)) * S (N.to_nat max_retries)) end)
            (unfit p || negb (bool_decide (Forall fits (collect_user_messages (items h)))))
      | RunPreCompactHooks => λ r, mk_progress (match r with PreContinue => true | _ => false end) (stopped_after p) (streams p) (completed p) (replaced p) (bound p) (unfit p)
      | RunPostCompactHooks => λ r, mk_progress (let_go p) (match r with PostStopped => true | _ => false end) (streams p) (completed p) (replaced p) (bound p) (unfit p)
      | StreamTurn _ => λ r, mk_progress (let_go p) (stopped_after p) (S (streams p)) (match r with Ok _ => true | _ => false end) (replaced p) (bound p)
                               (unfit p || match r with Panic => true | _ => false end)
      | ReplaceCompactedHistory _ _ _ _ => λ _, mk_progress (let_go p) (stopped_after p) (streams p) (completed p) true (bound p) (unfit p)
      | _ => λ _, p
      end x
  end.
(** The model is asked a bounded number of times, if the hooks let the task go on and until it has answered; the history
    is replaced once, after that, with what is stored as the replacement, and then the hooks are asked again. *)
Definition allowed (p : progress) (X : Type) (e : request X) : Prop :=
  match e with
  | StreamTurn _ => let_go p = true ∧ completed p = false ∧ replaced p = false ∧ ∃ b, bound p = Some b ∧ streams p < b
  | ReplaceCompactedHistory items _ _ replacement => completed p = true ∧ replaced p = false ∧ replacement = items
  | RunPreCompactHooks => streams p = 0 ∧ replaced p = false
  | RunPostCompactHooks => replaced p = true
  | _ => True
  end.
(** How the task ends: with success, the history was replaced; with an error, it was not, unless the hooks
    stopped the task after the replacement. *)
Definition ended (p : progress) (r : outcome CodexErr unit) : Prop :=
  match r with
  | Ok _ => replaced p = true ∧ stopped_after p = false
  | Err e => (replaced p = false ∧ stopped_after p = false ∧ (let_go p = false → streams p = 0)) ∨ (replaced p = true ∧ stopped_after p = true ∧ e = ETurnAborted)
  | Panic => unfit p = true
  end.
End compaction.

(** ** Lemmas: selecting messages *)
Definition tokens_of (texts : list rstring) : N := foldr N.add 0%N (approx_token_count <$> texts).
Lemma select_messages_ok {E} texts : Forall fits texts → ∀ remaining, ∃ kept rest cut,
  texts = kept ++ rest ∧ (tokens_of kept ≤ remaining)%N ∧ select_messages (E:=E) texts remaining = Ok (kept ++ cut) ∧
  match rest with
  | [] => cut = []
  | text :: _ => cut = [] ∧ (tokens_of kept = remaining)%N ∨
      ∃ t, cut = [t] ∧ (remaining < tokens_of kept + approx_token_count text)%N ∧
        truncate_text (E:=E) text (Tokens (remaining - tokens_of kept)) = Ok t
  end.
Proof.
  induction 1 as [|text texts Ht _ IH]; intros remaining; cbn [select_messages].
  { exists [], [], []. split_and!; [done|cbn; lia|done|done]. }
  destruct (N.eqb_spec remaining 0) as [->|Hr].
  { exists [], (text :: texts), []. split_and!; [done|cbn; lia|done|by left]. }
  destruct (N.leb_spec (approx_token_count text) remaining) as [Hle|Hgt].
  - destruct (IH (sat_sub remaining (approx_token_count text))) as (kept & rest & cut & -> & Hk & -> & Hrest).
    unfold sat_sub in *. exists (text :: kept), rest, cut. change (tokens_of (text :: kept)) with (approx_token_count text + tokens_of kept)%N.
    split_and!; [done|lia|done|]. destruct rest as [|text' rest]; [done|]. destruct Hrest as [[-> Hk']|(t & -> & Hlt & Et)]; [left; split; [done|lia]|].
    right. exists t. split_and!; [done|lia|]. rewrite <- Et. do 2 f_equal. lia.
  - destruct (truncate_text_ok (E:=E) text (Tokens remaining) Ht) as (t & Et & _). rewrite Et. cbn [mbind outcome_bind].
    exists [], (text :: texts), [t]. split_and!; [done|cbn; lia|done|]. right. exists t. cbn. rewrite N.sub_0_r. split_and!; [done|lia|done].
Qed.
(** ** Lemmas: the loop *)
Lemma remove_first_length {T} (m : ContextManager T) : items m ≠ [] → length (items (remove_first_item m)) < length (items m).
Proof.
  unfold remove_first_item. destruct (items m) as [|i l] eqn:E; [done|]. intros _. cbn. pose proof (remove_corresponding_length l i). lia.
Qed.
Lemma normalized_nil mods : normalized mods [] = [].
Proof. unfold normalized, strip_images_when_unsupported. cbn. by case_bool_decide. Qed.
Lemma strip_citations_total text : is_Some (strip_citations text).
Proof.
  unfold strip_citations. rewrite citation_new_ok. unfold citation_push_str, citation_parser0. cbn [inner].
  destruct (push_ok (inner citation_parser0) text citation_parser0_wf) as (p' & o' & E & _). unfold citation_parser0 in E. cbn [inner] in E.
  rewrite E. cbn. destruct (citation_finish _). by eexists.
Qed.
Lemma last_answer_total responses : is_Some (get_last_assistant_message_from_turn responses).
Proof.
  unfold get_last_assistant_message_from_turn. induction (rev responses) as [|item rest IH]; cbn; [by eexists|].
  unfold last_assistant_message_from_item. destruct (raw_assistant_output_text_from_item item) as [combined|]; cbn; [|done].
  case_bool_decide; cbn; [done|]. unfold strip_hidden_assistant_markup. destruct (strip_citations_total combined) as [[without citations] ->]. cbn.
  case_bool_decide; cbn; [done|by eexists].
Qed.
Section task.
Context (from_xml : rstring → option (rstring * rstring)) {T Failure : Type} (modalities : list InputModality) (policy : TruncationPolicy)
  (max_retries : N) (turn_context_item : T).
Abbreviation request := (request (T:=T) (Failure:=Failure)).
Abbreviation observe := (observe (T:=T) (Failure:=Failure) from_xml max_retries).
Abbreviation allowed := (allowed (T:=T) (Failure:=Failure)).
#[local] Abbreviation keeps := (monitored observe allowed).
Definition measure (history : ContextManager T) (retries : N) : nat :=
  length (items history) * S (N.to_nat max_retries) + (N.to_nat max_retries - N.to_nat retries).
Lemma attempts_keep fuel : ∀ p history retries b,
  let_go p = true → stopped_after p = false → completed p = false → replaced p = false → bound p = Some b →
  measure history retries < fuel → streams p + measure history retries < b →
  keeps (attempts (T:=T) (Failure:=Failure) false modalities max_retries fuel history retries) p (λ p' r,
    let_go p' = true ∧ stopped_after p' = false ∧ replaced p' = false ∧ bound p' = Some b ∧ match r with Ok _ => completed p' = true | Err _ => True | Panic => unfit p' = true end).
Proof using Type.
  induction fuel as [|fuel IH]; intros p history retries b Hgo Hstop Hc Hr Hb Hf Hs; [lia|]. cbn [attempts]. unfold for_prompt, lift.
  rewrite normalize_history_eq. cbn [andb negb]. unfold try_bind. cbn [prog_bind ask monitored].
  split. { split_and!; [done..|]. exists b. split; [done|]. lia. }
  assert (∀ e : CodexErr (Failure:=Failure), keeps
    (if (retries <? max_retries)%N then
       let* _ := ask (NotifyStreamError (retries + 1) max_retries e) in let* _ := ask (SleepBackoff (retries + 1)) in
       attempts false modalities max_retries fuel history (retries + 1)
     else let* _ := ask (SendError e) in Done (Err e)) (mk_progress (let_go p) (stopped_after p) (S (streams p)) false (replaced p) (bound p) (unfit p || false))
    (λ p' r, let_go p' = true ∧ stopped_after p' = false ∧ replaced p' = false ∧ bound p' = Some b ∧ match r with Ok _ => completed p' = true | Err _ => True | Panic => unfit p' = true end)) as Hretry.
  { intros e. destruct (N.ltb_spec retries max_retries); cbn; [|done]. split; [done|]. intros _. split; [done|]. intros _.
    apply IH; cbn; [done..|unfold measure in *; lia|unfold measure in *; lia]. }
  intros [[]|[| | |e]|]; cbn [Effects.seen].
  - by cbn.
  - by cbn.
  - destruct (Nat.ltb_spec 1 (length (normalized modalities (items history)))) as [Hl|Hl]; cbn; [|done].
    assert (items history ≠ []) as Hne. { intros E. rewrite E, normalized_nil in Hl. cbn in Hl. lia. }
    pose proof (remove_first_length history Hne). unfold measure in *.
    apply IH; cbn; [done..| |]; unfold measure; nia.
  - apply Hretry.
  - apply Hretry.
  - cbn. by rewrite orb_true_r.
Qed.
Lemma build_compacted_ok {E} texts summary : Forall fits texts → ∃ history, build_compacted_history (E:=E) [] texts summary = Ok history.
Proof using Type.
  intros Hf. unfold build_compacted_history, build_compacted_history_with_limit.
  destruct (select_messages_ok (E:=E) (rev texts)) with (remaining := COMPACT_USER_MESSAGE_MAX_TOKENS) as (kept & rest & cut & _ & _ & -> & _);
    [by apply Forall_rev|]. by eexists.
Qed.

(** The messages that a real user wrote, and those that look like them. *)
Definition user_like (item : ResponseItem) : bool := match user_text from_xml item with Some _ => true | None => false end.
Definition really_user (item : ResponseItem) : bool := match user_text from_xml item with Some text => negb (is_summary_message text) | None => false end.
Lemma position_le {A} (q : A → bool) l k : position q l = Some k → k < length l.
Proof using Type.
  revert k. induction l as [|x l IH]; intros k; cbn; [done|]. destruct (q x); [intros [= <-]; lia|].
  destruct (position q l) as [j|]; [|done]. intros [= <-]. specialize (IH j eq_refl). lia.
Qed.
Lemma rposition_snoc {A} (q : A → bool) l x : rposition q (l ++ [x]) = if q x then Some (length l) else rposition q l.
Proof using Type.
  unfold rposition. rewrite rev_unit. cbn. destruct (q x); cbn; [f_equal; rewrite length_app; cbn; lia|].
  destruct (position q (rev l)) as [k|] eqn:E; [|done]. cbn. f_equal. apply position_le in E. rewrite length_rev in E. rewrite length_app. cbn. lia.
Qed.
Lemma insertion_scan_spec h : ∀ found,
  insertion_scan from_xml (rev (imap pair h)) found = (match found with Some i => Some i | None => rposition user_like h end, rposition really_user h).
Proof using Type.
  induction h as [|x h IH] using rev_ind; intros found; [by destruct found|]. rewrite imap_app, rev_app_distr, !rposition_snoc. cbn.
  rewrite Nat.add_0_r. unfold user_like, really_user. destruct (user_text from_xml x) as [text|] eqn:E; [|by rewrite IH].
  destruct (is_summary_message text); cbn; [rewrite IH; by destruct found|by destruct found].
Qed.
Lemma tokens_rev texts : tokens_of (rev texts) = tokens_of texts.
Proof using Type.
  assert (∀ a b, tokens_of (a ++ b) = tokens_of a + tokens_of b)%N as Ha.
  { intros a b. unfold tokens_of. induction a as [|x a IH]; [done|]. cbn in *. rewrite IH. lia. }
  induction texts as [|x texts IH]; [done|]. cbn [rev]. rewrite Ha, IH. unfold tokens_of. cbn. lia.
Qed.

Definition begun (p : progress) : Prop :=
  let_go p = true ∧ stopped_after p = false ∧ streams p = 0 ∧ completed p = false ∧ replaced p = false ∧ bound p = None.
Lemma impl_keeps input injection p : begun p →
  keeps (run_compact_task_inner_impl from_xml false modalities policy max_retries turn_context_item input injection) p
    (λ p' r, let_go p' = true ∧ stopped_after p' = false ∧ match r with Ok _ => replaced p' = true | Err _ => replaced p' = false | Panic => unfit p' = true end).
Proof using Type.
  destruct p as [go stop n c re bo un]. intros (Hgo & Hstop & Hs0 & Hc0 & Hr0 & Hb0). cbn in Hgo, Hstop, Hs0, Hc0, Hr0, Hb0. subst. unfold run_compact_task_inner_impl. cbn [prog_bind ask monitored].
  split; [done|]. intros []. split; [done|]. intros history. unfold lift. cbn [record_items].
  set (message := Message None (lit "user") input None). change (is_api_message message) with true. cbn [negb process_item message mbind outcome_bind].
  apply monitored_try. cbn [monitored]. apply monitored_try. eapply monitored_mono; [|eapply attempts_keep; try done].
  2, 3: unfold measure, attempts_fuel; cbn [items set_items streams start observe]; rewrite length_app; cbn; lia.
  intros p [[]|e|]; [|by intros (? & ? & ? & _ & _)|by intros (? & ? & _ & _ & ?)]. intros (Hgo & Hstop & Hr & Hb & Hc). cbn [prog_bind ask monitored].
  split; [done|]. intros snapshot. set (p1 := observe p _). apply monitored_try.
  destruct (last_answer_total (items snapshot)) as [answer ->]. cbn [monitored]. apply monitored_try.
  destruct (decide (Forall fits (collect_user_messages from_xml (items snapshot)))) as [Hf|Hf].
  - destruct (build_compacted_ok (E:=CodexErr (Failure:=Failure)) (collect_user_messages from_xml (items snapshot))
      (SUMMARY_PREFIX ++ [newline] ++ default [] answer) Hf) as [h ->]. cbn [monitored].
    destruct injection; cbn [prog_bind ask monitored]; [split; [done|]; intros context|];
      (split; [split_and!; [exact Hc|exact Hr|done]|]); intros []; (split; [done|]); intros []; (split; [done|]); intros []; (split; [done|]); intros []; done.
  - assert (unfit p1 = true) as Hu. { unfold p1. cbn. rewrite bool_decide_eq_false_2 by done. by rewrite orb_true_r. }
    destruct (build_compacted_history [] _ _) as [h|e|] eqn:Eh; cbn [monitored].
    + destruct injection; cbn [prog_bind ask monitored]; [split; [done|]; intros context|];
        (split; [split_and!; [exact Hc|exact Hr|done]|]); intros []; (split; [done|]); intros []; (split; [done|]); intros []; (split; [done|]); intros []; done.
    + done.
    + done.
Qed.

(** ** Properties *)
(** C13: a compaction happens as a whole or not at all, and ends.  Whatever the session, the hooks and the model
    answer: the model is asked only if the hooks before let the task go on, at most once for each item of the history and
    each retry (the oldest item is given up when the window is exceeded), and not again after it has
    answered; the history is replaced once, after that, with what is stored for a later resume; then the
    hooks after it are asked.  A task that runs to its end and succeeds has replaced the history; one that fails has
    replaced nothing, unless the hooks after it stopped it, when the replacement stays.  (What the model
    completed in an attempt that failed has been recorded by then and stays recorded, [drain_to_completed].)  It
    panics only if a text does not fit into memory or the stream below panics. *)
Theorem compaction_is_all_or_nothing (input : list ContentItem) (injection : InitialContextInjection)
    (tr : list (obs request)) (r : outcome CodexErr unit) :
  traces (run_compact_task_inner from_xml false modalities policy max_retries turn_context_item input injection) tr r →
  respects observe allowed start tr ∧ ended (seen observe start tr) r.
Proof using Type.
  intros Ht. eapply monitored_traces; [|exact Ht]. unfold run_compact_task_inner. cbn [prog_bind ask monitored].
  split; [done|]. intros []. split; [done|]. intros [|reason].
  - apply monitored_bind. eapply monitored_mono; [|by apply impl_keeps]. intros p [suffix|e|] (Hgo & Hstop & Hr); cbn [prog_bind ask monitored].
    + split; [exact Hr|]. intros []; (split; [done|]); intros []; cbn; auto.
    + split; [done|]. intros []. left. cbn. split_and!; [done..|congruence].
    + exact Hr.
  - cbn [prog_bind ask monitored]. split; [done|]. intros []. left. done.
Qed.
(** A compacted history ends with the summary; before it stand the newest messages of the user, in their
    order, as many as the budget of 20000 tokens allows in full, and of the next older one what is
    left of the budget.  The context of a turn that goes on is put before the last message of the
    user, or before the summary (or a compaction item) if there is none. *)
Theorem compaction_keeps_the_newest {E} (texts : list rstring) (summary : rstring) (context : list ResponseItem) :
  Forall fits texts → ∃ older kept cut history,
    build_compacted_history (E:=E) [] texts summary = Ok history ∧ texts = older ++ kept ∧
    history = (user_message <$> cut ++ kept) ++ [user_message (if bool_decide (summary = []) then lit "(no summary available)" else summary)] ∧
    (tokens_of kept ≤ COMPACT_USER_MESSAGE_MAX_TOKENS)%N ∧
    match last older with
    | None => cut = []
    | Some text => cut = [] ∧ tokens_of kept = COMPACT_USER_MESSAGE_MAX_TOKENS ∨
        ∃ t, cut = [t] ∧ (COMPACT_USER_MESSAGE_MAX_TOKENS < tokens_of kept + approx_token_count text)%N ∧
          truncate_text (E:=E) text (Tokens (COMPACT_USER_MESSAGE_MAX_TOKENS - tokens_of kept)) = Ok t
    end ∧
    insert_initial_context_before_last_real_user_or_summary from_xml history context =
      match rposition really_user history, rposition user_like history, rposition is_compaction history with
      | Some i, _, _ | None, Some i, _ | None, None, Some i => take i history ++ context ++ drop i history
      | None, None, None => history ++ context
      end.
Proof using Type.
  intros Hf. unfold build_compacted_history, build_compacted_history_with_limit.
  destruct (select_messages_ok (E:=E) (rev texts)) with (remaining := COMPACT_USER_MESSAGE_MAX_TOKENS) as (kept & rest & cut & Et & Hk & Es & Hr);
    [by apply Forall_rev|]. change (0 <? COMPACT_USER_MESSAGE_MAX_TOKENS)%N with true. cbn match. rewrite Es. cbn [mbind outcome_bind].
  exists (rev rest), (rev kept), cut. eexists. split; [done|]. rewrite tokens_rev. split_and!.
  - by rewrite <- rev_app_distr, <- Et, rev_involutive.
  - cbn [app]. rewrite rev_app_distr. do 3 f_equal. destruct rest; [by subst|]. destruct Hr as [[-> _]|(t & -> & _)]; done.
  - done.
  - destruct rest as [|text rest]; [done|]. cbn [rev]. rewrite last_snoc. exact Hr.
  - unfold insert_initial_context_before_last_real_user_or_summary. rewrite insertion_scan_spec.
    repeat case_match; simplify_eq; done.
Qed.
End task.

Module Compact.
(** The model runs out of window once, then answers; the third message of the user is longer than the budget. *)
Definition long : rstring := repeat (chr "x") (N.to_nat 100).
Definition session : ContextManager unit :=
  mk_manager [user_message (lit "first"); user_message (lit "second"); Message None (lit "assistant") [OutText (lit "done")] None] 0 None None.
Definition answers (X : Type) (past : list (obs (request (T:=unit) (Failure:=unit)))) (e : request (T:=unit) (Failure:=unit) X) : X :=
  match e in request X return X with
  | CloneHistory => session
  | StreamTurn _ => if 5 <? length past then Ok tt else Err EContextWindowExceeded
  | RunPreCompactHooks => PreContinue
  | RunPostCompactHooks => PostContinue
  | BuildInitialContext => [Message None (lit "developer") [InputText (lit "context")] None]
  | _ => tt
  end.
Definition no_xml (s : rstring) : option (rstring * rstring) := None.
Definition task := run_compact_task_inner (T:=unit) (Failure:=unit) no_xml false [] (Bytes 1000) 2 tt [InputText (lit "summarise")] BeforeLastUserMessage.
Definition outcome_of := run_with answers [] task.
Example succeeds : outcome_of.2 = Ok tt ∧
  omap (λ o, match o with Obs (ReplaceCompactedHistory h _ _ _) _ => Some h | _ => None end) outcome_of.1 =
    [[user_message (lit "first"); Message None (lit "developer") [InputText (lit "context")] None; user_message (lit "second");
      user_message (SUMMARY_PREFIX ++ newline :: lit "done")]].
Proof. vm_compute. done. Qed.
Definition answers_stop (X : Type) (past : list (obs (request (T:=unit) (Failure:=unit)))) (e : request (T:=unit) (Failure:=unit) X) : X :=
  match e in request X return X → X with RunPostCompactHooks => λ _, PostStopped | _ => λ x, x end (answers X past e).
(** The hooks after the compaction stop it: it fails, and the history was replaced. *)
Example stopped_after_the_replacement : let outcome := run_with answers_stop [] task in
  outcome.2 = Err ETurnAborted ∧ replaced (seen (observe no_xml 2) start outcome.1) = true.
Proof. vm_compute. done. Qed.
End Compact.
Example compaction_is_all_or_nothing_witness :
  respects (observe Compact.no_xml 2) allowed start Compact.outcome_of.1 ∧ ended (seen (observe Compact.no_xml 2) start Compact.outcome_of.1) Compact.outcome_of.2.
Proof. apply (compaction_is_all_or_nothing Compact.no_xml [] (Bytes 1000) 2 tt [InputText (lit "summarise")] BeforeLastUserMessage), run_with_traces. Defined.
Example compaction_keeps_the_newest_witness : ∃ older kept cut history,
  build_compacted_history (E:=()) [] [lit "a"; lit "b"] [] = Ok history ∧ [lit "a"; lit "b"] = older ++ kept ∧
  history = (user_message <$> cut ++ kept) ++ [user_message (lit "(no summary available)")].
Proof.
  destruct (compaction_keeps_the_newest Compact.no_xml (E:=()) [lit "a"; lit "b"] [] []) as (older & kept & cut & history & H1 & H2 & H3 & _).
  - repeat constructor; unfold fits; by vm_compute.
  - exists older, kept, cut, history. done.
Defined.
