(* ===== verification/RolloutReplay.v ===== *)
(** * Rebuilding a session from its rollout ([core/src/session/rollout_reconstruction.rs])

    The record of a thread, read newest first for what a resumed session needs (the newest complete
    history, the settings and the baseline of the last turn that was not rolled back), and then
    forward from there for the history itself. *)
From S2P Require Import Prelude RustStr Utf8 Utf8Text Truncation ResponseItem ContextNormalize ContextManager Effects KeyInput TextArea Attachments EventMapping CompactHistory.

(** ** The record ([protocol/src/protocol.rs]) *)
Section record.
(** [Settings]: the fields of a turn context that are carried along. *)
Context {Settings : Type}.
Record TurnContextItem := mk_turn_context_item {
  context_turn_id : option rstring; context_model : rstring; context_realtime_active : option bool; context_settings : Settings }.
Inductive EventMsg :=
| ThreadRolledBack (num_turns : N)
| TurnStarted (turn_id : rstring)
| TurnComplete (turn_id : rstring)
| TurnAborted (turn_id : option rstring)
| UserMessage (message : rstring)
| PresentDocument (document_id title content : rstring)
| OtherEvent.
Inductive RolloutItem :=
| RSessionMeta
| RResponseItem (item : ResponseItem)
| RCompacted (message : rstring) (replacement_history : option (list ResponseItem))
| RTurnContext (context : TurnContextItem)
| REventMsg (event : EventMsg).
Record PreviousTurnSettings := mk_previous { previous_model : rstring; previous_realtime_active : option bool }.

(** ** The walk from the newest item *)
Inductive TurnReferenceContextItem := NeverSet | Cleared | Latest (context : TurnContextItem).
Record ActiveReplaySegment := mk_segment {
  turn_id : option rstring; counts_as_user_turn : bool; segment_settings : option PreviousTurnSettings;
  segment_reference : TurnReferenceContextItem; segment_base : option (list ResponseItem) }.
Definition default_segment : ActiveReplaySegment := mk_segment None false None NeverSet None.
Definition turn_ids_are_compatible (active_turn_id item_turn_id : option rstring) : bool :=
  match active_turn_id, item_turn_id with Some a, Some i => bool_decide (i = a) | _, _ => true end.
Record Replay := mk_replay {
  base_replacement_history : option (list ResponseItem); previous_turn_settings : option PreviousTurnSettings;
  reference : TurnReferenceContextItem; pending_rollback_turns : N; suffix_start : nat; active_segment : option ActiveReplaySegment }.
Definition replay_start : Replay := mk_replay None None NeverSet 0 0 None.
Definition with_active (st : Replay) (a : option ActiveReplaySegment) : Replay :=
  mk_replay (base_replacement_history st) (previous_turn_settings st) (reference st) (pending_rollback_turns st) (suffix_start st) a.
Definition never_set (r : TurnReferenceContextItem) : bool := match r with NeverSet => true | _ => false end.
Definition cleared (r : TurnReferenceContextItem) : bool := match r with Cleared => true | _ => false end.
Definition finalize_active_segment (st : Replay) (a : ActiveReplaySegment) : Replay :=
  if (0 <? pending_rollback_turns st)%N then
    mk_replay (base_replacement_history st) (previous_turn_settings st) (reference st)
      (if counts_as_user_turn a then pending_rollback_turns st - 1 else pending_rollback_turns st) (suffix_start st) (active_segment st)
  else
    mk_replay (match base_replacement_history st with Some b => Some b | None => segment_base a end)
      (match previous_turn_settings st with Some p => Some p | None => if counts_as_user_turn a then segment_settings a else None end)
      (if never_set (reference st) && (counts_as_user_turn a || cleared (segment_reference a)) then segment_reference a else reference st)
      0 (suffix_start st) (active_segment st).
Definition set_user_turn (a : ActiveReplaySegment) (user : bool) : ActiveReplaySegment :=
  mk_segment (turn_id a) (counts_as_user_turn a || user) (segment_settings a) (segment_reference a) (segment_base a).
Definition set_turn_id (a : ActiveReplaySegment) (id : option rstring) : ActiveReplaySegment :=
  mk_segment (match turn_id a with Some t => Some t | None => id end) (counts_as_user_turn a) (segment_settings a) (segment_reference a) (segment_base a).
Definition compact_segment (a : ActiveReplaySegment) (replacement : option (list ResponseItem)) : ActiveReplaySegment :=
  mk_segment (turn_id a) (counts_as_user_turn a) (segment_settings a) (if never_set (segment_reference a) then Cleared else segment_reference a)
    (match segment_base a with Some b => Some b | None => replacement end).
Definition context_segment (a : ActiveReplaySegment) (context : TurnContextItem) : ActiveReplaySegment :=
  let a := set_turn_id a (context_turn_id context) in
  if turn_ids_are_compatible (turn_id a) (context_turn_id context) then
    mk_segment (turn_id a) (counts_as_user_turn a) (Some (mk_previous (context_model context) (context_realtime_active context)))
      (if never_set (segment_reference a) then Latest context else segment_reference a) (segment_base a)
  else a.
Context (from_xml : rstring → option (rstring * rstring)) (is_inter_agent_json : rstring → bool).
Abbreviation boundary := (user_turn_boundary from_xml is_inter_agent_json).
Definition replay_step (st : Replay) (index : nat) (item : RolloutItem) : Replay :=
  let active := default default_segment (active_segment st) in
  match item with
  | RCompacted _ replacement =>
      let st' := with_active st (Some (compact_segment active replacement)) in
      match segment_base active, replacement with
      | None, Some _ => mk_replay (base_replacement_history st') (previous_turn_settings st') (reference st') (pending_rollback_turns st') (S index)
                          (active_segment st')
      | _, _ => st'
      end
  | REventMsg (ThreadRolledBack num_turns) =>
      mk_replay (base_replacement_history st) (previous_turn_settings st) (reference st) (sat_add (pending_rollback_turns st) num_turns)
        (suffix_start st) (active_segment st)
  | REventMsg (TurnComplete id) => with_active st (Some (set_turn_id active (Some id)))
  | REventMsg (TurnAborted id) =>
      match active_segment st with
      | Some a => with_active st (Some (set_turn_id a id))
      | None => match id with Some id => with_active st (Some (set_turn_id default_segment (Some id))) | None => st end
      end
  | REventMsg (UserMessage _) => with_active st (Some (set_user_turn active true))
  | RTurnContext context => with_active st (Some (context_segment active context))
  | REventMsg (TurnStarted id) =>
      match active_segment st with
      | Some a => if turn_ids_are_compatible (turn_id a) (Some id) then finalize_active_segment (with_active st None) a else st
      | None => st
      end
  | RResponseItem response => with_active st (Some (set_user_turn active (boundary response)))
  | REventMsg _ | RSessionMeta => st
  end.
(** Everything that a resume needs is known. *)
Definition is_some {A} (o : option A) : bool := match o with Some _ => true | None => false end.
Definition known (st : Replay) : bool :=
  is_some (base_replacement_history st) && is_some (previous_turn_settings st) && negb (never_set (reference st)).
Fixpoint reverse_replay (st : Replay) (newest_first : list (nat * RolloutItem)) : Replay :=
  match newest_first with
  | [] => st
  | (index, item) :: rest =>
      let st := replay_step st index item in
      if known st then st else reverse_replay st rest
  end.
Definition finish_replay (st : Replay) : Replay :=
  match active_segment st with Some a => finalize_active_segment (with_active st None) a | None => st end.
Definition replay_metadata (rollout_items : list RolloutItem) : Replay :=
  finish_replay (reverse_replay replay_start (rev (imap pair rollout_items))).

(** ** The history, forward *)
Definition sanitize_stale_file_references (item : ResponseItem) : ResponseItem := item.
Definition sanitize_history (items : list ResponseItem) : list ResponseItem := sanitize_stale_file_references <$> items.
Record Materialized := mk_materialized {
  m_history : ContextManager TurnContextItem; saw_legacy_compaction : bool; restored_documents : list (rstring * rstring * rstring) }.
Definition with_history (m : Materialized) (h : ContextManager TurnContextItem) : Materialized :=
  mk_materialized h (saw_legacy_compaction m) (restored_documents m).
Context (policy : TruncationPolicy).
Definition materialize_step {E} (m : Materialized) (item : RolloutItem) : outcome E Materialized :=
  match item with
  | RResponseItem response =>
      let? h := record_items (m_history m) [sanitize_stale_file_references response] policy in Ok (with_history m h)
  | RCompacted _ (Some replacement) => Ok (with_history m (replace (m_history m) (sanitize_history replacement)))
  | RCompacted message None =>
      let user_messages := collect_user_messages from_xml (items (m_history m)) in
      let? rebuilt := build_compacted_history [] user_messages message in
      Ok (mk_materialized (replace (m_history m) rebuilt) true (restored_documents m))
  | REventMsg (ThreadRolledBack num_turns) =>
      let? h := drop_last_n_user_turns from_xml is_inter_agent_json (m_history m) (N.to_nat num_turns) in Ok (with_history m h)
  | REventMsg (PresentDocument document_id title content) =>
      Ok (mk_materialized (m_history m) (saw_legacy_compaction m) (restored_documents m ++ [(document_id, title, content)]))
  | REventMsg _ | RTurnContext _ | RSessionMeta => Ok m
  end.
Fixpoint materialize {E} (m : Materialized) (l : list RolloutItem) : outcome E Materialized :=
  match l with [] => Ok m | item :: rest => let? m := materialize_step m item in materialize m rest end.
Record RolloutReconstruction := mk_reconstruction {
  history : list ResponseItem; r_previous_turn_settings : option PreviousTurnSettings; r_reference_context_item : option TurnContextItem;
  r_documents : list (rstring * rstring * rstring) }.
Definition reconstruct_history_from_rollout {E} (rollout_items : list RolloutItem) : outcome E RolloutReconstruction :=
  let st := replay_metadata rollout_items in
  let h := match base_replacement_history st with
           | Some base => replace manager_new (sanitize_history base)
           | None => manager_new
           end in
  let? m := materialize (mk_materialized h false []) (drop (suffix_start st) rollout_items) in
  let reference_context_item := match reference st with Latest context => Some context | NeverSet | Cleared => None end in
  Ok (mk_reconstruction (items (m_history m)) (previous_turn_settings st) (if saw_legacy_compaction m then None else reference_context_item)
        (restored_documents m)).

(** ** What should be restored *)
(** A record that is written turn by turn: each turn with its start, its items and, unless it was cut off, its end; in
    between rollbacks and items that do not matter. *)
Inductive ending := EndComplete | EndAborted | CutOff.
Record turn := mk_turn { t_id : rstring; t_body : list RolloutItem; t_end : ending }.
Inductive entry := ETurn (t : turn) | ERollback (num_turns : N) | EOther.
Definition of_turn (id : rstring) (item : RolloutItem) : Prop :=
  match item with
  | RTurnContext context => context_turn_id context = None ∨ context_turn_id context = Some id
  | REventMsg (ThreadRolledBack _ | TurnStarted _ | TurnComplete _ | TurnAborted _) => False
  | _ => True
  end.
Definition entry_ok (e : entry) : Prop := match e with ETurn t => Forall (of_turn (t_id t)) (t_body t) | _ => True end.
Definition end_items (t : turn) : list RolloutItem :=
  match t_end t with EndComplete => [REventMsg (TurnComplete (t_id t))] | EndAborted => [REventMsg (TurnAborted (Some (t_id t)))] | CutOff => [] end.
Definition entry_items (e : entry) : list RolloutItem :=
  match e with
  | ETurn t => REventMsg (TurnStarted (t_id t)) :: t_body t ++ end_items t
  | ERollback num_turns => [REventMsg (ThreadRolledBack num_turns)]
  | EOther => [RSessionMeta]
  end.
Definition written (es : list entry) : list RolloutItem := concat (entry_items <$> es).
(** What a turn says: whether the user asked for it, the settings it began with, its newest complete history, and the
    baseline it ends with. *)
Definition user_item (item : RolloutItem) : bool :=
  match item with RResponseItem response => boundary response | REventMsg (UserMessage _) => true | _ => false end.
Definition is_user_turn (t : turn) : bool := existsb user_item (t_body t).
Definition turn_settings (t : turn) : option PreviousTurnSettings :=
  head (omap (λ i, match i with RTurnContext c => Some (mk_previous (context_model c) (context_realtime_active c)) | _ => None end) (t_body t)).
Definition checkpoint (item : RolloutItem) : option (list ResponseItem) := match item with RCompacted _ replacement => replacement | _ => None end.
Definition turn_base (t : turn) : option (list ResponseItem) := last (omap checkpoint (t_body t)).
Definition turn_reference (t : turn) : option TurnReferenceContextItem :=
  last (omap (λ i, match i with RTurnContext c => Some (Latest c) | RCompacted _ _ => Some Cleared | _ => None end) (t_body t)).
(** The turns that are left, newest first: a rollback takes away the newest turns of the user and what came after them. *)
Fixpoint pop (n : nat) (stack : list turn) : list turn :=
  match n, stack with
  | O, _ => stack
  | _, [] => []
  | S n', t :: stack => if is_user_turn t then pop n' stack else pop n stack
  end.
Definition survivors (es : list entry) : list turn :=
  foldl (λ stack e, match e with ETurn t => t :: stack | ERollback n => pop (N.to_nat n) stack | EOther => stack end) [] es.
Definition rolled_back (es : list entry) : N := foldr N.add 0%N (omap (λ e, match e with ERollback n => Some n | _ => None end) es).
Definition newest {A} (f : turn → option A) (stack : list turn) : option A := head (omap f stack).
Definition no_checkpoint (l : list RolloutItem) : Prop := Forall (λ i, checkpoint i = None) l.
Definition no_legacy_compaction (l : list RolloutItem) : Prop := Forall (λ i, match i with RCompacted _ None => False | _ => True end) l.
Definition from_nothing : Materialized := mk_materialized manager_new false [].

(** ** Lemmas: the walk without its stop *)
(** The state of the walk as far as it matters for the answer. *)
Record view := mk_view {
  v_base : option (list ResponseItem); v_previous : option PreviousTurnSettings; v_reference : TurnReferenceContextItem; v_pending : N;
  v_segment : ActiveReplaySegment }.
Definition view_of (st : Replay) : view :=
  mk_view (base_replacement_history st) (previous_turn_settings st) (reference st) (pending_rollback_turns st) (default default_segment (active_segment st)).
Definition view_finalize (v : view) (a : ActiveReplaySegment) : view :=
  if (0 <? v_pending v)%N then
    mk_view (v_base v) (v_previous v) (v_reference v) (if counts_as_user_turn a then v_pending v - 1 else v_pending v) default_segment
  else
    mk_view (match v_base v with Some b => Some b | None => segment_base a end)
      (match v_previous v with Some p => Some p | None => if counts_as_user_turn a then segment_settings a else None end)
      (if never_set (v_reference v) && (counts_as_user_turn a || cleared (segment_reference a)) then segment_reference a else v_reference v)
      0 default_segment.
Definition with_segment (v : view) (a : ActiveReplaySegment) : view := mk_view (v_base v) (v_previous v) (v_reference v) (v_pending v) a.
Definition segment_step (a : ActiveReplaySegment) (item : RolloutItem) : ActiveReplaySegment :=
  match item with
  | RCompacted _ replacement => compact_segment a replacement
  | REventMsg (TurnComplete id) => set_turn_id a (Some id)
  | REventMsg (TurnAborted id) => set_turn_id a id
  | REventMsg (UserMessage _) => set_user_turn a true
  | RTurnContext context => context_segment a context
  | RResponseItem response => set_user_turn a (boundary response)
  | _ => a
  end.
Definition view_step (v : view) (item : RolloutItem) : view :=
  match item with
  | REventMsg (TurnStarted id) => if turn_ids_are_compatible (turn_id (v_segment v)) (Some id) then view_finalize v (v_segment v) else v
  | REventMsg (ThreadRolledBack n) => mk_view (v_base v) (v_previous v) (v_reference v) (sat_add (v_pending v) n) (v_segment v)
  | _ => with_segment v (segment_step (v_segment v) item)
  end.
Lemma view_finalize_default v : v_segment v = default_segment → view_finalize v default_segment = v.
Proof using Type.
  destruct v as [b p r n a]. cbn. intros ->. unfold view_finalize. cbn. destruct (N.ltb_spec 0 n); [done|].
  assert (n = 0%N) as -> by lia. rewrite andb_false_r. by destruct b, p.
Qed.
Lemma view_of_finalize st a : view_of (finalize_active_segment (with_active st None) a) = view_finalize (view_of st) a.
Proof using Type. unfold finalize_active_segment, view_finalize. cbn. by destruct (0 <? pending_rollback_turns st)%N. Qed.
Lemma view_of_step st index item : view_of (replay_step st index item) = view_step (view_of st) item.
Proof using Type.
  destruct item as [|response|message replacement|context|event]; cbn [replay_step view_step segment_step].
  - by destruct st as [? ? ? ? ? []].
  - done.
  - unfold view_of. cbn. by destruct (segment_base _), replacement.
  - done.
  - destruct event as [n|id|id|id|message|? ? ?|]; try done; try (by destruct st as [? ? ? ? ? []]).
    + destruct (active_segment st) as [a|] eqn:Ea; cbn [view_of v_segment]; rewrite Ea; cbn [default].
      * destruct (turn_ids_are_compatible _ _); [|done]. apply view_of_finalize.
      * cbn. symmetry. apply (view_finalize_default (view_of st)). cbn. by rewrite Ea.
    + unfold view_of at 2. cbn. destruct (active_segment st) as [a|] eqn:Ea; cbn; [done|]. destruct id as [id|]; cbn; [done|].
      unfold view_of, with_segment. cbn. by rewrite Ea.
Qed.
Definition answer (v : view) := (v_base v, v_previous v, v_reference v).
Definition view_known (v : view) : bool := is_some (v_base v) && is_some (v_previous v) && negb (never_set (v_reference v)).
Lemma finalize_known v a : view_known v = true → answer (view_finalize v a) = answer v.
Proof using Type.
  destruct v as [b p r n a']. unfold view_known, view_finalize, answer. cbn. rewrite !andb_true_iff. intros [[Hb Hp] Hr].
  destruct (0 <? n)%N; cbn; [done|]. destruct b, p, r; try done.
Qed.
Lemma step_known v item : view_known v = true → answer (view_step v item) = answer v.
Proof using Type.
  intros Hv. destruct item as [|?|? ?|?|[]]; try done. cbn. destruct (turn_ids_are_compatible _ _); [by apply finalize_known|done].
Qed.
Lemma known_answer v v' : answer v = answer v' → view_known v = view_known v'.
Proof using Type. unfold answer, view_known. by intros [= -> -> ->]. Qed.
Lemma steps_known v l : view_known v = true → answer (foldl view_step v l) = answer v.
Proof using Type.
  revert v. induction l as [|item l IH]; intros v Hv; [done|]. cbn. rewrite IH; [by apply step_known|].
  rewrite (known_answer _ v); [done|by apply step_known].
Qed.
Lemma finish_view st : view_of (finish_replay st) = view_finalize (view_of st) (default default_segment (active_segment st)).
Proof using Type.
  unfold finish_replay. destruct (active_segment st) as [a|] eqn:Ea; [apply view_of_finalize|]. cbn. symmetry. apply view_finalize_default. cbn. by rewrite Ea.
Qed.
Lemma reverse_replay_view l : ∀ st,
  answer (view_of (finish_replay (reverse_replay st l))) =
  answer (let v := foldl view_step (view_of st) l.*2 in view_finalize v (v_segment v)).
Proof using Type.
  induction l as [|[index item] l IH]; intros st; cbn [reverse_replay].
  { cbn. by rewrite finish_view. }
  cbn [fmap list_fmap foldl snd]. rewrite <- (view_of_step st index item). destruct (known (replay_step st index item)) eqn:Hk; [|apply IH].
  set (st' := replay_step st index item) in *. assert (view_known (view_of st') = true) as Hv by exact Hk.
  rewrite finish_view, finalize_known by done. cbn zeta. rewrite finalize_known; [by rewrite steps_known|].
  rewrite (known_answer _ (view_of st')); [done|by apply steps_known].
Qed.
Lemma imap_pair_snd {A} (l : list A) : (imap pair l).*2 = l.
Proof using Type. rewrite fmap_imap. induction l as [|x l IH] using rev_ind; [done|]. rewrite imap_app. cbn. by rewrite IH. Qed.
Lemma replay_metadata_view l :
  answer (view_of (replay_metadata l)) = answer (let v := foldl view_step (view_of replay_start) (rev l) in view_finalize v (v_segment v)).
Proof using Type.
  unfold replay_metadata. rewrite reverse_replay_view. replace ((rev (imap pair l)).*2) with (rev l); [done|].
  symmetry. etransitivity; [apply map_rev|]. f_equal. apply imap_pair_snd.
Qed.

(** ** Lemmas: turn by turn *)
Definition fresh (t : turn) : ActiveReplaySegment :=
  match t_end t with EndComplete | EndAborted => set_turn_id default_segment (Some (t_id t)) | CutOff => default_segment end.
Definition segment_of (t : turn) : ActiveReplaySegment := foldr (λ i a, segment_step a i) (fresh t) (t_body t).
Definition id_ok (t : turn) (a : ActiveReplaySegment) : Prop := turn_id a = None ∨ turn_id a = Some (t_id t).
Lemma compatible_ok t a : id_ok t a → turn_ids_are_compatible (turn_id a) (Some (t_id t)) = true.
Proof using Type. intros [-> | ->]; cbn; [done|]. by rewrite bool_decide_eq_true_2. Qed.
Lemma context_compatible t a c : id_ok t a → context_turn_id c = None ∨ context_turn_id c = Some (t_id t) →
  turn_ids_are_compatible (turn_id (set_turn_id a (context_turn_id c))) (context_turn_id c) = true ∧ id_ok t (set_turn_id a (context_turn_id c)).
Proof using Type.
  unfold id_ok. destruct a as [i ? ? ? ?]. cbn. intros [-> | ->] [-> | ->]; cbn; (split; [|auto]); try done; by rewrite bool_decide_eq_true_2.
Qed.
Lemma segment_step_ok t a item : of_turn (t_id t) item → id_ok t a → id_ok t (segment_step a item).
Proof using Type.
  intros Ho Ha. destruct item as [|?|? ?|c|[]]; cbn in *; try done. unfold context_segment.
  destruct (context_compatible t a c Ha Ho) as [-> Hc]. exact Hc.
Qed.
Lemma fresh_ok t : id_ok t (fresh t).
Proof using Type. unfold id_ok, fresh. destruct (t_end t); cbn; auto. Qed.
Lemma view_body t v l : Forall (of_turn (t_id t)) l →
  foldl view_step v (rev l) = with_segment v (foldr (λ i a, segment_step a i) (v_segment v) l).
Proof using Type.
  induction 1 as [|i l Hi _ IH]; [by destruct v|]. cbn. rewrite foldl_app, IH. cbn. by destruct i as [|?|? ?|?|[]].
Qed.
Lemma foldr_ok t a l : Forall (of_turn (t_id t)) l → id_ok t a → id_ok t (foldr (λ i a, segment_step a i) a l).
Proof using Type. induction 1 as [|i l Hi _ IH]; [done|]. intros Ha. cbn. by apply segment_step_ok, IH. Qed.
Lemma view_turn t v : Forall (of_turn (t_id t)) (t_body t) → v_segment v = default_segment →
  foldl view_step v (rev (entry_items (ETurn t))) = view_finalize v (segment_of t).
Proof using Type.
  intros Hb Hv. cbn [entry_items rev]. rewrite rev_app_distr, !foldl_app.
  assert (foldl view_step v (rev (end_items t)) = with_segment v (fresh t)) as ->.
  { unfold end_items, fresh. destruct v as [? ? ? ? a]. cbn in Hv. subst a. by destruct (t_end t). }
  rewrite (view_body t) by done. cbn. rewrite compatible_ok; [by destruct v|]. apply foldr_ok; [done|apply fresh_ok].
Qed.
(** The four things that a segment remembers. *)
Lemma segment_user t : counts_as_user_turn (segment_of t) = is_user_turn t.
Proof using Type.
  unfold segment_of, is_user_turn. induction (t_body t) as [|i l IH]; cbn; [by unfold fresh; destruct (t_end t)|].
  rewrite <- IH. set (a := foldr _ _ _). destruct i as [|r|? ?|c|[]]; cbn; try done; try (by rewrite orb_false_r); try (by rewrite orb_true_r).
  - by rewrite orb_comm.
  - unfold context_segment. by destruct (turn_ids_are_compatible _ _).
Qed.
Lemma segment_base_of t : Forall (of_turn (t_id t)) (t_body t) → segment_base (segment_of t) = turn_base t.
Proof using Type.
  unfold segment_of, turn_base. induction 1 as [|i l Hi _ IH]; [by unfold fresh; destruct (t_end t)|]. cbn [foldr].
  set (a := foldr _ _ _) in *. assert (last (omap checkpoint (i :: l)) = match segment_base a with Some b => Some b | None => checkpoint i end) as ->.
  { rewrite IH. cbn. destruct (checkpoint i); cbn; [rewrite last_cons|]; by destruct (last _). }
  destruct i as [|r|? ?|c|[]]; cbn; try done; try (by destruct (segment_base a)). unfold context_segment.
  destruct (turn_ids_are_compatible _ _); cbn; by destruct (segment_base a).
Qed.
Lemma segment_settings_of t : Forall (of_turn (t_id t)) (t_body t) → segment_settings (segment_of t) = turn_settings t.
Proof using Type.
  unfold segment_of, turn_settings. induction 1 as [|i l Hi Hl IH]; cbn; [by unfold fresh; destruct (t_end t)|].
  set (a := foldr _ _ _) in *. destruct i as [|r|? ?|c|[]]; cbn; try done. unfold context_segment.
  destruct (context_compatible t a c) as [-> _]; [by apply foldr_ok; [|apply fresh_ok]|exact Hi|]. done.
Qed.
Lemma segment_reference_of t : Forall (of_turn (t_id t)) (t_body t) → segment_reference (segment_of t) = default NeverSet (turn_reference t) ∧
  (never_set (segment_reference (segment_of t)) = true → turn_reference t = None).
Proof using Type.
  unfold segment_of, turn_reference. induction 1 as [|i l Hi Hl IH]; [by unfold fresh; destruct (t_end t)|]. cbn [foldr].
  set (a := foldr _ _ _) in *. set (f := λ i, match i with RTurnContext c => Some (Latest c) | RCompacted _ _ => Some Cleared | _ => None end) in *.
  destruct IH as [IH1 IH2].
  assert (segment_reference (segment_step a i) = match f i with Some r => if never_set (segment_reference a) then r else segment_reference a
                                                            | None => segment_reference a end) as ->.
  { destruct i as [|r|? ?|c|[]]; cbn; try done. unfold context_segment.
    destruct (context_compatible t a c) as [-> _]; [by apply foldr_ok; [|apply fresh_ok]|exact Hi|]. done. }
  assert (omap f (i :: l) = match f i with Some r => r :: omap f l | None => omap f l end) as -> by done.
  destruct (f i) as [r|] eqn:Ef; [|done]. rewrite last_cons. destruct (last (omap f l)) as [r'|] eqn:El.
  - cbn in IH1. destruct (never_set (segment_reference a)) eqn:En; [by specialize (IH2 eq_refl)|]. split; [by rewrite IH1|by rewrite En].
  - cbn in IH1. rewrite IH1. cbn. split; [done|]. destruct i as [|?|? ?|?|[]]; cbn in Ef; try done; by injection Ef as <-.
Qed.

(** ** Lemmas: the turns that are left *)
Definition absorb (v : view) (stack : list turn) : view := foldl (λ v t, view_finalize v (segment_of t)) v stack.
Definition unpended (v : view) : view := mk_view (v_base v) (v_previous v) (v_reference v) 0 default_segment.
Lemma pop_nil n : pop n [] = [].
Proof using Type. by destruct n. Qed.
Lemma pop_0 stack : pop 0 stack = stack.
Proof using Type. by destruct stack. Qed.
Lemma pop_add n k stack : pop n (pop k stack) = pop (k + n) stack.
Proof using Type.
  revert k. induction stack as [|t stack IH]; intros k; [by rewrite !pop_nil|]. destruct k as [|k]; [done|]. cbn [pop Nat.add].
  destruct (is_user_turn t); [apply IH|apply (IH (S k))].
Qed.
Lemma survivors_snoc es e : survivors (es ++ [e]) =
  match e with ETurn t => t :: survivors es | ERollback n => pop (N.to_nat n) (survivors es) | EOther => survivors es end.
Proof using Type. unfold survivors. by rewrite foldl_app. Qed.
Lemma written_snoc es e : written (es ++ [e]) = written es ++ entry_items e.
Proof using Type. unfold written. by rewrite fmap_app, concat_app; cbn; rewrite app_nil_r. Qed.
Lemma rolled_back_snoc es e : rolled_back (es ++ [e]) = (rolled_back es + match e with ERollback n => n | _ => 0 end)%N.
Proof using Type.
  unfold rolled_back. induction es as [|e' es IH]; [by destruct e; cbn; rewrite ?N.add_0_r|]. cbn.
  destruct e'; cbn in *; rewrite IH; lia.
Qed.
Lemma finalize_segment v t : v_segment (view_finalize v (segment_of t)) = default_segment.
Proof using Type. unfold view_finalize. by destruct (0 <? v_pending v)%N. Qed.
Lemma finalize_pending v t : v_pending (view_finalize v (segment_of t)) = if is_user_turn t then (v_pending v - 1)%N else v_pending v.
Proof using Type.
  unfold view_finalize. rewrite segment_user. destruct (N.ltb_spec 0 (v_pending v)); cbn; [done|]. destruct (is_user_turn t); lia.
Qed.
Lemma unpended_finalize v a : v_pending v = 0%N → unpended (view_finalize v a) = view_finalize (unpended v) a.
Proof using Type. destruct v as [b p r n s]. cbn. intros ->. unfold view_finalize, unpended. cbn. by destruct r. Qed.
Lemma unpended_skipped v a : (0 < v_pending v)%N → unpended (view_finalize v a) = unpended v.
Proof using Type. intros Hp. unfold view_finalize. by rewrite (proj2 (N.ltb_lt _ _) Hp). Qed.
Lemma walk_written es : ∀ v, Forall entry_ok es → v_segment v = default_segment → (v_pending v + rolled_back es ≤ usize_max)%N →
  let v' := foldl view_step v (rev (written es)) in
  v_segment v' = default_segment ∧ answer v' = answer (absorb (unpended v) (pop (N.to_nat (v_pending v)) (survivors es))).
Proof using Type.
  induction es as [|e es IH] using rev_ind; intros v Hok Hv Hp.
  { split; [done|]. change (survivors []) with (@nil turn). by rewrite pop_nil. }
  apply Forall_app in Hok as [Hok He]. rewrite Forall_singleton in He. rewrite written_snoc, rev_app_distr, foldl_app, survivors_snoc.
  rewrite rolled_back_snoc in Hp. destruct e as [t|n|].
  - rewrite (view_turn t v He Hv). destruct (IH (view_finalize v (segment_of t)) Hok) as [H1 H2]; [apply finalize_segment| |].
    { rewrite finalize_pending. destruct (is_user_turn t); lia. }
    split; [exact H1|]. etransitivity; [exact H2|]. rewrite finalize_pending.
    destruct (N.ltb_spec 0 (v_pending v)) as [Hpos|Hz].
    + rewrite unpended_skipped by done. assert (N.to_nat (v_pending v) = S (N.to_nat (v_pending v - 1))) as E by lia. rewrite E. cbn [pop].
      destruct (is_user_turn t); [done|]. by rewrite E.
    + assert (v_pending v = 0%N) as E by lia. rewrite unpended_finalize, E by done.
      replace (N.to_nat (if is_user_turn t then (0 - 1)%N else 0%N)) with O by (by destruct (is_user_turn t)). by rewrite pop_0.
  - cbn [entry_items rev app foldl view_step]. destruct (IH (mk_view (v_base v) (v_previous v) (v_reference v) (sat_add (v_pending v) n) (v_segment v)) Hok Hv) as [H1 H2].
    { cbn. unfold sat_add. lia. }
    split; [exact H1|]. etransitivity; [exact H2|]. cbn [v_pending]. rewrite pop_add. unfold unpended. cbn. do 3 f_equal. unfold sat_add. lia.
  - cbn [entry_items rev app foldl view_step segment_step]. destruct (IH (with_segment v (v_segment v)) Hok Hv) as [H1 H2]; [cbn; lia|]. done.
Qed.
Lemma absorb_answer stack : ∀ v, v_pending v = 0%N → Forall (λ t, Forall (of_turn (t_id t)) (t_body t)) stack →
  answer (absorb v stack) =
    (match v_base v with Some b => Some b | None => newest turn_base stack end,
     match v_previous v with Some p => Some p | None => newest (λ t, if is_user_turn t then turn_settings t else None) stack end,
     if never_set (v_reference v) then
       default (v_reference v) (newest (λ t, match turn_reference t with
                                             | Some Cleared => Some Cleared
                                             | Some (Latest c) => if is_user_turn t then Some (Latest c) else None
                                             | _ => None end) stack)
     else v_reference v).
Proof using Type.
  unfold newest. induction stack as [|t stack IH]; intros v Hp Hok.
  { cbn. unfold answer. destruct (v_base v), (v_previous v), (v_reference v); done. }
  apply Forall_cons in Hok as [Ht Hok]. cbn [absorb foldl]. unfold absorb in IH. rewrite IH; [|rewrite finalize_pending, Hp; by destruct (is_user_turn t)|done].
  unfold view_finalize. rewrite Hp. cbn [N.ltb N.compare]. cbn [v_base v_previous v_reference]. rewrite segment_user, segment_base_of, segment_settings_of by done.
  destruct (segment_reference_of t Ht) as [Er Er']. rewrite Er in Er' |- *. cbn [omap list_omap].
  f_equal; [f_equal|].
  - destruct (v_base v), (turn_base t); done.
  - destruct (v_previous v), (is_user_turn t), (turn_settings t); done.
  - destruct (v_reference v) eqn:Ev; cbn; [|done..].
    destruct (turn_reference t) as [[| |c]|] eqn:Et; cbn; destruct (is_user_turn t); cbn; try done.
Qed.
Lemma survivors_ok es : Forall entry_ok es → Forall (λ t, Forall (of_turn (t_id t)) (t_body t)) (survivors es).
Proof using Type.
  assert (∀ (P : turn → Prop) n stack, Forall P stack → Forall P (pop n stack)) as Hpop.
  { intros P n stack Hs. revert n. induction Hs as [|t stack Ht Hs IH]; intros n; [by rewrite pop_nil|].
    destruct n as [|n]; [by constructor|]. cbn. by destruct (is_user_turn t). }
  induction es as [|e es IH] using rev_ind; intros Hok; [constructor|]. apply Forall_app in Hok as [Hok He]. rewrite Forall_singleton in He.
  rewrite survivors_snoc. destruct e; [constructor; [done|by apply IH]|by apply Hpop, IH|by apply IH].
Qed.

(** ** Lemmas: where the history starts *)
Definition based (items : list RolloutItem) (k : nat) (st : Replay) (b : list ResponseItem) : Prop :=
  ∃ j item, k ≤ j ∧ items !! j = Some item ∧ checkpoint item = Some b ∧ suffix_start st ≤ S j.
Definition started (items : list RolloutItem) (k : nat) (st : Replay) : Prop :=
  (∀ b, base_replacement_history st = Some b → based items k st b) ∧
  (∀ b, segment_base (default default_segment (active_segment st)) = Some b → based items k st b).
Lemma based_older items k st st' b : suffix_start st' ≤ suffix_start st → based items (S k) st b → based items k st' b.
Proof using Type. intros Hs (j & item & ? & ? & ? & ?). exists j, item. split_and!; [lia|done|done|lia]. Qed.
Lemma based_moved items k st st' b : suffix_start st' ≤ S k → based items (S k) st b → based items k st' b.
Proof using Type. intros Hs (j & item & ? & ? & ? & ?). exists j, item. split_and!; [lia|done|done|lia]. Qed.
Lemma started_finalize items k st a :
  started items k (with_active st None) → (∀ b, segment_base a = Some b → based items k st b) → started items k (finalize_active_segment (with_active st None) a).
Proof using Type.
  intros [H1 H2] Ha. unfold finalize_active_segment. destruct (0 <? _)%N; [done|]. split; cbn; [|done].
  intros b. cbn in H1. destruct (base_replacement_history st) as [b'|]; [intros [= <-]; by apply H1|apply Ha].
Qed.
(** A step that reads no checkpoint keeps the start; one that does may move it. *)
Lemma started_kept items k st a' : started items (S k) st →
  (∀ b, segment_base (default default_segment a') = Some b → segment_base (default default_segment (active_segment st)) = Some b) →
  started items k (with_active st a').
Proof using Type. intros [H1 H2] Ha. split; cbn; intros b Hb; eapply (based_older _ _ st); [done|by apply H1|done|by apply H2, Ha]. Qed.
Lemma started_step items k st item : items !! k = Some item → started items (S k) st → started items k (replay_step st k item).
Proof using Type.
  intros Hk Hst. assert (started items k st) as Hsame.
  { destruct Hst as [H1 H2]. split; intros b Hb; eapply (based_older _ _ st); auto. }
  destruct item as [|r|message replacement|c|event]; cbn [replay_step]; [done|by apply started_kept| | |].
  - destruct (segment_base _) as [b0|] eqn:E0.
    { apply started_kept; [done|]. cbn. by rewrite E0. }
    destruct replacement as [new|]; [|apply started_kept; [done|]; cbn; by rewrite E0].
    destruct Hst as [H1 H2]. split; cbn; intros b Hb.
    { eapply (based_moved _ _ st); [done|by apply H1]. }
    rewrite E0 in Hb. exists k, (RCompacted message (Some new)). split_and!; [done|done|by rewrite <- Hb|done].
  - apply started_kept; [done|]. cbn. unfold context_segment. by destruct (turn_ids_are_compatible _ _).
  - destruct event as [n|id|id|id|m|? ? ?|]; try done; try (by apply started_kept).
    + destruct (active_segment st) as [a|] eqn:Ea; [|done]. destruct (turn_ids_are_compatible _ _); [|done].
      apply started_finalize; [by apply started_kept|]. destruct Hsame as [_ H2]. by rewrite Ea in H2.
    + destruct (active_segment st) as [a|] eqn:Ea; [apply started_kept; [done|]; by rewrite Ea|]. destruct id as [id|]; [|done].
      apply started_kept; [done|]. by rewrite Ea.
Qed.
Lemma rev_imap_snoc {A} (items : list A) k x : items !! k = Some x →
  rev (imap pair (take (S k) items)) = (k, x) :: rev (imap pair (take k items)).
Proof using Type.
  intros Hk. rewrite (take_S_r _ _ x) by done. rewrite imap_app, rev_app_distr. cbn. rewrite length_take_le; [by rewrite Nat.add_0_r|].
  apply lookup_lt_Some in Hk. lia.
Qed.
(** What holds of the state at every index holds at the end. *)
Lemma replay_induction (P : nat → Replay → Prop) items :
  (∀ k st item, items !! k = Some item → P (S k) st → P k (replay_step st k item)) →
  (∀ k st, P (S k) st → P k st) →
  ∀ k st, k ≤ length items → P k st → P 0 (reverse_replay st (rev (imap pair (take k items)))).
Proof using Type.
  intros Hstep Hdown. assert (∀ k st, P k st → P 0 st) as H0 by (induction k as [|k IH]; eauto).
  induction k as [|k IH]; intros st Hk Hst; [done|]. destruct (lookup_lt_is_Some_2 items k) as [item Hitem]; [lia|].
  rewrite (rev_imap_snoc _ _ item) by done. cbn [reverse_replay]. destruct (known _); [eapply H0; by apply Hstep|]. apply IH; [lia|by apply Hstep].
Qed.
Lemma started_metadata items b : base_replacement_history (replay_metadata items) = Some b → based items 0 (replay_metadata items) b.
Proof using Type.
  unfold replay_metadata. set (st := reverse_replay _ _). assert (started items 0 st) as Hst.
  { subst st. rewrite <- (firstn_all items) at 2. apply (replay_induction (started items)); [intros; by apply started_step| |done|by split].
    intros k st [H1 H2]. split; intros ? ?; eapply (based_older _ _ st); auto. }
  unfold finish_replay. destruct (active_segment st) as [a|] eqn:Ea; [|apply Hst].
  destruct Hst as [H1 H2]. rewrite Ea in H2. by apply (started_finalize items 0 st a).
Qed.
Lemma suffix_finalize st a : suffix_start (finalize_active_segment st a) = suffix_start st.
Proof using Type. unfold finalize_active_segment. by destruct (0 <? _)%N. Qed.
Lemma suffix_metadata items : no_checkpoint items → suffix_start (replay_metadata items) = 0.
Proof using Type.
  intros Hno. unfold replay_metadata. assert (suffix_start (reverse_replay replay_start (rev (imap pair items))) = 0) as H0.
  { rewrite <- (firstn_all items) at 1. apply (replay_induction (λ _ st, suffix_start st = 0)); [|done|done|done].
    intros k st item Hk Hst. apply (Forall_lookup_1 _ _ _ _ Hno) in Hk. destruct item as [|r|m new|c|[]]; cbn in *; try done.
    - subst new. by destruct (segment_base _).
    - destruct (active_segment st); [|done]. destruct (turn_ids_are_compatible _ _); [|done]. by rewrite suffix_finalize.
    - destruct (active_segment st); [done|]. by case_match. }
  unfold finish_replay. destruct (active_segment _); [|done]. by rewrite suffix_finalize.
Qed.

(** ** Lemmas: the history is a matter of the items *)
Definition agree (m1 m2 : Materialized) : Prop := items (m_history m1) = items (m_history m2).
Lemma record_agree {E} new : ∀ (h1 h2 h1' : ContextManager TurnContextItem), items h1 = items h2 → record_items (E:=E) h1 new policy = Ok h1' →
  ∃ h2', record_items (E:=E) h2 new policy = Ok h2' ∧ items h1' = items h2'.
Proof using Type.
  induction new as [|item new IH]; intros h1 h2 h1' Hh; cbn [record_items]; [intros [= <-]; by exists h2|].
  destruct (negb _); [by apply IH|]. destruct (process_item item policy) as [processed| |]; [|done..]. cbn. apply IH. cbn. by rewrite Hh.
Qed.
Lemma record_any {E} new : ∀ (h1 h2 h1' : ContextManager TurnContextItem), record_items (E:=E) h1 new policy = Ok h1' →
  ∃ h2', record_items (E:=E) h2 new policy = Ok h2'.
Proof using Type.
  induction new as [|item new IH]; intros h1 h2 h1'; cbn [record_items]; [eauto|].
  destruct (negb _); [by apply IH|]. destruct (process_item item policy) as [processed| |]; [|done..]. cbn. by apply IH.
Qed.
Lemma drop_agree {E} n (h1 h2 h1' : ContextManager TurnContextItem) : items h1 = items h2 →
  drop_last_n_user_turns (E:=E) from_xml is_inter_agent_json h1 n = Ok h1' →
  ∃ h2', drop_last_n_user_turns (E:=E) from_xml is_inter_agent_json h2 n = Ok h2' ∧ items h1' = items h2'.
Proof using Type.
  intros Hh. unfold drop_last_n_user_turns. rewrite Hh. destruct (n =? 0); [intros [= <-]; by exists h2|].
  destruct (user_message_positions _ _ _) as [|p ps]; [intros [= <-]; by eexists|].
  destruct (if _ <=? n then _ else _) as [cut| |]; [|done..]. cbn -[Nat.ltb]. destruct (trim_loop _ _ _ _ _) as [[cut' clear]| |]; [|done..]. cbn -[Nat.ltb].
  destruct (length (items h2) <? cut'); [done|]. intros [= <-]. by eexists.
Qed.
Lemma step_agree {E} m1 m2 m1' item : agree m1 m2 → materialize_step (E:=E) m1 item = Ok m1' →
  ∃ m2', materialize_step (E:=E) m2 item = Ok m2' ∧ agree m1' m2'.
Proof using Type.
  unfold agree. intros Hm. destruct item as [|r|message [new|]|c|[n|id|id|id|m|id title content|]]; cbn [materialize_step];
    try (intros [= <-]; by eexists).
  - destruct (record_items (m_history m1) _ _) as [h1| |] eqn:E1; [|done..]. intros [= <-].
    destruct (record_agree _ _ _ _ Hm E1) as (h2 & -> & Hh). by eexists.
  - rewrite Hm. destruct (build_compacted_history _ _ _) as [rebuilt| |]; [|done..]. intros [= <-]. by eexists.
  - destruct (drop_last_n_user_turns _ _ (m_history m1) _) as [h1| |] eqn:E1; [|done..]. intros [= <-].
    destruct (drop_agree _ _ _ _ Hm E1) as (h2 & -> & Hh). by eexists.
Qed.
Lemma materialize_agree {E} l : ∀ m1 m2 m1', agree m1 m2 → materialize (E:=E) m1 l = Ok m1' →
  ∃ m2', materialize (E:=E) m2 l = Ok m2' ∧ agree m1' m2'.
Proof using Type.
  induction l as [|item l IH]; intros m1 m2 m1' Hm; cbn [materialize]; [intros [= <-]; by exists m2|].
  destruct (materialize_step m1 item) as [m| |] eqn:Es; [|done..]. destruct (step_agree _ _ _ _ Hm Es) as (m' & -> & Hm'). cbn. by apply IH.
Qed.
Lemma materialize_any {E} l : ∀ m1 m2 m1', no_legacy_compaction l → materialize (E:=E) m1 l = Ok m1' → ∃ m2', materialize (E:=E) m2 l = Ok m2'.
Proof using Type.
  induction l as [|item l IH]; intros m1 m2 m1' Hno; cbn [materialize]; [eauto|]. apply Forall_cons in Hno as [Hi Hno].
  destruct (materialize_step m1 item) as [m| |] eqn:Es; [|done..]. intros Hl. assert (∃ m', materialize_step (E:=E) m2 item = Ok m') as [m' ->].
  { destruct item as [|r|message [new|]|c|[n|id|id|id|mm|id title content|]]; cbn [materialize_step] in *; eauto; try done.
    - destruct (record_items (m_history m1) _ _) as [h1| |] eqn:E1; [|done..]. destruct (record_any _ _ (m_history m2) _ E1) as (h2 & ->). by eexists.
    - destruct (rollback_spec from_xml is_inter_agent_json (E:=E) (m_history m2) (N.to_nat n)) as (h2 & -> & _). by eexists. }
  cbn. by eapply IH.
Qed.
Lemma materialize_app {E} l1 l2 : ∀ m, materialize (E:=E) m (l1 ++ l2) = (let? m' := materialize m l1 in materialize m' l2).
Proof using Type.
  induction l1 as [|item l1 IH]; intros m; [done|]. cbn [app materialize]. destruct (materialize_step m item) as [m'| |]; cbn; [apply IH|done..].
Qed.
Lemma checkpoint_step {E} m item b : checkpoint item = Some b →
  ∃ m', materialize_step (E:=E) m item = Ok m' ∧ items (m_history m') = sanitize_history b.
Proof using Type. destruct item as [|r|message [new|]|c|event]; cbn; try done. intros [= ->]. by eexists. Qed.
(** The record from a checkpoint on gives the same history from whatever stood before. *)
Lemma from_checkpoint {E} pre item b rest m0 m m1 : checkpoint item = Some b → materialize (E:=E) m0 (pre ++ item :: rest) = Ok m →
  (items (m_history m1) = sanitize_history b → ∃ m', materialize (E:=E) m1 rest = Ok m' ∧ agree m m') ∧
  (∀ m', materialize (E:=E) m1 (pre ++ item :: rest) = Ok m' → agree m m').
Proof using Type.
  intros Hb. rewrite !materialize_app. destruct (materialize m0 pre) as [n0| |]; [|done..]. cbn.
  destruct (checkpoint_step (E:=E) n0 item b Hb) as (k0 & -> & Hk0). cbn. intros Hm. split.
  - intros H1. eapply materialize_agree; [|exact Hm]. unfold agree. by rewrite Hk0.
  - destruct (materialize m1 pre) as [n1| |]; [|done..]. destruct (checkpoint_step (E:=E) n1 item b Hb) as (k1 & Ek & Hk1). cbn. rewrite Ek.
    intros m' Hm'. destruct (materialize_agree (E:=E) rest k0 k1 m) as (m'' & E'' & Ha); [unfold agree; by rewrite Hk0|exact Hm|]. cbn in Hm'.
    rewrite E'' in Hm'. by injection Hm' as ->.
Qed.
Definition resumed_start (l : list RolloutItem) : Materialized :=
  mk_materialized (match base_replacement_history (replay_metadata l) with
                   | Some base => replace manager_new (sanitize_history base) | None => manager_new end) false [].
Lemma resumed_run {E} l m : no_checkpoint l ∨ is_Some (base_replacement_history (replay_metadata l)) → materialize (E:=E) from_nothing l = Ok m →
  let run := materialize (E:=E) (resumed_start l) (drop (suffix_start (replay_metadata l)) l) in
  (no_checkpoint l ∨ no_legacy_compaction l → ∃ m', run = Ok m') ∧ (∀ m', run = Ok m' → agree m m').
Proof using Type.
  intros Hcase Hm. unfold resumed_start. destruct (base_replacement_history (replay_metadata l)) as [b|] eqn:Eb.
  2:{ destruct Hcase as [Hno|[? [=]]]. rewrite suffix_metadata by done. cbn zeta. rewrite drop_0. change (mk_materialized manager_new false []) with from_nothing.
      rewrite Hm. split; [eauto|]. by intros m' [= <-]. }
  destruct (started_metadata l b Eb) as (j & item & _ & Hj & Hc & Hs). set (s := suffix_start (replay_metadata l)) in *. clearbody s.
  set (m1 := mk_materialized (replace manager_new (sanitize_history b)) false []). clear Hcase.
  rewrite <- (take_drop_middle _ _ _ Hj) in Hm.
  assert (no_checkpoint l → False) as Hno by (intros H; apply (Forall_lookup_1 _ _ _ _ H) in Hj; congruence).
  destruct (decide (s = S j)) as [->|Hne]; cbn zeta.
  - destruct (from_checkpoint _ _ _ _ _ _ m1 Hc Hm) as [H1 _]. destruct (H1 eq_refl) as (m' & -> & Ha). split; [eauto|]. by intros ? [= <-].
  - assert (drop s l = drop s (take j l) ++ item :: drop (S j) l) as Es.
    { rewrite <- (take_drop_middle _ _ _ Hj) at 1. apply drop_app_le. rewrite length_take_le; [lia|]. apply lookup_lt_Some in Hj. lia. }
    rewrite <- (take_drop s (take j l)), <- app_assoc, <- Es, materialize_app in Hm. destruct (materialize from_nothing _) as [m0| |]; [|done..]. cbn in Hm.
    split.
    + intros [H|Hl]; [by destruct (Hno H)|]. eapply materialize_any; [|exact Hm]. rewrite <- (take_drop s l) in Hl. by apply Forall_app in Hl as [_ Hl].
    + rewrite Es in Hm |- *. by destruct (from_checkpoint _ _ _ _ _ _ m1 Hc Hm) as [_ H2].
Qed.

(** C11: Resuming a thread rebuilds the very history that the record describes. The reverse scan picks a base (the newest
    checkpoint that was not rolled back) and a suffix of the record; replaying that suffix over the base gives, item for
    item, the history that replaying the whole record from an empty history gives, whenever the record has no checkpoint
    at all or a checkpoint survives its rollbacks. It does so although the scan stops early, although the suffix may
    reach back beyond the base (to a checkpoint that was rolled back, or to an older one read while the settings were
    still looked for), and whatever was compacted, rolled back or recorded in between. Unless an old-style compaction
    (one that keeps no history) is in the way, it also never fails where the whole replay succeeds. *)
Theorem resume_replays_the_record {E} (l : list RolloutItem) (m : Materialized) :
  no_checkpoint l ∨ is_Some (base_replacement_history (replay_metadata l)) →
  materialize (E:=E) from_nothing l = Ok m →
  (no_checkpoint l ∨ no_legacy_compaction l → ∃ r, reconstruct_history_from_rollout (E:=E) l = Ok r) ∧
  (∀ r, reconstruct_history_from_rollout (E:=E) l = Ok r → history r = items (m_history m)).
Proof using Type.
  intros Hcase Hm. destruct (resumed_run l m Hcase Hm) as [H1 H2]. unfold reconstruct_history_from_rollout. fold (resumed_start l).
  cbn zeta in H1, H2. split.
  - intros H. destruct (H1 H) as [m' ->]. by eexists.
  - intros r. destruct (materialize (resumed_start l) _) as [m'| |] eqn:Er; [|done..]. intros [= <-]. cbn. symmetry. by apply H2.
Qed.

Lemma scan_follows_survivors es : Forall entry_ok es → (rolled_back es ≤ usize_max)%N →
  let st := replay_metadata (written es) in
  base_replacement_history st = newest turn_base (survivors es) ∧
  previous_turn_settings st = newest (λ t, if is_user_turn t then turn_settings t else None) (survivors es) ∧
  reference st = default NeverSet (newest (λ t, match turn_reference t with
                                               | Some Cleared => Some Cleared
                                               | Some (Latest c) => if is_user_turn t then Some (Latest c) else None
                                               | _ => None
                                               end) (survivors es)).
Proof using Type.
  intros Hok Hroll. cbn zeta. pose proof (replay_metadata_view (written es)) as H. destruct (walk_written es (view_of replay_start) Hok eq_refl) as [Hseg Hans].
  { cbn. lia. }
  cbn zeta in *. rewrite Hseg, view_finalize_default, Hans in H by done. change (N.to_nat (v_pending (view_of replay_start))) with O in H.
  rewrite pop_0, absorb_answer in H; [|done|by apply survivors_ok]. cbn in H. by injection H as -> -> ->.
Qed.
Definition is_legacy (item : RolloutItem) : bool := match item with RCompacted _ None => true | _ => false end.
Lemma materialize_legacy {E} l : ∀ m m', materialize (E:=E) m l = Ok m' → saw_legacy_compaction m' = saw_legacy_compaction m || existsb is_legacy l.
Proof using Type.
  induction l as [|item l IH]; intros m m'; cbn [materialize existsb]; [intros [= <-]; by rewrite orb_false_r|].
  destruct (materialize_step m item) as [m1| |] eqn:Es; [|done..]. intros Hm. rewrite (IH m1 m' Hm), orb_assoc. f_equal.
  destruct item as [|r|message [new|]|c|[n|id|id|id|mm|id title content|]]; cbn [materialize_step is_legacy] in *; rewrite ?orb_false_r, ?orb_true_r; try (by injection Es as <-).
  - destruct (record_items _ _ _); [|done..]. by injection Es as <-.
  - destruct (build_compacted_history _ _ _); [|done..]. by injection Es as <-.
  - destruct (drop_last_n_user_turns _ _ _ _); [|done..]. by injection Es as <-.
Qed.
(** C12: What a resumed session takes over follows the turns that are left. For a record written turn by turn ([entry_ok]: each
    turn with its start, its items and, unless it was cut off, its end, in between rollbacks, which take away the newest turns of
    the user and whatever came after them), whose rollbacks together fit into a word, the scan, reading backwards, counting the
    rollbacks down and stopping early, finds as base the newest checkpoint of a turn that is left, as settings those of the newest
    turn of the user that is left and has some, and as baseline that of the newest turn of the user that is left, or none
    when a compaction came after it. The history is replayed from that base over the suffix that the scan found; the
    resumed session has those settings, and that baseline unless the suffix holds an old-style compaction, which leaves it
    without one. *)
Theorem resume_follows_the_surviving_turns {E} (es : list entry) :
  Forall entry_ok es → (rolled_back es ≤ usize_max)%N →
  let st := replay_metadata (written es) in let left := survivors es in let suffix := drop (suffix_start st) (written es) in
  let settings := newest (λ t, if is_user_turn t then turn_settings t else None) left in
  let baseline := newest (λ t, match turn_reference t with
                               | Some Cleared => Some Cleared
                               | Some (Latest c) => if is_user_turn t then Some (Latest c) else None
                               | _ => None
                               end) left in
  (base_replacement_history st = newest turn_base left ∧ previous_turn_settings st = settings ∧ reference st = default NeverSet baseline) ∧
  ∀ r, reconstruct_history_from_rollout (E:=E) (written es) = Ok r →
    (∃ m, materialize (E:=E) (mk_materialized (match newest turn_base left with Some base => replace manager_new (sanitize_history base) | None => manager_new end) false [])
            suffix = Ok m ∧ history r = items (m_history m)) ∧
    r_previous_turn_settings r = settings ∧
    r_reference_context_item r = if existsb is_legacy suffix then None else match baseline with Some (Latest c) => Some c | _ => None end.
Proof using Type.
  intros Hok Hroll. cbn zeta. pose proof (scan_follows_survivors es Hok Hroll) as (Hb & Hp & Hr). split; [done|].
  intros r. unfold reconstruct_history_from_rollout. rewrite Hb, Hp, Hr. destruct (materialize _ _) as [m| |] eqn:Em; [|done..]. intros [= <-]. split; [by exists m|].
  split; [done|]. cbn. rewrite (materialize_legacy _ _ _ Em). cbn. destruct (existsb _ _); [done|]. by match goal with |- context [default NeverSet ?o] => destruct o as [[| |c]|] end.
Qed.
End record.

(** ** Some records *)
Module Demo.
Definition no_xml (text : rstring) : option (rstring * rstring) := None.
Definition no_json (text : rstring) : bool := false.
Definition say (text : string) : ResponseItem := user_message (lit text).
Definition context (id model : string) : TurnContextItem := mk_turn_context_item (Some (lit id)) (lit model) None tt.
Definition asked (id model : string) (texts : list string) (rest : list RolloutItem) : entry :=
  ETurn (mk_turn (lit id) (RTurnContext (context id model) :: (RResponseItem ∘ say <$> texts) ++ rest) EndComplete).
Definition kept (texts : list string) : @RolloutItem unit := RCompacted (lit "summary") (Some (say <$> texts)).
Abbreviation whole l := (materialize (E:=Empty_set) no_xml no_json (Tokens 1000) from_nothing l).
Abbreviation resumed l := (reconstruct_history_from_rollout (E:=Empty_set) no_xml no_json (Tokens 1000) l).
(** Two turns with their checkpoints, a third that is rolled back with its own, and a fourth. *)
Definition long : list (@entry unit) :=
  [asked "1" "a" ["one"] [kept ["one"; "sum 1"]]; asked "2" "b" ["two"] [kept ["one"; "two"; "sum 2"]];
   asked "3" "c" ["three"] []; ERollback 1; asked "4" "d" ["four"] []].
(** A turn of the program alone holds the newest checkpoint, so the scan goes on to an older one. *)
Definition background : list (@entry unit) :=
  [asked "1" "a" ["one"] [kept ["one"; "sum 1"]]; ETurn (mk_turn (lit "2") [kept ["sum 2"]] EndComplete)].
End Demo.
Import Demo.
Lemma resume_replays_the_record_witness :
  ∃ m r, whole (written long) = Ok m ∧ resumed (written long) = Ok r ∧ history r = items (m_history m) ∧
    history r = say <$> ["one"; "two"; "sum 2"; "four"].
Proof.
  destruct (whole (written long)) as [m| |] eqn:Em; [|by vm_compute in Em..].
  destruct (resume_replays_the_record no_xml no_json (Tokens 1000) (E:=Empty_set) (written long) m) as [H1 H2];
    [right; vm_compute; by eexists|exact Em|].
  destruct H1 as [r Hr]; [right; repeat constructor|].
  exists m, r. split_and!; [done|exact Hr|by apply H2|]. vm_compute in Hr. injection Hr as <-. reflexivity.
Defined.
Lemma resume_follows_the_surviving_turns_witness :
  base_replacement_history (replay_metadata no_xml no_json (written long)) = Some (say <$> ["one"; "two"; "sum 2"]) ∧
  ∃ r, resumed (written long) = Ok r ∧ r_previous_turn_settings r = Some (mk_previous (lit "d") None) ∧ r_reference_context_item r = Some (context "4" "d").
Proof.
  destruct (resume_follows_the_surviving_turns no_xml no_json (Tokens 1000) (E:=Empty_set) long) as [(H1 & _) H].
  - repeat constructor; by right.
  - vm_compute. congruence.
  - split; [rewrite H1; vm_compute; reflexivity|]. destruct (resumed (written long)) as [r| |] eqn:Er; [|by vm_compute in Er..].
    exists r. split; [done|]. destruct (H r eq_refl) as (_ & -> & ->). vm_compute. auto.
Defined.
(** An old-style compaction leaves the session without a baseline, even if turns came after it. *)
Example old_compactions_clear_the_baseline :
  let l := written [asked "1" "a" ["one"] [RCompacted (lit "sum") None]; asked "2" "b" ["two"] []] in
  reference (replay_metadata no_xml no_json l) = Latest (context "2" "b") ∧ ∃ r, resumed l = Ok r ∧ r_reference_context_item r = None.
Proof. vm_compute. split; [done|]. eexists; split; reflexivity. Qed.

(** ** What modelling showed *)
(** Rolling back the turn that was compacted loses the whole history: the scan has moved the start of the suffix behind the
    checkpoint by the time it skips the turn, and takes no base. *)
Example rollback_of_a_compacted_turn :
  let l := written [asked "1" "a" ["one"] []; asked "2" "b" ["two"] [kept ["one"; "two"; "sum"]]; ERollback 1] in
  (∃ m, whole l = Ok m ∧ items (m_history m) = say <$> ["one"; "two"]) ∧ (∃ r, resumed l = Ok r ∧ history r = []).
Proof. vm_compute. split; eexists; split; reflexivity. Qed.
(** A rollback takes one message of the user from the history, and all of the messages of a turn from the settings. *)
Example rollback_of_a_turn_with_two_messages :
  ∃ r, resumed (written [asked "1" "a" ["one"] []; asked "2" "b" ["two"; "three"] []; ERollback 1]) = Ok r ∧
    history r = say <$> ["one"; "two"] ∧ r_previous_turn_settings r = Some (mk_previous (lit "a") None).
Proof. vm_compute. eexists; split_and!; reflexivity. Qed.
(** A document that was presented before the newest checkpoint is not restored. *)
Example documents_before_the_checkpoint :
  let document := REventMsg (PresentDocument (lit "d") (lit "title") (lit "text")) in
  (∃ r, resumed (written [asked "1" "a" ["one"] [kept ["one"]]; asked "2" "a" ["two"] [document]]) = Ok r ∧ r_documents r ≠ []) ∧
  (∃ r, resumed (written [asked "1" "a" ["one"] [document; kept ["one"]]]) = Ok r ∧ r_documents r = []).
Proof. vm_compute. split; eexists; split; [reflexivity|congruence|reflexivity|reflexivity]. Qed.
(** The suffix can hold a checkpoint. *)
Example checkpoint_in_the_suffix :
  kept ["sum 2"] ∈ drop (suffix_start (replay_metadata no_xml no_json (written background))) (written background).
Proof. apply list_elem_of_In. vm_compute. auto. Qed.
