(* ===== verification/RolloutTruncate.v ===== *)
(** * Cutting a rollout for a fork ([core/src/thread_rollout_truncation.rs], [core/src/thread_manager.rs],
      [core/src/agent/control.rs])

    The indices of the messages and turns in a record, with its rollbacks applied; the prefix before the nth message of the
    user, the suffix with the last turns, and the items that a forked agent takes over. *)
From Stdlib Require Import Sorting.Sorted.
From stdpp Require Import sorting.
From S2P Require Import Prelude RustStr Utf8 Utf8Text Truncation ResponseItem ContextNormalize ContextManager Effects EventMapping CompactHistory RolloutReplay.

Section truncation.
Context {Settings : Type}.
Abbreviation item := (@RolloutItem Settings).
(** [inter_agent text]: whether a text is an envelope of the agents ([serde_json]), and its [trigger_turn]. *)
Context (from_xml : rstring → option (rstring * rstring)) (inter_agent : rstring → option bool).
Definition is_inter_agent_json (text : rstring) : bool := is_some (inter_agent text).
Abbreviation boundary := (is_user_turn_boundary from_xml is_inter_agent_json).

(** ** Boundaries *)
Definition is_real_user_message_boundary (i : ResponseItem) : bool :=
  match parse_turn_item from_xml [] i with Some (TUserMessage _ _) => true | _ => false end.
Definition from_message_content (content : list ContentItem) : option bool :=
  match content with [InputText text] | [OutText text] => inter_agent text | _ => None end.
Definition is_trigger_turn_boundary (i : ResponseItem) : bool :=
  match i with Message _ role content _ => bool_decide (role = lit "assistant") && default false (from_message_content content) | _ => false end.
Definition rollout_item_is_user_turn_boundary (i : item) : bool := match i with RResponseItem r => boundary r | _ => false end.
Inductive InitialHistory := New | Cleared | Resumed (conversation_id : rstring) (history : list item) (rollout_path : option rstring) | Forked (items : list item).
Definition scan_rollout_items (h : InitialHistory) (predicate : item → bool) : bool :=
  match h with New | Cleared => false | Resumed _ history _ => existsb predicate history | Forked items => existsb predicate items end.
Definition get_rollout_items (h : InitialHistory) : list item :=
  match h with New | Cleared => [] | Resumed _ history _ => history | Forked items => items end.
Definition initial_history_has_prior_user_turns (h : InitialHistory) : bool := scan_rollout_items h rollout_item_is_user_turn_boundary.

(** ** Indices *)
Definition user_step (user_positions : list nat) (idx : nat) (i : item) : list nat :=
  match i with
  | RResponseItem (Message _ _ _ _ as r) => if is_real_user_message_boundary r then user_positions ++ [idx] else user_positions
  | REventMsg (ThreadRolledBack num_turns) => take (length user_positions - N.to_nat num_turns) user_positions
  | _ => user_positions
  end.
Fixpoint user_loop (user_positions : list nat) (idx : nat) (items : list item) : list nat :=
  match items with [] => user_positions | i :: rest => user_loop (user_step user_positions idx i) (S idx) rest end.
Definition user_message_positions_in_rollout (items : list item) : list nat := user_loop [] 0 items.
Definition checked_sub (a b : nat) : option nat := if b <=? a then Some (a - b) else None.
Definition rollback_start (rollback_turn_positions : list nat) (num_turns : nat) : option nat :=
  match checked_sub (length rollback_turn_positions) num_turns with
  | Some start => rollback_turn_positions !! start
  | None => head rollback_turn_positions
  end.
(** [rollback_turn_positions] and [fork_turn_positions]. *)
Definition fork_step (st : list nat * list nat) (idx : nat) (i : item) : list nat * list nat :=
  let '(rollback, fork) := st in
  match i with
  | RResponseItem r =>
      (if boundary r then rollback ++ [idx] else rollback,
       if is_real_user_message_boundary r || is_trigger_turn_boundary r then fork ++ [idx] else fork)
  | REventMsg (ThreadRolledBack num_turns) =>
      if (num_turns =? 0)%N then st
      else
        match rollback_start rollback (N.to_nat num_turns) with
        | None => st
        | Some start => (take (length rollback - N.to_nat num_turns) rollback, List.filter (λ position, position <? start) fork)
        end
  | _ => st
  end.
Fixpoint fork_loop (st : list nat * list nat) (idx : nat) (items : list item) : list nat * list nat :=
  match items with [] => st | i :: rest => fork_loop (fork_step st idx i) (S idx) rest end.
Definition fork_turn_positions_in_rollout (items : list item) : list nat := (fork_loop ([], []) 0 items).2.

(** ** Cutting *)
Definition slice_to {E} (items : list item) (n : nat) : outcome E (list item) := if length items <? n then Panic else Ok (take n items).
Definition slice_from {E} (items : list item) (n : nat) : outcome E (list item) := if length items <? n then Panic else Ok (drop n items).
Definition truncate_rollout_before_nth_user_message_from_start {E} (items : list item) (n_from_start : N) : outcome E (list item) :=
  if (n_from_start =? usize_max)%N then Ok items
  else
    let user_positions := user_message_positions_in_rollout items in
    if (N.of_nat (length user_positions) <=? n_from_start)%N then Ok items
    else let? cut_idx := index user_positions (N.to_nat n_from_start) in slice_to items cut_idx.
Definition truncate_rollout_to_last_n_fork_turns {E} (items : list item) (n_from_end : N) : outcome E (list item) :=
  if (n_from_end =? 0)%N then Ok []
  else
    let fork_turn_positions := fork_turn_positions_in_rollout items in
    if (N.of_nat (length fork_turn_positions) <=? n_from_end)%N then Ok items
    else let? keep_idx := index fork_turn_positions (length fork_turn_positions - N.to_nat n_from_end) in slice_from items keep_idx.
(** [thread_manager.rs] *)
Record SnapshotTurnState := mk_snapshot {
  ends_mid_turn : bool; active_turn_id : option rstring; active_turn_start_index : option nat }.
Definition truncate_before_nth_user_message {E} (history : InitialHistory) (n : N) (snapshot_state : SnapshotTurnState) : outcome E InitialHistory :=
  let items := get_rollout_items history in
  let user_positions := user_message_positions_in_rollout items in
  let? rolled :=
    if ends_mid_turn snapshot_state && (N.of_nat (length user_positions) <=? n)%N then
      match match active_turn_start_index snapshot_state with Some i => Some i | None => last user_positions end with
      | Some cut_idx => slice_to items cut_idx
      | None => Ok items
      end
    else truncate_rollout_before_nth_user_message_from_start items n in
  Ok (match rolled with [] => New | _ => Forked rolled end).
(** The boundary that an interrupted turn leaves behind ([context/turn_aborted.rs], [tasks/mod.rs]). *)
Definition INTERRUPTED_GUIDANCE : rstring :=
  lit "The user interrupted the previous turn on purpose. Any running unified exec processes may still be running in the background. If any tools/commands were aborted, they may have partially executed.".
Definition INTERRUPTED_DEVELOPER_GUIDANCE : rstring :=
  lit "The previous turn was interrupted on purpose. Any running unified exec processes may still be running in the background. If any tools/commands were aborted, they may have partially executed.".
Definition render_turn_aborted (guidance : rstring) : rstring := lit "<turn_aborted>" ++ (newline :: guidance ++ [newline]) ++ lit "</turn_aborted>".
Inductive InterruptedTurnHistoryMarker := Disabled | ContextualUser | Developer.
Definition interrupted_turn_history_marker (marker : InterruptedTurnHistoryMarker) : option ResponseItem :=
  match marker with
  | Disabled => None
  | ContextualUser => Some (Message None (lit "user") [InputText (render_turn_aborted INTERRUPTED_GUIDANCE)] None)
  | Developer => Some (Message None (lit "developer") [InputText (render_turn_aborted INTERRUPTED_DEVELOPER_GUIDANCE)] None)
  end.
Definition append_interrupted_boundary (history : InitialHistory) (turn_id : option rstring) (interrupted_marker : InterruptedTurnHistoryMarker) : InitialHistory :=
  Forked (get_rollout_items history
    ++ match interrupted_turn_history_marker interrupted_marker with Some marker => [RResponseItem marker] | None => [] end
    ++ [REventMsg (TurnAborted turn_id)]).

(** ** What a forked agent takes over ([agent/control.rs]) *)
Definition keep_forked_rollout_item (i : item) (preserve_reference_context_item : bool) : bool :=
  match i with
  | RResponseItem (Message _ role _ phase) =>
      bool_decide (role = lit "system") || bool_decide (role = lit "developer") || bool_decide (role = lit "user")
      || (bool_decide (role = lit "assistant") && match phase with Some FinalAnswer => true | _ => false end)
  | RResponseItem _ => false
  | RTurnContext _ => preserve_reference_context_item
  | RCompacted _ _ | REventMsg _ | RSessionMeta => true
  end.
Definition is_multi_agent_v2_usage_hint_message (i : ResponseItem) (usage_hint_texts : list rstring) : bool :=
  match i with
  | Message _ role [InputText text] _ => bool_decide (role = lit "developer") && existsb (λ t, bool_decide (t = text)) usage_hint_texts
  | _ => false
  end.
Inductive SpawnAgentForkMode := FullHistory | LastNTurns (n : N).
Definition forked_item (preserve : bool) (hints : list rstring) (i : item) : option item :=
  if keep_forked_rollout_item i preserve
     && negb match i with RResponseItem r => is_multi_agent_v2_usage_hint_message r hints | _ => false end then
    Some match i with
         | RCompacted message (Some replacement_history) =>
             RCompacted message (Some (List.filter (λ r, negb (is_multi_agent_v2_usage_hint_message r hints)) replacement_history))
         | _ => i
         end
  else None.
(** [spawn_forked_thread]: [hints], the texts to filter; [child_hint], the text for the child where the feature is enabled. *)
Definition forked_rollout_items {E} (fork_mode : SpawnAgentForkMode) (hints : list rstring) (child_hint : option rstring) (parent_history : list item) :
    outcome E (list item) :=
  let? items := match fork_mode with FullHistory => Ok parent_history | LastNTurns n => truncate_rollout_to_last_n_fork_turns parent_history n end in
  let preserve := match fork_mode with FullHistory => true | LastNTurns _ => false end in
  Ok (omap (forked_item preserve hints) items
        ++ match child_hint with
           | Some text => if preserve then [RResponseItem (Message None (lit "developer") [InputText text] None)] else []
           | None => []
           end).

(** ** Lemmas: indices *)
Lemma user_loop_snoc l : ∀ ps idx i, user_loop ps idx (l ++ [i]) = user_step (user_loop ps idx l) (idx + length l) i.
Proof using Type.
  induction l as [|j l IH]; intros ps idx i; cbn [app user_loop length]; [by rewrite Nat.add_0_r|]. rewrite IH. f_equal. lia.
Qed.
Lemma user_positions_snoc l i :
  user_message_positions_in_rollout (l ++ [i]) = user_step (user_message_positions_in_rollout l) (length l) i.
Proof using Type. apply user_loop_snoc. Qed.
Lemma fork_loop_snoc l : ∀ st idx i, fork_loop st idx (l ++ [i]) = fork_step (fork_loop st idx l) (idx + length l) i.
Proof using Type.
  induction l as [|j l IH]; intros st idx i; cbn [app fork_loop length]; [by rewrite Nat.add_0_r|]. rewrite IH. f_equal. lia.
Qed.
Lemma fork_loop_app l l' : ∀ st idx, fork_loop st idx (l ++ l') = fork_loop (fork_loop st idx l) (idx + length l) l'.
Proof using Type.
  induction l as [|j l IH]; intros st idx; cbn [app fork_loop length]; [by rewrite Nat.add_0_r|]. rewrite IH. f_equal. lia.
Qed.
(** A message that survives has exactly the surviving messages before it that survive at its time. *)
Lemma user_positions_stack l : ∀ n p, user_message_positions_in_rollout l !! n = Some p →
  p < length l ∧ user_message_positions_in_rollout (take p l) = take n (user_message_positions_in_rollout l) ∧
  ∃ r, l !! p = Some (RResponseItem r) ∧ is_real_user_message_boundary r = true.
Proof using Type.
  induction l as [|i l IH] using rev_ind; intros n p; [done|]. rewrite user_positions_snoc, length_app. cbn [length].
  assert (∀ qs m, take m qs !! n = Some p → (∀ n p, qs !! n = Some p →
    p < length l ∧ user_message_positions_in_rollout (take p l) = take n qs ∧
    ∃ r, l !! p = Some (RResponseItem r) ∧ is_real_user_message_boundary r = true) →
    p < length l + 1 ∧ user_message_positions_in_rollout (take p (l ++ [i])) = take n (take m qs) ∧
    ∃ r, (l ++ [i]) !! p = Some (RResponseItem r) ∧ is_real_user_message_boundary r = true) as Hkeep.
  { intros qs m Hn H. apply lookup_take_Some in Hn as [Hn Hm]. destruct (H _ _ Hn) as (Hp & Hq & r & Hr & Hb).
    split; [lia|]. rewrite take_app_le, take_take, Nat.min_l by lia. split; [done|]. exists r. by rewrite lookup_app_l. }
  set (qs := user_message_positions_in_rollout l) in *.
  assert (qs !! n = Some p → _) as Hsame by (intros Hn; specialize (Hkeep qs (length qs)); rewrite firstn_all in Hkeep; exact (Hkeep Hn IH)).
  destruct i as [|r|? ?|?|[]]; cbn [user_step]; try exact Hsame; [|by intros Hn; apply Hkeep].
  destruct r; try exact Hsame. destruct (is_real_user_message_boundary _) eqn:Er; [|exact Hsame].
  destruct (decide (n < length qs)) as [Hlt|Hge].
  - rewrite lookup_app_l by done. intros Hn. rewrite (take_app_le qs) by lia. by apply Hsame.
  - rewrite lookup_app_r by lia. destruct (n - length qs) as [|k] eqn:Ek; [|by destruct k]. intros [= <-]. split; [lia|].
    rewrite take_app_length, (take_app_le qs), take_ge by lia. split; [done|]. eexists. split; [by apply list_lookup_middle|done].
Qed.

(** ** Lemmas: the turns of a suffix *)
Abbreviation fork_positions l := (fork_loop ([], []) 0 l).
Definition is_fork_boundary (r : ResponseItem) : bool := is_real_user_message_boundary r || is_trigger_turn_boundary r.
Lemma rollback_start_spec (ps : list nat) n : 0 < n → rollback_start ps n = ps !! (length ps - n).
Proof using Type.
  intros Hn. unfold rollback_start, checked_sub. destruct (Nat.leb_spec n (length ps)); [done|]. replace (length ps - n) with 0 by lia. by destruct ps.
Qed.
Lemma filter_map_comm {A B} (f : A → B) (p : B → bool) l : List.filter p (f <$> l) = f <$> List.filter (p ∘ f) l.
Proof using Type. induction l as [|x l IH]; [done|]. cbn. rewrite IH. by destruct (p (f x)). Qed.
Lemma filter_keeps_all {A} (p : A → bool) l : Forall (λ x, p x = true) l → List.filter p l = l.
Proof using Type. induction 1 as [|x l Hx _ IH]; [done|]. cbn. by rewrite Hx, IH. Qed.
Lemma elem_of_filter_bool {A} (p : A → bool) l x : x ∈ List.filter p l ↔ x ∈ l ∧ p x = true.
Proof using Type. rewrite !list_elem_of_In. apply filter_In. Qed.
Lemma filter_empty_bool {A} (p : A → bool) l : (∀ x, x ∈ l → p x = false) → List.filter p l = [].
Proof using Type. induction l as [|x l IH]; intros H; [done|]. cbn. rewrite (H x) by left. apply IH. intros y Hy. apply H. by right. Qed.
Lemma filter_ext_bool {A} (p q : A → bool) l : (∀ x, x ∈ l → p x = q x) → List.filter p l = List.filter q l.
Proof using Type. induction l as [|x l IH]; intros H; [done|]. cbn. rewrite (H x), IH by (left || (intros y Hy; apply H; by right)). done. Qed.
Lemma filter_comm_bool {A} (p q : A → bool) l : List.filter p (List.filter q l) = List.filter q (List.filter p l).
Proof using Type. induction l as [|x l IH]; [done|]. cbn. destruct (p x) eqn:Ep, (q x) eqn:Eq; cbn; rewrite ?Ep, ?Eq, IH; done. Qed.
Lemma StronglySorted_filter_bool (p : nat → bool) l : StronglySorted lt l → StronglySorted lt (List.filter p l).
Proof using Type.
  induction 1 as [|x l Hs IH Hx]; [constructor|]. cbn. destruct (p x); [|done]. constructor; [done|]. rewrite Forall_forall in Hx |- *.
  intros y [Hy _]%elem_of_filter_bool. by apply Hx.
Qed.
Definition turns_ok (l : list item) (st : list nat * list nat) : Prop :=
  Forall (λ p, p < length l) st.1 ∧ StronglySorted lt st.2 ∧
  Forall (λ p, p < length l ∧ ∃ r, l !! p = Some (RResponseItem r) ∧ is_fork_boundary r = true) st.2.
Lemma fork_turns_ok l : turns_ok l (fork_positions l).
Proof using Type.
  induction l as [|i l IH] using rev_ind; [by repeat constructor|]. rewrite fork_loop_snoc. cbn [Nat.add]. destruct (fork_positions l) as [ps qs].
  destruct IH as (H1 & H2 & H3); cbn [fst snd] in *. assert (length (l ++ [i]) = S (length l)) as El by (rewrite length_app; cbn; lia).
  assert (Forall (λ p, p < length (l ++ [i])) ps) as H1' by (eapply Forall_impl; [exact H1|]; cbn; lia).
  assert (Forall (λ p, p < length (l ++ [i]) ∧ ∃ r, (l ++ [i]) !! p = Some (RResponseItem r) ∧ is_fork_boundary r = true) qs) as H3'.
  { eapply Forall_impl; [exact H3|]. cbn. intros p (Hp & r & Hr & Hb). split; [lia|]. exists r. by rewrite lookup_app_l. }
  destruct i as [|r|? ?|?|[n|?|?|?|?|? ? ?|]]; cbn [fork_step]; try done.
  - split_and!; cbn [fst snd].
    + case_match; [|done]. apply Forall_app. split; [done|]. rewrite Forall_singleton. lia.
    + case_match; [|done]. apply StronglySorted_app_2; [|done|repeat constructor]. intros x y Hx Hy. apply list_elem_of_singleton in Hy as ->.
      rewrite Forall_forall in H3. by apply H3.
    + case_match eqn:Eb; [|done]. apply Forall_app. split; [done|]. rewrite Forall_singleton. split; [lia|]. exists r. by rewrite lookup_app_r, Nat.sub_diag by lia.
  - destruct (n =? 0)%N; [done|]. destruct (rollback_start _ _); [|done]. split_and!; cbn [fst snd]; [by apply Forall_take|by apply StronglySorted_filter_bool|].
    rewrite Forall_forall in H3' |- *. intros p [Hp _]%elem_of_filter_bool. by apply H3'.
Qed.
Definition shifted (k : nat) (st0 st : list nat * list nat) : list nat * list nat := (st0.1 ++ (Nat.add k <$> st.1), st0.2 ++ (Nat.add k <$> st.2)).
(** A step that keeps the turn [k] has no business with what is below it. *)
Lemma fork_step_shift k st0 st idx i : Forall (λ p, p < k) st0.1 → Forall (λ p, p < k) st0.2 →
  k ∈ (fork_step (shifted k st0 st) (k + idx) i).2 → fork_step (shifted k st0 st) (k + idx) i = shifted k st0 (fork_step st idx i).
Proof using Type.
  destruct st0 as [r0 f0], st as [r f]. unfold shifted. cbn [fst snd]. intros Hr Hf. destruct i as [|m|? ?|?|[n|?|?|?|?|? ? ?|]]; cbn [fork_step]; try done.
  - intros _. destruct (is_user_turn_boundary _ _ m), (is_real_user_message_boundary m || _); cbn [fst snd]; by rewrite ?fmap_app, ?app_assoc.
  - destruct (N.eqb_spec n 0) as [|Hn]; [done|]. rewrite !rollback_start_spec by lia. set (n' := N.to_nat n). assert (0 < n') as Hn' by lia.
    rewrite length_app, length_fmap. set (j := length r0 + length r - n'). destruct (_ !! j) as [start|] eqn:Es; cbn [fst snd].
    + intros Hk. apply elem_of_filter_bool in Hk as [_ Hk%Nat.ltb_lt].
      destruct (decide (j < length r0)) as [Hj|Hj].
      { rewrite lookup_app_l in Es by done. apply (Forall_lookup_1 _ _ _ _ Hr) in Es. cbn in Es. lia. }
      rewrite lookup_app_r, list_lookup_fmap in Es by lia. replace (length r - n') with (j - length r0) by lia.
      destruct (r !! (j - length r0)) as [s|]; [|done]. injection Es as <-. cbn [fst snd]. rewrite take_app_ge, fmap_take by lia. f_equal.
      rewrite List.filter_app, filter_map_comm. f_equal.
      * apply filter_keeps_all. eapply Forall_impl; [exact Hf|]. cbn. intros p Hp. apply Nat.ltb_lt. lia.
      * f_equal. apply List.filter_ext. intros p. unfold compose. apply eq_true_iff_eq. rewrite !Nat.ltb_lt. lia.
    + intros _. apply lookup_ge_None in Es. rewrite length_app, length_fmap in Es. destruct r; [done|]. cbn [length] in *. lia.
Qed.
Lemma fork_suffix pre rest : length pre ∈ (fork_positions (pre ++ rest)).2 →
  fork_positions (pre ++ rest) = shifted (length pre) (fork_positions pre) (fork_positions rest).
Proof using Type.
  pose proof (fork_turns_ok pre) as (Hr & _ & Hf). induction rest as [|i rest IH] using rev_ind.
  { intros _. rewrite app_nil_r. unfold shifted. cbn. rewrite !app_nil_r. by destruct (fork_positions pre). }
  rewrite app_assoc, !fork_loop_snoc. cbn [Nat.add]. rewrite length_app. intros Hk.
  assert (fork_positions (pre ++ rest) = shifted (length pre) (fork_positions pre) (fork_positions rest)) as E.
  { destruct rest as [|j rest']; [|].
    { rewrite app_nil_r. unfold shifted. cbn. rewrite !app_nil_r. by destruct (fork_positions pre). }
    apply IH. set (st := fork_positions (pre ++ j :: rest')) in *. destruct st as [ps qs]. cbn [length] in Hk.
    destruct i as [|r|? ?|?|[n|?|?|?|?|? ? ?|]]; cbn [fork_step] in Hk; try done.
    - cbn [snd] in Hk |- *. case_match; [|done]. apply elem_of_app in Hk as [Hk|Hk]; [done|]. apply list_elem_of_singleton in Hk. lia.
    - destruct (n =? 0)%N; [done|]. destruct (rollback_start _ _); [|done]. cbn in Hk |- *. by apply elem_of_filter_bool in Hk as [Hk _]. }
  rewrite E in Hk |- *. apply fork_step_shift; [done| |done]. eapply Forall_impl; [exact Hf|]. cbn. tauto.
Qed.

(** ** Lemmas: the indices and the history *)
Section history.
Context (policy : TruncationPolicy).
Definition at_indices (l : list item) (ps : list nat) : list (option item) := (λ p, l !! p) <$> ps.
Definition instructions (h : list ResponseItem) : list (option item) := (λ r, Some (RResponseItem r)) <$> List.filter boundary h.
Lemma at_indices_snoc l i ps : Forall (λ p, p < length l) ps → at_indices (l ++ [i]) ps = at_indices l ps.
Proof using Type. intros Hps. apply list_fmap_ext. intros k p Hp. apply (Forall_lookup_1 _ _ _ _ Hps) in Hp. cbn in Hp. by rewrite lookup_app_l. Qed.
Lemma instructions_app h h' : instructions (h ++ h') = instructions h ++ instructions h'.
Proof using Type. unfold instructions. by rewrite List.filter_app, fmap_app. Qed.
Lemma instructions_none h : Forall (λ r, boundary r = false) h → instructions h = [].
Proof using Type. unfold instructions. induction 1 as [|r h Hr _ IH]; [done|]. cbn. by rewrite Hr. Qed.
Lemma recorded_instructions {E} r (h h' : ContextManager (@TurnContextItem Settings)) :
  record_items (E:=E) h [sanitize_stale_file_references r] policy = Ok h' →
  instructions (items h') = instructions (items h) ++ instructions [r].
Proof using Type.
  unfold sanitize_stale_file_references. cbn [record_items]. destruct (is_api_message r) eqn:Ea; cbn [negb].
  - destruct (process_item r policy) as [r'| |] eqn:Er; [|done..]. cbn. intros [= <-]. cbn [items set_items]. rewrite instructions_app. f_equal.
    destruct r; cbn in Er; try (by injection Er as <-); destruct (truncate_function_output_payload _ _) as [o| |]; try done; by injection Er as <-.
  - intros [= <-]. rewrite (instructions_none [r]), app_nil_r; [done|]. rewrite Forall_singleton. destruct r; try done. cbn in Ea |- *.
    repeat case_bool_decide; subst; done.
Qed.
Lemma rolled_back_instructions {E} n (h h' : ContextManager (@TurnContextItem Settings)) :
  drop_last_n_user_turns (E:=E) from_xml is_inter_agent_json h n = Ok h' →
  instructions (items h') = take (length (instructions (items h)) - n) (instructions (items h)).
Proof using Type.
  destruct (rollback_spec from_xml is_inter_agent_json (E:=E) h n) as (h'' & -> & H0 & Hnone & Hsome). intros [= ->].
  assert (∀ l, length (instructions l) = turns from_xml is_inter_agent_json l) as Hlen by (intros l; unfold instructions; by rewrite length_fmap).
  destruct (decide (n = 0)) as [->|Hn]; [rewrite H0, take_ge by (done || lia); done|].
  destruct (decide (turns from_xml is_inter_agent_json (items h) = 0)) as [Ht|Ht].
  { rewrite (Hnone Hn Ht). cbn [items bump]. rewrite Hlen, Ht. specialize (Hlen (items h)). rewrite Ht in Hlen. by destruct (instructions (items h)). }
  destruct (Hsome Hn Ht) as (trimmed & dropped & E1 & Hk & Htrim & _). rewrite Hlen, <- Hk, E1, !instructions_app, (instructions_none trimmed).
  2: { eapply Forall_impl; [exact Htrim|]. intros r. apply trimmable_not_boundary. }
  cbn [app]. rewrite <- Hlen. by rewrite take_app_length.
Qed.
Definition keeps_history (i : item) : Prop := match i with RCompacted _ _ => False | _ => True end.
Lemma history_instructions {E} l : Forall keeps_history l → ∀ m, materialize (E:=E) from_xml is_inter_agent_json policy from_nothing l = Ok m →
  at_indices l (fork_positions l).1 = instructions (items (m_history m)).
Proof using Type.
  induction l as [|i l IH] using rev_ind; intros Hl m; [by intros [= <-]|]. apply Forall_app in Hl as [Hl Hi]. rewrite Forall_singleton in Hi.
  rewrite materialize_app. destruct (materialize _ _ _ from_nothing l) as [m0| |] eqn:E0; [|done..]. specialize (IH Hl m0 eq_refl). cbn [mbind outcome_bind].
  rewrite fork_loop_snoc. cbn [Nat.add]. destruct (fork_turns_ok l) as (Hlt & _ & _). destruct (fork_positions l) as [ps qs]. cbn [fst snd] in *.
  assert (at_indices (l ++ [i]) ps = instructions (items (m_history m0))) as Hsame by (by rewrite at_indices_snoc).
  cbn [materialize]. destruct i as [|r|? ?|?|[n|?|?|?|?|? ? ?|]]; cbn [materialize_step fork_step]; try done;
    try (by cbn; intros [= <-]).
  - destruct (record_items _ _ _) as [h| |] eqn:Er; [|done..]. cbn. intros [= <-]. cbn. rewrite (recorded_instructions r (m_history m0)) by done. rewrite <- Hsame.
    unfold instructions. cbn. destruct (boundary r); cbn; [|by rewrite app_nil_r]. unfold at_indices. rewrite fmap_app. cbn.
    by rewrite lookup_app_r, Nat.sub_diag by lia.
  - destruct (drop_last_n_user_turns _ _ _ _) as [h| |] eqn:Er; [|done..]. cbn. intros [= <-]. cbn. rewrite (rolled_back_instructions _ _ _ Er), <- Hsame.
    unfold at_indices. rewrite length_fmap. destruct (N.eqb_spec n 0) as [->|Hn]; cbn [fst].
    { by rewrite take_ge by (rewrite length_fmap; lia). }
    rewrite rollback_start_spec by lia. destruct (ps !! _) eqn:Ep; cbn [fst]; [by rewrite fmap_take|]. apply lookup_ge_None in Ep.
    destruct ps; [done|]. cbn [length] in Ep. lia.
Qed.
Definition no_envelope (i : item) : Prop := match i with RResponseItem r => boundary r = is_real_user_message_boundary r | _ => True end.
Lemma user_is_rollback l : Forall no_envelope l → user_message_positions_in_rollout l = (fork_positions l).1.
Proof using Type.
  induction l as [|i l IH] using rev_ind; intros Hl; [done|]. apply Forall_app in Hl as [Hl Hi]. rewrite Forall_singleton in Hi.
  rewrite user_positions_snoc, fork_loop_snoc, IH by done. cbn [Nat.add]. destruct (fork_positions l) as [ps qs]. cbn [fst].
  destruct i as [|r|? ?|?|[n|?|?|?|?|? ? ?|]]; cbn [user_step fork_step fst]; try done.
  - cbn in Hi. rewrite Hi. by destruct r as [| | | | | | | | |? ? [?|]| | | | |].
  - destruct (N.eqb_spec n 0) as [->|Hn]; [by rewrite take_ge by lia|]. rewrite rollback_start_spec by lia. destruct (ps !! _) eqn:Ep; [done|].
    apply lookup_ge_None in Ep. destruct ps; [done|]. cbn [length] in Ep. lia.
Qed.

(** What opens a turn for a fork opens one for a rollback. *)
Lemma fork_boundary_rollback r : is_fork_boundary r = true → boundary r = true.
Proof using Type.
  unfold is_fork_boundary. intros [Hu|Ht]%orb_true_iff.
  - assert (is_Some (user_text from_xml r)) as (id & content & phase & -> & Hc)%user_text_spec; [|cbn; by rewrite Hc].
    unfold is_real_user_message_boundary in Hu. unfold user_text. destruct (parse_turn_item _ _ _) as [[]|]; done.
  - destruct r as [id role content phase| | | | | | | | | | | | | |]; try done. cbn in *. apply andb_prop in Ht as [-> Ht]. apply orb_true_iff. right. cbn.
    unfold from_message_content in Ht. unfold is_inter_agent_instruction_content, is_inter_agent_json.
    destruct content as [|[] [|]]; try done; by destruct (inter_agent _).
Qed.
Lemma below_is_take (ps : list nat) : ∀ k start, StronglySorted lt ps → ps !! k = Some start → List.filter (λ p, p <? start) ps = take k ps.
Proof using Type.
  induction ps as [|p ps IH]; intros k start Hs Hk; [done|]. apply StronglySorted_cons in Hs as [Hp Hs]. rewrite Forall_forall in Hp. cbn [List.filter].
  destruct k as [|k]; cbn [lookup list_lookup take] in Hk |- *.
  - injection Hk as ->. rewrite Nat.ltb_irrefl. apply filter_empty_bool. intros q Hq%Hp. apply Nat.ltb_ge. lia.
  - rewrite (IH k start Hs Hk). apply list_elem_of_lookup_2 in Hk. apply Hp in Hk. by rewrite (proj2 (Nat.ltb_lt _ _) Hk).
Qed.
Definition opens_fork (l : list item) (p : nat) : bool := match l !! p with Some (RResponseItem r) => is_fork_boundary r | _ => false end.
(** The turns of a fork are those turns of the rollbacks that open one. *)
Lemma fork_is_filter l : StronglySorted lt (fork_positions l).1 ∧ (fork_positions l).2 = List.filter (opens_fork l) (fork_positions l).1.
Proof using Type.
  induction l as [|i l IH] using rev_ind; [by repeat constructor|]. rewrite fork_loop_snoc. cbn [Nat.add]. destruct (fork_turns_ok l) as (Hlt & _ & _).
  destruct (fork_positions l) as [ps qs]. cbn [fst snd] in *. destruct IH as [Hs Hq].
  assert (List.filter (opens_fork (l ++ [i])) ps = qs) as Hsame.
  { rewrite Hq. apply filter_ext_bool. intros p Hp. rewrite Forall_forall in Hlt. unfold opens_fork. by rewrite lookup_app_l by auto. }
  destruct i as [|r|? ?|?|[n|?|?|?|?|? ? ?|]]; cbn [fork_step]; try done.
  - cbn [fst snd]. fold (is_fork_boundary r). assert (opens_fork (l ++ [RResponseItem r]) (length l) = is_fork_boundary r) as Ho
      by (unfold opens_fork; by rewrite lookup_app_r, Nat.sub_diag by lia).
    destruct (is_user_turn_boundary _ _ r) eqn:Eb.
    + split; [apply StronglySorted_app_2; [|done|repeat constructor]; intros x y Hx Hy; apply list_elem_of_singleton in Hy as ->; rewrite Forall_forall in Hlt; by apply Hlt|].
      rewrite List.filter_app, Hsame. cbn. rewrite Ho. by destruct (is_fork_boundary r); rewrite ?app_nil_r.
    + destruct (is_fork_boundary r) eqn:Ef; [apply fork_boundary_rollback in Ef; congruence|]. by rewrite Hsame.
  - destruct (n =? 0)%N eqn:En; [done|]. apply N.eqb_neq in En. rewrite rollback_start_spec by lia. destruct (ps !! _) as [start|] eqn:Ep; [|done]. cbn [fst snd].
    rewrite <- (below_is_take _ _ _ Hs Ep). split; [by apply StronglySorted_filter_bool|]. rewrite <- Hsame. apply filter_comm_bool.
Qed.
Definition fork_turns (h : list ResponseItem) : list (option item) := (λ r, Some (RResponseItem r)) <$> List.filter is_fork_boundary h.
Lemma filtered_indices l ps h : at_indices l ps = instructions h →
  at_indices l (List.filter (opens_fork l) ps) = (λ r, Some (RResponseItem r)) <$> List.filter is_fork_boundary h.
Proof using Type.
  unfold instructions. assert (List.filter is_fork_boundary h = List.filter is_fork_boundary (List.filter boundary h)) as ->.
  { induction h as [|r h IH]; [done|]. cbn. destruct (is_fork_boundary r) eqn:Ef; [rewrite (fork_boundary_rollback r Ef); cbn; rewrite Ef; by f_equal|].
    destruct (is_user_turn_boundary _ _ r); cbn; [by rewrite Ef|done]. }
  generalize (List.filter boundary h) as hs. induction ps as [|p ps IH]; intros [|r hs]; try done. intros [= Hp Hps]. specialize (IH hs Hps).
  cbn [List.filter]. unfold opens_fork at 1. rewrite Hp. destruct (is_fork_boundary r); [|exact IH]. cbn. rewrite Hp. by f_equal.
Qed.
(** C15: The indices that a fork counts by are those of the history a resumed session has. For a record without compactions
    (a compaction replaces the history, and the indices stay) whose replay succeeds, the items at the surviving indices of
    fork turns, with recorded messages and rollbacks in any order, rollbacks beyond the first turn included, are, one for one
    and in order, the messages of the rebuilt history that open a turn of a fork: those of the user, and the envelopes of other
    agents that ask for a turn. So are the indices that rollbacks count by, the messages that open any turn. And
    where the record has no envelope of another agent ([envelopes_are_not_counted]), the messages of the user in the
    history are those that [user_message_positions_in_rollout] lists. *)
Theorem indices_follow_the_history {E} (l : list item) (m : Materialized) :
  Forall keeps_history l → materialize (E:=E) from_xml is_inter_agent_json policy from_nothing l = Ok m →
  at_indices l (fork_turn_positions_in_rollout l) = fork_turns (items (m_history m)) ∧
  at_indices l (fork_positions l).1 = instructions (items (m_history m)) ∧
  (Forall no_envelope l → at_indices l (user_message_positions_in_rollout l) = instructions (items (m_history m))).
Proof using Type.
  intros Hl Hm. pose proof (history_instructions l Hl m Hm) as H. split_and!; [|exact H|intros Hno; by rewrite user_is_rollback].
  unfold fork_turn_positions_in_rollout, fork_turns. rewrite (proj2 (fork_is_filter l)). apply filtered_indices, H.
Qed.
End history.

(** The prefix before a message of the user is a record of exactly the messages before it: cutting always succeeds,
    gives a prefix that ends right before the message asked for, and the surviving messages of that prefix are the first
    [n] surviving messages of the record, at the same indices, whatever was rolled back before or after the cut. A number
    out of range keeps the record as it is. *)
Theorem first_messages_are_kept {E} (l : list item) (n : N) :
  ∃ kept, truncate_rollout_before_nth_user_message_from_start (E:=E) l n = Ok kept ∧
  let positions := user_message_positions_in_rollout l in
  if bool_decide (n ≠ usize_max ∧ (n < N.of_nat (length positions))%N) then
    kept `prefix_of` l ∧ positions !! N.to_nat n = Some (length kept) ∧
    (∃ r, l !! length kept = Some (RResponseItem r) ∧ is_real_user_message_boundary r = true) ∧
    user_message_positions_in_rollout kept = take (N.to_nat n) positions
  else kept = l.
Proof using Type.
  cbn zeta. unfold truncate_rollout_before_nth_user_message_from_start. destruct (N.eqb_spec n usize_max) as [->|Hn].
  { exists l. split; [done|]. by rewrite bool_decide_eq_false_2 by naive_solver. }
  set (ps := user_message_positions_in_rollout l). destruct (N.leb_spec (N.of_nat (length ps)) n).
  { exists l. split; [done|]. rewrite bool_decide_eq_false_2; [done|]. lia. }
  rewrite bool_decide_eq_true_2 by done. destruct (lookup_lt_is_Some_2 ps (N.to_nat n)) as [p Hp]; [lia|].
  destruct (user_positions_stack l _ _ Hp) as (Hlt & Hq & r & Hr & Hb). unfold index, slice_to. rewrite Hp. cbn [mbind outcome_bind].
  destruct (Nat.ltb_spec (length l) p); [lia|]. exists (take p l). split; [done|]. rewrite length_take_le by lia.
  split_and!; [by apply prefix_take|done|by exists r|exact Hq].
Qed.

(** C14: The suffix with the last turns is a record of exactly those turns: cutting always succeeds, and the surviving turns
    of the suffix, counted from its start with the rollbacks it contains, are the last [n] surviving turns of the record
    (all of them when there are no more), so no rollback in the suffix reaches a turn that it does not hold, nor spares
    one. A suffix that is cut begins with the message that opens its first turn. *)
Theorem last_turns_are_kept {E} (l : list item) (n : N) :
  ∃ kept, truncate_rollout_to_last_n_fork_turns (E:=E) l n = Ok kept ∧ kept `suffix_of` l ∧
  let turns := fork_turn_positions_in_rollout l in
  fork_turn_positions_in_rollout kept = (λ p, p - (length l - length kept)) <$> drop (length turns - N.to_nat n) turns ∧
  (n = 0%N → kept = []) ∧
  (n ≠ 0%N → (N.of_nat (length turns) ≤ n)%N → kept = l) ∧
  (n ≠ 0%N → (n < N.of_nat (length turns))%N → ∃ r rest, kept = RResponseItem r :: rest ∧ is_fork_boundary r = true).
Proof using Type.
  cbn zeta. unfold truncate_rollout_to_last_n_fork_turns, fork_turn_positions_in_rollout. destruct (N.eqb_spec n 0) as [->|Hn].
  { exists []. split_and!; try done. - apply suffix_nil. - by rewrite drop_ge by lia. }
  destruct (N.leb_spec (N.of_nat (length (fork_positions l).2)) n) as [Hle|Hlt].
  { exists l. split_and!; try done; [|lia]. replace (length (fork_positions l).2 - N.to_nat n) with 0 by lia. rewrite Nat.sub_diag. cbn.
    symmetry. etransitivity; [|apply list_fmap_id]. apply list_fmap_ext. intros. cbn. lia. }
  set (j := length (fork_positions l).2 - N.to_nat n). destruct (lookup_lt_is_Some_2 (fork_positions l).2 j) as [k Hk]; [lia|].
  pose proof (fork_turns_ok l) as (_ & Hsorted & Hbound). destruct (Forall_lookup_1 _ _ _ _ Hbound Hk) as (Hkl & r & Hr & Hb).
  unfold index, slice_from. rewrite Hk. cbn [mbind outcome_bind]. destruct (Nat.ltb_spec (length l) k); [lia|].
  exists (drop k l). split; [done|]. split; [by apply suffix_drop|]. rewrite length_drop. replace (length l - (length l - k)) with k by lia.
  split_and!; [|done|lia|].
  2: { intros _ _. exists r. rewrite (drop_S l _ _ Hr). by eexists. }
  assert (length (take k l) = k) as Ek by (rewrite length_take_le; lia). pose proof (fork_suffix (take k l) (drop k l)) as Hs.
  rewrite take_drop, Ek in Hs. specialize (Hs (list_elem_of_lookup_2 _ _ _ Hk)). pose proof (fork_turns_ok (take k l)) as (_ & _ & Hbelow).
  rewrite Ek in Hbelow. destruct (fork_positions (take k l)) as [r0 f0], (fork_positions (drop k l)) as [r1 f1]. unfold shifted in Hs. cbn [fst snd] in *.
  rewrite Hs in Hk, Hsorted |- *. cbn [snd] in *. assert (j = length f0) as ->; [|rewrite drop_app_length].
  - destruct (decide (j < length f0)) as [Hj|Hj].
    { rewrite lookup_app_l in Hk by done. destruct (Forall_lookup_1 _ _ _ _ Hbelow Hk) as [Hlt' _]. lia. }
    rewrite lookup_app_r, list_lookup_fmap in Hk by lia. destruct (j - length f0) as [|i] eqn:Ei; [lia|]. exfalso.
    apply StronglySorted_app_1_r in Hsorted. destruct f1 as [|x f1]; [done|]. cbn in Hk, Hsorted. apply StronglySorted_cons in Hsorted as [Hx _].
    destruct (f1 !! i) as [y|] eqn:Ey; [|done]. injection Hk as Hk. assert (y = 0) as -> by lia. rewrite Forall_fmap in Hx.
    apply (Forall_lookup_1 _ _ _ _ Hx) in Ey. cbn in Ey. lia.
  - rewrite <- list_fmap_compose. symmetry. etransitivity; [|apply list_fmap_id]. apply list_fmap_ext. intros. unfold compose. cbn. lia.
Qed.
End truncation.

(** ** Some records *)
Module Forks.
Import Demo.
(** An envelope is the text "trigger" or "note"; only the first one starts a turn. *)
Definition inter_agent (text : rstring) : option bool :=
  if bool_decide (text = lit "trigger") then Some true else if bool_decide (text = lit "note") then Some false else None.
Definition envelope (text : string) : ResponseItem := Message None (lit "assistant") [OutText (lit text)] (Some Commentary).
Definition rolled : list (@RolloutItem unit) :=
  [RResponseItem (say "one"); RResponseItem (say "two"); REventMsg (ThreadRolledBack 1); RResponseItem (say "three"); RResponseItem (say "four")].
Definition sent : list (@RolloutItem unit) := [RResponseItem (say "one"); RResponseItem (envelope "trigger"); REventMsg (ThreadRolledBack 1)].
Abbreviation replayed l := (materialize (E:=Empty_set) no_xml (is_inter_agent_json inter_agent) (Tokens 1000) from_nothing l).
Example indices_of_rolled :
  user_message_positions_in_rollout no_xml rolled = [0; 3; 4] ∧
  truncate_rollout_before_nth_user_message_from_start (E:=Empty_set) no_xml rolled 1 = Ok (take 3 rolled) ∧
  truncate_rollout_to_last_n_fork_turns (E:=Empty_set) no_xml inter_agent rolled 2 = Ok (drop 3 rolled).
Proof. vm_compute. done. Qed.
End Forks.
Import Forks Demo.
Definition mixed : list (@RolloutItem unit) :=
  [RResponseItem (say "one"); RResponseItem (envelope "note"); RResponseItem (envelope "trigger"); RResponseItem (say "two"); REventMsg (ThreadRolledBack 1)].
Lemma indices_follow_the_history_witness : ∃ m, replayed mixed = Ok m ∧ fork_turn_positions_in_rollout no_xml inter_agent mixed = [0; 2] ∧
  at_indices mixed [0; 2] = fork_turns no_xml inter_agent (items (m_history m)) ∧ ∃ m', replayed rolled = Ok m' ∧
  at_indices rolled (user_message_positions_in_rollout no_xml rolled) = instructions no_xml inter_agent (say <$> ["one"; "three"; "four"]).
Proof.
  destruct (replayed mixed) as [m| |] eqn:Em; [|by vm_compute in Em..]. exists m. split; [done|]. split; [by vm_compute|].
  destruct (indices_follow_the_history no_xml inter_agent (Tokens 1000) (E:=Empty_set) mixed m) as [H _]; [repeat constructor|exact Em|].
  split; [exact H|]. destruct (replayed rolled) as [m'| |] eqn:Em'; [|by vm_compute in Em'..]. exists m'. split; [done|].
  destruct (indices_follow_the_history no_xml inter_agent (Tokens 1000) (E:=Empty_set) rolled m') as (_ & _ & H'); [repeat constructor|exact Em'|].
  rewrite H' by repeat constructor. vm_compute in Em'. injection Em' as <-. reflexivity.
Defined.

(** ** What modelling showed *)
(** A rollback counts the turns that another agent opened; the indices of the messages of the user do not, and lose one. *)
Example envelopes_are_not_counted :
  (∃ m, replayed sent = Ok m ∧ items (m_history m) = [say "one"]) ∧ user_message_positions_in_rollout no_xml sent = [].
Proof. vm_compute. split; [eexists; split; reflexivity|reflexivity]. Qed.
(** A fork drops the envelopes but keeps the rollbacks that counted them, and takes away a turn that the parent still has. *)
Example forks_lose_turns : ∃ forked,
  forked_rollout_items (E:=Empty_set) no_xml inter_agent FullHistory [] None sent = Ok forked ∧
  (∃ m, replayed sent = Ok m ∧ items (m_history m) = [say "one"]) ∧ (∃ m, replayed forked = Ok m ∧ items (m_history m) = []).
Proof.
  exists [RResponseItem (say "one"); REventMsg (ThreadRolledBack 1)]. vm_compute. split_and!; [reflexivity|eexists; split; reflexivity..].
Qed.
