(* ===== verification/Scheduling.v ===== *)
(** * Scheduled prompts and monitors of a session ([scheduling/src], [core/src/session])

    The registries of cron jobs and of monitors, the engine that fires due jobs, and what a resumed session makes of the
    tasks it finds. Instants are nanoseconds. *)
From stdpp Require Import gmap sorting.
From S2P Require Import Prelude RustStr.

Abbreviation Time := Z.
Abbreviation TaskId := rstring.
(** [task.rs] *)
Inductive TaskStatus := Pending | Running | Completed | Failed | Killed | Interrupted.
Definition is_terminal (s : TaskStatus) : bool := match s with Completed | Failed | Killed | Interrupted => true | Pending | Running => false end.
(** [cron_job.rs] *)
Definition CRON_FIRE_HISTORY_CAPACITY : nat := 50.
Record CronFireRecord := mk_fire { fired_at : Time; fire_outcome : rstring }.
Record CronJob := mk_cron {
  job_id : TaskId; cron_expr : rstring; prompt : rstring; status : TaskStatus; created_at : Time; last_fired_at : option Time;
  next_fire_at : option Time; fire_count : N; background : bool; max_firings : option N; until : option Time; timezone : option rstring;
  job_name : option rstring; recent_fires : list CronFireRecord }.
Definition set_next (j : CronJob) (next : option Time) : CronJob :=
  mk_cron (job_id j) (cron_expr j) (prompt j) (status j) (created_at j) (last_fired_at j) next (fire_count j) (background j) (max_firings j)
    (until j) (timezone j) (job_name j) (recent_fires j).
Definition normalize_optional_name (name : option rstring) : option rstring :=
  s ← name; let s := trim s in if bool_decide (s = []) then None else Some s.
Definition with_name (j : CronJob) (name : option rstring) : CronJob :=
  mk_cron (job_id j) (cron_expr j) (prompt j) (status j) (created_at j) (last_fired_at j) (next_fire_at j) (fire_count j) (background j)
    (max_firings j) (until j) (timezone j) (normalize_optional_name name) (recent_fires j).
Definition two_digits (s : rstring) : Z := Z.of_N (foldl (λ n d, 10 * n + (d - 48)) 0 s)%N.

Section cron.
(** The cron and chrono crates: a schedule read from its text, its next match in UTC and at an offset. *)
Context {Schedule FixedOffset : Type} (schedule_from_str : rstring → rstring + Schedule) (east_opt : Z → option FixedOffset).
Context (after_utc : Schedule → Time → option Time) (after_at : FixedOffset → Schedule → Time → option Time).
Definition parse_utc_offset (s : rstring) : option FixedOffset :=
  if bool_decide (s = lit "Z") || bool_decide (to_ascii_lowercase s = lit "utc") then east_opt 0
  else
    match s with
    | [] => None
    | c :: chars =>
        sign ← (if (c =? chr "+")%N then Some 1%Z else if (c =? chr "-")%N then Some (-1)%Z else None);
        let rest := List.filter (λ c, negb (c =? chr ":")%N) chars in
        if negb (length rest =? 4) || negb (forallb is_ascii_digit rest) then None
        else
          let hours := two_digits (take 2 rest) in
          let minutes := two_digits (drop 2 rest) in
          if (14 <? hours)%Z || (59 <? minutes)%Z then None else east_opt (sign * (hours * 3600 + minutes * 60))
    end.
(** [TaskId::new()] and [Utc::now()] are arguments. *)
Definition new_with_full_options (id : TaskId) (now : Time) (cron_expr prompt : rstring) (background : bool) (max_firings : option N) (until : option Time)
    (timezone : option rstring) : outcome rstring CronJob :=
  match schedule_from_str cron_expr with
  | inl e => Err (lit "invalid cron expression: " ++ e)
  | inr _ =>
      if match timezone with Some tz => match parse_utc_offset tz with None => true | Some _ => false end | None => false end then
        Err (lit "invalid cron expression: " ++ lit "invalid UTC offset `" ++ default [] timezone ++ lit "` (expected `+HH:MM`, `-HH:MM`, `Z`, or `UTC`)")
      else Ok (mk_cron id cron_expr prompt Pending now None None 0 background max_firings until timezone None [])
  end.
Definition new_with_options id now cron_expr prompt background max_firings until :=
  new_with_full_options id now cron_expr prompt background max_firings until None.
Definition new_with_background id now cron_expr prompt background := new_with_options id now cron_expr prompt background None None.
Definition cron_new id now cron_expr prompt := new_with_background id now cron_expr prompt true.

(** ** The registry ([registry.rs]) *)
Definition next_fire_after_in_tz (cron_expr : rstring) (after : Time) (timezone : option rstring) : option Time :=
  match schedule_from_str cron_expr with
  | inl _ => None
  | inr schedule =>
      match timezone with
      | None => after_utc schedule after
      | Some offset_str => offset ← parse_utc_offset offset_str; after_at offset schedule after
      end
  end.
Abbreviation CronRegistry := (gmap TaskId CronJob).
Definition registry_insert (jobs : CronRegistry) (j : CronJob) (now : Time) : CronRegistry * TaskId :=
  let j := match next_fire_at j with None => set_next j (next_fire_after_in_tz (cron_expr j) now (timezone j)) | Some _ => j end in
  (<[job_id j := j]> jobs, job_id j).
Definition registry_remove (jobs : CronRegistry) (id : TaskId) : CronRegistry * option CronJob := (delete id jobs, jobs !! id).
Definition registry_hydrate (l : list CronJob) : CronRegistry := foldl (λ m j, <[job_id j := j]> m) ∅ l.
Definition push_fire_record (buf : list CronFireRecord) (record : CronFireRecord) : list CronFireRecord :=
  (if length buf =? CRON_FIRE_HISTORY_CAPACITY then drop 1 buf else buf) ++ [record].
Definition u64_succ (n : N) : N := N.min (2 ^ 64 - 1) (n + 1).
Definition following (j : CronJob) (count : N) (now : Time) : option Time :=
  match next_fire_after_in_tz (cron_expr j) now (timezone j) with
  | None => None
  | Some t =>
      if match max_firings j with Some cap => (cap <=? count)%N | None => false end then None
      else if match until j with Some deadline => (deadline <? t)%Z | None => false end then None
      else Some t
  end.
Definition fire (j : CronJob) (now : Time) : CronJob :=
  let count := u64_succ (fire_count j) in
  let next := following j count now in
  mk_cron (job_id j) (cron_expr j) (prompt j) (match next with Some _ => Pending | None => Completed end) (created_at j) (Some now) next count
    (background j) (max_firings j) (until j) (timezone j) (job_name j) (push_fire_record (recent_fires j) (mk_fire now (lit "fired"))).
Definition is_due (j : CronJob) (now : Time) : bool :=
  match status j with
  | Pending | Running => match next_fire_at j with Some fire_at => (fire_at <=? now)%Z | None => false end
  | _ => false
  end.
(** [hash_order]: the order in which a [HashMap] is walked. *)
Context (hash_order : CronRegistry → list (TaskId * CronJob)).
Definition take_due (jobs : CronRegistry) (now : Time) : list (TaskId * rstring * bool) * CronRegistry :=
  (omap (λ e, if is_due e.2 now then Some (e.1, prompt e.2, background e.2) else None) (hash_order jobs),
   (λ j, if is_due j now then fire j now else j) <$> jobs).
(** ** The engine ([session/mod.rs]): every second, what is due is submitted as input of the user. *)
Record CronSubmission := mk_submission { id_prefix : rstring; text : rstring }.
Definition submissions (due : list (TaskId * rstring * bool)) : list CronSubmission :=
  (λ '(_, prompt, background), mk_submission (if background : bool then lit "cronbg" else lit "cron") prompt) <$> due.
Inductive cron_op := OInsert (j : CronJob) (now : Time) | ORemove (id : TaskId) | OHydrate (l : list CronJob) | OTick (now : Time).
Definition cron_step (jobs : CronRegistry) (op : cron_op) : list (Time * (TaskId * rstring * bool)) * CronRegistry :=
  match op with
  | OInsert j now => ([], (registry_insert jobs j now).1)
  | ORemove id => ([], (registry_remove jobs id).1)
  | OHydrate l => ([], registry_hydrate l)
  | OTick now => let '(due, jobs) := take_due jobs now in (pair now <$> due, jobs)
  end.
Fixpoint run_cron (jobs : CronRegistry) (ops : list cron_op) : list (Time * (TaskId * rstring * bool)) * CronRegistry :=
  match ops with
  | [] => ([], jobs)
  | op :: ops =>
      let '(fired, jobs) := cron_step jobs op in
      let '(more, jobs) := run_cron jobs ops in (fired ++ more, jobs)
  end.
End cron.

(** ** Monitors ([monitor.rs], [monitor_registry.rs]) *)
Record MonitorTask := mk_monitor {
  monitor_id : TaskId; command : rstring; monitor_status : TaskStatus; monitor_created_at : Time; started_at : option Time; stopped_at : option Time;
  lines_emitted : N; monitor_background : bool; restart_on_resume : bool; monitor_name : option rstring }.
Definition monitor_new (id : TaskId) (now : Time) (command : rstring) (background restart_on_resume : bool) : MonitorTask :=
  mk_monitor id command Pending now None None 0 background restart_on_resume None.
Definition MONITOR_TAIL_CAPACITY : nat := 40.
Record MonitorRegistry := mk_monitors { monitors : gmap TaskId MonitorTask; tails : gmap TaskId (list rstring) }.
Definition no_monitors : MonitorRegistry := mk_monitors ∅ ∅.
Definition monitor_insert (r : MonitorRegistry) (task : MonitorTask) : MonitorRegistry := mk_monitors (<[monitor_id task := task]> (monitors r)) (tails r).
Definition monitor_remove (r : MonitorRegistry) (id : TaskId) : MonitorRegistry := mk_monitors (delete id (monitors r)) (delete id (tails r)).
Definition monitor_hydrate (r : MonitorRegistry) (tasks : list MonitorTask) : MonitorRegistry :=
  mk_monitors (foldl (λ m t, <[monitor_id t := t]> m) ∅ tasks) ∅.
Definition update_monitor (r : MonitorRegistry) (id : TaskId) (f : MonitorTask → MonitorTask) : MonitorRegistry := mk_monitors (alter f id (monitors r)) (tails r).
Definition with_status (t : MonitorTask) (s : TaskStatus) (started stopped : option Time) (lines : N) : MonitorTask :=
  mk_monitor (monitor_id t) (command t) s (monitor_created_at t) started stopped lines (monitor_background t) (restart_on_resume t) (monitor_name t).
Definition record_line (r : MonitorRegistry) (id : TaskId) : MonitorRegistry :=
  update_monitor r id (λ t, with_status t (monitor_status t) (started_at t) (stopped_at t) (u64_succ (lines_emitted t))).
Definition record_tail_line (r : MonitorRegistry) (id : TaskId) (line : rstring) : MonitorRegistry :=
  let buf := default [] (tails r !! id) in
  let buf := if length buf =? MONITOR_TAIL_CAPACITY then drop 1 buf else buf in
  mk_monitors (monitors r) (<[id := buf ++ [line]]> (tails r)).
Definition tail_snapshot (r : MonitorRegistry) (id : TaskId) : list rstring := default [] (tails r !! id).
Definition mark_running (r : MonitorRegistry) (id : TaskId) (started : Time) : MonitorRegistry :=
  update_monitor r id (λ t, with_status t Running (Some started) (stopped_at t) (lines_emitted t)).
Definition mark_terminal (r : MonitorRegistry) (id : TaskId) (s : TaskStatus) (stopped : Time) : MonitorRegistry :=
  update_monitor r id (λ t, with_status t s (started_at t) (Some stopped) (lines_emitted t)).
Definition reset_for_restart (r : MonitorRegistry) (id : TaskId) : MonitorRegistry :=
  let r := update_monitor r id (λ t, with_status t Pending None None 0) in mk_monitors (monitors r) (delete id (tails r)).
(** A resumed session ([session/session.rs]): what it stores, and what it starts again. *)
Definition is_running (t : MonitorTask) : bool := match monitor_status t with Running => true | _ => false end.
Definition resume_monitors (now : Time) (found : list MonitorTask) : list MonitorTask * list MonitorTask :=
  let restarts t := is_running t && restart_on_resume t in
  let to_restart := List.filter restarts found in
  let to_store := (λ t, if is_running t then with_status t Interrupted (started_at t) (Some now) (lines_emitted t) else t) <$> List.filter (λ t, negb (restarts t)) found in
  (to_store ++ to_restart, to_restart).
(** One round of [monitor_wait] ([handlers/monitor/wait.rs]); [None]: sleep and look again. *)
Definition wait_round (r : MonitorRegistry) (id : TaskId) (deadline_passed : bool) : option (TaskStatus * bool) :=
  match monitors r !! id with
  | None => Some (Killed, false)
  | Some task =>
      match monitor_status task with
      | Completed | Failed | Killed => Some (monitor_status task, false)
      | s => if deadline_passed then Some (s, true) else None
      end
  end.

(** ** Lemmas: one job among the others *)
Section firings.
Context {Schedule FixedOffset : Type} (schedule_from_str : rstring → rstring + Schedule) (east_opt : Z → option FixedOffset).
Context (after_utc : Schedule → Time → option Time) (after_at : FixedOffset → Schedule → Time → option Time).
Context (hash_order : gmap TaskId CronJob → list (TaskId * CronJob)) (hash_order_entries : ∀ m, hash_order m ≡ₚ map_to_list m).
#[local] Abbreviation fire := (fire schedule_from_str east_opt after_utc after_at).
#[local] Abbreviation following := (following schedule_from_str east_opt after_utc after_at).
#[local] Abbreviation take_due := (take_due schedule_from_str east_opt after_utc after_at hash_order).
#[local] Abbreviation cron_step := (cron_step schedule_from_str east_opt after_utc after_at hash_order).
#[local] Abbreviation run_cron := (run_cron schedule_from_str east_opt after_utc after_at hash_order).
#[local] Abbreviation next_fire j now := (next_fire_after_in_tz schedule_from_str east_opt after_utc after_at (cron_expr j) now (timezone j)).
Definition ticks (ops : list cron_op) : list Time := omap (λ op, match op with OTick now => Some now | _ => None end) ops.
Definition leaves (id : TaskId) (op : cron_op) : Prop :=
  match op with OInsert j _ => job_id j ≠ id | ORemove i => i ≠ id | OHydrate _ => False | OTick _ => True end.
Definition firings (id : TaskId) (fired : list (Time * (TaskId * rstring * bool))) : list (Time * (rstring * bool)) :=
  omap (λ '(now, (i, prompt, background)), if decide (i = id) then Some (now, (prompt, background)) else None) fired.
Fixpoint run_job (j : CronJob) (ts : list Time) : list Time * CronJob :=
  match ts with
  | [] => ([], j)
  | now :: ts => if is_due j now then let '(l, j') := run_job (fire j now) ts in (now :: l, j') else run_job j ts
  end.
Lemma omap_perm {A B} (f : A → option B) l k : l ≡ₚ k → omap f l ≡ₚ omap f k.
Proof using Type.
  induction 1 as [|x l k _ IH|x y l|l k m _ IH1 _ IH2]; cbn; [done| | |by etransitivity]; [by destruct (f x); [constructor|]|].
  destruct (f x), (f y); try done; apply perm_swap.
Qed.
Lemma omap_nil {A B} (f : A → option B) l : Forall (λ x, f x = None) l → omap f l = [].
Proof using Type. induction 1 as [|x l Hx _ IH]; [done|]. cbn. by rewrite Hx. Qed.
(** Of the walk over a map, what concerns one key is what its value says. *)
Lemma walk_key {B} (f : CronJob → option B) (m : gmap TaskId CronJob) id :
  omap (λ e, if decide (e.1 = id) then f e.2 else None) (hash_order m) = match m !! id with Some j => match f j with Some b => [b] | None => [] end | None => [] end.
Proof using hash_order_entries.
  set (g := λ e : TaskId * CronJob, if decide (e.1 = id) then f e.2 else None).
  assert (∀ m : gmap TaskId CronJob, m !! id = None → omap g (map_to_list m) = []) as Hnone.
  { intros m' Hm. apply omap_nil, Forall_forall. intros [i j] Hi. apply elem_of_map_to_list in Hi. unfold g. cbn. case_decide; [by subst; rewrite Hm in Hi|done]. }
  pose proof (omap_perm g _ _ (hash_order_entries m)) as Hp. destruct (m !! id) as [j|] eqn:Ej.
  - rewrite <- (insert_delete_id _ _ _ Ej) in Hp at 2. assert (delete id m !! id = None) as Hd by apply lookup_delete_eq.
    rewrite (omap_perm g _ _ (map_to_list_insert _ _ j Hd)) in Hp. cbn in Hp. rewrite (Hnone _ Hd) in Hp. unfold g in Hp at 2. cbn in Hp. rewrite decide_True in Hp by done.
    destruct (f j) as [b|]; [by apply Permutation_singleton_r in Hp|by apply Permutation_nil_r in Hp].
  - rewrite (Hnone _ Ej) in Hp. by apply Permutation_nil_r in Hp.
Qed.
Lemma firings_app id a b : firings id (a ++ b) = firings id a ++ firings id b.
Proof using Type. apply omap_app. Qed.
Lemma take_due_job jobs now id j : jobs !! id = Some j →
  firings id (pair now <$> (take_due jobs now).1) = (if is_due j now then [(now, (prompt j, background j))] else []) ∧
  (take_due jobs now).2 !! id = Some (if is_due j now then fire j now else j).
Proof using hash_order_entries.
  intros Hj. split; [|cbn; by rewrite lookup_fmap, Hj]. unfold firings, Scheduling.take_due. cbn [fst].
  pose proof (walk_key (λ j, if is_due j now then Some (now, (prompt j, background j)) else None) jobs id) as Hw. rewrite Hj in Hw.
  etransitivity; [|etransitivity; [exact Hw|by destruct (is_due j now)]]. clear Hw. induction (hash_order jobs) as [|[i x] l IH]; [done|]. cbn.
  destruct (is_due x now); cbn; rewrite ?IH; by case_decide.
Qed.
Lemma run_cron_job id ops : ∀ jobs j, jobs !! id = Some j → Forall (leaves id) ops →
  firings id (run_cron jobs ops).1 = (λ now, (now, (prompt j, background j))) <$> (run_job j (ticks ops)).1 ∧
  (run_cron jobs ops).2 !! id = Some (run_job j (ticks ops)).2.
Proof using hash_order_entries.
  induction ops as [|op ops IH]; intros jobs j Hj Hl; [done|]. apply Forall_cons in Hl as [Hop Hl]. cbn [Scheduling.run_cron].
  assert (∀ jobs', jobs' !! id = Some j → let '(fired, jobs'') := (let '(more, jobs'') := run_cron jobs' ops in ([] ++ more, jobs'')) in
    firings id fired = (λ now, (now, (prompt j, background j))) <$> (run_job j (ticks ops)).1 ∧ jobs'' !! id = Some (run_job j (ticks ops)).2) as Hquiet.
  { intros jobs' Hj'. specialize (IH jobs' j Hj' Hl). by destruct (run_cron jobs' ops). }
  destruct op as [j' now|i|l|now]; cbn [Scheduling.cron_step leaves] in *; [| |done|].
  - specialize (Hquiet (registry_insert schedule_from_str east_opt after_utc after_at jobs j' now).1). unfold registry_insert in *.
    assert ((<[job_id j' := match next_fire_at j' with None => set_next j' (next_fire j' now) | Some _ => j' end]> jobs : gmap _ _) !! id = Some j) as Hins.
    { rewrite lookup_insert_ne; [done|]. done. }
    assert (job_id match next_fire_at j' with None => set_next j' (next_fire j' now) | Some _ => j' end = job_id j') as Eid by (by destruct (next_fire_at j')).
    rewrite Eid in *. specialize (Hquiet Hins). cbn [fst] in *. by destruct (run_cron _ ops).
  - specialize (Hquiet (delete i jobs)). rewrite lookup_delete_ne in Hquiet by done. specialize (Hquiet Hj). cbn. by destruct (run_cron _ ops).
  - destruct (take_due_job jobs now id j Hj) as [Hf Hd]. destruct (take_due jobs now) as [due jobs'] eqn:Ed. cbn [fst snd] in Hf, Hd.
    destruct (IH jobs' _ Hd Hl) as [H1 H2]. destruct (run_cron jobs' ops) as [more jobs'']. cbn [fst snd] in *. rewrite firings_app, Hf, H1. cbn [ticks omap list_omap run_job].
    fold (ticks ops). destruct (is_due j now); [|done]. destruct (run_job (fire j now) (ticks ops)) as [l j'']. done.
Qed.
(** ** Lemmas: the run of one job *)
Definition first_from (t : Time) (ts : list Time) : option Time := head (List.filter (λ c, (t <=? c)%Z) ts).
Definition active (j : CronJob) : bool := match status j with Pending | Running => true | _ => false end.
(** After its [n]th firing the job goes on to fire at [t]. *)
Definition goes_on (j : CronJob) (n : N) (t : Time) : Prop :=
  (∀ cap, max_firings j = Some cap → (n < cap)%N) ∧ (∀ deadline, until j = Some deadline → (t ≤ deadline)%Z).
Definition well_counted (j : CronJob) : Prop :=
  (fire_count j < 2 ^ 64)%N ∧ (∀ cap, max_firings j = Some cap → (cap < 2 ^ 64)%N) ∧ length (recent_fires j) ≤ CRON_FIRE_HISTORY_CAPACITY.
Lemma push_fire_record_lastn buf r : length buf ≤ CRON_FIRE_HISTORY_CAPACITY → push_fire_record buf r = lastn CRON_FIRE_HISTORY_CAPACITY (buf ++ [r]).
Proof using Type.
  unfold push_fire_record, lastn. intros Hb. rewrite length_app. cbn [length]. destruct (Nat.eqb_spec (length buf) CRON_FIRE_HISTORY_CAPACITY) as [E|E].
  - rewrite E. replace (CRON_FIRE_HISTORY_CAPACITY + 1 - CRON_FIRE_HISTORY_CAPACITY) with 1 by (unfold CRON_FIRE_HISTORY_CAPACITY; lia). by destruct buf.
  - replace (length buf + 1 - CRON_FIRE_HISTORY_CAPACITY) with 0 by lia. done.
Qed.
Lemma well_counted_fire j now : well_counted j → well_counted (fire j now).
Proof using Type.
  intros (Hc & Hcap & Hr). split_and!; cbn; [unfold u64_succ; lia|done|]. rewrite push_fire_record_lastn by done. rewrite length_lastn. lia.
Qed.
Lemma following_spec j n now t : following j n now = Some t ↔ next_fire j now = Some t ∧ goes_on j n t.
Proof using Type.
  unfold Scheduling.following, goes_on. destruct (next_fire j now) as [t'|]; [|split; [done|by intros [? _]]].
  assert (match max_firings j with Some cap => (cap <=? n)%N | None => false end = false ↔ ∀ cap, max_firings j = Some cap → (n < cap)%N) as Hc.
  { destruct (max_firings j) as [cap|]; [rewrite N.leb_gt|]; (split; [|by auto]); [by intros ? ? [= <-]|done]. }
  assert (match until j with Some d => (d <? t')%Z | None => false end = false ↔ ∀ d, until j = Some d → (t' ≤ d)%Z) as Hd.
  { destruct (until j) as [d|]; [rewrite Z.ltb_ge|]; (split; [|by auto]); [by intros ? ? [= <-]|done]. }
  destruct (match max_firings j with Some cap => _ | None => _ end); [split; [done|]; intros [_ [H _]]; by apply Hc in H|].
  destruct (match until j with Some d => _ | None => _ end); [split; [done|]; intros [[= <-] [_ H]]; by apply Hd in H|].
  split; [intros [= <-]; split_and!; [done|by apply Hc|by apply Hd]|by intros [[= <-] _]].
Qed.
Lemma is_due_active j t now : active j = true → next_fire_at j = Some t → is_due j now = (t <=? now)%Z.
Proof using Type. unfold active, is_due. intros Ha ->. by destruct (status j). Qed.
Lemma fire_active j now : active (fire j now) = match next_fire_at (fire j now) with Some _ => true | None => false end.
Proof using Type. unfold active. cbn. by destruct (Scheduling.following _ _ _ _ _ _ _). Qed.
Lemma idle_run j ts : active j = false ∨ next_fire_at j = None → run_job j ts = ([], j).
Proof using Type.
  intros Hj. induction ts as [|now ts IH]; [done|]. cbn. replace (is_due j now) with false; [done|]. unfold active, is_due in *.
  destruct Hj as [Hj|Hj]; [by destruct (status j)|]. rewrite Hj. by destruct (status j).
Qed.
(** The first firing, and each one after another. *)
Lemma run_job_first j ts : (run_job j ts).1 !! 0 = if active j then t ← next_fire_at j; first_from t ts else None.
Proof using Type.
  destruct (active j) eqn:Ea; [|by rewrite idle_run by auto]. destruct (next_fire_at j) as [t|] eqn:Et; [|by rewrite idle_run by auto].
  cbn. unfold first_from. induction ts as [|now ts IH]; [done|]. cbn. rewrite (is_due_active j t) by done.
  destruct (t <=? now)%Z; [by destruct (run_job (fire j now) ts)|exact IH].
Qed.
Lemma run_job_next ts : ∀ j i a, well_counted j → (run_job j ts).1 !! i = Some a → ∃ before after, ts = before ++ a :: after ∧
  (run_job j ts).1 !! S i = (t ← following j (N.min (2 ^ 64 - 1) (fire_count j + N.of_nat (S i))) a; first_from t after).
Proof using Type.
  induction ts as [|now ts IH]; intros j i a Hw; [done|]. cbn [run_job]. destruct (is_due j now).
  2: { intros Hi. destruct (IH _ _ _ Hw Hi) as (before & after & -> & E). exists (now :: before), after. by split. }
  pose proof (run_job_first (fire j now) ts) as H0. specialize (IH (fire j now)). destruct (run_job (fire j now) ts) as [l j']. cbn [fst] in *.
  cbn [fst]. destruct i as [|i].
  - intros [= <-]. exists [], ts. split; [done|]. change ((now :: l) !! 1) with (l !! 0). rewrite H0, fire_active. cbn. unfold u64_succ.
    by destruct (Scheduling.following _ _ _ _ _ _ _).
  - change ((now :: l) !! S i) with (l !! i). change ((now :: l) !! S (S i)) with (l !! S i). intros Hi.
    destruct (IH i a) as (before & after & -> & E); [by apply well_counted_fire|done|]. exists (now :: before), after. split; [done|].
    rewrite E. unfold Scheduling.following. cbn [fire_count cron_expr timezone max_firings until Scheduling.fire]. unfold u64_succ.
    replace (N.min (2 ^ 64 - 1) (N.min (2 ^ 64 - 1) (fire_count j + 1) + N.of_nat (S i))) with (N.min (2 ^ 64 - 1) (fire_count j + N.of_nat (S (S i)))) by lia. done.
Qed.
Lemma run_job_books ts : ∀ j, well_counted j → let '(l, j') := run_job j ts in
  l `sublist_of` ts ∧ fire_count j' = N.min (2 ^ 64 - 1) (fire_count j + N.of_nat (length l)) ∧
  recent_fires j' = lastn CRON_FIRE_HISTORY_CAPACITY (recent_fires j ++ ((λ t, mk_fire t (lit "fired")) <$> l)) ∧
  last_fired_at j' = match last l with Some t => Some t | None => last_fired_at j end ∧
  (∀ cap, max_firings j = Some cap → (N.of_nat (length l) ≤ N.max 1 (cap - fire_count j))%N).
Proof using Type.
  induction ts as [|now ts IH]; intros j Hw; cbn [run_job].
  - destruct Hw as (Hc & _ & Hr). split_and!; [done|cbn; lia| |done|cbn; lia]. cbn. by rewrite app_nil_r, lastn_all.
  - destruct (is_due j now).
    2: { specialize (IH j Hw). destruct (run_job j ts) as [l j']. destruct IH as (H1 & H). split; [by constructor|done]. }
    pose proof (run_job_first (fire j now) ts) as H0. specialize (IH (fire j now) (well_counted_fire _ _ Hw)). destruct (run_job (fire j now) ts) as [l j']. cbn [fst] in H0.
    destruct IH as (H1 & H2 & H3 & H4 & H5). destruct Hw as (Hc & Hcap & Hr). split_and!.
    + by constructor.
    + rewrite H2. cbn. unfold u64_succ. lia.
    + rewrite H3. cbn [recent_fires Scheduling.fire fmap list_fmap]. rewrite push_fire_record_lastn, lastn_lastn_app by done. by rewrite <- app_assoc.
    + rewrite H4, last_cons. by destruct (last l).
    + intros cap Hm. specialize (H5 cap Hm). cbn in H5. specialize (Hcap cap Hm). cbn [length]. destruct l as [|b l]; [cbn; lia|].
      cbn in H0. rewrite fire_active in H0. cbn in H0. destruct (Scheduling.following _ _ _ _ _ _ _) as [t|] eqn:Ef; [|done].
      apply following_spec in Ef as [_ [Hgo _]]. specialize (Hgo cap Hm). unfold u64_succ in *. cbn [length] in *. lia.
Qed.

(** C16: A scheduled prompt fires as its schedule says. Follow one job of the registry through any run of ticks, with other
    jobs inserted, removed and fired in between (and without a reload of the registry), with every job visited in the
    arbitrary order of a hash map. It fires at most once per tick; first, if it is pending or running, at the first tick at or
    past the time it was given; and after a firing at [a] it fires again at exactly the first later tick at or past the
    next time of its schedule after [a], unless that firing was its last allowed one or that time lies past its
    deadline. The limits are only looked at there, after a firing: they do not hold back the first one, so that a job
    fires at most as often as it may but once at least, if it gets to fire at all, and a tick that is late fires
    after the deadline what was due before it ([first_firing_ignores_the_limits], [late_ticks_fire_after_the_deadline]). Each
    firing submits its prompt; and count, time of the last firing and the fifty newest records are those of the firings
    that happened. (Counts and caps are words, and a job holds at most fifty records.) *)
Theorem jobs_fire_on_schedule (id : TaskId) (jobs : gmap TaskId CronJob) (j : CronJob) (ops : list cron_op) :
  jobs !! id = Some j → Forall (leaves id) ops → well_counted j →
  ∃ times j', firings id (run_cron jobs ops).1 = (λ now, (now, (prompt j, background j))) <$> times ∧ (run_cron jobs ops).2 !! id = Some j' ∧
    times `sublist_of` ticks ops ∧
    times !! 0 = (if active j then t ← next_fire_at j; first_from t (ticks ops) else None) ∧
    (∀ i a, times !! i = Some a → ∃ before after, ticks ops = before ++ a :: after ∧
       ∀ b, times !! S i = Some b ↔
         ∃ t, next_fire j a = Some t ∧ goes_on j (N.min (2 ^ 64 - 1) (fire_count j + N.of_nat (S i))) t ∧ first_from t after = Some b) ∧
    (∀ cap, max_firings j = Some cap → (N.of_nat (length times) ≤ N.max 1 (cap - fire_count j))%N) ∧
    fire_count j' = N.min (2 ^ 64 - 1) (fire_count j + N.of_nat (length times)) ∧
    last_fired_at j' = match last times with Some t => Some t | None => last_fired_at j end ∧
    recent_fires j' = lastn CRON_FIRE_HISTORY_CAPACITY (recent_fires j ++ ((λ t, mk_fire t (lit "fired")) <$> times)).
Proof using hash_order_entries.
  intros Hj Hl Hw. destruct (run_cron_job id ops jobs j Hj Hl) as [H1 H2]. pose proof (run_job_books (ticks ops) j Hw) as Hb.
  pose proof (run_job_first j (ticks ops)) as H0. pose proof (run_job_next (ticks ops) j) as Hn.
  destruct (run_job j (ticks ops)) as [times j']. cbn [fst snd] in *. destruct Hb as (B1 & B2 & B3 & B4 & B5).
  exists times, j'. split_and!; try done. intros i a Hi. destruct (Hn i a Hw Hi) as (before & after & E & En). exists before, after. split; [done|].
  intros b. rewrite En. split.
  - destruct (following j _ a) as [t|] eqn:Ef; [|done]. cbn. intros Hb. apply following_spec in Ef as [Ef Hg]. by exists t.
  - intros (t & Ht & Hg & Hb). rewrite (proj2 (following_spec _ _ _ t)) by done. exact Hb.
Qed.
End firings.

(** ** Monitors: what a registry holds after any sequence of its operations *)
Inductive monitor_op :=
| MInsert (task : MonitorTask) | MRemove (id : TaskId) | MHydrate (tasks : list MonitorTask) | MLine (id : TaskId) | MTail (id : TaskId) (line : rstring)
| MRunning (id : TaskId) (at_ : Time) | MTerminal (id : TaskId) (s : TaskStatus) (at_ : Time) | MReset (id : TaskId).
Definition monitor_step (r : MonitorRegistry) (op : monitor_op) : MonitorRegistry :=
  match op with
  | MInsert task => monitor_insert r task
  | MRemove id => monitor_remove r id
  | MHydrate tasks => monitor_hydrate r tasks
  | MLine id => record_line r id
  | MTail id line => record_tail_line r id line
  | MRunning id at_ => mark_running r id at_
  | MTerminal id s at_ => mark_terminal r id s at_
  | MReset id => reset_for_restart r id
  end.
(** The lines recorded for a monitor since its buffer was last thrown away. *)
Definition lines_since (id : TaskId) (lines : list rstring) (op : monitor_op) : list rstring :=
  match op with
  | MTail i line => if decide (i = id) then lines ++ [line] else lines
  | MRemove i | MReset i => if decide (i = id) then [] else lines
  | MHydrate _ => []
  | _ => lines
  end.
Lemma push_tail_lastn (buf : list rstring) line lines : buf = lastn MONITOR_TAIL_CAPACITY lines →
  (if length buf =? MONITOR_TAIL_CAPACITY then drop 1 buf else buf) ++ [line] = lastn MONITOR_TAIL_CAPACITY (lines ++ [line]).
Proof.
  intros ->. rewrite <- (lastn_lastn_app _ lines). set (buf := lastn MONITOR_TAIL_CAPACITY lines). assert (length buf ≤ MONITOR_TAIL_CAPACITY) as Hb.
  { unfold buf. rewrite length_lastn. lia. }
  unfold lastn. rewrite length_app. cbn [length]. destruct (Nat.eqb_spec (length buf) MONITOR_TAIL_CAPACITY) as [E|E].
  - rewrite E. replace (MONITOR_TAIL_CAPACITY + 1 - MONITOR_TAIL_CAPACITY) with 1 by (unfold MONITOR_TAIL_CAPACITY; lia). by destruct buf.
  - by replace (length buf + 1 - MONITOR_TAIL_CAPACITY) with 0 by lia.
Qed.
(** The lines kept for a monitor are the newest forty of those recorded since its buffer was last thrown away (when it
    was removed, reset for a restart, or the registry filled from a snapshot), in order, whatever else happened to it and
    to the other monitors in between. *)
Theorem monitor_tail_is_the_latest (id : TaskId) (ops : list monitor_op) :
  tail_snapshot (foldl monitor_step no_monitors ops) id = lastn MONITOR_TAIL_CAPACITY (foldl (lines_since id) [] ops).
Proof.
  induction ops as [|op ops IH] using rev_ind; [done|]. rewrite !foldl_app. cbn [foldl]. set (r := foldl monitor_step no_monitors ops) in *.
  set (lines := foldl (lines_since id) [] ops) in *. unfold tail_snapshot in *.
  destruct op as [t|i|l|i|i line|i at_|i s at_|i]; cbn [monitor_step lines_since]; try exact IH; unfold monitor_remove, monitor_hydrate, reset_for_restart, record_tail_line;
    cbn [tails].
  - case_decide as Hi; [subst; by rewrite lookup_delete_eq|by rewrite lookup_delete_ne].
  - by rewrite lookup_empty.
  - case_decide as Hi; [subst; rewrite lookup_insert_eq; cbn [default from_option]|by rewrite lookup_insert_ne].
    by apply push_tail_lastn.
  - case_decide as Hi; [subst; by rewrite lookup_delete_eq|by rewrite lookup_delete_ne].
Qed.

(** ** Some jobs *)
Module Every.
(** The schedule "n" fires at every multiple of ten. *)
Definition schedule_from_str (s : rstring) : rstring + unit := if bool_decide (s = lit "tens") then inr tt else inl (lit "?").
Definition after_utc (_ : unit) (t : Time) : option Time := Some (10 * (t / 10 + 1))%Z.
Definition after_at (_ : Z) (_ : unit) (_ : Time) : option Time := None.
Definition job (cap : option N) (until : option Time) (next : option Time) : CronJob :=
  mk_cron (lit "a") (lit "tens") (lit "look") Pending 0 None next 0 true cap until None None [].
Abbreviation run jobs ops := (run_cron schedule_from_str (λ z, Some z) after_utc after_at map_to_list jobs ops).
Definition limited : gmap TaskId CronJob := {[ lit "a" := job (Some 2%N) None (Some 10%Z) ]}.
Definition some_ops : list cron_op := [OTick 5; OTick 12; OTick 19; OInsert (mk_cron (lit "b") (lit "tens") [] Pending 0 None None 0 true None None None None []) 19; OTick 23; OTick 40].
End Every.
Import Every.
Lemma jobs_fire_on_schedule_witness : ∃ times,
  firings (lit "a") (run limited some_ops).1 = (λ now, (now, (lit "look", true))) <$> times ∧ (N.of_nat (length times) ≤ 2)%N ∧ times !! 0 = Some 12%Z.
Proof.
  destruct (jobs_fire_on_schedule schedule_from_str (λ z, Some z) after_utc after_at map_to_list (λ m, reflexivity _) (lit "a") limited (job (Some 2%N) None (Some 10%Z)) some_ops)
    as (times & j' & H1 & _ & _ & H2 & _ & H3 & _).
  - by vm_compute.
  - repeat constructor; discriminate.
  - split_and!; [done|intros cap [= <-]; done|cbn; lia].
  - exists times. split_and!; [exact H1|exact (H3 2%N eq_refl)|exact H2].
Defined.

(** ** What modelling showed *)
(** The deadline of a job is not looked at before its first firing, and a job that may not fire at all fires once. *)
Example first_firing_ignores_the_limits :
  (run {[ lit "a" := job None (Some 10%Z) (Some 30%Z) ]} [OTick 30]).1 = [(30%Z, (lit "a", lit "look", true))] ∧
  (run {[ lit "a" := job (Some 0%N) None (Some 10%Z) ]} [OTick 30]).1 = [(30%Z, (lit "a", lit "look", true))].
Proof. by vm_compute. Qed.
(** The deadline is compared with the time of the schedule, not with the time of the tick. *)
Example late_ticks_fire_after_the_deadline :
  (run {[ lit "a" := job None (Some 25%Z) (Some 10%Z) ]} [OTick 12; OTick 40; OTick 50]).1 =
    [(12%Z, (lit "a", lit "look", true)); (40%Z, (lit "a", lit "look", true))].
Proof. by vm_compute. Qed.
(** A job that is loaded without a next time never gets one. *)
Example loaded_without_a_time :
  (run ∅ [OHydrate [job None None None]; OTick 10; OTick 20; OTick 30]).1 = [].
Proof. by vm_compute. Qed.
(** A resumed session leaves a pending monitor pending though nothing will start it, and waiting for an interrupted one
    never ends. *)
Example pending_monitors_stay : let t := monitor_new (lit "m") 0 (lit "tail") true true in resume_monitors 5 [t] = ([t], []).
Proof. by vm_compute. Qed.
Lemma interrupted_monitors_are_waited_for r id t : monitors r !! id = Some t → monitor_status t = Interrupted →
  is_terminal (monitor_status t) = true ∧ wait_round r id false = None.
Proof. unfold wait_round. intros -> ->. done. Qed.
