(* ===== verification/Crontab.v ===== *)
(** * Scheduled prompts in the crontab of the user ([scheduling/src/os_cron.rs])

    A job is two lines of the crontab, a tag and a schedule with its command, and a file with its prompt; the rest of the
    crontab belongs to the user. *)
From stdpp Require Import gmap.
From S2P Require Import Prelude RustStr Utf8 RustPath Scheduling.

Inductive OsCronError :=
| CrontabFailed (stderr : rstring) | IoError (e : rstring) | Parse (message : rstring) | SubMinuteUnsupported | InvalidExpression (message : rstring) | BinaryNotFound.
Definition TAG_PREFIX : rstring := lit "# ata-cron:".

(** ** Strings of the standard library *)
Fixpoint split_ws (word s : rstring) : list rstring :=
  match s with
  | [] => if bool_decide (word = []) then [] else [word]
  | c :: s => if is_whitespace c then (if bool_decide (word = []) then split_ws [] s else word :: split_ws [] s) else split_ws (word ++ [c]) s
  end.
Definition split_whitespace (s : rstring) : list rstring := split_ws [] s.
(** [split_once] and [split] on a string. *)
Definition split_once (sep s : rstring) : option (rstring * rstring) := i ← find sep s; Some (take i s, drop (i + length sep) s).
Fixpoint split_str_fuel (fuel : nat) (sep s : rstring) : list rstring :=
  match fuel with
  | O => [s]
  | S fuel => match split_once sep s with Some (a, b) => a :: split_str_fuel fuel sep b | None => [s] end
  end.
Definition split_str (sep s : rstring) : list rstring := split_str_fuel (length s) sep s.
Definition find_map {A B} (f : A → option B) (l : list A) : option B := head (omap f l).

(** ** Schedules and tags *)
Section crontab.
Context {Schedule : Type} (schedule_from_str : rstring → rstring + Schedule) (to_rfc3339 : Time → rstring) (parse_from_rfc3339 : rstring → option Time).
Definition six_field_to_five (cron_expr : rstring) : outcome OsCronError rstring :=
  match schedule_from_str cron_expr with
  | inl e => Err (InvalidExpression e)
  | inr _ =>
      let parts := split_whitespace cron_expr in
      if negb (length parts =? 6) then
        Err (InvalidExpression (lit "expected 6 fields (sec min hour dom mon dow), got " ++ show (N.of_nat (length parts))))
      else
        let seconds := default [] (head parts) in
        if bool_decide (seconds ≠ lit "0") && bool_decide (seconds ≠ lit "*") then Err SubMinuteUnsupported
        else Ok (join_with (lit " ") (drop 1 parts))
  end.
Definition encode_char (c : char) : rstring :=
  if (c =? chr "%")%N then lit "%25" else if (c =? chr "|")%N then lit "%7C" else if (c =? newline)%N || (c =? cr)%N then lit "%0A" else [c].
Definition encode_tag_value (s : rstring) : rstring := s ≫= encode_char.
Definition hex_digit (b : N) : option N :=
  if ((48 <=? b) && (b <=? 57))%N then Some (b - 48)%N
  else if ((97 <=? b) && (b <=? 102))%N then Some (b - 87)%N
  else if ((65 <=? b) && (b <=? 70))%N then Some (b - 55)%N else None.
(** [u8::from_str_radix(_, 16)] of two bytes; a leading plus sign is skipped. *)
Definition from_hex (b1 b2 : N) : option N :=
  if (b1 =? chr "+")%N then hex_digit b2 else h ← hex_digit b1; l ← hex_digit b2; Some (16 * h + l)%N.
(** Every byte is pushed as the character of that number. *)
Fixpoint decode_bytes (bs : list byte) : rstring :=
  match bs with
  | [] => []
  | b :: tl =>
      match tl with
      | b1 :: b2 :: rest =>
          if (b =? chr "%")%N then match from_hex b1 b2 with Some v => v :: decode_bytes rest | None => b :: decode_bytes tl end
          else b :: decode_bytes tl
      | _ => b :: decode_bytes tl
      end
  end.
Definition decode_tag_value (s : rstring) : rstring := decode_bytes (utf8 s).
Definition is_ascii_alphanumeric (c : char) : bool :=
  is_ascii_digit c || ((65 <=? c) && (c <=? 90))%N || ((97 <=? c) && (c <=? 122))%N.
Definition safe_path_char (c : char) : bool :=
  is_ascii_alphanumeric c || (c =? chr "/")%N || (c =? chr "_")%N || (c =? chr "-")%N || (c =? chr ".")%N.
Definition quote_char (c : char) : rstring := if (c =? chr "'")%N then lit "'\''" else [c].
Definition shell_quote_path (p : rstring) : rstring := if forallb safe_path_char p then p else lit "'" ++ (p ≫= quote_char) ++ lit "'".
Definition tag_line (j : CronJob) : rstring :=
  TAG_PREFIX ++ job_id j ++ lit " | created=" ++ to_rfc3339 (created_at j)
    ++ match job_name j with Some name => lit " | name=" ++ encode_tag_value name | None => [] end.
Definition command_line (five_field ata_binary prompt_file log_file : rstring) : rstring :=
  let bin_dir := default [] (parent ata_binary) in
  let path_prefix := if bool_decide (bin_dir = []) then [] else lit "PATH=" ++ shell_quote_path bin_dir ++ lit ":/usr/bin:/bin " in
  five_field ++ lit " " ++ path_prefix ++ shell_quote_path ata_binary ++ lit " exec --skip-git-repo-check - < " ++ shell_quote_path prompt_file
    ++ lit " >> " ++ shell_quote_path log_file ++ lit " 2>&1".
Definition format_entry (j : CronJob) (ata_binary prompt_file log_file : rstring) : outcome OsCronError rstring :=
  let? five_field := six_field_to_five (cron_expr j) in
  Ok (tag_line j ++ newline :: command_line five_field ata_binary prompt_file log_file ++ [newline]).

(** ** Reading, inserting, deleting *)
(** [data_dir()], [~/.ata/cron], where it exists; [read_file] reads the prompt sidecars. *)
Context (data_dir : outcome OsCronError rstring) (read_file : rstring → option rstring).
Definition prompt_path (id : TaskId) : outcome OsCronError rstring := let? dir := data_dir in Ok (push dir (id ++ lit ".prompt")).
Definition log_path (id : TaskId) : outcome OsCronError rstring := let? dir := data_dir in Ok (push dir (id ++ lit ".log")).
Definition ok {A} (o : outcome OsCronError A) : option A := match o with Ok a => Some a | _ => None end.
(** The output of [crontab -l], or its failure, is an argument; the new crontab is the result. *)
Definition append_block (current block : rstring) : rstring :=
  (if bool_decide (current ≠ []) && negb (ends_with current [newline]) then current ++ [newline] else current) ++ block.
Definition insert (ata_binary : outcome OsCronError rstring) (current : outcome OsCronError rstring) (j : CronJob) : outcome OsCronError rstring :=
  let? ata := ata_binary in
  let? prompt_file := prompt_path (job_id j) in
  let? log_file := log_path (job_id j) in
  let? block := format_entry j ata prompt_file log_file in
  let? current := current in
  Ok (append_block current block).
Fixpoint delete_lines (tag : rstring) (skip_next : bool) (ls : list rstring) : rstring * bool :=
  match ls with
  | [] => ([], false)
  | line :: ls =>
      if skip_next then delete_lines tag false ls
      else if starts_with line tag then ((delete_lines tag true ls).1, true)
      else let '(out, removed) := delete_lines tag false ls in (line ++ newline :: out, removed)
  end.
(** The crontab that is written, if any was removed. *)
Definition delete (current : outcome OsCronError rstring) (id : TaskId) : outcome OsCronError (option rstring) :=
  let? current := current in
  let '(out, removed) := delete_lines (TAG_PREFIX ++ id) false (lines current) in
  Ok (if removed : bool then Some out else None).
Record AtaCronEntry := mk_entry {
  task_id : TaskId; cron_expr_five_field : rstring; entry_prompt : rstring; entry_created_at : option Time; entry_log_path : rstring; entry_name : option rstring }.
Definition tag_entry (rest : rstring) : TaskId * option Time * option rstring :=
  let '(task_id_str, metadata) := match split_once (lit " | ") rest with Some (id, rest) => (trim id, rest) | None => (trim rest, []) end in
  let fields := split_str (lit " | ") metadata in
  (task_id_str,
   (s ← find_map (strip_prefix (lit "created=")) fields; parse_from_rfc3339 s),
   (s ← find_map (strip_prefix (lit "name=")) fields; let s := decode_tag_value s in if bool_decide (s = []) then None else Some s)).
Definition schedule_entry (tag : TaskId * option Time * option rstring) (schedule_line : rstring) : outcome OsCronError AtaCronEntry :=
  let '(id, created_at, name) := tag in
  let five := take 5 (split_whitespace schedule_line) in
  if length five <? 5 then Err (Parse (lit "schedule line for " ++ id ++ lit " has fewer than 5 fields"))
  else Ok (mk_entry id (join_with (lit " ") five) (default [] (p ← ok (prompt_path id); read_file p)) created_at (default [] (ok (log_path id))) name).
(** [pending]: the tag whose schedule line is looked for, over blank lines. *)
Fixpoint parse_lines (pending : option (TaskId * option Time * option rstring)) (ls : list rstring) : outcome OsCronError (list AtaCronEntry) :=
  match ls with
  | [] => match pending with Some (id, _, _) => Err (Parse (lit "tag line for " ++ id ++ lit " not followed by a schedule line")) | None => Ok [] end
  | line :: ls =>
      match pending with
      | Some tag =>
          if bool_decide (trim line = []) then parse_lines pending ls
          else let? entry := schedule_entry tag line in let? entries := parse_lines None ls in Ok (entry :: entries)
      | None => match strip_prefix TAG_PREFIX line with Some rest => parse_lines (Some (tag_entry rest)) ls | None => parse_lines None ls end
      end
  end.
Definition parse_crontab (content : rstring) : outcome OsCronError (list AtaCronEntry) := parse_lines None (lines content).
Definition list_entries (current : outcome OsCronError rstring) : outcome OsCronError (list AtaCronEntry) := let? current := current in parse_crontab current.
(** How often a job has fired, by its log. *)
Definition fire_count_of_log (content : rstring) : N := N.of_nat (length (List.filter (λ l, starts_with (trim_start l) (lit "session id:")) (lines content))).
(** [cron_create] ([handlers/cron/create.rs]) *)
Definition normalized_expr (cron_expr : rstring) : rstring := if length (split_whitespace cron_expr) =? 5 then lit "0 " ++ cron_expr else cron_expr.
End crontab.

(** ** Lemmas: words, tags and quoted paths *)
Definition word (w : rstring) : Prop := w ≠ [] ∧ Forall (λ c, is_whitespace c = false) w.
Lemma split_ws_word w c s : ∀ acc, acc ++ w ≠ [] → Forall (λ c, is_whitespace c = false) w → is_whitespace c = true →
  split_ws acc (w ++ c :: s) = (acc ++ w) :: split_ws [] s.
Proof.
  induction w as [|x w IH]; intros acc Hne Hw Hc; cbn [app split_ws].
  - rewrite app_nil_r in *. rewrite Hc. by rewrite bool_decide_eq_false_2.
  - apply Forall_cons in Hw as [Hx Hw]. rewrite Hx, IH; [by rewrite <- app_assoc|by destruct acc|done|done].
Qed.
Lemma split_ws_words s : ∀ acc, Forall (λ c, is_whitespace c = false) acc → Forall word (split_ws acc s).
Proof.
  induction s as [|c s IH]; intros acc Ha; cbn [split_ws].
  - case_bool_decide; [constructor|]. by constructor.
  - destruct (is_whitespace c) eqn:Ec; [|apply IH, Forall_app; split; [done|by constructor]].
    case_bool_decide; [by apply IH|]. constructor; [done|by apply IH].
Qed.
Lemma split_whitespace_words s : Forall word (split_whitespace s).
Proof. by apply split_ws_words. Qed.
Lemma split_whitespace_join ws s : Forall word ws → ws ≠ [] → split_whitespace (join_with (lit " ") ws ++ lit " " ++ s) = ws ++ split_whitespace s.
Proof.
  unfold split_whitespace. induction 1 as [|w ws [Hne Hw] Hws IH]; [done|]. intros _. destruct ws as [|w' ws].
  - change (split_ws [] (w ++ chr " " :: s) = [w] ++ split_ws [] s). by rewrite (split_ws_word w (chr " ") s []).
  - change (join_with (lit " ") (w :: w' :: ws)) with (w ++ chr " " :: join_with (lit " ") (w' :: ws)). rewrite <- app_assoc. cbn [app].
    rewrite (split_ws_word w (chr " ") _ []) by done. cbn [app]. f_equal. apply IH. done.
Qed.
Lemma bar_first (a b : rstring) : (chr "|" ∉ a) → find (lit " | ") (a ++ lit " | " ++ b) = Some (length a).
Proof.
  intros Ha. apply find_Some. split; [|split; [rewrite length_app; lia|]].
  - unfold occurs_at. rewrite drop_app_length. by eexists.
  - intros j Hj [r Hr]. destruct (decide (S j < length a)) as [Hlt|Hge].
    + apply Ha. apply list_elem_of_lookup_2 with (S j). assert ((a ++ lit " | " ++ b) !! S j = Some (chr "|")) as E.
      { replace (S j) with (j + 1) by lia. rewrite <- lookup_drop, Hr. done. }
      by rewrite lookup_app_l in E.
    + assert ((a ++ lit " | " ++ b) !! S j = Some (chr "|")) as E. { replace (S j) with (j + 1) by lia. rewrite <- lookup_drop, Hr. done. }
      rewrite lookup_app_r in E by lia. replace (S j - length a) with 0 in E by lia. discriminate E.
Qed.
Lemma split_once_bar (a b : rstring) : (chr "|" ∉ a) → split_once (lit " | ") (a ++ lit " | " ++ b) = Some (a, b).
Proof.
  intros Ha. unfold split_once. rewrite bar_first by done. cbn [mbind option_bind]. rewrite take_app_length, drop_app_ge by lia.
  replace (length a + length (lit " | ") - length a) with 3 by (cbn; lia). done.
Qed.
Lemma split_once_no_bar (a : rstring) : (chr "|" ∉ a) → split_once (lit " | ") a = None.
Proof.
  intros Ha. unfold split_once. destruct (find (lit " | ") a) as [i|] eqn:E; [|done]. apply find_Some in E as [[r Hr] _]. exfalso. apply Ha.
  apply list_elem_of_lookup_2 with (i + 1). by rewrite <- lookup_drop, Hr.
Qed.
Lemma split_str_no_bar (a : rstring) : (chr "|" ∉ a) → split_str (lit " | ") a = [a].
Proof. intros Ha. unfold split_str. destruct (length a); [done|]. cbn [split_str_fuel]. by rewrite split_once_no_bar. Qed.
Lemma split_str_bar (a b : rstring) : (chr "|" ∉ a) → (chr "|" ∉ b) → split_str (lit " | ") (a ++ lit " | " ++ b) = [a; b].
Proof.
  intros Ha Hb. unfold split_str. rewrite !length_app. cbn [length lit]. replace (length a + _) with (S (S (length a + 1 + length b))) by (cbn; lia).
  cbn [split_str_fuel]. rewrite split_once_bar by done. f_equal. by rewrite split_once_no_bar.
Qed.
(** Names of ASCII characters survive; no other character of the tag can be mistaken. *)
Definition plain_name (name : rstring) : Prop := name ≠ [] ∧ Forall (λ c, (c < 128)%N ∧ c ≠ cr) name.
Lemma encoded_chars name c : c ∈ encode_tag_value name → c ≠ chr "|" ∧ c ≠ newline ∧ c ≠ cr.
Proof.
  unfold encode_tag_value. intros Hc. apply list_elem_of_bind in Hc as (x & Hc & _). unfold encode_char in Hc.
  assert (∀ l : rstring, Forall (λ c, c ≠ chr "|" ∧ c ≠ newline ∧ c ≠ cr) l → c ∈ l → c ≠ chr "|" ∧ c ≠ newline ∧ c ≠ cr) as Hall.
  { intros l Hl. rewrite Forall_forall in Hl. apply Hl. }
  destruct (N.eqb_spec x (chr "%")) as [_|_]; [by apply (Hall (lit "%25")); [repeat constructor|]|].
  destruct (N.eqb_spec x (chr "|")) as [_|Hb]; [by apply (Hall (lit "%7C")); [repeat constructor|]|].
  destruct (N.eqb_spec x newline) as [_|Hn]; [by apply (Hall (lit "%0A")); [repeat constructor|]|].
  destruct (N.eqb_spec x cr) as [_|Hcr]; [by apply (Hall (lit "%0A")); [repeat constructor|]|].
  apply list_elem_of_singleton in Hc as ->. done.
Qed.
Lemma decode_other c bs : c ≠ chr "%" → decode_bytes (c :: bs) = c :: decode_bytes bs.
Proof. intros Hc. cbn [decode_bytes]. destruct bs as [|? [|]]; [done..|]. by rewrite (proj2 (N.eqb_neq _ _) Hc). Qed.
Lemma decode_escape b1 b2 v bs : from_hex b1 b2 = Some v → decode_bytes ([chr "%"; b1; b2] ++ bs) = v :: decode_bytes bs.
Proof. intros Hv. cbn [app decode_bytes]. by rewrite N.eqb_refl, Hv. Qed.
Lemma decode_encode name : Forall (λ c, (c < 128)%N ∧ c ≠ cr) name → decode_tag_value (encode_tag_value name) = name.
Proof.
  unfold decode_tag_value, encode_tag_value. induction 1 as [|c name [Hc Hcr] _ IH]; [done|]. cbn [mbind list_bind]. rewrite utf8_app.
  unfold encode_char. destruct (N.eqb_spec c (chr "%")) as [->|Hp].
  { change (utf8 (lit "%25")) with [chr "%"; chr "2"; chr "5"]. rewrite (decode_escape _ _ (chr "%")) by done. by f_equal. }
  destruct (N.eqb_spec c (chr "|")) as [->|Hb].
  { change (utf8 (lit "%7C")) with [chr "%"; chr "7"; chr "C"]. rewrite (decode_escape _ _ (chr "|")) by done. by f_equal. }
  rewrite (proj2 (N.eqb_neq _ _) Hcr), orb_false_r. destruct (N.eqb_spec c newline) as [->|Hn].
  { change (utf8 (lit "%0A")) with [chr "%"; chr "0"; chr "A"]. rewrite (decode_escape _ _ newline) by done. by f_equal. }
  assert (utf8 [c] = [c]) as ->. { cbn. unfold utf8_char. by rewrite (proj2 (N.ltb_lt _ _) Hc). }
  cbn [app]. rewrite decode_other by done. by f_equal.
Qed.
Lemma quoted_chars (x : char) p : x ∈ shell_quote_path p → x = chr "'" ∨ x = chr "\" ∨ x ∈ p.
Proof.
  unfold shell_quote_path. destruct (forallb _ p); [auto|]. rewrite !elem_of_app. intros [Hx|[Hx|Hx]].
  - left. by apply list_elem_of_singleton in Hx.
  - apply list_elem_of_bind in Hx as (y & Hx & Hy). unfold quote_char in Hx. destruct (N.eqb_spec y (chr "'")) as [_|_].
    + change (lit "'\''") with [chr "'"; chr "\"; chr "'"; chr "'"] in Hx. rewrite !elem_of_cons, elem_of_nil in Hx. tauto.
    + apply list_elem_of_singleton in Hx as ->. auto.
  - left. by apply list_elem_of_singleton in Hx.
Qed.
Lemma split_chars sep (p x : rstring) (c : char) : x ∈ split sep p → c ∈ x → c ∈ p.
Proof.
  revert x. induction p as [|d p IH]; intros x; cbn [split].
  - intros Hx Hc. apply list_elem_of_singleton in Hx as ->. done.
  - destruct (decide (d = sep)); [|destruct (split sep p) as [|y ys] eqn:E; [by destruct (split_not_nil sep p)|]]; rewrite !elem_of_cons.
    + intros [->|Hx] Hc; [by apply elem_of_nil in Hc|]. right. by eapply IH.
    + intros [->|Hx] Hc; [|right; eapply (IH x); [by right|done]]. apply elem_of_cons in Hc as [->|Hc]; [by left|]. right. eapply (IH y); [by left|done].
Qed.
(** A character is not in a given text. *)
Local Ltac not_in := apply (bool_decide_eq_true_1 _); vm_compute; reflexivity.
Lemma newline_parent p : newline ∉ p → newline ∉ default [] (parent p).
Proof.
  intros Hp. unfold parent. assert (∀ c, c ∈ components p → newline ∉ as_os_str c) as Hc.
  { assert (∀ piece, piece ∈ split slash p → ∀ c, piece_component piece = Some c → newline ∉ as_os_str c) as Hpiece.
    { intros piece Hin c. unfold piece_component. case_decide; [done|]. case_decide; intros [= <-]; cbn; [not_in|]. intros Hn. apply Hp. by eapply split_chars. }
    assert (∀ l : list rstring, (∀ x, x ∈ l → x ∈ split slash p) → ∀ c, c ∈ omap piece_component l → newline ∉ as_os_str c) as Hl.
    { intros l Hsub c Hc. apply list_elem_of_omap in Hc as (x & Hx & Hxc). by eapply Hpiece; [apply Hsub|]. }
    intros c. unfold components. destruct (is_absolute p).
    - rewrite elem_of_cons. intros [->|Hc]; [not_in|]. by eapply Hl; [|done].
    - destruct (split slash p) as [|first rest]; [by intros ?%elem_of_nil|]. rewrite elem_of_app. intros [Hc|Hc].
      + case_decide; [apply list_elem_of_singleton in Hc as ->; not_in|]. destruct (piece_component first) eqn:E; cbn in Hc; [|by apply elem_of_nil in Hc].
        apply list_elem_of_singleton in Hc as ->. by eapply Hpiece; [left|].
      + eapply Hl; [|exact Hc]. intros. by right. }
  assert (∀ l : list rstring, (∀ x, x ∈ l → newline ∉ x) → newline ∉ join_with [slash] l) as Hjoin.
  { induction l as [|x l IH]; intros Hl; [by apply not_elem_of_nil|]. destruct l as [|y l]; [by apply Hl; left|].
    change (join_with [slash] (x :: y :: l)) with (x ++ slash :: join_with [slash] (y :: l)). rewrite elem_of_app, elem_of_cons.
    intros [Hx|[Hx|Hx]]; [by apply (Hl x); [left|]|done|]. eapply IH; [|exact Hx]. intros z Hz. apply Hl. by right. }
  destruct (rev (components p)) as [|c cs] eqn:E; [by apply not_elem_of_nil|].
  assert (∀ x, x ∈ as_os_str <$> rev cs → newline ∉ x) as Hr.
  { intros x Hx. apply list_elem_of_fmap in Hx as (d & -> & Hd). apply Hc. rewrite <- (rev_involutive (components p)), E. cbn. apply elem_of_app. by left. }
  assert (newline ∉ render (rev cs)) as Hrender.
  { unfold render. destruct (rev cs) as [|[| | |] r]; try by apply Hjoin. rewrite elem_of_cons. intros [|Hx]; [done|]. eapply Hjoin; [|exact Hx].
    intros x Hx'. apply Hr. cbn. by right. }
  destruct c; [apply not_elem_of_nil|exact Hrender..].
Qed.

Lemma not_blank ws rest : ws ≠ [] → Forall word ws → trim (join_with (lit " ") ws ++ rest) ≠ [].
Proof.
  intros Hne Hw Htrim. destruct ws as [|w ws]; [done|]. apply Forall_cons in Hw as [[Hwne Hw] _]. destruct w as [|c w]; [done|].
  apply Forall_cons in Hw as [Hc _].
  assert (∃ t, join_with (lit " ") ((c :: w) :: ws) ++ rest = c :: t) as [t Et] by (destruct ws; cbn; eauto).
  rewrite Et in Htrim. unfold trim, trim_start in Htrim. cbn [trim_start_matches] in Htrim. rewrite Hc in Htrim.
  destruct (trim_end_matches_split is_whitespace (c :: t)) as (b & Eb & Hb). unfold trim_end in Htrim. rewrite Htrim in Eb. cbn in Eb. subst b.
  apply Forall_cons in Hb as [Hc' _]. congruence.
Qed.
Lemma line_ok_tail k l : newline ∉ k → line_ok l → l ≠ [] → line_ok (k ++ l).
Proof.
  intros Hk [Hl Hlast] Hne. split; [by rewrite elem_of_app; intros [|]|]. rewrite last_app. destruct (last l) eqn:E; [done|]. by apply last_None in E.
Qed.
Lemma line_ok_chars (l : rstring) : Forall (λ c, c ≠ newline ∧ c ≠ cr) l → line_ok l.
Proof.
  intros Hl. rewrite Forall_forall in Hl. split; [by intros Hn; apply Hl in Hn as [? _]|].
  intros Hc. apply last_Some in Hc as [k ->]. apply (Hl cr); [|done]. apply elem_of_app. right. by left.
Qed.
Lemma quoted_line p : newline ∉ p → newline ∉ shell_quote_path p.
Proof. by intros Hp [|[|]]%quoted_chars. Qed.
Lemma words_line ws : Forall word ws → newline ∉ join_with (lit " ") ws.
Proof.
  assert (∀ w, word w → newline ∉ w) as Hword.
  { intros w [_ Hw] Hn. rewrite Forall_forall in Hw. by apply Hw in Hn. }
  induction 1 as [|w ws Hw Hws IH]; [by apply not_elem_of_nil|]. destruct ws as [|w' ws]; [by apply Hword|].
  change (join_with (lit " ") (w :: w' :: ws)) with (w ++ lit " " ++ join_with (lit " ") (w' :: ws)). rewrite !elem_of_app.
  intros [Hx|[Hx|Hx]]; [by apply Hword in Hx|revert Hx; not_in|done].
Qed.
Lemma line_app (a b : rstring) : newline ∉ a → newline ∉ b → newline ∉ a ++ b.
Proof. rewrite elem_of_app. tauto. Qed.
Lemma command_line_ok five ata prompt log : newline ∉ five → newline ∉ ata → newline ∉ prompt → newline ∉ log → line_ok (command_line five ata prompt log).
Proof.
  intros H5 Ha Hp Hl. unfold command_line. assert (newline ∉ default [] (parent ata)) as Hb by by apply newline_parent.
  rewrite !app_assoc. apply line_ok_tail; [|split; [not_in|done]|done].
  repeat apply line_app; try by first [done|apply quoted_line|not_in].
  case_bool_decide; [by apply not_elem_of_nil|]. repeat apply line_app; try by first [done|apply quoted_line|not_in].
Qed.
Lemma push_line p q : newline ∉ p → newline ∉ q → newline ∉ push p q.
Proof.
  intros Hp Hq. unfold push. destruct (is_absolute q); [done|]. case_decide; [by apply line_app|]. apply line_app; [done|]. rewrite elem_of_cons. intros [|]; done.
Qed.

(** ** The crontab with one more job *)
Section roundtrip.
Context {Schedule : Type} (schedule_from_str : rstring → rstring + Schedule) (to_rfc3339 : Time → rstring) (parse_from_rfc3339 : rstring → option Time).
Context (parse_printed : ∀ t, parse_from_rfc3339 (to_rfc3339 t) = Some t).
Context (printed_chars : ∀ t, Forall (λ c, c ≠ chr "|" ∧ c ≠ newline ∧ c ≠ cr) (to_rfc3339 t)).
Context (dir : rstring) (read_file : rstring → option rstring) (dir_line : newline ∉ dir).
#[local] Abbreviation parse_lines := (parse_lines parse_from_rfc3339 (Ok dir) read_file).
#[local] Abbreviation parse_crontab := (parse_crontab parse_from_rfc3339 (Ok dir) read_file).
#[local] Abbreviation insert := (insert schedule_from_str to_rfc3339 (Ok dir)).
#[local] Abbreviation six_field_to_five := (six_field_to_five schedule_from_str).
(** Ids are UUIDs; names are trimmed ([with_name]). *)
Definition job_ok (j : CronJob) : Prop :=
  (chr "|" ∉ job_id j) ∧ (newline ∉ job_id j) ∧ trim (job_id j) = job_id j ∧ match job_name j with Some name => plain_name name | None => True end.
Definition entry_of (j : CronJob) (five : rstring) : AtaCronEntry :=
  mk_entry (job_id j) five (default [] (read_file (push dir (job_id j ++ lit ".prompt")))) (Some (created_at j)) (push dir (job_id j ++ lit ".log")) (job_name j).
Lemma parse_lines_app ls k es : ∀ pending, parse_lines pending ls = Ok es → parse_lines pending (ls ++ k) = (let? more := parse_lines None k in Ok (es ++ more)).
Proof using Type.
  revert es. induction ls as [|line ls IH]; intros es pending; cbn [app Crontab.parse_lines].
  - destruct pending as [[[? ?] ?]|]; [done|]. intros [= <-]. by destruct (parse_lines None k).
  - destruct pending as [tag|].
    + case_bool_decide; [by apply IH|]. destruct (schedule_entry _ _ tag line) as [entry| |]; [|done..]. cbn [mbind outcome_bind].
      destruct (parse_lines None ls) as [es'| |] eqn:E; [|done..]. cbn [mbind outcome_bind]. intros [= <-]. rewrite (IH es' None E).
      by destruct (parse_lines None k).
    + destruct (strip_prefix TAG_PREFIX line); apply IH.
Qed.
Lemma six_fields e five : six_field_to_five e = Ok five → ∃ ws, five = join_with (lit " ") ws ∧ length ws = 5 ∧ Forall word ws.
Proof using Type.
  unfold Crontab.six_field_to_five. destruct (schedule_from_str e); [done|]. destruct (Nat.eqb_spec (length (split_whitespace e)) 6) as [E|]; [|done].
  cbn [negb]. destruct (_ && _); [done|]. intros [= <-]. exists (drop 1 (split_whitespace e)). split_and!; [done|rewrite length_drop; lia|].
  apply Forall_drop, split_whitespace_words.
Qed.
Lemma no_name ts : strip_prefix (lit "name=") (lit "created=" ++ ts) = None.
Proof using Type. apply strip_prefix_None. intros [k Hk]. discriminate Hk. Qed.
Lemma tag_entry_of j : job_ok j →
  tag_entry parse_from_rfc3339 (job_id j ++ lit " | created=" ++ to_rfc3339 (created_at j)
    ++ match job_name j with Some name => lit " | name=" ++ encode_tag_value name | None => [] end) = (job_id j, Some (created_at j), job_name j).
Proof using parse_printed printed_chars.
  intros (Hbar & _ & Htrim & Hname). unfold tag_entry.
  set (rest := to_rfc3339 (created_at j) ++ _). change (lit " | created=" ++ rest) with (lit " | " ++ (lit "created=" ++ rest)).
  rewrite split_once_bar by done. rewrite Htrim. subst rest. set (ts := to_rfc3339 (created_at j)).
  assert (chr "|" ∉ lit "created=" ++ ts) as Hts.
  { rewrite elem_of_app. intros [Hx|Hx]; [revert Hx; not_in|].
    pose proof (printed_chars (created_at j)) as Hp. rewrite Forall_forall in Hp. by apply Hp in Hx as [? _]. }
  destruct (job_name j) as [name|].
  - change (lit " | name=" ++ encode_tag_value name) with (lit " | " ++ (lit "name=" ++ encode_tag_value name)). rewrite app_assoc.
    rewrite split_str_bar; [|done|]. 2: { rewrite elem_of_app. intros [Hx|Hx]; [revert Hx; not_in|].
      by apply encoded_chars in Hx as [? _]. }
    destruct Hname as [Hne Hascii]. unfold find_map. cbn [omap list_omap].
    rewrite (proj2 (strip_prefix_Some (lit "created=") _ ts)) by done. rewrite no_name.
    rewrite (proj2 (strip_prefix_Some (lit "name=") _ (encode_tag_value name))) by done. cbn [head mbind option_bind]. unfold ts. rewrite parse_printed, decode_encode by done.
    by rewrite bool_decide_eq_false_2.
  - rewrite app_nil_r, split_str_no_bar by done. unfold find_map. cbn [omap list_omap].
    rewrite (proj2 (strip_prefix_Some (lit "created=") _ ts)) by done.
    rewrite no_name. cbn [head mbind option_bind]. unfold ts. by rewrite parse_printed.
Qed.
Lemma schedule_entry_of j ws rest : length ws = 5 → Forall word ws →
  schedule_entry (Ok dir) read_file (job_id j, Some (created_at j), job_name j) (join_with (lit " ") ws ++ lit " " ++ rest)
    = Ok (entry_of j (join_with (lit " ") ws)).
Proof using Type.
  intros Hl Hw. unfold schedule_entry. rewrite split_whitespace_join by (done || by destruct ws). rewrite <- Hl, take_app_length.
  destruct (Nat.ltb_spec (length ws) (length ws)); [lia|]. done.
Qed.
Lemma tag_line_ok j : job_ok j → line_ok (tag_line to_rfc3339 j).
Proof using printed_chars.
  intros (_ & Hnl & _ & _). pose proof (printed_chars (created_at j)) as Hp. rewrite Forall_forall in Hp. unfold tag_line. rewrite app_assoc.
  apply line_ok_tail; [rewrite elem_of_app; intros [Hx|Hx]; [revert Hx; not_in|done]| |done].
  apply line_ok_chars, Forall_forall. intros c. rewrite !elem_of_app. intros [Hx|[Hx|Hx]].
  - assert (Forall (λ c, c ≠ newline ∧ c ≠ cr) (lit " | created=")) as Hf by (repeat constructor; done). rewrite Forall_forall in Hf. by apply Hf.
  - by apply Hp in Hx as (_ & ? & ?).
  - destruct (job_name j); [|by apply elem_of_nil in Hx]. apply elem_of_app in Hx as [Hx|Hx].
    + assert (Forall (λ c, c ≠ newline ∧ c ≠ cr) (lit " | name=")) as Hf by (repeat constructor; done). rewrite Forall_forall in Hf. by apply Hf.
    + by apply encoded_chars in Hx as (_ & ? & ?).
Qed.
Lemma parse_block j five prompt_file log_file ata : job_ok j → six_field_to_five (cron_expr j) = Ok five →
  parse_lines None [tag_line to_rfc3339 j; command_line five ata prompt_file log_file] = Ok [entry_of j five].
Proof using parse_printed printed_chars.
  intros Hj Hfive. destruct (six_fields _ _ Hfive) as (ws & -> & Hlen & Hws). cbn [Crontab.parse_lines]. unfold tag_line.
  rewrite (proj2 (strip_prefix_Some TAG_PREFIX _ _) eq_refl), tag_entry_of by done. unfold command_line.
  rewrite bool_decide_eq_false_2 by (apply not_blank; [by destruct ws|done]). by rewrite schedule_entry_of.
Qed.
Lemma delete_block tag ls a b : Forall (λ l, starts_with l tag = false) ls → starts_with a tag = true → delete_lines tag false (ls ++ [a; b]) = (text_of ls, true).
Proof using Type.
  intros Hls Ha. induction Hls as [|l ls Hl Hls IH]; cbn [app delete_lines]; [by rewrite Ha|]. by rewrite Hl, IH, text_of_cons.
Qed.
(** C17: a job put into the crontab ([insert], [parse_crontab], [delete]): the lines of the user stay where they are and two
    more follow, so the jobs read from the crontab are the ones read before and then this one, with its id, its five fields,
    its time of creation, its name and the paths of its files; and deleting it gives the crontab as it was. This holds of a
    crontab that can be read, whose lines end with a newline and not with a carriage return, and in which no tag begins with
    the id ([prefixes_of_ids_are_deleted]); of a job whose expression has five fields, whose id is trimmed and has no bar
    and no newline, and whose name, if any, is ASCII without carriage returns and not empty ([names_are_read_as_bytes]); and where
    the paths have no newline and printed times are read back. *)
Theorem crontab_roundtrip ls es ata j five :
  Forall line_ok ls → parse_crontab (text_of ls) = Ok es → newline ∉ ata → job_ok j → six_field_to_five (cron_expr j) = Ok five →
  Forall (λ l, starts_with l (TAG_PREFIX ++ job_id j) = false) ls →
  ∃ new, insert (Ok ata) (Ok (text_of ls)) j = Ok new ∧ (∃ a b, new = text_of (ls ++ [a; b])) ∧
    parse_crontab new = Ok (es ++ [entry_of j five]) ∧
    delete (Ok new) (job_id j) = Ok (Some (text_of ls)).
Proof using parse_printed printed_chars dir_line.
  intros Hls Hes Hata Hj Hfive Hown. set (a := tag_line to_rfc3339 j). destruct (six_fields _ _ Hfive) as (ws & Ews & Hlen & Hws).
  set (b := command_line five ata (push dir (job_id j ++ lit ".prompt")) (push dir (job_id j ++ lit ".log"))).
  assert (newline ∉ job_id j) as Hid by apply Hj.
  assert (Forall line_ok (ls ++ [a; b])) as Hnew.
  { apply Forall_app. split; [done|]. repeat constructor; try (by apply tag_line_ok). all: apply command_line_ok; try done.
    all: try (subst five; by apply words_line). all: apply push_line; [done|]; apply line_app; [done|not_in]. }
  exists (text_of (ls ++ [a; b])). split_and!; [|by exists a, b| |].
  - unfold Crontab.insert, prompt_path, log_path, format_entry, append_block. cbn [mbind outcome_bind]. rewrite Hfive. cbn [mbind outcome_bind].
    fold a b. f_equal. rewrite text_of_app. assert (a ++ newline :: b ++ [newline] = text_of [a; b]) as -> by (by rewrite !text_of_cons).
    destruct ls as [|l ls] using rev_ind; [done|]. rewrite text_of_app. assert (ends_with (text_of ls ++ text_of [l]) [newline] = true) as ->; [|by rewrite andb_false_r].
    apply ends_with_spec. exists (text_of ls ++ l). rewrite text_of_cons, <- app_assoc. done.
  - unfold Crontab.parse_crontab. rewrite lines_text_of by done. unfold Crontab.parse_crontab in Hes. rewrite lines_text_of in Hes by done.
    rewrite (parse_lines_app _ _ _ _ Hes). unfold a, b. by rewrite (parse_block j five).
  - unfold delete. cbn [mbind outcome_bind]. rewrite lines_text_of, delete_block; [done|done| |done].
    apply starts_with_spec. unfold a, tag_line. rewrite app_assoc. by apply prefix_app_r.
Qed.
End roundtrip.

(** ** At concrete inputs *)
(** A printer of times that can be read back, and a cron crate that accepts every expression. *)
Definition print_time (t : Time) : rstring := [(200 + N.pos (encode t))%N].
Definition read_time (s : rstring) : option Time :=
  match s with [c] => match (c - 200)%N with N.pos p => decode p | N0 => None end | _ => None end.
Definition any_schedule (e : rstring) : rstring + unit := inr ().
Definition a_job (id name expr : rstring) : CronJob :=
  mk_cron id expr (lit "say hi") Pending 7%Z None None 0%N true None None None (Some name) [].
Definition user_lines : list rstring := [lit "# mine"; lit "0 9 * * * /bin/true"; []; lit "# ata-cron:x1 | created=?"; lit "*/2 * * * * ata"].
Lemma read_printed t : read_time (print_time t) = Some t.
Proof.
  unfold read_time, print_time. replace (200 + N.pos (encode t) - 200)%N with (N.pos (encode t)) by lia. apply countable.decode_encode.
Qed.
Lemma printed_time_chars t : Forall (λ c, c ≠ chr "|" ∧ c ≠ newline ∧ c ≠ cr) (print_time t).
Proof.
  constructor; [|done]. change (chr "|") with 124%N. change newline with 10%N. change cr with 13%N. lia.
Qed.
Lemma crontab_roundtrip_witness :
  ∃ new es j, insert any_schedule print_time (Ok (lit "/h/.ata/cron")) (Ok (lit "/opt/my tools/ata")) (Ok (text_of user_lines)) j = Ok new ∧
    parse_crontab read_time (Ok (lit "/h/.ata/cron")) (λ _, None) new = Ok es ∧ length es = 2 ∧ delete (Ok new) (job_id j) = Ok (Some (text_of user_lines)).
Proof.
  set (j := a_job (lit "x2") (lit "100% | stars") (lit "0 */5 * * * *")).
  assert (job_ok j) as Hj by (split_and!; [not_in|not_in|done|split; [done|not_in]]).
  destruct (crontab_roundtrip any_schedule print_time read_time read_printed printed_time_chars (lit "/h/.ata/cron") (λ _, None)
    ltac:(not_in) user_lines [mk_entry (lit "x1") (lit "*/2 * * * *") [] None (lit "/h/.ata/cron/x1.log") None] (lit "/opt/my tools/ata") j
    (lit "*/5 * * * *") ltac:(not_in) eq_refl ltac:(not_in) Hj eq_refl ltac:(not_in)) as (new & Hinsert & _ & Hparse & Hdelete).
  exists new, (([mk_entry (lit "x1") (lit "*/2 * * * *") [] None (lit "/h/.ata/cron/x1.log") None] ++ [entry_of (lit "/h/.ata/cron") (λ _, None) j (lit "*/5 * * * *")])), j. split_and!; [exact Hinsert|exact Hparse|done|exact Hdelete].
Defined.

(** ** What the code does not do *)
(** [decode_tag_value] is not the inverse of [encode_tag_value] outside of ASCII: an e with an acute accent is read back as two characters. *)
Example names_are_read_as_bytes : decode_tag_value (encode_tag_value [233%N]) = [195%N; 169%N].
Proof. reflexivity. Qed.
(** [delete] removes every job whose id starts with the one given; the empty one removes all of them. *)
Example prefixes_of_ids_are_deleted :
  delete (Ok (text_of [lit "# ata-cron:x1 | created=?"; lit "* * * * * a"; lit "# ata-cron:x2 | created=?"; lit "* * * * * b"])) (lit "x") = Ok (Some []).
Proof. vm_compute. reflexivity. Qed.
(** The reader skips blank lines between the tag and the schedule, [delete] takes one of them for the schedule and leaves the
    command in the crontab, where it keeps running and is listed no more. *)
Example blank_lines_keep_the_job_running :
  let content := text_of [lit "# ata-cron:x1"; []; lit "* * * * * ata"] in
  (∃ e, parse_crontab read_time (Ok []) (λ _, None) content = Ok [e]) ∧ delete (Ok content) (lit "x1") = Ok (Some (text_of [lit "* * * * * ata"])).
Proof. split; [eexists|]; vm_compute; reflexivity. Qed.
(** Every second is taken for every minute. *)
Example every_second_becomes_every_minute : six_field_to_five any_schedule (lit "* * * * * *") = Ok (lit "* * * * *").
Proof. reflexivity. Qed.
