(* ===== verification/ConfigMerge.v ===== *)
(** * Merging configuration documents ([config/src/merge.rs], [key_aliases.rs], [overrides.rs], [fingerprint.rs])

    TOML values, the names that were renamed, overlaying one document on another, overrides given as dotted paths, and
    the record of which layer a value came from.  A table is the list of its entries in order of insertion (the map of
    the toml crate with [preserve_order]); its keys are distinct. *)
From S2P Require Import Prelude RustStr RustPath.
From S2P Require NetworkPolicy.

(** ** Values and tables *)
#[local] Unset Elimination Schemes.
(** Floats are their bits, dates their text. *)
Inductive TomlValue :=
| TString (s : rstring) | TInteger (i : Z) | TFloat (bits : N) | TBoolean (b : bool) | TDatetime (text : rstring)
| TArray (items : list TomlValue) | TTable (table : list (rstring * TomlValue)).
#[local] Set Elimination Schemes.
Abbreviation Table := (list (rstring * TomlValue)).
Abbreviation Path := (list rstring).
Definition TomlValue_ind (P : TomlValue → Prop) (fs : ∀ s, P (TString s)) (fi : ∀ i, P (TInteger i)) (ff : ∀ b, P (TFloat b)) (fb : ∀ b, P (TBoolean b))
  (fd : ∀ d, P (TDatetime d)) (fa : ∀ items, Forall P items → P (TArray items)) (ft : ∀ t, Forall (λ e, P e.2) t → P (TTable t)) : ∀ v, P v :=
  fix go v := match v with
  | TString s => fs s | TInteger i => fi i | TFloat b => ff b | TBoolean b => fb b | TDatetime d => fd d
  | TArray items => fa items ((fix each l : Forall P l := match l with [] => List.Forall_nil _ | x :: l => Forall_cons_2 _ _ _ (go x) (each l) end) items)
  | TTable t => ft t ((fix each l : Forall (λ e, P e.2) l := match l with [] => List.Forall_nil _ | e :: l => Forall_cons_2 _ _ _ (go e.2) (each l) end) t)
  end.
Section table.
Context {A : Type}.
Implicit Types t : list (rstring * A).
Fixpoint table_get (key : rstring) t : option A :=
  match t with [] => None | (k, v) :: t => if decide (k = key) then Some v else table_get key t end.
(** A new key goes to the end, an old one keeps its place. *)
Fixpoint table_insert (key : rstring) (value : A) t : list (rstring * A) :=
  match t with
  | [] => [(key, value)]
  | (k, v) :: t => if decide (k = key) then (k, value) :: t else (k, v) :: table_insert key value t
  end.
Definition table_remove (key : rstring) t : list (rstring * A) := List.filter (λ e, negb (bool_decide (e.1 = key))) t.
Definition or_insert (key : rstring) (value : A) t : list (rstring * A) := match table_get key t with Some _ => t | None => table_insert key value t end.
End table.

(** ** Renamed keys ([key_aliases.rs]) *)
Record ConfigKeyAlias := mk_alias { table_path : Path; legacy_key : rstring; canonical_key : rstring }.
Definition CONFIG_KEY_ALIASES : list ConfigKeyAlias :=
  [mk_alias [lit "memories"] (lit "no_memories_if_mcp_or_web_search") (lit "disable_on_external_context")].
Definition normalize_key_alias {A} (path : Path) (t : list (rstring * A)) (alias : ConfigKeyAlias) : list (rstring * A) :=
  if bool_decide (path = table_path alias) then
    match table_get (legacy_key alias) t with
    | Some value => or_insert (canonical_key alias) value (table_remove (legacy_key alias) t)
    | None => t
    end
  else t.
Definition normalize_key_aliases {A} (path : Path) (t : list (rstring * A)) : list (rstring * A) := foldl (normalize_key_alias path) t CONFIG_KEY_ALIASES.
Fixpoint normalized_with_key_aliases (value : TomlValue) (path : Path) : TomlValue :=
  match value with
  | TTable t => TTable (normalize_key_aliases path (map (λ e, (e.1, normalized_with_key_aliases e.2 (path ++ [e.1]))) t))
  | TArray items => TArray (map (λ item, normalized_with_key_aliases item path) items)
  | _ => value
  end.

(** ** Overlaying ([merge.rs]) *)
Definition is_permission_network_domains_path (path : Path) : bool :=
  match path with
  | [permissions; _; network; domains] => bool_decide (permissions = lit "permissions") && bool_decide (network = lit "network") && bool_decide (domains = lit "domains")
  | _ => false
  end.
Definition normalize_network_domain_keys {A} (t : list (rstring * A)) : list (rstring * A) :=
  foldl (λ t '(pattern, value), table_insert (NetworkPolicy.normalize_host pattern) value t) [] t.
(** What is done to either table before its entries are overlaid. *)
Definition prepare {A} (path : Path) (t : list (rstring * A)) : list (rstring * A) :=
  let t := normalize_key_aliases path t in if is_permission_network_domains_path path then normalize_network_domain_keys t else t.
(** Renaming only moves entries, so every entry of the overlay carries its merge with it ([merge_tables]: the loop of the code). *)
Fixpoint merge_toml_values_at_path (base overlay : TomlValue) (path : Path) {struct overlay} : TomlValue :=
  match overlay, base with
  | TTable overlay_table, TTable base_table =>
      let entries := prepare path (map (λ e, (e.1, (e.2, λ existing path, merge_toml_values_at_path existing e.2 path))) overlay_table) in
      TTable (foldl (λ t '(key, (value, merge)),
        match table_get key t with
        | Some existing => table_insert key (merge existing (path ++ [key])) t
        | None => table_insert key (normalized_with_key_aliases value (path ++ [key])) t
        end) (prepare path base_table) entries)
  | _, _ => normalized_with_key_aliases overlay path
  end.
Definition merge_toml_values (base overlay : TomlValue) : TomlValue := merge_toml_values_at_path base overlay [].

(** ** Overrides of the command line ([overrides.rs]) *)
Definition table_of (v : TomlValue) : Table := match v with TTable t => t | _ => [] end.
Fixpoint override_at (current : TomlValue) (segments : Path) (value : TomlValue) : TomlValue :=
  match segments with
  | [] => current
  | [segment] => TTable (table_insert segment value (table_of current))
  | segment :: rest =>
      let t := table_of current in
      TTable (table_insert segment (override_at (default (TTable []) (table_get segment t)) rest value) t)
  end.
Definition apply_toml_override (root : TomlValue) (path : rstring) (value : TomlValue) : TomlValue := override_at root (split (chr ".") path) value.
Definition build_cli_overrides_layer (cli_overrides : list (rstring * TomlValue)) : TomlValue :=
  foldl (λ root '(path, value), apply_toml_override root path value) (TTable []) cli_overrides.

(** ** Origins ([fingerprint.rs]) *)
Fixpoint record_origins {M} (value : TomlValue) (meta : M) (path : Path) (origins : gmap rstring M) : gmap rstring M :=
  match value with
  | TTable t => foldl (λ origins record, record origins) origins (map (λ e, record_origins e.2 meta (path ++ [e.1])) t)
  | TArray items =>
      (fix each (idx : nat) items origins := match items with
       | [] => origins
       | item :: items => each (S idx) items (record_origins item meta (path ++ [show (N.of_nat idx)]) origins)
       end) 0 items origins
  | _ => if bool_decide (path ≠ []) then <[join_with [chr "."] path := meta]> origins else origins
  end.

(** ** Lemmas: tables *)
Section tables.
Context {A : Type}.
Implicit Types t : list (rstring * A).
Lemma table_get_insert k k' v t : table_get k (table_insert k' v t) = if decide (k = k') then Some v else table_get k t.
Proof.
  induction t as [|[k1 v1] t IH]; cbn.
  - by repeat case_decide; simplify_eq.
  - destruct (decide (k1 = k')) as [->|H1]; cbn; [|rewrite IH]; repeat case_decide; by simplify_eq.
Qed.
Lemma table_get_remove k k' t : table_get k (table_remove k' t) = if decide (k = k') then None else table_get k t.
Proof.
  induction t as [|[k1 v1] t IH]; cbn; [by case_decide|]. case_bool_decide as H1; cbn; [|]; rewrite ?IH; repeat case_decide; by simplify_eq.
Qed.
Lemma table_get_or_insert k k' v t : table_get k (or_insert k' v t) = if decide (k = k') then Some (default v (table_get k t)) else table_get k t.
Proof.
  unfold or_insert. destruct (table_get k' t) eqn:E; [|rewrite table_get_insert]; case_decide; subst; by rewrite ?E.
Qed.
Lemma table_get_elem k v t : table_get k t = Some v → (k, v) ∈ t.
Proof.
  induction t as [|[k1 v1] t IH]; cbn; [done|]. case_decide as H1; [intros [= ->]; subst; by left|]. intros H. right. auto.
Qed.
Lemma table_get_None k t : table_get k t = None ↔ k ∉ t.*1.
Proof.
  induction t as [|[k1 v1] t IH]; cbn; [by split; [intros _; apply not_elem_of_nil|]|].
  case_decide as H1; rewrite not_elem_of_cons, <- IH; naive_solver.
Qed.
Lemma elem_table_get k v t : NoDup t.*1 → (k, v) ∈ t → table_get k t = Some v.
Proof.
  induction t as [|[k1 v1] t IH]; cbn; [by intros _ ?%elem_of_nil|]. intros [Hk1 Hnd]%NoDup_cons [[= <- <-]|Hin]%elem_of_cons; [by rewrite decide_True|].
  rewrite decide_False; [by apply IH|]. intros ->. apply Hk1. by apply (list_elem_of_fmap_2 fst) in Hin.
Qed.
Lemma table_insert_keys k v t k' : k' ∈ (table_insert k v t).*1 ↔ k' = k ∨ k' ∈ t.*1.
Proof.
  induction t as [|[k1 v1] t IH]; cbn; [by rewrite list_elem_of_singleton, elem_of_nil; naive_solver|].
  case_decide as H1; cbn; rewrite !elem_of_cons; [subst; naive_solver|]. rewrite IH. naive_solver.
Qed.
Lemma NoDup_table_insert k v t : NoDup t.*1 → NoDup (table_insert k v t).*1.
Proof.
  induction t as [|[k1 v1] t IH]; cbn; [by intros; apply NoDup_singleton|]. intros [Hk1 Hnd]%NoDup_cons.
  case_decide as H1; cbn; [by apply NoDup_cons|]. apply NoDup_cons. split; [|by apply IH]. rewrite table_insert_keys. intros [|]; congruence.
Qed.
Lemma NoDup_table_remove k t : NoDup t.*1 → NoDup (table_remove k t).*1.
Proof.
  induction t as [|[k1 v1] t IH]; cbn; [done|]. intros [Hk1 Hnd]%NoDup_cons. case_bool_decide; cbn; [auto|]. apply NoDup_cons. split; [|auto].
  intros Hin. apply Hk1. apply list_elem_of_fmap in Hin as (e & -> & He). apply list_elem_of_In, List.filter_In in He as [He _].
  apply list_elem_of_fmap. exists e. by rewrite list_elem_of_In.
Qed.
Lemma table_insert_elem k v t e : e ∈ table_insert k v t → e = (k, v) ∨ e ∈ t.
Proof.
  induction t as [|[k1 v1] t IH]; cbn; [by intros ->%list_elem_of_singleton; left|].
  case_decide as H1; [subst|]; rewrite !elem_of_cons; naive_solver.
Qed.
Lemma table_remove_elem k t e : e ∈ table_remove k t → e ∈ t.
Proof. intros He. apply list_elem_of_In, List.filter_In in He as [He _]. by apply list_elem_of_In. Qed.
End tables.

(** ** Lemmas: renamed keys *)
Definition MEMORIES : Path := [lit "memories"].
Section aliases.
Context {A : Type}.
Implicit Types t : list (rstring * A).
Lemma aliases_other path t : path ≠ MEMORIES → normalize_key_aliases path t = t.
Proof. intros Hp. cbn. unfold normalize_key_alias. by rewrite bool_decide_eq_false_2. Qed.
Lemma table_get_map {B} (f : rstring → A → B) k t : table_get k (map (λ e, (e.1, f e.1 e.2)) t) = f k <$> table_get k t.
Proof. induction t as [|[k1 v1] t IH]; cbn; [done|]. case_decide; [by subst|done]. Qed.
Lemma table_insert_map {B} (f : A → B) k v t : table_insert k (f v) (map (λ e, (e.1, f e.2)) t) = map (λ e, (e.1, f e.2)) (table_insert k v t).
Proof. induction t as [|[k1 v1] t IH]; cbn; [done|]. case_decide; cbn; [done|]. by rewrite IH. Qed.
Lemma table_remove_map {B} (f : A → B) k t : table_remove k (map (λ e, (e.1, f e.2)) t) = map (λ e, (e.1, f e.2)) (table_remove k t).
Proof. unfold table_remove. induction t as [|[k1 v1] t IH]; cbn; [done|]. case_bool_decide; cbn; by rewrite IH. Qed.
Lemma alias_map {B} (f : A → B) path t a :
  normalize_key_alias path (map (λ e, (e.1, f e.2)) t) a = map (λ e, (e.1, f e.2)) (normalize_key_alias path t a).
Proof.
  unfold normalize_key_alias. case_bool_decide; [|done]. rewrite (table_get_map (λ _, f)). destruct (table_get _ t) as [v|]; [|done]. cbn [fmap option_fmap option_map].
  unfold or_insert. rewrite table_remove_map, (table_get_map (λ _, f)). destruct (table_get (canonical_key a) _); [done|]. apply table_insert_map.
Qed.
Lemma alias_elem path t a e : e ∈ normalize_key_alias path t a → ∃ k, (k, e.2) ∈ t.
Proof.
  unfold normalize_key_alias. case_bool_decide; [|intros; destruct e; by eexists].
  destruct (table_get _ t) as [v|] eqn:E; [|intros; destruct e; by eexists]. unfold or_insert. apply table_get_elem in E. intros He.
  assert (e = (canonical_key a, v) ∨ e ∈ t) as [->|Hin]; [|by eexists|destruct e; by eexists].
  destruct (table_get (canonical_key a) _); [right; by eapply table_remove_elem|]. apply table_insert_elem in He as [|]; [by left|right; by eapply table_remove_elem].
Qed.
Lemma alias_NoDup path t a : NoDup t.*1 → NoDup (normalize_key_alias path t a).*1.
Proof.
  intros Hnd. unfold normalize_key_alias. case_bool_decide; [|done]. destruct (table_get _ t); [|done]. unfold or_insert.
  destruct (table_get (canonical_key a) _); [by apply NoDup_table_remove|by apply NoDup_table_insert, NoDup_table_remove].
Qed.
(** Keys of the network's domains. *)
Lemma domain_keys_map {B} (f : A → B) t : normalize_network_domain_keys (map (λ e, (e.1, f e.2)) t) = map (λ e, (e.1, f e.2)) (normalize_network_domain_keys t).
Proof.
  unfold normalize_network_domain_keys. change (@nil (rstring * B)) with (map (λ e, (e.1, f e.2)) (@nil (rstring * A))) at 1. generalize (@nil (rstring * A)).
  induction t as [|[k v] t IH]; intros acc; cbn; [done|]. by rewrite table_insert_map, IH.
Qed.
Lemma prepare_map {B} (f : A → B) path t : prepare path (map (λ e, (e.1, f e.2)) t) = map (λ e, (e.1, f e.2)) (prepare path t).
Proof. unfold prepare. cbn. rewrite alias_map. destruct (is_permission_network_domains_path path); [apply domain_keys_map|done]. Qed.
Lemma domain_keys_NoDup t : NoDup (normalize_network_domain_keys t).*1.
Proof.
  unfold normalize_network_domain_keys. assert (NoDup (@nil (rstring * A)).*1) as H0 by constructor. revert H0. generalize (@nil (rstring * A)).
  induction t as [|[k v] t IH]; intros acc H0; cbn; [done|]. apply IH. by apply NoDup_table_insert.
Qed.
Lemma prepare_NoDup path t : NoDup t.*1 → NoDup (prepare path t).*1.
Proof.
  intros Hnd. unfold prepare. destruct (is_permission_network_domains_path path); [apply domain_keys_NoDup|]. by apply alias_NoDup.
Qed.
End aliases.
Lemma deep_normal v : ∀ path, 2 ≤ length path → normalized_with_key_aliases v path = v.
Proof.
  induction v as [| | | | |items IH|t IH] using TomlValue_ind; intros path Hp; cbn [normalized_with_key_aliases]; try done.
  - f_equal. rewrite <- (map_id items) at 2. apply map_ext_Forall. eapply Forall_impl; [exact IH|]. cbn. auto.
  - rewrite aliases_other by (intros ->; cbn in Hp; lia). f_equal. rewrite <- (map_id t) at 2. apply map_ext_Forall. eapply Forall_impl; [exact IH|].
    intros [k v] Hv. cbn. f_equal. apply Hv. rewrite length_app. lia.
Qed.
Definition normalized_table (path : Path) (t : Table) : Table :=
  normalize_key_aliases path (map (λ e, (e.1, normalized_with_key_aliases e.2 (path ++ [e.1]))) t).
Lemma memories_children t : map (λ e, (e.1, normalized_with_key_aliases e.2 (MEMORIES ++ [e.1]))) t = t.
Proof. rewrite <- (map_id t) at 2. apply map_ext. intros [k v]. cbn. f_equal. by apply deep_normal. Qed.
Lemma normalized_table_get path t k :
  table_get k (normalized_table path t) = (λ v, normalized_with_key_aliases v (path ++ [k])) <$> table_get k (normalize_key_aliases path t).
Proof.
  unfold normalized_table. destruct (decide (path = MEMORIES)) as [->|Hp].
  - rewrite memories_children. destruct (table_get k (normalize_key_aliases MEMORIES t)); [cbn; by rewrite deep_normal|done].
  - rewrite !aliases_other by done. by rewrite (table_get_map (λ k v, normalized_with_key_aliases v (path ++ [k]))).
Qed.

(** ** Lemmas: the loop of the merge *)
Definition merge_step (path : Path) (t : Table) (e : rstring * TomlValue) : Table :=
  match table_get e.1 t with
  | Some existing => table_insert e.1 (merge_toml_values_at_path existing e.2 (path ++ [e.1])) t
  | None => table_insert e.1 (normalized_with_key_aliases e.2 (path ++ [e.1])) t
  end.
Lemma merge_tables bt ot path :
  merge_toml_values_at_path (TTable bt) (TTable ot) path = TTable (foldl (merge_step path) (prepare path bt) (prepare path ot)).
Proof.
  cbn [merge_toml_values_at_path]. rewrite (prepare_map (λ v, (v, λ existing path, merge_toml_values_at_path existing v path))). f_equal.
  generalize (prepare path bt). induction (prepare path ot) as [|[k v] es IH]; intros t; cbn; [done|]. rewrite IH. f_equal.
Qed.
Lemma merge_step_get path es : ∀ t k, NoDup es.*1 →
  table_get k (foldl (merge_step path) t es) =
    match table_get k es with
    | None => table_get k t
    | Some v => Some (match table_get k t with
                      | Some e => merge_toml_values_at_path e v (path ++ [k])
                      | None => normalized_with_key_aliases v (path ++ [k])
                      end)
    end.
Proof.
  induction es as [|[k1 v1] es IH]; intros t k; cbn; [done|]. intros [Hk1 Hnd]%NoDup_cons. rewrite IH by done.
  assert (table_get k (merge_step path t (k1, v1)) = if decide (k1 = k) then Some (match table_get k t with
    | Some e => merge_toml_values_at_path e v1 (path ++ [k]) | None => normalized_with_key_aliases v1 (path ++ [k]) end) else table_get k t) as ->.
  { unfold merge_step. cbn. destruct (table_get k1 t) eqn:E; rewrite table_get_insert; (destruct (decide (k = k1)) as [->|Hk]; [by rewrite decide_True, E by done|by rewrite decide_False by done]). }
  case_decide as H1; [|done]. subst. apply table_get_None in Hk1. by rewrite Hk1.
Qed.

(** ** What a document says about a path *)
(** [Unset]: nothing, so that a lower layer shows through; [Hidden]: no value, and none of a lower layer either, since the
    path ends at a table or leads through something that is no table. *)
Inductive Setting := Unset | Hidden | Value (v : TomlValue).
Fixpoint setting (v : TomlValue) (path : Path) : Setting :=
  match path, v with
  | [], TTable _ => Hidden
  | [], _ => Value v
  | key :: path, TTable t => match table_get key t with Some v => setting v path | None => Unset end
  | _ :: _, _ => Hidden
  end.
Definition leaf (s : Setting) : option TomlValue := match s with Value v => Some v | _ => None end.
Definition over (s : Setting) (below : option TomlValue) : option TomlValue := match s with Unset => below | _ => leaf s end.
(** The settings of the layers, lowest first: the highest that says anything decides. *)
Definition resolve (settings : list Setting) : option TomlValue := foldl (λ below s, over s below) None settings.
Definition below_domains (path : Path) : bool :=
  match path with p :: x :: n :: d :: _ :: _ => is_permission_network_domains_path [p; x; n; d] | _ => false end.
(** The tables of a document have distinct keys. *)
Inductive distinct : TomlValue → Prop :=
| distinct_scalar v : (match v with TArray _ | TTable _ => False | _ => True end) → distinct v
| distinct_array items : Forall distinct items → distinct (TArray items)
| distinct_table t : NoDup t.*1 → Forall (λ e, distinct e.2) t → distinct (TTable t).
Lemma distinct_table_inv t : distinct (TTable t) → NoDup t.*1 ∧ Forall (λ e, distinct e.2) t.
Proof. by inversion 1. Qed.

Fixpoint distinctb (v : TomlValue) : bool :=
  match v with
  | TArray items => forallb distinctb items
  | TTable t => bool_decide (NoDup (map fst t)) && forallb (λ e, distinctb e.2) t
  | _ => true
  end.
Lemma distinctb_distinct v : distinctb v = true → distinct v.
Proof.
  induction v as [| | | | |items IH|t IH] using TomlValue_ind; cbn [distinctb]; intros H; try (by constructor).
  - apply distinct_array. rewrite Forall_forall in *. rewrite forallb_forall in H. intros v Hv. apply IH; [done|]. by apply H, list_elem_of_In.
  - apply andb_true_iff in H as [Hn H]. apply bool_decide_eq_true in Hn. apply distinct_table; [done|]. rewrite Forall_forall in *. rewrite forallb_forall in H.
    intros e He. apply IH; [done|]. by apply H, list_elem_of_In.
Qed.

(** ** Lemmas: a document without renamed keys *)
Definition LEGACY : rstring := lit "no_memories_if_mcp_or_web_search".
Definition normal (path : Path) (v : TomlValue) : Prop := normalized_with_key_aliases v path = v.
Definition no_legacy {A} (path : Path) (t : list (rstring * A)) : Prop := path = MEMORIES → table_get LEGACY t = None.
Lemma no_legacy_aliases {A} path (t : list (rstring * A)) : no_legacy path t → normalize_key_aliases path t = t.
Proof.
  intros Hn. destruct (decide (path = MEMORIES)) as [->|Hp]; [|by apply aliases_other]. specialize (Hn eq_refl).
  unfold normalize_key_aliases, CONFIG_KEY_ALIASES. cbn [foldl]. unfold normalize_key_alias. rewrite bool_decide_eq_true_2 by done.
  cbn [legacy_key]. change (lit "no_memories_if_mcp_or_web_search") with LEGACY. by rewrite Hn.
Qed.
Lemma aliases_no_legacy {A} path (t : list (rstring * A)) : no_legacy path (normalize_key_aliases path t).
Proof.
  intros ->. unfold normalize_key_aliases, CONFIG_KEY_ALIASES. cbn [foldl]. unfold normalize_key_alias. rewrite bool_decide_eq_true_2 by done.
  cbn [legacy_key canonical_key]. change (lit "no_memories_if_mcp_or_web_search") with LEGACY.
  destruct (table_get LEGACY t) as [v|] eqn:E; [|done]. rewrite table_get_or_insert, decide_False by done. by rewrite table_get_remove, decide_True.
Qed.
Lemma map_fixed {A} (f : A → A) (l : list A) : map f l = l ↔ Forall (λ x, f x = x) l.
Proof. induction l as [|x l IH]; cbn; [by split|]. rewrite Forall_cons, <- IH. naive_solver congruence. Qed.
Lemma normal_table path t : normal path (TTable t) ↔ no_legacy path t ∧ Forall (λ e, normal (path ++ [e.1]) e.2) t.
Proof.
  unfold normal at 1. cbn [normalized_with_key_aliases]. fold (normalized_table path t).
  assert (map (λ e, (e.1, normalized_with_key_aliases e.2 (path ++ [e.1]))) t = t ↔ Forall (λ e, normal (path ++ [e.1]) e.2) t) as Hmap.
  { rewrite map_fixed. unfold normal. split; intros Hf; (eapply Forall_impl; [exact Hf|]); intros [k v]; cbn; [by intros [=]|by intros ->]. }
  split.
  - intros [= E]. split; [rewrite <- E; apply aliases_no_legacy|]. unfold normalized_table in E. destruct (decide (path = MEMORIES)) as [->|Hp].
    + apply Forall_true. intros [k v]. by apply deep_normal.
    + rewrite aliases_other in E by done. by apply Hmap.
  - intros [Hl Hc]. f_equal. unfold normalized_table. rewrite (proj2 Hmap Hc). by apply no_legacy_aliases.
Qed.
Lemma normalized_normal v : ∀ path, normal path (normalized_with_key_aliases v path).
Proof.
  induction v as [| | | | |items IH|t IH] using TomlValue_ind; intros path; try done.
  - unfold normal. cbn [normalized_with_key_aliases]. f_equal. rewrite map_map. apply map_ext_Forall. eapply Forall_impl; [exact IH|]. intros item Hi. apply Hi.
  - cbn [normalized_with_key_aliases]. apply normal_table. split; [apply aliases_no_legacy|]. destruct (decide (path = MEMORIES)) as [->|Hp].
    + apply Forall_true. intros [k v]. by apply deep_normal.
    + rewrite aliases_other by done. apply Forall_map. eapply Forall_impl; [exact IH|]. intros e He. apply He.
Qed.
Lemma table_get_normal path t k v : normal path (TTable t) → table_get k t = Some v → normal (path ++ [k]) v.
Proof. intros [_ Hc]%normal_table Hk%table_get_elem. rewrite Forall_forall in Hc. by apply (Hc (k, v)). Qed.
Lemma merge_normal o : ∀ base path, normal path base → normal path (merge_toml_values_at_path base o path).
Proof.
  induction o as [| | | | |items IH|ot IH] using TomlValue_ind; intros base path Hb; try (destruct base; apply normalized_normal).
  destruct base as [| | | | | |bt]; try apply normalized_normal. destruct (decide (2 ≤ length path)) as [Hd|Hd]; [by apply deep_normal|].
  rewrite merge_tables. assert (is_permission_network_domains_path path = false) as Hnd.
  { destruct path as [|a [|b [|c [|d [|]]]]]; cbn in Hd; try done; lia. }
  unfold prepare. rewrite Hnd. rewrite (no_legacy_aliases path bt) by by apply normal_table.
  assert (no_legacy path (normalize_key_aliases path ot) ∧ Forall (λ e, ∀ b path, normal path b → normal path (merge_toml_values_at_path b e.2 path)) (normalize_key_aliases path ot)) as [Hl Hes].
  { split; [apply aliases_no_legacy|]. rewrite Forall_forall. intros e (k & Hin)%alias_elem. rewrite Forall_forall in IH. exact (IH _ Hin). }
  revert bt Hb. induction Hes as [|[k v] es Hv Hes IHes]; intros bt Hb; cbn [foldl]; [done|]. apply IHes.
  { intros ->. specialize (Hl eq_refl). apply table_get_None in Hl as [_ Hl]%not_elem_of_cons. by apply table_get_None. }
  apply normal_table in Hb as [Hbl Hbc]. unfold merge_step. cbn [fst snd]. set (new := match table_get k bt with Some e => _ | None => _ end).
  assert (∃ v', new = table_insert k v' bt ∧ normal (path ++ [k]) v') as (v' & -> & Hv').
  { subst new. destruct (table_get k bt) as [e|] eqn:E; eexists; (split; [done|]); [|apply normalized_normal]. apply Hv.
    apply table_get_elem in E. rewrite Forall_forall in Hbc. by apply (Hbc (k, e)). }
  apply normal_table. split.
  - intros ->. rewrite table_get_insert. specialize (Hl eq_refl). apply table_get_None in Hl as [Hl _]%not_elem_of_cons. by rewrite decide_False, Hbl by done.
  - rewrite Forall_forall. intros e [->|Hin]%table_insert_elem; [done|]. rewrite Forall_forall in Hbc. by apply Hbc.
Qed.

(** ** Lemmas: overlaying, seen from one path *)
Lemma setting_scalar v p : (match v with TTable _ => False | _ => True end) → p ≠ [] → setting v p = Hidden.
Proof. intros Hv Hp. destruct p, v; done. Qed.
Lemma setting_not_unset v p : (match v with TTable _ => False | _ => True end) → setting v p ≠ Unset.
Proof. intros Hv. destruct p, v; done. Qed.
Lemma normalized_scalar v path : (match v with TTable _ => False | _ => True end) →
  match normalized_with_key_aliases v path with TTable _ => False | _ => True end.
Proof. by destruct v. Qed.
Lemma over_leaf s below : s ≠ Unset → over s below = leaf s.
Proof. by destruct s. Qed.
Lemma merge_setting o : ∀ base q p, distinct o → normal q base → below_domains (q ++ p) = false →
  leaf (setting (merge_toml_values_at_path base o q) p) = over (setting (normalized_with_key_aliases o q) p) (leaf (setting base p)).
Proof.
  assert (∀ o base q p, (match o with TTable _ => False | _ => True end) →
    leaf (setting (merge_toml_values_at_path base o q) p) = over (setting (normalized_with_key_aliases o q) p) (leaf (setting base p))) as Hscalar.
  { intros o' base q p Ho. rewrite over_leaf by by apply setting_not_unset, normalized_scalar. by destruct o', base. }
  induction o as [| | | | |items IH|ot IH] using TomlValue_ind; intros base q p Hd Hn Hout; try (by apply Hscalar).
  assert ((∃ bt, base = TTable bt) ∨ match base with TTable _ => False | _ => True end) as [[bt ->]|Hb] by (destruct base; eauto).
  2: { replace (merge_toml_values_at_path base (TTable ot) q) with (normalized_with_key_aliases (TTable ot) q) by by destruct base.
    destruct p as [|k p]; [done|]. rewrite (setting_scalar base) by done. by destruct (setting _ _). }
  rewrite merge_tables. destruct p as [|k p]; [done|]. cbn [normalized_with_key_aliases setting].
  assert (is_permission_network_domains_path q = false) as Hq.
  { destruct q as [|a [|b [|c [|d [|]]]]]; try done. }
  unfold prepare. rewrite Hq. rewrite (no_legacy_aliases q bt) by by apply normal_table. apply distinct_table_inv in Hd as [Hnd Hdc].
  rewrite merge_step_get by by apply alias_NoDup. fold (normalized_table q ot). rewrite normalized_table_get.
  destruct (table_get k (normalize_key_aliases q ot)) as [v|] eqn:Ev; [|done]. cbn [fmap option_fmap option_map].
  assert (∃ k', (k', v) ∈ ot) as [k' Hin]. { apply table_get_elem, alias_elem in Ev. done. }
  rewrite Forall_forall in IH, Hdc. specialize (Hdc _ Hin). specialize (IH _ Hin). cbn [snd] in *.
  destruct (table_get k bt) as [e|] eqn:Ee.
  - rewrite IH; [done|done|by eapply table_get_normal|by rewrite <- app_assoc].
  - by destruct (setting _ _).
Qed.
(** The documents of a stack, overlaid from the lowest. *)
Lemma merge_all_setting layers p : ∀ base, Forall distinct layers → normal [] base → below_domains p = false →
  leaf (setting (foldl merge_toml_values base layers) p) =
    foldl (λ below s, over s below) (leaf (setting base p)) ((λ layer, setting (normalized_with_key_aliases layer []) p) <$> layers).
Proof.
  induction layers as [|o layers IH]; intros base; cbn; [done|]. intros [Ho Hl]%Forall_cons Hb Hp. rewrite IH by (done || by apply merge_normal).
  f_equal. by apply merge_setting.
Qed.

(** ** Overrides are layers of their own *)
Fixpoint override_setting (segments : Path) (value : TomlValue) (path : Path) : Setting :=
  match segments, path with
  | [], _ => match setting value path with Unset => Hidden | s => s end
  | _ :: _, [] => Hidden
  | segment :: segments, key :: path => if decide (key = segment) then override_setting segments value path else Unset
  end.
Lemma setting_table_of v k p : leaf (setting v (k :: p)) = match table_get k (table_of v) with Some c => leaf (setting c p) | None => None end.
Proof. destruct v; try done. cbn [setting table_of]. by destruct (table_get k table). Qed.
Lemma override_at_setting segments value : segments ≠ [] → ∀ current path,
  leaf (setting (override_at current segments value) path) = over (override_setting segments value path) (leaf (setting current path)).
Proof.
  induction segments as [|s segments IH]; [done|]. intros _ current path. destruct path as [|k path]; [by destruct segments|].
  rewrite (setting_table_of current). cbn [override_setting].
  destruct segments as [|s' segments].
  - cbn [override_at setting]. rewrite table_get_insert. case_decide; [|cbn; by destruct (table_get k (table_of current))].
    cbn [override_setting]. by destruct (setting value path).
  - assert (override_at current (s :: s' :: segments) value =
      TTable (table_insert s (override_at (default (TTable []) (table_get s (table_of current))) (s' :: segments) value) (table_of current))) as -> by done.
    cbn [setting]. rewrite table_get_insert. case_decide; [subst|cbn; by destruct (table_get k (table_of current))]. rewrite IH by done. f_equal.
    destruct (table_get s (table_of current)); [done|]. by destruct path.
Qed.
(** What the overrides of the command line say ([build_cli_overrides_layer]): every one is a layer of its own, later
    ones higher. So the value at a path is that of the last override that reaches it, or sets a table or scalar in its
    way; an override with a table replaces the table instead of being merged into it. *)
Theorem overrides_are_layers overrides path :
  leaf (setting (build_cli_overrides_layer overrides) path) = resolve ((λ '(p, v), override_setting (split (chr ".") p) v path) <$> overrides).
Proof.
  unfold build_cli_overrides_layer, resolve. assert (leaf (setting (TTable []) path) = None) as H0 by by destruct path. revert H0.
  generalize (TTable []) (@None TomlValue). induction overrides as [|[p v] overrides IH]; intros root below H0; cbn [foldl fmap list_fmap]; [done|].
  apply IH. unfold apply_toml_override. rewrite override_at_setting, H0; [done|]. by apply split_not_nil.
Qed.

(** ** Where a value came from *)
Definition children (v : TomlValue) : Table :=
  match v with TTable t => t | TArray items => imap (λ i item, (show (N.of_nat i), item)) items | _ => [] end.
Definition scalar (v : TomlValue) : Prop := match v with TArray _ | TTable _ => False | _ => True end.
Inductive leaf_at : TomlValue → Path → TomlValue → Prop :=
| leaf_here s : scalar s → leaf_at s [] s
| leaf_below v k c path s : (k, c) ∈ children v → leaf_at c path s → leaf_at v (k :: path) s.
Lemma child_ind (P : TomlValue → Prop) : (∀ v, Forall (λ e, P e.2) (children v) → P v) → ∀ v, P v.
Proof.
  intros H v. induction v as [| | | | |items IH|t IH] using TomlValue_ind; apply H; try constructor; [|done].
  cbn. rewrite Forall_forall. intros e (i & y & -> & Hi)%elem_of_lookup_imap. cbn. rewrite Forall_forall in IH. apply IH. by eapply list_elem_of_lookup_2.
Qed.
Section origins.
Context {M : Type} (meta : M).
Lemma record_children v path o : ¬ scalar v →
  record_origins v meta path o = foldl (λ o e, record_origins e.2 meta (path ++ [e.1]) o) o (children v).
Proof.
  destruct v as [| | | | |items|t]; cbn [scalar]; try tauto; intros _.
  - cbn [record_origins children]. assert (∀ idx o, (fix each (idx : nat) items origins := match items with
       | [] => origins
       | item :: items => each (S idx) items (record_origins item meta (path ++ [show (N.of_nat idx)]) origins)
       end) idx items o = foldl (λ o e, record_origins e.2 meta (path ++ [e.1]) o) o (imap (λ i item, (show (N.of_nat (idx + i)), item)) items)) as Hl.
    { clear o. induction items as [|x items IH]; intros idx o; [done|]. rewrite IH. cbn. rewrite Nat.add_0_r. f_equal. apply imap_ext. intros i y _. cbn. do 3 f_equal. lia. }
    apply (Hl 0 o).
  - cbn [record_origins children]. revert o. induction t as [|e t IH]; intros o; cbn; [done|]. apply IH.
Qed.
Lemma record_scalar v path o : scalar v → record_origins v meta path o = if bool_decide (path ≠ []) then <[join_with [chr "."] path := meta]> o else o.
Proof. by destruct v. Qed.
Lemma scalar_dec v : scalar v ∨ ¬ scalar v.
Proof. destruct v; cbn; tauto. Qed.
Lemma record_other v key : ∀ path o, (∀ p s, leaf_at v p s → path ++ p ≠ [] → join_with [chr "."] (path ++ p) ≠ key) →
  record_origins v meta path o !! key = o !! key.
Proof.
  induction v as [v IH] using child_ind. intros path o Hk. destruct (scalar_dec v) as [Hs|Hs].
  - rewrite record_scalar by done. case_bool_decide as Hp; [|done]. apply lookup_insert_ne. rewrite <- (app_nil_r path). apply (Hk [] v); [by constructor|by rewrite app_nil_r].
  - rewrite record_children by done. assert (∀ e, e ∈ children v → ∀ o, record_origins e.2 meta (path ++ [e.1]) o !! key = o !! key) as He.
    { intros [k c] Hin o'. rewrite Forall_forall in IH. apply (IH _ Hin). intros p s Hl Hne. rewrite <- app_assoc. apply (Hk _ s); [|by destruct path].
      by econstructor. }
    revert o He. induction (children v) as [|e l IHl]; intros o He; cbn [foldl]; [done|]. rewrite IHl; [apply He; by left| |]; [by apply Forall_cons in IH as [_ ?]|].
    intros. apply He. by right.
Qed.
Lemma record_keeps v key : ∀ path o, o !! key = Some meta → record_origins v meta path o !! key = Some meta.
Proof.
  induction v as [v IH] using child_ind. intros path o Ho. destruct (scalar_dec v) as [Hs|Hs].
  - rewrite record_scalar by done. case_bool_decide; [|done]. destruct (decide (join_with [chr "."] path = key)) as [<-|]; [by rewrite lookup_insert_eq|by rewrite lookup_insert_ne].
  - rewrite record_children by done. revert o Ho. induction IH as [|e l He Hl IHl]; intros o Ho; cbn [foldl]; [done|]. by apply IHl, He.
Qed.
Lemma record_leaf v p s : leaf_at v p s → ∀ path o, path ++ p ≠ [] → record_origins v meta path o !! join_with [chr "."] (path ++ p) = Some meta.
Proof.
  induction 1 as [s Hs|v k c p s Hin Hl IH]; intros path o Hne.
  - rewrite record_scalar, app_nil_r in * by done. by rewrite bool_decide_eq_true_2, lookup_insert_eq.
  - assert (¬ scalar v) as Hs by (intros Hs; destruct v; try done; by apply elem_of_nil in Hin). rewrite record_children by done.
    revert o. induction (children v) as [|e l IHl]; intros o; [by apply elem_of_nil in Hin|]. cbn [foldl]. apply elem_of_cons in Hin as [<-|Hin]; [|by apply IHl].
    cbn [fst snd]. specialize (IH (path ++ [k]) o). rewrite <- app_assoc in IH. specialize (IH ltac:(by destruct path)). revert IH. generalize (record_origins c meta (path ++ [k]) o).
    clear IHl. induction l as [|e l IHl]; intros o' Ho'; cbn [foldl]; [done|]. by apply IHl, record_keeps.
Qed.
End origins.

(** ** Lemmas: distinct keys are kept, and leaves are settings *)
Lemma distinct_normalized v : ∀ path, distinct v → distinct (normalized_with_key_aliases v path).
Proof.
  induction v as [| | | | |items IH|t IH] using TomlValue_ind; intros path Hd; try (by constructor).
  - cbn [normalized_with_key_aliases]. apply distinct_array, Forall_map. inversion Hd as [? Hs|? Hf|]; subst; [done|]. rewrite Forall_forall in *. auto.
  - cbn [normalized_with_key_aliases]. apply distinct_table_inv in Hd as [Hnd Hc]. apply distinct_table.
    + apply alias_NoDup. by rewrite <- list_fmap_compose.
    + rewrite Forall_forall in *. intros [k0 v0] (k & He)%alias_elem. cbn [snd] in He. apply list_elem_of_fmap in He as ([k' v] & [= -> ->] & Hin). by apply (IH _ Hin), (Hc _ Hin).
Qed.
Lemma prepare_distinct path t : NoDup t.*1 → Forall (λ e, distinct e.2) t → Forall (λ e, distinct e.2) (prepare path t).
Proof.
  intros Hnd Hc. assert (Forall (λ e, distinct e.2) (normalize_key_aliases path t)) as Ha.
  { rewrite Forall_forall in *. intros e (k & He)%alias_elem. exact (Hc _ He). }
  unfold prepare. destruct (is_permission_network_domains_path path); [|done]. unfold normalize_network_domain_keys.
  assert (Forall (λ e, distinct e.2) (@nil (rstring * TomlValue))) as H0 by constructor. revert H0. generalize (@nil (rstring * TomlValue)).
  induction Ha as [|[k v] es Hv Hes IH]; intros acc H0; cbn [foldl]; [done|]. apply IH. rewrite Forall_forall in *. by intros e [->|He]%table_insert_elem; [|apply H0].
Qed.
Lemma merge_distinct o : ∀ base path, distinct base → distinct o → distinct (merge_toml_values_at_path base o path).
Proof.
  induction o as [| | | | |items IH|ot IH] using TomlValue_ind; intros base path Hb Ho; try (destruct base; by apply distinct_normalized).
  destruct base as [| | | | | |bt]; try (by apply distinct_normalized). rewrite merge_tables.
  apply distinct_table_inv in Hb as [Hbn Hbc]. apply distinct_table_inv in Ho as [Hon Hoc].
  assert (Forall (λ e, distinct e.2 ∧ ∀ base path, distinct base → distinct (merge_toml_values_at_path base e.2 path)) (prepare path ot)) as Hes.
  { assert (Forall (λ e, ∃ k, (k, e.2) ∈ ot) (prepare path ot)) as Hin.
    { unfold prepare. assert (Forall (λ e, ∃ k, (k, e.2) ∈ ot) (normalize_key_aliases path ot)) as Ha by (apply Forall_forall; by intros e He%alias_elem).
      destruct (is_permission_network_domains_path path); [|done]. unfold normalize_network_domain_keys.
      assert (Forall (λ e, ∃ k, (k, e.2) ∈ ot) (@nil (rstring * TomlValue))) as H0 by constructor. revert H0. generalize (@nil (rstring * TomlValue)).
      induction Ha as [|[k v] es Hv Hes IHes]; intros acc H0; cbn [foldl]; [done|]. apply IHes. rewrite Forall_forall in *. by intros e [->|He]%table_insert_elem; [|apply H0]. }
    rewrite Forall_forall in *. intros e He. destruct (Hin e He) as [k Hk]. split; [exact (Hoc _ Hk)|]. intros. by apply (IH _ Hk), (Hoc _ Hk). }
  assert (NoDup (prepare path bt).*1 ∧ Forall (λ e, distinct e.2) (prepare path bt)) as [Hn Hc] by (split; [by apply prepare_NoDup|by apply prepare_distinct]).
  revert Hn Hc. generalize (prepare path bt). induction Hes as [|[k v] es [Hv Hm] Hes IHes]; intros t Hn Hc; cbn [foldl]; [by apply distinct_table|].
  apply IHes; unfold merge_step; cbn [fst snd]; destruct (table_get k t) as [e|] eqn:E; try (by apply NoDup_table_insert).
  - apply table_get_elem in E. rewrite Forall_forall in *. intros e' [->|He]%table_insert_elem; [apply Hm, (Hc _ E)|by apply Hc].
  - rewrite Forall_forall in *. intros e' [->|He]%table_insert_elem; [by apply distinct_normalized|by apply Hc].
Qed.
Lemma setting_leaf v p a ap s : setting v p = Value a → leaf_at a ap s → leaf_at v (p ++ ap) s.
Proof.
  revert v. induction p as [|k p IH]; intros v Hs Ha.
  - destruct v; try done; by injection Hs as ->.
  - destruct v as [| | | | | |t]; try done. cbn in Hs. destruct (table_get k t) as [c|] eqn:E; [|done]. apply table_get_elem in E. econstructor; [exact E|by apply IH].
Qed.
Lemma leaf_setting v path s : leaf_at v path s → distinct v → ∃ p a ap, path = p ++ ap ∧ setting v p = Value a ∧ leaf_at a ap s.
Proof.
  induction 1 as [s Hs|v k c path s Hin Hl IH]; intros Hd.
  - exists [], s, []. split_and!; [done|by destruct s|by constructor].
  - destruct v as [| | | | |items|t]; try (by apply elem_of_nil in Hin).
    + exists [], (TArray items), (k :: path). split_and!; [done|done|]. by econstructor.
    + apply distinct_table_inv in Hd as [Hnd Hc]. rewrite Forall_forall in Hc. destruct (IH (Hc _ Hin)) as (p & a & ap & -> & Hp & Ha).
      exists (k :: p), a, ap. split_and!; [done| |done]. cbn. by rewrite (elem_table_get k c t).
Qed.
Lemma unset_no_leaf v p ap s : setting v p = Unset → distinct v → ¬ leaf_at v (p ++ ap) s.
Proof.
  revert v. induction p as [|k p IH]; intros v Hs Hd Hl; [by destruct v|]. destruct v as [| | | | | |t]; try done.
  cbn [app] in Hl. inversion Hl as [|? ? c ? ? Hin Hc]; subst. cbn in Hin, Hs. apply distinct_table_inv in Hd as [Hnd Hdc].
  rewrite (elem_table_get k c t Hnd Hin) in Hs. rewrite Forall_forall in Hdc. by eapply IH; [|exact (Hdc _ Hin)|].
Qed.
Lemma resolve_Some ss a : resolve ss = Some a → ∃ before after, ss = before ++ Value a :: after ∧ Forall (λ s, s = Unset) after.
Proof.
  induction ss as [|s ss IH] using rev_ind; [done|]. unfold resolve. rewrite foldl_app. cbn [foldl]. destruct s; cbn [over leaf].
  - intros (before & after & -> & Ha)%IH. exists before, (after ++ [Unset]). split; [by rewrite <- app_assoc|]. apply Forall_app. split; [done|by constructor].
  - done.
  - intros [= ->]. by exists ss, [].
Qed.

(** ** Domains of a network permission are overlaid host by host *)
Lemma domain_keys_get {A} (t : list (rstring * A)) host : ∀ acc,
  table_get host (foldl (λ t '(pattern, value), table_insert (NetworkPolicy.normalize_host pattern) value t) acc t) =
    foldl (λ found e, if decide (NetworkPolicy.normalize_host e.1 = host) then Some e.2 else found) (table_get host acc) t.
Proof.
  induction t as [|[k v] t IH]; intros acc; cbn [foldl fst snd]; [done|]. rewrite IH. f_equal. rewrite table_get_insert. repeat case_decide; congruence.
Qed.
(** The last entry of a table whose pattern names a host. *)
Definition last_for_host {A} (host : rstring) (t : list (rstring * A)) : option A :=
  foldl (λ found e, if decide (NetworkPolicy.normalize_host e.1 = host) then Some e.2 else found) None t.
(** Overlaying the domains of a network permission ([merge_toml_values_at_path]): however the patterns are spelled, a
    host has the permission that the last entry of the higher document gives it, and that of the lower one only if the higher
    does not name it; so a higher document cannot be evaded, nor overridden, by another spelling. *)
Theorem domains_are_overlaid_by_host path base overlay host :
  is_permission_network_domains_path path = true → Forall (λ e, scalar e.2) overlay →
  table_get host (table_of (merge_toml_values_at_path (TTable base) (TTable overlay) path)) =
    match last_for_host host overlay with Some v => Some v | None => last_for_host host base end.
Proof.
  intros Hp Hs. rewrite merge_tables. cbn [table_of]. unfold prepare. rewrite Hp. assert (path ≠ MEMORIES) as Hm by (by intros ->). rewrite !aliases_other by done.
  rewrite merge_step_get by apply domain_keys_NoDup. unfold normalize_network_domain_keys. rewrite !domain_keys_get. cbn [table_get].
  fold (last_for_host host overlay) (last_for_host host base). destruct (last_for_host host overlay) as [v|] eqn:E; [|done].
  assert (scalar v) as Hv.
  { unfold last_for_host in E. assert (∀ found, (∀ x, found = Some x → scalar x) → foldl (λ found e, if decide (NetworkPolicy.normalize_host e.1 = host) then Some e.2 else found) found overlay = Some v → scalar v) as Hl.
    { clear E. induction Hs as [|e t He Ht IH]; intros found Hf; cbn [foldl]; [apply Hf|]. apply IH. case_decide; [by intros x [= <-]|done]. }
    by apply (Hl None). }
  f_equal. destruct (last_for_host host base) as [e|]; by destruct v.
Qed.
