(* ===== verification/ConfigLayers.v ===== *)
(** * The layers of a configuration ([config/src/state.rs], [fingerprint.rs])

    Documents from different sources, in the order of their precedence; the configuration they make together, and where
    every value of it came from. *)
From stdpp Require Import sorting.
From S2P Require Import Prelude RustStr RustPath ConfigMerge.
From S2P Require NetworkPolicy.

(** ** Fingerprints ([fingerprint.rs]) *)
#[local] Unset Elimination Schemes.
(** Numbers are their text. *)
Inductive JsonValue := JNull | JBool (b : bool) | JNumber (text : rstring) | JString (s : rstring) | JArray (items : list JsonValue) | JObject (map : list (rstring * JsonValue)).
#[local] Set Elimination Schemes.
Definition JsonValue_ind (P : JsonValue → Prop) (fn : P JNull) (fb : ∀ b, P (JBool b)) (fi : ∀ n, P (JNumber n)) (fs : ∀ s, P (JString s))
  (fa : ∀ items, Forall P items → P (JArray items)) (fo : ∀ m, Forall (λ e, P e.2) m → P (JObject m)) : ∀ v, P v :=
  fix go v := match v with
  | JNull => fn | JBool b => fb b | JNumber n => fi n | JString s => fs s
  | JArray items => fa items ((fix each l : Forall P l := match l with [] => List.Forall_nil _ | x :: l => Forall_cons_2 _ _ _ (go x) (each l) end) items)
  | JObject m => fo m ((fix each l : Forall (λ e, P e.2) l := match l with [] => List.Forall_nil _ | e :: l => Forall_cons_2 _ _ _ (go e.2) (each l) end) m)
  end.
Definition key_cmp : rstring → rstring → comparison := lex_cmp N.compare.
Definition key_le (a b : rstring) : Prop := key_cmp a b ≠ Gt.
#[global] Instance key_le_dec : RelDecision key_le.
Proof. intros a b. unfold key_le. apply _. Defined.
Fixpoint canonical_json (value : JsonValue) : JsonValue :=
  match value with
  | JObject m =>
      let values := map (λ e, (e.1, canonical_json e.2)) m in
      JObject (omap (λ key, pair key <$> table_get key values) (merge_sort key_le m.*1))
  | JArray items => JArray (map canonical_json items)
  | other => other
  end.
Definition hex_digit (n : N) : char := if (n <? 10)%N then (48 + n)%N else (87 + n)%N.
Definition hex_byte (b : N) : rstring := [hex_digit (b / 16)%N; hex_digit (b mod 16)%N].

(** ** Where a layer comes from ([app-server-protocol]) *)
Inductive ConfigLayerSource :=
| Mdm (domain key : rstring) | System (file : rstring) | User (file : rstring) (profile : option rstring) | Project (dot_codex_folder : rstring)
| SessionFlags | LegacyManagedConfigTomlFromFile (file : rstring) | LegacyManagedConfigTomlFromMdm.
Definition precedence (s : ConfigLayerSource) : Z :=
  match s with
  | Mdm _ _ => 0 | System _ => 10 | User _ profile => if profile is Some _ then 21 else 20 | Project _ => 25
  | SessionFlags => 30 | LegacyManagedConfigTomlFromFile _ => 40 | LegacyManagedConfigTomlFromMdm => 50
  end%Z.
Record ConfigLayerMetadata := mk_metadata { source : ConfigLayerSource; source_version : rstring }.
(** [ProfileV2Name::from_str] ([protocol/src/config_types.rs]) *)
Definition profile_char (c : char) : bool :=
  is_ascii_digit c || ((65 <=? c) && (c <=? 90))%N || ((97 <=? c) && (c <=? 122))%N || (c =? chr "_")%N || (c =? chr "-")%N.
Definition parse_profile_name (value : rstring) : option rstring := if bool_decide (value = []) || negb (forallb profile_char value) then None else Some value.

Record ConfigLayerEntry := mk_layer {
  name : ConfigLayerSource; config : TomlValue; raw_toml : option rstring; version : rstring; disabled_reason : option rstring;
  hooks_config_folder_override : option rstring }.
Definition is_disabled (l : ConfigLayerEntry) : bool := if disabled_reason l is Some _ then true else false.
Definition metadata (l : ConfigLayerEntry) : ConfigLayerMetadata := mk_metadata (name l) (version l).
Definition config_folder (l : ConfigLayerEntry) : option rstring :=
  match name l with
  | System file | User file _ => parent file
  | Project dot_codex_folder => Some dot_codex_folder
  | Mdm _ _ | SessionFlags | LegacyManagedConfigTomlFromFile _ | LegacyManagedConfigTomlFromMdm => None
  end.
Definition hooks_config_folder (l : ConfigLayerEntry) : option rstring :=
  match hooks_config_folder_override l with Some folder => Some folder | None => config_folder l end.
Definition is_user_layer (l : ConfigLayerEntry) : bool := if name l is User _ _ then true else false.
Definition is_user_file (file : rstring) (l : ConfigLayerEntry) : bool := if name l is User f _ then bool_decide (path_eq f file) else false.

(** [Iterator::find_map] *)
Definition first_some {A B} (f : A → option B) (l : list A) : option B := head (omap f l).

(** ** The stack *)
Inductive ConfigLayerStackOrdering := LowestPrecedenceFirst | HighestPrecedenceFirst.
Section stack.
(** serde_json, SHA-256, and the requirements, which a stack only carries along. *)
Context {Requirements : Type} (to_value : TomlValue → JsonValue) (to_vec : JsonValue → list N) (sha256 : list N → list N).
Definition version_for_toml (value : TomlValue) : rstring := lit "sha256:" ++ (sha256 (to_vec (canonical_json (to_value value))) ≫= hex_byte).
Definition layer_new (name : ConfigLayerSource) (config : TomlValue) : ConfigLayerEntry := mk_layer name config None (version_for_toml config) None None.
Definition new_with_raw_toml (name : ConfigLayerSource) (config : TomlValue) (raw_toml : rstring) : ConfigLayerEntry :=
  mk_layer name config (Some raw_toml) (version_for_toml config) None None.
Definition new_disabled (name : ConfigLayerSource) (config : TomlValue) (reason : rstring) : ConfigLayerEntry :=
  mk_layer name config None (version_for_toml config) (Some reason) None.
Definition with_hooks_config_folder_override (l : ConfigLayerEntry) (folder : option rstring) : ConfigLayerEntry :=
  mk_layer (name l) (config l) (raw_toml l) (version l) (disabled_reason l) folder.

Record ConfigLayerStack := mk_stack {
  layers : list ConfigLayerEntry; user_layer_index : option nat; requirements : Requirements;
  ignore_user_and_project_exec_policy_rules : bool; startup_warnings : option (list rstring) }.
Definition with_layers (s : ConfigLayerStack) (layers : list ConfigLayerEntry) (index : option nat) : ConfigLayerStack :=
  mk_stack layers index (requirements s) (ignore_user_and_project_exec_policy_rules s) (startup_warnings s).
Definition get_active_user_layer (s : ConfigLayerStack) : option ConfigLayerEntry := index ← user_layer_index s; layers s !! index.
Definition get_user_config_file (s : ConfigLayerStack) : option rstring :=
  l ← get_active_user_layer s; match name l with User file _ => Some file | _ => None end.
Definition get_layers (s : ConfigLayerStack) (ordering : ConfigLayerStackOrdering) (include_disabled : bool) : list ConfigLayerEntry :=
  let layers := List.filter (λ l, include_disabled || negb (is_disabled l)) (layers s) in
  match ordering with LowestPrecedenceFirst => layers | HighestPrecedenceFirst => rev layers end.
Definition layers_high_to_low (s : ConfigLayerStack) : list ConfigLayerEntry := get_layers s HighestPrecedenceFirst false.
Definition get_user_layers (s : ConfigLayerStack) (ordering : ConfigLayerStackOrdering) (include_disabled : bool) : list ConfigLayerEntry :=
  List.filter is_user_layer (get_layers s ordering include_disabled).
Definition effective_user_config (s : ConfigLayerStack) : option TomlValue :=
  match get_user_layers s LowestPrecedenceFirst false with
  | [] => None
  | user_layers => Some (foldl (λ merged l, merge_toml_values merged (config l)) (TTable []) user_layers)
  end.
Definition effective_config (s : ConfigLayerStack) : TomlValue :=
  foldl (λ merged l, merge_toml_values merged (config l)) (TTable []) (get_layers s LowestPrecedenceFirst false).
Definition origins (s : ConfigLayerStack) : gmap rstring ConfigLayerMetadata :=
  foldl (λ origins l, record_origins (normalized_with_key_aliases (config l) []) (metadata l) [] origins) ∅ (get_layers s LowestPrecedenceFirst false).

(** [insert_layer_by_precedence] ([loader/mod.rs]), and the same match in [with_user_config_profile] and [with_user_layer_from] *)
Definition insert_at {A} (index : nat) (x : A) (l : list A) : list A := take index l ++ x :: drop index l.
Definition insert_layer_by_precedence (layers : list ConfigLayerEntry) (layer : ConfigLayerEntry) : list ConfigLayerEntry :=
  match position (λ existing, (precedence (name layer) <? precedence (name existing))%Z) layers with
  | Some index => insert_at index layer layers
  | None => layers ++ [layer]
  end.
Definition last_user_index (layers : list ConfigLayerEntry) : option nat :=
  first_some (λ e, if is_user_layer e.2 then Some e.1 else None) (rev (imap pair layers)).
Definition with_user_config_profile (s : ConfigLayerStack) (config_toml : rstring) (profile : option rstring) (user_config : TomlValue) : ConfigLayerStack :=
  let user_layer := layer_new (User config_toml profile) user_config in
  let layers := match position (is_user_file config_toml) (layers s) with
                | Some index => take index (layers s) ++ drop (S index) (layers s)
                | None => layers s
                end in
  let layers := insert_layer_by_precedence layers user_layer in
  with_layers s layers (last_user_index layers).
Definition with_user_config (s : ConfigLayerStack) (config_toml : rstring) (user_config : TomlValue) : ConfigLayerStack :=
  let profile := first_some (λ l, match name l with
    | User file profile => if bool_decide (path_eq file config_toml) then profile ≫= parse_profile_name else None
    | _ => None
    end) (layers s) in
  with_user_config_profile s config_toml profile user_config.
Definition with_user_layer_from (s other : ConfigLayerStack) : ConfigLayerStack :=
  let user_layers := List.filter is_user_layer (layers other) in
  let layers := foldl insert_layer_by_precedence (List.filter (λ l, negb (is_user_layer l)) (layers s)) user_layers in
  with_layers s layers (last_user_index layers).

(** [is_sorted] compares neighbours. *)
Fixpoint is_sorted (ls : list ConfigLayerEntry) : bool :=
  match ls with
  | a :: (b :: _) as rest => (precedence (name a) <=? precedence (name b))%Z && is_sorted rest
  | _ => true
  end.
Definition ORDER_ERROR : rstring := lit "config layers are not in correct precedence order".
Definition PARENT_ERROR : rstring := lit "project layer has no parent directory".
Definition PROJECT_ERROR : rstring := lit "project layers are not ordered from root to cwd".
(** [previous]: the folder of the last project layer seen; [index]: of the next layer. *)
Fixpoint verify_loop (index : nat) (user_index : option nat) (previous : option rstring) (ls : list ConfigLayerEntry) : outcome rstring (option nat) :=
  match ls with
  | [] => Ok user_index
  | l :: ls =>
      let user_index := if is_user_layer l then Some index else user_index in
      match name l with
      | Project current =>
          let next := verify_loop (S index) user_index (Some current) ls in
          match previous with
          | Some previous =>
              match parent previous with
              | None => Err PARENT_ERROR
              | Some dir =>
                  if bool_decide (path_eq previous current) || negb (existsb (λ ancestor, bool_decide (path_eq ancestor dir)) (ancestors current))
                  then Err PROJECT_ERROR else next
              end
          | None => next
          end
      | _ => verify_loop (S index) user_index previous ls
      end
  end.
Definition verify_layer_ordering (ls : list ConfigLayerEntry) : outcome rstring (option nat) :=
  if is_sorted ls then verify_loop 0 None None ls else Err ORDER_ERROR.
Definition stack_new (layers : list ConfigLayerEntry) (requirements : Requirements) : outcome rstring ConfigLayerStack :=
  let? user_layer_index := verify_layer_ordering layers in Ok (mk_stack layers user_layer_index requirements false None).
Definition with_user_and_project_exec_policy_rules_ignored (s : ConfigLayerStack) (ignored : bool) : ConfigLayerStack :=
  mk_stack (layers s) (user_layer_index s) (requirements s) ignored (startup_warnings s).
Definition with_startup_warnings (s : ConfigLayerStack) (warnings : list rstring) : ConfigLayerStack :=
  mk_stack (layers s) (user_layer_index s) (requirements s) (ignore_user_and_project_exec_policy_rules s) (Some warnings).
End stack.
Arguments ConfigLayerStack : clear implicits.

(** ** What a stack says *)
Section values.
Context {Requirements : Type} (to_value : TomlValue → JsonValue) (to_vec : JsonValue → list N) (sha256 : list N → list N).
Definition layer_setting (path : Path) (l : ConfigLayerEntry) : Setting := setting (normalized_with_key_aliases (config l) []) path.
Lemma effective_fold ls path : ∀ base, Forall (λ l, distinct (config l)) ls → normal [] base → below_domains path = false →
  leaf (setting (foldl (λ merged l, merge_toml_values merged (config l)) base ls) path) = foldl (λ below s, over s below) (leaf (setting base path)) (layer_setting path <$> ls).
Proof using Type.
  induction ls as [|l ls IH]; intros base; cbn; [done|]. intros [Hl Hls]%Forall_cons Hb Hp. rewrite IH by (done || by apply merge_normal).
  f_equal. by apply merge_setting.
Qed.
Lemma effective_distinct ls : ∀ base, Forall (λ l, distinct (config l)) ls → distinct base → distinct (foldl (λ merged l, merge_toml_values merged (config l)) base ls).
Proof using Type.
  induction ls as [|l ls IH]; intros base; cbn; [done|]. intros [Hl Hls]%Forall_cons Hb. apply IH; [done|]. by apply merge_distinct.
Qed.
Lemma effective_setting (s : ConfigLayerStack Requirements) path :
  Forall (λ l, distinct (config l)) (get_layers s LowestPrecedenceFirst false) → below_domains path = false →
  leaf (setting (effective_config s) path) = resolve (layer_setting path <$> get_layers s LowestPrecedenceFirst false).
Proof using Type.
  intros Hd Hp. unfold effective_config. rewrite effective_fold by done. unfold resolve. by destruct path.
Qed.
(** C18: the configuration of a stack ([effective_config]), of documents without double keys: the value at a path that is not
    below the domains of a network permission is the one the highest enabled layer gives that says anything about
    the path, under the present names of the keys; and no value, where that layer has a table there or something that is no
    table in the way. (Below those domains the keys are also rewritten, see [domains_are_overlaid_by_host].) *)
Theorem effective_config_is_the_highest_setting (s : ConfigLayerStack Requirements) path :
  Forall (λ l, distinct (config l)) (get_layers s LowestPrecedenceFirst false) → below_domains path = false →
  leaf (setting (effective_config s) path) = resolve (layer_setting path <$> get_layers s LowestPrecedenceFirst false).
Proof using Type.
  apply effective_setting.
Qed.
Lemma below_domains_prefix p q : below_domains (p ++ q) = false → below_domains p = false.
Proof using Type. by destruct p as [|a [|b [|c [|d [|e p]]]]]. Qed.
Lemma origins_other (ls : list ConfigLayerEntry) (key : rstring) (o : gmap rstring ConfigLayerMetadata) :
  Forall (λ l, ∀ p v, leaf_at (normalized_with_key_aliases (config l) []) p v → p ≠ [] → join_with [chr "."] p ≠ key) ls →
  foldl (λ o l, record_origins (normalized_with_key_aliases (config l) []) (metadata l) [] o) o ls !! key = o !! key.
Proof using Type.
  intros Hls. revert o. induction Hls as [|l ls Hl Hls IH]; intros o; cbn [foldl]; [done|]. rewrite IH. by apply record_other.
Qed.
(** C19: where the values of a configuration came from ([origins]), for documents without double keys: for every single value
    of the configuration, also one inside an array, that is not below the domains of a network permission, the layer recorded
    under its dotted path is the highest enabled one that has the value in its own document; no layer above it has
    anything there. The dotted path has to be the value's own: no layer has a value at another path that is spelled the
    same (as keys that contain dots can be, [dotted_keys_share_an_origin]). *)
Theorem origins_name_the_layer (s : ConfigLayerStack Requirements) path v :
  let ls := get_layers s LowestPrecedenceFirst false in
  Forall (λ l, distinct (config l) ∧
    ∀ q x, leaf_at (normalized_with_key_aliases (config l) []) q x → q ≠ [] → join_with [chr "."] q = join_with [chr "."] path → q = path) ls →
  path ≠ [] → below_domains path = false → leaf_at (effective_config s) path v →
  ∃ below l above, ls = below ++ l :: above ∧ leaf_at (normalized_with_key_aliases (config l) []) path v ∧
    (∀ l', l' ∈ above → ∀ x, ¬ leaf_at (normalized_with_key_aliases (config l') []) path x) ∧
    origins s !! join_with [chr "."] path = Some (metadata l).
Proof using Type.
  intros ls Hls Hne Hp Hleaf. assert (Forall (λ l, distinct (config l)) ls) as Hd by (eapply Forall_impl; [exact Hls|]; by intros l [? _]).
  assert (distinct (effective_config s)) as He by (apply effective_distinct; [done|]; apply distinct_table; constructor).
  destruct (leaf_setting _ _ _ Hleaf He) as (p & a & ap & -> & Hs & Ha). apply (f_equal leaf) in Hs.
  rewrite effective_setting in Hs by (done || by eapply below_domains_prefix).
  apply resolve_Some in Hs as (sb & sa & Heq & Hunset). apply fmap_app_inv in Heq as (below & rest & Eb & Er & Els).
  fold ls in Els. destruct rest as [|l above]; [done|]. injection Er as El Ea. exists below, l, above. assert (leaf_at (normalized_with_key_aliases (config l) []) (p ++ ap) v) as Hl.
  { eapply setting_leaf; [by rewrite El|done]. }
  assert (∀ l', l' ∈ above → ∀ x, ¬ leaf_at (normalized_with_key_aliases (config l') []) (p ++ ap) x) as Habove.
  { intros l' Hin x. apply unset_no_leaf.
    - rewrite Forall_forall in Hunset. apply (Hunset (layer_setting p l')). rewrite Ea. by apply (list_elem_of_fmap_2 (layer_setting p)).
    - apply distinct_normalized. rewrite Forall_forall in Hd. apply Hd. rewrite Els. apply elem_of_app. right. by right. }
  split_and!; [done|done|done|]. unfold origins. fold ls. rewrite Els, foldl_app. cbn [foldl]. rewrite origins_other.
  - by apply (record_leaf (metadata l) _ _ v Hl []).
  - rewrite Forall_forall. intros l' Hin q x Hq Hqne Hj. apply (Habove l' Hin x). rewrite Forall_forall in Hls.
    destruct (Hls l') as [_ Hown]; [rewrite Els, elem_of_app; right; by right|]. by rewrite <- (Hown q x).
Qed.
End values.

(** ** Lemmas: order *)
Definition lower (a b : ConfigLayerEntry) : Prop := (precedence (name a) ≤ precedence (name b))%Z.
#[global] Instance lower_trans : Transitive lower.
Proof. intros a b c. unfold lower. lia. Qed.
Lemma is_sorted_spec ls : is_sorted ls = true ↔ StronglySorted lower ls.
Proof.
  split.
  - intros H. apply Sorted_StronglySorted; [apply _|]. induction ls as [|a ls IH]; [constructor|]. destruct ls as [|b ls]; [by repeat constructor|].
    change (((precedence (name a) <=? precedence (name b))%Z && is_sorted (b :: ls)) = true) in H. apply andb_true_iff in H as [Hab H]. constructor; [by apply IH|].
    constructor. unfold lower. lia.
  - induction 1 as [|a ls Hs IH Ha]; [done|]. destruct ls as [|b ls]; [done|]. change (((precedence (name a) <=? precedence (name b))%Z && is_sorted (b :: ls)) = true).
    rewrite IH, andb_true_r. apply Forall_cons in Ha as [Hab _]. unfold lower in Hab. lia.
Qed.
Lemma sorted_app_inv (a b : list ConfigLayerEntry) :
  StronglySorted lower (a ++ b) ↔ StronglySorted lower a ∧ StronglySorted lower b ∧ ∀ x y, x ∈ a → y ∈ b → lower x y.
Proof.
  split.
  - induction a as [|x a IH]; cbn; [intros H; split_and!; [constructor|done|by intros ?? ?%elem_of_nil]|].
    intros [H Hx]%StronglySorted_inv. apply IH in H as (H1 & H2 & H3). apply Forall_app in Hx as [Hxa Hxb]. split_and!; [by constructor|done|].
    intros y z [->|Hy]%elem_of_cons Hz; [|by apply H3]. rewrite Forall_forall in Hxb. by apply Hxb.
  - intros (H1 & H2 & H3). induction H1 as [|x a Ha IH Hx]; cbn; [done|]. constructor.
    + apply IH. intros y z Hy Hz. apply H3; [by right|done].
    + apply Forall_app. split; [done|]. apply Forall_forall. intros y Hy. apply H3; [by left|done].
Qed.
Lemma insert_layer_split ls layer : ∃ a b, ls = a ++ b ∧ insert_layer_by_precedence ls layer = a ++ layer :: b ∧
  Forall (λ l, (precedence (name l) ≤ precedence (name layer))%Z) a ∧ match b with [] => True | l :: _ => (precedence (name layer) < precedence (name l))%Z end.
Proof.
  unfold insert_layer_by_precedence. destruct (position _ ls) as [i|] eqn:E.
  - apply position_Some in E as (x & Hx & Hp & Hbefore). exists (take i ls), (drop i ls). split_and!; [by rewrite take_drop|done| |].
    + apply Forall_forall. intros l (j & Hj)%list_elem_of_lookup. apply lookup_take_Some in Hj as [Hj Hlt]. specialize (Hbefore j l Hlt Hj). cbn in Hbefore. lia.
    + apply drop_S in Hx. rewrite Hx. cbn in Hp. lia.
  - exists ls, []. rewrite app_nil_r. split_and!; [done|done| |done]. apply Forall_forall. intros l Hl. pose proof (proj1 (position_None _ _) E l Hl) as H. cbn in H. lia.
Qed.
Lemma insert_layers_elem thread : ∀ ls l, l ∈ foldl insert_layer_by_precedence ls thread → l ∈ ls ∨ l ∈ thread.
Proof.
  induction thread as [|t thread IH]; intros ls l; cbn [foldl]; [by left|]. intros [Hl|Hl]%IH; [|right; by right].
  destruct (insert_layer_split ls t) as (a & b & -> & E & _). rewrite E in Hl. rewrite !elem_of_app, !elem_of_cons in *. tauto.
Qed.
Lemma insert_layer_sorted ls layer : StronglySorted lower ls → StronglySorted lower (insert_layer_by_precedence ls layer).
Proof.
  destruct (insert_layer_split ls layer) as (a & b & -> & -> & Ha & Hb). intros (Hsa & Hsb & Hab)%sorted_app_inv. rewrite Forall_forall in Ha.
  assert (∀ y, y ∈ b → lower layer y) as Hlb.
  { intros y Hy. destruct b as [|z b]; [by apply elem_of_nil in Hy|]. apply StronglySorted_inv in Hsb as [_ Hz].
    apply elem_of_cons in Hy as [->|Hy]; [unfold lower; lia|]. rewrite Forall_forall in Hz. specialize (Hz y Hy). unfold lower in *. lia. }
  apply sorted_app_inv. split_and!; [done| |].
  - constructor; [done|]. by apply Forall_forall.
  - intros x y Hx [->|Hy]%elem_of_cons; [by apply Ha|by apply Hab].
Qed.
Lemma sorted_sublist (a b : list ConfigLayerEntry) : a `sublist_of` b → StronglySorted lower b → StronglySorted lower a.
Proof.
  induction 1 as [|x a b Hab IH|x a b Hab IH]; [done| |]; intros [Hb Hx]%StronglySorted_inv; [|by apply IH].
  constructor; [by apply IH|]. rewrite Forall_forall in *. intros y Hy. apply Hx. by eapply elem_of_sublist.
Qed.
Lemma filter_sublist {A} (p : A → bool) (l : list A) : List.filter p l `sublist_of` l.
Proof. induction l as [|x l IH]; cbn; [done|]. destruct (p x); by constructor. Qed.

(** ** Lemmas: the active user layer *)
Definition active_at (ls : list ConfigLayerEntry) (index : option nat) : Prop :=
  match index with
  | Some i => ∃ l, ls !! i = Some l ∧ is_user_layer l = true ∧ ∀ j l', i < j → ls !! j = Some l' → is_user_layer l' = false
  | None => ∀ l, l ∈ ls → is_user_layer l = false
  end.
Lemma last_user_index_active ls : active_at ls (last_user_index ls).
Proof.
  induction ls as [|l ls IH] using rev_ind; [by intros l ?%elem_of_nil|]. unfold last_user_index, first_some in *. rewrite imap_app, rev_app_distr. cbn [imap rev app omap list_omap fst snd].
  rewrite Nat.add_0_r. cbn [compose]. destruct (is_user_layer l) eqn:E.
  - cbn. exists l. split_and!; [by rewrite lookup_app_r, Nat.sub_diag by lia|done|]. intros j l' Hj Hl'. apply lookup_lt_Some in Hl'. rewrite length_app in Hl'. cbn in Hl'. lia.
  - destruct (head _) as [i|]; cbn in *.
    + destruct IH as (x & Hx & Hu & Hlast). exists x. split_and!; [by apply lookup_app_l_Some|done|]. intros j l' Hj [Hl'|[Hge Hl']]%lookup_app_Some; [by eapply Hlast|].
      apply list_lookup_singleton_Some in Hl' as [_ <-]. done.
    + intros x [Hx|Hx]%elem_of_app; [by apply IH|]. by apply list_elem_of_singleton in Hx as ->.
Qed.
Lemma verify_loop_active ls : ∀ i u previous r, verify_loop i u previous ls = Ok r →
  (∃ k, r = Some (i + k) ∧ active_at ls (Some k)) ∨ (r = u ∧ active_at ls None).
Proof.
  induction ls as [|l ls IH]; intros i u previous r; cbn [verify_loop].
  - intros [= <-]. right. split; [done|]. by intros l ?%elem_of_nil.
  - assert (∀ previous, verify_loop (S i) (if is_user_layer l then Some i else u) previous ls = Ok r →
      (∃ k, r = Some (i + k) ∧ active_at (l :: ls) (Some k)) ∨ (r = u ∧ active_at (l :: ls) None)) as Hnext.
    { intros previous' [(k & -> & x & Hx & Hu & Hlast)|[-> Hnone]]%IH.
      - left. exists (S k). split; [f_equal; lia|]. exists x. split_and!; [done|done|]. intros [|j] l' Hj Hl'; [lia|]. apply (Hlast j); [lia|done].
      - destruct (is_user_layer l) eqn:E.
        + left. exists 0. split; [f_equal; lia|]. exists l. split_and!; [done|done|]. intros [|j] l' Hj Hl'; [lia|]. apply Hnone. by eapply list_elem_of_lookup_2.
        + right. split; [done|]. intros x [->|Hx]%elem_of_cons; [done|by apply Hnone]. }
    destruct (name l); try (by apply Hnext). destruct previous as [p|]; [|by apply Hnext]. destruct (parent p); [|done]. destruct (_ || _); [done|]. by apply Hnext.
Qed.

(** ** Stacks stay ordered *)
Section ordered.
Context {Requirements : Type} (to_value : TomlValue → JsonValue) (to_vec : JsonValue → list N) (sha256 : list N → list N).
#[local] Abbreviation Stack := (ConfigLayerStack Requirements).
#[local] Abbreviation with_user_config := (with_user_config to_value to_vec sha256).
#[local] Abbreviation with_user_config_profile := (with_user_config_profile to_value to_vec sha256).
#[local] Abbreviation layer_new := (layer_new to_value to_vec sha256).
(** The stacks there are. *)
Inductive stack : Stack → Prop :=
| stack_checked ls r s : stack_new ls r = Ok s → stack s
| stack_ignores s b : stack s → stack (with_user_and_project_exec_policy_rules_ignored s b)
| stack_warns s warnings : stack s → stack (with_startup_warnings s warnings)
| stack_user s file v : stack s → stack (with_user_config s file v)
| stack_profile s file profile v : stack s → stack (with_user_config_profile s file profile v)
| stack_from s other : stack s → stack other → stack (with_user_layer_from s other).
Lemma with_user_config_profile_sorted (s : Stack) file profile v :
  StronglySorted lower (layers s) → StronglySorted lower (layers (with_user_config_profile s file profile v)).
Proof using Type.
  intros Hs. unfold ConfigLayers.with_user_config_profile. cbn [layers with_layers]. apply insert_layer_sorted. destruct (position _ _) as [i|]; [|done].
  eapply sorted_sublist; [|exact Hs]. rewrite <- (take_drop i (layers s)) at 3. apply sublist_app; [done|]. rewrite <- Nat.add_1_r, <- drop_drop. apply sublist_drop.
Qed.
Lemma stack_sorted_active (s : Stack) : stack s → StronglySorted lower (layers s) ∧ active_at (layers s) (user_layer_index s).
Proof using Type.
  induction 1 as [ls r s Hnew|s b _ IH|s w _ IH|s file v _ [IH _]|s file profile v _ [IH _]|s other _ [IH _] _ _]; try exact IH.
  - unfold stack_new, verify_layer_ordering in Hnew. destruct (is_sorted ls) eqn:Es; [|done]. apply bind_Ok in Hnew as (index & Hv & [= <-]). cbn.
    split; [by apply is_sorted_spec|]. by destruct (verify_loop_active _ _ _ _ _ Hv) as [(k & -> & Hk)|[-> Hn]].
  - split; [by apply with_user_config_profile_sorted|apply last_user_index_active].
  - split; [by apply with_user_config_profile_sorted|apply last_user_index_active].
  - split; [|apply last_user_index_active]. cbn. assert (StronglySorted lower (List.filter (λ l, negb (is_user_layer l)) (layers s))) as Hf.
    { eapply sorted_sublist; [apply filter_sublist|done]. }
    revert Hf. generalize (List.filter (λ l, negb (is_user_layer l)) (layers s)).
    induction (List.filter is_user_layer (layers other)) as [|l ls IHl]; intros ls' Hf; cbn [foldl]; [done|]. by apply IHl, insert_layer_sorted.
Qed.
Lemma active_is_highest (s : Stack) l : StronglySorted lower (layers s) → active_at (layers s) (user_layer_index s) → get_active_user_layer s = Some l →
  l ∈ layers s ∧ is_user_layer l = true ∧ ∀ l', l' ∈ layers s → is_user_layer l' = true → (precedence (name l') ≤ precedence (name l))%Z.
Proof using Type.
  intros Hs Ha Hl. unfold get_active_user_layer in Hl. destruct (user_layer_index s) as [i|]; [|done]. cbn in Hl.
  destruct Ha as (x & Hx & Hu & Hlast). rewrite Hx in Hl. injection Hl as ->. split_and!; [by eapply list_elem_of_lookup_2|done|]. intros l' (j & Hj)%list_elem_of_lookup Hu'.
  destruct (decide (i < j)) as [Hij|Hij]; [rewrite (Hlast j l') in Hu' by done; done|]. destruct (decide (i = j)) as [->|]; [by simplify_eq|].
  rewrite <- (take_drop_middle _ _ _ Hx) in Hs. apply sorted_app_inv in Hs as (_ & _ & Hs). apply Hs; [|by left].
  apply list_elem_of_lookup. exists j. rewrite lookup_take_lt; [done|lia].
Qed.
(** C23: whatever is done to a stack ([ConfigLayerStack]), its layers go from lower to higher precedence and its index points
    at the last of the user's layers, where it has one: the active layer, the one that edits go to, is the user's layer
    with the highest precedence. *)
Theorem stacks_stay_ordered (s : Stack) : stack s →
  StronglySorted lower (layers s) ∧ active_at (layers s) (user_layer_index s) ∧
  ∀ l, get_active_user_layer s = Some l → is_user_layer l = true ∧ ∀ l', l' ∈ layers s → is_user_layer l' = true → (precedence (name l') ≤ precedence (name l))%Z.
Proof using Type.
  intros [Hs Ha]%stack_sorted_active. split_and!; [done|done|]. intros l Hl. by apply (active_is_highest s l).
Qed.
Lemma filter_insert_layer (p : ConfigLayerEntry → bool) ls layer :
  p layer = false → List.filter p (insert_layer_by_precedence ls layer) = List.filter p ls.
Proof using Type.
  intros Hp. destruct (insert_layer_split ls layer) as (a & b & -> & -> & _). rewrite !List.filter_app. cbn. by rewrite Hp.
Qed.
(** An edit of one of the user's files touches that layer only. *)
Lemma user_edits_touch_one_layer (s : Stack) file profile v : length (List.filter (is_user_file file) (layers s)) ≤ 1 →
  let s' := with_user_config_profile s file profile v in
  List.filter (λ l, negb (is_user_file file l)) (layers s') = List.filter (λ l, negb (is_user_file file l)) (layers s) ∧
  List.filter (is_user_file file) (layers s') = [layer_new (User file profile) v].
Proof using Type.
  intros Hone s'. assert (is_user_file file (layer_new (User file profile) v) = true) as Hnew by by apply bool_decide_eq_true_2.
  assert (∃ ls, layers s' = insert_layer_by_precedence ls (layer_new (User file profile) v) ∧ List.filter (is_user_file file) ls = [] ∧
    List.filter (λ l, negb (is_user_file file l)) ls = List.filter (λ l, negb (is_user_file file l)) (layers s)) as (ls & -> & Hnone & Hothers).
  { eexists. split; [done|]. destruct (position (is_user_file file) (layers s)) as [i|] eqn:E.
    - apply position_Some in E as (x & Hx & Hp & _). pose proof (take_drop_middle _ _ _ Hx) as Heq. revert Heq.
      generalize (take i (layers s)) (drop (S i) (layers s)). intros a b Heq. rewrite <- Heq in Hone |- *. rewrite !List.filter_app in *. cbn in *. rewrite Hp in *. cbn in *.
      rewrite length_app in Hone. cbn in Hone. split; [|done]. apply length_zero_iff_nil. rewrite length_app. lia.
    - split; [|done]. apply NetworkPolicy.filter_nil. intros x Hx. by apply (proj1 (position_None _ _) E). }
  split; [rewrite filter_insert_layer; [done|]; by apply negb_false_iff|]. destruct (insert_layer_split ls (layer_new (User file profile) v)) as (a & b & -> & -> & _).
  rewrite List.filter_app in *. cbn. apply app_nil in Hnone as [-> ->]. by rewrite bool_decide_eq_true_2.
Qed.
End ordered.

(** ** Fingerprints do not depend on the order of keys *)
Inductive json_same : JsonValue → JsonValue → Prop :=
| same_value v : json_same v v
| same_array l k : Forall2 json_same l k → json_same (JArray l) (JArray k)
| same_object m n : NoDup m.*1 → m.*1 ≡ₚ n.*1 → (∀ key a b, (key, a) ∈ m → (key, b) ∈ n → json_same a b) → json_same (JObject m) (JObject n).
#[global] Instance key_le_trans : Transitive key_le.
Proof. intros a b c. apply (cmp_le_trans (lex_cmp N.compare)). Qed.
#[global] Instance key_le_total : Total key_le.
Proof. intros a b. apply (cmp_le_total (lex_cmp N.compare)). Qed.
#[global] Instance key_le_antisym : AntiSymm (=) key_le.
Proof.
  intros a b Hab Hba. unfold key_le, key_cmp in *. rewrite (cmp_opp (cmp:=lex_cmp N.compare) a b) in Hba.
  destruct (lex_cmp N.compare a b) eqn:E; try done. by apply (cmp_eq (cmp:=lex_cmp N.compare)).
Qed.
Lemma canonical_json_same a : ∀ other, json_same a other → canonical_json a = canonical_json other.
Proof.
  induction a as [| | | |items IH|m IH] using JsonValue_ind; intros other Hs; inversion Hs as [|? k Hf|? n' Hnd Hp Hv]; subst; try done; cbn [canonical_json]; f_equal.
  - clear Hs. revert k Hf. induction IH as [|x l Hx Hl IHl]; intros k Hf; inversion Hf; subst; [done|]. cbn. f_equal; [by apply Hx|by apply IHl].
  - assert (merge_sort key_le n'.*1 = merge_sort key_le m.*1) as ->.
    { apply (StronglySorted_unique key_le); [apply (StronglySorted_merge_sort key_le)..|]. by rewrite !(merge_sort_Permutation key_le). }
    assert (∀ key, key ∈ merge_sort key_le m.*1 → key ∈ m.*1) as Hin by (intros key; by rewrite (merge_sort_Permutation key_le)).
    revert Hin. generalize (merge_sort key_le m.*1). induction l as [|key keys IHk]; intros Hin; [done|]. cbn [omap list_omap].
    rewrite IHk by (intros; apply Hin; by right). assert (key ∈ m.*1) as Hm by (apply Hin; by left). assert (key ∈ n'.*1) as Hn by (by rewrite <- Hp).
    apply list_elem_of_fmap in Hm as ([? a] & -> & Hma). apply list_elem_of_fmap in Hn as ([? b] & Hk & Hnb). cbn in *. subst.
    rewrite !(table_get_map (λ _, canonical_json)), (elem_table_get _ a m), (elem_table_get _ b n'); [|by rewrite <- Hp|done|done|done]. cbn. do 2 f_equal.
    rewrite Forall_forall in IH. apply (IH _ Hma). by eapply Hv.
Qed.
Lemma versions_ignore_key_order to_value to_vec sha256 a b :
  json_same (to_value a) (to_value b) → version_for_toml to_value to_vec sha256 a = version_for_toml to_value to_vec sha256 b.
Proof. intros Hs. unfold version_for_toml. by rewrite (canonical_json_same _ _ Hs). Qed.

(** ** Examples *)
Module Example_stack.
Definition system : ConfigLayerEntry := mk_layer (System (lit "/etc/codex/config.toml")) (TTable [(lit "model", TString (lit "small")); (lit "features", TTable [(lit "a", TInteger 1)])]) None [] None None.
Definition user : ConfigLayerEntry :=
  mk_layer (User (lit "/h/config.toml") None) (TTable [(lit "features", TTable [(lit "a", TInteger 2); (lit "b", TInteger 3)]); (lit "memories", TTable [(lit "no_memories_if_mcp_or_web_search", TBoolean true)])]) None [] None None.
Definition project : ConfigLayerEntry := mk_layer (Project (lit "/p/.codex")) (TTable [(lit "model", TString (lit "large"))]) None [] (Some (lit "not trusted")) None.
Definition example : ConfigLayerStack unit := mk_stack [system; user; project] (Some 1) tt false None.
Definition flags : ConfigLayerEntry := mk_layer SessionFlags (TTable [(lit "features", TString (lit "none"))]) None [] None None.
(** Documents of tables whose keys hold no dot. *)
Fixpoint plain (v : TomlValue) : bool :=
  match v with TArray _ => false | TTable t => forallb (λ e, bool_decide (chr "." ∉ e.1) && plain e.2) t | _ => true end.
Lemma plain_leaf v p x : leaf_at v p x → plain v = true → Forall (λ k, chr "." ∉ k) p.
Proof.
  induction 1 as [|v k c path s Hin _ IH]; [constructor|]. intros Hp. destruct v; try done; cbn in Hin; [by apply elem_of_nil in Hin..|].
  cbn in Hp. rewrite forallb_forall in Hp. apply list_elem_of_In, Hp in Hin. apply andb_true_iff in Hin as [Hk%bool_decide_eq_true Hc]. constructor; [done|by apply IH].
Qed.
(** A decidable condition on a path and the documents: neither has a dot in a key. *)
Lemma layers_ok path ls : forallb (λ k, bool_decide (chr "." ∉ k)) path = true → path ≠ [] →
  forallb (λ l, distinctb (config l) && plain (normalized_with_key_aliases (config l) [])) ls = true →
  Forall (λ l, distinct (config l) ∧
    ∀ q x, leaf_at (normalized_with_key_aliases (config l) []) q x → q ≠ [] → join_with [chr "."] q = join_with [chr "."] path → q = path) ls.
Proof.
  intros Hpath Hne H. apply Forall_forall. intros l Hl. rewrite forallb_forall in H. apply list_elem_of_In, H, andb_true_iff in Hl as [Hd Hp].
  split; [by apply distinctb_distinct|]. intros q x Hx Hq Hj. rewrite <- (split_join (chr ".") q), Hj, split_join; [done|done| |done|by eapply plain_leaf].
  apply Forall_forall. intros k Hk. rewrite forallb_forall in Hpath. by apply list_elem_of_In, Hpath, bool_decide_eq_true in Hk.
Qed.
Lemma layers_distinct ls : forallb (λ l, distinctb (config l)) ls = true → Forall (λ l, distinct (config l)) ls.
Proof. intros H. apply Forall_forall. intros l Hl. rewrite forallb_forall in H. by apply distinctb_distinct, H, list_elem_of_In. Qed.
End Example_stack.
Import Example_stack.
Lemma effective_config_is_the_highest_setting_witness :
  leaf (setting (effective_config example) [lit "features"; lit "a"]) = Some (TInteger 2) ∧ leaf (setting (effective_config example) [lit "model"]) = Some (TString (lit "small")) ∧
  leaf (setting (effective_config example) [lit "memories"; lit "disable_on_external_context"]) = Some (TBoolean true).
Proof.
  assert (Forall (λ l, distinct (config l)) (get_layers example LowestPrecedenceFirst false)) as Hd by (apply layers_distinct; vm_compute; reflexivity).
  split_and!; rewrite (effective_config_is_the_highest_setting example _ Hd) by (vm_compute; reflexivity); vm_compute; reflexivity.
Defined.
Lemma origins_name_the_layer_witness : origins example !! lit "features.a" = Some (metadata user).
Proof.
  destruct (origins_name_the_layer example [lit "features"; lit "a"] (TInteger 2)) as (below & l & above & Heq & Hl & _ & Ho).
  - by apply layers_ok.
  - done.
  - done.
  - econstructor; [|econstructor; [|constructor; done]]; [right; left|left].
  - change (origins example !! join_with [chr "."] [lit "features"; lit "a"] = Some (metadata user)). rewrite Ho. f_equal. vm_compute in Heq.
    destruct below as [|x [|y [|z below]]]; injection Heq; intros; subst; try done.
Defined.
(** A key with a dot above hides where the value of the nested key came from. *)
Definition dotted : ConfigLayerStack unit :=
  mk_stack [mk_layer (System (lit "/etc")) (TTable [(lit "a", TTable [(lit "b", TInteger 1)])]) None [] None None;
            mk_layer (User (lit "/h") None) (TTable [(lit "a.b", TInteger 2)]) None [] None None] None tt false None.
Example dotted_keys_share_an_origin :
  setting (effective_config dotted) [lit "a"; lit "b"] = Value (TInteger 1) ∧ origins dotted !! lit "a.b" = Some (metadata (mk_layer (User (lit "/h") None) (TTable [(lit "a.b", TInteger 2)]) None [] None None)).
Proof. vm_compute. done. Qed.
Lemma stacks_stay_ordered_witness :
  let s := with_user_config_profile (λ _, JNull) (λ _, []) id (mk_stack [system; user; project] (Some 1) tt false None) (lit "/h/work.config.toml") (Some (lit "work")) (TTable []) in
  get_active_user_layer s = Some (layer_new (λ _, JNull) (λ _, []) id (User (lit "/h/work.config.toml") (Some (lit "work"))) (TTable [])) ∧
  ∀ l, l ∈ layers s → is_user_layer l = true → (precedence (name l) ≤ 21)%Z.
Proof.
  intros s. assert (get_active_user_layer s = Some (layer_new (λ _, JNull) (λ _, []) id (User (lit "/h/work.config.toml") (Some (lit "work"))) (TTable []))) as Ha by (vm_compute; reflexivity).
  split; [exact Ha|]. destruct (stacks_stay_ordered (λ _, JNull) (λ _, []) id s) as (_ & _ & Hmax).
  - apply stack_profile, (stack_checked _ _ _ [system; user; project] tt). vm_compute. reflexivity.
  - destruct (Hmax _ Ha) as [_ H]. exact H.
Defined.
(** A value that is overridden keeps the origin it had: a layer above puts something that is no table in its way. *)
Example overridden_values_keep_their_origin :
  let s := mk_stack [system; user; flags] (Some 1) tt false None in
  effective_config s = TTable [(lit "model", TString (lit "small")); (lit "features", TString (lit "none")); (lit "memories", TTable [(lit "disable_on_external_context", TBoolean true)])] ∧
  origins s !! lit "features" = Some (metadata flags) ∧ origins s !! lit "features.a" = Some (metadata user).
Proof. vm_compute. done. Qed.
