(* ===== verification/ConfigLoader.v ===== *)
(** * Loading the layers of a configuration ([config/src/loader/mod.rs], [project_root_markers.rs])

    Which documents are read for a session, in which order they are stacked, and what a project may contribute: its
    layers count only where the user trusts it, and never for the keys of the deny list. *)
From stdpp Require Import sorting.
From S2P Require Import Prelude RustStr RustPath ConfigMerge ConfigLayers.
From S2P Require AbsolutePath.

Inductive IoErrorKind := NotFound | InvalidData | OtherKind (text : rstring).
Record IoError := io_error { kind : IoErrorKind; message : rstring }.
Definition CONFIG_TOML_FILE : rstring := lit "config.toml".
Definition PROJECT_LOCAL_CONFIG_DENYLIST : list rstring :=
  [lit "openai_base_url"; lit "chatgpt_base_url"; lit "apps_mcp_product_sku"; lit "model_provider"; lit "model_providers"; lit "notify"; lit "profile"; lit "profiles";
   lit "experimental_realtime_ws_base_url"; lit "otel"].

(** ** Where a project starts ([project_root_markers.rs]) *)
Definition MARKERS_ERROR : IoError := io_error InvalidData (lit "project_root_markers must be an array of strings").
Fixpoint marker_strings (entries : list TomlValue) : outcome IoError (list rstring) :=
  match entries with
  | [] => Ok []
  | TString marker :: entries => let? markers := marker_strings entries in Ok (marker :: markers)
  | _ :: _ => Err MARKERS_ERROR
  end.
Definition project_root_markers_from_config (config : TomlValue) : outcome IoError (option (list rstring)) :=
  match config with
  | TTable t =>
      match table_get (lit "project_root_markers") t with
      | None => Ok None
      | Some (TArray entries) => let? markers := marker_strings entries in Ok (Some markers)
      | Some _ => Err MARKERS_ERROR
      end
  | _ => Ok None
  end.
Definition default_project_root_markers : list rstring := [lit ".git"].

(** ** What a project's document keeps *)
Definition sanitize_step (acc : Table * list rstring) (key : rstring) : Table * list rstring :=
  let '(t, ignored_keys) := acc in
  match table_get key t with Some _ => (table_remove key t, ignored_keys ++ [key]) | None => (t, ignored_keys) end.
Definition sanitize_project_config (config : TomlValue) : TomlValue * list rstring :=
  match config with
  | TTable t => let '(t, ignored_keys) := foldl sanitize_step (t, []) PROJECT_LOCAL_CONFIG_DENYLIST in (TTable t, ignored_keys)
  | _ => (config, [])
  end.
Fixpoint copy_shape_from_original (original resolved : TomlValue) : TomlValue :=
  match original, resolved with
  | TTable original_table, TTable resolved_table =>
      TTable (map (λ e, (e.1, copy_shape_from_original e.2 (default e.2 (table_get e.1 resolved_table)))) original_table)
  | TArray original_array, TArray resolved_array =>
      TArray ((fix each originals resolveds := match originals with
        | [] => []
        | original_value :: originals => copy_shape_from_original original_value (default original_value (head resolveds)) :: each originals (tail resolveds)
        end) original_array resolved_array)
  | _, resolved_value => resolved_value
  end.

(** ** Trust *)
Inductive TrustLevel := Trusted | Untrusted.
Record ProjectTrustDecision := mk_decision { trust_level : option TrustLevel; trust_key : rstring }.
Definition is_trusted (d : ProjectTrustDecision) : bool := match trust_level d with Some Trusted => true | _ => false end.
Record ProjectTrustContext := mk_trust {
  project_root : rstring; project_root_key : rstring; project_root_lookup_keys : list rstring; checkout_root : option rstring; repo_root : option rstring;
  repo_root_key : option rstring; repo_root_lookup_keys : option (list rstring); projects_trust : gmap rstring TrustLevel; user_config_file : rstring }.
(** Case is folded on Windows only. *)
Definition normalize_project_trust_lookup_key (key : rstring) : rstring := key.
Definition trust_entry_le (a b : rstring * TrustLevel) : Prop := key_le a.1 b.1.
#[global] Instance trust_entry_le_dec : RelDecision trust_entry_le.
Proof. intros a b. unfold trust_entry_le. apply _. Defined.
Definition project_trust_for_lookup_key (projects_trust : gmap rstring TrustLevel) (lookup_key : rstring) : option (rstring * TrustLevel) :=
  match projects_trust !! lookup_key with
  | Some level => Some (lookup_key, level)
  | None => head (merge_sort trust_entry_le (List.filter (λ e, bool_decide (normalize_project_trust_lookup_key e.1 = lookup_key)) (map_to_list projects_trust)))
  end.
Definition decision_from (projects_trust : gmap rstring TrustLevel) (keys : list rstring) : option ProjectTrustDecision :=
  first_some (λ key, (λ '(key, level), mk_decision (Some level) key) <$> project_trust_for_lookup_key projects_trust key) keys.

Section loader.
Context {Requirements : Type} (to_value : TomlValue → JsonValue) (to_vec : JsonValue → list N) (sha256 : list N → list N).
(** The file system; the TOML reader with its diagnostics; the configuration type, through which a document is sent to make
    its paths absolute ([None]: it does not fit), and its unknown fields; the trust that a document gives; git. *)
Context (home_dir : option rstring) (read_file_text : rstring → IoError + rstring) (is_directory exists_file : rstring → bool) (canonicalize : rstring → option rstring).
Context (from_str : rstring → rstring + TomlValue) (config_error_from_toml : rstring → rstring → rstring → rstring).
Context (as_config_toml : rstring → TomlValue → option (rstring + TomlValue)) (ignored_fields_error : rstring → rstring → TomlValue → rstring → option rstring).
Context (ignored_override_field : rstring → TomlValue → option rstring) (unknown_feature_field : TomlValue → option rstring).
Context (projects_of : rstring → TomlValue → rstring + gmap rstring (option TrustLevel)) (resolve_root_git_project_for_trust : rstring → option rstring).
Context (first_layer_config_error : list ConfigLayerEntry → option rstring).
#[local] Abbreviation join := (AbsolutePath.join home_dir).
#[local] Abbreviation layer_new := (layer_new to_value to_vec sha256).
#[local] Abbreviation new_disabled := (new_disabled to_value to_vec sha256).

Definition normalized_project_trust_keys (path : rstring) : list rstring :=
  let normalized_path := normalize_project_trust_lookup_key path in
  let normalized_canonical_path := normalize_project_trust_lookup_key (default path (canonicalize path)) in
  if bool_decide (normalized_path = normalized_canonical_path) then [normalized_canonical_path] else [normalized_canonical_path; normalized_path].
Definition project_trust_key (path : rstring) : rstring := default (normalize_project_trust_lookup_key path) (head (normalized_project_trust_keys path)).
Definition decision_for_dir (c : ProjectTrustContext) (dir : rstring) : ProjectTrustDecision :=
  match decision_from (projects_trust c) (normalized_project_trust_keys dir) with
  | Some d => d
  | None =>
      match decision_from (projects_trust c) (project_root_lookup_keys c) with
      | Some d => d
      | None =>
          match repo_root_lookup_keys c ≫= decision_from (projects_trust c) with
          | Some d => d
          | None => mk_decision None (default (project_root_key c) (repo_root_key c))
          end
      end
  end.
Definition GATED : rstring := lit "project-local config, hooks, and exec policies".
Definition disabled_reason_for_decision (c : ProjectTrustContext) (d : ProjectTrustDecision) : option rstring :=
  if is_trusted d then None
  else match trust_level d with
       | Some Untrusted => Some (trust_key d ++ lit " is marked as untrusted in " ++ user_config_file c ++ lit ". To load " ++ GATED ++ lit ", mark it trusted.")
       | _ => Some (lit "To load " ++ GATED ++ lit ", add " ++ trust_key d ++ lit " as a trusted project in " ++ user_config_file c ++ lit ".")
       end.
(** [Path::strip_prefix]: what is left of the components. *)
Definition strip_components (p prefix : rstring) : option rstring :=
  if bool_decide (components prefix `prefix_of` components p) then Some (render (drop (length (components prefix)) (components p))) else None.
Definition root_checkout_hooks_folder_for_dir (c : ProjectTrustContext) (dir : rstring) : option rstring :=
  checkout_root ← checkout_root c;
  repo_root ← repo_root c;
  if bool_decide (path_eq checkout_root repo_root) then None
  else relative_dir ← strip_components dir checkout_root; Some (join (join repo_root relative_dir) (lit ".codex")).
Definition project_layer_entry (dot_codex_folder : rstring) (config : TomlValue) (disabled_reason hooks_override : option rstring) : ConfigLayerEntry :=
  let source := Project dot_codex_folder in
  with_hooks_config_folder_override (match disabled_reason with Some reason => new_disabled source config reason | None => layer_new source config end) hooks_override.

(** ** Reading documents *)
Definition resolve_relative_paths_in_config_toml (value : TomlValue) (base_dir : rstring) : outcome IoError TomlValue :=
  match as_config_toml base_dir value with
  | None => Ok value
  | Some (inl e) => Err (io_error InvalidData (lit "Failed to serialize resolved config: " ++ e))
  | Some (inr resolved) => Ok (copy_shape_from_original value resolved)
  end.
Definition validate_config_toml_strictly (file contents : rstring) (value : TomlValue) (base_dir : rstring) : outcome IoError unit :=
  match ignored_fields_error file contents value base_dir with Some e => Err (io_error InvalidData e) | None => Ok tt end.
Definition when_strict (strict : bool) (check : outcome IoError unit) : outcome IoError unit := if strict then check else Ok tt.
Definition load_config_toml_for_required_layer (toml_file : rstring) (strict_config : bool) (create_entry : TomlValue → ConfigLayerEntry) : outcome IoError ConfigLayerEntry :=
  let? toml_value :=
    match read_file_text toml_file with
    | inr contents =>
        match parent toml_file with
        | None => Err (io_error InvalidData (lit "Config file " ++ toml_file ++ lit " has no parent directory"))
        | Some config_parent =>
            match from_str contents with
            | inl e => Err (io_error InvalidData (config_error_from_toml toml_file contents e))
            | inr config =>
                let? _ := when_strict strict_config (validate_config_toml_strictly toml_file contents config config_parent) in
                resolve_relative_paths_in_config_toml config config_parent
            end
        end
    | inl e =>
        match kind e with
        | NotFound => Ok (TTable [])
        | k => Err (io_error k (lit "Failed to read config file " ++ toml_file ++ lit ": " ++ message e))
        end
    end in
  Ok (create_entry toml_value).
Definition load_user_config_layer (user_file : rstring) (profile : option rstring) (ignore_user_config strict_config : bool) : outcome IoError ConfigLayerEntry :=
  if ignore_user_config then Ok (layer_new (User user_file profile) (TTable []))
  else load_config_toml_for_required_layer user_file strict_config (layer_new (User user_file profile)).
(** Hooks of a linked worktree are those of the root checkout. *)
Definition with_root_hooks (config root_config : TomlValue) : TomlValue :=
  match config with
  | TTable t =>
      let t := table_remove (lit "hooks") t in
      TTable (match table_get (lit "hooks") (table_of root_config) with Some hooks => table_insert (lit "hooks") hooks t | None => t end)
  | _ => config
  end.
Definition merge_root_checkout_project_hooks (config : TomlValue) (hooks_override : option rstring) (trusted : bool) : outcome IoError TomlValue :=
  match hooks_override with
  | None => Ok config
  | Some hooks_config_folder =>
      let hooks_config_file := join hooks_config_folder CONFIG_TOML_FILE in
      let? root_config :=
        match read_file_text hooks_config_file with
        | inr contents =>
            match from_str contents with
            | inr parsed => resolve_relative_paths_in_config_toml parsed hooks_config_folder
            | inl e =>
                if trusted then Err (io_error InvalidData (lit "Error parsing project hooks config file " ++ hooks_config_file ++ lit ": " ++ e))
                else resolve_relative_paths_in_config_toml (TTable []) hooks_config_folder
            end
        | inl e =>
            match kind e with
            | NotFound => Ok (TTable [])
            | k => Err (io_error k (lit "Failed to read project hooks config file " ++ hooks_config_file ++ lit ": " ++ message e))
            end
        end in
      Ok (with_root_hooks config root_config)
  end.

(** ** The project of a directory *)
Fixpoint find_root_from (markers dirs : list rstring) : option rstring :=
  match dirs with
  | [] => None
  | ancestor :: dirs => if existsb (λ marker, exists_file (join ancestor marker)) markers then Some ancestor else find_root_from markers dirs
  end.
Definition find_project_root (cwd : rstring) (project_root_markers : list rstring) : rstring :=
  if bool_decide (project_root_markers = []) then cwd else default cwd (find_root_from project_root_markers (ancestors cwd)).
Definition find_git_checkout_root (cwd : rstring) : option rstring :=
  base ← if is_directory cwd then Some cwd else parent cwd;
  find_root_from [lit ".git"] (ancestors base).
Definition project_trust_context (merged_config : TomlValue) (cwd : rstring) (project_root_markers : list rstring) (config_base_dir user_config_file : rstring) :
  outcome IoError ProjectTrustContext :=
  match projects_of config_base_dir merged_config with
  | inl e => Err (io_error InvalidData e)
  | inr projects =>
      let project_root := find_project_root cwd project_root_markers in
      let project_root_lookup_keys := normalized_project_trust_keys project_root in
      let repo_root := resolve_root_git_project_for_trust cwd in
      let repo_root_lookup_keys := normalized_project_trust_keys <$> repo_root in
      Ok (mk_trust project_root (default (project_trust_key project_root) (head project_root_lookup_keys)) project_root_lookup_keys (find_git_checkout_root cwd) repo_root
        (repo_root_lookup_keys ≫= head) repo_root_lookup_keys (omap id projects) user_config_file)
  end.

(** ** The layers of a project *)
(** From the project's root down to the working directory. *)
Fixpoint up_to (root : rstring) (dirs : list rstring) : list rstring :=
  match dirs with [] => [] | a :: dirs => a :: (if bool_decide (path_eq a root) then [] else up_to root dirs) end.
Definition project_dirs (cwd root : rstring) : list rstring := rev (up_to root (ancestors cwd)).
Definition project_ignored_config_keys_warning (dot_codex_folder : rstring) (ignored_keys : list rstring) : rstring :=
  lit "Ignored unsupported project-local config keys in " ++ join dot_codex_folder CONFIG_TOML_FILE ++ lit ": " ++ join_with (lit ", ") ignored_keys
    ++ lit ". If you want these settings to apply, manually set them in your user-level config.toml.".
(** The layer of one directory, with its warning; none without a [.codex] folder, and none for the user's own. *)
Definition load_project_layer (trust_context : ProjectTrustContext) (codex_home codex_home_normalized dir : rstring) (strict_config : bool) :
  outcome IoError (option (ConfigLayerEntry * option rstring)) :=
  let dot_codex := join dir (lit ".codex") in
  if negb (is_directory dot_codex) then Ok None
  else
    let decision := decision_for_dir trust_context dir in
    let disabled_reason := disabled_reason_for_decision trust_context decision in
    let hooks_override := root_checkout_hooks_folder_for_dir trust_context dir in
    let dot_codex_normalized := default dot_codex (canonicalize dot_codex) in
    if bool_decide (path_eq dot_codex codex_home) || bool_decide (path_eq dot_codex_normalized codex_home_normalized) then Ok None
    else
      let config_file := join dot_codex CONFIG_TOML_FILE in
      match read_file_text config_file with
      | inr contents =>
          match from_str contents with
          | inl e =>
              if is_trusted decision then Err (io_error InvalidData (lit "Error parsing project config file " ++ config_file ++ lit ": " ++ e))
              else Ok (Some (project_layer_entry dot_codex (TTable []) disabled_reason hooks_override, None))
          | inr config =>
              let enabled := match disabled_reason with None => true | Some _ => false end in
              let? _ := when_strict (enabled && strict_config) (validate_config_toml_strictly config_file contents config dot_codex) in
              let '(config, ignored) := sanitize_project_config config in
              let? config := resolve_relative_paths_in_config_toml config dot_codex in
              let? config := merge_root_checkout_project_hooks config hooks_override (is_trusted decision) in
              let warning := if enabled && negb (bool_decide (ignored = [])) then Some (project_ignored_config_keys_warning dot_codex ignored) else None in
              Ok (Some (project_layer_entry dot_codex config disabled_reason hooks_override, warning))
          end
      | inl e =>
          match kind e with
          | NotFound =>
              let? config := merge_root_checkout_project_hooks (TTable []) hooks_override (is_trusted decision) in
              Ok (Some (project_layer_entry dot_codex config disabled_reason hooks_override, None))
          | k => Err (io_error k (lit "Failed to read project config file " ++ config_file ++ lit ": " ++ message e))
          end
      end.
Fixpoint load_project_layers_from (trust_context : ProjectTrustContext) (codex_home codex_home_normalized : rstring) (strict_config : bool) (dirs : list rstring) :
  outcome IoError (list ConfigLayerEntry * list rstring) :=
  match dirs with
  | [] => Ok ([], [])
  | dir :: dirs =>
      let? loaded := load_project_layer trust_context codex_home codex_home_normalized dir strict_config in
      let? rest := load_project_layers_from trust_context codex_home codex_home_normalized strict_config dirs in
      Ok (match loaded with Some (layer, warning) => (layer :: rest.1, option_list warning ++ rest.2) | None => rest end)
  end.
Definition load_project_layers (cwd : rstring) (trust_context : ProjectTrustContext) (codex_home : rstring) (strict_config : bool) :
  outcome IoError (list ConfigLayerEntry * list rstring) :=
  load_project_layers_from trust_context codex_home (default codex_home (canonicalize codex_home)) strict_config (project_dirs cwd (project_root trust_context)).

(** ** The whole stack *)
(** The inputs that are files, flags or services: where the documents are, what the command line and the thread say, the managed
    configuration that was found, and the requirements. *)
Record LoadInputs := mk_inputs {
  codex_home : rstring; cwd_of : option rstring; cli_overrides : list (rstring * TomlValue); strict_config : bool;
  user_config_path : option rstring; user_config_profile : option rstring; system_config_toml_file : rstring; ignore_user_config : bool; ignore_exec_policy_rules : bool;
  thread_config_layers : list ConfigLayerEntry; managed_config : option (rstring * TomlValue); managed_config_from_mdm : option (TomlValue * rstring);
  loaded_requirements : Requirements }.
Definition base_user_file (i : LoadInputs) : rstring := AbsolutePath.resolve_path_against_base home_dir CONFIG_TOML_FILE (codex_home i).
Definition active_user_file (i : LoadInputs) : rstring := default (base_user_file i) (user_config_path i).
Definition validate_cli_overrides_strictly (layer : TomlValue) (base_dir : rstring) : outcome IoError unit :=
  let unknown field := Err (io_error InvalidData (lit "unknown configuration field `" ++ field ++ lit "` in -c/--config override")) in
  match ignored_override_field base_dir layer with
  | Some field => unknown field
  | None => match unknown_feature_field layer with Some field => unknown field | None => Ok tt end
  end.
Definition load_cli_layer (i : LoadInputs) : outcome IoError (option TomlValue) :=
  match cli_overrides i with
  | [] => Ok None
  | overrides =>
      let layer := build_cli_overrides_layer overrides in
      let base_dir := default (codex_home i) (cwd_of i) in
      let? _ := when_strict (strict_config i) (validate_cli_overrides_strictly layer base_dir) in
      let? layer := resolve_relative_paths_in_config_toml layer base_dir in
      Ok (Some layer)
  end.
Definition uses_legacy_profile (config : TomlValue) (profile : rstring) : bool :=
  match config with
  | TTable t =>
      match table_get (lit "profile") t with Some (TString p) => bool_decide (p = profile) | _ => false end
      || match table_get (lit "profiles") t with Some (TTable profiles) => if table_get profile profiles is Some _ then true else false | _ => false end
  | _ => false
  end.
Definition QUOTE : rstring := [34%N].
Definition legacy_profile_error (profile base active : rstring) : IoError :=
  io_error InvalidData (lit "--profile `" ++ profile ++ lit "` cannot be used while " ++ base ++ lit " contains legacy `profile = " ++ QUOTE ++ profile ++ QUOTE ++ lit "` or `[profiles." ++ profile
    ++ lit "]` config; move those settings into " ++ active ++ lit " and remove the legacy profile selector/table. See https://developers.openai.com/codex/config-advanced#profiles for more information.").
(** System and user layers, lowest first. *)
Definition load_base_layers (i : LoadInputs) : outcome IoError (list ConfigLayerEntry) :=
  let? system_layer := load_config_toml_for_required_layer (system_config_toml_file i) (strict_config i) (layer_new (System (system_config_toml_file i))) in
  let? base_user_layer := load_user_config_layer (base_user_file i) None (ignore_user_config i) (strict_config i) in
  let? _ := match user_config_profile i with
            | Some profile => if uses_legacy_profile (config base_user_layer) profile then Err (legacy_profile_error profile (base_user_file i) (active_user_file i)) else Ok tt
            | None => Ok tt
            end in
  if bool_decide (path_eq (active_user_file i) (base_user_file i)) then Ok [system_layer; base_user_layer]
  else let? profile_layer := load_user_config_layer (active_user_file i) (user_config_profile i) (ignore_user_config i) (strict_config i) in
       Ok [system_layer; base_user_layer; profile_layer].
(** What decides about trust: the system's, the user's and the command line's configuration, and nothing of the project. *)
Definition merged_so_far (base : list ConfigLayerEntry) (cli : option TomlValue) : TomlValue :=
  let merged := foldl (λ merged l, merge_toml_values merged (config l)) (TTable []) base in
  match cli with Some cli => merge_toml_values merged cli | None => merged end.
Definition or_first_layer_error {A} (layers : list ConfigLayerEntry) (m : outcome IoError A) : outcome IoError A :=
  match m with
  | Err e => match first_layer_config_error layers with Some e' => Err (io_error InvalidData e') | None => Err e end
  | m => m
  end.
Definition trust_for (i : LoadInputs) (cwd : rstring) (base : list ConfigLayerEntry) (cli : option TomlValue) : outcome IoError ProjectTrustContext :=
  let merged := merged_so_far base cli in
  let? markers := or_first_layer_error base (project_root_markers_from_config merged) in
  or_first_layer_error base (project_trust_context merged cwd (default default_project_root_markers markers) (codex_home i) (active_user_file i)).
Definition load_project_part (i : LoadInputs) (base : list ConfigLayerEntry) (cli : option TomlValue) : outcome IoError (list ConfigLayerEntry * option (list rstring)) :=
  match cwd_of i with
  | Some cwd =>
      let? trust_context := trust_for i cwd base cli in
      let? loaded := load_project_layers cwd trust_context (codex_home i) (strict_config i) in
      Ok (loaded.1, Some loaded.2)
  | None => Ok ([], None)
  end.
Definition load_managed_layers (i : LoadInputs) : outcome IoError (list ConfigLayerEntry) :=
  let? from_file :=
    match managed_config i with
    | Some (file, value) =>
        match parent file with
        | None => Err (io_error InvalidData (lit "Managed config file " ++ file ++ lit " has no parent directory"))
        | Some managed_parent => let? value := resolve_relative_paths_in_config_toml value managed_parent in Ok [layer_new (LegacyManagedConfigTomlFromFile file) value]
        end
    | None => Ok []
    end in
  let? from_mdm :=
    match managed_config_from_mdm i with
    | Some (value, raw) => let? value := resolve_relative_paths_in_config_toml value (codex_home i) in Ok [new_with_raw_toml to_value to_vec sha256 LegacyManagedConfigTomlFromMdm value raw]
    | None => Ok []
    end in
  Ok (from_file ++ from_mdm).
Definition load_config_layers_state (i : LoadInputs) : outcome IoError (ConfigLayerStack Requirements) :=
  let? cli := load_cli_layer i in
  let? base := load_base_layers i in
  let? project := load_project_part i base cli in
  let layers := base ++ project.1 ++ match cli with Some cli => [layer_new SessionFlags cli] | None => [] end in
  let layers := foldl insert_layer_by_precedence layers (thread_config_layers i) in
  let? managed := load_managed_layers i in
  match stack_new (layers ++ managed) (loaded_requirements i) with
  | Ok s =>
      let s := with_user_and_project_exec_policy_rules_ignored s (ignore_exec_policy_rules i) in
      Ok (match project.2 with Some warnings => with_startup_warnings s warnings | None => s end)
  | Err e => Err (io_error InvalidData e)
  | Panic => Panic
  end.

(** ** Lemmas: where the layers come from *)
Lemma required_layer_name file strict create l : (∀ v, name (create v) = name (create (TTable []))) →
  load_config_toml_for_required_layer file strict create = Ok l → name l = name (create (TTable [])).
Proof using Type. intros Hc H. unfold load_config_toml_for_required_layer in H. apply bind_Ok in H as (v & _ & [= <-]). apply Hc. Qed.
Lemma user_layer_name file profile ignored strict l : load_user_config_layer file profile ignored strict = Ok l → name l = User file profile.
Proof using Type. unfold load_user_config_layer. destruct ignored; [by intros [= <-]|]. intros H. by apply required_layer_name in H. Qed.
Lemma base_layer_names i base : load_base_layers i = Ok base → Forall (λ l, match name l with System _ | User _ _ => True | _ => False end) base.
Proof using Type.
  unfold load_base_layers. intros (sys & Hsys & H)%bind_Ok. apply bind_Ok in H as (user & Huser & H). apply bind_Ok in H as (_ & _ & H).
  apply required_layer_name in Hsys; [|done]. apply user_layer_name in Huser. case_bool_decide.
  - injection H as <-. repeat constructor; by rewrite ?Hsys, ?Huser.
  - apply bind_Ok in H as (profile & Hp & [= <-]). apply user_layer_name in Hp. repeat constructor; by rewrite ?Hsys, ?Huser, ?Hp.
Qed.
Lemma managed_layer_names i managed : load_managed_layers i = Ok managed →
  Forall (λ l, match name l with LegacyManagedConfigTomlFromFile _ | LegacyManagedConfigTomlFromMdm => True | _ => False end) managed.
Proof using Type.
  unfold load_managed_layers. intros (a & Ha & H)%bind_Ok. apply bind_Ok in H as (b & Hb & [= <-]). apply Forall_app. split.
  - destruct (managed_config i) as [[file value]|]; [|by injection Ha as <-]. destruct (parent file); [|done]. apply bind_Ok in Ha as (v & _ & [= <-]). by repeat constructor.
  - destruct (managed_config_from_mdm i) as [[value raw]|]; [|by injection Hb as <-]. apply bind_Ok in Hb as (v & _ & [= <-]). by repeat constructor.
Qed.
Lemma trusted_enables c d : disabled_reason_for_decision c d = None ↔ is_trusted d = true.
Proof using Type. unfold disabled_reason_for_decision. destruct (is_trusted d); [done|]. by destruct (trust_level d) as [[]|]. Qed.

(** ** Lemmas: what a project's layer holds *)
Definition without_denied (v : TomlValue) : Prop := ∃ t, v = TTable t ∧ ∀ key, key ∈ PROJECT_LOCAL_CONFIG_DENYLIST → table_get key t = None.
Context (from_str_table : ∀ contents v, from_str contents = inr v → ∃ t, v = TTable t).
Context (as_config_toml_table : ∀ base t v, as_config_toml base (TTable t) = Some (inr v) → ∃ t', v = TTable t').
Lemma sanitize_loop keys : ∀ t ignored key, table_get key t = None ∨ key ∈ keys → table_get key (foldl sanitize_step (t, ignored) keys).1 = None.
Proof using Type.
  induction keys as [|k keys IH]; intros t ignored key Hk; cbn [foldl]; [by destruct Hk as [|Hk%elem_of_nil]|]. cbn [sanitize_step].
  destruct (table_get k t) eqn:E; apply IH; rewrite ?elem_of_cons in Hk.
  - rewrite table_get_remove. case_decide as Hne; [by left|]. by destruct Hk as [Hk|[Heq|Hk]]; [left| |right].
  - destruct Hk as [Hk|[->|Hk]]; auto.
Qed.
Lemma sanitized t : without_denied (sanitize_project_config (TTable t)).1.
Proof using Type.
  unfold sanitize_project_config. pose proof (sanitize_loop PROJECT_LOCAL_CONFIG_DENYLIST t []) as Hl. destruct (foldl sanitize_step (t, []) PROJECT_LOCAL_CONFIG_DENYLIST) as [t' ignored].
  exists t'. split; [done|]. intros key Hk. apply (Hl key). by right.
Qed.
Lemma resolved_denied v base v' : without_denied v → resolve_relative_paths_in_config_toml v base = Ok v' → without_denied v'.
Proof using as_config_toml_table.
  intros (t & -> & Ht) H. unfold resolve_relative_paths_in_config_toml in H. destruct (as_config_toml base (TTable t)) as [[e|r]|] eqn:E; [done| |].
  - apply as_config_toml_table in E as [t' ->]. injection H as <-. cbn [copy_shape_from_original]. eexists. split; [done|]. intros key Hk.
    by rewrite (table_get_map (λ k v, copy_shape_from_original v (default v (table_get k t')))), Ht.
  - injection H as <-. by exists t.
Qed.
Lemma hooks_denied v override trusted v' : without_denied v → merge_root_checkout_project_hooks v override trusted = Ok v' → without_denied v'.
Proof using Type.
  intros Hd H. unfold merge_root_checkout_project_hooks in H. destruct override as [folder|]; [|by injection H as <-]. apply bind_Ok in H as (root & _ & [= <-]).
  destruct Hd as (t & -> & Ht). cbn [with_root_hooks]. eexists. split; [done|]. intros key Hk. assert (key ≠ lit "hooks") as Hne by (intros ->; revert Hk; by apply (bool_decide_eq_true_1 (_ ∉ _))).
  assert (table_get key (table_remove (lit "hooks") t) = None) as Hr by (rewrite table_get_remove; by rewrite decide_False, Ht).
  destruct (table_get (lit "hooks") (table_of root)); [|done]. by rewrite table_get_insert, decide_False.
Qed.
Lemma empty_denied : without_denied (TTable []).
Proof using Type. by exists []. Qed.
Lemma project_layer_spec c home home' dir strict l w : load_project_layer c home home' dir strict = Ok (Some (l, w)) →
  name l = Project (join dir (lit ".codex")) ∧ disabled_reason l = disabled_reason_for_decision c (decision_for_dir c dir) ∧ without_denied (config l).
Proof using from_str_table as_config_toml_table.
  assert (∀ folder v r h, name (project_layer_entry folder v r h) = Project folder ∧ disabled_reason (project_layer_entry folder v r h) = r ∧ config (project_layer_entry folder v r h) = v) as He
    by (intros folder v [r|] h; done).
  unfold load_project_layer. destruct (negb _); [done|]. destruct (_ || _); [done|]. destruct (read_file_text _) as [e|contents].
  - destruct (kind e); [|done..]. intros (v & Hv & [= <- _])%bind_Ok. edestruct He as (-> & -> & ->). split_and!; [done|done|]. eapply hooks_denied; [|exact Hv]. apply empty_denied.
  - destruct (from_str contents) as [e|v] eqn:Ef.
    + destruct (is_trusted _); [done|]. intros [= <- _]. edestruct He as (-> & -> & ->). split_and!; [done|done|apply empty_denied].
    + apply from_str_table in Ef as [t ->]. intros (_ & _ & H)%bind_Ok. pose proof (sanitized t) as Hs. destruct (sanitize_project_config (TTable t)) as [v ignored]. cbn [fst] in Hs.
      apply bind_Ok in H as (v1 & H1 & H). apply bind_Ok in H as (v2 & H2 & [= <- _]). edestruct He as (-> & -> & ->). split_and!; [done|done|].
      eapply hooks_denied; [|exact H2]. by eapply resolved_denied.
Qed.
Lemma project_layers_spec c home home' strict dirs ls ws : load_project_layers_from c home home' strict dirs = Ok (ls, ws) →
  Forall (λ l, ∃ dir, dir ∈ dirs ∧ name l = Project (join dir (lit ".codex")) ∧ disabled_reason l = disabled_reason_for_decision c (decision_for_dir c dir) ∧ without_denied (config l)) ls.
Proof using from_str_table as_config_toml_table.
  revert ls ws. induction dirs as [|dir dirs IH]; intros ls ws; cbn [load_project_layers_from]; [by intros [= <- _]|].
  intros (loaded & Hl & H)%bind_Ok. apply bind_Ok in H as ([ls' ws'] & Hrest & [= H]). apply IH in Hrest.
  assert (Forall (λ l, ∃ d, d ∈ dir :: dirs ∧ name l = Project (join d (lit ".codex")) ∧ disabled_reason l = disabled_reason_for_decision c (decision_for_dir c d) ∧ without_denied (config l)) ls') as Hrest'.
  { eapply Forall_impl; [exact Hrest|]. intros l (d & Hd & Hl'). exists d. split; [by right|done]. }
  destruct loaded as [[l w]|]; injection H as <- _; [|done]. constructor; [|done]. apply project_layer_spec in Hl. exists dir. split; [by left|done].
Qed.
Lemma decision_from_trusted m keys d : decision_from m keys = Some d → is_trusted d = true → ∃ key, key ∈ keys ∧ m !! key = Some Trusted.
Proof using Type.
  unfold decision_from, first_some. induction keys as [|key keys IH]; [done|]. cbn [omap list_omap]. unfold project_trust_for_lookup_key at 1. destruct (m !! key) as [level|] eqn:E.
  - intros [= <-] Ht. exists key. split; [by left|]. rewrite E. by destruct level.
  - destruct (head (merge_sort _ _)) as [[k level]|] eqn:Eh.
    + exfalso. assert ((k, level) ∈ List.filter (λ e, bool_decide (normalize_project_trust_lookup_key e.1 = key)) (map_to_list m)) as Hin.
      { rewrite <- (merge_sort_Permutation trust_entry_le). destruct (merge_sort _ _); [done|]. injection Eh as ->. by left. }
      apply list_elem_of_In, List.filter_In in Hin as [Hin Hk]. apply bool_decide_eq_true in Hk. cbn in Hk. unfold normalize_project_trust_lookup_key in Hk. subst k.
      apply list_elem_of_In, elem_of_map_to_list in Hin. congruence.
    + intros Hd Ht. destruct (IH Hd Ht) as (k & Hk & Hm). exists k. split; [by right|done].
Qed.
Lemma decision_trusted c dir : is_trusted (decision_for_dir c dir) = true →
  ∃ key, key ∈ normalized_project_trust_keys dir ++ project_root_lookup_keys c ++ default [] (repo_root_lookup_keys c) ∧ projects_trust c !! key = Some Trusted.
Proof using Type.
  unfold decision_for_dir. destruct (decision_from _ (normalized_project_trust_keys dir)) as [d|] eqn:E1.
  { intros Ht. destruct (decision_from_trusted _ _ _ E1 Ht) as (k & Hk & Hm). exists k. split; [apply elem_of_app; by left|done]. }
  destruct (decision_from _ (project_root_lookup_keys c)) as [d|] eqn:E2.
  { intros Ht. destruct (decision_from_trusted _ _ _ E2 Ht) as (k & Hk & Hm). exists k. split; [rewrite !elem_of_app; by right; left|done]. }
  destruct (repo_root_lookup_keys c) as [keys|]; [|done]. cbn. destruct (decision_from _ keys) as [d|] eqn:E3; [|done].
  intros Ht. destruct (decision_from_trusted _ _ _ E3 Ht) as (k & Hk & Hm). exists k. split; [rewrite !elem_of_app; by right; right|done].
Qed.
(** A project's layer of a loaded stack came from a directory of the project, under the trust of the other layers. *)
Definition from_project (i : LoadInputs) (l : ConfigLayerEntry) : Prop :=
  ∃ cwd base cli c dir, cwd_of i = Some cwd ∧ load_base_layers i = Ok base ∧ load_cli_layer i = Ok cli ∧ trust_for i cwd base cli = Ok c ∧
    dir ∈ project_dirs cwd (project_root c) ∧ name l = Project (join dir (lit ".codex")) ∧
    disabled_reason l = disabled_reason_for_decision c (decision_for_dir c dir) ∧ without_denied (config l).
Definition thread_ok (i : LoadInputs) : Prop := Forall (λ l, name l = SessionFlags) (thread_config_layers i).
Definition is_project (l : ConfigLayerEntry) : bool := if name l is Project _ then true else false.
Lemma loaded_layers i s l : load_config_layers_state i = Ok s → thread_ok i → l ∈ layers s → is_project l = true → from_project i l.
Proof using from_str_table as_config_toml_table.
  intros (cli & Hcli & H)%bind_Ok Hthread Hl Hp. apply bind_Ok in H as (base & Hbase & H). apply bind_Ok in H as ([project warnings] & Hproject & H).
  apply bind_Ok in H as (managed & Hmanaged & H). cbn [fst snd] in H. destruct (stack_new _ _) as [s0| |] eqn:Es; [|done..]. injection H as <-.
  assert (layers s0 = foldl insert_layer_by_precedence (base ++ project ++ match cli with Some cli => [layer_new SessionFlags cli] | None => [] end) (thread_config_layers i) ++ managed) as Els.
  { unfold stack_new in Es. by apply bind_Ok in Es as (index & _ & [= <-]). }
  assert (l ∈ layers s0) as Hin by by destruct warnings. clear Hl. rewrite Els in Hin. apply elem_of_app in Hin as [Hin|Hin].
  2: { apply managed_layer_names in Hmanaged. rewrite Forall_forall in Hmanaged. specialize (Hmanaged l Hin). unfold is_project in Hp. by destruct (name l). }
  apply insert_layers_elem in Hin as [Hin|Hin].
  2: { unfold thread_ok in Hthread. rewrite Forall_forall in Hthread. specialize (Hthread l Hin). unfold is_project in Hp. by rewrite Hthread in Hp. }
  rewrite !elem_of_app in Hin. destruct Hin as [Hin|[Hin|Hin]].
  - pose proof (base_layer_names _ _ Hbase) as Hnames. rewrite Forall_forall in Hnames. specialize (Hnames l Hin). unfold is_project in Hp. by destruct (name l).
  - unfold load_project_part in Hproject. destruct (cwd_of i) as [cwd|] eqn:Ecwd; [|injection Hproject as <- _; by apply elem_of_nil in Hin]. apply bind_Ok in Hproject as (c & Hc & Hproject).
    apply bind_Ok in Hproject as ([ls ws] & Hload & [= -> _]). apply project_layers_spec in Hload. rewrite Forall_forall in Hload. destruct (Hload l Hin) as (dir & Hdir & Hspec).
    by exists cwd, base, cli, c, dir.
  - destruct cli; [|by apply elem_of_nil in Hin]. apply list_elem_of_singleton in Hin as ->. done.
Qed.
(** C20: a project's document counts only where the user trusts the project ([load_config_layers_state]): if a layer of a
    project is enabled, then it belongs to a directory between the project's root and the working directory, and the system's,
    the user's and the command line's configuration alone, which no project takes part in, mark that directory, the project's
    root or the root of its repository as trusted. *)
Theorem projects_need_trust i s l :
  load_config_layers_state i = Ok s → thread_ok i → l ∈ get_layers s LowestPrecedenceFirst false → is_project l = true →
  ∃ cwd base cli c dir key, cwd_of i = Some cwd ∧ load_base_layers i = Ok base ∧ load_cli_layer i = Ok cli ∧ trust_for i cwd base cli = Ok c ∧
    dir ∈ project_dirs cwd (project_root c) ∧ name l = Project (join dir (lit ".codex")) ∧
    key ∈ normalized_project_trust_keys dir ++ project_root_lookup_keys c ++ default [] (repo_root_lookup_keys c) ∧ projects_trust c !! key = Some Trusted.
Proof using from_str_table as_config_toml_table.
  intros Hload Hthread Hl Hp. apply list_elem_of_In, List.filter_In in Hl as [Hl Hen]. apply list_elem_of_In in Hl.
  destruct (loaded_layers _ _ _ Hload Hthread Hl Hp) as (cwd & base & cli & c & dir & H1 & H2 & H3 & H4 & H5 & H6 & H7 & _).
  assert (is_trusted (decision_for_dir c dir) = true) as Ht.
  { apply (trusted_enables c). rewrite <- H7. unfold is_disabled in Hen. by destruct (disabled_reason l). }
  destruct (decision_trusted _ _ Ht) as (key & Hk & Hm). by exists cwd, base, cli, c, dir, key.
Qed.
Lemma denied_setting l key path : without_denied (config l) → key ∈ PROJECT_LOCAL_CONFIG_DENYLIST → layer_setting (key :: path) l = Unset.
Proof using Type.
  intros (t & Ht & Hd) Hk. unfold layer_setting. rewrite Ht. cbn [normalized_with_key_aliases setting]. fold (normalized_table [] t). rewrite normalized_table_get.
  rewrite aliases_other by done. by rewrite Hd.
Qed.
Lemma resolve_skip (p : ConfigLayerEntry → bool) path ls : (∀ l, l ∈ ls → p l = true → layer_setting path l = Unset) →
  resolve (layer_setting path <$> ls) = resolve (layer_setting path <$> List.filter (λ l, negb (p l)) ls).
Proof using Type.
  unfold resolve. generalize (@None TomlValue). induction ls as [|l ls IH]; intros below Hp; [done|]. cbn [fmap list_fmap foldl List.filter]. destruct (p l) eqn:E; cbn [negb].
  - rewrite (Hp l) by (done || by left). apply IH. intros l' Hl'. apply Hp. by right.
  - cbn [fmap list_fmap foldl]. apply IH. intros l' Hl'. apply Hp. by right.
Qed.
(** C21: a project, trusted or not, does not choose where credentials are sent or which of these commands is run: under a key
    of the deny list, at any depth, the configuration that is loaded is the one of the layers that are no project's. *)
Theorem projects_cannot_choose_denied_keys i s key path :
  load_config_layers_state i = Ok s → thread_ok i → Forall (λ l, distinct (config l)) (get_layers s LowestPrecedenceFirst false) →
  key ∈ PROJECT_LOCAL_CONFIG_DENYLIST →
  leaf (setting (effective_config s) (key :: path)) = resolve (layer_setting (key :: path) <$> List.filter (λ l, negb (is_project l)) (get_layers s LowestPrecedenceFirst false)).
Proof using from_str_table as_config_toml_table.
  intros Hload Hthread Hd Hk. assert (below_domains (key :: path) = false) as Hb.
  { destruct path as [|a [|b [|d [|e path]]]]; try done. cbn. assert (key ≠ lit "permissions") as Hne by (intros ->; revert Hk; by apply (bool_decide_eq_true_1 (_ ∉ _))).
    by rewrite bool_decide_eq_false_2. }
  unfold effective_config. rewrite effective_fold by done. apply (resolve_skip is_project). intros l Hl Hp.
  apply list_elem_of_In, List.filter_In in Hl as [Hl _]. apply list_elem_of_In in Hl.
  destruct (loaded_layers _ _ _ Hload Hthread Hl Hp) as (cwd & base & cli & c & dir & _ & _ & _ & _ & _ & _ & _ & Hw). by apply denied_setting.
Qed.

(** ** What is loaded is in order *)
Definition project_folder (l : ConfigLayerEntry) : option rstring := match name l with Project folder => Some folder | _ => None end.
(** One project folder after another, from the outside in. *)
Fixpoint inward (previous : option rstring) (folders : list rstring) : Prop :=
  match folders with
  | [] => True
  | current :: folders =>
      match previous with
      | Some previous => ∃ dir, parent previous = Some dir ∧ ¬ path_eq previous current ∧ dir ∈ ancestors current
      | None => True
      end ∧ inward (Some current) folders
  end.
Lemma verify_inward ls : ∀ i u previous, inward previous (omap project_folder ls) → ∃ r, verify_loop i u previous ls = Ok r.
Proof using Type.
  induction ls as [|l ls IH]; intros i u previous Hin; cbn [verify_loop]; [by eexists|]. cbn [omap list_omap] in Hin. unfold project_folder at 1 in Hin.
  destruct (name l); try by apply IH. cbn [inward] in Hin. destruct Hin as [Hprev Hin]. destruct previous as [p|]; [|by apply IH].
  destruct Hprev as (dir & -> & Hne & Hanc). rewrite bool_decide_eq_false_2 by done. cbn [orb]. assert (existsb (λ ancestor, bool_decide (path_eq ancestor dir)) (ancestors dot_codex_folder) = true) as ->.
  { apply existsb_exists. exists dir. split; [by apply list_elem_of_In|]. by apply bool_decide_eq_true_2. }
  by apply IH.
Qed.
Lemma insert_layers_folders thread : Forall (λ l, name l = SessionFlags) thread → ∀ ls, omap project_folder (foldl insert_layer_by_precedence ls thread) = omap project_folder ls.
Proof using Type.
  induction 1 as [|t thread Ht Hthread IH]; intros ls; cbn [foldl]; [done|]. rewrite IH. destruct (insert_layer_split ls t) as (a & b & -> & -> & _).
  rewrite !omap_app. cbn [omap list_omap]. unfold project_folder at 2. by rewrite Ht.
Qed.
Definition CODEX : rstring := lit ".codex".
Lemma codex_segment : segment CODEX.
Proof using Type. by apply (bool_decide_eq_true_1 ((_ ≠ _) ∧ (_ ∉ _) ∧ (_ ≠ _) ∧ (_ ≠ _))). Qed.
Lemma join_codex segs : Forall segment segs → join (abs_path segs) CODEX = abs_path (segs ++ [CODEX]).
Proof using Type.
  intros Hs. unfold AbsolutePath.join, AbsolutePath.resolve_path_against_base. assert (AbsolutePath.maybe_expand_home_directory home_dir CODEX = CODEX) as ->.
  { unfold AbsolutePath.maybe_expand_home_directory. by destruct home_dir. }
  unfold AbsolutePath.absolutize_from, AbsolutePath.path_with_base. change (is_absolute CODEX) with false. cbn iota. rewrite push_abs_path by (done || apply codex_segment).
  apply AbsolutePath.normalize_abs_path. apply Forall_app. split; [done|]. constructor; [apply codex_segment|done].
Qed.
Lemma ancestors_abs segs : Forall segment segs → ancestors (abs_path segs) = (λ n, abs_path (take n segs)) <$> rev (seq 0 (S (length segs))).
Proof using Type.
  intros Hs. unfold ancestors. rewrite components_abs_path by done. cbn [length]. rewrite length_fmap. assert (length segs < S (S (length segs))) as Hlt by lia. revert Hlt.
  generalize (S (S (length segs))). induction segs as [|s segs IH] using rev_ind; intros fuel Hf; (destruct fuel as [|fuel]; [lia|]); cbn [ancestors_fuel].
  - rewrite parent_root. done.
  - rewrite parent_abs_path by done. rewrite length_app in *. cbn [length] in *. rewrite Nat.add_1_r in *. apply Forall_app in Hs as [Hs _]. rewrite IH by (done || lia).
    rewrite (seq_S (S (length segs))), rev_app_distr. cbn [rev app fmap list_fmap]. rewrite (take_ge (segs ++ [s])) by (rewrite length_app; cbn; lia). f_equal.
    apply list_fmap_ext. intros i n Hn. apply list_elem_of_lookup_2 in Hn. apply list_elem_of_In, in_rev, in_seq in Hn. by rewrite take_app_le by lia.
Qed.
Lemma up_to_take root l : ∃ k, up_to root l = take k l.
Proof using Type.
  induction l as [|a l [k IH]]; [by exists 0|]. cbn [up_to]. case_bool_decide; [by exists 1|]. exists (S k). cbn. by rewrite IH.
Qed.
(** The directories of a project, as lengths of prefixes of the working directory. *)
Lemma project_dirs_abs segs root : Forall segment segs → ∃ ns, project_dirs (abs_path segs) root = (λ n, abs_path (take n segs)) <$> ns ∧ StronglySorted lt ns ∧ Forall (λ n, n ≤ length segs) ns.
Proof using Type.
  intros Hs. unfold project_dirs. rewrite ancestors_abs by done. destruct (up_to_take root ((λ n, abs_path (take n segs)) <$> rev (seq 0 (S (length segs))))) as [k ->].
  assert (∀ A (l : list A), rev (take k (rev l)) = drop (length l - k) l) as Hrev by (intros A l; by rewrite firstn_rev, rev_involutive).
  exists (drop (S (length segs) - k) (seq 0 (S (length segs)))). split_and!.
  - change fmap with (@map nat rstring). rewrite map_rev, Hrev, length_map, length_seq. apply (skipn_map (λ n, abs_path (take n segs))).
  - rewrite drop_seq. generalize (0 + (S (length segs) - k)) as a. induction (S (length segs) - (S (length segs) - k)) as [|m IH]; intros a; cbn [seq]; constructor; [apply IH|].
    apply Forall_forall. intros x Hx. apply list_elem_of_In, in_seq in Hx. lia.
  - rewrite drop_seq. apply Forall_forall. intros x Hx. apply list_elem_of_In, in_seq in Hx. lia.
Qed.
Lemma project_folders c home home' strict dirs : ∀ ls ws, load_project_layers_from c home home' strict dirs = Ok (ls, ws) →
  ∃ ds, ds `sublist_of` dirs ∧ omap project_folder ls = (λ d, join d CODEX) <$> ds.
Proof using from_str_table as_config_toml_table.
  induction dirs as [|dir dirs IH]; intros ls ws; cbn [load_project_layers_from]; [intros [= <- _]; by exists []|].
  intros (loaded & Hl & H)%bind_Ok. apply bind_Ok in H as ([ls' ws'] & Hrest & [= H]). destruct (IH _ _ Hrest) as (ds & Hds & E).
  destruct loaded as [[l w]|]; injection H as <- _; [|exists ds; split; [by constructor|done]]. apply project_layer_spec in Hl as (Hn & _).
  exists (dir :: ds). split; [by constructor|]. cbn [omap list_omap]. unfold project_folder at 1. rewrite Hn. cbn [fmap list_fmap fst]. by f_equal.
Qed.
Lemma inward_prefixes segs ns : Forall segment segs → StronglySorted lt ns → Forall (λ n, n ≤ length segs) ns → ∀ previous,
  match previous with Some n => Forall (lt n) ns | None => True end →
  inward ((λ n, abs_path (take n segs ++ [CODEX])) <$> previous) ((λ n, abs_path (take n segs ++ [CODEX])) <$> ns).
Proof using Type.
  intros Hs. assert (∀ n, Forall segment (take n segs ++ [CODEX])) as Hok.
  { intros n. apply Forall_app. split; [by apply Forall_take|]. constructor; [apply codex_segment|done]. }
  induction 1 as [|n ns Hns IH Hn]; intros Hle previous Hprev; [done|]. apply Forall_cons in Hle as [Hnle Hle]. cbn [fmap list_fmap inward]. split.
  2: { apply (IH Hle (Some n)). done. }
  destruct previous as [m|]; [|done]. cbn [fmap option_fmap option_map]. apply Forall_cons in Hprev as [Hmn _]. exists (abs_path (take m segs)). split_and!.
  - apply parent_abs_path, Hok.
  - unfold path_eq. rewrite !components_abs_path by apply Hok. intros [= E]. apply (f_equal length) in E. rewrite !length_fmap, !length_app, !length_take in E. cbn in E. lia.
  - rewrite ancestors_abs by apply Hok. apply list_elem_of_fmap. exists m. rewrite length_app, length_take. cbn [length]. split.
    + rewrite take_app_le, take_take by (rewrite length_take; lia). by replace (m `min` n) with m by lia.
    + apply list_elem_of_In, in_rev. rewrite rev_involutive. apply in_seq. lia.
Qed.
Lemma same_precedence_sorted (ls : list ConfigLayerEntry) z : Forall (λ l, precedence (name l) = z) ls → StronglySorted lower ls.
Proof using Type.
  induction 1 as [|l ls Hl Hls IH]; constructor; [done|]. eapply Forall_impl; [exact Hls|]. intros l' Hl'. unfold lower. rewrite Hl, Hl'. lia.
Qed.
Lemma base_sorted i base : load_base_layers i = Ok base → StronglySorted lower base ∧ Forall (λ l, (precedence (name l) ≤ 21)%Z) base.
Proof using Type.
  unfold load_base_layers. intros (sys & Hsys & H)%bind_Ok. apply bind_Ok in H as (user & Huser & H). apply bind_Ok in H as (_ & _ & H).
  apply required_layer_name in Hsys; [|done]. apply user_layer_name in Huser. case_bool_decide.
  - injection H as <-. split; repeat constructor; unfold lower; rewrite ?Hsys, ?Huser; cbn; lia.
  - apply bind_Ok in H as (profile & Hp & [= <-]). apply user_layer_name in Hp.
    split; repeat constructor; unfold lower; rewrite ?Hsys, ?Huser, ?Hp; destruct (user_config_profile i); cbn; lia.
Qed.
Lemma managed_sorted i managed : load_managed_layers i = Ok managed → StronglySorted lower managed ∧ Forall (λ l, (40 ≤ precedence (name l))%Z) managed.
Proof using Type.
  unfold load_managed_layers. intros (a & Ha & H)%bind_Ok. apply bind_Ok in H as (b & Hb & [= <-]).
  assert (a = [] ∨ ∃ file v, a = [layer_new (LegacyManagedConfigTomlFromFile file) v]) as Ha'.
  { destruct (managed_config i) as [[file value]|]; [|injection Ha as <-; by left]. destruct (parent file); [|done]. apply bind_Ok in Ha as (v & _ & [= <-]). right. eauto. }
  assert (b = [] ∨ ∃ v raw, b = [new_with_raw_toml to_value to_vec sha256 LegacyManagedConfigTomlFromMdm v raw]) as Hb'.
  { destruct (managed_config_from_mdm i) as [[value raw]|]; [|injection Hb as <-; by left]. apply bind_Ok in Hb as (v & _ & [= <-]). right. eauto. }
  destruct Ha' as [->|(file & v & ->)], Hb' as [->|(v' & raw & ->)]; (split; repeat constructor; unfold lower; cbn; lia).
Qed.
Lemma no_folders ls : Forall (λ l, match name l with Project _ => False | _ => True end) ls → omap project_folder ls = [].
Proof using Type. induction 1 as [|l ls Hl Hls IH]; [done|]. cbn [omap list_omap]. unfold project_folder at 1. rewrite IH. by destruct (name l). Qed.
Lemma sublist_prefixes segs ds ns : ds `sublist_of` ((λ n, abs_path (take n segs)) <$> ns) → ∃ ms, ds = (λ n, abs_path (take n segs)) <$> ms ∧ ms `sublist_of` ns.
Proof using Type.
  revert ds. induction ns as [|n ns IH]; intros ds Hds; [exists []; split; [by apply sublist_nil_r in Hds|done]|]. cbn in Hds.
  apply sublist_cons_r in Hds as [Hds|(ds' & -> & Hds)]; destruct (IH _ Hds) as (ms & -> & Hms); [exists ms|exists (n :: ms)]; (split; [done|by constructor]).
Qed.
Lemma sublist_sorted_lt (ms ns : list nat) : ms `sublist_of` ns → StronglySorted lt ns → StronglySorted lt ms.
Proof using Type.
  induction 1 as [|n ms ns Hsub IH|n ms ns Hsub IH]; [done| |]; intros [Hs Hn]%StronglySorted_inv; [|by apply IH].
  constructor; [by apply IH|]. rewrite Forall_forall in *. intros x Hx. apply Hn. by eapply elem_of_sublist.
Qed.
Lemma project_part_spec i base cli project : load_project_part i base cli = Ok project → (∀ cwd, cwd_of i = Some cwd → AbsolutePath.canonical cwd) →
  Forall (λ l, precedence (name l) = 25%Z) project.1 ∧ inward None (omap project_folder project.1).
Proof using from_str_table as_config_toml_table.
  unfold load_project_part. intros Hproject Hcwd. destruct (cwd_of i) as [cwd|]; [|by injection Hproject as <-]. destruct (Hcwd cwd eq_refl) as (segs & Hsegs & ->).
  apply bind_Ok in Hproject as (c & _ & H). apply bind_Ok in H as ([ls ws] & Hload & [= <-]). cbn [fst]. split.
  - apply project_layers_spec in Hload. eapply Forall_impl; [exact Hload|]. by intros l (d & _ & -> & _).
  - destruct (project_folders _ _ _ _ _ _ _ Hload) as (ds & Hds & ->). destruct (project_dirs_abs segs (project_root c) Hsegs) as (ns & Hns & Hsort & Hle). rewrite Hns in Hds.
    destruct (sublist_prefixes _ _ _ Hds) as (ms & -> & Hsub). rewrite <- list_fmap_compose, (list_fmap_ext _ (λ n, abs_path (take n segs ++ [CODEX]))).
    + apply (inward_prefixes segs ms Hsegs) with (previous := None); [by eapply sublist_sorted_lt| |done]. rewrite Forall_forall in *. intros x Hx. apply Hle. by eapply elem_of_sublist.
    + intros k n _. cbn. apply join_codex. by apply Forall_take.
Qed.
Lemma layers_sorted base project session thread managed :
  StronglySorted lower base → Forall (λ l, (precedence (name l) ≤ 21)%Z) base → Forall (λ l, precedence (name l) = 25%Z) project → Forall (λ l, name l = SessionFlags) session →
  Forall (λ l, name l = SessionFlags) thread → StronglySorted lower managed → Forall (λ l, (40 ≤ precedence (name l))%Z) managed →
  StronglySorted lower (foldl insert_layer_by_precedence (base ++ project ++ session) thread ++ managed).
Proof using Type.
  intros Hbs Hb Hp Hs Ht Hms Hm. assert (Forall (λ l, precedence (name l) = 30%Z) session) as Hs30 by (eapply Forall_impl; [exact Hs|]; by intros l ->).
  assert (StronglySorted lower (base ++ project ++ session)) as H0.
  { apply sorted_app_inv. split_and!; [done| |].
    - apply sorted_app_inv. split_and!; [by eapply same_precedence_sorted..|]. rewrite Forall_forall in Hp, Hs30.
      intros x y Hx Hy. unfold lower. rewrite (Hp x Hx), (Hs30 y Hy). lia.
    - rewrite Forall_forall in Hb, Hp, Hs30. intros x y Hx [Hy|Hy]%elem_of_app; unfold lower; specialize (Hb x Hx); [rewrite (Hp y Hy)|rewrite (Hs30 y Hy)]; lia. }
  apply sorted_app_inv. split_and!; [|done|].
  - revert H0. generalize (base ++ project ++ session). clear. induction thread as [|t thread IH]; intros ls H0; cbn [foldl]; [done|]. by apply IH, insert_layer_sorted.
  - rewrite Forall_forall in Hb, Hp, Hs30, Ht, Hm. intros x y Hx Hy. specialize (Hm y Hy). unfold lower.
    apply insert_layers_elem in Hx as [Hx|Hx]; [|rewrite (Ht x Hx); cbn; lia]. rewrite !elem_of_app in Hx.
    destruct Hx as [Hx|[Hx|Hx]]; [specialize (Hb x Hx); lia|rewrite (Hp x Hx); lia|rewrite (Hs30 x Hx); lia].
Qed.
(** The layers that were found always make a stack ([load_config_layers_state], [verify_layer_ordering]): once the documents
    could be read, loading does not fail. The order in which they are put together is the one the stack checks: by
    precedence, and the folders of a project from its root down to the working directory. *)
Theorem loaded_layers_make_a_stack i cli base project managed :
  load_cli_layer i = Ok cli → load_base_layers i = Ok base → load_project_part i base cli = Ok project → load_managed_layers i = Ok managed →
  thread_ok i → (∀ cwd, cwd_of i = Some cwd → AbsolutePath.canonical cwd) →
  ∃ s, load_config_layers_state i = Ok s ∧
    layers s = foldl insert_layer_by_precedence (base ++ project.1 ++ match cli with Some cli => [layer_new SessionFlags cli] | None => [] end) (thread_config_layers i) ++ managed.
Proof using from_str_table as_config_toml_table.
  intros Hcli Hbase Hproject Hmanaged Hthread Hcwd. unfold load_config_layers_state. rewrite Hcli. cbn [mbind outcome_bind]. rewrite Hbase. cbn [mbind outcome_bind].
  rewrite Hproject. cbn [mbind outcome_bind]. rewrite Hmanaged. cbn [mbind outcome_bind]. set (session := match cli with Some cli => _ | None => _ end).
  assert (Forall (λ l, name l = SessionFlags) session) as Hsn by (subst session; destruct cli; repeat constructor).
  destruct (base_sorted _ _ Hbase) as [Hbs Hb]. destruct (managed_sorted _ _ Hmanaged) as [Hms Hm]. destruct (project_part_spec _ _ _ _ Hproject Hcwd) as [Hp Hin].
  pose proof (layers_sorted base project.1 session (thread_config_layers i) managed Hbs Hb Hp Hsn Hthread Hms Hm) as Hsorted. set (all := _ ++ managed) in *.
  assert (omap project_folder all = omap project_folder project.1) as Hfolders.
  { unfold all. rewrite omap_app, insert_layers_folders, !omap_app by done. rewrite (no_folders base), (no_folders session), (no_folders managed), !app_nil_r; [done|..].
    - eapply Forall_impl; [exact (managed_layer_names _ _ Hmanaged)|]. cbn. intros l. by destruct (name l).
    - eapply Forall_impl; [exact Hsn|]. cbn. by intros l ->.
    - eapply Forall_impl; [exact (base_layer_names _ _ Hbase)|]. cbn. intros l. by destruct (name l). }
  unfold stack_new, verify_layer_ordering. rewrite (proj2 (is_sorted_spec all) Hsorted). destruct (verify_inward all 0 None None) as [r ->]; [by rewrite Hfolders|]. cbn.
  eexists. split; [done|]. by destruct project.2.
Qed.
End loader.

(** ** A machine with one project *)
Module Machine.
(** The documents are named by their contents; the user trusts [/w/p]. *)
Definition user_document : TomlValue := TTable [(lit "model", TString (lit "small")); (lit "model_provider", TString (lit "own"))].
Definition project_document : TomlValue := TTable [(lit "model", TString (lit "large")); (lit "model_provider", TString (lit "evil")); (lit "notify", TArray [TString (lit "sh")])].
Definition from_str (contents : rstring) : rstring + TomlValue :=
  if bool_decide (contents = lit "user") then inr user_document else if bool_decide (contents = lit "project") then inr project_document else inl (lit "?").
Definition read_file_text (path : rstring) : IoError + rstring :=
  if bool_decide (path = lit "/h/config.toml") then inr (lit "user") else if bool_decide (path = lit "/w/p/.codex/config.toml") then inr (lit "project")
  else inl (io_error NotFound (lit "no such file")).
Definition is_directory (path : rstring) : bool := bool_decide (path = lit "/w/p/.codex") || bool_decide (path = lit "/w/p/sub").
Definition exists_file (path : rstring) : bool := bool_decide (path = lit "/w/p/.git").
Definition projects_of (trusted : bool) (base : rstring) (v : TomlValue) : rstring + gmap rstring (option TrustLevel) :=
  inr (if trusted then {[ lit "/w/p" := Some Trusted ]} else ∅).
Definition inputs : LoadInputs (Requirements := unit) :=
  mk_inputs (lit "/h") (Some (lit "/w/p/sub")) [(lit "model", TString (lit "tiny"))] false None None (lit "/etc/codex/config.toml") false false [] None None tt.
Definition load (trusted : bool) : outcome IoError (ConfigLayerStack unit) :=
  load_config_layers_state (λ _, JNull) (λ _, []) id None read_file_text is_directory exists_file (λ _, None) from_str (λ _ _ e, e) (λ _ _, None) (λ _ _ _ _, None) (λ _ _, None)
    (λ _, None) (projects_of trusted) (λ _, None) (λ _, None) inputs.
Definition loaded (trusted : bool) : ConfigLayerStack unit := match load trusted with Ok s => s | _ => mk_stack [] None tt false None end.
Lemma load_ok trusted : load trusted = Ok (loaded trusted).
Proof. by destruct trusted; vm_compute. Qed.
Lemma from_str_table contents v : from_str contents = inr v → ∃ t, v = TTable t.
Proof. unfold from_str. repeat case_bool_decide; by intros [= <-]; eexists. Qed.
Lemma as_config_toml_table (base : rstring) t v : (λ _ _, None) base (TTable t) = Some (@inr rstring _ v) → ∃ t', v = TTable t'.
Proof. done. Qed.
Lemma loaded_distinct trusted : Forall (λ l, distinct (config l)) (get_layers (loaded trusted) LowestPrecedenceFirst false).
Proof.
  assert (forallb (λ l, distinctb (config l)) (get_layers (loaded trusted) LowestPrecedenceFirst false) = true) as H by (destruct trusted; vm_compute; reflexivity).
  apply Forall_forall. intros l Hl. rewrite forallb_forall in H. by apply distinctb_distinct, H, list_elem_of_In.
Qed.
End Machine.
Import Machine.
Lemma projects_need_trust_witness : ∃ l c key, l ∈ get_layers (loaded true) LowestPrecedenceFirst false ∧ name l = Project (lit "/w/p/.codex") ∧ projects_trust c !! key = Some Trusted.
Proof.
  set (l := default (layer_new (λ _, JNull) (λ _, []) id SessionFlags (TTable [])) (get_layers (loaded true) LowestPrecedenceFirst false !! 2)).
  assert (l ∈ get_layers (loaded true) LowestPrecedenceFirst false) as Hl by (apply list_elem_of_lookup; exists 2; vm_compute; reflexivity).
  destruct (projects_need_trust (λ _, JNull) (λ _, []) id None read_file_text is_directory exists_file (λ _, None) from_str (λ _ _ e, e) (λ _ _, None) (λ _ _ _ _, None) (λ _ _, None)
    (λ _, None) (projects_of true) (λ _, None) (λ _, None) from_str_table as_config_toml_table inputs (loaded true) l (load_ok true) (List.Forall_nil _) Hl (eq_refl true))
    as (cwd & base & cli & c & dir & key & _ & _ & _ & _ & _ & _ & _ & Hkey).
  exists l, c, key. split_and!; [exact Hl|vm_compute; reflexivity|exact Hkey].
Defined.
Lemma projects_cannot_choose_denied_keys_witness : leaf (setting (effective_config (loaded true)) [lit "model_provider"]) = Some (TString (lit "own")) ∧
  leaf (setting (effective_config (loaded true)) [lit "model"]) = Some (TString (lit "tiny")).
Proof.
  split; [|vm_compute; reflexivity].
  rewrite (projects_cannot_choose_denied_keys (λ _, JNull) (λ _, []) id None read_file_text is_directory exists_file (λ _, None) from_str (λ _ _ e, e) (λ _ _, None) (λ _ _ _ _, None) (λ _ _, None)
    (λ _, None) (projects_of true) (λ _, None) (λ _, None) from_str_table as_config_toml_table inputs (loaded true) _ [] (load_ok true) (List.Forall_nil _) (loaded_distinct true));
    [vm_compute; reflexivity|apply (bool_decide_eq_true_1 _); vm_compute; reflexivity].
Defined.
Lemma loaded_layers_make_a_stack_witness : ∃ s, load false = Ok s ∧ name <$> layers s =
  [System (lit "/etc/codex/config.toml"); User (lit "/h/config.toml") None; Project (lit "/w/p/.codex"); SessionFlags].
Proof.
  destruct (loaded_layers_make_a_stack (λ _, JNull) (λ _, []) id None read_file_text is_directory exists_file (λ _, None) from_str (λ _ _ e, e) (λ _ _, None) (λ _ _ _ _, None) (λ _ _, None)
    (λ _, None) (projects_of false) (λ _, None) (λ _, None) from_str_table as_config_toml_table inputs _ _ _ _ eq_refl eq_refl eq_refl eq_refl (List.Forall_nil _)) as (s & Hs & El).
  - intros cwd [= <-]. exists [lit "w"; lit "p"; lit "sub"]. split; [|done]. by apply (bool_decide_eq_true_1 (Forall (λ s, (s ≠ []) ∧ (slash ∉ s) ∧ (s ≠ DOT) ∧ (s ≠ DOTDOT)) _)).
  - exists s. split; [exact Hs|]. rewrite El. vm_compute. reflexivity.
Defined.
(** A project that is not trusted has no say. *)
Example untrusted_project_is_ignored : leaf (setting (effective_config (loaded false)) [lit "notify"]) = None ∧ length (get_layers (loaded false) LowestPrecedenceFirst true) = 4 ∧
  length (get_layers (loaded false) LowestPrecedenceFirst false) = 3.
Proof. vm_compute. done. Qed.
