(* ===== verification/ConfigEdits.v ===== *)
(** * Editing the user's configuration ([app-server/src/config_manager_service.rs])

    Key paths, edits of a document at a path, and the whole of a write: what it refuses, what it stores, and what it reports
    about layers that override the edit. *)
From stdpp Require Import sorting.
From S2P Require Import Prelude RustStr RustPath ConfigMerge ConfigLayers.
From S2P Require ConfigLoader.

(** ** Equality of documents: the order of keys does not count, and floats compare as floats *)
Definition float_nan (bits : N) : bool := (9218868437227405312 <? N.land bits (2 ^ 63 - 1))%N.
Definition float_eq (a b : N) : bool :=
  negb (float_nan a) && negb (float_nan b) && ((a =? b)%N || ((N.land a (2 ^ 63 - 1) =? 0)%N && (N.land b (2 ^ 63 - 1) =? 0)%N)).
Fixpoint toml_eq (a b : TomlValue) : bool :=
  match a, b with
  | TString s, TString t => bool_decide (s = t)
  | TInteger i, TInteger j => bool_decide (i = j)
  | TFloat x, TFloat y => float_eq x y
  | TBoolean x, TBoolean y => bool_decide (x = y)
  | TDatetime s, TDatetime t => bool_decide (s = t)
  | TArray l, TArray k => (length l =? length k) && (fix each l k := match l, k with x :: l, y :: k => toml_eq x y && each l k | _, _ => true end) l k
  | TTable t, TTable u => (length t =? length u) && forallb (λ e, match table_get e.1 u with Some w => toml_eq e.2 w | None => false end) t
  | _, _ => false
  end.
Definition option_toml_eq (a b : option TomlValue) : bool := match a, b with Some a, Some b => toml_eq a b | None, None => true | _, _ => false end.

(** ** Key paths *)
Definition DQUOTE : char := 34%N.
Definition BACKSLASH : char := 92%N.
Definition PATH_EMPTY : rstring := lit "keyPath must not be empty".
Definition SEGMENT_EMPTY : rstring := lit "keyPath segments must not be empty".
Fixpoint parse_key_loop (segments : Path) (segment : rstring) (quoted : bool) (chars : rstring) : outcome rstring Path :=
  match chars with
  | [] =>
      if quoted then Err (lit "unterminated quoted keyPath segment")
      else if bool_decide (segment = []) then Err SEGMENT_EMPTY else Ok (segments ++ [segment])
  | ch :: chars =>
      if (ch =? DQUOTE)%N && bool_decide (segment = []) && negb quoted then parse_key_loop segments segment true chars
      else if (ch =? DQUOTE)%N && quoted then parse_key_loop segments segment false chars
      else if (ch =? BACKSLASH)%N && quoted then
        match chars with [] => Err (lit "unterminated escape in keyPath") | escaped :: chars => parse_key_loop segments (segment ++ [escaped]) quoted chars end
      else if (ch =? chr ".")%N && negb quoted then
        if bool_decide (segment = []) then Err SEGMENT_EMPTY else parse_key_loop (segments ++ [segment]) [] quoted chars
      else if (ch =? DQUOTE)%N then Err (lit "invalid quoted keyPath segment")
      else parse_key_loop segments (segment ++ [ch]) quoted chars
  end.
Definition parse_key_path (path : rstring) : outcome rstring Path :=
  if bool_decide (trim path = []) then Err PATH_EMPTY else parse_key_loop [] [] false path.

(** ** Edits of a document *)
Inductive MergeStrategy := Replace | Upsert.
Definition NON_TABLE : rstring := lit "cannot set value on non-table parent".
Definition is_table (v : TomlValue) : bool := if v is TTable _ then true else false.
(** Parents that are missing or no tables become tables, except for the last. *)
Fixpoint apply_at (current : TomlValue) (segments : Path) (value : TomlValue) (strategy : MergeStrategy) : outcome rstring (TomlValue * bool) :=
  match segments with
  | [] => Err PATH_EMPTY
  | [last] =>
      match current with
      | TTable t =>
          match strategy, table_get last t with
          | Upsert, Some existing =>
              if is_table existing && is_table value then Ok (TTable (table_insert last (merge_toml_values existing value) t), true)
              else Ok (TTable (table_insert last value t), negb (toml_eq existing value))
          | _, existing => Ok (TTable (table_insert last value t), negb (option_toml_eq existing (Some value)))
          end
      | _ => Err NON_TABLE
      end
  | segment :: rest =>
      let t := table_of current in
      let? below := apply_at (default (TTable []) (table_get segment t)) rest value strategy in
      Ok (TTable (table_insert segment below.1 t), below.2)
  end.
Fixpoint clear_path (current : TomlValue) (segments : Path) : outcome rstring (TomlValue * bool) :=
  match segments, current with
  | [], _ => Err PATH_EMPTY
  | [last], TTable t => match table_get last t with Some _ => Ok (TTable (table_remove last t), true) | None => Ok (current, false) end
  | segment :: rest, TTable t =>
      match table_get segment t with
      | Some next => let? below := clear_path next rest in Ok (TTable (table_insert segment below.1 t), below.2)
      | None => Ok (current, false)
      end
  | _, _ => Ok (current, false)
  end.
Definition apply_merge (root : TomlValue) (segments : Path) (value : option TomlValue) (strategy : MergeStrategy) : outcome rstring (TomlValue * bool) :=
  match value with Some value => apply_at root segments value strategy | None => clear_path root segments end.
(** [str::parse::<i64>], then [usize::try_from]. *)
Definition digits_value (s : rstring) : N := foldl (λ n d, 10 * n + (d - 48))%N 0%N s.
Definition parse_index (s : rstring) : option nat :=
  let '(negative, digits) := match s with c :: rest => if (c =? chr "-")%N then (true, rest) else if (c =? chr "+")%N then (false, rest) else (false, s) | [] => (false, s) end in
  if bool_decide (digits = []) || negb (forallb is_ascii_digit digits) then None
  else let n := digits_value digits in
       if negative then (if (n =? 0)%N then Some 0 else None) else if (n <? 2 ^ 63)%N then Some (N.to_nat n) else None.
Fixpoint value_at_path (current : TomlValue) (segments : Path) : option TomlValue :=
  match segments with
  | [] => Some current
  | segment :: segments =>
      match current with
      | TTable t => next ← table_get segment t; value_at_path next segments
      | TArray items => idx ← parse_index segment; next ← items !! idx; value_at_path next segments
      | _ => None
      end
  end.

(** ** What overrides an edit *)
Definition override_message (s : ConfigLayerSource) : rstring :=
  match s with
  | Mdm domain _ => lit "Overridden by managed policy (MDM): " ++ domain
  | System file => lit "Overridden by managed config (system): " ++ file
  | Project folder => lit "Overridden by project config: " ++ folder ++ lit "/config.toml"
  | SessionFlags => lit "Overridden by session flags"
  | User file _ => lit "Overridden by user config: " ++ file
  | LegacyManagedConfigTomlFromFile file => lit "Overridden by legacy managed_config.toml: " ++ file
  | LegacyManagedConfigTomlFromMdm => lit "Overridden by legacy managed configuration from MDM"
  end.
Inductive ConfigWriteErrorCode := ConfigLayerReadonly | ConfigVersionConflict | ConfigValidationError | ConfigPathNotFound | ConfigSchemaUnknownKey | UserLayerNotFound.
Inductive ConfigManagerError :=
| Write (code : ConfigWriteErrorCode) (message : rstring) | Io (context : rstring) (source : ConfigLoader.IoError)
| Json (context source : rstring) | Toml (context source : rstring) | Anyhow (context source : rstring).
Definition write_error_code (e : ConfigManagerError) : option ConfigWriteErrorCode := if e is Write code _ then Some code else None.
Inductive WriteStatus := WriteOk | OkOverridden.
Record OverriddenMetadata := mk_overridden { overridden_message : rstring; overriding_layer : ConfigLayerMetadata; effective_value : JsonValue }.
Record ConfigWriteResponse := mk_response { status : WriteStatus; response_version : rstring; file_path : rstring; overridden_metadata : option OverriddenMetadata }.
(** The documents of toml_edit: a [toml_edit::Value] has the cases of a [TomlValue], its tables being inline. *)
Inductive TomlItem := ItemTable (entries : list (rstring * TomlItem)) | ItemValue (value : TomlValue).
Fixpoint toml_value_to_value (value : TomlValue) : TomlValue :=
  match value with
  | TArray items => TArray (map toml_value_to_value items)
  | TTable t => TTable (foldl (λ inline e, table_insert e.1 e.2 inline) [] (map (λ e, (e.1, toml_value_to_value e.2)) t))
  | other => other
  end.
Fixpoint toml_value_to_item (value : TomlValue) : TomlItem :=
  match value with
  | TTable t => ItemTable (foldl (λ item e, table_insert e.1 e.2 item) [] (map (λ e, (e.1, toml_value_to_item e.2)) t))
  | other => ItemValue (toml_value_to_value other)
  end.
Inductive ConfigEdit := SetPath (segments : Path) (value : TomlItem) | ClearPath (segments : Path).

Section edits.
Context {Requirements : Type} (to_value : TomlValue → JsonValue) (to_vec : JsonValue → list N) (sha256 : list N → list N).
(** serde; the configuration type with the requirements on features, which accepts a document or says why not. *)
Context (from_value : JsonValue → rstring + TomlValue).
Context (validate_user : Requirements → TomlValue → option rstring) (validate_effective : TomlValue → option rstring).
(** The file system. *)
Context (resolve_symlink_write_paths : rstring → ConfigLoader.IoError + (option rstring * rstring)) (read_to_string : rstring → ConfigLoader.IoError + rstring).
Context (from_str : rstring → rstring + TomlValue) (write_empty_user_config : rstring → outcome ConfigManagerError unit).
#[local] Abbreviation Stack := (ConfigLayerStack Requirements).
Definition find_effective_layer (layers : Stack) (segments : Path) : option ConfigLayerMetadata :=
  first_some (λ l, (λ _, metadata l) <$> value_at_path (config l) segments) (layers_high_to_low layers).
Definition compute_override_metadata (layers : Stack) (effective : TomlValue) (segments : Path) : option OverriddenMetadata :=
  user_layer ← get_active_user_layer layers;
  let user_value := value_at_path (config user_layer) segments in
  let here := value_at_path effective segments in
  if match user_value with Some _ => option_toml_eq user_value here | None => false end then None
  else if match user_value, here with None, None => true | _, _ => false end then None
  else
    overriding_layer ← find_effective_layer layers segments;
    Some (mk_overridden (override_message (source overriding_layer)) overriding_layer (match here with Some value => to_value value | None => JNull end)).
Definition first_overridden_edit (layers : Stack) (effective : TomlValue) (edits : list Path) : option OverriddenMetadata :=
  first_some (compute_override_metadata layers effective) edits.

Definition parse_value (value : JsonValue) : outcome rstring (option TomlValue) :=
  match value with
  | JNull => Ok None
  | _ => match from_value value with inr v => Ok (Some v) | inl e => Err (lit "invalid value: " ++ e) end
  end.
Definition invalid {A} (m : outcome rstring A) : outcome ConfigManagerError A :=
  match m with Ok a => Ok a | Err e => Err (Write ConfigValidationError e) | Panic => Panic end.
Definition PROFILE_ERROR : rstring :=
  lit "`profile` is a legacy config selector and can no longer be written; use `--profile <name>` with `<name>.config.toml` instead".
Definition PROFILES_ERROR : rstring :=
  lit "`profiles` contains legacy config profile tables and can no longer be written; use `--profile <name>` with `<name>.config.toml` instead".
Definition check_legacy (segments : Path) (value : JsonValue) : outcome rstring unit :=
  match value with
  | JNull => Ok tt
  | _ =>
      match segments with
      | [segment] => if bool_decide (segment = lit "profile") then Err PROFILE_ERROR else if bool_decide (segment = lit "profiles") then Err PROFILES_ERROR else Ok tt
      | segment :: _ => if bool_decide (segment = lit "profiles") then Err PROFILES_ERROR else Ok tt
      | [] => Ok tt
      end
  end.
(** One edit: the document, the paths and the edits of the file so far. *)
Definition edit_state : Type := TomlValue * list Path * list ConfigEdit.
Definition apply_edit (st : edit_state) (edit : rstring * JsonValue * MergeStrategy) : outcome ConfigManagerError edit_state :=
  let '(user_config, parsed_segments, config_edits) := st in
  let '(key_path, value, strategy) := edit in
  let? segments := invalid (parse_key_path key_path) in
  let? _ := invalid (check_legacy segments value) in
  let original_value := value_at_path user_config segments in
  let? parsed_value := invalid (parse_value value) in
  let? merged := invalid (apply_merge user_config segments parsed_value strategy) in
  let user_config := merged.1 in
  let updated_value := value_at_path user_config segments in
  let config_edits :=
    if option_toml_eq original_value updated_value then config_edits
    else config_edits ++ [match updated_value with Some value => SetPath segments (toml_value_to_item value) | None => ClearPath segments end] in
  Ok (user_config, parsed_segments ++ [segments], config_edits).
Fixpoint apply_edits_loop (st : edit_state) (edits : list (rstring * JsonValue * MergeStrategy)) : outcome ConfigManagerError edit_state :=
  match edits with [] => Ok st | edit :: edits => let? st := apply_edit st edit in apply_edits_loop st edits end.
Definition valid (v : TomlValue) (validate : TomlValue → option rstring) : outcome ConfigManagerError unit :=
  match validate v with Some e => Err (Write ConfigValidationError (lit "Invalid configuration: " ++ e)) | None => Ok tt end.
(** The layer of a user file that the stack does not have; a file that does not exist is created, empty. *)
Definition create_empty_user_layer (config_toml : rstring) : outcome ConfigManagerError ConfigLayerEntry :=
  match resolve_symlink_write_paths config_toml with
  | inl err => Err (Io (lit "failed to resolve user config path") err)
  | inr (read_path, write_path) =>
      let? toml_value :=
        match read_path with
        | Some path =>
            match read_to_string path with
            | inr contents => match from_str contents with inr v => Ok v | inl e => Err (Toml (lit "failed to parse existing user config.toml") e) end
            | inl err =>
                if ConfigLoader.kind err is ConfigLoader.NotFound then let? _ := write_empty_user_config write_path in Ok (TTable [])
                else Err (Io (lit "failed to read user config.toml") err)
            end
        | None => let? _ := write_empty_user_config write_path in Ok (TTable [])
        end in
      Ok (layer_new to_value to_vec sha256 (User config_toml None) toml_value)
  end.
(** What a write works with: the user's file and the file that is named, whether they are the same one, the stack that is
    loaded, and whether edits can be made to the file; the edits that were made are part of the result. *)
Record WriteInputs := mk_write {
  allowed_path : rstring; provided_path : rstring; paths_match : bool; expected_version : option rstring;
  load_thread_agnostic_config : ConfigLoader.IoError + Stack; persist : list ConfigEdit → option rstring }.
Definition load_stack (w : WriteInputs) : outcome ConfigManagerError Stack :=
  match load_thread_agnostic_config w with inr s => Ok s | inl err => Err (Io (lit "failed to load configuration") err) end.
Definition user_layer_of (w : WriteInputs) (s : Stack) : outcome ConfigManagerError ConfigLayerEntry :=
  match get_active_user_layer s with Some layer => Ok layer | None => create_empty_user_layer (allowed_path w) end.
Definition prepare_write (w : WriteInputs) (edits : list (rstring * JsonValue * MergeStrategy)) : outcome ConfigManagerError (Stack * edit_state) :=
  if negb (paths_match w) then Err (Write ConfigLayerReadonly (lit "Only writes to the user config are allowed"))
  else
    let? layers := load_stack w in
    let? user_layer := user_layer_of w layers in
    if match expected_version w with Some expected => negb (bool_decide (expected = version user_layer)) | None => false end
    then Err (Write ConfigVersionConflict (lit "Configuration was modified since last read. Fetch latest version and retry."))
    else
      let? st := apply_edits_loop (config user_layer, [], []) edits in
      let? _ := valid st.1.1 (validate_user (requirements layers)) in
      let updated_layers := with_user_config to_value to_vec sha256 layers (provided_path w) st.1.1 in
      let? _ := valid (effective_config updated_layers) validate_effective in
      Ok (updated_layers, st).
(** The result, and the edits that reached the file. *)
Definition apply_edits (w : WriteInputs) (edits : list (rstring * JsonValue * MergeStrategy)) : outcome ConfigManagerError ConfigWriteResponse * list ConfigEdit :=
  match prepare_write w edits with
  | Ok (updated_layers, (_, parsed_segments, config_edits)) =>
      match (match config_edits with [] => None | _ => persist w config_edits end) with
      | None =>
          let overridden := first_overridden_edit updated_layers (effective_config updated_layers) parsed_segments in
          (match get_active_user_layer updated_layers with
           | Some layer => Ok (mk_response (match overridden with Some _ => OkOverridden | None => WriteOk end) (version layer) (provided_path w) overridden)
           | None => Err (Write UserLayerNotFound (lit "user layer not found in updated layers"))
           end, config_edits)
      | Some e => (Err (Anyhow (lit "failed to persist config.toml") e), [])
      end
  | Err e => (Err e, [])
  | Panic => (Panic, [])
  end.
End edits.

(** ** Key paths round trip *)
Definition quote_char (c : char) : rstring := if (c =? DQUOTE)%N || (c =? BACKSLASH)%N then [BACKSLASH; c] else [c].
(** A segment as it is written: bare, or in quotes. *)
Definition key_text (quoted : bool) (segment : rstring) : rstring := if quoted then DQUOTE :: (segment ≫= quote_char) ++ [DQUOTE] else segment.
Definition key_ok (key : bool * rstring) : Prop := key.2 ≠ [] ∧ (key.1 = false → Forall (λ c, c ≠ chr "." ∧ c ≠ DQUOTE) key.2).
Lemma parse_bare segments chars : ∀ segment rest, Forall (λ c, c ≠ chr "." ∧ c ≠ DQUOTE) chars →
  parse_key_loop segments segment false (chars ++ rest) = parse_key_loop segments (segment ++ chars) false rest.
Proof.
  induction chars as [|c chars IH]; intros segment rest; [by rewrite app_nil_r|]. intros [[Hdot Hq] Hc]%Forall_cons. cbn [app parse_key_loop].
  rewrite (proj2 (N.eqb_neq _ _) Hq), (proj2 (N.eqb_neq _ _) Hdot), !andb_false_r, !andb_false_l. by rewrite IH, <- app_assoc.
Qed.
Lemma parse_quoted segments chars : ∀ segment rest,
  parse_key_loop segments segment true ((chars ≫= quote_char) ++ DQUOTE :: rest) = parse_key_loop segments (segment ++ chars) false rest.
Proof.
  induction chars as [|c chars IH]; intros segment rest; cbn [mbind list_bind].
  - cbn [app parse_key_loop]. by rewrite N.eqb_refl, app_nil_r, andb_false_r.
  - rewrite <- app_assoc. unfold quote_char. destruct ((c =? DQUOTE)%N || (c =? BACKSLASH)%N) eqn:E.
    + cbn [app parse_key_loop]. assert ((BACKSLASH =? DQUOTE)%N = false) as -> by done. rewrite N.eqb_refl. cbn [andb]. rewrite IH, <- app_assoc. done.
    + apply orb_false_iff in E as [E1 E2]. cbn [app parse_key_loop]. rewrite E1, E2. cbn [andb]. rewrite andb_false_r. rewrite IH, <- app_assoc. done.
Qed.
Lemma parse_key segments key rest : key_ok key → parse_key_loop segments [] false (key_text key.1 key.2 ++ rest) = parse_key_loop segments key.2 false rest.
Proof.
  destruct key as [[] segment]; intros [Hne Hok]; cbn [fst snd key_text].
  - cbn [app parse_key_loop]. rewrite N.eqb_refl, bool_decide_eq_true_2 by done. cbn [andb negb]. rewrite <- app_assoc. exact (parse_quoted segments segment [] rest).
  - by rewrite (parse_bare segments segment []) by by apply Hok.
Qed.
Lemma parse_keys keys : ∀ segments, keys ≠ [] → Forall key_ok keys →
  parse_key_loop segments [] false (join_with [chr "."] ((λ key, key_text key.1 key.2) <$> keys)) = Ok (segments ++ keys.*2).
Proof.
  induction keys as [|key keys IH]; intros segments Hne Hok; [done|]. apply Forall_cons in Hok as [Hk Hok]. pose proof (proj1 Hk) as Hkne. destruct keys as [|key' keys].
  - cbn [fmap list_fmap join_with]. rewrite <- (app_nil_r (key_text _ _)), parse_key by done. cbn [parse_key_loop]. by rewrite bool_decide_eq_false_2.
  - change (join_with [chr "."] ((λ key, key_text key.1 key.2) <$> key :: key' :: keys)) with
      (key_text key.1 key.2 ++ chr "." :: join_with [chr "."] ((λ key, key_text key.1 key.2) <$> key' :: keys)).
    rewrite parse_key by done. cbn [parse_key_loop]. assert ((chr "." =? DQUOTE)%N = false) as -> by done. assert ((chr "." =? BACKSLASH)%N = false) as -> by done. rewrite N.eqb_refl. cbn [andb negb].
    rewrite bool_decide_eq_false_2 by done. rewrite IH by done. cbn [fmap list_fmap]. by rewrite <- app_assoc.
Qed.
(** The path of a key can be written down and read back ([parse_key_path]): its segments joined by dots, in quotes with
    quotes and backslashes escaped, or bare where they hold no dot and no quote, whatever else is in them; no two lists of
    segments are confused. (A path of white space alone is refused.) *)
Theorem key_paths_roundtrip keys :
  keys ≠ [] → Forall key_ok keys → trim (join_with [chr "."] ((λ key, key_text key.1 key.2) <$> keys)) ≠ [] →
  parse_key_path (join_with [chr "."] ((λ key, key_text key.1 key.2) <$> keys)) = Ok keys.*2.
Proof. intros Hne Hok Ht. unfold parse_key_path. rewrite bool_decide_eq_false_2 by done. by apply parse_keys. Qed.
Lemma key_paths_roundtrip_witness : parse_key_path (lit "plugins." ++ [DQUOTE] ++ lit "a.b" ++ [BACKSLASH; DQUOTE] ++ lit "c" ++ [DQUOTE] ++ lit ".on") = Ok [lit "plugins"; lit "a.b" ++ [DQUOTE] ++ lit "c"; lit "on"].
Proof.
  apply (key_paths_roundtrip [(false, lit "plugins"); (true, lit "a.b" ++ [DQUOTE] ++ lit "c"); (false, lit "on")]); [done| |by vm_compute].
  repeat constructor; try done; cbn; intros _; by apply (bool_decide_eq_true_1 (Forall _ _)).
Defined.

(** ** What an edit does to a document *)
Lemma apply_at_override segments value : ∀ current r, apply_at current segments value Replace = Ok r → r.1 = override_at current segments value.
Proof.
  induction segments as [|s segments IH]; intros current r; [done|]. destruct segments as [|s' segments].
  - cbn [apply_at override_at]. destruct current; try done. by intros [= <-].
  - change (apply_at current (s :: s' :: segments) value Replace) with
      (let? below := apply_at (default (TTable []) (table_get s (table_of current))) (s' :: segments) value Replace in
       Ok (TTable (table_insert s below.1 (table_of current)), below.2)).
    intros (below & Hb & [= <-])%bind_Ok. apply IH in Hb as ->. done.
Qed.
(** What is at or below a path that is cleared. *)
Fixpoint below (segments path : Path) : bool :=
  match segments, path with [], _ => true | s :: segments, k :: path => bool_decide (k = s) && below segments path | _ :: _, [] => false end.
Lemma table_remove_get {A} k (t : list (rstring * A)) : table_get k (table_remove k t) = None.
Proof. rewrite table_get_remove. by rewrite decide_True. Qed.
Lemma clear_path_setting segments : ∀ current r path, clear_path current segments = Ok r →
  leaf (setting r.1 path) = if below segments path then None else leaf (setting current path).
Proof.
  induction segments as [|s segments IH]; intros current r path; [by destruct current|].
  assert (∀ v, is_table v = false → below (s :: segments) path = true → leaf (setting v path) = None) as Hscalar.
  { intros v Hv. destruct path as [|k path]; [done|]. by destruct v. }
  assert (is_table current = false → clear_path current (s :: segments) = Ok r → leaf (setting r.1 path) = if below (s :: segments) path then None else leaf (setting current path)) as Hother.
  { intros Ht H. assert (r = (current, false)) as -> by (destruct current, segments; try done; by injection H). cbn [fst].
    destruct (below (s :: segments) path) eqn:E; [by apply Hscalar|done]. }
  destruct current as [| | | | | |t]; try (by apply Hother). clear Hother.
  assert (∀ t', (∀ k path', path = k :: path' → leaf (setting (TTable t') path) = if below (s :: segments) path then None else leaf (setting (TTable t) path)) →
    leaf (setting (TTable t') path) = if below (s :: segments) path then None else leaf (setting (TTable t) path)) as Hpath by (intros t' H; destruct path as [|k path]; [done|by eapply H]).
  destruct segments as [|s' segments]; cbn [clear_path].
  - destruct (table_get s t) eqn:Es; intros [= <-]; cbn [fst]; apply Hpath; intros k path' ->; cbn [below setting]; rewrite andb_true_r; case_bool_decide as Hk.
    + subst. by rewrite table_remove_get.
    + rewrite table_get_remove. by rewrite decide_False.
    + subst. by rewrite Es.
    + done.
  - destruct (table_get s t) as [next|] eqn:Es.
    + intros (b & Hb & [= <-])%bind_Ok. cbn [fst]. apply Hpath. intros k path' ->. cbn [setting]. change (below (s :: s' :: segments) (k :: path')) with (bool_decide (k = s) && below (s' :: segments) path').
      rewrite table_get_insert. case_decide as Hk; [subst; rewrite bool_decide_eq_true_2, Es by done; cbn [andb]; by apply IH|]. by rewrite bool_decide_eq_false_2.
    + intros [= <-]. cbn [fst]. apply Hpath. intros k path' ->. cbn [setting]. change (below (s :: s' :: segments) (k :: path')) with (bool_decide (k = s) && below (s' :: segments) path').
      case_bool_decide as Hk; [subst; rewrite Es; cbn [andb leaf]; by destruct (below (s' :: segments) path')|done].
Qed.
(** An edit changes what it names and nothing else ([apply_merge]): a value is found at its path afterwards and below it only
    what it holds itself; a path that is cleared, and all below it, has no value; every other path has the value it had,
    unless the edit had to put a table in its way. *)
Theorem edits_change_their_path root segments value r path :
  apply_merge root segments value Replace = Ok r →
  leaf (setting r.1 path) =
    match value with
    | Some v => over (override_setting segments v path) (leaf (setting root path))
    | None => if below segments path then None else leaf (setting root path)
    end.
Proof.
  destruct value as [v|]; cbn [apply_merge]; intros H.
  - assert (segments ≠ []) as Hne by by intros ->. by rewrite (apply_at_override _ _ _ _ H), override_at_setting.
  - by apply (clear_path_setting segments root).
Qed.
Lemma edits_change_their_path_witness : ∃ r, apply_merge (TTable [(lit "a", TTable [(lit "b", TInteger 1)])]) [lit "a"; lit "c"] (Some (TInteger 2)) Replace = Ok r ∧
  leaf (setting r.1 [lit "a"; lit "c"]) = Some (TInteger 2) ∧ leaf (setting r.1 [lit "a"; lit "b"]) = Some (TInteger 1).
Proof.
  exists (TTable [(lit "a", TTable [(lit "b", TInteger 1); (lit "c", TInteger 2)])], true). split_and!; [by vm_compute| |].
  - by rewrite (edits_change_their_path (TTable [(lit "a", TTable [(lit "b", TInteger 1)])]) [lit "a"; lit "c"] (Some (TInteger 2))) by (by vm_compute).
  - by rewrite (edits_change_their_path (TTable [(lit "a", TTable [(lit "b", TInteger 1)])]) [lit "a"; lit "c"] (Some (TInteger 2))) by (by vm_compute).
Defined.

(** ** The layer that was edited is the active one *)
Section writes.
Context {Requirements : Type} (to_value : TomlValue → JsonValue) (to_vec : JsonValue → list N) (sha256 : list N → list N).
Context (from_value : JsonValue → rstring + TomlValue).
Context (validate_user : Requirements → TomlValue → option rstring) (validate_effective : TomlValue → option rstring).
Context (resolve_symlink_write_paths : rstring → ConfigLoader.IoError + (option rstring * rstring)) (read_to_string : rstring → ConfigLoader.IoError + rstring).
Context (from_str : rstring → rstring + TomlValue) (write_empty_user_config : rstring → outcome ConfigManagerError unit).
#[local] Abbreviation Stack := (ConfigLayerStack Requirements).
#[local] Abbreviation with_user_config := (with_user_config to_value to_vec sha256).
#[local] Abbreviation with_user_config_profile := (with_user_config_profile to_value to_vec sha256).
#[local] Abbreviation layer_new := (layer_new to_value to_vec sha256).
Lemma unique_active ls c n d index : ls = c ++ n :: d → is_user_layer n = true → Forall (λ l, is_user_layer l = false) d → active_at ls index → index = Some (length c).
Proof using Type.
  intros -> Hn Hd Ha. destruct index as [i|]; cbn in Ha.
  - destruct Ha as (x & Hx & Hu & Hlast). f_equal. destruct (decide (i < length c)) as [Hlt|Hge].
    + specialize (Hlast (length c) n Hlt). rewrite lookup_app_r, Nat.sub_diag in Hlast by lia. by rewrite Hlast in Hn.
    + destruct (decide (i = length c)) as [|Hne]; [done|]. rewrite lookup_app_r in Hx by lia. destruct (i - length c) as [|k] eqn:Ek; [lia|]. cbn in Hx.
      rewrite Forall_forall in Hd. rewrite (Hd x) in Hu; [done|]. by eapply list_elem_of_lookup_2.
  - rewrite Ha in Hn; [done|]. apply elem_of_app. right. by left.
Qed.
(** The only layer of a file. *)
Lemma only_layer p (ls : list ConfigLayerEntry) l : length (List.filter p ls) ≤ 1 → l ∈ ls → p l = true →
  ∃ i, position p ls = Some i ∧ ls = take i ls ++ l :: drop (S i) ls ∧ Forall (λ y, p y = false) (take i ls ++ drop (S i) ls).
Proof using Type.
  intros Hone Hin Hl. destruct (position p ls) as [i|] eqn:Ei; [|by rewrite (proj1 (position_None _ _) Ei l Hin) in Hl].
  exists i. split; [done|]. apply position_Some in Ei as (x & Hx & Hp & _). pose proof (take_drop_middle _ _ _ Hx) as Heq. revert Heq.
  generalize (take i ls) (drop (S i) ls). intros a b <-. rewrite List.filter_app in Hone. cbn in Hone. rewrite Hp, length_app in Hone. cbn in Hone.
  assert (Forall (λ y, p y = false) (a ++ b)) as Hothers.
  { apply Forall_forall. intros y Hy. destruct (p y) eqn:Ey; [|done]. exfalso. assert (y ∈ List.filter p (a ++ b)) as Hf.
    { apply list_elem_of_In, List.filter_In. split; [by apply list_elem_of_In|done]. }
    rewrite List.filter_app in Hf. apply list_elem_of_lookup in Hf as (k & Hk%lookup_lt_Some). rewrite length_app in Hk. lia. }
  split; [|done]. apply elem_of_app in Hin as [Hin|[->|Hin]%elem_of_cons]; [|done|]; rewrite Forall_forall in Hothers; (rewrite (Hothers l) in Hl; [done|]); apply elem_of_app; (by left) || (by right).
Qed.
Lemma first_some_only {A B} (f : A → option B) a (x : A) b : Forall (λ y, f y = None) (a ++ b) → first_some f (a ++ x :: b) = f x.
Proof using Type.
  intros [Ha Hb]%Forall_app. unfold first_some. rewrite omap_app. cbn.
  assert (∀ l, Forall (λ y, f y = None) l → omap f l = []) as Hnil by (induction 1 as [|y l Hy _ IH]; cbn; [done|by rewrite Hy]).
  rewrite (Hnil a Ha), (Hnil b Hb). by destruct (f x).
Qed.
Lemma edited_layer_is_active (s : Stack) l file profile file' v :
  stack to_value to_vec sha256 s → get_active_user_layer s = Some l → name l = User file profile → profile ≫= parse_profile_name = profile → path_eq file file' →
  length (List.filter (is_user_file file') (layers s)) ≤ 1 →
  get_active_user_layer (with_user_config s file' v) = Some (layer_new (User file' profile) v).
Proof using Type.
  intros Hs Hl Hname Hprofile Hfile Hone. destruct (stack_sorted_active _ _ _ _ Hs) as [Hsorted Hact]. destruct (active_is_highest s l Hsorted Hact Hl) as (Hin & Hul & Hle).
  assert (is_user_file file' l = true) as Hlf by (unfold is_user_file; rewrite Hname; by apply bool_decide_eq_true_2).
  destruct (only_layer _ _ _ Hone Hin Hlf) as (i & Ei & Heq & Hothers).
  unfold ConfigLayers.with_user_config. rewrite Heq at 1. rewrite first_some_only.
  2: { eapply Forall_impl; [exact Hothers|]. unfold is_user_file. intros y Hy. destruct (name y); try done. by rewrite Hy. }
  rewrite Hname, bool_decide_eq_true_2, Hprofile by done. unfold ConfigLayers.with_user_config_profile. rewrite Ei.
  set (n := layer_new (User file' profile) v). set (rest := take i (layers s) ++ drop (S i) (layers s)).
  assert (precedence (name n) = precedence (name l)) as Hprec by (by rewrite Hname).
  assert (StronglySorted lower rest) as Hrest.
  { eapply sorted_sublist; [|exact Hsorted]. unfold rest; rewrite Heq at 3. apply sublist_app; [done|]. by constructor. }
  assert (∀ y, y ∈ rest → y ∈ layers s) as Hsub.
  { intros y Hy. rewrite Heq. apply elem_of_app in Hy as [Hy|Hy]; rewrite elem_of_app, elem_of_cons; auto. }
  destruct (insert_layer_split rest n) as (c & d & Erest & -> & _ & Hhead). unfold get_active_user_layer. cbn [user_layer_index layers with_layers].
  assert (Forall (λ y, is_user_layer y = false) d) as Hd.
  { apply Forall_forall. intros y Hy. destruct (is_user_layer y) eqn:Ey; [|done]. exfalso.
    assert (precedence (name y) ≤ precedence (name l))%Z as Hyl by (apply Hle; [apply Hsub; rewrite Erest; apply elem_of_app; by right|done]).
    rewrite Erest in Hrest. apply sorted_app_inv in Hrest as (_ & Hsd & _). destruct d as [|z d]; [by apply elem_of_nil in Hy|].
    assert (precedence (name z) ≤ precedence (name y))%Z as Hzy; [|lia]. apply elem_of_cons in Hy as [->|Hy]; [lia|].
    apply StronglySorted_inv in Hsd as [_ Hz]. rewrite Forall_forall in Hz. by apply Hz. }
  rewrite (unique_active (c ++ n :: d) c n d (last_user_index (c ++ n :: d))) by (done || apply last_user_index_active).
  cbn. by rewrite lookup_app_r, Nat.sub_diag by lia.
Qed.
(** A stack that was edited has an active layer. *)
Lemma edited_stack_active (s : Stack) file v : ∃ l, get_active_user_layer (with_user_config s file v) = Some l.
Proof using Type.
  unfold get_active_user_layer, ConfigLayers.with_user_config, ConfigLayers.with_user_config_profile. cbn [user_layer_index layers with_layers].
  set (n := ConfigLayers.layer_new _ _ _ _ _). destruct (insert_layer_split (match position (is_user_file file) (layers s) with Some index => take index (layers s) ++ drop (S index) (layers s) | None => layers s end) n) as (c & d & _ & -> & _).
  pose proof (last_user_index_active (c ++ n :: d)) as Ha. destruct (last_user_index _) as [i|]; cbn in Ha |- *.
  - destruct Ha as (x & Hx & _). by exists x.
  - assert (is_user_layer n = false) as Hn by (apply Ha, elem_of_app; right; by left). done.
Qed.
Lemma first_some_Some {A B} (f : A → option B) l y : first_some f l = Some y → ∃ a x b, l = a ++ x :: b ∧ f x = Some y ∧ Forall (λ z, f z = None) a.
Proof using Type.
  unfold first_some. induction l as [|x l IH]; cbn; [done|]. destruct (f x) as [z|] eqn:E; cbn.
  - intros [= ->]. by exists [], x, l.
  - intros (a & u & b & -> & Hu & Ha)%IH. exists (x :: a), u, b. split_and!; [done|done|by constructor].
Qed.
Lemma first_some_None {A B} (f : A → option B) l : first_some f l = None → ∀ x, x ∈ l → f x = None.
Proof using Type.
  unfold first_some. induction l as [|x l IH]; cbn; [by intros _ ? ?%elem_of_nil|]. destruct (f x) as [z|] eqn:E; [done|].
  intros H y [->|Hy]%elem_of_cons; [done|by apply IH].
Qed.
Lemma not_overridden (s : Stack) effective path l v :
  compute_override_metadata to_value s effective path = None → get_active_user_layer s = Some l → is_disabled l = false → value_at_path (config l) path = Some v →
  option_toml_eq (Some v) (value_at_path effective path) = true.
Proof using Type.
  intros Hc Hl Hen Hv. unfold compute_override_metadata in Hc. rewrite Hl in Hc. cbn in Hc. rewrite Hv in Hc.
  destruct (option_toml_eq (Some v) (value_at_path effective path)) eqn:E; [done|]. unfold find_effective_layer in Hc.
  destruct (first_some _ (layers_high_to_low s)) eqn:Ef; [done|]. pose proof (first_some_None _ _ Ef l) as Hno. cbn beta in Hno. rewrite Hv in Hno. cbn in Hno. enough (l ∈ layers_high_to_low s) as Hin by (by specialize (Hno Hin)).
  unfold layers_high_to_low, get_layers. apply list_elem_of_In. rewrite <- in_rev. apply List.filter_In. rewrite Hen. split; [|done]. apply list_elem_of_In.
  unfold get_active_user_layer in Hl. destruct (user_layer_index s); [|done]. by eapply list_elem_of_lookup_2.
Qed.
Lemma overridden_by (s : Stack) effective path m :
  compute_override_metadata to_value s effective path = Some m →
  ∃ above l below, layers_high_to_low s = above ++ l :: below ∧ overriding_layer m = metadata l ∧ value_at_path (config l) path ≠ None ∧
    Forall (λ l', value_at_path (config l') path = None) above ∧
    effective_value m = default JNull (to_value <$> value_at_path effective path) ∧
    ∀ l, get_active_user_layer s = Some l → option_toml_eq (value_at_path (config l) path) (value_at_path effective path) = false.
Proof using Type.
  unfold compute_override_metadata. destruct (get_active_user_layer s) as [u|]; [|done]. cbn.
  destruct (match value_at_path (config u) path with Some _ => _ | None => false end) eqn:E1; [done|].
  destruct (match value_at_path (config u) path with Some _ => false | None => _ end) eqn:E2; [done|].
  destruct (find_effective_layer s path) as [o|] eqn:Ef; [|done]. cbn. intros [= <-]. apply first_some_Some in Ef as (a & l & b & Hab & Hl & Ha).
  exists a, l, b. cbn. destruct (value_at_path (config l) path) eqn:Ev; [|done]. injection Hl as <-. split_and!; [done|done|done| | |].
  - eapply Forall_impl; [exact Ha|]. cbn. intros y. by destruct (value_at_path (config y) path).
  - by destruct (value_at_path effective path).
  - intros ? [= <-]. destruct (value_at_path (config u) path), (value_at_path effective path); done.
Qed.
#[local] Abbreviation apply_edits_loop := (apply_edits_loop from_value).
#[local] Abbreviation user_layer_of := (user_layer_of to_value to_vec sha256 resolve_symlink_write_paths read_to_string from_str write_empty_user_config).
#[local] Abbreviation prepare_write := (prepare_write to_value to_vec sha256 from_value validate_user validate_effective resolve_symlink_write_paths read_to_string from_str write_empty_user_config).
#[local] Abbreviation apply_edits := (apply_edits to_value to_vec sha256 from_value validate_user validate_effective resolve_symlink_write_paths read_to_string from_str write_empty_user_config).
Lemma prepare_write_Ok (w : WriteInputs (Requirements:=Requirements)) edits updated st :
  prepare_write w edits = Ok (updated, st) →
  paths_match w = true ∧ ∃ s before, load_thread_agnostic_config w = inr s ∧ user_layer_of w s = Ok before ∧
    (expected_version w = None ∨ expected_version w = Some (version before)) ∧ apply_edits_loop (config before, [], []) edits = Ok st ∧
    validate_user (requirements s) st.1.1 = None ∧ updated = with_user_config s (provided_path w) st.1.1 ∧ validate_effective (effective_config updated) = None.
Proof using Type.
  unfold ConfigEdits.prepare_write. destruct (paths_match w); [|done]. cbn [negb]. intros (s & Hs & H)%bind_Ok. split; [done|]. exists s. unfold load_stack in Hs. destruct (load_thread_agnostic_config w) as [|s'] eqn:Es; [done|]. injection Hs as ->.
  apply bind_Ok in H as (before & Hb & H). exists before. destruct (match expected_version w with Some _ => _ | None => _ end) eqn:Ev; [done|].
  apply bind_Ok in H as (st' & Hst & H). apply bind_Ok in H as ([] & Hu & H). apply bind_Ok in H as ([] & He & [= <- <-]).
  unfold valid in Hu, He. destruct (validate_user _) eqn:Eu; [done|]. destruct (validate_effective _) eqn:Ee; [done|]. split_and!; try done.
  destruct (expected_version w) as [e|]; [|by left]. right. apply negb_false_iff, bool_decide_eq_true in Ev. by subst.
Qed.
(** *** What is in force *)
(** A path that only leads through tables, and whose keys are not rewritten; what the highest enabled layer says that says
    anything about a path. *)
Definition plain_path (path : Path) : Prop := below_domains path = false ∧ Forall (λ segment, parse_index segment = None) path.
Definition in_force (s : Stack) (path : Path) : option TomlValue := resolve (layer_setting path <$> get_layers s LowestPrecedenceFirst false).
Lemma value_at_plain_path path : ∀ v, Forall (λ segment, parse_index segment = None) path →
  leaf (setting v path) = (x ← value_at_path v path; if is_table x then None else Some x).
Proof using Type.
  induction path as [|segment path IH]; intros v Hp; [by destruct v|]. apply Forall_cons in Hp as [Hs Hp].
  destruct v as [| | | | |items|t]; try done; cbn [value_at_path setting].
  - by rewrite Hs.
  - destruct (table_get segment t) as [next|]; [|done]. by apply IH.
Qed.
Lemma in_force_value (s : Stack) path : Forall (λ l, distinct (config l)) (get_layers s LowestPrecedenceFirst false) → plain_path path →
  in_force s path = (x ← value_at_path (effective_config s) path; if is_table x then None else Some x).
Proof using Type. intros Hd [Hp Hi]. unfold in_force. rewrite <- effective_setting by done. by apply value_at_plain_path. Qed.
Lemma toml_eq_no_table v w : toml_eq v w = true → is_table v = false → is_table w = false.
Proof using Type. by destruct v, w. Qed.
Lemma in_force_same (s : Stack) path v : option_toml_eq (Some v) (value_at_path (effective_config s) path) = true →
  Forall (λ l, distinct (config l)) (get_layers s LowestPrecedenceFirst false) → plain_path path → is_table v = false →
  ∃ v', in_force s path = Some v' ∧ toml_eq v v' = true.
Proof using Type.
  intros He Hd Hp Hv. rewrite in_force_value by done. destruct (value_at_path (effective_config s) path) as [w|]; [|done]. cbn in He |- *.
  rewrite (toml_eq_no_table v w) by done. by exists w.
Qed.
Lemma in_force_other (s : Stack) path v : option_toml_eq (Some v) (value_at_path (effective_config s) path) = false →
  Forall (λ l, distinct (config l)) (get_layers s LowestPrecedenceFirst false) → plain_path path →
  ∀ v', in_force s path = Some v' → toml_eq v v' = false.
Proof using Type.
  intros He Hd Hp v'. rewrite in_force_value by done. destruct (value_at_path (effective_config s) path) as [w|]; [|done]. cbn in He |- *.
  destruct (is_table w); [done|]. by intros [= <-].
Qed.
End writes.

(** ** What the edits do at the edges *)
(** A value is not turned into a table to take the key of an edit; one further up the path is, and is lost. *)
Example values_above_the_parent_are_lost :
  apply_merge (TTable [(lit "a", TInteger 1)]) [lit "a"; lit "b"] (Some (TInteger 2)) Replace = Err NON_TABLE ∧
  apply_merge (TTable [(lit "a", TInteger 1)]) [lit "a"; lit "b"; lit "c"] (Some (TInteger 2)) Replace =
    Ok (TTable [(lit "a", TTable [(lit "b", TTable [(lit "c", TInteger 2)])])], true).
Proof. vm_compute. done. Qed.
(** Tables are merged at the path of the edit as if they were whole documents: a key under its former name does not take the
    place of the present one, as it does when documents are merged, and is then ignored. *)
Example upserts_miss_key_aliases :
  let doc enabled := TTable [(lit "memories", TTable [(lit "disable_on_external_context", TBoolean enabled)])] in
  let former := TTable [(lit "no_memories_if_mcp_or_web_search", TBoolean true)] in
  apply_merge (doc false) [lit "memories"] (Some former) Upsert =
    Ok (TTable [(lit "memories", TTable [(lit "disable_on_external_context", TBoolean false); (lit "no_memories_if_mcp_or_web_search", TBoolean true)])], true) ∧
  (let? r := apply_merge (doc false) [lit "memories"] (Some former) Upsert in Ok (merge_toml_values (TTable []) r.1)) = Ok (doc false) ∧
  merge_toml_values (doc false) (TTable [(lit "memories", former)]) = doc true.
Proof. vm_compute. done. Qed.
(** A table that adds to one of a lower layer is said to be overridden, by the user's own layer. *)
Example merged_tables_count_as_overridden :
  let system := mk_layer (System (lit "/etc/codex/config.toml")) (TTable [(lit "features", TTable [(lit "a", TBoolean true)])]) None [] None None in
  let user := mk_layer (User (lit "/h/config.toml") None) (TTable [(lit "features", TTable [(lit "b", TBoolean true)])]) None [] None None in
  let s := mk_stack [system; user] (Some 1) tt false None in
  leaf (setting (effective_config s) [lit "features"; lit "b"]) = Some (TBoolean true) ∧
  overridden_message <$> compute_override_metadata (λ _, JNull) s (effective_config s) [lit "features"] = Some (lit "Overridden by user config: /h/config.toml").
Proof. vm_compute. done. Qed.
(** The user's file under another spelling of its path becomes a second layer. *)
Example other_spellings_are_other_layers :
  let user := mk_layer (User (lit "/h/config.toml") None) (TTable []) None [] None None in
  length (layers (with_user_config (λ _, JNull) (λ _, []) id (mk_stack [user] (Some 0) tt false None) (lit "/link/config.toml") (TTable []))) = 2.
Proof. vm_compute. done. Qed.

(** ** A write that takes effect, and one that is overridden *)
Module Example_writes.
Definition system : ConfigLayerEntry := mk_layer (System (lit "/etc/codex/config.toml")) (TTable [(lit "model", TString (lit "small"))]) None [] None None.
Definition user : ConfigLayerEntry := mk_layer (User (lit "/h/config.toml") None) (TTable [(lit "model", TString (lit "medium"))]) None [] None None.
Definition flags : ConfigLayerEntry := mk_layer SessionFlags (TTable [(lit "model", TString (lit "large"))]) None [] None None.
Definition write_to (s : ConfigLayerStack unit) : WriteInputs := mk_write (lit "/h/config.toml") (lit "/h/config.toml") true None (inr s) (λ _, None).
Definition from_value (j : JsonValue) : rstring + TomlValue := match j with JString s => inr (TString s) | JBool b => inr (TBoolean b) | _ => inl (lit "?") end.
Definition to_value (v : TomlValue) : JsonValue := match v with TString s => JString s | _ => JNull end.
Definition no_files (path : rstring) : ConfigLoader.IoError + (option rstring * rstring) := inr (None, path).
Definition no_text (path : rstring) : ConfigLoader.IoError + rstring := inr [].
Definition edit (s : ConfigLayerStack unit) (key : string) (value : JsonValue) : outcome ConfigManagerError ConfigWriteResponse * list ConfigEdit :=
  apply_edits to_value (λ _, []) id from_value (λ _ _, None) (λ _, None) no_files no_text (λ _, inl []) (λ _, Ok tt) (write_to s) [(lit key, value, Replace)].
Definition edited (s : ConfigLayerStack unit) (v : TomlValue) : ConfigLayerStack unit := with_user_config to_value (λ _, []) id s (lit "/h/config.toml") v.
Definition above : ConfigLayerStack unit := mk_stack [system; user] (Some 1) tt false None.
Definition under_flags : ConfigLayerStack unit := mk_stack [system; user; flags] (Some 1) tt false None.
Definition written : list ConfigEdit := [SetPath [lit "model"] (ItemValue (TString (lit "tiny")))].
Definition tiny : TomlValue := TTable [(lit "model", TString (lit "tiny"))].
End Example_writes.
Import Example_writes.
