(* ===== verification/InputQueue.v ===== *)
(** * Input of a session ([core/src/session/input_queue.rs], [core/src/state/turn.rs])

    What waits for the model: input of the running turn, mail of other agents, items for the next turn; and the state of a
    turn, which its task and the session share. A lock is held for each operation here, or for each of its two parts. *)
From S2P Require Import Prelude RustStr.
From S2P Require AgentPath ResponseItem PermissionProfile SandboxTransforms.

(** ** Data ([protocol/src/models.rs], [protocol/src/mcp.rs], [protocol/src/protocol.rs]) *)
Record CallToolResult := mk_result { content : list ResponseItem.JsonValue; structured_content : option ResponseItem.JsonValue; is_error : option bool; meta : option ResponseItem.JsonValue }.
Inductive ResponseInputItem :=
| InMessage (role : rstring) (content : list ResponseItem.ContentItem) (phase : option ResponseItem.MessagePhase)
| InFunctionCallOutput (call_id : rstring) (output : ResponseItem.FunctionCallOutputPayload)
| InMcpToolCallOutput (call_id : rstring) (output : CallToolResult)
| InCustomToolCallOutput (call_id : rstring) (name : option rstring) (output : ResponseItem.FunctionCallOutputPayload)
| InToolSearchOutput (call_id status execution : rstring) (tools : list ResponseItem.JsonValue).
Record InterAgentCommunication := mk_mail {
  author : AgentPath.AgentPath; recipient : AgentPath.AgentPath; other_recipients : list AgentPath.AgentPath; mail_content : rstring; trigger_turn : bool }.
Inductive MailboxDeliveryPhase := CurrentTurn | NextTurn.
Inductive TaskKind := Regular | Review | Compact.
(** Senders of oneshot channels, by the number of the channel; an id of the rmcp crate is a number or a text. *)
Abbreviation Sender := nat.
Abbreviation RequestId := (Z + rstring)%type.
(** [protocol/src/request_permissions.rs] *)
Record RequestPermissionProfile := mk_request { network : option PermissionProfile.NetworkPermissions; file_system : option PermissionProfile.FileSystemPermissions }.
Record PendingRequestPermissions := mk_pending { tx_response : Sender; requested_permissions : RequestPermissionProfile; cwd : rstring }.
(** A task runs as a thread with the id of its turn, which also names its cancellation token. *)
Record RunningTask := mk_task { kind : TaskKind }.
Record ActiveTurn := mk_turn { tasks : list (rstring * RunningTask); turn_state : nat }.

Section queue.
(** The prompt of a user is not looked into; [serde_json::to_string] may fail. *)
Context {UserInput : Type} (to_string : InterAgentCommunication → option rstring).
Definition to_response_input_item (mail : InterAgentCommunication) : ResponseInputItem :=
  InMessage (lit "assistant") [ResponseItem.OutText (default [] (to_string mail))] (Some ResponseItem.Commentary).
Inductive TurnInput := InputUser (content : list UserInput) | InputItem (item : ResponseInputItem).
(** Without the token usage at its start, which only metrics read. *)
Record TurnState := mk_turn_state {
  pending_approvals : gmap rstring Sender; pending_request_permissions : gmap rstring PendingRequestPermissions; pending_user_input : gmap rstring Sender;
  pending_elicitations : gmap (rstring * RequestId) Sender; pending_dynamic_tools : gmap rstring Sender;
  pending_input : list TurnInput; mailbox_delivery_phase : MailboxDeliveryPhase; granted_permissions : option PermissionProfile.AdditionalPermissionProfile;
  strict_auto_review_enabled : bool; tool_calls : N; has_memory_citation : bool; url_attachments_injected : N }.
Definition turn_state_default : TurnState := mk_turn_state ∅ ∅ ∅ ∅ ∅ [] CurrentTurn None false 0 false 0.

(** ** The state of a turn *)
Definition with_input (t : TurnState) (input : list TurnInput) : TurnState :=
  mk_turn_state (pending_approvals t) (pending_request_permissions t) (pending_user_input t) (pending_elicitations t) (pending_dynamic_tools t) input
    (mailbox_delivery_phase t) (granted_permissions t) (strict_auto_review_enabled t) (tool_calls t) (has_memory_citation t) (url_attachments_injected t).
Definition set_mailbox_delivery_phase (t : TurnState) (phase : MailboxDeliveryPhase) : TurnState :=
  mk_turn_state (pending_approvals t) (pending_request_permissions t) (pending_user_input t) (pending_elicitations t) (pending_dynamic_tools t) (pending_input t)
    phase (granted_permissions t) (strict_auto_review_enabled t) (tool_calls t) (has_memory_citation t) (url_attachments_injected t).
Definition accept_mailbox_delivery_for_current_turn (t : TurnState) : TurnState := set_mailbox_delivery_phase t CurrentTurn.
Definition accepts_mailbox_delivery_for_current_turn (t : TurnState) : bool := if mailbox_delivery_phase t is CurrentTurn then true else false.
Definition with_waiters (t : TurnState) (approvals : gmap rstring Sender) (permissions : gmap rstring PendingRequestPermissions) (user_input : gmap rstring Sender) (elicitations : gmap (rstring * RequestId) Sender) (tools : gmap rstring Sender) : TurnState :=
  mk_turn_state approvals permissions user_input elicitations tools (pending_input t) (mailbox_delivery_phase t) (granted_permissions t) (strict_auto_review_enabled t)
    (tool_calls t) (has_memory_citation t) (url_attachments_injected t).
Definition clear_pending_waiters (t : TurnState) : TurnState := with_waiters t ∅ ∅ ∅ ∅ ∅.
(** Each returns the sender that was there. *)
Definition insert_pending_approval (t : TurnState) (key : rstring) (tx : Sender) : TurnState * option Sender :=
  (with_waiters t (<[key := tx]> (pending_approvals t)) (pending_request_permissions t) (pending_user_input t) (pending_elicitations t) (pending_dynamic_tools t), pending_approvals t !! key).
Definition remove_pending_approval (t : TurnState) (key : rstring) : TurnState * option Sender :=
  (with_waiters t (delete key (pending_approvals t)) (pending_request_permissions t) (pending_user_input t) (pending_elicitations t) (pending_dynamic_tools t), pending_approvals t !! key).
Definition insert_pending_request_permissions (t : TurnState) (key : rstring) (tx : PendingRequestPermissions) : TurnState * option PendingRequestPermissions :=
  (with_waiters t (pending_approvals t) (<[key := tx]> (pending_request_permissions t)) (pending_user_input t) (pending_elicitations t) (pending_dynamic_tools t), pending_request_permissions t !! key).
Definition remove_pending_request_permissions (t : TurnState) (key : rstring) : TurnState * option PendingRequestPermissions :=
  (with_waiters t (pending_approvals t) (delete key (pending_request_permissions t)) (pending_user_input t) (pending_elicitations t) (pending_dynamic_tools t), pending_request_permissions t !! key).
Definition insert_pending_user_input (t : TurnState) (key : rstring) (tx : Sender) : TurnState * option Sender :=
  (with_waiters t (pending_approvals t) (pending_request_permissions t) (<[key := tx]> (pending_user_input t)) (pending_elicitations t) (pending_dynamic_tools t), pending_user_input t !! key).
Definition remove_pending_user_input (t : TurnState) (key : rstring) : TurnState * option Sender :=
  (with_waiters t (pending_approvals t) (pending_request_permissions t) (delete key (pending_user_input t)) (pending_elicitations t) (pending_dynamic_tools t), pending_user_input t !! key).
Definition insert_pending_elicitation (t : TurnState) (server_name : rstring) (request_id : RequestId) (tx : Sender) : TurnState * option Sender :=
  (with_waiters t (pending_approvals t) (pending_request_permissions t) (pending_user_input t) (<[(server_name, request_id) := tx]> (pending_elicitations t)) (pending_dynamic_tools t), pending_elicitations t !! (server_name, request_id)).
Definition remove_pending_elicitation (t : TurnState) (server_name : rstring) (request_id : RequestId) : TurnState * option Sender :=
  (with_waiters t (pending_approvals t) (pending_request_permissions t) (pending_user_input t) (delete (server_name, request_id) (pending_elicitations t)) (pending_dynamic_tools t), pending_elicitations t !! (server_name, request_id)).
Definition insert_pending_dynamic_tool (t : TurnState) (key : rstring) (tx : Sender) : TurnState * option Sender :=
  (with_waiters t (pending_approvals t) (pending_request_permissions t) (pending_user_input t) (pending_elicitations t) (<[key := tx]> (pending_dynamic_tools t)), pending_dynamic_tools t !! key).
Definition remove_pending_dynamic_tool (t : TurnState) (key : rstring) : TurnState * option Sender :=
  (with_waiters t (pending_approvals t) (pending_request_permissions t) (pending_user_input t) (pending_elicitations t) (delete key (pending_dynamic_tools t)), pending_dynamic_tools t !! key).
Definition record_granted_permissions (t : TurnState) (permissions : PermissionProfile.AdditionalPermissionProfile) : TurnState :=
  mk_turn_state (pending_approvals t) (pending_request_permissions t) (pending_user_input t) (pending_elicitations t) (pending_dynamic_tools t) (pending_input t)
    (mailbox_delivery_phase t) (SandboxTransforms.merge_permission_profiles (granted_permissions t) (Some permissions)) (strict_auto_review_enabled t) (tool_calls t)
    (has_memory_citation t) (url_attachments_injected t).
Definition enable_strict_auto_review (t : TurnState) : TurnState :=
  mk_turn_state (pending_approvals t) (pending_request_permissions t) (pending_user_input t) (pending_elicitations t) (pending_dynamic_tools t) (pending_input t)
    (mailbox_delivery_phase t) (granted_permissions t) true (tool_calls t) (has_memory_citation t) (url_attachments_injected t).
Definition reserve_url_attachments (t : TurnState) (additional per_turn_limit : N) : outcome N TurnState :=
  let current := url_attachments_injected t in
  if (per_turn_limit <? sat_add current additional)%N then Err current
  else Ok (mk_turn_state (pending_approvals t) (pending_request_permissions t) (pending_user_input t) (pending_elicitations t) (pending_dynamic_tools t) (pending_input t)
    (mailbox_delivery_phase t) (granted_permissions t) (strict_auto_review_enabled t) (tool_calls t) (has_memory_citation t) (wrap_add current additional)).

(** ** Active turns: an [IndexMap] keeps the order of insertion; [swap_remove] puts the last entry in the gap *)
Definition has_sub (sub_id : rstring) (e : rstring * RunningTask) : bool := bool_decide (e.1 = sub_id).
Definition contains_task (at_ : ActiveTurn) (sub_id : rstring) : bool := existsb (has_sub sub_id) (tasks at_).
Definition add_task (at_ : ActiveTurn) (sub_id : rstring) (task : RunningTask) : ActiveTurn :=
  let tasks := match position (has_sub sub_id) (tasks at_) with Some i => <[i := (sub_id, task)]> (tasks at_) | None => tasks at_ ++ [(sub_id, task)] end in
  mk_turn tasks (turn_state at_).
Definition swap_remove {A} (i : nat) (l : list A) : list A :=
  let front := take (length l - 1) l in match last l with Some x => if bool_decide (i = length l - 1) then front else <[i := x]> front | None => l end.
(** The turn without the task; whether it is empty then. *)
Definition remove_task (at_ : ActiveTurn) (sub_id : rstring) : option (ActiveTurn * bool) :=
  i ← position (has_sub sub_id) (tasks at_);
  let tasks := swap_remove i (tasks at_) in Some (mk_turn tasks (turn_state at_), bool_decide (tasks = [])).

(** ** The shared store: the queue, the active turn and the states of turns, which are shared by address *)
Record InputQueue := mk_queue { mailbox_version : N; mailbox_pending_mails : list InterAgentCommunication; idle_pending_input : list ResponseInputItem }.
Definition queue_new : InputQueue := mk_queue 0 [] [].
Record Shared := mk_shared { queue : InputQueue; active_turn : option ActiveTurn; turn_states : gmap nat TurnState }.
Definition with_queue (s : Shared) (q : InputQueue) : Shared := mk_shared q (active_turn s) (turn_states s).
Definition with_active (s : Shared) (a : option ActiveTurn) : Shared := mk_shared (queue s) a (turn_states s).
Definition state_at (s : Shared) (a : nat) : TurnState := default turn_state_default (turn_states s !! a).
Definition set_state (s : Shared) (a : nat) (t : TurnState) : Shared := mk_shared (queue s) (active_turn s) (<[a := t]> (turn_states s)).

(** Mail *)
Definition enqueue_mailbox_communication (s : Shared) (communication : InterAgentCommunication) : Shared :=
  let q := queue s in with_queue s (mk_queue (mailbox_version q + 1) (mailbox_pending_mails q ++ [communication]) (idle_pending_input q)).
Definition has_pending_mailbox_items (s : Shared) : bool := negb (bool_decide (length (mailbox_pending_mails (queue s)) = 0)).
Definition has_trigger_turn_mailbox_items (s : Shared) : bool := existsb trigger_turn (mailbox_pending_mails (queue s)).
Definition drain_mailbox_input_items (s : Shared) : list ResponseInputItem * Shared :=
  let q := queue s in (map to_response_input_item (mailbox_pending_mails q), with_queue s (mk_queue (mailbox_version q) [] (idle_pending_input q))).
(** A receiver sees a change if the version it has seen is older, or if mail is waiting. *)
Definition subscribe_mailbox (s : Shared) : N * bool := (mailbox_version (queue s), has_pending_mailbox_items s).

(** Items for the next turn *)
Definition queue_response_items_for_next_turn (s : Shared) (items : list ResponseInputItem) : Shared :=
  match items with [] => s | _ => let q := queue s in with_queue s (mk_queue (mailbox_version q) (mailbox_pending_mails q) (idle_pending_input q ++ items)) end.
Definition take_queued_response_items_for_next_turn (s : Shared) : list ResponseInputItem * Shared :=
  let q := queue s in (idle_pending_input q, with_queue s (mk_queue (mailbox_version q) (mailbox_pending_mails q) [])).
Definition has_queued_response_items_for_next_turn (s : Shared) : bool := negb (bool_decide (length (idle_pending_input (queue s)) = 0)).

(** The state of the running turn *)
Definition turn_state_for_sub_id (s : Shared) (sub_id : rstring) : option nat :=
  at_ ← active_turn s; if contains_task at_ sub_id then Some (turn_state at_) else None.
Definition clear_pending (s : Shared) (a : nat) : Shared := set_state s a (with_input (clear_pending_waiters (state_at s a)) []).
Definition defer_mailbox_delivery (s : Shared) (a : nat) : Shared :=
  match pending_input (state_at s a) with [] => set_state s a (set_mailbox_delivery_phase (state_at s a) NextTurn) | _ => s end.
Definition accept_mailbox_delivery_for_turn_state (s : Shared) (a : nat) : Shared := set_state s a (accept_mailbox_delivery_for_current_turn (state_at s a)).
Definition push_pending_input_and_accept_mailbox_delivery_for_turn_state (s : Shared) (a : nat) (input : TurnInput) : Shared :=
  let t := state_at s a in set_state s a (accept_mailbox_delivery_for_current_turn (with_input t (pending_input t ++ [input]))).
Definition extend_pending_input_for_turn_state (s : Shared) (a : nat) (input : list TurnInput) : Shared :=
  let t := state_at s a in set_state s a (with_input t (pending_input t ++ input)).
Definition take_pending_input_for_turn_state (s : Shared) (a : nat) : list TurnInput * Shared :=
  let t := state_at s a in (pending_input t, set_state s a (with_input t [])).
Definition inject_response_items (s : Shared) (input : list ResponseInputItem) : outcome (list ResponseInputItem) Shared :=
  match active_turn s with
  | Some at_ => Ok (extend_pending_input_for_turn_state s (turn_state at_) (map InputItem input))
  | None => Err input
  end.
Inductive UrlAttachmentInjectionError := NoActiveTurnError | PerTurnLimitExceeded (attempted current limit : N).
Definition inject_response_items_with_url_attachment_budget (s : Shared) (input : list ResponseInputItem) (url_attachments_to_add per_turn_limit : N) :
  outcome UrlAttachmentInjectionError Shared :=
  match active_turn s with
  | None => Err NoActiveTurnError
  | Some at_ =>
      match reserve_url_attachments (state_at s (turn_state at_)) url_attachments_to_add per_turn_limit with
      | Err current => Err (PerTurnLimitExceeded url_attachments_to_add current per_turn_limit)
      | Ok t => Ok (set_state s (turn_state at_) (with_input t (pending_input t ++ map InputItem input)))
      | Panic => Panic
      end
  end.
(** The first part of [get_pending_input], under the locks of the turn; the second drains the mailbox. *)
Definition take_turn_input (s : Shared) : list TurnInput * bool * Shared :=
  match active_turn s with
  | Some at_ =>
      let '(input, s') := take_pending_input_for_turn_state s (turn_state at_) in
      (input, accepts_mailbox_delivery_for_current_turn (state_at s (turn_state at_)), s')
  | None => ([], true, s)
  end.
Definition get_pending_input (s : Shared) : list TurnInput * Shared :=
  let '(pending_input, accepts_mailbox_delivery, s) := take_turn_input s in
  if negb accepts_mailbox_delivery then (pending_input, s)
  else let '(mailbox_items, s) := drain_mailbox_input_items s in (pending_input ++ map InputItem mailbox_items, s).
(** The first part of [has_pending_input]: the answer, unless it depends on the mailbox. *)
Definition has_turn_input (s : Shared) : option bool :=
  match active_turn s with
  | Some at_ =>
      let t := state_at s (turn_state at_) in
      if negb (bool_decide (length (pending_input t) = 0)) then Some true else if accepts_mailbox_delivery_for_current_turn t then None else Some false
  | None => None
  end.
Definition has_pending_input (s : Shared) : bool := match has_turn_input s with Some b => b | None => has_pending_mailbox_items s end.

(** ** Steering ([Session::steer_input] in [session/mod.rs]) *)
Inductive SteerInputError := NoActiveTurn (input : list UserInput) | ExpectedTurnMismatch (expected actual : rstring) | ActiveTurnNotSteerable (turn_kind : TaskKind) | EmptyInput.
Definition steer_input (s : Shared) (input : list UserInput) (expected_turn_id : option rstring) : outcome SteerInputError (rstring * Shared) :=
  match active_turn s with
  | None => Err (NoActiveTurn input)
  | Some at_ =>
      match tasks at_ with
      | [] => Err (NoActiveTurn input)
      | (active_turn_id, task) :: _ =>
          let mismatch := match expected_turn_id with
                          | Some expected => if bool_decide (expected = active_turn_id) then None else Some (ExpectedTurnMismatch expected active_turn_id)
                          | None => None
                          end in
          match mismatch with
          | Some e => Err e
          | None =>
              match kind task with
              | Regular =>
                  match input with
                  | [] => Err EmptyInput
                  | _ => Ok (active_turn_id, push_pending_input_and_accept_mailbox_delivery_for_turn_state s (turn_state at_) (InputUser input))
                  end
              | other => Err (ActiveTurnNotSteerable other)
              end
          end
      end
  end.
End queue.
