(* ===== verification/SessionTurns.v ===== *)
(** * Turns of a session ([core/src/tasks/mod.rs], [tasks/regular.rs], [session/turn.rs], [session/handlers.rs], [goals.rs])

    How turns start, take their input, end, and are aborted, with everything that may happen in between: each routine is a
    list of frames, a frame is where it stands with what it holds, and a step is what it does under one lock, or one answer of
    the model, the hooks or the compaction. Any number of routines take their steps in any order. *)
From S2P Require Import Prelude RustStr InputQueue.

Inductive TurnAbortReason := Interrupted | Replaced | ReviewEnded | BudgetLimited.
Section turns.
Context {UserInput : Type} (to_string : InterAgentCommunication → option rstring).
#[local] Abbreviation TurnInput := (TurnInput (UserInput:=UserInput)).
#[local] Abbreviation Shared := (Shared (UserInput:=UserInput)).

(** ** The store *)
(** What is recorded: the inputs, what hooks add, the marker of an interrupted turn, the prompt of a stop hook. *)
Inductive Entry := RecordedInput (input : TurnInput) | AdditionalContexts (contexts : list rstring) | InterruptedTurnMarker | StopHookPrompt.
(** [cancelled]: the cancellation tokens that are cancelled, [killed]: the tasks whose handle was aborted. *)
Record Session := mk_session { shared : Shared; cancelled : gset rstring; killed : gset rstring; history : list Entry }.
Definition with_shared (s : Session) (sh : Shared) : Session := mk_session sh (cancelled s) (killed s) (history s).
Definition record (s : Session) (entries : list Entry) : Session := mk_session (shared s) (cancelled s) (killed s) (history s ++ entries).
(** What happens to inputs. *)
Inductive DropReason := TurnAborted | TurnStopped.
Inductive Event := Accepted (input : TurnInput) | Recorded (input : TurnInput) | Blocked (input : TurnInput) | Dropped (why : DropReason) (input : TurnInput).

(** ** Routines *)
(** [start_task] *)
Inductive StartPoint :=
| TakeQueued | TakeInput (queued : list ResponseInputItem) | DrainMail (queued : list ResponseInputItem) (pending : list TurnInput)
| Install (items : list TurnInput) | Extend (turn : nat) (items : list TurnInput) | Add.
(** [RegularTask::run] and [run_turn]: the startup, what comes before the first request, the input of the turn, the loop. *)
Inductive RunPoint :=
| Prewarm (input : list TurnInput) | Begin (input : list TurnInput) | Inputs (can_drain : bool) (rest : list TurnInput) (blocked accepted : bool)
| Loop (can_drain : bool) | LoopMail (pending : list TurnInput) | Pending (can_drain : bool) (rest : list TurnInput) (blocked accepted : bool)
| Sample (can_drain : bool) | Defer (can_drain : bool) (turn : nat) | Accept (can_drain : bool) (turn : nat)
| After (needs_follow_up : bool) | AfterMail (needs_follow_up : bool) | Compacting (needs_follow_up has_pending_input : bool) | StopHooks | Again | AgainMail.
(** The end of the spawned task, with [on_task_finished]. *)
Inductive FinishPoint := Flush | Remove | TakeRest (turn : nat) | RecordRest (turn : nat) (rest : list TurnInput) | Clear (turn : nat).
(** [maybe_start_turn_for_pending_work], [maybe_start_goal_continuation_turn] *)
Inductive MaybePoint := CheckQueued | CheckMail | Reserve.
Inductive GoalPoint :=
| Candidate | ReserveGoal (items : list ResponseInputItem) | StillCurrent (turn : nat) (items : list ResponseInputItem) | StillReserved (turn : nat) | ClearReserved (turn : nat).
Inductive Frame :=
| FUser (items : list UserInput) (sub_id : rstring) | FMail (mail : InterAgentCommunication) (sub_id : rstring)
| FStart (p : StartPoint) (input : list UserInput) (k : TaskKind) (sub_id : rstring) | FRun (p : RunPoint) (sub_id : rstring) | FOther (input : list UserInput) | FFinish (p : FinishPoint) (sub_id : rstring)
| FMaybe (p : MaybePoint) (sub_id : rstring) | FGoal (p : GoalPoint)
| FAbortAll (reason : TurnAbortReason) | FAbortTurn (turn_id : rstring) (reason : TurnAbortReason)
| FDrain (reason : TurnAbortReason) (turn : nat) (aborted : bool) (tasks : list rstring)
| FWait (reason : TurnAbortReason) (turn : nat) (aborted : bool) (task : rstring) (tasks : list rstring).
(** [FOther]: a review, a compaction or a command of the user's shell, which do not take input of a user. The answers of the world: *)
Inductive Sampling := Finished (needs_follow_up : bool) | Aborted | InvalidImage (replaced : bool) | Failed | ShownAnswer | ToolCall.
Inductive Answer :=
| ANone | ABool (b : bool) | AHook (should_stop : bool) (contexts : list rstring) | ASampling (r : Sampling) | ACompact (token_limit_reached ok : bool)
| AStop (prompt : bool) | AGoal (candidate : option (list ResponseInputItem)) | ASub (sub_id : rstring).

(** ** Inputs and hooks *)
Definition user_input (input : list UserInput) : list TurnInput := match input with [] => [] | _ => [InputUser input] end.
(** [inspect_pending_input]: hooks are asked about the user's input only. *)
Definition inspect_pending_input (input : TurnInput) (should_stop : bool) (contexts : list rstring) : bool * list rstring :=
  match input with InputUser _ => (should_stop, contexts) | InputItem _ => (false, []) end.
Definition additional (contexts : list rstring) : list Entry := match contexts with [] => [] | _ => [AdditionalContexts contexts] end.
(** The body of the loop of [run_hooks_and_record_inputs], and of the one in [on_task_finished]: whether the input was blocked. *)
Definition hook_and_record (s : Session) (input : TurnInput) (should_stop : bool) (contexts : list rstring) : Session * bool * list Event :=
  let '(should_stop, contexts) := inspect_pending_input input should_stop contexts in
  if should_stop then (record s (additional contexts), true, [Blocked input])
  else (record s (RecordedInput input :: additional contexts), false, [Recorded input]).

(** ** Steps *)
(** The store, the frames in place of the one that took the step, a task that was spawned, what happened to inputs. *)
Definition result : Type := Session * list Frame * option (rstring * list Frame) * list Event.
Definition go (s : Session) (fs : list Frame) : option result := Some (s, fs, None, []).
Definition reserve (s : Session) (new : nat) : Session :=
  with_shared s (set_state (with_active (shared s) (Some (mk_turn [] new))) new turn_state_default).
Definition spawn_task (input : list UserInput) (k : TaskKind) (sub_id : rstring) : list Frame := [FAbortAll Replaced; FStart TakeQueued input k sub_id].

Definition step_start (new : nat) (s : Session) (p : StartPoint) (input : list UserInput) (k : TaskKind) (sub_id : rstring) : option result :=
  let next p := FStart p input k sub_id in
  match p with
  | TakeQueued => let '(queued, sh) := take_queued_response_items_for_next_turn (shared s) in go (with_shared s sh) [next (TakeInput queued)]
  | TakeInput queued =>
      let '(pending, accepts, sh) := take_turn_input (shared s) in
      go (with_shared s sh) [next (if accepts then DrainMail queued pending else Install (map InputItem queued ++ pending))]
  | DrainMail queued pending =>
      let '(mail, sh) := drain_mailbox_input_items to_string (shared s) in
      go (with_shared s sh) [next (Install (map InputItem queued ++ pending ++ map InputItem mail))]
  | Install items =>
      match active_turn (shared s) with
      | Some at_ => go s [next (Extend (turn_state at_) items)]
      | None => go (reserve s new) [next (Extend new items)]
      end
  | Extend turn items => go (with_shared s (extend_pending_input_for_turn_state (shared s) turn items)) [next Add]
  | Add =>
      let s := match active_turn (shared s) with Some _ => s | None => reserve s new end in
      let at_ := default (mk_turn [] new) (active_turn (shared s)) in
      let run := match k with Regular => FRun (Prewarm (user_input input)) sub_id | _ => FOther input end in
      Some (with_shared s (with_active (shared s) (Some (add_task at_ sub_id (mk_task k)))), [], Some (sub_id, [run; FFinish Flush sub_id]), [])
  end.
Definition step_run (s : Session) (p : RunPoint) (sub_id : rstring) (a : Answer) : option result :=
  let next p := [FRun p sub_id] in
  match p, a with
  | Prewarm input, ABool true => go s (next (Begin input))
  | Prewarm input, ABool false => Some (s, [], None, map (Dropped TurnStopped) input)
  | Begin input, ABool true => go s (next (Inputs (bool_decide (length input = 0)) input false false))
  | Begin input, ABool false => Some (s, next Again, None, map (Dropped TurnStopped) input)
  | Inputs can_drain (x :: rest) blocked accepted, AHook stop contexts =>
      let '(s, b, events) := hook_and_record s x stop contexts in Some (s, next (Inputs can_drain rest (blocked || b) (accepted || negb b)), None, events)
  | Inputs can_drain [] blocked accepted, ANone => go s (next (if blocked && negb accepted then Again else Loop can_drain))
  | Loop true, ANone =>
      let '(pending, accepts, sh) := take_turn_input (shared s) in go (with_shared s sh) (next (if accepts then LoopMail pending else Pending true pending false false))
  | Loop false, ANone => go s (next (Pending false [] false false))
  | LoopMail pending, ANone =>
      let '(mail, sh) := drain_mailbox_input_items to_string (shared s) in go (with_shared s sh) (next (Pending true (pending ++ map InputItem mail) false false))
  | Pending can_drain (x :: rest) blocked accepted, AHook stop contexts =>
      let '(s, b, events) := hook_and_record s x stop contexts in Some (s, next (Pending can_drain rest (blocked || b) (accepted || negb b)), None, events)
  | Pending can_drain [] blocked accepted, ANone => go s (next (if blocked && negb accepted then Again else Sample can_drain))
  | Sample can_drain, ASampling ShownAnswer => go s (next (match turn_state_for_sub_id (shared s) sub_id with Some turn => Defer can_drain turn | None => Sample can_drain end))
  | Sample can_drain, ASampling ToolCall => go s (next (match turn_state_for_sub_id (shared s) sub_id with Some turn => Accept can_drain turn | None => Sample can_drain end))
  | Sample _, ASampling (Finished needs) => go s (next (After needs))
  | Sample can_drain, ASampling (InvalidImage true) => go s (next (Loop can_drain))
  | Sample _, ASampling _ => go s (next Again)
  | Defer can_drain turn, ANone => go (with_shared s (defer_mailbox_delivery (shared s) turn)) (next (Sample can_drain))
  | Accept can_drain turn, ANone => go (with_shared s (accept_mailbox_delivery_for_turn_state (shared s) turn)) (next (Sample can_drain))
  | After needs, ANone => go s (next (match has_turn_input (shared s) with Some b => Compacting needs b | None => AfterMail needs end))
  | AfterMail needs, ANone => go s (next (Compacting needs (has_pending_mailbox_items (shared s))))
  | Compacting needs has, ACompact token_limit_reached ok =>
      let needs_follow_up := needs || has in
      go s (next (if token_limit_reached && needs_follow_up then (if ok then Loop (negb needs) else Again) else if needs_follow_up then Loop true else StopHooks))
  | StopHooks, AStop true => go (record s [StopHookPrompt]) (next (Loop true))
  | StopHooks, AStop false => go s (next Again)
  | Again, ANone => go s (match has_turn_input (shared s) with Some true => next (Begin []) | Some false => [] | None => next AgainMail end)
  | AgainMail, ANone => go s (if has_pending_mailbox_items (shared s) then next (Begin []) else [])
  | _, _ => None
  end.
Definition step_finish (s : Session) (p : FinishPoint) (sub_id : rstring) (a : Answer) : option result :=
  let next p := [FFinish p sub_id] in
  match p, a with
  | Flush, ANone => go s (if bool_decide (sub_id ∈ cancelled s) then [] else next Remove)
  | Remove, ANone =>
      match active_turn (shared s) ≫= λ at_, remove_task at_ sub_id with
      | Some (at_, empty) => go (with_shared s (with_active (shared s) (Some at_))) (if (empty : bool) then next (TakeRest (turn_state at_)) else [])
      | None => go s []
      end
  | TakeRest turn, ANone => let '(rest, sh) := take_pending_input_for_turn_state (shared s) turn in go (with_shared s sh) (next (RecordRest turn rest))
  | RecordRest turn (x :: rest), AHook stop contexts =>
      let '(s, _, events) := hook_and_record s x stop contexts in Some (s, next (RecordRest turn rest), None, events)
  | RecordRest turn [], ANone => go s (next (Clear turn))
  | Clear turn, ASub sub =>
      match active_turn (shared s) with
      | Some (mk_turn [] turn') =>
          if bool_decide (turn' = turn) then go (with_shared s (with_active (shared s) None)) [FMaybe CheckQueued sub; FGoal Candidate] else go s []
      | _ => go s []
      end
  | _, _ => None
  end.
Definition step_maybe (new : nat) (s : Session) (p : MaybePoint) (sub_id : rstring) : option result :=
  match p with
  | CheckQueued => go s [FMaybe (if has_queued_response_items_for_next_turn (shared s) then Reserve else CheckMail) sub_id]
  | CheckMail => go s (if has_trigger_turn_mailbox_items (shared s) then [FMaybe Reserve sub_id] else [])
  | Reserve =>
      match active_turn (shared s) with
      | Some _ => go s []
      | None => go (reserve s new) [FStart TakeQueued [] Regular sub_id]
      end
  end.
Definition reserved (s : Session) (turn : nat) : bool := match active_turn (shared s) with Some (mk_turn [] turn') => bool_decide (turn' = turn) | _ => false end.
Definition step_goal (new : nat) (s : Session) (p : GoalPoint) (a : Answer) : option result :=
  match p, a with
  | Candidate, AGoal None => go s []
  | Candidate, AGoal (Some items) => go s [FGoal (ReserveGoal items)]
  | ReserveGoal items, ANone => match active_turn (shared s) with Some _ => go s [] | None => go (reserve s new) [FGoal (StillCurrent new items)] end
  | StillCurrent turn items, ABool true =>
      Some (with_shared s (extend_pending_input_for_turn_state (shared s) turn (map InputItem items)), [FGoal (StillReserved turn)], None, map (Accepted ∘ InputItem) items)
  | StillCurrent turn _, ABool false => go s [FGoal (ClearReserved turn)]
  | StillReserved turn, ASub sub => go s (if reserved s turn then [FStart TakeQueued [] Regular sub] else [FGoal (ClearReserved turn)])
  | ClearReserved turn, ANone => go (if reserved s turn then with_shared s (with_active (shared s) None) else s) []
  | _, _ => None
  end.
Definition cancel (s : Session) (sub_id : rstring) : Session := mk_session (shared s) ({[sub_id]} ∪ cancelled s) (killed s) (history s).
Definition kill (s : Session) (sub_id : rstring) : Session := mk_session (shared s) (cancelled s) ({[sub_id]} ∪ killed s) (history s).
(** [handle_task_abort] for every task of the turn, then the end of [abort_all_tasks]. *)
Definition step_drain (s : Session) (reason : TurnAbortReason) (turn : nat) (aborted : bool) (subs : list rstring) (a : Answer) : option result :=
  match subs, a with
  | task :: rest, ANone =>
      if bool_decide (task ∈ cancelled s) then go (kill s task) [FDrain reason turn aborted rest] else go (cancel s task) [FWait reason turn aborted task rest]
  | [], ASub sub =>
      if aborted then
        Some (with_shared s (clear_pending (shared s) turn), (if reason is Interrupted then [FMaybe CheckQueued sub] else []), None,
          map (Dropped TurnAborted) (pending_input (state_at (shared s) turn)))
      else go s []
  | _, _ => None
  end.
Definition step_wait (s : Session) (reason : TurnAbortReason) (turn : nat) (aborted : bool) (task : rstring) (rest : list rstring) (a : Answer) : option result :=
  match a with
  | ABool marker =>
      let s := kill s task in go (if reason is Interrupted then (if marker then record s [InterruptedTurnMarker] else s) else s) [FDrain reason turn aborted rest]
  | _ => None
  end.
Definition take_turn (s : Session) (reason : TurnAbortReason) (at_ : ActiveTurn) : option result :=
  go (with_shared s (with_active (shared s) None)) [FDrain reason (turn_state at_) (negb (bool_decide (length (tasks at_) = 0))) (tasks at_).*1].
Definition step_frame (new : nat) (s : Session) (f : Frame) (a : Answer) : option result :=
  match f with
  | FUser items sub_id =>
      match steer_input (shared s) items None with
      | Ok (_, sh) => Some (with_shared s sh, [], None, [Accepted (InputUser items)])
      | Err (NoActiveTurn items) => Some (s, spawn_task items Regular sub_id, None, map Accepted (user_input items))
      | _ => go s []
      end
  | FMail mail sub_id =>
      Some (with_shared s (enqueue_mailbox_communication (shared s) mail), (if trigger_turn mail then [FMaybe CheckQueued sub_id] else []), None,
        [Accepted (InputItem (to_response_input_item to_string mail))])
  | FStart p input k sub_id => step_start new s p input k sub_id
  | FRun p sub_id => step_run s p sub_id a
  | FOther input => Some (s, [], None, map (Dropped TurnStopped) (user_input input))
  | FFinish p sub_id => step_finish s p sub_id a
  | FMaybe p sub_id => step_maybe new s p sub_id
  | FGoal p => step_goal new s p a
  | FAbortAll reason => match active_turn (shared s) with Some at_ => take_turn s reason at_ | None => go s [] end
  | FAbortTurn turn_id reason =>
      match active_turn (shared s) with Some at_ => if contains_task at_ turn_id then take_turn s reason at_ else go s [] | None => go s [] end
  | FDrain reason turn aborted subs => step_drain s reason turn aborted subs a
  | FWait reason turn aborted task rest => step_wait s reason turn aborted task rest a
  end.

(** ** The system *)
(** What others ask of a session: a turn of the user, mail, an interrupt, the end of a turn, a review or compaction, and the
    checks for pending work. *)
Inductive Call :=
| CallUser (items : list UserInput) (sub_id : rstring) | CallMail (mail : InterAgentCommunication) (sub_id : rstring) | CallInterrupt | CallAbort (turn_id : rstring) (reason : TurnAbortReason)
| CallTask (k : TaskKind) (sub_id : rstring) | CallPending (sub_id : rstring) | CallGoal.
Definition call_frames (c : Call) : list Frame :=
  match c with
  | CallUser items sub_id => [FUser items sub_id]
  | CallMail mail sub_id => [FMail mail sub_id]
  | CallInterrupt => [FAbortAll Interrupted]
  | CallAbort turn_id reason => [FAbortTurn turn_id reason]
  | CallTask k sub_id => spawn_task [] k sub_id
  | CallPending sub_id => [FMaybe CheckQueued sub_id]
  | CallGoal => [FGoal Candidate]
  end.
(** Callers are numbered; a task has the id of its turn, and no id is used twice ([started]). *)
#[local] Abbreviation ThreadId := (nat + rstring)%type.
Record System := mk_system { session : Session; threads : gmap ThreadId (list Frame); started : gset rstring }.
Definition initial : System := mk_system (mk_session (mk_shared queue_new None ∅) ∅ ∅ []) ∅ ∅.
Inductive Choice :=
| ByCall (t : nat) (c : Call) | BySteer (items : list UserInput) (expected_turn_id : option rstring) | ByInject (items : list ResponseInputItem)
| ByInjectUrls (items : list ResponseInputItem) (to_add per_turn_limit : N) | ByQueue (items : list ResponseInputItem)
| ByThread (t : ThreadId) (new : nat) (a : Answer) | ByExit (t : ThreadId) | ByKill (sub_id : rstring).
(** The inputs a frame holds. *)
Definition held_frame (f : Frame) : list TurnInput :=
  match f with
  | FStart p input _ _ =>
      user_input input ++
      match p with
      | TakeQueued | Add => []
      | TakeInput queued => map InputItem queued
      | DrainMail queued pending => map InputItem queued ++ pending
      | Install items | Extend _ items => items
      end
  | FOther input => user_input input
  | FRun (Prewarm input | Begin input | Inputs _ input _ _ | LoopMail input | Pending _ input _ _) _ => input
  | FFinish (RecordRest _ rest) _ => rest
  | _ => []
  end.
Definition held (fs : list Frame) : list TurnInput := fs ≫= held_frame.
(** The turn states that a frame holds on to, and those that are alive: the one of the active turn, and those of the frames.
    The code frees a state with its last reference. *)
Definition refs_frame (f : Frame) : list nat :=
  match f with
  | FStart (Extend turn _) _ _ _ | FRun (Defer _ turn | Accept _ turn) _ | FFinish (TakeRest turn | RecordRest turn _ | Clear turn) _
  | FGoal (StillCurrent turn _ | StillReserved turn | ClearReserved turn) | FDrain _ turn _ _ | FWait _ turn _ _ _ => [turn]
  | _ => []
  end.
Definition refs (fs : list Frame) : list nat := fs ≫= refs_frame.
Definition active_ref (sh : Shared) : list nat := match active_turn sh with Some at_ => [turn_state at_] | None => [] end.
Definition referred (sys : System) : list nat := active_ref (shared (session sys)) ++ (map_to_list (threads sys) ≫= λ kt, refs kt.2).
(** One step: what happens to inputs, and the system after it; none where it cannot be taken. *)
Definition exec (c : Choice) (sys : System) : option (list Event * System) :=
  let s := session sys in
  let update (r : option Shared) (events : list Event) := match r with Some sh => Some (events, mk_system (with_shared s sh) (threads sys) (started sys)) | None => Some ([], sys) end in
  let ok {E} (r : outcome E Shared) := match r with Ok sh => Some sh | _ => None end in
  match c with
  | ByCall t call => match threads sys !! (inl t : ThreadId) with None => Some ([], mk_system s (<[inl t := call_frames call]> (threads sys)) (started sys)) | Some _ => None end
  | BySteer items expected => update (match steer_input (shared s) items expected with Ok (_, sh) => Some sh | _ => None end) [Accepted (InputUser items)]
  | ByInject items => update (ok (inject_response_items (shared s) items)) (map (Accepted ∘ InputItem) items)
  | ByInjectUrls items n limit => update (ok (inject_response_items_with_url_attachment_budget (shared s) items n limit)) (map (Accepted ∘ InputItem) items)
  | ByQueue items => update (Some (queue_response_items_for_next_turn (shared s) items)) (map (Accepted ∘ InputItem) items)
  | ByThread t new a =>
      match threads sys !! t, turn_states (shared s) !! new with
      | Some (f :: fs), None =>
          match step_frame new s f a with
          | Some (s', fs', None, events) => Some (events, mk_system s' (<[t := fs' ++ fs]> (threads sys)) (started sys))
          | Some (s', fs', Some (sub_id, task), events) =>
              if bool_decide (sub_id ∈ started sys) then None
              else match threads sys !! (inr sub_id : ThreadId) with
                   | None => Some (events, mk_system s' (<[inr sub_id := task]> (<[t := fs' ++ fs]> (threads sys))) ({[sub_id]} ∪ started sys))
                   | Some _ => None
                   end
          | None => None
          end
      | _, _ => None
      end
  | ByExit t => match threads sys !! t with Some [] => Some ([], mk_system s (delete t (threads sys)) (started sys)) | _ => None end
  | ByKill sub_id =>
      match threads sys !! (inr sub_id : ThreadId) with
      | Some fs => if bool_decide (sub_id ∈ killed s) then Some (map (Dropped TurnAborted) (held fs), mk_system s (delete (inr sub_id) (threads sys)) (started sys)) else None
      | None => None
      end
  end.
Inductive run : list Event → System → Prop :=
| run_initial : run [] initial
| run_step events sys c new sys' : run events sys → exec c sys = Some (new, sys') → run (events ++ new) sys'.
Fixpoint exec_all (cs : list Choice) (events : list Event) (sys : System) : option (list Event * System) :=
  match cs with [] => Some (events, sys) | c :: cs => match exec c sys with Some (new, sys) => exec_all cs (events ++ new) sys | None => None end end.
Lemma exec_all_run cs : ∀ events sys events' sys', run events sys → exec_all cs events sys = Some (events', sys') → run events' sys'.
Proof using Type.
  induction cs as [|c cs IH]; intros events sys events' sys' Hr; cbn; [by intros [= <- <-]|]. destruct (exec c sys) as [[new sys1]|] eqn:E; [|done].
  apply IH. by eapply run_step.
Qed.

(** ** Accounting *)
Section accounting.
(** Any class of inputs. *)
Context (P : TurnInput → bool).
Definition tally (l : list TurnInput) : nat := length (List.filter P l).
Lemma tally_app l k : tally (l ++ k) = tally l + tally k.
Proof using Type. unfold tally. by rewrite List.filter_app, length_app. Qed.
Definition stored (m : gmap nat TurnState) : nat := total (λ t, tally (pending_input t)) m.
Definition kept (sh : Shared) : nat :=
  stored (turn_states sh) + tally (map (InputItem ∘ to_response_input_item to_string) (mailbox_pending_mails (queue sh))) + tally (map InputItem (idle_pending_input (queue sh))).
(** What waits: in the mailbox, in the queue for the next turn, and in the turn states that are alive. What is lost: what was
    left in a turn state when nothing referred to it any more. *)
Definition waiting (sys : System) : nat :=
  let sh := shared (session sys) in
  stored (filter (λ kt, kt.1 ∈ referred sys) (turn_states sh)) + tally (map (InputItem ∘ to_response_input_item to_string) (mailbox_pending_mails (queue sh))) + tally (map InputItem (idle_pending_input (queue sh))).
Definition lost (sys : System) : nat := stored (filter (λ kt, kt.1 ∉ referred sys) (turn_states (shared (session sys)))).
Lemma kept_waiting_lost sys : kept (shared (session sys)) = waiting sys + lost sys.
Proof using Type. unfold kept, waiting, lost, stored. rewrite (total_filter _ (λ kt, kt.1 ∈ referred sys) (turn_states _)). lia. Qed.
Definition in_hand (ths : gmap ThreadId (list Frame)) : nat := total (λ fs, tally (held fs)) ths.
Definition accepted (events : list Event) : list TurnInput := omap (λ e, if e is Accepted i then Some i else None) events.
Definition recorded (events : list Event) : list TurnInput := omap (λ e, if e is Recorded i then Some i else None) events.
Definition blocked_by_hooks (events : list Event) : list TurnInput := omap (λ e, if e is Blocked i then Some i else None) events.
Definition dropped (events : list Event) : list TurnInput := omap (λ e, if e is Dropped _ i then Some i else None) events.
Definition gone (events : list Event) : nat := tally (recorded events) + tally (blocked_by_hooks events) + tally (dropped events).

Lemma kept_set_state sh a t : kept (set_state sh a t) + tally (pending_input (state_at sh a)) = kept sh + tally (pending_input t).
Proof using Type.
  unfold kept, stored, set_state, state_at. cbn [turn_states queue]. pose proof (total_update (λ t, tally (pending_input t)) (turn_states sh) a t) as H. cbn beta in H.
  destruct (turn_states sh !! a) as [t0|]; cbn [default id pending_input turn_state_default] in *; change (tally []) with 0 in *; lia.
Qed.
Lemma kept_with_active sh o : kept (with_active sh o) = kept sh.
Proof using Type. done. Qed.
Lemma kept_reserve s new : turn_states (shared s) !! new = None → kept (shared (reserve s new)) = kept (shared s).
Proof using Type.
  intros Hn. pose proof (kept_set_state (with_active (shared s) (Some (mk_turn [] new))) new turn_state_default) as H. cbn [reserve shared with_shared].
  unfold state_at in H. cbn [turn_states with_active] in H. rewrite Hn, kept_with_active in H. cbn in H. change (tally []) with 0 in H. cbn in *. lia.
Qed.
Lemma events_app l k : recorded (l ++ k) = recorded l ++ recorded k ∧ accepted (l ++ k) = accepted l ++ accepted k ∧
  blocked_by_hooks (l ++ k) = blocked_by_hooks l ++ blocked_by_hooks k ∧ dropped (l ++ k) = dropped l ++ dropped k.
Proof using Type. split_and!; apply omap_app. Qed.
Lemma gone_app l k : gone (l ++ k) = gone l + gone k.
Proof using Type. unfold gone. destruct (events_app l k) as (-> & _ & -> & ->). rewrite !tally_app. lia. Qed.
Lemma accepted_map {A} (f : A → TurnInput) l : accepted (map (Accepted ∘ f) l) = map f l ∧ gone (map (Accepted ∘ f) l) = 0.
Proof using Type. induction l as [|x l [IH1 IH2]]; [done|]. split; [cbn; f_equal; exact IH1|exact IH2]. Qed.
Lemma dropped_map why l : gone (map (Dropped why) l) = tally l ∧ accepted (map (Dropped why) l) = [].
Proof using Type.
  induction l as [|x l [IH1 IH2]]; [done|]. split; [|exact IH2]. change (map (Dropped why) (x :: l)) with ([Dropped why x] ++ map (Dropped why) l).
  change (x :: l) with ([x] ++ l). rewrite gone_app, tally_app, IH1. done.
Qed.
Lemma kept_extend sh a l : kept (extend_pending_input_for_turn_state sh a l) = kept sh + tally l.
Proof using Type. unfold extend_pending_input_for_turn_state. pose proof (kept_set_state sh a (with_input (state_at sh a) (pending_input (state_at sh a) ++ l))) as H. cbn [pending_input with_input] in H. rewrite tally_app in H. lia. Qed.
Lemma kept_take sh a l sh' : take_pending_input_for_turn_state sh a = (l, sh') → kept sh' + tally l = kept sh.
Proof using Type. intros [= <- <-]. pose proof (kept_set_state sh a (with_input (state_at sh a) [])) as H. cbn [pending_input with_input] in H. change (tally []) with 0 in H. lia. Qed.
Lemma kept_take_turn sh l b sh' : take_turn_input sh = (l, b, sh') → kept sh' + tally l = kept sh.
Proof using Type.
  unfold take_turn_input. destruct (active_turn sh) as [at_|]; [|intros [= <- _ <-]; apply Nat.add_0_r]. destruct (take_pending_input_for_turn_state sh (turn_state at_)) as [l' sh1] eqn:E.
  intros [= <- _ <-]. by eapply kept_take.
Qed.
Lemma kept_drain sh l sh' : drain_mailbox_input_items to_string sh = (l, sh') → kept sh' + tally (map InputItem l) = kept sh.
Proof using Type. intros [= <- <-]. unfold kept. cbn [turn_states queue with_queue mailbox_pending_mails idle_pending_input]. rewrite map_map. change (tally (map _ [])) with 0. unfold compose. lia. Qed.
Lemma kept_take_queued sh l sh' : take_queued_response_items_for_next_turn sh = (l, sh') → kept sh' + tally (map InputItem l) = kept sh.
Proof using Type. intros [= <- <-]. unfold kept. cbn [turn_states queue with_queue mailbox_pending_mails idle_pending_input]. change (tally (map _ [])) with 0. lia. Qed.
Lemma kept_enqueue sh m : kept (enqueue_mailbox_communication sh m) = kept sh + tally [InputItem (to_response_input_item to_string m)].
Proof using Type. unfold kept. cbn [enqueue_mailbox_communication turn_states queue with_queue mailbox_pending_mails idle_pending_input]. rewrite map_app, tally_app. cbn [map compose]. unfold compose. lia. Qed.
Lemma kept_queue sh l : kept (queue_response_items_for_next_turn sh l) = kept sh + tally (map InputItem l).
Proof using Type.
  unfold queue_response_items_for_next_turn. destruct l as [|x l]; [by rewrite Nat.add_0_r|]. unfold kept. cbn [turn_states queue with_queue mailbox_pending_mails idle_pending_input]. rewrite map_app, tally_app. lia.
Qed.
(** Only the input of a turn counts. *)
Lemma kept_same_input sh a t : pending_input t = pending_input (state_at sh a) → kept (set_state sh a t) = kept sh.
Proof using Type. intros H. pose proof (kept_set_state sh a t). rewrite H in *. lia. Qed.
Lemma kept_steer sh input expected id sh' : steer_input sh input expected = Ok (id, sh') → kept sh' = kept sh + tally [InputUser input].
Proof using Type.
  unfold steer_input. destruct (active_turn sh) as [at_|]; [|done]. destruct (tasks at_) as [|[id' task] rest]; [done|]. destruct (match expected with Some _ => _ | None => None end); [done|].
  destruct (kind task); [|done..]. destruct input as [|x input]; [done|]. intros [= _ <-]. unfold push_pending_input_and_accept_mailbox_delivery_for_turn_state.
  pose proof (kept_set_state sh (turn_state at_) (accept_mailbox_delivery_for_current_turn (with_input (state_at sh (turn_state at_)) (pending_input (state_at sh (turn_state at_)) ++ [InputUser (x :: input)])))) as H.
  cbn [pending_input with_input accept_mailbox_delivery_for_current_turn set_mailbox_delivery_phase] in H. rewrite tally_app in H. lia.
Qed.
Lemma kept_inject sh l sh' : inject_response_items sh l = Ok sh' → kept sh' = kept sh + tally (map InputItem l).
Proof using Type. unfold inject_response_items. destruct (active_turn sh); [|done]. intros [= <-]. apply kept_extend. Qed.
Lemma kept_inject_urls sh l n limit sh' : inject_response_items_with_url_attachment_budget sh l n limit = Ok sh' → kept sh' = kept sh + tally (map InputItem l).
Proof using Type.
  unfold inject_response_items_with_url_attachment_budget, reserve_url_attachments. destruct (active_turn sh) as [at_|]; [|done]. destruct (_ <? _)%N; [done|]. intros [= <-].
  match goal with |- kept (set_state _ _ ?t) = _ => pose proof (kept_set_state sh (turn_state at_) t) as H end. cbn [pending_input with_input] in H. rewrite tally_app in H. lia.
Qed.
Lemma held_start p input k sub : held [FStart p input k sub] = held_frame (FStart p input k sub).
Proof using Type. apply app_nil_r. Qed.
Lemma hook_and_record_accounts s x stop contexts s' b events : hook_and_record s x stop contexts = (s', b, events) →
  shared s' = shared s ∧ gone events = tally [x] ∧ accepted events = [].
Proof using Type.
  unfold hook_and_record. destruct (inspect_pending_input x stop contexts) as [[] cs]; intros [= <- <- <-]; cbn; (split; [done|]); split; try done; unfold gone; cbn; change (tally []) with 0; lia.
Qed.
Definition held_spawned (t : option (rstring * list Frame)) : list TurnInput := match t with Some (_, fs) => held fs | None => [] end.
(** What is waiting, held and gone after a step is what was there before and what was accepted. *)
Definition balanced (s : Session) (f : Frame) (r : result) : Prop :=
  let '(s', fs, spawned, events) := r in
  kept (shared s') + tally (held fs) + tally (held_spawned spawned) + gone events = kept (shared s) + tally (held_frame f) + tally (accepted events).
Ltac count :=
  cbn [held mbind list_bind held_frame held_spawned shared with_shared app map user_input] in *; rewrite ?app_nil_r, ?kept_with_active, ?tally_app in *;
  change (tally []) with 0 in *; change (gone []) with 0 in *; change (accepted []) with (@nil TurnInput) in *; change (tally []) with 0 in *; try lia.
Lemma step_start_balanced new s p input k sub r : turn_states (shared s) !! new = None → step_start new s p input k sub = Some r → balanced s (FStart p input k sub) r.
Proof using Type.
  intros Hn. destruct p as [|queued|queued pending|items|turn items|]; cbn [step_start].
  - destruct (take_queued_response_items_for_next_turn _) as [q sh] eqn:E. intros [= <-]. apply kept_take_queued in E. cbn [balanced]. count.
  - destruct (take_turn_input _) as [[l acc] sh] eqn:E. intros [= <-]. apply kept_take_turn in E. cbn [balanced]. destruct acc; count.
  - destruct (drain_mailbox_input_items _ _) as [l sh] eqn:E. intros [= <-]. apply kept_drain in E. cbn [balanced]. count.
  - destruct (active_turn _); intros [= <-]; cbn [balanced]; rewrite ?kept_reserve by done; count.
  - intros [= <-]. cbn [balanced]. count. rewrite kept_extend. lia.
  - intros [= <-]. cbn [balanced]. destruct k; count; destruct (active_turn (shared s)); rewrite ?kept_reserve by done; count.
Qed.
Lemma tally_cons x l : tally (x :: l) = tally [x] + tally l.
Proof using Type. exact (tally_app [x] l). Qed.
Lemma kept_defer sh a : kept (defer_mailbox_delivery sh a) = kept sh.
Proof using Type. unfold defer_mailbox_delivery. destruct (pending_input (state_at sh a)) eqn:E; [by apply kept_same_input|done]. Qed.
Lemma kept_accept sh a : kept (accept_mailbox_delivery_for_turn_state sh a) = kept sh.
Proof using Type. by apply kept_same_input. Qed.
Lemma kept_clear_pending sh a : kept (clear_pending sh a) + tally (pending_input (state_at sh a)) = kept sh.
Proof using Type. pose proof (kept_set_state sh a (with_input (clear_pending_waiters (state_at sh a)) [])) as H. cbn [pending_input with_input] in H. change (tally []) with 0 in H. unfold clear_pending. lia. Qed.
Lemma accepted_user input : accepted (map Accepted (user_input input)) = user_input input ∧ gone (map Accepted (user_input input)) = 0.
Proof using Type. by destruct input. Qed.
Ltac facts :=
  repeat match goal with
  | H : hook_and_record _ _ _ _ = _ |- _ => apply hook_and_record_accounts in H as (? & ? & ?)
  | H : take_turn_input _ = _ |- _ => apply kept_take_turn in H
  | H : drain_mailbox_input_items _ _ = _ |- _ => apply kept_drain in H
  | H : take_pending_input_for_turn_state _ _ = _ |- _ => apply kept_take in H
  | H : take_queued_response_items_for_next_turn _ = _ |- _ => apply kept_take_queued in H
  | H : steer_input _ _ _ = Ok _ |- _ => apply kept_steer in H
  | H : shared _ = shared _ |- _ => rewrite H in *; clear H
  | H : gone _ = _ |- _ => rewrite H in *; clear H
  | H : accepted _ = _ |- _ => rewrite H in *; clear H
  end.
Ltac balance :=
  cbn [balanced kill cancel record shared]; unfold spawn_task; facts; count;
  repeat match goal with |- context [gone [Accepted ?x]] => change (gone [Accepted x]) with 0; change (accepted [Accepted x]) with [x] end;
  rewrite ?kept_defer, ?kept_accept, ?kept_extend, ?kept_enqueue;
  rewrite ?(proj1 (dropped_map _ _)), ?(proj2 (dropped_map _ _)), ?(proj1 (accepted_map _ _)), ?(proj2 (accepted_map _ _)), ?(proj1 (accepted_user _)), ?(proj2 (accepted_user _));
  repeat match goal with |- context [tally (?x :: ?l)] => lazymatch l with [] => fail | _ => rewrite (tally_cons x l) end end; count.
Lemma step_run_balanced s p sub a r : step_run s p sub a = Some r → balanced s (FRun p sub) r.
Proof using Type.
  intros Hr. destruct p; destruct a; cbn [step_run] in Hr; try discriminate Hr; repeat (case_match; try discriminate Hr); injection Hr as <-; balance.
Qed.
Lemma step_frame_balanced new s f a r : turn_states (shared s) !! new = None → step_frame new s f a = Some r → balanced s f r.
Proof using Type.
  intros Hn Hr. destruct f as [items sub|m sub|p input k sub|p sub|input|p sub|p sub|p|reason|id reason|reason turn aborted subs|reason turn aborted task rest]; cbn [step_frame] in Hr.
  - repeat (case_match; try discriminate Hr); injection Hr as <-; balance.
  - injection Hr as <-. destruct (trigger_turn m); balance.
  - by apply (step_start_balanced new).
  - by apply (step_run_balanced s p sub a).
  - injection Hr as <-. balance.
  - destruct p; destruct a; cbn [step_finish] in Hr; try discriminate Hr; repeat (case_match; try discriminate Hr); injection Hr as <-; balance.
  - destruct p; cbn [step_maybe] in Hr; repeat (case_match; try discriminate Hr); injection Hr as <-; balance; rewrite kept_reserve by done; lia.
  - destruct p; destruct a; cbn [step_goal] in Hr; try discriminate Hr; repeat (case_match; try discriminate Hr); injection Hr as <-; balance; rewrite kept_reserve by done; lia.
  - unfold take_turn in Hr. repeat (case_match; try discriminate Hr); injection Hr as <-; balance.
  - unfold take_turn in Hr. repeat (case_match; try discriminate Hr); injection Hr as <-; balance.
  - unfold step_drain in Hr. repeat (case_match; try discriminate Hr); injection Hr as <-; balance; pose proof (kept_clear_pending (shared s) turn); lia.
  - unfold step_wait in Hr. repeat (case_match; try discriminate Hr); injection Hr as <-; balance.
Qed.
Lemma held_app fs gs : held (fs ++ gs) = held fs ++ held gs.
Proof using Type. unfold held. by rewrite bind_app. Qed.
Definition stock (sys : System) : nat := kept (shared (session sys)) + in_hand (threads sys).
Lemma exec_balanced c sys events sys' : exec c sys = Some (events, sys') → stock sys' + gone events = stock sys + tally (accepted events).
Proof using Type.
  unfold stock. destruct c as [t call|items expected|items|items n limit|items|t new a|t|sub]; cbn [exec]; intros H.
  - destruct (threads sys !! _) eqn:E; [done|]. injection H as <- <-. cbn [session threads]. unfold in_hand. rewrite total_fresh by done.
    change (gone []) with 0. change (tally (accepted [])) with 0. destruct call; cbn [call_frames]; unfold spawn_task; cbn; change (tally []) with 0; lia.
  - destruct (steer_input _ _ _) as [[id sh]| |] eqn:E; injection H as <- <-; [|done..]. cbn [session threads shared with_shared]. apply kept_steer in E. balance.
  - destruct (inject_response_items _ _) as [sh| |] eqn:E; injection H as <- <-; [|done..]. cbn [session threads shared with_shared]. apply kept_inject in E. balance.
  - destruct (inject_response_items_with_url_attachment_budget _ _ _ _) as [sh| |] eqn:E; injection H as <- <-; [|done..]. cbn [session threads shared with_shared]. apply kept_inject_urls in E. balance.
  - injection H as <- <-. cbn [session threads shared with_shared]. pose proof (kept_queue (shared (session sys)) items). balance.
  - destruct (threads sys !! t) as [[|f fs]|] eqn:Et; [done| |done]. destruct (turn_states _ !! new) eqn:En; [done|]. destruct (step_frame _ _ _ _) as [[[[s' fs'] spawned] new_events]|] eqn:Es; [|done].
    apply step_frame_balanced in Es; [|done]. cbn [balanced] in Es.
    assert (∀ m, m !! t = Some (f :: fs) → in_hand (<[t := fs' ++ fs]> m) + tally (held_frame f) = in_hand m + tally (held fs')) as Hins.
    { intros m Hm. pose proof (total_update (λ fs, tally (held fs)) m t (fs' ++ fs)) as Hi. rewrite Hm in Hi. unfold in_hand. rewrite held_app in Hi. change (held (f :: fs)) with (held_frame f ++ held fs) in Hi. rewrite !tally_app in Hi. lia. }
    specialize (Hins (threads sys) Et). destruct spawned as [[sub task]|].
    + destruct (bool_decide _); [done|]. destruct (threads sys !! inr sub) eqn:Esub; [done|]. injection H as <- <-. cbn [session threads]. unfold in_hand at 1. rewrite total_fresh.
      * fold (in_hand (<[t := fs' ++ fs]> (threads sys))). cbn [held_spawned] in Es. lia.
      * rewrite lookup_insert_ne; [done|]. intros ->. congruence.
    + injection H as <- <-. cbn [session threads]. cbn [held_spawned] in Es. change (tally []) with 0 in Es. lia.
  - destruct (threads sys !! t) as [[|f fs]|] eqn:Et; [|done..]. injection H as <- <-. cbn [session threads]. unfold in_hand. rewrite (total_delete _ (threads sys) t []) by done. done.
  - destruct (threads sys !! inr sub) as [fs|] eqn:Et; [|done]. destruct (bool_decide _); [|done]. injection H as <- <-. cbn [session threads]. unfold in_hand. rewrite (total_delete _ (threads sys) (inr sub) fs) by done.
    rewrite (proj1 (dropped_map _ _)), (proj2 (dropped_map _ _)). change (tally []) with 0. lia.
Qed.
Lemma run_balanced events sys : run events sys → stock sys + gone events = tally (accepted events).
Proof using Type.
  induction 1 as [|events sys c new sys' _ IH Hs]; [done|]. apply exec_balanced in Hs. rewrite gone_app. destruct (events_app events new) as (_ & -> & _ & _). rewrite tally_app. lia.
Qed.
End accounting.

(** What was recorded is what the history has. *)
Definition recorded_inputs (h : list Entry) : list TurnInput := omap (λ e, if e is RecordedInput i then Some i else None) h.
Lemma recorded_inputs_app h k : recorded_inputs (h ++ k) = recorded_inputs h ++ recorded_inputs k.
Proof using Type. apply omap_app. Qed.
Lemma recorded_quiet {A} (f : A → Event) l : (∀ i, match f i with Recorded _ => False | _ => True end) → recorded (map f l) = [].
Proof using Type. intros Hf. induction l as [|x l IH]; [done|]. unfold recorded in *. cbn. specialize (Hf x). by destruct (f x). Qed.
Lemma hook_and_record_history s x stop contexts s' b events : hook_and_record s x stop contexts = (s', b, events) →
  recorded_inputs (history s') = recorded_inputs (history s) ++ recorded events.
Proof using Type.
  unfold hook_and_record. destruct (inspect_pending_input x stop contexts) as [[] cs]; intros [= <- <- <-]; cbn [history record]; rewrite recorded_inputs_app; f_equal; by destruct cs.
Qed.
Definition faithful (s : Session) (r : result) : Prop := let '(s', _, _, events) := r in recorded_inputs (history s') = recorded_inputs (history s) ++ recorded events.
Lemma step_frame_faithful new s f a r : step_frame new s f a = Some r → faithful s r.
Proof using Type.
  intros Hr. destruct f as [items sub|m sub|p input k sub|p sub|input|p sub|p sub|p|reason|id reason|reason turn aborted subs|reason turn aborted task rest]; cbn [step_frame] in Hr;
    try (destruct p); try (destruct a; try discriminate Hr); cbn [step_start step_run step_finish step_maybe step_goal] in Hr; unfold step_drain, step_wait, take_turn in Hr;
    repeat (case_match; try discriminate Hr); try discriminate Hr; injection Hr as <-; cbn [faithful]; try (by rewrite app_nil_r); try (by eapply hook_and_record_history);
    try (by rewrite recorded_quiet, app_nil_r by done); try (by (cbn [history record kill]; rewrite recorded_inputs_app)).
Qed.
Lemma exec_faithful c sys events sys' : exec c sys = Some (events, sys') → recorded_inputs (history (session sys')) = recorded_inputs (history (session sys)) ++ recorded events.
Proof using Type.
  destruct c as [t call|items expected|items|items n limit|items|t new a|t|sub]; cbn [exec]; intros H.
  - case_match; [done|]. injection H as <- <-. by rewrite app_nil_r.
  - repeat case_match; simplify_eq/=; by rewrite app_nil_r.
  - repeat case_match; simplify_eq/=; by rewrite ?(recorded_quiet (Accepted ∘ InputItem)), app_nil_r.
  - repeat case_match; simplify_eq/=; by rewrite ?(recorded_quiet (Accepted ∘ InputItem)), app_nil_r.
  - injection H as <- <-. by rewrite recorded_quiet, app_nil_r.
  - destruct (threads sys !! t) as [[|f fs]|]; [done| |done]. destruct (turn_states _ !! new); [done|]. destruct (step_frame _ _ _ _) as [[[[s' fs'] spawned] new_events]|] eqn:Es; [|done].
    apply step_frame_faithful in Es. cbn [faithful] in Es. repeat case_match; simplify_eq/=; done.
  - repeat case_match; simplify_eq/=. by rewrite app_nil_r.
  - repeat case_match; simplify_eq/=. by rewrite recorded_quiet, app_nil_r.
Qed.
(** *** What is lost stays lost *)
(** Nothing touches a turn state, or refers to it again, once nothing refers to it. *)
Definition leaves_alone (new : nat) (s : Session) (f : Frame) (r : result) : Prop :=
  let '(s', fs, spawned, _) := r in
  ∀ x, x ≠ new → x ∉ active_ref (shared s) → x ∉ refs_frame f →
    (x ∉ active_ref (shared s')) ∧ (x ∉ refs fs) ∧ (x ∉ refs (from_option snd [] spawned)) ∧ turn_states (shared s') !! x = turn_states (shared s) !! x.
(** The operations that change, of turn states, only those in a list. *)
Definition touches (l : list nat) (sh sh' : Shared) : Prop := active_turn sh' = active_turn sh ∧ ∀ x, x ∉ l → turn_states sh' !! x = turn_states sh !! x.
Lemma touches_set_state sh a t : touches [a] sh (set_state sh a t).
Proof using Type. split; [done|]. intros x Hx. cbn. apply lookup_insert_ne. set_solver. Qed.
Lemma touches_active sh at_ t : active_turn sh = Some at_ → touches (active_ref sh) sh (set_state sh (turn_state at_) t).
Proof using Type. unfold active_ref. intros ->. apply touches_set_state. Qed.
Lemma touches_take_turn sh l b sh' : take_turn_input sh = (l, b, sh') → touches (active_ref sh) sh sh'.
Proof using Type. unfold take_turn_input. destruct (active_turn sh) as [at_|] eqn:E; intros [= _ _ <-]; [by apply touches_active|done]. Qed.
Lemma touches_steer sh input expected id sh' : steer_input sh input expected = Ok (id, sh') → touches (active_ref sh) sh sh'.
Proof using Type. unfold steer_input. intros H. repeat (case_match; try discriminate H); injection H as _ <-; by apply touches_active. Qed.
Lemma touches_inject sh l sh' : inject_response_items sh l = Ok sh' → touches (active_ref sh) sh sh'.
Proof using Type. unfold inject_response_items. intros H. case_match; [|done]. injection H as <-. by apply touches_active. Qed.
Lemma touches_inject_urls sh l n limit sh' : inject_response_items_with_url_attachment_budget sh l n limit = Ok sh' → touches (active_ref sh) sh sh'.
Proof using Type. unfold inject_response_items_with_url_attachment_budget, reserve_url_attachments. intros H. destruct (active_turn sh) eqn:E; [|done]. destruct (_ <? _)%N; [done|]. injection H as <-. by apply touches_active. Qed.
Lemma touches_queue sh l : touches [] sh (queue_response_items_for_next_turn sh l).
Proof using Type. by destruct l. Qed.
Lemma touches_defer sh a : touches [a] sh (defer_mailbox_delivery sh a).
Proof using Type. unfold defer_mailbox_delivery. case_match; [apply touches_set_state|done]. Qed.
Lemma hook_and_record_shared s x stop contexts s' b events : hook_and_record s x stop contexts = (s', b, events) → shared s' = shared s.
Proof using Type. unfold hook_and_record. destruct (inspect_pending_input x stop contexts) as [[] cs]; by intros [= <- <- <-]. Qed.
Lemma sub_id_active sh sub turn : turn_state_for_sub_id sh sub = Some turn → active_ref sh = [turn].
Proof using Type. unfold turn_state_for_sub_id, active_ref. destruct (active_turn sh) as [at_|]; [|done]. cbn. case_match; [|done]. by intros [= <-]. Qed.
Lemma remove_task_active sh sub at_ empty : active_turn sh ≫= (λ a, remove_task a sub) = Some (at_, empty) → active_ref sh = [turn_state at_].
Proof using Type. unfold active_ref, remove_task. destruct (active_turn sh) as [a|]; [|done]. cbn. destruct (position _ _); [|done]. by intros [= <- _]. Qed.
Ltac alone :=
  repeat match goal with
  | H : hook_and_record _ _ _ _ = _ |- _ => apply hook_and_record_shared in H
  | H : take_turn_input _ = _ |- _ => apply touches_take_turn in H as [? ?]
  | H : steer_input _ _ _ = Ok _ |- _ => apply touches_steer in H as [? ?]
  | H : turn_state_for_sub_id _ _ = Some _ |- _ => apply sub_id_active in H
  | H : _ ≫= _ = Some (_, _) |- _ => apply remove_task_active in H
  | H : take_pending_input_for_turn_state _ _ = _ |- _ => injection H as _ <-
  | H : drain_mailbox_input_items _ _ = _ |- _ => injection H as _ <-
  | H : take_queued_response_items_for_next_turn _ = _ |- _ => injection H as _ <-
  end;
  cbn [leaves_alone]; intros x Hn Hx1 Hx2; unfold active_ref in *; cbn in *;
  repeat match goal with H : shared _ = shared _ |- _ => rewrite H in * end; repeat match goal with H : active_turn _ = _ |- _ => rewrite H in * end; cbn in *;
  split_and!; first [assumption|reflexivity|apply not_elem_of_nil|solve [auto]|congruence|rewrite lookup_insert_ne by set_solver; solve [auto]|set_solver].
Lemma step_frame_leaves_alone new s f a r : step_frame new s f a = Some r → leaves_alone new s f r.
Proof using Type.
  intros Hr. destruct f as [items sub|m sub|p input k sub|p sub|input|p sub|p sub|p|reason|id reason|reason turn aborted subs|reason turn aborted task rest]; cbn [step_frame] in Hr;
    try (destruct p); try (destruct a; try discriminate Hr); cbn [step_start step_run step_finish step_maybe step_goal] in Hr; unfold step_drain, step_wait, take_turn in Hr;
    repeat (case_match; try discriminate Hr); try discriminate Hr; injection Hr as <-; first [alone|destruct (touches_defer (shared s) turn); alone].
Qed.
Lemma elem_of_referred sys x : x ∈ referred sys ↔ x ∈ active_ref (shared (session sys)) ∨ ∃ t fs, threads sys !! t = Some fs ∧ x ∈ refs fs.
Proof using Type.
  unfold referred. rewrite elem_of_app, list_elem_of_bind. split; (intros [H|H]; [by left|right]).
  - destruct H as ([t fs] & Hx & Hin). apply elem_of_map_to_list in Hin. by exists t, fs.
  - destruct H as (t & fs & Hin & Hx). exists (t, fs). by rewrite elem_of_map_to_list.
Qed.
Lemma lost_mono P sys sys' :
  (∀ x t, turn_states (shared (session sys)) !! x = Some t → x ∉ referred sys → turn_states (shared (session sys')) !! x = Some t ∧ (x ∉ referred sys')) → lost P sys ≤ lost P sys'.
Proof using Type.
  intros H. apply total_subseteq, map_subseteq_spec. intros x t. rewrite !map_lookup_filter_Some. intros [Hx Hr]. by apply H.
Qed.
(** A step that refers to no more states, and leaves those that nothing refers to. *)
Lemma lost_touches P sys l sys' :
  touches l (shared (session sys)) (shared (session sys')) → (∀ x, x ∈ l → x ∈ referred sys) → (∀ t fs x, threads sys' !! t = Some fs → x ∈ refs fs → x ∈ referred sys) →
  lost P sys ≤ lost P sys'.
Proof using Type.
  intros [Ha Ht] Hl Hth. apply lost_mono. intros x t Hx Hr. rewrite Ht by auto. split; [done|]. rewrite elem_of_referred.
  unfold active_ref. rewrite Ha. intros [Hin|(t' & fs & Hin & Hf)]; [|by eapply Hr, Hth]. by apply Hr, elem_of_referred; left.
Qed.
Lemma referred_thread sys t fs x : threads sys !! t = Some fs → x ∈ refs fs → x ∈ referred sys.
Proof using Type. intros Ht Hx. apply elem_of_referred. right. by exists t, fs. Qed.
Lemma referred_active sys x : x ∈ active_ref (shared (session sys)) → x ∈ referred sys.
Proof using Type. intros Hx. apply elem_of_referred. by left. Qed.
#[local] Hint Resolve referred_thread referred_active : core.
Lemma exec_lost P c sys events sys' : exec c sys = Some (events, sys') → lost P sys ≤ lost P sys'.
Proof using Type.
  destruct c as [t call|items expected|items|items n limit|items|t new a|t|sub]; cbn [exec]; intros H.
  - destruct (threads sys !! _) eqn:E; [done|]. injection H as <- <-. apply (lost_touches P sys []); [done|set_solver|]. cbn [threads].
    intros t' fs x [[_ <-]|[_ Ht]]%lookup_insert_Some; [|by eauto]. destruct call; set_solver.
  - destruct (steer_input _ _ _) as [[id sh]| |] eqn:E; injection H as <- <-; [|done..]. apply touches_steer in E. by eapply lost_touches; eauto.
  - destruct (inject_response_items _ _) as [sh| |] eqn:E; injection H as <- <-; [|done..]. apply touches_inject in E. by eapply lost_touches; eauto.
  - destruct (inject_response_items_with_url_attachment_budget _ _ _ _) as [sh| |] eqn:E; injection H as <- <-; [|done..]. apply touches_inject_urls in E. by eapply lost_touches; eauto.
  - injection H as <- <-. eapply lost_touches; [apply touches_queue|set_solver|eauto].
  - destruct (threads sys !! t) as [[|f fs]|] eqn:Et; [done| |done]. destruct (turn_states _ !! new) eqn:En; [done|]. destruct (step_frame _ _ _ _) as [[[[s' fs'] spawned] new_events]|] eqn:Es; [|done].
    apply step_frame_leaves_alone in Es. cbn [leaves_alone] in Es. apply lost_mono. intros x u Hx Hr.
    destruct (Es x) as (Ha & Hf & Hsp & Hst); [congruence|auto|intros Hin; apply Hr; eapply referred_thread; [done|]; set_solver|].
    assert (∀ ths, (∀ t' fs0, ths !! t' = Some fs0 → x ∈ refs fs0 → fs0 = fs' ++ fs ∨ threads sys !! t' = Some fs0 ∨ x ∈ refs (from_option snd [] spawned)) →
      ∀ st, x ∉ referred (mk_system s' ths st)) as Hgo.
    { intros ths Hths st [Hin|(t' & fs0 & Hin & Hf0)]%elem_of_referred; [done|]. destruct (Hths _ _ Hin Hf0) as [->|[Ho|Ho]]; [|by eauto|done].
      unfold refs in Hf0. rewrite bind_app, elem_of_app in Hf0. destruct Hf0 as [?|?]; [done|]. apply Hr. eapply referred_thread; [exact Et|]. set_solver. }
    destruct spawned as [[sub task]|].
    + destruct (bool_decide _); [done|]. destruct (threads sys !! inr sub) eqn:Esub; [done|]. injection H as <- <-. cbn [session]. split; [congruence|]. apply Hgo.
      intros t' fs0 [[_ <-]|[_ [[_ <-]|[_ ?]]%lookup_insert_Some]]%lookup_insert_Some; auto.
    + injection H as <- <-. cbn [session]. split; [congruence|]. apply Hgo. intros t' fs0 [[_ <-]|[_ ?]]%lookup_insert_Some; auto.
  - destruct (threads sys !! t) as [[|f fs]|] eqn:Et; [|done..]. injection H as <- <-. apply (lost_touches P sys []); [done|set_solver|]. cbn [threads]. intros t' fs x [_ ?]%lookup_delete_Some; eauto.
  - destruct (threads sys !! inr sub) as [fs|] eqn:Et; [|done]. destruct (bool_decide _); [|done]. injection H as <- <-. apply (lost_touches P sys []); [done|set_solver|]. cbn [threads]. intros t' fs0 x [_ ?]%lookup_delete_Some; eauto.
Qed.
(** C9: no input of a session is counted twice or slips away unnoticed ([InputQueue], [start_task], [run_turn], [on_task_finished],
    [abort_all_tasks]), however the turns, their ends, interrupts, steering, mail and injected items interleave: at any time,
    for any class of inputs, as many were accepted as are waiting, in the hands of a routine, recorded, blocked by a hook,
    dropped because their turn was aborted or stopped before they were looked at, or lost; and what was recorded is what the
    history has, in order. Waiting is what is in the mailbox, in the queue for the next turn, or in a turn state that the active
    turn or a routine still refers to; lost is what was left in a turn state that nothing refers to any more. That happens
    ([injected_items_are_lost], [steered_input_is_stolen]), and what is lost is never taken again. *)
Theorem inputs_are_accounted_for events sys P : run events sys →
  tally P (accepted events) = waiting P sys + in_hand P (threads sys) + tally P (recorded events) + tally P (blocked_by_hooks events) + tally P (dropped events) + lost P sys ∧
  recorded_inputs (history (session sys)) = recorded events ∧
  (∀ c new sys', exec c sys = Some (new, sys') → lost P sys ≤ lost P sys').
Proof using Type.
  intros Hr. split_and!; [pose proof (run_balanced P _ _ Hr) as H; unfold stock, gone in H; rewrite kept_waiting_lost in H; lia| |intros c new sys'; apply exec_lost].
  induction Hr as [|events sys c new sys' _ IH Hs]; [done|]. apply exec_faithful in Hs. destruct (events_app events new) as (-> & _). by rewrite Hs, IH.
Qed.
End turns.

(** ** Runs *)
Module Example_turns.
Definition json (m : InterAgentCommunication) : option rstring := Some (mail_content m).
Definition steps (t : nat + rstring) (from : nat) (answers : list Answer) : list (Choice (UserInput:=N)) := imap (λ i a, ByThread t (from + i) a) answers.
Definition agent (path : string) : AgentPath.AgentPath := AgentPath.mk_agent_path (lit path).
Definition mail : InterAgentCommunication := mk_mail (agent "/root/a") (agent "/root") [] (lit "done") true.
Definition note : ResponseInputItem := InMessage (lit "developer") [ResponseItem.InputText (lit "note")] None.
(** A user's prompt starts a task. *)
Definition start (t from : nat) (prompt : N) (sub_id : rstring) : list (Choice (UserInput:=N)) := ByCall t (CallUser [prompt] sub_id) :: steps (inl t) from (replicate 8 ANone).
(** It is recorded, answered by one request, and the task ends. *)
Definition answered (sub_id : rstring) (from : nat) : list (Choice (UserInput:=N)) :=
  steps (inr sub_id) from [ABool true; ABool true; AHook false []; ANone; ANone; ANone; ASampling (Finished false); ANone; ANone; ACompact false true; AStop false; ANone; ANone].
Definition finished (sub_id : rstring) (from : nat) : list (Choice (UserInput:=N)) :=
  steps (inr sub_id) from [ANone; ANone; ANone; ANone; ASub (lit "next"); ANone; ANone; AGoal None] ++ [ByExit (inr sub_id)].
Definition final (cs : list (Choice (UserInput:=N))) : list Event * System := default ([], initial) (exec_all json cs [] initial).
Definition possible (cs : list (Choice (UserInput:=N))) : bool := if exec_all json cs [] initial is Some _ then true else false.
Lemma possible_run cs : possible cs = true → run json (final cs).1 (final cs).2.
Proof.
  unfold possible, final. destruct (exec_all json cs [] initial) as [[events sys]|] eqn:E; [|done]. intros _. eapply exec_all_run; [apply run_initial|exact E].
Qed.
Definition whole : list (Choice (UserInput:=N)) := start 0 0 7 (lit "a") ++ [ByExit (inl 0)] ++ answered (lit "a") 20 ++ finished (lit "a") 40.
End Example_turns.
Import Example_turns.
Lemma inputs_are_accounted_for_witness : recorded (final whole).1 = [InputUser [7%N]] ∧ tally (λ _, true) (accepted (final whole).1) = 1 ∧
  recorded_inputs (history (session (final whole).2)) = recorded (final whole).1.
Proof.
  assert (possible whole = true) as Hp by (vm_compute; reflexivity). destruct (inputs_are_accounted_for json _ _ (λ _, true) (possible_run whole Hp)) as (Ha & Hh & _).
  split; [vm_compute; reflexivity|]. split; [|exact Hh]. rewrite Ha. vm_compute. reflexivity.
Defined.
(** What is injected after the last input of a turn was taken, and before the turn is cleared, is accepted and never seen again. *)
Definition injected_late : list (Choice (UserInput:=N)) :=
  start 0 0 7 (lit "a") ++ [ByExit (inl 0)] ++ answered (lit "a") 20 ++ steps (inr (lit "a")) 40 [ANone; ANone; ANone] ++ [ByInject [note]]
  ++ steps (inr (lit "a")) 50 [ANone; ASub (lit "next"); ANone; ANone; AGoal None] ++ [ByExit (inr (lit "a"))].
Example injected_items_are_lost :
  possible injected_late = true ∧ accepted (final injected_late).1 = [InputUser [7%N]; InputItem note] ∧ recorded (final injected_late).1 = [InputUser [7%N]] ∧
  threads (final injected_late).2 = ∅ ∧ active_turn (shared (session (final injected_late).2)) = None ∧
  waiting json (λ _, true) (final injected_late).2 = 0 ∧ lost (λ _, true) (final injected_late).2 = 1.
Proof. vm_compute. done. Qed.
(** A turn that mail has reserved and a turn of the user start together: two tasks run in one turn. *)
Definition both : list (Choice (UserInput:=N)) :=
  ByCall 0 (CallMail mail (lit "m")) :: steps (inl 0) 0 [ANone; ANone; ANone; ANone] ++
  ByCall 1 (CallUser [7%N] (lit "a")) :: steps (inl 1) 10 (ANone :: ANone :: ASub (lit "x") :: replicate 6 ANone).
Example two_tasks_at_once :
  possible (both ++ steps (inl 0) 20 (replicate 6 ANone)) = true ∧
  (λ t, (tasks t).*1) <$> active_turn (shared (session (final (both ++ steps (inl 0) 20 (replicate 6 ANone))).2)) = Some [lit "a"; lit "m"].
Proof. vm_compute. done. Qed.
(** The other start can even take what the user steers into the first turn to a turn state that nothing refers to any more. *)
Definition stolen : list (Choice (UserInput:=N)) :=
  both ++ [BySteer [8%N] None] ++ steps (inl 0) 20 [ANone; ANone; ANone; ANone] ++ answered (lit "a") 40 ++ finished (lit "a") 60
  ++ steps (inl 0) 80 [ANone; ANone] ++ [ByExit (inl 0); ByExit (inl 1)]
  ++ steps (inr (lit "m")) 100 [ABool true; ABool true; ANone; ANone; ANone; ANone; ASampling (Finished false); ANone; ANone; ACompact false true; AStop false; ANone; ANone] ++ finished (lit "m") 120.
Example steered_input_is_stolen :
  possible stolen = true ∧ threads (final stolen).2 = ∅ ∧ existsb (λ x, if x is InputUser [8%N] then true else false) (accepted (final stolen).1) = true ∧
  existsb (λ x, if x is InputUser [8%N] then true else false) (recorded (final stolen).1 ++ dropped (final stolen).1 ++ blocked_by_hooks (final stolen).1) = false ∧
  lost (λ x, if x is InputUser [8%N] then true else false) (final stolen).2 = 1.
Proof. vm_compute. done. Qed.
(** Mail that asks for a turn, while a goal has reserved one that is then given up, is left alone. *)
Definition asleep : list (Choice (UserInput:=N)) :=
  ByCall 0 CallGoal :: steps (inl 0) 0 [AGoal (Some [note]); ANone] ++ ByCall 1 (CallMail mail (lit "m")) :: steps (inl 1) 10 [ANone; ANone; ANone; ANone]
  ++ steps (inl 0) 20 [ABool false; ANone] ++ [ByExit (inl 0); ByExit (inl 1)].
Example trigger_mail_sleeps :
  possible asleep = true ∧ threads (final asleep).2 = ∅ ∧ active_turn (shared (session (final asleep).2)) = None ∧ has_trigger_turn_mailbox_items (shared (session (final asleep).2)) = true.
Proof. vm_compute. done. Qed.
(** As long as compaction fails before the turn and input is pending, the task goes round without doing anything. *)
Definition failing : list (Choice (UserInput:=N)) := start 0 0 7 (lit "a") ++ steps (inr (lit "a")) 20 [ABool true; ABool false] ++ ByCall 1 (CallMail mail (lit "m")) :: steps (inl 1) 30 [ANone].
Example failing_compaction_spins :
  possible failing = true ∧ dropped (final failing).1 = [InputUser [7%N]] ∧ recorded (final failing).1 = [] ∧
  let round := steps (inr (lit "a")) 40 [ANone; ANone; ABool false] in
  option_map (λ r, (r.1, map_to_list (threads r.2), session r.2)) (exec_all json round [] (final failing).2) =
    Some ([], map_to_list (threads (final failing).2), session (final failing).2).
Proof. vm_compute. done. Qed.
