(* ===== verification/SessionSteering.v ===== *)
(** * What the user steers into a turn is not lost ([core/src/tasks/mod.rs], [core/src/session/turn.rs])

    As long as turns are started one at a time, which the code expects ([debug_assert!(turn.tasks.is_empty())]), a session has
    one task, and input of the user that was accepted is recorded unless a hook blocks it, or its turn is aborted or stops. *)
From S2P Require Import Prelude RustStr InputQueue SessionTurns.

Section steering.
Context {UserInput : Type} (to_string : InterAgentCommunication → option rstring).
#[local] Abbreviation TurnInput := (TurnInput (UserInput:=UserInput)).
#[local] Abbreviation Shared := (Shared (UserInput:=UserInput)).
#[local] Abbreviation Session := (Session (UserInput:=UserInput)).
#[local] Abbreviation Frame := (Frame (UserInput:=UserInput)).
#[local] Abbreviation System := (System (UserInput:=UserInput)).
#[local] Abbreviation Event := (Event (UserInput:=UserInput)).
#[local] Abbreviation ThreadId := (nat + rstring)%type.
#[local] Abbreviation step_frame := (step_frame (UserInput:=UserInput) to_string).
#[local] Abbreviation exec := (exec (UserInput:=UserInput) to_string).

(** ** Turns that start one at a time *)
Definition is_user (x : TurnInput) : bool := if x is InputUser _ then true else false.
Definition starting_frame (f : Frame) : bool := match f with FStart _ _ _ _ | FGoal (StillCurrent _ _) | FGoal (StillReserved _) => true | _ => false end.
Definition starting (fs : list Frame) : bool := existsb starting_frame fs.
Definition one_start (sys : System) : Prop :=
  ∀ t1 t2 fs1 fs2, threads sys !! t1 = Some fs1 → threads sys !! t2 = Some fs2 → starting fs1 = true → starting fs2 = true → t1 = t2.
Inductive serial_run : list Event → System → Prop :=
| serial_initial : serial_run [] initial
| serial_step events sys c new sys' : serial_run events sys → exec c sys = Some (new, sys') → one_start sys' → serial_run (events ++ new) sys'.
Lemma serial_run_run events sys : serial_run events sys → run to_string events sys.
Proof using Type. induction 1; [constructor|by eapply run_step]. Qed.

Definition starts_one (sys : System) : bool := bool_decide (length (List.filter (λ e : ThreadId * list Frame, starting e.2) (map_to_list (threads sys))) ≤ 1).
Lemma starts_one_spec sys : starts_one sys = true → one_start sys.
Proof using Type.
  intros H%bool_decide_eq_true t1 t2 fs1 fs2 H1 H2 S1 S2. apply elem_of_map_to_list in H1, H2.
  assert (∀ e, e ∈ map_to_list (threads sys) → starting e.2 = true → e ∈ List.filter (λ e : ThreadId * list Frame, starting e.2) (map_to_list (threads sys))) as Hin
    by (intros e He Hs; apply list_elem_of_In, filter_In; split; [by apply list_elem_of_In|done]).
  apply Hin in H1; [|done]. apply Hin in H2; [|done]. destruct (List.filter _ _) as [|e [|]]; cbn in H; [by apply not_elem_of_nil in H1| |lia].
  apply list_elem_of_singleton in H1, H2. congruence.
Qed.
Fixpoint exec_serial (cs : list Choice) (events : list Event) (sys : System) : option (list Event * System) :=
  match cs with
  | [] => Some (events, sys)
  | c :: cs => match exec c sys with Some (new, sys) => if starts_one sys then exec_serial cs (events ++ new) sys else None | None => None end
  end.
Lemma exec_serial_run cs : ∀ events sys events' sys', serial_run events sys → exec_serial cs events sys = Some (events', sys') → serial_run events' sys'.
Proof using Type.
  induction cs as [|c cs IH]; intros events sys events' sys' Hr; cbn; [by intros [= <- <-]|]. destruct (exec c sys) as [[new sys1]|] eqn:E; [|done].
  destruct (starts_one sys1) eqn:Eo; [|done]. apply IH. eapply serial_step; [done..|]. by apply starts_one_spec.
Qed.

(** ** The stacks there are *)
(** A caller: one frame, or an abort followed by a start. A task: the run, then its end; then the checks for more work. *)
Definition shape (t : ThreadId) (fs : list Frame) : bool :=
  match t, fs with
  | _, [] => true
  | inl _, [f] => match f with FRun _ _ | FOther _ | FFinish _ _ => false | _ => true end
  | inl _, [(FAbortAll Replaced | FDrain Replaced _ _ _ | FWait Replaced _ _ _ _); FStart TakeQueued _ _ _] => true
  | inr sub, [FRun _ sub'; FFinish Flush sub''] => bool_decide (sub' = sub) && bool_decide (sub'' = sub)
  | inr sub, [FOther _; FFinish Flush sub'] => bool_decide (sub' = sub)
  | inr sub, [FFinish _ sub'] => bool_decide (sub' = sub)
  | inr _, [(FMaybe _ _ | FStart _ _ _ _); FGoal Candidate] => true
  | inr _, [(FMaybe _ _ | FStart _ _ _ _ | FGoal _)] => true
  | _, _ => false
  end.
(** The stack of a task that has not ended its turn; of one that is to take the rest of its turn's input. *)
Definition running (sub : rstring) (fs : list Frame) : bool :=
  match fs with [_; FFinish Flush sub'] | [FFinish (Flush | Remove) sub'] => bool_decide (sub' = sub) | _ => false end.
Definition resting (fs : list Frame) : bool := match fs with FFinish (TakeRest _) _ :: _ => true | _ => false end.
(** What is left of the turn state [a] is recorded, or cleared. *)
Definition owes (a : nat) (fs : list Frame) : bool :=
  match fs with FFinish (TakeRest b) _ :: _ | FDrain _ b true _ :: _ | FWait _ b true _ _ :: _ => bool_decide (b = a) | _ => false end.
Definition draining (fs : list Frame) : list rstring :=
  match fs with FDrain _ _ _ subs :: _ => subs | FWait _ _ _ task subs :: _ => task :: subs | _ => [] end.
(** A start that has aborted what was there. *)
Definition past_abort (fs : list Frame) : bool := match fs with FAbortAll _ :: _ => false | _ => starting fs end.
Definition no_user (l : list TurnInput) : bool := negb (existsb is_user l).
Definition clean (fs : list Frame) : bool :=
  match fs with FStart (DrainMail _ pending) _ _ _ :: _ => no_user pending | FStart (Install items | Extend _ items) _ _ _ :: _ => no_user items | _ => true end.
Definition user_waits (sh : Shared) (a : nat) : bool := existsb is_user (pending_input (state_at sh a)).
Definition active_at (sh : Shared) (a : nat) : Prop := ∃ at_, active_turn sh = Some at_ ∧ turn_state at_ = a ∧ tasks at_ ≠ [].
Definition active_task (sh : Shared) (sub : rstring) : Prop := ∃ at_, active_turn sh = Some at_ ∧ sub ∈ (tasks at_).*1.
Definition drained (sys : System) (sub : rstring) : Prop :=
  sub ∈ cancelled (session sys) ∨ sub ∈ killed (session sys) ∨ ∃ t fs, threads sys !! t = Some fs ∧ sub ∈ draining fs.

(** ** The invariant *)
Record Steady (sys : System) : Prop := {
  steady_shape t fs : threads sys !! t = Some fs → shape t fs = true;
  steady_clean t fs : threads sys !! t = Some fs → clean fs = true;
  steady_started sub fs : threads sys !! inr sub = Some fs → sub ∈ started sys;
  steady_drained sub : drained sys sub → sub ∈ started sys;
  steady_one at_ : active_turn (shared (session sys)) = Some at_ → length (tasks at_) ≤ 1;
  steady_live sub : active_task (shared (session sys)) sub → ¬ drained sys sub ∧ ∃ fs, threads sys !! inr sub = Some fs ∧ running sub fs = true;
  steady_rest sub fs : threads sys !! inr sub = Some fs → resting fs = true → ¬ drained sys sub;
  steady_start t fs at_ : threads sys !! t = Some fs → past_abort fs = true → active_turn (shared (session sys)) = Some at_ →
    tasks at_ = [] ∧ user_waits (shared (session sys)) (turn_state at_) = false;
  steady_owned a : user_waits (shared (session sys)) a = true → active_at (shared (session sys)) a ∨ ∃ t fs, threads sys !! t = Some fs ∧ owes a fs = true }.
(** What one step of a routine owes to the invariant: the stack [old] becomes [new]. *)
Record LocalStep (t : ThreadId) (s s' : Session) (old new : list Frame) (spawned : option (rstring * list Frame)) : Prop := {
  local_shape : shape t new = true;
  local_clean : clean new = true;
  local_spawned sub task : spawned = Some (sub, task) → shape (inr sub) task = true ∧ clean task = true ∧ starting task = false ∧ draining task = [] ∧ resting task = false ∧ running sub task = true;
  local_tasks at_ : active_turn (shared s') = Some at_ → tasks at_ = []
    ∨ active_turn (shared s) = Some at_ ∧ (∀ sub, t = inr sub → active_task (shared s) sub → running sub old = true → running sub new = true)
    ∨ ∃ sub task k, spawned = Some (sub, task) ∧ tasks at_ = [(sub, k)];
  local_drained sub : sub ∈ cancelled s' ∨ sub ∈ killed s' ∨ sub ∈ draining new → (sub ∈ cancelled s ∨ sub ∈ killed s ∨ sub ∈ draining old)
    ∨ active_task (shared s) sub ∧ active_turn (shared s') = None ∧ resting new = false;
  local_rest sub : t = inr sub → resting new = true → active_task (shared s) sub;
  local_self at_ : past_abort new = true → active_turn (shared s') = Some at_ → tasks at_ = [] ∧ user_waits (shared s') (turn_state at_) = false;
  local_others : starting old = true ∨ starting new = true ∨ (∃ a, active_at (shared s) a) ∨
    ∀ at_, active_turn (shared s') = Some at_ → active_turn (shared s) = Some at_ ∧ (user_waits (shared s') (turn_state at_) = true → user_waits (shared s) (turn_state at_) = true);
  local_waits a : user_waits (shared s') a = true → user_waits (shared s) a = true ∨ active_at (shared s') a;
  local_hand a : user_waits (shared s') a = true → active_at (shared s) a → active_at (shared s') a ∨ owes a new = true;
  local_owes a : user_waits (shared s') a = true → owes a old = true → owes a new = true }.

(** ** One step of a routine *)
Section step.
Context (sys : System) (t : ThreadId) (old new : list Frame) (s' : Session) (spawned : option (rstring * list Frame)).
Definition after : System :=
  match spawned with
  | Some (sub, task) => mk_system s' (<[inr sub := task]> (<[t := new]> (threads sys))) ({[sub]} ∪ started sys)
  | None => mk_system s' (<[t := new]> (threads sys)) (started sys)
  end.
Context (Hsys : Steady sys) (Ht : threads sys !! t = Some old) (Hl : LocalStep t (session sys) s' old new spawned).
Context (Hone : one_start sys) (Hone' : one_start after).
Context (Hfresh : ∀ sub task, spawned = Some (sub, task) → sub ∉ started sys).
Lemma after_threads t' fs : threads after !! t' = Some fs →
  (t' = t ∧ fs = new) ∨ (t' ≠ t ∧ threads sys !! t' = Some fs) ∨ ∃ sub, spawned = Some (sub, fs) ∧ t' = inr sub.
Proof using All.
  unfold after. destruct spawned as [[sub task]|] eqn:Es; cbn [threads]; intros H.
  - apply lookup_insert_Some in H as [[<- <-]|[_ H]]; [eauto|]. apply lookup_insert_Some in H as [[<- <-]|[Hn H]]; auto.
  - apply lookup_insert_Some in H as [[<- <-]|[Hn H]]; auto.
Qed.
Lemma after_self : threads after !! t = Some new.
Proof using All.
  unfold after. destruct spawned as [[sub task]|] eqn:Es; cbn [threads]; [|by rewrite lookup_insert_eq]. rewrite lookup_insert_ne, lookup_insert_eq; [done|].
  intros <-. by destruct (Hfresh sub task); [|eapply steady_started].
Qed.
Lemma after_other t' fs : t' ≠ t → threads sys !! t' = Some fs → threads after !! t' = Some fs.
Proof using All.
  unfold after. intros Hn Hl'. destruct spawned as [[sub task]|] eqn:Es; cbn [threads]; rewrite !lookup_insert_ne; try done.
  intros <-. by destruct (Hfresh sub task); [|eapply steady_started].
Qed.
Lemma after_session : session after = s'.
Proof using All. unfold after. by destruct spawned as [[sub task]|]. Qed.
Lemma after_started sub : sub ∈ started sys → sub ∈ started after.
Proof using All. unfold after. destruct spawned as [[sub' task]|]; cbn [started]; set_solver. Qed.
Lemma after_drained sub : drained after sub →
  drained sys sub ∨ active_task (shared (session sys)) sub ∧ active_turn (shared s') = None ∧ resting new = false.
Proof using All.
  intros Hd. assert (sub ∈ cancelled s' ∨ sub ∈ killed s' ∨ sub ∈ draining new ∨ ∃ t fs, threads sys !! t = Some fs ∧ sub ∈ draining fs) as Hc.
  { unfold drained in Hd. rewrite after_session in Hd. destruct Hd as [H|[H|(t' & fs & H & Hin)]]; [auto..|]. apply after_threads in H as [[-> ->]|[[_ H]|(sub' & H & ->)]]; [auto|by do 3 right; exists t', fs|].
    destruct (local_spawned _ _ _ _ _ _ Hl _ _ H) as (_ & _ & _ & E & _). rewrite E in Hin. by apply not_elem_of_nil in Hin. }
  assert (sub ∈ cancelled (session sys) ∨ sub ∈ killed (session sys) ∨ sub ∈ draining old → drained sys sub) as Hs by (unfold drained; intros [|[|]]; eauto 6).
  destruct Hc as [H|[H|[H|H]]]; [| | |left; by right; right].
  all: destruct (local_drained _ _ _ _ _ _ Hl sub) as [|]; auto.
Qed.
Lemma after_live sub : active_task (shared s') sub → ¬ drained after sub ∧ ∃ fs, threads after !! inr sub = Some fs ∧ running sub fs = true.
Proof using All.
  intros (at_ & Ha & Hin). destruct (local_tasks _ _ _ _ _ _ Hl _ Ha) as [E|[[Ha' Hr]|(sub' & task & k & Hs & E)]].
  - rewrite E in Hin. by apply not_elem_of_nil in Hin.
  - assert (active_task (shared (session sys)) sub) as Hat by (by exists at_). destruct (steady_live _ Hsys sub Hat) as (Hnd & fs & Hfs & Hrun). split.
    + intros Hd. apply after_drained in Hd as [Hd|(_ & Hn & _)]; [done|congruence].
    + destruct (decide (inr sub = t)) as [E|Hn]; [|exists fs; split; [by apply after_other|done]].
      exists new. rewrite E in *. split; [apply after_self|]. apply (Hr sub); [done|done|congruence].
  - rewrite E in Hin. apply list_elem_of_singleton in Hin as ->. split.
    + intros Hd. apply after_drained in Hd as [Hd|(_ & Hn & _)]; [|congruence]. apply (Hfresh _ _ Hs). by apply steady_drained.
    + exists task. split; [|by eapply local_spawned]. unfold after. rewrite Hs. cbn [threads]. by rewrite lookup_insert_eq.
Qed.
Lemma after_rest sub fs : threads after !! inr sub = Some fs → resting fs = true → ¬ drained after sub.
Proof using All.
  intros Hfs Hr Hd. apply after_drained in Hd. apply after_threads in Hfs as [[E ->]|[[_ Hfs]|(sub' & Hs & E)]].
  - pose proof (local_rest _ _ _ _ _ _ Hl sub (eq_sym E) Hr) as Hat. destruct Hd as [Hd|(_ & _ & Hd)]; [by apply (steady_live _ Hsys sub)|congruence].
  - destruct Hd as [Hd|(Hat & _ & _)]; [by eapply steady_rest|]. destruct (steady_live _ Hsys sub Hat) as (_ & fs' & Hfs' & Hrun). rewrite Hfs in Hfs'. injection Hfs' as <-.
    pose proof (steady_shape _ Hsys _ _ Hfs) as Hsh. destruct fs as [|[] [|g fs]]; try done; destruct p; done.
  - destruct (local_spawned _ _ _ _ _ _ Hl _ _ Hs) as (_ & _ & _ & _ & H & _). congruence.
Qed.
Lemma past_abort_starting fs : past_abort fs = true → starting fs = true.
Proof using All. by destruct fs as [|[] fs]. Qed.
Lemma after_start t' fs at_ : threads after !! t' = Some fs → past_abort fs = true → active_turn (shared s') = Some at_ →
  tasks at_ = [] ∧ user_waits (shared s') (turn_state at_) = false.
Proof using All.
  intros Hfs Hp Ha. apply after_threads in Hfs as [[-> ->]|[[Hn Hfs]|(sub & Hs & ->)]].
  - by eapply local_self.
  - pose proof (past_abort_starting _ Hp) as Hst. destruct (local_others _ _ _ _ _ _ Hl) as [H|[H|[(a & at0 & Ha0 & <- & Hne)|H]]].
    + by case Hn; apply (Hone _ _ _ _ Hfs Ht Hst H).
    + by case Hn; apply (Hone' _ _ _ _ (after_other _ _ Hn Hfs) after_self Hst H).
    + by destruct (steady_start _ Hsys _ _ _ Hfs Hp Ha0).
    + destruct (H _ Ha) as [Ha0 Hw]. destruct (steady_start _ Hsys _ _ _ Hfs Hp Ha0) as [? E]. split; [done|]. apply not_true_is_false. intros Hu. apply Hw in Hu. congruence.
  - destruct (local_spawned _ _ _ _ _ _ Hl _ _ Hs) as (_ & _ & H & _). apply past_abort_starting in Hp. congruence.
Qed.
Lemma after_owned a : user_waits (shared s') a = true → active_at (shared s') a ∨ ∃ t fs, threads after !! t = Some fs ∧ owes a fs = true.
Proof using All.
  intros Hu. destruct (local_waits _ _ _ _ _ _ Hl a Hu) as [Hu0|]; [|by left]. destruct (steady_owned _ Hsys a Hu0) as [Ha|(t' & fs & Hfs & Ho)].
  - destruct (local_hand _ _ _ _ _ _ Hl a Hu Ha) as [|Ho]; [by left|]. right. exists t, new. by split; [apply after_self|].
  - right. destruct (decide (t' = t)) as [->|Hn]; [|exists t', fs; by split; [apply after_other|]].
    rewrite Ht in Hfs. injection Hfs as <-. exists t, new. by split; [apply after_self|eapply local_owes].
Qed.
Lemma steady_after : Steady after.
Proof using All.
  split.
  - intros t' fs Hfs. apply after_threads in Hfs as [[-> ->]|[[_ Hfs]|(sub & Hs & ->)]]; [by eapply local_shape|by eapply steady_shape|by eapply local_spawned].
  - intros t' fs Hfs. apply after_threads in Hfs as [[-> ->]|[[_ Hfs]|(sub & Hs & ->)]]; [by eapply local_clean|by eapply steady_clean|by eapply local_spawned].
  - intros sub fs Hfs. apply after_threads in Hfs as [[E ->]|[[_ Hfs]|(sub' & Hs & [= ->])]]; [apply after_started; rewrite <- E in Ht; by eapply steady_started|by eapply after_started, steady_started|].
    unfold after. rewrite Hs. cbn [started]. set_solver.
  - intros sub Hd. apply after_started. apply after_drained in Hd as [Hd|[Ha _]]; [by apply steady_drained|]. destruct (steady_live _ Hsys sub Ha) as (_ & fs & Hfs & _). by eapply steady_started.
  - intros at_. rewrite after_session. intros Ha. destruct (local_tasks _ _ _ _ _ _ Hl _ Ha) as [->|[[Ha' _]|(sub & task & k & _ & ->)]]; [cbn; lia|by eapply steady_one|done].
  - rewrite after_session. apply after_live.
  - apply after_rest.
  - rewrite after_session. apply after_start.
  - rewrite after_session. apply after_owned.
Qed.
End step.

(** ** Input of the user in the store *)
Lemma no_user_items l : existsb is_user (map InputItem l) = false.
Proof using Type. by induction l. Qed.
Lemma user_waits_set sh a t b : user_waits (set_state sh a t) b = if decide (b = a) then existsb is_user (pending_input t) else user_waits sh b.
Proof using Type.
  unfold user_waits, state_at, set_state. cbn [turn_states]. destruct (decide (b = a)) as [->|Hn]; [by rewrite lookup_insert_eq|by rewrite lookup_insert_ne].
Qed.
Lemma user_waits_same sh a t b : pending_input t = pending_input (state_at sh a) → user_waits (set_state sh a t) b = user_waits sh b.
Proof using Type. intros H. rewrite user_waits_set. destruct (decide (b = a)) as [->|]; [by rewrite H|done]. Qed.
Lemma user_waits_extend sh a l b : user_waits (extend_pending_input_for_turn_state sh a l) b = user_waits sh b || bool_decide (b = a) && existsb is_user l.
Proof using Type.
  unfold extend_pending_input_for_turn_state. rewrite user_waits_set. case_bool_decide as E; destruct (decide (b = a)); try done; [subst; cbn; apply existsb_app|by rewrite orb_false_r].
Qed.
Lemma user_waits_extend_no_user sh a l b : existsb is_user l = false → user_waits (extend_pending_input_for_turn_state sh a l) b = user_waits sh b.
Proof using Type. intros H. by rewrite user_waits_extend, H, andb_false_r, orb_false_r. Qed.
Lemma user_waits_take sh a l sh' : take_pending_input_for_turn_state sh a = (l, sh') →
  active_turn sh' = active_turn sh ∧ existsb is_user l = user_waits sh a ∧ ∀ b, user_waits sh' b = if decide (b = a) then false else user_waits sh b.
Proof using Type. intros [= <- <-]. split_and!; [done..|]. intros b. rewrite user_waits_set. by destruct (decide (b = a)). Qed.
Lemma user_waits_take_turn sh l c sh' : take_turn_input sh = (l, c, sh') →
  active_turn sh' = active_turn sh ∧ (∀ b, user_waits sh' b = true → user_waits sh b = true) ∧
  ((∀ at_, active_turn sh = Some at_ → user_waits sh (turn_state at_) = false) → no_user l = true).
Proof using Type.
  unfold take_turn_input. destruct (active_turn sh) as [at_|] eqn:Ha; [|by intros [= <- _ <-]]. destruct (take_pending_input_for_turn_state sh (turn_state at_)) as [l' sh1] eqn:E. intros [= <- _ <-].
  apply user_waits_take in E as (-> & El & Eb). split_and!; [done| |].
  - intros b. rewrite Eb. by destruct (decide _).
  - intros H. unfold no_user. by rewrite El, (H _ eq_refl).
Qed.
Lemma user_waits_reserve s new b : turn_states (shared s) !! new = None → user_waits (shared (reserve s new)) b = user_waits (shared s) b.
Proof using Type.
  intros Hn. cbn [reserve shared with_shared]. rewrite user_waits_set. destruct (decide (b = new)) as [->|]; [|done]. unfold user_waits, state_at. by rewrite Hn.
Qed.
Lemma user_waits_fresh sh new : turn_states sh !! new = None → user_waits sh new = false.
Proof using Type. intros Hn. unfold user_waits, state_at. by rewrite Hn. Qed.
Lemma user_waits_clear sh a b : user_waits (clear_pending sh a) b = if decide (b = a) then false else user_waits sh b.
Proof using Type. unfold clear_pending. rewrite user_waits_set. by destruct (decide (b = a)). Qed.
Lemma user_waits_defer sh a b : user_waits (defer_mailbox_delivery sh a) b = user_waits sh b.
Proof using Type. unfold defer_mailbox_delivery. destruct (pending_input (state_at sh a)) eqn:E; [|done]. by apply user_waits_same. Qed.
Lemma user_waits_steer sh input expected id sh' : steer_input sh input expected = Ok (id, sh') →
  active_turn sh' = active_turn sh ∧ ∀ b, user_waits sh' b = true → user_waits sh b = true ∨ active_at sh' b.
Proof using Type.
  unfold steer_input. destruct (active_turn sh) as [at_|] eqn:Ha; [|done]. destruct (tasks at_) as [|[id' task] rest] eqn:Et; [done|]. destruct (match expected with Some _ => _ | None => None end); [done|].
  destruct (kind task); [|done..]. destruct input as [|x input]; [done|]. intros [= _ <-]. split; [by rewrite <- Ha|]. intros b. unfold push_pending_input_and_accept_mailbox_delivery_for_turn_state.
  rewrite user_waits_set. destruct (decide (b = turn_state at_)) as [->|]; [|by left]. intros _. right. exists at_. by rewrite Et.
Qed.

(** ** A step keeps to it *)
(** What the invariant says to one routine. *)
Record Ready (t : ThreadId) (s : Session) (old : list Frame) : Prop := {
  ready_shape : shape t old = true;
  ready_clean : clean old = true;
  ready_one at_ : active_turn (shared s) = Some at_ → length (tasks at_) ≤ 1;
  ready_live sub : active_task (shared s) sub → sub ∉ cancelled s;
  ready_start at_ : past_abort old = true → active_turn (shared s) = Some at_ → tasks at_ = [] ∧ user_waits (shared s) (turn_state at_) = false }.
(** Steps that leave the active turn alone. *)
Lemma quiet_step t s s' old new : Ready t s old →
  shape t new = true → clean new = true → active_turn (shared s') = active_turn (shared s) →
  (∀ a, user_waits (shared s') a = true → user_waits (shared s) a = true ∨ active_at (shared s') a) →
  (∀ sub, sub ∈ cancelled s' ∨ sub ∈ killed s' ∨ sub ∈ draining new → sub ∈ cancelled s ∨ sub ∈ killed s ∨ sub ∈ draining old) →
  (∀ sub, t = inr sub → active_task (shared s) sub → running sub old = true → running sub new = true) → resting new = false → (past_abort new = true → past_abort old = true) →
  (∀ a, user_waits (shared s') a = true → owes a old = true → owes a new = true) → LocalStep t s s' old new None.
Proof using Type.
  intros Hready H1 H2 Ha Hu Hd Hr Hrest Hp Ho. split; try done.
  - intros at_ E. right. left. rewrite <- Ha. auto.
  - intros sub. auto.
  - intros sub _. congruence.
  - intros at_ Hp' E. rewrite Ha in E. destruct (ready_start _ _ _ Hready at_ (Hp Hp') E) as [Hn Hw]. split; [done|]. apply not_true_is_false. intros Hw'.
    apply Hu in Hw' as [?|(at0 & E0 & _ & ?)]; congruence.
  - do 2 right. destruct (active_turn (shared s)) as [[[|x l] a]|] eqn:E.
    + right. intros at_ E'. split; [congruence|]. rewrite Ha in E'. injection E' as <-. intros Hw. apply Hu in Hw as [?|(at0 & E0 & _ & Hn)]; [done|]. rewrite Ha in E0. by injection E0 as <-.
    + left. exists a. eexists. by split.
    + right. congruence.
  - intros a Hw (at_ & E & ?). left. exists at_. by rewrite Ha.
Qed.

(** A step of the top frame [f] above [fs]. *)
Definition steps_well (t : ThreadId) (s : Session) (f : Frame) (fs : list Frame) (r : result (UserInput:=UserInput)) : Prop :=
  let '(s', fs', spawned, _) := r in LocalStep t s s' (f :: fs) (fs' ++ fs) spawned.
(** What leaves the turns, and adds no input of the user. *)
Definition calm (s s' : Session) : Prop := active_turn (shared s') = active_turn (shared s) ∧ (∀ a, user_waits (shared s') a = true → user_waits (shared s) a = true) ∧
  cancelled s' = cancelled s ∧ killed s' = killed s.
Lemma calm_refl s : calm s s.
Proof using Type. done. Qed.
Lemma calm_record s entries : calm s (record s entries).
Proof using Type. done. Qed.
Lemma calm_hook s x stop contexts (s' : Session) b events : hook_and_record s x stop contexts = (s', b, events) → calm s s'.
Proof using Type. unfold hook_and_record. destruct (inspect_pending_input x stop contexts) as [[] cs]; by intros [= <- <- <-]. Qed.
Lemma calm_take_turn s l c sh : take_turn_input (shared s) = (l, c, sh) → calm s (with_shared s sh).
Proof using Type. intros H. apply user_waits_take_turn in H as (? & ? & _). done. Qed.
Lemma calm_drain s l sh : drain_mailbox_input_items to_string (shared s) = (l, sh) → calm s (with_shared s sh).
Proof using Type. by intros [= <- <-]. Qed.
Lemma calm_queued s l sh : take_queued_response_items_for_next_turn (shared s) = (l, sh) → calm s (with_shared s sh).
Proof using Type. by intros [= <- <-]. Qed.
Lemma calm_defer s a : calm s (with_shared s (defer_mailbox_delivery (shared s) a)).
Proof using Type. split; [cbn; unfold defer_mailbox_delivery; by destruct (pending_input _)|]. split; [|done]. intros b. cbn [shared with_shared]. by rewrite user_waits_defer. Qed.
Lemma calm_accept s a : calm s (with_shared s (accept_mailbox_delivery_for_turn_state (shared s) a)).
Proof using Type. split; [done|]. split; [|done]. intros b. cbn [shared with_shared]. unfold accept_mailbox_delivery_for_turn_state. by rewrite user_waits_same. Qed.
Lemma calm_extend s a l : existsb is_user l = false → calm s (with_shared s (extend_pending_input_for_turn_state (shared s) a l)).
Proof using Type. intros H. split; [done|]. split; [|done]. intros b. cbn [shared with_shared]. by rewrite user_waits_extend_no_user. Qed.
#[local] Hint Resolve calm_refl calm_record calm_hook calm_take_turn calm_drain calm_queued calm_defer calm_accept : core.
Lemma calm_step t s s' old new : Ready t s old → calm s s' → shape t new = true → clean new = true → (∀ sub, t = inr sub → active_task (shared s) sub → running sub old = true → running sub new = true) →
  draining new = [] → resting new = false → (past_abort new = true → past_abort old = true) → (∀ a, user_waits (shared s') a = true → owes a old = false) → LocalStep t s s' old new None.
Proof using Type.
  intros Hready (Ha & Hu & Hc & Hk) ? ? ? Hd ? ? Ho. apply quiet_step; auto; [|intros a Hw Hb; by rewrite Ho in Hb].
  intros sub. rewrite Hc, Hk, Hd. intros [|[|[]%not_elem_of_nil]]; auto.
Qed.
Lemma run_steps t s p sub fs a r : Ready t s (FRun p sub :: fs) → step_run to_string s p sub a = Some r → steps_well t s (FRun p sub) fs r.
Proof using Type.
  intros Hready Hr. pose proof (ready_shape _ _ _ Hready) as Hs. destruct t as [t|sub0]; [by destruct fs as [|? []]|]. cbn [shape] in Hs. destruct fs as [|[] [|]]; try done; destruct p0; try done.
  apply andb_true_iff in Hs as [E1%bool_decide_eq_true E2%bool_decide_eq_true]. subst.
  assert (∀ s' fs', (fs' = [] ∨ ∃ p, fs' = [FRun p sub0]) → calm s s' → LocalStep (inr sub0) s s' [FRun p sub0; FFinish Flush sub0] (fs' ++ [FFinish Flush sub0]) None) as Hq.
  { intros s' fs' Hfs Hc. apply calm_step; try done; destruct Hfs as [->|[p' ->]]; cbn; try done; by rewrite ?bool_decide_eq_true_2. }
  destruct p; destruct a; cbn [step_run] in Hr; try discriminate Hr; repeat (case_match; try discriminate Hr); try discriminate Hr; injection Hr as <-; apply Hq; eauto.
Qed.

(** Steps that leave no turn active, and steps that reserve one. *)
Lemma vacate_step t s s' old new : Ready t s old →
  shape t new = true → clean new = true → active_turn (shared s') = None → (∀ a, user_waits (shared s') a = user_waits (shared s) a) → cancelled s' = cancelled s → killed s' = killed s →
  (∀ sub, sub ∈ draining new → active_task (shared s) sub) → resting new = false → (∀ a, active_at (shared s) a → owes a new = true) → (∀ a, owes a old = false) → LocalStep t s s' old new None.
Proof using Type.
  intros Hready H1 H2 Ha Hu Hc Hk Hd Hr Hh Ho. split; try done.
  - rewrite Ha. done.
  - rewrite Hc, Hk. naive_solver.
  - intros sub _. congruence.
  - rewrite Ha. done.
  - do 3 right. by rewrite Ha.
  - intros a. rewrite Hu. by left.
  - intros a _. right. by apply Hh.
  - intros a _. by rewrite Ho.
Qed.
Lemma occupy_step t s new_state old new : Ready t s old → turn_states (shared s) !! new_state = None → active_turn (shared s) = None →
  shape t new = true → clean new = true → draining new = [] → resting new = false → starting new = true → (∀ a, owes a old = false) →
  LocalStep t s (reserve s new_state) old new None.
Proof using Type.
  intros Hready Hn Ha H1 H2 Hd Hr Hst Ho. split; try done.
  - intros at_ [= <-]. by left.
  - rewrite Hd. cbn [cancelled killed reserve with_shared]. intros sub [|[|[]%not_elem_of_nil]]; auto.
  - intros sub _. congruence.
  - intros at_ _ [= <-]. split; [done|]. rewrite user_waits_reserve by done. by apply user_waits_fresh.
  - auto.
  - intros a. rewrite user_waits_reserve by done. auto.
  - intros a _ (at_ & E & _). congruence.
  - intros a _. by rewrite Ho.
Qed.
Lemma remove_last at_ sub at_' e : length (tasks at_) ≤ 1 → remove_task at_ sub = Some (at_', e) →
  e = true ∧ (∃ k, tasks at_ = [(sub, k)]) ∧ tasks at_' = [] ∧ turn_state at_' = turn_state at_.
Proof using Type.
  destruct at_ as [[|[sub' k] [|y l]] a]; cbn [tasks length]; [done| |lia]. intros _. unfold remove_task, has_sub. cbn. case_bool_decide as E; [|done]. cbn. intros [= <- <-]. cbn in E. subst. eauto.
Qed.
Lemma remove_none at_ sub : length (tasks at_) ≤ 1 → remove_task at_ sub = None → sub ∉ (tasks at_).*1.
Proof using Type.
  destruct at_ as [[|[sub' k] [|y l]] a]; cbn [tasks length]; [intros _ _ []%not_elem_of_nil| |lia]. intros _. unfold remove_task, has_sub. cbn. case_bool_decide as E; [done|]. cbn in *. intros _ H%list_elem_of_singleton. congruence.
Qed.
Lemma same_id (sub : rstring) : bool_decide (sub = sub) = true.
Proof using Type. by apply bool_decide_eq_true_2. Qed.
Lemma same_nat (a : nat) : bool_decide (a = a) = true.
Proof using Type. by apply bool_decide_eq_true_2. Qed.
Lemma finish_steps t s p sub fs a r : Ready t s (FFinish p sub :: fs) → step_finish s p sub a = Some r → steps_well t s (FFinish p sub) fs r.
Proof using Type.
  intros Hready Hr. pose proof (ready_shape _ _ _ Hready) as Hs. destruct t as [t|sub0]; [by destruct fs as [|? []]|]. cbn [shape] in Hs. destruct fs; [|done].
  apply bool_decide_eq_true in Hs as ->. pose proof (same_id sub0) as Hb.
  destruct p as [| |turn|turn [|x rest]|turn]; destruct a; cbn [step_finish] in Hr; try discriminate Hr.
  - injection Hr as <-. cbn [steps_well go]. destruct (bool_decide_reflect (sub0 ∈ cancelled s)) as [E|E]; apply calm_step; try done; cbn; try done.
    intros ? [= <-] Hat. by destruct (ready_live _ _ _ Hready _ Hat).
  - destruct (active_turn (shared s)) as [at_|] eqn:Ha; cbn in Hr; [|injection Hr as <-; apply calm_step; try done; cbn; intros ? _ (at_ & E & _); congruence].
    pose proof (ready_one _ _ _ Hready at_ Ha) as H1. destruct (remove_task at_ sub0) as [[at' e]|] eqn:Er; injection Hr as <-; cycle 1.
    { apply calm_step; try done; cbn. intros ? [= <-] (at0 & E & Hin). rewrite Ha in E. injection E as <-. by destruct (remove_none at_ sub0). }
    destruct (remove_last _ _ _ _ H1 Er) as (-> & [k Ek] & E' & Ea). assert (active_task (shared s) sub0) as Hat by (exists at_; rewrite Ek; split; [done|]; by apply list_elem_of_singleton).
    assert (active_at (shared s) (turn_state at_)) as Hac by (exists at_; by rewrite Ek). cbn [steps_well go app]. split; try done.
    + intros at0 [= <-]. by left.
    + by left.
    + by intros sub [= <-].
    + do 2 right. left. by eexists.
    + by left.
    + intros b _ (at0 & E & <- & _). rewrite Ha in E. injection E as <-. right. cbn. by apply bool_decide_eq_true_2.
  - destruct (take_pending_input_for_turn_state (shared s) turn) as [rest sh] eqn:Et. injection Hr as <-. apply user_waits_take in Et as (Ea & _ & Hu). cbn [steps_well go app].
    apply calm_step; try done; cbn.
    + split; [done|]. split; [|done]. intros b. cbn. rewrite Hu. by destruct (decide (b = turn)).
    + intros b. rewrite Hu. destruct (decide (b = turn)); [done|]. by rewrite bool_decide_eq_false_2.
  - injection Hr as <-. by apply calm_step.
  - destruct (hook_and_record s x _ _) as [[s1 b] events] eqn:E. injection Hr as <-. apply calm_hook in E. by apply calm_step.
  - destruct (active_turn (shared s)) as [[[|] turn']|] eqn:Ha; [|injection Hr as <-; by apply calm_step..]. destruct (bool_decide (turn' = turn)); injection Hr as <-; [|by apply calm_step].
    apply vacate_step; try done; cbn; [intros ? []%not_elem_of_nil|]. intros b (at0 & E & _ & Hn). rewrite Ha in E. by injection E as <-.
Qed.
(** A start: the stack above what follows it. *)
Lemma start_shape t p input k sub fs : shape t (FStart p input k sub :: fs) = true →
  shape t fs = true ∧ past_abort fs = false ∧ starting fs = false ∧ clean fs = true ∧ draining fs = [] ∧ resting fs = false ∧
  ∀ q, shape t (FStart q input k sub :: fs) = true.
Proof using Type. destruct t as [t|sub0]; destruct fs as [|[] [|]]; try done; destruct p0; done. Qed.
Lemma start_steps new t s p input k sub fs r : turn_states (shared s) !! new = None → Ready t s (FStart p input k sub :: fs) → step_start to_string new s p input k sub = Some r →
  steps_well t s (FStart p input k sub) fs r.
Proof using Type.
  intros Hn Hready Hr. destruct (start_shape _ _ _ _ _ _ (ready_shape _ _ _ Hready)) as (Hfs & Hp & Hst & Hcl & Hd & Hres & Hq).
  assert (∀ at_, active_turn (shared s) = Some at_ → tasks at_ = [] ∧ user_waits (shared s) (turn_state at_) = false) as Hs by (intros at_; by apply (ready_start _ _ _ Hready)).
  pose proof (ready_clean _ _ _ Hready) as Hc. destruct p as [|queued|queued pending|items|turn items|]; cbn [step_start] in Hr.
  - destruct (take_queued_response_items_for_next_turn (shared s)) as [queued sh] eqn:E. injection Hr as <-. apply calm_queued in E. by apply calm_step; cbn.
  - destruct (take_turn_input (shared s)) as [[pending accepts] sh] eqn:E. injection Hr as <-. pose proof (calm_take_turn _ _ _ _ E). apply user_waits_take_turn in E as (_ & _ & E).
    assert (no_user pending = true) as Hnu by (apply E; apply Hs). destruct accepts; apply calm_step; try done; try apply Hq. cbn. unfold no_user in *. by rewrite existsb_app, no_user_items.
  - destruct (drain_mailbox_input_items to_string (shared s)) as [mail sh] eqn:E. injection Hr as <-. apply calm_drain in E. apply calm_step; try done; try apply Hq. cbn in *. unfold no_user in *.
    apply negb_true_iff in Hc. by rewrite !existsb_app, !no_user_items, Hc.
  - destruct (active_turn (shared s)) as [at_|] eqn:Ha; injection Hr as <-; [apply calm_step; try done; apply Hq|]. apply occupy_step; try done; apply Hq.
  - injection Hr as <-. cbn in Hc. apply negb_true_iff in Hc. apply calm_step; try done; try apply Hq. by apply calm_extend.
  - assert (∃ a, active_turn (shared r.1.1.1) = Some (mk_turn [(sub, mk_task k)] a) ∧ ∀ b, user_waits (shared r.1.1.1) b = user_waits (shared s) b) as (a & Ha & Hu).
    { destruct (active_turn (shared s)) as [[ts a]|] eqn:Ha; injection Hr as <-; cbn.
      - destruct (Hs _ eq_refl) as [E _]. cbn in E. subst. exists a. by rewrite Ha.
      - exists new. split; [done|]. intros b. by apply user_waits_reserve. }
    assert (cancelled r.1.1.1 = cancelled s ∧ killed r.1.1.1 = killed s ∧ r.1.1.2 = [] ∧ ∃ run, r.1.2 = Some (sub, [run; FFinish Flush sub]) ∧ if run is FRun (Prewarm _) sub' then sub' = sub else if run is FOther _ then True else False)
      as (Ek & El & Ef & run & Er & Hrun) by (injection Hr as <-; destruct (active_turn (shared s)); split_and!; try done; (eexists; split; [done|]; by destruct k)).
    clear Hr. destruct r as [[[s' fs'] spawned] events]. cbn in Ha, Hu, Ek, El, Ef, Er. subst fs' spawned. cbn [steps_well app].
    assert (running sub [run; FFinish Flush sub] = true) as Hr by (destruct run as [| | |[]| | | | | | | |]; try done; apply same_id).
    split; try done.
    + intros sub' task [= <- <-]. destruct run as [| | |[]| | | | | | | |]; try done; subst; cbn; by rewrite ?same_id.
    + intros at_. rewrite Ha. intros [= <-]. eauto 8.
    + intros sub'. rewrite Ek, El, Hd. intros [|[|[]%not_elem_of_nil]]; auto.
    + intros sub' _. congruence.
    + congruence.
    + by left.
    + intros b. rewrite Hu. auto.
    + intros b _ (at_ & E & _ & Hne). by destruct (Hs _ E).
Qed.
Lemma maybe_steps new t s p sub fs r : turn_states (shared s) !! new = None → Ready t s (FMaybe p sub :: fs) → step_maybe new s p sub = Some r → steps_well t s (FMaybe p sub) fs r.
Proof using Type.
  intros Hn Hready Hr. pose proof (ready_shape _ _ _ Hready) as Hs. assert (fs = [] ∨ fs = [FGoal Candidate]) as Hfs by (destruct t, fs as [|[| | | | | | |[]| | | |] [|]]; auto; done).
  destruct p; cbn [step_maybe] in Hr; [| |destruct (active_turn (shared s)) eqn:Ha]; injection Hr as <-.
  - by apply calm_step; destruct t, Hfs as [->| ->].
  - cbn [steps_well go]. destruct (has_trigger_turn_mailbox_items (shared s)); by apply calm_step; destruct t, Hfs as [->| ->].
  - by apply calm_step; destruct t, Hfs as [->| ->].
  - by apply occupy_step; destruct t, Hfs as [->| ->].
Qed.
Lemma goal_steps new t s p fs a r : turn_states (shared s) !! new = None → Ready t s (FGoal p :: fs) → step_goal new s p a = Some r → steps_well t s (FGoal p) fs r.
Proof using Type.
  intros Hn Hready Hr. pose proof (ready_shape _ _ _ Hready) as Hs. assert (fs = []) as -> by (destruct t, fs as [|[] [|]]; auto; done). clear Hs.
  destruct p as [|items|turn items|turn|turn]; destruct a; cbn [step_goal] in Hr; try discriminate Hr.
  - destruct candidate; injection Hr as <-; by apply calm_step; destruct t.
  - destruct (active_turn (shared s)) eqn:Ha; injection Hr as <-; [by apply calm_step; destruct t|by apply occupy_step; destruct t].
  - destruct b; injection Hr as <-; apply calm_step; try (by destruct t). apply calm_extend, no_user_items.
  - injection Hr as <-. cbn [steps_well go]. destruct (reserved s turn); by apply calm_step; destruct t.
  - injection Hr as <-. cbn [steps_well go]. unfold reserved. destruct (active_turn (shared s)) as [[[|] turn']|] eqn:Ha; [|by apply calm_step; destruct t..].
    case_bool_decide; [|by apply calm_step; destruct t]. apply vacate_step; try done; [by destruct t|by intros ? []%not_elem_of_nil|]. intros b (at0 & E & _ & Hne). rewrite Ha in E. by injection E as <-.
Qed.
Lemma take_turn_steps t s f fs reason at_ r : Ready t s (f :: fs) → active_turn (shared s) = Some at_ → (∀ turn aborted subs, shape t (FDrain reason turn aborted subs :: fs) = true) → (∀ a, owes a (f :: fs) = false) →
  take_turn s reason at_ = Some r → steps_well t s f fs r.
Proof using Type.
  intros Hready Ha Hs Ho Hr. injection Hr as <-. apply vacate_step; try done; [apply Hs|by exists at_|]. intros a (at0 & E & <- & Hne). rewrite Ha in E. injection E as <-. cbn. destruct (tasks at_); [done|]. apply same_nat.
Qed.
(** An abort: alone, or before a start that replaces what was there. *)
Definition abort_frame (f : Frame) : option TurnAbortReason := match f with FAbortAll r | FDrain r _ _ _ | FWait r _ _ _ _ => Some r | _ => None end.
Lemma abort_shape t f fs reason : abort_frame f = Some reason → shape t (f :: fs) = true →
  shape t fs = true ∧ (fs = [] ∨ reason = Replaced) ∧ clean fs = true ∧ past_abort fs = starting fs ∧ (∀ a, owes a fs = false) ∧ draining fs = [] ∧ resting fs = false ∧ (∃ n, t = inl n) ∧
  ∀ g, abort_frame g = Some reason → shape t (g :: fs) = true.
Proof using Type.
  intros Hf Hs. destruct t as [n|sub]; [|by destruct f]. destruct fs as [|g fs].
  - split_and!; try done; eauto. intros h Hh. by destruct h as [| | | | | | | |[]| |[]|[]].
  - assert (reason = Replaced) as -> by (destruct f as [| | | | | | | |[]| |[]|[]]; destruct g; try done; by injection Hf as <-). destruct f as [| | | | | | | |[]| |[]|[]]; try done; destruct g as [| |[]| | | | | | | | |]; try done; destruct fs; try done;
      split_and!; eauto; intros h Hh; destruct h as [| | | | | | | |[]| |[]|[]]; done.
Qed.
Lemma drain_steps t s reason turn aborted subs fs a r : Ready t s (FDrain reason turn aborted subs :: fs) → step_drain s reason turn aborted subs a = Some r → steps_well t s (FDrain reason turn aborted subs) fs r.
Proof using Type.
  intros Hready Hr. destruct (abort_shape _ (FDrain reason turn aborted subs) _ reason eq_refl (ready_shape _ _ _ Hready)) as (Hs & Hre & Hcl & Hp & Ho & Hd & Hrest & [n ->] & Hg).
  destruct subs as [|task rest]; destruct a; try done; cbn [step_drain] in Hr.
  - destruct aborted; injection Hr as <-.
    + assert (∀ fs', fs' = [] ∨ (∃ sub, fs' = [FMaybe CheckQueued sub]) ∧ fs = [] → LocalStep (inl n) s (with_shared s (clear_pending (shared s) turn)) (FDrain reason turn true [] :: fs) (fs' ++ fs) None) as Hq.
      { intros fs' Hfs'. assert (calm s (with_shared s (clear_pending (shared s) turn))) as Hc.
        { split; [done|]. split; [|done]. intros b. cbn [shared with_shared]. rewrite user_waits_clear. by destruct (decide _). }
        apply calm_step; try done; try (by destruct Hfs' as [->|[[sub' ->] ->]]).
        - destruct Hfs' as [->|[[sub' ->] ->]]; [cbn [app]; by rewrite Hp|done].
        - intros b. cbn [shared with_shared owes]. rewrite user_waits_clear. destruct (decide (b = turn)); [done|]. by rewrite bool_decide_eq_false_2. }
      apply Hq. destruct Hre as [-> | ->]; [|by left]. destruct reason; eauto.
    + apply calm_step; try done. cbn [app]. by rewrite Hp.
  - case_bool_decide as E; injection Hr as <-; apply quiet_step; try done; try (by apply Hg); try (by left); cbn; intros sub; set_solver.
Qed.
Lemma wait_steps t s reason turn aborted task rest fs a r : Ready t s (FWait reason turn aborted task rest :: fs) → step_wait s reason turn aborted task rest a = Some r →
  steps_well t s (FWait reason turn aborted task rest) fs r.
Proof using Type.
  intros Hready Hr. destruct (abort_shape _ (FWait reason turn aborted task rest) _ reason eq_refl (ready_shape _ _ _ Hready)) as (Hs & Hre & Hcl & Hp & Ho & Hd & Hrest & [n ->] & Hg). destruct a; try done. cbn [step_wait] in Hr.
  assert (∀ s', shared s' = shared s → cancelled s' = cancelled s → killed s' = {[task]} ∪ killed s → LocalStep (inl n) s s' (FWait reason turn aborted task rest :: fs) (FDrain reason turn aborted rest :: fs) None) as Hq.
  { intros s' E1 E2 E3. apply quiet_step; try done; rewrite ?E1, ?E2, ?E3; try done; [by apply Hg|by left|cbn; intros sub; set_solver]. }
  injection Hr as <-. apply Hq; destruct reason, b; done.
Qed.
Lemma user_steps t s items sub fs r : Ready t s (FUser items sub :: fs) → (match steer_input (shared s) items None with
      | Ok (_, sh) => Some (with_shared s sh, [], None, [Accepted (InputUser items)])
      | Err (NoActiveTurn items) => Some (s, spawn_task items Regular sub, None, map Accepted (user_input items))
      | _ => go s [] end) = Some r → steps_well t s (FUser items sub) fs r.
Proof using Type.
  intros Hready Hr. pose proof (ready_shape _ _ _ Hready) as Hs. assert ((∃ n, t = inl n) ∧ fs = []) as [[n ->] ->] by (destruct t; [destruct fs|]; eauto; done).
  destruct (steer_input (shared s) items None) as [[id sh]|[]|] eqn:E; injection Hr as <-; [|by apply calm_step..].
  apply user_waits_steer in E as [Ea Eu]. by apply quiet_step.
Qed.
Lemma step_frame_well new t s f fs a r : turn_states (shared s) !! new = None → Ready t s (f :: fs) → step_frame new s f a = Some r → steps_well t s f fs r.
Proof using Type.
  intros Hn Hready Hr. destruct f as [items sub|m sub|p input k sub|p sub|input|p sub|p sub|p|reason|id reason|reason turn aborted subs|reason turn aborted task rest]; cbn [SessionTurns.step_frame] in Hr.
  - by apply user_steps.
  - pose proof (ready_shape _ _ _ Hready) as Hs. assert ((∃ n, t = inl n) ∧ fs = []) as [[n ->] ->] by (destruct t; [destruct fs|]; eauto; done). injection Hr as <-.
    cbn [steps_well]. destruct (trigger_turn m); by apply calm_step.
  - by eapply start_steps.
  - by eapply run_steps.
  - pose proof (ready_shape _ _ _ Hready) as Hs. destruct t as [t|sub0]; [by destruct fs as [|? []]|]. cbn [shape] in Hs. destruct fs as [|[] [|]]; try done; destruct p; try done. injection Hr as <-.
    by apply calm_step.
  - by eapply finish_steps.
  - by eapply maybe_steps.
  - by eapply goal_steps.
  - destruct (abort_shape _ (FAbortAll reason) _ reason eq_refl (ready_shape _ _ _ Hready)) as (Hs & Hre & Hcl & Hp & Ho & Hd & Hrest & [n ->] & Hg). destruct (active_turn (shared s)) as [at_|] eqn:Ha.
    + eapply take_turn_steps; try done. intros. by apply Hg.
    + injection Hr as <-. apply vacate_step; try done; cbn [app]; [by rewrite Hd; intros ? []%not_elem_of_nil|]. intros b (at0 & E & _). congruence.
  - pose proof (ready_shape _ _ _ Hready) as Hs. assert ((∃ n, t = inl n) ∧ fs = []) as [[n ->] ->] by (destruct t; [destruct fs|]; eauto; done).
    destruct (active_turn (shared s)) as [at_|] eqn:Ha; [|injection Hr as <-; by apply calm_step]. destruct (contains_task at_ id); [eapply take_turn_steps; try done; intros; by destruct reason|injection Hr as <-; by apply calm_step].
  - by eapply drain_steps.
  - by eapply wait_steps.
Qed.

(** ** Every step keeps the invariant *)
Lemma steady_ready sys t fs : Steady sys → threads sys !! t = Some fs → Ready t (session sys) fs.
Proof using Type.
  intros Hsys Ht. split; [by eapply steady_shape|by eapply steady_clean|by apply steady_one| |intros; by eapply steady_start].
  intros sub Ha Hc. apply (steady_live _ Hsys sub Ha). by left.
Qed.
(** Input that arrives from outside. *)
Lemma steady_shared sys sh : Steady sys → active_turn sh = active_turn (shared (session sys)) →
  (∀ a, user_waits sh a = true → user_waits (shared (session sys)) a = true ∨ active_at sh a) → Steady (mk_system (with_shared (session sys) sh) (threads sys) (started sys)).
Proof using Type.
  intros [H1 H2 H3 H4 H5 H6 H7 H8 H9] Ha Hu. split; unfold active_task, active_at, drained in *; cbn [session threads started shared with_shared cancelled killed] in *; rewrite ?Ha in *; try done.
  - intros t fs at_ Ht Hp E. destruct (H8 _ _ _ Ht Hp E) as [Hn Hw]. split; [done|]. apply not_true_is_false. intros Hw'. apply Hu in Hw' as [?|(at0 & E0 & _ & ?)]; congruence.
  - intros a Hw. destruct (Hu a Hw); auto.
Qed.
Lemma steady_call sys n c : Steady sys → threads sys !! (inl n : ThreadId) = None → Steady (mk_system (session sys) (<[inl n := call_frames c]> (threads sys)) (started sys)).
Proof using Type.
  intros [H1 H2 H3 H4 H5 H6 H7 H8 H9] Hn. assert (∀ sub fs, <[inl n := call_frames c]> (threads sys) !! (inr sub : ThreadId) = Some fs ↔ threads sys !! inr sub = Some fs) as Hr by (intros; by rewrite lookup_insert_ne).
  assert (∀ sub, drained (mk_system (session sys) (<[inl n := call_frames c]> (threads sys)) (started sys)) sub → drained sys sub) as Hd.
  { intros sub [|[|(t & fs & Ht & Hin)]]; [by left|by right; left|]. cbn [threads] in Ht. apply lookup_insert_Some in Ht as [[<- <-]|[_ Ht]]; [by destruct c; apply not_elem_of_nil in Hin|]. right. right. eauto. }
  split; cbn [session threads started]; try done.
  - intros t fs [[<- <-]|[_ Ht]]%lookup_insert_Some; [by destruct c as [| | |? []| | |]|auto].
  - intros t fs [[<- <-]|[_ Ht]]%lookup_insert_Some; [by destruct c|eauto].
  - intros sub fs. rewrite Hr. eauto.
  - auto.
  - intros sub Ha. destruct (H6 sub Ha) as (Hnd & fs & Hfs & Hrun). split; [auto|]. exists fs. by rewrite Hr.
  - intros sub fs. rewrite Hr. intros Hfs Hrest Hdr. by eapply H7; [..|apply Hd].
  - intros t fs at_ [[<- <-]|[_ Ht]]%lookup_insert_Some; [by destruct c|eauto].
  - intros a Hw. destruct (H9 a Hw) as [|(t & fs & Ht & Ho)]; [by left|]. right. exists t, fs. split; [|done]. rewrite lookup_insert_ne; [done|]. congruence.
Qed.
(** A thread ends, by itself or killed. *)
Lemma steady_end sys t fs : Steady sys → threads sys !! t = Some fs → (∀ a, owes a fs = false) → (∀ sub, t = inr sub → ¬ active_task (shared (session sys)) sub) →
  Steady (mk_system (session sys) (delete t (threads sys)) (started sys)).
Proof using Type.
  intros [H1 H2 H3 H4 H5 H6 H7 H8 H9] Ht Ho Hna. assert (∀ sub, drained (mk_system (session sys) (delete t (threads sys)) (started sys)) sub → drained sys sub) as Hd.
  { intros sub [|[|(t' & fs' & Ht' & Hin)]]; [by left|by right; left|]. cbn [threads] in Ht'. apply lookup_delete_Some in Ht' as [_ Ht']. right. right. eauto. }
  split; cbn [session threads started]; try done; try (intros *; rewrite lookup_delete_Some; intros [_ ?]; by eauto).
  - auto.
  - intros sub Ha. destruct (H6 sub Ha) as (Hnd & fs' & Hfs & Hrun). split; [auto|]. exists fs'. rewrite lookup_delete_ne; [done|]. intros E. by eapply Hna.
  - intros sub fs' [_ Ht']%lookup_delete_Some Hr Hdr. by eapply H7; [..|apply Hd].
  - intros a Hw. destruct (H9 a Hw) as [|(t' & fs' & Ht' & Hw')]; [by left|]. right. exists t', fs'. split; [|done]. rewrite lookup_delete_ne; [done|]. intros ->. rewrite Ht in Ht'. injection Ht' as <-. by rewrite Ho in Hw'.
Qed.
Lemma exec_steady c sys new sys' : Steady sys → one_start sys → exec c sys = Some (new, sys') → one_start sys' → Steady sys'.
Proof using Type.
  intros Hsys H1 H H1'. destruct c as [t call|items expected|items|items n limit|items|t fresh a|t|sub]; cbn [SessionTurns.exec] in H.
  - destruct (threads sys !! _) eqn:E; [done|]. injection H as <- <-. by apply steady_call.
  - destruct (steer_input _ _ _) as [[id sh]| |] eqn:E; injection H as <- <-; [|done..]. apply user_waits_steer in E as [Ea Eu]. by apply steady_shared.
  - unfold inject_response_items in H. destruct (active_turn _) eqn:Ea; injection H as <- <-; [|done]. apply steady_shared; [done|done|]. intros b. rewrite user_waits_extend_no_user by apply no_user_items. by left.
  - destruct (inject_response_items_with_url_attachment_budget _ _ _ _) as [sh| |] eqn:E; injection H as <- <-; [|done..]. unfold inject_response_items_with_url_attachment_budget, reserve_url_attachments in E.
    destruct (active_turn _) as [at_|] eqn:Ea; [|done]. destruct (_ <? _)%N; [done|]. injection E as <-. apply steady_shared; [done|by rewrite Ea|]. intros b. rewrite user_waits_set. cbn [pending_input with_input].
    destruct (decide (b = turn_state at_)) as [->|]; [|by left]. rewrite existsb_app, no_user_items, orb_false_r. by left.
  - injection H as <- <-. unfold queue_response_items_for_next_turn. apply steady_shared; [done|by destruct items|]. intros b. by destruct items; left.
  - destruct (threads sys !! t) as [[|f fs]|] eqn:Et; [done| |done]. destruct (turn_states _ !! fresh) eqn:En; [done|]. destruct (step_frame _ _ _ _) as [[[[s' fs'] spawned] new_events]|] eqn:Es; [|done].
    apply (step_frame_well _ t _ _ fs) in Es; [|done|by apply steady_ready]. cbn [steps_well] in Es. destruct spawned as [[sub task]|].
    + destruct (bool_decide_reflect (sub ∈ started sys)) as [|Hns]; [done|]. destruct (threads sys !! inr sub) eqn:Esub; [done|]. injection H as <- <-.
      apply (steady_after sys t (f :: fs) (fs' ++ fs) s' (Some (sub, task))); try done. by intros ? ? [= <- <-].
    + injection H as <- <-. by apply (steady_after sys t (f :: fs) (fs' ++ fs) s' None).
  - destruct (threads sys !! t) as [[|f fs]|] eqn:Et; [|done..]. injection H as <- <-. eapply steady_end; try done. intros sub -> Ha. destruct (steady_live _ Hsys sub Ha) as (_ & fs & Hfs & Hr). rewrite Et in Hfs. by injection Hfs as <-.
  - destruct (threads sys !! inr sub) as [fs|] eqn:Et; [|done]. destruct (bool_decide_reflect (sub ∈ killed (session sys))) as [Hk|]; [|done]. injection H as <- <-.
    assert (drained sys sub) as Hd by (right; by left). eapply steady_end; try done.
    + intros a. apply not_true_is_false. intros Ho. apply (steady_rest _ Hsys _ _ Et); [|done]. pose proof (steady_shape _ Hsys _ _ Et) as Hs. destruct fs as [|[| | | | |[]| | | | | |]]; done.
    + intros ? [= <-] Ha. by apply (steady_live _ Hsys sub Ha).
Qed.
Lemma steady_initial : Steady initial.
Proof using Type.
  split; cbn; try done.
  - intros sub [H|[H|(t & fs & H & _)]]; set_solver.
  - by intros sub (at_ & H & _).
Qed.
Lemma serial_steady events sys : serial_run events sys → Steady sys ∧ one_start sys.
Proof using Type.
  induction 1 as [|events sys c new sys' _ [IH1 IH2] Hs H1]; [split; [apply steady_initial|by intros t1 t2 fs1 fs2 H]|]. split; [by eapply exec_steady|done].
Qed.

(** ** What a session promises *)
Lemma tally_none (P : TurnInput → bool) l : (∀ x, P x = true → is_user x = true) → existsb is_user l = false → tally P l = 0.
Proof using Type.
  intros HP. unfold tally. induction l as [|x l IH]; cbn; [done|]. intros [Hx Hl]%orb_false_iff. destruct (P x) eqn:Ep; [|by apply IH]. apply HP in Ep. congruence.
Qed.
Lemma nothing_waits (P : TurnInput → bool) sys : (∀ x, P x = true → is_user x = true) → Steady sys → threads sys = ∅ → kept to_string P (shared (session sys)) = 0.
Proof using Type.
  intros HP Hsys He. unfold kept, stored. rewrite (tally_none P (map InputItem _)), (tally_none P (map _ _)) by (done || apply no_user_items || (induction (mailbox_pending_mails (queue (shared (session sys)))); done)). rewrite total_zero; [done|].
  intros a st Ha. apply tally_none; [done|]. apply not_true_is_false. intros Hw. destruct (steady_owned sys Hsys a) as [(at_ & Hat & _ & Hne)|(t & fs & Ht & _)].
  - unfold user_waits, state_at. by rewrite Ha.
  - destruct (tasks at_) as [|[sub k] l] eqn:E; [done|]. destruct (steady_live _ Hsys sub) as (_ & fs & Hfs & _); [exists at_; rewrite E; split; [done|]; by left|]. by rewrite He in Hfs.
  - by rewrite He in Ht.
Qed.
(** C10: what a user steers into a turn is not lost ([Session::steer_input], [start_task], [on_task_finished], [abort_all_tasks]).
    In every run where turns start one at a time, whatever else interleaves: a turn has at most one task, which is running and not
    cancelled; input of the user only ever waits in the turn of such a task, or with a routine that is about to record or
    clear it; so that when nothing runs any more, every such input that was accepted was recorded, blocked by a hook, or
    dropped because its turn was aborted or stopped. *)
Theorem user_inputs_are_not_lost events sys : serial_run events sys →
  (∀ at_, active_turn (shared (session sys)) = Some at_ → length (tasks at_) ≤ 1 ∧
    (∀ sub, sub ∈ ((tasks at_).*1) → (sub ∉ cancelled (session sys)) ∧ (∃ fs, threads sys !! inr sub = Some fs ∧ running sub fs = true))) ∧
  (∀ a, user_waits (shared (session sys)) a = true → active_at (shared (session sys)) a ∨ ∃ t fs, threads sys !! t = Some fs ∧ owes a fs = true) ∧
  (threads sys = ∅ → ∀ P, (∀ x, P x = true → is_user x = true) → tally P (accepted events) = tally P (recorded events) + tally P (blocked_by_hooks events) + tally P (dropped events)).
Proof using Type.
  intros Hrun. destruct (serial_steady _ _ Hrun) as [Hsys _]. split_and!.
  - intros at_ Ha. split; [by apply (steady_one sys Hsys)|]. intros sub Hin. destruct (steady_live _ Hsys sub) as [Hd Hfs]; [by exists at_|]. split; [|done]. intros Hc. apply Hd. by left.
  - apply (steady_owned _ Hsys).
  - intros He P HP. pose proof (run_balanced to_string P _ _ (serial_run_run _ _ Hrun)) as H. unfold stock, gone, in_hand in H. rewrite He, total_empty, (nothing_waits P sys HP Hsys He) in H. lia.
Qed.
End steering.

(** What the user steers in after the last request is recorded at the end of the turn. *)
Import Example_turns.
Definition steered : list (Choice (UserInput:=N)) :=
  start 0 0 7 (lit "a") ++ [ByExit (inl 0)] ++ answered (lit "a") 20 ++ [BySteer [8%N] (Some (lit "a"))]
  ++ steps (inr (lit "a")) 40 [ANone; ANone; ANone; AHook false []; ANone; ASub (lit "next"); ANone; ANone; AGoal None] ++ [ByExit (inr (lit "a"))].
Definition steered_end : list Event * System := default ([], initial) (exec_serial json steered [] initial).
Lemma user_inputs_are_not_lost_witness : recorded steered_end.1 = [InputUser [7%N]; InputUser [8%N]] ∧ tally is_user (accepted steered_end.1) = 2 ∧ tally (λ x, if x is InputUser [8%N] then true else false) (accepted steered_end.1) = 1.
Proof.
  assert (serial_run json steered_end.1 steered_end.2) as Hr.
  { unfold steered_end. destruct (exec_serial json steered [] initial) as [[events sys]|] eqn:E; [|exact (serial_initial _)]. eapply exec_serial_run; [apply serial_initial|exact E]. }
  destruct (user_inputs_are_not_lost json _ _ Hr) as (_ & _ & Ht). split; [vm_compute; reflexivity|]. assert (threads steered_end.2 = ∅) as He by (vm_compute; reflexivity).
  split; [rewrite (Ht He) by done; vm_compute; reflexivity|]. rewrite (Ht He); [vm_compute; reflexivity|]. by intros [].
Defined.
